(* ===== verification/_CoqProject ===== *)
-Q . S2P
Prelude.v
JsMap.v
Json.v
JsStr.v
JsonText.v
StableJson.v
JsHeap.v
CommandSchema.v
CommandSchemaSpec.v
Extension.v
BatchOrder.v
EventLog.v
SseProvider.v
Protocol.v
ExecutionBinding.v
ExecutionBindingSpec.v
ExecutionBindingLaws.v
StorageCodec.v
StorageRpc.v
DelegationGraph.v
DelegationRuntime.v
DelegationService.v
DelegationHistory.v
ProviderTurn.v
ActiveAbort.v
WorkerLoop.v
Program.v
Worker.v
WorkspacePath.v
WorkspaceProtocol.v
Changeset.v
WorkspaceTransaction.v
WorkspaceRuntime.v
ProposalApply.v
WorkspaceTask.v
TaskRuntime.v
TaskSafety.v
TaskRecovery.v
TaskAdmission.v
TaskLease.v
AgentHost.v
HostStream.v
