(* ===== verification/Prelude.v ===== *)
(** * A verification library for Wanex

    Wanex is a durable agent runtime in TypeScript over a storage service in Rust.  Agents
    run as jobs; a team hands the nodes of a delegation graph to jobs; a provider streams a
    model's answer; and what an agent changes in a workspace goes through change sets,
    transactions and reviewed proposals.  This library translates that core into executable
    definitions and proves what makes each part correct.  A comment such as
    [[packages/team/src/...]] names the file, relative to [src/], that a definition
    translates.

    ** The parts and how they call each other

    - [StorageCodec], [StorageRpc]: the client of the storage service, from records to JSON
      and over a transport that may fail ([packages/storage/src]).  [StorageRpc] declares
      the store interfaces [SchedulerStore] and [DelegationStore] and implements them over
      any transport.
    - [DelegationGraph], [DelegationRuntime]: the status of a graph and one scheduling step
      ([packages/team/src/delegation/graph]), proved against the store interfaces and the
      laws of [DelegationLaws].
    - [DelegationService]: the service's own delegation store and the jobs it enqueues
      ([crates/system-service/src/delegation.rs], [scheduler.rs]); it satisfies the laws,
      so the runtime's theorems hold of the runtime over the service.  [DelegationHistory]:
      what the delegation of a team's tasks writes to the rows of the graphs
      ([team/delegation.rs], [team/delegation/settlement.rs]), and histories of all writers.
    - [WorkerLoop], [Worker], [ActiveAbort]: the worker's loop and a job's heartbeat, one run
      of a worker, and the registry that aborts running jobs ([packages/runtime/src/jobs]).
    - [SseProvider], [ProviderTurn]: a provider's event stream, and the turn that collects
      it into a response ([packages/runtime/src/provider]).
    - [Changeset], [WorkspaceTransaction], [WorkspaceRuntime]: planning a change set,
      executing and recovering it as a transaction, and the runtime that applies and undoes
      change sets ([packages/workspace/src/changesets], [transaction], [runtime.ts]).
    - [WorkspacePath]: the paths that a workspace admits, and their resolution under its root
      ([packages/workspace/src/path-policy.ts]).
    - [BatchOrder], [ProposalApply]: the order in which a batch of proposals is applied, and
      the application of proposals by the workspace runtime
      ([packages/workspace/src/review/apply]).
    - [WorkspaceTask], [TaskRuntime], [TaskRecovery], [TaskAdmission], [TaskLease]: tasks that
      an agent runs in an isolated workspace ([packages/workspace/src/tasks]).
      [WorkspaceTask] has their records, errors, identities and payloads
      ([types.ts], [receipt.ts], [identity.ts], [codec.ts]); [TaskRuntime] runs, continues and
      recovers a task ([runtime.ts], [recovery.ts], [job.ts]), under the bindings of
      [ExecutionBinding]; [TaskAdmission] recovers what expired ([recovery-admission.ts]);
      [TaskLease] has what runs beside a task ([renewal.ts], [execution.ts]).  [TaskSafety] and
      [TaskRecovery] hold the protocols that a task and a recovery follow.
    - [JsHeap], [CommandSchema], [CommandSchemaSpec]: untrusted JavaScript objects on a heap,
      the parser of the input schemas of commands that extensions contribute, and the
      documents that it accepts ([packages/extension/src/command-input-schema-*.ts]).
    - [Extension]: the resolution of what extensions contribute into one snapshot
      ([packages/extension/src/resolver-*.ts]).
    - [ExecutionBinding], [ExecutionBindingSpec], [ExecutionBindingLaws]: policies of
      execution environments, the bindings that record what was admitted, and application
      scopes; the documents that their checks accept; and what holds of the bindings that
      the runtime makes ([packages/runtime/src/execution], [packages/storage/src]).
    - [EventLog]: the log of surface events a user interface pages through
      ([apps/assistant/src/surface/event-log.ts]).
    - [AgentHost]: the messages between an agent host and its clients, the guards that check
      them, and the client ([packages/protocol/src/agent-host.ts]).  [HostStream]: the events
      that a remote client receives, replayed from its cursor and then live, through a bounded
      queue ([packages/runtime/src/host/remote-event-stream.ts]); its replayed pages pass the
      guards of [AgentHost].

    Shared files: this one (results, the state and error monads, lists, sorting with a
    JavaScript comparator); [JsMap] ([Map] and [Set] in insertion order); [Json] (JSON
    values; a number is an IEEE binary64); [JsStr] (strings of UTF-16 units); [JsonText] and
    [StableJson] (the text that [JSON.stringify] writes, and the canonical texts that digests
    are taken of); [Protocol] and
    [WorkspaceProtocol] (the records of [packages/protocol/src]); [Program] (programs over
    the calls of an environment, their traces, monitors and weakest preconditions).

    ** How code is modelled

    A function that may throw returns a [result].  Code with state is a function in [stM],
    with the state explicit; code whose objects are shared and mutated ([ActiveAbort])
    keeps them in a heap.  Code that runs on the event loop ([WorkerLoop]) is a step
    relation in which timers, settled promises and callers interleave.  An [async] function
    whose collaborators may fail at any call ([WorkspaceTransaction]) is a [prog], the tree
    of its calls; its theorems quantify over everything the collaborators may answer.
    Hashes, [JSON.parse], text decoding, locale comparison, clocks and random identifiers
    are parameters or inputs.  What a theorem needs of them is a named class
    ([TextDecoderLaws], [SnapshotReader], [WorkspaceFiles], [DelegationLaws]), and each has
    an instance among the examples or, for [DelegationLaws], in [DelegationService].

    ** What the theorems show

    - [BatchOrder]: the planner is the greedy schedule (refinement), a permutation in which
      every item follows its dependencies; it throws the cycle error exactly on cycles, and
      always returns a plan or a documented error.
    - [EventLog]: the recorder's invariant; [read] returns exactly the retained events after
      a cursor; paging returns every one once.
    - [SseProvider]: the chunked parser is a one-pass specification of the decoded text;
      how the bytes are cut does not matter; limits bound every event and change no result.
    - [StorageCodec]: rows round-trip from the service's printer to the client's decoder.
      [StorageRpc]: a call refines the service's operation, and is retried at most three
      times, with its delays.
    - [DelegationGraph]: ready and blocked nodes, counts and progress mean what they say,
      and an acyclic unfinished graph always has something to do.  [DelegationRuntime]: the
      synchronisation of a node, and the safety and effect of one step.
      [DelegationService]: the client's ready nodes are those the service accepts; finished
      nodes stay finished.  [DelegationHistory]: a node is claimed for a job at most once, and
      has the job it was last given.
    - [ProviderTurn]: what a returned response contains, its bounds, the order of its
      effects, and the flag on the errors it throws.
    - [ActiveAbort], [WorkerLoop]: invariants of the registry and of the loops, their
      liveness, the window in which a wake-up is lost, and the one in which it makes two runs
      overlap.  [Worker]: whatever fails, a run registers its job before the handler, tells the
      store at most one completion and one failure, and gives up the heartbeat and the
      registration.
    - [WorkspacePath]: no path leads out of the workspace's root, whether it is read, listed
      or written, or names a directory.
    - [Changeset]: a receipt is conflicted exactly when a path does not admit its change,
      otherwise committing its files makes every change and no other; every receipt is
      well-formed; an undo restores what the change set replaced.
    - [WorkspaceTransaction]: whatever fails and wherever, the calls of an execution and of
      a recovery follow the protocol that a monitor describes, and the lease and the helper
      are given up.  [WorkspaceRuntime]: applying a change set is atomic, and undoing it
      puts the files back; both are consequences of the protocol and of the plan.
    - [ProposalApply]: the conflicts of a batch are exactly the overlaps that no dependency
      explains; a batch attempts a proposal only after [applyProposal] returned that what it
      depends on is applied, and reports what [applyProposal] returned.
    - [WorkspaceTask]: a serialised error does not show the paths it is told to hide; a job's payload
      is decoded from exactly the objects that are written.  [TaskSafety]: whatever fails,
      a task and its continuation follow a monitor over the calls of the store, the isolation,
      the scope, the handler and the projection, which says when each may be made and what
      must have been given up at the end.  [TaskRecovery]: the same of a recovery, which
      releases only what it claimed under an unchanged environment.  [TaskAdmission]: every
      expired run is recovered once, within the limit, and what is left over is told.
      [TaskLease]: the renewal never overlaps itself and stays failed; a process whose
      clean-up failed blocks the next; the combined signal.
    - [CommandSchemaSpec]: a value is accepted exactly when it is the JSON document of a
      well-formed schema within the limits (so it has no cycle, no accessor and no unknown
      keyword); what is returned is a fixed point of the parser; and the parser always ends.
    - [Extension]: only what passes the validation is in a snapshot; the order in which
      contributions are passed does not matter; and where contributions replace each other
      the last in source order stays.
    - [AgentHost]: the guards accept exactly the documents of well-formed messages; the
      client sends the message of its call, and returns exactly a well-formed response to it,
      whatever document or other plain value the transport gives.  [HostStream]: in every
      interleaving a reader gets events of one stream without a gap, then at most one reset;
      no live event is lost while the stream is open; a stream that was reset ends when it is
      read (and two ways in which it does not); a cursor is read back as it is written.
    - [StableJson]: a canonical text has one value up to the order of fields.
      [ExecutionBindingSpec]: the checks of the runtime and of the storage client accept the
      documents of typed bindings in canonical form.  [ExecutionBindingLaws]: a binding or a
      scope that is made passes both, where the locale sorts names as their units do (and
      is rejected where it does not); a binding equals the admitted one exactly when their
      documents do; normalising a policy keeps what it permits.

    ** Bounds and fuel

    [BatchOrder.drain] runs with one unit of fuel per item, and [DrainFuel] is shown
    unreachable; [SseProvider.fragment_loop] with one more than the length of what it
    splits; [EventLog.read_all], a specification, with one more than the number of events
    left.  [StorageRpc.call_loop] counts down the attempts that the code itself bounds by
    four.  The recursions of [CommandSchema] run with one unit of fuel more than the depth
    that the code allows, and [OutOfFuel] is shown unreachable.  All other recursion is
    structural.

    ** Not modelled

    User interfaces, command lines, build scripts, generated code and bindings; processes,
    sockets, file systems and git; the adapters of the single providers; the tables of the
    service beyond delegation and scheduling.  In the modelled parts: the renewal timer of a
    transaction's lease and the wire protocol of its helper process appear only through
    their outcomes, the text of SQL only through what it selects and writes, and the causes
    of an error only through its name and message.

    Of the packages that hold logic of the same kind, these are not modelled yet: the
    reviews of proposals ([workspace/src/review/proposals.ts]), the git projection of a
    worktree ([workspace/src/git]), the service's workspace store
    ([crates/system-service/src/workspace]), the codecs of the domains beyond jobs,
    delegation and bindings ([storage/src/codec-*.ts]), the HTTP and IPC transports of a host
    ([runtime/src/host]), context compaction, and the conversations of a team.

    Assumptions worth knowing: the strategy of a stored run does not change
    ([TaskSafety.possible]); the promises of a [Promise.all] are awaited in the order of the
    array; [Date.now()] is an integer. *)
From stdpp Require Export base list gmap strings sorting.
From Stdlib Require Export ZArith Lia.

(** * Results: a JavaScript computation returns a value or throws *)

Inductive result (E A : Type) : Type :=
| Ok (a : A)
| Throw (e : E).
Arguments Ok {E A} a.
Arguments Throw {E A} e.

#[export] Instance result_ret E : MRet (result E) := fun A a => Ok a.
#[export] Instance result_bind E : MBind (result E) := fun A B f r =>
  match r with Ok a => f a | Throw e => Throw e end.
#[export] Instance result_fmap E : FMap (result E) := fun A B f r =>
  match r with Ok a => Ok (f a) | Throw e => Throw e end.

Definition is_ok {E A} (r : result E A) : bool :=
  match r with Ok _ => true | Throw _ => false end.

(** [guard_throw c e] is [if (c) throw e]. *)
Definition guard_throw {E} (c : bool) (e : E) : result E unit :=
  if c then Throw e else Ok tt.

Lemma result_bind_Ok {E A B} (r : result E A) (f : A → result E B) b :
  r ≫= f = Ok b ↔ ∃ a, r = Ok a ∧ f a = Ok b.
Proof. destruct r; simpl; naive_solver. Qed.

Lemma result_bind_Throw {E A B} (r : result E A) (f : A → result E B) e :
  r ≫= f = Throw e ↔ r = Throw e ∨ ∃ a, r = Ok a ∧ f a = Throw e.
Proof. destruct r; simpl; naive_solver. Qed.

Lemma guard_throw_Ok {E} c (e : E) u : guard_throw c e = Ok u ↔ c = false.
Proof. destruct c, u; simpl; naive_solver. Qed.

Lemma guard_throw_Throw {E} c (e e' : E) :
  guard_throw c e = Throw e' ↔ c = true ∧ e = e'.
Proof. destruct c; simpl; naive_solver. Qed.

Create Rewrite HintDb result.
#[export] Hint Rewrite @result_bind_Ok @result_bind_Throw
  @guard_throw_Ok @guard_throw_Throw : result.

(** Invert every monadic step in the hypotheses. *)
Ltac inv_result :=
  repeat match goal with
  | H : _ ≫= _ = Ok _ |- _ => apply result_bind_Ok in H as (? & ? & H)
  | H : guard_throw _ _ = Ok _ |- _ => apply guard_throw_Ok in H
  | H : guard_throw _ _ = Throw _ |- _ => apply guard_throw_Throw in H as [? ?]
  | x : unit |- _ => destruct x
  | _ => progress simplify_eq
  end.

(** Split a throwing monadic hypothesis into its possible origins. *)
Ltac inv_throw H :=
  repeat (apply result_bind_Throw in H as [H|(? & _ & H)]);
  try (apply guard_throw_Throw in H as [_ <-]).

(** Split the test a hypothesis is stuck on. *)
Ltac case_if H Hd :=
  match type of H with context [decide ?P] => destruct (decide P) as [Hd|Hd] end.

Section fold_result.
Context {E S A : Type} (f : S → A → result E S).

(** A [for] loop over a list whose body may throw. *)
Fixpoint foldM (s : S) (l : list A) : result E S :=
  match l with
  | [] => Ok s
  | x :: l => s' ← f s x; foldM s' l
  end.

Lemma foldM_app s l1 l2 :
  foldM s (l1 ++ l2) = s' ← foldM s l1; foldM s' l2.
Proof.
  revert s. induction l1 as [|x l1 IH]; intros s; simpl; [done|].
  destruct (f s x); simpl; auto.
Qed.

Lemma foldM_invariant (P : S → Prop) s l s' :
  P s → (∀ t x t', x ∈ l → P t → f t x = Ok t' → P t') →
  foldM s l = Ok s' → P s'.
Proof.
  revert s. induction l as [|x l IH]; simpl; intros s Hs Hf Hl; [naive_solver|].
  inv_result. eapply IH; [..|done]; [|set_solver].
  eapply Hf; [|done..]. set_solver.
Qed.

Lemma foldM_total (P : S → Prop) s l :
  P s → (∀ t x, x ∈ l → P t → ∃ t', f t x = Ok t' ∧ P t') →
  ∃ s', foldM s l = Ok s' ∧ P s'.
Proof.
  revert s. induction l as [|x l IH]; simpl; intros s Hs Hf; [by eauto|].
  destruct (Hf s x) as (t & -> & Ht); [set_solver|done|].
  simpl. apply IH; [done|set_solver].
Qed.

Lemma foldM_error (P : E → Prop) s l e :
  (∀ t x e', f t x = Throw e' → P e') → foldM s l = Throw e → P e.
Proof.
  intros Hf. revert s. induction l as [|x l IH]; intros s; simpl; [done|].
  intros [H|(t & _ & H)]%result_bind_Throw; eauto.
Qed.
End fold_result.

(** * State and exceptions: an exception keeps the state reached so far, as a
    JavaScript exception does *)

Definition stM (S E A : Type) : Type := S → S * result E A.

#[export] Instance stM_ret S E : MRet (stM S E) := fun A a s => (s, Ok a).
#[export] Instance stM_bind S E : MBind (stM S E) := fun A B f m s =>
  match m s with
  | (s', Ok a) => f a s'
  | (s', Throw e) => (s', Throw e)
  end.

Definition throwM {S E A} (e : E) : stM S E A := fun s => (s, Throw e).
Definition getM {S E} : stM S E S := fun s => (s, Ok s).
Definition modifyM {S E} (f : S → S) : stM S E unit := fun s => (f s, Ok tt).
Definition guardM {S E} (c : bool) (e : E) : stM S E unit :=
  if c then throwM e else mret tt.
Definition liftM {S E A} (r : result E A) : stM S E A := fun s => (s, r).

(** [for (const x of l) body(x)] *)
Fixpoint iterM {S E A} (body : A → stM S E unit) (l : list A) : stM S E unit :=
  match l with
  | [] => mret tt
  | x :: l => body x ≫= fun _ => iterM body l
  end.

Lemma stM_bind_Ok {S E A B} (m : stM S E A) (f : A → stM S E B) s s' b :
  (m ≫= f) s = (s', Ok b) ↔ ∃ s1 a, m s = (s1, Ok a) ∧ f a s1 = (s', Ok b).
Proof.
  unfold mbind, stM_bind. destruct (m s) as [s1 [a|e]]; naive_solver.
Qed.

Lemma iterM_app {S E A} (body : A → stM S E unit) l1 l2 s :
  iterM body (l1 ++ l2) s = (iterM body l1 ≫= fun _ => iterM body l2) s.
Proof.
  revert s. induction l1 as [|x l1 IH]; intros s; [done|]. simpl.
  unfold mbind, stM_bind in *. destruct (body x s) as [s1 [[]|e]]; [|done]. apply IH.
Qed.

(** From a state in [P], [m] ends in [Q a] when it returns [a] and in [R] when
    it throws. *)
Definition triple {S E A} (P : S → Prop) (m : stM S E A) (Q : A → S → Prop)
    (R : E → S → Prop) : Prop :=
  ∀ s, P s → match m s with (s', Ok a) => Q a s' | (s', Throw e) => R e s' end.

Section triple.
Context {S E : Type} (R : E → S → Prop).

Lemma triple_ret {A} (P : S → Prop) (a : A) : triple P (mret a) (fun _ => P) R.
Proof. by intros s. Qed.

Lemma triple_get (P : S → Prop) : triple P getM (fun a s => P s ∧ a = s) R.
Proof. by intros s. Qed.

Lemma triple_modify (P Q : S → Prop) (f : S → S) :
  (∀ s, P s → Q (f s)) → triple P (modifyM f) (fun _ => Q) R.
Proof. intros Hf s. apply Hf. Qed.

Lemma triple_throw {A} (P : S → Prop) Q (e : E) :
  (∀ s, P s → R e s) → triple P (throwM (A := A) e) Q R.
Proof. intros HR s. apply HR. Qed.

Lemma triple_guard (P : S → Prop) c (e : E) :
  (∀ s, P s → R e s) → triple P (guardM c e) (fun _ s => P s ∧ c = false) R.
Proof. intros HR s Hs. destruct c; [by apply HR|done]. Qed.

Lemma triple_bind {A B} P (m : stM S E A) Q (f : A → stM S E B) Q' :
  triple P m Q R → (∀ a, triple (Q a) (f a) Q' R) → triple P (m ≫= f) Q' R.
Proof.
  intros Hm Hf s Hs. specialize (Hm s Hs). unfold mbind, stM_bind.
  destruct (m s) as [s1 [a|e]]; [by apply Hf|done].
Qed.

Lemma triple_iter {A} (P : S → Prop) (body : A → stM S E unit) l :
  (∀ x, x ∈ l → triple P (body x) (fun _ => P) R) →
  triple P (iterM body l) (fun _ => P) R.
Proof.
  induction l as [|x l IH]; intros Hb; simpl; [apply triple_ret|].
  eapply triple_bind; [apply Hb; set_solver|]. intros u. apply IH. set_solver.
Qed.

Lemma triple_weaken {A} (P P' : S → Prop) (m : stM S E A) (Q Q' : A → S → Prop) :
  (∀ s, P' s → P s) → (∀ a s, Q a s → Q' a s) → triple P m Q R → triple P' m Q' R.
Proof.
  intros HP HQ Hm s Hs. specialize (Hm s (HP s Hs)). destruct (m s) as [s1 [a|e]]; auto.
Qed.
End triple.

(** [m1] succeeds only where [m2] does, with the same result and state. *)
Definition refinesM {S E A} (m1 m2 : stM S E A) : Prop :=
  ∀ s s' a, m1 s = (s', Ok a) → m2 s = (s', Ok a).

#[export] Instance refinesM_refl S E A : Reflexive (@refinesM S E A).
Proof. by intros m s s' a. Qed.

Lemma refinesM_bind {S E A B} (m1 m2 : stM S E A) (f1 f2 : A → stM S E B) :
  refinesM m1 m2 → (∀ a, refinesM (f1 a) (f2 a)) → refinesM (m1 ≫= f1) (m2 ≫= f2).
Proof.
  intros Hm Hf s s' b (s1 & a & H1%Hm & H2%Hf)%stM_bind_Ok. apply stM_bind_Ok. eauto.
Qed.

Lemma refinesM_iter {S E A} (b1 b2 : A → stM S E unit) l :
  (∀ x, refinesM (b1 x) (b2 x)) → refinesM (iterM b1 l) (iterM b2 l).
Proof.
  intros Hb. induction l as [|x l IH]; simpl; [done|]. by apply refinesM_bind.
Qed.

Lemma refinesM_guard {S E} c1 c2 (e : E) :
  (c2 = true → c1 = true) → refinesM (S := S) (guardM c1 e) (guardM c2 e).
Proof.
  intros Hc. destruct c1, c2; intros s s' a; try done. by discriminate Hc.
Qed.

(** * [Array.prototype.sort] with a comparison function: a stable sort *)

Section js_sort.
Context {A : Type} (cmp : A → A → Z).

Fixpoint js_insert (x : A) (l : list A) : list A :=
  match l with
  | [] => [x]
  | y :: l' => if decide (cmp x y < 0)%Z then x :: y :: l' else y :: js_insert x l'
  end.

(** Elements are inserted from the left, so elements that compare equal keep
    their order. *)
Definition js_sort (l : list A) : list A :=
  foldl (fun acc x => js_insert x acc) [] l.

(** [x] may stand before [y] in a sorted array. *)
Definition cmp_le (x y : A) : Prop := ¬ (cmp y x < 0)%Z.

Lemma js_insert_perm x l : js_insert x l ≡ₚ x :: l.
Proof.
  induction l as [|y l IH]; simpl; [done|]. case_decide; [done|].
  rewrite IH. by rewrite Permutation_swap.
Qed.

Lemma js_sort_perm l : js_sort l ≡ₚ l.
Proof.
  unfold js_sort. rewrite <-(app_nil_r l) at 2. generalize (@nil A).
  induction l as [|x l IH]; intros acc; simpl; [done|].
  rewrite IH, js_insert_perm. by rewrite Permutation_middle.
Qed.
End js_sort.

(** What a comparison function must satisfy for its sort to be meaningful. *)
Class JsCompare {A} (cmp : A → A → Z) : Prop := {
  js_compare_asym x y : (cmp x y < 0)%Z → cmp_le cmp x y;
  js_compare_trans :: Transitive (cmp_le cmp);
}.

(** The comparison [key(left) - key(right)]. *)
Definition compare_by {A} (key : A → Z) (x y : A) : Z := (key x - key y)%Z.

Lemma cmp_le_compare_by {A} (key : A → Z) x y :
  cmp_le (compare_by key) x y ↔ (key x ≤ key y)%Z.
Proof. unfold cmp_le, compare_by. lia. Qed.

#[export] Instance compare_by_js {A} (key : A → Z) : JsCompare (compare_by key).
Proof.
  split.
  - intros x y. rewrite cmp_le_compare_by. unfold compare_by. lia.
  - intros x y z. rewrite !cmp_le_compare_by. lia.
Qed.

Section js_sort_sorted.
Context {A : Type} (cmp : A → A → Z) `{!JsCompare cmp}.

Lemma js_insert_sorted x l :
  StronglySorted (cmp_le cmp) l → StronglySorted (cmp_le cmp) (js_insert cmp x l).
Proof.
  induction 1 as [|y l Hs IH Hall]; simpl; [repeat constructor|].
  case_decide as Hxy.
  - apply js_compare_asym in Hxy.
    constructor; [by constructor|]. constructor; [done|].
    eapply Forall_impl; [done|]. intros z Hz. by trans y.
  - constructor; [done|]. rewrite js_insert_perm. by constructor.
Qed.

Lemma js_sort_sorted l : StronglySorted (cmp_le cmp) (js_sort cmp l).
Proof.
  unfold js_sort. cut (StronglySorted (cmp_le cmp) []); [|constructor].
  generalize (@nil A). induction l as [|x l IH]; intros acc Hacc; simpl; [done|].
  by apply IH, js_insert_sorted.
Qed.

Lemma js_sort_sorted_id l : StronglySorted (cmp_le cmp) l → js_sort cmp l = l.
Proof.
  unfold js_sort. intros Hl. change l with ([] ++ l) in Hl |- * at 2.
  revert Hl. generalize (@nil A) as acc.
  induction l as [|x l IH]; intros acc Hl; simpl; [by rewrite app_nil_r|].
  assert (js_insert cmp x acc = acc ++ [x]) as ->.
  { clear IH. induction acc as [|y acc IHacc]; simpl; [done|].
    inversion_clear Hl as [|?? Hs Hall]. rewrite decide_False.
    - by rewrite IHacc.
    - rewrite Forall_app, Forall_cons in Hall. naive_solver. }
  rewrite IH; by rewrite <-app_assoc.
Qed.

(** When no two elements compare equal, sortedness determines the list. *)
Lemma sorted_perm_eq l1 l2 :
  (∀ x y, x ∈ l1 → y ∈ l1 → cmp_le cmp x y → cmp_le cmp y x → x = y) →
  StronglySorted (cmp_le cmp) l1 → StronglySorted (cmp_le cmp) l2 →
  l1 ≡ₚ l2 → l1 = l2.
Proof.
  intros Hinj H1. revert l2.
  induction H1 as [|x l1 H1 IH Hx]; intros l2 H2 Hp.
  { symmetry in Hp. by apply Permutation_nil_r in Hp. }
  destruct H2 as [|y l2 H2 Hy].
  { by apply Permutation_nil_r in Hp. }
  assert (x = y) as ->.
  { assert (x ∈ y :: l2) as Hxin by (rewrite <-Hp; set_solver).
    assert (y ∈ x :: l1) as Hyin by (rewrite Hp; set_solver).
    rewrite Forall_forall in Hx, Hy.
    apply elem_of_cons in Hxin as [->|Hxin]; [done|].
    apply elem_of_cons in Hyin as [->|Hyin]; [done|].
    apply Hinj; [set_solver|set_solver|by apply Hx|by apply Hy]. }
  f_equal. apply IH; [set_solver|done|]. by apply Permutation_cons_inv in Hp.
Qed.
End js_sort_sorted.

(** A comparison that is a total preorder, by its sign. *)
Class CompareOrder {A} (cmp : A → A → Z) : Prop := {
  compare_opp x y : (Z.sgn (cmp y x) = - Z.sgn (cmp x y))%Z;
  compare_trans x y z : (cmp x y ≤ 0 → cmp y z ≤ 0 → cmp x z ≤ 0)%Z;
}.

#[export] Instance compare_order_js {A} (cmp : A → A → Z) : CompareOrder cmp → JsCompare cmp.
Proof.
  intros [Hopp Htrans]. split; unfold cmp_le.
  - intros x y. specialize (Hopp x y). lia.
  - intros x y z Hxy Hyz. pose proof (Hopp x y). pose proof (Hopp y z). pose proof (Hopp x z).
    specialize (Htrans x y z). lia.
Qed.

#[export] Instance compare_order_on {A B} (f : A → B) (cmp : B → B → Z) :
  CompareOrder cmp → CompareOrder (fun x y => cmp (f x) (f y)).
Proof. intros [Hopp Htrans]. split; intros; [apply Hopp|by eapply Htrans]. Qed.

#[export] Instance compare_by_order {A} (key : A → Z) : CompareOrder (compare_by key).
Proof. split; unfold compare_by; intros; lia. Qed.

(** [a || b] of numbers *)
Definition or_else (a b : Z) : Z := if decide (a = 0)%Z then b else a.

#[export] Instance or_else_order {A} (c d : A → A → Z) :
  CompareOrder c → CompareOrder d → CompareOrder (fun x y => or_else (c x y) (d x y)).
Proof.
  intros [Hc Htc] [Hd Htd]. unfold or_else. split.
  - intros x y. specialize (Hc x y). specialize (Hd x y). repeat case_decide; lia.
  - intros x y z Hxy Hyz.
    pose proof (Hc x y). pose proof (Hc y z). pose proof (Hc x z).
    pose proof (Htc x y z). pose proof (Htc y z x). pose proof (Htc z x y).
    specialize (Htd x y z). repeat case_decide; lia.
Qed.

(** Only the signs of the comparisons of the elements count. *)
Lemma js_sort_ext {A} (c d : A → A → Z) l :
  (∀ x y, x ∈ l → y ∈ l → (c x y < 0 ↔ d x y < 0)%Z) → js_sort c l = js_sort d l.
Proof.
  intros Hl. unfold js_sort.
  assert (∀ acc l', (∀ x, x ∈ acc ∨ x ∈ l' → x ∈ l) →
    foldl (fun acc x => js_insert c x acc) acc l' = foldl (fun acc x => js_insert d x acc) acc l')
    as Hgen; [|apply Hgen; set_solver].
  intros acc l'. revert acc. induction l' as [|x l' IH]; intros acc Hacc; simpl; [done|].
  assert (js_insert c x acc = js_insert d x acc) as Heq.
  { assert (x ∈ l) as Hx by set_solver. assert (∀ y, y ∈ acc → y ∈ l) as Hin by set_solver.
    clear IH Hacc. induction acc as [|y acc IH]; simpl; [done|].
    pose proof (Hl x y Hx (Hin y ltac:(by left))). rewrite IH by set_solver.
    repeat case_decide; naive_solver. }
  rewrite Heq. apply IH. intros y [Hy|Hy]; [|set_solver].
  rewrite js_insert_perm in Hy. set_solver.
Qed.

Create HintDb jssort.
#[export] Hint Resolve js_sort_sorted js_sort_perm js_insert_sorted : jssort.

(** * Lists *)

Lemma imap_fst {A B C} (f : A → B) (g : nat → A → C) (l : list A) :
  (imap (fun i x => (f x, g i x)) l).*1 = f <$> l.
Proof.
  revert g. induction l as [|x l IH]; intros g; simpl; [done|].
  f_equal. exact (IH (fun i => g (S i))).
Qed.

Lemma filter_head {A} (P : A → Prop) `{∀ x, Decision (P x)} (l : list A) x l' :
  filter P l = x :: l' → x ∈ l ∧ P x.
Proof.
  intros H0. assert (x ∈ filter P l) as Hx by (rewrite H0; set_solver).
  by apply list_elem_of_filter in Hx as [? ?].
Qed.

Lemma StronglySorted_sublist {A} (R : A → A → Prop) (l1 l2 : list A) :
  l1 `sublist_of` l2 → StronglySorted R l2 → StronglySorted R l1.
Proof.
  induction 1 as [|x l1 l2 Hs IH|x l1 l2 Hs IH]; intros H2; [constructor|..];
    inversion_clear H2 as [|?? Hl Hx]; [|by apply IH].
  constructor; [by apply IH|]. rewrite Forall_forall in Hx |- *.
  intros y Hy. apply Hx. by eapply elem_of_sublist.
Qed.

Lemma StronglySorted_weaken {A} (R R' : A → A → Prop) (l : list A) :
  (∀ x y, R x y → R' x y) → StronglySorted R l → StronglySorted R' l.
Proof.
  intros HR. induction 1 as [|x l Hl IH Hx]; constructor; [done|].
  eapply Forall_impl; [done|]. auto.
Qed.

Lemma StronglySorted_fmap_weaken {A B} (R : A → A → Prop) (R' : B → B → Prop) (f : A → B) (l : list A) :
  (∀ x y, R x y → R' (f x) (f y)) → StronglySorted R l → StronglySorted R' (f <$> l).
Proof.
  intros HR. induction 1 as [|x l Hl IH Hx]; simpl; constructor; [done|].
  apply Forall_fmap. eapply Forall_impl; [done|]. auto.
Qed.

Lemma Forall2_impl_in {A B} (R S : A → B → Prop) l k :
  Forall2 R l k → (∀ x y, x ∈ l → y ∈ k → R x y → S x y) → Forall2 S l k.
Proof.
  induction 1 as [|x y l k Hxy Hl IH]; intros Himpl; constructor.
  - apply Himpl; [by left|by left|done].
  - apply IH. intros a b Ha Hb. apply Himpl; by right.
Qed.

Lemma sublist_fmap {A B} (f : A → B) (l1 l2 : list A) :
  l1 `sublist_of` l2 → f <$> l1 `sublist_of` f <$> l2.
Proof. induction 1; simpl; by constructor. Qed.

Lemma filter_all {A} (P : A → Prop) `{∀ x, Decision (P x)} (l : list A) :
  (∀ x, x ∈ l → P x) → filter P l = l.
Proof.
  induction l as [|x l IH]; intros Hl; [done|].
  rewrite filter_cons_True by set_solver. f_equal. apply IH. set_solver.
Qed.

Lemma filter_none {A} (P : A → Prop) `{∀ x, Decision (P x)} (l : list A) :
  (∀ x, x ∈ l → ¬ P x) → filter P l = [].
Proof.
  induction l as [|x l IH]; intros Hl; [done|].
  rewrite filter_cons_False by set_solver. apply IH. set_solver.
Qed.

Lemma eq_nil_not_elem {A} (l : list A) : l = [] ↔ ∀ x, x ∉ l.
Proof.
  destruct l as [|y l]; [set_solver|]. split; [done|]. intros Hl. exfalso.
  apply (Hl y). set_solver.
Qed.

Lemma filter_or {A} (P Q : A → Prop) `{∀ x, Decision (P x), ∀ x, Decision (Q x)} (l : list A) :
  (∀ x, x ∈ l → P x → ¬ Q x) →
  filter (fun x => P x ∨ Q x) l ≡ₚ filter P l ++ filter Q l.
Proof.
  induction l as [|x l IH]; intros Hd; [done|].
  specialize (IH (fun y Hy => Hd y (list_elem_of_further _ _ _ Hy))).
  specialize (Hd x (list_elem_of_here _ _)).
  rewrite !filter_cons. destruct (decide (P x)), (decide (Q x)); simpl;
    case_decide; try tauto; rewrite IH; try done.
  by rewrite Permutation_middle.
Qed.

Lemma filter_ext_elem {A} (P Q : A → Prop) `{!∀ x, Decision (P x), !∀ x, Decision (Q x)}
    (l : list A) :
  (∀ x, x ∈ l → P x ↔ Q x) → filter P l = filter Q l.
Proof.
  induction l as [|x l IH]; intros HPQ; [done|].
  assert (filter P l = filter Q l) as Hl by (apply IH; set_solver).
  destruct (decide (P x)) as [Hx|Hx].
  - rewrite (filter_cons_True P), (filter_cons_True Q), Hl; [done| |done]. by apply HPQ; [left|].
  - rewrite (filter_cons_False P), (filter_cons_False Q), Hl; [done| |done].
    rewrite <-HPQ; [done|left].
Qed.

(** The sum of a list of integers. *)
Definition zsum (l : list Z) : Z := foldr Z.add 0%Z l.

Lemma zsum_app l1 l2 : zsum (l1 ++ l2) = (zsum l1 + zsum l2)%Z.
Proof. unfold zsum. induction l1 as [|x l1 IH]; simpl; [done|]. rewrite IH. lia. Qed.

Lemma zsum_nonneg l : Forall (fun n => 0 ≤ n)%Z l → (0 ≤ zsum l)%Z.
Proof. induction 1 as [|n l Hn _ IH]; simpl; [done|]. unfold zsum in *. simpl. lia. Qed.

(** A key that no two elements share identifies an element. *)
Lemma NoDup_fmap_eq {A B} (f : A → B) (l : list A) x y :
  NoDup (f <$> l) → x ∈ l → y ∈ l → f x = f y → x = y.
Proof.
  induction l as [|z l IH]; intros Hnd Hx Hy He; [set_solver|].
  apply NoDup_cons in Hnd as [Hz Hnd].
  apply elem_of_cons in Hx as [->|Hx], Hy as [->|Hy]; [done|..|by apply IH].
  - destruct Hz. rewrite He. by apply list_elem_of_fmap_2.
  - destruct Hz. rewrite <-He. by apply list_elem_of_fmap_2.
Qed.

(** Sublists of a list without duplicate keys have none. *)
Lemma NoDup_fmap_filter {A B} (f : A → B) (P : A → Prop) `{∀ x, Decision (P x)} (l : list A) :
  NoDup (f <$> l) → NoDup (f <$> filter P l).
Proof. intros Hl. eapply sublist_NoDup; [done|]. apply sublist_fmap, sublist_filter. Qed.

Lemma fmap_filter {A B} (f : A → B) (P : B → Prop) `{!∀ x, Decision (P x), !∀ x, Decision (P (f x))}
    (l : list A) :
  f <$> filter (fun x => P (f x)) l = filter P (f <$> l).
Proof.
  induction l as [|x l IH]; [done|]. cbn [fmap list_fmap]. destruct (decide (P (f x))) as [Hx|Hx].
  - rewrite !filter_cons_True by done. cbn [fmap list_fmap]. by f_equal.
  - by rewrite !filter_cons_False by done.
Qed.

(** [try]: what the body does, and how it ended. *)
Definition attemptM {S E E' A} (m : stM S E A) : stM S E' (result E A) := fun s =>
  let '(s', r) := m s in (s', Ok r).

(** [new Set(l)]: the distinct elements, in the order of their first occurrences. *)
Definition js_set {A} `{EqDecision A} (l : list A) : list A :=
  foldl (fun s x => if decide (x ∈ s) then s else s ++ [x]) [] l.

(** A loop that collects what its body returns. *)
Lemma mapM_Ok {E A B} (f : A → result E B) l out :
  mapM f l = Ok out ↔ Forall2 (fun x y => f x = Ok y) l out.
Proof.
  revert out. induction l as [|x l IH]; intros out; simpl.
  - split; [intros [= <-]; constructor|by inversion 1].
  - rewrite result_bind_Ok. split.
    + intros (y & Hy & (ys & Hys & [= <-])%result_bind_Ok). constructor; [done|]. by apply IH.
    + inversion 1 as [|? y ? ys Hy Hys]; subst. exists y. split; [done|].
      apply result_bind_Ok. exists ys. split; [by apply IH|done].
Qed.

(** The same with the index of each element, which decides only the errors. *)
Lemma mapM_index_Ok_in {E A B} (f : nat * A → result E B) (P : A → B → Prop) l out :
  (∀ i x y, x ∈ l → f (i, x) = Ok y ↔ P x y) → mapM f (imap pair l) = Ok out ↔ Forall2 P l out.
Proof.
  intros HP. rewrite mapM_Ok, !Forall2_lookup.
  enough (∀ i, option_Forall2 (fun x y => f x = Ok y) (imap pair l !! i) (out !! i) ↔
    option_Forall2 P (l !! i) (out !! i)) as H.
  { split; intros Hl i; apply H, Hl. }
  intros i. rewrite list_lookup_imap.
  destruct (l !! i) eqn:Hi, (out !! i); simpl; split; inversion 1; subst; constructor;
    by apply (HP i); [eapply list_elem_of_lookup_2|].
Qed.

Lemma mapM_index_Ok {E A B} (f : nat * A → result E B) (P : A → B → Prop) l out :
  (∀ i x y, f (i, x) = Ok y ↔ P x y) → mapM f (imap pair l) = Ok out ↔ Forall2 P l out.
Proof. intros HP. by apply mapM_index_Ok_in. Qed.

Lemma elem_of_js_set {A} `{EqDecision A} (l : list A) x : x ∈ js_set l ↔ x ∈ l.
Proof.
  unfold js_set. enough (∀ s, x ∈ foldl (fun s x => if decide (x ∈ s) then s else s ++ [x]) s l ↔
    x ∈ s ∨ x ∈ l) as H by (rewrite H; set_solver).
  induction l as [|y l IH]; intros s; simpl; [set_solver|]. rewrite IH. case_decide; set_solver.
Qed.

(** The distinct elements are as many as the elements exactly when these are distinct. *)
Lemma length_js_set {A} `{EqDecision A} (l : list A) : length (js_set l) = length l ↔ NoDup l.
Proof.
  unfold js_set.
  enough (∀ s, NoDup s →
    length (foldl (fun s x => if decide (x ∈ s) then s else s ++ [x]) s l) ≤ length s + length l ∧
    (length (foldl (fun s x => if decide (x ∈ s) then s else s ++ [x]) s l) = length s + length l ↔
     NoDup (s ++ l))) as H by (destruct (H []) as [_ H']; [constructor|done]).
  induction l as [|y l IH]; intros s Hs; simpl.
  - rewrite app_nil_r. split; [lia|]. by split.
  - case_decide as Hy.
    + destruct (IH s Hs) as [Hle _]. split; [lia|]. split; [lia|].
      intros (_ & Hd & _)%NoDup_app. exfalso. apply (Hd y Hy). left.
    + destruct (IH (s ++ [y])) as [Hle Heq].
      { apply NoDup_app. split_and!; [done|set_solver|apply NoDup_singleton]. }
      rewrite length_app in Hle, Heq. rewrite <-(assoc_L (++)) in Heq. simpl in *.
      split; [lia|]. rewrite <-Heq. lia.
Qed.

Lemma foldM_check {E A} (check : A → result E unit) l :
  foldM (fun _ x => check x) tt l = Ok tt ↔ Forall (fun x => check x = Ok tt) l.
Proof.
  induction l as [|x l IH]; simpl; [split; [constructor|done]|].
  rewrite result_bind_Ok, Forall_cons. split.
  - intros ([] & Hx & Hl). split; [done|by apply IH].
  - intros [Hx Hl]. exists tt. split; [done|by apply IH].
Qed.

Lemma bindM_eq {S E A B} (m : stM S E A) (f : A → stM S E B) s s' a :
  m s = (s', Ok a) → (m ≫= f) s = f a s'.
Proof. intros Hm. unfold mbind, stM_bind. by rewrite Hm. Qed.

Lemma bindM_guard {S E B} c (e : E) (f : unit → stM S E B) s :
  c = false → (guardM c e ≫= f) s = f tt s.
Proof. by intros ->. Qed.

Lemma bindM_lift {S E A B} (r : result E A) (f : A → stM S E B) s a :
  r = Ok a → (liftM r ≫= f) s = f a s.
Proof. by intros ->. Qed.

Lemma liftM_Ok {S E A} (r : result E A) (s s' : S) a :
  liftM r s = (s', Ok a) ↔ s' = s ∧ r = Ok a.
Proof. unfold liftM. naive_solver. Qed.

Lemma guardM_Ok {S E} c (e : E) (s s' : S) u : guardM c e s = (s', Ok u) ↔ s' = s ∧ c = false.
Proof. destruct c, u; unfold guardM, throwM, mret, stM_ret; naive_solver. Qed.

Lemma retM_Ok {S E A} (a b : A) (s s' : S) :
  (mret a : stM S E A) s = (s', Ok b) ↔ s' = s ∧ b = a.
Proof. unfold mret, stM_ret. naive_solver. Qed.

(** Invert every step of a stateful computation in the hypotheses. *)
Ltac inv_state :=
  repeat match goal with
  | H : (_ ≫= _) _ = (_, Ok _) |- _ => apply stM_bind_Ok in H as (? & ? & ? & H)
  | H : liftM _ _ = (_, Ok _) |- _ => apply liftM_Ok in H as [-> ?]
  | H : guardM _ _ _ = (_, Ok _) |- _ => apply guardM_Ok in H as [-> ?]
  | H : mret _ _ = (_, Ok _) |- _ => apply retM_Ok in H as [-> ?]
  | x : unit |- _ => destruct x
  | _ => progress simplify_eq
  end.
