(* ===== verification/JsMap.v ===== *)
(** JavaScript [Map] and [Set]: insertion-ordered association lists.  [set] on
    a key that is present keeps the key's place, on a new key appends it, as
    iteration over a JavaScript [Map] observes. *)
From S2P Require Import Prelude.

Section jsmap.
Context {K : Type} `{EqDecision K} {V : Type}.
Implicit Types (k : K) (v : V) (m : list (K * V)).

Fixpoint jget k m : option V :=
  match m with
  | [] => None
  | (k', v) :: m' => if decide (k' = k) then Some v else jget k m'
  end.

Fixpoint jset k v m : list (K * V) :=
  match m with
  | [] => [(k, v)]
  | (k', v') :: m' =>
      if decide (k' = k) then (k, v) :: m' else (k', v') :: jset k v m'
  end.

Fixpoint jdelete k m : list (K * V) :=
  match m with
  | [] => []
  | (k', v') :: m' => if decide (k' = k) then m' else (k', v') :: jdelete k m'
  end.

Definition jhas k m : bool := bool_decide (is_Some (jget k m)).

Lemma jget_jset_eq k v m : jget k (jset k v m) = Some v.
Proof.
  induction m as [|[k' v'] m IH]; simpl; [by rewrite decide_True|].
  destruct (decide (k' = k)) as [->|]; simpl; [by rewrite decide_True|].
  by rewrite decide_False.
Qed.

Lemma jget_jset_ne k k' v m : k ≠ k' → jget k' (jset k v m) = jget k' m.
Proof.
  intros Hne. induction m as [|[k1 v1] m IH]; simpl; [by rewrite decide_False|].
  destruct (decide (k1 = k)) as [->|]; simpl.
  - by rewrite !decide_False by done.
  - by case_decide.
Qed.

Lemma jget_jset k k' v m :
  jget k' (jset k v m) = if decide (k = k') then Some v else jget k' m.
Proof. case_decide; subst; [apply jget_jset_eq|by apply jget_jset_ne]. Qed.

Lemma jget_None k m : jget k m = None ↔ k ∉ m.*1.
Proof.
  induction m as [|[k' v'] m IH]; simpl; [set_solver|].
  case_decide; set_solver.
Qed.

Lemma jget_is_Some k m : is_Some (jget k m) ↔ k ∈ m.*1.
Proof.
  destruct (jget k m) as [v|] eqn:E.
  - split; [|by eauto]. intros _. destruct (decide (k ∈ m.*1)) as [|Hn]; [done|].
    apply jget_None in Hn. congruence.
  - split; [by intros []|]. by apply jget_None in E.
Qed.

Lemma jhas_true k m : jhas k m = true ↔ k ∈ m.*1.
Proof. unfold jhas. by rewrite bool_decide_eq_true, jget_is_Some. Qed.

Lemma jhas_false k m : jhas k m = false ↔ k ∉ m.*1.
Proof. rewrite <-jhas_true. by destruct (jhas k m). Qed.

Lemma jset_fresh k v m : k ∉ m.*1 → jset k v m = m ++ [(k, v)].
Proof.
  induction m as [|[k' v'] m IH]; simpl; [done|]. intros Hk.
  rewrite decide_False by set_solver. rewrite IH; set_solver.
Qed.

Lemma jset_keys_present k v m : k ∈ m.*1 → (jset k v m).*1 = m.*1.
Proof.
  induction m as [|[k' v'] m IH]; simpl; [set_solver|]. intros Hk.
  destruct (decide (k' = k)) as [->|]; simpl; [done|].
  f_equal. apply IH. set_solver.
Qed.

Lemma jset_keys k v m :
  (jset k v m).*1 = if decide (k ∈ m.*1) then m.*1 else m.*1 ++ [k].
Proof.
  case_decide; [by apply jset_keys_present|].
  rewrite jset_fresh by done. by rewrite fmap_app.
Qed.

Lemma elem_of_jset_keys k k' v m : k' ∈ (jset k v m).*1 ↔ k' = k ∨ k' ∈ m.*1.
Proof. rewrite jset_keys. case_decide; set_solver. Qed.

Lemma NoDup_jset k v m : NoDup m.*1 → NoDup (jset k v m).*1.
Proof.
  intros Hm. rewrite jset_keys. case_decide; [done|].
  apply NoDup_app. repeat split; [done|set_solver|apply NoDup_singleton].
Qed.

Lemma jget_elem_of k v m : jget k m = Some v → (k, v) ∈ m.
Proof.
  induction m as [|[k' v'] m IH]; simpl; [done|].
  case_decide; simplify_eq; set_solver.
Qed.

Lemma elem_of_jget k v m : NoDup m.*1 → (k, v) ∈ m → jget k m = Some v.
Proof.
  induction m as [|[k' v'] m IH]; simpl; [set_solver|].
  rewrite NoDup_cons, elem_of_cons. intros [Hk Hnd] [[= -> ->]|Hin].
  - by rewrite decide_True.
  - rewrite decide_False; [by apply IH|]. intros ->. apply Hk.
    apply list_elem_of_fmap. by exists (k, v).
Qed.

Lemma jget_jdelete_eq k m : NoDup m.*1 → jget k (jdelete k m) = None.
Proof.
  induction m as [|[k' v'] m IH]; simpl; [done|].
  rewrite NoDup_cons. intros [Hk Hnd].
  destruct (decide (k' = k)) as [->|]; [by apply jget_None|].
  simpl. rewrite decide_False by done. by apply IH.
Qed.

Lemma jget_jdelete_ne k k' m : k ≠ k' → jget k' (jdelete k m) = jget k' m.
Proof.
  intros Hne. induction m as [|[k1 v1] m IH]; simpl; [done|].
  destruct (decide (k1 = k)) as [->|]; simpl; [by rewrite decide_False|].
  by case_decide.
Qed.

Lemma jdelete_keys_submseteq k m : (jdelete k m).*1 ⊆+ m.*1.
Proof.
  induction m as [|[k' v'] m IH]; simpl; [done|].
  case_decide; simpl; [by apply submseteq_cons|by apply submseteq_skip].
Qed.

Lemma NoDup_jdelete k m : NoDup m.*1 → NoDup (jdelete k m).*1.
Proof.
  induction m as [|[k' v'] m IH]; simpl; [done|]. rewrite NoDup_cons.
  intros [Hk Hnd]. case_decide; simpl; [done|]. apply NoDup_cons. split; [|by apply IH].
  intros Hin. apply Hk. by eapply elem_of_submseteq; [|apply jdelete_keys_submseteq].
Qed.

(** Looking up a list of keys only meets the keys that are there. *)
Lemma omap_jget_filter m (l : list K) :
  omap (fun k => jget k m) l = omap (fun k => jget k m) (filter (fun k => k ∈ m.*1) l).
Proof.
  induction l as [|k l IH]; simpl; [done|]. destruct (decide (k ∈ m.*1)) as [Hk|Hk].
  - rewrite filter_cons_True by done. simpl. destruct (jget k m); [by f_equal|done].
  - rewrite filter_cons_False by done. apply jget_None in Hk. by rewrite Hk.
Qed.

Lemma omap_jget_keys m : NoDup m.*1 → omap (fun k => jget k m) m.*1 = m.*2.
Proof.
  intros Hnd. cut (∀ l, (∀ k v, (k, v) ∈ l → jget k m = Some v) →
    omap (fun k => jget k m) l.*1 = l.*2).
  { intros H. apply H. intros. by apply elem_of_jget. }
  induction l as [|[k v] l IH]; simpl; intros Hm; [done|].
  rewrite (Hm k v) by left. f_equal. apply IH. intros k' v' Hin. apply Hm. by right.
Qed.
End jsmap.

Create HintDb jsmap.
#[export] Hint Resolve NoDup_jset NoDup_jdelete jget_jset_eq jget_jset_ne : jsmap.
