(* ===== verification/Json.v ===== *)
(** JSON values and JavaScript numbers.  A JavaScript number is an IEEE 754
    binary64 value, represented by [spec_float]; [Number.isInteger],
    [Number.isFinite] and [Number.isSafeInteger] are computed on it. *)
From Stdlib Require Import Floats.SpecFloat.
From S2P Require Import Prelude.

(** * JavaScript numbers *)

Abbreviation jsnum := spec_float.

#[export] Instance jsnum_eq_dec : EqDecision jsnum.
Proof. solve_decision. Defined.

(** The integer a number denotes, when it denotes one. *)
Definition num_integer (x : jsnum) : option Z :=
  match x with
  | S754_zero _ => Some 0%Z
  | S754_finite s m e =>
      let v := if s then Z.neg m else Z.pos m in
      if decide (0 ≤ e)%Z then Some (v * 2 ^ e)%Z
      else if decide (v `mod` 2 ^ (- e) = 0)%Z then Some (v `div` 2 ^ (- e))%Z
      else None
  | S754_infinity _ | S754_nan => None
  end.

Definition is_finite (x : jsnum) : bool :=
  match x with S754_zero _ | S754_finite _ _ _ => true | _ => false end.

(** The comparison of two numbers, [None] when one is not a number.  Finite numbers are
    compared by their exact values. *)
Definition num_compare (x y : jsnum) : option comparison :=
  let parts z := match z with
    | S754_finite s m e => ((if s then Z.neg m else Z.pos m), e)
    | _ => (0, 0)
    end%Z in
  match x, y with
  | S754_nan, _ | _, S754_nan => None
  | S754_infinity s, S754_infinity t =>
      Some (match s, t with true, false => Lt | false, true => Gt | _, _ => Eq end)
  | S754_infinity s, _ => Some (if s then Lt else Gt)
  | _, S754_infinity s => Some (if s then Gt else Lt)
  | _, _ =>
      let '(v, e) := parts x in
      let '(w, f) := parts y in
      let low := Z.min e f in
      Some (v * 2 ^ (e - low) ?= w * 2 ^ (f - low))%Z
  end.

(** [x < y] and [x <= y] *)
Definition num_lt (x y : jsnum) : bool :=
  match num_compare x y with Some Lt => true | _ => false end.
Definition num_le (x y : jsnum) : bool :=
  match num_compare x y with Some (Lt | Eq) => true | _ => false end.

(** [left - right], by its sign; a difference that is not a number counts as none. *)
Definition num_order (left right : jsnum) : Z :=
  match num_compare left right with Some Lt => -1 | Some Gt => 1 | _ => 0 end.

(** [Object.is] *)
Definition num_is (x y : jsnum) : bool :=
  match x, y with
  | S754_nan, S754_nan => true
  | S754_zero s, S754_zero t => eqb s t
  | _, _ => match num_compare x y with Some Eq => true | _ => false end
  end.

(** [Number.isInteger] *)
Definition is_integer (x : jsnum) : bool := bool_decide (is_Some (num_integer x)).

Definition MAX_SAFE_INTEGER : Z := 9007199254740991.

Definition is_safe (z : Z) : bool := bool_decide (Z.abs z ≤ MAX_SAFE_INTEGER)%Z.

(** [Number.isSafeInteger], with the integer it admits. *)
Definition safe_integer (x : jsnum) : option Z :=
  z ← num_integer x; if is_safe z then Some z else None.

(** The number an integer of magnitude below [2^53] is represented by. *)
Definition num_of_Z (z : Z) : jsnum :=
  match z with
  | Z0 => S754_zero false
  | Zpos p => S754_finite false p 0
  | Zneg p => S754_finite true p 0
  end.

Lemma num_integer_of_Z z : num_integer (num_of_Z z) = Some z.
Proof. destruct z; simpl; f_equal; lia. Qed.

Lemma safe_integer_of_Z z :
  safe_integer (num_of_Z z) = if is_safe z then Some z else None.
Proof. unfold safe_integer. by rewrite num_integer_of_Z. Qed.

Lemma safe_integer_Some x z :
  safe_integer x = Some z → (Z.abs z ≤ MAX_SAFE_INTEGER)%Z.
Proof.
  unfold safe_integer, is_safe. destruct (num_integer x) as [w|]; simpl; [|done].
  case_bool_decide; naive_solver.
Qed.

(** * JSON values *)

Inductive json : Type :=
| JNull
| JBool (b : bool)
| JNum (x : jsnum)
| JStr (s : string)
| JArr (l : list json)
| JObj (fields : list (string * json)).

#[export] Instance json_eq_dec : EqDecision json.
Proof.
  refine (fix go (a b : json) : Decision (a = b) :=
    let _ : EqDecision json := go in
    match a, b with
    | JNull, JNull => left eq_refl
    | JBool x, JBool y => cast_if (decide (x = y))
    | JNum x, JNum y => cast_if (decide (x = y))
    | JStr x, JStr y => cast_if (decide (x = y))
    | JArr x, JArr y => cast_if (decide (x = y))
    | JObj x, JObj y => cast_if (decide (x = y))
    | _, _ => right _
    end); congruence.
Defined.

Section json_ind.
Context (P : json → Prop).
Context (Hnull : P JNull) (Hbool : ∀ b, P (JBool b)) (Hnum : ∀ x, P (JNum x)).
Context (Hstr : ∀ s, P (JStr s)) (Harr : ∀ l, Forall P l → P (JArr l)).
Context (Hobj : ∀ fs, Forall (fun '(_, v) => P v) fs → P (JObj fs)).

(** Structural induction through arrays and objects. *)
Fixpoint json_nested_ind (v : json) : P v :=
  match v with
  | JNull => Hnull
  | JBool b => Hbool b
  | JNum x => Hnum x
  | JStr s => Hstr s
  | JArr l => Harr l ((fix go l : Forall P l :=
      match l with
      | [] => Forall_nil_2 _
      | x :: l => Forall_cons_2 _ x l (json_nested_ind x) (go l)
      end) l)
  | JObj fs => Hobj fs ((fix go fs : Forall (fun '(_, v) => P v) fs :=
      match fs with
      | [] => Forall_nil_2 _
      | (k, x) :: fs => Forall_cons_2 _ (k, x) fs (json_nested_ind x) (go fs)
      end) fs)
  end.
End json_ind.

(** * The order of numbers *)

Definition num_exponent (x : jsnum) : Z := match x with S754_finite _ _ e => e | _ => 0 end.
Definition num_mantissa (x : jsnum) : Z :=
  match x with S754_finite s m _ => if s then Z.neg m else Z.pos m | _ => 0 end.
Definition num_rank (x : jsnum) : Z :=
  match x with S754_infinity s => if s then -1 else 1 | _ => 0 end.

(** The numbers as integers, of one common scale. *)
Lemma num_order_scaled low x y :
  x ≠ S754_nan → y ≠ S754_nan → (low ≤ num_exponent x)%Z → (low ≤ num_exponent y)%Z →
  let scaled z := (num_mantissa z * 2 ^ (num_exponent z - low))%Z in
  num_order x y =
    (if decide (num_rank x = num_rank y) then Z.sgn (scaled x - scaled y)
     else Z.sgn (num_rank x - num_rank y))%Z.
Proof.
  intros Hx Hy Hlx Hly. simpl.
  assert (∀ v w e f, (low ≤ e)%Z → (low ≤ f)%Z →
    match (v * 2 ^ (e - Z.min e f) ?= w * 2 ^ (f - Z.min e f))%Z with
    | Lt => -1 | Eq => 0 | Gt => 1
    end%Z = Z.sgn (v * 2 ^ (e - low) - w * 2 ^ (f - low))) as Hscale.
  { intros v w e f He Hf.
    assert (0 < 2 ^ (Z.min e f - low))%Z as Hpos by (apply Z.pow_pos_nonneg; lia).
    replace (e - low)%Z with ((e - Z.min e f) + (Z.min e f - low))%Z by lia.
    replace (f - low)%Z with ((f - Z.min e f) + (Z.min e f - low))%Z by lia.
    rewrite !Z.pow_add_r by lia. rewrite !Z.mul_assoc, <-Z.mul_sub_distr_r, Z.sgn_mul.
    rewrite (Z.sgn_pos (2 ^ (Z.min e f - low))) by done.
    destruct (Z.compare_spec (v * 2 ^ (e - Z.min e f)) (w * 2 ^ (f - Z.min e f))); lia. }
  unfold num_order, num_compare.
  destruct x as [s|s| |s m e], y as [t|t| |t n f]; try done; simpl in *;
    repeat case_decide; try (by destruct s); try (by destruct t); try (by destruct s, t);
    rewrite <-Hscale by done; try reflexivity; by rewrite Z.mul_0_l.
Qed.

Lemma num_order_opp x y : num_order y x = (- num_order x y)%Z.
Proof.
  destruct (decide (x = S754_nan)) as [->|Hx]; [by destruct y|].
  destruct (decide (y = S754_nan)) as [->|Hy]; [by destruct x|].
  rewrite !(num_order_scaled (Z.min (num_exponent x) (num_exponent y))) by (done || lia).
  repeat case_decide; lia.
Qed.

Lemma num_order_trans x y z :
  x ≠ S754_nan → y ≠ S754_nan → z ≠ S754_nan →
  (num_order x y ≤ 0 → num_order y z ≤ 0 → num_order x z ≤ 0)%Z.
Proof.
  intros Hx Hy Hz.
  pose (low := Z.min (num_exponent x) (Z.min (num_exponent y) (num_exponent z))).
  rewrite !(num_order_scaled low) by (done || lia). repeat case_decide; lia.
Qed.

Lemma num_compare_Eq x y :
  num_compare x y = Some Eq ↔ x ≠ S754_nan ∧ y ≠ S754_nan ∧ num_order x y = 0%Z.
Proof.
  unfold num_order. split.
  - intros Hxy. rewrite Hxy. split_and!; [|..|done]; intros ->; [done|by destruct x].
  - intros (Hx & Hy & Hxy). destruct (num_compare x y) as [[]|] eqn:E; try done.
    by destruct x, y.
Qed.

Lemma num_compare_trans x y z :
  num_compare x y = Some Eq → num_compare y z = Some Eq → num_compare x z = Some Eq.
Proof.
  rewrite !num_compare_Eq. intros (Hx & Hy & Hxy) (_ & Hz & Hyz). split_and!; [done..|].
  pose proof (num_order_trans x y z Hx Hy Hz). pose proof (num_order_trans z y x Hz Hy Hx).
  pose proof (num_order_opp x y). pose proof (num_order_opp y z). pose proof (num_order_opp x z). lia.
Qed.

Lemma num_compare_sym x y : num_compare x y = Some Eq → num_compare y x = Some Eq.
Proof.
  rewrite !num_compare_Eq. intros (Hx & Hy & Hxy). split_and!; [done..|].
  pose proof (num_order_opp x y). lia.
Qed.

Lemma num_integer_iff x z : num_integer x = Some z ↔ num_compare x (num_of_Z z) = Some Eq.
Proof.
  assert (∀ v e, 0 ≤ e → v * 2 ^ (e - Z.min e 0) = z * 2 ^ (0 - Z.min e 0) ↔ v * 2 ^ e = z)%Z as Hup.
  { intros v e He. replace (Z.min e 0) with 0%Z by lia. by rewrite !Z.sub_0_r, Z.pow_0_r, Z.mul_1_r. }
  assert (∀ v e, e < 0 → v * 2 ^ (e - Z.min e 0) = z * 2 ^ (0 - Z.min e 0) ↔
    v `mod` 2 ^ (- e) = 0 ∧ v `div` 2 ^ (- e) = z)%Z as Hdown.
  { intros v e He. replace (Z.min e 0) with e by lia. rewrite Z.sub_diag. replace (0 - e)%Z with (- e)%Z by lia.
    assert (0 < 2 ^ (- e))%Z by (apply Z.pow_pos_nonneg; lia).
    pose proof (Z.div_mod v (2 ^ (- e))). rewrite Z.pow_0_r, Z.mul_1_r. split; [|nia]. intros ->.
    rewrite Z.mod_mul, Z.div_mul by lia. done. }
  assert (∀ x : jsnum, is_finite x = true → num_compare x (num_of_Z z) = Some Eq ↔
    (num_mantissa x * 2 ^ (num_exponent x - Z.min (num_exponent x) 0) =
     z * 2 ^ (0 - Z.min (num_exponent x) 0))%Z) as Hcmp.
  { intros [| | |s m e] Hx; try done; destruct z;
      cbn [num_compare num_of_Z num_mantissa num_exponent]; rewrite <-Z.compare_eq_iff;
      (split; [by intros [=]|by intros ->]). }
  destruct x as [s|s| |s m e]; [| |by destruct z|].
  - rewrite Hcmp, Hup by done. simpl. split; [by intros [= <-]|by intros <-].
  - by destruct z, s.
  - rewrite Hcmp by done. simpl. repeat case_decide; [rewrite Hup by done|rewrite Hdown by lia..]; naive_solver.
Qed.

Lemma num_integer_equal x y : num_compare x y = Some Eq → num_integer x = num_integer y.
Proof.
  intros Hxy. apply option_eq. intros z. rewrite !num_integer_iff.
  split; intros H; (eapply num_compare_trans; [|exact H]); [by apply num_compare_sym|done].
Qed.
