(* ===== verification/JsStr.v ===== *)
(** JavaScript strings as lists of UTF-16 code units, and the string
    operations the code uses: search, prefixes and suffixes, decimal printing
    and reading, byte length. *)
From Stdlib Require Import Ascii NArith.
From Stdlib Require Import DecimalN DecimalFacts.
From S2P Require Import Prelude.

Abbreviation jstr := (list N).

(** A string literal of ASCII characters. *)
Definition js (s : string) : jstr := N_of_ascii <$> String.list_ascii_of_string s.

Definition NL : N := 10.
Definition CR : N := 13.
Definition SPACE : N := 32.
Definition COLON : N := 58.

(** [s.indexOf(c)] for a one-unit string. *)
Fixpoint index_of (c : N) (s : jstr) : option nat :=
  match s with
  | [] => None
  | x :: s' => if decide (x = c) then Some 0 else S <$> index_of c s'
  end.

(** [s.lastIndexOf(c)] for a one-unit string. *)
Fixpoint last_index_of (c : N) (s : jstr) : option nat :=
  match s with
  | [] => None
  | x :: s' =>
      match last_index_of c s' with
      | Some i => Some (S i)
      | None => if decide (x = c) then Some 0 else None
      end
  end.

Definition starts_with (p s : jstr) : bool := bool_decide (take (length p) s = p).

(** [s.endsWith(c) ? s.slice(0, -1) : s] *)
Definition strip_last (c : N) (s : jstr) : jstr :=
  if decide (last s = Some c) then take (length s - 1) s else s.

(** [s.startsWith(c) ? s.slice(1) : s] *)
Definition strip_first (c : N) (s : jstr) : jstr :=
  match s with
  | x :: s' => if decide (x = c) then s' else s
  | [] => []
  end.

(** [parts.join(sep)] *)
Fixpoint join (sep : jstr) (parts : list jstr) : jstr :=
  match parts with
  | [] => []
  | [p] => p
  | p :: parts => p ++ sep ++ join sep parts
  end.

(** [Buffer.byteLength(s, "utf8")], by the loop of
    [command-input-schema-parser.ts]: a surrogate pair counts four bytes, a
    lone surrogate three. *)
Fixpoint utf8ByteLength (s : jstr) : Z :=
  match s with
  | [] => 0
  | code :: s' =>
      if decide (code ≤ 127)%N then 1 + utf8ByteLength s'
      else if decide (code ≤ 2047)%N then 2 + utf8ByteLength s'
      else if decide (55296 ≤ code ∧ code ≤ 56319)%N then
        match s' with
        | next :: s'' =>
            if decide (56320 ≤ next ∧ next ≤ 57343)%N then 4 + utf8ByteLength s''
            else 3 + utf8ByteLength s'
        | [] => 3
        end
      else 3 + utf8ByteLength s'
  end%Z.

(** * Decimal numerals *)

Definition is_digit (c : N) : bool := bool_decide (48 ≤ c ∧ c ≤ 57)%N.

Fixpoint uint_digits (d : Decimal.uint) : jstr :=
  match d with
  | Decimal.Nil => []
  | Decimal.D0 d => 48%N :: uint_digits d
  | Decimal.D1 d => 49%N :: uint_digits d
  | Decimal.D2 d => 50%N :: uint_digits d
  | Decimal.D3 d => 51%N :: uint_digits d
  | Decimal.D4 d => 52%N :: uint_digits d
  | Decimal.D5 d => 53%N :: uint_digits d
  | Decimal.D6 d => 54%N :: uint_digits d
  | Decimal.D7 d => 55%N :: uint_digits d
  | Decimal.D8 d => 56%N :: uint_digits d
  | Decimal.D9 d => 57%N :: uint_digits d
  end.

Definition digit_uint (c : N) (d : Decimal.uint) : option Decimal.uint :=
  match c with
  | 48 => Some (Decimal.D0 d) | 49 => Some (Decimal.D1 d) | 50 => Some (Decimal.D2 d)
  | 51 => Some (Decimal.D3 d) | 52 => Some (Decimal.D4 d) | 53 => Some (Decimal.D5 d)
  | 54 => Some (Decimal.D6 d) | 55 => Some (Decimal.D7 d) | 56 => Some (Decimal.D8 d)
  | 57 => Some (Decimal.D9 d) | _ => None
  end%N.

Fixpoint digits_uint (s : jstr) : option Decimal.uint :=
  match s with
  | [] => Some Decimal.Nil
  | c :: s' => d ← digits_uint s'; digit_uint c d
  end.

(** [String(n)] for a non-negative integer in the range JavaScript prints
    without an exponent. *)
Definition dec_string (n : N) : jstr := uint_digits (N.to_uint n).

(** A decimal numeral without leading zeros, with the integer it denotes. *)
Definition parse_numeral (s : jstr) : option N :=
  d ← digits_uint s;
  match s with
  | [] => None
  | c :: s' => if decide (c = 48%N ∧ s' ≠ []) then None else Some (N.of_uint d)
  end.

Lemma digits_uint_digits d : digits_uint (uint_digits d) = Some d.
Proof. induction d; simpl; [done|by rewrite IHd ..]. Qed.

Lemma dec_string_leading n c s : dec_string n = c :: s → c = 48%N → s = [].
Proof.
  unfold dec_string. intros H ->.
  pose proof (Unsigned.to_of (N.to_uint n)) as Hto. rewrite Unsigned.of_to in Hto.
  destruct (N.to_uint n) as [|d|d|d|d|d|d|d|d|d|d]; simpl in H; simplify_eq.
  unfold Decimal.unorm in Hto. simpl in Hto.
  pose proof (DecimalFacts.nzhead_nonzero d) as Hz.
  destruct (Decimal.nzhead d) eqn:E; simplify_eq; [done|].
  exfalso. by eapply Hz.
Qed.

Lemma dec_string_nonempty n : dec_string n ≠ [].
Proof.
  unfold dec_string. intros H. assert (N.to_uint n = Decimal.Nil) as Hn.
  { by destruct (N.to_uint n). }
  pose proof (Unsigned.of_to n) as Hof. rewrite Hn in Hof. by subst n.
Qed.

(** Reading back a printed numeral. *)
Lemma parse_dec_string n : parse_numeral (dec_string n) = Some n.
Proof.
  unfold parse_numeral.
  assert (digits_uint (dec_string n) = Some (N.to_uint n)) as -> by apply digits_uint_digits.
  simpl.
  pose proof (dec_string_nonempty n) as Hne. pose proof (dec_string_leading n) as Hl.
  rewrite Unsigned.of_to. destruct (dec_string n) as [|c s]; [done|].
  case_decide as Hd; [|done]. destruct Hd as [-> Hs]. by destruct (Hl 48%N s).
Qed.

Lemma dec_string_digits n : Forall (fun c => is_digit c = true) (dec_string n).
Proof. unfold dec_string. induction (N.to_uint n); simpl; repeat constructor; done. Qed.

#[export] Instance dec_string_inj : Inj (=) (=) dec_string.
Proof. intros n m H. apply (inj Some). by rewrite <-!parse_dec_string, H. Qed.

(** * Basic facts *)

Lemma index_of_Some c s i :
  index_of c s = Some i → s = take i s ++ c :: drop (S i) s ∧ c ∉ take i s.
Proof.
  revert i. induction s as [|x s IH]; intros i; simpl; [done|].
  case_decide as Hx; [intros [= <-]; subst; set_solver|].
  intros (j & Hj & ->)%fmap_Some. apply IH in Hj as [Heq Hn]. simpl.
  split; [by f_equal|set_solver].
Qed.

Lemma index_of_take_S c s i :
  index_of c s = Some i → take (S i) s = take i s ++ [c].
Proof.
  revert i. induction s as [|x s IH]; intros i; simpl; [done|].
  case_decide as Hx; [intros [= <-]; by subst|].
  intros (j & Hj & ->)%fmap_Some. simpl. f_equal. by apply IH.
Qed.

Lemma index_of_None c s : index_of c s = None ↔ c ∉ s.
Proof.
  induction s as [|x s IH]; simpl; [set_solver|].
  case_decide; [set_solver|]. rewrite fmap_None, IH. set_solver.
Qed.

Lemma index_of_app c s1 s2 : c ∉ s1 → index_of c (s1 ++ c :: s2) = Some (length s1).
Proof.
  induction s1 as [|x s1 IH]; intros Hn; simpl; [by rewrite decide_True|].
  rewrite decide_False by set_solver. rewrite IH by set_solver. done.
Qed.

Lemma last_index_of_app c s1 s2 :
  c ∉ s2 → last_index_of c (s1 ++ c :: s2) = Some (length s1).
Proof.
  intros Hn. induction s1 as [|x s1 IH]; simpl.
  - assert (last_index_of c s2 = None) as ->; [|by rewrite decide_True].
    clear -Hn. induction s2 as [|x s2 IH]; simpl; [done|].
    rewrite IH by set_solver. rewrite decide_False; [done|]. set_solver.
  - by rewrite IH.
Qed.

Lemma utf8ByteLength_nonneg s : (0 ≤ utf8ByteLength s)%Z.
Proof.
  assert (∀ n s, length s ≤ n → (0 ≤ utf8ByteLength s)%Z) as H.
  { induction n as [|n IH]; intros [|c [|c' s']] Hn; simpl in *; try lia;
      repeat case_decide; try lia; pose proof (IH s' ltac:(lia));
      pose proof (IH (c' :: s') ltac:(simpl; lia)); simpl in *; repeat case_decide; lia. }
  by apply (H (length s)).
Qed.

(** * Character classes and [trim] *)

Definition in_range (lo hi c : N) : bool := bool_decide (lo ≤ c ∧ c ≤ hi)%N.

Definition is_alpha (c : N) : bool := in_range 65 90 c || in_range 97 122 c.

Definition is_alnum (c : N) : bool := is_alpha c || is_digit c.

(** White space and line terminators removed by [String.prototype.trim]. *)
Definition is_js_space (c : N) : bool :=
  in_range 9 13 c || bool_decide (c ∈ [32; 160; 5760; 8232; 8233; 8239; 8287; 12288; 65279]%N)
  || in_range 8192 8202 c.

Fixpoint trim_start (s : jstr) : jstr :=
  match s with
  | c :: s' => if is_js_space c then trim_start s' else s
  | [] => []
  end.

Definition trim (s : jstr) : jstr := rev (trim_start (rev (trim_start s))).

(** * Byte lengths of parts *)

Lemma utf8ByteLength_cons c s :
  (utf8ByteLength s <= utf8ByteLength (c :: s) <= utf8ByteLength [c] + utf8ByteLength s)%Z.
Proof.
  simpl. repeat case_decide; try lia. destruct s as [|c' s']; [simpl; lia|].
  case_decide; [|lia]. simpl.
  rewrite (decide_False (P := (c' ≤ 127)%N)), (decide_False (P := (c' ≤ 2047)%N)),
    (decide_False (P := (55296 ≤ c' ∧ c' ≤ 56319)%N)) by lia. lia.
Qed.

Lemma utf8ByteLength_app_r s1 s2 : (utf8ByteLength s2 <= utf8ByteLength (s1 ++ s2))%Z.
Proof.
  induction s1 as [|c s1 IH]; [simpl; lia|].
  pose proof (utf8ByteLength_cons c (s1 ++ s2)). simpl app. lia.
Qed.

Lemma utf8ByteLength_app_l s1 s2 : (utf8ByteLength s1 <= utf8ByteLength (s1 ++ s2))%Z.
Proof.
  assert (∀ n s1, length s1 ≤ n → (utf8ByteLength s1 <= utf8ByteLength (s1 ++ s2))%Z) as H;
    [|by apply (H (length s1))]. clear s1.
  induction n as [|n IH]; intros [|c [|c' s1]] Hn; simpl in Hn; try lia;
    try (apply utf8ByteLength_nonneg).
  - pose proof (utf8ByteLength_nonneg s2). simpl.
    repeat case_decide; try lia. destruct s2 as [|d s2]; [lia|]. simpl in *.
    pose proof (utf8ByteLength_nonneg s2). repeat case_decide; lia.
  - pose proof (IH (c' :: s1) ltac:(simpl; lia)) as H1. pose proof (IH s1 ltac:(lia)) as H2.
    simpl in *. repeat case_decide; lia.
Qed.

Lemma utf8ByteLength_app_le s1 s2 :
  (utf8ByteLength (s1 ++ s2) <= utf8ByteLength s1 + utf8ByteLength s2)%Z.
Proof.
  assert (∀ n s1, length s1 ≤ n →
    (utf8ByteLength (s1 ++ s2) <= utf8ByteLength s1 + utf8ByteLength s2)%Z) as H;
    [|by apply (H (length s1))]. clear s1.
  induction n as [|n IH]; intros [|c [|c' s1]] Hn; simpl in Hn; try lia; simpl app;
    try (simpl utf8ByteLength at 2; lia).
  - apply utf8ByteLength_cons.
  - pose proof (IH (c' :: s1) ltac:(simpl; lia)) as H1. pose proof (IH s1 ltac:(lia)) as H2.
    simpl in *. repeat case_decide; lia.
Qed.

Lemma utf8ByteLength_snoc_NL s :
  utf8ByteLength (s ++ [NL]) = (utf8ByteLength s + 1)%Z.
Proof.
  assert (∀ n s, length s ≤ n → utf8ByteLength (s ++ [NL]) = (utf8ByteLength s + 1)%Z) as H;
    [|by apply (H (length s))]. clear s.
  induction n as [|n IH]; intros [|c [|c' s]] Hn; simpl in Hn; try lia; try done.
  - simpl. unfold NL. repeat case_decide; lia.
  - pose proof (IH (c' :: s) ltac:(simpl; lia)) as H1. pose proof (IH s ltac:(lia)) as H2.
    simpl in *. repeat case_decide; lia.
Qed.

Lemma utf8ByteLength_take n s : (utf8ByteLength (take n s) <= utf8ByteLength s)%Z.
Proof. rewrite <-(take_drop n s) at 2. apply utf8ByteLength_app_l. Qed.

Lemma utf8ByteLength_drop n s : (utf8ByteLength (drop n s) <= utf8ByteLength s)%Z.
Proof. rewrite <-(take_drop n s) at 2. apply utf8ByteLength_app_r. Qed.

Lemma utf8ByteLength_strip_last c s : (utf8ByteLength (strip_last c s) <= utf8ByteLength s)%Z.
Proof. unfold strip_last. case_decide; [apply utf8ByteLength_take|lia]. Qed.

Lemma utf8ByteLength_strip_first c s : (utf8ByteLength (strip_first c s) <= utf8ByteLength s)%Z.
Proof.
  destruct s as [|x s]; unfold strip_first; [lia|]. case_decide; [|lia].
  pose proof (utf8ByteLength_cons x s). lia.
Qed.

(** * The order of [Array.prototype.sort] without a comparison function *)

(** By UTF-16 units. *)
Fixpoint js_order (s t : jstr) : Z :=
  match s, t with
  | [], [] => 0
  | [], _ => -1
  | _, [] => 1
  | x :: s, y :: t =>
      if decide (x < y)%N then -1 else if decide (y < x)%N then 1 else js_order s t
  end%Z.

Definition sort_strings (l : list jstr) : list jstr := js_sort js_order l.

Lemma js_order_opp s t : js_order t s = (- js_order s t)%Z.
Proof.
  revert t. induction s as [|x s IH]; intros [|y t]; simpl; try done.
  repeat case_decide; try lia. by rewrite IH.
Qed.

Lemma js_order_le s t : cmp_le js_order s t ↔ (js_order s t ≤ 0)%Z.
Proof. unfold cmp_le. rewrite js_order_opp. lia. Qed.

Lemma js_order_zero s t : js_order s t = 0%Z → s = t.
Proof.
  revert t. induction s as [|x s IH]; intros [|y t]; simpl; try done.
  repeat case_decide; try done. intros Ht. f_equal; [lia|by apply IH].
Qed.

Lemma js_order_trans s t u :
  (js_order s t ≤ 0)%Z → (js_order t u ≤ 0)%Z → (js_order s u ≤ 0)%Z.
Proof.
  revert t u. induction s as [|x s IH]; intros [|y t] [|z u]; simpl; try lia.
  repeat case_decide; try lia. by apply IH.
Qed.

#[export] Instance js_order_order : CompareOrder js_order.
Proof. split; intros; [by rewrite js_order_opp, Z.sgn_opp|by eapply js_order_trans]. Qed.

Lemma js_order_antisym s t : cmp_le js_order s t → cmp_le js_order t s → s = t.
Proof.
  rewrite !js_order_le. intros H1 H2. apply js_order_zero.
  rewrite js_order_opp in H2. lia.
Qed.

(** Sorting forgets in which order strings came. *)
Lemma sort_strings_perm l l' : l ≡ₚ l' → sort_strings l = sort_strings l'.
Proof.
  intros Hp. apply (sorted_perm_eq js_order).
  - intros x y _ _. apply js_order_antisym.
  - apply js_sort_sorted, _.
  - apply js_sort_sorted, _.
  - unfold sort_strings. by rewrite !js_sort_perm.
Qed.

Lemma sort_strings_idem l : sort_strings (sort_strings l) = sort_strings l.
Proof. apply sort_strings_perm, js_sort_perm. Qed.

(** * [JSON.stringify] of a string *)

Definition hex_digit (n : N) : N := if decide (n < 10)%N then (48 + n)%N else (87 + n)%N.

(** [\uXXXX] *)
Definition unicode_escape (c : N) : jstr :=
  [92; 117; hex_digit (c / 4096); hex_digit (c / 256 mod 16); hex_digit (c / 16 mod 16);
   hex_digit (c mod 16)]%N.

Definition quote_unit (c : N) : jstr :=
  match c with
  | 8 => js "\b" | 9 => js "\t" | 10 => js "\n" | 12 => js "\f" | 13 => js "\r"
  | 34 => [92; 34] | 92 => [92; 92]
  | _ => if decide (c < 32) then unicode_escape c else [c]
  end%N.

(** The units of a string between its quotes; a lone surrogate is escaped. *)
Fixpoint quote_units (s : jstr) : jstr :=
  match s with
  | [] => []
  | c :: s' =>
      if in_range 55296 56319 c then
        match s' with
        | next :: s'' =>
            if in_range 56320 57343 next then c :: next :: quote_units s''
            else unicode_escape c ++ quote_units s'
        | [] => unicode_escape c
        end
      else if in_range 56320 57343 c then unicode_escape c ++ quote_units s'
      else quote_unit c ++ quote_units s'
  end.

Definition quote (s : jstr) : jstr := 34%N :: quote_units s ++ [34%N].

Example quote_sample : quote (js "a" ++ [34; 10; 1; 55357; 56832; 55357]%N) =
  [34%N] ++ js "a" ++ [92; 34]%N ++ js "\n" ++ js "\u0001" ++ [55357; 56832]%N ++ js "\ud83d" ++ [34%N].
Proof. vm_compute. reflexivity. Qed.

Lemma digit_uint_digits c d d' : digit_uint c d = Some d' → uint_digits d' = c :: uint_digits d.
Proof.
  unfold digit_uint. intros H. destruct c as [|p]; [done|].
  do 6 (destruct p as [p|p|]; simpl in H; simplify_eq; try done).
Qed.

Lemma digits_uint_inv s d : digits_uint s = Some d → uint_digits d = s.
Proof.
  revert d. induction s as [|c s IH]; simpl; intros d; [by intros [= <-]|].
  intros (d' & Hs & Hd)%bind_Some. apply digit_uint_digits in Hd. rewrite Hd. f_equal. by apply IH.
Qed.

(** A numeral that can be read is the one that is printed. *)
Lemma parse_numeral_inv s n : parse_numeral s = Some n → s = dec_string n.
Proof.
  unfold parse_numeral. intros (d & Hd & Hs)%bind_Some. destruct s as [|c s]; [done|].
  case_decide as Hz; [done|]. injection Hs as <-. unfold dec_string. rewrite Unsigned.to_of.
  rewrite <-(digits_uint_inv _ _ Hd). f_equal. symmetry.
  destruct d as [|d|d|d|d|d|d|d|d|d|d]; try done.
  - simpl in Hd. destruct (digits_uint s) as [d'|]; [|done]. simpl in Hd.
    by apply digit_uint_digits in Hd.
  - apply digits_uint_inv in Hd. simpl in Hd. injection Hd as <- Hd.
    destruct d; simpl in Hd; subst; try (exfalso; apply Hz; done). done.
Qed.
