(* ===== verification/JsonText.v ===== *)
(** JSON values whose strings have UTF-16 units, and the text that [JSON.stringify] makes of
    them. *)
From Stdlib Require Import Floats.SpecFloat.
From S2P Require Import Prelude JsMap Json JsStr.

(** The fields of an object in the order in which they were defined. *)
Inductive AppCommandInputJsonValue : Type :=
| AppNull
| AppBool (b : bool)
| AppNum (x : jsnum)
| AppStr (s : jstr)
| AppArr (values : list AppCommandInputJsonValue)
| AppObj (fields : list (jstr * AppCommandInputJsonValue)).

Abbreviation app_json := AppCommandInputJsonValue.

#[export] Instance app_json_eq_dec : EqDecision app_json.
Proof.
  refine (fix go (a b : app_json) : Decision (a = b) :=
    let _ : EqDecision app_json := go in
    match a, b with
    | AppNull, AppNull => left eq_refl
    | AppBool x, AppBool y => cast_if (decide (x = y))
    | AppNum x, AppNum y => cast_if (decide (x = y))
    | AppStr x, AppStr y => cast_if (decide (x = y))
    | AppArr x, AppArr y => cast_if (decide (x = y))
    | AppObj x, AppObj y => cast_if (decide (x = y))
    | _, _ => right _
    end); congruence.
Defined.

Section json_ind.
Context (P : app_json → Prop).
Context (Hnull : P AppNull) (Hbool : ∀ b, P (AppBool b)) (Hnum : ∀ x, P (AppNum x)).
Context (Hstr : ∀ s, P (AppStr s)) (Harr : ∀ l, Forall P l → P (AppArr l)).
Context (Hobj : ∀ fs : list (jstr * app_json), Forall (fun '(_, v) => P v) fs → P (AppObj fs)).

Fixpoint app_json_nested_ind (v : app_json) : P v :=
  match v with
  | AppNull => Hnull
  | AppBool b => Hbool b
  | AppNum x => Hnum x
  | AppStr s => Hstr s
  | AppArr l => Harr l ((fix go l : Forall P l :=
      match l with
      | [] => Forall_nil_2 _
      | x :: l => Forall_cons_2 _ x l (app_json_nested_ind x) (go l)
      end) l)
  | AppObj fs => Hobj fs ((fix go fs : Forall (fun '(_, v) => P v) fs :=
      match fs with
      | [] => Forall_nil_2 _
      | (k, x) :: fs => Forall_cons_2 _ (k, x) fs (app_json_nested_ind x) (go fs)
      end) fs)
  end.
End json_ind.

(** The text of a number, as [String] and [JSON.stringify] write it. *)
Section text.
Context (number_text : jsnum → jstr).

(** [JSON.stringify] *)
Fixpoint stringify (value : app_json) : jstr :=
  match value with
  | AppNull => js "null"
  | AppBool b => if b then js "true" else js "false"
  | AppNum x => if is_finite x then number_text x else js "null"
  | AppStr s => quote s
  | AppArr values => js "[" ++ join (js ",") (stringify <$> values) ++ js "]"
  | AppObj fields =>
      js "{" ++ join (js ",") ((fun '(key, value) => quote key ++ js ":" ++ stringify value)
        <$> fields) ++ js "}"
  end.

End text.

(** * A text has one value *)

(** ** Strings *)

Definition hex_value (c : N) : N := if decide (c < 58)%N then (c - 48)%N else (c - 87)%N.

(** The unit that a one-letter escape stands for. *)
Definition escaped_unit (c : N) : N :=
  match c with
  | 98 => 8 | 116 => 9 | 110 => 10 | 102 => 12 | 114 => 13 | _ => c
  end%N.

(** What is read up to the closing quote, and what follows it. *)
Fixpoint unquote (t : jstr) : option (jstr * jstr) :=
  match t with
  | [] => None
  | c :: t1 =>
      if decide (c = 34)%N then Some ([], t1)
      else if decide (c = 92)%N then
        match t1 with
        | [] => None
        | e :: t2 =>
            if decide (e = 117)%N then
              match t2 with
              | h1 :: h2 :: h3 :: h4 :: t3 =>
                  prod_map (cons (hex_value h1 * 4096 + hex_value h2 * 256 + hex_value h3 * 16 +
                    hex_value h4)%N) id <$> unquote t3
              | _ => None
              end
            else prod_map (cons (escaped_unit e)) id <$> unquote t2
        end
      else prod_map (cons c) id <$> unquote t1
  end.

Lemma hex_value_digit n : (n < 16)%N → hex_value (hex_digit n) = n.
Proof. unfold hex_value, hex_digit. intros. repeat case_decide; lia. Qed.

Lemma hex_value_units c : (c < 65536)%N →
  (hex_value (hex_digit (c / 4096)) * 4096 + hex_value (hex_digit (c / 256 mod 16)) * 256 +
   hex_value (hex_digit (c / 16 mod 16)) * 16 + hex_value (hex_digit (c mod 16)) = c)%N.
Proof.
  intros Hc. assert (c / 4096 < 16)%N by (apply N.Div0.div_lt_upper_bound; lia).
  rewrite !hex_value_digit by (done || by apply N.mod_lt).
  assert (c / 256 = c / 16 / 16)%N as E1 by by rewrite N.Div0.div_div.
  assert (c / 4096 = c / 16 / 16 / 16)%N as E2 by by rewrite !N.Div0.div_div.
  pose proof (N.div_mod c 16). pose proof (N.div_mod (c / 16) 16).
  pose proof (N.div_mod (c / 16 / 16) 16). rewrite E1, E2. lia.
Qed.

Lemma unquote_escape c t : (c < 65536)%N →
  unquote (unicode_escape c ++ t) = prod_map (cons c) id <$> unquote t.
Proof.
  intros Hc. unfold unicode_escape.
  transitivity (prod_map (cons (hex_value (hex_digit (c / 4096)) * 4096 +
    hex_value (hex_digit (c / 256 mod 16)) * 256 + hex_value (hex_digit (c / 16 mod 16)) * 16 +
    hex_value (hex_digit (c mod 16)))%N) id <$> unquote t); [done|].
  by rewrite hex_value_units.
Qed.

Lemma unquote_raw c t : c ≠ 34%N → c ≠ 92%N →
  unquote (c :: t) = prod_map (cons c) id <$> unquote t.
Proof. intros. simpl. by rewrite !decide_False. Qed.

Lemma unquote_unit c t : unquote (quote_unit c ++ t) = prod_map (cons c) id <$> unquote t.
Proof.
  destruct (decide (c < 32)%N) as [Hc|Hc].
  - destruct c as [|p]; [reflexivity|].
    do 5 (destruct p as [p|p|]; try lia; try reflexivity).
  - destruct (decide (c = 34%N)) as [->|]; [done|]. destruct (decide (c = 92%N)) as [->|]; [done|].
    rewrite <-unquote_raw by done. f_equal. unfold quote_unit. rewrite decide_False by done.
    destruct c as [|p]; [done|]. do 7 (destruct p as [p|p|]; try done; try lia).
Qed.

(** A string is read back from its quoted text, whatever follows it. *)
Lemma unquote_units s t : unquote (quote_units s ++ 34%N :: t) = Some (s, t).
Proof.
  remember (length s) as n eqn:Hn. revert s Hn.
  induction n as [n IH] using lt_wf_ind; intros s ->. destruct s as [|c s]; [done|].
  assert (∀ s', length s' < length (c :: s) → unquote (quote_units s' ++ 34%N :: t) = Some (s', t))
    as Hrec by (intros s' Hs'; by apply (IH (length s'))).
  cbn [quote_units]. destruct (in_range 55296 56319 c) eqn:Hhigh.
  - unfold in_range in Hhigh. apply bool_decide_eq_true in Hhigh.
    destruct s as [|next s]; [by rewrite unquote_escape by lia|].
    destruct (in_range 56320 57343 next) eqn:Hlow.
    + unfold in_range in Hlow. apply bool_decide_eq_true in Hlow. cbn [app].
      rewrite !unquote_raw by lia. by rewrite Hrec by (simpl; lia).
    + rewrite <-app_assoc, unquote_escape by lia. by rewrite Hrec by (simpl; lia).
  - destruct (in_range 56320 57343 c) eqn:Hlow.
    + unfold in_range in Hlow. apply bool_decide_eq_true in Hlow.
      rewrite <-app_assoc, unquote_escape by lia. by rewrite Hrec by (simpl; lia).
    + rewrite <-app_assoc, unquote_unit. by rewrite Hrec by (simpl; lia).
Qed.

Lemma quote_inj s s' t t' : quote s ++ t = quote s' ++ t' → s = s' ∧ t = t'.
Proof.
  unfold quote. simpl. rewrite <-!app_assoc. intros [= H%(f_equal unquote)]. simpl in H.
  rewrite !unquote_units in H. by simplify_eq.
Qed.

(** ** Values *)

(** Equal, but that a number may have several representations. *)
Fixpoint equal_json (v w : app_json) : Prop :=
  match v, w with
  | AppNull, AppNull => True
  | AppBool b, AppBool c => b = c
  | AppNum x, AppNum y => num_compare x y = Some Eq
  | AppStr s, AppStr t => s = t
  | AppArr vs, AppArr ws =>
      (fix go vs ws := match vs, ws with
        | [], [] => True
        | v :: vs, w :: ws => equal_json v w ∧ go vs ws
        | _, _ => False
        end) vs ws
  | AppObj fs, AppObj gs =>
      (fix go fs gs := match fs, gs with
        | [], [] => True
        | (k, v) :: fs, (k', w) :: gs => k = k' ∧ equal_json v w ∧ go fs gs
        | _, _ => False
        end) fs gs
  | _, _ => False
  end.

Definition equal_field (p q : jstr * app_json) : Prop := p.1 = q.1 ∧ equal_json p.2 q.2.

Lemma equal_json_arr vs ws : equal_json (AppArr vs) (AppArr ws) ↔ Forall2 equal_json vs ws.
Proof.
  revert ws. induction vs as [|v vs IH]; intros [|w ws]; simpl.
  - by split.
  - split; [done|]. by inversion 1.
  - split; [done|]. by inversion 1.
  - rewrite Forall2_cons. by rewrite <-IH.
Qed.

Lemma equal_json_obj fs gs : equal_json (AppObj fs) (AppObj gs) ↔ Forall2 equal_field fs gs.
Proof.
  revert gs. induction fs as [|[k v] fs IH]; intros [|[k' w] gs]; simpl.
  - by split.
  - split; [done|]. by inversion 1.
  - split; [done|]. by inversion 1.
  - rewrite Forall2_cons, <-IH. unfold equal_field. simpl. tauto.
Qed.

(** A JSON value that JSON.parse may return: its numbers are finite and the fields of an object
    have different names. *)
Fixpoint json_ok (v : app_json) : Prop :=
  match v with
  | AppNum x => is_finite x = true
  | AppArr vs => foldr (fun v P => json_ok v ∧ P) True vs
  | AppObj fs => NoDup fs.*1 ∧ foldr (fun '(_, v) P => json_ok v ∧ P) True fs
  | _ => True
  end.

Lemma json_ok_arr vs : json_ok (AppArr vs) ↔ Forall json_ok vs.
Proof. induction vs as [|v vs IH]; simpl; [done|]. rewrite Forall_cons. by rewrite <-IH. Qed.

Lemma json_ok_obj fs :
  json_ok (AppObj fs) ↔ NoDup fs.*1 ∧ Forall (fun p => json_ok p.2) fs.
Proof.
  simpl. assert (foldr (fun '(_, v) P => json_ok v ∧ P) True fs ↔ Forall (fun p => json_ok p.2) fs)
    as ->; [|done].
  induction fs as [|[k v] fs IH]; simpl; [done|]. rewrite Forall_cons. by rewrite <-IH.
Qed.

(** The characters of a number's text. *)
Definition number_char (c : N) : Prop := is_digit c = true ∨ c ∈ js "+-.e".

(** What [String] makes of finite numbers. *)
Class NumberText (number_text : jsnum → jstr) : Prop := {
  number_text_chars x : is_finite x = true →
    number_text x ≠ [] ∧ Forall number_char (number_text x);
  number_text_eq x y : is_finite x = true → is_finite y = true →
    (number_text x = number_text y ↔ num_compare x y = Some Eq);
}.

(** What may follow a value in a text. *)
Definition stop (t : jstr) : Prop :=
  match t with [] => True | c :: _ => c = 44%N ∨ c = 93%N ∨ c = 125%N end.

Lemma number_char_stop c t : number_char c → stop (c :: t) → False.
Proof.
  intros [Hc|Hc] Ht; simpl in Ht.
  - unfold is_digit in Hc. apply bool_decide_eq_true in Hc. lia.
  - unfold js in Hc. simpl in Hc. set_solver by lia.
Qed.

Lemma munch a b r s :
  Forall number_char a → Forall number_char b → stop r → stop s →
  a ++ r = b ++ s → a = b ∧ r = s.
Proof.
  revert b. induction a as [|c a IH]; intros [|d b] Ha Hb Hr Hs; simpl; intros Heq.
  - done.
  - subst r. apply Forall_cons in Hb as [Hd _]. by destruct (number_char_stop d (b ++ s)).
  - subst s. apply Forall_cons in Ha as [Hc _]. by destruct (number_char_stop c (a ++ r)).
  - injection Heq as <- Heq. apply Forall_cons in Ha as [_ Ha]. apply Forall_cons in Hb as [_ Hb].
    by destruct (IH b Ha Hb Hr Hs Heq) as [-> ->].
Qed.

(** Texts that are joined by commas are found again, up to the bracket that closes them. *)
Lemma join_inj {A} (f : A → jstr) (R : A → A → Prop) close l l' r s :
  (close = 93 ∨ close = 125)%N →
  (∀ x, x ∈ l ∨ x ∈ l' → ∃ c t, f x = c :: t ∧ c ≠ close) →
  (∀ x y r s, x ∈ l → y ∈ l' → stop r → stop s → f x ++ r = f y ++ s → R x y ∧ r = s) →
  join (js ",") (f <$> l) ++ close :: r = join (js ",") (f <$> l') ++ close :: s →
  Forall2 R l l' ∧ r = s.
Proof.
  intros Hclose. 
  assert (∀ x l r, join (js ",") (f <$> x :: l) ++ close :: r =
    f x ++ match l with [] => close :: r | _ => 44%N :: join (js ",") (f <$> l) ++ close :: r end)
    as Hcons.
  { intros x [|y m] t; simpl; [done|]. by rewrite <-!app_assoc. }
  revert l' r s. induction l as [|x l IH]; intros l' r s Hhead Hf Heq.
  - destruct l' as [|y l']; [by simplify_eq/=|]. rewrite Hcons in Heq.
    destruct (Hhead y) as (c & t & E & Hc); [set_solver|]. rewrite E in Heq. simpl in Heq. congruence.
  - destruct l' as [|y l']; rewrite !Hcons in Heq.
    + destruct (Hhead x) as (c & t & E & Hc); [set_solver|]. rewrite E in Heq. simpl in Heq. congruence.
    + apply Hf in Heq as [HR Heq]; [|by left|by left|..].
      * destruct l as [|x1 l], l' as [|y1 l']; simplify_eq; [by repeat constructor|lia|lia|].
        assert (Forall2 R (x1 :: l) (y1 :: l') ∧ r = s) as [Hl ->]; [|split; [by constructor|done]].
        apply IH; [| |done].
        -- intros z Hz. apply Hhead. set_solver.
        -- intros z1 z2 r1 s1 H1 H2. apply Hf; by right.
      * destruct l; simpl; lia.
      * destruct l'; simpl; lia.
Qed.

Section text_inj.
Context (number_text : jsnum → jstr) `{!NumberText number_text}.

Lemma stringify_arr vs r : stringify number_text (AppArr vs) ++ r =
  91%N :: join (js ",") (stringify number_text <$> vs) ++ 93%N :: r.
Proof. cbn [stringify]. by rewrite <-!app_assoc. Qed.

Definition text_field (field : jstr * app_json) : jstr :=
  quote field.1 ++ 58%N :: stringify number_text field.2.

Lemma stringify_obj fs r : stringify number_text (AppObj fs) ++ r =
  123%N :: join (js ",") (text_field <$> fs) ++ 125%N :: r.
Proof.
  cbn [stringify]. rewrite <-!app_assoc. cbn [app]. do 2 f_equal.
  by apply (f_equal (join (js ","))), list_fmap_ext; intros i [k v].
Qed.

(** By what a text begins. *)
Definition head_of (v : app_json) (c : N) : Prop :=
  match v with
  | AppNull => c = 110%N
  | AppBool b => c = if b then 116%N else 102%N
  | AppNum _ => number_char c
  | AppStr _ => c = 34%N
  | AppArr _ => c = 91%N
  | AppObj _ => c = 123%N
  end.

Lemma stringify_head v : json_ok v → ∃ c t, stringify number_text v = c :: t ∧ head_of v c.
Proof.
  destruct v as [|[]|x|s|vs|fs]; simpl; intros Hok; try (by eexists _, _).
  rewrite Hok. destruct (number_text_chars x Hok) as [Hne Hc].
  destruct (number_text x) as [|c t]; [done|]. apply Forall_cons in Hc as [Hc _]. eauto.
Qed.

Lemma head_of_close v c : head_of v c → c ≠ 93%N ∧ c ≠ 125%N.
Proof.
  assert (∀ c, number_char c → c ≠ 93%N ∧ c ≠ 125%N) as Hn.
  { intros d Hd. split; intros ->; by apply (number_char_stop _ [] Hd); simpl; auto. }
  destruct v as [|[]|x|s|vs|fs]; simpl; intros Hc; try (by subst). by apply Hn.
Qed.

(** Values of one text have one kind. *)
Definition same_kind (v w : app_json) : Prop :=
  match v, w with
  | AppNull, AppNull | AppNum _, AppNum _ | AppStr _, AppStr _ | AppArr _, AppArr _
  | AppObj _, AppObj _ => True
  | AppBool b, AppBool c => b = c
  | _, _ => False
  end.

Lemma head_of_kind v w c : head_of v c → head_of w c → same_kind v w.
Proof.
  assert (∀ c, number_char c → c ∉ [110; 116; 102; 34; 91; 123]%N) as Hn.
  { intros d [Hd|Hd].
    - unfold is_digit in Hd. apply bool_decide_eq_true in Hd. set_solver by lia.
    - unfold js in Hd. simpl in Hd. set_solver by lia. }
  destruct v as [|[]|x|s|vs|fs], w as [|[]|y|t|ws|gs]; simpl; intros Hv Hw; subst; try done;
    by (exfalso; eapply Hn; [eassumption|set_solver]).
Qed.

Lemma stringify_kind v w r s : json_ok v → json_ok w →
  stringify number_text v ++ r = stringify number_text w ++ s → same_kind v w.
Proof.
  intros Hv Hw Heq. destruct (stringify_head _ Hv) as (c & t & E & Hc).
  destruct (stringify_head _ Hw) as (d & u & E' & Hd). rewrite E, E' in Heq.
  injection Heq as <- _. by eapply head_of_kind.
Qed.

(** A text, whatever follows it, has one value. *)
Lemma stringify_prefix v : ∀ w r s, json_ok v → json_ok w → stop r → stop s →
  stringify number_text v ++ r = stringify number_text w ++ s → equal_json v w ∧ r = s.
Proof.
  induction v as [|b|x|str|vs IH|fs IH] using app_json_nested_ind; intros w r s Hv Hw Hr Hs Heq;
    pose proof (stringify_kind _ _ _ _ Hv Hw Heq) as Hkind;
    destruct w as [|c|y|t|ws|gs]; simpl in Hkind; try done.
  - simpl in Heq. by simplify_eq.
  - subst c. by apply (inj (app _)) in Heq.
  - simpl in Hv, Hw, Heq. rewrite Hv, Hw in Heq.
    destruct (number_text_chars x Hv) as [_ Hx]. destruct (number_text_chars y Hw) as [_ Hy].
    destruct (munch _ _ _ _ Hx Hy Hr Hs Heq) as [E ->]. split; [|done]. by apply number_text_eq in E.
  - simpl in Heq. by apply quote_inj in Heq.
  - rewrite equal_json_arr. rewrite json_ok_arr, Forall_forall in Hv, Hw. rewrite Forall_forall in IH.
    rewrite !stringify_arr in Heq. injection Heq as Heq.
    apply (join_inj (stringify number_text) equal_json 93) in Heq; [done|by left|..].
    + intros x Hx. destruct (stringify_head x) as (c & t & E & Hc); [by destruct Hx; auto|].
      exists c, t. split; [done|]. by apply head_of_close in Hc as [? _].
    + intros x y r1 s1 Hx Hy. apply IH; auto.
  - rewrite equal_json_obj. rewrite json_ok_obj, Forall_forall in Hv, Hw. rewrite Forall_forall in IH.
    destruct Hv as [_ Hv], Hw as [_ Hw].
    rewrite !stringify_obj in Heq. injection Heq as Heq.
    apply (join_inj text_field equal_field 125) in Heq; [done|by right|..].
    + intros [k x] _. eexists _, _. split; [done|]. done.
    + intros [k x] [k' y] r1 s1 Hx Hy Hr1 Hs1. unfold text_field. cbn [fst snd]. rewrite <-!app_assoc.
      intros [-> Heq']%quote_inj. injection Heq' as Heq'.
      apply (IH _ Hx) in Heq' as [? ->]; [done|..]; [by apply (Hv _ Hx)|by apply (Hw _ Hy)|done|done].
Qed.

Lemma stringify_inj v w : json_ok v → json_ok w →
  stringify number_text v = stringify number_text w → equal_json v w.
Proof.
  intros Hv Hw Heq. apply (stringify_prefix v w [] []); [done..|]. by rewrite Heq.
Qed.

Lemma stringify_equal v : ∀ w, json_ok v → json_ok w → equal_json v w →
  stringify number_text v = stringify number_text w.
Proof.
  induction v as [|b|x|str|vs IH|fs IH] using app_json_nested_ind; intros w Hv Hw Heq.
  1-4: destruct w; simpl in Heq; try done; simpl; subst; try done.
  - simpl in Hv, Hw. rewrite Hv, Hw. by apply number_text_eq.
  - destruct w as [| | | |ws|]; try done. rewrite equal_json_arr in Heq.
    rewrite json_ok_arr in Hv, Hw. simpl. do 3 f_equal.
    induction Heq as [|v w vs ws Hvw Heq IHl]; [done|].
    apply Forall_cons in IH as [IHv IH]. apply Forall_cons in Hv as [Hv Hvs].
    apply Forall_cons in Hw as [Hw Hws]. simpl. f_equal; auto.
  - destruct w as [| | | | |gs]; try done. rewrite equal_json_obj in Heq.
    rewrite json_ok_obj in Hv, Hw. destruct Hv as [_ Hv], Hw as [_ Hw]. simpl. do 3 f_equal.
    induction Heq as [|[k v] [k' w] fs gs [Hk Hvw] Heq IHl]; [done|]. simpl in Hk. subst k'.
    apply Forall_cons in IH as [IHv IH]. apply Forall_cons in Hv as [Hv Hvs].
    apply Forall_cons in Hw as [Hw Hws].
    cbn [fmap list_fmap]. f_equal; [by rewrite (IHv w)|by apply IHl].
Qed.
End text_inj.

(** * A text of numbers

    One that distinguishes numbers as [String] does, which shows that what is assumed of it can
    hold: a number is written by its sign, its odd mantissa and its exponent. *)

Fixpoint odd_part (m : positive) (e : Z) : positive * Z :=
  match m with xO m => odd_part m (e + 1) | _ => (m, e) end.

Definition number_parts (x : jsnum) : option (bool * (positive * Z)) :=
  match x with S754_finite s m e => Some (s, odd_part m e) | _ => None end.

Definition parts_text (x : jsnum) : jstr := dec_string (Npos (encode (number_parts x))).

Lemma odd_part_spec m e : ∃ k, (0 ≤ k)%Z ∧
  (odd_part m e).2 = (e + k)%Z ∧ Zpos m = (Zpos (odd_part m e).1 * 2 ^ k)%Z ∧ Z.odd (Zpos (odd_part m e).1) = true.
Proof.
  revert e. induction m as [m _|m IH|]; intros e; simpl.
  - exists 0%Z. split_and!; [done|lia..|done].
  - destruct (IH (e + 1)%Z) as (k & Hk & He & Hm & Hodd). exists (k + 1)%Z.
    split_and!; [lia|lia| |done]. rewrite Z.pow_add_r by lia. lia.
  - exists 0%Z. split_and!; [done|lia..|done].
Qed.

Lemma odd_pow v k : Z.odd v = true → Z.odd (v * 2 ^ k) = true → (0 ≤ k)%Z → k = 0%Z.
Proof.
  intros Hv Hk Hpos. destruct (decide (k = 0%Z)) as [|Hne]; [done|]. exfalso.
  rewrite Z.odd_mul, Z.odd_pow in Hk by lia. rewrite Hv in Hk. done.
Qed.

(** Numbers of one value have the same parts. *)
Lemma odd_values v w e f low : Z.odd v = true → Z.odd w = true → (low ≤ e)%Z → (low ≤ f)%Z →
  (v * 2 ^ (e - low) = w * 2 ^ (f - low))%Z → v = w ∧ e = f.
Proof.
  assert (∀ v w e f, Z.odd v = true → Z.odd w = true → (low ≤ e)%Z → (e ≤ f)%Z →
    (v * 2 ^ (e - low) = w * 2 ^ (f - low))%Z → v = w ∧ e = f) as Hle.
  { clear. intros v w e f Hv Hw He Hf Heq.
    replace (f - low)%Z with ((f - e) + (e - low))%Z in Heq by lia.
    rewrite Z.pow_add_r, Z.mul_assoc in Heq by lia.
    apply Z.mul_cancel_r in Heq; [|apply Z.pow_nonzero; lia].
    assert (f - e = 0)%Z as E.
    { apply (odd_pow w); [done|by rewrite <-Heq|lia]. }
    rewrite E, Z.pow_0_r in Heq. lia. }
  intros Hv Hw He Hf Heq. destruct (decide (e ≤ f)%Z); [by apply Hle|].
  destruct (Hle w v f e) as [-> ->]; [done..|lia|by symmetry|done].
Qed.

Lemma number_parts_eq x y : is_finite x = true → is_finite y = true →
  number_parts x = number_parts y ↔ num_compare x y = Some Eq.
Proof.
  intros Hx Hy. destruct x as [s| | |s m e], y as [t| | |t n f]; try done.
  - split; [done|]. unfold num_compare. cbn beta iota zeta. intros E%(inj Some)%Z.compare_eq_iff.
    pose proof (Z.pow_pos_nonneg 2 (f - Z.min 0 f)). destruct t; lia.
  - split; [done|]. unfold num_compare. cbn beta iota zeta. intros E%(inj Some)%Z.compare_eq_iff.
    pose proof (Z.pow_pos_nonneg 2 (e - Z.min e 0)). destruct s; lia.
  - unfold number_parts, num_compare. set (low := Z.min e f).
    destruct (odd_part_spec m e) as (k & Hk & He & Hm & Hodd).
    destruct (odd_part_spec n f) as (j & Hj & Hf & Hn & Hodd').
    destruct (odd_part m e) as [m' e'], (odd_part n f) as [n' f']. cbn [fst snd] in *. subst e' f'.
    set (v := if s then Z.neg m' else Z.pos m'). set (w := if t then Z.neg n' else Z.pos n').
    assert (((if s then Z.neg m else Z.pos m) * 2 ^ (e - low) = v * 2 ^ (e + k - low))%Z) as ->.
    { replace (e + k - low)%Z with (k + (e - low))%Z by lia. rewrite Z.pow_add_r by lia. subst v. destruct s; lia. }
    assert (((if t then Z.neg n else Z.pos n) * 2 ^ (f - low) = w * 2 ^ (f + j - low))%Z) as ->.
    { replace (f + j - low)%Z with (j + (f - low))%Z by lia. rewrite Z.pow_add_r by lia. subst w. destruct t; lia. }
    split.
    + intros [= -> -> ->]. f_equal. by apply Z.compare_eq_iff.
    + intros E%(inj Some)%Z.compare_eq_iff. apply odd_values in E as [Hv ->]; [|by destruct s|by destruct t|lia..].
      subst v w. destruct s, t; by simplify_eq.
Qed.

#[export] Instance parts_number_text : NumberText parts_text.
Proof.
  split.
  - intros x _. unfold parts_text. split.
    + pose proof (parse_dec_string (Npos (encode (number_parts x)))) as Hp. intros Hn. by rewrite Hn in Hp.
    + eapply Forall_impl; [apply dec_string_digits|]. intros c Hc. by left.
  - intros x y Hx Hy. rewrite <-number_parts_eq by done. unfold parts_text. split; [|by intros ->].
    by intros [= ?%(inj encode)]%(inj dec_string).
Qed.
