(* ===== verification/StableJson.v ===== *)
(** The canonical texts of JSON values that digests are taken of.  The runtime sorts the fields
    of objects by locale ([packages/runtime/src/execution/environment-binding.ts],
    [application-scope.ts], [turn-binding.ts]), the storage client by UTF-16 units
    ([packages/storage/src/codec-model-evidence.ts]). *)
From S2P Require Import Prelude JsMap Json JsStr JsonText.

(** * Definitions *)

(** The place of an object's field that is named like an array's element. *)
Definition array_index (key : jstr) : option N :=
  n ← parse_numeral key; if decide (n < 4294967295)%N then Some n else None.

Definition index_of_key (key : jstr) : Z := default 0%Z (Z.of_N <$> array_index key).

(** [Object.fromEntries] of entries with different names, in the order of its own keys: array
    indices come first and in their order. *)
Definition from_entries {V} (entries : list (jstr * V)) : list (jstr * V) :=
  js_sort (fun l r => compare_by index_of_key l.1 r.1)
    (filter (fun entry => is_Some (array_index entry.1)) entries) ++
  filter (fun entry => array_index entry.1 = None) entries.

(** The fields of every object put in some order. *)
Section arranged.
Context (arrange : list (jstr * app_json) → list (jstr * app_json)).

Fixpoint arranged (value : app_json) : app_json :=
  match value with
  | AppArr values => AppArr (arranged <$> values)
  | AppObj fields => AppObj (arrange ((fun '(key, item) => (key, arranged item)) <$> fields))
  | _ => value
  end.
End arranged.

Section stable.
Context (number_text : jsnum → jstr) (localeCompare : jstr → jstr → Z) (sha256 : jstr → jstr).

(** [sortJson] of the runtime. *)
Definition sortJson : app_json → app_json :=
  arranged (fun entries => from_entries (js_sort (fun l r => localeCompare l.1 r.1) entries)).

Definition stableJson (value : app_json) : jstr := stringify number_text (sortJson value).

Definition digestJson (value : app_json) : jstr := sha256 (stableJson value).

(** [stableJson] of the storage client, which writes the text itself. *)
Fixpoint storage_stableJson (value : app_json) : jstr :=
  match value with
  | AppArr values => js "[" ++ join (js ",") (storage_stableJson <$> values) ++ js "]"
  | AppObj fields =>
      js "{" ++ join (js ",") ((fun '(key, text) => quote key ++ js ":" ++ text) <$>
        js_sort (fun l r => js_order l.1 r.1)
          ((fun '(key, item) => (key, storage_stableJson item)) <$> fields)) ++ js "}"
  | _ => stringify number_text value
  end.

Definition storage_digestJson (value : app_json) : jstr := sha256 (storage_stableJson value).
End stable.

(** * Values that differ in the order of fields *)

(** Equal but for the order of the fields of objects. *)
Fixpoint same_json (v w : app_json) : Prop :=
  match v, w with
  | AppArr vs, AppArr ws =>
      (fix go vs ws := match vs, ws with
        | [], [] => True
        | v :: vs, w :: ws => same_json v w ∧ go vs ws
        | _, _ => False
        end) vs ws
  | AppObj fs, AppObj gs => ∃ gs', gs' ≡ₚ gs ∧
      (fix go fs gs := match fs, gs with
        | [], [] => True
        | (k, v) :: fs, (k', w) :: gs => k = k' ∧ same_json v w ∧ go fs gs
        | _, _ => False
        end) fs gs'
  | _, _ => equal_json v w
  end.

Definition same_field (p q : jstr * app_json) : Prop := p.1 = q.1 ∧ same_json p.2 q.2.

Lemma same_json_arr vs ws : same_json (AppArr vs) (AppArr ws) ↔ Forall2 same_json vs ws.
Proof.
  revert ws. induction vs as [|v vs IH]; intros [|w ws]; simpl.
  - by split.
  - split; [done|]. by inversion 1.
  - split; [done|]. by inversion 1.
  - rewrite Forall2_cons. by rewrite <-IH.
Qed.

Lemma same_json_obj fs gs :
  same_json (AppObj fs) (AppObj gs) ↔ ∃ gs', gs' ≡ₚ gs ∧ Forall2 same_field fs gs'.
Proof.
  cbn [same_json]. assert (∀ gs', ((fix go fs gs := match fs, gs with
        | [], [] => True
        | (k, v) :: fs, (k', w) :: gs => k = k' ∧ same_json v w ∧ go fs gs
        | _, _ => False
        end) fs gs') ↔ Forall2 same_field fs gs') as Hgo; [|by setoid_rewrite Hgo].
  induction fs as [|[k v] fs IH]; intros [|[k' w] gs']; simpl.
  - by split.
  - split; [done|]. by inversion 1.
  - split; [done|]. by inversion 1.
  - rewrite Forall2_cons, <-IH. unfold same_field. simpl. tauto.
Qed.

(** The names of the fields of every object satisfy [P]. *)
Fixpoint all_keys (P : list jstr → Prop) (v : app_json) : Prop :=
  match v with
  | AppArr vs => foldr (fun v Q => all_keys P v ∧ Q) True vs
  | AppObj fs => P fs.*1 ∧ foldr (fun '(_, v) Q => all_keys P v ∧ Q) True fs
  | _ => True
  end.

Lemma all_keys_arr P vs : all_keys P (AppArr vs) ↔ Forall (all_keys P) vs.
Proof. induction vs as [|v vs IH]; simpl; [done|]. rewrite Forall_cons. by rewrite <-IH. Qed.

Lemma all_keys_obj P fs : all_keys P (AppObj fs) ↔ P fs.*1 ∧ Forall (fun p => all_keys P p.2) fs.
Proof.
  simpl. assert (foldr (fun '(_, v) Q => all_keys P v ∧ Q) True fs ↔ Forall (fun p => all_keys P p.2) fs)
    as ->; [|done].
  induction fs as [|[k v] fs IH]; simpl; [done|]. rewrite Forall_cons. by rewrite <-IH.
Qed.

Lemma all_keys_impl (P Q : list jstr → Prop) v : (∀ names, P names → Q names) → all_keys P v → all_keys Q v.
Proof.
  intros HPQ. induction v as [|b|x|s|vs IH|fs IH] using app_json_nested_ind; try done.
  - rewrite !all_keys_arr. intros Hv. rewrite Forall_forall in *. naive_solver.
  - rewrite !all_keys_obj. intros [Hfs Hv]. split; [auto|]. rewrite Forall_forall in *.
    intros [k v] Hin. apply (IH _ Hin), (Hv _ Hin).
Qed.

Lemma all_keys_True v : all_keys (fun _ => True) v.
Proof.
  induction v as [|b|x|s|vs IH|fs IH] using app_json_nested_ind; try done.
  - by apply all_keys_arr.
  - apply all_keys_obj. split; [done|]. eapply Forall_impl; [exact IH|]. by intros [].
Qed.

(** * An order that depends on the names of fields only, where the names are [good] *)

Class Arranges (good : list jstr → Prop) (arrange : list (jstr * app_json) → list (jstr * app_json))
    : Prop := {
  arrange_perm l : arrange l ≡ₚ l;
  arrange_keys l l' : good l.*1 → l.*1 ≡ₚ l'.*1 → (arrange l).*1 = (arrange l').*1;
}.

Lemma keyed_perm_eq {V} (l l' : list (jstr * V)) :
  NoDup l.*1 → l ≡ₚ l' → l.*1 = l'.*1 → l = l'.
Proof.
  revert l'. induction l as [|[k v] l IH]; intros [|[k' v'] l'] Hnd Hp Hk; try done.
  simpl in *. apply NoDup_cons in Hnd as [Hin Hnd]. injection Hk as <- Hk.
  assert ((k, v') ∈ (k, v) :: l) as Hv by (rewrite Hp; by left).
  apply elem_of_cons in Hv as [[= <-]|Hv].
  - f_equal. apply IH; [done| |done]. by apply Permutation_cons_inv in Hp.
  - destruct Hin. apply list_elem_of_fmap. by exists (k, v').
Qed.

Lemma Forall2_perm_l {A B} (R : A → B → Prop) l k l' :
  Forall2 R l l' → l ≡ₚ k → ∃ k', l' ≡ₚ k' ∧ Forall2 R k k'.
Proof.
  intros Hl Hp. revert l' Hl. induction Hp as [|x l k Hp IH|x y l|l1 l2 l3 _ IH1 _ IH2]; intros l' Hl.
  - exists l'. by inversion Hl.
  - apply Forall2_cons_inv_l in Hl as (y & l1 & Hxy & Hl & ->).
    destruct (IH _ Hl) as (k' & Hp' & Hk). exists (y :: k'). split; [by rewrite Hp'|by constructor].
  - apply Forall2_cons_inv_l in Hl as (a & l1 & Ha & Hl & ->).
    apply Forall2_cons_inv_l in Hl as (b & l2 & Hb & Hl & ->).
    exists (b :: a :: l2). split; [apply Permutation_swap|]. by repeat constructor.
  - destruct (IH1 _ Hl) as (k1 & Hp1 & Hk1). destruct (IH2 _ Hk1) as (k2 & Hp2 & Hk2).
    exists k2. split; [by trans k1|done].
Qed.

Section canonical.
Context (number_text : jsnum → jstr) `{!NumberText number_text}.
Context (good : list jstr → Prop).
Context (arrange : list (jstr * app_json) → list (jstr * app_json)) `{!Arranges good arrange}.

Definition arranged_field (p : jstr * app_json) : jstr * app_json := (p.1, arranged arrange p.2).

Lemma arranged_obj fs : arranged arrange (AppObj fs) = AppObj (arrange (arranged_field <$> fs)).
Proof. simpl. do 2 f_equal. apply list_fmap_ext. by intros i [k v]. Qed.

Lemma arranged_field_keys fs : (arranged_field <$> fs).*1 = fs.*1.
Proof. rewrite <-list_fmap_compose. by apply list_fmap_ext. Qed.

Lemma arranged_ok v : json_ok v → json_ok (arranged arrange v).
Proof.
  induction v as [|b|x|s|vs IH|fs IH] using app_json_nested_ind; try done.
  - cbn [arranged]. rewrite !json_ok_arr, Forall_fmap. intros Hv.
    rewrite Forall_forall in IH, Hv. apply Forall_forall. intros v Hin. by apply IH, Hv.
  - rewrite arranged_obj, !json_ok_obj, arrange_perm, arranged_field_keys.
    intros [Hnd Hv]. split; [done|]. rewrite Forall_fmap. rewrite Forall_forall in IH, Hv.
    apply Forall_forall. intros [k v] Hin. apply (IH _ Hin), (Hv _ Hin).
Qed.

Lemma equal_arranged v : ∀ w,
  equal_json (arranged arrange v) (arranged arrange w) → same_json v w.
Proof.
  induction v as [|b|x|s|vs IH|fs IH] using app_json_nested_ind; intros w;
    destruct w as [| | | |ws|gs]; try done.
  - cbn [arranged]. rewrite equal_json_arr, same_json_arr, Forall2_fmap. intros Heq.
    rewrite Forall_forall in IH. eapply Forall2_impl_in; [exact Heq|]. naive_solver.
  - rewrite !arranged_obj, equal_json_obj, same_json_obj. intros Heq.
    eapply Forall2_perm_l in Heq as (k & Hp & Hk); [|apply arrange_perm].
    rewrite arrange_perm in Hp. symmetry in Hp.
    apply Permutation_map_inv in Hp as (gs' & -> & Hp).
    exists gs'. split; [by symmetry|]. apply (Forall2_fmap_1 arranged_field arranged_field) in Hk.
    rewrite Forall_forall in IH. eapply Forall2_impl_in; [exact Hk|].
    intros [k v] [k' w] Hin _ [Hkey Hvw]. split; [done|]. by apply (IH _ Hin).
Qed.

Lemma same_arranged v : ∀ w, json_ok v → json_ok w → all_keys good v → same_json v w →
  equal_json (arranged arrange v) (arranged arrange w).
Proof.
  induction v as [|b|x|s|vs IH|fs IH] using app_json_nested_ind; intros w Hv Hw Hkeys;
    destruct w as [| | | |ws|gs]; try done.
  - cbn [arranged]. rewrite equal_json_arr, same_json_arr, Forall2_fmap.
    rewrite json_ok_arr, Forall_forall in Hv, Hw. rewrite Forall_forall in IH.
    rewrite all_keys_arr, Forall_forall in Hkeys.
    intros Heq. eapply Forall2_impl_in; [exact Heq|]. naive_solver.
  - rewrite !arranged_obj, equal_json_obj, same_json_obj. intros (gs' & Hp & Heq).
    rewrite json_ok_obj in Hv, Hw. destruct Hv as [_ Hv], Hw as [Hnd Hw].
    rewrite all_keys_obj in Hkeys. destruct Hkeys as [Hgood Hkeys].
    rewrite <-Hp in Hw. rewrite Forall_forall in IH, Hv, Hw, Hkeys.
    assert (Forall2 equal_field (arranged_field <$> fs) (arranged_field <$> gs')) as Hf.
    { rewrite Forall2_fmap. eapply Forall2_impl_in; [exact Heq|].
      intros [k v] [k' w] Hin Hin' [Hkey Hvw]. split; [done|].
      apply (IH _ Hin); [by apply (Hv _ Hin)|by apply (Hw _ Hin')|by apply (Hkeys _ Hin)|done]. }
    assert ((arranged_field <$> fs).*1 = (arranged_field <$> gs').*1) as Hnames.
    { clear -Hf. induction Hf as [|p q l l' [Hpq _] _ IH]; [done|]. simpl. by f_equal. }
    assert ((arranged_field <$> gs') ≡ₚ (arranged_field <$> gs)) as Hpg by by rewrite Hp.
    eapply Forall2_perm_l in Hf as (b & Hb & Hf); [|symmetry; apply arrange_perm].
    assert (b = arrange (arranged_field <$> gs)) as ->; [|done].
    apply keyed_perm_eq.
    + rewrite <-Hb, Hpg, arranged_field_keys. done.
    + by rewrite <-Hb, Hpg, arrange_perm.
    + rewrite <-(arrange_keys (arranged_field <$> fs)); [|by rewrite arranged_field_keys|by rewrite Hnames, Hpg].
      clear -Hf. induction Hf as [|p q l l' [Hpq _] _ IH]; [done|]. simpl. by f_equal.
Qed.

(** A text in which every object's fields are in an order of their own has one value, up to the
    order of fields. *)
Lemma arranged_text_inj v w : json_ok v → json_ok w →
  stringify number_text (arranged arrange v) = stringify number_text (arranged arrange w) →
  same_json v w.
Proof.
  intros Hv Hw Heq. apply equal_arranged, (stringify_inj number_text); [by apply arranged_ok..|done].
Qed.

(** It is the text of every such value, where the order is one of good names. *)
Lemma arranged_text_same v w : json_ok v → json_ok w → all_keys good v → same_json v w →
  stringify number_text (arranged arrange v) = stringify number_text (arranged arrange w).
Proof.
  intros Hv Hw Hkeys Hsame. apply stringify_equal; [done|by apply arranged_ok..|by apply same_arranged].
Qed.
End canonical.

(** ** The two orders *)

Lemma js_insert_fmap {A B} (f : A → B) (cmp : B → B → Z) x l :
  f <$> js_insert (fun x y => cmp (f x) (f y)) x l = js_insert cmp (f x) (f <$> l).
Proof. induction l as [|y l IH]; simpl; [done|]. case_decide; simpl; [done|]. by f_equal. Qed.

Lemma js_sort_fmap {A B} (f : A → B) (cmp : B → B → Z) l :
  f <$> js_sort (fun x y => cmp (f x) (f y)) l = js_sort cmp (f <$> l).
Proof.
  unfold js_sort. change (@nil B) with (f <$> @nil A). generalize (@nil A).
  induction l as [|x l IH]; intros acc; simpl; [done|]. by rewrite IH, <-js_insert_fmap.
Qed.

Lemma js_sort_unique {A} (cmp : A → A → Z) `{!CompareOrder cmp} l l' :
  (∀ x y, x ∈ l → y ∈ l → cmp x y = 0%Z → x = y) → l ≡ₚ l' → js_sort cmp l = js_sort cmp l'.
Proof.
  intros Hzero Hp. apply (sorted_perm_eq cmp).
  - intros x y Hx Hy Hxy Hyx. rewrite js_sort_perm in Hx, Hy. apply Hzero; [done..|]. unfold cmp_le in *. pose proof (compare_opp x y). lia.
  - apply js_sort_sorted, _.
  - apply js_sort_sorted, _.
  - by rewrite !js_sort_perm.
Qed.

#[export] Instance storage_arranges :
  Arranges (fun _ => True) (js_sort (fun l r => js_order l.1 r.1)).
Proof.
  split; [apply js_sort_perm|]. intros l l' _ Hp.
  rewrite !(js_sort_fmap fst js_order). apply js_sort_unique; [apply _| |done].
  intros x y _ _. apply js_order_zero.
Qed.

Lemma from_entries_perm {V} (l : list (jstr * V)) : from_entries l ≡ₚ l.
Proof.
  unfold from_entries. rewrite js_sort_perm.
  induction l as [|[k v] l IH]; [done|]. destruct (array_index k) as [n|] eqn:E.
  - rewrite filter_cons_True, filter_cons_False by (simpl; rewrite E; done || by intros [=]).
    simpl. by rewrite IH.
  - rewrite filter_cons_False, (filter_cons_True (fun e => array_index e.1 = None))
      by (simpl; rewrite E; done || by intros []).
    rewrite <-Permutation_middle. by rewrite IH.
Qed.

Lemma from_entries_keys {V} (l : list (jstr * V)) :
  (from_entries l).*1 = js_sort (compare_by index_of_key) (filter (fun k => is_Some (array_index k)) l.*1) ++
    filter (fun k => array_index k = None) l.*1.
Proof.
  unfold from_entries. rewrite fmap_app, (js_sort_fmap fst (compare_by index_of_key)).
  by rewrite (fmap_filter fst (fun k => is_Some (array_index k))),
    (fmap_filter fst (fun k => array_index k = None)).
Qed.

(** The locale tells names apart. *)
Definition told_apart (localeCompare : jstr → jstr → Z) (names : list jstr) : Prop :=
  ∀ x y, x ∈ names → y ∈ names → localeCompare x y = 0%Z → x = y.

#[export] Instance runtime_arranges localeCompare `{!CompareOrder localeCompare} :
  Arranges (told_apart localeCompare)
    (fun entries => from_entries (js_sort (fun l r => localeCompare l.1 r.1) entries)).
Proof.
  split.
  - intros l. by rewrite from_entries_perm, js_sort_perm.
  - intros l l' Happ Hp. rewrite !from_entries_keys, !(js_sort_fmap fst localeCompare).
    by rewrite (js_sort_unique localeCompare l.*1 l'.*1).
Qed.

(** * The texts are canonical *)

Section texts.
Context (number_text : jsnum → jstr) `{!NumberText number_text}.

Lemma storage_stableJson_arranged v :
  storage_stableJson number_text v =
    stringify number_text (arranged (js_sort (fun l r => js_order l.1 r.1)) v).
Proof.
  induction v as [|b|x|s|vs IH|fs IH] using app_json_nested_ind; try done.
  - cbn [storage_stableJson arranged stringify]. do 3 f_equal.
    induction IH as [|v vs Hv _ IH]; [done|]. cbn [fmap list_fmap]. by f_equal.
  - rewrite arranged_obj. cbn [storage_stableJson stringify]. do 3 f_equal.
    set (text := fun p : jstr * app_json => (p.1, stringify number_text p.2)).
    assert ((fun '(key, item) => (key, storage_stableJson number_text item)) <$> fs =
      text <$> (arranged_field (js_sort (fun l r => js_order l.1 r.1)) <$> fs)) as ->.
    { induction IH as [|[k v] fs Hv _ IH]; [done|]. cbn [fmap list_fmap]. rewrite Hv. by f_equal. }
    rewrite <-(js_sort_fmap text (fun l r => js_order l.1 r.1)), <-list_fmap_compose.
    apply list_fmap_ext. by intros i [k v].
Qed.

Lemma canonical_text_iff v w : json_ok v → json_ok w →
  stringify number_text (arranged (js_sort (fun l r => js_order l.1 r.1)) v) =
    stringify number_text (arranged (js_sort (fun l r => js_order l.1 r.1)) w) ↔ same_json v w.
Proof.
  intros Hv Hw. split.
  - exact (arranged_text_inj number_text (fun _ => True) _ v w Hv Hw).
  - exact (arranged_text_same number_text (fun _ => True) _ v w Hv Hw (all_keys_True v)).
Qed.

(** So [same_json] is an equivalence. *)
Lemma same_json_refl v : json_ok v → same_json v v.
Proof. intros Hv. by apply canonical_text_iff. Qed.

Lemma same_json_sym v w : json_ok v → json_ok w → same_json v w → same_json w v.
Proof. intros Hv Hw Hvw%canonical_text_iff; [|done..]. by apply canonical_text_iff. Qed.

Lemma same_json_trans u v w : json_ok u → json_ok v → json_ok w →
  same_json u v → same_json v w → same_json u w.
Proof.
  intros Hu Hv Hw Huv%canonical_text_iff Hvw%canonical_text_iff; [|done..].
  apply canonical_text_iff; [done..|]. congruence.
Qed.

(** The text that the storage client digests is that of another value exactly when both are
    equal but for the order of fields. *)
Theorem storage_stableJson_iff v w : json_ok v → json_ok w →
  storage_stableJson number_text v = storage_stableJson number_text w ↔ same_json v w.
Proof. intros Hv Hw. rewrite !storage_stableJson_arranged. by apply canonical_text_iff. Qed.

Context (localeCompare : jstr → jstr → Z) `{!CompareOrder localeCompare}.

(** The runtime's text has one value, whatever the locale; it is the text of all such values
    where the locale tells the names of their fields apart. *)
Lemma stableJson_inj v w : json_ok v → json_ok w →
  stableJson number_text localeCompare v = stableJson number_text localeCompare w → same_json v w.
Proof. exact (arranged_text_inj number_text (told_apart localeCompare) _ v w). Qed.

Lemma stableJson_same v w : json_ok v → json_ok w → all_keys (told_apart localeCompare) v →
  same_json v w → stableJson number_text localeCompare v = stableJson number_text localeCompare w.
Proof. exact (arranged_text_same number_text (told_apart localeCompare) _ v w). Qed.

(** ** Where both texts agree *)

(** The locale sorts names as their units do, and none is an array index. *)
Definition plain_names (names : list jstr) : Prop :=
  (∀ k k', k ∈ names → k' ∈ names → ((localeCompare k k' < 0) ↔ (js_order k k' < 0))%Z) ∧
  (∀ k, k ∈ names → array_index k = None).

Lemma stable_texts_agree v : json_ok v → all_keys plain_names v →
  stableJson number_text localeCompare v = storage_stableJson number_text v.
Proof.
  rewrite storage_stableJson_arranged. unfold stableJson, sortJson.
  intros Hok Hplain. f_equal. revert Hok Hplain.
  induction v as [|b|x|s|vs IH|fs IH] using app_json_nested_ind; try done.
  - rewrite json_ok_arr, all_keys_arr. intros Hok Hplain. cbn [arranged]. f_equal.
    induction IH as [|v vs Hv _ IH]; [done|]. apply Forall_cons in Hok as [? ?].
    apply Forall_cons in Hplain as [? ?]. cbn [fmap list_fmap]. f_equal; auto.
  - rewrite json_ok_obj, all_keys_obj, !arranged_obj. intros [_ Hok] ([Hsign Hindex] & Hplain). f_equal.
    set (l := arranged_field (js_sort (fun l r => js_order l.1 r.1)) <$> fs).
    assert (arranged_field (fun entries => from_entries
      (js_sort (fun l r => localeCompare l.1 r.1) entries)) <$> fs = l) as ->.
    { clear Hsign Hindex. unfold l. clear l. induction IH as [|[k v] fs Hv _ IH]; [done|].
      apply Forall_cons in Hok as [? ?]. apply Forall_cons in Hplain as [? ?].
      cbn [fmap list_fmap]. f_equal; [|auto]. unfold arranged_field. cbn. f_equal. auto. }
    assert (∀ p, p ∈ l → p.1 ∈ fs.*1) as Hl.
    { intros p Hp. apply (list_elem_of_fmap_2 fst) in Hp. unfold l in Hp. by rewrite arranged_field_keys in Hp. }
    unfold from_entries. rewrite (filter_none (fun e => is_Some (array_index e.1))), filter_all.
    + apply js_sort_ext. intros p q Hp Hq. apply Hsign; auto.
    + intros p Hp. rewrite js_sort_perm in Hp. auto.
    + intros p Hp. rewrite js_sort_perm in Hp. rewrite Hindex by auto. by intros [].
Qed.
End texts.
