(* ===== verification/JsHeap.v ===== *)
(** Untrusted JavaScript values: objects on a heap, with the reflection that code uses to
    read them without running theirs ([Reflect.ownKeys], property descriptors and
    prototypes).  Objects are ordinary ones, arrays, or revoked proxies. *)
From Stdlib Require Import Floats.SpecFloat.
From S2P Require Import Prelude JsMap Json JsStr.

Abbreviation loc := nat.

(** [VOther]: the values of the other types: functions, symbols and big integers. *)
Inductive jsval : Type :=
| VUndefined
| VNull
| VBool (b : bool)
| VNum (x : jsnum)
| VStr (s : jstr)
| VOther
| VRef (l : loc).

#[export] Instance jsval_eq_dec : EqDecision jsval.
Proof. solve_decision. Defined.

Inductive property_key := StringKey (s : jstr) | SymbolKey (n : N).

#[export] Instance property_key_eq_dec : EqDecision property_key.
Proof. solve_decision. Defined.

(** A property; one without a value is an accessor. *)
Record property := Property { pr_value : option jsval; pr_enumerable : bool }.

Inductive prototype := ObjectPrototype | ArrayPrototype | NullPrototype | OtherPrototype.

#[export] Instance prototype_eq_dec : EqDecision prototype.
Proof. solve_decision. Defined.

(** An object with its own properties in the order of [Reflect.ownKeys].  [o_length]: the
    length of an array, whose ["length"] is also one of its own keys. *)
Record object := {
  o_length : option N;
  o_prototype : prototype;
  o_own : list (property_key * property);
}.

(** A location without an object is a revoked proxy: reflecting on it throws. *)
Definition heap := list (loc * object).

Definition own (k : jstr) (o : object) : option property := jget (StringKey k) (o_own o).

(** [array[i]], where [Array.prototype] has no elements. *)
Definition element (o : object) (i : nat) : jsval :=
  default VUndefined (own (dec_string (N.of_nat i)) o ≫= pr_value).

(** The names that an object literal inherits from [Object.prototype]. *)
Definition inherited_names : list jstr :=
  js <$> ["constructor"; "__defineGetter__"; "__defineSetter__"; "hasOwnProperty";
          "__lookupGetter__"; "__lookupSetter__"; "isPrototypeOf"; "propertyIsEnumerable";
          "toString"; "valueOf"; "__proto__"; "toLocaleString"]%string.

(** Own keys are distinct, and a length has 32 bits. *)
Definition object_ok (o : object) : Prop :=
  NoDup (o_own o).*1 ∧ ∀ n, o_length o = Some n → (n < 4294967296)%N.

Definition heap_ok (h : heap) : Prop := Forall (fun '(_, o) => object_ok o) h.

Lemma heap_ok_lookup h l o : heap_ok h → jget l h = Some o → object_ok o.
Proof.
  intros Hh Hl. apply jget_elem_of in Hl. unfold heap_ok in Hh. rewrite Forall_forall in Hh.
  exact (Hh _ Hl).
Qed.
