(* ===== verification/CommandSchema.v ===== *)
(** The input schemas of commands that extensions contribute
    ([packages/extension/src/command-input-schema-*.ts]): the parser that reads an untrusted
    JavaScript value into a bounded JSON Schema, and the documents it accepts. *)
From Stdlib Require Import Floats.SpecFloat.
From S2P Require Import Prelude JsMap Json JsStr JsonText JsHeap.

Arguments js : simpl never.
Arguments dec_string : simpl never.

(** * Types ([command-input-schema-types.ts]) *)

Definition APP_COMMAND_INPUT_SCHEMA_DRAFT_2020_12 : jstr :=
  js "https://json-schema.org/draft/2020-12/schema".

Inductive limit_key :=
| maxSerializedBytes | maxSchemaDepth | maxSchemaNodes | maxProperties | maxPropertyNameLength
| maxTitleLength | maxDescriptionLength | maxEnumValuesPerNode | maxEnumValuesTotal
| maxRequiredNames | maxStringLengthBound | maxCollectionBound | maxValueDepth | maxValueNodes.

#[export] Instance limit_key_eq_dec : EqDecision limit_key.
Proof. solve_decision. Defined.

Definition limit_name (key : limit_key) : jstr :=
  js match key with
  | maxSerializedBytes => "maxSerializedBytes" | maxSchemaDepth => "maxSchemaDepth"
  | maxSchemaNodes => "maxSchemaNodes" | maxProperties => "maxProperties"
  | maxPropertyNameLength => "maxPropertyNameLength" | maxTitleLength => "maxTitleLength"
  | maxDescriptionLength => "maxDescriptionLength"
  | maxEnumValuesPerNode => "maxEnumValuesPerNode"
  | maxEnumValuesTotal => "maxEnumValuesTotal" | maxRequiredNames => "maxRequiredNames"
  | maxStringLengthBound => "maxStringLengthBound" | maxCollectionBound => "maxCollectionBound"
  | maxValueDepth => "maxValueDepth" | maxValueNodes => "maxValueNodes"
  end%string.

(** An object with a number for each limit. *)
Definition AppCommandInputSchemaLimits := limit_key → Z.

Inductive AppCommandInputSchemaErrorCode := Invalid | Unsupported | LimitExceeded.

Record AppCommandInputSchemaError := {
  er_code : AppCommandInputSchemaErrorCode;
  er_path : jstr;
  er_message : jstr;
}.

Record AppCommandInputSchemaAnnotations := {
  an_title : option jstr;
  an_description : option jstr;
}.

(** A parsed schema, by its type.  [dialect]: it has a [$schema].  An enum and a default are
    kept as JSON values, which the schema's type restricts. *)
Inductive AppCommandInputValueSchema : Type :=
| ObjectSchema (dialect : bool) (annotations : AppCommandInputSchemaAnnotations)
    (properties : option (list (jstr * AppCommandInputValueSchema)))
    (required : option (list jstr)) (additionalProperties : option bool)
    (minProperties maxProperties : option jsnum) (default : option app_json)
| StringSchema (annotations : AppCommandInputSchemaAnnotations) (enum : option (list app_json))
    (minLength maxLength : option jsnum) (default : option app_json)
| NumberSchema (integer : bool) (annotations : AppCommandInputSchemaAnnotations)
    (enum : option (list app_json))
    (minimum maximum exclusiveMinimum exclusiveMaximum : option jsnum) (default : option app_json)
| BooleanSchema (annotations : AppCommandInputSchemaAnnotations) (enum : option (list app_json))
    (default : option app_json)
| ArraySchema (annotations : AppCommandInputSchemaAnnotations)
    (items : AppCommandInputValueSchema) (minItems maxItems : option jsnum)
    (uniqueItems : option bool) (default : option app_json).

Abbreviation schema := AppCommandInputValueSchema.

Inductive ParseAppCommandInputSchemaResult :=
| ParseOk (value : schema)
| ParseFailed (error : AppCommandInputSchemaError).

(** * Constants ([command-input-schema-constants.ts]) *)

Definition DEFAULT_APP_COMMAND_INPUT_SCHEMA_LIMITS : AppCommandInputSchemaLimits := fun key =>
  match key with
  | maxSerializedBytes => 64 * 1024
  | maxSchemaDepth => 8
  | maxSchemaNodes => 256
  | maxProperties => 128
  | maxPropertyNameLength => 128
  | maxTitleLength => 256
  | maxDescriptionLength => 4096
  | maxEnumValuesPerNode => 100
  | maxEnumValuesTotal => 256
  | maxRequiredNames => 128
  | maxStringLengthBound => 65536
  | maxCollectionBound => 256
  | maxValueDepth => 8
  | maxValueNodes => 1024
  end%Z.

Inductive schema_type := TObject | TString | TNumber | TInteger | TBoolean | TArray.

#[export] Instance schema_type_eq_dec : EqDecision schema_type.
Proof. solve_decision. Defined.

Definition APP_COMMAND_INPUT_SCHEMA_TYPES : list (jstr * schema_type) :=
  [(js "object", TObject); (js "string", TString); (js "number", TNumber);
   (js "integer", TInteger); (js "boolean", TBoolean); (js "array", TArray)].

Definition type_name (type : schema_type) : jstr :=
  js match type with
  | TObject => "object" | TString => "string" | TNumber => "number" | TInteger => "integer"
  | TBoolean => "boolean" | TArray => "array"
  end%string.

(** * Reading ([command-input-schema-internal.ts]) *)

(** What may be thrown: [CommandInputSchemaParseError], or what reflecting on a revoked
    proxy throws.  [OutOfFuel] is the end of the fuel. *)
Inductive schema_thrown :=
| ParseError (code : AppCommandInputSchemaErrorCode) (path message : jstr)
| ReadError
| OutOfFuel.

Record CommandInputSchemaParseState := {
  ps_schemaAncestors : list jsval;
  ps_schemaNodes : Z;
  ps_properties : Z;
  ps_enumValues : Z;
  ps_valueNodes : Z;
}.

Abbreviation M := (stM CommandInputSchemaParseState schema_thrown).
Abbreviation R := (result schema_thrown).

(** [String(n)] of a non-negative integer. *)
Definition text (n : Z) : jstr := dec_string (Z.to_N n).

(** [s.length] *)
Definition len {A} (s : list A) : Z := Z.of_nat (length s).

Definition resolveSchemaLimits (overrides : option (list (limit_key * option jsnum)))
    : R AppCommandInputSchemaLimits :=
  match overrides with
  | None => Ok DEFAULT_APP_COMMAND_INPUT_SCHEMA_LIMITS
  | Some overrides =>
      foldM (fun (resolved : AppCommandInputSchemaLimits) '(key, value) =>
        let maximum := DEFAULT_APP_COMMAND_INPUT_SCHEMA_LIMITS key in
        match value ≫= num_integer with
        | Some value =>
            _ ← guard_throw (bool_decide (value ≤ 0 ∨ maximum < value)%Z)
                  (ParseError Invalid (js "/")
                    (js "schema limit " ++ limit_name key ++
                     js " must be a positive integer no greater than " ++ text maximum));
            Ok (fun key' => if decide (key' = key) then value else resolved key')
        | None => Throw (ParseError Invalid (js "/")
            (js "schema limit " ++ limit_name key ++
             js " must be a positive integer no greater than " ++ text maximum))
        end) DEFAULT_APP_COMMAND_INPUT_SCHEMA_LIMITS overrides
  end.

(** [input.replace(/[\u0000-\u001f\u007f]/g, "?")] *)
Definition sanitize (input : jstr) : jstr :=
  (fun c => if decide (c < 32 ∨ c = 127)%N then 63%N else c) <$> input.

Definition boundedPathSegment (input : jstr) : jstr :=
  let sanitized := sanitize input in
  if decide (length sanitized ≤ 128) then sanitized
  else take 125 sanitized ++ js "...".

(** [safeKey.replaceAll("~", "~0").replaceAll("/", "~1")] *)
Definition escape_segment (key : jstr) : jstr :=
  flat_map (fun c =>
    if decide (c = 126%N) then js "~0" else if decide (c = 47%N) then js "~1" else [c]) key.

Definition joinSchemaPath (path key : jstr) : jstr :=
  let escaped := escape_segment (boundedPathSegment key) in
  if decide (path = js "/") then js "/" ++ escaped else path ++ js "/" ++ escaped.

Definition isCanonicalArrayIndex (key : jstr) (length : N) : bool :=
  match parse_numeral key with
  | Some index => is_safe (Z.of_N index) && bool_decide (index < length)%N
  | None => false
  end.

Section heap.
Context (h : heap).

(** One own key of a record: the record with the property copied to it. *)
Definition read_field (path : jstr) (record : list (jstr * jsval))
    (entry : property_key * property) : R (list (jstr * jsval)) :=
  match entry with
  | (SymbolKey _, _) =>
      Throw (ParseError Invalid path (js "schema objects must not contain symbol properties"))
  | (StringKey key, {| pr_value := Some value; pr_enumerable := true |}) =>
      Ok (jset key value record)
  | (StringKey key, _) =>
      Throw (ParseError Invalid (joinSchemaPath path key)
        (js "accessor properties are not allowed"))
  end.

Definition readPlainDataRecord (input : jsval) (path : jstr) : R (list (jstr * jsval)) :=
  match input with
  | VRef l =>
      match jget l h with
      | None => Throw ReadError
      | Some o =>
          _ ← guard_throw (bool_decide (is_Some (o_length o)))
                (ParseError Invalid path (js "schema node must be a plain object"));
          _ ← guard_throw (bool_decide (o_prototype o ≠ ObjectPrototype ∧
                                        o_prototype o ≠ NullPrototype))
                (ParseError Invalid path (js "schema node must use a plain object prototype"));
          foldM (read_field path) [] (o_own o)
      end
  | _ => Throw (ParseError Invalid path (js "schema node must be a plain object"))
  end.

(** One own key of an array: the count of the indices. *)
Definition count_index (path : jstr) (length : N) (indexCount : N)
    (entry : property_key * property) : R N :=
  match entry with
  | (SymbolKey _, _) =>
      Throw (ParseError Invalid path (js "schema arrays must not contain symbol properties"))
  | (StringKey key, property) =>
      if decide (key = js "length") then Ok indexCount
      else
        _ ← guard_throw (negb (isCanonicalArrayIndex key length))
              (ParseError Invalid (joinSchemaPath path key)
                (js "schema arrays must not contain non-index properties"));
        match property with
        | {| pr_value := Some _; pr_enumerable := true |} => Ok (indexCount + 1)%N
        | _ => Throw (ParseError Invalid (joinSchemaPath path key)
            (js "array accessors are not allowed"))
        end
  end.

(** The array's elements, which are then read by their indices. *)
Definition readPlainDataArray (input : jsval) (path : jstr) : R (list jsval) :=
  match input with
  | VRef l =>
      match jget l h with
      | None => Throw ReadError
      | Some o =>
          match o_length o with
          | None => Throw (ParseError Invalid path (js "schema arrays must be plain arrays"))
          | Some length =>
              _ ← guard_throw (bool_decide (o_prototype o ≠ ArrayPrototype))
                    (ParseError Invalid path (js "schema arrays must be plain arrays"));
              indexCount ← foldM (count_index path length) 0%N (o_own o);
              _ ← guard_throw (bool_decide (indexCount ≠ length))
                    (ParseError Invalid path (js "sparse arrays are not allowed"));
              Ok (element o <$> seq 0 (N.to_nat length))
          end
      end
  | _ => Throw (ParseError Invalid path (js "schema arrays must be plain arrays"))
  end.

(** [record[key]] *)
Definition field (key : jstr) (record : list (jstr * jsval)) : jsval :=
  default VUndefined (jget key record).

Definition rejectUnknownKeys (record : list (jstr * jsval)) (allowed : list jstr) (path : jstr)
    : R unit :=
  foldM (fun _ key =>
    guard_throw (bool_decide (key ∉ allowed))
      (ParseError Unsupported (joinSchemaPath path key) (js "unsupported schema keyword")))
    tt record.*1.

Definition rejectUndefinedValues (record : list (jstr * jsval)) (path : jstr) : R unit :=
  foldM (fun _ key =>
    guard_throw (bool_decide (field key record = VUndefined))
      (ParseError Invalid (joinSchemaPath path key)
        (js "schema values must be JSON-compatible and must not be undefined")))
    tt record.*1.

Definition readOptionalString (record : list (jstr * jsval)) (key path : jstr) (maxLength : Z)
    : R (option jstr) :=
  match field key record with
  | VUndefined => Ok None
  | VStr value =>
      _ ← guard_throw (bool_decide (maxLength < len value)%Z)
            (ParseError LimitExceeded (joinSchemaPath path key)
              (key ++ js " exceeds the " ++ text maxLength ++ js " character limit"));
      Ok (Some value)
  | _ => Throw (ParseError Invalid (joinSchemaPath path key) (key ++ js " must be a string"))
  end.

Definition readOptionalBoolean (record : list (jstr * jsval)) (key path : jstr)
    : R (option bool) :=
  match field key record with
  | VUndefined => Ok None
  | VBool value => Ok (Some value)
  | _ => Throw (ParseError Invalid (joinSchemaPath path key) (key ++ js " must be a boolean"))
  end.

Definition readOptionalFiniteNumber (record : list (jstr * jsval)) (key path : jstr)
    : R (option jsnum) :=
  let failed :=
    ParseError Invalid (joinSchemaPath path key) (key ++ js " must be a finite number") in
  match field key record with
  | VUndefined => Ok None
  | VNum value => _ ← guard_throw (negb (is_finite value)) failed; Ok (Some value)
  | _ => Throw failed
  end.

Definition readOptionalBoundedInteger (record : list (jstr * jsval)) (key path : jstr)
    (maximum : Z) : R (option jsnum) :=
  let failed := ParseError Invalid (joinSchemaPath path key)
    (key ++ js " must be a non-negative integer") in
  match field key record with
  | VUndefined => Ok None
  | VNum value =>
      match num_integer value with
      | None => Throw failed
      | Some n =>
          _ ← guard_throw (bool_decide (n < 0)%Z) failed;
          _ ← guard_throw (bool_decide (maximum < n)%Z)
                (ParseError LimitExceeded (joinSchemaPath path key)
                  (key ++ js " exceeds the supported bound " ++ text maximum));
          Ok (Some value)
      end
  | _ => Throw failed
  end.

(** [minimum !== undefined && maximum !== undefined && minimum > maximum] *)
Definition out_of_order (minimum maximum : option jsnum) : bool :=
  match minimum, maximum with
  | Some minimum, Some maximum => num_lt maximum minimum
  | _, _ => false
  end.

Definition assertRange (minimum maximum : option jsnum) (path minimumKey maximumKey : jstr)
    : R unit :=
  guard_throw (out_of_order minimum maximum)
    (ParseError Invalid path (minimumKey ++ js " must not exceed " ++ maximumKey)).

(** * JSON values ([command-input-schema-value.ts]) *)

Definition count_value : M Z :=
  st ← getM;
  let n := (ps_valueNodes st + 1)%Z in
  _ ← modifyM (fun st => {| ps_schemaAncestors := ps_schemaAncestors st;
    ps_schemaNodes := ps_schemaNodes st; ps_properties := ps_properties st;
    ps_enumValues := ps_enumValues st; ps_valueNodes := n |});
  mret n.

Section limits.
Context (limits : AppCommandInputSchemaLimits).

(** The set [ancestors] is as it was when a call returns; a failed call ends the parse. *)
Fixpoint cloneCommandInputJsonValue (fuel : nat) (input : jsval) (path : jstr) (depth : Z)
    (ancestors : list loc) : M app_json :=
  match fuel with
  | O => throwM OutOfFuel
  | S fuel =>
      valueNodes ← count_value;
      _ ← guardM (bool_decide (limits maxValueNodes < valueNodes)%Z)
            (ParseError LimitExceeded path
              (js "schema defaults exceed " ++ text (limits maxValueNodes) ++ js " JSON values"));
      _ ← guardM (bool_decide (limits maxValueDepth < depth)%Z)
            (ParseError LimitExceeded path
              (js "schema default nesting exceeds depth " ++ text (limits maxValueDepth)));
      match input with
      | VNull => mret AppNull
      | VStr s => mret (AppStr s)
      | VBool b => mret (AppBool b)
      | VNum x =>
          _ ← guardM (negb (is_finite x))
                (ParseError Invalid path (js "schema default numbers must be finite"));
          mret (AppNum x)
      | VRef l =>
          match jget l h with
          | None => throwM ReadError
          | Some o =>
              if bool_decide (is_Some (o_length o)) then
                array ← liftM (readPlainDataArray input path);
                _ ← guardM (bool_decide (l ∈ ancestors))
                      (ParseError Invalid path (js "schema defaults must not contain cycles"));
                _ ← guardM (bool_decide (limits maxCollectionBound < len array)%Z)
                      (ParseError LimitExceeded path
                        (js "schema default array exceeds " ++ text (limits maxCollectionBound) ++
                         js " items"));
                values ← mapM (fun '(index, value) =>
                  cloneCommandInputJsonValue fuel value
                    (joinSchemaPath path (dec_string (N.of_nat index))) (depth + 1)
                    (l :: ancestors)) (imap pair array);
                mret (AppArr values)
              else
                _ ← guardM (bool_decide (l ∈ ancestors))
                      (ParseError Invalid path (js "schema defaults must not contain cycles"));
                record ← liftM (readPlainDataRecord input path);
                let keys := sort_strings record.*1 in
                _ ← guardM (bool_decide (limits maxCollectionBound < len keys)%Z)
                      (ParseError LimitExceeded path
                        (js "schema default object exceeds " ++ text (limits maxCollectionBound) ++
                         js " properties"));
                clone ← mapM (fun key =>
                  _ ← guardM (bool_decide (limits maxPropertyNameLength < len key)%Z)
                        (ParseError LimitExceeded (joinSchemaPath path key)
                          (js "default property name exceeds " ++
                           text (limits maxPropertyNameLength) ++ js " characters"));
                  value ← cloneCommandInputJsonValue fuel (field key record)
                            (joinSchemaPath path key) (depth + 1) (l :: ancestors);
                  mret (key, value)) keys;
                mret (AppObj clone)
          end
      | VUndefined | VOther =>
          throwM (ParseError Invalid path (js "schema defaults must be JSON-compatible values"))
      end
  end.

(** * Defaults ([command-input-schema-default.ts]) *)

(** A value that a schema of the type may have as its default. *)
Definition valid_default (type : schema_type) (value : app_json) : bool :=
  match type, value with
  | TObject, AppObj _ | TArray, AppArr _ | TString, AppStr _ | TBoolean, AppBool _
  | TNumber, AppNum _ => true
  | TInteger, AppNum x => is_integer x
  | _, _ => false
  end.

Definition value_fuel : nat := S (Z.to_nat (limits maxValueDepth)).

Definition parseSchemaDefault (record : list (jstr * jsval)) (path : jstr) (type : schema_type)
    : M (option app_json) :=
  let input := field (js "default") record in
  if decide (input = VUndefined) then mret None
  else
    let defaultPath := joinSchemaPath path (js "default") in
    value ← cloneCommandInputJsonValue value_fuel input defaultPath 1 [];
    _ ← guardM (negb (valid_default type value))
          (ParseError Invalid defaultPath
            (js "default must match schema type " ++ type_name type));
    mret (Some value).

(** [Object.is] of two scalars *)
Definition scalar_is (x y : app_json) : bool :=
  match x, y with
  | AppStr s, AppStr t => bool_decide (s = t)
  | AppBool b, AppBool c => eqb b c
  | AppNum x, AppNum y => num_is x y
  | AppNull, AppNull => true
  | _, _ => false
  end.

Definition outside_enum (defaultValue : option app_json) (enumValues : option (list app_json))
    : bool :=
  match defaultValue, enumValues with
  | Some defaultValue, Some enumValues =>
      negb (existsb (fun value => scalar_is value defaultValue) enumValues)
  | _, _ => false
  end.

Definition assertSchemaDefaultInEnum (defaultValue : option app_json)
    (enumValues : option (list app_json)) (path : jstr) : R unit :=
  guard_throw (outside_enum defaultValue enumValues)
    (ParseError Invalid (joinSchemaPath path (js "default"))
      (js "default must be one of the declared enum values")).

(** * Scalars and arrays ([command-input-schema-scalar.ts]) *)

Definition COMMON_KEYS : list jstr :=
  js <$> ["type"; "title"; "description"; "default"; "enum"]%string.

(** The scalar of a schema type. *)
Definition matchesScalarType (value : jsval) (type : schema_type) : option app_json :=
  match type, value with
  | TString, VStr s => Some (AppStr s)
  | TBoolean, VBool b => Some (AppBool b)
  | TNumber, VNum x => if is_finite x then Some (AppNum x) else None
  | TInteger, VNum x => if is_integer x then Some (AppNum x) else None
  | _, _ => None
  end.

(** The text of a number, as [String] and [JSON.stringify] write it. *)
Context (number_text : jsnum → jstr).

Definition scalarKey (value : app_json) : jstr :=
  match value with
  | AppStr _ => js "string" | AppNum _ => js "number" | AppBool _ => js "boolean"
  | _ => js "object"
  end ++ js ":" ++ stringify number_text value.

Definition count_enum (n : Z) : M Z :=
  st ← getM;
  let total := (ps_enumValues st + n)%Z in
  _ ← modifyM (fun st => {| ps_schemaAncestors := ps_schemaAncestors st;
    ps_schemaNodes := ps_schemaNodes st; ps_properties := ps_properties st;
    ps_enumValues := total; ps_valueNodes := ps_valueNodes st |});
  mret total.

(** The loop over the enum's values. *)
Definition read_scalars (type : schema_type) (enumPath : jstr) (enumInput : list jsval)
    : R (list app_json) :=
  mapM (fun '(index, value) =>
    match matchesScalarType value type with
    | Some scalar => Ok scalar
    | None => Throw (ParseError Invalid (joinSchemaPath enumPath (dec_string (N.of_nat index)))
        (js "enum value must match schema type " ++ type_name type))
    end) (imap pair enumInput).

Definition parseScalarEnum (input : jsval) (type : schema_type) (path : jstr)
    : M (option (list app_json)) :=
  if decide (input = VUndefined) then mret None
  else
    let enumPath := joinSchemaPath path (js "enum") in
    enumInput ← liftM (readPlainDataArray input enumPath);
    _ ← guardM (bool_decide (enumInput = []))
          (ParseError Invalid enumPath (js "enum must be a non-empty array"));
    _ ← guardM (bool_decide (limits maxEnumValuesPerNode < len enumInput)%Z)
          (ParseError LimitExceeded enumPath
            (js "enum exceeds " ++ text (limits maxEnumValuesPerNode) ++ js " values"));
    enumValues ← count_enum (len enumInput);
    _ ← guardM (bool_decide (limits maxEnumValuesTotal < enumValues)%Z)
          (ParseError LimitExceeded enumPath
            (js "schema exceeds " ++ text (limits maxEnumValuesTotal) ++ js " enum values"));
    values ← liftM (read_scalars type enumPath enumInput);
    _ ← guardM (bool_decide (length (js_set (scalarKey <$> values)) ≠ length values))
          (ParseError Invalid enumPath (js "enum values must be unique"));
    mret (Some values).

Definition parseStringSchema (record : list (jstr * jsval)) (path : jstr)
    (annotations : AppCommandInputSchemaAnnotations) : M schema :=
  _ ← liftM (rejectUnknownKeys record (COMMON_KEYS ++ [js "minLength"; js "maxLength"]) path);
  enumValues ← parseScalarEnum (field (js "enum") record) TString path;
  minLength ← liftM (readOptionalBoundedInteger record (js "minLength") path
                (limits maxStringLengthBound));
  maxLength ← liftM (readOptionalBoundedInteger record (js "maxLength") path
                (limits maxStringLengthBound));
  _ ← liftM (assertRange minLength maxLength path (js "minLength") (js "maxLength"));
  defaultValue ← parseSchemaDefault record path TString;
  _ ← liftM (assertSchemaDefaultInEnum defaultValue enumValues path);
  mret (StringSchema annotations enumValues minLength maxLength defaultValue).

Definition parseNumberSchema (record : list (jstr * jsval)) (path : jstr)
    (annotations : AppCommandInputSchemaAnnotations) (integer : bool) : M schema :=
  _ ← liftM (rejectUnknownKeys record
        (COMMON_KEYS ++ [js "minimum"; js "maximum"; js "exclusiveMinimum";
                         js "exclusiveMaximum"]) path);
  enumValues ← parseScalarEnum (field (js "enum") record)
                 (if integer then TInteger else TNumber) path;
  minimum ← liftM (readOptionalFiniteNumber record (js "minimum") path);
  maximum ← liftM (readOptionalFiniteNumber record (js "maximum") path);
  exclusiveMinimum ← liftM (readOptionalFiniteNumber record (js "exclusiveMinimum") path);
  exclusiveMaximum ← liftM (readOptionalFiniteNumber record (js "exclusiveMaximum") path);
  _ ← liftM (assertRange minimum maximum path (js "minimum") (js "maximum"));
  _ ← liftM (assertRange exclusiveMinimum exclusiveMaximum path (js "exclusiveMinimum")
        (js "exclusiveMaximum"));
  defaultValue ← parseSchemaDefault record path (if integer then TInteger else TNumber);
  _ ← liftM (assertSchemaDefaultInEnum defaultValue enumValues path);
  mret (NumberSchema integer annotations enumValues minimum maximum exclusiveMinimum
    exclusiveMaximum defaultValue).

Definition parseBooleanSchema (record : list (jstr * jsval)) (path : jstr)
    (annotations : AppCommandInputSchemaAnnotations) : M schema :=
  _ ← liftM (rejectUnknownKeys record COMMON_KEYS path);
  enumValues ← parseScalarEnum (field (js "enum") record) TBoolean path;
  defaultValue ← parseSchemaDefault record path TBoolean;
  _ ← liftM (assertSchemaDefaultInEnum defaultValue enumValues path);
  mret (BooleanSchema annotations enumValues defaultValue).

(** [COMMON_KEYS.filter((key) => key !== "enum")] *)
Definition keys_without_enum : list jstr := filter (fun key => key ≠ js "enum") COMMON_KEYS.

Section nodes.
Context (parseNode : jsval → jstr → Z → bool → M schema).

Definition parseArraySchema (record : list (jstr * jsval)) (path : jstr) (depth : Z)
    (annotations : AppCommandInputSchemaAnnotations) : M schema :=
  _ ← liftM (rejectUnknownKeys record
        (keys_without_enum ++ [js "items"; js "minItems"; js "maxItems"; js "uniqueItems"]) path);
  _ ← guardM (bool_decide (field (js "items") record = VUndefined))
        (ParseError Invalid (joinSchemaPath path (js "items"))
          (js "array schemas require items"));
  items ← parseNode (field (js "items") record) (joinSchemaPath path (js "items")) (depth + 1)%Z
            false;
  minItems ← liftM (readOptionalBoundedInteger record (js "minItems") path
               (limits maxCollectionBound));
  maxItems ← liftM (readOptionalBoundedInteger record (js "maxItems") path
               (limits maxCollectionBound));
  _ ← liftM (assertRange minItems maxItems path (js "minItems") (js "maxItems"));
  uniqueItems ← liftM (readOptionalBoolean record (js "uniqueItems") path);
  defaultValue ← parseSchemaDefault record path TArray;
  mret (ArraySchema annotations items minItems maxItems uniqueItems defaultValue).

(** * Schemas ([command-input-schema-parser.ts]) *)

Definition parseAnnotations (record : list (jstr * jsval)) (path : jstr)
    : R AppCommandInputSchemaAnnotations :=
  title ← readOptionalString record (js "title") path (limits maxTitleLength);
  description ← readOptionalString record (js "description") path (limits maxDescriptionLength);
  Ok {| an_title := title; an_description := description |}.

Definition count_properties (n : Z) : M Z :=
  st ← getM;
  let total := (ps_properties st + n)%Z in
  _ ← modifyM (fun st => {| ps_schemaAncestors := ps_schemaAncestors st;
    ps_schemaNodes := ps_schemaNodes st; ps_properties := total;
    ps_enumValues := ps_enumValues st; ps_valueNodes := ps_valueNodes st |});
  mret total.

Definition parseProperties (input : jsval) (path : jstr) (depth : Z)
    : M (option (list (jstr * schema))) :=
  if decide (input = VUndefined) then mret None
  else
    let propertiesPath := joinSchemaPath path (js "properties") in
    record ← liftM (readPlainDataRecord input propertiesPath);
    let keys := sort_strings record.*1 in
    properties ← count_properties (len keys);
    _ ← guardM (bool_decide (limits maxProperties < properties)%Z)
          (ParseError LimitExceeded propertiesPath
            (js "schema exceeds " ++ text (limits maxProperties) ++ js " object properties"));
    properties ← mapM (fun key =>
      _ ← guardM (bool_decide (limits maxPropertyNameLength < len key)%Z)
            (ParseError LimitExceeded (joinSchemaPath propertiesPath key)
              (js "property name exceeds " ++ text (limits maxPropertyNameLength) ++
               js " characters"));
      value ← parseNode (field key record) (joinSchemaPath propertiesPath key) (depth + 1)%Z
                false;
      mret (key, value)) keys;
    mret (Some properties).

(** The loop over the names. *)
Definition read_names (requiredPath : jstr) (requiredValues : list jsval) : R (list jstr) :=
  mapM (fun '(index, value) =>
    let namePath := joinSchemaPath requiredPath (dec_string (N.of_nat index)) in
    match value with
    | VStr name =>
        _ ← guard_throw (bool_decide (limits maxPropertyNameLength < len name)%Z)
              (ParseError LimitExceeded namePath
                (js "required name exceeds " ++ text (limits maxPropertyNameLength) ++
                 js " characters"));
        Ok name
    | _ => Throw (ParseError Invalid namePath (js "required names must be strings"))
    end) (imap pair requiredValues).

(** [properties?.[name] !== undefined], where [properties] is an object literal. *)
Definition known_property (properties : option (list (jstr * schema))) (name : jstr) : bool :=
  match properties with
  | None => false
  | Some properties => jhas name properties || bool_decide (name ∈ inherited_names)
  end.

Definition parseRequired (input : jsval) (properties : option (list (jstr * schema)))
    (path : jstr) : R (option (list jstr)) :=
  if decide (input = VUndefined) then Ok None
  else
    let requiredPath := joinSchemaPath path (js "required") in
    requiredValues ← readPlainDataArray input requiredPath;
    _ ← guard_throw (bool_decide (limits maxRequiredNames < len requiredValues)%Z)
          (ParseError LimitExceeded requiredPath
            (js "required exceeds " ++ text (limits maxRequiredNames) ++ js " names"));
    names ← read_names requiredPath requiredValues;
    _ ← guard_throw (bool_decide (length (js_set names) ≠ length names))
          (ParseError Invalid requiredPath (js "required names must be unique"));
    _ ← foldM (fun _ name =>
          guard_throw (negb (known_property properties name))
            (ParseError Invalid requiredPath (js "required names must exist in properties")))
          tt names;
    Ok (Some (sort_strings names)).

(** [$schema] is there, and it is the draft that is supported. *)
Definition parse_dialect (record : list (jstr * jsval)) (path : jstr) (root : bool) : R bool :=
  if root then
    let value := field (js "$schema") record in
    if decide (value = VUndefined) then Ok false
    else
      _ ← guard_throw (bool_decide (value ≠ VStr APP_COMMAND_INPUT_SCHEMA_DRAFT_2020_12))
            (ParseError Unsupported (joinSchemaPath path (js "$schema"))
              (js "only JSON Schema Draft 2020-12 is supported"));
      Ok true
  else Ok false.

Definition object_keys (root : bool) : list jstr :=
  keys_without_enum ++ (if root then [js "$schema"] else []) ++
  [js "properties"; js "required"; js "additionalProperties"; js "minProperties";
   js "maxProperties"].

Definition parseObjectSchema (record : list (jstr * jsval)) (path : jstr) (depth : Z)
    (root : bool) (annotations : AppCommandInputSchemaAnnotations) : M schema :=
  _ ← liftM (rejectUnknownKeys record (object_keys root) path);
  properties ← parseProperties (field (js "properties") record) path depth;
  required ← liftM (parseRequired (field (js "required") record) properties path);
  additionalProperties ← liftM (readOptionalBoolean record (js "additionalProperties") path);
  minimum ← liftM (readOptionalBoundedInteger record (js "minProperties") path
                    (limits maxCollectionBound));
  maximum ← liftM (readOptionalBoundedInteger record (js "maxProperties") path
                    (limits maxCollectionBound));
  _ ← liftM (assertRange minimum maximum path (js "minProperties")
        (js "maxProperties"));
  defaultValue ← parseSchemaDefault record path TObject;
  dialect ← liftM (parse_dialect record path root);
  mret (ObjectSchema dialect annotations properties required additionalProperties minimum maximum
    defaultValue).

Definition count_node : M Z :=
  st ← getM;
  let n := (ps_schemaNodes st + 1)%Z in
  _ ← modifyM (fun st => {| ps_schemaAncestors := ps_schemaAncestors st; ps_schemaNodes := n;
    ps_properties := ps_properties st; ps_enumValues := ps_enumValues st;
    ps_valueNodes := ps_valueNodes st |});
  mret n.

Definition set_ancestors (f : list jsval → list jsval) : M unit :=
  modifyM (fun st => {| ps_schemaAncestors := f (ps_schemaAncestors st);
    ps_schemaNodes := ps_schemaNodes st; ps_properties := ps_properties st;
    ps_enumValues := ps_enumValues st; ps_valueNodes := ps_valueNodes st |}).

(** [try { body } finally { after }] *)
Definition finallyM {A} (body : M A) (after : M unit) : M A :=
  r ← attemptM body; _ ← after; liftM r.

Definition read_type (value : jsval) : option schema_type :=
  match value with VStr name => jget name APP_COMMAND_INPUT_SCHEMA_TYPES | _ => None end.

(** The body of the [try] of [parseSchemaNode]. *)
Definition parse_typed (record : list (jstr * jsval)) (path : jstr) (depth : Z) (root : bool)
    : M schema :=
  match read_type (field (js "type") record) with
  | None =>
      throwM (ParseError Invalid (joinSchemaPath path (js "type"))
        (js "schema type must be object, string, number, integer, boolean, or array"))
  | Some type =>
      _ ← guardM (root && bool_decide (type ≠ TObject))
            (ParseError Invalid (joinSchemaPath path (js "type"))
              (js "root schema type must be object"));
      annotations ← liftM (parseAnnotations record path);
      match type with
      | TObject => parseObjectSchema record path depth root annotations
      | TString => parseStringSchema record path annotations
      | TNumber => parseNumberSchema record path annotations false
      | TInteger => parseNumberSchema record path annotations true
      | TBoolean => parseBooleanSchema record path annotations
      | TArray => parseArraySchema record path depth annotations
      end
  end.

Definition parse_node (input : jsval) (path : jstr) (depth : Z) (root : bool) : M schema :=
  schemaNodes ← count_node;
  _ ← guardM (bool_decide (limits maxSchemaNodes < schemaNodes)%Z)
        (ParseError LimitExceeded path
          (js "schema exceeds " ++ text (limits maxSchemaNodes) ++ js " nodes"));
  _ ← guardM (bool_decide (limits maxSchemaDepth < depth)%Z)
        (ParseError LimitExceeded path
          (js "schema nesting exceeds depth " ++ text (limits maxSchemaDepth)));
  record ← liftM (readPlainDataRecord input path);
  _ ← liftM (rejectUndefinedValues record path);
  st ← getM;
  _ ← guardM (bool_decide (input ∈ ps_schemaAncestors st))
        (ParseError Invalid path (js "command input schemas must not contain cycles"));
  _ ← set_ancestors (cons input);
  finallyM (parse_typed record path depth root)
    (set_ancestors (filter (fun ancestor => ancestor ≠ input))).
End nodes.

Fixpoint parseSchemaNode (fuel : nat) (input : jsval) (path : jstr) (depth : Z) (root : bool)
    : M schema :=
  match fuel with
  | O => throwM OutOfFuel
  | S fuel => parse_node (parseSchemaNode fuel) input path depth root
  end.

Definition schema_fuel : nat := S (Z.to_nat (limits maxSchemaDepth)).

(** * The JSON value that a parsed schema is *)

(** The fields of an object literal that spreads in those that are defined. *)
Definition defined_fields {A} (fields : list (jstr * option A)) : list (jstr * A) :=
  omap (fun '(key, value) => pair key <$> value) fields.

Definition annotation_fields (annotations : AppCommandInputSchemaAnnotations)
    : list (jstr * option app_json) :=
  [(js "title", AppStr <$> an_title annotations);
   (js "description", AppStr <$> an_description annotations)].

Definition type_field (type : schema_type) : jstr * option app_json :=
  (js "type", Some (AppStr (type_name type))).

(** The fields of a schema, with those that are not there. *)
Definition fields_of (to_json : schema → app_json) (s : schema) : list (jstr * option app_json) :=
  match s with
  | ObjectSchema dialect annotations properties required additionalProperties minimum maximum
      default =>
      [(js "$schema", if dialect then Some (AppStr APP_COMMAND_INPUT_SCHEMA_DRAFT_2020_12) else None);
       type_field TObject] ++ annotation_fields annotations ++
      [(js "properties", (fun properties =>
          AppObj ((fun '(key, s) => (key, to_json s)) <$> properties)) <$> properties);
       (js "required", (fun names => AppArr (AppStr <$> names)) <$> required);
       (js "additionalProperties", AppBool <$> additionalProperties);
       (js "minProperties", AppNum <$> minimum); (js "maxProperties", AppNum <$> maximum);
       (js "default", default)]
  | StringSchema annotations enum minLength maxLength default =>
      [type_field TString] ++ annotation_fields annotations ++
      [(js "enum", AppArr <$> enum); (js "minLength", AppNum <$> minLength);
       (js "maxLength", AppNum <$> maxLength); (js "default", default)]
  | NumberSchema integer annotations enum minimum maximum exclusiveMinimum exclusiveMaximum
      default =>
      [type_field (if integer then TInteger else TNumber)] ++ annotation_fields annotations ++
      [(js "enum", AppArr <$> enum); (js "minimum", AppNum <$> minimum);
       (js "maximum", AppNum <$> maximum); (js "exclusiveMinimum", AppNum <$> exclusiveMinimum);
       (js "exclusiveMaximum", AppNum <$> exclusiveMaximum); (js "default", default)]
  | BooleanSchema annotations enum default =>
      [type_field TBoolean] ++ annotation_fields annotations ++
      [(js "enum", AppArr <$> enum); (js "default", default)]
  | ArraySchema annotations items minItems maxItems uniqueItems default =>
      [type_field TArray] ++ annotation_fields annotations ++
      [(js "items", Some (to_json items)); (js "minItems", AppNum <$> minItems);
       (js "maxItems", AppNum <$> maxItems); (js "uniqueItems", AppBool <$> uniqueItems);
       (js "default", default)]
  end.

Fixpoint to_json (s : schema) : app_json := AppObj (defined_fields (fields_of to_json s)).

(** * [parseAppCommandInputSchema] *)

Definition is_object_schema (s : schema) : bool :=
  match s with ObjectSchema _ _ _ _ _ _ _ _ => true | _ => false end.

(** What the [try] computes with the limits resolved. *)
Definition parse_root (input : jsval) : R schema :=
  let state := {| ps_schemaAncestors := []; ps_schemaNodes := 0; ps_properties := 0;
    ps_enumValues := 0; ps_valueNodes := 0 |}%Z in
  value ← (parseSchemaNode schema_fuel input (js "/") 1 true state).2;
  _ ← guard_throw (negb (is_object_schema value))
        (ParseError Invalid (js "/type") (js "command input schema root type must be object"));
  _ ← guard_throw (bool_decide (limits maxSerializedBytes < utf8ByteLength (stringify number_text (to_json value)))%Z)
        (ParseError LimitExceeded (js "/")
          (js "normalized schema exceeds " ++ text (limits maxSerializedBytes) ++ js " bytes"));
  Ok value.
End limits.

(** [None]: out of fuel. *)
Definition parseAppCommandInputSchema (number_text : jsnum → jstr) (input : jsval)
    (limits : option (list (limit_key * option jsnum)))
    : option ParseAppCommandInputSchemaResult :=
  match limits ← resolveSchemaLimits limits; parse_root limits number_text input with
  | Ok value => Some (ParseOk value)
  | Throw (ParseError code path message) =>
      Some (ParseFailed {| er_code := code; er_path := path; er_message := message |})
  | Throw ReadError =>
      Some (ParseFailed {| er_code := Invalid; er_path := js "/";
        er_message := js "command input schema could not be read safely" |})
  | Throw OutOfFuel => None
  end.
End heap.
