(* ===== verification/CommandSchemaSpec.v ===== *)
(** The documents that the parser of command input schemas accepts, and what it makes of
    them: an untrusted value is accepted exactly when it is the JSON of a well-formed schema,
    and the result is that schema in its normal form. *)
From Stdlib Require Import Floats.SpecFloat.
From S2P Require Import Prelude JsMap Json JsStr JsonText JsHeap CommandSchema.

(** * Plain data *)

Definition data (value : jsval) : property := {| pr_value := Some value; pr_enumerable := true |}.

Definition data_own (record : list (jstr * jsval)) : list (property_key * property) :=
  (fun '(key, value) => (StringKey key, data value)) <$> record.

Section heap.
Context (h : heap).

(** An object of a plain prototype with the fields of [record] and nothing else. *)
Definition plain_record (v : jsval) (record : list (jstr * jsval)) : Prop :=
  ∃ l o, v = VRef l ∧ jget l h = Some o ∧ o_length o = None ∧
    (o_prototype o = ObjectPrototype ∨ o_prototype o = NullPrototype) ∧
    o_own o = data_own record.

(** A plain array of the values, without holes and without further properties. *)
Definition plain_array (v : jsval) (values : list jsval) : Prop :=
  ∃ l o, v = VRef l ∧ jget l h = Some o ∧ o_length o = Some (N.of_nat (length values)) ∧
    o_prototype o = ArrayPrototype ∧
    (∀ i x, values !! i = Some x → own (dec_string (N.of_nat i)) o = Some (data x)) ∧
    (∀ k, k ∈ (o_own o).*1 →
      k = StringKey (js "length") ∨
      ∃ i, i < length values ∧ k = StringKey (dec_string (N.of_nat i))).
End heap.

Lemma data_own_keys record : (data_own record).*1 = StringKey <$> record.*1.
Proof. unfold data_own. induction record as [|[k v] record IH]; simpl; [done|]. by f_equal. Qed.

Lemma read_fields_iff path acc entries record :
  NoDup (acc.*1 : list jstr) → NoDup entries.*1 →
  (∀ k, StringKey k ∈ entries.*1 → k ∉ acc.*1) →
  foldM (read_field path) acc entries = Ok record ↔
  ∃ rest, entries = data_own rest ∧ record = acc ++ rest.
Proof.
  revert acc. induction entries as [|[[k|n] [value enumerable]] entries IH];
    intros acc Hacc Hnd Hdis; simpl.
  - split; [|by intros ([|[? ?] rest] & ? & ->); simplify_eq/=; rewrite ?app_nil_r].
    intros [= <-]. exists []. by rewrite app_nil_r.
  - apply NoDup_cons in Hnd as [Hk Hnd].
    assert (k ∉ acc.*1) as Hka by (apply Hdis; set_solver).
    assert (∀ v, NoDup (acc ++ [(k, v)]).*1) as Hacc'.
    { intros v. rewrite fmap_app. apply NoDup_app. split_and!; [done| |apply NoDup_singleton].
      intros x Hx ->%list_elem_of_singleton. done. }
    assert (∀ v k', StringKey k' ∈ entries.*1 → k' ∉ (acc ++ [(k, v)]).*1) as Hdis'.
    { intros v k' Hk'. rewrite fmap_app. apply not_elem_of_app.
      split; [apply Hdis; set_solver|]. by intros ->%list_elem_of_singleton. }
    split.
    + destruct value as [v|], enumerable; try done. cbn. rewrite jset_fresh, IH by auto.
      intros (rest & -> & ->). exists ((k, v) :: rest). by rewrite <-(assoc_L (++)).
    + intros ([|[k' v] rest] & He & ->); [done|]. injection He as <- -> -> ->. cbn.
      rewrite jset_fresh by done. apply IH; auto.
      exists rest. by rewrite <-(assoc_L (++)).
  - split; [done|]. intros ([|[k v] rest] & He & _); simplify_eq/=.
Qed.

(** ** Arrays *)

Definition length_key : property_key := StringKey (js "length").

(** The own properties of an array but its length. *)
Definition index_entries (entries : list (property_key * property))
    : list (property_key * property) :=
  filter (fun entry => entry.1 ≠ length_key) entries.

Definition is_index (n : N) (entry : property_key * property) : Prop :=
  ∃ i x, (i < n)%N ∧ entry = (StringKey (dec_string i), data x).

Lemma dec_string_not_length i : dec_string i ≠ js "length".
Proof.
  intros Hi. pose proof (dec_string_digits i) as Hd. rewrite Hi in Hd.
  inversion_clear Hd. done.
Qed.

Lemma isCanonicalArrayIndex_iff k n :
  (n < 4294967296)%N →
  isCanonicalArrayIndex k n = true ↔ ∃ i, (i < n)%N ∧ k = dec_string i.
Proof.
  intros Hn. unfold isCanonicalArrayIndex. split.
  - destruct (parse_numeral k) as [i|] eqn:Hk; [|done].
    intros [_ Hi%bool_decide_eq_true]%andb_true_iff. exists i. split; [done|].
    by apply parse_numeral_inv.
  - intros (i & Hi & ->). rewrite parse_dec_string. apply andb_true_iff.
    split; apply bool_decide_eq_true; [|done]. unfold MAX_SAFE_INTEGER. lia.
Qed.

Lemma count_index_Ok path n c entry c' :
  (n < 4294967296)%N → entry.1 ≠ length_key →
  count_index path n c entry = Ok c' ↔ is_index n entry ∧ c' = (c + 1)%N.
Proof.
  intros Hn. destruct entry as [[k|s] [value enumerable]]; simpl; intros Hk; [|].
  - rewrite decide_False by (unfold length_key in Hk; congruence).
    destruct (isCanonicalArrayIndex k n) eqn:Hi; simpl.
    + apply isCanonicalArrayIndex_iff in Hi as (i & Hi & ->); [|done]. unfold is_index, data. split.
      * destruct value as [x|], enumerable; try done. intros [= <-]. eauto.
      * by intros [(j & x & _ & [= _ -> ->]) ->].
    + split; [done|]. intros [(i & x & Hlt & [= -> _ _]) _].
      assert (isCanonicalArrayIndex (dec_string i) n = true) by (apply isCanonicalArrayIndex_iff; eauto).
      congruence.
  - split; [done|]. by intros [(i & x & _ & ?) _].
Qed.

Lemma count_index_length path n c p : count_index path n c (length_key, p) = Ok c.
Proof. unfold count_index, length_key. by rewrite decide_True. Qed.

Lemma count_indices path n c entries c' :
  (n < 4294967296)%N →
  foldM (count_index path n) c entries = Ok c' ↔
  Forall (is_index n) (index_entries entries) ∧
  c' = (c + N.of_nat (length (index_entries entries)))%N.
Proof.
  intros Hn. revert c. induction entries as [|entry entries IH]; intros c.
  - simpl. rewrite N.add_0_r. split; [by intros [= <-]|by intros [_ ->]].
  - unfold index_entries. rewrite filter_cons. fold (index_entries entries).
    destruct (decide (entry.1 ≠ length_key)) as [Hk|Hk].
    + change (foldM (count_index path n) c (entry :: entries) = Ok c')
        with (count_index path n c entry ≫= (fun c => foldM (count_index path n) c entries) = Ok c').
      rewrite result_bind_Ok. setoid_rewrite (count_index_Ok path n c entry _ Hn Hk).
      setoid_rewrite IH. rewrite Forall_cons. simpl length. split.
      * intros (c1 & [Hi ->] & Hl & ->). split; [done|lia].
      * intros [[Hi Hl] ->]. eexists. split; [done|]. split; [done|lia].
    + apply dec_stable in Hk. destruct entry as [k p]. simpl in Hk. subst k.
      change (foldM (count_index path n) c ((length_key, p) :: entries))
        with (count_index path n c (length_key, p) ≫= (fun c => foldM (count_index path n) c entries)).
      rewrite count_index_length. apply IH.
Qed.

(** As many distinct indices below a length as the length are all of them. *)
Lemma all_indices n (l : list nat) :
  NoDup l → (∀ i, i ∈ l → i < n) → length l = n → ∀ i, i < n → i ∈ l.
Proof.
  intros Hnd Hlt Hlen i Hi.
  assert (l ≡ₚ seq 0 n) as ->; [|by apply elem_of_seq; lia].
  apply submseteq_length_Permutation; [|by rewrite length_seq, Hlen].
  apply NoDup_submseteq; [done|]. intros j Hj. apply elem_of_seq. specialize (Hlt j Hj). lia.
Qed.

Lemma index_entries_elem entries entry :
  entry ∈ index_entries entries ↔ entry.1 ≠ length_key ∧ entry ∈ entries.
Proof. unfold index_entries. by rewrite list_elem_of_filter. Qed.

Lemma index_entries_NoDup entries : NoDup entries.*1 → NoDup (index_entries entries).*1.
Proof. apply NoDup_fmap_filter. Qed.

Lemma own_elem o k p : NoDup (o_own o).*1 → own k o = Some p ↔ (StringKey k, p) ∈ o_own o.
Proof.
  intros Hnd. unfold own. split; [apply jget_elem_of|by apply elem_of_jget].
Qed.

(** What a read array has: at every index below its length, a property with a value. *)
Lemma indices_complete n entries :
  NoDup entries.*1 → Forall (is_index n) (index_entries entries) →
  length (index_entries entries) = N.to_nat n →
  ∀ i, i < N.to_nat n → ∃ x, (StringKey (dec_string (N.of_nat i)), data x) ∈ entries.
Proof.
  intros Hnd Hall Hlen i Hi. apply index_entries_NoDup in Hnd.
  assert (∃ l : list (N * jsval), Forall (fun '(j, _) => (j < n)%N) l ∧
    index_entries entries = (fun '(j, x) => (StringKey (dec_string j), data x)) <$> l)
    as (l & Hl & He).
  { clear -Hall. induction Hall as [|entry es (j & x & Hj & ->) _ (l & Hl & ->)]; [by exists []|].
    exists ((j, x) :: l). split; [by constructor|done]. }
  assert (i ∈ N.to_nat <$> l.*1) as Hin.
  { apply (all_indices (N.to_nat n)); [..|done].
    - apply (NoDup_fmap_2 _). rewrite He in Hnd. revert Hnd. clear.
      induction l as [|[j x] l IH]; simpl; [constructor|]. intros [Hj Hl]%NoDup_cons.
      constructor; [|by apply IH]. intros ([j' y] & -> & Hin)%list_elem_of_fmap. apply Hj.
      apply list_elem_of_fmap. exists (StringKey (dec_string j'), data y). split; [done|].
      apply list_elem_of_fmap. by exists (j', y).
    - intros j (j' & -> & ([k z] & -> & Hin)%list_elem_of_fmap)%list_elem_of_fmap.
      rewrite Forall_forall in Hl. specialize (Hl _ Hin). simpl in *. lia.
    - rewrite !length_fmap. rewrite He, length_fmap in Hlen. done. }
  apply list_elem_of_fmap in Hin as (j & -> & ([j' x] & -> & Hin)%list_elem_of_fmap).
  exists x. rewrite N2Nat.id. simpl.
  assert ((StringKey (dec_string j'), data x) ∈ index_entries entries) as Hx.
  { rewrite He. apply list_elem_of_fmap. by exists (j', x). }
  by apply index_entries_elem in Hx as [_ Hx].
Qed.

Section reads.
Context (h : heap) (Hh : heap_ok h).

Lemma plain_record_inv v record path :
  readPlainDataRecord h v path = Ok record ↔ plain_record h v record.
Proof.
  unfold plain_record. split.
  - destruct v as [| | | | | |l]; try done. simpl. destruct (jget l h) as [o|] eqn:Hl; [|done].
    intros Hr. inv_result. match goal with H : bool_decide (is_Some _) = false |- _ =>
      apply bool_decide_eq_false, eq_None_not_Some in H as Hlen end.
    match goal with H : bool_decide (_ ∧ _) = false |- _ =>
      apply bool_decide_eq_false in H as Hp end.
    destruct (heap_ok_lookup _ _ _ Hh Hl) as [Hnd _].
    apply read_fields_iff in Hr as (rest & Ho & ->); [|constructor|done|set_solver].
    exists l, o. split_and!; try done. destruct (o_prototype o); tauto || naive_solver.
  - intros (l & o & -> & Hl & Hlen & Hp & Ho). simpl. rewrite Hl, Hlen. simpl.
    rewrite bool_decide_eq_false_2 by naive_solver. simpl.
    destruct (heap_ok_lookup _ _ _ Hh Hl) as [Hnd _].
    apply read_fields_iff; [constructor|done|set_solver|]. by exists record.
Qed.

Lemma plain_array_inv v values path :
  readPlainDataArray h v path = Ok values ↔ plain_array h v values.
Proof.
  unfold plain_array. split.
  - destruct v as [| | | | | |l]; try done. simpl. destruct (jget l h) as [o|] eqn:Hl; [|done].
    destruct (o_length o) as [n|] eqn:Hn; [|done]. intros Hr.
    destruct (heap_ok_lookup _ _ _ Hh Hl) as [Hnd Hlt]. specialize (Hlt n Hn).
    inv_result. match goal with H : foldM _ _ _ = Ok _ |- _ =>
      apply (count_indices path n 0 _ _ Hlt) in H as [Hall ->] end.
    match goal with H : bool_decide (_ ≠ ArrayPrototype) = false |- _ =>
      apply bool_decide_eq_false, dec_stable in H as Hp end.
    match goal with H : bool_decide (_ ≠ n) = false |- _ =>
      apply bool_decide_eq_false, dec_stable in H as Hc end.
    pose proof (indices_complete n (o_own o) Hnd Hall ltac:(lia)) as Hi.
    exists l, o. rewrite length_fmap, length_seq, N2Nat.id. split_and!; try done.
    + intros i x Hx. apply list_lookup_fmap_Some in Hx as (j & -> & Hj).
      apply lookup_seq in Hj as [-> Hj]. destruct (Hi i Hj) as [x Hx].
      apply own_elem in Hx; [|done]. unfold element. simpl. by rewrite Hx.
    + intros k ([k' p] & -> & Hk)%list_elem_of_fmap. simpl.
      destruct (decide (k' = length_key)) as [->|Hne]; [by left|right].
      rewrite Forall_forall in Hall. destruct (Hall (k', p)) as (i & x & Hlt' & [= -> ->]).
      { by apply index_entries_elem. }
      exists (N.to_nat i). rewrite N2Nat.id. split; [lia|done].
  - intros (l & o & -> & Hl & Hlen & Hp & Hget & Hkeys). simpl. rewrite Hl, Hlen, Hp. simpl.
    destruct (heap_ok_lookup _ _ _ Hh Hl) as [Hnd Hlt]. specialize (Hlt _ Hlen).
    assert (index_entries (o_own o) ≡ₚ
      imap (fun i x => (StringKey (dec_string (N.of_nat i)), data x)) values) as Hperm.
    { apply NoDup_Permutation.
      - eapply NoDup_fmap_1, index_entries_NoDup, Hnd.
      - apply NoDup_alt. intros i j e Hi Hj. rewrite list_lookup_imap in Hi, Hj.
        apply fmap_Some in Hi as (x & _ & ->), Hj as (y & _ & [= Hij _]).
        apply (inj dec_string) in Hij. lia.
      - intros [k p]. rewrite index_entries_elem. split.
        + intros [Hne Hin]. simpl in Hne.
          assert (k ∈ (o_own o).*1) as Hk by (apply list_elem_of_fmap; by exists (k, p)).
          destruct (Hkeys k Hk) as [->|(i & Hi & ->)]; [done|].
          destruct (lookup_lt_is_Some_2 values i Hi) as [x Hx].
          pose proof (Hget i x Hx) as Ho. apply own_elem in Ho; [|done].
          assert (p = data x) as ->.
          { apply (f_equal snd (NoDup_fmap_eq fst (o_own o) _ _ Hnd Hin Ho eq_refl)). }
          apply list_elem_of_lookup. exists i. rewrite list_lookup_imap. by rewrite Hx.
        + intros (i & Hi)%list_elem_of_lookup. rewrite list_lookup_imap in Hi.
          apply fmap_Some in Hi as (x & Hx & [= -> ->]). split.
          * intros [= Hk]. by apply dec_string_not_length in Hk.
          * apply own_elem; [done|]. by apply Hget. }
    rewrite (proj2 (count_indices path _ 0 _ (N.of_nat (length values)) Hlt)); [|split].
    + simpl. rewrite bool_decide_eq_false_2 by (intros Hne; by apply Hne). simpl. f_equal.
      apply list_eq. intros i. rewrite list_lookup_fmap, Nat2N.id.
      destruct (values !! i) as [x|] eqn:Hx.
      * rewrite lookup_seq_lt by by eapply lookup_lt_Some. simpl. unfold element.
        by rewrite (Hget i x Hx).
      * rewrite lookup_seq_ge by by apply lookup_ge_None. done.
    + rewrite Hperm. apply Forall_forall. intros e (i & Hi)%list_elem_of_lookup.
      rewrite list_lookup_imap in Hi. apply fmap_Some in Hi as (x & Hx & ->).
      exists (N.of_nat i), x. split; [|done]. apply lookup_lt_Some in Hx. lia.
    + rewrite Hperm, length_imap. lia.
Qed.
End reads.

(** * The JSON value that a value denotes *)

Section denotes.
Context (h : heap).

(** The value is the JSON value, up to the order of the keys of objects. *)
Fixpoint denotes (j : app_json) (v : jsval) : Prop :=
  match j with
  | AppNull => v = VNull
  | AppBool b => v = VBool b
  | AppNum x => v = VNum x ∧ is_finite x = true
  | AppStr s => v = VStr s
  | AppArr js => ∃ values, plain_array h v values ∧
      foldr (fun j (rest : list jsval → Prop) values =>
        match values with value :: values => denotes j value ∧ rest values | [] => False end)
        (fun values => values = []) js values
  | AppObj fields => ∃ record, plain_record h v record ∧ NoDup fields.*1 ∧
      record.*1 ≡ₚ fields.*1 ∧
      foldr (fun '(key, j) rest => (∃ value, jget key record = Some value ∧ denotes j value) ∧ rest)
        True fields
  end.

(** A field of a record, present or not. *)
Definition field_is (record : list (jstr * jsval)) (key : jstr) (j : option app_json) : Prop :=
  match j with
  | None => jget key record = None
  | Some j => ∃ value, jget key record = Some value ∧ denotes j value
  end.

Lemma denotes_array js v :
  denotes (AppArr js) v ↔ ∃ values, plain_array h v values ∧ Forall2 denotes js values.
Proof.
  simpl. f_equiv. intros values. f_equiv. revert values.
  induction js as [|j js IH]; intros [|value vs]; simpl.
  - split; [constructor|done].
  - split; [done|by inversion 1].
  - split; [done|by inversion 1].
  - by rewrite Forall2_cons, IH.
Qed.

Lemma denotes_object fields v :
  denotes (AppObj fields) v ↔ ∃ record, plain_record h v record ∧ NoDup fields.*1 ∧
    record.*1 ≡ₚ fields.*1 ∧ Forall (fun '(key, j) => field_is record key (Some j)) fields.
Proof.
  simpl. f_equiv. intros record. do 3 f_equiv. clear.
  induction fields as [|[k j] fields IH]; simpl; [split; constructor|].
  by rewrite Forall_cons, IH.
Qed.

Lemma denotes_defined j v : denotes j v → v ≠ VUndefined.
Proof.
  destruct j; simpl; try naive_solver.
  - by intros (? & (l & o & -> & _) & _).
  - by intros (? & (l & o & -> & _) & _).
Qed.

(** ** The values an object holds *)

Inductive child : jsval → jsval → Prop :=
| field_child v record key value :
    plain_record h v record → jget key record = Some value → child value v
| item_child v values value : plain_array h v values → value ∈ values → child value v.

Lemma plain_record_fun v r1 r2 : plain_record h v r1 → plain_record h v r2 → r1 = r2.
Proof.
  intros (l & o & -> & Hl & _ & _ & Ho) (l' & o' & [= <-] & Hl' & _ & _ & Ho').
  rewrite Hl in Hl'. injection Hl' as <-. rewrite Ho in Ho'. revert r2 Ho'. clear.
  induction r1 as [|[k x] r1 IH]; intros [|[k' x'] r2]; simpl; try done.
  intros [= -> -> H]. f_equal. by apply IH.
Qed.

Lemma plain_array_fun v l1 l2 : plain_array h v l1 → plain_array h v l2 → l1 = l2.
Proof.
  intros (l & o & -> & Hl & Hn & _ & Hg & _) (l' & o' & [= <-] & Hl' & Hn' & _ & Hg' & _).
  rewrite Hl in Hl'. injection Hl' as <-. rewrite Hn in Hn'. injection Hn' as Hlen.
  apply list_eq_same_length with (length l1); [lia|done|].
  intros i x y _ Hx Hy. apply Hg in Hx. apply Hg' in Hy. rewrite Hx in Hy. by injection Hy.
Qed.

Lemma record_not_array v record values : plain_record h v record → plain_array h v values → False.
Proof.
  intros (l & o & -> & Hl & Hn & _) (l' & o' & [= <-] & Hl' & Hn' & _). congruence.
Qed.

Lemma Acc_leaf v : (∀ l, v ≠ VRef l) → Acc child v.
Proof.
  intros Hv. constructor. intros w Hw. exfalso. destruct Hw as [v record key value Hr|v vs value Ha].
  - destruct Hr as (l & _ & -> & _). by apply (Hv l).
  - destruct Ha as (l & _ & -> & _). by apply (Hv l).
Qed.

(** What is denoted has no cycle. *)
Lemma denotes_Acc j v : denotes j v → Acc child v.
Proof.
  revert v. induction j as [|b|x|s|js IH|fields IH] using app_json_nested_ind; intros v.
  - intros ->. by apply Acc_leaf.
  - intros ->. by apply Acc_leaf.
  - intros [-> _]. by apply Acc_leaf.
  - intros ->. by apply Acc_leaf.
  - intros (values & Ha & Hv)%denotes_array. constructor. intros w Hw.
    destruct Hw as [v record key value Hr|v vs value Ha' Hin]; [by destruct (record_not_array _ _ _ Hr Ha)|].
    rewrite (plain_array_fun _ _ _ Ha' Ha) in Hin. apply list_elem_of_lookup in Hin as [i Hi].
    destruct (Forall2_lookup_r _ _ _ _ _ Hv Hi) as (j & Hj & Hd).
    rewrite Forall_lookup in IH. eauto.
  - intros (record & Hr & _ & Hkeys & Hf)%denotes_object. constructor. intros w Hw.
    destruct Hw as [v record' key value Hr' Hk|v vs value Ha]; [|by destruct (record_not_array _ _ _ Hr Ha)].
    rewrite (plain_record_fun _ _ _ Hr' Hr) in Hk.
    assert (key ∈ fields.*1) as Hin by (rewrite <-Hkeys; apply jget_is_Some; eauto).
    apply list_elem_of_fmap in Hin as ([k j] & -> & Hin). simpl in *.
    rewrite Forall_forall in Hf, IH. specialize (Hf _ Hin). specialize (IH _ Hin). simpl in *.
    destruct Hf as (value' & Hk' & Hd). rewrite Hk in Hk'. injection Hk' as <-. by apply IH.
Qed.

Lemma tc_last v w : tc child v w → ∃ x, rtc child v x ∧ child x w.
Proof.
  induction 1 as [v w Hw|v x w Hx _ (y & Hy & Hw)].
  - exists v. split; [constructor|done].
  - exists y. split; [by eapply rtc_l|done].
Qed.

Lemma Acc_no_cycle v : Acc child v → ¬ tc child v v.
Proof.
  intros Hv. induction Hv as [v _ IH]. intros (w & Hvw & Hw)%tc_last.
  apply (IH w Hw). exact (tc_rtc_r _ _ _ (tc_once _ _ _ Hw) Hvw).
Qed.
End denotes.

(** * What the parser uses up *)

Record usage := { us_nodes : Z; us_properties : Z; us_enums : Z; us_values : Z }.

Definition no_usage : usage := {| us_nodes := 0; us_properties := 0; us_enums := 0; us_values := 0 |}.
Definition uses_values (n : Z) : usage :=
  {| us_nodes := 0; us_properties := 0; us_enums := 0; us_values := n |}.
Definition uses_enums (n : Z) : usage :=
  {| us_nodes := 0; us_properties := 0; us_enums := n; us_values := 0 |}.
Definition uses_properties (n : Z) : usage :=
  {| us_nodes := 0; us_properties := n; us_enums := 0; us_values := 0 |}.
Definition one_node : usage :=
  {| us_nodes := 1; us_properties := 0; us_enums := 0; us_values := 0 |}.

Definition plus (u w : usage) : usage := {|
  us_nodes := us_nodes u + us_nodes w; us_properties := us_properties u + us_properties w;
  us_enums := us_enums u + us_enums w; us_values := us_values u + us_values w |}.

Definition sum (l : list usage) : usage := foldr plus no_usage l.

Definition non_negative (u : usage) : Prop :=
  (0 ≤ us_nodes u ∧ 0 ≤ us_properties u ∧ 0 ≤ us_enums u ∧ 0 ≤ us_values u)%Z.

Definition add (st : CommandInputSchemaParseState) (u : usage) : CommandInputSchemaParseState := {|
  ps_schemaAncestors := ps_schemaAncestors st;
  ps_schemaNodes := ps_schemaNodes st + us_nodes u;
  ps_properties := ps_properties st + us_properties u;
  ps_enumValues := ps_enumValues st + us_enums u;
  ps_valueNodes := ps_valueNodes st + us_values u |}.

(** The counts are within the limits. *)
Definition fits (limits : AppCommandInputSchemaLimits) (st : CommandInputSchemaParseState) : Prop :=
  (ps_schemaNodes st ≤ limits maxSchemaNodes ∧ ps_properties st ≤ limits maxProperties ∧
   ps_enumValues st ≤ limits maxEnumValuesTotal ∧ ps_valueNodes st ≤ limits maxValueNodes)%Z.

Lemma add_none st : add st no_usage = st.
Proof. destruct st. unfold add. simpl. f_equal; lia. Qed.

Lemma add_add st u w : add (add st u) w = add st (plus u w).
Proof. unfold add. simpl. f_equal; lia. Qed.

Lemma fits_add limits st u : non_negative u → fits limits (add st u) → fits limits st.
Proof. unfold non_negative, fits. simpl. lia. Qed.

Lemma non_negative_plus u w : non_negative u → non_negative w → non_negative (plus u w).
Proof. unfold non_negative. simpl. lia. Qed.

Lemma non_negative_sum l : Forall non_negative l → non_negative (sum l).
Proof.
  induction 1 as [|u l Hu _ IH]; simpl; [unfold non_negative; simpl; lia|].
  by apply non_negative_plus.
Qed.

(** * Well-formed values and schemas *)

Fixpoint json_count (j : app_json) : Z :=
  match j with
  | AppArr values => 1 + zsum (json_count <$> values)
  | AppObj fields => 1 + zsum ((fun field => json_count field.2) <$> fields)
  | _ => 1
  end%Z.

(** Keys in the order of [sort], each once. *)
Definition sorted_keys {A} (fields : list (jstr * A)) : Prop :=
  NoDup fields.*1 ∧ StronglySorted (cmp_le js_order) fields.*1.

Section spec.
Context (limits : AppCommandInputSchemaLimits).

Definition key_ok (key : jstr) : Prop := (len key ≤ limits maxPropertyNameLength)%Z.

(** A value that a default may hold at a depth, with its keys in order. *)
Fixpoint value_ok (depth : Z) (j : app_json) : Prop :=
  (depth ≤ limits maxValueDepth)%Z ∧
  match j with
  | AppArr values => (len values ≤ limits maxCollectionBound)%Z ∧
      foldr (fun j rest => value_ok (depth + 1) j ∧ rest) True values
  | AppObj fields => (len fields ≤ limits maxCollectionBound)%Z ∧ sorted_keys fields ∧
      foldr (fun '(key, j) rest => (key_ok key ∧ value_ok (depth + 1) j) ∧ rest) True fields
  | _ => True
  end.

Lemma value_ok_array depth values :
  value_ok depth (AppArr values) ↔ (depth ≤ limits maxValueDepth)%Z ∧
    (len values ≤ limits maxCollectionBound)%Z ∧ Forall (value_ok (depth + 1)) values.
Proof.
  simpl. do 2 f_equiv. generalize (depth + 1)%Z as d. intros d.
  induction values as [|j values IH]; simpl; [split; constructor|]. by rewrite Forall_cons, IH.
Qed.

Lemma value_ok_object depth fields :
  value_ok depth (AppObj fields) ↔ (depth ≤ limits maxValueDepth)%Z ∧
    (len fields ≤ limits maxCollectionBound)%Z ∧ sorted_keys fields ∧
    Forall (fun '(key, j) => key_ok key ∧ value_ok (depth + 1) j) fields.
Proof.
  simpl. do 3 f_equiv. generalize (depth + 1)%Z as d. intros d.
  induction fields as [|[k j] fields IH]; simpl; [split; constructor|]. by rewrite Forall_cons, IH.
Qed.

Lemma value_ok_depth depth j : value_ok depth j → (depth ≤ limits maxValueDepth)%Z.
Proof. destruct j; simpl; tauto. Qed.
End spec.

Lemma json_count_pos j : (0 < json_count j)%Z.
Proof.
  induction j as [|b|x|s|js IH|fields IH] using app_json_nested_ind; simpl; try lia.
  - enough (0 ≤ zsum (json_count <$> js))%Z by lia. apply zsum_nonneg, Forall_fmap.
    eapply Forall_impl; [done|]. simpl. lia.
  - enough (0 ≤ zsum ((fun field => json_count field.2) <$> fields))%Z by lia.
    apply zsum_nonneg, Forall_fmap. eapply Forall_impl; [done|]. intros [k j]. simpl. lia.
Qed.

(** * Reading fields *)

Definition defined_record (record : list (jstr * jsval)) : Prop :=
  ∀ key, jget key record ≠ Some VUndefined.

Lemma field_None record key : defined_record record → field key record = VUndefined ↔ jget key record = None.
Proof.
  intros Hd. unfold field. specialize (Hd key). destruct (jget key record); simpl; naive_solver.
Qed.

Lemma rejectUndefinedValues_iff record path :
  rejectUndefinedValues record path = Ok tt ↔ defined_record record.
Proof.
  unfold rejectUndefinedValues. rewrite foldM_check, Forall_forall.
  setoid_rewrite guard_throw_Ok. setoid_rewrite bool_decide_eq_false. unfold defined_record, field. split.
  - intros H key Hk. apply (H key); [|by rewrite Hk]. apply jget_is_Some. by rewrite Hk.
  - intros H key Hk. apply jget_is_Some in Hk as [v Hv]. rewrite Hv. simpl. intros ->. by apply (H key).
Qed.

Lemma rejectUnknownKeys_iff record allowed path :
  rejectUnknownKeys record allowed path = Ok tt ↔ record.*1 ⊆ allowed.
Proof.
  unfold rejectUnknownKeys. rewrite foldM_check, Forall_forall.
  setoid_rewrite guard_throw_Ok. setoid_rewrite bool_decide_eq_false. split; intros H key Hk.
  - by apply dec_stable, H.
  - intros Hn. by apply Hn, H.
Qed.

Section fields.
Context (h : heap) (record : list (jstr * jsval)) (Hd : defined_record record).

Ltac read_field key :=
  let Hk := fresh "Hk" in
  unfold field, field_is; destruct (jget key record) as [v|] eqn:Hk; simpl;
  [destruct v; try by destruct (Hd key Hk)|].

Lemma readOptionalString_iff key path maximum o :
  readOptionalString record key path maximum = Ok o ↔
  field_is h record key (AppStr <$> o) ∧ (∀ s, o = Some s → (len s ≤ maximum)%Z).
Proof.
  unfold readOptionalString. read_field key; try (destruct o; naive_solver).
  rewrite result_bind_Ok. setoid_rewrite guard_throw_Ok. setoid_rewrite bool_decide_eq_false.
  split.
  - intros (_ & Hl & [= <-]). simpl. split; [by eexists|]. intros s' [= <-]. lia.
  - destruct o as [s'|]; [|naive_solver]. simpl. intros [(v & [= <-] & [= ->]) Hl]. exists tt.
    split; [|done]. specialize (Hl _ eq_refl). lia.
Qed.

Lemma readOptionalBoolean_iff key path o :
  readOptionalBoolean record key path = Ok o ↔ field_is h record key (AppBool <$> o).
Proof.
  unfold readOptionalBoolean. read_field key; destruct o; simpl; naive_solver.
Qed.

Lemma readOptionalFiniteNumber_iff key path o :
  readOptionalFiniteNumber record key path = Ok o ↔ field_is h record key (AppNum <$> o).
Proof.
  unfold readOptionalFiniteNumber. read_field key; try (destruct o; naive_solver).
  rewrite result_bind_Ok. setoid_rewrite guard_throw_Ok. split.
  - intros (_ & Hf%negb_false_iff & [= <-]). simpl. by eexists.
  - destruct o as [y|]; [|naive_solver]. simpl. intros (v & [= <-] & [= ->] & Hf). exists tt.
    by rewrite Hf.
Qed.

(** An integer from zero to the bound. *)
Definition bounded (maximum : Z) (x : jsnum) : Prop :=
  ∃ n, num_integer x = Some n ∧ (0 ≤ n ≤ maximum)%Z.

Lemma bounded_finite maximum x : bounded maximum x → is_finite x = true.
Proof. intros (n & Hn & _). by destruct x. Qed.

Lemma readOptionalBoundedInteger_iff key path maximum o :
  readOptionalBoundedInteger record key path maximum = Ok o ↔
  field_is h record key (AppNum <$> o) ∧ (∀ x, o = Some x → bounded maximum x).
Proof.
  unfold readOptionalBoundedInteger. read_field key; try (destruct o; naive_solver). split.
  - destruct (num_integer x) as [n|] eqn:Hn; [|done]. intros H. inv_result.
    repeat match goal with H : bool_decide _ = false |- _ => apply bool_decide_eq_false in H end.
    assert (bounded maximum x) as Hb by (exists n; split; [done|lia]).
    simpl. split; [|by intros ? [= <-]]. eexists. split; [done|]. split; [done|].
    by eapply bounded_finite.
  - destruct o as [y|]; [|naive_solver]. simpl. intros [(v & [= <-] & [= ->] & _) Hb].
    destruct (Hb _ eq_refl) as (n & -> & Hn).
    rewrite !bool_decide_eq_false_2 by lia. done.
Qed.
End fields.

(** * Loops that use up what they read *)

Section loops.
Context (limits : AppCommandInputSchemaLimits).

Lemma mapM_sound {A B C} (f : A → M C) (P : A → B → Prop) (g : B → C) (use : B → usage) l st st' out :
  (∀ x st st' z, f x st = (st', Ok z) → x ∈ l → fits limits st →
     ∃ y, z = g y ∧ P x y ∧ st' = add st (use y) ∧ fits limits st') →
  mapM f l st = (st', Ok out) → fits limits st →
  ∃ ys, out = g <$> ys ∧ Forall2 P l ys ∧ st' = add st (sum (use <$> ys)) ∧ fits limits st'.
Proof.
  intros Hf. revert st st' out. induction l as [|x l IH]; intros st st' out; simpl.
  - intros ? Hst. inv_state. exists []. rewrite add_none. split_and!; auto.
  - intros ? Hst. inv_state. match goal with H : f x st = _ |- _ =>
      destruct (Hf _ _ _ _ H ltac:(left) Hst) as (y & -> & Hy & -> & Hfit) end.
    match goal with H : mapM f l _ = _ |- _ =>
      destruct (IH (fun _ _ _ _ H1 H2 => Hf _ _ _ _ H1 (list_elem_of_further _ _ _ H2)) _ _ _ H Hfit)
        as (ys & -> & Hys & -> & Hfit') end.
    exists (y :: ys). rewrite add_add in *. split_and!; auto.
Qed.

Lemma mapM_complete {A B C} (f : A → M C) (P : A → B → Prop) (g : B → C) (use : B → usage) l ys st :
  (∀ x y st', P x y → ps_schemaAncestors st' = ps_schemaAncestors st → fits limits (add st' (use y)) →
     f x st' = (add st' (use y), Ok (g y))) →
  (∀ y, non_negative (use y)) → Forall2 P l ys → fits limits (add st (sum (use <$> ys))) →
  mapM f l st = (add st (sum (use <$> ys)), Ok (g <$> ys)).
Proof.
  intros Hf Hpos Hl. assert (∀ st', ps_schemaAncestors st' = ps_schemaAncestors st →
    fits limits (add st' (sum (use <$> ys))) →
    mapM f l st' = (add st' (sum (use <$> ys)), Ok (g <$> ys))) as H; [|by apply H].
  induction Hl as [|x y l ys Hxy Hl IH]; intros st' Ha Hfit; simpl in *.
  - by rewrite add_none.
  - rewrite <-add_add in Hfit. erewrite bindM_eq by (apply Hf; [done..|];
      eapply fits_add; [|done]; apply non_negative_sum, Forall_fmap, Forall_true; intros; apply Hpos).
    erewrite bindM_eq by (apply IH; [done|done]). by rewrite add_add.
Qed.
End loops.

Lemma imap_pair_snd {A} (l : list A) : snd <$> imap pair l = l.
Proof.
  apply list_eq. intros i. rewrite list_lookup_fmap, list_lookup_imap. by destruct (l !! i).
Qed.

Lemma Forall2_imap_pair {A B} (P : A → B → Prop) (l : list A) (k : list B) :
  Forall2 (fun x y => P x.2 y) (imap pair l) k ↔ Forall2 P l k.
Proof. rewrite <-(imap_pair_snd l) at 2. by rewrite Forall2_fmap_l. Qed.

Lemma sum_values {A} (f : A → Z) (l : list A) :
  sum ((fun x => uses_values (f x)) <$> l) = uses_values (zsum (f <$> l)).
Proof.
  induction l as [|x l IH]; [done|]. rewrite !fmap_cons. unfold sum in *. simpl. by rewrite IH.
Qed.

Lemma values_non_negative n : (0 ≤ n)%Z → non_negative (uses_values n).
Proof. intros Hn. unfold non_negative. simpl. lia. Qed.

(** * Cloning a default *)

Lemma count_value_run st :
  count_value st = (add st (uses_values 1), Ok (ps_valueNodes st + 1)%Z).
Proof.
  unfold count_value, add, mbind, stM_bind, getM, modifyM, mret, stM_ret. simpl.
  do 2 f_equal; lia.
Qed.

Section reading.
Context (h : heap) (Hh : heap_ok h).

Lemma plain_record_keys v record : plain_record h v record → NoDup record.*1.
Proof.
  intros (l & o & _ & Hl & _ & _ & Ho). destruct (heap_ok_lookup _ _ _ Hh Hl) as [Hnd _].
  rewrite Ho, data_own_keys in Hnd. by eapply NoDup_fmap_1.
Qed.

Lemma plain_record_ref v record :
  plain_record h v record → ∃ l o, v = VRef l ∧ jget l h = Some o ∧ o_length o = None.
Proof. intros (l & o & ? & ? & ? & _). eauto. Qed.

Lemma plain_array_ref v values :
  plain_array h v values → ∃ l o, v = VRef l ∧ jget l h = Some o ∧ is_Some (o_length o).
Proof. intros (l & o & ? & ? & ? & _). eauto 7. Qed.

(** A record whose sorted keys give the fields. *)
Lemma denotes_sorted v record fields :
  plain_record h v record →
  Forall2 (fun key field => field.1 = key ∧ denotes h field.2 (CommandSchema.field key record))
    (sort_strings record.*1) fields →
  denotes h (AppObj fields) v ∧ sorted_keys fields.
Proof.
  intros Hr Hf. assert (fields.*1 = sort_strings record.*1) as Hkeys.
  { revert Hf. generalize (sort_strings record.*1) as ks. clear. intros ks Hf. induction Hf as [|key [k j] keys fields [Hk _] _ IH]; [done|]. rewrite fmap_cons, IH. simpl in Hk. by rewrite Hk. }
  pose proof (plain_record_keys _ _ Hr) as Hnd.
  assert (record.*1 ≡ₚ fields.*1) as Hp by (rewrite Hkeys; symmetry; apply js_sort_perm).
  split.
  - apply denotes_object. exists record. split; [done|]. split; [by rewrite <-Hp|]. split; [done|].
    apply Forall_forall. intros [k j] Hin. apply list_elem_of_lookup in Hin as [i Hi].
    destruct (Forall2_lookup_r _ _ _ _ _ Hf Hi) as (key & Hkey & <- & Hdj). simpl in *.
    assert (k ∈ record.*1) as Hk.
    { rewrite Hp. apply list_elem_of_fmap. exists (k, j). split; [done|].
      by eapply list_elem_of_lookup_2. }
    apply jget_is_Some in Hk as [value Hv]. exists value. split; [done|].
    unfold field in Hdj. by rewrite Hv in Hdj.
  - split; [by rewrite <-Hp|]. rewrite Hkeys. apply js_sort_sorted, _.
Qed.

Lemma sorted_denotes v fields :
  denotes h (AppObj fields) v → sorted_keys fields →
  ∃ record, plain_record h v record ∧
    Forall2 (fun key field => field.1 = key ∧ denotes h field.2 (CommandSchema.field key record) ∧
      child h (CommandSchema.field key record) v)
    (sort_strings record.*1) fields.
Proof.
  intros (record & Hr & _ & Hp & Hf)%denotes_object [_ Hs]. exists record. split; [done|].
  rewrite (sort_strings_perm _ _ Hp).
  assert (sort_strings fields.*1 = fields.*1) as -> by (by apply js_sort_sorted_id).
  apply Forall2_fmap_l, Forall_Forall2_diag. apply Forall_forall. intros [k j] Hin.
  rewrite Forall_forall in Hf. destruct (Hf _ Hin) as (value & Hv & Hd). simpl.
  unfold field. rewrite Hv. simpl. split_and!; [done|done|]. by eapply field_child.
Qed.
End reading.

Section clone.
Context (h : heap) (Hh : heap_ok h) (limits : AppCommandInputSchemaLimits).
#[local] Abbreviation clone := (cloneCommandInputJsonValue h limits).

Lemma fits_value st :
  fits limits st → bool_decide (limits maxValueNodes < ps_valueNodes st + 1)%Z = false →
  fits limits (add st (uses_values 1)).
Proof. unfold fits. simpl. rewrite bool_decide_eq_false. lia. Qed.

Lemma clone_sound fuel v path depth ancestors st st' j :
  clone fuel v path depth ancestors st = (st', Ok j) → fits limits st →
  denotes h j v ∧ value_ok limits depth j ∧ st' = add st (uses_values (json_count j)) ∧ fits limits st'.
Proof.
  revert v path depth ancestors st st' j.
  induction fuel as [|fuel IH]; intros v path depth ancestors st st' j; [done|].
  intros H Hst. cbn [cloneCommandInputJsonValue] in H. inv_state.
  match goal with H : count_value _ = _ |- _ => rewrite count_value_run in H; injection H as <- <- end.
  match goal with H : bool_decide (limits maxValueNodes < _)%Z = false |- _ =>
    pose proof (fits_value _ Hst H) as Hst1 end.
  match goal with H : bool_decide (limits maxValueDepth < _)%Z = false |- _ =>
    apply bool_decide_eq_false in H as Hdepth end.
  destruct v as [| |b|x|s| |l]; try done; inv_state; try (split_and!; done || (simpl; lia)).
  - match goal with H : negb _ = false |- _ => apply negb_false_iff in H end.
    split_and!; done || (simpl; lia).
  - destruct (jget l h) as [o|] eqn:Hl; [|done].
    destruct (bool_decide (is_Some (o_length o))) eqn:Harr; inv_state.
    + match goal with H : readPlainDataArray _ _ _ = _ |- _ => apply plain_array_inv in H as Ha; [|done] end.
      match goal with H : bool_decide (limits maxCollectionBound < _)%Z = false |- _ =>
        apply bool_decide_eq_false in H as Hlen end.
      match goal with H : mapM _ _ _ = _ |- _ =>
        apply (mapM_sound limits _
          (fun x j => denotes h j x.2 ∧ value_ok limits (depth + 1) j) id
          (fun j => uses_values (json_count j))) in H as (js & -> & Hjs & -> & Hfit); [|clear H|done] end.
      2:{ intros [i x] st0 st1 z Hz _ Hst0. destruct (IH _ _ _ _ _ _ _ Hz Hst0) as (? & ? & ? & ?). eauto 6. }
      apply (Forall2_imap_pair (fun x j => denotes h j x ∧ value_ok limits (depth + 1) j)) in Hjs.
      rewrite sum_values, add_add in *. rewrite list_fmap_id.
      split; [apply denotes_array; eexists; split; [done|]; apply Forall2_flip;
              eapply Forall2_impl; [done|]; by intros ? ? [? _]|].
      split; [|done]. apply value_ok_array. split_and!; [lia| |].
      * unfold len in *. rewrite <-(Forall2_length _ _ _ Hjs). lia.
      * eapply Forall2_Forall_r; [done|]. apply Forall_true. by intros ? ? [_ ?].
    + match goal with H : readPlainDataRecord _ _ _ = _ |- _ => apply plain_record_inv in H as Hr; [|done] end.
      match goal with H : bool_decide (limits maxCollectionBound < _)%Z = false |- _ =>
        apply bool_decide_eq_false in H as Hlen end.
      match goal with Hr : plain_record _ _ ?r, H : mapM _ _ _ = _ |- _ =>
        apply (mapM_sound limits _
          (fun key f => (f.1 = key ∧ denotes h f.2 (field key r)) ∧
             key_ok limits f.1 ∧ value_ok limits (depth + 1) f.2) id
          (fun f => uses_values (json_count f.2))) in H as (fields & -> & Hfs & -> & Hfit); [|clear H|done] end.
      2:{ intros key st0 st1 z Hz _ Hst0. inv_state.
          match goal with H : clone _ _ _ _ _ _ = (_, Ok ?j) |- _ =>
            destruct (IH _ _ _ _ _ _ _ H Hst0) as (? & ? & ? & ?); exists (key, j) end.
          match goal with H : bool_decide _ = false |- _ => apply bool_decide_eq_false in H end.
          simpl. unfold key_ok. split_and!; try done. lia. }
      destruct (denotes_sorted h Hh _ _ fields Hr) as [Hden Hsorted].
      { eapply Forall2_impl; [done|]. by intros ? ? [? _]. }
      rewrite sum_values, add_add in *. rewrite list_fmap_id.
      split; [done|]. split; [|done]. apply value_ok_object. split_and!; [lia| |done|].
      * unfold len in *. rewrite <-(Forall2_length _ _ _ Hfs). lia.
      * eapply Forall2_Forall_r; [done|]. apply Forall_true. intros ? [k j]. simpl. tauto.
Qed.

Lemma not_ancestor v l (ancestors : list loc) j :
  denotes h j (VRef l) → v = VRef l → (∀ a, a ∈ ancestors → tc (child h) v (VRef a)) → l ∉ ancestors.
Proof. intros Hd -> Ha Hin. by apply (Acc_no_cycle h (VRef l) (denotes_Acc h j _ Hd)), Ha. Qed.

Lemma below_ancestors v w l (ancestors : list loc) :
  child h w v → v = VRef l → (∀ a, a ∈ ancestors → tc (child h) v (VRef a)) →
  ∀ a, a ∈ l :: ancestors → tc (child h) w (VRef a).
Proof.
  intros Hw -> Ha a [->|Hin]%elem_of_cons; [by apply tc_once|].
  eapply tc_l; [done|by apply Ha].
Qed.

Lemma clone_complete fuel v path depth ancestors st j :
  (limits maxValueDepth + 1 ≤ Z.of_nat fuel + depth)%Z →
  denotes h j v → value_ok limits depth j →
  (∀ a, a ∈ ancestors → tc (child h) v (VRef a)) →
  fits limits (add st (uses_values (json_count j))) →
  clone fuel v path depth ancestors st = (add st (uses_values (json_count j)), Ok j).
Proof.
  revert v path depth ancestors st j.
  induction fuel as [|fuel IH]; intros v path depth ancestors st j Hfuel Hj Hok Hanc Hfit;
    pose proof (value_ok_depth _ _ _ Hok) as Hdepth; [lia|].
  pose proof (json_count_pos j) as Hpos.
  cbn [cloneCommandInputJsonValue]. erewrite bindM_eq by apply count_value_run.
  rewrite bindM_guard by (apply bool_decide_eq_false; unfold fits in Hfit; simpl in Hfit; lia).
  rewrite bindM_guard by (apply bool_decide_eq_false; lia).
  destruct j as [|b|x|s|js|fields].
  - by rewrite Hj.
  - by rewrite Hj.
  - destruct Hj as [-> Hx]. rewrite bindM_guard by by rewrite Hx. done.
  - by rewrite Hj.
  - apply denotes_array in Hj as Ha. destruct Ha as (values & Ha & Hvs).
    destruct (plain_array_ref h _ _ Ha) as (l & o & Hv & Hl & Hlen). subst v. rewrite Hl.
    rewrite bool_decide_eq_true_2 by done.
    apply value_ok_array in Hok as (_ & Hbound & Hok).
    erewrite bindM_lift by (apply plain_array_inv; [done|]; exact Ha).
    rewrite bindM_guard by (apply bool_decide_eq_false; by eapply not_ancestor).
    rewrite bindM_guard by (apply bool_decide_eq_false; unfold len in *;
      rewrite <-(Forall2_length _ _ _ Hvs); lia).
    erewrite bindM_eq.
    2:{ apply (mapM_complete limits _
          (fun x j => denotes h j x.2 ∧ value_ok limits (depth + 1) j ∧ child h x.2 (VRef l)) id
          (fun j => uses_values (json_count j)) _ js).
        - intros [i x] j st' (Hd & Hj' & Hc) _ Hfit'. apply IH; [lia|done|done| |done].
          by eapply below_ancestors.
        - intros j'. apply values_non_negative. pose proof (json_count_pos j'). lia.
        - apply (Forall2_imap_pair (fun x j => denotes h j x ∧ value_ok limits (depth + 1) j ∧ child h x (VRef l))).
          apply Forall2_same_length_lookup_2; [by rewrite (Forall2_length _ _ _ Hvs)|].
          intros i x j Hx Hj'. split_and!.
          + by eapply Forall2_lookup_lr.
          + by eapply Forall_lookup_1.
          + eapply item_child; [done|]. by eapply list_elem_of_lookup_2.
        - rewrite sum_values, add_add. exact Hfit. }
    rewrite sum_values, add_add, list_fmap_id. done.
  - destruct (sorted_denotes h v fields Hj) as (record & Hr & Hfs).
    { by apply value_ok_object in Hok as (_ & _ & ? & _). }
    destruct (plain_record_ref h _ _ Hr) as (l & o & Hv & Hl & Hlen). subst v. rewrite Hl.
    rewrite bool_decide_eq_false_2 by (by rewrite Hlen; intros [? ?]).
    apply value_ok_object in Hok as (_ & Hbound & _ & Hok).
    rewrite bindM_guard by (apply bool_decide_eq_false; by eapply not_ancestor).
    erewrite bindM_lift by (apply plain_record_inv; [done|]; exact Hr). cbv zeta.
    rewrite bindM_guard by (apply bool_decide_eq_false; unfold len in *;
      rewrite (Forall2_length _ _ _ Hfs); lia).
    erewrite bindM_eq.
    2:{ apply (mapM_complete limits _
          (fun key f => (f.1 = key ∧ denotes h f.2 (field key record) ∧ child h (field key record) (VRef l)) ∧
             key_ok limits f.1 ∧ value_ok limits (depth + 1) f.2) id
          (fun f => uses_values (json_count f.2)) _ fields).
        - intros key [k j] st' [(Hkey & Hd & Hc) [Hk Hj']] _ Hfit'. simpl in *. subst key.
          rewrite bindM_guard by (apply bool_decide_eq_false; unfold key_ok in Hk; lia).
          erewrite bindM_eq by (apply IH; [lia|done|done|by eapply below_ancestors|done]). done.
        - intros f. apply values_non_negative. pose proof (json_count_pos f.2). lia.
        - apply Forall2_same_length_lookup_2; [by rewrite (Forall2_length _ _ _ Hfs)|].
          intros i key f Hkey Hf. split; [exact (Forall2_lookup_lr _ _ _ _ _ _ Hfs Hkey Hf)|].
          pose proof (Forall_lookup_1 _ _ _ _ Hok Hf) as Hf'. by destruct f.
        - rewrite sum_values, add_add. exact Hfit. }
    rewrite sum_values, add_add, list_fmap_id. done.
Qed.
End clone.

(** * Reading the fields of a schema *)

Lemma field_cases record key :
  defined_record record →
  (field key record = VUndefined ∧ jget key record = None) ∨
  (field key record ≠ VUndefined ∧ jget key record = Some (field key record)).
Proof.
  intros Hd. unfold field. specialize (Hd key). destruct (jget key record) as [v|]; simpl; [|by left].
  right. split; [|done]. congruence.
Qed.

Definition default_usage (default : option app_json) : usage :=
  match default with Some j => uses_values (json_count j) | None => no_usage end.

Definition enum_usage (enum : option (list app_json)) : usage :=
  match enum with Some values => uses_enums (len values) | None => no_usage end.

(** A scalar of a schema type. *)
Definition scalar_of (type : schema_type) (j : app_json) : bool :=
  match type, j with
  | TString, AppStr _ | TBoolean, AppBool _ => true
  | TNumber, AppNum x => is_finite x
  | TInteger, AppNum x => is_integer x
  | _, _ => false
  end.

Lemma is_integer_finite x : is_integer x = true → is_finite x = true.
Proof. unfold is_integer. rewrite bool_decide_eq_true. destruct x; simpl; try done; by intros [? ?]. Qed.

Section parts.
Context (h : heap) (Hh : heap_ok h) (limits : AppCommandInputSchemaLimits).
Context (number_text : jsnum → jstr).
Context (record : list (jstr * jsval)) (Hd : defined_record record).

Definition default_ok (type : schema_type) (default : option app_json) : Prop :=
  ∀ j, default = Some j → valid_default type j = true ∧ value_ok limits 1 j.

Definition enum_ok (type : schema_type) (enum : option (list app_json)) : Prop :=
  ∀ values, enum = Some values →
    values ≠ [] ∧ (len values ≤ limits maxEnumValuesPerNode)%Z ∧
    Forall (fun j => scalar_of type j = true) values ∧
    NoDup (scalarKey number_text <$> values).

Definition required_ok (properties : option (list (jstr * schema))) (required : option (list jstr))
    : Prop :=
  ∀ names, required = Some names →
    (len names ≤ limits maxRequiredNames)%Z ∧ Forall (key_ok limits) names ∧ NoDup names ∧
    Forall (fun name => known_property properties name = true) names.

Lemma parseSchemaDefault_iff path type st st' o :
  fits limits st →
  parseSchemaDefault h limits record path type st = (st', Ok o) ↔
  field_is h record (js "default") o ∧ default_ok type o ∧
  st' = add st (default_usage o) ∧ fits limits st'.
Proof.
  intros Hst. unfold parseSchemaDefault.
  destruct (field_cases record (js "default") Hd) as [[-> Hk]|[Hne Hk]]; cbv zeta;
    [rewrite decide_True by done|rewrite decide_False by done]; unfold field_is; rewrite Hk.
  - split.
    + intros ?. inv_state. simpl. rewrite add_none. split_and!; done.
    + intros (Ho & _ & -> & _). destruct o as [j|]; [naive_solver|]. simpl. by rewrite add_none.
  - split.
    + intros ?. inv_state. match goal with H : cloneCommandInputJsonValue _ _ _ _ _ _ _ _ = _ |- _ =>
        destruct (clone_sound h Hh limits _ _ _ _ _ _ _ _ H Hst) as (Hj & Hok & -> & Hfit) end.
      match goal with H : negb _ = false |- _ => apply negb_false_iff in H end.
      split_and!; try done; [by eexists|]. intros j [= <-]. done.
    + intros (Ho & Hok & -> & Hfit). destruct o as [j|]; [|done].
      destruct Ho as (v & [= <-] & Hj), (Hok j eq_refl) as [Hv Hvalue].
      erewrite bindM_eq.
      2:{ apply clone_complete; [done| |done|done|set_solver|done].
          unfold value_fuel. pose proof (value_ok_depth _ _ _ Hvalue). lia. }
      rewrite bindM_guard by by rewrite Hv. done.
Qed.

Lemma matchesScalarType_iff v type j :
  matchesScalarType v type = Some j ↔ denotes h j v ∧ scalar_of type j = true.
Proof.
  split.
  - destruct type, v; simpl; try done; try (by intros [= <-]).
    + destruct (is_finite x) eqn:Hx; [|done]. by intros [= <-].
    + destruct (is_integer x) eqn:Hx; [|done]. intros [= <-]. simpl.
      by rewrite Hx, (is_integer_finite x).
  - intros [Hj Hs]. destruct type, j; simpl in *; try done; destruct_and?; subst; simpl; by rewrite ?Hs.
Qed.

Lemma count_enum_run n st :
  count_enum n st = (add st (uses_enums n), Ok (ps_enumValues st + n)%Z).
Proof.
  unfold count_enum, add, mbind, stM_bind, getM, modifyM, mret, stM_ret. simpl.
  do 2 f_equal; lia.
Qed.

Lemma read_scalars_iff type path values out :
  read_scalars type path values = Ok out ↔
  Forall2 (denotes h) out values ∧ Forall (fun j => scalar_of type j = true) out.
Proof.
  unfold read_scalars.
  rewrite (mapM_index_Ok _ (fun v j => denotes h j v ∧ scalar_of type j = true)).
  - split.
    + intros H. split; [apply Forall2_flip; eapply Forall2_impl; [done|]; by intros ? ? [? _]|].
      eapply Forall2_Forall_r; [done|]. apply Forall_true. by intros ? ? [_ ?].
    + intros [H Hs]. apply Forall2_flip in H. apply Forall2_same_length_lookup_2.
      { by eapply Forall2_length. }
      intros i v j Hv Hj. split; [by eapply (Forall2_lookup_lr _ _ _ _ _ _ H)|].
      by eapply (Forall_lookup_1 _ _ _ _ Hs).
  - intros i v j. rewrite <-matchesScalarType_iff. destruct (matchesScalarType v type); naive_solver.
Qed.

Lemma parseScalarEnum_iff type path st st' o :
  fits limits st →
  parseScalarEnum h limits number_text (field (js "enum") record) type path st = (st', Ok o) ↔
  field_is h record (js "enum") (AppArr <$> o) ∧ enum_ok type o ∧
  st' = add st (enum_usage o) ∧ fits limits st'.
Proof.
  intros Hst. unfold parseScalarEnum.
  destruct (field_cases record (js "enum") Hd) as [[-> Hk]|[Hne Hk]];
    [rewrite decide_True by done|rewrite decide_False by done]; unfold field_is; rewrite Hk.
  - split.
    + intros ?. inv_state. simpl. rewrite add_none. split_and!; done.
    + intros (Ho & _ & -> & _). destruct o as [j|]; [naive_solver|]. simpl. by rewrite add_none.
  - split.
    + intros ?. inv_state. match goal with H : count_enum _ _ = _ |- _ =>
        rewrite count_enum_run in H; injection H as <- <- end.
      repeat match goal with H : bool_decide _ = false |- _ => apply bool_decide_eq_false in H end.
      match goal with H : read_scalars _ _ _ = _ |- _ => apply read_scalars_iff in H as [Hv Hs] end.
      match goal with H : readPlainDataArray _ _ _ = _ |- _ => apply plain_array_inv in H as Ha; [|done] end.
      match goal with H : ¬ (length (js_set _) ≠ _) |- _ =>
        apply dec_stable in H; rewrite <-(length_fmap (scalarKey number_text)) in H;
        apply length_js_set in H as Hnd end.
      pose proof (Forall2_length _ _ _ Hv) as Hlen. simpl. split_and!.
      * eexists. split; [done|]. apply denotes_array. eauto.
      * intros values [= <-]. split_and!; [|unfold len in *; lia|done|done].
        intros ->. destruct x0; [done|]. simpl in Hlen. lia.
      * f_equal. unfold len. by rewrite Hlen.
      * unfold fits in *. simpl. lia.
    + intros (Ho & Hok & -> & Hfit). destruct o as [values|]; [|done].
      destruct Ho as (v & [= <-] & (inputs & Ha & Hv)%denotes_array).
      destruct (Hok values eq_refl) as (Hnil & Hlen & Hs & Hnd).
      pose proof (Forall2_length _ _ _ Hv) as Hl.
      erewrite bindM_lift by (apply plain_array_inv; [done|exact Ha]).
      rewrite bindM_guard.
      2:{ apply bool_decide_eq_false. intros ->. by destruct values. }
      rewrite bindM_guard by (apply bool_decide_eq_false; unfold len in *; lia).
      erewrite bindM_eq by apply count_enum_run.
      rewrite bindM_guard.
      2:{ apply bool_decide_eq_false. unfold fits, len in Hfit. simpl in Hfit. unfold len in *. lia. }
      erewrite bindM_lift by (apply read_scalars_iff; split; done).
      rewrite bindM_guard.
      2:{ apply bool_decide_eq_false. intros H. apply H.
          rewrite <-(length_fmap (scalarKey number_text)). by apply length_js_set. }
      simpl. unfold len. by rewrite Hl.
Qed.
End parts.

Lemma field_is_defined h record key j : field_is h record key (Some j) → key ∈ record.*1.
Proof. intros (v & Hv & _). apply jget_is_Some. eauto. Qed.

Section record.
Context (h : heap) (Hh : heap_ok h) (limits : AppCommandInputSchemaLimits).
Context (record : list (jstr * jsval)).

(** The record has the fields and no others. *)
Definition record_is (entries : list (jstr * option app_json)) : Prop :=
  record.*1 ⊆ entries.*1 ∧ Forall (fun '(key, o) => field_is h record key o) entries.

Lemma record_is_defined entries : record_is entries → defined_record record.
Proof.
  intros [Hkeys Hf] key Hk. assert (key ∈ record.*1) as Hin by (apply jget_is_Some; eauto).
  apply Hkeys, list_elem_of_fmap in Hin as ([k o] & -> & Hin). rewrite Forall_forall in Hf.
  specialize (Hf _ Hin). simpl in *. destruct o as [j|]; simpl in Hf; [|congruence].
  destruct Hf as (v & Hv & Hj). rewrite Hk in Hv. injection Hv as <-.
  by apply denotes_defined in Hj.
Qed.

Lemma defined_fields_elem (entries : list (jstr * option app_json)) key j :
  (key, j) ∈ defined_fields entries ↔ (key, Some j) ∈ entries.
Proof.
  unfold defined_fields. rewrite list_elem_of_omap. split.
  - intros ([k o] & Hin & (j' & -> & [= -> ->])%fmap_Some). done.
  - intros Hin. by exists (key, Some j).
Qed.

Lemma defined_fields_sublist (entries : list (jstr * option app_json)) :
  (defined_fields entries).*1 `sublist_of` entries.*1.
Proof.
  induction entries as [|[k [j|]] entries IH]; simpl; [constructor|by constructor|by constructor].
Qed.

Lemma record_is_iff entries :
  NoDup entries.*1 → NoDup record.*1 →
  record_is entries ↔ NoDup (defined_fields entries).*1 ∧
    record.*1 ≡ₚ (defined_fields entries).*1 ∧
    Forall (fun '(key, j) => field_is h record key (Some j)) (defined_fields entries).
Proof.
  intros Hnd Hndr. unfold record_is.
  assert (NoDup (defined_fields entries).*1) as Hndd
    by (eapply sublist_NoDup; [exact Hnd|apply defined_fields_sublist]).
  split.
  - intros [Hkeys Hf]. rewrite Forall_forall in Hf. split_and!; [done| |].
    + apply NoDup_Permutation; [done..|]. intros k. split.
      * intros Hk. pose proof (Hkeys _ Hk) as Hin. apply list_elem_of_fmap in Hin as ([k' o] & -> & Hin).
        simpl in *. apply Hf in Hin as Ho. destruct o as [j|]; simpl in Ho.
        -- apply list_elem_of_fmap. exists (k', j). split; [done|]. by apply defined_fields_elem.
        -- apply jget_None in Ho. done.
      * intros ([k' j] & -> & Hin%defined_fields_elem)%list_elem_of_fmap.
        apply Hf in Hin. by apply field_is_defined in Hin.
    + apply Forall_forall. intros [k j] Hin%defined_fields_elem. by apply Hf in Hin.
  - intros (_ & Hp & Hf). split.
    + intros k Hk. rewrite Hp in Hk. by eapply elem_of_sublist; [|apply defined_fields_sublist].
    + apply Forall_forall. rewrite Forall_forall in Hf. intros [k [j|]] Hin.
      * by apply (Hf (k, j)), defined_fields_elem.
      * simpl. apply jget_None. rewrite Hp. intros ([k' j] & -> & Hj%defined_fields_elem)%list_elem_of_fmap.
        pose proof (NoDup_fmap_eq _ _ _ _ Hnd Hin Hj eq_refl). done.
Qed.
End record.

Lemma denotes_fields h (Hh : heap_ok h) v entries :
  NoDup entries.*1 →
  denotes h (AppObj (defined_fields entries)) v ↔
  ∃ record, plain_record h v record ∧ record_is h record entries.
Proof.
  intros Hnd. rewrite denotes_object. f_equiv. intros record. split.
  - intros [Hr H]. split; [done|]. apply record_is_iff; [done|by eapply plain_record_keys|done].
  - intros [Hr H]. split; [done|]. apply record_is_iff in H; [done|done|by eapply plain_record_keys].
Qed.

Section parts2.
Context (h : heap) (Hh : heap_ok h) (limits : AppCommandInputSchemaLimits).
Context (record : list (jstr * jsval)) (Hd : defined_record record).

Definition annotations_ok (annotations : AppCommandInputSchemaAnnotations) : Prop :=
  (∀ s, an_title annotations = Some s → (len s ≤ limits maxTitleLength)%Z) ∧
  (∀ s, an_description annotations = Some s → (len s ≤ limits maxDescriptionLength)%Z).

Definition names_json (names : list jstr) : app_json := AppArr (AppStr <$> names).

Lemma parseAnnotations_iff path annotations :
  parseAnnotations limits record path = Ok annotations ↔
  Forall (fun '(key, o) => field_is h record key o) (annotation_fields annotations) ∧
  annotations_ok annotations.
Proof.
  unfold parseAnnotations, annotation_fields, annotations_ok. rewrite !Forall_cons, Forall_nil. split.
  - intros H. inv_result. repeat match goal with H : readOptionalString _ _ _ _ = _ |- _ =>
      apply (readOptionalString_iff h) in H as [? ?]; [|done] end. by simpl.
  - intros [(Ht & Hs & _) [Ht' Hs']].
    rewrite (proj2 (readOptionalString_iff h _ Hd _ path _ _) (conj Ht Ht')). simpl.
    rewrite (proj2 (readOptionalString_iff h _ Hd _ path _ _) (conj Hs Hs')). simpl.
    by destruct annotations.
Qed.

Lemma read_names_iff path values names :
  read_names limits path values = Ok names ↔
  Forall2 (denotes h) (AppStr <$> names) values ∧ Forall (key_ok limits) names.
Proof.
  unfold read_names. rewrite (mapM_index_Ok _ (fun v name => v = VStr name ∧ key_ok limits name)).
  - rewrite Forall2_fmap_l. split.
    + intros H. split.
      * apply Forall2_flip. eapply Forall2_impl; [done|]. by intros ? ? [-> _].
      * eapply Forall2_Forall_r; [done|]. apply Forall_true. by intros ? ? [_ ?].
    + intros [H Hs]. apply Forall2_flip in H. apply Forall2_same_length_lookup_2.
      { by eapply Forall2_length. }
      intros i v name Hv Hn. split; [exact (Forall2_lookup_lr _ _ _ _ _ _ H Hv Hn)|].
      by eapply (Forall_lookup_1 _ _ _ _ Hs).
  - intros i v name. unfold key_ok. destruct v; try naive_solver. cbv zeta.
    rewrite result_bind_Ok. setoid_rewrite guard_throw_Ok. setoid_rewrite bool_decide_eq_false. split.
    + intros (_ & Hl & [= <-]). split; [done|]. lia.
    + intros [[= ->] Hl]. exists tt. split; [lia|done].
Qed.

Lemma parseRequired_iff properties path o :
  parseRequired h limits (field (js "required") record) properties path = Ok o ↔
  ∃ names, o = sort_strings <$> names ∧
    field_is h record (js "required") (names_json <$> names) ∧
    required_ok limits properties names.
Proof.
  unfold parseRequired.
  destruct (field_cases record (js "required") Hd) as [[-> Hk]|[Hne Hk]];
    [rewrite decide_True by done|rewrite decide_False by done]; unfold field_is; rewrite Hk.
  - split; [intros [= <-]; by exists None|]. intros ([names|] & -> & Hf & _); [naive_solver|done].
  - cbv zeta. split.
    + intros H. inv_result. repeat match goal with H : bool_decide _ = false |- _ =>
        apply bool_decide_eq_false in H end.
      match goal with H : readPlainDataArray _ _ _ = _ |- _ => apply plain_array_inv in H as Ha; [|done] end.
      match goal with H : read_names _ _ _ = _ |- _ => apply read_names_iff in H as [Hv Hs] end.
      match goal with H : foldM _ _ _ = _ |- _ => apply foldM_check in H as Hknown end.
      match goal with H : ¬ (length (js_set _) ≠ _) |- _ =>
        apply dec_stable, length_js_set in H as Hnd end.
      match goal with H : Forall (key_ok limits) ?names |- _ => exists (Some names) end.
      pose proof (Forall2_length _ _ _ Hv) as Hlen. rewrite length_fmap in Hlen. split_and!.
      * done.
      * simpl. eexists. split; [done|]. apply denotes_array. eauto.
      * intros ? [= <-]. split_and!; [unfold len in *; lia|done|done|].
        eapply Forall_impl; [exact Hknown|]. simpl.
        intros name Hn%guard_throw_Ok. by apply negb_false_iff.
    + intros ([names|] & -> & Hf & Hok); [|done]. destruct Hf as (v & [= <-] & (inputs & Ha & Hv)%denotes_array).
      destruct (Hok names eq_refl) as (Hlen & Hs & Hnd & Hknown).
      pose proof (Forall2_length _ _ _ Hv) as Hl. rewrite length_fmap in Hl.
      rewrite (proj2 (plain_array_inv h Hh _ _ _) Ha). simpl.
      rewrite bool_decide_eq_false_2 by (unfold len in *; lia). simpl.
      rewrite (proj2 (read_names_iff _ _ _) (conj Hv Hs)). simpl.
      rewrite bool_decide_eq_false_2 by (intros H; apply H; by apply length_js_set). simpl.
      rewrite (proj2 (foldM_check _ _)); [done|]. eapply Forall_impl; [exact Hknown|].
      intros name Hn. simpl. by rewrite Hn.
Qed.

Definition dialect_json (dialect : bool) : option app_json :=
  if dialect then Some (AppStr APP_COMMAND_INPUT_SCHEMA_DRAFT_2020_12) else None.

Lemma parse_dialect_iff path root dialect :
  (root = false → jget (js "$schema") record = None) →
  parse_dialect record path root = Ok dialect ↔
  field_is h record (js "$schema") (dialect_json dialect) ∧ (dialect = true → root = true).
Proof.
  intros Hroot. unfold parse_dialect, dialect_json. destruct root.
  - destruct (field_cases record (js "$schema") Hd) as [[E Hk]|[Hne Hk]]; cbv zeta;
      [rewrite decide_True by done|rewrite decide_False by done]; unfold field_is; rewrite Hk.
    + destruct dialect; naive_solver.
    + rewrite result_bind_Ok. setoid_rewrite guard_throw_Ok. setoid_rewrite bool_decide_eq_false. split.
      * intros (_ & H%dec_stable & [= <-]). split; [|done]. simpl. eauto.
      * intros [Hf _]. destruct dialect; [|done]. destruct Hf as (v & [= <-] & Hv).
        exists tt. split; [|done]. intros H. by apply H.
  - unfold field_is. destruct dialect; [naive_solver|]. rewrite Hroot by done. naive_solver.
Qed.
End parts2.

(** * Well-formed schemas *)

(** What a schema uses up: its nodes, properties, enum values and values of defaults. *)
Fixpoint usage_of (s : schema) : usage :=
  plus one_node match s with
  | ObjectSchema _ _ properties _ _ _ _ default =>
      plus match properties with
        | Some properties => plus (uses_properties (len properties))
            (sum ((fun property => usage_of property.2) <$> properties))
        | None => no_usage
        end (default_usage default)
  | StringSchema _ enum _ _ default | NumberSchema _ _ enum _ _ _ _ default
  | BooleanSchema _ enum default => plus (enum_usage enum) (default_usage default)
  | ArraySchema _ items _ _ _ default => plus (usage_of items) (default_usage default)
  end.

(** The schema with its lists of required names in order. *)
Fixpoint sort_required (s : schema) : schema :=
  match s with
  | ObjectSchema dialect annotations properties required additional minimum maximum default =>
      ObjectSchema dialect annotations
        match properties with
        | Some properties => Some ((fun property => (property.1, sort_required property.2)) <$> properties)
        | None => None
        end
        (sort_strings <$> required) additional minimum maximum default
  | ArraySchema annotations items minItems maxItems uniqueItems default =>
      ArraySchema annotations (sort_required items) minItems maxItems uniqueItems default
  | s => s
  end.

Definition annotations_of (s : schema) : AppCommandInputSchemaAnnotations :=
  match s with
  | ObjectSchema _ annotations _ _ _ _ _ _ | StringSchema annotations _ _ _ _
  | NumberSchema _ annotations _ _ _ _ _ _ | BooleanSchema annotations _ _
  | ArraySchema annotations _ _ _ _ _ => annotations
  end.

(** Two optional bounds, in order. *)
Definition bounds_ok (maximum : Z) (low high : option jsnum) : Prop :=
  (∀ x, low = Some x → bounded maximum x) ∧ (∀ x, high = Some x → bounded maximum x) ∧
  out_of_order low high = false.

Section node_ok.
Context (limits : AppCommandInputSchemaLimits) (number_text : jsnum → jstr).

Definition string_ok (enum : option (list app_json)) (minLength maxLength : option jsnum)
    (default : option app_json) : Prop :=
  enum_ok limits number_text TString enum ∧ bounds_ok (limits maxStringLengthBound) minLength maxLength ∧
  default_ok limits TString default ∧ outside_enum default enum = false.

Definition number_ok (integer : bool) (enum : option (list app_json))
    (minimum maximum exclusiveMinimum exclusiveMaximum : option jsnum)
    (default : option app_json) : Prop :=
  let type := if integer then TInteger else TNumber in
  enum_ok limits number_text type enum ∧
  out_of_order minimum maximum = false ∧ out_of_order exclusiveMinimum exclusiveMaximum = false ∧
  default_ok limits type default ∧ outside_enum default enum = false.

Definition boolean_ok (enum : option (list app_json)) (default : option app_json) : Prop :=
  enum_ok limits number_text TBoolean enum ∧ default_ok limits TBoolean default ∧
  outside_enum default enum = false.

(** A schema at a depth; only the root has a [$schema]. *)
Fixpoint node_ok (depth : Z) (root : bool) (s : schema) : Prop :=
  (depth ≤ limits maxSchemaDepth)%Z ∧ (root = true → is_object_schema s = true) ∧
  annotations_ok limits (annotations_of s) ∧
  match s with
  | ObjectSchema dialect _ properties required _ minimum maximum default =>
      (dialect = true → root = true) ∧
      match properties with
      | Some properties => sorted_keys properties ∧
          foldr (fun property rest =>
            (key_ok limits property.1 ∧ node_ok (depth + 1) false property.2) ∧ rest)
            True properties
      | None => True
      end ∧
      required_ok limits properties required ∧
      bounds_ok (limits maxCollectionBound) minimum maximum ∧
      default_ok limits TObject default
  | StringSchema _ enum minLength maxLength default => string_ok enum minLength maxLength default
  | NumberSchema integer _ enum minimum maximum exclusiveMinimum exclusiveMaximum default =>
      number_ok integer enum minimum maximum exclusiveMinimum exclusiveMaximum default
  | BooleanSchema _ enum default => boolean_ok enum default
  | ArraySchema _ items minItems maxItems _ default =>
      node_ok (depth + 1) false items ∧
      bounds_ok (limits maxCollectionBound) minItems maxItems ∧ default_ok limits TArray default
  end.

Lemma properties_ok_iff depth (properties : list (jstr * schema)) :
  foldr (fun property rest =>
    (key_ok limits property.1 ∧ node_ok depth false property.2) ∧ rest) True properties ↔
  Forall (fun property => key_ok limits property.1 ∧ node_ok depth false property.2) properties.
Proof.
  induction properties as [|p properties IH]; simpl; [split; constructor|].
  by rewrite Forall_cons, IH.
Qed.

Lemma node_ok_depth depth root s : node_ok depth root s → (depth ≤ limits maxSchemaDepth)%Z.
Proof. destruct s; simpl; tauto. Qed.
End node_ok.

Section schema_ind.
Context (P : schema → Prop).
Context (Hobject : ∀ d a ps r ad mn mx df,
  match ps with Some properties => Forall (fun property => P property.2) properties | None => True end →
  P (ObjectSchema d a ps r ad mn mx df)).
Context (Hstring : ∀ a e mn mx df, P (StringSchema a e mn mx df)).
Context (Hnumber : ∀ i a e mn mx emn emx df, P (NumberSchema i a e mn mx emn emx df)).
Context (Hboolean : ∀ a e df, P (BooleanSchema a e df)).
Context (Harray : ∀ a s mn mx u df, P s → P (ArraySchema a s mn mx u df)).

Fixpoint schema_nested_ind (s : schema) : P s :=
  match s with
  | ObjectSchema d a ps r ad mn mx df =>
      Hobject d a ps r ad mn mx df
        match ps with
        | Some properties =>
            (fix go (l : list (jstr * schema)) : Forall (fun property => P property.2) l :=
               match l with
               | [] => Forall_nil_2 _
               | p :: l => Forall_cons_2 _ p l (schema_nested_ind p.2) (go l)
               end) properties
        | None => I
        end
  | StringSchema a e mn mx df => Hstring a e mn mx df
  | NumberSchema i a e mn mx emn emx df => Hnumber i a e mn mx emn emx df
  | BooleanSchema a e df => Hboolean a e df
  | ArraySchema a s mn mx u df => Harray a s mn mx u df (schema_nested_ind s)
  end.
End schema_ind.

Lemma default_non_negative o : non_negative (default_usage o).
Proof. destruct o as [j|]; unfold non_negative; simpl; [pose proof (json_count_pos j)|]; lia. Qed.

Lemma enum_non_negative o : non_negative (enum_usage o).
Proof. destruct o as [l|]; unfold non_negative; simpl; unfold len; lia. Qed.

(** What a schema uses beyond its own node. *)
Lemma usage_split s : ∃ u, usage_of s = plus one_node u ∧ non_negative u.
Proof.
  induction s as [d a ps r ad mn mx df IH| | | |a s mn mx u df (w & Hw & Hpos)]
    using schema_nested_ind; eexists; (split; [reflexivity|]);
    apply non_negative_plus; auto using default_non_negative, enum_non_negative.
  - destruct ps as [ps|]; [|unfold non_negative; simpl; lia].
    apply non_negative_plus; [unfold non_negative; simpl; unfold len; lia|].
    apply non_negative_sum, Forall_fmap. eapply Forall_impl; [exact IH|].
    intros property (w & Hw & Hpos). change (non_negative (usage_of property.2)). rewrite Hw.
    apply non_negative_plus; [unfold non_negative; simpl; lia|done].
  - change (non_negative (usage_of s)). rewrite Hw.
    apply non_negative_plus; [unfold non_negative; simpl; lia|done].
Qed.

Lemma usage_non_negative s : non_negative (usage_of s).
Proof.
  destruct (usage_split s) as (u & -> & Hu). apply non_negative_plus; [|done].
  unfold non_negative. simpl. lia.
Qed.
(** * Parsing one schema *)

Section typed.
Context (h : heap) (Hh : heap_ok h) (limits : AppCommandInputSchemaLimits).
Context (number_text : jsnum → jstr).
Context (record : list (jstr * jsval)) (Hd : defined_record record).

Lemma rejectUnknown_run (allowed : list jstr) (entries : list (jstr * option app_json)) path :
  (∀ k, k ∈ entries.*1 ↔ k ∈ allowed) →
  rejectUnknownKeys record allowed path = Ok tt ↔ record.*1 ⊆ entries.*1.
Proof. intros Hk. rewrite rejectUnknownKeys_iff. split; intros H k Hin; by apply Hk, H. Qed.

Lemma assertRange_iff low high path lowKey highKey :
  assertRange low high path lowKey highKey = Ok tt ↔ out_of_order low high = false.
Proof. apply guard_throw_Ok. Qed.

Lemma assertSchemaDefaultInEnum_iff default enum path :
  assertSchemaDefaultInEnum default enum path = Ok tt ↔ outside_enum default enum = false.
Proof. apply guard_throw_Ok. Qed.

Ltac facts :=
  repeat match goal with
  | H : parseScalarEnum _ _ _ _ _ _ _ = _ |- _ =>
      apply (parseScalarEnum_iff h Hh limits number_text record Hd) in H as (? & ? & -> & ?); [|done]
  | H : parseSchemaDefault _ _ _ _ _ _ = _ |- _ =>
      apply (parseSchemaDefault_iff h Hh limits record Hd) in H as (? & ? & -> & ?); [|done]
  | H : readOptionalBoundedInteger _ _ _ _ = _ |- _ =>
      apply (readOptionalBoundedInteger_iff h record Hd) in H as [? ?]
  | H : readOptionalFiniteNumber _ _ _ = _ |- _ =>
      apply (readOptionalFiniteNumber_iff h record Hd) in H
  | H : readOptionalBoolean _ _ _ = _ |- _ =>
      apply (readOptionalBoolean_iff h record Hd) in H
  | H : assertRange _ _ _ _ _ = _ |- _ => apply assertRange_iff in H
  | H : assertSchemaDefaultInEnum _ _ _ = _ |- _ => apply assertSchemaDefaultInEnum_iff in H
  end.

(** The next step of the parser succeeds. *)
Ltac pass :=
  first
  [ erewrite bindM_lift by by apply (readOptionalBoundedInteger_iff h record Hd)
  | erewrite bindM_lift by by apply (readOptionalFiniteNumber_iff h record Hd)
  | erewrite bindM_lift by by apply (readOptionalBoolean_iff h record Hd)
  | erewrite bindM_lift by by apply assertRange_iff
  | erewrite bindM_lift by by apply assertSchemaDefaultInEnum_iff
  | erewrite bindM_eq by by apply (parseScalarEnum_iff h Hh limits number_text record Hd)
  | erewrite bindM_eq by by apply (parseSchemaDefault_iff h Hh limits record Hd) ].

Lemma default_fits st default : fits limits (add st (default_usage default)) → fits limits st.
Proof.
  apply fits_add. destruct default as [j|]; unfold non_negative; simpl;
    [pose proof (json_count_pos j)|]; lia.
Qed.

(** The fields that all schemas have. *)
Definition common_fields (type : schema_type) (annotations : AppCommandInputSchemaAnnotations)
    : Prop :=
  field_is h record (js "type") (Some (AppStr (type_name type))) ∧
  Forall (fun '(key, o) => field_is h record key o) (annotation_fields annotations).

Lemma parseStringSchema_iff path annotations st st' s :
  fits limits (add st one_node) → common_fields TString annotations →
  parseStringSchema h limits number_text record path annotations (add st one_node) = (st', Ok s) ↔
  ∃ enum minLength maxLength default,
    s = StringSchema annotations enum minLength maxLength default ∧
    record_is h record (fields_of to_json s) ∧
    string_ok limits number_text enum minLength maxLength default ∧
    st' = add st (usage_of s) ∧ fits limits st'.
Proof.
  intros Hst [Htype Hann]. unfold parseStringSchema, record_is.
  assert (∀ e mn mx df k, k ∈ (fields_of to_json (StringSchema annotations e mn mx df)).*1 ↔
    k ∈ COMMON_KEYS ++ [js "minLength"; js "maxLength"]) as Hkeys.
  { intros. unfold COMMON_KEYS. cbn. set_solver. }
  split.
  - intros H. inv_state. facts.
    eexists _, _, _, _. split; [done|]. split; [|split].
    + split; [by apply (rejectUnknown_run _ _ path (Hkeys _ _ _ _))|]. cbn [fields_of]. rewrite !Forall_app, !Forall_cons, Forall_nil. tauto.
    + unfold string_ok, bounds_ok. tauto.
    + rewrite !add_add in *. done.
  - intros (e & mn & mx & df & -> & [Hk Hf] & (He & (Hmn & Hmx & Hr) & Hdf & Ho) & -> & Hfit).
    cbn [fields_of] in Hf. rewrite !Forall_app, !Forall_cons, Forall_nil in Hf.
    destruct Hf as (_ & _ & He' & Hmn' & Hmx' & Hdf' & _).
    cbn [usage_of] in *. rewrite <-!add_add in *.
    erewrite bindM_lift by by apply (rejectUnknown_run _ _ _ (Hkeys e mn mx df)).
    pose proof (default_fits _ _ Hfit). repeat pass. done.
Qed.

Lemma parseNumberSchema_iff path annotations integer st st' s :
  let type := if integer : bool then TInteger else TNumber in
  fits limits (add st one_node) → common_fields type annotations →
  parseNumberSchema h limits number_text record path annotations integer (add st one_node) =
    (st', Ok s) ↔
  ∃ enum minimum maximum exclusiveMinimum exclusiveMaximum default,
    s = NumberSchema integer annotations enum minimum maximum exclusiveMinimum exclusiveMaximum
          default ∧
    record_is h record (fields_of to_json s) ∧
    number_ok limits number_text integer enum minimum maximum exclusiveMinimum exclusiveMaximum
      default ∧
    st' = add st (usage_of s) ∧ fits limits st'.
Proof.
  intros type Hst [Htype Hann]. unfold parseNumberSchema, record_is. fold type.
  assert (∀ e mn mx emn emx df k,
    k ∈ (fields_of to_json (NumberSchema integer annotations e mn mx emn emx df)).*1 ↔
    k ∈ COMMON_KEYS ++ [js "minimum"; js "maximum"; js "exclusiveMinimum";
                        js "exclusiveMaximum"]) as Hkeys.
  { intros. unfold COMMON_KEYS. cbn. set_solver. }
  split.
  - intros H. inv_state. facts.
    eexists _, _, _, _, _, _. split; [done|]. split; [|split].
    + split; [by apply (rejectUnknown_run _ _ path (Hkeys _ _ _ _ _ _))|].
      cbn [fields_of]. rewrite !Forall_app, !Forall_cons, Forall_nil. fold type. tauto.
    + unfold number_ok. fold type. tauto.
    + rewrite !add_add in *. done.
  - intros (e & mn & mx & emn & emx & df & -> & [Hk Hf] & (He & Hr & Her & Hdf & Ho) & -> & Hfit).
    cbn [fields_of] in Hf. rewrite !Forall_app, !Forall_cons, Forall_nil in Hf.
    destruct Hf as (_ & _ & He' & Hmn' & Hmx' & Hemn' & Hemx' & Hdf' & _).
    cbn [usage_of] in *. rewrite <-!add_add in *.
    erewrite bindM_lift by by apply (rejectUnknown_run _ _ _ (Hkeys e mn mx emn emx df)).
    pose proof (default_fits _ _ Hfit).
    repeat pass. done.
Qed.

Lemma parseBooleanSchema_iff path annotations st st' s :
  fits limits (add st one_node) → common_fields TBoolean annotations →
  parseBooleanSchema h limits number_text record path annotations (add st one_node) = (st', Ok s) ↔
  ∃ enum default, s = BooleanSchema annotations enum default ∧
    record_is h record (fields_of to_json s) ∧
    boolean_ok limits number_text enum default ∧
    st' = add st (usage_of s) ∧ fits limits st'.
Proof.
  intros Hst [Htype Hann]. unfold parseBooleanSchema, record_is.
  assert (∀ e df k, k ∈ (fields_of to_json (BooleanSchema annotations e df)).*1 ↔
    k ∈ COMMON_KEYS) as Hkeys.
  { intros. unfold COMMON_KEYS. cbn. set_solver. }
  split.
  - intros H. inv_state. facts.
    eexists _, _. split; [done|]. split; [|split].
    + split; [by apply (rejectUnknown_run _ _ path (Hkeys _ _))|].
      cbn [fields_of]. rewrite !Forall_app, !Forall_cons, Forall_nil. tauto.
    + unfold boolean_ok. tauto.
    + rewrite !add_add in *. done.
  - intros (e & df & -> & [Hk Hf] & (He & Hdf & Ho) & -> & Hfit).
    cbn [fields_of] in Hf. rewrite !Forall_app, !Forall_cons, Forall_nil in Hf.
    destruct Hf as (_ & _ & He' & Hdf' & _).
    cbn [usage_of] in *. rewrite <-!add_add in *.
    erewrite bindM_lift by by apply (rejectUnknown_run _ _ _ (Hkeys e df)).
    pose proof (default_fits _ _ Hfit). repeat pass. done.
Qed.

(** ** Schemas with schemas in them *)

Context (v : jsval) (Hr : plain_record h v record).
Context (parseNode : jsval → jstr → Z → bool → M schema).

(** Every success of [parseNode] is on a well-formed document. *)
Definition node_sound : Prop := ∀ v path depth root st st' s,
  parseNode v path depth root st = (st', Ok s) → fits limits st →
  ∃ s0, denotes h (to_json s0) v ∧ s = sort_required s0 ∧
    node_ok limits number_text depth root s0 ∧ st' = add st (usage_of s0) ∧ fits limits st'.

(** [parseNode] succeeds on well-formed documents at a depth that the record holds. *)
Definition node_complete (depth : Z) (ancestors : list jsval) : Prop := ∀ w path st s,
  tc (child h) w v → ps_schemaAncestors st = ancestors →
  denotes h (to_json s) w → node_ok limits number_text depth false s →
  fits limits (add st (usage_of s)) →
  parseNode w path depth false st = (add st (usage_of s), Ok (sort_required s)).

Lemma parseArraySchema_sound path depth annotations st st' s :
  node_sound → fits limits (add st one_node) → common_fields TArray annotations →
  parseArraySchema h limits parseNode record path depth annotations (add st one_node) =
    (st', Ok s) →
  ∃ items minItems maxItems uniqueItems default,
    let s0 := ArraySchema annotations items minItems maxItems uniqueItems default in
    s = sort_required s0 ∧ record_is h record (fields_of to_json s0) ∧
    node_ok limits number_text (depth + 1) false items ∧
    bounds_ok (limits maxCollectionBound) minItems maxItems ∧
    default_ok limits TArray default ∧ st' = add st (usage_of s0) ∧ fits limits st'.
Proof.
  intros Hsound Hst [Htype Hann] H. unfold parseArraySchema in H. inv_state.
  match goal with H : parseNode _ _ _ _ _ = _ |- _ =>
    destruct (Hsound _ _ _ _ _ _ _ H Hst) as (items & Hitems & -> & Hok & -> & Hfit) end.
  facts. repeat match goal with H : bool_decide _ = false |- _ => apply bool_decide_eq_false in H end.
  eexists items, _, _, _, _. cbv zeta. split; [done|]. split.
  - split.
    + match goal with H : rejectUnknownKeys _ _ _ = _ |- _ =>
        eapply rejectUnknown_run in H; [exact H|] end.
      intros k. unfold keys_without_enum, COMMON_KEYS. cbn. set_solver.
    + cbn [fields_of]. rewrite !Forall_app, !Forall_cons, Forall_nil.
      destruct (field_cases record (js "items") Hd) as [[? _]|[_ Hk]]; [done|].
      split_and!; try done; try tauto. by eexists.
  - split_and!; try done. rewrite !add_add in *. done.
Qed.

Lemma items_child key : field key record ≠ VUndefined → tc (child h) (field key record) v.
Proof.
  intros Hne. destruct (field_cases record key Hd) as [[? _]|[_ Hk]]; [done|].
  by apply tc_once, (field_child h v record key).
Qed.

Lemma field_is_field key j :
  field_is h record key (Some j) → field key record ≠ VUndefined ∧ denotes h j (field key record).
Proof.
  intros (w & Hw & Hj). unfold field. rewrite Hw. simpl. split; [|done].
  intros ->. by apply (Hd key).
Qed.

Lemma parseArraySchema_complete path depth annotations st items minItems maxItems uniqueItems default :
  let s0 := ArraySchema annotations items minItems maxItems uniqueItems default in
  node_complete (depth + 1) (ps_schemaAncestors st) →
  record_is h record (fields_of to_json s0) → node_ok limits number_text (depth + 1) false items →
  bounds_ok (limits maxCollectionBound) minItems maxItems → default_ok limits TArray default →
  fits limits (add st (usage_of s0)) →
  parseArraySchema h limits parseNode record path depth annotations (add st one_node) =
    (add st (usage_of s0), Ok (sort_required s0)).
Proof.
  intros s0 Hcomplete [Hk Hf] Hok (Hmn & Hmx & Hb) Hdf Hfit. subst s0. unfold parseArraySchema.
  cbn [fields_of] in Hf. rewrite !Forall_app, !Forall_cons, Forall_nil in Hf.
  destruct Hf as (_ & _ & Hitems & Hmn' & Hmx' & Hu' & Hdf' & _).
  apply field_is_field in Hitems as [Hne Hitems].
  cbn [usage_of] in *. rewrite <-!add_add in *.
  erewrite bindM_lift.
  2:{ eapply rejectUnknown_run; [|exact Hk].
      intros k. unfold keys_without_enum, COMMON_KEYS. cbn. set_solver. }
  rewrite bindM_guard by by apply bool_decide_eq_false.
  pose proof (default_fits _ _ Hfit).
  erewrite bindM_eq by (apply Hcomplete; [by apply items_child|done..]).
  repeat pass. done.
Qed.

(** ** Properties *)

Definition properties_json (properties : list (jstr * schema)) : app_json :=
  AppObj ((fun '(key, s) => (key, to_json s)) <$> properties).

Definition sort_property (property : jstr * schema) : jstr * schema :=
  (property.1, sort_required property.2).

Definition sort_properties (properties : option (list (jstr * schema)))
    : option (list (jstr * schema)) :=
  match properties with Some properties => Some (sort_property <$> properties) | None => None end.

Definition properties_usage (properties : option (list (jstr * schema))) : usage :=
  match properties with
  | Some properties => plus (uses_properties (len properties))
      (sum ((fun property => usage_of property.2) <$> properties))
  | None => no_usage
  end.

Definition properties_ok (depth : Z) (properties : option (list (jstr * schema))) : Prop :=
  ∀ ps, properties = Some ps → sorted_keys ps ∧
    Forall (fun property => key_ok limits property.1 ∧
      node_ok limits number_text depth false property.2) ps.

Lemma count_properties_run n st :
  count_properties n st = (add st (uses_properties n), Ok (ps_properties st + n)%Z).
Proof.
  unfold count_properties, add, mbind, stM_bind, getM, modifyM, mret, stM_ret. simpl.
  do 2 f_equal; lia.
Qed.

Lemma properties_keys (properties : list (jstr * schema)) :
  ((fun '(key, s) => (key, to_json s)) <$> properties).*1 = properties.*1.
Proof. induction properties as [|[k s] properties IH]; simpl; [done|]. by f_equal. Qed.

Lemma parseProperties_sound path depth st st' o :
  node_sound → fits limits st →
  parseProperties h limits parseNode (field (js "properties") record) path depth st = (st', Ok o) →
  ∃ properties, o = sort_properties properties ∧
    field_is h record (js "properties") (properties_json <$> properties) ∧
    properties_ok (depth + 1) properties ∧
    st' = add st (properties_usage properties) ∧ fits limits st'.
Proof.
  intros Hsound Hst. unfold parseProperties.
  destruct (field_cases record (js "properties") Hd) as [[-> Hk]|[Hne Hk]];
    [rewrite decide_True by done|rewrite decide_False by done]; unfold field_is; rewrite Hk; intros H.
  - inv_state. exists None. rewrite add_none. by split_and!.
  - inv_state. match goal with H : count_properties _ _ = _ |- _ =>
      rewrite count_properties_run in H; injection H as <- <- end.
    match goal with H : bool_decide _ = false |- _ => apply bool_decide_eq_false in H as Hmax end.
    match goal with H : readPlainDataRecord _ _ _ = Ok ?r |- _ =>
      apply plain_record_inv in H as Hp; [|done]; rename r into properties end.
    match goal with H : mapM _ _ ?st1 = _ |- _ =>
      apply (mapM_sound limits _
        (fun key property => (property.1 = key ∧ denotes h (to_json property.2) (field key properties)) ∧
          key_ok limits property.1 ∧ node_ok limits number_text (depth + 1) false property.2)
        sort_property (fun property => usage_of property.2)) in H
        as (ps & -> & Hps & -> & Hfit); [|clear H|] end.
    2:{ intros key st0 st1 z Hz _ Hst0. inv_state.
        match goal with H : parseNode _ _ _ _ _ = _ |- _ =>
          destruct (Hsound _ _ _ _ _ _ _ H Hst0) as (s0 & ? & -> & ? & -> & ?) end.
        match goal with H : bool_decide _ = false |- _ => apply bool_decide_eq_false in H end.
        exists (key, s0). simpl. unfold key_ok. split_and!; try done. lia. }
    2:{ unfold fits in *. simpl. lia. }
    exists (Some ps).
    destruct (denotes_sorted h Hh _ properties ((fun '(key, s) => (key, to_json s)) <$> ps) Hp)
      as [Hden Hsorted].
    { apply Forall2_fmap_r. eapply Forall2_impl; [exact Hps|]. by intros ? [? ?] [? _]. }
    unfold sorted_keys in Hsorted. rewrite properties_keys in Hsorted.
    assert (len (sort_strings properties.*1) = len ps) as Hlen.
    { unfold len. f_equal. by eapply Forall2_length. }
    rewrite Hlen, add_add in *. split_and!; [done| | |done|done].
    + simpl. eexists. split; [done|exact Hden].
    + intros ? [= <-]. split; [exact Hsorted|]. eapply Forall2_Forall_r; [exact Hps|].
      apply Forall_true. intros key property [_ H']. exact H'.
Qed.

Lemma parseProperties_complete path depth st properties :
  node_complete (depth + 1) (ps_schemaAncestors st) →
  field_is h record (js "properties") (properties_json <$> properties) →
  properties_ok (depth + 1) properties → fits limits (add st (properties_usage properties)) →
  parseProperties h limits parseNode (field (js "properties") record) path depth st =
    (add st (properties_usage properties), Ok (sort_properties properties)).
Proof.
  intros Hcomplete Hf Hok Hfit. unfold parseProperties. destruct properties as [ps|].
  - apply field_is_field in Hf as [Hne Hf]. rewrite decide_False by done. cbv zeta.
    destruct (Hok ps eq_refl) as [Hsorted Hall].
    destruct (sorted_denotes h _ _ Hf) as (properties & Hp & Hfs).
    { unfold sorted_keys. by rewrite properties_keys. }
    apply Forall2_fmap_r in Hfs. pose proof (Forall2_length _ _ _ Hfs) as Hlen.
    erewrite bindM_lift by by apply (plain_record_inv h Hh).
    erewrite bindM_eq by apply count_properties_run.
    simpl in Hfit |- *. rewrite <-add_add in *.
    assert (len (sort_strings properties.*1) = len ps) as -> by (unfold len; by f_equal).
    rewrite bindM_guard.
    2:{ apply bool_decide_eq_false. apply fits_add in Hfit; [unfold fits in Hfit; simpl in Hfit; lia|].
        apply non_negative_sum, Forall_fmap, Forall_true. intros. apply usage_non_negative. }
    erewrite bindM_eq.
    2:{ apply (mapM_complete limits _
          (fun key property => (property.1 = key ∧ denotes h (to_json property.2) (field key properties) ∧
             child h (field key properties) (field (js "properties") record)) ∧
            key_ok limits property.1 ∧ node_ok limits number_text (depth + 1) false property.2)
          sort_property (fun property => usage_of property.2) _ ps); [..|exact Hfit].
        - intros key [k s] st' [(Hkey & Hj & Hc) [Hk Hs]] Ha Hfit'. simpl in *. subst k.
          rewrite bindM_guard by (apply bool_decide_eq_false; unfold key_ok in Hk; lia).
          erewrite bindM_eq by (apply Hcomplete; [|done..]; eapply tc_l; [done|by apply items_child]).
          done.
        - intros property. apply usage_non_negative.
        - apply Forall2_same_length_lookup_2; [done|]. intros i key [k s] Hkey Hs.
          pose proof (Forall2_lookup_lr _ _ _ _ _ _ Hfs Hkey Hs) as Hc. split; [exact Hc|].
          exact (Forall_lookup_1 _ _ _ _ Hall Hs). }
    done.
  - unfold field_is in Hf. simpl in Hf. rewrite decide_True by by apply field_None. simpl.
    by rewrite add_none.
Qed.

Lemma known_sorted properties name :
  known_property (sort_properties properties) name = known_property properties name.
Proof.
  destruct properties as [ps|]; simpl; [|done]. f_equal. unfold jhas. apply bool_decide_ext.
  rewrite !jget_is_Some. by rewrite <-list_fmap_compose.
Qed.

Lemma required_ok_sorted properties required :
  required_ok limits (sort_properties properties) required ↔
  required_ok limits properties required.
Proof. unfold required_ok. by setoid_rewrite known_sorted. Qed.

Lemma schema_key_hidden : js "$schema" ∉ object_keys false.
Proof. apply (bool_decide_unpack _). vm_compute. exact I. Qed.

Lemma object_keys_fields root dialect annotations properties required additional minimum maximum
    default k :
  let s0 := ObjectSchema dialect annotations properties required additional minimum maximum default in
  k ∈ (fields_of to_json s0).*1 ↔ k ∈ object_keys root ∨ k = js "$schema".
Proof. unfold object_keys, keys_without_enum, COMMON_KEYS. destruct root; cbn; set_solver. Qed.

Lemma parseObjectSchema_sound path depth root annotations st st' s :
  node_sound → fits limits (add st one_node) → common_fields TObject annotations →
  parseObjectSchema h limits parseNode record path depth root annotations (add st one_node) =
    (st', Ok s) →
  ∃ dialect properties required additional minimum maximum default,
    let s0 := ObjectSchema dialect annotations properties required additional minimum maximum default in
    s = sort_required s0 ∧ record_is h record (fields_of to_json s0) ∧
    (dialect = true → root = true) ∧ properties_ok (depth + 1) properties ∧
    required_ok limits properties required ∧
    bounds_ok (limits maxCollectionBound) minimum maximum ∧ default_ok limits TObject default ∧
    st' = add st (usage_of s0) ∧ fits limits st'.
Proof.
  intros Hsound Hst [Htype Hann] H. unfold parseObjectSchema in H. inv_state.
  match goal with H : parseProperties _ _ _ _ _ _ _ = _ |- _ =>
    destruct (parseProperties_sound _ _ _ _ _ Hsound Hst H) as (ps & -> & Hps & Hpok & -> & Hfit);
    clear H end.
  facts.
  match goal with H : rejectUnknownKeys _ _ _ = _ |- _ => apply rejectUnknownKeys_iff in H as Hkeys end.
  match goal with H : parseRequired _ _ _ _ _ = _ |- _ =>
    apply (parseRequired_iff h Hh limits record Hd) in H as (required & -> & Hreq & Hrok) end.
  apply (proj1 (required_ok_sorted _ _)) in Hrok.
  match goal with H : parse_dialect _ _ _ = _ |- _ =>
    apply (parse_dialect_iff h record Hd) in H as [Hdialect Hroot] end.
  2:{ intros ->. apply jget_None. intros Hin. by apply schema_key_hidden, Hkeys. }
  eexists _, ps, required, _, _, _, _. cbv zeta. split.
  { by destruct ps. }
  split.
  - split.
    + intros k Hk. apply (object_keys_fields root). left. by apply Hkeys.
    + cbn [fields_of]. rewrite !Forall_app, !Forall_cons, Forall_nil. split_and!; done || tauto.
  - split_and!; try done. rewrite !add_add in *. done.
Qed.

Lemma parseObjectSchema_complete path depth root annotations st dialect properties required
    additional minimum maximum default :
  let s0 := ObjectSchema dialect annotations properties required additional minimum maximum default in
  node_complete (depth + 1) (ps_schemaAncestors st) →
  record_is h record (fields_of to_json s0) → (dialect = true → root = true) →
  properties_ok (depth + 1) properties → required_ok limits properties required →
  bounds_ok (limits maxCollectionBound) minimum maximum → default_ok limits TObject default →
  fits limits (add st (usage_of s0)) →
  parseObjectSchema h limits parseNode record path depth root annotations (add st one_node) =
    (add st (usage_of s0), Ok (sort_required s0)).
Proof.
  intros s0 Hcomplete [Hk Hf] Hroot Hps Hreq (Hmn & Hmx & Hb) Hdf Hfit. subst s0.
  unfold parseObjectSchema.
  cbn [fields_of] in Hf. rewrite !Forall_app, !Forall_cons, Forall_nil in Hf.
  destruct Hf as ((Hdialect & _) & _ & Hps' & Hreq' & Ha' & Hmn' & Hmx' & Hdf' & _).
  assert (root = false → jget (js "$schema") record = None) as Hno.
  { intros ->. destruct dialect; [by specialize (Hroot eq_refl)|done]. }
  cbn [usage_of] in *. fold (properties_usage properties) in *. rewrite <-!add_add in *.
  erewrite bindM_lift.
  2:{ apply rejectUnknownKeys_iff. intros k Hin. pose proof (Hk _ Hin) as Hk'.
      apply (object_keys_fields root) in Hk' as [?| ->]; [done|]. destruct root.
      - unfold object_keys. set_solver.
      - apply jget_None in Hno; done. }
  pose proof (default_fits _ _ Hfit).
  erewrite bindM_eq by by apply parseProperties_complete.
  erewrite bindM_lift.
  2:{ apply (parseRequired_iff h Hh limits record Hd). exists required. split; [done|].
      split; [done|]. by apply required_ok_sorted. }
  repeat pass.
  erewrite bindM_lift by by apply (parse_dialect_iff h record Hd).
  destruct properties; done.
Qed.
End typed.

(** * Parsing a node *)

Lemma read_type_iff v type : read_type v = Some type ↔ v = VStr (type_name type).
Proof.
  split.
  - destruct v as [| | | |name| |]; try done. unfold read_type. intros Hs%jget_elem_of. unfold APP_COMMAND_INPUT_SCHEMA_TYPES in Hs.
    repeat (apply elem_of_cons in Hs as [[= -> ->]|Hs]; [done|]). by apply elem_of_nil in Hs.
  - intros ->. by destruct type.
Qed.

Definition type_of (s : schema) : schema_type :=
  match s with
  | ObjectSchema _ _ _ _ _ _ _ _ => TObject
  | StringSchema _ _ _ _ _ => TString
  | NumberSchema integer _ _ _ _ _ _ _ => if integer then TInteger else TNumber
  | BooleanSchema _ _ _ => TBoolean
  | ArraySchema _ _ _ _ _ _ => TArray
  end.

Lemma fields_common h record s :
  record_is h record (fields_of to_json s) → common_fields h record (type_of s) (annotations_of s).
Proof.
  intros [_ Hf]. unfold common_fields. destruct s; cbn [fields_of] in Hf;
    rewrite !Forall_app, !Forall_cons, ?Forall_nil in Hf; simpl in *; tauto.
Qed.

Section node.
Context (h : heap) (Hh : heap_ok h) (limits : AppCommandInputSchemaLimits).
Context (number_text : jsnum → jstr).
Context (record : list (jstr * jsval)) (Hd : defined_record record).
Context (v : jsval) (Hr : plain_record h v record).
Context (parseNode : jsval → jstr → Z → bool → M schema).
#[local] Abbreviation nodeok := (node_ok limits number_text).

Lemma parse_typed_sound path depth root st st' s :
  node_sound h limits number_text parseNode → (depth ≤ limits maxSchemaDepth)%Z →
  fits limits (add st one_node) →
  parse_typed h limits number_text parseNode record path depth root (add st one_node) =
    (st', Ok s) →
  ∃ s0, s = sort_required s0 ∧ record_is h record (fields_of to_json s0) ∧
    nodeok depth root s0 ∧ st' = add st (usage_of s0) ∧ fits limits st'.
Proof.
  intros Hsound Hdepth Hst. unfold parse_typed.
  destruct (read_type (field (js "type") record)) as [type|] eqn:Htype; [|done].
  apply read_type_iff in Htype. intros H. inv_state.
  match goal with H : root && _ = false |- _ => rename H into Hroot end.
  match goal with H : parseAnnotations _ _ _ = Ok ?a |- _ => rename a into annotations;
    apply (parseAnnotations_iff h limits record Hd) in H as [Hann Haok] end.
  assert (common_fields h record type annotations) as Hcommon.
  { split; [|done]. destruct (field_cases record (js "type") Hd) as [[? _]|[_ Hk]]; [congruence|].
    eexists. split; [exact Hk|]. exact Htype. }
  destruct type.
  - apply (parseObjectSchema_sound h Hh limits number_text record Hd v Hr) in H as
      (d & ps & req & ad & mn & mx & df & -> & Hrec & Hdr & Hps & Hreq & Hb & Hdf & -> & Hfit); [|done..].
    refine (ex_intro _ _ (conj eq_refl (conj Hrec (conj (conj Hdepth (conj _ (conj Haok
      (conj Hdr (conj _ (conj Hreq (conj Hb Hdf))))))) (conj eq_refl Hfit))))); [done|].
    destruct ps as [ps|]; [|done].
    destruct (Hps ps eq_refl) as [Hs Hall]. split; [done|]. by apply properties_ok_iff.
  - apply (parseStringSchema_iff h Hh limits number_text record Hd) in H as (e & mn & mx & df & -> & Hrec & Hok & -> & Hfit); [|done..].
    eexists (StringSchema _ _ _ _ _). split_and!; try done. by destruct root.
  - apply (parseNumberSchema_iff h Hh limits number_text record Hd path annotations false) in H as
      (e & mn & mx & emn & emx & df & -> & Hrec & Hok & -> & Hfit); [|done..].
    eexists (NumberSchema _ _ _ _ _ _ _ _). split_and!; try done. by destruct root.
  - apply (parseNumberSchema_iff h Hh limits number_text record Hd path annotations true) in H as
      (e & mn & mx & emn & emx & df & -> & Hrec & Hok & -> & Hfit); [|done..].
    eexists (NumberSchema _ _ _ _ _ _ _ _). split_and!; try done. by destruct root.
  - apply (parseBooleanSchema_iff h Hh limits number_text record Hd) in H as (e & df & -> & Hrec & Hok & -> & Hfit); [|done..].
    eexists (BooleanSchema _ _ _). split_and!; try done. by destruct root.
  - apply (parseArraySchema_sound h Hh limits number_text record Hd v Hr) in H as
      (items & mn & mx & u & df & -> & Hrec & Hitems & Hb & Hdf & -> & Hfit); [|done..].
    eexists (ArraySchema _ _ _ _ _ _). split_and!; try done. by destruct root.
Qed.

Lemma parse_typed_complete path depth root st s0 :
  node_complete h limits number_text v parseNode (depth + 1) (ps_schemaAncestors st) →
  record_is h record (fields_of to_json s0) → nodeok depth root s0 →
  fits limits (add st (usage_of s0)) →
  parse_typed h limits number_text parseNode record path depth root (add st one_node) =
    (add st (usage_of s0), Ok (sort_required s0)).
Proof.
  intros Hcomplete Hrec Hok Hfit. pose proof (fields_common _ _ _ Hrec) as [Htype Hann].
  pose proof (conj Htype Hann : common_fields h record (type_of s0) (annotations_of s0)) as Hcommon.
  assert (fits limits (add st one_node)) as Hst.
  { destruct (usage_split s0) as (u & Hu & Hpos). rewrite Hu, <-add_add in Hfit.
    by eapply fits_add. }
  unfold parse_typed. apply field_is_field in Htype as [_ Htype]; [|done]. simpl in Htype.
  rewrite Htype. rewrite (proj2 (read_type_iff _ _) eq_refl).
  assert (annotations_ok limits (annotations_of s0)) as Haok by (destruct s0; apply Hok).
  rewrite bindM_guard.
  2:{ destruct root; [|done]. simpl. apply bool_decide_eq_false.
      destruct s0; destruct Hok as (_ & Ho & _); try discriminate (Ho eq_refl). by intros []. }
  erewrite bindM_lift by by apply (parseAnnotations_iff h limits record Hd).
  destruct s0 as [d a ps req ad mn mx df|a e mn mx df|i a e mn mx emn emx df|a e df|a items mn mx u df];
    destruct Hok as (_ & _ & _ & Hok); cbn [type_of annotations_of] in *.
  - destruct Hok as (Hdr & Hps & Hreq & Hb & Hdf). eapply parseObjectSchema_complete; try done.
    intros properties ->. destruct Hps as [Hs Hall]. split; [done|]. by apply properties_ok_iff.
  - apply (parseStringSchema_iff h Hh limits number_text record Hd path a st _ _ Hst Hcommon). eauto 10.
  - destruct i.
    + apply (parseNumberSchema_iff h Hh limits number_text record Hd path a true st _ _ Hst Hcommon). eauto 12.
    + apply (parseNumberSchema_iff h Hh limits number_text record Hd path a false st _ _ Hst Hcommon). eauto 12.
  - apply (parseBooleanSchema_iff h Hh limits number_text record Hd path a st _ _ Hst Hcommon). eauto 10.
  - destruct Hok as (Hitems & Hb & Hdf). eapply parseArraySchema_complete; done.
Qed.
End node.

(** * The recursion *)

Lemma count_node_run st :
  count_node st = (add st one_node, Ok (ps_schemaNodes st + 1)%Z).
Proof.
  unfold count_node, add, mbind, stM_bind, getM, modifyM, mret, stM_ret. simpl.
  do 2 f_equal; lia.
Qed.

(** [state.schemaAncestors.add(v)] *)
Definition push (v : jsval) (st : CommandInputSchemaParseState) : CommandInputSchemaParseState := {|
  ps_schemaAncestors := v :: ps_schemaAncestors st; ps_schemaNodes := ps_schemaNodes st;
  ps_properties := ps_properties st; ps_enumValues := ps_enumValues st;
  ps_valueNodes := ps_valueNodes st |}.

Lemma pop_push v st u :
  v ∉ ps_schemaAncestors st →
  set_ancestors (filter (fun ancestor => ancestor ≠ v)) (add (push v st) u) = (add st u, Ok tt).
Proof.
  intros Hv. unfold set_ancestors, modifyM, add, push. simpl. do 2 f_equal.
  rewrite filter_cons_False by (intros Hne; by apply Hne). apply filter_all. set_solver.
Qed.

Lemma fits_push limits v st : fits limits (push v st) ↔ fits limits st.
Proof. done. Qed.

Lemma finallyM_Ok {A} (body : M A) after st st' a :
  finallyM body after st = (st', Ok a) ↔
  ∃ st1, body st = (st1, Ok a) ∧ after st1 = (st', Ok tt).
Proof.
  unfold finallyM, attemptM, mbind, stM_bind, liftM. destruct (body st) as [st1 r]. split.
  - destruct (after st1) as [st2 [[]|e]] eqn:Ha; [|done]. intros [= -> ->]. eauto.
  - intros (st2 & [= -> ->] & ->). done.
Qed.

Lemma fields_NoDup s : NoDup (fields_of to_json s).*1.
Proof. destruct s; apply (bool_decide_unpack _); vm_compute; exact I. Qed.

Lemma to_json_fields s : to_json s = AppObj (defined_fields (fields_of to_json s)).
Proof. by destruct s. Qed.

Section schema.
Context (h : heap) (Hh : heap_ok h) (limits : AppCommandInputSchemaLimits).
Context (number_text : jsnum → jstr).

Lemma parse_node_sound parseNode :
  node_sound h limits number_text parseNode →
  node_sound h limits number_text (parse_node h limits number_text parseNode).
Proof.
  intros Hsound v path depth root st st' s H Hst. unfold parse_node in H. inv_state.
  match goal with H : count_node _ = _ |- _ => rewrite count_node_run in H; injection H as <- <- end.
  repeat match goal with H : bool_decide _ = false |- _ => apply bool_decide_eq_false in H end.
  match goal with H : getM _ = _ |- _ => injection H as <- <- end.
  match goal with H : set_ancestors _ _ = _ |- _ => injection H as <- end.
  match goal with H : readPlainDataRecord _ _ _ = _ |- _ => apply plain_record_inv in H as Hr; [|done] end.
  match goal with H : rejectUndefinedValues _ _ = _ |- _ => apply rejectUndefinedValues_iff in H as Hd end.
  apply finallyM_Ok in H as (st1 & H & Hpop).
  apply (parse_typed_sound h Hh limits number_text _ Hd v Hr parseNode path depth root (push v st))
    in H as (s0 & -> & Hrec & Hok & -> & Hfit); [|done|lia|].
  - rewrite pop_push in Hpop by done. injection Hpop as <-. exists s0. split; [|done].
    rewrite to_json_fields. apply denotes_fields; [done|apply fields_NoDup|]. eauto.
  - unfold fits in *. simpl in *. lia.
Qed.

Lemma parse_node_complete parseNode v path depth root st s0 :
  node_complete h limits number_text v parseNode (depth + 1) (v :: ps_schemaAncestors st) →
  (∀ a, a ∈ ps_schemaAncestors st → tc (child h) v a) →
  denotes h (to_json s0) v → node_ok limits number_text depth root s0 →
  fits limits (add st (usage_of s0)) →
  parse_node h limits number_text parseNode v path depth root st =
    (add st (usage_of s0), Ok (sort_required s0)).
Proof.
  intros Hcomplete Hanc Hv Hok Hfit. unfold parse_node.
  pose proof (node_ok_depth _ _ _ _ _ Hok) as Hdepth.
  assert (v ∉ ps_schemaAncestors st) as Hnew.
  { intros Hin. apply (Acc_no_cycle h v); [by eapply denotes_Acc|by apply Hanc]. }
  pose proof Hv as Hj. rewrite to_json_fields in Hj. apply denotes_fields in Hj as (record & Hr & Hrec); [|done|apply fields_NoDup].
  pose proof (record_is_defined _ _ _ Hrec) as Hd.
  erewrite bindM_eq by apply count_node_run.
  rewrite bindM_guard.
  2:{ destruct (usage_split s0) as (u & Hu & Hpos). rewrite Hu, <-add_add in Hfit.
      apply fits_add in Hfit; [|done]. apply bool_decide_eq_false. unfold fits in Hfit. simpl in Hfit. lia. }
  rewrite bindM_guard by (apply bool_decide_eq_false; lia).
  erewrite bindM_lift by by apply (plain_record_inv h Hh).
  erewrite bindM_lift by by apply rejectUndefinedValues_iff.
  rewrite (bindM_eq getM _ _ _ _ eq_refl).
  rewrite bindM_guard by by apply bool_decide_eq_false.
  rewrite (bindM_eq (set_ancestors (cons v)) _ (add st one_node) (add (push v st) one_node) tt eq_refl).
  apply finallyM_Ok. exists (add (push v st) (usage_of s0)). split.
  - by apply (parse_typed_complete h Hh limits number_text record Hd v Hr parseNode path depth root (push v st)).
  - by apply pop_push.
Qed.

Lemma parseSchemaNode_sound fuel :
  node_sound h limits number_text (parseSchemaNode h limits number_text fuel).
Proof.
  induction fuel as [|fuel IH]; [done|]. by apply parse_node_sound.
Qed.

Lemma parseSchemaNode_complete fuel v path depth root st s0 :
  (limits maxSchemaDepth + 1 ≤ Z.of_nat fuel + depth)%Z →
  (∀ a, a ∈ ps_schemaAncestors st → tc (child h) v a) →
  denotes h (to_json s0) v → node_ok limits number_text depth root s0 →
  fits limits (add st (usage_of s0)) →
  parseSchemaNode h limits number_text fuel v path depth root st =
    (add st (usage_of s0), Ok (sort_required s0)).
Proof.
  revert v path depth root st s0. induction fuel as [|fuel IH];
    intros v path depth root st s0 Hfuel Hanc Hv Hok Hfit;
    pose proof (node_ok_depth _ _ _ _ _ Hok) as Hdepth; [lia|].
  simpl. apply parse_node_complete; try done.
  intros w path' st' s Hw Ha Hs Hok' Hfit'. apply IH; try done; [lia|].
  rewrite Ha. intros a [->|Hin]%elem_of_cons; [done|]. etrans; [done|by apply Hanc].
Qed.
End schema.

(** * What the parser accepts *)

Definition initial_state : CommandInputSchemaParseState := {|
  ps_schemaAncestors := []; ps_schemaNodes := 0; ps_properties := 0; ps_enumValues := 0;
  ps_valueNodes := 0 |}.

(** A root schema that keeps within the limits. *)
Definition well_formed (limits : AppCommandInputSchemaLimits) (number_text : jsnum → jstr)
    (s : schema) : Prop :=
  node_ok limits number_text 1 true s ∧ fits limits (add initial_state (usage_of s)) ∧
  (utf8ByteLength (stringify number_text (to_json (sort_required s))) ≤ limits maxSerializedBytes)%Z.

(** Overrides make no limit larger than its default. *)
Lemma resolveSchemaLimits_bounded overrides limits :
  resolveSchemaLimits overrides = Ok limits →
  ∀ key, (0 < limits key ≤ DEFAULT_APP_COMMAND_INPUT_SCHEMA_LIMITS key)%Z.
Proof.
  assert (∀ key, (0 < DEFAULT_APP_COMMAND_INPUT_SCHEMA_LIMITS key)%Z) as Hpos.
  { intros []; done. }
  unfold resolveSchemaLimits. destruct overrides as [overrides|].
  2:{ intros [= <-] key. specialize (Hpos key). lia. }
  apply (foldM_invariant _ (fun limits : AppCommandInputSchemaLimits =>
    ∀ key, (0 < limits key ≤ DEFAULT_APP_COMMAND_INPUT_SCHEMA_LIMITS key)%Z)).
  { intros key. specialize (Hpos key). lia. }
  intros resolved [key value] resolved' _ Hok H.
  destruct (value ≫= num_integer) as [n|]; [|done]. inv_result.
  match goal with H : bool_decide _ = false |- _ => apply bool_decide_eq_false in H end.
  intros key'. case_decide as Hk; [subst; lia|apply Hok].
Qed.

Lemma initial_fits limits : (∀ key, 0 < limits key)%Z → fits limits initial_state.
Proof.
  intros Hpos. unfold fits. simpl.
  pose proof (Hpos maxSchemaNodes). pose proof (Hpos maxProperties).
  pose proof (Hpos maxEnumValuesTotal). pose proof (Hpos maxValueNodes). lia.
Qed.

Lemma sort_required_object s : is_object_schema (sort_required s) = is_object_schema s.
Proof. by destruct s. Qed.

Lemma parse_root_iff h limits number_text v s :
  heap_ok h → (∀ key, 0 < limits key)%Z →
  parse_root h limits number_text v = Ok s ↔
  ∃ s0, denotes h (to_json s0) v ∧ well_formed limits number_text s0 ∧ s = sort_required s0.
Proof.
  intros Hh Hpos. unfold parse_root. fold initial_state. split.
  - intros H. inv_result.
    destruct (parseSchemaNode _ _ _ _ _ _ _ _ _) as [st' r] eqn:Hparse.
    match goal with H : _.2 = Ok _ |- _ => simpl in H; subst r end.
    destruct (parseSchemaNode_sound h Hh limits number_text _ _ _ _ _ _ _ _ Hparse
      (initial_fits _ Hpos)) as (s0 & Hs & -> & Hok & -> & Hfit).
    repeat match goal with H : bool_decide _ = false |- _ => apply bool_decide_eq_false in H end.
    exists s0. split; [done|]. split; [|done]. split; [done|]. split; [done|]. lia.
  - intros (s0 & Hs & (Hok & Hfit & Hbytes) & ->).
    rewrite (parseSchemaNode_complete h Hh limits number_text _ v (js "/") 1 true initial_state s0);
      [|unfold schema_fuel; pose proof (Hpos maxSchemaDepth); lia|set_solver|done..].
    simpl. rewrite sort_required_object.
    assert (is_object_schema s0 = true) as -> by (destruct s0; destruct Hok as (_ & Ho & _); exact (Ho eq_refl)).
    simpl. rewrite bool_decide_eq_false_2 by lia. done.
Qed.

(** (C12) A value is accepted as an input schema exactly when it is the JSON document of a
    well-formed schema within the limits: an acyclic structure of plain objects and arrays,
    with known keywords and values of their types at every node.  The result is that schema
    with its required names in order; the order of the keys does not matter. *)
Theorem parseAppCommandInputSchema_iff h number_text v overrides s :
  heap_ok h →
  parseAppCommandInputSchema h number_text v overrides = Some (ParseOk s) ↔
  ∃ limits s0, resolveSchemaLimits overrides = Ok limits ∧ denotes h (to_json s0) v ∧
    well_formed limits number_text s0 ∧ s = sort_required s0.
Proof.
  intros Hh. unfold parseAppCommandInputSchema. split.
  - destruct (resolveSchemaLimits overrides) as [limits|e] eqn:Hlimits; simpl; [|by destruct e].
    destruct (parse_root _ _ _ _) as [s'|e] eqn:Hroot; [|by destruct e]. intros [= ->].
    apply parse_root_iff in Hroot as (s0 & ? & ? & ->); [|done|].
    + eauto 6.
    + intros key. apply (resolveSchemaLimits_bounded _ _ Hlimits).
  - intros (limits & s0 & Hlimits & Hs & Hok & ->). rewrite Hlimits. simpl.
    rewrite (proj2 (parse_root_iff h limits number_text v (sort_required s0) Hh
      (fun key => proj1 (resolveSchemaLimits_bounded _ _ Hlimits key)))); [done|]. eauto.
Qed.

(** * Normal forms *)

Lemma sort_required_idem s : sort_required (sort_required s) = sort_required s.
Proof.
  induction s as [d a ps r ad mn mx df IH| | | |a s mn mx u df IH] using schema_nested_ind;
    simpl; [|done..|by f_equal].
  f_equal.
  - destruct ps as [ps|]; [|done]. f_equal. rewrite <-list_fmap_compose.
    apply list_fmap_ext. intros i [k s] Hs. simpl. f_equal.
    exact (Forall_lookup_1 _ _ _ _ IH Hs).
  - destruct r; [|done]. simpl. by rewrite sort_strings_idem.
Qed.

Lemma usage_sorted s : usage_of (sort_required s) = usage_of s.
Proof.
  induction s as [d a ps r ad mn mx df IH| | | |a s mn mx u df IH] using schema_nested_ind;
    simpl; [|done..|by rewrite IH].
  destruct ps as [ps|]; [|done]. do 3 f_equal; [unfold len; by rewrite length_fmap|].
  rewrite <-list_fmap_compose. f_equal. apply list_fmap_ext. intros i property Hs.
  exact (Forall_lookup_1 _ _ _ _ IH Hs).
Qed.

Lemma node_ok_sorted limits number_text depth root s :
  node_ok limits number_text depth root s → node_ok limits number_text depth root (sort_required s).
Proof.
  revert depth root.
  induction s as [d a ps r ad mn mx df IH| | | |a s mn mx u df IH] using schema_nested_ind;
    intros depth root; simpl; [|done..|naive_solver].
  intros (Hdepth & Hroot & Ha & Hd & Hps & Hreq & Hb & Hdf). do 4 (split; [done|]). split.
  - destruct ps as [ps|]; [|done]. destruct Hps as [Hs Hall]. split.
    + unfold sorted_keys in *. by rewrite <-list_fmap_compose.
    + apply properties_ok_iff in Hall. apply properties_ok_iff, Forall_fmap, Forall_lookup.
      intros i property Hp. destruct (Forall_lookup_1 _ _ _ _ Hall Hp) as [Hk Hok].
      split; [done|]. by apply (Forall_lookup_1 _ _ _ _ IH Hp).
  - split; [|done]. intros names Hn. destruct r as [names'|]; [|done]. injection Hn as <-.
    destruct (Hreq names' eq_refl) as (Hlen & Hkeys & Hnd & Hknown).
    assert (sort_strings names' ≡ₚ names') as Hp by apply js_sort_perm.
    unfold len in *. rewrite !Hp. split_and!; try done.
    eapply Forall_impl; [exact Hknown|]. intros name Hname. rewrite <-Hname.
    destruct ps as [ps|]; [|done]. simpl. f_equal. unfold jhas. apply bool_decide_ext.
    rewrite !jget_is_Some. by rewrite <-list_fmap_compose.
Qed.

Lemma well_formed_sorted limits number_text s :
  well_formed limits number_text s → well_formed limits number_text (sort_required s).
Proof.
  unfold well_formed. rewrite usage_sorted, sort_required_idem.
  intros [Hok H]. split; [by apply node_ok_sorted|done].
Qed.

(** What the parser returns is in normal form: parsing its own JSON document, from
    wherever it is held, returns it unchanged. *)
Theorem parseAppCommandInputSchema_idempotent h number_text v overrides s h' v' :
  heap_ok h → heap_ok h' →
  parseAppCommandInputSchema h number_text v overrides = Some (ParseOk s) →
  denotes h' (to_json s) v' →
  parseAppCommandInputSchema h' number_text v' overrides = Some (ParseOk s).
Proof.
  intros Hh Hh' Hparse Hs. unfold parseAppCommandInputSchema in *.
  destruct (resolveSchemaLimits overrides) as [limits|e] eqn:Hlimits; simpl in *; [|by destruct e].
  assert (∀ key, 0 < limits key)%Z as Hpos by (intros key; apply (resolveSchemaLimits_bounded _ _ Hlimits)).
  destruct (parse_root _ _ _ v) as [s'|e] eqn:Hroot; [|by destruct e]. injection Hparse as ->.
  apply parse_root_iff in Hroot as (s0 & _ & Hok & ->); [|done..].
  rewrite (proj2 (parse_root_iff h' limits number_text v' (sort_required s0) Hh' Hpos)); [done|].
  exists (sort_required s0). rewrite sort_required_idem. split_and!; [done|by apply well_formed_sorted|done].
Qed.

(** * The fuel is enough *)

(** The computation does not run out of fuel. *)
Definition fueled {A} (r : R A) : Prop := r ≠ Throw OutOfFuel.
Definition steady {A} (m : M A) : Prop := ∀ st, fueled (m st).2.

Lemma fueled_bind {A B} (r : R A) (f : A → R B) :
  fueled r → (∀ a, fueled (f a)) → fueled (r ≫= f).
Proof. intros Hr Hf. destruct r as [a|e]; simpl; [apply Hf|]. intros [= ->]. by apply Hr. Qed.

Lemma fueled_guard c e : e ≠ OutOfFuel → fueled (guard_throw c e).
Proof. intros He. destruct c; [|done]. by intros [= ->]. Qed.

Lemma fueled_foldM {A B} (f : A → B → R A) s l : (∀ s x, fueled (f s x)) → fueled (foldM f s l).
Proof.
  intros Hf. revert s. induction l as [|x l IH]; intros s; simpl; [done|].
  by apply fueled_bind.
Qed.

Lemma fueled_mapM {A B} (f : A → R B) l : (∀ x, fueled (f x)) → fueled (mapM f l).
Proof.
  intros Hf. induction l as [|x l IH]; simpl; [done|].
  apply fueled_bind; [done|]. intros y. by apply fueled_bind.
Qed.

Lemma steady_ret {A} (a : A) : steady (mret a).
Proof. done. Qed.

Lemma steady_throw {A} e : e ≠ OutOfFuel → steady (throwM (A := A) e).
Proof. by intros He st [= ->]. Qed.

Lemma steady_lift {A} (r : R A) : fueled r → steady (liftM r).
Proof. by intros Hr st. Qed.

Lemma steady_bind {A B} (m : M A) (f : A → M B) :
  steady m → (∀ a, steady (f a)) → steady (m ≫= f).
Proof.
  intros Hm Hf st. specialize (Hm st). unfold mbind, stM_bind.
  destruct (m st) as [st' [a|e]]; [apply Hf|]. intros [= ->]. by apply Hm.
Qed.

Lemma steady_guard {B} c e (f : unit → M B) :
  e ≠ OutOfFuel → (c = false → steady (f tt)) → steady (guardM c e ≫= f).
Proof. intros He Hf. destruct c; [by intros st [= ->]|]. by apply Hf. Qed.

Lemma steady_mapM {A B} (f : A → M B) l : (∀ x, steady (f x)) → steady (mapM f l).
Proof.
  intros Hf. induction l as [|x l IH]; simpl; [done|].
  apply steady_bind; [done|]. intros y. by apply steady_bind.
Qed.

Lemma steady_finally {A} (body : M A) after :
  steady body → steady after → steady (finallyM body after).
Proof.
  intros Hb Ha st. unfold finallyM, attemptM, mbind, stM_bind, liftM. specialize (Hb st).
  destruct (body st) as [st' r]. specialize (Ha st'). destruct (after st') as [st'' [u|e]]; [done|].
  intros [= ->]. by apply Ha.
Qed.

(** Follow the code. *)
Ltac fuel :=
  repeat match goal with
  | |- fueled (_ ≫= _) => apply fueled_bind; [|intros ?]
  | |- fueled (guard_throw _ _) => by apply fueled_guard
  | |- fueled (foldM _ _ _) => apply fueled_foldM; intros ? ?
  | |- fueled (mapM _ _) => apply fueled_mapM; intros ?
  | |- fueled (Ok _) => done
  | |- fueled (Throw _) => done
  | |- steady (guardM _ _ ≫= _) => apply steady_guard; [done|intros ?]
  | |- steady (_ ≫= _) => apply steady_bind; [|intros ?]
  | |- steady (liftM _) => apply steady_lift
  | |- steady (mapM _ _) => apply steady_mapM; intros ?
  | |- steady (throwM _) => by apply steady_throw
  | |- steady (mret _) => done
  | |- steady (finallyM _ _) => apply steady_finally
  | |- steady (let '_ := ?x in _) => destruct x
  | |- fueled (let '_ := ?x in _) => destruct x
  | |- fueled (match ?x with _ => _ end) => destruct x
  | |- steady (match ?x with _ => _ end) => destruct x
  end; try done; auto with fuel.

Create HintDb fuel.

Lemma readPlainDataRecord_fueled h v path : fueled (readPlainDataRecord h v path).
Proof. unfold readPlainDataRecord, read_field. fuel. Qed.
#[export] Hint Resolve readPlainDataRecord_fueled : fuel.

Lemma readPlainDataArray_fueled h v path : fueled (readPlainDataArray h v path).
Proof. unfold readPlainDataArray, count_index. fuel. Qed.
#[export] Hint Resolve readPlainDataArray_fueled : fuel.

Lemma readOptionalString_fueled record key path maximum :
  fueled (readOptionalString record key path maximum).
Proof. unfold readOptionalString. fuel. Qed.
#[export] Hint Resolve readOptionalString_fueled : fuel.

Lemma readOptionalBoolean_fueled record key path : fueled (readOptionalBoolean record key path).
Proof. unfold readOptionalBoolean. fuel. Qed.
#[export] Hint Resolve readOptionalBoolean_fueled : fuel.

Lemma readOptionalFiniteNumber_fueled record key path :
  fueled (readOptionalFiniteNumber record key path).
Proof. unfold readOptionalFiniteNumber. fuel. Qed.
#[export] Hint Resolve readOptionalFiniteNumber_fueled : fuel.

Lemma readOptionalBoundedInteger_fueled record key path maximum :
  fueled (readOptionalBoundedInteger record key path maximum).
Proof. unfold readOptionalBoundedInteger. fuel. Qed.
#[export] Hint Resolve readOptionalBoundedInteger_fueled : fuel.

Lemma checks_fueled record allowed path :
  fueled (rejectUnknownKeys record allowed path) ∧ fueled (rejectUndefinedValues record path).
Proof. unfold rejectUnknownKeys, rejectUndefinedValues. split; fuel. Qed.

Section fuel.
Context (h : heap) (limits : AppCommandInputSchemaLimits) (number_text : jsnum → jstr).
Context (Hpos : ∀ key, (0 < limits key)%Z).

Lemma clone_steady fuel v path depth ancestors :
  (depth ≤ limits maxValueDepth + 1 < Z.of_nat fuel + depth)%Z →
  steady (cloneCommandInputJsonValue h limits fuel v path depth ancestors).
Proof.
  revert v path depth ancestors. induction fuel as [|fuel IH]; intros v path depth ancestors Hd; [lia|].
  cbn [cloneCommandInputJsonValue]. apply steady_bind; [done|]. intros n.
  apply steady_guard; [done|]. intros _. apply steady_guard; [done|].
  intros Hdepth%bool_decide_eq_false.
  assert (∀ v path ancestors, steady (cloneCommandInputJsonValue h limits fuel v path (depth + 1) ancestors)).
  { intros. apply IH. lia. }
  fuel.
Qed.

Lemma parseSchemaDefault_steady record path type :
  steady (parseSchemaDefault h limits record path type).
Proof.
  unfold parseSchemaDefault, value_fuel. cbv zeta. pose proof (Hpos maxValueDepth).
  case_decide; [done|]. apply steady_bind; [apply clone_steady; lia|]. intros. fuel.
Qed.

Lemma parseScalarEnum_steady v type path : steady (parseScalarEnum h limits number_text v type path).
Proof. unfold parseScalarEnum, read_scalars. case_decide; [done|]. fuel. Qed.

#[local] Hint Resolve parseSchemaDefault_steady parseScalarEnum_steady : fuel.

Lemma parse_typed_steady parseNode record path depth root :
  (∀ v path, steady (parseNode v path (depth + 1)%Z false)) →
  steady (parse_typed h limits number_text parseNode record path depth root).
Proof.
  intros Hnode. unfold parse_typed, parseAnnotations, parseObjectSchema, parseStringSchema,
    parseNumberSchema, parseBooleanSchema, parseArraySchema, parseProperties, parseRequired,
    read_names, parse_dialect, assertRange, assertSchemaDefaultInEnum, rejectUnknownKeys.
  fuel.
Qed.

Lemma parseSchemaNode_steady fuel v path depth root :
  (depth ≤ limits maxSchemaDepth + 1 < Z.of_nat fuel + depth)%Z →
  steady (parseSchemaNode h limits number_text fuel v path depth root).
Proof.
  revert v path depth root. induction fuel as [|fuel IH]; intros v path depth root Hd; [lia|].
  simpl. unfold parse_node. apply steady_bind; [done|]. intros n.
  apply steady_guard; [done|]. intros _. apply steady_guard; [done|].
  intros Hdepth%bool_decide_eq_false. apply steady_bind; [fuel|]. intros record.
  apply steady_bind; [apply steady_lift; by destruct (checks_fueled record [] path)|]. intros _.
  apply steady_bind; [done|]. intros st. apply steady_guard; [done|]. intros _.
  apply steady_bind; [done|]. intros _. apply steady_finally; [|done].
  apply parse_typed_steady. intros w path'. apply IH. lia.
Qed.

Lemma parse_root_fueled v : fueled (parse_root h limits number_text v).
Proof.
  unfold parse_root. apply fueled_bind; [|intros value; fuel].
  apply parseSchemaNode_steady. unfold schema_fuel. pose proof (Hpos maxSchemaDepth). lia.
Qed.
End fuel.

Lemma parseAppCommandInputSchema_ends h number_text v overrides :
  ∃ r, parseAppCommandInputSchema h number_text v overrides = Some r.
Proof.
  unfold parseAppCommandInputSchema.
  destruct (resolveSchemaLimits overrides) as [limits|e] eqn:Hlimits; simpl.
  - pose proof (parse_root_fueled h limits number_text
      (fun key => proj1 (resolveSchemaLimits_bounded _ _ Hlimits key)) v) as Hf.
    destruct (parse_root _ _ _ _) as [s|[]]; eauto. by destruct Hf.
  - assert (fueled (resolveSchemaLimits overrides)) as Hf by (unfold resolveSchemaLimits; fuel).
    rewrite Hlimits in Hf. destruct e; eauto. by destruct Hf.
Qed.

(** (C13) The parser ends on every value, cyclic or not: it returns a schema or one of its
    errors. *)
Theorem parseAppCommandInputSchema_total h number_text v overrides :
  ∃ r, parseAppCommandInputSchema h number_text v overrides = Some r.
Proof. apply parseAppCommandInputSchema_ends. Qed.

(** * Examples *)

(** An object literal and an array literal. *)
Definition literal (fields : list (string * jsval)) : object :=
  {| o_length := None; o_prototype := ObjectPrototype;
     o_own := (fun '(key, value) =>
       (StringKey (js key), {| pr_value := Some value; pr_enumerable := true |})) <$> fields |}.

Definition array_literal (values : list jsval) : object :=
  {| o_length := Some (N.of_nat (length values)); o_prototype := ArrayPrototype;
     o_own := imap (fun i value => (StringKey (dec_string (N.of_nat i)),
         {| pr_value := Some value; pr_enumerable := true |})) values ++
       [(StringKey (js "length"),
         {| pr_value := Some (VNum (num_of_Z (len values))); pr_enumerable := false |})] |}.

Definition vstr (s : string) : jsval := VStr (js s).

(** Enough for integers below ten. *)
Definition digit_text (x : jsnum) : jstr :=
  match num_integer x with Some n => text n | None => js "0.5" end.

Definition sample_heap : heap :=
  [(0, literal [("required", VRef 1); ("type", vstr "object"); ("properties", VRef 2)]);
   (1, array_literal [vstr "zeta"; vstr "alpha"]);
   (2, literal [("zeta", VRef 3); ("alpha", VRef 5)]);
   (3, literal [("type", vstr "array"); ("items", VRef 4); ("minItems", VNum (num_of_Z 1));
                ("default", VRef 6)]);
   (4, literal [("type", vstr "integer"); ("minimum", VNum (num_of_Z 1))]);
   (5, literal [("type", vstr "string"); ("enum", VRef 7); ("default", vstr "second")]);
   (6, array_literal [VNum (num_of_Z 1)]);
   (7, array_literal [vstr "second"; vstr "first"])].

Definition unannotated : AppCommandInputSchemaAnnotations :=
  {| an_title := None; an_description := None |}.

Definition sample_schema : schema :=
  ObjectSchema false unannotated
    (Some [(js "alpha", StringSchema unannotated
              (Some [AppStr (js "second"); AppStr (js "first")]) None None
              (Some (AppStr (js "second"))));
           (js "zeta", ArraySchema unannotated
              (NumberSchema true unannotated None (Some (num_of_Z 1)) None None None None)
              (Some (num_of_Z 1)) None None (Some (AppArr [AppNum (num_of_Z 1)])))])
    (Some [js "alpha"; js "zeta"]) None None None None.

Example sample_parsed :
  parseAppCommandInputSchema sample_heap digit_text (VRef 0) None = Some (ParseOk sample_schema).
Proof. vm_compute. reflexivity. Qed.

(** A schema that contains itself. *)
Example sample_cycle : ∃ path,
  parseAppCommandInputSchema
    [(0, literal [("type", vstr "object"); ("properties", VRef 1)]);
     (1, literal [("child", VRef 0)])] digit_text (VRef 0) None =
  Some (ParseFailed {| er_code := Invalid; er_path := path;
    er_message := js "command input schemas must not contain cycles" |}).
Proof. eexists. vm_compute. reflexivity. Qed.

(** A name that every object inherits passes for a property that the schema declares. *)
Example inherited_name_required : ∃ s,
  parseAppCommandInputSchema
    [(0, literal [("type", vstr "object"); ("properties", VRef 1); ("required", VRef 2)]);
     (1, literal []); (2, array_literal [vstr "toString"])] digit_text (VRef 0) None =
  Some (ParseOk s).
Proof. eexists. vm_compute. reflexivity. Qed.

Lemma literal_record h l fields :
  jget l h = Some (literal fields) →
  plain_record h (VRef l) ((fun '(key, value) => (js key, value)) <$> fields).
Proof.
  intros Hl. exists l, (literal fields). split_and!; [done|done|done|by left|].
  unfold data_own. simpl. rewrite <-list_fmap_compose. apply list_fmap_ext. by intros i [k x] _.
Qed.

Lemma literals_ok (h : heap) :
  Forall (fun '(_, o) => bool_decide (NoDup (o_own o).*1) = true ∧
    bool_decide (default 0%N (o_length o) < 4294967296)%N = true) h → heap_ok h.
Proof.
  intros Hh. eapply Forall_impl; [exact Hh|]. intros [l o] [Hnd Hlen].
  split; [by apply bool_decide_eq_true in Hnd|]. intros n Hn. rewrite Hn in Hlen.
  by apply bool_decide_eq_true in Hlen.
Qed.

Lemma sample_heap_ok : heap_ok sample_heap.
Proof. apply literals_ok. repeat constructor. Qed.

Lemma parseAppCommandInputSchema_iff_witness :
  heap_ok sample_heap ∧
  ∃ limits s0, resolveSchemaLimits None = Ok limits ∧ denotes sample_heap (to_json s0) (VRef 0) ∧
    well_formed limits digit_text s0 ∧ sample_schema = sort_required s0.
Proof.
  split; [exact sample_heap_ok|].
  apply (parseAppCommandInputSchema_iff sample_heap digit_text (VRef 0) None sample_schema).
  - exact sample_heap_ok.
  - vm_compute. reflexivity.
Defined.

(** Two objects with the same fields in different orders. *)
Definition written : heap :=
  [(0, literal [("properties", VRef 1); ("type", vstr "object")]);
   (1, literal [("b", VRef 2); ("a", VRef 2)]); (2, literal [("type", vstr "boolean")])].

Definition rewritten : heap :=
  [(0, literal [("type", vstr "object"); ("properties", VRef 1)]);
   (1, literal [("a", VRef 2); ("b", VRef 2)]); (2, literal [("type", vstr "boolean")])].

Definition written_schema : schema :=
  ObjectSchema false unannotated
    (Some [(js "a", BooleanSchema unannotated None None);
           (js "b", BooleanSchema unannotated None None)]) None None None None None.

Lemma rewritten_denotes : denotes rewritten (to_json written_schema) (VRef 0).
Proof.
  assert (denotes rewritten (AppObj [(js "type", AppStr (js "boolean"))]) (VRef 2)) as Hb.
  { apply denotes_object. eexists. split; [by apply literal_record|].
    split; [apply (bool_decide_unpack _); vm_compute; exact I|]. split; [done|].
    repeat constructor. by eexists. }
  apply denotes_object. eexists. split; [by apply literal_record|].
  split; [apply (bool_decide_unpack _); vm_compute; exact I|]. split; [done|].
  repeat constructor; eexists; (split; [done|]); [done|].
  apply denotes_object. eexists. split; [by apply literal_record|].
  split; [apply (bool_decide_unpack _); vm_compute; exact I|]. split; [done|].
  repeat constructor; by eexists.
Qed.

Lemma parseAppCommandInputSchema_idempotent_witness :
  parseAppCommandInputSchema written digit_text (VRef 0) None = Some (ParseOk written_schema) ∧
  parseAppCommandInputSchema rewritten digit_text (VRef 0) None = Some (ParseOk written_schema).
Proof.
  split; [vm_compute; reflexivity|].
  apply (parseAppCommandInputSchema_idempotent written digit_text (VRef 0) None written_schema
    rewritten (VRef 0)).
  - apply literals_ok. repeat constructor.
  - apply literals_ok. repeat constructor.
  - vm_compute. reflexivity.
  - exact rewritten_denotes.
Defined.
