(* ===== verification/Extension.v ===== *)
(** The resolution of what extensions contribute ([packages/extension/src/resolver-*.ts]):
    validation, the order of sources, and conflicts between contributions of one id. *)
From Stdlib Require Import Floats.SpecFloat.
From S2P Require Import Prelude JsMap Json JsStr JsonText JsHeap CommandSchema CommandSchemaSpec.

(** * Data ([types-*.ts]) *)

Inductive AppExtensionSourceKind :=
| Builtin | Policy | GlobalFile | ProjectFile | Config | Plugin | Marketplace | Connector
| RuntimeOverride.

#[export] Instance source_kind_eq_dec : EqDecision AppExtensionSourceKind.
Proof. solve_decision. Defined.

Inductive AppExtensionSourceScope :=
| ScopeBuiltin | ScopeEnterprise | ScopeGlobal | ScopeProject | ScopeWorkspace | ScopeUser
| ScopeRuntime.

Inductive AppExtensionTrustLevel := Trusted | UserEnabled | Untrusted | Blocked.

#[export] Instance trust_eq_dec : EqDecision AppExtensionTrustLevel.
Proof. solve_decision. Defined.

Record AppExtensionSource := {
  so_kind : AppExtensionSourceKind;
  so_scope : AppExtensionSourceScope;
  so_id : jstr;
  so_label : option jstr;
  so_path : option jstr;
  so_packageName : option jstr;
  so_version : option jstr;
}.

Record AppExtensionProvenance := {
  pv_source : AppExtensionSource;
  pv_trust : AppExtensionTrustLevel;
  pv_originId : option jstr;
  pv_originLabel : option jstr;
  pv_loadedAt : option jsnum;
}.

Inductive AppExtensionConflictPolicy := Replace | Append | Merge | PolicyError.

#[export] Instance conflict_policy_eq_dec : EqDecision AppExtensionConflictPolicy.
Proof. solve_decision. Defined.

Inductive AppExtensionDiagnosticSeverity := Info | Warning | SeverityError.

#[export] Instance severity_eq_dec : EqDecision AppExtensionDiagnosticSeverity.
Proof. solve_decision. Defined.

Inductive AppExtensionDiagnosticCode :=
| InvalidId | InvalidDomain | BlockedSource | PrivilegedUntrusted
| CommandPaletteVisibilityInvalid | CommandInputSchemaInvalid | CommandInputSchemaUnsupported
| CommandInputSchemaLimitExceeded | DuplicateReplaced | DuplicateError | Appended | Merged.

Record AppExtensionDiagnostic := {
  dg_code : AppExtensionDiagnosticCode;
  dg_severity : AppExtensionDiagnosticSeverity;
  dg_message : jstr;
  dg_contributionId : option jstr;
  dg_domain : option jstr;
  dg_sourceId : option jstr;
  dg_replacedBy : option jstr;
  dg_metadata : option (list (jstr * jsval));
}.

(** A field of a contribution's value: what the extension wrote, or the schema that the
    validation put in its place. *)
Inductive value_field := Raw (v : jsval) | ParsedSchema (s : schema).

(** A value is an object, or an array, string, number or boolean, which has none of the
    fields that are read. *)
Inductive contribution_value :=
| RecordValue (fields : list (jstr * value_field))
| OtherValue (v : jsval).

(** The identity of an object: of one that was passed in, and of the copies that the
    validation and a merge make of the contribution at a place of the order. *)
Inductive identity := Given (n : nat) | Normalized (place : nat) | MergedAt (place : nat).

#[export] Instance identity_eq_dec : EqDecision identity.
Proof. solve_decision. Defined.

Record AppExtensionContribution := {
  ct_identity : identity;
  ct_id : jstr;
  ct_domain : jstr;
  ct_value : contribution_value;
  ct_provenance : AppExtensionProvenance;
  ct_priority : option jsnum;
  ct_order : option jsnum;
  ct_conflictPolicy : option AppExtensionConflictPolicy;
  ct_privileged : option bool;
  ct_metadata : option (list (jstr * jsval));
  ct_diagnostics : option (list AppExtensionDiagnostic);
}.

Record AppExtensionResolutionOptions := {
  ro_sourceOrder : option (list AppExtensionSourceKind);
  ro_allowUntrustedPrivileged : option bool;
}.

Record AppExtensionResolvedDomain := {
  rd_all : list AppExtensionContribution;
  rd_byId : list (jstr * AppExtensionContribution);
}.

(** [rs_byDomain]: a field for each domain. *)
Record AppExtensionResolvedSnapshot := {
  rs_contributions : list AppExtensionContribution;
  rs_byDomain : list (jstr * AppExtensionResolvedDomain);
  rs_diagnostics : list AppExtensionDiagnostic;
}.

(** * Constants and domains ([resolver-constants.ts], [resolver-domain.ts]) *)

Definition APP_EXTENSION_DOMAINS : list jstr :=
  js <$> ["instruction"; "skill"; "command"; "agent"; "tool"; "provider_catalog";
          "lifecycle_hook"]%string.

Definition DEFAULT_APP_EXTENSION_SOURCE_ORDER : list AppExtensionSourceKind :=
  [Builtin; Policy; GlobalFile; ProjectFile; Config; Plugin; Marketplace; Connector;
   RuntimeOverride].

Definition isAppExtensionContributionDomain (domain : jstr) : bool :=
  bool_decide (domain ∈ APP_EXTENSION_DOMAINS).

Definition domainView (contributions : list AppExtensionContribution) (domain : jstr)
    : AppExtensionResolvedDomain :=
  let all := filter (fun contribution => ct_domain contribution = domain) contributions in {|
    rd_all := all;
    rd_byId := foldl (fun byId contribution => jset (ct_id contribution) contribution byId) [] all |}.

(** * Merging ([resolver-merge.ts]) *)

(** [{...current, ...next}] *)
Definition spread {V} (current next : list (jstr * V)) : list (jstr * V) :=
  foldl (fun fields '(key, value) => jset key value fields) current next.

(** [next] where it has the field, and else [current]. *)
Definition spread_field {A} (current next : option A) : option A :=
  match next with Some value => Some value | None => current end.

Definition mergeContribution (place : nat) (current next : AppExtensionContribution)
    : AppExtensionContribution := {|
  ct_identity := MergedAt place;
  ct_id := ct_id next;
  ct_domain := ct_domain next;
  ct_value :=
    match ct_value current, ct_value next with
    | RecordValue current, RecordValue next => RecordValue (spread current next)
    | _, value => value
    end;
  ct_provenance := ct_provenance next;
  ct_priority := spread_field (ct_priority current) (ct_priority next);
  ct_order := spread_field (ct_order current) (ct_order next);
  ct_conflictPolicy := spread_field (ct_conflictPolicy current) (ct_conflictPolicy next);
  ct_privileged := spread_field (ct_privileged current) (ct_privileged next);
  ct_metadata := Some (spread (default [] (ct_metadata current)) (default [] (ct_metadata next)));
  ct_diagnostics := Some (default [] (ct_diagnostics current) ++ default [] (ct_diagnostics next)) |}.

(** * Order ([resolver-order.ts]) *)

(** The rank of each source kind; the last place of a kind counts. *)
Definition buildSourceRank (sourceOrder : list AppExtensionSourceKind)
    : list (AppExtensionSourceKind * Z) :=
  foldl (fun ranks '(source, index) => jset source index ranks) []
    (imap (fun index source => (source, Z.of_nat index)) sourceOrder).

Definition rankSource (contribution : AppExtensionContribution)
    (sourceRank : list (AppExtensionSourceKind * Z)) : Z :=
  default MAX_SAFE_INTEGER (jget (so_kind (pv_source (ct_provenance contribution))) sourceRank).

(** [left ?? 0] *)
Definition or_zero (value : option jsnum) : jsnum := default (num_of_Z 0) value.

Section order.
Context (localeCompare : jstr → jstr → Z).

Definition compareContributions (sourceRank : list (AppExtensionSourceKind * Z))
    (left right : AppExtensionContribution) : Z :=
  or_else (rankSource left sourceRank - rankSource right sourceRank)
  (or_else (num_order (or_zero (ct_priority left)) (or_zero (ct_priority right)))
  (or_else (num_order (or_zero (ct_order left)) (or_zero (ct_order right)))
  (or_else (localeCompare (ct_domain left) (ct_domain right))
  (or_else (localeCompare (ct_id left) (ct_id right))
    (localeCompare (so_id (pv_source (ct_provenance left)))
       (so_id (pv_source (ct_provenance right)))))))).

Definition compare_indexed (sourceRank : list (AppExtensionSourceKind * Z))
    (left right : nat * AppExtensionContribution) : Z :=
  or_else (compareContributions sourceRank left.2 right.2) (Z.of_nat left.1 - Z.of_nat right.1).

Definition stableSortContributions (contributions : list AppExtensionContribution)
    (sourceRank : list (AppExtensionSourceKind * Z)) : list AppExtensionContribution :=
  (js_sort (compare_indexed sourceRank) (imap pair contributions)).*2.
End order.

Definition contributionKey (contribution : AppExtensionContribution) : jstr :=
  ct_domain contribution ++ js ":" ++ ct_id contribution.

(** * Validation ([resolver-validation.ts]) *)

Record ValidatedContribution := {
  vc_contribution : AppExtensionContribution;
  vc_diagnostics : list AppExtensionDiagnostic;
}.

Definition diagnosticCode (code : AppCommandInputSchemaErrorCode) : AppExtensionDiagnosticCode :=
  match code with
  | Invalid => CommandInputSchemaInvalid
  | Unsupported => CommandInputSchemaUnsupported
  | LimitExceeded => CommandInputSchemaLimitExceeded
  end.

Definition error_code_name (code : AppCommandInputSchemaErrorCode) : jstr :=
  js match code with
  | Invalid => "invalid" | Unsupported => "unsupported" | LimitExceeded => "limit_exceeded"
  end%string.

(** The diagnostic of a contribution. *)
Definition report (code : AppExtensionDiagnosticCode) (severity : AppExtensionDiagnosticSeverity)
    (message : jstr) (contribution : AppExtensionContribution) : AppExtensionDiagnostic := {|
  dg_code := code;
  dg_severity := severity;
  dg_message := message;
  dg_contributionId := Some (ct_id contribution);
  dg_domain := Some (ct_domain contribution);
  dg_sourceId := Some (so_id (pv_source (ct_provenance contribution)));
  dg_replacedBy := None;
  dg_metadata := None |}.

(** [value[name]] *)
Definition field (name : string) (value : contribution_value) : value_field :=
  match value with
  | RecordValue fields => default (Raw VUndefined) (jget (js name) fields)
  | OtherValue _ => Raw VUndefined
  end.

Definition fields_of_value (value : contribution_value) : list (jstr * value_field) :=
  match value with RecordValue fields => fields | OtherValue _ => [] end.

Definition is_command (contribution : AppExtensionContribution) : bool :=
  bool_decide (ct_domain contribution = js "command").

(** Trusted enough for a privileged contribution. *)
Definition trust_allows (options : AppExtensionResolutionOptions) (trust : AppExtensionTrustLevel)
    : bool :=
  bool_decide (ro_allowUntrustedPrivileged options = Some true) ||
  bool_decide (trust = Trusted) || bool_decide (trust = UserEnabled).

(** The checks before the schema's. *)
Definition field_diagnostics (contribution : AppExtensionContribution)
    (options : AppExtensionResolutionOptions) : list AppExtensionDiagnostic :=
  let trust := pv_trust (ct_provenance contribution) in
  (if decide (length (trim (ct_id contribution)) = 0) then
     [report InvalidId SeverityError (js "contribution id must not be empty") contribution]
   else []) ++
  (if isAppExtensionContributionDomain (ct_domain contribution) then [] else
     [report InvalidDomain SeverityError
        (js "unsupported contribution domain " ++ ct_domain contribution) contribution]) ++
  (if decide (trust = Blocked) then
     [report BlockedSource SeverityError
        (js "blocked contribution source " ++ so_id (pv_source (ct_provenance contribution)))
        contribution]
   else []) ++
  (if bool_decide (ct_privileged contribution = Some true) && negb (trust_allows options trust) then
     [report PrivilegedUntrusted SeverityError
        (js "privileged contribution " ++ ct_id contribution ++
         js " requires trusted or user-enabled provenance") contribution]
   else []) ++
  (if is_command contribution &&
      match field "paletteVisibility" (ct_value contribution) with
      | Raw (VStr visibility) =>
          bool_decide (visibility ≠ js "visible") && bool_decide (visibility ≠ js "hidden")
      | _ => true
      end then
     [report CommandPaletteVisibilityInvalid SeverityError
        (js "command paletteVisibility must be visible or hidden") contribution]
   else []).

Definition with_schema (place : nat) (s : schema) (contribution : AppExtensionContribution)
    : AppExtensionContribution := {|
  ct_identity := Normalized place;
  ct_id := ct_id contribution;
  ct_domain := ct_domain contribution;
  ct_value := RecordValue
    (jset (js "inputSchema") (ParsedSchema s) (fields_of_value (ct_value contribution)));
  ct_provenance := ct_provenance contribution;
  ct_priority := ct_priority contribution;
  ct_order := ct_order contribution;
  ct_conflictPolicy := ct_conflictPolicy contribution;
  ct_privileged := ct_privileged contribution;
  ct_metadata := ct_metadata contribution;
  ct_diagnostics := ct_diagnostics contribution |}.

Section resolution.
Context (h : heap) (number_text : jsnum → jstr) (localeCompare : jstr → jstr → Z).

(** A parsed schema that is parsed again stays what it is.  [None]: the schema's parser is out
    of fuel. *)
Definition validateContribution (place : nat) (contribution : AppExtensionContribution)
    (options : AppExtensionResolutionOptions) : option ValidatedContribution :=
  let diagnostics := field_diagnostics contribution options in
  let unchanged := {| vc_contribution := contribution; vc_diagnostics := diagnostics |} in
  match is_command contribution, field "inputSchema" (ct_value contribution) with
  | false, _ | true, Raw VUndefined => Some unchanged
  | true, ParsedSchema s =>
      Some {| vc_contribution := with_schema place s contribution; vc_diagnostics := diagnostics |}
  | true, Raw input =>
      parsed ← parseAppCommandInputSchema h number_text input None;
      Some match parsed with
      | ParseOk s =>
          {| vc_contribution := with_schema place s contribution; vc_diagnostics := diagnostics |}
      | ParseFailed error =>
          let failed := report (diagnosticCode (er_code error)) SeverityError (er_message error)
            contribution in
          {| vc_contribution := contribution;
             vc_diagnostics := diagnostics ++
               [{| dg_code := dg_code failed; dg_severity := dg_severity failed;
                   dg_message := dg_message failed; dg_contributionId := dg_contributionId failed;
                   dg_domain := dg_domain failed; dg_sourceId := dg_sourceId failed;
                   dg_replacedBy := None;
                   dg_metadata := Some
                     [(js "schemaPath", VStr (er_path error));
                      (js "schemaError", VStr (error_code_name (er_code error)))] |}] |}
      end
  end.

(** * Conflicts ([resolver-conflicts.ts]) *)

Record ContributionBucket := {
  bk_winner : option AppExtensionContribution;
  bk_values : list AppExtensionContribution;
}.

(** The bucket, and the diagnostics to add. *)
Definition addContributionToBucket (place : nat) (bucket : ContributionBucket)
    (contribution : AppExtensionContribution)
    : ContributionBucket * list AppExtensionDiagnostic :=
  let values := bk_values bucket ++ [contribution] in
  let duplicate := js " duplicate contribution id " ++ ct_id contribution ++ js " for " ++
    ct_domain contribution in
  match bk_winner bucket with
  | None => ({| bk_winner := Some contribution; bk_values := values |}, [])
  | Some current =>
      let kept := {| bk_winner := Some current; bk_values := values |} in
      let policy := default Replace (ct_conflictPolicy contribution) in
      if decide (policy = PolicyError ∨ ct_conflictPolicy current = Some PolicyError) then
        (kept, [report DuplicateError SeverityError (js "duplicate contribution id " ++
           ct_id contribution ++ js " for " ++ ct_domain contribution) contribution])
      else if decide (policy = Append) then
        (kept, [report Appended Info (js "appended" ++ duplicate) contribution])
      else if decide (policy = Merge) then
        ({| bk_winner := Some (mergeContribution place current contribution); bk_values := values |},
         [report Merged Info (js "merged" ++ duplicate) contribution])
      else
        let replaced := report DuplicateReplaced Warning (js "replaced duplicate contribution id " ++
          ct_id current ++ js " for " ++ ct_domain current) current in
        ({| bk_winner := Some contribution; bk_values := values |},
         [{| dg_code := dg_code replaced; dg_severity := dg_severity replaced;
             dg_message := dg_message replaced; dg_contributionId := dg_contributionId replaced;
             dg_domain := dg_domain replaced; dg_sourceId := dg_sourceId replaced;
             dg_replacedBy := Some (so_id (pv_source (ct_provenance contribution)));
             dg_metadata := None |}])
  end.

Definition appends (contribution : AppExtensionContribution) : Prop :=
  ct_conflictPolicy contribution = Some Append.

#[export] Instance appends_dec contribution : Decision (appends contribution).
Proof. apply _. Defined.

Definition bucket_contributions (bucket : ContributionBucket) : list AppExtensionContribution :=
  match bk_winner bucket with
  | None => filter appends (bk_values bucket)
  | Some winner =>
      winner :: filter (fun contribution =>
        ct_identity contribution ≠ ct_identity winner ∧ appends contribution) (bk_values bucket)
  end.

Definition contributionsFromBuckets (buckets : list ContributionBucket)
    : list AppExtensionContribution :=
  buckets ≫= bucket_contributions.

(** * The snapshot ([resolver-snapshot.ts]) *)

Record resolution := {
  rn_buckets : list (jstr * ContributionBucket);
  rn_diagnostics : list AppExtensionDiagnostic;
}.

Definition has_error (diagnostics : list AppExtensionDiagnostic) : bool :=
  existsb (fun diagnostic => bool_decide (dg_severity diagnostic = SeverityError)) diagnostics.

(** The body of the loop over the sorted contributions. *)
Definition resolve_step (options : AppExtensionResolutionOptions) (s : resolution)
    (entry : nat * AppExtensionContribution) : option resolution :=
  let '(place, contribution) := entry in
  validation ← validateContribution place contribution options;
  let diagnostics := rn_diagnostics s ++ vc_diagnostics validation in
  if has_error (vc_diagnostics validation) then
    Some {| rn_buckets := rn_buckets s; rn_diagnostics := diagnostics |}
  else
    let normalized := vc_contribution validation in
    let key := contributionKey normalized in
    let bucket := default {| bk_winner := None; bk_values := [] |} (jget key (rn_buckets s)) in
    let '(bucket, added) := addContributionToBucket place bucket normalized in
    Some {| rn_buckets := jset key bucket (rn_buckets s); rn_diagnostics := diagnostics ++ added |}.

Fixpoint resolve_all (options : AppExtensionResolutionOptions) (s : resolution)
    (entries : list (nat * AppExtensionContribution)) : option resolution :=
  match entries with
  | [] => Some s
  | entry :: entries => s ← resolve_step options s entry; resolve_all options s entries
  end.

Definition resolveAppExtensionContributions (contributions : list AppExtensionContribution)
    (options : AppExtensionResolutionOptions) : option AppExtensionResolvedSnapshot :=
  let sourceOrder := default DEFAULT_APP_EXTENSION_SOURCE_ORDER (ro_sourceOrder options) in
  let sourceRank := buildSourceRank sourceOrder in
  s ← resolve_all options {| rn_buckets := []; rn_diagnostics := [] |}
        (imap pair (stableSortContributions localeCompare contributions sourceRank));
  let resolved := js_sort (compareContributions localeCompare sourceRank)
    (contributionsFromBuckets (rn_buckets s).*2) in
  Some {|
    rs_contributions := resolved;
    rs_byDomain := (fun domain => (domain, domainView resolved domain)) <$> APP_EXTENSION_DOMAINS;
    rs_diagnostics := rn_diagnostics s ++
      (resolved ≫= fun contribution => default [] (ct_diagnostics contribution)) |}.
End resolution.

(** * The order of contributions *)

(** A missing or undefined number of a contribution counts as zero. *)
Definition or_zero_nan (value : option jsnum) : jsnum :=
  match or_zero value with S754_nan => num_of_Z 0 | x => x end.

Definition no_nan (c : AppExtensionContribution) : Prop :=
  ct_priority c ≠ Some S754_nan ∧ ct_order c ≠ Some S754_nan.

#[export] Instance num_order_field {A} (f : A → option jsnum) :
  CompareOrder (fun x y => num_order (or_zero_nan (f x)) (or_zero_nan (f y))).
Proof.
  assert (∀ v, or_zero_nan v ≠ S754_nan) as Hnan.
  { intros v. unfold or_zero_nan. by destruct (or_zero v). }
  split; intros.
  - rewrite num_order_opp. lia.
  - by eapply num_order_trans; [..|eassumption|eassumption].
Qed.

Lemma or_zero_nan_eq v : v ≠ Some S754_nan → or_zero_nan v = or_zero v.
Proof. unfold or_zero_nan. by destruct v as [[]|]. Qed.

Section order_theory.
Context (localeCompare : jstr → jstr → Z) `{!CompareOrder localeCompare}.
Context (sourceRank : list (AppExtensionSourceKind * Z)).

(** The comparison of [compareContributions] where every number counts. *)
Definition compare_numbered (left right : AppExtensionContribution) : Z :=
  or_else (compare_by (fun c => rankSource c sourceRank) left right)
  (or_else (num_order (or_zero_nan (ct_priority left)) (or_zero_nan (ct_priority right)))
  (or_else (num_order (or_zero_nan (ct_order left)) (or_zero_nan (ct_order right)))
  (or_else (localeCompare (ct_domain left) (ct_domain right))
  (or_else (localeCompare (ct_id left) (ct_id right))
    (localeCompare (so_id (pv_source (ct_provenance left)))
       (so_id (pv_source (ct_provenance right)))))))).

#[export] Instance compare_numbered_order : CompareOrder compare_numbered.
Proof.
  unfold compare_numbered. repeat apply or_else_order; try apply _.
Qed.

Lemma compareContributions_numbered c d :
  no_nan c → no_nan d → compareContributions localeCompare sourceRank c d = compare_numbered c d.
Proof.
  intros [Hcp Hco] [Hdp Hdo]. unfold compareContributions, compare_numbered, compare_by.
  by rewrite !or_zero_nan_eq by done.
Qed.

Definition compare_numbered_indexed (left right : nat * AppExtensionContribution) : Z :=
  or_else (compare_numbered left.2 right.2) (compare_by (fun c => Z.of_nat c.1) left right).

#[export] Instance compare_numbered_indexed_order : CompareOrder compare_numbered_indexed.
Proof. apply or_else_order; [apply (compare_order_on snd compare_numbered _)|apply _]. Qed.

Lemma stableSortContributions_perm l : stableSortContributions localeCompare l sourceRank ≡ₚ l.
Proof.
  unfold stableSortContributions. rewrite js_sort_perm. by rewrite imap_pair_snd.
Qed.

Lemma stableSortContributions_sorted l :
  Forall no_nan l →
  StronglySorted (cmp_le compare_numbered) (stableSortContributions localeCompare l sourceRank).
Proof.
  intros Hl. unfold stableSortContributions.
  rewrite (js_sort_ext _ compare_numbered_indexed).
  - apply StronglySorted_fmap_weaken with (R := cmp_le compare_numbered_indexed).
    + intros x y. unfold cmp_le, compare_numbered_indexed, or_else. case_decide; lia.
    + apply js_sort_sorted, _.
  - rewrite Forall_forall in Hl. intros [i x] [j y] Hx Hy.
    unfold compare_indexed, compare_numbered_indexed. simpl.
    rewrite compareContributions_numbered; [done|apply Hl|apply Hl];
      rewrite <-(imap_pair_snd l); [by apply (list_elem_of_fmap_2 snd) in Hx|
                                    by apply (list_elem_of_fmap_2 snd) in Hy].
Qed.

(** Where different contributions compare differently, the order of the contributions does not
    depend on the order in which they are passed. *)
Lemma stableSortContributions_eq l l' :
  Forall no_nan l → l ≡ₚ l' →
  (∀ c d, c ∈ l → d ∈ l → compareContributions localeCompare sourceRank c d = 0%Z → c = d) →
  stableSortContributions localeCompare l sourceRank =
  stableSortContributions localeCompare l' sourceRank.
Proof.
  intros Hl Hp Hdistinct. assert (Forall no_nan l') as Hl' by (by rewrite <-Hp).
  apply (sorted_perm_eq compare_numbered).
  - intros c d. rewrite !stableSortContributions_perm. intros Hc Hd Hcd Hdc.
    rewrite Forall_forall in Hl. apply Hdistinct; [done..|].
    rewrite compareContributions_numbered by auto.
    pose proof (compare_opp c d). unfold cmp_le in *. lia.
  - by apply stableSortContributions_sorted.
  - by apply stableSortContributions_sorted.
  - by rewrite !stableSortContributions_perm.
Qed.
End order_theory.

(** * What is admitted *)

Record admissible (options : AppExtensionResolutionOptions) (c : AppExtensionContribution) : Prop := {
  ad_id : trim (ct_id c) ≠ [];
  ad_domain : ct_domain c ∈ APP_EXTENSION_DOMAINS;
  ad_blocked : pv_trust (ct_provenance c) ≠ Blocked;
  ad_privileged : ct_privileged c = Some true →
    trust_allows options (pv_trust (ct_provenance c)) = true;
  ad_visibility : ct_domain c = js "command" →
    field "paletteVisibility" (ct_value c) = Raw (VStr (js "visible")) ∨
    field "paletteVisibility" (ct_value c) = Raw (VStr (js "hidden"));
}.

Lemma field_diagnostics_admissible options c :
  field_diagnostics c options = [] ↔ admissible options c.
Proof.
  unfold field_diagnostics, is_command, isAppExtensionContributionDomain. split.
  - intros H. apply app_nil in H as [Hid H]. apply app_nil in H as [Hdomain H].
    apply app_nil in H as [Hblocked H]. apply app_nil in H as [Hprivileged Hvisible].
    split.
    + intros E. rewrite E in Hid. by rewrite decide_True in Hid.
    + apply dec_stable. intros E. by rewrite bool_decide_false in Hdomain.
    + intros E. by rewrite decide_True in Hblocked.
    + intros E. rewrite bool_decide_true in Hprivileged by done. by destruct trust_allows.
    + intros E. rewrite bool_decide_true in Hvisible by done. simpl in Hvisible.
      destruct (field _ _) as [[]|]; try done.
      destruct (decide (s = js "visible")) as [->|]; [by left|].
      destruct (decide (s = js "hidden")) as [->|]; [by right|].
      by rewrite !bool_decide_true in Hvisible by done.
  - intros [Hid Hdomain Hblocked Hprivileged Hvisible].
    rewrite decide_False by (by destruct (trim _)).
    rewrite bool_decide_true by done. rewrite decide_False by done. simpl.
    apply app_nil. split.
    + case_bool_decide; [|done]. by rewrite Hprivileged.
    + case_bool_decide; [|done]. simpl. by destruct (Hvisible ltac:(done)) as [-> | ->].
Qed.

Lemma field_diagnostics_errors options c :
  has_error (field_diagnostics c options) = false → field_diagnostics c options = [].
Proof. unfold field_diagnostics, has_error. repeat case_match; done. Qed.

(** A command's value has a visibility, and a schema that was parsed or none. *)
Definition command_value_ok (v : contribution_value) : Prop :=
  (field "paletteVisibility" v = Raw (VStr (js "visible")) ∨
   field "paletteVisibility" v = Raw (VStr (js "hidden"))) ∧
  (field "inputSchema" v = Raw VUndefined ∨ ∃ s, field "inputSchema" v = ParsedSchema s).

Lemma field_with_schema name place s c :
  field name (ct_value (with_schema place s c)) =
    if decide (js "inputSchema" = js name) then ParsedSchema s else field name (ct_value c).
Proof.
  simpl. rewrite jget_jset. case_decide; [done|].
  unfold fields_of_value. by destruct (ct_value c).
Qed.

Section admission.
Context (h : heap) (number_text : jsnum → jstr).

(** What the validation admits is the contribution, with its schema parsed. *)
Lemma validateContribution_admitted place c options v :
  validateContribution h number_text place c options = Some v →
  has_error (vc_diagnostics v) = false →
  admissible options c ∧ vc_diagnostics v = [] ∧
  (vc_contribution v = c ∨ ∃ s, vc_contribution v = with_schema place s c) ∧
  (ct_domain c = js "command" → command_value_ok (ct_value (vc_contribution v))).
Proof.
  intros Hv Herror. unfold validateContribution in Hv.
  assert (vc_diagnostics v = field_diagnostics c options ∧
    (vc_contribution v = c ∧ (is_command c = true → field "inputSchema" (ct_value c) = Raw VUndefined) ∨
     ∃ s, vc_contribution v = with_schema place s c)) as [Hd Hc].
  { destruct (is_command c); [|simplify_eq/=; by split; [|left]].
    destruct (field "inputSchema" (ct_value c)) as [input|s]; [|simplify_eq/=; by eauto].
    destruct (decide (input = VUndefined)) as [->|Hinput]; [simplify_eq/=; by auto|].
    assert (∃ r, vc_diagnostics v = field_diagnostics c options ++ r ∧
      (r = [] → ∃ s, vc_contribution v = with_schema place s c) ∧ (r ≠ [] → has_error r = true))
      as (r & Hr & Hparsed & Hfailed).
    { destruct input; try done; apply bind_Some in Hv as ([] & _ & Hv); simplify_eq/=;
        first [exists []; rewrite app_nil_r; split_and!; by eauto|by eexists (_ :: _)]. }
    unfold has_error in Herror, Hfailed. rewrite Hr, existsb_app in Herror.
    apply orb_false_iff in Herror as [_ Herror]. destruct r; [|naive_solver congruence].
    rewrite app_nil_r in Hr. eauto. }
  rewrite Hd in Herror. apply field_diagnostics_errors in Herror.
  pose proof Herror as [? ? ? ? Hvisible]%field_diagnostics_admissible.
  rewrite Hd, Herror. split_and!; [by apply field_diagnostics_admissible|done|naive_solver|].
  intros Hcommand. unfold command_value_ok. destruct Hc as [[-> Hs]|[s ->]].
  - split; [by apply Hvisible|left]. apply Hs. unfold is_command. by rewrite bool_decide_true.
  - rewrite !field_with_schema. rewrite decide_False, decide_True by done. eauto.
Qed.
End admission.

(** * The buckets as groups *)

Definition empty_bucket : ContributionBucket := {| bk_winner := None; bk_values := [] |}.

(** What becomes of a bucket as the contributions of its key arrive. *)
Definition gather (bucket : ContributionBucket) (group : list (nat * AppExtensionContribution))
    : ContributionBucket :=
  foldl (fun bucket '(place, c) => (addContributionToBucket place bucket c).1) bucket group.

Definition group_of (key : jstr) (admitted : list (nat * AppExtensionContribution)) :=
  filter (fun entry => contributionKey entry.2 = key) admitted.

Section grouping.
Context (h : heap) (number_text : jsnum → jstr) (localeCompare : jstr → jstr → Z).
Context (options : AppExtensionResolutionOptions).

(** What the validation admits, in order. *)
Fixpoint admitted_of (entries : list (nat * AppExtensionContribution))
    : option (list (nat * AppExtensionContribution)) :=
  match entries with
  | [] => Some []
  | (place, c) :: entries =>
      v ← validateContribution h number_text place c options;
      admitted ← admitted_of entries;
      Some (if has_error (vc_diagnostics v) then admitted
            else (place, vc_contribution v) :: admitted)
  end.

Lemma admit_total entries : is_Some (admitted_of entries).
Proof.
  induction entries as [|[place c] entries [admitted IH]]; simpl; [done|].
  assert (is_Some (validateContribution h number_text place c options)) as [v ->].
  { unfold validateContribution. destruct (is_command c), (field "inputSchema" (ct_value c)) as [input|]; try done;
      destruct input; try done;
      (match goal with |- context [parseAppCommandInputSchema h number_text ?v None] =>
        destruct (parseAppCommandInputSchema_ends h number_text v None) as [r ->] end); done. }
  rewrite IH. simpl. by eexists.
Qed.

Lemma elem_of_admit entries admitted place c :
  admitted_of entries = Some admitted → (place, c) ∈ admitted →
  ∃ c0 v, (place, c0) ∈ entries ∧ validateContribution h number_text place c0 options = Some v ∧
    has_error (vc_diagnostics v) = false ∧ c = vc_contribution v.
Proof.
  revert admitted. induction entries as [|[place0 c0] entries IH]; simpl; intros admitted Ha Hin.
  { simplify_eq. by apply not_elem_of_nil in Hin. }
  apply bind_Some in Ha as (v & Hv & Ha). apply bind_Some in Ha as (admitted' & Ha & Heq).
  specialize (IH _ Ha). simplify_eq. destruct (has_error (vc_diagnostics v)) eqn:Herror.
  - destruct (IH Hin) as (c1 & w & Hc1 & Hrest). exists c1, w. split; [by right|done].
  - apply elem_of_cons in Hin as [Heq|Hin].
    + simplify_eq. exists c0, v. split; [by left|done].
    + destruct (IH Hin) as (c1 & w & Hc1 & Hrest). exists c1, w. split; [by right|done].
Qed.

(** The loop puts what is admitted into the bucket of its key. *)
Lemma resolve_all_gather entries s admitted :
  admitted_of entries = Some admitted → NoDup (rn_buckets s).*1 →
  ∃ s', resolve_all h number_text options s entries = Some s' ∧ NoDup (rn_buckets s').*1 ∧
    ∀ key, jget key (rn_buckets s') =
      match group_of key admitted with
      | [] => jget key (rn_buckets s)
      | group => Some (gather (default empty_bucket (jget key (rn_buckets s))) group)
      end.
Proof.
  revert s admitted. induction entries as [|[place c] entries IH]; simpl; intros s admitted Ha Hs.
  { simplify_eq. by exists s. }
  apply bind_Some in Ha as (v & Hv & Ha). apply bind_Some in Ha as (rest & Ha & Heq).
  rewrite Hv. simpl. simplify_eq. destruct (has_error (vc_diagnostics v)) eqn:Herror; simpl.
  { by apply (IH {| rn_buckets := rn_buckets s; rn_diagnostics := _ |}). }
  destruct (addContributionToBucket _ _ _) as [bucket added] eqn:Hbucket. simpl.
  match goal with |- context [resolve_all _ _ _ ?s entries] => destruct (IH s rest Ha) as (s' & -> & Hs' & Hget) end;
    [by apply NoDup_jset|].
  exists s'. split_and!; [done..|]. intros key. rewrite Hget. unfold group_of. simpl.
  rewrite jget_jset.
  destruct (decide (contributionKey (vc_contribution v) = key)) as [Hkey|Hkey].
  - rewrite filter_cons_True by done. rewrite <-Hkey. simpl. unfold empty_bucket. rewrite Hbucket. simpl.
    by destruct (filter _ _).
  - by rewrite filter_cons_False by done.
Qed.

(** The contributions of a snapshot are those of the groups of what is admitted. *)
Lemma resolve_groups contributions :
  ∃ sn admitted buckets,
    resolveAppExtensionContributions h number_text localeCompare contributions options = Some sn ∧
    admitted_of (imap pair (stableSortContributions localeCompare contributions
      (buildSourceRank (default DEFAULT_APP_EXTENSION_SOURCE_ORDER (ro_sourceOrder options))))) =
      Some admitted ∧
    rs_contributions sn ≡ₚ (buckets.*2 ≫= bucket_contributions) ∧ NoDup buckets.*1 ∧
    ∀ key bucket, (key, bucket) ∈ buckets ↔
      group_of key admitted ≠ [] ∧ bucket = gather empty_bucket (group_of key admitted).
Proof.
  destruct (admit_total (imap pair (stableSortContributions localeCompare contributions
    (buildSourceRank (default DEFAULT_APP_EXTENSION_SOURCE_ORDER (ro_sourceOrder options))))))
    as [admitted Ha].
  destruct (resolve_all_gather _ {| rn_buckets := []; rn_diagnostics := [] |} _ Ha)
    as (s & Hs & Hnd & Hget); [constructor|].
  eexists _, admitted, (rn_buckets s). unfold resolveAppExtensionContributions. rewrite Hs. simpl.
  split_and!; [done|done|apply js_sort_perm|done|].
  intros key bucket. split.
  - intros Hin. apply elem_of_jget in Hin; [|done]. rewrite Hget in Hin.
    destruct (group_of key admitted); naive_solver.
  - intros [Hne ->]. apply jget_elem_of. rewrite Hget. by destruct (group_of key admitted).
Qed.
End grouping.

(** * What a snapshot holds *)

Definition same_contribution (c d : AppExtensionContribution) : Prop :=
  ct_id c = ct_id d ∧ ct_domain c = ct_domain d.

(** An entry of a snapshot: it has the source of a contribution that was admitted, the privilege
    of one of its id, and, as a command, a visibility and a parsed schema. *)
Record entry_ok (options : AppExtensionResolutionOptions)
    (contributions : list AppExtensionContribution) (c : AppExtensionContribution) : Prop := {
  en_source : ∃ c0, c0 ∈ contributions ∧ admissible options c0 ∧ same_contribution c c0 ∧
    ct_provenance c = ct_provenance c0;
  en_privileged : ct_privileged c = Some true → ∃ c0, c0 ∈ contributions ∧
    admissible options c0 ∧ same_contribution c c0 ∧ ct_privileged c0 = Some true;
  en_command : ct_domain c = js "command" → command_value_ok (ct_value c);
}.

(** No domain has a colon, so that a key has one domain and one id. *)
Lemma contributionKey_inj c d :
  ct_domain c ∈ APP_EXTENSION_DOMAINS → ct_domain d ∈ APP_EXTENSION_DOMAINS →
  contributionKey c = contributionKey d → same_contribution c d.
Proof.
  unfold contributionKey, same_contribution. generalize (ct_domain c) as x, (ct_domain d) as y.
  assert (∀ x, x ∈ APP_EXTENSION_DOMAINS → COLON ∉ x) as Hcolon.
  { intros x Hx. cut (Forall (fun x => bool_decide (COLON ∉ x) = true) APP_EXTENSION_DOMAINS).
    - rewrite Forall_forall. intros H. by eapply bool_decide_eq_true_1, H.
    - by repeat constructor. }
  intros x y Hx%Hcolon Hy%Hcolon Heq. apply (f_equal (fun s => (index_of COLON s, s))) in Heq.
  simpl in Heq. change (js ":" ++ ct_id c) with (COLON :: ct_id c) in Heq.
  change (js ":" ++ ct_id d) with (COLON :: ct_id d) in Heq.
  rewrite !index_of_app in Heq by done. injection Heq as Hlen Heq.
  apply app_inj_1 in Heq as [-> Heq]; [|done]. by simplify_eq.
Qed.

(** What a spread writes last counts. *)
Lemma jget_spread {V} k (m l : list (jstr * V)) :
  jget k (spread m l) = match jget k (rev l) with Some v => Some v | None => jget k m end.
Proof.
  unfold spread. induction l as [|[k' v'] l IH] using rev_ind; simpl; [done|].
  rewrite foldl_app, rev_app_distr. simpl. rewrite jget_jset. by case_decide.
Qed.

Lemma NoDup_spread {V} (m l : list (jstr * V)) : NoDup m.*1 → NoDup (spread m l).*1.
Proof.
  unfold spread. revert m. induction l as [|[k v] l IH]; simpl; intros m Hm; [done|].
  by apply IH, NoDup_jset.
Qed.

Lemma jget_rev {V} k (m : list (jstr * V)) : NoDup m.*1 → jget k (rev m) = jget k m.
Proof.
  intros Hm. assert (NoDup (rev m).*1) as Hrev by (by rewrite <-Permutation_rev).
  destruct (jget k m) as [v|] eqn:E.
  - apply elem_of_jget; [done|]. apply jget_elem_of in E. by rewrite <-Permutation_rev.
  - apply jget_None in E. apply jget_None. by rewrite <-Permutation_rev.
Qed.

(** The fields of an object have different names. *)
Definition fields_ok (c : AppExtensionContribution) : Prop :=
  NoDup (fields_of_value (ct_value c)).*1.

Lemma fields_ok_merge place c d :
  fields_ok c → fields_ok d → fields_ok (mergeContribution place c d).
Proof.
  unfold fields_ok. simpl. destruct (ct_value c), (ct_value d); simpl; try done.
  intros. by apply NoDup_spread.
Qed.

(** A merge keeps a command's value in order. *)
Lemma command_value_merge place c d :
  fields_ok d → command_value_ok (ct_value c) → command_value_ok (ct_value d) →
  command_value_ok (ct_value (mergeContribution place c d)).
Proof.
  unfold fields_ok, command_value_ok. simpl.
  destruct (ct_value c) as [fields|], (ct_value d) as [fields'|]; try done.
  simpl. intros Hd [_ Hc] [Hvisible Hs]. rewrite !jget_spread, !jget_rev by done. split.
  - destruct (jget (js "paletteVisibility") fields'); naive_solver.
  - by destruct (jget (js "inputSchema") fields').
Qed.

Definition bucket_all (P : AppExtensionContribution → Prop) (b : ContributionBucket) : Prop :=
  (∀ c, bk_winner b = Some c → P c) ∧ Forall P (bk_values b).

Lemma gather_all (P : AppExtensionContribution → Prop) group b :
  (∀ place c d, P c → P d → P (mergeContribution place c d)) →
  (∀ place c, (place, c) ∈ group → P c) → bucket_all P b → bucket_all P (gather b group).
Proof.
  intros Hmerge. revert b. induction group as [|[place c] group IH]; simpl; intros b Hgroup Hb; [done|].
  apply IH; [set_solver|]. assert (P c) as Hc by (apply (Hgroup place); by left).
  destruct Hb as [Hw Hv]. unfold addContributionToBucket.
  destruct (bk_winner b) as [w|]; repeat case_decide; split; simpl;
    try (by apply Forall_app; auto); naive_solver.
Qed.

Lemma bucket_contributions_all P b c :
  bucket_all P b → c ∈ bucket_contributions b → P c.
Proof.
  unfold bucket_all, bucket_contributions. rewrite Forall_forall. intros [Hw Hv].
  destruct (bk_winner b) as [w|]; rewrite ?elem_of_cons, list_elem_of_filter; naive_solver.
Qed.

Lemma contributionKey_domain options contributions c :
  entry_ok options contributions c → ct_domain c ∈ APP_EXTENSION_DOMAINS.
Proof. intros [(c0 & _ & [] & [_ ->] & _) _ _]. done. Qed.

Lemma entry_ok_merge options contributions place c d :
  fields_ok d → contributionKey c = contributionKey d →
  entry_ok options contributions c → entry_ok options contributions d →
  entry_ok options contributions (mergeContribution place c d).
Proof.
  intros Hfields Hkey Hc Hd.
  assert (same_contribution c d) as [Hid Hdomain]
    by (eapply contributionKey_inj; eauto using contributionKey_domain).
  destruct Hc as [_ Hpc Hvc], Hd as [Hsd Hpd Hvd]. split.
  - done.
  - unfold same_contribution in *. simpl. destruct (ct_privileged d) as [p|]; simpl; [done|].
    by rewrite <-Hid, <-Hdomain.
  - intros Hcommand. apply command_value_merge; [done|apply Hvc; by rewrite Hdomain|by apply Hvd].
Qed.

Lemma entry_ok_admitted h number_text options contributions place c v :
  c ∈ contributions → fields_ok c →
  validateContribution h number_text place c options = Some v →
  has_error (vc_diagnostics v) = false →
  entry_ok options contributions (vc_contribution v) ∧ fields_ok (vc_contribution v).
Proof.
  intros Hin Hfields Hv Herror.
  destruct (validateContribution_admitted _ _ _ _ _ _ Hv Herror) as (Had & _ & Hsame & Hcommand).
  split; [split|].
  - exists c. by destruct Hsame as [-> | [s ->]].
  - intros Hp. exists c. by destruct Hsame as [E|[s E]]; rewrite E in Hp |- *.
  - intros Hd. apply Hcommand. by destruct Hsame as [E|[s E]]; rewrite E in Hd.
  - destruct Hsame as [-> | [s ->]]; [done|]. unfold fields_ok. simpl. by apply NoDup_jset.
Qed.

(** (C14) What extensions may contribute: every entry of a snapshot has a supported domain and a
    nonblank id, its source is not blocked, a privileged entry has a contribution of its id that
    is privileged and whose source is trusted enough, and a command has a visibility and either a
    parsed schema or none. *)
Theorem resolveAppExtensionContributions_admitted h number_text localeCompare contributions options sn c :
  Forall fields_ok contributions →
  resolveAppExtensionContributions h number_text localeCompare contributions options = Some sn →
  c ∈ rs_contributions sn → entry_ok options contributions c.
Proof.
  rewrite Forall_forall. intros Hfields Hsn Hc.
  destruct (resolve_groups h number_text localeCompare options contributions)
    as (sn' & admitted & buckets & Hsn' & Ha & Hp & _ & Hbuckets). simplify_eq.
  rewrite Hp in Hc. apply list_elem_of_bind in Hc as (b & Hc & Hb).
  apply list_elem_of_fmap in Hb as ([key b'] & -> & Hb). simpl in Hc.
  destruct (proj1 (Hbuckets _ _) Hb) as [_ ->].
  apply (bucket_contributions_all (fun c => entry_ok options contributions c ∧ fields_ok c ∧
    contributionKey c = key) _ _) in Hc as [Hc _]; [done|].
  apply gather_all.
  - intros place d e (Hd & Hfd & Hkd) (He & Hfe & Hke). split_and!; [|by apply fields_ok_merge|done].
    apply entry_ok_merge; [done|congruence|done|done].
  - intros place d Hd. apply list_elem_of_filter in Hd as [Hkey Hd]. simpl in Hkey.
    apply (elem_of_admit _ _ _ _ _ _ _ Ha) in Hd as (d0 & v & Hd0 & Hv & Herror & ->).
    assert (d0 ∈ contributions) as Hin.
    { apply (list_elem_of_fmap_2 snd) in Hd0. rewrite imap_pair_snd in Hd0.
      by rewrite stableSortContributions_perm in Hd0. }
    destruct (entry_ok_admitted h number_text options contributions place d0 v); auto.
  - split; [done|constructor].
Qed.

(** The resolution does not depend on the order in which contributions are passed, where
    their numbers are numbers and different ones compare differently. *)
Theorem resolveAppExtensionContributions_order h number_text localeCompare contributions
    contributions' options :
  CompareOrder localeCompare →
  Forall no_nan contributions → contributions ≡ₚ contributions' →
  (∀ c d, c ∈ contributions → d ∈ contributions →
    compareContributions localeCompare
      (buildSourceRank (default DEFAULT_APP_EXTENSION_SOURCE_ORDER (ro_sourceOrder options))) c d =
      0%Z → c = d) →
  resolveAppExtensionContributions h number_text localeCompare contributions options =
  resolveAppExtensionContributions h number_text localeCompare contributions' options.
Proof.
  intros Horder Hnan Hp Hdistinct. unfold resolveAppExtensionContributions.
  by rewrite (stableSortContributions_eq localeCompare _ contributions contributions').
Qed.

(** ** Replacement *)

(** The policy of a contribution that replaces. *)
Definition replaces (c : AppExtensionContribution) : Prop :=
  ct_conflictPolicy c = None ∨ ct_conflictPolicy c = Some Replace.

Lemma add_replaces place b c :
  (∀ w, bk_winner b = Some w → replaces w) → replaces c →
  (addContributionToBucket place b c).1 = {| bk_winner := Some c; bk_values := bk_values b ++ [c] |}.
Proof.
  unfold addContributionToBucket, replaces. intros Hb Hc.
  destruct (bk_winner b) as [w|]; [specialize (Hb w eq_refl)|done].
  rewrite decide_False by (destruct Hc as [-> | ->], Hb as [-> | ->]; naive_solver).
  by rewrite !decide_False by (destruct Hc as [-> | ->]; naive_solver).
Qed.

Lemma gather_replaces b group place c :
  (∀ w, bk_winner b = Some w → replaces w) → Forall (fun e => replaces e.2) (group ++ [(place, c)]) →
  gather b (group ++ [(place, c)]) =
    {| bk_winner := Some c; bk_values := bk_values b ++ group.*2 ++ [c] |}.
Proof.
  revert b. induction group as [|[place' d] group IH]; intros b Hb Hg; simpl;
    apply Forall_cons in Hg as [Hd Hg]; rewrite add_replaces by done; [done|].
  rewrite IH by naive_solver. simpl. by rewrite <-app_assoc.
Qed.

Lemma bucket_replaces group place c :
  Forall (fun e => replaces e.2) (group ++ [(place, c)]) →
  bucket_contributions (gather empty_bucket (group ++ [(place, c)])) = [c].
Proof.
  intros Hg. rewrite gather_replaces by done. unfold bucket_contributions. simpl.
  rewrite filter_none; [done|]. apply Forall_app in Hg as [Hg Hc].
  intros d Hd [_ Happend]. unfold appends in Happend.
  assert (replaces d) as Hr; [|by destruct Hr as [E|E]; rewrite E in Happend].
  rewrite Forall_forall in Hg. apply elem_of_app in Hd as [Hd|Hd].
  - apply list_elem_of_fmap in Hd as ([p e] & -> & He). by apply (Hg (p, e)).
  - apply list_elem_of_singleton in Hd as ->. exact (Forall_inv Hc).
Qed.

Lemma filter_snoc {A} (P : A → Prop) `{∀ x, Decision (P x)} (l group : list A) x :
  filter P l = group ++ [x] ↔
  ∃ before after, l = before ++ x :: after ∧ filter P before = group ∧ P x ∧ filter P after = [].
Proof.
  split.
  - revert group. induction l as [|y l IH] using rev_ind; intros group Hl; [by destruct group|].
    rewrite filter_app in Hl. destruct (decide (P y)) as [Hy|Hy].
    + rewrite filter_cons_True in Hl by done. apply app_inj_tail in Hl as [Hl ->].
      by exists l, [].
    + rewrite filter_cons_False in Hl by done. rewrite app_nil_r in Hl.
      destruct (IH _ Hl) as (before & after & -> & Hbefore & Hx & Hafter).
      exists before, (after ++ [y]). split_and!; [by rewrite <-app_assoc|done..|].
      by rewrite filter_app, Hafter, filter_cons_False by done.
  - intros (before & after & -> & <- & Hx & Hafter).
    by rewrite filter_app, filter_cons_True, Hafter by done.
Qed.

(** The last that is admitted of its key. *)
Definition last_of_key (admitted : list (nat * AppExtensionContribution))
    (c : AppExtensionContribution) : Prop :=
  ∃ before place after, admitted = before ++ (place, c) :: after ∧
    ∀ e, e ∈ after → contributionKey e.2 ≠ contributionKey c.

Lemma last_of_key_group admitted c :
  last_of_key admitted c ↔
  ∃ group place, group_of (contributionKey c) admitted = group ++ [(place, c)].
Proof.
  unfold last_of_key, group_of. split.
  - intros (before & place & after & -> & Hafter). eexists _, place.
    apply filter_snoc. exists before, after. split_and!; [done..|].
    apply filter_none. intros e He. by apply Hafter.
  - intros (group & place & Hg). apply filter_snoc in Hg as (before & after & -> & _ & _ & Hafter).
    exists before, place, after. split; [done|]. intros e He Hkey.
    eapply not_elem_of_nil. rewrite <-Hafter. apply list_elem_of_filter. by split; [|exact He].
Qed.

Lemma last_of_key_unique admitted c d :
  last_of_key admitted c → last_of_key admitted d → contributionKey c = contributionKey d → c = d.
Proof.
  rewrite !last_of_key_group. intros (g & p & Hg) (g' & p' & Hg') Hkey.
  rewrite Hkey, Hg' in Hg. by apply app_inj_tail in Hg as [_ [= _ ->]].
Qed.

Lemma jget_pairs {K V} `{EqDecision K} (f : K → V) k l :
  k ∈ l → jget k ((fun k => (k, f k)) <$> l) = Some (f k).
Proof.
  induction l as [|k' l IH]; simpl; [set_solver|]. case_decide; [by subst|]. set_solver.
Qed.

(** An entry that is the only one of its id and domain is found by them. *)
Lemma domainView_byId contributions c :
  c ∈ contributions →
  (∀ d, d ∈ contributions → same_contribution d c → d = c) →
  jget (ct_id c) (rd_byId (domainView contributions (ct_domain c))) = Some c.
Proof.
  intros Hc Hunique. unfold domainView. simpl. generalize dependent contributions. intros l Hc Hunique.
  set (all := filter _ l).
  assert (∀ m, foldl (fun byId c => jset (ct_id c) c byId) m all =
    spread m ((fun c => (ct_id c, c)) <$> all)) as ->.
  { unfold spread. induction all as [|d all IH]; intros m; simpl; [done|]. apply IH. }
  rewrite jget_spread.
  assert (is_Some (jget (ct_id c) (rev ((fun c => (ct_id c, c)) <$> all)))) as [d Hd].
  { apply jget_is_Some. rewrite <-Permutation_rev, <-list_fmap_compose.
    apply list_elem_of_fmap. exists c. split; [done|]. by apply list_elem_of_filter. }
  rewrite Hd. f_equal. apply jget_elem_of in Hd. rewrite <-Permutation_rev in Hd.
  apply list_elem_of_fmap in Hd as (e & [= Hid ->] & He).
  apply list_elem_of_filter in He as [Hdomain He]. by apply Hunique.
Qed.

Lemma admit_keeps h number_text options entries admitted place c :
  admitted_of h number_text options entries = Some admitted → (place, c) ∈ admitted →
  ∃ c0, (place, c0) ∈ entries ∧ admissible options c0 ∧ same_contribution c c0 ∧
    ct_conflictPolicy c = ct_conflictPolicy c0.
Proof.
  intros Ha Hc. apply (elem_of_admit _ _ _ _ _ _ _ Ha) in Hc as (c0 & v & Hc0 & Hv & Herror & ->).
  destruct (validateContribution_admitted _ _ _ _ _ _ Hv Herror) as (Had & _ & Hsame & _).
  exists c0. by destruct Hsame as [-> | [s ->]].
Qed.

(** Where all replace, a snapshot has the last of each key and nothing else. *)
Lemma groups_replace admitted (buckets : list (jstr * ContributionBucket)) c :
  (∀ e, e ∈ admitted → replaces e.2) →
  (∀ key bucket, (key, bucket) ∈ buckets ↔
    group_of key admitted ≠ [] ∧ bucket = gather empty_bucket (group_of key admitted)) →
  c ∈ buckets.*2 ≫= bucket_contributions ↔ last_of_key admitted c.
Proof.
  intros Hall Hbuckets.
  assert (∀ key, Forall (fun e => replaces e.2) (group_of key admitted)) as Hgroup.
  { intros key. apply Forall_forall. intros e He. apply list_elem_of_filter in He as [_ He]. auto. }
  rewrite list_elem_of_bind, last_of_key_group. split.
  - intros (b & Hc & Hb). apply list_elem_of_fmap in Hb as ([key b'] & -> & Hb). simpl in Hc.
    destruct (proj1 (Hbuckets _ _) Hb) as [Hne ->]. specialize (Hgroup key).
    destruct (exists_last Hne) as (group & [place d] & Hg). rewrite Hg in Hgroup, Hc.
    rewrite bucket_replaces in Hc by done. apply list_elem_of_singleton in Hc as ->.
    exists group, place. rewrite <-Hg. f_equal.
    assert ((place, d) ∈ group_of key admitted) as Hin by (rewrite Hg; set_solver).
    by apply list_elem_of_filter in Hin as [Hin _].
  - intros (group & place & Hg). exists (gather empty_bucket (group_of (contributionKey c) admitted)).
    specialize (Hgroup (contributionKey c)). rewrite Hg in Hgroup |- *.
    rewrite bucket_replaces by done. split; [by left|].
    apply list_elem_of_fmap. eexists (_, _). split; [done|]. apply Hbuckets.
    rewrite Hg. split; [by destruct group|done].
Qed.

Lemma resolved_byDomain h number_text localeCompare contributions options sn :
  resolveAppExtensionContributions h number_text localeCompare contributions options = Some sn →
  rs_byDomain sn =
    (fun domain => (domain, domainView (rs_contributions sn) domain)) <$> APP_EXTENSION_DOMAINS.
Proof.
  unfold resolveAppExtensionContributions. intros Hsn. apply bind_Some in Hsn as (s & _ & Hsn).
  by simplify_eq.
Qed.

(** Where every contribution replaces, a snapshot has, of each domain and id, the one that is
    admitted last in the order of sources, priorities and orders, and finds it by them; the
    resolution ends. *)
Theorem resolveAppExtensionContributions_last h number_text localeCompare contributions options :
  Forall replaces contributions →
  ∃ sn admitted,
    resolveAppExtensionContributions h number_text localeCompare contributions options = Some sn ∧
    admitted_of h number_text options (imap pair (stableSortContributions localeCompare contributions
      (buildSourceRank (default DEFAULT_APP_EXTENSION_SOURCE_ORDER (ro_sourceOrder options))))) =
      Some admitted ∧
    (∀ c, c ∈ rs_contributions sn ↔ last_of_key admitted c) ∧
    (∀ c, c ∈ rs_contributions sn → ∃ view,
      jget (ct_domain c) (rs_byDomain sn) = Some view ∧ jget (ct_id c) (rd_byId view) = Some c).
Proof.
  rewrite Forall_forall. intros Hall.
  destruct (resolve_groups h number_text localeCompare options contributions)
    as (sn & admitted & buckets & Hsn & Ha & Hp & _ & Hbuckets). exists sn, admitted.
  assert (∀ place c, (place, c) ∈ admitted → replaces c ∧ ct_domain c ∈ APP_EXTENSION_DOMAINS)
    as Hadmitted.
  { intros place c Hc. destruct (admit_keeps _ _ _ _ _ _ _ Ha Hc) as (c0 & Hc0 & [] & [_ ->] & Hpolicy).
    split; [|done]. unfold replaces. rewrite Hpolicy. apply Hall.
    apply (list_elem_of_fmap_2 snd) in Hc0. rewrite imap_pair_snd in Hc0.
    by rewrite stableSortContributions_perm in Hc0. }
  assert (∀ c, c ∈ rs_contributions sn ↔ last_of_key admitted c) as Hlast.
  { intros c. rewrite Hp. apply groups_replace; [|done]. intros [place d] Hd. by eapply Hadmitted. }
  split_and!; [done..|]. intros c Hc.
  rewrite (resolved_byDomain _ _ _ _ _ _ Hsn). pose proof (proj1 (Hlast c) Hc) as (before & place & after & Hadm & _).
  eexists. split; [apply jget_pairs, (Hadmitted place); rewrite Hadm; set_solver|].
  apply domainView_byId; [done|]. intros d Hd [Hid Hdomain].
  apply (last_of_key_unique admitted); [by apply Hlast..|].
  unfold contributionKey. by rewrite Hid, Hdomain.
Qed.

(** * Examples *)

Definition sample_source (kind : AppExtensionSourceKind) (scope : AppExtensionSourceScope)
    (id : string) (trust : AppExtensionTrustLevel) : AppExtensionProvenance := {|
  pv_source := {| so_kind := kind; so_scope := scope; so_id := js id; so_label := None;
    so_path := None; so_packageName := None; so_version := None |};
  pv_trust := trust; pv_originId := None; pv_originLabel := None; pv_loadedAt := None |}.

Definition sample_contribution (n : nat) (domain id : string) (fields : list (string * jsval))
    (provenance : AppExtensionProvenance) (policy : option AppExtensionConflictPolicy)
    (privileged : option bool) : AppExtensionContribution := {|
  ct_identity := Given n; ct_id := js id; ct_domain := js domain;
  ct_value := RecordValue ((fun '(name, value) => (js name, Raw value)) <$> fields);
  ct_provenance := provenance; ct_priority := None; ct_order := None; ct_conflictPolicy := policy;
  ct_privileged := privileged; ct_metadata := None; ct_diagnostics := None |}.

Definition sample_options : AppExtensionResolutionOptions :=
  {| ro_sourceOrder := None; ro_allowUntrustedPrivileged := None |}.

Definition sample_command (n : nat) (policy : option AppExtensionConflictPolicy)
    (provenance : AppExtensionProvenance) : AppExtensionContribution :=
  sample_contribution n "command" "deploy"
    [("paletteVisibility", VStr (js "visible")); ("inputSchema", VRef 0)] provenance policy None.

Definition builtin := sample_source Builtin ScopeBuiltin "wanex" Trusted.
Definition plugin := sample_source Plugin ScopeUser "acme" Untrusted.

Definition sample_contributions : list AppExtensionContribution :=
  [sample_command 1 None plugin; sample_command 0 (Some Replace) builtin;
   sample_contribution 2 "tool" "shell" [] (sample_source Plugin ScopeUser "bad" Blocked) None None].

Definition resolve_sample (contributions : list AppExtensionContribution) :=
  resolveAppExtensionContributions sample_heap digit_text js_order contributions sample_options.

(** The plugin's command comes later than the built-in one, and a blocked source contributes
    nothing. *)
Example resolve_sample_commands :
  (fun sn => ((fun c => (ct_identity c, ct_id c)) <$> rs_contributions sn,
              dg_code <$> rs_diagnostics sn)) <$> resolve_sample sample_contributions =
  Some ([(Normalized 1, js "deploy")], [DuplicateReplaced; BlockedSource]).
Proof. vm_compute. reflexivity. Qed.

Definition merged_contributions : list AppExtensionContribution :=
  [sample_contribution 0 "tool" "shell" [("run", VStr (js "safe"))] builtin None (Some true);
   sample_contribution 1 "tool" "shell" [("run", VStr (js "other"))] plugin (Some Merge) None].

(** A contribution of an untrusted source that merges with a privileged one has its privilege,
    although the validation rejects a privileged contribution of that source. *)
Lemma merge_keeps_privilege :
  ∃ sn c, resolve_sample merged_contributions = Some sn ∧ rs_contributions sn = [c] ∧
    ct_privileged c = Some true ∧ pv_trust (ct_provenance c) = Untrusted ∧
    field "run" (ct_value c) = Raw (VStr (js "other")) ∧
    ¬ admissible sample_options c.
Proof.
  eexists _, _. split_and!; [vm_compute; reflexivity|reflexivity..|].
  intros [_ _ _ Hprivileged _]. by specialize (Hprivileged eq_refl).
Qed.

Lemma resolveAppExtensionContributions_admitted_witness :
  ∃ sn c, resolve_sample sample_contributions = Some sn ∧ c ∈ rs_contributions sn ∧
    ct_identity c = Normalized 1 ∧ entry_ok sample_options sample_contributions c.
Proof.
  eexists _, _. split; [vm_compute; reflexivity|]. split; [by left|]. split; [reflexivity|].
  eapply (resolveAppExtensionContributions_admitted sample_heap digit_text js_order);
    [|vm_compute; reflexivity|by left].
  repeat constructor; by apply (bool_decide_unpack _).
Defined.

Lemma resolveAppExtensionContributions_order_witness :
  resolve_sample sample_contributions = resolve_sample (rev sample_contributions) ∧
  sample_contributions ≠ rev sample_contributions.
Proof.
  split; [|done].
  apply (resolveAppExtensionContributions_order sample_heap digit_text js_order).
  - apply _.
  - by repeat constructor.
  - apply Permutation_rev.
  - intros c d Hc Hd. unfold sample_contributions in Hc, Hd.
    rewrite !elem_of_cons, elem_of_nil in Hc, Hd.
    by destruct Hc as [->|[->|[->|[]]]], Hd as [->|[->|[->|[]]]].
Defined.

Lemma resolveAppExtensionContributions_last_witness :
  ∃ sn, resolve_sample sample_contributions = Some sn ∧ length (rs_contributions sn) = 1 ∧
    ∀ c, c ∈ rs_contributions sn → ∃ view,
      jget (ct_domain c) (rs_byDomain sn) = Some view ∧ jget (ct_id c) (rd_byId view) = Some c.
Proof.
  destruct (resolveAppExtensionContributions_last sample_heap digit_text js_order
    sample_contributions sample_options) as (sn & admitted & Hsn & _ & _ & Hviews).
  - apply Forall_forall. unfold sample_contributions, replaces. intros c Hc.
    rewrite !elem_of_cons, elem_of_nil in Hc. destruct Hc as [->|[->|[->|[]]]]; auto.
  - exists sn. split; [exact Hsn|]. split; [|exact Hviews].
    vm_compute in Hsn. by simplify_eq.
Defined.
