(* ===== verification/BatchOrder.v ===== *)
(** Dependency ordering of a proposal batch
    ([packages/workspace/src/review/apply/batch-order.ts]): validation of the
    items, Kahn's algorithm over the dependency graph with the ready queue kept
    in the items' original order, and its refinement of a greedy
    specification. *)
From S2P Require Import Prelude JsMap Json.

(** * The code *)

Record ApplyProposalBatchItem := {
  bi_proposalId : string;
  bi_dependsOn : option (list string);
  bi_actorId : option string;
  bi_metadata : option json;
}.

Record PlannedBatchItem := {
  pi_proposalId : string;
  pi_dependsOn : list string;
  pi_actorId : option string;
  pi_metadata : option json;
}.

Inductive batch_error :=
| EmptyBatch
| EmptyProposalId
| EmptyActorId
| DuplicateItem (id : string)
| EmptyDependency (id : string)
| SelfDependency (id : string)
| DuplicateDependency (id dep : string)
| DependencyNotFound (id dep : string)
| ItemDisappeared (id : string)
| DependencyCycle
| DrainFuel.

Definition validateBatchItem (item : ApplyProposalBatchItem) : result batch_error unit :=
  _ ← guard_throw (bool_decide (bi_proposalId item = "")) EmptyProposalId;
  guard_throw (bool_decide (bi_actorId item = Some "")) EmptyActorId.

Definition plan_item (item : ApplyProposalBatchItem) : PlannedBatchItem := {|
  pi_proposalId := bi_proposalId item;
  pi_dependsOn := default [] (bi_dependsOn item);
  pi_actorId := bi_actorId item;
  pi_metadata := bi_metadata item;
|}.

Abbreviation item_map := (list (string * PlannedBatchItem)).
Abbreviation index_map := (list (string * Z)).

(** The body of the loop over [items.entries()]. *)
Definition collect_item (st : item_map * index_map)
    (entry : Z * ApplyProposalBatchItem) : result batch_error (item_map * index_map) :=
  let '(byProposalId, originalIndex) := st in
  let '(index, item) := entry in
  _ ← validateBatchItem item;
  _ ← guard_throw (jhas (bi_proposalId item) byProposalId)
        (DuplicateItem (bi_proposalId item));
  Ok (jset (bi_proposalId item) (plan_item item) byProposalId,
      jset (bi_proposalId item) index originalIndex).

Definition check_dependency (byProposalId : item_map) (id : string)
    (seenDependencies : list string) (dep : string) : result batch_error (list string) :=
  _ ← guard_throw (bool_decide (dep = "")) (EmptyDependency id);
  _ ← guard_throw (bool_decide (dep = id)) (SelfDependency id);
  _ ← guard_throw (bool_decide (dep ∈ seenDependencies)) (DuplicateDependency id dep);
  _ ← guard_throw (negb (jhas dep byProposalId)) (DependencyNotFound id dep);
  Ok (seenDependencies ++ [dep]).

Definition check_item (byProposalId : item_map) (_ : unit) (item : PlannedBatchItem)
    : result batch_error unit :=
  _ ← foldM (check_dependency byProposalId (pi_proposalId item)) []
        (pi_dependsOn item);
  Ok tt.

Abbreviation edge_map := (list (string * list string)).

(** [outgoing.get(dependencyId)?.push(item.proposalId)] and the increment of
    the dependent's indegree. *)
Definition add_edge (id : string) (g : edge_map * index_map) (dep : string)
    : edge_map * index_map :=
  let '(outgoing, indegree) := g in
  (match jget dep outgoing with
   | Some l => jset dep (l ++ [id]) outgoing
   | None => outgoing
   end,
   jset id (default 0 (jget id indegree) + 1)%Z indegree).

Definition init_graph (items : list PlannedBatchItem) : edge_map * index_map :=
  foldl (fun '(outgoing, indegree) item =>
           (jset (pi_proposalId item) [] outgoing,
            jset (pi_proposalId item) 0%Z indegree)) ([], []) items.

Definition build_graph (items : list PlannedBatchItem) : edge_map * index_map :=
  foldl (fun g item => foldl (add_edge (pi_proposalId item)) g (pi_dependsOn item))
    (init_graph items) items.

Definition compareByOriginalIndex (originalIndex : index_map) (left right : string) : Z :=
  compare_by (fun id => default 0%Z (jget id originalIndex)) left right.

Definition initial_ready (originalIndex indegree : index_map) : list string :=
  js_sort (compareByOriginalIndex originalIndex)
    (filter (fun e : string * Z => e.2 = 0%Z) indegree).*1.

(** One dependent of the item just ordered loses an unmet dependency. *)
Definition release_dependent (originalIndex : index_map)
    (st : list string * index_map) (dependentId : string) : list string * index_map :=
  let '(ready, indegree) := st in
  let nextIndegree := (default 0 (jget dependentId indegree) - 1)%Z in
  let indegree := jset dependentId nextIndegree indegree in
  if decide (nextIndegree = 0%Z)
  then (js_sort (compareByOriginalIndex originalIndex) (ready ++ [dependentId]), indegree)
  else (ready, indegree).

Record drain_state := {
  ds_ready : list string;
  ds_ordered : list PlannedBatchItem;
  ds_outgoing : edge_map;
  ds_indegree : index_map;
}.

(** The body of [while (ready.length > 0)]; [dependents.sort] sorts the array
    stored in [outgoing] in place. *)
Definition drain_step (byProposalId : item_map) (originalIndex : index_map)
    (proposalId : string) (ready : list string) (st : drain_state)
    : result batch_error drain_state :=
  match jget proposalId byProposalId with
  | None => Throw (ItemDisappeared proposalId)
  | Some item =>
      let stored := jget proposalId (ds_outgoing st) in
      let dependents :=
        js_sort (compareByOriginalIndex originalIndex) (default [] stored) in
      let outgoing :=
        match stored with
        | Some _ => jset proposalId dependents (ds_outgoing st)
        | None => ds_outgoing st
        end in
      let '(ready, indegree) :=
        foldl (release_dependent originalIndex) (ready, ds_indegree st) dependents in
      Ok {| ds_ready := ready; ds_ordered := ds_ordered st ++ [item];
            ds_outgoing := outgoing; ds_indegree := indegree |}
  end.

Fixpoint drain (fuel : nat) (byProposalId : item_map) (originalIndex : index_map)
    (st : drain_state) : result batch_error (list PlannedBatchItem) :=
  match ds_ready st with
  | [] => Ok (ds_ordered st)
  | proposalId :: ready =>
      match fuel with
      | O => Throw DrainFuel
      | S fuel =>
          st' ← drain_step byProposalId originalIndex proposalId ready st;
          drain fuel byProposalId originalIndex st'
      end
  end.

Definition planProposalBatch (items : list ApplyProposalBatchItem)
    : result batch_error (list PlannedBatchItem) :=
  _ ← guard_throw (bool_decide (items = [])) EmptyBatch;
  '(byProposalId, originalIndex) ←
    foldM collect_item ([], []) (imap (fun i item => (Z.of_nat i, item)) items);
  _ ← foldM (check_item byProposalId) tt byProposalId.*2;
  let '(outgoing, indegree) := build_graph byProposalId.*2 in
  orderedItems ← drain (length items) byProposalId originalIndex {|
    ds_ready := initial_ready originalIndex indegree;
    ds_ordered := [];
    ds_outgoing := outgoing;
    ds_indegree := indegree |};
  _ ← guard_throw (negb (bool_decide (length orderedItems = length items)))
        DependencyCycle;
  Ok orderedItems.

(** * The specification: repeatedly take the first item, in the caller's
    order, all of whose dependencies have been taken *)

Definition eligible (done : list string) (item : PlannedBatchItem) : Prop :=
  pi_proposalId item ∉ done ∧ Forall (fun d => d ∈ done) (pi_dependsOn item).

#[export] Instance eligible_dec done item : Decision (eligible done item).
Proof. unfold eligible. apply _. Defined.

Fixpoint greedy (fuel : nat) (items : list PlannedBatchItem) (done : list string)
    : list PlannedBatchItem :=
  match fuel with
  | O => []
  | S fuel =>
      match filter (eligible done) items with
      | [] => []
      | item :: _ => item :: greedy fuel items (done ++ [pi_proposalId item])
      end
  end.

(** What validation establishes of the planned items. *)
Record well_formed (items : list PlannedBatchItem) : Prop := {
  wf_ids : NoDup (pi_proposalId <$> items);
  wf_deps_NoDup item : item ∈ items → NoDup (pi_dependsOn item);
  wf_deps_known item d :
    item ∈ items → d ∈ pi_dependsOn item → d ∈ pi_proposalId <$> items;
  wf_not_self item : item ∈ items → pi_proposalId item ∉ pi_dependsOn item;
}.

(** A schedule exists: some ranking puts every dependency before its dependent. *)
Definition rankable (items : list PlannedBatchItem) : Prop :=
  ∃ rank : string → nat, ∀ item d,
    item ∈ items → d ∈ pi_dependsOn item → rank d < rank (pi_proposalId item).

(** * Validation *)

Lemma collect_spec items byProposalId originalIndex :
  foldM collect_item ([], []) (imap (fun i item => (Z.of_nat i, item)) items)
    = Ok (byProposalId, originalIndex) →
  byProposalId = (fun it => (bi_proposalId it, plan_item it)) <$> items ∧
  originalIndex = imap (fun i it => (bi_proposalId it, Z.of_nat i)) items ∧
  NoDup (bi_proposalId <$> items).
Proof.
  revert byProposalId originalIndex.
  induction items as [|it items IH] using rev_ind; intros by_ oi; simpl.
  { intros [= <- <-]. repeat split. constructor. }
  rewrite imap_app, foldM_app. intros ([by' oi'] & Hprev & H)%result_bind_Ok.
  apply IH in Hprev as (-> & -> & Hnd). cbn in H. inv_result.
  match goal with H : jhas _ _ = false |- _ => apply jhas_false in H as Hfresh end.
  rewrite !jset_fresh by (done || (rewrite (imap_fst bi_proposalId (fun i _ => Z.of_nat i));
    by rewrite <-list_fmap_compose in Hfresh)).
  rewrite <-list_fmap_compose in Hfresh.
  rewrite imap_app, !fmap_app. simpl. split_and!; [done..|].
  apply NoDup_app. split_and!; [done| |apply NoDup_singleton].
  intros x Hx ->%list_elem_of_singleton. done.
Qed.

Lemma collect_names items st st' :
  foldM collect_item st (imap (fun i item => (Z.of_nat i, item)) items) = Ok st' →
  ∀ item, item ∈ items → bi_proposalId item ≠ "" ∧ bi_actorId item ≠ Some "".
Proof.
  revert st'. induction items as [|it items IH] using rev_ind; intros st'; [set_solver|].
  rewrite imap_app, foldM_app. intros ([by_ oi] & Hprev & H)%result_bind_Ok.
  intros item [Hin| ->%list_elem_of_singleton]%elem_of_app; [by eapply IH|].
  cbn in H. unfold validateBatchItem in H. inv_result.
  repeat match goal with
  | H : bool_decide _ = false |- _ => apply bool_decide_eq_false in H
  end. done.
Qed.

Lemma check_dependency_spec by_ id seen d seen' :
  check_dependency by_ id seen d = Ok seen' →
  seen' = seen ++ [d] ∧ d ∉ seen ∧ d ≠ id ∧ d ∈ by_.*1.
Proof.
  unfold check_dependency. intros H. inv_result.
  repeat match goal with
  | H : bool_decide _ = false |- _ => apply bool_decide_eq_false in H
  | H : negb _ = false |- _ => apply negb_false_iff in H; apply jhas_true in H
  end. done.
Qed.

Lemma check_dependencies_spec by_ id deps seen seen' :
  foldM (check_dependency by_ id) seen deps = Ok seen' →
  NoDup seen →
  NoDup (seen ++ deps) ∧ id ∉ deps ∧ ∀ d, d ∈ deps → d ∈ by_.*1.
Proof.
  revert seen. induction deps as [|d deps IH]; simpl; intros seen H Hnd.
  { rewrite app_nil_r. set_solver. }
  apply result_bind_Ok in H as (s1 & (-> & Hd & Hne & Hk)%check_dependency_spec & H).
  apply IH in H as (Hnd' & Hid & Hk').
  - rewrite <-app_assoc in Hnd'. set_solver.
  - apply NoDup_app. split_and!; [done|set_solver|apply NoDup_singleton].
Qed.

Lemma check_items_spec by_ items u :
  foldM (check_item by_) u items = Ok tt →
  ∀ item, item ∈ items →
    NoDup (pi_dependsOn item) ∧ pi_proposalId item ∉ pi_dependsOn item ∧
    ∀ d, d ∈ pi_dependsOn item → d ∈ by_.*1.
Proof.
  revert u. induction items as [|it items IH]; simpl; intros u H; [set_solver|].
  apply result_bind_Ok in H as (u1 & (seen & Hc & _)%result_bind_Ok & H).
  apply check_dependencies_spec in Hc; [|constructor].
  intros item [->|Hin]%elem_of_cons; [done|by eapply IH].
Qed.

(** * The graph *)

Definition ids (items : list PlannedBatchItem) : list string := pi_proposalId <$> items.

Definition edges (items : list PlannedBatchItem) : list (string * string) :=
  items ≫= fun item => pair (pi_proposalId item) <$> pi_dependsOn item.

Lemma build_graph_edges items :
  build_graph items
    = foldl (fun g e => add_edge e.1 g e.2) (init_graph items) (edges items).
Proof.
  unfold build_graph. generalize (init_graph items) as g.
  induction items as [|it items IH]; intros g; simpl; [done|].
  rewrite foldl_app, foldl_fmap. simpl. apply IH.
Qed.

Lemma init_graph_spec items :
  (∀ d, jget d (init_graph items).1 = if decide (d ∈ ids items) then Some [] else None) ∧
  (∀ d, jget d (init_graph items).2 = if decide (d ∈ ids items) then Some 0%Z else None) ∧
  (NoDup (ids items) → (init_graph items).2.*1 = ids items).
Proof.
  unfold ids. induction items as [|it items (IH1 & IH2 & IH3)] using rev_ind.
  { repeat split; intros; by rewrite decide_False by set_solver. }
  unfold init_graph in *. rewrite foldl_app. simpl.
  destruct (foldl _ _ items) as [out ind]. simpl in *.
  split; [|split].
  - intros d. rewrite jget_jset, IH1, fmap_app. repeat case_decide; set_solver.
  - intros d. rewrite jget_jset, IH2, fmap_app. repeat case_decide; set_solver.
  - rewrite fmap_app. intros (Hnd & Hd & _)%NoDup_app.
    rewrite jset_keys, IH3 by done. rewrite decide_False; [done|]. set_solver.
Qed.

Lemma add_edges_spec g E :
  let g' := foldl (fun g e => add_edge e.1 g e.2) g E in
  (∀ d l, jget d g.1 = Some l →
     jget d g'.1 = Some (l ++ (filter (fun e => e.2 = d) E).*1)) ∧
  (∀ x n, jget x g.2 = Some n →
     jget x g'.2 = Some (n + Z.of_nat (length (filter (fun e => e.1 = x) E)))%Z) ∧
  (Forall (fun e => e.1 ∈ g.2.*1) E → g'.2.*1 = g.2.*1).
Proof.
  induction E as [|[x d] E (IH1 & IH2 & IH3)] using rev_ind; simpl in *.
  { repeat split; intros; [by rewrite app_nil_r|by rewrite Z.add_0_r]. }
  rewrite foldl_app. simpl. destruct (foldl _ _ E) as [out ind]. simpl in *.
  split; [|split].
  - intros d' l Hl. rewrite filter_app, fmap_app, filter_cons. simpl.
    specialize (IH1 d' l Hl).
    destruct (decide (d = d')) as [->|Hd]; simpl.
    + rewrite IH1, jget_jset_eq. by rewrite app_assoc.
    + rewrite app_nil_r. destruct (jget d out); [|done]. by rewrite jget_jset_ne.
  - intros y n Hn. rewrite filter_app, length_app, filter_cons. simpl.
    specialize (IH2 y n Hn). rewrite jget_jset.
    destruct (decide (x = y)) as [->|Hx]; simpl.
    + rewrite IH2. simpl. f_equal. lia.
    + rewrite IH2. f_equal. lia.
  - intros [HE Hx]%Forall_app. rewrite Forall_singleton in Hx. simpl in Hx.
    rewrite jset_keys, IH3 by done. by rewrite decide_True.
Qed.

Lemma edges_app items1 items2 : edges (items1 ++ items2) = edges items1 ++ edges items2.
Proof. apply bind_app. Qed.

Lemma edges_into items d :
  (∀ item, item ∈ items → NoDup (pi_dependsOn item)) →
  (filter (fun e => e.2 = d) (edges items)).*1
    = ids (filter (fun item => d ∈ pi_dependsOn item) items).
Proof.
  induction items as [|it items IH]; intros Hnd; [done|].
  change (it :: items) with ([it] ++ items).
  rewrite edges_app, filter_app, fmap_app, IH by set_solver.
  rewrite filter_app. unfold ids. rewrite fmap_app. f_equal.
  unfold edges. simpl. rewrite app_nil_r, filter_cons, filter_nil.
  assert (NoDup (pi_dependsOn it)) as Hd by set_solver. clear -Hd.
  induction Hd as [|x l Hx Hl IH]; [by rewrite decide_False by set_solver|].
  rewrite fmap_cons, filter_cons. cbn [snd]. destruct (decide (x = d)) as [->|Hne].
  - rewrite fmap_cons, IH, decide_False, decide_True by set_solver. done.
  - rewrite IH. by repeat case_decide; set_solver.
Qed.

Lemma edges_out_of items item :
  NoDup (ids items) → item ∈ items →
  length (filter (fun e => e.1 = pi_proposalId item) (edges items))
    = length (pi_dependsOn item).
Proof.
  induction items as [|it items IH]; intros Hnd Hin; [set_solver|].
  change (it :: items) with ([it] ++ items). rewrite edges_app, filter_app, length_app.
  unfold ids in *. simpl in Hnd. apply NoDup_cons in Hnd as [Hit Hnd].
  assert (∀ x, length (filter (fun e => e.1 = x) (edges [it]))
    = if decide (pi_proposalId it = x) then length (pi_dependsOn it) else 0) as Hone.
  { intros x. unfold edges. simpl. rewrite app_nil_r.
    induction (pi_dependsOn it) as [|d l IHl]; [by case_decide|].
    rewrite fmap_cons, filter_cons. cbn [fst].
    case_decide; rewrite ?length_cons, IHl; by repeat case_decide. }
  rewrite Hone. apply elem_of_cons in Hin as [->|Hin].
  - rewrite decide_True by done. clear IH.
    enough (filter (fun e => e.1 = pi_proposalId it) (edges items) = []) as ->
      by (simpl; lia).
    destruct (filter _ (edges items)) as [|[x d] l] eqn:E; [done|].
    apply filter_head in E as [Hx Heq]. simpl in Heq. subst x. exfalso. apply Hit.
    unfold edges in Hx. apply list_elem_of_bind in Hx as (y & Hy & Hyin).
    apply list_elem_of_fmap in Hy as (? & [= Heq _] & _).
    apply list_elem_of_fmap. by exists y.
  - rewrite decide_False; [by apply IH|]. intros Heq. apply Hit.
    apply list_elem_of_fmap. by exists item.
Qed.

(** * The loop refines the greedy specification *)

(** Dependencies of [item] that are not ordered yet. *)
Definition pending (done : list string) (item : PlannedBatchItem) : list string :=
  filter (fun d => d ∉ done) (pi_dependsOn item).

Lemma pending_nil done item :
  pending done item = [] ↔ Forall (fun d => d ∈ done) (pi_dependsOn item).
Proof.
  unfold pending. induction (pi_dependsOn item) as [|d l IH]; [done|].
  rewrite filter_cons, Forall_cons, <-IH. case_decide; naive_solver.
Qed.

Lemma pending_snoc done item id :
  NoDup (pi_dependsOn item) → id ∉ done →
  Z.of_nat (length (pending (done ++ [id]) item)) =
    (Z.of_nat (length (pending done item)) -
     if decide (id ∈ pi_dependsOn item) then 1 else 0)%Z.
Proof.
  unfold pending. intros Hnd Hid. induction Hnd as [|d l Hd Hl IH].
  { rewrite decide_False by set_solver. done. }
  rewrite !filter_cons.
  destruct (decide (d = id)) as [->|Hne].
  - rewrite decide_False by set_solver. rewrite (decide_True (P := id ∉ done)) by done.
    rewrite (decide_True (P := id ∈ id :: l)) by set_solver.
    rewrite IH, decide_False by done. simpl. lia.
  - rewrite (decide_ext (d ∉ done ++ [id]) (d ∉ done)) by set_solver.
    rewrite (decide_ext (id ∈ d :: l) (id ∈ l)) by set_solver.
    destruct (decide (d ∉ done)); simpl; rewrite ?length_cons; lia.
Qed.

Lemma pending_singleton done item id :
  NoDup (pi_dependsOn item) → id ∉ done → id ∈ pi_dependsOn item →
  length (pending done item) = 1 →
  Forall (fun d => d ∈ done ++ [id]) (pi_dependsOn item).
Proof.
  intros Hnd Hid Hin H1. apply pending_nil, length_zero_iff_nil.
  pose proof (pending_snoc done item id Hnd Hid) as Hs.
  rewrite decide_True in Hs by done. lia.
Qed.

Section release.
Context (originalIndex : index_map).

#[local] Abbreviation cmp := (compareByOriginalIndex originalIndex).

#[export] Instance compareByOriginalIndex_js : JsCompare cmp.
Proof. exact (compare_by_js _). Qed.

Lemma release_all_spec deps ready indegree :
  NoDup deps →
  StronglySorted (cmp_le cmp) ready →
  let '(ready', indegree') :=
    foldl (release_dependent originalIndex) (ready, indegree) deps in
  StronglySorted (cmp_le cmp) ready' ∧
  ready' ≡ₚ ready ++ filter (fun x => default 0 (jget x indegree) - 1 = 0)%Z deps ∧
  ∀ x, jget x indegree' =
    if decide (x ∈ deps) then Some (default 0 (jget x indegree) - 1)%Z
    else jget x indegree.
Proof.
  intros Hnd Hs. induction deps as [|d deps IH] using rev_ind.
  { cbn. rewrite app_nil_r. split_and!; [done..|]. intros x.
    by destruct (decide (x ∈ [])); [set_solver|]. }
  rewrite foldl_app. simpl. apply NoDup_app in Hnd as (Hnd & Hd & _).
  destruct (foldl _ _ deps) as [r ind]. destruct (IH Hnd) as (Hs' & Hp & Hg). clear IH.
  assert (d ∉ deps) as Hnotin by set_solver.
  assert (jget d ind = jget d indegree) as Hdi by (rewrite Hg; by rewrite decide_False).
  cbn. rewrite Hdi, filter_app, filter_cons, filter_nil.
  assert (∀ x, jget x (jset d (default 0 (jget d indegree) - 1)%Z ind) =
    if decide (x ∈ deps ++ [d]) then Some (default 0 (jget x indegree) - 1)%Z
    else jget x indegree) as Hset.
  { intros x. rewrite jget_jset, Hg. destruct (decide (d = x)) as [->|Hne].
    - by rewrite decide_True by set_solver.
    - by rewrite (decide_ext (x ∈ deps ++ [d]) (x ∈ deps)) by set_solver. }
  case_decide; split_and!; [apply js_sort_sorted; apply _| |done|done| |done].
  - rewrite js_sort_perm, Hp. by rewrite app_assoc.
  - by rewrite app_nil_r.
Qed.
End release.

Section refinement.
Context (items : list PlannedBatchItem) (Hwf : well_formed items).
Context (byProposalId : item_map) (originalIndex : index_map).
Context (Hby : ∀ item, item ∈ items → jget (pi_proposalId item) byProposalId = Some item).
Context (Hsorted : StronglySorted (cmp_le (compareByOriginalIndex originalIndex)) (ids items)).
Context (Hinj : ∀ x y, x ∈ ids items → y ∈ ids items →
  cmp_le (compareByOriginalIndex originalIndex) x y →
  cmp_le (compareByOriginalIndex originalIndex) y x → x = y).

#[local] Abbreviation cmp := (compareByOriginalIndex originalIndex).

Lemma item_of_id item1 item2 :
  item1 ∈ items → item2 ∈ items → pi_proposalId item1 = pi_proposalId item2 →
  item1 = item2.
Proof. intros H1%Hby H2%Hby Heq. rewrite Heq in H1. congruence. Qed.

Lemma elem_of_ids item : item ∈ items → pi_proposalId item ∈ ids items.
Proof. apply list_elem_of_fmap_2. Qed.

Lemma filter_ids_sorted (P : PlannedBatchItem → Prop) `{∀ x, Decision (P x)} :
  StronglySorted (cmp_le cmp) (ids (filter P items)).
Proof.
  eapply StronglySorted_sublist; [|exact Hsorted].
  apply sublist_fmap, sublist_filter.
Qed.

Lemma filter_ids_NoDup (P : PlannedBatchItem → Prop) `{∀ x, Decision (P x)} :
  NoDup (ids (filter P items)).
Proof.
  eapply sublist_NoDup; [apply (wf_ids items Hwf)|].
  apply sublist_fmap, sublist_filter.
Qed.

Lemma elem_of_filter_ids (P : PlannedBatchItem → Prop) `{∀ x, Decision (P x)} item :
  item ∈ items → pi_proposalId item ∈ ids (filter P items) ↔ P item.
Proof.
  intros Hin. unfold ids. rewrite list_elem_of_fmap. split.
  - intros (y & Heq & [HP Hy]%list_elem_of_filter).
    by rewrite (item_of_id _ _ Hin Hy Heq).
  - intros HP. exists item. by rewrite list_elem_of_filter.
Qed.

(** The loop invariant. *)
Record drain_inv (st : drain_state) : Prop := {
  di_subset : ds_ordered st ⊆ items;
  di_NoDup : NoDup (ids (ds_ordered st));
  di_closed item d : item ∈ ds_ordered st → d ∈ pi_dependsOn item →
    d ∈ ids (ds_ordered st);
  di_ready : ds_ready st = ids (filter (eligible (ids (ds_ordered st))) items);
  di_outgoing d : d ∈ ids items →
    jget d (ds_outgoing st) = Some (ids (filter (fun item => d ∈ pi_dependsOn item) items));
  di_indegree item : item ∈ items →
    jget (pi_proposalId item) (ds_indegree st)
      = Some (Z.of_nat (length (pending (ids (ds_ordered st)) item)));
}.

(** Who becomes eligible when [it] is ordered. *)
Lemma eligible_snoc done it rest item :
  filter (eligible done) items = it :: rest →
  (∀ y d, y ∈ items → pi_proposalId y ∈ done → d ∈ pi_dependsOn y → d ∈ done) →
  item ∈ items →
  eligible (done ++ [pi_proposalId it]) item ↔
    pi_proposalId item ∈ ids rest ∨
    (pi_proposalId it ∈ pi_dependsOn item ∧ length (pending done item) = 1).
Proof.
  intros Hf Hclosed Hin. destruct (filter_head _ _ _ _ Hf) as [Hit [Hitd Hitdeps]].
  pose proof (filter_ids_NoDup (eligible done)) as Hnd. rewrite Hf in Hnd.
  cbn in Hnd. apply NoDup_cons in Hnd as [Hitr _].
  assert (pi_proposalId item ∈ ids rest ↔
    eligible done item ∧ pi_proposalId item ≠ pi_proposalId it) as ->.
  { rewrite <-(elem_of_filter_ids (eligible done)) by done. rewrite Hf. cbn.
    rewrite elem_of_cons. split; [|naive_solver]. intros Hr.
    split; [by right|]. intros Heq. apply Hitr. by rewrite <-Heq. }
  unfold eligible. split.
  - intros [Hd Hdeps].
    destruct (decide (Forall (fun d => d ∈ done) (pi_dependsOn item))) as [Hall|Hnall].
    { left. set_solver. }
    right. rewrite <-pending_nil in Hnall.
    pose proof (pending_snoc done item (pi_proposalId it)
      (wf_deps_NoDup items Hwf item Hin) Hitd) as Hs.
    apply pending_nil in Hdeps. rewrite Hdeps in Hs. simpl in Hs.
    case_decide as Hdep; [split; [done|lia]|].
    exfalso. apply Hnall, length_zero_iff_nil. lia.
  - intros [[[Hd Hdeps] Hne]|[Hdep H1]].
    + split; [set_solver|]. eapply Forall_impl; [done|]. set_solver.
    + split.
      * intros [Hd|Heq%list_elem_of_singleton]%elem_of_app.
        -- apply Hitd. exact (Hclosed item _ Hin Hd Hdep).
        -- apply (wf_not_self items Hwf item Hin). by rewrite Heq.
      * apply pending_singleton; [by apply (wf_deps_NoDup items Hwf)|done..].
Qed.
Lemma initial_inv st :
  ds_ordered st = [] →
  ds_ready st = ids (filter (eligible []) items) →
  ds_outgoing st = (build_graph items).1 → ds_indegree st = (build_graph items).2 →
  drain_inv st.
Proof.
  destruct (init_graph_spec items) as (Hi1 & Hi2 & _).
  destruct (add_edges_spec (init_graph items) (edges items)) as (He1 & He2 & _).
  rewrite <-build_graph_edges in He1, He2.
  intros Ho Hr Hout Hind. split; rewrite ?Ho, ?Hr, ?Hout, ?Hind; cbn.
  - set_solver.
  - constructor.
  - set_solver.
  - done.
  - intros d Hd. rewrite (He1 d []); [|by rewrite Hi1, decide_True]. simpl.
    f_equal. apply edges_into, (wf_deps_NoDup items Hwf).
  - intros item Hin. rewrite (He2 _ 0%Z).
    + rewrite edges_out_of by (apply (wf_ids items Hwf) || done). do 2 f_equal.
      unfold pending. rewrite filter_all; [done|]. set_solver.
    + rewrite Hi2, decide_True; [done|]. by apply elem_of_ids.
Qed.

Lemma drain_step_inv st it rest :
  drain_inv st →
  filter (eligible (ids (ds_ordered st))) items = it :: rest →
  ∃ st', drain_step byProposalId originalIndex (pi_proposalId it) (ids rest) st = Ok st' ∧
    ds_ordered st' = ds_ordered st ++ [it] ∧ drain_inv st'.
Proof.
  intros [Hsub Hnd Hcl Hready Hout Hind] Hf.
  set (done := ids (ds_ordered st)) in *.
  destruct (filter_head _ _ _ _ Hf) as [Hit [Hitd Hitdeps]].
  set (deps := ids (filter (fun y => pi_proposalId it ∈ pi_dependsOn y) items)).
  unfold drain_step. rewrite (Hby it Hit), (Hout _ (elem_of_ids it Hit)). simpl.
  rewrite js_sort_sorted_id by apply filter_ids_sorted. fold deps.
  assert (StronglySorted (cmp_le cmp) (ids rest)) as Hrs.
  { pose proof (filter_ids_sorted (eligible done)) as Hs. rewrite Hf in Hs.
    by inversion_clear Hs. }
  pose proof (release_all_spec originalIndex deps (ids rest) (ds_indegree st)
    (filter_ids_NoDup _) Hrs) as Hrel.
  destruct (foldl _ _ deps) as [ready' indegree']. destruct Hrel as (Hs' & Hp & Hg).
  eexists; split; [done|]. split; [done|].
  assert (ids (ds_ordered st ++ [it]) = done ++ [pi_proposalId it]) as Hdone
    by (unfold ids; by rewrite fmap_app).
  assert (∀ y d, y ∈ items → pi_proposalId y ∈ done → d ∈ pi_dependsOn y → d ∈ done)
    as Hclosed.
  { intros y d Hy Hyd Hdy. apply list_elem_of_fmap in Hyd as (y' & Heq & Hy').
    apply (Hcl y'); [done|]. by rewrite <-(item_of_id y y' Hy (Hsub _ Hy') Heq). }
  assert (∀ y, y ∈ items → pi_proposalId y ∈ ready' ↔
    pi_proposalId y ∈ ids rest ∨
    pi_proposalId it ∈ pi_dependsOn y ∧ length (pending done y) = 1) as Hmem.
  { intros y Hy. rewrite Hp, elem_of_app, list_elem_of_filter, (Hind y Hy). simpl.
    unfold deps. rewrite elem_of_filter_ids by done. split; intros [?|[? ?]]; auto with lia. }
  assert (∀ x, x ∈ ready' → ∃ y, y ∈ items ∧ pi_proposalId y = x ∧
    (pi_proposalId y ∈ ids rest ∨
     pi_proposalId it ∈ pi_dependsOn y ∧ length (pending done y) = 1)) as Hready'.
  { intros x Hx. enough (∃ y, y ∈ items ∧ x = pi_proposalId y) as (y & Hy & ->).
    { exists y. split_and!; [done..|]. by apply Hmem. }
    rewrite Hp, elem_of_app, list_elem_of_filter in Hx. destruct Hx as [Hx|[_ Hx]].
    - apply list_elem_of_fmap in Hx as (y & -> & Hy). exists y. split; [|done].
      assert (y ∈ filter (eligible done) items) as Hy2 by (rewrite Hf; set_solver).
      by apply list_elem_of_filter in Hy2 as [_ ?].
    - apply list_elem_of_fmap in Hx as (y & -> & [_ Hy]%list_elem_of_filter). eauto. }
  assert (NoDup ready') as Hndr.
  { rewrite Hp. apply NoDup_app. split_and!.
    - pose proof (filter_ids_NoDup (eligible done)) as Hn. rewrite Hf in Hn.
      by apply NoDup_cons in Hn as [_ ?].
    - intros x (y & -> & Hy)%list_elem_of_fmap [Hx _]%list_elem_of_filter.
      assert (y ∈ filter (eligible done) items) as Hy2 by (rewrite Hf; set_solver).
      apply list_elem_of_filter in Hy2 as [[_ Hall] Hyi].
      rewrite (Hind y Hyi) in Hx. apply pending_nil in Hall. rewrite Hall in Hx. done.
    - apply NoDup_filter, filter_ids_NoDup. }
  split; cbn [ds_ready ds_ordered ds_outgoing ds_indegree]; rewrite ?Hdone.
  - set_solver.
  - apply NoDup_app. split_and!; [done|set_solver|apply NoDup_singleton].
  - intros y d [Hy| ->%list_elem_of_singleton]%elem_of_app Hd; apply elem_of_app; left.
    + by eapply Hcl.
    + rewrite Forall_forall in Hitdeps. by apply Hitdeps.
  - apply (sorted_perm_eq cmp); [|done|apply filter_ids_sorted|].
    { intros x y Hx Hy.
      apply Hinj; [destruct (Hready' x Hx) as (z & Hz & <- & _)
                  |destruct (Hready' y Hy) as (z & Hz & <- & _)]; by apply elem_of_ids. }
    apply NoDup_Permutation; [done|apply filter_ids_NoDup|]. intros x. split.
    + intros Hx. destruct (Hready' x Hx) as (y & Hy & <- & Hcase).
      apply elem_of_filter_ids; [done|]. by eapply eligible_snoc.
    + intros (y & -> & [Hel Hy]%list_elem_of_filter)%list_elem_of_fmap.
      apply Hmem; [done|]. by eapply eligible_snoc in Hel.
  - intros d Hd. rewrite jget_jset. case_decide; subst; [done|]. by apply Hout.
  - intros y Hy. rewrite Hg, (Hind y Hy). simpl.
    rewrite pending_snoc by (apply (wf_deps_NoDup items Hwf y Hy) || done).
    pose proof (elem_of_filter_ids (fun y => pi_proposalId it ∈ pi_dependsOn y) y Hy).
    destruct (decide (pi_proposalId y ∈ deps)), (decide (pi_proposalId it ∈ pi_dependsOn y));
      [done|tauto|tauto|f_equal; lia].
Qed.
Lemma ordered_shorter st it rest :
  drain_inv st → filter (eligible (ids (ds_ordered st))) items = it :: rest →
  length (ds_ordered st) < length items.
Proof.
  intros Hinv Hf. destruct (filter_head _ _ _ _ Hf) as [Hit [Hitd _]].
  assert (pi_proposalId it :: ids (ds_ordered st) ⊆+ ids items) as Hs.
  { apply NoDup_submseteq; [by apply NoDup_cons; split; [|apply di_NoDup]|].
    intros x [->|(y & -> & Hy)%list_elem_of_fmap]%elem_of_cons; apply elem_of_ids; [done|].
    by apply (di_subset st Hinv). }
  apply submseteq_length in Hs. unfold ids in Hs. simpl in Hs.
  rewrite !length_fmap in Hs. lia.
Qed.

Lemma drain_greedy fuel st :
  drain_inv st → length items ≤ fuel + length (ds_ordered st) →
  drain fuel byProposalId originalIndex st
    = Ok (ds_ordered st ++ greedy fuel items (ids (ds_ordered st))).
Proof.
  revert st. induction fuel as [|fuel IH]; intros st Hinv Hfuel;
    pose proof (di_ready st Hinv) as Hr; simpl;
    destruct (filter _ items) as [|it rest] eqn:Hf; rewrite Hr; simpl;
    [by rewrite app_nil_r| |by rewrite app_nil_r|].
  - pose proof (ordered_shorter st it rest Hinv Hf). lia.
  - destruct (drain_step_inv st it rest Hinv Hf) as (st' & Hst & Ho & Hinv').
    unfold ids in Hst |- * at 1. rewrite Hst. simpl.
    rewrite IH by (done || (rewrite Ho, length_app; simpl; lia)).
    rewrite Ho, <-app_assoc. unfold ids. by rewrite fmap_app.
Qed.
End refinement.

(** * The planner *)

(** The planned items of a batch, in the caller's order. *)
Definition planned (items : list ApplyProposalBatchItem) : list PlannedBatchItem :=
  plan_item <$> items.

(** What the validation loops accept. *)
Record valid_batch (items : list ApplyProposalBatchItem) : Prop := {
  vb_nonempty : items ≠ [];
  vb_names item : item ∈ items → bi_proposalId item ≠ "" ∧ bi_actorId item ≠ Some "";
  vb_wf : well_formed (planned items);
}.

Lemma collect_ok items :
  (∀ item, item ∈ items → bi_proposalId item ≠ "" ∧ bi_actorId item ≠ Some "") →
  NoDup (bi_proposalId <$> items) →
  is_ok (foldM collect_item ([], [])
    (imap (fun i item => (Z.of_nat i, item)) items)) = true.
Proof.
  induction items as [|it items IH] using rev_ind; intros Hn Hnd; [done|].
  rewrite imap_app, foldM_app. rewrite fmap_app in Hnd.
  apply NoDup_app in Hnd as (Hnd & Hfresh & _).
  specialize (IH ltac:(set_solver) Hnd).
  destruct (foldM _ _ (imap _ items)) as [[by_ oi]|e] eqn:E; [|done].
  apply collect_spec in E as (-> & -> & _). cbn.
  destruct (Hn it) as [H1 H2]; [set_solver|].
  unfold validateBatchItem. rewrite !bool_decide_eq_false_2 by done. cbn.
  assert (jhas (bi_proposalId it) ((fun it => (bi_proposalId it, plan_item it)) <$> items)
    = false) as ->; [|done].
  apply jhas_false. rewrite <-list_fmap_compose. set_solver.
Qed.

Lemma check_dependency_ok by_ id seen d :
  d ≠ "" → d ≠ id → d ∉ seen → d ∈ by_.*1 →
  check_dependency by_ id seen d = Ok (seen ++ [d]).
Proof.
  intros H1 H2 H3 H4%jhas_true. unfold check_dependency.
  rewrite !bool_decide_eq_false_2 by done. by rewrite H4.
Qed.

Lemma check_dependencies_ok by_ id deps seen :
  NoDup (seen ++ deps) → id ∉ deps → (∀ d, d ∈ deps → d ≠ "" ∧ d ∈ by_.*1) →
  foldM (check_dependency by_ id) seen deps = Ok (seen ++ deps).
Proof.
  revert seen. induction deps as [|d deps IH]; simpl; intros seen Hnd Hid Hk.
  { by rewrite app_nil_r. }
  destruct (Hk d) as [Hd1 Hd2]; [set_solver|].
  rewrite check_dependency_ok by (done || set_solver || (apply NoDup_app in Hnd; set_solver)).
  simpl. rewrite IH, <-app_assoc; [done|by rewrite <-app_assoc|set_solver..].
Qed.

Lemma check_items_ok by_ items :
  (∀ item, item ∈ items → NoDup (pi_dependsOn item) ∧
     pi_proposalId item ∉ pi_dependsOn item ∧
     ∀ d, d ∈ pi_dependsOn item → d ≠ "" ∧ d ∈ by_.*1) →
  foldM (check_item by_) tt items = Ok tt.
Proof.
  induction items as [|it items IH]; intros Hi; simpl; [done|].
  destruct (Hi it) as (H1 & H2 & H3); [set_solver|].
  assert (check_item by_ tt it = Ok tt) as -> by (unfold check_item; by rewrite check_dependencies_ok).
  simpl.   apply IH. set_solver.
Qed.

Definition by_map (items : list ApplyProposalBatchItem) : item_map :=
  (fun it => (bi_proposalId it, plan_item it)) <$> items.

Definition validate_batch (items : list ApplyProposalBatchItem)
    : result batch_error index_map :=
  _ ← guard_throw (bool_decide (items = [])) EmptyBatch;
  '(byProposalId, originalIndex) ←
    foldM collect_item ([], []) (imap (fun i item => (Z.of_nat i, item)) items);
  _ ← foldM (check_item byProposalId) tt byProposalId.*2;
  Ok originalIndex.

Lemma by_map_values items : (by_map items).*2 = planned items.
Proof. unfold by_map, planned. by rewrite <-list_fmap_compose. Qed.

Lemma by_map_keys items : (by_map items).*1 = ids (planned items).
Proof. unfold by_map, planned, ids. by rewrite <-!list_fmap_compose. Qed.

Lemma planned_ids items : ids (planned items) = bi_proposalId <$> items.
Proof. unfold planned, ids. by rewrite <-list_fmap_compose. Qed.

Lemma ids_sorted items :
  NoDup (bi_proposalId <$> items) →
  let oi := imap (fun i it => (bi_proposalId it, Z.of_nat i)) items in
  StronglySorted (fun x y => ∃ i j, jget x oi = Some i ∧ jget y oi = Some j ∧ (i < j)%Z)
    (ids (planned items)).
Proof.
  intros Hnd oi. rewrite planned_ids.
  assert (∀ k it, items !! k = Some it → jget (bi_proposalId it) oi = Some (Z.of_nat k)) as Hget.
  { intros k it Hk. apply elem_of_jget.
    - unfold oi. by rewrite (imap_fst bi_proposalId (fun i _ => Z.of_nat i)).
    - apply list_elem_of_lookup. exists k. unfold oi. by rewrite list_lookup_imap, Hk. }
  clearbody oi. clear Hnd.
  assert (∀ n l, drop n items = l → StronglySorted (fun x y => ∃ i j,
    jget x oi = Some i ∧ jget y oi = Some j ∧ (i < j)%Z) (bi_proposalId <$> l)) as Hgen;
    [|exact (Hgen 0 items eq_refl)].
  intros n l. revert n. induction l as [|it l IH]; intros n Hn; simpl; [constructor|].
  assert (items !! n = Some it) as Hit.
  { rewrite <-(Nat.add_0_r n), <-lookup_drop. by rewrite Hn. }
  constructor.
  - apply (IH (S n)). rewrite (drop_S _ _ _ Hit) in Hn. by injection Hn.
  - apply Forall_forall. intros y (it' & -> & Hy)%list_elem_of_fmap.
    apply list_elem_of_lookup in Hy as [k Hk].
    exists (Z.of_nat n), (Z.of_nat (n + S k)). split_and!; [by apply Hget| |lia].
    apply Hget. rewrite <-lookup_drop, Hn. done.
Qed.

(** What a successful validation establishes. *)
Lemma validate_batch_Ok items oi :
  validate_batch items = Ok oi →
  valid_batch items ∧ oi = imap (fun i it => (bi_proposalId it, Z.of_nat i)) items.
Proof.
  intros H. unfold validate_batch in H.
  apply result_bind_Ok in H as ([] & Hne%guard_throw_Ok%bool_decide_eq_false & H).
  apply result_bind_Ok in H as ([by_ oi'] & Hc & H).
  apply result_bind_Ok in H as ([] & Hch & [= ->]).
  pose proof (collect_names _ _ _ Hc) as Hn.
  apply collect_spec in Hc as (-> & -> & Hnd). split; [|done].
  change ((fun it => (bi_proposalId it, plan_item it)) <$> items) with (by_map items) in Hch.
  pose proof (check_items_spec _ _ _ Hch) as Hi. rewrite by_map_values, by_map_keys in Hi.
  split; [done|done|]. split; fold (planned items).
  - rewrite <-planned_ids in Hnd. exact Hnd.
  - intros item Hin. by apply Hi.
  - intros item d Hin Hd. by apply (Hi item Hin).
  - intros item Hin. by apply Hi.
Qed.

(** Validation accepts every valid batch. *)
Lemma validate_batch_valid items :
  valid_batch items → is_ok (validate_batch items) = true.
Proof.
  intros [Hne Hn Hwf]. unfold validate_batch.
  rewrite bool_decide_eq_false_2 by done. simpl.
  assert (NoDup (bi_proposalId <$> items)) as Hnd.
  { rewrite <-planned_ids. apply (wf_ids _ Hwf). }
  pose proof (collect_ok items Hn Hnd) as Hok.
  destruct (foldM collect_item _ _) as [[by_ oi]|] eqn:Hc; [|done].
  apply collect_spec in Hc as (-> & -> & _). simpl. fold (by_map items).
  rewrite check_items_ok; [done|]. rewrite by_map_values, by_map_keys.
  intros item Hin. split_and!;
    [by apply (wf_deps_NoDup _ Hwf)|by apply (wf_not_self _ Hwf)|].
  intros d Hd. pose proof (wf_deps_known _ Hwf item d Hin Hd) as Hk. split; [|done].
  fold (ids (planned items)) in Hk. rewrite planned_ids in Hk.
  apply list_elem_of_fmap in Hk as (it' & -> & Hit'). by apply Hn.
Qed.

Lemma build_indegree items :
  well_formed items →
  NoDup (build_graph items).2.*1 ∧ (build_graph items).2.*1 = ids items ∧
  ∀ item, item ∈ items → jget (pi_proposalId item) (build_graph items).2
    = Some (Z.of_nat (length (pi_dependsOn item))).
Proof.
  intros Hwf. destruct (init_graph_spec items) as (_ & Hi2 & Hi3).
  destruct (add_edges_spec (init_graph items) (edges items)) as (_ & He2 & He3).
  rewrite <-build_graph_edges in He2, He3. pose proof (wf_ids _ Hwf) as Hnd.
  specialize (Hi3 Hnd). rewrite Hi3 in He3.
  assert ((build_graph items).2.*1 = ids items) as Hk.
  { apply He3, Forall_forall. intros [x d] (y & Hy & Hyin)%list_elem_of_bind.
    apply list_elem_of_fmap in Hy as (? & [= -> ->] & _). by apply elem_of_ids. }
  split_and!; [by rewrite Hk|done|]. intros item Hin. rewrite (He2 _ 0%Z).
  - by rewrite edges_out_of.
  - rewrite Hi2, decide_True; [done|]. by apply elem_of_ids.
Qed.

Section planner.
Context (items : list ApplyProposalBatchItem) (Hv : valid_batch items).

#[local] Abbreviation oi :=
  (imap (fun i it => (bi_proposalId it, Z.of_nat i)) items : index_map).
#[local] Abbreviation cmp := (compareByOriginalIndex oi).

Lemma valid_NoDup : NoDup (bi_proposalId <$> items).
Proof. rewrite <-planned_ids. apply (wf_ids _ (vb_wf _ Hv)). Qed.

Lemma by_map_lookup item : item ∈ planned items →
  jget (pi_proposalId item) (by_map items) = Some item.
Proof.
  intros (it & -> & Hit)%list_elem_of_fmap. apply elem_of_jget.
  - rewrite by_map_keys. apply (wf_ids _ (vb_wf _ Hv)).
  - apply list_elem_of_fmap. by exists it.
Qed.

Lemma cmp_sorted : StronglySorted (cmp_le cmp) (ids (planned items)).
Proof.
  eapply StronglySorted_weaken; [|exact (ids_sorted items valid_NoDup)].
  intros x y (i & j & Hi & Hj & Hlt). apply cmp_le_compare_by.
  rewrite Hi, Hj. simpl. lia.
Qed.

Lemma cmp_inj x y : x ∈ ids (planned items) → y ∈ ids (planned items) →
  cmp_le cmp x y → cmp_le cmp y x → x = y.
Proof.
  intros Hx Hy Hxy Hyx. pose proof (ids_sorted items valid_NoDup) as Hs.
  apply cmp_le_compare_by in Hxy, Hyx. cbn in Hs, Hxy, Hyx.
  induction Hs as [|z l Hs IH Hz]; [set_solver|]. rewrite Forall_forall in Hz.
  apply elem_of_cons in Hx as [->|Hx], Hy as [->|Hy]; [done|..|by apply IH].
  - destruct (Hz y Hy) as (i & j & Hi & Hj & Hlt). rewrite Hi, Hj in Hyx. simpl in *. lia.
  - destruct (Hz x Hx) as (i & j & Hi & Hj & Hlt). rewrite Hi, Hj in Hxy. simpl in *. lia.
Qed.

Lemma initial_ready_spec :
  initial_ready oi (build_graph (planned items)).2
    = ids (filter (eligible []) (planned items)).
Proof.
  destruct (build_indegree _ (vb_wf _ Hv)) as (Hnd & Hk & Hlen).
  assert (∀ x, x ∈ (filter (λ e : string * Z, e.2 = 0%Z) (build_graph (planned items)).2).*1
    ↔ x ∈ ids (filter (eligible []) (planned items))) as Hmem.
  { intros x. split.
    - intros ([? n] & -> & [Hn Hin]%list_elem_of_filter)%list_elem_of_fmap. simpl in *. subst n.
      assert (s ∈ ids (planned items)) as (item & -> & Hit)%list_elem_of_fmap.
      { rewrite <-Hk. apply list_elem_of_fmap. by exists (s, 0%Z). }
      apply elem_of_jget in Hin; [|done]. rewrite (Hlen item Hit) in Hin.
      apply list_elem_of_fmap. exists item. split; [done|]. apply list_elem_of_filter.
      split; [|done]. split; [set_solver|]. destruct (pi_dependsOn item); [constructor|done].
    - intros (item & -> & [[_ Hel] Hit]%list_elem_of_filter)%list_elem_of_fmap.
      apply list_elem_of_fmap. exists (pi_proposalId item, 0%Z). split; [done|].
      apply list_elem_of_filter. split; [done|]. apply jget_elem_of. rewrite (Hlen item Hit).
      destruct (pi_dependsOn item); [done|]. inversion_clear Hel. set_solver. }
  unfold initial_ready. apply (sorted_perm_eq cmp).
  - intros x y Hx Hy. rewrite js_sort_perm, Hmem in Hx. rewrite js_sort_perm, Hmem in Hy.
    apply cmp_inj; (eapply elem_of_submseteq; [eassumption|]);
      apply sublist_submseteq, sublist_fmap, sublist_filter.
  - apply js_sort_sorted. apply _.
  - apply filter_ids_sorted, cmp_sorted.
  - rewrite js_sort_perm. apply NoDup_Permutation.
    + eapply sublist_NoDup; [exact Hnd|]. apply sublist_fmap, sublist_filter.
    + by apply filter_ids_NoDup, vb_wf.
    + done.
Qed.
End planner.

(** ** Facts about the greedy specification *)

Lemma greedy_order fuel items done pre it post :
  greedy fuel items done = pre ++ it :: post →
  it ∈ items ∧ eligible (done ++ ids pre) it.
Proof.
  revert done pre. induction fuel as [|fuel IH]; intros done pre; simpl.
  { intros H. by destruct pre. }
  destruct (filter _ items) as [|x l] eqn:Hf; [by destruct pre|].
  apply filter_head in Hf as [Hx Hel]. destruct pre as [|y pre]; simpl.
  - intros [= -> _]. by rewrite app_nil_r.
  - intros [= -> H]. apply IH in H as [Hit Hit']. split; [done|].
    unfold ids. simpl. by rewrite <-app_assoc in Hit'.
Qed.

Lemma greedy_NoDup fuel items done :
  NoDup (ids (greedy fuel items done)) ∧
  ∀ x, x ∈ ids (greedy fuel items done) → x ∉ done.
Proof.
  revert done. induction fuel as [|fuel IH]; intros done; simpl.
  { split; [constructor|]. set_solver. }
  destruct (filter _ items) as [|x l] eqn:Hf; [split; [constructor|set_solver]|].
  apply filter_head in Hf as [Hx [Hel _]].
  destruct (IH (done ++ [pi_proposalId x])) as [Hnd Hout].
  unfold ids in *. simpl. split.
  - apply NoDup_cons. split; [|done]. intros Hin%Hout. set_solver.
  - intros y [->|Hy%Hout]%elem_of_cons; set_solver.
Qed.

(** When the specification stops early, nothing left is eligible. *)
Lemma greedy_stuck fuel items done :
  length (greedy fuel items done) < fuel →
  filter (eligible (done ++ ids (greedy fuel items done))) items = [].
Proof.
  revert done. induction fuel as [|fuel IH]; intros done; simpl; [lia|].
  destruct (filter _ items) as [|x l] eqn:Hf; simpl.
  - intros _. by rewrite app_nil_r.
  - intros H. specialize (IH (done ++ [pi_proposalId x]) ltac:(lia)).
    by rewrite <-app_assoc in IH.
Qed.

(** Nothing eligible but something left: the dependencies admit no ranking. *)
Lemma stuck_not_rankable items done :
  (∀ item d, item ∈ items → d ∈ pi_dependsOn item → d ∈ ids items) →
  filter (eligible done) items = [] →
  (∃ item, item ∈ items ∧ pi_proposalId item ∉ done) →
  ¬ rankable items.
Proof.
  intros Hknown Hf (item & Hit & Hid) [rank Hrank].
  remember (rank (pi_proposalId item)) as n eqn:Hn. revert item Hit Hid Hn.
  induction n as [n IH] using lt_wf_ind. intros item Hit Hid ->.
  destruct (decide (Forall (fun d => d ∈ done) (pi_dependsOn item))) as [Hall|Hnall].
  - assert (item ∈ filter (eligible done) items) as Hin.
    { by apply list_elem_of_filter. }
    rewrite Hf in Hin. set_solver.
  - apply not_Forall_Exists, Exists_exists in Hnall as (d & Hd & Hnd); [|apply _].
    pose proof (Hknown item d Hit Hd) as (dep & -> & Hdep)%list_elem_of_fmap.
    eapply (IH (rank (pi_proposalId dep))); [by apply Hrank|done|done|done].
Qed.

Lemma ordered_rankable (out : list PlannedBatchItem) :
  NoDup (ids out) →
  (∀ pre it post, out = pre ++ it :: post →
     Forall (fun d => d ∈ ids pre) (pi_dependsOn it)) →
  rankable out.
Proof.
  intros Hnd Hord.
  exists (fun id => default 0 (fst <$> list_find (fun x => x = id) (ids out))).
  intros item d Hit Hd. apply list_elem_of_split in Hit as (pre & post & ->).
  specialize (Hord pre item post eq_refl). rewrite Forall_forall in Hord.
  specialize (Hord d Hd). unfold ids in *. rewrite fmap_app in *. simpl in *.
  apply NoDup_app in Hnd as (_ & Hnd & _).
  rewrite (list_find_app_r (fun x => x = pi_proposalId item)).
  2:{ apply list_find_None, Forall_forall. intros x Hx ->. apply (Hnd _ Hx). by left. }
  simpl. rewrite decide_True by done. simpl.
  destruct (list_find (fun x => x = d) (pi_proposalId <$> pre)) as [[i x]|] eqn:E.
  - rewrite (list_find_app_l _ _ _ _ _ E). simpl.
    apply list_find_Some in E as (E & _). apply lookup_lt_Some in E. lia.
  - apply list_find_None in E. rewrite Forall_forall in E. by destruct (E d Hord).
Qed.

(** * Properties of the planner *)

Lemma planProposalBatch_valid items oi :
  validate_batch items = Ok oi →
  planProposalBatch items =
    let out := greedy (length items) (planned items) [] in
    if decide (length out = length items) then Ok out else Throw DependencyCycle.
Proof.
  intros Hval. pose proof (validate_batch_Ok _ _ Hval) as [Hv ->].
  unfold validate_batch in Hval. unfold planProposalBatch.
  rewrite bool_decide_eq_false_2 in Hval |- * by apply Hv. simpl in *.
  apply result_bind_Ok in Hval as ([by_ oi'] & Hc & Hval).
  apply result_bind_Ok in Hval as ([] & Hch & [= ->]).
  rewrite Hc. simpl. rewrite Hch. simpl.
  apply collect_spec in Hc as (-> & _ & _). fold (by_map items). rewrite by_map_values.
  destruct (build_graph (planned items)) as [out ind] eqn:Hg. simpl.
  pose proof (initial_ready_spec items Hv) as Hready. rewrite Hg in Hready. simpl in Hready.
  erewrite (drain_greedy (planned items) (vb_wf _ Hv) (by_map items) _
    (by_map_lookup items Hv) (cmp_sorted items Hv) (cmp_inj items Hv)); simpl.
  - case_decide as Hl; [by rewrite bool_decide_eq_true_2|by rewrite bool_decide_eq_false_2].
  - apply (initial_inv (planned items) (vb_wf _ Hv) (by_map items) _ (by_map_lookup items Hv)
      (cmp_sorted items Hv) (cmp_inj items Hv)); simpl; [done|done|by rewrite Hg|by rewrite Hg].
  - unfold planned. rewrite length_fmap. lia.
Qed.

(** C1: on every batch that passes validation the planner's incremental
    algorithm (indegrees, outgoing edges, a ready queue re-sorted on every
    insertion) computes exactly the greedy schedule: at each position the first
    item of the caller's order whose dependencies are all scheduled; it
    reports a cycle when, and only when, that schedule stops early, and its
    loop terminates without meeting a missing item. *)
Theorem planProposalBatch_refines_greedy items :
  valid_batch items →
  planProposalBatch items =
    if decide (length (greedy (length items) (planned items) []) = length items)
    then Ok (greedy (length items) (planned items) [])
    else Throw DependencyCycle.
Proof.
  intros Hv. pose proof (validate_batch_valid items Hv) as Hok.
  destruct (validate_batch items) as [oi|] eqn:E; [|done].
  by rewrite (planProposalBatch_valid items oi).
Qed.

Lemma planProposalBatch_Throw_validate items e :
  validate_batch items = Throw e → planProposalBatch items = Throw e.
Proof.
  unfold validate_batch, planProposalBatch.
  intros [H|([] & H1 & H)]%result_bind_Throw; [by rewrite H|rewrite H1; simpl].
  apply result_bind_Throw in H as [H|([by_ oi] & H2 & H)]; [by rewrite H|rewrite H2; simpl].
  apply result_bind_Throw in H as [H|([] & H3 & H)]; [by rewrite H|done].
Qed.

Lemma planProposalBatch_Ok_inv items out :
  planProposalBatch items = Ok out →
  valid_batch items ∧ out = greedy (length items) (planned items) [] ∧
  length out = length items.
Proof.
  destruct (validate_batch items) as [oi|e] eqn:E; intros H.
  - rewrite (planProposalBatch_valid items oi E) in H. simpl in H. case_decide; simplify_eq.
    by apply validate_batch_Ok in E as [? _].
  - by rewrite (planProposalBatch_Throw_validate items e E) in H.
Qed.

Lemma greedy_perm items :
  valid_batch items →
  length (greedy (length items) (planned items) []) = length items →
  greedy (length items) (planned items) [] ≡ₚ planned items.
Proof.
  intros Hv Hlen. set (out := greedy _ _ _) in *.
  destruct (greedy_NoDup (length items) (planned items) []) as [Hnd _]. fold out in Hnd.
  assert (out ⊆+ planned items) as Hs.
  { apply NoDup_submseteq; [by eapply NoDup_fmap_1|]. intros it Hit.
    apply list_elem_of_split in Hit as (pre & post & Heq).
    unfold out in Heq. by apply greedy_order in Heq as [? _]. }
  apply submseteq_length_Permutation; [done|].
  unfold planned. rewrite length_fmap. lia.
Qed.

(** when the planner accepts a batch, its order is a permutation of the
    items in which every item comes after all of its dependencies. *)
Theorem planProposalBatch_order items out :
  planProposalBatch items = Ok out →
  out ≡ₚ planned items ∧
  ∀ pre item post, out = pre ++ item :: post →
    Forall (fun d => d ∈ ids pre) (pi_dependsOn item).
Proof.
  intros (Hv & -> & Hlen)%planProposalBatch_Ok_inv. split; [by apply greedy_perm|].
  intros pre item post Heq. by apply greedy_order in Heq as [_ [_ ?]].
Qed.

(** C2: a valid batch is rejected for a dependency cycle exactly when no
    ranking of the proposals puts dependencies before dependents. *)
Theorem planProposalBatch_cycle_iff items :
  valid_batch items →
  planProposalBatch items = Throw DependencyCycle ↔ ¬ rankable (planned items).
Proof.
  intros Hv. pose proof (validate_batch_valid items Hv) as Hok.
  destruct (validate_batch items) as [oi|] eqn:E; [clear Hok|done].
  rewrite (planProposalBatch_valid items oi E). simpl. set (out := greedy _ _ _).
  pose proof (greedy_NoDup (length items) (planned items) []) as [Hnd _]. fold out in Hnd.
  case_decide as Hlen.
  - split; [done|]. intros Hnr. exfalso. apply Hnr.
    assert (rankable out) as [rank Hrank].
    { apply ordered_rankable; [done|]. intros pre it post Heq. unfold out in Heq.
      by apply greedy_order in Heq as [_ [_ ?]]. }
    exists rank. intros item d Hit. apply Hrank. unfold out.
    by rewrite (greedy_perm items Hv Hlen).
  - split; [|done]. intros _.
    assert (length out < length items) as Hlt.
    { enough (ids out ⊆+ ids (planned items)) as Hs%submseteq_length.
      { unfold ids, planned in Hs. rewrite !length_fmap in Hs. lia. }
      apply NoDup_submseteq; [done|]. intros x (it & -> & Hit)%list_elem_of_fmap.
      apply list_elem_of_split in Hit as (pre & post & Heq). unfold out in Heq.
      apply greedy_order in Heq as [Hit _]. by apply elem_of_ids. }
    apply (stuck_not_rankable (planned items) (ids out)).
    + intros item d. apply (wf_deps_known _ (vb_wf _ Hv)).
    + by apply (greedy_stuck (length items) (planned items) []).
    + destruct (decide (Forall (fun it => pi_proposalId it ∈ ids out) (planned items)))
        as [Hall|Hnall].
      * exfalso. enough (ids (planned items) ⊆+ ids out) as Hs%submseteq_length.
        { unfold ids, planned in Hs. rewrite !length_fmap in Hs. lia. }
        apply NoDup_submseteq; [apply (wf_ids _ (vb_wf _ Hv))|].
        intros x (it & -> & Hit)%list_elem_of_fmap. rewrite Forall_forall in Hall. by apply Hall.
      * apply not_Forall_Exists, Exists_exists in Hnall as (it & Hit & Hn); [|apply _].
        by exists it.
Qed.

(** The errors of the validation loops. *)
Definition is_validation_error (e : batch_error) : bool :=
  match e with
  | DependencyCycle | DrainFuel | ItemDisappeared _ => false
  | _ => true
  end.

Lemma validate_batch_error items e :
  validate_batch items = Throw e → is_validation_error e = true.
Proof.
  unfold validate_batch. intros H.
  apply result_bind_Throw in H as [[_ <-]%guard_throw_Throw|(? & _ & H)]; [done|].
  apply result_bind_Throw in H as [H|([by_ oi] & _ & H)].
  { revert H. apply (foldM_error _ (fun e => is_validation_error e = true)).
    intros [by_ oi] [i it] e' H. cbn in H. unfold validateBatchItem in H.
    by inv_throw H. }
  apply result_bind_Throw in H as [H|(? & _ & H)]; [|done].
  revert H. apply (foldM_error _ (fun e => is_validation_error e = true)).
  intros u it e' H. unfold check_item in H.
  apply result_bind_Throw in H as [H|(? & _ & H)]; [|done].
  revert H. apply (foldM_error _ (fun e => is_validation_error e = true)).
  intros seen d e2 H. unfold check_dependency in H. by inv_throw H.
Qed.

(** every run ends in one of three ways: an order or a cycle report for
    exactly the valid batches, and a validation error for every other batch;
    the loop never runs out of steps and never misses an item. *)
Theorem planProposalBatch_total items :
  match planProposalBatch items with
  | Ok _ => valid_batch items
  | Throw DependencyCycle => valid_batch items
  | Throw e => ¬ valid_batch items ∧ is_validation_error e = true
  end.
Proof.
  destruct (validate_batch items) as [oi|e] eqn:E.
  - rewrite (planProposalBatch_valid items oi E). apply validate_batch_Ok in E as [Hv _].
    simpl. by case_decide.
  - rewrite (planProposalBatch_Throw_validate items e E).
    assert (¬ valid_batch items) as Hn.
    { intros Hv%validate_batch_valid. by rewrite E in Hv. }
    apply validate_batch_error in E. by destruct e.
Qed.

(** A batch of three proposals whose caller listed them in reverse. *)
Definition sample_item (id : string) (deps : list string) : ApplyProposalBatchItem :=
  {| bi_proposalId := id; bi_dependsOn := Some deps; bi_actorId := None;
     bi_metadata := None |}.

Definition sample_batch : list ApplyProposalBatchItem :=
  [sample_item "c" ["b"; "a"]; sample_item "b" ["a"]; sample_item "a" []].

Definition cyclic_batch : list ApplyProposalBatchItem :=
  [sample_item "a" ["b"]; sample_item "b" ["a"]; sample_item "c" []].

Lemma sample_valid : valid_batch sample_batch.
Proof. by eapply validate_batch_Ok. Qed.

Lemma cyclic_valid : valid_batch cyclic_batch.
Proof. by eapply validate_batch_Ok. Qed.

Lemma planProposalBatch_refines_greedy_witness :
  planProposalBatch sample_batch
    = Ok (plan_item <$> [sample_item "a" []; sample_item "b" ["a"];
                         sample_item "c" ["b"; "a"]]).
Proof. rewrite (planProposalBatch_refines_greedy _ sample_valid). reflexivity. Defined.

Lemma planProposalBatch_order_witness :
  ∃ out, planProposalBatch sample_batch = Ok out ∧ out ≡ₚ planned sample_batch.
Proof.
  eexists. split; [reflexivity|]. eapply planProposalBatch_order. reflexivity.
Defined.

Lemma planProposalBatch_cycle_iff_witness : ¬ rankable (planned cyclic_batch).
Proof. apply (planProposalBatch_cycle_iff _ cyclic_valid). reflexivity. Defined.
