(* ===== verification/EventLog.v ===== *)
(** The surface event recorder
    ([apps/assistant/src/surface/event-log.ts]): a bounded log of numbered
    events with paged reads, gap detection and subscribers. *)
From S2P Require Import Prelude Json JsStr.

(** * The code *)

Definition DEFAULT_SURFACE_EVENT_CAPACITY : Z := 256.
Definition MAX_SURFACE_EVENT_CAPACITY : Z := 4096.

Inductive SurfaceEventType :=
| CommandCompleted | CommandRejected | StateChanged | CommandCatalogInvalidated
| CommandExecutionInvalidated | ConversationAssistantTextDelta
| ConversationOperationInvalidated | SideQueryInvalidated | PlanInvalidated
| GoalInvalidated | TeamInvalidated | PluginManagementInvalidated
| ScheduleInvalidated.

(** The optional payloads are values of other modules the recorder only copies. *)
Record SurfaceEventRecordRequest := {
  rq_type : SurfaceEventType;
  rq_command : jstr;
  rq_requestId : option jstr;
  rq_state : option json;
  rq_commandCatalog : option json;
  rq_commandExecution : option json;
  rq_conversation : option json;
  rq_sideQuery : option json;
  rq_plan : option json;
  rq_goal : option json;
  rq_team : option json;
  rq_pluginManagement : option json;
  rq_schedule : option json;
  rq_error : option json;
}.

Record SurfaceEvent := {
  ev_id : jstr;
  ev_sequence : Z;
  ev_type : SurfaceEventType;
  ev_command : jstr;
  ev_at : Z;
  ev_requestId : option jstr;
  ev_state : option json;
  ev_commandCatalog : option json;
  ev_commandExecution : option json;
  ev_conversation : option json;
  ev_sideQuery : option json;
  ev_plan : option json;
  ev_goal : option json;
  ev_team : option json;
  ev_pluginManagement : option json;
  ev_schedule : option json;
  ev_error : option json;
}.

Inductive recorder_error :=
| RecorderDisposed | BadCapacity | BadReadLimit | BadStreamId.

(** The variables captured by the recorder's closures.  A listener is a
    number; [rc_subs] holds the [subscribed] flag of every subscription handed
    out, with its listener. *)
Record recorder := {
  rc_capacity : Z;
  rc_streamId : jstr;
  rc_events : list SurfaceEvent;
  rc_listeners : list nat;
  rc_subs : list (nat * bool);
  rc_sequence : Z;
  rc_disposed : bool;
}.

Definition normalizeCapacity (value : option jsnum) : result recorder_error Z :=
  match value with
  | None => Ok DEFAULT_SURFACE_EVENT_CAPACITY
  | Some x =>
      match safe_integer x with
      | Some capacity =>
          if decide (capacity <= 0 ∨ MAX_SURFACE_EVENT_CAPACITY < capacity)%Z
          then Throw BadCapacity else Ok capacity
      | None => Throw BadCapacity
      end
  end.

Definition normalizeReadLimit (value : option jsnum) (capacity : Z)
    : result recorder_error Z :=
  match value with
  | None => Ok capacity
  | Some x =>
      match safe_integer x with
      | Some limit =>
          if decide (limit <= 0)%Z then Throw BadReadLimit else Ok (Z.min limit capacity)
      | None => Throw BadReadLimit
      end
  end.

Definition is_stream_char (c : N) : bool :=
  is_alnum c || bool_decide (c ∈ [46; 95; 45]%N).

Definition normalizeStreamId (value : jstr) : result recorder_error jstr :=
  let streamId := trim value in
  if decide (1 <= length streamId <= 200 ∧ Forall (fun c => is_stream_char c = true) streamId)
  then Ok streamId else Throw BadStreamId.

(** [streamId] is the option or the generated [assistant_app_surface_stream_*]. *)
Definition createSurfaceEventRecorder (capacity : option jsnum) (streamId : jstr)
    : result recorder_error recorder :=
  capacity ← normalizeCapacity capacity;
  streamId ← normalizeStreamId streamId;
  Ok {| rc_capacity := capacity; rc_streamId := streamId; rc_events := [];
        rc_listeners := []; rc_subs := []; rc_sequence := 0; rc_disposed := false |}.

Definition make_event (streamId : jstr) (sequence : Z) (at_ : Z)
    (request : SurfaceEventRecordRequest) : SurfaceEvent := {|
  ev_id := streamId ++ COLON :: dec_string (Z.to_N sequence);
  ev_sequence := sequence;
  ev_type := rq_type request;
  ev_command := rq_command request;
  ev_at := at_;
  ev_requestId := rq_requestId request;
  ev_state := rq_state request;
  ev_commandCatalog := rq_commandCatalog request;
  ev_commandExecution := rq_commandExecution request;
  ev_conversation := rq_conversation request;
  ev_sideQuery := rq_sideQuery request;
  ev_plan := rq_plan request;
  ev_goal := rq_goal request;
  ev_team := rq_team request;
  ev_pluginManagement := rq_pluginManagement request;
  ev_schedule := rq_schedule request;
  ev_error := rq_error request;
|}.

(** [record]: the event, the deliveries to the listeners (whose exceptions are
    swallowed) and the new state. *)
Definition record_event (now : Z) (request : SurfaceEventRecordRequest) (r : recorder)
    : result recorder_error (SurfaceEvent * list (nat * SurfaceEvent) * recorder) :=
  if rc_disposed r then Throw RecorderDisposed
  else
    let sequence := (rc_sequence r + 1)%Z in
    let event := make_event (rc_streamId r) sequence now request in
    let events := rc_events r ++ [event] in
    let events :=
      if decide (rc_capacity r < Z.of_nat (length events))%Z
      then drop (Z.to_nat (Z.of_nat (length events) - rc_capacity r)) events
      else events in
    Ok (event, (fun listener => (listener, event)) <$> rc_listeners r,
        {| rc_capacity := rc_capacity r; rc_streamId := rc_streamId r;
           rc_events := events; rc_listeners := rc_listeners r; rc_subs := rc_subs r;
           rc_sequence := sequence; rc_disposed := rc_disposed r |}).

Record ReadSurfaceEventsRequest := {
  rd_limit : option jsnum;
  rd_afterSequence : option Z;
  rd_streamId : option jstr;
}.

Record SurfaceEventPage := {
  pg_streamId : jstr;
  pg_earliestSequence : Z;
  pg_latestSequence : Z;
  pg_gap : bool;
  pg_hasMore : bool;
  pg_events : list SurfaceEvent;
}.

Definition read_events (request : ReadSurfaceEventsRequest) (r : recorder)
    : result recorder_error SurfaceEventPage :=
  let afterSequence := default 0%Z (rd_afterSequence request) in
  let earliestSequence :=
    match rc_events r with
    | event :: _ => ev_sequence event
    | [] => (rc_sequence r + 1)%Z
    end in
  let streamMatches :=
    match rd_streamId request with
    | None => bool_decide (afterSequence = 0%Z)
    | Some streamId => bool_decide (streamId = rc_streamId r)
    end in
  let cursorInRange :=
    bool_decide (afterSequence <= rc_sequence r)%Z &&
    bool_decide (earliestSequence - 1 <= afterSequence)%Z in
  let gap := negb streamMatches || negb cursorInRange in
  let unread :=
    if gap then []
    else filter (fun event => afterSequence < ev_sequence event)%Z (rc_events r) in
  limit ← normalizeReadLimit (rd_limit request) (rc_capacity r);
  let pageEvents := take (Z.to_nat limit) unread in
  Ok {| pg_streamId := rc_streamId r; pg_earliestSequence := earliestSequence;
        pg_latestSequence := rc_sequence r; pg_gap := gap;
        pg_hasMore := bool_decide (length pageEvents < length unread);
        pg_events := pageEvents |}.

(** [subscribe]: the index of the subscription, [None] for the inert
    unsubscriber of a disposed recorder. *)
Definition subscribe (listener : nat) (r : recorder) : option nat * recorder :=
  if rc_disposed r then (None, r)
  else
    (Some (length (rc_subs r)),
     {| rc_capacity := rc_capacity r; rc_streamId := rc_streamId r;
        rc_events := rc_events r;
        rc_listeners := if decide (listener ∈ rc_listeners r) then rc_listeners r
                        else rc_listeners r ++ [listener];
        rc_subs := rc_subs r ++ [(listener, true)];
        rc_sequence := rc_sequence r; rc_disposed := rc_disposed r |}).

(** The function [subscribe] returned. *)
Definition unsubscribe (sub : option nat) (r : recorder) : recorder :=
  match sub with
  | None => r
  | Some i =>
      match rc_subs r !! i with
      | Some (listener, true) =>
          {| rc_capacity := rc_capacity r; rc_streamId := rc_streamId r;
             rc_events := rc_events r;
             rc_listeners := filter (fun l => l ≠ listener) (rc_listeners r);
             rc_subs := <[i := (listener, false)]> (rc_subs r);
             rc_sequence := rc_sequence r; rc_disposed := rc_disposed r |}
      | _ => r
      end
  end.

Definition dispose (r : recorder) : recorder :=
  if rc_disposed r then r
  else {| rc_capacity := rc_capacity r; rc_streamId := rc_streamId r; rc_events := [];
          rc_listeners := []; rc_subs := rc_subs r; rc_sequence := rc_sequence r;
          rc_disposed := true |}.

(** * Invariant *)

(** The sequence numbers [from+1 ... from+n]. *)
Definition span (from : Z) (n : nat) : list Z := (fun i => from + 1 + Z.of_nat i)%Z <$> seq 0 n.

Definition event_ok (r : recorder) (e : SurfaceEvent) : Prop :=
  ev_id e = rc_streamId r ++ COLON :: dec_string (Z.to_N (ev_sequence e)).

Record recorder_wf (r : recorder) : Prop := {
  rw_capacity : (0 < rc_capacity r <= MAX_SURFACE_EVENT_CAPACITY)%Z;
  rw_sequence : (Z.of_nat (length (rc_events r)) <= rc_sequence r)%Z;
  rw_bounded : (Z.of_nat (length (rc_events r)) <= rc_capacity r)%Z;
  rw_consecutive : ev_sequence <$> rc_events r
    = span (rc_sequence r - Z.of_nat (length (rc_events r))) (length (rc_events r));
  rw_ids : Forall (event_ok r) (rc_events r);
  rw_full : rc_disposed r = false →
    Z.of_nat (length (rc_events r)) = Z.min (rc_sequence r) (rc_capacity r);
  rw_listeners : NoDup (rc_listeners r);
  rw_disposed : rc_disposed r = true → rc_events r = [] ∧ rc_listeners r = [];
}.

Lemma length_span from n : length (span from n) = n.
Proof. unfold span. by rewrite length_fmap, length_seq. Qed.

Lemma drop_span from n k : drop k (span from n) = span (from + Z.of_nat k) (n - k).
Proof.
  unfold span. rewrite <-fmap_drop, drop_seq. simpl.
  apply list_eq. intros i. rewrite !list_lookup_fmap.
  destruct (decide (i < n - k)).
  - rewrite !lookup_seq_lt by lia. simpl. f_equal. lia.
  - rewrite !lookup_seq_ge by lia. done.
Qed.

Lemma take_span from n k : take k (span from n) = span from (k `min` n).
Proof. unfold span. rewrite <-fmap_take, take_seq. done. Qed.

Lemma span_snoc from n : span from (S n) = span from n ++ [(from + 1 + Z.of_nat n)%Z].
Proof. unfold span. rewrite seq_S, fmap_app. done. Qed.

Lemma lookup_span from n i z :
  span from n !! i = Some z ↔ i < n ∧ z = (from + 1 + Z.of_nat i)%Z.
Proof.
  unfold span. rewrite list_lookup_fmap. destruct (decide (i < n)).
  - rewrite lookup_seq_lt by done. simpl. naive_solver.
  - rewrite lookup_seq_ge by lia. simpl. naive_solver.
Qed.

(** Selecting the unread suffix of a consecutive run is dropping a prefix. *)
Lemma filter_unread (events : list SurfaceEvent) from after :
  ev_sequence <$> events = span from (length events) →
  (from <= after)%Z →
  filter (fun e => after < ev_sequence e)%Z events = drop (Z.to_nat (after - from)) events.
Proof.
  intros Hs Ha. rewrite <-(take_drop (Z.to_nat (after - from)) events) at 1.
  rewrite filter_app, filter_none, filter_all; [done|..];
    intros e (i & Hi)%list_elem_of_lookup.
  - rewrite lookup_drop in Hi.
    assert (span from (length events) !! (Z.to_nat (after - from) + i) = Some (ev_sequence e))
      as [_ Heq]%lookup_span by (rewrite <-Hs, list_lookup_fmap, Hi; done).
    lia.
  - apply lookup_take_Some in Hi as [Hi Hlt].
    assert (span from (length events) !! i = Some (ev_sequence e)) as [_ Heq]%lookup_span
      by (rewrite <-Hs, list_lookup_fmap, Hi; done).
    lia.
Qed.

(** * Properties *)

Lemma create_wf capacity streamId r :
  createSurfaceEventRecorder capacity streamId = Ok r → recorder_wf r.
Proof.
  unfold createSurfaceEventRecorder. intros H.
  apply result_bind_Ok in H as (cap & Hc & H).
  apply result_bind_Ok in H as (sid & _ & [= <-]).
  assert (0 < cap <= MAX_SURFACE_EVENT_CAPACITY)%Z.
  { unfold normalizeCapacity, DEFAULT_SURFACE_EVENT_CAPACITY in Hc.
    destruct capacity as [x|]; [|simplify_eq; done].
    destruct (safe_integer x); [|done]. case_decide; [done|]. simplify_eq. lia. }
  split; simpl; try done; try lia; try constructor.
Qed.

Lemma record_wf now request r event out r' :
  record_event now request r = Ok (event, out, r') → recorder_wf r → recorder_wf r'.
Proof.
  unfold record_event. destruct (rc_disposed r) eqn:Hd; [done|].
  intros [= <- <- <-] [Hcap Hseq Hb Hcons Hids Hfull Hl _].
  set (e := make_event _ _ _ _). specialize (Hfull Hd).
  assert (ev_sequence <$> rc_events r ++ [e] = span (rc_sequence r - Z.of_nat
    (length (rc_events r))) (S (length (rc_events r)))) as Hcons'.
  { rewrite fmap_app, Hcons, span_snoc. simpl. do 2 f_equal. lia. }
  assert (Forall (event_ok r) (rc_events r ++ [e])) as Hids'.
  { apply Forall_app. split; [done|]. apply Forall_singleton. done. }
  rewrite length_app in *. simpl in *.
  case_decide as Hov; split; simpl; rewrite ?length_drop, ?length_app; simpl; try done;
    try lia.
  - rewrite fmap_drop, Hcons', drop_span. f_equal; lia.
  - by apply Forall_drop.
  - rewrite Hcons'. f_equal; lia.
Qed.

Lemma subscribe_wf listener r : recorder_wf r → recorder_wf (subscribe listener r).2.
Proof.
  intros Hr. unfold subscribe. destruct (rc_disposed r) eqn:Hd; [done|].
  destruct Hr. split; simpl; try done; [auto|].
  case_decide; [done|]. apply NoDup_app. split_and!; [done|set_solver|apply NoDup_singleton].
Qed.

Lemma unsubscribe_wf sub r : recorder_wf r → recorder_wf (unsubscribe sub r).
Proof.
  intros Hr. unfold unsubscribe. destruct sub as [i|]; [|done].
  destruct (rc_subs r !! i) as [[l []]|]; [|done..].
  destruct Hr as [??????? Hdis]. split; simpl; try done; [by apply NoDup_filter|].
  intros [-> ->]%Hdis. done.
Qed.

Lemma dispose_wf r : recorder_wf r → recorder_wf (dispose r).
Proof.
  intros Hr. unfold dispose. destruct (rc_disposed r) eqn:Hd; [done|].
  destruct Hr. split; simpl; try done; try lia; try constructor.
Qed.

(** The operations a recorder can undergo. *)
Inductive recorder_step : recorder → recorder → Prop :=
| step_record now request r event out r' :
    record_event now request r = Ok (event, out, r') → recorder_step r r'
| step_subscribe listener r : recorder_step r (subscribe listener r).2
| step_unsubscribe sub r : recorder_step r (unsubscribe sub r)
| step_dispose r : recorder_step r (dispose r).

(** C3: from creation on, under any interleaving of records, subscriptions,
    unsubscriptions and disposal, the retained events are the most recent ones
    with consecutive numbers ending at the last one issued, as many as the
    capacity allows while the recorder is live, each with the id
    [streamId:sequence]. *)
Theorem recorder_invariant capacity streamId r0 r :
  createSurfaceEventRecorder capacity streamId = Ok r0 →
  rtc recorder_step r0 r → recorder_wf r.
Proof.
  intros H0%create_wf. induction 1 as [|r1 r2 r3 Hs _ IH]; [done|]. apply IH.
  destruct Hs; eauto using record_wf, subscribe_wf, unsubscribe_wf, dispose_wf.
Qed.

(** What a reader positioned after event [after] is owed: the events
    [after+1 ... sequence] are all retained. *)
Definition retained (r : recorder) (after : Z) : Prop :=
  (rc_sequence r - Z.of_nat (length (rc_events r)) <= after <= rc_sequence r)%Z.

Lemma earliest_eq r : recorder_wf r →
  match rc_events r with
  | event :: _ => ev_sequence event
  | [] => (rc_sequence r + 1)%Z
  end = (rc_sequence r - Z.of_nat (length (rc_events r)) + 1)%Z.
Proof.
  intros [_ _ _ Hcons _ _ _ _]. destruct (rc_events r) as [|e es]; [simpl; lia|].
  rewrite fmap_cons in Hcons. unfold span in Hcons. simpl in Hcons.
  injection Hcons as -> _. simpl. lia.
Qed.

Definition valid_limit (limit : option Z) : Prop :=
  match limit with Some l => (1 <= l <= MAX_SAFE_INTEGER)%Z | None => True end.

Lemma normalizeReadLimit_valid limit capacity :
  valid_limit limit → (0 < capacity)%Z →
  normalizeReadLimit (num_of_Z <$> limit) capacity
    = Ok (Z.min (default capacity limit) capacity).
Proof.
  destruct limit as [l|]; simpl; intros Hl Hc; [|f_equal; lia].
  rewrite safe_integer_of_Z. unfold is_safe. rewrite bool_decide_eq_true_2 by lia.
  rewrite decide_False by lia. done.
Qed.

(** a read with a valid limit reports a gap exactly when the cursor names
    another stream or some event after it is no longer retained (or was never
    issued); otherwise it returns the events following the cursor,
    consecutively, as many as the limit and the capacity allow, and says
    whether more remain. *)
Theorem read_events_spec r limit after streamId :
  recorder_wf r → valid_limit limit →
  ∃ page,
    read_events {| rd_limit := num_of_Z <$> limit; rd_afterSequence := Some after;
                   rd_streamId := Some streamId |} r = Ok page ∧
    pg_latestSequence page = rc_sequence r ∧
    (pg_gap page = true ↔ streamId ≠ rc_streamId r ∨ ¬ retained r after) ∧
    (pg_gap page = true → pg_events page = [] ∧ pg_hasMore page = false) ∧
    (pg_gap page = false →
       let n := Z.to_nat (Z.min (rc_sequence r - after)
                  (Z.min (default (rc_capacity r) limit) (rc_capacity r))) in
       ev_sequence <$> pg_events page = span after n ∧
       (pg_hasMore page = true ↔ (after + Z.of_nat n < rc_sequence r)%Z)).
Proof.
  intros Hr Hlimit. unfold read_events. simpl. rewrite (earliest_eq r Hr).
  destruct Hr as [Hcap Hseq Hb Hcons _ _ _ _].
  rewrite normalizeReadLimit_valid by (done || lia). simpl.
  eexists. split; [done|]. simpl. split; [done|].
  set (gap := negb (bool_decide (streamId = rc_streamId r)) || _).
  assert (gap = true ↔ streamId ≠ rc_streamId r ∨ ¬ retained r after) as Hgap.
  { unfold gap, retained. rewrite orb_true_iff, !negb_true_iff, andb_false_iff.
    rewrite !bool_decide_eq_false. split; [intros [?|[?|?]]|intros [?|?]];
      [auto|right; lia|right; lia|auto|].
    destruct (decide (after <= rc_sequence r)%Z); right; [right|left]; lia. }
  split; [done|]. destruct gap; simpl; split; try done.
  { intros _. by rewrite take_nil. }
  intros _. assert (retained r after) as Hret.
  { destruct (decide (retained r after)) as [|Hn]; [done|]. exfalso.
    assert (false = true); [|done]. apply Hgap. auto. }
  unfold retained in Hret.
  rewrite (filter_unread _ _ _ Hcons) by lia.
  rewrite fmap_take, fmap_drop, Hcons, drop_span, take_span.
  rewrite bool_decide_eq_true, length_take, length_drop. split; [f_equal; lia|].
  destruct limit; simpl in *; lia.
Qed.

(** A reader that keeps its place: it asks for the next page after the last
    event it has seen while the recorder says there is more. *)
Fixpoint read_all (fuel : nat) (limit : option Z) (after : Z) (r : recorder)
    : list SurfaceEvent :=
  match fuel with
  | O => []
  | S fuel =>
      match read_events {| rd_limit := num_of_Z <$> limit; rd_afterSequence := Some after;
                           rd_streamId := Some (rc_streamId r) |} r with
      | Throw _ => []
      | Ok page =>
          pg_events page ++
          (if pg_hasMore page
           then read_all fuel limit
                  (default after (ev_sequence <$> last (pg_events page))) r
           else [])
      end
  end.

(** paging is complete: from a cursor without a gap, reading page after
    page with any valid limit delivers every later event exactly once and in
    order. *)
Theorem read_all_complete r limit after :
  recorder_wf r → valid_limit limit → retained r after →
  ev_sequence <$> read_all (S (Z.to_nat (rc_sequence r - after))) limit after r
    = span after (Z.to_nat (rc_sequence r - after)).
Proof.
  intros Hr Hlimit.
  assert (∀ fuel after, retained r after → Z.to_nat (rc_sequence r - after) < fuel →
    ev_sequence <$> read_all fuel limit after r
      = span after (Z.to_nat (rc_sequence r - after))) as H; [|by intros; apply H; [|lia]].
  clear after. induction fuel as [|fuel IH]; intros after Hret Hfuel; [lia|]. simpl.
  destruct (read_events_spec r limit after (rc_streamId r) Hr Hlimit)
    as (page & -> & _ & Hgap & _ & Hpage).
  assert (pg_gap page = false) as Hg.
  { destruct (pg_gap page); [|done]. exfalso. destruct (proj1 Hgap eq_refl); auto. }
  destruct (Hpage Hg) as [Hev Hmore]. clear Hpage Hgap.
  set (n := Z.to_nat (Z.min _ _)) in *. destruct Hr as [Hcap _ _ _ _ _ _ _].
  assert (length (pg_events page) = n) as Hlen by (by rewrite <-(length_fmap ev_sequence), Hev, length_span).
  destruct (pg_hasMore page).
  - assert (after + Z.of_nat n < rc_sequence r)%Z as Hlt by (by apply Hmore).
    assert (0 < n) as Hn.
    { unfold n, valid_limit in *. destruct limit; simpl in *; lia. }
    assert (ev_sequence <$> last (pg_events page) = Some (after + Z.of_nat n)%Z) as ->.
    { rewrite last_lookup, <-list_lookup_fmap, Hev, Hlen. apply lookup_span. lia. }
    simpl. rewrite fmap_app, Hev, IH by (unfold retained in *; lia).
    apply list_eq. intros i. apply option_eq. intros z.
    rewrite lookup_app, lookup_span.
    destruct (span after n !! i) as [z'|] eqn:E.
    + apply lookup_span in E. split; [intros [= <-]|]; [lia|]. intros [? ->]. f_equal. lia.
    + apply lookup_ge_None in E. rewrite length_span in *. rewrite lookup_span. lia.
  - rewrite app_nil_r, Hev. f_equal.
    destruct (decide (after + Z.of_nat n < rc_sequence r)%Z) as [Hlt|Hge].
    + apply Hmore in Hlt. done.
    + unfold n, retained in *. lia.
Qed.

(** * A recorder of capacity two after three events *)

Definition sample_request : SurfaceEventRecordRequest :=
  {| rq_type := StateChanged; rq_command := js "refresh"; rq_requestId := None;
     rq_state := None; rq_commandCatalog := None; rq_commandExecution := None;
     rq_conversation := None; rq_sideQuery := None; rq_plan := None; rq_goal := None;
     rq_team := None; rq_pluginManagement := None; rq_schedule := None; rq_error := None |}.

Definition record_one (r : recorder) : recorder :=
  match record_event 7 sample_request r with Ok (_, _, r') => r' | Throw _ => r end.

Definition fresh_recorder : recorder :=
  match createSurfaceEventRecorder (Some (num_of_Z 2)) (js " stream.1 ") with
  | Ok r => r
  | Throw _ => {| rc_capacity := 0; rc_streamId := []; rc_events := []; rc_listeners := [];
                  rc_subs := []; rc_sequence := 0; rc_disposed := true |}
  end.

Definition sample_recorder : recorder := record_one (record_one (record_one fresh_recorder)).

Lemma record_one_wf r : recorder_wf r → recorder_wf (record_one r).
Proof.
  intros Hr. unfold record_one. destruct (record_event _ _ r) as [[[e out] r']|] eqn:E; [|done].
  by eapply record_wf.
Qed.

Lemma sample_wf : recorder_wf sample_recorder.
Proof.
  unfold sample_recorder. do 3 apply record_one_wf.
  by apply (create_wf (Some (num_of_Z 2)) (js " stream.1 ")).
Qed.

Lemma recorder_invariant_witness : recorder_wf sample_recorder.
Proof.
  apply (recorder_invariant (Some (num_of_Z 2)) (js " stream.1 ") fresh_recorder); [reflexivity|].
  do 3 (eapply rtc_l; [eapply (step_record 7 sample_request); reflexivity|]). apply rtc_refl.
Defined.

Lemma read_events_spec_witness :
  ∃ page, read_events {| rd_limit := Some (num_of_Z 1); rd_afterSequence := Some 0%Z;
                         rd_streamId := Some (js "stream.1") |} sample_recorder = Ok page ∧
    pg_gap page = true.
Proof.
  destruct (read_events_spec sample_recorder (Some 1%Z) 0 (js "stream.1") sample_wf
    ltac:(simpl; unfold MAX_SAFE_INTEGER; lia)) as (page & Hr & _ & Hgap & _).
  exists page. split; [exact Hr|]. apply Hgap. right. intros [H _]. by apply H.
Defined.

Lemma read_all_complete_witness :
  ev_sequence <$> read_all 3 (Some 1%Z) 1 sample_recorder = [2; 3]%Z.
Proof.
  apply (read_all_complete sample_recorder (Some 1%Z) 1 sample_wf).
  - simpl. unfold MAX_SAFE_INTEGER. lia.
  - split; by vm_compute.
Defined.
