(* ===== verification/SseProvider.v ===== *)
(** The provider's server-sent-event parser
    ([packages/runtime/src/provider/sse.ts]): a transport chunk is split at
    newlines before it is buffered, under limits on the bytes of one event and
    of the response. *)
From S2P Require Import Prelude Json JsStr.

(** [TextDecoder] as the parser uses it: [decode(chunk, {stream: true})] and the
    final [decode()], which throw on malformed input when fatal. *)
Class TextDecoder := {
  dec_state : Type;
  dec_init : dec_state;
  dec_push : dec_state → list N → option (jstr * dec_state);
  dec_end : dec_state → option jstr;
}.

(** Its documented streaming behaviour: decoding is independent of how the
    bytes are cut into pieces. *)
Class TextDecoderLaws (D : TextDecoder) : Prop := {
  dec_push_nil d : dec_push d [] = Some ([], d);
  dec_push_app d b1 b2 :
    dec_push d (b1 ++ b2) =
      '(s1, d1) ← dec_push d b1; '(s2, d2) ← dec_push d1 b2; Some (s1 ++ s2, d2);
}.

(** * The code *)

Inductive chunk := ChunkText (s : jstr) | ChunkBytes (b : list N).

Record ProviderStreamLimits := { lim_eventBytes : jsnum; lim_responseBytes : jsnum }.

Inductive sse_error :=
| InvalidLimits | EventTooLarge | ResponseTooLarge | DecodeError.

Section parser.
Context `{D : TextDecoder}.

Record sse_state := {
  ss_decoder : dec_state;
  ss_buffer : jstr;
  ss_data : list jstr;
  ss_responseBytes : Z;
  ss_eventBytes : Z;
  ss_yielded : list jstr;
}.

Definition sse_init : sse_state :=
  {| ss_decoder := dec_init; ss_buffer := []; ss_data := []; ss_responseBytes := 0;
     ss_eventBytes := 0; ss_yielded := [] |}.

Abbreviation sseM := (stM sse_state sse_error).

(** The admitted limits: [(eventBytes, responseBytes)]. *)
Definition checkLimits (limits : option ProviderStreamLimits)
    : result sse_error (option (Z * Z)) :=
  match limits with
  | None => Ok None
  | Some l =>
      match safe_integer (lim_eventBytes l), safe_integer (lim_responseBytes l) with
      | Some e, Some r =>
          if decide (e <= 0 ∨ r < e)%Z then Throw InvalidLimits else Ok (Some (e, r))
      | _, _ => Throw InvalidLimits
      end
  end.

Definition over (limit : option Z) (bytes : Z) : bool :=
  match limit with Some l => bool_decide (l < bytes)%Z | None => false end.

Definition set_buffer (b : jstr) (s : sse_state) : sse_state :=
  {| ss_decoder := ss_decoder s; ss_buffer := b; ss_data := ss_data s;
     ss_responseBytes := ss_responseBytes s; ss_eventBytes := ss_eventBytes s;
     ss_yielded := ss_yielded s |}.

Definition set_data (l : list jstr) (s : sse_state) : sse_state :=
  {| ss_decoder := ss_decoder s; ss_buffer := ss_buffer s; ss_data := l;
     ss_responseBytes := ss_responseBytes s; ss_eventBytes := ss_eventBytes s;
     ss_yielded := ss_yielded s |}.

Definition set_eventBytes (n : Z) (s : sse_state) : sse_state :=
  {| ss_decoder := ss_decoder s; ss_buffer := ss_buffer s; ss_data := ss_data s;
     ss_responseBytes := ss_responseBytes s; ss_eventBytes := n;
     ss_yielded := ss_yielded s |}.

Definition add_responseBytes (n : Z) (s : sse_state) : sse_state :=
  {| ss_decoder := ss_decoder s; ss_buffer := ss_buffer s; ss_data := ss_data s;
     ss_responseBytes := ss_responseBytes s + n; ss_eventBytes := ss_eventBytes s;
     ss_yielded := ss_yielded s |}.

Definition set_decoder (d : dec_state) (s : sse_state) : sse_state :=
  {| ss_decoder := d; ss_buffer := ss_buffer s; ss_data := ss_data s;
     ss_responseBytes := ss_responseBytes s; ss_eventBytes := ss_eventBytes s;
     ss_yielded := ss_yielded s |}.

Definition yield (x : jstr) (s : sse_state) : sse_state :=
  {| ss_decoder := ss_decoder s; ss_buffer := ss_buffer s; ss_data := ss_data s;
     ss_responseBytes := ss_responseBytes s; ss_eventBytes := ss_eventBytes s;
     ss_yielded := ss_yielded s ++ [x] |}.

Definition countEvent (limit : option Z) (bytes : Z) : sseM unit :=
  _ ← modifyM (fun s => set_eventBytes (ss_eventBytes s + bytes) s);
  s ← getM;
  guardM (over limit (ss_eventBytes s)) EventTooLarge.

Definition data_field (line : jstr) : jstr := strip_first SPACE (drop 5 line).

Definition process_line (line : jstr) (s : sse_state) : sse_state :=
  match line with
  | [] =>
      set_eventBytes 0
        (match ss_data s with
         | [] => s
         | data => set_data [] (yield (join [NL] data) s)
         end)
  | _ =>
      if starts_with (js "data:") line
      then set_data (ss_data s ++ [data_field line]) s else s
  end.

(** One turn of the [do ... while] loop over a decoded chunk. *)
Definition fragment_step (limit : option Z) (fragment : jstr) (boundary : bool)
    : sseM unit :=
  _ ← countEvent limit (utf8ByteLength fragment);
  modifyM (fun s =>
    let buffer := ss_buffer s ++ fragment in
    if boundary
    then process_line (strip_last CR (take (length buffer - 1) buffer)) (set_buffer [] s)
    else set_buffer buffer s).

Fixpoint fragment_loop (fuel : nat) (limit : option Z) (rest : jstr) : sseM unit :=
  match fuel with
  | O => mret tt
  | S fuel =>
      let '(end_, boundary) :=
        match index_of NL rest with
        | Some i => (S i, true)
        | None => (length rest, false)
        end in
      _ ← fragment_step limit (take end_ rest) boundary;
      let rest := drop end_ rest in
      if decide (rest = []) then mret tt else fragment_loop fuel limit rest
  end.

Definition decode_chunk (c : chunk) : sseM jstr :=
  match c with
  | ChunkText s => mret s
  | ChunkBytes b =>
      s ← getM;
      match dec_push (ss_decoder s) b with
      | Some (decoded, d) => _ ← modifyM (set_decoder d); mret decoded
      | None => throwM DecodeError
      end
  end.

Definition chunk_bytes (c : chunk) : Z :=
  match c with
  | ChunkText s => utf8ByteLength s
  | ChunkBytes b => Z.of_nat (length b)
  end.

Definition process_chunk (eventLimit responseLimit : option Z) (c : chunk) : sseM unit :=
  _ ← modifyM (add_responseBytes (chunk_bytes c));
  s ← getM;
  _ ← guardM (over responseLimit (ss_responseBytes s)) ResponseTooLarge;
  decoded ← decode_chunk c;
  fragment_loop (S (length decoded)) eventLimit decoded.

Definition finish_stream (limit : option Z) : sseM unit :=
  s ← getM;
  match dec_end (ss_decoder s) with
  | None => throwM DecodeError
  | Some tail =>
      _ ← countEvent limit (utf8ByteLength tail);
      modifyM (fun s =>
        let buffer := ss_buffer s ++ tail in
        let s := set_buffer buffer s in
        let line := strip_last CR buffer in
        let s :=
          if decide (buffer ≠ [] ∧ starts_with (js "data:") line = true)
          then set_data (ss_data s ++ [data_field line]) s else s in
        match ss_data s with [] => s | data => yield (join [NL] data) s end)
  end.

Definition parseServerSentEvents (limits : option ProviderStreamLimits)
    (body : list chunk) : sseM unit :=
  admitted ← liftM (checkLimits limits);
  _ ← iterM (process_chunk (fst <$> admitted) (snd <$> admitted)) body;
  finish_stream (fst <$> admitted).
End parser.

(** * Specification: one pass over the characters of the decoded response *)

Record sse_core := { sc_buffer : jstr; sc_data : list jstr; sc_yielded : list jstr }.

Definition core_line (line : jstr) (c : sse_core) : sse_core :=
  match line with
  | [] =>
      {| sc_buffer := []; sc_data := [];
         sc_yielded := match sc_data c with
                       | [] => sc_yielded c
                       | data => sc_yielded c ++ [join [NL] data]
                       end |}
  | _ =>
      {| sc_buffer := [];
         sc_data := if starts_with (js "data:") line
                    then sc_data c ++ [data_field line] else sc_data c;
         sc_yielded := sc_yielded c |}
  end.

Definition core_char (c : sse_core) (x : N) : sse_core :=
  if decide (x = NL) then core_line (strip_last CR (sc_buffer c)) c
  else {| sc_buffer := sc_buffer c ++ [x]; sc_data := sc_data c; sc_yielded := sc_yielded c |}.

(** The events of a whole response [text] followed by the decoder's [tail]. *)
Definition sse_events (text tail : jstr) : list jstr :=
  let c := foldl core_char {| sc_buffer := []; sc_data := []; sc_yielded := [] |} text in
  let buffer := sc_buffer c ++ tail in
  let line := strip_last CR buffer in
  let data :=
    if decide (buffer ≠ [] ∧ starts_with (js "data:") line = true)
    then sc_data c ++ [data_field line] else sc_data c in
  match data with [] => sc_yielded c | _ => sc_yielded c ++ [join [NL] data] end.

Section facts.
Context `{D : TextDecoder}.

Definition core (s : sse_state) : sse_core :=
  {| sc_buffer := ss_buffer s; sc_data := ss_data s; sc_yielded := ss_yielded s |}.

Lemma core_chars c l : NL ∉ l →
  foldl core_char c l =
    {| sc_buffer := sc_buffer c ++ l; sc_data := sc_data c; sc_yielded := sc_yielded c |}.
Proof.
  revert c. induction l as [|x l IH]; intros c Hl; simpl.
  { rewrite app_nil_r. by destruct c. }
  unfold core_char at 2. rewrite decide_False by set_solver.
  rewrite IH by set_solver. simpl. by rewrite <-app_assoc.
Qed.

Lemma core_process_line line s :
  core (process_line line (set_buffer [] s)) = core_line line (core s) ∧
  ss_decoder (process_line line (set_buffer [] s)) = ss_decoder s.
Proof.
  unfold process_line, core_line. destruct line as [|x line]; simpl.
  - destruct (ss_data s) eqn:E; unfold core; simpl; by rewrite ?E.
  - by destruct (starts_with _ _).
Qed.

Lemma fragment_step_spec fragment boundary s :
  ∃ s', fragment_step None fragment boundary s = (s', Ok tt) ∧
    ss_decoder s' = ss_decoder s ∧
    core s' = if boundary
      then core_line (strip_last CR (take (length (ss_buffer s ++ fragment) - 1)
             (ss_buffer s ++ fragment))) (core s)
      else {| sc_buffer := ss_buffer s ++ fragment; sc_data := ss_data s;
              sc_yielded := ss_yielded s |}.
Proof.
  unfold fragment_step, countEvent. cbn. eexists. split; [done|].
  destruct boundary; [|done]. set (s1 := set_eventBytes _ s).
  change (ss_buffer s) with (ss_buffer s1).
  destruct (core_process_line (strip_last CR (take (length (ss_buffer s1 ++ fragment) - 1)
    (ss_buffer s1 ++ fragment))) s1) as [H1 H2]. done.
Qed.

Lemma fragment_loop_spec fuel rest s :
  length rest < fuel →
  ∃ s', fragment_loop fuel None rest s = (s', Ok tt) ∧
    ss_decoder s' = ss_decoder s ∧ core s' = foldl core_char (core s) rest.
Proof.
  revert rest s. induction fuel as [|fuel IH]; intros rest s Hfuel; [lia|].
  cbn [fragment_loop]. destruct (index_of NL rest) as [i|] eqn:Hi.
  - rewrite (index_of_take_S _ _ _ Hi). apply index_of_Some in Hi as [Heq Hn].
    set (a := take i rest) in *. set (b := drop (S i) rest) in *.
    destruct (fragment_step_spec (a ++ [NL]) true s) as (s1 & Hs1 & Hd1 & Hc1).
    rewrite (assoc_L (++)), length_app, Nat.add_sub, take_app_length in Hc1.
    assert (core s1 = foldl core_char (core s) (a ++ [NL])) as Hc.
    { rewrite foldl_app, (core_chars _ a) by done. simpl. unfold core_char. simpl.
      rewrite Hc1. unfold core_line. by destruct (strip_last _ _). }
    assert (foldl core_char (core s) rest = foldl core_char (core s1) b) as ->.
    { rewrite Heq, Hc, <-foldl_app, <-app_assoc. done. }
    unfold mbind, stM_bind. rewrite Hs1.
    case_decide as Hb; [rewrite Hb; by eauto|].
    destruct (IH b s1) as (s2 & Hs2 & Hd2 & Hc2).
    { apply (f_equal length) in Heq. rewrite length_app in Heq. simpl in Heq. lia. }
    exists s2. rewrite Hs2, Hd2, Hd1. done.
  - apply index_of_None in Hi. rewrite take_ge by done.
    destruct (fragment_step_spec rest false s) as (s1 & Hs1 & Hd1 & Hc1).
    unfold mbind, stM_bind. rewrite Hs1, drop_all, decide_True by done.
    exists s1. split_and!; [done..|]. rewrite Hc1. by rewrite core_chars.
Qed.

(** Decoding a sequence of chunks. *)
Fixpoint decode_all (d : dec_state) (body : list chunk) : option (jstr * dec_state) :=
  match body with
  | [] => Some ([], d)
  | ChunkText s :: body => '(text, d') ← decode_all d body; Some (s ++ text, d')
  | ChunkBytes b :: body =>
      '(s, d1) ← dec_push d b; '(text, d') ← decode_all d1 body; Some (s ++ text, d')
  end.

Lemma process_chunks_spec body s text d :
  decode_all (ss_decoder s) body = Some (text, d) →
  ∃ s', iterM (process_chunk None None) body s = (s', Ok tt) ∧
    ss_decoder s' = d ∧ core s' = foldl core_char (core s) text.
Proof.
  revert s text. induction body as [|c body IH]; intros s text; simpl.
  { intros [= <- <-]. by exists s. }
  set (s1 := add_responseBytes (chunk_bytes c) s).
  intros H. assert (∃ decoded d1 text', text = decoded ++ text' ∧
    decode_all d1 body = Some (text', d) ∧
    decode_chunk c s1 = (set_decoder d1 s1, Ok decoded)) as (decoded & d1 & text' & -> & Hb & Hc).
  { destruct c as [t|b].
    - destruct (decode_all _ body) as [[text' d']|] eqn:E; simplify_eq/=.
      exists t, (ss_decoder s), text'. by destruct s.
    - destruct (dec_push _ b) as [[t d1]|] eqn:E1; simplify_eq/=.
      destruct (decode_all d1 body) as [[text' d']|] eqn:E; simplify_eq/=.
      exists t, d1, text'. split_and!; [done..|]. unfold decode_chunk, mbind, stM_bind. simpl.
      by rewrite E1. }
  destruct (fragment_loop_spec (S (length decoded)) decoded (set_decoder d1 s1))
    as (s2 & Hs2 & Hd2 & Hc2); [lia|].
  destruct (IH s2 text') as (s3 & Hs3 & Hd3 & Hc3); [by rewrite Hd2|].
  exists s3. rewrite foldl_app. change (core s) with (core (set_decoder d1 s1)).
  rewrite <-Hc2, <-Hc3. split_and!; [|done..].
  unfold process_chunk. unfold mbind at 1, stM_bind at 1.
  unfold mbind, stM_bind, modifyM, getM, guardM, over, mret, stM_ret. fold s1.
  by rewrite Hc, Hs2.
Qed.
End facts.

Section properties.
Context `{D : TextDecoder}.

Lemma finish_spec s tail :
  dec_end (ss_decoder s) = Some tail →
  ∃ s', finish_stream None s = (s', Ok tt) ∧
    ss_yielded s' =
      (let buffer := ss_buffer s ++ tail in
       let line := strip_last CR buffer in
       let data :=
         if decide (buffer ≠ [] ∧ starts_with (js "data:") line = true)
         then ss_data s ++ [data_field line] else ss_data s in
       match data with [] => ss_yielded s | _ => ss_yielded s ++ [join [NL] data] end).
Proof.
  intros Ht. unfold finish_stream. unfold mbind at 1, stM_bind at 1. simpl. rewrite Ht.
  eexists. split; [reflexivity|]. cbn. case_decide as Hc; simpl.
  - by destruct (ss_data s).
  - by destruct (ss_data s).
Qed.

(** C4: without limits the parser yields exactly the events of the decoded
    response read as one text, however the transport cut it into chunks, and
    ends normally. *)
Theorem parseServerSentEvents_refines body text d tail :
  decode_all dec_init body = Some (text, d) → dec_end d = Some tail →
  ∃ s, parseServerSentEvents None body sse_init = (s, Ok tt) ∧
    ss_yielded s = sse_events text tail.
Proof.
  intros Hd Ht. destruct (process_chunks_spec body sse_init text d Hd) as (s1 & H1 & Hd1 & Hc1).
  destruct (finish_spec s1 tail) as (s2 & H2 & Hy2); [by rewrite Hd1|].
  exists s2. split.
  - unfold parseServerSentEvents. unfold mbind, stM_bind. simpl. by rewrite H1.
  - rewrite Hy2. unfold sse_events. change (core sse_init) with
      {| sc_buffer := []; sc_data := []; sc_yielded := [] |} in Hc1. by rewrite <-Hc1.
Qed.

Lemma decode_all_bytes `{!TextDecoderLaws D} d bs :
  decode_all d (ChunkBytes <$> bs) = dec_push d (concat bs).
Proof.
  revert d. induction bs as [|b bs IH]; intros d; simpl; [by rewrite dec_push_nil|].
  rewrite dec_push_app. destruct (dec_push d b) as [[s d1]|]; simpl; [|done].
  by rewrite IH.
Qed.

Lemma countEvent_refines limit n : refinesM (countEvent limit n) (countEvent None n).
Proof.
  unfold countEvent. apply refinesM_bind; [done|]. intros _.
  apply refinesM_bind; [done|]. intros s. by apply refinesM_guard.
Qed.

Lemma fragment_loop_refines limit fuel rest :
  refinesM (fragment_loop fuel limit rest) (fragment_loop fuel None rest).
Proof.
  revert rest. induction fuel as [|fuel IH]; intros rest; simpl; [done|].
  destruct (match index_of _ _ with Some i => _ | None => _ end) as [e b].
  apply refinesM_bind.
  - apply refinesM_bind; [apply countEvent_refines|done].
  - intros _. by case_decide.
Qed.

Lemma process_chunk_refines l1 l2 c : refinesM (process_chunk l1 l2 c) (process_chunk None None c).
Proof.
  unfold process_chunk. apply refinesM_bind; [done|]. intros _.
  apply refinesM_bind; [done|]. intros s. apply refinesM_bind; [by apply refinesM_guard|].
  intros _. apply refinesM_bind; [done|]. intros decoded. apply fragment_loop_refines.
Qed.

(** limits only ever stop the parser: a limited run that ends normally is
    the unlimited run, with the same events in the same order. *)
Theorem parseServerSentEvents_limits limits body s :
  parseServerSentEvents (Some limits) body sse_init = (s, Ok tt) →
  parseServerSentEvents None body sse_init = (s, Ok tt).
Proof.
  intros (s1 & admitted & H1 & H2)%stM_bind_Ok. injection H1 as -> _.
  unfold parseServerSentEvents. apply stM_bind_Ok. exists s1, None. split; [done|].
  revert H2. apply refinesM_bind; [|intros _].
  - apply refinesM_iter. intros c. apply process_chunk_refines.
  - unfold finish_stream. apply refinesM_bind; [done|]. intros s2.
    destruct (dec_end _); [|done]. apply refinesM_bind; [apply countEvent_refines|done].
Qed.

(** The bytes held for the event being assembled. *)
Definition held (data : list jstr) : Z :=
  foldr (fun d n => 1 + utf8ByteLength d + n)%Z 0%Z data.

Lemma held_app d1 d2 : held (d1 ++ d2) = (held d1 + held d2)%Z.
Proof. unfold held. induction d1 as [|d d1 IH]; simpl; lia. Qed.

Lemma held_nonneg data : (0 <= held data)%Z.
Proof.
  unfold held. induction data as [|d l IH]; simpl; [lia|].
  pose proof (utf8ByteLength_nonneg d). lia.
Qed.

Lemma join_held data :
  data ≠ [] → (utf8ByteLength (join [NL] data) + 1 <= held data)%Z.
Proof.
  induction data as [|d [|d' data] IH]; intros Hne; [done|simpl; lia|].
  specialize (IH ltac:(done)).
  pose proof (utf8ByteLength_app_le d (NL :: join [NL] (d' :: data))) as H1.
  change (utf8ByteLength (NL :: join [NL] (d' :: data)))
    with (1 + utf8ByteLength (join [NL] (d' :: data)))%Z in H1.
  change (join [NL] (d :: d' :: data)) with (d ++ NL :: join [NL] (d' :: data)).
  change (held (d :: d' :: data)) with (1 + utf8ByteLength d + held (d' :: data))%Z. lia.
Qed.

Definition yields_bounded (L : Z) (s : sse_state) : Prop :=
  Forall (fun e => utf8ByteLength e <= L)%Z (ss_yielded s).

Lemma yield_bounded L s data :
  yields_bounded L s → (held data <= L + 1)%Z →
  yields_bounded L (match data with [] => s | _ => yield (join [NL] data) s end).
Proof.
  intros Hy Hd. destruct data as [|d data]; [done|].
  apply Forall_app. split; [done|]. apply Forall_singleton.
  pose proof (join_held (d :: data) ltac:(done)). lia.
Qed.

(** The invariant of a run under the event limit [L]: everything yielded fits
    the limit, and what is held was counted and fits it too. *)
Record bounded (L : Z) (s : sse_state) : Prop := {
  bd_yielded : Forall (fun e => utf8ByteLength e <= L)%Z (ss_yielded s);
  bd_held : (held (ss_data s) + utf8ByteLength (ss_buffer s) <= ss_eventBytes s)%Z;
  bd_limit : (ss_eventBytes s <= L)%Z;
}.

(** After counting [n] more bytes there is room for [n] more. *)
Definition room (L n : Z) (s : sse_state) : Prop :=
  yields_bounded L s ∧
  (held (ss_data s) + utf8ByteLength (ss_buffer s) + n <= ss_eventBytes s <= L)%Z.

Lemma countEvent_bounded L n :
  triple (bounded L) (countEvent (Some L) n) (fun _ => room L n)
    (fun _ => yields_bounded L).
Proof.
  intros s [Hy Hh _]. unfold countEvent, mbind, stM_bind. simpl.
  case_bool_decide; simpl; [done|]. split; simpl; [done|lia].
Qed.

Lemma data_field_bytes line : (utf8ByteLength (data_field line) <= utf8ByteLength line)%Z.
Proof.
  unfold data_field. pose proof (utf8ByteLength_strip_first SPACE (drop 5 line)).
  pose proof (utf8ByteLength_drop 5 line). lia.
Qed.

Lemma process_line_bounded L n line s :
  (0 <= n)%Z → yields_bounded L s →
  (held (ss_data s) + utf8ByteLength line + 1 <= ss_eventBytes s <= L)%Z →
  bounded L (process_line line (set_buffer [] s)).
Proof.
  intros Hn Hy Hb. unfold process_line. destruct line as [|x line].
  - pose proof (held_nonneg (ss_data s)). simpl in Hb.
    change (ss_data (set_buffer [] s)) with (ss_data s).
    destruct (ss_data s) as [|d data] eqn:E.
    + split; simpl; rewrite ?E; unfold held; simpl; [done|lia|lia].
    + split; [|unfold held; simpl; lia..]. apply (yield_bounded L s (d :: data) Hy). lia.
  - pose proof (data_field_bytes (x :: line)). pose proof (utf8ByteLength_nonneg (x :: line)).
    destruct (starts_with _ _); (split; [done| |simpl ss_eventBytes; lia]);
      simpl ss_data; simpl ss_buffer; simpl ss_eventBytes.
    + rewrite held_app. unfold held at 2. simpl foldr. simpl (utf8ByteLength []). lia.
    + simpl (utf8ByteLength []). lia.
Qed.

Lemma fragment_step_bounded L fragment boundary :
  (boundary = true → last fragment = Some NL) →
  triple (bounded L) (fragment_step (Some L) fragment boundary) (fun _ => bounded L)
    (fun _ => yields_bounded L).
Proof.
  intros Hlast. unfold fragment_step. eapply triple_bind; [apply countEvent_bounded|].
  intros []. apply triple_modify. intros s [Hy Hb].
  pose proof (utf8ByteLength_app_le (ss_buffer s) fragment) as Happ.
  destruct boundary.
  - destruct (proj1 (last_Some _ _) (Hlast eq_refl)) as (f & ->).
    rewrite (assoc_L (++)), utf8ByteLength_snoc_NL in Happ.
    rewrite (assoc_L (++)), length_app, Nat.add_sub, take_app_length.
    pose proof (utf8ByteLength_strip_last CR (ss_buffer s ++ f)).
    apply (process_line_bounded L 0); [done|done|lia].
  - split; simpl; [done|lia|lia].
Qed.

Lemma fragment_loop_bounded L fuel rest :
  triple (bounded L) (fragment_loop fuel (Some L) rest) (fun _ => bounded L)
    (fun _ => yields_bounded L).
Proof.
  revert rest. induction fuel as [|fuel IH]; intros rest; simpl; [apply triple_ret|].
  destruct (index_of NL rest) as [i|] eqn:Hi; (eapply triple_bind;
    [apply fragment_step_bounded|intros []; case_decide; [apply triple_ret|apply IH]]).
  - intros _. rewrite (index_of_take_S _ _ _ Hi). by rewrite last_snoc.
  - done.
Qed.

Lemma process_chunk_bounded L M c :
  triple (bounded L) (process_chunk (Some L) M c) (fun _ => bounded L)
    (fun _ => yields_bounded L).
Proof.
  unfold process_chunk. eapply triple_bind; [by apply (triple_modify _ _ (bounded L)); intros s []|].
  intros []. eapply triple_bind; [apply triple_get|]. intros s1.
  eapply triple_bind; [apply triple_guard; by intros s [[] _]|]. intros [].
  eapply (triple_bind _ _ _ (fun _ => bounded L)).
  - intros s [[Hs _] _]. destruct c as [t|b]; [done|]. unfold decode_chunk, mbind, stM_bind. simpl.
    destruct (dec_push _ b) as [[t d]|]; simpl; by destruct Hs.
  - intros decoded. apply fragment_loop_bounded.
Qed.

Lemma finish_bounded L :
  triple (bounded L) (finish_stream (Some L)) (fun _ => yields_bounded L)
    (fun _ => yields_bounded L).
Proof.
  unfold finish_stream. eapply triple_bind; [apply triple_get|]. intros s0.
  destruct (dec_end _) as [tail|]; [|apply triple_throw; by intros s [[] _]].
  eapply triple_bind.
  { eapply triple_weaken; [| |apply countEvent_bounded]; [by intros s [? _]|done]. }
  intros []. apply triple_modify. intros s [Hy Hb].
  set (buffer := ss_buffer s ++ tail).
  pose proof (utf8ByteLength_app_le (ss_buffer s) tail) as Happ. fold buffer in Happ.
  pose proof (data_field_bytes (strip_last CR buffer)).
  pose proof (utf8ByteLength_strip_last CR buffer).
  assert (∀ data, (held data <= held (ss_data s) + utf8ByteLength buffer + 1)%Z →
    yields_bounded L (match data with [] => s | _ => yield (join [NL] data) s end)) as Hyield.
  { intros data Hd. apply yield_bounded; [done|lia]. }
  case_decide as Hc; simpl ss_data.
  - assert (held (ss_data s ++ [data_field (strip_last CR buffer)])
      <= held (ss_data s) + utf8ByteLength buffer + 1)%Z as Hd%Hyield.
    { rewrite held_app. unfold held at 2. simpl foldr. lia. }
    revert Hd. unfold yields_bounded. by destruct (ss_data s ++ _).
  - assert (held (ss_data s) <= held (ss_data s) + utf8ByteLength buffer + 1)%Z as Hd%Hyield.
    { pose proof (utf8ByteLength_nonneg buffer). lia. }
    revert Hd. unfold yields_bounded. by destruct (ss_data s).
Qed.

(** C5: under an event limit, in every run, stopped or not, each event the
    parser yields is at most that many bytes long. *)
Theorem parseServerSentEvents_bounded limits e r body :
  checkLimits (Some limits) = Ok (Some (e, r)) →
  Forall (fun event => utf8ByteLength event <= e)%Z
    (ss_yielded (parseServerSentEvents (Some limits) body sse_init).1).
Proof.
  intros Hl. unfold parseServerSentEvents. rewrite Hl.
  unfold mbind at 1, stM_bind at 1. simpl.
  assert (0 <= e)%Z as He.
  { unfold checkLimits in Hl.
    destruct (safe_integer (lim_eventBytes limits)), (safe_integer (lim_responseBytes limits));
      try done.
    case_decide; simplify_eq. lia. }
  set (m := mbind (M := stM sse_state sse_error) (fun _ => finish_stream (Some e))
    (iterM (process_chunk (Some e) (Some r)) body)).
  assert (triple (bounded e) m (fun _ => yields_bounded e) (fun _ => yields_bounded e)) as Ht.
  { eapply triple_bind; [apply triple_iter; intros c _; apply process_chunk_bounded|].
    intros []. apply finish_bounded. }
  specialize (Ht sse_init). destruct (m sse_init) as [s [u|err]]; apply Ht;
    (split; simpl; [constructor|lia|lia]).
Qed.

(** with a streaming decoder the parser's events do not depend on how
    the response bytes are cut into chunks. *)
Theorem parseServerSentEvents_chunking `{!TextDecoderLaws D} bs text d tail :
  dec_push dec_init (concat bs) = Some (text, d) → dec_end d = Some tail →
  ss_yielded (parseServerSentEvents None (ChunkBytes <$> bs) sse_init).1
    = ss_yielded (parseServerSentEvents None [ChunkBytes (concat bs)] sse_init).1.
Proof.
  intros Hp Ht.
  assert (∀ body, decode_all dec_init body = Some (text, d) →
    ss_yielded (parseServerSentEvents None body sse_init).1 = sse_events text tail) as Hany.
  { intros body Hb.
    destruct (process_chunks_spec body sse_init text d Hb) as (s1 & H1 & Hd1 & Hc1).
    destruct (finish_spec s1 tail) as (s2 & H2 & Hy2); [by rewrite Hd1|].
    unfold parseServerSentEvents. unfold mbind, stM_bind. simpl. rewrite H1, H2. simpl.
    rewrite Hy2. unfold sse_events. change (core sse_init) with
      {| sc_buffer := []; sc_data := []; sc_yielded := [] |} in Hc1. by rewrite <-Hc1. }
  rewrite (Hany (ChunkBytes <$> bs)) by (by rewrite decode_all_bytes).
  rewrite (Hany [ChunkBytes (concat bs)]); [done|].
  change [ChunkBytes (concat bs)] with (ChunkBytes <$> [concat bs]).
  rewrite decode_all_bytes. simpl. by rewrite app_nil_r.
Qed.
End properties.

(** * A decoder for ASCII responses *)

Definition ascii_push (d : unit) (b : list N) : option (jstr * unit) :=
  if decide (Forall (fun x => x < 128)%N b) then Some (b, d) else None.

#[export] Instance ascii_decoder : TextDecoder := {|
  dec_state := unit; dec_init := tt; dec_push := ascii_push; dec_end _ := Some [] |}.

#[export] Instance ascii_decoder_laws : TextDecoderLaws ascii_decoder.
Proof.
  split; simpl; unfold ascii_push.
  - intros []. by rewrite decide_True by constructor.
  - intros [] b1 b2. destruct (decide (Forall _ (b1 ++ b2))) as [H|H];
      rewrite Forall_app in H.
    + case_decide; simpl; [case_decide; [done|tauto]|tauto].
    + destruct (decide (Forall (fun x => x < 128)%N b1)); [|done]. simpl.
      destruct (decide (Forall (fun x => x < 128)%N b2)); [tauto|done].
Qed.

Definition sample_lines : list N :=
  js "data: a" ++ [CR; NL] ++ js "data:b" ++ [NL; NL] ++ js ": note" ++ [NL] ++ js "data: c".

Lemma parseServerSentEvents_refines_witness :
  ∃ s, parseServerSentEvents None [ChunkBytes (take 9 sample_lines); ChunkText (drop 9 sample_lines)]
         sse_init = (s, Ok tt) ∧
    ss_yielded s = [js "a" ++ [NL] ++ js "b"; js "c"].
Proof.
  eapply (parseServerSentEvents_refines (D := ascii_decoder) _ sample_lines tt []); vm_compute; reflexivity.
Defined.

Definition sample_limits : ProviderStreamLimits :=
  {| lim_eventBytes := num_of_Z 20; lim_responseBytes := num_of_Z 64 |}.

Lemma parseServerSentEvents_limits_witness :
  parseServerSentEvents None [ChunkBytes sample_lines] sse_init
    = ((parseServerSentEvents (Some sample_limits) [ChunkBytes sample_lines] sse_init).1, Ok tt).
Proof. apply (parseServerSentEvents_limits sample_limits). vm_compute. reflexivity. Defined.

Lemma parseServerSentEvents_bounded_witness :
  Forall (fun event => utf8ByteLength event <= 20)%Z
    (ss_yielded (parseServerSentEvents (Some sample_limits)
      [ChunkBytes sample_lines] sse_init).1).
Proof. apply (parseServerSentEvents_bounded sample_limits 20 64). vm_compute. reflexivity. Defined.

Lemma parseServerSentEvents_chunking_witness :
  ss_yielded (parseServerSentEvents None (ChunkBytes <$> [take 3 sample_lines; drop 3 sample_lines])
    sse_init).1
  = ss_yielded (parseServerSentEvents None [ChunkBytes sample_lines] sse_init).1.
Proof.
  apply (parseServerSentEvents_chunking (D := ascii_decoder) [take 3 sample_lines; drop 3 sample_lines]
    sample_lines tt []); vm_compute; reflexivity.
Defined.
