(* ===== verification/Protocol.v ===== *)
(** The records of [@wanex/protocol] that the delegation graph and the job
    scheduler exchange ([packages/protocol/src/scheduler.ts], [delegation.ts]).
    A string-literal union is an enumeration whose [enum_name] is the literal;
    an optional property is an [option]. *)
From S2P Require Import Prelude Json.

(** * String-literal unions *)

Class StringEnum (T : Type) := {
  enum_values : list T;
  enum_name : T → string;
  enum_complete x : x ∈ enum_values;
  enum_name_inj :: Inj (=) (=) enum_name;
}.

(** The member a string names, if it is one of the union's literals. *)
Definition parse_enum {T} `{StringEnum T} (s : string) : option T :=
  snd <$> list_find (fun x => enum_name x = s) enum_values.

Lemma parse_enum_Some {T} `{StringEnum T} s (x : T) :
  parse_enum s = Some x ↔ enum_name x = s.
Proof.
  unfold parse_enum. split.
  - intros ([i y] & (? & ? & _)%list_find_Some & ->)%fmap_Some. done.
  - intros <-. destruct (list_find_elem_of (fun y => enum_name y = enum_name x)
      enum_values x) as [[i y] Hy]; [apply enum_complete|done|].
    rewrite Hy. apply list_find_Some in Hy as (_ & Hn & _).
    simpl. f_equal. by apply (inj enum_name).
Qed.

Lemma parse_enum_name {T} `{StringEnum T} (x : T) : parse_enum (enum_name x) = Some x.
Proof. by apply parse_enum_Some. Qed.

(** Discharges the laws of an enumeration by listing its members. *)
Ltac solve_enum :=
  match goal with
  | |- ∀ x, x ∈ _ => intros []; set_solver
  | |- Inj _ _ _ => intros [] []; simpl; congruence
  end.

(** * The scheduler *)

Inductive SchedulerJobKind :=
| SessionTurn | WorkspaceTask | TeamDelivery | TeamDeliveryOutcome | PluginAction
| ChannelDelivery | GatewayDelivery | MemoryCompaction | ResourceCleanup
| BudgetGrantExpire | ProviderRetry | ConfigSync | MediaGenerate.

#[export] Instance SchedulerJobKind_eq_dec : EqDecision SchedulerJobKind.
Proof. solve_decision. Defined.

#[export, refine] Instance SchedulerJobKind_enum : StringEnum SchedulerJobKind := {|
  enum_values := [SessionTurn; WorkspaceTask; TeamDelivery; TeamDeliveryOutcome;
    PluginAction; ChannelDelivery; GatewayDelivery; MemoryCompaction; ResourceCleanup;
    BudgetGrantExpire; ProviderRetry; ConfigSync; MediaGenerate];
  enum_name k := match k with
    | SessionTurn => "session.turn"
    | WorkspaceTask => "workspace.task"
    | TeamDelivery => "team.delivery"
    | TeamDeliveryOutcome => "team.delivery.outcome"
    | PluginAction => "plugin.action"
    | ChannelDelivery => "channel.delivery"
    | GatewayDelivery => "gateway.delivery"
    | MemoryCompaction => "memory.compaction"
    | ResourceCleanup => "resource.cleanup"
    | BudgetGrantExpire => "budget.grant_expire"
    | ProviderRetry => "provider.retry"
    | ConfigSync => "config.sync"
    | MediaGenerate => "media.generate"
    end%string |}.
Proof. all: solve_enum. Defined.

Inductive SchedulerJobState :=
| JobPending | JobReady | JobRunning | JobWaiting | JobSucceeded | JobRetryScheduled
| JobFailed | JobCancelled.

#[export] Instance SchedulerJobState_eq_dec : EqDecision SchedulerJobState.
Proof. solve_decision. Defined.

#[export, refine] Instance SchedulerJobState_enum : StringEnum SchedulerJobState := {|
  enum_values := [JobPending; JobReady; JobRunning; JobWaiting; JobSucceeded;
    JobRetryScheduled; JobFailed; JobCancelled];
  enum_name s := match s with
    | JobPending => "pending"
    | JobReady => "ready"
    | JobRunning => "running"
    | JobWaiting => "waiting"
    | JobSucceeded => "succeeded"
    | JobRetryScheduled => "retry_scheduled"
    | JobFailed => "failed"
    | JobCancelled => "cancelled"
    end%string |}.
Proof. all: solve_enum. Defined.

Inductive RetryStrategy := RetryNone | RetryFixed | RetryExponential.

#[export] Instance RetryStrategy_eq_dec : EqDecision RetryStrategy.
Proof. solve_decision. Defined.

#[export, refine] Instance RetryStrategy_enum : StringEnum RetryStrategy := {|
  enum_values := [RetryNone; RetryFixed; RetryExponential];
  enum_name s := match s with
    | RetryNone => "none" | RetryFixed => "fixed" | RetryExponential => "exponential"
    end%string |}.
Proof. all: solve_enum. Defined.

Record RetryPolicy := {
  rp_strategy : RetryStrategy;
  rp_initialDelayMs : option jsnum;
  rp_maxDelayMs : option jsnum;
}.

Record EnqueueJobRequest := {
  ej_id : option string;
  ej_kind : SchedulerJobKind;
  ej_queue : option string;
  ej_principalId : string;
  ej_payload : json;
  ej_scheduledAt : option jsnum;
  ej_notBefore : option jsnum;
  ej_priority : option jsnum;
  ej_concurrencyKey : option string;
  ej_maxAttempts : option jsnum;
  ej_retryPolicy : option RetryPolicy;
  ej_idempotencyKey : option string;
  ej_budgetGrantId : option string;
}.

Record ClaimJobRequest := {
  cj_workerId : string;
  cj_leaseMs : jsnum;
  cj_kinds : option (list SchedulerJobKind);
  cj_queues : option (list string);
}.

Record HeartbeatJobRequest := {
  hj_jobId : string;
  hj_workerId : string;
  hj_leaseToken : string;
  hj_leaseMs : jsnum;
}.

Record CompleteJobRequest := {
  co_jobId : string;
  co_workerId : string;
  co_leaseToken : string;
  co_result : option json;
}.

Record FailJobRequest := {
  fj_jobId : string;
  fj_workerId : string;
  fj_leaseToken : string;
  fj_error : json;
}.

Record CancelJobRequest := { ca_jobId : string; ca_reason : string }.

Record GetJobRequest := { gj_jobId : string }.

Record ListJobsRequest := {
  lj_state : option SchedulerJobState;
  lj_kind : option SchedulerJobKind;
  lj_limit : option jsnum;
}.

Record SchedulerJobRecord := {
  job_id : string;
  job_kind : SchedulerJobKind;
  job_queue : string;
  job_state : SchedulerJobState;
  job_principalId : string;
  job_payload : json;
  job_scheduledAt : jsnum;
  job_notBefore : option jsnum;
  job_priority : jsnum;
  job_concurrencyKey : option string;
  job_attempt : jsnum;
  job_maxAttempts : jsnum;
  job_retryPolicy : RetryPolicy;
  job_idempotencyKey : option string;
  job_budgetGrantId : option string;
  job_leaseOwner : option string;
  job_leaseToken : option string;
  job_leaseExpiresAt : option jsnum;
  job_result : option json;
  job_lastError : option json;
  job_createdAt : jsnum;
  job_updatedAt : jsnum;
  job_finishedAt : option jsnum;
}.

(** * The delegation graph *)

Inductive DelegationGraphState :=
| GraphOpen | GraphRunning | GraphSucceeded | GraphFailed | GraphCancelled.

#[export] Instance DelegationGraphState_eq_dec : EqDecision DelegationGraphState.
Proof. solve_decision. Defined.

#[export, refine] Instance DelegationGraphState_enum :
    StringEnum DelegationGraphState := {|
  enum_values := [GraphOpen; GraphRunning; GraphSucceeded; GraphFailed; GraphCancelled];
  enum_name s := match s with
    | GraphOpen => "open"
    | GraphRunning => "running"
    | GraphSucceeded => "succeeded"
    | GraphFailed => "failed"
    | GraphCancelled => "cancelled"
    end%string |}.
Proof. all: solve_enum. Defined.

Inductive DelegationNodeKind := AgentTask | NodeWorkspaceTask | ToolTask | Aggregation.

#[export] Instance DelegationNodeKind_eq_dec : EqDecision DelegationNodeKind.
Proof. solve_decision. Defined.

#[export, refine] Instance DelegationNodeKind_enum : StringEnum DelegationNodeKind := {|
  enum_values := [AgentTask; NodeWorkspaceTask; ToolTask; Aggregation];
  enum_name k := match k with
    | AgentTask => "agent_task"
    | NodeWorkspaceTask => "workspace_task"
    | ToolTask => "tool_task"
    | Aggregation => "aggregation"
    end%string |}.
Proof. all: solve_enum. Defined.

Inductive DelegationNodeState :=
| NodePending | NodeReady | NodeRunning | NodeSucceeded | NodeFailed | NodeCancelled
| NodeSkipped.

#[export] Instance DelegationNodeState_eq_dec : EqDecision DelegationNodeState.
Proof. solve_decision. Defined.

#[export, refine] Instance DelegationNodeState_enum : StringEnum DelegationNodeState := {|
  enum_values := [NodePending; NodeReady; NodeRunning; NodeSucceeded; NodeFailed;
    NodeCancelled; NodeSkipped];
  enum_name s := match s with
    | NodePending => "pending"
    | NodeReady => "ready"
    | NodeRunning => "running"
    | NodeSucceeded => "succeeded"
    | NodeFailed => "failed"
    | NodeCancelled => "cancelled"
    | NodeSkipped => "skipped"
    end%string |}.
Proof. all: solve_enum. Defined.

Inductive DelegationDependencyKind := AfterSuccess | AfterTerminal.

#[export] Instance DelegationDependencyKind_eq_dec : EqDecision DelegationDependencyKind.
Proof. solve_decision. Defined.

#[export, refine] Instance DelegationDependencyKind_enum :
    StringEnum DelegationDependencyKind := {|
  enum_values := [AfterSuccess; AfterTerminal];
  enum_name k := match k with
    | AfterSuccess => "after_success" | AfterTerminal => "after_terminal"
    end%string |}.
Proof. all: solve_enum. Defined.

Record DelegationGraphRecord := {
  gr_id : string;
  gr_principalId : string;
  gr_title : option string;
  gr_state : DelegationGraphState;
  gr_metadata : option json;
  gr_createdAt : jsnum;
  gr_updatedAt : jsnum;
  gr_closedAt : option jsnum;
}.

Record DelegationGraphNodeRecord := {
  nd_id : string;
  nd_graphId : string;
  nd_kind : DelegationNodeKind;
  nd_principalId : string;
  nd_state : DelegationNodeState;
  nd_payload : json;
  nd_schedulerJobId : option string;
  nd_metadata : option json;
  nd_createdAt : jsnum;
  nd_updatedAt : jsnum;
  nd_startedAt : option jsnum;
  nd_finishedAt : option jsnum;
}.

Record DelegationGraphDependencyRecord := {
  dep_id : string;
  dep_graphId : string;
  dep_fromNodeId : string;
  dep_toNodeId : string;
  dep_kind : DelegationDependencyKind;
  dep_createdAt : jsnum;
}.

Record PutDelegationGraphRequest := {
  pg_id : option string;
  pg_principalId : string;
  pg_title : option string;
  pg_metadata : option json;
  pg_idempotencyKey : option string;
}.

Record GetDelegationGraphRequest := { gg_graphId : string }.

Record ListDelegationGraphsRequest := {
  lg_principalId : option string;
  lg_state : option DelegationGraphState;
  lg_limit : option jsnum;
}.

Record PutDelegationGraphNodeRequest := {
  pn_id : option string;
  pn_graphId : string;
  pn_kind : DelegationNodeKind;
  pn_principalId : string;
  pn_payload : json;
  pn_metadata : option json;
  pn_idempotencyKey : option string;
}.

Record GetDelegationGraphNodeRequest := { gn_nodeId : string }.

Record ListDelegationGraphNodesRequest := {
  ln_graphId : string;
  ln_state : option DelegationNodeState;
}.

Record PutDelegationGraphDependencyRequest := {
  pd_id : option string;
  pd_graphId : string;
  pd_fromNodeId : string;
  pd_toNodeId : string;
  pd_kind : option DelegationDependencyKind;
}.

Record ListDelegationGraphDependenciesRequest := { ld_graphId : string }.

Record UpdateDelegationGraphStateRequest := {
  ug_graphId : string;
  ug_state : DelegationGraphState;
}.

Record UpdateDelegationGraphNodeStateRequest := {
  un_nodeId : string;
  un_state : DelegationNodeState;
  un_schedulerJobId : option string;
  un_metadata : option json;
}.

Record AttachDelegationGraphNodeJobRequest := {
  an_nodeId : string;
  an_schedulerJobId : string;
}.

Record ListReadyDelegationGraphNodesRequest := {
  lr_graphId : string;
  lr_limit : option jsnum;
}.

Record MaterializeReadyDelegationGraphNodeRequest := {
  mr_graphId : string;
  mr_nodeId : option string;
  mr_workerId : string;
  mr_jobId : option string;
  mr_jobKind : SchedulerJobKind;
  mr_jobPayload : option json;
  mr_scheduledAt : option jsnum;
  mr_notBefore : option jsnum;
  mr_priority : option jsnum;
  mr_maxAttempts : option jsnum;
  mr_retryPolicy : option RetryPolicy;
  mr_jobIdempotencyKey : option string;
  mr_budgetGrantId : option string;
}.

Record MaterializedDelegationGraphNode := {
  mt_node : DelegationGraphNodeRecord;
  mt_job : SchedulerJobRecord;
}.
