(* ===== verification/ExecutionBinding.v ===== *)
(** The policies of execution environments and the bindings that record what was admitted
    ([packages/runtime/src/execution/policy.ts], [environment-binding.ts],
    [application-scope.ts]), and the storage client's decoder of bindings
    ([packages/storage/src/codec-execution-environment.ts]). *)
From Stdlib Require Import Floats.SpecFloat.
From S2P Require Import Prelude JsMap Json JsStr JsonText StableJson Protocol.

(** * Data ([packages/protocol/src/execution-environment.ts])

    A field whose type has one value ([revision], and [oneShot] of a capability) is not kept. *)

Inductive ExecutionFileEffect := EffectRead | EffectWrite | EffectCreate | EffectRemove.

#[export] Instance effect_eq_dec : EqDecision ExecutionFileEffect.
Proof. solve_decision. Defined.

#[export, refine] Instance effect_enum : StringEnum ExecutionFileEffect := {|
  enum_values := [EffectCreate; EffectRead; EffectRemove; EffectWrite];
  enum_name k := match k with
    | EffectRead => "read" | EffectWrite => "write" | EffectCreate => "create"
    | EffectRemove => "remove"
    end%string |}.
Proof. all: solve_enum. Defined.

Inductive cleanup_kind := RuntimeProcessTree | DurableSupervisor.

#[export] Instance cleanup_eq_dec : EqDecision cleanup_kind.
Proof. solve_decision. Defined.

#[export, refine] Instance cleanup_enum : StringEnum cleanup_kind := {|
  enum_values := [RuntimeProcessTree; DurableSupervisor];
  enum_name k := match k with
    | RuntimeProcessTree => "runtime_process_tree" | DurableSupervisor => "durable_supervisor"
    end%string |}.
Proof. all: solve_enum. Defined.

Inductive network_kind := Unrestricted | Denied.

#[export] Instance network_eq_dec : EqDecision network_kind.
Proof. solve_decision. Defined.

#[export, refine] Instance network_enum : StringEnum network_kind := {|
  enum_values := [Unrestricted; Denied];
  enum_name k := match k with Unrestricted => "unrestricted" | Denied => "denied" end%string |}.
Proof. all: solve_enum. Defined.

(** What is enforced by the operating system, or not at all. *)
Inductive enforcement := EnforcedNone | EnforcedOs.

#[export] Instance enforcement_eq_dec : EqDecision enforcement.
Proof. solve_decision. Defined.

#[export, refine] Instance enforcement_enum : StringEnum enforcement := {|
  enum_values := [EnforcedNone; EnforcedOs];
  enum_name k := match k with EnforcedNone => "none" | EnforcedOs => "os" end%string |}.
Proof. all: solve_enum. Defined.

Inductive filesystem_enforcement := LibraryGuard | FilesystemOs.

#[export] Instance filesystem_enforcement_eq_dec : EqDecision filesystem_enforcement.
Proof. solve_decision. Defined.

#[export, refine] Instance filesystem_enforcement_enum : StringEnum filesystem_enforcement := {|
  enum_values := [LibraryGuard; FilesystemOs];
  enum_name k := match k with LibraryGuard => "library_guard" | FilesystemOs => "os" end%string |}.
Proof. all: solve_enum. Defined.

Record ExecutionRoot := { er_id : jstr; er_effects : list ExecutionFileEffect }.

Record ExecutionFileSystemPolicy := {
  fs_roots : list ExecutionRoot;
  fs_maxReadBytes : jsnum;
  fs_maxDirectoryEntries : jsnum;
}.

Record ExecutionProcessPolicy := {
  pp_oneShot : bool;
  pp_managed : bool;
  pp_cleanup : cleanup_kind;
  pp_environmentVariables : list jstr;
}.

Record ExecutionPolicySnapshot := {
  ep_filesystem : ExecutionFileSystemPolicy;
  ep_process : ExecutionProcessPolicy;
  ep_network : network_kind;
  ep_isolation : enforcement;
  ep_pty : bool;
}.

Record ExecutionCapabilitySnapshot := {
  ec_isolation : enforcement;
  ec_filesystem : filesystem_enforcement;
  ec_effects : list ExecutionFileEffect;
  ec_managed : bool;
  ec_cleanup : cleanup_kind;
  ec_pty : bool;
  ec_network : enforcement;
  ec_secretProjection : bool;
  ec_artifactExport : bool;
}.

Record ExecutionEnvironmentDescriptor := {
  ed_environmentId : jstr;
  ed_providerId : jstr;
  ed_providerRevision : jstr;
  ed_kind : jstr;
}.

Record ExecutionEnvironmentBinding := {
  eb_environmentId : jstr;
  eb_providerId : jstr;
  eb_providerRevision : jstr;
  eb_capabilities : ExecutionCapabilitySnapshot;
  eb_capabilityDigest : jstr;
  eb_policy : ExecutionPolicySnapshot;
  eb_policyDigest : jstr;
}.

(** ** Their JSON documents *)

Definition name_of {T} `{StringEnum T} (x : T) : jstr := js (enum_name x).
Definition json_name {T} `{StringEnum T} (x : T) : app_json := AppStr (name_of x).
Definition one : app_json := AppNum (num_of_Z 1).

Definition root_json (root : ExecutionRoot) : app_json :=
  AppObj [(js "id", AppStr (er_id root)); (js "effects", AppArr (json_name <$> er_effects root))].

Definition roots_json (roots : list ExecutionRoot) : app_json := AppArr (root_json <$> roots).

(** [roots]: the document of the roots. *)
Definition policy_json (roots : app_json) (policy : ExecutionPolicySnapshot) : app_json :=
  AppObj [
    (js "revision", one);
    (js "filesystem", AppObj [
      (js "roots", roots);
      (js "maxReadBytes", AppNum (fs_maxReadBytes (ep_filesystem policy)));
      (js "maxDirectoryEntries", AppNum (fs_maxDirectoryEntries (ep_filesystem policy)))]);
    (js "process", AppObj [
      (js "oneShot", AppBool (pp_oneShot (ep_process policy)));
      (js "managed", AppBool (pp_managed (ep_process policy)));
      (js "cleanup", json_name (pp_cleanup (ep_process policy)));
      (js "environmentVariables", AppArr (AppStr <$> pp_environmentVariables (ep_process policy)))]);
    (js "network", json_name (ep_network policy));
    (js "isolation", json_name (ep_isolation policy));
    (js "pty", AppBool (ep_pty policy))].

Definition flag_json (supported : bool) : app_json := AppObj [(js "supported", AppBool supported)].

Definition capabilities_json (capabilities : ExecutionCapabilitySnapshot) : app_json :=
  AppObj [
    (js "revision", one);
    (js "isolation", AppObj [(js "enforcement", json_name (ec_isolation capabilities))]);
    (js "filesystem", AppObj [
      (js "enforcement", json_name (ec_filesystem capabilities));
      (js "effects", AppArr (json_name <$> ec_effects capabilities))]);
    (js "process", AppObj [
      (js "oneShot", AppBool true);
      (js "managed", AppBool (ec_managed capabilities));
      (js "cleanup", json_name (ec_cleanup capabilities))]);
    (js "pty", flag_json (ec_pty capabilities));
    (js "network", AppObj [(js "enforcement", json_name (ec_network capabilities))]);
    (js "secretProjection", flag_json (ec_secretProjection capabilities));
    (js "artifactExport", flag_json (ec_artifactExport capabilities))].

Definition binding_json (roots : app_json) (binding : ExecutionEnvironmentBinding) : app_json :=
  AppObj [
    (js "revision", one);
    (js "environmentId", AppStr (eb_environmentId binding));
    (js "providerId", AppStr (eb_providerId binding));
    (js "providerRevision", AppStr (eb_providerRevision binding));
    (js "capabilities", capabilities_json (eb_capabilities binding));
    (js "policy", policy_json roots (eb_policy binding));
    (js "capabilityDigest", AppStr (eb_capabilityDigest binding));
    (js "policyDigest", AppStr (eb_policyDigest binding))].

(** The roots that a binding has. *)
Definition own_roots (binding : ExecutionEnvironmentBinding) : app_json :=
  roots_json (fs_roots (ep_filesystem (eb_policy binding))).

(** * Errors *)

Inductive binding_error :=
| BindingError (message : jstr)
| UnsupportedExecutionCapabilityError (capability : jstr)
| NotIterable.

Abbreviation R := (result binding_error).

Definition reject {A} (message : jstr) : R A := Throw (BindingError message).
Definition reject_if (condition : bool) (message : jstr) : R unit :=
  guard_throw condition (BindingError message).

(** * Texts that are checked *)

(** [/^[A-Za-z0-9_.:-]{1,256}$/] *)
Definition is_opaque (s : jstr) : bool :=
  bool_decide (1 ≤ length s ∧ length s ≤ 256) &&
  forallb (fun c => is_alnum c || bool_decide (c ∈ js "_.:-")) s.

(** [/^[A-Za-z_][A-Za-z0-9_]*$/] *)
Definition is_variable_name (s : jstr) : bool :=
  match s with
  | [] => false
  | c :: s => (is_alpha c || bool_decide (c = 95%N)) &&
      forallb (fun c => is_alnum c || bool_decide (c = 95%N)) s
  end.

(** [/^[a-f0-9]{64}$/] *)
Definition is_sha256 (s : jstr) : bool :=
  bool_decide (length s = 64) && forallb (fun c => is_digit c || in_range 97 102 c) s.

(** Not empty, and of at most 256 units. *)
Definition is_bounded (s : jstr) : bool := bool_decide (1 ≤ length s ∧ length s ≤ 256).

Definition is_positive_safe (x : jsnum) : bool :=
  match safe_integer x with Some z => bool_decide (0 < z)%Z | None => false end.

(** * Policies ([policy.ts]) *)

Section policy.
Context (localeCompare : jstr → jstr → Z).

Definition supported_if (condition : bool) (capability : jstr) : R unit :=
  guard_throw (negb condition) (UnsupportedExecutionCapabilityError capability).

Definition assertExecutionPolicySupported (policy : ExecutionPolicySnapshot)
    (capabilities : ExecutionCapabilitySnapshot) : R unit :=
  let process := ep_process policy in
  _ ← supported_if (negb (bool_decide (ep_isolation policy = EnforcedOs) &&
        bool_decide (ec_isolation capabilities ≠ EnforcedOs))) (js "isolation.os");
  _ ← supported_if (negb (bool_decide (ep_network policy = Denied) &&
        bool_decide (ec_network capabilities ≠ EnforcedOs))) (js "network.denied");
  _ ← supported_if (negb (ep_pty policy && negb (ec_pty capabilities))) (js "pty");
  _ ← supported_if (negb (pp_managed process && negb (ec_managed capabilities)))
        (js "process.managed");
  _ ← supported_if (negb ((pp_oneShot process || pp_managed process) &&
        bool_decide (pp_cleanup process = DurableSupervisor) &&
        bool_decide (ec_cleanup capabilities ≠ DurableSupervisor)))
        (js "process.durable_supervisor");
  foldM (fun _ root =>
    foldM (fun _ effect =>
      supported_if (bool_decide (effect ∈ ec_effects capabilities))
        (js "filesystem." ++ name_of effect)) tt (er_effects root))
    tt (fs_roots (ep_filesystem policy)).

(** Effects without repetition, sorted by their names. *)
Definition sort_effects (effects : list ExecutionFileEffect) : list ExecutionFileEffect :=
  js_sort (fun l r => js_order (name_of l) (name_of r)) (js_set effects).

Definition normalize_root (root : ExecutionRoot) : R ExecutionRoot :=
  _ ← reject_if (negb (is_opaque (er_id root))) (js "execution filesystem root id is invalid");
  let effects := sort_effects (er_effects root) in
  _ ← reject_if (bool_decide (effects = []))
        (js "execution filesystem root effects must not be empty");
  Ok {| er_id := er_id root; er_effects := effects |}.

Definition policy_integer (value : jsnum) (label : jstr) : R unit :=
  reject_if (negb (is_positive_safe value))
    (js "execution " ++ label ++ js " must be a positive integer").

(** The guards against values that the type does not have cannot fail here. *)
Definition normalizeExecutionPolicy (input : ExecutionPolicySnapshot) : R ExecutionPolicySnapshot :=
  let filesystem := ep_filesystem input in
  let process := ep_process input in
  _ ← policy_integer (fs_maxReadBytes filesystem) (js "filesystem.maxReadBytes");
  _ ← policy_integer (fs_maxDirectoryEntries filesystem) (js "filesystem.maxDirectoryEntries");
  roots ← mapM normalize_root (fs_roots filesystem);
  let roots := js_sort (fun l r => localeCompare (er_id l) (er_id r)) roots in
  _ ← reject_if (bool_decide (length (js_set (er_id <$> roots)) ≠ length roots))
        (js "execution filesystem root id is duplicated");
  names ← mapM (fun name =>
    _ ← reject_if (negb (is_variable_name name))
          (js "execution process environment variable is invalid: " ++ name);
    Ok name) (pp_environmentVariables process);
  Ok {|
    ep_filesystem := {|
      fs_roots := roots;
      fs_maxReadBytes := fs_maxReadBytes filesystem;
      fs_maxDirectoryEntries := fs_maxDirectoryEntries filesystem |};
    ep_process := {|
      pp_oneShot := pp_oneShot process;
      pp_managed := pp_managed process;
      pp_cleanup := pp_cleanup process;
      pp_environmentVariables := sort_strings (js_set names) |};
    ep_network := ep_network input;
    ep_isolation := ep_isolation input;
    ep_pty := ep_pty input |}.
End policy.

(** * The fields of untrusted documents *)

(** [String] of a value *)
Section to_text.
Context (number_text : jsnum → jstr).

Fixpoint to_text (value : app_json) : jstr :=
  match value with
  | AppNull => js "null"
  | AppBool b => if b then js "true" else js "false"
  | AppNum x => number_text x
  | AppStr s => s
  | AppArr values => join (js ",")
      ((fun v => match v with AppNull => [] | _ => to_text v end) <$> values)
  | AppObj _ => js "[object Object]"
  end.
End to_text.

(** A property of an object; [None]: it is undefined. *)
Definition prop (key : string) (fields : list (jstr * app_json)) : option app_json :=
  jget (js key) fields.

(** [Object.keys(value).length !== keys.length], or a key is missing. *)
Definition exactKeys (fields : list (jstr * app_json)) (keys : list string) (label : jstr) : R unit :=
  reject_if (bool_decide (length fields ≠ length keys) ||
      negb (forallb (fun key => bool_decide (js key ∈ fields.*1)) keys))
    (label ++ js " contains missing or unknown fields").

Definition record (value : option app_json) (label : jstr) : R (list (jstr * app_json)) :=
  match value with
  | Some (AppObj fields) => Ok fields
  | _ => reject (label ++ js " must be an object")
  end.

Definition opaqueId (value : option app_json) (label : jstr) : R unit :=
  match value with
  | Some (AppStr s) => reject_if (negb (is_opaque s)) (label ++ js " must be an opaque identifier")
  | _ => reject (label ++ js " must be an opaque identifier")
  end.

Definition boundedString (value : app_json) (label : jstr) : R jstr :=
  match value with
  | AppStr s =>
      _ ← reject_if (negb (is_bounded s))
            (label ++ js " must be a non-empty string of at most 256 characters");
      Ok s
  | _ => reject (label ++ js " must be a non-empty string of at most 256 characters")
  end.

Definition positiveInteger (value : option app_json) (label : jstr) : R unit :=
  match value with
  | Some (AppNum x) =>
      reject_if (negb (is_positive_safe x)) (label ++ js " must be a positive safe integer")
  | _ => reject (label ++ js " must be a positive safe integer")
  end.

Definition boolean (value : option app_json) (label : jstr) : R unit :=
  match value with
  | Some (AppBool _) => Ok tt
  | _ => reject (label ++ js " must be a boolean")
  end.

Definition sha256_text (value : option app_json) (label : jstr) : R unit :=
  match value with
  | Some (AppStr s) => reject_if (negb (is_sha256 s)) (label ++ js " is invalid")
  | _ => reject (label ++ js " is invalid")
  end.

(** The member of an enumeration that a value names. *)
Definition member {T} `{StringEnum T} (value : option app_json) : option T :=
  match value with
  | Some (AppStr s) => snd <$> list_find (fun x => name_of x = s) enum_values
  | _ => None
  end.

Definition allowed (T : Type) `{StringEnum T} (value : option app_json) (label : jstr) : R T :=
  match member value with Some x => Ok x | None => reject (label ++ js " is invalid") end.

(** [value !== 1] *)
Definition is_one (value : option app_json) : bool :=
  match value with Some (AppNum x) => num_is x (num_of_Z 1) | _ => false end.

(** [previous >= next] of strings, where there is a previous one. *)
Definition not_after (previous : option jstr) (next : jstr) : bool :=
  match previous with Some previous => bool_decide (0 ≤ js_order previous next)%Z | None => false end.

Section binding.
Context (number_text : jsnum → jstr) (localeCompare : jstr → jstr → Z) (sha256 : jstr → jstr).

Abbreviation digest := (digestJson number_text localeCompare sha256).
Abbreviation storage_digest := (storage_digestJson number_text sha256).

(** * Application scopes ([application-scope.ts]) *)

Definition requireScopeString (value : option app_json) (label : jstr) : R jstr :=
  match value with
  | Some value => boundedString value label
  | None => reject (label ++ js " must be a non-empty string of at most 256 characters")
  end.

Definition scope_json (kind id : jstr) (metadata : app_json) : list (jstr * app_json) :=
  [(js "kind", AppStr kind); (js "id", AppStr id); (js "metadata", metadata)].

Definition createApplicationScopeBinding (kind id : jstr) (metadata : app_json) : R app_json :=
  _ ← requireScopeString (Some (AppStr kind)) (js "application scope kind");
  _ ← requireScopeString (Some (AppStr id)) (js "application scope id");
  let unsigned := scope_json kind id metadata in
  Ok (AppObj (unsigned ++ [(js "digest", AppStr (digest (AppObj unsigned)))])).

(** [{ digest: _digest, ...unsigned }] *)
Definition without_digest (fields : list (jstr * app_json)) : list (jstr * app_json) :=
  jdelete (js "digest") fields.

Definition assertApplicationScopeBindingValid (binding : app_json) : R unit :=
  match binding with
  | AppObj fields =>
      _ ← reject_if (bool_decide (length fields ≠ 4) ||
            negb (forallb (fun key => bool_decide (js key ∈ fields.*1))
              ["kind"; "id"; "digest"; "metadata"]%string))
            (js "application scope binding is invalid");
      _ ← requireScopeString (prop "kind" fields) (js "application scope kind");
      _ ← requireScopeString (prop "id" fields) (js "application scope id");
      _ ← reject_if (match prop "digest" fields with
            | Some value => negb (is_sha256 (to_text number_text value))
            | None => true
            end) (js "application scope digest is invalid");
      reject_if (bool_decide
          (Some (AppStr (digest (AppObj (without_digest fields)))) ≠ prop "digest" fields))
        (js "application scope digest does not match its content")
  | _ => reject (js "application scope binding is invalid")
  end.

(** * Bindings ([environment-binding.ts]) *)

Definition createExecutionEnvironmentBinding (descriptor : ExecutionEnvironmentDescriptor)
    (capabilities : ExecutionCapabilitySnapshot) (input : ExecutionPolicySnapshot)
    : R ExecutionEnvironmentBinding :=
  policy ← normalizeExecutionPolicy localeCompare input;
  _ ← assertExecutionPolicySupported policy capabilities;
  Ok {|
    eb_environmentId := ed_environmentId descriptor;
    eb_providerId := ed_providerId descriptor;
    eb_providerRevision := ed_providerRevision descriptor;
    eb_capabilities := capabilities;
    eb_capabilityDigest := digest (capabilities_json capabilities);
    eb_policy := policy;
    eb_policyDigest := digest (policy_json (roots_json (fs_roots (ep_filesystem policy))) policy) |}.

(** The loop over effects. *)
Fixpoint check_effects (previous : option jstr) (values : list app_json) (label : jstr) : R unit :=
  match values with
  | [] => Ok tt
  | value :: values =>
      effect ← allowed ExecutionFileEffect (Some value) label;
      _ ← reject_if (not_after previous (name_of effect)) (label ++ js " are not canonical");
      check_effects (Some (name_of effect)) values label
  end.

Definition effects (value : option app_json) (label : jstr) : R unit :=
  match value with
  | Some (AppArr values) =>
      _ ← reject_if (bool_decide (values = [])) (label ++ js " must contain unique effects");
      check_effects None values label
  | _ => reject (label ++ js " must contain unique effects")
  end.

Fixpoint check_strings (previous : option jstr) (values : list app_json) (label : jstr) : R unit :=
  match values with
  | [] => Ok tt
  | value :: values =>
      s ← boundedString value label;
      _ ← reject_if (not_after previous s) (label ++ js " are not canonical");
      check_strings (Some s) values label
  end.

Definition canonicalStrings (value : option app_json) (label : jstr) : R unit :=
  match value with
  | Some (AppArr values) => check_strings None values label
  | _ => reject (label ++ js " must be an array")
  end.

Definition supportedFlag (value : option app_json) (label : jstr) : R unit :=
  flag ← record value label;
  _ ← exactKeys flag ["supported"]%string label;
  boolean (prop "supported" flag) (label ++ js " supported flag").

(** Reads [value.enforcement]. *)
Definition check_enforcement (T : Type) `{StringEnum T} (value : option app_json)
    (label allowed_label : jstr) : R unit :=
  fields ← record value label;
  _ ← exactKeys fields ["enforcement"]%string label;
  _ ← allowed T (prop "enforcement" fields) allowed_label;
  Ok tt.

Definition check_capabilities (value : option app_json) : R unit :=
  fields ← record value (js "execution environment capabilities");
  _ ← exactKeys fields ["revision"; "isolation"; "filesystem"; "process"; "pty"; "network";
        "secretProjection"; "artifactExport"]%string (js "execution environment capabilities");
  _ ← reject_if (negb (is_one (prop "revision" fields)))
        (js "execution environment capability revision is invalid");
  _ ← check_enforcement enforcement (prop "isolation" fields)
        (js "execution environment isolation capability")
        (js "execution environment isolation enforcement");
  filesystem ← record (prop "filesystem" fields) (js "execution environment filesystem capability");
  _ ← exactKeys filesystem ["enforcement"; "effects"]%string
        (js "execution environment filesystem capability");
  _ ← allowed filesystem_enforcement (prop "enforcement" filesystem)
        (js "execution environment filesystem enforcement");
  _ ← effects (prop "effects" filesystem) (js "execution environment filesystem effects");
  process ← record (prop "process" fields) (js "execution environment process capability");
  _ ← exactKeys process ["oneShot"; "managed"; "cleanup"]%string
        (js "execution environment process capability");
  _ ← reject_if (negb (bool_decide (prop "oneShot" process = Some (AppBool true))))
        (js "execution environment one-shot capability must be true");
  _ ← boolean (prop "managed" process) (js "execution environment managed capability");
  _ ← allowed cleanup_kind (prop "cleanup" process) (js "execution environment cleanup capability");
  _ ← supportedFlag (prop "pty" fields) (js "execution environment PTY capability");
  _ ← check_enforcement enforcement (prop "network" fields)
        (js "execution environment network capability")
        (js "execution environment network enforcement");
  _ ← supportedFlag (prop "secretProjection" fields)
        (js "execution environment Secret projection capability");
  supportedFlag (prop "artifactExport" fields)
    (js "execution environment artifact export capability").

(** The loop over the roots. *)
Fixpoint check_roots (previous : option jstr) (roots : list app_json) : R unit :=
  match roots with
  | [] => Ok tt
  | root :: roots =>
      fields ← record (Some root) (js "execution environment filesystem root");
      _ ← exactKeys fields ["id"; "effects"]%string (js "execution environment filesystem root");
      _ ← opaqueId (prop "id" fields) (js "execution environment filesystem root id");
      let id := match prop "id" fields with Some (AppStr s) => s | _ => [] end in
      _ ← reject_if (not_after previous id)
            (js "execution environment filesystem roots are not canonical");
      _ ← effects (prop "effects" fields) (js "execution environment filesystem root effects");
      check_roots (Some id) roots
  end.

(** [for (const root of value)]: a string is iterated by its characters, none of which is an
    object. *)
Definition iterate_roots (value : option app_json) : R unit :=
  match value with
  | Some (AppArr roots) => check_roots None roots
  | Some (AppStr []) => Ok tt
  | Some (AppStr (_ :: _)) => reject (js "execution environment filesystem root must be an object")
  | _ => Throw NotIterable
  end.

Definition check_policy (value : option app_json) : R unit :=
  fields ← record value (js "execution environment policy");
  _ ← exactKeys fields ["revision"; "filesystem"; "process"; "network"; "isolation"; "pty"]%string
        (js "execution environment policy");
  _ ← reject_if (negb (is_one (prop "revision" fields)))
        (js "execution environment policy revision is invalid");
  filesystem ← record (prop "filesystem" fields) (js "execution environment filesystem policy");
  _ ← exactKeys filesystem ["roots"; "maxReadBytes"; "maxDirectoryEntries"]%string
        (js "execution environment filesystem policy");
  _ ← iterate_roots (prop "roots" filesystem);
  _ ← positiveInteger (prop "maxReadBytes" filesystem) (js "execution environment max read bytes");
  _ ← positiveInteger (prop "maxDirectoryEntries" filesystem)
        (js "execution environment max directory entries");
  process ← record (prop "process" fields) (js "execution environment process policy");
  _ ← exactKeys process ["oneShot"; "managed"; "cleanup"; "environmentVariables"]%string
        (js "execution environment process policy");
  _ ← boolean (prop "oneShot" process) (js "execution environment one-shot policy");
  _ ← boolean (prop "managed" process) (js "execution environment managed policy");
  _ ← allowed cleanup_kind (prop "cleanup" process) (js "execution environment cleanup policy");
  _ ← canonicalStrings (prop "environmentVariables" process)
        (js "execution environment process environment variables");
  _ ← allowed network_kind (prop "network" fields) (js "execution environment network policy");
  _ ← allowed enforcement (prop "isolation" fields) (js "execution environment isolation policy");
  boolean (prop "pty" fields) (js "execution environment PTY policy").

Definition binding_keys : list string :=
  ["revision"; "environmentId"; "providerId"; "providerRevision"; "capabilities";
   "capabilityDigest"; "policy"; "policyDigest"]%string.

(** [digestJson(value) !== digest] *)
Definition digest_differs (digest : app_json → jstr) (value expected : option app_json) : bool :=
  bool_decide (Some (AppStr (digest (default AppNull value))) ≠ expected).

Definition assertExecutionEnvironmentBindingValid (binding : app_json) : R unit :=
  value ← record (Some binding) (js "execution environment binding");
  _ ← exactKeys value binding_keys (js "execution environment binding");
  _ ← reject_if (negb (is_one (prop "revision" value)))
        (js "execution environment binding revision is invalid");
  _ ← opaqueId (prop "environmentId" value) (js "execution environment id");
  _ ← opaqueId (prop "providerId" value) (js "execution environment provider id");
  _ ← opaqueId (prop "providerRevision" value) (js "execution environment provider revision");
  _ ← check_capabilities (prop "capabilities" value);
  _ ← check_policy (prop "policy" value);
  _ ← sha256_text (prop "capabilityDigest" value) (js "execution environment capability digest");
  _ ← sha256_text (prop "policyDigest" value) (js "execution environment policy digest");
  _ ← reject_if (digest_differs digest (prop "capabilities" value) (prop "capabilityDigest" value))
        (js "execution environment capability digest does not match its content");
  reject_if (digest_differs digest (prop "policy" value) (prop "policyDigest" value))
    (js "execution environment policy digest does not match its content").

Definition assertExecutionEnvironmentBindingEqual (actual expected : app_json) (label : jstr) : R unit :=
  _ ← assertExecutionEnvironmentBindingValid actual;
  _ ← assertExecutionEnvironmentBindingValid expected;
  reject_if (bool_decide (stableJson number_text localeCompare actual ≠
      stableJson number_text localeCompare expected))
    (label ++ js " changed after admission").

(** * The storage client's decoder ([codec-execution-environment.ts]) *)

(** [requireExactKeys] *)
Definition requireExactKeys (fields : list (jstr * app_json)) (keys : list string) (label : jstr)
    : R unit :=
  reject_if (bool_decide (length fields ≠ length keys) ||
      existsb (fun key => bool_decide (key ∉ js <$> keys)) fields.*1)
    (label ++ js " contains missing or unknown fields").

Definition expectString (value : option app_json) (label : jstr) : R jstr :=
  match value with
  | Some (AppStr s) => Ok s
  | _ => reject (label ++ js " must be a string")
  end.

Definition expectBoolean (value : option app_json) (label : jstr) : R bool :=
  match value with
  | Some (AppBool b) => Ok b
  | _ => reject (label ++ js " must be a boolean")
  end.

Definition expectNumber (value : option app_json) (label : jstr) : R jsnum :=
  match value with
  | Some (AppNum x) => Ok x
  | _ => reject (label ++ js " must be a number")
  end.

Definition expectArray (value : option app_json) (label : jstr) : R (list app_json) :=
  match value with
  | Some (AppArr values) => Ok values
  | _ => reject (label ++ js " must be an array")
  end.

Definition expectSha256 (value : option app_json) (label : jstr) : R jstr :=
  s ← expectString value label;
  _ ← reject_if (negb (is_sha256 s)) (label ++ js " must be a lowercase SHA-256 digest");
  Ok s.

Definition expectRevision (value : option app_json) (label : jstr) : R unit :=
  x ← expectNumber value label;
  reject_if (negb (num_is x (num_of_Z 1))) (label ++ js " must be 1").

Definition expectPositiveInteger (value : option app_json) (label : jstr) : R jsnum :=
  x ← expectNumber value label;
  _ ← reject_if (negb (is_positive_safe x)) (label ++ js " must be a positive safe integer");
  Ok x.

Definition expectBoundedString (value : option app_json) (label : jstr) : R jstr :=
  s ← expectString value label;
  _ ← reject_if (negb (is_bounded s))
        (label ++ js " must be a non-empty string of at most 256 characters");
  Ok s.

Definition expectAllowed (T : Type) `{StringEnum T} (value : option app_json) (label : jstr) : R T :=
  _ ← expectString value label;
  allowed T value label.

(** Some element is not before the one after it. *)
Fixpoint out_of_order (values : list jstr) : bool :=
  match values with
  | a :: (b :: _) as rest => bool_decide (0 ≤ js_order a b)%Z || out_of_order rest
  | _ => false
  end.

(** [${label}.${index}] *)
Definition at_index (label : jstr) (index : nat) : jstr :=
  label ++ js "." ++ dec_string (N.of_nat index).

Definition readEffects (value : option app_json) (label : jstr) : R (list ExecutionFileEffect) :=
  values ← expectArray value label;
  effects ← mapM (fun '(index, item) =>
    expectAllowed ExecutionFileEffect (Some item) (at_index label index)) (imap pair values);
  _ ← reject_if (bool_decide (effects = []) || bool_decide (length (js_set effects) ≠ length effects))
        (label ++ js " must contain unique effects");
  _ ← reject_if (out_of_order (name_of <$> effects)) (label ++ js " must use canonical order");
  Ok effects.

Definition readPolicyRoot (value : app_json) (label : jstr) : R ExecutionRoot :=
  fields ← record (Some value) label;
  _ ← requireExactKeys fields ["id"; "effects"]%string label;
  id ← expectBoundedString (prop "id" fields) (label ++ js ".id");
  effects ← readEffects (prop "effects" fields) (label ++ js ".effects");
  Ok {| er_id := id; er_effects := effects |}.

Definition readPolicy (value : option app_json) (label : jstr) : R ExecutionPolicySnapshot :=
  fields ← record value label;
  _ ← requireExactKeys fields ["revision"; "filesystem"; "process"; "network"; "isolation"; "pty"]%string
        label;
  filesystem ← record (prop "filesystem" fields) (label ++ js ".filesystem");
  _ ← requireExactKeys filesystem ["roots"; "maxReadBytes"; "maxDirectoryEntries"]%string
        (label ++ js ".filesystem");
  process ← record (prop "process" fields) (label ++ js ".process");
  _ ← requireExactKeys process ["oneShot"; "managed"; "cleanup"; "environmentVariables"]%string
        (label ++ js ".process");
  values ← expectArray (prop "roots" filesystem) (label ++ js ".filesystem.roots");
  roots ← mapM (fun '(index, root) =>
    readPolicyRoot root (at_index (label ++ js ".filesystem.roots") index)) (imap pair values);
  _ ← reject_if (out_of_order (er_id <$> roots))
        (label ++ js ".filesystem.roots must use canonical order");
  names ← expectArray (prop "environmentVariables" process)
        (label ++ js ".process.environmentVariables");
  environmentVariables ← mapM (fun '(index, item) => expectBoundedString (Some item)
    (at_index (label ++ js ".process.environmentVariables") index)) (imap pair names);
  _ ← reject_if (out_of_order environmentVariables)
        (label ++ js ".process.environmentVariables must use canonical order");
  _ ← expectRevision (prop "revision" fields) (label ++ js ".revision");
  maxReadBytes ← expectPositiveInteger (prop "maxReadBytes" filesystem)
        (label ++ js ".filesystem.maxReadBytes");
  maxDirectoryEntries ← expectPositiveInteger (prop "maxDirectoryEntries" filesystem)
        (label ++ js ".filesystem.maxDirectoryEntries");
  oneShot ← expectBoolean (prop "oneShot" process) (label ++ js ".process.oneShot");
  managed ← expectBoolean (prop "managed" process) (label ++ js ".process.managed");
  cleanup ← expectAllowed cleanup_kind (prop "cleanup" process) (label ++ js ".process.cleanup");
  network ← expectAllowed network_kind (prop "network" fields) (label ++ js ".network");
  isolation ← expectAllowed enforcement (prop "isolation" fields) (label ++ js ".isolation");
  pty ← expectBoolean (prop "pty" fields) (label ++ js ".pty");
  Ok {|
    ep_filesystem := {| fs_roots := roots; fs_maxReadBytes := maxReadBytes;
      fs_maxDirectoryEntries := maxDirectoryEntries |};
    ep_process := {| pp_oneShot := oneShot; pp_managed := managed; pp_cleanup := cleanup;
      pp_environmentVariables := environmentVariables |};
    ep_network := network; ep_isolation := isolation; ep_pty := pty |}.

(** The object of one field [key]. *)
Definition readSingle (value : option app_json) (key : string) (label : jstr)
    : R (list (jstr * app_json)) :=
  fields ← record value label;
  _ ← requireExactKeys fields [key] label;
  Ok fields.

Definition readCapabilities (value : option app_json) (label : jstr) : R ExecutionCapabilitySnapshot :=
  fields ← record value label;
  _ ← requireExactKeys fields ["revision"; "isolation"; "filesystem"; "process"; "pty"; "network";
        "secretProjection"; "artifactExport"]%string label;
  isolation ← readSingle (prop "isolation" fields) "enforcement" (label ++ js ".isolation");
  filesystem ← record (prop "filesystem" fields) (label ++ js ".filesystem");
  _ ← requireExactKeys filesystem ["enforcement"; "effects"]%string (label ++ js ".filesystem");
  process ← record (prop "process" fields) (label ++ js ".process");
  _ ← requireExactKeys process ["oneShot"; "managed"; "cleanup"]%string (label ++ js ".process");
  pty ← readSingle (prop "pty" fields) "supported" (label ++ js ".pty");
  network ← readSingle (prop "network" fields) "enforcement" (label ++ js ".network");
  secretProjection ← readSingle (prop "secretProjection" fields) "supported"
        (label ++ js ".secretProjection");
  artifactExport ← readSingle (prop "artifactExport" fields) "supported"
        (label ++ js ".artifactExport");
  effects ← readEffects (prop "effects" filesystem) (label ++ js ".filesystem.effects");
  _ ← expectRevision (prop "revision" fields) (label ++ js ".revision");
  isolation ← expectAllowed enforcement (prop "enforcement" isolation)
        (label ++ js ".isolation.enforcement");
  enforced ← expectAllowed filesystem_enforcement (prop "enforcement" filesystem)
        (label ++ js ".filesystem.enforcement");
  oneShot ← expectBoolean (prop "oneShot" process) (label ++ js ".process.oneShot");
  managed ← expectBoolean (prop "managed" process) (label ++ js ".process.managed");
  cleanup ← expectAllowed cleanup_kind (prop "cleanup" process) (label ++ js ".process.cleanup");
  pty ← expectBoolean (prop "supported" pty) (label ++ js ".pty.supported");
  network ← expectAllowed enforcement (prop "enforcement" network)
        (label ++ js ".network.enforcement");
  secretProjection ← expectBoolean (prop "supported" secretProjection)
        (label ++ js ".secretProjection.supported");
  artifactExport ← expectBoolean (prop "supported" artifactExport)
        (label ++ js ".artifactExport.supported");
  _ ← reject_if (negb oneShot) (label ++ js ".process.oneShot must be true");
  Ok {|
    ec_isolation := isolation; ec_filesystem := enforced; ec_effects := effects;
    ec_managed := managed; ec_cleanup := cleanup; ec_pty := pty; ec_network := network;
    ec_secretProjection := secretProjection; ec_artifactExport := artifactExport |}.

Definition readExecutionEnvironmentBinding (value : option app_json) (label : jstr)
    : R ExecutionEnvironmentBinding :=
  fields ← record value label;
  _ ← requireExactKeys fields binding_keys label;
  _ ← expectRevision (prop "revision" fields) (label ++ js ".revision");
  environmentId ← expectBoundedString (prop "environmentId" fields) (label ++ js ".environmentId");
  providerId ← expectBoundedString (prop "providerId" fields) (label ++ js ".providerId");
  providerRevision ← expectBoundedString (prop "providerRevision" fields)
        (label ++ js ".providerRevision");
  capabilities ← readCapabilities (prop "capabilities" fields) (label ++ js ".capabilities");
  capabilityDigest ← expectSha256 (prop "capabilityDigest" fields)
        (label ++ js ".capabilityDigest");
  policy ← readPolicy (prop "policy" fields) (label ++ js ".policy");
  policyDigest ← expectSha256 (prop "policyDigest" fields) (label ++ js ".policyDigest");
  _ ← reject_if (bool_decide (storage_digest (capabilities_json capabilities) ≠ capabilityDigest))
        (label ++ js ".capabilityDigest does not match its content");
  _ ← reject_if (bool_decide (storage_digest
          (policy_json (roots_json (fs_roots (ep_filesystem policy))) policy) ≠ policyDigest))
        (label ++ js ".policyDigest does not match its content");
  Ok {|
    eb_environmentId := environmentId; eb_providerId := providerId;
    eb_providerRevision := providerRevision; eb_capabilities := capabilities;
    eb_capabilityDigest := capabilityDigest; eb_policy := policy; eb_policyDigest := policyDigest |}.

Definition readApplicationScopeBinding (value : option app_json) (label : jstr)
    : R (jstr * jstr * jstr * app_json) :=
  fields ← record value label;
  _ ← requireExactKeys fields ["kind"; "id"; "digest"; "metadata"]%string label;
  kind ← expectBoundedString (prop "kind" fields) (label ++ js ".kind");
  id ← expectBoundedString (prop "id" fields) (label ++ js ".id");
  digest ← expectSha256 (prop "digest" fields) (label ++ js ".digest");
  metadata ← match prop "metadata" fields with
    | Some metadata => Ok metadata
    | None => reject (label ++ js ".metadata must be present")
    end;
  _ ← reject_if (bool_decide (storage_digest (AppObj (scope_json kind id metadata)) ≠ digest))
        (label ++ js ".digest does not match its content");
  Ok (kind, id, digest, metadata).
End binding.
