(* ===== verification/ExecutionBindingSpec.v ===== *)
(** What the checks of execution environment bindings accept: the JSON documents of typed
    bindings in canonical form.  A binding that the runtime creates passes them, and is read back
    by the storage client, under conditions that are shown to be needed. *)
From Stdlib Require Import Floats.SpecFloat.
From S2P Require Import Prelude JsMap Json JsStr JsonText StableJson Protocol ExecutionBinding.

(** * Documents up to the order of fields *)

Lemma js_inj s t : js s = js t → s = t.
Proof.
  unfold js. intros H. rewrite <-(String.string_of_list_ascii_of_string s),
    <-(String.string_of_list_ascii_of_string t). f_equal.
  revert H. generalize (String.list_ascii_of_string s) as a, (String.list_ascii_of_string t) as b.
  induction a as [|x a IH]; intros [|y b]; simpl; try done. intros [= Hx Ha].
  f_equal; [|by apply IH]. rewrite <-(Ascii.ascii_N_embedding x), <-(Ascii.ascii_N_embedding y). by rewrite Hx.
Qed.

Lemma name_of_inj {T} `{StringEnum T} (x y : T) : name_of x = name_of y → x = y.
Proof. unfold name_of. intros E%js_inj. by apply (inj enum_name). Qed.

Lemma same_str v s : same_json v (AppStr s) ↔ v = AppStr s.
Proof. destruct v; simpl; naive_solver. Qed.

Lemma same_bool v b : same_json v (AppBool b) ↔ v = AppBool b.
Proof. destruct v; simpl; naive_solver. Qed.

Lemma same_num v y : same_json v (AppNum y) ↔ ∃ x, v = AppNum x ∧ num_compare x y = Some Eq.
Proof. destruct v; simpl; naive_solver. Qed.

Lemma same_arr v ws : same_json v (AppArr ws) ↔ ∃ vs, v = AppArr vs ∧ Forall2 same_json vs ws.
Proof.
  split.
  - destruct v as [| | | |vs|]; try done. rewrite same_json_arr. eauto.
  - intros (vs & -> & Hvs). by apply same_json_arr.
Qed.

Lemma same_strs vs ss : Forall2 same_json vs (AppStr <$> ss) ↔ vs = AppStr <$> ss.
Proof.
  revert vs. induction ss as [|s ss IH]; intros [|v vs]; simpl.
  - by split.
  - split; [by inversion 1|done].
  - split; [by inversion 1|done].
  - rewrite Forall2_cons, same_str, IH. split; [by intros [-> ->]|by intros [= -> ->]].
Qed.

Lemma same_names {T} `{StringEnum T} vs (l : list T) :
  Forall2 same_json vs (json_name <$> l) ↔ vs = json_name <$> l.
Proof.
  assert (json_name <$> l = AppStr <$> (name_of <$> l)) as -> by by rewrite <-list_fmap_compose.
  apply same_strs.
Qed.

(** The fields of an object, one by one. *)
Lemma same_obj_fields fs gs : NoDup fs.*1 → NoDup gs.*1 →
  same_json (AppObj fs) (AppObj gs) ↔
  fs.*1 ≡ₚ gs.*1 ∧ ∀ k w, (k, w) ∈ gs → ∃ v, jget k fs = Some v ∧ same_json v w.
Proof.
  intros Hfs Hgs. rewrite same_json_obj. split.
  - intros (gs' & Hp & Hf). assert (fs.*1 = gs'.*1) as Hkeys.
    { clear -Hf. induction Hf as [|p q l l' [Hpq _] _ IH]; [done|]. simpl. by f_equal. }
    split; [by rewrite Hkeys, Hp|]. intros k w Hin. rewrite <-Hp in Hin.
    apply list_elem_of_lookup in Hin as [i Hi].
    destruct (Forall2_lookup_r _ _ _ _ _ Hf Hi) as ([k' v] & Hv & Hk & Hs). simpl in Hk, Hs. subst k'.
    exists v. split; [|done]. apply elem_of_jget; [done|]. by eapply list_elem_of_lookup_2.
  - intros [Hp Hfields].
    assert (∃ gs', gs' ≡ₚ gs ∧ gs'.*1 = fs.*1) as (gs' & Hp' & Hk).
    { apply Permutation_map_inv in Hp as (gs' & E & Hp). exists gs'. by rewrite Hp, E. }
    exists gs'. split; [done|]. apply Forall2_same_length_lookup_2.
    { apply (f_equal length) in Hk. by rewrite !length_fmap in Hk. }
    intros i [k v] [k' w] Hi Hi'.
    assert (k = k') as <-.
    { apply (f_equal (.!! i)) in Hk. rewrite !list_lookup_fmap, Hi, Hi' in Hk. by simplify_eq/=. }
    split; [done|]. simpl. apply list_elem_of_lookup_2 in Hi, Hi'. rewrite Hp' in Hi'.
    destruct (Hfields _ _ Hi') as (v' & Hv' & Hs). apply elem_of_jget in Hi; [|done]. congruence.
Qed.

(** The fields of an object of which the names and values are known. *)
Definition has_fields (fs gs : list (jstr * app_json)) : Prop :=
  fs.*1 ≡ₚ gs.*1 ∧ Forall (fun p => ∃ v, jget p.1 fs = Some v ∧ same_json v p.2) gs.

Lemma same_obj v gs : json_ok v → NoDup gs.*1 →
  same_json v (AppObj gs) ↔ ∃ fs, v = AppObj fs ∧ has_fields fs gs.
Proof.
  intros Hv Hgs. unfold has_fields. setoid_rewrite Forall_forall. split.
  - destruct v as [| | | | |fs]; try done. apply json_ok_obj in Hv as [Hv _].
    intros [Hp Hs]%same_obj_fields; [|done..]. exists fs. split_and!; [done..|].
    intros [k w] Hin. by apply Hs.
  - intros (fs & -> & Hp & Hs). apply json_ok_obj in Hv as [Hv _]. apply same_obj_fields; [done..|].
    split; [done|]. intros k w Hin. by apply (Hs (k, w)).
Qed.

Lemma json_ok_field fs k v : json_ok (AppObj fs) → jget k fs = Some v → json_ok v.
Proof.
  intros [_ Hok]%json_ok_obj Hk%jget_elem_of. rewrite Forall_forall in Hok. apply (Hok _ Hk).
Qed.

(** * What the checks of fields accept *)

Lemma reject_if_Ok c m u : reject_if c m = Ok u ↔ c = false.
Proof. apply guard_throw_Ok. Qed.

Lemma record_Ok v l fs : record v l = Ok fs ↔ v = Some (AppObj fs).
Proof. destruct v as [[]|]; simpl; naive_solver. Qed.

Lemma exactKeys_Ok fs keys l u : NoDup keys → NoDup fs.*1 →
  exactKeys fs keys l = Ok u ↔ fs.*1 ≡ₚ js <$> keys.
Proof.
  intros Hkeys Hfs. assert (NoDup (js <$> keys)) as Hnd.
  { apply NoDup_fmap_2; [|done]. intros s t. apply js_inj. }
  unfold exactKeys. rewrite reject_if_Ok, orb_false_iff, bool_decide_eq_false, negb_false_iff.
  rewrite <-(length_fmap js keys), <-(length_fmap fst fs). split.
  - intros [Hlen Hin]. symmetry. apply submseteq_length_Permutation; [|lia].
    apply NoDup_submseteq; [done|]. intros k (key & -> & Hkey)%list_elem_of_fmap.
    rewrite forallb_forall in Hin. eapply bool_decide_eq_true_1, Hin. by apply list_elem_of_In.
  - intros Hp. split; [by rewrite Hp; intros []|]. apply forallb_forall. intros key Hkey.
    apply bool_decide_eq_true_2. rewrite Hp. apply list_elem_of_fmap_2. by apply list_elem_of_In.
Qed.

Lemma requireExactKeys_Ok fs keys l u : NoDup keys → NoDup fs.*1 →
  requireExactKeys fs keys l = Ok u ↔ fs.*1 ≡ₚ js <$> keys.
Proof.
  intros Hkeys Hfs. unfold requireExactKeys.
  rewrite reject_if_Ok, orb_false_iff, bool_decide_eq_false.
  rewrite <-(length_fmap js keys), <-(length_fmap fst fs). split.
  - intros [Hlen Hin]. apply submseteq_length_Permutation; [|lia].
    apply NoDup_submseteq; [done|]. intros k Hk. apply dec_stable. intros Hn.
    assert (existsb (fun key => bool_decide (key ∉ js <$> keys)) fs.*1 = true) as E; [|congruence].
    apply existsb_exists. exists k. split; [by apply list_elem_of_In|by apply bool_decide_eq_true_2].
  - intros Hp. split; [by rewrite Hp; intros []|]. apply not_true_iff_false.
    rewrite existsb_exists. intros (k & Hk%list_elem_of_In & Hn%bool_decide_eq_true_1).
    by rewrite Hp in Hk.
Qed.

Lemma member_Some {T} `{StringEnum T} v (x : T) : member v = Some x ↔ v = Some (json_name x).
Proof.
  unfold member, json_name. destruct v as [[| | |s| |]|]; try (split; [done|by intros [=]]).
  split.
  - intros ([i y] & (_ & Hy & _)%list_find_Some & [= <-])%fmap_Some. by rewrite Hy.
  - intros [= ->]. destruct (list_find_elem_of (fun y => name_of y = name_of x) enum_values x)
      as [[i y] Hy]; [apply enum_complete|done|].
    rewrite Hy. apply list_find_Some in Hy as (_ & Hn & _). simpl. f_equal. by apply name_of_inj.
Qed.

Lemma allowed_Ok {T} `{StringEnum T} v l (x : T) : allowed T v l = Ok x ↔ v = Some (json_name x).
Proof.
  unfold allowed. rewrite <-member_Some. destruct (member v); split; intros E; by simplify_eq.
Qed.

Lemma expectAllowed_Ok {T} `{StringEnum T} v l (x : T) :
  expectAllowed T v l = Ok x ↔ v = Some (json_name x).
Proof.
  unfold expectAllowed. rewrite result_bind_Ok. setoid_rewrite allowed_Ok. split; [naive_solver|].
  intros ->. by eexists.
Qed.

Lemma boolean_Ok v l u : boolean v l = Ok u ↔ ∃ b, v = Some (AppBool b).
Proof. destruct u. destruct v as [[]|]; simpl; naive_solver. Qed.

Lemma expectBoolean_Ok v l b : expectBoolean v l = Ok b ↔ v = Some (AppBool b).
Proof. destruct v as [[]|]; simpl; naive_solver. Qed.

Lemma expectArray_Ok v l vs : expectArray v l = Ok vs ↔ v = Some (AppArr vs).
Proof. destruct v as [[]|]; simpl; naive_solver. Qed.

Lemma opaqueId_Ok v l u : opaqueId v l = Ok u ↔ ∃ s, v = Some (AppStr s) ∧ is_opaque s = true.
Proof.
  destruct v as [[]|]; simpl; try naive_solver. rewrite reject_if_Ok, negb_false_iff. naive_solver.
Qed.

Lemma boundedString_Ok v l s : boundedString v l = Ok s ↔ v = AppStr s ∧ is_bounded s = true.
Proof.
  destruct v as [| | |t| |]; simpl; try naive_solver. rewrite result_bind_Ok.
  setoid_rewrite reject_if_Ok. setoid_rewrite negb_false_iff. naive_solver.
Qed.

Lemma expectString_Ok v l s : expectString v l = Ok s ↔ v = Some (AppStr s).
Proof. destruct v as [[]|]; simpl; naive_solver. Qed.

Lemma expectBoundedString_Ok v l s :
  expectBoundedString v l = Ok s ↔ v = Some (AppStr s) ∧ is_bounded s = true.
Proof.
  unfold expectBoundedString. rewrite result_bind_Ok. setoid_rewrite result_bind_Ok.
  setoid_rewrite reject_if_Ok. setoid_rewrite expectString_Ok. setoid_rewrite negb_false_iff.
  naive_solver.
Qed.

Lemma sha256_text_Ok v l u : sha256_text v l = Ok u ↔ ∃ s, v = Some (AppStr s) ∧ is_sha256 s = true.
Proof.
  destruct v as [[]|]; simpl; try naive_solver. rewrite reject_if_Ok, negb_false_iff. naive_solver.
Qed.

Lemma expectSha256_Ok v l s : expectSha256 v l = Ok s ↔ v = Some (AppStr s) ∧ is_sha256 s = true.
Proof.
  unfold expectSha256. rewrite result_bind_Ok. setoid_rewrite result_bind_Ok.
  setoid_rewrite reject_if_Ok. setoid_rewrite expectString_Ok. setoid_rewrite negb_false_iff.
  naive_solver.
Qed.

Lemma positiveInteger_Ok v l u :
  positiveInteger v l = Ok u ↔ ∃ x, v = Some (AppNum x) ∧ is_positive_safe x = true.
Proof.
  destruct v as [[]|]; simpl; try naive_solver. rewrite reject_if_Ok, negb_false_iff. naive_solver.
Qed.

Lemma expectPositiveInteger_Ok v l x :
  expectPositiveInteger v l = Ok x ↔ v = Some (AppNum x) ∧ is_positive_safe x = true.
Proof.
  unfold expectPositiveInteger. rewrite result_bind_Ok. setoid_rewrite result_bind_Ok.
  setoid_rewrite reject_if_Ok. setoid_rewrite negb_false_iff.
  destruct v as [[]|]; simpl; naive_solver.
Qed.

Lemma is_one_true v : is_one v = true ↔ ∃ v', v = Some v' ∧ same_json v' one.
Proof.
  destruct v as [v|]; [|naive_solver].
  assert (is_one (Some v) = true ↔ same_json v one) as E; [unfold one|naive_solver].
  destruct v as [| |x| | |]; try (simpl; naive_solver). cbn [is_one same_json equal_json].
  assert (num_is x (num_of_Z 1) = match num_compare x (num_of_Z 1) with Some Eq => true | _ => false end)
    as -> by (by destruct x). destruct (num_compare x (num_of_Z 1)) as [[]|]; split; congruence.
Qed.

Lemma expectRevision_Ok v l u :
  expectRevision v l = Ok u ↔ ∃ v', v = Some v' ∧ same_json v' one.
Proof.
  rewrite <-is_one_true. unfold expectRevision. rewrite result_bind_Ok.
  setoid_rewrite reject_if_Ok. setoid_rewrite negb_false_iff.
  destruct v as [[]|]; simpl; naive_solver.
Qed.

(** ** Lists in canonical order *)

Definition before (a b : jstr) : Prop := (js_order a b < 0)%Z.

#[export] Instance before_transitive : Transitive before.
Proof.
  unfold before. intros a b c Hab Hbc. pose proof (js_order_trans a b c).
  destruct (decide (js_order a c = 0)%Z) as [E%js_order_zero|]; [|lia].
  subst c. rewrite js_order_opp in Hbc. lia.
Qed.

Definition canonical_names (names : list jstr) : Prop := Sorted before names.

Lemma not_after_cons previous name names :
  canonical_names (option_list previous ++ name :: names) ↔
  not_after previous name = false ∧ canonical_names (name :: names).
Proof.
  unfold canonical_names, not_after. destruct previous as [p|]; simpl; [|naive_solver].
  rewrite bool_decide_eq_false. unfold before. split.
  - intros [Hs Hr]%Sorted_inv. apply HdRel_inv in Hr. split; [lia|done].
  - intros [Hr Hs]. constructor; [done|]. constructor. lia.
Qed.

Lemma out_of_order_false names : out_of_order names = false ↔ canonical_names names.
Proof.
  unfold canonical_names. induction names as [|a [|b names] IH]; simpl; [by split|..].
  - split; [by repeat constructor|done].
  - rewrite orb_false_iff, bool_decide_eq_false. simpl in IH. rewrite IH. unfold before. split.
    + intros [Hab Hs]. constructor; [done|]. constructor. lia.
    + intros [Hs Hr]%Sorted_inv. apply HdRel_inv in Hr. split; [lia|done].
Qed.

Lemma canonical_NoDup names : canonical_names names → NoDup names.
Proof.
  intros Hs%Sorted_StronglySorted; [|apply _].
  induction Hs as [|a names Hs IH Ha]; constructor; [|done].
  intros Hin. rewrite Forall_forall in Ha. specialize (Ha _ Hin). unfold before in Ha.
  pose proof (js_order_opp a a). lia.
Qed.

Definition effects_ok (effects : list ExecutionFileEffect) : Prop :=
  effects ≠ [] ∧ canonical_names (name_of <$> effects).

Definition effects_json (effects : list ExecutionFileEffect) : app_json :=
  AppArr (json_name <$> effects).

Lemma check_effects_Ok previous vs l u :
  check_effects previous vs l = Ok u ↔ ∃ es : list ExecutionFileEffect, vs = json_name <$> es ∧
    (vs ≠ [] → canonical_names (option_list previous ++ (name_of <$> es))).
Proof.
  destruct u. revert previous. induction vs as [|v vs IH]; intros previous; simpl.
  - split; [|done]. intros _. by exists [].
  - rewrite result_bind_Ok. setoid_rewrite result_bind_Ok. setoid_rewrite reject_if_Ok.
    setoid_rewrite IH. setoid_rewrite allowed_Ok. split.
    + intros (e & [= ->] & _ & Hprev & es & -> & Hs). exists (e :: es). split; [done|]. intros _.
      apply not_after_cons. split; [done|]. destruct es as [|e' es]; [by repeat constructor|].
      by apply Hs.
    + intros ([|e es] & [= -> ->] & Hs). specialize (Hs ltac:(done)).
      apply not_after_cons in Hs as [Hprev Hs]. exists e. split; [done|].
      exists tt. split; [done|]. exists es. by split.
Qed.

Lemma effects_Ok v l u :
  effects v l = Ok u ↔ ∃ es, v = Some (effects_json es) ∧ effects_ok es.
Proof.
  unfold effects_ok, effects_json.
  destruct v as [[| | | |vs|]|]; simpl; try naive_solver.
  rewrite result_bind_Ok. setoid_rewrite reject_if_Ok. setoid_rewrite check_effects_Ok. split.
  - intros (_ & Hne%bool_decide_eq_false & es & -> & Hs). exists es.
    split_and!; [done|by intros ->|by apply Hs].
  - intros (es & [= ->] & Hne & Hs). exists tt. split; [|by exists es].
    apply bool_decide_eq_false. by destruct es.
Qed.

Lemma readEffects_Ok v l es :
  readEffects v l = Ok es ↔ v = Some (effects_json es) ∧ effects_ok es.
Proof.
  unfold readEffects, effects_ok, effects_json. rewrite result_bind_Ok. setoid_rewrite result_bind_Ok.
  setoid_rewrite result_bind_Ok. setoid_rewrite result_bind_Ok.
  setoid_rewrite reject_if_Ok. setoid_rewrite orb_false_iff. setoid_rewrite bool_decide_eq_false.
  setoid_rewrite expectArray_Ok. setoid_rewrite out_of_order_false.
  assert (∀ vs (es : list ExecutionFileEffect), mapM (fun '(index, item) =>
    expectAllowed ExecutionFileEffect (Some item) (at_index l index)) (imap pair vs) = Ok es ↔
    vs = json_name <$> es) as Hmap.
  { intros vs es'. rewrite (mapM_index_Ok _ (fun v e => v = json_name e)).
    - clear. revert es'. induction vs as [|w vs IH]; intros [|e es']; simpl;
        [done|by split; [inversion 1|]..|]. rewrite Forall2_cons, IH. naive_solver.
    - intros i w e. rewrite expectAllowed_Ok. naive_solver. }
  setoid_rewrite Hmap. split.
  - intros (vs & -> & es' & -> & _ & [Hne _] & _ & Hs & [= ->]). done.
  - intros (-> & Hne & Hs). exists (json_name <$> es). split; [done|]. exists es. split; [done|].
    exists tt. split; [split; [done|]|by exists tt].
    intros Hn. apply Hn, length_js_set. by eapply NoDup_fmap_1, canonical_NoDup.
Qed.

(** * Capabilities *)

(** Proves that two lists of known names are permutations. *)
Ltac solve_keys :=
  first [done | etrans; [eassumption|]; apply (bool_decide_unpack _); vm_compute; exact I].

Ltac nodup_names := apply (bool_decide_unpack _); vm_compute; exact I.

Lemma json_ok_NoDup fs : json_ok (AppObj fs) → NoDup fs.*1.
Proof. by intros [Hfs _]%json_ok_obj. Qed.

#[local] Hint Resolve json_ok_NoDup json_ok_field : core.

Lemma requireExactKeys_known fs keys l u : bool_decide (NoDup keys) → json_ok (AppObj fs) →
  requireExactKeys fs keys l = Ok u ↔ fs.*1 ≡ₚ js <$> keys.
Proof. intros Hkeys%bool_decide_unpack Hfs%json_ok_NoDup. by apply requireExactKeys_Ok. Qed.

Lemma exactKeys_known fs keys l u : bool_decide (NoDup keys) → json_ok (AppObj fs) →
  exactKeys fs keys l = Ok u ↔ fs.*1 ≡ₚ js <$> keys.
Proof. intros Hkeys%bool_decide_unpack Hfs%json_ok_NoDup. by apply exactKeys_Ok. Qed.

(** Reads off what successful checks say. *)
Ltac read_checks :=
  unfold prop in *;
  repeat match goal with
  | H : (_ ≫= _) = Ok _ |- _ => apply result_bind_Ok in H as (? & ? & ?)
  | H : record (Some ?v) _ = Ok _ |- _ => apply record_Ok in H; injection H as ->
  | H : record _ _ = Ok _ |- _ => apply record_Ok in H
  | H : exactKeys _ _ _ = Ok _ |- _ => apply exactKeys_Ok in H; [|nodup_names|by eauto]
  | H : requireExactKeys _ _ _ = Ok _ |- _ => apply requireExactKeys_Ok in H; [|nodup_names|by eauto]
  | H : reject_if (negb _) _ = Ok _ |- _ => apply reject_if_Ok, negb_false_iff in H
  | H : is_one _ = true |- _ => apply is_one_true in H as (? & ? & ?)
  | H : expectRevision _ _ = Ok _ |- _ => apply expectRevision_Ok in H as (? & ? & ?)
  | H : allowed _ _ _ = Ok _ |- _ => apply allowed_Ok in H
  | H : expectAllowed _ _ _ = Ok _ |- _ => apply expectAllowed_Ok in H
  | H : boolean _ _ = Ok _ |- _ => apply boolean_Ok in H as [? ?]
  | H : expectBoolean _ _ = Ok _ |- _ => apply expectBoolean_Ok in H
  | H : effects _ _ = Ok _ |- _ => apply effects_Ok in H as (? & ? & ?)
  | H : readEffects _ _ = Ok _ |- _ => apply readEffects_Ok in H as [? ?]
  | H : opaqueId _ _ = Ok _ |- _ => apply opaqueId_Ok in H as (? & ? & ?)
  | H : positiveInteger _ _ = Ok _ |- _ => apply positiveInteger_Ok in H as (? & ? & ?)
  | H : expectPositiveInteger _ _ = Ok _ |- _ => apply expectPositiveInteger_Ok in H as [? ?]
  | H : boundedString _ _ = Ok _ |- _ => apply boundedString_Ok in H as [? ?]
  | H : expectBoundedString _ _ = Ok _ |- _ => apply expectBoundedString_Ok in H as [? ?]
  | H : sha256_text _ _ = Ok _ |- _ => apply sha256_text_Ok in H as (? & ? & ?)
  | H : expectSha256 _ _ = Ok _ |- _ => apply expectSha256_Ok in H as [? ?]
  | H : expectArray _ _ = Ok _ |- _ => apply expectArray_Ok in H
  | H : bool_decide _ = true |- _ => apply bool_decide_eq_true in H
  end.

(** An object whose fields have been read. *)
Lemma same_obj_read fs gs : json_ok (AppObj fs) → NoDup gs.*1 → has_fields fs gs →
  same_json (AppObj fs) (AppObj gs).
Proof. intros Hok Hgs Hf. apply same_obj; [done..|]. by exists fs. Qed.

Definition strings_json (names : list jstr) : app_json := AppArr (AppStr <$> names).

Lemma same_strings v names : same_json v (strings_json names) ↔ v = strings_json names.
Proof. unfold strings_json. rewrite same_arr. setoid_rewrite same_strs. naive_solver. Qed.

Lemma same_effects v es : same_json v (effects_json es) ↔ v = effects_json es.
Proof.
  unfold effects_json. rewrite same_arr. setoid_rewrite same_names. naive_solver.
Qed.

Lemma same_true v : same_json v (AppBool true) ↔ v = AppBool true.
Proof. apply same_bool. Qed.

Lemma num_compare_refl x : is_finite x = true → num_compare x x = Some Eq.
Proof.
  destruct x as [| | |s m e]; try done. intros _. unfold num_compare.
  f_equal. by apply Z.compare_eq_iff.
Qed.

Lemma same_safe x : is_positive_safe x = true → same_json (AppNum x) (AppNum x).
Proof. intros Hx. apply num_compare_refl. by destruct x. Qed.

Ltac known_fields :=
  lazymatch goal with |- same_json (AppObj _) (AppObj _) => idtac end; unfold json_name;
  apply same_obj_read; [by eauto using json_ok_field|nodup_names|];
  split; [solve_keys|]; repeat (apply Forall_cons; split; [eexists; split; [eassumption|]|]);
  try apply Forall_nil_2; cbn [fst snd];
  try first [eassumption | by apply same_bool | by apply same_str | by apply same_effects |
    by apply same_strings | by apply same_safe | known_fields].

(** Reads off the fields of a known object. *)
Ltac read_fields H :=
  apply same_obj in H; [|by eauto|nodup_names];
  let Hf := fresh "Hfields" in destruct H as (? & ? & [? Hf]);
  repeat (let Hr := fresh "Hrest" in apply Forall_cons in Hf as [(? & ? & ?) Hr]; rename Hr into Hf);
  clear Hf;
  cbn [fst snd] in *; simplify_eq;
  repeat match goal with
  | H : same_json _ (AppStr _) |- _ => apply same_str in H
  | H : same_json _ (AppBool _) |- _ => apply same_bool in H
  | H : same_json _ (json_name _) |- _ => apply same_str in H
  | H : same_json _ (effects_json _) |- _ => apply same_effects in H
  | H : same_json _ (AppArr (json_name <$> _)) |- _ => apply same_effects in H
  | H : same_json _ (AppArr (AppStr <$> _)) |- _ => apply same_strings in H
  | H : same_json _ (AppNum _) |- _ => apply same_num in H as (? & ? & ?)
  end; simplify_eq.

(** The same, of the objects in it. *)
Ltac read_nested :=
  repeat match goal with H : same_json _ (AppObj (_ :: _ :: _)) |- _ => read_fields H end.

(** A document that may be missing. *)
Definition ok_document (v : option app_json) : Prop := ∀ w, v = Some w → json_ok w.

Lemma ok_field fs k : json_ok (AppObj fs) → ok_document (jget k fs).
Proof. intros Hok w. by apply json_ok_field. Qed.

Lemma ok_some v : json_ok v → ok_document (Some v).
Proof. by intros Hok w [= <-]. Qed.

Lemma ok_some_inv v : ok_document (Some v) → json_ok v.
Proof. intros Hok. by apply Hok. Qed.

#[local] Hint Resolve ok_field ok_some ok_some_inv : core.

(** [v] is the document [w], up to the order of fields. *)
Definition is_document (v : option app_json) (w : app_json) : Prop := ∃ v', v = Some v' ∧ same_json v' w.

(** Runs checks on known fields. *)
Ltac run_check :=
  match goal with
  | H : jget ?k ?fs = Some _ |- context [jget ?k ?fs] => rewrite H
  | |- context [exactKeys ?fs ?ks ?l] =>
      rewrite (proj2 (exactKeys_known fs ks l tt I ltac:(by eauto))) by solve_keys
  | |- context [requireExactKeys ?fs ?ks ?l] =>
      rewrite (proj2 (requireExactKeys_known fs ks l tt I ltac:(by eauto))) by solve_keys
  | |- context [allowed ?T (Some (AppStr (name_of ?x))) ?l] =>
      rewrite (proj2 (allowed_Ok (Some (AppStr (name_of x))) l x) eq_refl)
  | |- context [expectAllowed ?T (Some (AppStr (name_of ?x))) ?l] =>
      rewrite (proj2 (expectAllowed_Ok (Some (AppStr (name_of x))) l x) eq_refl)
  | H : effects_ok ?es |- context [effects (Some (effects_json ?es)) ?l] =>
      rewrite (proj2 (effects_Ok (Some (effects_json es)) l tt)) by eauto
  | H : effects_ok ?es |- context [readEffects (Some (effects_json ?es)) ?l] =>
      rewrite (proj2 (readEffects_Ok (Some (effects_json es)) l es)) by done
  | H : is_opaque ?s = true |- context [opaqueId (Some (AppStr ?s)) ?l] =>
      rewrite (proj2 (opaqueId_Ok (Some (AppStr s)) l tt) (ex_intro _ s (conj eq_refl H)))
  | H : is_bounded ?s = true |- context [boundedString (AppStr ?s) ?l] =>
      rewrite (proj2 (boundedString_Ok (AppStr s) l s) (conj eq_refl H))
  | H : is_bounded ?s = true |- context [expectBoundedString (Some (AppStr ?s)) ?l] =>
      rewrite (proj2 (expectBoundedString_Ok (Some (AppStr s)) l s) (conj eq_refl H))
  | H : is_sha256 ?s = true |- context [sha256_text (Some (AppStr ?s)) ?l] =>
      rewrite (proj2 (sha256_text_Ok (Some (AppStr s)) l tt) (ex_intro _ s (conj eq_refl H)))
  | H : is_sha256 ?s = true |- context [expectSha256 (Some (AppStr ?s)) ?l] =>
      rewrite (proj2 (expectSha256_Ok (Some (AppStr s)) l s) (conj eq_refl H))
  | H : is_positive_safe ?x = true |- context [positiveInteger (Some (AppNum ?x)) ?l] =>
      rewrite (proj2 (positiveInteger_Ok (Some (AppNum x)) l tt) (ex_intro _ x (conj eq_refl H)))
  | H : is_positive_safe ?x = true |- context [expectPositiveInteger (Some (AppNum ?x)) ?l] =>
      rewrite (proj2 (expectPositiveInteger_Ok (Some (AppNum x)) l x) (conj eq_refl H))
  | H : same_json ?v one |- context [is_one (Some ?v)] =>
      rewrite (proj2 (is_one_true (Some v)) (ex_intro _ v (conj eq_refl H)))
  | H : same_json ?v one |- context [expectRevision (Some ?v) ?l] =>
      rewrite (proj2 (expectRevision_Ok (Some v) l tt) (ex_intro _ v (conj eq_refl H)))
  end.

Ltac run_checks :=
  unfold prop;
  repeat first
  [ progress (cbn [record mbind result_bind boolean expectBoolean reject_if guard_throw negb])
  | run_check ].


Lemma supportedFlag_Ok v l u : ok_document v →
  supportedFlag v l = Ok u ↔ ∃ b, is_document v (flag_json b).
Proof.
  intros Hok. unfold supportedFlag, flag_json, is_document. split.
  - intros H. read_checks. do 2 eexists. split; [done|]. known_fields.
  - intros (b & v' & -> & Hs). read_fields Hs. run_checks. by destruct u.
Qed.

Lemma check_enforcement_Ok T `{StringEnum T} v l l' u : ok_document v →
  check_enforcement T v l l' = Ok u ↔
    ∃ x : T, is_document v (AppObj [(js "enforcement", json_name x)]).
Proof.
  intros Hok. unfold check_enforcement, is_document. split.
  - intros He. read_checks. do 2 eexists. split; [done|]. known_fields.
  - intros (x & v' & -> & Hs). read_fields Hs. run_checks. by destruct u.
Qed.

(** Reads off what successful checks of parts say. *)
Ltac read_parts :=
  repeat match goal with
  | H : supportedFlag _ _ = Ok _ |- _ =>
      apply supportedFlag_Ok in H as (? & ? & ? & ?); [|by eauto]
  | H : check_enforcement _ _ _ _ = Ok _ |- _ =>
      apply check_enforcement_Ok in H as (? & ? & ? & ?); [|by eauto]
  end.

Ltac run_part :=
  match goal with
  | |- context [supportedFlag (Some ?v) ?l] =>
      rewrite (proj2 (supportedFlag_Ok (Some v) l tt ltac:(by eauto))) by (unfold is_document; eauto)
  | |- context [check_enforcement ?T (Some ?v) ?l ?l'] =>
      rewrite (proj2 (check_enforcement_Ok T (Some v) l l' tt ltac:(by eauto))) by (unfold is_document; eauto)
  end.

Lemma check_capabilities_Ok v u : ok_document v →
  check_capabilities v = Ok u ↔ ∃ c, is_document v (capabilities_json c) ∧ effects_ok (ec_effects c).
Proof.
  intros Hok. unfold check_capabilities. split.
  - intros H. read_checks. read_parts.
    eexists (Build_ExecutionCapabilitySnapshot _ _ _ _ _ _ _ _ _). split; [|eassumption].
    eexists. split; [done|]. unfold capabilities_json.
    cbn [ec_isolation ec_filesystem ec_effects ec_managed ec_cleanup ec_pty ec_network ec_secretProjection
      ec_artifactExport]. subst. known_fields. all: try done.
  - intros (c & (w & -> & Hs) & He). unfold capabilities_json in Hs. read_fields Hs. read_nested. repeat progress (run_checks; try run_part). by destruct u.
Qed.


Lemma readCapabilities_Ok v l c : ok_document v →
  readCapabilities v l = Ok c ↔ is_document v (capabilities_json c) ∧ effects_ok (ec_effects c).
Proof.
  intros Hok. unfold readCapabilities, readSingle. split.
  - intros H. read_checks. subst. simplify_eq. split; [|eassumption].
    eexists. split; [done|]. unfold capabilities_json, flag_json.
    cbn [ec_isolation ec_filesystem ec_effects ec_managed ec_cleanup ec_pty ec_network ec_secretProjection
      ec_artifactExport]. known_fields. all: try done.
  - intros ((w & -> & Hs) & He). unfold capabilities_json, flag_json in Hs. read_fields Hs. 
    repeat match goal with H : same_json _ (AppObj _) |- _ => read_fields H end.
    repeat progress (run_checks; try run_part). by destruct c.
Qed.

(** * Policies *)

Lemma positive_safe_equal x y : num_compare x y = Some Eq → is_positive_safe x = is_positive_safe y.
Proof. intros E. unfold is_positive_safe, safe_integer. by rewrite (num_integer_equal x y). Qed.

(** [id_ok]: what is demanded of the names of roots. *)
Definition root_ok (id_ok : jstr → bool) (root : ExecutionRoot) : Prop :=
  id_ok (er_id root) = true ∧ effects_ok (er_effects root).

Record policy_ok (id_ok : jstr → bool) (policy : ExecutionPolicySnapshot) : Prop := {
  ok_roots : Forall (root_ok id_ok) (fs_roots (ep_filesystem policy));
  ok_roots_order : canonical_names (er_id <$> fs_roots (ep_filesystem policy));
  ok_maxReadBytes : is_positive_safe (fs_maxReadBytes (ep_filesystem policy)) = true;
  ok_maxDirectoryEntries : is_positive_safe (fs_maxDirectoryEntries (ep_filesystem policy)) = true;
  ok_names : Forall (fun name => is_bounded name = true) (pp_environmentVariables (ep_process policy));
  ok_names_order : canonical_names (pp_environmentVariables (ep_process policy));
}.

Lemma canonical_short (previous : option jstr) : canonical_names (option_list previous ++ []).
Proof. unfold canonical_names. destruct previous; simpl; repeat constructor. Qed.

Lemma canonical_first names : canonical_names (option_list None ++ names) ↔ canonical_names names.
Proof. done. Qed.

Lemma check_roots_Ok previous vs u : Forall json_ok vs →
  check_roots previous vs = Ok u ↔ ∃ rs, Forall2 same_json vs (root_json <$> rs) ∧
    Forall (root_ok is_opaque) rs ∧ canonical_names (option_list previous ++ (er_id <$> rs)).
Proof.
  intros Hok. revert previous. induction Hok as [|v vs Hv Hok IH]; intros previous; cbn [check_roots].
  - destruct u. split; [|done]. intros _. exists []. split_and!; [done..|apply canonical_short].
  - split.
    + intros H. read_checks. simplify_eq.
      match goal with H : jget (js "id") _ = _ |- _ => rewrite H in * end.
      match goal with H : check_roots _ _ = _, E : reject_if _ _ = _ |- _ =>
        apply IH in H as (rs & Hrs & Hall & Hs); apply reject_if_Ok in E end.
      eexists (Build_ExecutionRoot _ _ :: rs). split_and!.
      * cbn [fmap list_fmap]. apply Forall2_cons; split; [|done]. unfold root_json. cbn [er_id er_effects].
        known_fields. all: try done.
      * apply Forall_cons; split; [|done]. by split.
      * apply not_after_cons. by split.
    + intros ([|r rs] & Hrs & Hall & Hs); [by inversion Hrs|]. cbn [fmap list_fmap] in Hrs, Hs.
      apply Forall2_cons in Hrs as [Hr Hrs]. apply Forall_cons in Hall as [[Hid He] Hall].
      apply not_after_cons in Hs as [Hfirst Hs].
      unfold root_json in Hr. read_fields Hr. run_checks. rewrite Hfirst. run_checks.
      apply IH. by exists rs.
Qed.

(** The document of the roots: the checks of the runtime take an empty string for no roots. *)
Definition roots_document (roots : app_json) (rs : list ExecutionRoot) : Prop :=
  roots = roots_json rs ∨ roots = AppStr [] ∧ rs = [].

Lemma iterate_roots_Ok v u : ok_document v →
  iterate_roots v = Ok u ↔ ∃ roots rs, is_document v roots ∧ roots_document roots rs ∧
    Forall (root_ok is_opaque) rs ∧ canonical_names (er_id <$> rs).
Proof.
  intros Hok. unfold is_document, roots_document, roots_json. destruct u.
  destruct v as [[| | |[|c s]|vs|]|]; cbn [iterate_roots].
  1-3,5,7,8: split; [done|]; intros (? & rs & (w & [= <-] & Hs) & [->|[-> _]] & _);
    by (first [apply same_arr in Hs as (? & ? & _)|apply same_str in Hs]).
  - split; [intros _|done]. exists (AppStr []), []. split_and!; [by eexists|by right|done|by constructor].
  - apply ok_some_inv, json_ok_arr in Hok. rewrite check_roots_Ok by done. setoid_rewrite canonical_first.
    split.
    + intros (rs & Hrs & Hall). exists (roots_json rs), rs. split_and!; [|by left|apply Hall..].
      eexists. split; [done|]. by apply same_json_arr.
    + intros (? & rs & (w & [= <-] & Hs) & [->|[-> _]] & Hall); [|done].
      apply same_json_arr in Hs. by exists rs.
Qed.

Lemma check_strings_Ok previous vs l u :
  check_strings previous vs l = Ok u ↔ ∃ names, vs = AppStr <$> names ∧
    Forall (fun name => is_bounded name = true) names ∧ canonical_names (option_list previous ++ names).
Proof.
  revert previous. induction vs as [|v vs IH]; intros previous; cbn [check_strings].
  - destruct u. split; [|done]. intros _. exists []. split_and!; [done..|apply canonical_short].
  - rewrite result_bind_Ok. setoid_rewrite result_bind_Ok. setoid_rewrite boundedString_Ok.
    setoid_rewrite reject_if_Ok. setoid_rewrite IH. split.
    + intros (s & [-> Hs] & _ & Hfirst & names & -> & Hall & Hn). exists (s :: names).
      split_and!; [done|by constructor|]. by apply not_after_cons.
    + intros ([|s names] & [= -> ->] & [Hs Hall]%Forall_cons & [Hfirst Hn]%not_after_cons).
      exists s. split; [done|]. exists tt. split; [done|]. by exists names.
Qed.

Lemma canonicalStrings_Ok v l u :
  canonicalStrings v l = Ok u ↔ ∃ names, v = Some (strings_json names) ∧
    Forall (fun name => is_bounded name = true) names ∧ canonical_names names.
Proof.
  unfold strings_json. destruct v as [[| | | |vs|]|]; cbn [canonicalStrings]; try naive_solver.
  rewrite check_strings_Ok. setoid_rewrite canonical_first. naive_solver.
Qed.

Ltac safe_numbers :=
  repeat match goal with E : num_compare ?x ?y = Some Eq, H : is_positive_safe ?y = true |- _ =>
    apply positive_safe_equal in E; rewrite H in E end.

Lemma check_policy_Ok v u : ok_document v →
  check_policy v = Ok u ↔ ∃ roots p, is_document v (policy_json roots p) ∧ policy_ok is_opaque p ∧
    roots_document roots (fs_roots (ep_filesystem p)).
Proof.
  intros Hok. unfold check_policy. split.
  - intros H. read_checks. simplify_eq.
    match goal with H : iterate_roots _ = _, E : canonicalStrings _ _ = _ |- _ =>
      apply iterate_roots_Ok in H as (roots & rs & (w & ? & ?) & ? & ? & ?); [|by eauto];
      apply canonicalStrings_Ok in E as (names & ? & ? & ?) end.
    eexists roots, (Build_ExecutionPolicySnapshot (Build_ExecutionFileSystemPolicy rs _ _)
      (Build_ExecutionProcessPolicy _ _ _ names) _ _ _).
    split_and!; [| |done].
    + eexists. split; [done|]. unfold policy_json. cbn [ep_filesystem ep_process ep_network ep_isolation
        ep_pty fs_maxReadBytes fs_maxDirectoryEntries pp_oneShot pp_managed pp_cleanup
        pp_environmentVariables]. known_fields. all: try done.
    + by split.
  - intros (roots & p & (w & -> & Hs) & [Hr Hro Hb He Hn Hno] & Hroots). unfold policy_json in Hs.
    read_fields Hs. read_nested. safe_numbers.
    match goal with H : jget (js "roots") _ = Some ?w |- _ =>
      assert (∀ u, iterate_roots (Some w) = Ok u) as Hiter
        by (intros ?; apply iterate_roots_Ok; [by eauto|]; eexists _, _; split; [by eexists|by split_and!]) end.
    assert (∀ l u, canonicalStrings (Some (strings_json (pp_environmentVariables (ep_process p)))) l = Ok u)
      as Hstrings by (intros l' u'; apply canonicalStrings_Ok; by eexists).
    run_checks. rewrite (Hiter tt). run_checks. rewrite (Hstrings _ tt). run_checks. by destruct u.
Qed.

Lemma json_ok_values fs k vs : json_ok (AppObj fs) → jget k fs = Some (AppArr vs) → Forall json_ok vs.
Proof. intros Hok Hk. apply json_ok_arr. by eapply json_ok_field. Qed.

Lemma readPolicyRoot_Ok v l r : json_ok v →
  readPolicyRoot v l = Ok r ↔ same_json v (root_json r) ∧ root_ok is_bounded r.
Proof.
  intros Hok. unfold readPolicyRoot, root_ok. split.
  - intros H. read_checks. simplify_eq. split; [|by split]. unfold root_json. cbn [er_id er_effects].
    known_fields. all: try done.
  - intros (Hr & Hid & He). unfold root_json in Hr. read_fields Hr. run_checks. by destruct r.
Qed.

Lemma read_roots_Ok vs l rs : Forall json_ok vs →
  mapM (fun '(index, root) => readPolicyRoot root (at_index l index)) (imap pair vs) = Ok rs ↔
    Forall2 same_json vs (root_json <$> rs) ∧ Forall (root_ok is_bounded) rs.
Proof.
  intros Hok. rewrite Forall_forall in Hok.
  rewrite (mapM_index_Ok_in _ (fun v r => same_json v (root_json r) ∧ root_ok is_bounded r))
    by (intros i v r Hv; apply readPolicyRoot_Ok; auto).
  rewrite Forall2_fmap_r. split.
  - intros H. split; [by eapply Forall2_impl; [exact H|intros ? ? []]|].
    eapply Forall2_Forall_r; [exact H|]. apply Forall_true. by intros ? ? [].
  - intros [H Hall]. rewrite Forall_forall in Hall. eapply Forall2_impl_in; [exact H|]. naive_solver.
Qed.

Lemma read_strings_Ok vs l names :
  mapM (fun '(index, item) => expectBoundedString (Some item) (at_index l index)) (imap pair vs) = Ok names ↔
    vs = AppStr <$> names ∧ Forall (fun name => is_bounded name = true) names.
Proof.
  rewrite (mapM_index_Ok _ (fun v s => v = AppStr s ∧ is_bounded s = true)).
  - revert names. induction vs as [|v vs IH]; intros [|s names]; simpl.
    1-3: split; [by inversion 1|by intros []].
    rewrite Forall2_cons, Forall_cons, IH. naive_solver.
  - intros i v s. rewrite expectBoundedString_Ok. naive_solver.
Qed.

#[local] Hint Resolve json_ok_values : core.

Lemma readPolicy_document v l p : ok_document v → readPolicy v l = Ok p →
  is_document v (policy_json (roots_json (fs_roots (ep_filesystem p))) p) ∧ policy_ok is_bounded p.
Proof.
  intros Hok H. unfold readPolicy in H. read_checks. simplify_eq.
  match goal with H : mapM _ (imap pair ?vs) = Ok ?rs, E : mapM _ _ = Ok ?ns, Hr : reject_if (out_of_order (_ <$> ?rs)) _ = _,
      Hn : reject_if (out_of_order ?ns) _ = _ |- _ =>
    apply read_roots_Ok in H as [Hroots ?]; [|by eauto]; apply read_strings_Ok in E as [-> ?];
    apply reject_if_Ok, out_of_order_false in Hr, Hn;
    assert (same_json (AppArr vs) (roots_json rs)) by by apply same_json_arr end.
  split; [|by split]. eexists. split; [done|]. unfold policy_json.
  cbn [ep_filesystem ep_process ep_network ep_isolation ep_pty fs_roots fs_maxReadBytes
    fs_maxDirectoryEntries pp_oneShot pp_managed pp_cleanup pp_environmentVariables]. known_fields. all: try done.
Qed.

Lemma readPolicy_accepts v l p : ok_document v →
  is_document v (policy_json (roots_json (fs_roots (ep_filesystem p))) p) → policy_ok is_bounded p →
  ∃ p', readPolicy v l = Ok p'.
Proof.
  intros Hok (w & -> & Hs) [Hr Hro Hb He Hn Hno]. unfold policy_json in Hs.
  read_fields Hs. read_nested. safe_numbers.
  match goal with H : same_json ?w (roots_json _) |- _ => apply same_arr in H as (vs & -> & Hvs) end.
  apply out_of_order_false in Hro, Hno.
  assert (∀ l, mapM (fun '(index, root) => readPolicyRoot root (at_index l index)) (imap pair vs) =
    Ok (fs_roots (ep_filesystem p))) as Hroots by (intros ?; apply read_roots_Ok; [by eauto|done]).
  assert (∀ l, mapM (fun '(index, item) => expectBoundedString (Some item) (at_index l index))
    (imap pair (AppStr <$> pp_environmentVariables (ep_process p))) = Ok (pp_environmentVariables (ep_process p)))
    as Hstrings by (intros ?; by apply read_strings_Ok).
  unfold readPolicy, strings_json in *. 
  repeat progress (run_checks; rewrite ?Hroots, ?Hstrings, ?Hro, ?Hno; cbn [expectArray]). by eexists.
Qed.

(** * Bindings *)

(** The names of the fields of a binding's document. *)
Definition field_names : list string :=
  (["revision"; "environmentId"; "providerId"; "providerRevision"; "capabilities"; "policy";
   "capabilityDigest"; "policyDigest"; "isolation"; "filesystem"; "process"; "pty"; "network";
   "secretProjection"; "artifactExport"; "enforcement"; "effects"; "oneShot"; "managed"; "cleanup";
   "supported"; "roots"; "maxReadBytes"; "maxDirectoryEntries"; "environmentVariables"; "id"]%string).

Definition known_names (names : list jstr) : Prop := names ⊆ js <$> field_names.

Ltac solve_known := apply (bool_decide_unpack _); vm_compute; exact I.

Lemma strings_known names : all_keys known_names (strings_json names).
Proof. apply all_keys_arr, Forall_fmap, Forall_true. done. Qed.

Lemma effects_known es : all_keys known_names (effects_json es).
Proof. apply all_keys_arr, Forall_fmap, Forall_true. done. Qed.

Lemma roots_known roots rs : roots_document roots rs → all_keys known_names roots.
Proof.
  intros [->|[-> _]]; [|done]. apply all_keys_arr, Forall_fmap, Forall_true. intros r.
  apply all_keys_obj. split; [solve_known|]. repeat constructor. apply effects_known.
Qed.

Lemma capabilities_known c : all_keys known_names (capabilities_json c).
Proof.
  apply all_keys_obj. split; [solve_known|].
  repeat (apply Forall_cons; split; [try done; try (apply all_keys_obj; split; [solve_known|]); repeat constructor|]);
    [apply effects_known|apply Forall_nil_2].
Qed.

Lemma policy_known roots p rs : roots_document roots rs → all_keys known_names (policy_json roots p).
Proof.
  intros Hroots%roots_known. apply all_keys_obj. split; [solve_known|].
  repeat (apply Forall_cons; split; [try done; try (apply all_keys_obj; split; [solve_known|]); repeat constructor|]);
    [done|apply strings_known|apply Forall_nil_2].
Qed.

Lemma binding_known roots b rs : roots_document roots rs → all_keys known_names (binding_json roots b).
Proof.
  intros Hroots. pose proof (policy_known roots (eb_policy b) rs Hroots).
  pose proof (capabilities_known (eb_capabilities b)). apply all_keys_obj. split; [solve_known|].
  repeat (apply Forall_cons; split; [done|]). apply Forall_nil_2.
Qed.

Lemma effects_json_ok es : json_ok (effects_json es).
Proof. apply json_ok_arr, Forall_fmap, Forall_true. done. Qed.

Lemma strings_json_ok names : json_ok (strings_json names).
Proof. apply json_ok_arr, Forall_fmap, Forall_true. done. Qed.

Lemma roots_json_ok roots rs : roots_document roots rs → json_ok roots.
Proof.
  intros [->|[-> _]]; [|done]. apply json_ok_arr, Forall_fmap, Forall_true. intros r.
  apply json_ok_obj. split; [nodup_names|]. repeat constructor. apply effects_json_ok.
Qed.

Ltac solve_json_ok :=
  first [done | apply effects_json_ok | apply strings_json_ok |
    apply json_ok_obj; split; [nodup_names|]; repeat (apply Forall_cons; split; [cbn [snd]; solve_json_ok|]);
    apply Forall_nil_2].

Lemma capabilities_json_ok c : json_ok (capabilities_json c).
Proof. unfold capabilities_json, flag_json. solve_json_ok. Qed.

Lemma policy_fields_json_ok roots p : is_positive_safe (fs_maxReadBytes (ep_filesystem p)) = true →
  is_positive_safe (fs_maxDirectoryEntries (ep_filesystem p)) = true → json_ok roots →
  json_ok (policy_json roots p).
Proof.
  intros Hb He Hroots. unfold policy_json.
  assert (∀ x, is_positive_safe x = true → json_ok (AppNum x)) as Hnum by (by intros []).
  apply Hnum in Hb, He. solve_json_ok.
Qed.

Lemma policy_json_ok id_ok roots p : policy_ok id_ok p → roots_document roots (fs_roots (ep_filesystem p)) →
  json_ok (policy_json roots p).
Proof. intros [_ _ Hb He _ _] Hroots%roots_json_ok. by apply policy_fields_json_ok. Qed.

Lemma binding_fields_json_ok roots b : json_ok (policy_json roots (eb_policy b)) → json_ok (binding_json roots b).
Proof.
  intros Hp. pose proof (capabilities_json_ok (eb_capabilities b)). unfold binding_json. solve_json_ok.
Qed.

Section spec.
Context (number_text : jsnum → jstr) `{!NumberText number_text}.
Context (localeCompare : jstr → jstr → Z) `{!CompareOrder localeCompare}.
Context (sha256 : jstr → jstr).

(** [digest]: of the parts of the binding. *)
Record binding_ok (id_ok : jstr → bool) (digest : app_json → jstr) (roots : app_json)
    (binding : ExecutionEnvironmentBinding) : Prop := {
  ok_environmentId : id_ok (eb_environmentId binding) = true;
  ok_providerId : id_ok (eb_providerId binding) = true;
  ok_providerRevision : id_ok (eb_providerRevision binding) = true;
  ok_capabilities : effects_ok (ec_effects (eb_capabilities binding));
  ok_policy : policy_ok id_ok (eb_policy binding);
  ok_roots_document : roots_document roots (fs_roots (ep_filesystem (eb_policy binding)));
  ok_capabilityDigest : is_sha256 (eb_capabilityDigest binding) = true;
  ok_policyDigest : is_sha256 (eb_policyDigest binding) = true;
  ok_capability_content : digest (capabilities_json (eb_capabilities binding)) = eb_capabilityDigest binding;
  ok_policy_content : digest (policy_json roots (eb_policy binding)) = eb_policyDigest binding;
}.

Lemma binding_json_ok id_ok digest roots b : binding_ok id_ok digest roots b → json_ok (binding_json roots b).
Proof.
  intros [_ _ _ _ Hp Hr _ _ _ _]. by eapply binding_fields_json_ok, policy_json_ok.
Qed.

Abbreviation digest := (digestJson number_text localeCompare sha256).

Hypothesis field_names_apart : told_apart localeCompare (js <$> field_names).

Lemma told_apart_known v : all_keys known_names v → all_keys (told_apart localeCompare) v.
Proof. apply all_keys_impl. intros names Hn x y Hx Hy. apply field_names_apart; by apply Hn. Qed.

Lemma digest_known v w : json_ok v → json_ok w → all_keys known_names w → same_json v w → digest v = digest w.
Proof.
  intros Hv Hw Hk Hs. unfold digestJson. f_equal. symmetry.
  apply stableJson_same; [done..|by apply told_apart_known|by apply (same_json_sym number_text)].
Qed.

Lemma digest_differs_false d (v w : option app_json) : digest_differs d v w = false ↔
  w = Some (AppStr (d (default AppNull v))).
Proof. unfold digest_differs. rewrite bool_decide_eq_false. split; [|by intros <-; intros []]. intros H. symmetry. by apply dec_stable. Qed.

(** What the checks of the runtime accept. *)
Lemma valid_binding_iff v u : json_ok v →
  assertExecutionEnvironmentBindingValid number_text localeCompare sha256 v = Ok u ↔
  ∃ roots b, same_json v (binding_json roots b) ∧ binding_ok is_opaque digest roots b.
Proof.
  intros Hok. unfold assertExecutionEnvironmentBindingValid, binding_keys. split.
  - intros H. read_checks. simplify_eq.
    repeat match goal with H : reject_if (digest_differs _ _ _) _ = _ |- _ =>
      apply reject_if_Ok, digest_differs_false in H end.
    match goal with H : check_capabilities _ = _, E : check_policy _ = _ |- _ =>
      apply check_capabilities_Ok in H as (c & (w & Hw & ?) & ?); [|by eauto];
      apply check_policy_Ok in E as (roots & p & (w' & Hw' & ?) & Hp & ?); [|by eauto];
      rewrite Hw, Hw' in * end.
    pose proof (policy_json_ok _ _ _ Hp ltac:(done)). pose proof (capabilities_json_ok c). cbn [default] in *.
    simplify_eq.
    eexists roots, (Build_ExecutionEnvironmentBinding _ _ _ c _ p _). split.
    + unfold binding_json. known_fields. all: try done.
    + split; cbn; try done; symmetry; apply digest_known; eauto using policy_known, capabilities_known.
  - intros (roots & b & Hs & [He Hp Hr Hc Hpol Hroots Hcd Hpd Hcok Hpok]). unfold binding_json in Hs.
    pose proof (policy_json_ok _ _ _ Hpol Hroots). pose proof (capabilities_json_ok (eb_capabilities b)).
    read_fields Hs.
    match goal with H : same_json ?w (capabilities_json _), E : same_json ?w' (policy_json _ _) |- _ =>
      assert (check_capabilities (Some w) = Ok tt) as Hcheck
        by (apply check_capabilities_Ok; [by eauto|]; eexists; split; [by eexists|done]);
      assert (check_policy (Some w') = Ok tt) as Hcheck'
        by (apply check_policy_Ok; [by eauto|]; eexists _, _; split_and!; [by eexists|done..]);
      apply digest_known in H, E; eauto using policy_known, capabilities_known;
      rewrite Hcok in H; rewrite Hpok in E;
      run_checks; rewrite Hcheck; run_checks; rewrite Hcheck'; run_checks;
      unfold digest_differs; cbn [default id]; rewrite H, E end.
    rewrite !bool_decide_eq_false_2 by (intros Hn; by apply Hn). by destruct u.
Qed.

(** ** The storage client *)

Abbreviation storage_digest := (storage_digestJson number_text sha256).

Lemma storage_digest_same v w : json_ok v → json_ok w → same_json v w → storage_digest v = storage_digest w.
Proof.
  intros Hv Hw Hs. unfold storage_digestJson. rewrite !storage_stableJson_arranged.
  f_equal. by apply canonical_text_iff.
Qed.

Lemma read_binding_document v l b : json_ok v →
  readExecutionEnvironmentBinding number_text sha256 (Some v) l = Ok b →
  same_json v (binding_json (own_roots b) b) ∧ binding_ok is_bounded storage_digest (own_roots b) b.
Proof.
  intros Hok H. unfold readExecutionEnvironmentBinding, binding_keys in H. read_checks. simplify_eq.
  match goal with H : readCapabilities _ _ = _, E : readPolicy _ _ = _ |- _ =>
    apply readCapabilities_Ok in H as ((w & ? & ?) & ?); [|by eauto];
    apply readPolicy_document in E as ((w' & ? & ?) & ?); [|by eauto] end.
  repeat match goal with H : reject_if (bool_decide (_ ≠ _)) _ = Ok _ |- _ =>
    apply reject_if_Ok, bool_decide_eq_false, dec_stable in H end.
  unfold own_roots. cbn [eb_policy]. split.
  - unfold binding_json. known_fields. all: try done.
  - split; cbn; try done. by left.
Qed.

Lemma read_binding_accepts v l b : json_ok v →
  same_json v (binding_json (own_roots b) b) → binding_ok is_bounded storage_digest (own_roots b) b →
  ∃ b', readExecutionEnvironmentBinding number_text sha256 (Some v) l = Ok b'.
Proof.
  intros Hok Hs [He Hp Hr Hc Hpol Hroots Hcd Hpd Hcok Hpok]. unfold binding_json, own_roots in *.
  read_fields Hs.
  match goal with H : same_json ?w (capabilities_json _), E : same_json ?w' (policy_json _ _) |- _ =>
    assert (∀ l, readCapabilities (Some w) l = Ok (eb_capabilities b)) as Hcap
      by (intros ?; apply readCapabilities_Ok; [by eauto|]; split; [by eexists|done]);
    destruct (readPolicy_accepts (Some w') (l ++ js ".policy") (eb_policy b)) as [p' Hp'];
      [by eauto|by eexists|done|];
    pose proof Hp' as ((? & [= <-] & Hsame) & Hpol')%readPolicy_document; [|by eauto];
    assert (json_ok (policy_json (roots_json (fs_roots (ep_filesystem p'))) p'))
      by (eapply policy_json_ok; [done|by left]);
    assert (json_ok (policy_json (roots_json (fs_roots (ep_filesystem (eb_policy b)))) (eb_policy b)))
      by (eapply policy_json_ok; [done|by left]);
    apply (same_json_sym number_text) in Hsame; [|by eauto..];
    eapply (same_json_trans number_text) in E; [|..|exact Hsame]; [|by eauto..];
    apply storage_digest_same in E; [|done..]; rewrite Hpok in E end.
  unfold readExecutionEnvironmentBinding, binding_keys.
  repeat progress (run_checks; rewrite ?Hcap, ?Hp').
  match goal with E : storage_digest (policy_json _ p') = _ |- _ => rewrite Hcok, E end.
  rewrite !bool_decide_eq_false_2 by (intros Hn; by apply Hn). by eexists.
Qed.
End spec.
