(* ===== verification/ExecutionBindingLaws.v ===== *)
(** The policies and bindings that the runtime makes: policies are normalised once and for all,
    and a binding that is made passes the checks of the runtime and of the storage client, where
    the locale sorts names as their units do and no variable has a long name. *)
From Stdlib Require Import Floats.SpecFloat.
From S2P Require Import Prelude JsMap Json JsStr JsonText StableJson Protocol ExecutionBinding ExecutionBindingSpec.

(** * Lists without repetition *)

Lemma NoDup_js_set {A} `{EqDecision A} (l : list A) : NoDup (js_set l).
Proof.
  unfold js_set. assert (∀ s, NoDup s → NoDup (foldl (fun s x => if decide (x ∈ s) then s else s ++ [x]) s l))
    as H; [|apply H; constructor].
  induction l as [|x l IH]; intros s Hs; simpl; [done|]. apply IH. case_decide; [done|].
  apply NoDup_app. split_and!; [done| |apply NoDup_singleton]. set_solver.
Qed.

Lemma js_set_id {A} `{EqDecision A} (l : list A) : NoDup l → js_set l = l.
Proof.
  unfold js_set. assert (∀ s, NoDup (s ++ l) → foldl (fun s x => if decide (x ∈ s) then s else s ++ [x]) s l = s ++ l)
    as H; [|apply (H [])].
  induction l as [|x l IH]; intros s Hs; simpl; [by rewrite app_nil_r|].
  rewrite decide_False.
  - rewrite IH; rewrite <-app_assoc; done.
  - apply NoDup_app in Hs as (_ & Hs & _). set_solver.
Qed.

(** ** Canonical order *)

Lemma canonical_sorted names : StronglySorted (cmp_le js_order) names → NoDup names → canonical_names names.
Proof.
  intros Hs Hnd. apply StronglySorted_Sorted.
  induction Hs as [|a names Hs IH Ha]; [constructor|]. apply NoDup_cons in Hnd as [Hin Hnd].
  constructor; [by apply IH|]. rewrite Forall_forall in Ha |- *. intros b Hb.
  specialize (Ha b Hb). rewrite js_order_le in Ha. unfold before.
  destruct (decide (js_order a b = 0)%Z) as [->%js_order_zero|]; [done|lia].
Qed.

Lemma sorted_canonical names : canonical_names names → StronglySorted (cmp_le js_order) names.
Proof.
  intros Hs%Sorted_StronglySorted; [|apply _]. eapply StronglySorted_weaken; [|exact Hs].
  intros x y Hxy. rewrite js_order_le. unfold before in Hxy. lia.
Qed.

Lemma name_sorted_effects es :
  name_of <$> sort_effects es = sort_strings (name_of <$> js_set es).
Proof. unfold sort_effects, sort_strings. by rewrite (js_sort_fmap name_of js_order). Qed.

Lemma elem_of_sort_effects e es : e ∈ sort_effects es ↔ e ∈ es.
Proof. unfold sort_effects. by rewrite js_sort_perm, elem_of_js_set. Qed.

Lemma sort_effects_canonical es : canonical_names (name_of <$> sort_effects es).
Proof.
  rewrite name_sorted_effects. apply canonical_sorted; [apply js_sort_sorted, _|].
  unfold sort_strings. rewrite js_sort_perm. apply NoDup_fmap_2; [|apply NoDup_js_set].
  intros x y. apply name_of_inj.
Qed.

Lemma sort_effects_id es : canonical_names (name_of <$> es) → sort_effects es = es.
Proof.
  intros Hes. apply (list_fmap_eq_inj name_of); [intros x y; apply name_of_inj|].
  rewrite name_sorted_effects, js_set_id by by eapply NoDup_fmap_1, canonical_NoDup.
  by apply js_sort_sorted_id, sorted_canonical.
Qed.

(** * Normal policies *)

Section policy.
Context (localeCompare : jstr → jstr → Z) `{!CompareOrder localeCompare}.

Definition normal_root (root : ExecutionRoot) : ExecutionRoot :=
  {| er_id := er_id root; er_effects := sort_effects (er_effects root) |}.

Definition compare_roots (l r : ExecutionRoot) : Z := localeCompare (er_id l) (er_id r).

(** The policy that stands for all those with the same content. *)
Definition normal_policy (policy : ExecutionPolicySnapshot) : ExecutionPolicySnapshot :=
  let filesystem := ep_filesystem policy in
  let process := ep_process policy in
  {| ep_filesystem := {|
       fs_roots := js_sort compare_roots (normal_root <$> fs_roots filesystem);
       fs_maxReadBytes := fs_maxReadBytes filesystem;
       fs_maxDirectoryEntries := fs_maxDirectoryEntries filesystem |};
     ep_process := {|
       pp_oneShot := pp_oneShot process; pp_managed := pp_managed process;
       pp_cleanup := pp_cleanup process;
       pp_environmentVariables := sort_strings (js_set (pp_environmentVariables process)) |};
     ep_network := ep_network policy; ep_isolation := ep_isolation policy; ep_pty := ep_pty policy |}.

(** The policies that can be normalised. *)
Record proper_policy (policy : ExecutionPolicySnapshot) : Prop := {
  proper_maxReadBytes : is_positive_safe (fs_maxReadBytes (ep_filesystem policy)) = true;
  proper_maxDirectoryEntries : is_positive_safe (fs_maxDirectoryEntries (ep_filesystem policy)) = true;
  proper_roots : Forall (fun r => is_opaque (er_id r) = true ∧ er_effects r ≠ [])
    (fs_roots (ep_filesystem policy));
  proper_ids : NoDup (er_id <$> fs_roots (ep_filesystem policy));
  proper_variables : Forall (fun name => is_variable_name name = true)
    (pp_environmentVariables (ep_process policy));
}.

Lemma sort_effects_nil es : sort_effects es = [] ↔ es = [].
Proof.
  split; [|by intros ->]. intros E. destruct es as [|e es]; [done|].
  assert (e ∈ sort_effects (e :: es)) as H by (apply elem_of_sort_effects; by left). rewrite E in H. by apply not_elem_of_nil in H.
Qed.

Lemma normalize_root_Ok r r' :
  normalize_root r = Ok r' ↔ is_opaque (er_id r) = true ∧ er_effects r ≠ [] ∧ r' = normal_root r.
Proof.
  unfold normalize_root. rewrite result_bind_Ok. setoid_rewrite result_bind_Ok.
  setoid_rewrite reject_if_Ok. setoid_rewrite negb_false_iff. setoid_rewrite bool_decide_eq_false.
  setoid_rewrite sort_effects_nil. unfold normal_root. naive_solver.
Qed.

Lemma mapM_checked_Ok {E A B} (f : A → result E B) (P : A → Prop) (g : A → B) l out :
  (∀ x y, f x = Ok y ↔ P x ∧ y = g x) → mapM f l = Ok out ↔ Forall P l ∧ out = g <$> l.
Proof.
  intros Hf. rewrite mapM_Ok. revert out. induction l as [|x l IH]; intros [|y out]; cbn [fmap list_fmap].
  - by split; [split|constructor].
  - split; [by inversion 1|by intros []].
  - split; [by inversion 1|by intros []].
  - rewrite Forall2_cons, Forall_cons, Hf, IH. naive_solver.
Qed.

Lemma normal_ids (rs : list ExecutionRoot) : er_id <$> (normal_root <$> rs) = er_id <$> rs.
Proof. by rewrite <-list_fmap_compose. Qed.

(** Just the proper policies are normalised. *)
Lemma normalize_Ok policy q :
  normalizeExecutionPolicy localeCompare policy = Ok q ↔
  proper_policy policy ∧ q = normal_policy policy.
Proof.
  unfold normalizeExecutionPolicy, policy_integer. rewrite !result_bind_Ok.
  setoid_rewrite result_bind_Ok. setoid_rewrite result_bind_Ok. setoid_rewrite result_bind_Ok.
  setoid_rewrite result_bind_Ok.
  setoid_rewrite (mapM_checked_Ok normalize_root
    (fun r => is_opaque (er_id r) = true ∧ er_effects r ≠ []) normal_root);
    [|intros ??; rewrite normalize_root_Ok; naive_solver].
  setoid_rewrite (mapM_checked_Ok _ (fun name => is_variable_name name = true) id);
    [|intros ??; rewrite result_bind_Ok; setoid_rewrite reject_if_Ok;
      setoid_rewrite negb_false_iff; naive_solver].
  setoid_rewrite reject_if_Ok. setoid_rewrite negb_false_iff. setoid_rewrite bool_decide_eq_false.
  setoid_rewrite list_fmap_id.
  assert (∀ rs : list ExecutionRoot, ¬ length (js_set (er_id <$> js_sort compare_roots (normal_root <$> rs))) ≠
    length (js_sort compare_roots (normal_root <$> rs)) ↔ NoDup (er_id <$> rs)) as Hdup.
  { intros rs. rewrite <-(length_fmap er_id (js_sort _ _)), <-(normal_ids rs).
    split.
    - intros E%dec_stable%length_js_set. by rewrite js_sort_perm in E.
    - intros Hnd Hn. apply Hn, length_js_set. by rewrite js_sort_perm. }
  split.
  - intros (_ & Hb & _ & He & _ & [Hr ->] & _ & Hd & _ & [Hv ->] & [= <-]).
    split; [|done]. split; [done..| |done]. by apply Hdup.
  - intros [[Hb He Hr Hd Hv] ->]. do 2 (exists tt; split; [done|]). eexists. split; [by split|].
    exists tt. split; [by apply Hdup|]. eexists. by split.
Qed.

(** ** Normal policies are fixed *)

Lemma normal_root_id r : canonical_names (name_of <$> er_effects r) → normal_root r = r.
Proof. intros Hr. unfold normal_root. rewrite sort_effects_id by done. by destruct r. Qed.

Lemma normal_policy_idem policy : normal_policy (normal_policy policy) = normal_policy policy.
Proof.
  unfold normal_policy. cbn [ep_filesystem ep_process ep_network ep_isolation ep_pty fs_roots
    fs_maxReadBytes fs_maxDirectoryEntries pp_oneShot pp_managed pp_cleanup pp_environmentVariables].
  f_equal; f_equal.
  - assert (normal_root <$> js_sort compare_roots (normal_root <$> fs_roots (ep_filesystem policy)) =
      js_sort compare_roots (normal_root <$> fs_roots (ep_filesystem policy))) as ->.
    { rewrite <-(list_fmap_id (js_sort _ _)) at 2. apply list_fmap_ext. intros i r Hr%list_elem_of_lookup_2.
      rewrite js_sort_perm in Hr. apply list_elem_of_fmap in Hr as (r' & -> & _).
      apply normal_root_id, sort_effects_canonical. }
    apply js_sort_sorted_id, js_sort_sorted, _.
  - rewrite (js_set_id (sort_strings _)); [apply sort_strings_idem|].
    unfold sort_strings. rewrite js_sort_perm. apply NoDup_js_set.
Qed.

Lemma proper_normal policy : proper_policy policy → proper_policy (normal_policy policy).
Proof.
  intros [Hb He Hr Hd Hv]. split; cbn; [done..| | |].
  - rewrite js_sort_perm, Forall_fmap. eapply Forall_impl; [exact Hr|]. intros r [? ?]. cbn.
    by rewrite sort_effects_nil.
  - by rewrite js_sort_perm, normal_ids.
  - unfold sort_strings. rewrite js_sort_perm. rewrite Forall_forall in Hv |- *.
    intros name. rewrite elem_of_js_set. auto.
Qed.
End policy.

(** * Supported policies *)

(** The environment enforces all that the policy demands. *)
Record supported (capabilities : ExecutionCapabilitySnapshot) (policy : ExecutionPolicySnapshot) : Prop := {
  supported_isolation : ep_isolation policy = EnforcedOs → ec_isolation capabilities = EnforcedOs;
  supported_network : ep_network policy = Denied → ec_network capabilities = EnforcedOs;
  supported_pty : ep_pty policy = true → ec_pty capabilities = true;
  supported_managed : pp_managed (ep_process policy) = true → ec_managed capabilities = true;
  supported_cleanup : pp_oneShot (ep_process policy) || pp_managed (ep_process policy) = true →
    pp_cleanup (ep_process policy) = DurableSupervisor → ec_cleanup capabilities = DurableSupervisor;
  supported_effects root effect : root ∈ fs_roots (ep_filesystem policy) → effect ∈ er_effects root →
    effect ∈ ec_effects capabilities;
}.

Lemma foldM_checks_Ok {E A} (f : A → result E unit) l u :
  foldM (fun _ x => f x) tt l = Ok u ↔ Forall (fun x => f x = Ok tt) l.
Proof.
  destruct u. induction l as [|x l IH]; simpl; [by split|].
  rewrite Forall_cons, result_bind_Ok, <-IH. split; [by intros ([] & ? & ?)|].
  intros [? ?]. by exists tt.
Qed.

Lemma supported_if_Ok c m u : supported_if c m = Ok u ↔ c = true.
Proof. unfold supported_if. by rewrite guard_throw_Ok, negb_false_iff. Qed.

Lemma assertExecutionPolicySupported_Ok policy capabilities u :
  assertExecutionPolicySupported policy capabilities = Ok u ↔ supported capabilities policy.
Proof.
  unfold assertExecutionPolicySupported. rewrite !result_bind_Ok.
  setoid_rewrite result_bind_Ok. setoid_rewrite result_bind_Ok. setoid_rewrite result_bind_Ok.
  setoid_rewrite result_bind_Ok. setoid_rewrite foldM_checks_Ok. setoid_rewrite foldM_checks_Ok.
  setoid_rewrite supported_if_Ok. setoid_rewrite negb_true_iff. setoid_rewrite andb_false_iff.
  setoid_rewrite bool_decide_eq_false. setoid_rewrite bool_decide_eq_true.
  split.
  - intros (_ & H1 & _ & H2 & _ & H3 & _ & H4 & _ & H5 & H6).
    split.
    + intros E. destruct H1 as [|H1]; [done|by apply dec_stable].
    + intros E. destruct H2 as [|H2]; [done|by apply dec_stable].
    + intros E. rewrite E, negb_false_iff in H3. by destruct H3.
    + intros E. rewrite E, negb_false_iff in H4. by destruct H4.
    + intros E E'. rewrite E, E', bool_decide_eq_true_2 in H5 by done.
      destruct H5; [done|by apply dec_stable].
    + intros root effect Hr He. rewrite Forall_forall in H6. specialize (H6 _ Hr).
      rewrite Forall_forall in H6. auto.
  - intros [H1 H2 H3 H4 H5 H6].
    exists tt. split; [destruct (decide (ep_isolation policy = EnforcedOs)); tauto|].
    exists tt. split; [destruct (decide (ep_network policy = Denied)); tauto|].
    exists tt. split; [destruct (ep_pty policy); [rewrite H3|]; tauto|].
    exists tt. split; [destruct (pp_managed (ep_process policy)); [rewrite H4|]; tauto|].
    exists tt. split.
    { destruct (pp_oneShot (ep_process policy) || pp_managed (ep_process policy)); [|by left].
      case_bool_decide; [|by left]. right. tauto. }
    do 2 (apply Forall_forall; intros ??). eauto.
Qed.

(** * Bindings that are made *)

Section made.
Context (number_text : jsnum → jstr) `{!NumberText number_text}.
Context (localeCompare : jstr → jstr → Z) `{!CompareOrder localeCompare}.
Context (sha256 : jstr → jstr).

Abbreviation digest := (digestJson number_text localeCompare sha256).

Definition new_binding (descriptor : ExecutionEnvironmentDescriptor)
    (capabilities : ExecutionCapabilitySnapshot) (policy : ExecutionPolicySnapshot) : ExecutionEnvironmentBinding :=
  {| eb_environmentId := ed_environmentId descriptor;
     eb_providerId := ed_providerId descriptor;
     eb_providerRevision := ed_providerRevision descriptor;
     eb_capabilities := capabilities;
     eb_capabilityDigest := digest (capabilities_json capabilities);
     eb_policy := policy;
     eb_policyDigest := digest (policy_json (roots_json (fs_roots (ep_filesystem policy))) policy) |}.

Lemma create_Ok descriptor capabilities input b :
  createExecutionEnvironmentBinding number_text localeCompare sha256 descriptor capabilities input = Ok b ↔
  proper_policy input ∧ supported capabilities (normal_policy localeCompare input) ∧
  b = new_binding descriptor capabilities (normal_policy localeCompare input).
Proof.
  unfold createExecutionEnvironmentBinding. rewrite result_bind_Ok. split.
  - intros (q & [Hp ->]%normalize_Ok & Hq). apply result_bind_Ok in Hq as (? & Hs & [= <-]).
    by apply assertExecutionPolicySupported_Ok in Hs.
  - intros (Hp & Hs & ->). eexists. split; [by apply normalize_Ok|].
    apply result_bind_Ok. exists tt. by rewrite assertExecutionPolicySupported_Ok.
Qed.
End made.

(** ** What is written is read *)

(** Runs checks on an object that is written out. *)
Ltac run_written :=
  unfold prop;
  repeat first
  [ progress (cbn [record mbind result_bind expectBoolean expectArray reject_if guard_throw negb])
  | match goal with
    | |- context [requireExactKeys ?fs ?ks ?l] =>
        replace (requireExactKeys fs ks l) with (Ok tt : R unit) by reflexivity
    | |- context [jget ?k (?p :: ?fs)] =>
        let e := eval hnf in (jget k (p :: fs)) in change (jget k (p :: fs)) with e
    | H : is_positive_safe ?x = true |- context [expectPositiveInteger (Some (AppNum ?x)) ?l] =>
        rewrite (proj2 (expectPositiveInteger_Ok (Some (AppNum x)) l x) (conj eq_refl H))
    | |- context [expectAllowed ?T (Some (json_name ?x)) ?l] =>
        rewrite (proj2 (expectAllowed_Ok (Some (json_name x)) l x) eq_refl)
    | |- context [expectRevision (Some one) ?l] =>
        replace (expectRevision (Some one) l) with (Ok tt : R unit) by reflexivity
    end ].

Lemma same_roots_refl rs : Forall2 same_json (root_json <$> rs) (root_json <$> rs).
Proof.
  apply Forall2_fmap, Forall_Forall2_diag, Forall_true. intros r.
  apply (same_json_refl parts_text), json_ok_obj. split; [nodup_names|]. repeat constructor.
  apply effects_json_ok.
Qed.

Lemma readPolicy_written p l : policy_ok is_bounded p →
  readPolicy (Some (policy_json (roots_json (fs_roots (ep_filesystem p))) p)) l = Ok p.
Proof.
  intros [Hr Hro Hb He Hn Hno]. apply out_of_order_false in Hro, Hno.
  assert (Forall json_ok (root_json <$> fs_roots (ep_filesystem p))) as Hok.
  { apply json_ok_arr. by eapply roots_json_ok; left. }
  assert (∀ l, mapM (fun '(index, root) => readPolicyRoot root (at_index l index))
    (imap pair (root_json <$> fs_roots (ep_filesystem p))) =
    Ok (fs_roots (ep_filesystem p))) as Hroots
    by (intros ?; apply read_roots_Ok; [done|split; [apply same_roots_refl|done]]).
  assert (∀ l, mapM (fun '(index, item) => expectBoundedString (Some item) (at_index l index))
    (imap pair (AppStr <$> pp_environmentVariables (ep_process p))) = Ok (pp_environmentVariables (ep_process p)))
    as Hstrings by (intros ?; by apply read_strings_Ok).
  unfold readPolicy, policy_json, roots_json.
  repeat progress (run_written; rewrite ?Hroots, ?Hstrings, ?Hro, ?Hno). by destruct p as [[] [] ? ? ?].
Qed.

Section written.
Context (number_text : jsnum → jstr) `{!NumberText number_text}.
Context (sha256 : jstr → jstr).

Lemma read_binding_written l b :
  binding_ok is_bounded (storage_digestJson number_text sha256) (own_roots b) b →
  readExecutionEnvironmentBinding number_text sha256 (Some (binding_json (own_roots b) b)) l = Ok b.
Proof.
  intros [He Hp Hr Hc Hpol Hroots Hcd Hpd Hcok Hpok].
  assert (∀ l, readCapabilities (Some (capabilities_json (eb_capabilities b))) l = Ok (eb_capabilities b)) as Hcap.
  { intros l'. pose proof (capabilities_json_ok (eb_capabilities b)).
    apply readCapabilities_Ok; [by apply ok_some|]. split; [|done]. eexists. split; [done|].
    by apply (same_json_refl parts_text). }
  assert (∀ l, readPolicy (Some (policy_json (own_roots b) (eb_policy b))) l = Ok (eb_policy b)) as Hpolicy
    by (intros ?; by apply readPolicy_written).
  unfold readExecutionEnvironmentBinding. unfold binding_json. unfold binding_keys.
  assert (∀ s l, is_bounded s = true → expectBoundedString (Some (AppStr s)) l = Ok s) as Hbounded
    by (intros; by apply expectBoundedString_Ok).
  assert (∀ s l, is_sha256 s = true → expectSha256 (Some (AppStr s)) l = Ok s) as Hsha
    by (intros; by apply expectSha256_Ok).
  repeat progress (run_written; rewrite ?Hcap, ?Hpolicy, ?Hbounded, ?Hsha by done).
  unfold own_roots in Hpok. rewrite Hcok, Hpok, !bool_decide_eq_false_2 by (intros Hn; by apply Hn).
  by destruct b.
Qed.
End written.

(** * The theorems *)

(** ** Policies *)

(** What a policy permits. *)
Definition permits (policy : ExecutionPolicySnapshot) (id : jstr) (effect : ExecutionFileEffect) : Prop :=
  ∃ root, root ∈ fs_roots (ep_filesystem policy) ∧ er_id root = id ∧ effect ∈ er_effects root.

(** A normalised policy permits the same effects on the same roots and shows the same
    variables, each once and in order; normalising it again changes nothing. *)
Theorem normalizeExecutionPolicy_normal localeCompare policy q :
  CompareOrder localeCompare → normalizeExecutionPolicy localeCompare policy = Ok q →
  normalizeExecutionPolicy localeCompare q = Ok q ∧
  (∀ id effect, permits q id effect ↔ permits policy id effect) ∧
  (∀ name, name ∈ pp_environmentVariables (ep_process q) ↔ name ∈ pp_environmentVariables (ep_process policy)) ∧
  canonical_names (pp_environmentVariables (ep_process q)) ∧
  Forall (fun root => effects_ok (er_effects root)) (fs_roots (ep_filesystem q)) ∧
  NoDup (er_id <$> fs_roots (ep_filesystem q)).
Proof.
  intros Horder [Hp ->]%normalize_Ok. pose proof (proper_normal localeCompare _ Hp) as Hn. split_and!.
  - apply normalize_Ok. by rewrite normal_policy_idem.
  - intros id effect. unfold permits. cbn. setoid_rewrite js_sort_perm. split.
    + intros (r & (r' & -> & Hr')%list_elem_of_fmap & Hid & He). exists r'.
      cbn in He. by rewrite elem_of_sort_effects in He.
    + intros (r & Hr & Hid & He). exists (normal_root r).
      split_and!; [by apply list_elem_of_fmap_2|done|by apply elem_of_sort_effects].
  - intros name. cbn. unfold sort_strings. by rewrite js_sort_perm, elem_of_js_set.
  - apply canonical_sorted; [apply js_sort_sorted, _|]. cbn. unfold sort_strings. rewrite js_sort_perm. apply NoDup_js_set.
  - cbn. rewrite js_sort_perm, Forall_fmap. destruct Hp as [_ _ Hr _ _].
    eapply Forall_impl; [exact Hr|]. intros r [_ He]. split; cbn; [by rewrite sort_effects_nil|].
    apply sort_effects_canonical.
  - apply Hn.
Qed.

(** ** Bindings *)

Section theorems.
Context (number_text : jsnum → jstr) `{!NumberText number_text}.
Context (localeCompare : jstr → jstr → Z) `{!CompareOrder localeCompare}.
Context (sha256 : jstr → jstr).

Abbreviation create := (createExecutionEnvironmentBinding number_text localeCompare sha256).
Abbreviation valid := (assertExecutionEnvironmentBindingValid number_text localeCompare sha256).
Abbreviation stored := (readExecutionEnvironmentBinding number_text sha256).

Lemma plain_told_apart names : plain_names localeCompare names → told_apart localeCompare names.
Proof.
  intros [Hsign _] x y Hx Hy Hxy. apply js_order_zero.
  pose proof (Hsign x y Hx Hy). pose proof (Hsign y x Hy Hx). pose proof (js_order_opp x y).
  pose proof (compare_opp (cmp := localeCompare) x y). lia.
Qed.

Lemma is_opaque_bounded s : is_opaque s = true → is_bounded s = true.
Proof. unfold is_opaque. by intros [? _]%andb_true_iff. Qed.

Lemma policy_ok_bounded p : policy_ok is_opaque p → policy_ok is_bounded p.
Proof.
  intros [Hr ? ? ? ? ?]. split; try done. eapply Forall_impl; [exact Hr|].
  intros r [Hid He]. split; [by apply is_opaque_bounded|done].
Qed.

(** The locale sorts the names of the roots as their units do. *)
Definition roots_sorted_alike (policy : ExecutionPolicySnapshot) : Prop :=
  ∀ r r', r ∈ fs_roots (ep_filesystem policy) → r' ∈ fs_roots (ep_filesystem policy) →
    (localeCompare (er_id r) (er_id r') < 0 ↔ js_order (er_id r) (er_id r') < 0)%Z.

Lemma normal_policy_ok policy : proper_policy policy → roots_sorted_alike policy →
  Forall (fun name => length name ≤ 256) (pp_environmentVariables (ep_process policy)) →
  policy_ok is_opaque (normal_policy localeCompare policy).
Proof.
  intros Hp Halike Hlen. pose proof (proper_normal localeCompare _ Hp) as [_ _ _ Hd _].
  destruct Hp as [Hb He Hr _ Hv]. split; try done.
  - cbn. rewrite js_sort_perm, Forall_fmap. eapply Forall_impl; [exact Hr|]. intros r [Hid Hne].
    split; [done|]. split; cbn; [by rewrite sort_effects_nil|apply sort_effects_canonical].
  - apply canonical_sorted; [|done]. cbn.
    rewrite (js_sort_ext (compare_roots localeCompare) (fun l r => js_order (er_id l) (er_id r))).
    + rewrite (js_sort_fmap er_id js_order). apply js_sort_sorted, _.
    + intros r r' (s & -> & Hs)%list_elem_of_fmap (s' & -> & Hs')%list_elem_of_fmap. exact (Halike s s' Hs Hs').
  - cbn. unfold sort_strings. rewrite js_sort_perm. rewrite Forall_forall in Hv, Hlen |- *.
    intros name. rewrite elem_of_js_set. intros Hin. specialize (Hv _ Hin). specialize (Hlen _ Hin).
    apply bool_decide_eq_true_2. split; [|done]. by destruct name; [|simpl; lia].
  - apply canonical_sorted; [apply js_sort_sorted, _|]. cbn. unfold sort_strings.
    rewrite js_sort_perm. apply NoDup_js_set.
Qed.

(** ** What a valid document says *)

Lemma same_field_values fs gs k v w : NoDup fs.*1 → NoDup gs.*1 → same_json (AppObj fs) (AppObj gs) →
  jget k fs = Some v → jget k gs = Some w → same_json v w.
Proof.
  intros Hfs Hgs [_ H]%same_obj_fields Hv Hw; [|done..].
  apply jget_elem_of in Hw. destruct (H _ _ Hw) as (v' & Hv' & Hs). congruence.
Qed.

Lemma same_root_ids rs rs' :
  Forall2 same_json (root_json <$> rs) (root_json <$> rs') → er_id <$> rs = er_id <$> rs'.
Proof.
  rewrite Forall2_fmap. induction 1 as [|r r' rs rs' Hr _ IH]; [done|]. cbn [fmap list_fmap].
  f_equal; [|done]. unfold root_json in Hr.
  apply (same_field_values _ _ (js "id") (AppStr (er_id r)) (AppStr (er_id r'))) in Hr; [|nodup_names..|done|done].
  by apply same_str in Hr as [= ->].
Qed.

Lemma strings_json_same l l' : same_json (strings_json l) (strings_json l') → l = l'.
Proof.
  unfold strings_json. intros H%same_json_arr. revert l' H.
  induction l as [|x l IH]; intros [|y l'] H; cbn in H; inversion H; subst; [done|].
  f_equal; [|by apply IH]. by match goal with E : same_json (AppStr _) _ |- _ => apply same_str in E as [= ->] end.
Qed.

(** The roots and the variables of a binding that is valid as a document: the roots are sorted by
    their units, and no variable has a long name. *)
Lemma valid_document binding u : told_apart localeCompare (js <$> field_names) →
  json_ok (binding_json (own_roots binding) binding) →
  valid (binding_json (own_roots binding) binding) = Ok u →
  canonical_names (er_id <$> fs_roots (ep_filesystem (eb_policy binding))) ∧
  Forall (fun name => is_bounded name = true) (pp_environmentVariables (ep_process (eb_policy binding))).
Proof.
  intros Hnames Hj Hv. apply valid_binding_iff in Hv as (roots & b & Hs & [_ _ _ _ [_ Hro _ _ Hnm _] Hroots _ _ _ _]); [|done..].
  unfold binding_json in Hs.
  apply (same_field_values _ _ (js "policy") (policy_json (own_roots binding) (eb_policy binding))
    (policy_json roots (eb_policy b))) in Hs; [|nodup_names..|reflexivity|reflexivity].
  unfold policy_json in Hs. split.
  - eapply (same_field_values _ _ (js "filesystem")) in Hs; [|nodup_names..|reflexivity|reflexivity].
    apply (same_field_values _ _ (js "roots") (own_roots binding) roots) in Hs;
      [|nodup_names..|reflexivity|reflexivity].
    destruct Hroots as [->|[-> _]]; [|done].
    apply same_json_arr, same_root_ids in Hs. by rewrite Hs.
  - eapply (same_field_values _ _ (js "process")) in Hs; [|nodup_names..|reflexivity|reflexivity].
    eapply (same_field_values _ _ (js "environmentVariables")) in Hs;
      [|nodup_names..|reflexivity|reflexivity].
    apply strings_json_same in Hs. by rewrite Hs.
Qed.

Lemma created_names_short descriptor capabilities input binding u :
  told_apart localeCompare (js <$> field_names) → create descriptor capabilities input = Ok binding →
  valid (binding_json (own_roots binding) binding) = Ok u →
  Forall (fun name => length name ≤ 256) (pp_environmentVariables (ep_process input)).
Proof.
  intros Hnames (Hp & _ & ->)%create_Ok Hv. apply valid_document in Hv as [_ Hv]; [|done|].
  - rewrite Forall_forall in Hv |- *. intros name Hin.
    assert (is_bounded name = true) as Hb.
    { apply Hv. cbn. unfold sort_strings. by rewrite js_sort_perm, elem_of_js_set. }
    by apply bool_decide_eq_true in Hb as [_ ?].
  - apply binding_fields_json_ok, policy_fields_json_ok; [apply Hp..|]. by eapply roots_json_ok; left.
Qed.

(** (C15) A binding that is made for opaque names and canonical capabilities passes the checks of the runtime, and
    the storage client reads it back, where the locale sorts the names of its fields and roots as
    their units do, exactly when no environment variable has a name of more than 256 units: the
    normalisation of a policy lets longer ones through, which the checks refuse. *)
Theorem createExecutionEnvironmentBinding_accepted descriptor capabilities input binding label :
  plain_names localeCompare (js <$> field_names) → (∀ text, is_sha256 (sha256 text) = true) →
  is_opaque (ed_environmentId descriptor) = true → is_opaque (ed_providerId descriptor) = true →
  is_opaque (ed_providerRevision descriptor) = true → effects_ok (ec_effects capabilities) →
  roots_sorted_alike input → create descriptor capabilities input = Ok binding →
  let short := Forall (fun name => length name ≤ 256) (pp_environmentVariables (ep_process input)) in
  (valid (binding_json (own_roots binding) binding) = Ok tt ↔ short) ∧
  (short → stored (Some (binding_json (own_roots binding) binding)) label = Ok binding).
Proof.
  intros Hplain Hsha He Hp Hr Hc Halike Hcreate short.
  enough (short → valid (binding_json (own_roots binding) binding) = Ok tt ∧
    stored (Some (binding_json (own_roots binding) binding)) label = Ok binding) as Hshort.
  { split; [split|]; [|naive_solver..]. intros Hv. by eapply created_names_short; [apply plain_told_apart|..]. }
  intros Hlen. apply create_Ok in Hcreate as (Hproper & _ & ->).
  pose proof (normal_policy_ok _ Hproper Halike Hlen) as Hok.
  set (p := normal_policy localeCompare input) in *.
  assert (json_ok (policy_json (roots_json (fs_roots (ep_filesystem p))) p)) as Hpj
    by (eapply policy_json_ok; [done|by left]).
  pose proof (capabilities_json_ok capabilities) as Hcj.
  assert (∀ v, json_ok v → all_keys known_names v → stableJson number_text localeCompare v = storage_stableJson number_text v)
    as Htexts.
  { intros v Hv Hk. apply stable_texts_agree; [done|]. eapply all_keys_impl; [|exact Hk].
    intros names Hn. destruct Hplain as [Hsign Hindex]. split; intros; [apply Hsign|apply Hindex]; by apply Hn. }
  set (b := new_binding _ _ _ _ _ _).
  assert (binding_ok is_opaque (digestJson number_text localeCompare sha256) (own_roots b) b) as Hb
    by (split; try done; [by left|apply Hsha..]).
  pose proof (binding_json_ok _ _ _ _ Hb) as Hj. split.
  - apply valid_binding_iff; [done|done|by apply plain_told_apart|done|].
    exists (own_roots b), b. split; [by apply (same_json_refl number_text)|done].
  - apply read_binding_written. destruct Hb as [_ _ _ _ _ Hroots ? ? ? ?].
    split; try done; try by apply is_opaque_bounded.
    + by apply policy_ok_bounded.
    + apply (f_equal sha256). symmetry. apply Htexts; [exact Hcj|apply capabilities_known].
    + apply (f_equal sha256). symmetry. apply Htexts; [exact Hpj|].
      by apply (policy_known _ _ (fs_roots (ep_filesystem p))); left.
Qed.

(** (C16) A binding is taken for the one that was admitted exactly when both are valid documents
    that are equal but for the order of their fields. *)
Theorem assertExecutionEnvironmentBindingEqual_iff actual expected label :
  told_apart localeCompare (js <$> field_names) → json_ok actual → json_ok expected →
  assertExecutionEnvironmentBindingEqual number_text localeCompare sha256 actual expected label = Ok tt ↔
  valid actual = Ok tt ∧ valid expected = Ok tt ∧ same_json actual expected.
Proof.
  intros Hnames Ha He. unfold assertExecutionEnvironmentBindingEqual. split.
  - intros H. apply result_bind_Ok in H as ([] & Hva & H). apply result_bind_Ok in H as ([] & Hve & H).
    apply reject_if_Ok, bool_decide_eq_false, dec_stable in H. split_and!; [done..|].
    by eapply stableJson_inj.
  - intros (Hva & Hve & Hsame). rewrite Hva, Hve. cbn [mbind result_bind].
    apply reject_if_Ok, bool_decide_eq_false. intros Hn. apply Hn.
    apply valid_binding_iff in Hva as (roots & b & Hb & Hok); [|done..].
    pose proof (binding_json_ok _ _ _ _ Hok) as Hj.
    assert (all_keys (told_apart localeCompare) (binding_json roots b)) as Hk.
    { eapply told_apart_known; [done|]. destruct Hok. by eapply binding_known. }
    apply (same_json_sym number_text) in Hb; [|done..].
    rewrite <-(stableJson_same number_text localeCompare (binding_json roots b) actual) by done.
    rewrite <-(stableJson_same number_text localeCompare (binding_json roots b) expected); [done..|].
    by apply (same_json_trans number_text _ actual).
Qed.

(** ** Where the locale sorts otherwise *)

Lemma sorted_pair {A} (R S : A → A → Prop) l x y : StronglySorted R l → StronglySorted S l →
  x ∈ l → y ∈ l → x ≠ y → (R x y ∧ S x y) ∨ (R y x ∧ S y x).
Proof.
  intros HR HS Hx Hy Hne. induction HR as [|z l HR IH Hz]; [by apply not_elem_of_nil in Hx|].
  apply StronglySorted_inv in HS as [HS Hz']. rewrite Forall_forall in Hz, Hz'.
  apply elem_of_cons in Hx as [->|Hx], Hy as [->|Hy]; [done|auto..].
Qed.

(** Where the locale sorts the names of two roots against their units, a binding is made that
    the checks reject. *)
Lemma created_binding_rejected descriptor capabilities input binding r r' u :
  told_apart localeCompare (js <$> field_names) → 
  create descriptor capabilities input = Ok binding →
  r ∈ fs_roots (ep_filesystem input) → r' ∈ fs_roots (ep_filesystem input) →
  (localeCompare (er_id r) (er_id r') < 0)%Z → (js_order (er_id r') (er_id r) < 0)%Z →
  valid (binding_json (own_roots binding) binding) ≠ Ok u.
Proof.
  intros Hnames (Hp & _ & ->)%create_Ok Hr Hr' Hlocale Hunits Hv.
  apply valid_document in Hv as [Hv _]; [|done|].
  - apply Sorted_StronglySorted in Hv; [|apply _]. cbn in Hv.
    assert (StronglySorted (cmp_le localeCompare) (er_id <$> js_sort (compare_roots localeCompare)
      (normal_root <$> fs_roots (ep_filesystem input)))) as Hs
      by (rewrite (js_sort_fmap er_id localeCompare); apply js_sort_sorted, _).
    assert (∀ s, s ∈ fs_roots (ep_filesystem input) → er_id s ∈ er_id <$> js_sort (compare_roots localeCompare)
      (normal_root <$> fs_roots (ep_filesystem input))) as Hin.
    { intros s Hs'. rewrite js_sort_perm, normal_ids. by apply list_elem_of_fmap_2. }
    destruct (sorted_pair _ _ _ (er_id r) (er_id r') Hv Hs) as [[Hb _]|[_ Hc]]; [by auto..| | |].
    + intros E. rewrite E in Hunits. pose proof (js_order_opp (er_id r') (er_id r')). lia.
    + unfold before in Hb. pose proof (js_order_opp (er_id r) (er_id r')). lia.
    + by apply Hc.
  - apply binding_fields_json_ok, policy_fields_json_ok; [apply Hp..|]. by eapply roots_json_ok; left.
Qed.
End theorems.

(** * Application scopes *)

Section scopes.
Context (number_text : jsnum → jstr) `{!NumberText number_text}.
Context (localeCompare : jstr → jstr → Z) `{!CompareOrder localeCompare}.
Context (sha256 : jstr → jstr).

Abbreviation create_scope := (createApplicationScopeBinding number_text localeCompare sha256).
Abbreviation valid_scope := (assertApplicationScopeBindingValid number_text localeCompare sha256).
Abbreviation stored_scope := (readApplicationScopeBinding number_text sha256).

(** The document of a scope with its digest. *)
Definition scope_document (kind id : jstr) (metadata : app_json) (digest : jstr) : app_json :=
  AppObj (scope_json kind id metadata ++ [(js "digest", AppStr digest)]).

Lemma create_scope_Ok kind id metadata document :
  create_scope kind id metadata = Ok document ↔
  is_bounded kind = true ∧ is_bounded id = true ∧
  document = scope_document kind id metadata
    (digestJson number_text localeCompare sha256 (AppObj (scope_json kind id metadata))).
Proof.
  unfold createApplicationScopeBinding, requireScopeString, boundedString, scope_document.
  destruct (is_bounded kind), (is_bounded id); cbn; naive_solver.
Qed.

(** What the storage client reads of a scope: its parts, if the digest is that of its own text. *)
Lemma read_scope_Ok kind id metadata digest label r :
  stored_scope (Some (scope_document kind id metadata digest)) label = Ok r ↔
  is_bounded kind = true ∧ is_bounded id = true ∧ is_sha256 digest = true ∧
  storage_digestJson number_text sha256 (AppObj (scope_json kind id metadata)) = digest ∧
  r = (kind, id, digest, metadata).
Proof.
  unfold readApplicationScopeBinding, scope_document, scope_json. cbn [app]. run_written.
  split.
  - intros H. read_checks. simplify_eq.
    repeat match goal with H : reject_if (bool_decide (_ ≠ _)) _ = Ok _ |- _ =>
      apply reject_if_Ok, bool_decide_eq_false, dec_stable in H end. done.
  - intros (Hk & Hi & Hd & Hs & ->).
    repeat (rewrite (proj2 (expectBoundedString_Ok _ _ _) (conj eq_refl Hk)) ||
      rewrite (proj2 (expectBoundedString_Ok _ _ _) (conj eq_refl Hi)) ||
      rewrite (proj2 (expectSha256_Ok _ _ _) (conj eq_refl Hd)); cbn [mbind result_bind]).
    rewrite Hs, bool_decide_eq_false_2 by (intros Hn; by apply Hn). done.
Qed.

Lemma scope_json_ok kind id metadata : json_ok metadata → json_ok (AppObj (scope_json kind id metadata)).
Proof. intros Hm. unfold scope_json. solve_json_ok. Qed.

Lemma valid_scope_fields fields kind id d :
  length fields = 4 → forallb (fun key => bool_decide (js key ∈ fields.*1)) ["kind"; "id"; "digest"; "metadata"]%string = true →
  jget (js "kind") fields = Some (AppStr kind) → jget (js "id") fields = Some (AppStr id) →
  jget (js "digest") fields = Some (AppStr d) →
  is_bounded kind = true → is_bounded id = true → is_sha256 d = true →
  digestJson number_text localeCompare sha256 (AppObj (without_digest fields)) = d →
  valid_scope (AppObj fields) = Ok tt.
Proof.
  intros Hlen Hkeys Hkind Hid Hdigest Hk Hi Hd Hcontent.
  unfold assertApplicationScopeBindingValid, prop, requireScopeString, boundedString.
  rewrite Hlen, Hkeys, Hkind, Hid, Hdigest, Hk, Hi, Hcontent. cbn [to_text]. rewrite Hd.
  cbn [mbind result_bind reject_if guard_throw negb orb bool_decide decide_rel].
  by rewrite !bool_decide_eq_false_2 by (intros Hn; by apply Hn).
Qed.

Definition scope_names : list jstr := js <$> (["kind"; "id"; "metadata"]%string).

(** A scope that is made passes the checks of the runtime, whatever the locale; the storage
    client reads its parts back where the locale sorts the names of its fields as their units
    do and none is like an array's index. *)
Theorem createApplicationScopeBinding_accepted kind id metadata document label :
  (∀ text, is_sha256 (sha256 text) = true) →
  create_scope kind id metadata = Ok document →
  valid_scope document = Ok tt ∧
  (json_ok metadata → all_keys (plain_names localeCompare) metadata →
   plain_names localeCompare scope_names →
   ∃ digest, stored_scope (Some document) label = Ok (kind, id, digest, metadata)).
Proof.
  intros Hsha (Hk & Hi & ->)%create_scope_Ok. split.
  - by eapply valid_scope_fields; [reflexivity..|exact Hk|exact Hi|apply Hsha|reflexivity].
  - intros Hm Hkeys Hplain. eexists. apply read_scope_Ok. split_and!; [done..|apply Hsha| |done].
    apply (f_equal sha256). symmetry. apply stable_texts_agree; [by apply scope_json_ok|].
    apply all_keys_obj. split; [done|]. by repeat constructor.
Qed.

(** Where the locale puts a small letter before a capital one, the storage client rejects a
    scope that the runtime has made, unless two texts have one digest. *)
Lemma created_scope_rejected metadata document label r :
  metadata = AppObj [(js "a", AppNull); (js "B", AppNull)] →
  plain_names localeCompare scope_names → (localeCompare (js "a") (js "B") < 0)%Z →
  create_scope (js "application") (js "1") metadata = Ok document →
  stored_scope (Some document) label = Ok r →
  ∃ s t, s ≠ t ∧ sha256 s = sha256 t.
Proof.
  intros -> [Hplain _] HaB (_ & _ & ->)%create_scope_Ok (_ & _ & _ & Hs & _)%read_scope_Ok.
  eexists _, _. split; [|exact Hs]. clear Hs. intros Htext.
  assert (¬ (localeCompare (js "B") (js "a") < 0)%Z) as HBa
    by (pose proof (compare_opp (cmp := localeCompare) (js "a") (js "B")); lia).
  unfold stableJson, sortJson in Htext. rewrite storage_stableJson_arranged in Htext.
  set (arrange := fun entries : list (jstr * app_json) => from_entries
    (js_sort (fun l r => localeCompare l.1 r.1) entries)) in Htext.
  assert (arranged arrange (AppObj [(js "a", AppNull); (js "B", AppNull)]) =
    AppObj [(js "a", AppNull); (js "B", AppNull)]) as Hm.
  { rewrite arranged_obj. f_equal.
    change (arranged_field arrange <$> _) with [(js "a", AppNull); (js "B", AppNull)].
    unfold arrange, js_sort. cbn [foldl js_insert fst]. by rewrite decide_False. }
  rewrite !arranged_obj in Htext. unfold scope_json in Htext. cbn [fmap list_fmap] in Htext.
  unfold arranged_field in Htext. cbn [fst snd] in Htext. rewrite Hm in Htext.
  assert (∀ v, arrange [(js "kind", AppStr (js "application")); (js "id", AppStr (js "1")); (js "metadata", v)] =
    from_entries (js_sort (fun l r => js_order l.1 r.1)
      [(js "kind", AppStr (js "application")); (js "id", AppStr (js "1")); (js "metadata", v)])) as Hs.
  { intros v. unfold arrange. f_equal. apply js_sort_ext. intros x y Hx Hy.
    apply Hplain; apply (list_elem_of_fmap_2 fst) in Hx, Hy; done. }
  cbn [arranged] in Htext. rewrite Hs in Htext. vm_compute in Htext. done.
Qed.
End scopes.

(** * Examples *)

Definition sample_sha (text : jstr) : jstr := repeat 97%N 64.

Definition sample_descriptor : ExecutionEnvironmentDescriptor := {|
  ed_environmentId := js "local"; ed_providerId := js "node"; ed_providerRevision := js "1";
  ed_kind := js "local" |}.

Definition sample_capabilities : ExecutionCapabilitySnapshot := {|
  ec_isolation := EnforcedNone; ec_filesystem := LibraryGuard;
  ec_effects := [EffectCreate; EffectRead; EffectWrite]; ec_managed := true;
  ec_cleanup := RuntimeProcessTree; ec_pty := false; ec_network := EnforcedNone;
  ec_secretProjection := true; ec_artifactExport := false |}.

Definition sample_policy : ExecutionPolicySnapshot := {|
  ep_filesystem := {|
    fs_roots := [{| er_id := js "workspace"; er_effects := [EffectWrite; EffectRead; EffectWrite] |};
                 {| er_id := js "cache"; er_effects := [EffectRead] |}];
    fs_maxReadBytes := num_of_Z 65536; fs_maxDirectoryEntries := num_of_Z 100 |};
  ep_process := {| pp_oneShot := true; pp_managed := false; pp_cleanup := RuntimeProcessTree;
    pp_environmentVariables := [js "PATH"; js "HOME"; js "PATH"] |};
  ep_network := Unrestricted; ep_isolation := EnforcedNone; ep_pty := false |}.

Definition sample_binding : ExecutionEnvironmentBinding :=
  new_binding parts_text js_order sample_sha sample_descriptor sample_capabilities
    (normal_policy js_order sample_policy).

Lemma normalizeExecutionPolicy_normal_witness :
  let q := normal_policy js_order sample_policy in
  normalizeExecutionPolicy js_order q = Ok q ∧
  (∀ id effect, permits q id effect ↔ permits sample_policy id effect) ∧
  (∀ name, name ∈ pp_environmentVariables (ep_process q) ↔
    name ∈ pp_environmentVariables (ep_process sample_policy)) ∧
  canonical_names (pp_environmentVariables (ep_process q)) ∧
  Forall (fun root => effects_ok (er_effects root)) (fs_roots (ep_filesystem q)) ∧
  NoDup (er_id <$> fs_roots (ep_filesystem q)).
Proof.
  apply (normalizeExecutionPolicy_normal js_order sample_policy); [apply _|vm_compute; reflexivity].
Defined.

Lemma field_names_plain : plain_names js_order (js <$> field_names).
Proof.
  split; [done|]. intros k (name & -> & Hname)%list_elem_of_fmap. revert name Hname.
  apply Forall_forall, (bool_decide_unpack _). vm_compute. exact I.
Qed.

Lemma sample_created : createExecutionEnvironmentBinding parts_text js_order sample_sha
  sample_descriptor sample_capabilities sample_policy = Ok sample_binding.
Proof. vm_compute. reflexivity. Qed.

Lemma createExecutionEnvironmentBinding_accepted_witness :
  let short := Forall (fun name => length name ≤ 256)
    (pp_environmentVariables (ep_process sample_policy)) in
  short ∧
  (assertExecutionEnvironmentBindingValid parts_text js_order sample_sha
     (binding_json (own_roots sample_binding) sample_binding) = Ok tt ↔ short) ∧
  (short → readExecutionEnvironmentBinding parts_text sample_sha
     (Some (binding_json (own_roots sample_binding) sample_binding)) (js "binding") = Ok sample_binding).
Proof.
  split; [apply (bool_decide_unpack _); vm_compute; exact I|].
  apply (createExecutionEnvironmentBinding_accepted parts_text js_order sample_sha
    sample_descriptor sample_capabilities sample_policy).
  - exact field_names_plain.
  - reflexivity.
  - reflexivity.
  - reflexivity.
  - reflexivity.
  - split; [done|]. apply out_of_order_false. reflexivity.
  - intros r r' _ _. reflexivity.
  - exact sample_created.
Defined.

(** A policy with a variable whose name is long is normalised, and bound, but the binding is
    refused. *)
Definition long_policy : ExecutionPolicySnapshot := {|
  ep_filesystem := ep_filesystem sample_policy;
  ep_process := {| pp_oneShot := true; pp_managed := false;
    pp_cleanup := pp_cleanup (ep_process sample_policy);
    pp_environmentVariables := [replicate 257 65%N] |};
  ep_network := ep_network sample_policy; ep_isolation := ep_isolation sample_policy;
  ep_pty := ep_pty sample_policy |}.

Lemma long_variable_rejected : ∃ binding message,
  createExecutionEnvironmentBinding parts_text js_order sample_sha sample_descriptor
    sample_capabilities long_policy = Ok binding ∧
  assertExecutionEnvironmentBindingValid parts_text js_order sample_sha
    (binding_json (own_roots binding) binding) = Throw message.
Proof. eexists _, _. split; [vm_compute; reflexivity|]. vm_compute. reflexivity. Qed.

(** The fields of a document in another order. *)
Definition reversed_fields (document : app_json) : app_json :=
  match document with AppObj fields => AppObj (reverse fields) | _ => document end.

Lemma assertExecutionEnvironmentBindingEqual_iff_witness :
  let document := binding_json (own_roots sample_binding) sample_binding in
  assertExecutionEnvironmentBindingEqual parts_text js_order sample_sha document
    (reversed_fields document) (js "binding") = Ok tt ↔
  assertExecutionEnvironmentBindingValid parts_text js_order sample_sha document = Ok tt ∧
  assertExecutionEnvironmentBindingValid parts_text js_order sample_sha (reversed_fields document) = Ok tt ∧
  same_json document (reversed_fields document).
Proof.
  assert (json_ok (binding_json (own_roots sample_binding) sample_binding)) as Hok.
  { apply binding_fields_json_ok, policy_fields_json_ok; [reflexivity..|]. by eapply roots_json_ok; left. }
  apply (assertExecutionEnvironmentBindingEqual_iff parts_text js_order sample_sha).
  - apply (plain_told_apart js_order), field_names_plain.
  - exact Hok.
  - apply json_ok_obj in Hok as [Hnd Hok]. apply json_ok_obj. by rewrite fmap_reverse, !reverse_Permutation.
Defined.

Example sample_reversed : assertExecutionEnvironmentBindingEqual parts_text js_order sample_sha
  (binding_json (own_roots sample_binding) sample_binding)
  (reversed_fields (binding_json (own_roots sample_binding) sample_binding)) (js "binding") = Ok tt.
Proof. vm_compute. reflexivity. Qed.

Definition sample_metadata : app_json := AppObj [(js "theme", AppStr (js "dark")); (js "port", AppNum (num_of_Z 8080))].

Lemma createApplicationScopeBinding_accepted_witness :
  ∃ document, createApplicationScopeBinding parts_text js_order sample_sha (js "desktop") (js "1")
      sample_metadata = Ok document ∧
    assertApplicationScopeBindingValid parts_text js_order sample_sha document = Ok tt ∧
    ∃ digest, readApplicationScopeBinding parts_text sample_sha (Some document) (js "scope") =
      Ok (js "desktop", js "1", digest, sample_metadata).
Proof.
  eexists. split; [reflexivity|].
  match goal with |- _ ?d = Ok tt ∧ _ =>
    destruct (createApplicationScopeBinding_accepted parts_text js_order sample_sha (js "desktop") (js "1")
      sample_metadata d (js "scope")) as [Hvalid Hstored] end; [reflexivity|reflexivity|].
  split; [exact Hvalid|]. apply Hstored.
  - apply json_ok_obj. split; [apply (bool_decide_unpack _); vm_compute; exact I|by repeat constructor].
  - apply all_keys_obj. split; [split|by repeat constructor].
    + intros k k' _ _. reflexivity.
    + apply Forall_forall, (bool_decide_unpack _). vm_compute. exact I.
  - split; [intros k k' _ _; reflexivity|]. apply Forall_forall, (bool_decide_unpack _). vm_compute. exact I.
Defined.

(** The runtime takes an empty text for a list of no roots; the storage client does not. *)
Definition rootless_policy : ExecutionPolicySnapshot := {|
  ep_filesystem := {| fs_roots := []; fs_maxReadBytes := num_of_Z 1; fs_maxDirectoryEntries := num_of_Z 1 |};
  ep_process := ep_process (normal_policy js_order sample_policy);
  ep_network := Unrestricted; ep_isolation := EnforcedNone; ep_pty := false |}.

Definition rootless_document : app_json :=
  binding_json (AppStr []) (new_binding parts_text js_order sample_sha sample_descriptor
    sample_capabilities rootless_policy).

Lemma empty_roots_accepted :
  assertExecutionEnvironmentBindingValid parts_text js_order sample_sha rootless_document = Ok tt ∧
  readExecutionEnvironmentBinding parts_text sample_sha (Some rootless_document) (js "b") =
    Throw (BindingError (js "b.policy.filesystem.roots must be an array")).
Proof. split; vm_compute; reflexivity. Qed.
