(* ===== verification/StorageCodec.v ===== *)
(** The storage RPC codec of the scheduler and of the delegation graph
    ([packages/storage/src/codec-common.ts], [codec-scheduler-enums.ts],
    [codec-graph-enums.ts], [codec-job.ts], [codec-graph-records.ts],
    [codec-delegation-requests.ts]): records are read from the rows the service
    serialises ([crates/system-service/src/models.rs]), requests are written as
    wire objects.  Every decoder is characterised by the fields it accepts. *)
From S2P Require Import Prelude JsMap Json Protocol.

(** * Common decoders ([codec-common.ts]) *)

(** What a decoder throws: the message of the [Error]. *)
Abbreviation codecM := (result string).

(** A property of a decoded object; [None] is [undefined]. *)
Abbreviation property := (option json).

Definition isRecord (v : json) : option (list (string * json)) :=
  match v with JObj fs => Some fs | _ => None end.

(** [if (!isRecord(value)) throw ...] *)
Definition expectRecord (v : json) (message : string) : codecM (list (string * json)) :=
  match isRecord v with Some fs => Ok fs | None => Throw message end.

Definition expectString (v : property) (name : string) : codecM string :=
  match v with Some (JStr s) => Ok s | _ => Throw (name +:+ " must be a string") end.

Definition expectNumber (v : property) (name : string) : codecM jsnum :=
  match v with Some (JNum x) => Ok x | _ => Throw (name +:+ " must be a number") end.

Definition expectJsonField (v : property) (name : string) : codecM json :=
  match v with Some x => Ok x | None => Throw (name +:+ " must be present") end.

Definition assertArray (v : json) (name : string) : codecM (list json) :=
  match v with JArr l => Ok l | _ => Throw (name +:+ " must be an array") end.

(** [value ?? undefined] *)
Definition nullish (v : property) : property :=
  match v with Some JNull => None | _ => v end.

Definition optionalString (v : property) (name : string) : codecM (option string) :=
  match v with
  | None | Some JNull => Ok None
  | _ => Some <$> expectString v name
  end.

Definition optionalNumber (v : property) (name : string) : codecM (option jsnum) :=
  match v with
  | None | Some JNull => Ok None
  | _ => Some <$> expectNumber v name
  end.

(** A copy of the value, rebuilt by [map] and [Object.fromEntries]. *)
Fixpoint toRpcJsonValue (v : json) : json :=
  match v with
  | JArr l => JArr (toRpcJsonValue <$> l)
  | JObj fs => JObj ((fun '(k, x) => (k, toRpcJsonValue x)) <$> fs)
  | _ => v
  end.

(** * Decoders of the string unions ([codec-scheduler-enums.ts],
    [codec-graph-enums.ts]) *)

Definition expectEnum {T} `{StringEnum T} (v : property) (name what : string) : codecM T :=
  s ← expectString v name;
  match parse_enum s with
  | Some x => Ok x
  | None => Throw ("invalid " +:+ what +:+ ": " +:+ s)
  end.

Definition expectDelegationGraphState (v : property) : codecM DelegationGraphState :=
  expectEnum v "delegation_graph.state" "delegation graph state".

Definition expectDelegationNodeKind (v : property) : codecM DelegationNodeKind :=
  expectEnum v "delegation_graph_node.kind" "delegation node kind".

Definition expectDelegationNodeState (v : property) : codecM DelegationNodeState :=
  expectEnum v "delegation_graph_node.state" "delegation node state".

Definition expectDelegationDependencyKind (v : property) : codecM DelegationDependencyKind :=
  expectEnum v "delegation_graph_dependency.kind" "delegation dependency kind".

Definition expectSchedulerJobKind (v : property) : codecM SchedulerJobKind :=
  expectEnum v "job.kind" "scheduler job kind".

Definition expectSchedulerJobState (v : property) : codecM SchedulerJobState :=
  expectEnum v "job.state" "scheduler job state".

Definition expectRetryPolicy (v : property) (name : string) : codecM RetryPolicy :=
  match v with
  | Some (JObj fs) =>
      strategy ← expectEnum (jget "strategy" fs) (name +:+ ".strategy") "retry strategy";
      initialDelayMs ← optionalNumber (jget "initial_delay_ms" fs)
        (name +:+ ".initial_delay_ms");
      maxDelayMs ← optionalNumber (jget "max_delay_ms" fs) (name +:+ ".max_delay_ms");
      Ok {| rp_strategy := strategy; rp_initialDelayMs := initialDelayMs;
            rp_maxDelayMs := maxDelayMs |}
  | _ => Throw (name +:+ " must be an object")
  end.

(** * Records ([codec-job.ts], [codec-graph-records.ts]) *)

Definition fromRpcSchedulerJobRecord (value : json) : codecM SchedulerJobRecord :=
  fs ← expectRecord value "scheduler job must be an object";
  id ← expectString (jget "id" fs) "job.id";
  kind ← expectSchedulerJobKind (jget "kind" fs);
  queue ← expectString (jget "queue" fs) "job.queue";
  state ← expectSchedulerJobState (jget "state" fs);
  principalId ← expectString (jget "principal_id" fs) "job.principal_id";
  scheduledAt ← expectNumber (jget "scheduled_at" fs) "job.scheduled_at";
  priority ← expectNumber (jget "priority" fs) "job.priority";
  attempt ← expectNumber (jget "attempt" fs) "job.attempt";
  maxAttempts ← expectNumber (jget "max_attempts" fs) "job.max_attempts";
  retryPolicy ← expectRetryPolicy (jget "retry_policy" fs) "job.retry_policy";
  createdAt ← expectNumber (jget "created_at" fs) "job.created_at";
  updatedAt ← expectNumber (jget "updated_at" fs) "job.updated_at";
  notBefore ← optionalNumber (jget "not_before" fs) "job.not_before";
  concurrencyKey ← optionalString (jget "concurrency_key" fs) "job.concurrency_key";
  idempotencyKey ← optionalString (jget "idempotency_key" fs) "job.idempotency_key";
  budgetGrantId ← optionalString (jget "budget_grant_id" fs) "job.budget_grant_id";
  leaseOwner ← optionalString (jget "lease_owner" fs) "job.lease_owner";
  leaseToken ← optionalString (jget "lease_token" fs) "job.lease_token";
  leaseExpiresAt ← optionalNumber (jget "lease_expires_at" fs) "job.lease_expires_at";
  finishedAt ← optionalNumber (jget "finished_at" fs) "job.finished_at";
  Ok {| job_id := id; job_kind := kind; job_queue := queue; job_state := state;
        job_principalId := principalId;
        job_payload := default JNull (nullish (jget "payload" fs));
        job_scheduledAt := scheduledAt; job_notBefore := notBefore;
        job_priority := priority; job_concurrencyKey := concurrencyKey;
        job_attempt := attempt; job_maxAttempts := maxAttempts;
        job_retryPolicy := retryPolicy; job_idempotencyKey := idempotencyKey;
        job_budgetGrantId := budgetGrantId; job_leaseOwner := leaseOwner;
        job_leaseToken := leaseToken; job_leaseExpiresAt := leaseExpiresAt;
        job_result := nullish (jget "result" fs);
        job_lastError := nullish (jget "last_error" fs);
        job_createdAt := createdAt; job_updatedAt := updatedAt;
        job_finishedAt := finishedAt |}.

Definition fromRpcDelegationGraphRecord (value : json) : codecM DelegationGraphRecord :=
  fs ← expectRecord value "delegation graph must be an object";
  id ← expectString (jget "id" fs) "delegation_graph.id";
  principalId ← expectString (jget "principal_id" fs) "delegation_graph.principal_id";
  state ← expectDelegationGraphState (jget "state" fs);
  createdAt ← expectNumber (jget "created_at" fs) "delegation_graph.created_at";
  updatedAt ← expectNumber (jget "updated_at" fs) "delegation_graph.updated_at";
  title ← optionalString (jget "title" fs) "delegation_graph.title";
  closedAt ← optionalNumber (jget "closed_at" fs) "delegation_graph.closed_at";
  Ok {| gr_id := id; gr_principalId := principalId; gr_title := title; gr_state := state;
        gr_metadata := nullish (jget "metadata" fs); gr_createdAt := createdAt;
        gr_updatedAt := updatedAt; gr_closedAt := closedAt |}.

Definition fromRpcDelegationGraphNodeRecord (value : json)
    : codecM DelegationGraphNodeRecord :=
  fs ← expectRecord value "delegation graph node must be an object";
  id ← expectString (jget "id" fs) "delegation_graph_node.id";
  graphId ← expectString (jget "graph_id" fs) "delegation_graph_node.graph_id";
  kind ← expectDelegationNodeKind (jget "kind" fs);
  principalId ← expectString (jget "principal_id" fs) "delegation_graph_node.principal_id";
  state ← expectDelegationNodeState (jget "state" fs);
  payload ← expectJsonField (jget "payload" fs) "delegation_graph_node.payload";
  createdAt ← expectNumber (jget "created_at" fs) "delegation_graph_node.created_at";
  updatedAt ← expectNumber (jget "updated_at" fs) "delegation_graph_node.updated_at";
  schedulerJobId ← optionalString (jget "scheduler_job_id" fs)
    "delegation_graph_node.scheduler_job_id";
  startedAt ← optionalNumber (jget "started_at" fs) "delegation_graph_node.started_at";
  finishedAt ← optionalNumber (jget "finished_at" fs) "delegation_graph_node.finished_at";
  Ok {| nd_id := id; nd_graphId := graphId; nd_kind := kind; nd_principalId := principalId;
        nd_state := state; nd_payload := payload; nd_schedulerJobId := schedulerJobId;
        nd_metadata := nullish (jget "metadata" fs); nd_createdAt := createdAt;
        nd_updatedAt := updatedAt; nd_startedAt := startedAt;
        nd_finishedAt := finishedAt |}.

Definition fromRpcDelegationGraphDependencyRecord (value : json)
    : codecM DelegationGraphDependencyRecord :=
  fs ← expectRecord value "delegation graph dependency must be an object";
  id ← expectString (jget "id" fs) "delegation_graph_dependency.id";
  graphId ← expectString (jget "graph_id" fs) "delegation_graph_dependency.graph_id";
  fromNodeId ← expectString (jget "from_node_id" fs)
    "delegation_graph_dependency.from_node_id";
  toNodeId ← expectString (jget "to_node_id" fs) "delegation_graph_dependency.to_node_id";
  kind ← expectDelegationDependencyKind (jget "kind" fs);
  createdAt ← expectNumber (jget "created_at" fs) "delegation_graph_dependency.created_at";
  Ok {| dep_id := id; dep_graphId := graphId; dep_fromNodeId := fromNodeId;
        dep_toNodeId := toNodeId; dep_kind := kind; dep_createdAt := createdAt |}.

Definition fromRpcMaterializedDelegationGraphNode (value : json)
    : codecM MaterializedDelegationGraphNode :=
  fs ← expectRecord value "materialized delegation graph node must be an object";
  node ← expectJsonField (jget "node" fs) "materialized_delegation_node.node";
  node ← fromRpcDelegationGraphNodeRecord node;
  job ← expectJsonField (jget "job" fs) "materialized_delegation_node.job";
  job ← fromRpcSchedulerJobRecord job;
  Ok {| mt_node := node; mt_job := job |}.

(** * Requests ([codec-job.ts], [codec-delegation-requests.ts]) *)

(** [value ?? null] *)
Definition or_null {A} (f : A → json) (o : option A) : json :=
  match o with Some a => f a | None => JNull end.

Definition enum_json {T} `{StringEnum T} (x : T) : json := JStr (enum_name x).

Definition metadata_json (m : option json) : json := toRpcJsonValue (default JNull m).

Definition retry_json (p : RetryPolicy) : json :=
  JObj [("strategy", enum_json (rp_strategy p));
        ("initial_delay_ms", or_null JNum (rp_initialDelayMs p));
        ("max_delay_ms", or_null JNum (rp_maxDelayMs p))].

Definition toRpcEnqueueJobRequest (r : EnqueueJobRequest) : json :=
  JObj [("id", or_null JStr (ej_id r));
        ("kind", enum_json (ej_kind r));
        ("queue", or_null JStr (ej_queue r));
        ("principal_id", JStr (ej_principalId r));
        ("payload", toRpcJsonValue (ej_payload r));
        ("scheduled_at", or_null JNum (ej_scheduledAt r));
        ("not_before", or_null JNum (ej_notBefore r));
        ("priority", or_null JNum (ej_priority r));
        ("concurrency_key", or_null JStr (ej_concurrencyKey r));
        ("max_attempts", or_null JNum (ej_maxAttempts r));
        ("retry_policy", or_null retry_json (ej_retryPolicy r));
        ("idempotency_key", or_null JStr (ej_idempotencyKey r));
        ("budget_grant_id", or_null JStr (ej_budgetGrantId r))].

Definition toRpcClaimJobRequest (r : ClaimJobRequest) : json :=
  JObj [("worker_id", JStr (cj_workerId r));
        ("lease_ms", JNum (cj_leaseMs r));
        ("kinds", or_null (fun l => JArr (enum_json <$> l)) (cj_kinds r));
        ("queues", or_null (fun l => JArr (JStr <$> l)) (cj_queues r))].

Definition toRpcHeartbeatJobRequest (r : HeartbeatJobRequest) : json :=
  JObj [("job_id", JStr (hj_jobId r));
        ("worker_id", JStr (hj_workerId r));
        ("lease_token", JStr (hj_leaseToken r));
        ("lease_ms", JNum (hj_leaseMs r))].

Definition toRpcCompleteJobRequest (r : CompleteJobRequest) : json :=
  JObj [("job_id", JStr (co_jobId r));
        ("worker_id", JStr (co_workerId r));
        ("lease_token", JStr (co_leaseToken r));
        ("result", metadata_json (co_result r))].

Definition toRpcFailJobRequest (r : FailJobRequest) : json :=
  JObj [("job_id", JStr (fj_jobId r));
        ("worker_id", JStr (fj_workerId r));
        ("lease_token", JStr (fj_leaseToken r));
        ("error", toRpcJsonValue (fj_error r))].

Definition toRpcCancelJobRequest (r : CancelJobRequest) : json :=
  JObj [("job_id", JStr (ca_jobId r)); ("reason", JStr (ca_reason r))].

Definition toRpcGetJobRequest (r : GetJobRequest) : json :=
  JObj [("job_id", JStr (gj_jobId r))].

Definition toRpcListJobsRequest (r : ListJobsRequest) : json :=
  JObj [("state", or_null enum_json (lj_state r));
        ("kind", or_null enum_json (lj_kind r));
        ("limit", or_null JNum (lj_limit r))].

Definition toRpcPutDelegationGraphRequest (r : PutDelegationGraphRequest) : json :=
  JObj [("id", or_null JStr (pg_id r));
        ("principal_id", JStr (pg_principalId r));
        ("title", or_null JStr (pg_title r));
        ("metadata", metadata_json (pg_metadata r));
        ("idempotency_key", or_null JStr (pg_idempotencyKey r))].

Definition toRpcGetDelegationGraphRequest (r : GetDelegationGraphRequest) : json :=
  JObj [("graph_id", JStr (gg_graphId r))].

Definition toRpcListDelegationGraphsRequest (r : ListDelegationGraphsRequest) : json :=
  JObj [("principal_id", or_null JStr (lg_principalId r));
        ("state", or_null enum_json (lg_state r));
        ("limit", or_null JNum (lg_limit r))].

Definition toRpcPutDelegationGraphNodeRequest (r : PutDelegationGraphNodeRequest) : json :=
  JObj [("id", or_null JStr (pn_id r));
        ("graph_id", JStr (pn_graphId r));
        ("kind", enum_json (pn_kind r));
        ("principal_id", JStr (pn_principalId r));
        ("payload", toRpcJsonValue (pn_payload r));
        ("metadata", metadata_json (pn_metadata r));
        ("idempotency_key", or_null JStr (pn_idempotencyKey r))].

Definition toRpcGetDelegationGraphNodeRequest (r : GetDelegationGraphNodeRequest) : json :=
  JObj [("node_id", JStr (gn_nodeId r))].

Definition toRpcListDelegationGraphNodesRequest (r : ListDelegationGraphNodesRequest)
    : json :=
  JObj [("graph_id", JStr (ln_graphId r)); ("state", or_null enum_json (ln_state r))].

Definition toRpcPutDelegationGraphDependencyRequest
    (r : PutDelegationGraphDependencyRequest) : json :=
  JObj [("id", or_null JStr (pd_id r));
        ("graph_id", JStr (pd_graphId r));
        ("from_node_id", JStr (pd_fromNodeId r));
        ("to_node_id", JStr (pd_toNodeId r));
        ("kind", or_null enum_json (pd_kind r))].

Definition toRpcListDelegationGraphDependenciesRequest
    (r : ListDelegationGraphDependenciesRequest) : json :=
  JObj [("graph_id", JStr (ld_graphId r))].

Definition toRpcUpdateDelegationGraphStateRequest
    (r : UpdateDelegationGraphStateRequest) : json :=
  JObj [("graph_id", JStr (ug_graphId r)); ("state", enum_json (ug_state r))].

Definition toRpcUpdateDelegationGraphNodeStateRequest
    (r : UpdateDelegationGraphNodeStateRequest) : json :=
  JObj [("node_id", JStr (un_nodeId r));
        ("state", enum_json (un_state r));
        ("scheduler_job_id", or_null JStr (un_schedulerJobId r));
        ("metadata", metadata_json (un_metadata r))].

Definition toRpcAttachDelegationGraphNodeJobRequest
    (r : AttachDelegationGraphNodeJobRequest) : json :=
  JObj [("node_id", JStr (an_nodeId r)); ("scheduler_job_id", JStr (an_schedulerJobId r))].

Definition toRpcListReadyDelegationGraphNodesRequest
    (r : ListReadyDelegationGraphNodesRequest) : json :=
  JObj [("graph_id", JStr (lr_graphId r)); ("limit", or_null JNum (lr_limit r))].

Definition toRpcMaterializeReadyDelegationGraphNodeRequest
    (r : MaterializeReadyDelegationGraphNodeRequest) : json :=
  JObj [("graph_id", JStr (mr_graphId r));
        ("node_id", or_null JStr (mr_nodeId r));
        ("worker_id", JStr (mr_workerId r));
        ("job_id", or_null JStr (mr_jobId r));
        ("job_kind", enum_json (mr_jobKind r));
        ("job_payload", metadata_json (mr_jobPayload r));
        ("scheduled_at", or_null JNum (mr_scheduledAt r));
        ("not_before", or_null JNum (mr_notBefore r));
        ("priority", or_null JNum (mr_priority r));
        ("max_attempts", or_null JNum (mr_maxAttempts r));
        ("retry_policy", or_null retry_json (mr_retryPolicy r));
        ("job_idempotency_key", or_null JStr (mr_jobIdempotencyKey r));
        ("budget_grant_id", or_null JStr (mr_budgetGrantId r))].

(** * The rows the service serialises ([models.rs], serde's derived
    [Serialize]: every field in order, [None] as [null]) *)

Definition graph_row (r : DelegationGraphRecord) : json :=
  JObj [("id", JStr (gr_id r));
        ("principal_id", JStr (gr_principalId r));
        ("title", or_null JStr (gr_title r));
        ("state", enum_json (gr_state r));
        ("metadata", default JNull (gr_metadata r));
        ("created_at", JNum (gr_createdAt r));
        ("updated_at", JNum (gr_updatedAt r));
        ("closed_at", or_null JNum (gr_closedAt r))].

Definition node_row (r : DelegationGraphNodeRecord) : json :=
  JObj [("id", JStr (nd_id r));
        ("graph_id", JStr (nd_graphId r));
        ("kind", enum_json (nd_kind r));
        ("principal_id", JStr (nd_principalId r));
        ("state", enum_json (nd_state r));
        ("payload", nd_payload r);
        ("scheduler_job_id", or_null JStr (nd_schedulerJobId r));
        ("metadata", default JNull (nd_metadata r));
        ("created_at", JNum (nd_createdAt r));
        ("updated_at", JNum (nd_updatedAt r));
        ("started_at", or_null JNum (nd_startedAt r));
        ("finished_at", or_null JNum (nd_finishedAt r))].

Definition dependency_row (r : DelegationGraphDependencyRecord) : json :=
  JObj [("id", JStr (dep_id r));
        ("graph_id", JStr (dep_graphId r));
        ("from_node_id", JStr (dep_fromNodeId r));
        ("to_node_id", JStr (dep_toNodeId r));
        ("kind", enum_json (dep_kind r));
        ("created_at", JNum (dep_createdAt r))].

Definition job_row (r : SchedulerJobRecord) : json :=
  JObj [("id", JStr (job_id r));
        ("kind", enum_json (job_kind r));
        ("queue", JStr (job_queue r));
        ("state", enum_json (job_state r));
        ("principal_id", JStr (job_principalId r));
        ("payload", job_payload r);
        ("scheduled_at", JNum (job_scheduledAt r));
        ("not_before", or_null JNum (job_notBefore r));
        ("priority", JNum (job_priority r));
        ("concurrency_key", or_null JStr (job_concurrencyKey r));
        ("attempt", JNum (job_attempt r));
        ("max_attempts", JNum (job_maxAttempts r));
        ("retry_policy", retry_json (job_retryPolicy r));
        ("idempotency_key", or_null JStr (job_idempotencyKey r));
        ("budget_grant_id", or_null JStr (job_budgetGrantId r));
        ("lease_owner", or_null JStr (job_leaseOwner r));
        ("lease_token", or_null JStr (job_leaseToken r));
        ("lease_expires_at", or_null JNum (job_leaseExpiresAt r));
        ("result", default JNull (job_result r));
        ("last_error", default JNull (job_lastError r));
        ("created_at", JNum (job_createdAt r));
        ("updated_at", JNum (job_updatedAt r));
        ("finished_at", or_null JNum (job_finishedAt r))].

Definition materialized_row (r : MaterializedDelegationGraphNode) : json :=
  JObj [("node", node_row (mt_node r)); ("job", job_row (mt_job r))].

(** * What the decoders accept *)

(** A specification of an object's properties, by key. *)
Abbreviation shape := (list (string * (property → Prop))).

Definition has_shape (v : json) (sp : shape) : Prop :=
  ∃ fs, v = JObj fs ∧ Forall (fun '(k, P) => P (jget k fs)) sp.

Definition is_string (s : string) : property → Prop := eq (Some (JStr s)).
Definition is_number (x : jsnum) : property → Prop := eq (Some (JNum x)).
Definition is_value (x : json) : property → Prop := eq (Some x).
Definition is_literal {T} `{StringEnum T} (x : T) : property → Prop :=
  eq (Some (enum_json x)).
(** Missing, [null], or the value. *)
Definition is_nullable {A} (f : A → json) (o : option A) (v : property) : Prop :=
  nullish v = f <$> o.
Definition is_json (o : option json) (v : property) : Prop := nullish v = o.
Definition is_json_or_null (x : json) (v : property) : Prop :=
  default JNull (nullish v) = x.

Definition retry_shape (p : RetryPolicy) : shape :=
  [("strategy", is_literal (rp_strategy p));
   ("initial_delay_ms", is_nullable JNum (rp_initialDelayMs p));
   ("max_delay_ms", is_nullable JNum (rp_maxDelayMs p))].

Definition is_object (sp : shape) (v : property) : Prop :=
  ∃ x, v = Some x ∧ has_shape x sp.

Definition job_shape (r : SchedulerJobRecord) : shape :=
  [("id", is_string (job_id r));
   ("kind", is_literal (job_kind r));
   ("queue", is_string (job_queue r));
   ("state", is_literal (job_state r));
   ("principal_id", is_string (job_principalId r));
   ("payload", is_json_or_null (job_payload r));
   ("scheduled_at", is_number (job_scheduledAt r));
   ("not_before", is_nullable JNum (job_notBefore r));
   ("priority", is_number (job_priority r));
   ("concurrency_key", is_nullable JStr (job_concurrencyKey r));
   ("attempt", is_number (job_attempt r));
   ("max_attempts", is_number (job_maxAttempts r));
   ("retry_policy", is_object (retry_shape (job_retryPolicy r)));
   ("idempotency_key", is_nullable JStr (job_idempotencyKey r));
   ("budget_grant_id", is_nullable JStr (job_budgetGrantId r));
   ("lease_owner", is_nullable JStr (job_leaseOwner r));
   ("lease_token", is_nullable JStr (job_leaseToken r));
   ("lease_expires_at", is_nullable JNum (job_leaseExpiresAt r));
   ("result", is_json (job_result r));
   ("last_error", is_json (job_lastError r));
   ("created_at", is_number (job_createdAt r));
   ("updated_at", is_number (job_updatedAt r));
   ("finished_at", is_nullable JNum (job_finishedAt r))].

Definition graph_shape (r : DelegationGraphRecord) : shape :=
  [("id", is_string (gr_id r));
   ("principal_id", is_string (gr_principalId r));
   ("title", is_nullable JStr (gr_title r));
   ("state", is_literal (gr_state r));
   ("metadata", is_json (gr_metadata r));
   ("created_at", is_number (gr_createdAt r));
   ("updated_at", is_number (gr_updatedAt r));
   ("closed_at", is_nullable JNum (gr_closedAt r))].

Definition node_shape (r : DelegationGraphNodeRecord) : shape :=
  [("id", is_string (nd_id r));
   ("graph_id", is_string (nd_graphId r));
   ("kind", is_literal (nd_kind r));
   ("principal_id", is_string (nd_principalId r));
   ("state", is_literal (nd_state r));
   ("payload", is_value (nd_payload r));
   ("scheduler_job_id", is_nullable JStr (nd_schedulerJobId r));
   ("metadata", is_json (nd_metadata r));
   ("created_at", is_number (nd_createdAt r));
   ("updated_at", is_number (nd_updatedAt r));
   ("started_at", is_nullable JNum (nd_startedAt r));
   ("finished_at", is_nullable JNum (nd_finishedAt r))].

Definition dependency_shape (r : DelegationGraphDependencyRecord) : shape :=
  [("id", is_string (dep_id r));
   ("graph_id", is_string (dep_graphId r));
   ("from_node_id", is_string (dep_fromNodeId r));
   ("to_node_id", is_string (dep_toNodeId r));
   ("kind", is_literal (dep_kind r));
   ("created_at", is_number (dep_createdAt r))].

Definition materialized_shape (r : MaterializedDelegationGraphNode) : shape :=
  [("node", is_object (node_shape (mt_node r))); ("job", is_object (job_shape (mt_job r)))].

(** [dec] returns [a] on exactly the properties in [P a]. *)
Class Decodes {A} (dec : property → codecM A) (P : A → property → Prop) : Prop :=
  decodes v a : dec v = Ok a ↔ P a v.

Section primitives.
Context (name : string).

#[export] Instance expectString_decodes : Decodes (fun v => expectString v name) is_string.
Proof. intros [[]|] w; unfold is_string; simpl; naive_solver. Qed.

#[export] Instance expectNumber_decodes : Decodes (fun v => expectNumber v name) is_number.
Proof. intros [[]|] w; unfold is_number; simpl; naive_solver. Qed.

#[export] Instance expectJsonField_decodes :
  Decodes (fun v => expectJsonField v name) is_value.
Proof. intros [x|] w; unfold is_value; simpl; naive_solver. Qed.

#[export] Instance optionalString_decodes :
  Decodes (fun v => optionalString v name) (is_nullable JStr).
Proof. intros [[]|] [w|]; unfold is_nullable; simpl; naive_solver. Qed.

#[export] Instance optionalNumber_decodes :
  Decodes (fun v => optionalNumber v name) (is_nullable JNum).
Proof. intros [[]|] [w|]; unfold is_nullable; simpl; naive_solver. Qed.

#[export] Instance expectEnum_decodes {T} `{StringEnum T} what :
  Decodes (fun v => expectEnum v name what) (@is_literal T _).
Proof.
  intros v x. unfold is_literal, enum_json, expectEnum.
  destruct v as [[| | |s| |]|]; simpl; try naive_solver.
  destruct (parse_enum s) as [y|] eqn:E; split.
  - intros [= ->]. apply parse_enum_Some in E. congruence.
  - intros [= <-]. rewrite parse_enum_name in E. congruence.
  - done.
  - intros [= <-]. rewrite parse_enum_name in E. congruence.
Qed.
End primitives.

#[export] Instance expectDelegationGraphState_decodes :
  Decodes expectDelegationGraphState is_literal := expectEnum_decodes _ _.
#[export] Instance expectDelegationNodeKind_decodes :
  Decodes expectDelegationNodeKind is_literal := expectEnum_decodes _ _.
#[export] Instance expectDelegationNodeState_decodes :
  Decodes expectDelegationNodeState is_literal := expectEnum_decodes _ _.
#[export] Instance expectDelegationDependencyKind_decodes :
  Decodes expectDelegationDependencyKind is_literal := expectEnum_decodes _ _.
#[export] Instance expectSchedulerJobKind_decodes :
  Decodes expectSchedulerJobKind is_literal := expectEnum_decodes _ _.
#[export] Instance expectSchedulerJobState_decodes :
  Decodes expectSchedulerJobState is_literal := expectEnum_decodes _ _.

Lemma bind_decodes {A B} dec (P : A → property → Prop) `{!Decodes dec P} v
    (k : A → codecM B) b :
  dec v ≫= k = Ok b ↔ ∃ a, P a v ∧ k a = Ok b.
Proof. rewrite result_bind_Ok. by setoid_rewrite (decodes (dec := dec)). Qed.

Lemma bind_expectRecord {B} v message (k : _ → codecM B) b :
  expectRecord v message ≫= k = Ok b ↔ ∃ fs, v = JObj fs ∧ k fs = Ok b.
Proof. destruct v; simpl; naive_solver. Qed.

(** Reads one property of the decoder in [H], or gives it from the context. *)
Ltac read_property H :=
  match type of H with
  | expectRecord _ _ ≫= _ = Ok _ => apply bind_expectRecord in H as (? & -> & H)
  | ?dec ≫= _ = Ok _ =>
      match dec with
      | context [jget ?key ?fs] =>
          match eval pattern (jget key fs) in dec with
          | ?f _ => apply (bind_decodes f _) in H as (? & ? & H)
          end
      end
  end.
Ltac give_property :=
  match goal with
  | |- expectRecord _ _ ≫= _ = Ok _ => apply bind_expectRecord; eexists; split; [done|]
  | |- ?dec ≫= _ = Ok _ =>
      match dec with
      | context [jget ?key ?fs] =>
          match eval pattern (jget key fs) in dec with
          | ?f _ => apply (bind_decodes f _); eexists; split; [eassumption|]
          end
      end
  end.

(** A decoder accepts exactly the objects of its record's shape. *)
Ltac solve_decoder :=
  let r := fresh "r" in let H := fresh in
  intros r; unfold has_shape; split;
  [ intros H; repeat read_property H; injection H as <-; eexists; split; [done|];
    repeat constructor; assumption
  | destruct r; intros (? & -> & H); simpl in H;
    repeat (apply Forall_cons in H as [? H]);
    repeat give_property; simpl in *; unfold is_json, is_json_or_null in *; by subst ].

#[export] Instance expectRetryPolicy_decodes name :
  Decodes (fun v => expectRetryPolicy v name) (fun p => is_object (retry_shape p)).
Proof.
  intros v r. unfold is_object, has_shape, retry_shape.
  destruct v as [[| | | | |fs]|]; simpl; try naive_solver. split.
  - intros H. repeat read_property H. injection H as <-.
    eexists. split; [done|]. eexists. split; [done|]. repeat constructor; assumption.
  - destruct r. intros (? & [= <-] & ? & [= <-] & H). simpl in H.
    repeat (apply Forall_cons in H as [? H]). by repeat give_property.
Qed.

Lemma fromRpcSchedulerJobRecord_shape v r :
  fromRpcSchedulerJobRecord v = Ok r ↔ has_shape v (job_shape r).
Proof. revert r. unfold fromRpcSchedulerJobRecord, job_shape. solve_decoder. Qed.

Lemma fromRpcDelegationGraphRecord_shape v r :
  fromRpcDelegationGraphRecord v = Ok r ↔ has_shape v (graph_shape r).
Proof. revert r. unfold fromRpcDelegationGraphRecord, graph_shape. solve_decoder. Qed.

Lemma fromRpcDelegationGraphNodeRecord_shape v r :
  fromRpcDelegationGraphNodeRecord v = Ok r ↔ has_shape v (node_shape r).
Proof. revert r. unfold fromRpcDelegationGraphNodeRecord, node_shape. solve_decoder. Qed.

Lemma fromRpcDelegationGraphDependencyRecord_shape v r :
  fromRpcDelegationGraphDependencyRecord v = Ok r ↔ has_shape v (dependency_shape r).
Proof.
  revert r. unfold fromRpcDelegationGraphDependencyRecord, dependency_shape. solve_decoder.
Qed.

Lemma fromRpcMaterializedDelegationGraphNode_shape v r :
  fromRpcMaterializedDelegationGraphNode v = Ok r ↔ has_shape v (materialized_shape r).
Proof.
  unfold fromRpcMaterializedDelegationGraphNode, materialized_shape, has_shape at 1.
  setoid_rewrite bind_expectRecord.
  setoid_rewrite Forall_cons. setoid_rewrite Forall_singleton.
  split.
  - intros (fs & -> & H). exists fs. split; [done|].
    apply result_bind_Ok in H as (n & Hn & (node & Hnode & H)%result_bind_Ok).
    apply result_bind_Ok in H as (j & Hj & (job & Hjob & [= <-])%result_bind_Ok).
    apply expectJsonField_decodes in Hn as <-, Hj as <-.
    apply fromRpcDelegationGraphNodeRecord_shape in Hnode.
    apply fromRpcSchedulerJobRecord_shape in Hjob.
    split; [exists n|exists j]; done.
  - intros (fs & -> & (n & Hn & Hnode) & (j & Hj & Hjob)). exists fs. split; [done|].
    apply fromRpcDelegationGraphNodeRecord_shape in Hnode.
    apply fromRpcSchedulerJobRecord_shape in Hjob.
    rewrite Hn, Hj. simpl in *. rewrite Hnode. simpl. rewrite Hjob. simpl. by destruct r.
Qed.

(** * Rows and their decoders, as an interface *)

(** [to_row] is how the service writes the records [canonical] admits,
    [from_row] how the client reads them. *)
Class RowCodec (R : Type) := {
  to_row : R → json;
  from_row : json → codecM R;
  canonical : R → Prop;
  row_shape : R → shape;
  from_row_shape v r : from_row v = Ok r ↔ has_shape v (row_shape r);
  to_row_shape r : canonical r → has_shape (to_row r) (row_shape r);
  shape_canonical v r : has_shape v (row_shape r) → canonical r;
}.

(** An optional JSON column that is [null] reads as absent. *)
Definition not_null (o : option json) : Prop := o ≠ Some JNull.

Lemma is_json_default o : not_null o → is_json o (Some (default JNull o)).
Proof. destruct o as [[]|]; unfold is_json; simpl; done. Qed.

Lemma is_json_not_null o v : is_json o v → not_null o.
Proof. unfold is_json. intros <-. by destruct v as [[]|]. Qed.

Lemma is_nullable_JStr o : is_nullable JStr o (Some (or_null JStr o)).
Proof. by destruct o. Qed.

Lemma is_nullable_JNum o : is_nullable JNum o (Some (or_null JNum o)).
Proof. by destruct o. Qed.

Lemma is_json_or_null_self x : is_json_or_null x (Some x).
Proof. by destruct x. Qed.

Lemma retry_json_shape p : is_object (retry_shape p) (Some (retry_json p)).
Proof.
  eexists. split; [done|]. eexists. split; [done|].
  repeat constructor; apply is_nullable_JNum.
Qed.

Create HintDb row.
#[export] Hint Resolve is_json_default is_json_not_null is_nullable_JStr is_nullable_JNum
  is_json_or_null_self retry_json_shape : row.

(** A record's own row has its shape, and a shape fixes the optional columns. *)
Ltac solve_row :=
  match goal with
  | |- has_shape _ _ => eexists; split; [done|]; repeat constructor; auto with row
  | H : has_shape _ _ |- _ =>
      destruct H as (? & -> & H); simpl in H; repeat (apply Forall_cons in H as [? H]);
      eauto with row
  end.

#[export, refine] Instance job_codec : RowCodec SchedulerJobRecord := {|
  to_row := job_row; from_row := fromRpcSchedulerJobRecord; row_shape := job_shape;
  canonical r := not_null (job_result r) ∧ not_null (job_lastError r);
  from_row_shape := fromRpcSchedulerJobRecord_shape |}.
Proof. all: intros; destruct_and?; solve_row. Defined.

#[export, refine] Instance graph_codec : RowCodec DelegationGraphRecord := {|
  to_row := graph_row; from_row := fromRpcDelegationGraphRecord; row_shape := graph_shape;
  canonical r := not_null (gr_metadata r);
  from_row_shape := fromRpcDelegationGraphRecord_shape |}.
Proof. all: intros; solve_row. Defined.

#[export, refine] Instance node_codec : RowCodec DelegationGraphNodeRecord := {|
  to_row := node_row; from_row := fromRpcDelegationGraphNodeRecord; row_shape := node_shape;
  canonical r := not_null (nd_metadata r);
  from_row_shape := fromRpcDelegationGraphNodeRecord_shape |}.
Proof. all: intros; solve_row. Defined.

#[export, refine] Instance dependency_codec : RowCodec DelegationGraphDependencyRecord := {|
  to_row := dependency_row; from_row := fromRpcDelegationGraphDependencyRecord;
  row_shape := dependency_shape; canonical _ := True;
  from_row_shape := fromRpcDelegationGraphDependencyRecord_shape |}.
Proof. all: intros; solve_row. Defined.

#[export, refine] Instance materialized_codec : RowCodec MaterializedDelegationGraphNode := {|
  to_row := materialized_row; from_row := fromRpcMaterializedDelegationGraphNode;
  row_shape := materialized_shape;
  canonical r := canonical (mt_node r) ∧ canonical (mt_job r);
  from_row_shape := fromRpcMaterializedDelegationGraphNode_shape |}.
Proof.
  - intros r [Hn Hj]. eexists. split; [done|]. repeat constructor.
    + eexists. split; [done|]. exact (to_row_shape _ Hn).
    + eexists. split; [done|]. exact (to_row_shape _ Hj).
  - intros v r (fs & -> & H). simpl in H.
    apply Forall_cons in H as [(n & _ & Hn) [(j & _ & Hj) _]%Forall_cons].
    exact (conj (shape_canonical _ (mt_node r) Hn) (shape_canonical _ (mt_job r) Hj)).
Defined.

Lemma from_to_row {R} `{RowCodec R} (r : R) : canonical r → from_row (to_row r) = Ok r.
Proof. intros Hr. by apply from_row_shape, to_row_shape. Qed.

Lemma from_row_canonical {R} `{RowCodec R} v (r : R) : from_row v = Ok r → canonical r.
Proof. intros Hr%from_row_shape. by eapply shape_canonical. Qed.

(** * Wire values *)

(** The copy made for the wire is the value. *)
Lemma toRpcJsonValue_id v : toRpcJsonValue v = v.
Proof.
  induction v as [| | | |l IH|fs IH] using json_nested_ind; simpl; try done; f_equal.
  - induction IH as [|x l Hx _ IH]; simpl; by f_equal.
  - induction IH as [|[k x] fs Hx _ IH]; simpl; by repeat f_equal.
Qed.

#[export] Instance or_null_inj {A} (f : A → json) :
  (∀ a, f a ≠ JNull) → Inj (=) (=) f → Inj (=) (=) (or_null f).
Proof. intros Hf ? [a|] [b|]; simpl; intros Heq; naive_solver. Qed.

#[export] Instance enum_json_inj {T} `{StringEnum T} : Inj (=) (=) (@enum_json T _).
Proof. intros x y [= Heq]. by apply (inj enum_name). Qed.

#[export] Instance retry_json_inj : Inj (=) (=) retry_json.
Proof.
  intros [s i m] [s' i' m'] [= Hs Hi Hm].
  f_equal; [destruct s, s'; done|..]; eapply (or_null_inj JNum); done || congruence.
Qed.

(** The record a [MaterializedDelegationGraphNode] row of the service denotes is
    the record it was written from exactly when no optional JSON column holds an
    explicit [null]; and these are the only records the client ever reads (C6). *)
Theorem materialized_row_roundtrip r :
  (fromRpcMaterializedDelegationGraphNode (materialized_row r) = Ok r ↔
   not_null (nd_metadata (mt_node r)) ∧ not_null (job_result (mt_job r)) ∧
   not_null (job_lastError (mt_job r))) ∧
  ((∃ v, fromRpcMaterializedDelegationGraphNode v = Ok r) ↔
   fromRpcMaterializedDelegationGraphNode (materialized_row r) = Ok r).
Proof.
  pose proof (from_to_row r) as Hto. pose proof (fun v => from_row_canonical v r) as Hfrom.
  simpl in *. split; [split; [by eauto|tauto]|].
  split; [|by eauto]. intros [v Hv]. apply Hto. by eapply Hfrom.
Qed.
