(* ===== verification/StorageRpc.v ===== *)
(** The storage RPC client ([packages/storage/src/rpc-store-base.ts],
    [envelope.ts], [store-job.ts], [store-delegation.ts]): a typed store over a
    transport, with retries of transient SQLite failures.  [DelegationStore] and
    [SchedulerStore] are the interfaces its clients are verified against; the
    client implements them over any transport. *)
From S2P Require Import Prelude JsMap Json JsStr Protocol StorageCodec.

(** * Transport *)

Inductive rpc_error :=
| Error (message : string)
| SystemServiceClientError (message : jstr) (code : string)
| StorageTransportError (message code : string).

Inductive envelope :=
| SuccessEnvelope (value : json)
| ErrorEnvelope (code : string) (message : jstr).

(** [StorageTransport], and the timer of [sleep]. *)
Class StorageTransport (W : Type) := {
  transport_call : json → stM W rpc_error envelope;
  sleep : Z → stM W rpc_error unit;
}.

(** [toLowerCase] of a code unit.  The two non-ASCII units whose lower case
    holds an ASCII letter are the Kelvin sign and dotted capital I; every other
    unit beyond ASCII is kept, which no search for an ASCII text can tell. *)
Definition lower_unit (c : N) : jstr :=
  if in_range 65 90 c then [c + 32]%N
  else if decide (c = 8490)%N then [107]%N
  else if decide (c = 304)%N then [105; 775]%N
  else [c].

Definition toLowerCase (s : jstr) : jstr := s ≫= lower_unit.

Fixpoint includes (needle s : jstr) : bool :=
  starts_with needle s || match s with [] => false | _ :: s' => includes needle s' end.

Definition isTransientSqliteResponse (response : envelope) : bool :=
  match response with
  | SuccessEnvelope _ => false
  | ErrorEnvelope code message =>
      bool_decide (code = "sqlite") &&
      (includes (js "database is locked") (toLowerCase message)
       || includes (js "database is busy") (toLowerCase message))
  end.

Definition parseResponseEnvelope (response : envelope) : result rpc_error json :=
  match response with
  | SuccessEnvelope value => Ok value
  | ErrorEnvelope code message => Throw (SystemServiceClientError message code)
  end.

Definition DEFAULT_TRANSIENT_SQLITE_MAX_ATTEMPTS : nat := 4.
Definition DEFAULT_TRANSIENT_SQLITE_INITIAL_DELAY_MS : Z := 10.

Definition backoffMs (attempt : nat) : Z :=
  DEFAULT_TRANSIENT_SQLITE_INITIAL_DELAY_MS * 2 ^ (Z.of_nat attempt - 1).

Section client.
Context {W : Type} `{!StorageTransport W}.

(** The loop of [call], with [left] attempts to go after this one. *)
Fixpoint call_loop (left : nat) (request : json) : stM W rpc_error json :=
  response ← transport_call request;
  match left with
  | S left' =>
      if isTransientSqliteResponse response then
        let attempt := DEFAULT_TRANSIENT_SQLITE_MAX_ATTEMPTS - left in
        _ ← sleep (backoffMs attempt);
        call_loop left' request
      else liftM (parseResponseEnvelope response)
  | O => liftM (parseResponseEnvelope response)
  end.

Definition call (request : json) : stM W rpc_error json :=
  call_loop (DEFAULT_TRANSIENT_SQLITE_MAX_ATTEMPTS - 1) request.
End client.

(** * Commands, by the type of their reply *)

Inductive StorageRpcCommand : Type → Type :=
| EnqueueJob (r : EnqueueJobRequest) : StorageRpcCommand SchedulerJobRecord
| ClaimJob (r : ClaimJobRequest) : StorageRpcCommand (option SchedulerJobRecord)
| HeartbeatJob (r : HeartbeatJobRequest) : StorageRpcCommand (option SchedulerJobRecord)
| CompleteJob (r : CompleteJobRequest) : StorageRpcCommand (option SchedulerJobRecord)
| FailJob (r : FailJobRequest) : StorageRpcCommand (option SchedulerJobRecord)
| CancelJob (r : CancelJobRequest) : StorageRpcCommand (option SchedulerJobRecord)
| GetJob (r : GetJobRequest) : StorageRpcCommand (option SchedulerJobRecord)
| ListJobs (r : ListJobsRequest) : StorageRpcCommand (list SchedulerJobRecord)
| PutGraph (r : PutDelegationGraphRequest) : StorageRpcCommand DelegationGraphRecord
| GetGraph (r : GetDelegationGraphRequest)
    : StorageRpcCommand (option DelegationGraphRecord)
| ListGraphs (r : ListDelegationGraphsRequest)
    : StorageRpcCommand (list DelegationGraphRecord)
| PutNode (r : PutDelegationGraphNodeRequest) : StorageRpcCommand DelegationGraphNodeRecord
| GetNode (r : GetDelegationGraphNodeRequest)
    : StorageRpcCommand (option DelegationGraphNodeRecord)
| ListNodes (r : ListDelegationGraphNodesRequest)
    : StorageRpcCommand (list DelegationGraphNodeRecord)
| PutDependency (r : PutDelegationGraphDependencyRequest)
    : StorageRpcCommand DelegationGraphDependencyRecord
| ListDependencies (r : ListDelegationGraphDependenciesRequest)
    : StorageRpcCommand (list DelegationGraphDependencyRecord)
| UpdateGraphState (r : UpdateDelegationGraphStateRequest)
    : StorageRpcCommand DelegationGraphRecord
| UpdateNodeState (r : UpdateDelegationGraphNodeStateRequest)
    : StorageRpcCommand DelegationGraphNodeRecord
| AttachNodeJob (r : AttachDelegationGraphNodeJobRequest)
    : StorageRpcCommand DelegationGraphNodeRecord
| ListReadyNodes (r : ListReadyDelegationGraphNodesRequest)
    : StorageRpcCommand (list DelegationGraphNodeRecord)
| MaterializeReadyNode (r : MaterializeReadyDelegationGraphNodeRequest)
    : StorageRpcCommand (option MaterializedDelegationGraphNode).

Definition command_name {A} (c : StorageRpcCommand A) : string :=
  match c with
  | EnqueueJob _ => "enqueue-job"
  | ClaimJob _ => "claim-job"
  | HeartbeatJob _ => "heartbeat-job"
  | CompleteJob _ => "complete-job"
  | FailJob _ => "fail-job"
  | CancelJob _ => "cancel-job"
  | GetJob _ => "get-job"
  | ListJobs _ => "list-jobs"
  | PutGraph _ => "put-delegation-graph"
  | GetGraph _ => "get-delegation-graph"
  | ListGraphs _ => "list-delegation-graphs"
  | PutNode _ => "put-delegation-graph-node"
  | GetNode _ => "get-delegation-graph-node"
  | ListNodes _ => "list-delegation-graph-nodes"
  | PutDependency _ => "put-delegation-graph-dependency"
  | ListDependencies _ => "list-delegation-graph-dependencies"
  | UpdateGraphState _ => "update-delegation-graph-state"
  | UpdateNodeState _ => "update-delegation-graph-node-state"
  | AttachNodeJob _ => "attach-delegation-graph-node-job"
  | ListReadyNodes _ => "list-ready-delegation-graph-nodes"
  | MaterializeReadyNode _ => "materialize-ready-delegation-graph-node"
  end.

Definition command_request {A} (c : StorageRpcCommand A) : json :=
  match c with
  | EnqueueJob r => toRpcEnqueueJobRequest r
  | ClaimJob r => toRpcClaimJobRequest r
  | HeartbeatJob r => toRpcHeartbeatJobRequest r
  | CompleteJob r => toRpcCompleteJobRequest r
  | FailJob r => toRpcFailJobRequest r
  | CancelJob r => toRpcCancelJobRequest r
  | GetJob r => toRpcGetJobRequest r
  | ListJobs r => toRpcListJobsRequest r
  | PutGraph r => toRpcPutDelegationGraphRequest r
  | GetGraph r => toRpcGetDelegationGraphRequest r
  | ListGraphs r => toRpcListDelegationGraphsRequest r
  | PutNode r => toRpcPutDelegationGraphNodeRequest r
  | GetNode r => toRpcGetDelegationGraphNodeRequest r
  | ListNodes r => toRpcListDelegationGraphNodesRequest r
  | PutDependency r => toRpcPutDelegationGraphDependencyRequest r
  | ListDependencies r => toRpcListDelegationGraphDependenciesRequest r
  | UpdateGraphState r => toRpcUpdateDelegationGraphStateRequest r
  | UpdateNodeState r => toRpcUpdateDelegationGraphNodeStateRequest r
  | AttachNodeJob r => toRpcAttachDelegationGraphNodeJobRequest r
  | ListReadyNodes r => toRpcListReadyDelegationGraphNodesRequest r
  | MaterializeReadyNode r => toRpcMaterializeReadyDelegationGraphNodeRequest r
  end.

(** [{ command, request }]; [get-delegation-graph] alone carries its field
    beside the command. *)
Definition command_json {A} (c : StorageRpcCommand A) : json :=
  match c with
  | GetGraph r =>
      JObj [("command", JStr "get-delegation-graph"); ("graph_id", JStr (gg_graphId r))]
  | _ => JObj [("command", JStr (command_name c)); ("request", command_request c)]
  end.

(** The shape of a reply: a record, a record or [null], or an array. *)
Inductive reply : Type → Type :=
| One {R} `{RowCodec R} : reply R
| Nullable {R} `{RowCodec R} : reply (option R)
| Many {R} `{RowCodec R} (name : string) : reply (list R).

Definition command_reply {A} (c : StorageRpcCommand A) : reply A :=
  match c with
  | EnqueueJob _ => One
  | ClaimJob _ | HeartbeatJob _ | CompleteJob _ | FailJob _ | CancelJob _ | GetJob _ =>
      Nullable
  | ListJobs _ => Many "scheduler jobs"
  | PutGraph _ | UpdateGraphState _ => One
  | GetGraph _ => Nullable
  | ListGraphs _ => Many "delegation graphs"
  | PutNode _ | UpdateNodeState _ | AttachNodeJob _ => One
  | GetNode _ => Nullable
  | ListNodes _ => Many "delegation graph nodes"
  | PutDependency _ => One
  | ListDependencies _ => Many "delegation graph dependencies"
  | ListReadyNodes _ => Many "ready delegation graph nodes"
  | MaterializeReadyNode _ => Nullable
  end.

Definition decode_reply {A} (k : reply A) (value : json) : codecM A :=
  match k with
  | One => from_row value
  | Nullable => match value with JNull => Ok None | _ => Some <$> from_row value end
  | Many name =>
      l ← assertArray value name;
      foldM (fun acc v => r ← from_row v; Ok (acc ++ [r])) [] l
  end.

(** How the service writes a reply. *)
Definition encode_reply {A} (k : reply A) : A → json :=
  match k with
  | One => fun a => to_row a
  | Nullable => fun a => or_null to_row a
  | Many _ => fun a => JArr (to_row <$> a)
  end.

Definition canonical_reply {A} (k : reply A) : A → Prop :=
  match k with
  | One => fun a => canonical a
  | Nullable => fun a => match a with Some r => canonical r | None => True end
  | Many _ => fun a => Forall canonical a
  end.

Definition liftCodec {W A} (r : codecM A) : stM W rpc_error A :=
  match r with Ok a => mret a | Throw message => throwM (Error message) end.

(** One store method: send the command, decode the reply. *)
Definition rpc {W A} `{!StorageTransport W} (c : StorageRpcCommand A) : stM W rpc_error A :=
  value ← call (command_json c);
  liftCodec (decode_reply (command_reply c) value).

(** * The stores, as interfaces and as RPC clients *)

(** The job methods of [SchedulerStore]. *)
Class SchedulerStore (W : Type) := {
  enqueueJob : EnqueueJobRequest → stM W rpc_error SchedulerJobRecord;
  claimJob : ClaimJobRequest → stM W rpc_error (option SchedulerJobRecord);
  heartbeatJob : HeartbeatJobRequest → stM W rpc_error (option SchedulerJobRecord);
  completeJob : CompleteJobRequest → stM W rpc_error (option SchedulerJobRecord);
  failJob : FailJobRequest → stM W rpc_error (option SchedulerJobRecord);
  cancelJob : CancelJobRequest → stM W rpc_error (option SchedulerJobRecord);
  getJob : GetJobRequest → stM W rpc_error (option SchedulerJobRecord);
  listJobs : ListJobsRequest → stM W rpc_error (list SchedulerJobRecord);
}.

Class DelegationStore (W : Type) := {
  putDelegationGraph : PutDelegationGraphRequest → stM W rpc_error DelegationGraphRecord;
  getDelegationGraph :
    GetDelegationGraphRequest → stM W rpc_error (option DelegationGraphRecord);
  listDelegationGraphs :
    ListDelegationGraphsRequest → stM W rpc_error (list DelegationGraphRecord);
  putDelegationGraphNode :
    PutDelegationGraphNodeRequest → stM W rpc_error DelegationGraphNodeRecord;
  getDelegationGraphNode :
    GetDelegationGraphNodeRequest → stM W rpc_error (option DelegationGraphNodeRecord);
  listDelegationGraphNodes :
    ListDelegationGraphNodesRequest → stM W rpc_error (list DelegationGraphNodeRecord);
  putDelegationGraphDependency :
    PutDelegationGraphDependencyRequest → stM W rpc_error DelegationGraphDependencyRecord;
  listDelegationGraphDependencies :
    ListDelegationGraphDependenciesRequest →
    stM W rpc_error (list DelegationGraphDependencyRecord);
  updateDelegationGraphState :
    UpdateDelegationGraphStateRequest → stM W rpc_error DelegationGraphRecord;
  updateDelegationGraphNodeState :
    UpdateDelegationGraphNodeStateRequest → stM W rpc_error DelegationGraphNodeRecord;
  attachDelegationGraphNodeJob :
    AttachDelegationGraphNodeJobRequest → stM W rpc_error DelegationGraphNodeRecord;
  listReadyDelegationGraphNodes :
    ListReadyDelegationGraphNodesRequest → stM W rpc_error (list DelegationGraphNodeRecord);
  materializeReadyDelegationGraphNode :
    MaterializeReadyDelegationGraphNodeRequest →
    stM W rpc_error (option MaterializedDelegationGraphNode);
}.

Definition JobStoreMethods {W} `{!StorageTransport W} : SchedulerStore W := {|
  enqueueJob r := rpc (EnqueueJob r);
  claimJob r := rpc (ClaimJob r);
  heartbeatJob r := rpc (HeartbeatJob r);
  completeJob r := rpc (CompleteJob r);
  failJob r := rpc (FailJob r);
  cancelJob r := rpc (CancelJob r);
  getJob r := rpc (GetJob r);
  listJobs r := rpc (ListJobs r) |}.

Definition DelegationStoreMethods {W} `{!StorageTransport W} : DelegationStore W := {|
  putDelegationGraph r := rpc (PutGraph r);
  getDelegationGraph r := rpc (GetGraph r);
  listDelegationGraphs r := rpc (ListGraphs r);
  putDelegationGraphNode r := rpc (PutNode r);
  getDelegationGraphNode r := rpc (GetNode r);
  listDelegationGraphNodes r := rpc (ListNodes r);
  putDelegationGraphDependency r := rpc (PutDependency r);
  listDelegationGraphDependencies r := rpc (ListDependencies r);
  updateDelegationGraphState r := rpc (UpdateGraphState r);
  updateDelegationGraphNodeState r := rpc (UpdateNodeState r);
  attachDelegationGraphNodeJob r := rpc (AttachNodeJob r);
  listReadyDelegationGraphNodes r := rpc (ListReadyNodes r);
  materializeReadyDelegationGraphNode r := rpc (MaterializeReadyNode r) |}.

(** * The client refines the service *)

Lemma decode_many {R} `{RowCodec R} name (l : list R) :
  Forall canonical l → decode_reply (Many name) (JArr (to_row <$> l)) = Ok l.
Proof.
  simpl. intros Hl. cut (∀ acc, foldM (fun acc v => r ← from_row v; Ok (acc ++ [r])) acc
    (to_row <$> l) = Ok (acc ++ l)); [by intros Hacc; apply Hacc|].
  induction Hl as [|r l Hr _ IH]; intros acc; simpl.
  - by rewrite app_nil_r.
  - rewrite (from_to_row r Hr). simpl. rewrite IH. by rewrite <-app_assoc.
Qed.

Lemma to_row_not_null {R} `{RowCodec R} (r : R) : canonical r → to_row r ≠ JNull.
Proof. intros (fs & -> & _)%to_row_shape. done. Qed.

Lemma decode_encode_reply {A} (k : reply A) (a : A) :
  canonical_reply k a → decode_reply k (encode_reply k a) = Ok a.
Proof.
  destruct k as [R ?|R ?|R ? name]; simpl; intros Ha.
  - by apply from_to_row.
  - destruct a as [r|]; simpl; [|done].
    pose proof (to_row_not_null r Ha). pose proof (from_to_row r Ha) as Hr.
    destruct (to_row r); by rewrite ?Hr.
  - by apply (decode_many name).
Qed.

(** A typed service: what it does and answers, with the code and the message of
    its errors. *)
Abbreviation service W := (∀ A, StorageRpcCommand A → stM W (string * jstr) A).

Section refinement.
Context {W : Type} `{!StorageTransport W} (serve : service W).

Definition response_of {A} (k : reply A) (r : result (string * jstr) A) : envelope :=
  match r with
  | Ok a => SuccessEnvelope (encode_reply k a)
  | Throw (code, message) => ErrorEnvelope code message
  end.

(** The transport carries the service: a command is answered with the
    serialised reply, and replies have no JSON column that is explicitly
    [null]. *)
Definition carries : Prop :=
  ∀ A (c : StorageRpcCommand A) w,
    transport_call (command_json c) w =
      ((serve A c w).1, Ok (response_of (command_reply c) (serve A c w).2)) ∧
    (∀ a, (serve A c w).2 = Ok a → canonical_reply (command_reply c) a).

Definition transient (e : string * jstr) : bool :=
  isTransientSqliteResponse (ErrorEnvelope e.1 e.2).

(** The service with [left] retries of its transient errors. *)
Fixpoint serve_retrying (left : nat) {A} (c : StorageRpcCommand A) : stM W rpc_error A :=
  fun w => match serve A c w with
  | (w', Ok a) => (w', Ok a)
  | (w', Throw e) =>
      match left with
      | S left' =>
          if transient e then
            (_ ← sleep (backoffMs (4 - left)); serve_retrying left' c) w'
          else (w', Throw (SystemServiceClientError e.2 e.1))
      | O => (w', Throw (SystemServiceClientError e.2 e.1))
      end
  end.

Lemma call_loop_refines left {A} (c : StorageRpcCommand A) w :
  carries →
  (value ← call_loop left (command_json c);
   liftCodec (decode_reply (command_reply c) value)) w = serve_retrying left c w.
Proof.
  intros Hc. revert w.
  induction left as [|left IH]; intros w; destruct (Hc A c w) as [Hw Hcan]; simpl;
    unfold mbind, stM_bind in *; rewrite Hw; destruct (serve A c w) as [w' [a|[code m]]];
    simpl in *; rewrite ?(decode_encode_reply _ a) by auto; try done.
  unfold transient. simpl. destruct (_ && _); simpl; [|done].
  destruct (sleep _ _) as [w2 [[]|e2]]; [apply IH|done].
Qed.

(** Over a transport that carries a service, every method of the job and
    delegation stores behaves as the service's typed command, retried at most
    three times on its transient errors: requests and replies survive their
    encoding (C7). *)
Theorem rpc_refines_service {A} (c : StorageRpcCommand A) w :
  carries → rpc c w = serve_retrying 3 c w.
Proof. apply call_loop_refines. Qed.

(** The transport calls and delays by which a request is finally answered with
    [e]: every response before it was transient. *)
Inductive attempts (request : json) : list Z → W → W → envelope → Prop :=
| attempt_last w w' e :
    transport_call request w = (w', Ok e) → attempts request [] w w' e
| attempt_retry ms delays w w1 w2 w' e1 e :
    transport_call request w = (w1, Ok e1) → isTransientSqliteResponse e1 = true →
    sleep ms w1 = (w2, Ok tt) → attempts request delays w2 w' e →
    attempts request (ms :: delays) w w' e.

Lemma call_loop_attempts left request w :
  left ≤ 3 →
  (∀ w, is_ok (transport_call request w).2) → (∀ ms w, is_ok (sleep ms w).2) →
  ∃ n w' e, n ≤ left ∧
    attempts request (backoffMs <$> seq (4 - left) n) w w' e ∧
    (isTransientSqliteResponse e = true → n = left) ∧
    call_loop left request w = (w', parseResponseEnvelope e).
Proof.
  intros Hleft Htransport Hsleep. revert w Hleft.
  induction left as [|left IH]; intros w Hleft; simpl; unfold mbind, stM_bind;
    pose proof (Htransport w) as Ht;
    destruct (transport_call request w) as [w1 [e1|]] eqn:Hcall; try done.
  - exists 0, w1, e1. split; [lia|]. split; [by constructor|]. done.
  - destruct (isTransientSqliteResponse e1) eqn:Htr.
    + pose proof (Hsleep (backoffMs (3 - left)) w1) as Hs.
      destruct (sleep (backoffMs (3 - left)) w1) as [w2 [[]|]] eqn:Hslept; [|done].
      destruct (IH w2) as (n & w' & e & Hn & Hat & Hlast & ->); [lia|].
      exists (S n), w', e. split; [lia|]. split; [|split; [naive_solver|done]].
      change (seq (3 - left) (S n)) with (3 - left :: seq (S (3 - left)) n).
      replace (S (3 - left)) with (4 - left) by lia.
      by eapply attempt_retry.
    + exists 0, w1, e1. split; [lia|]. split; [by constructor|]. split; [congruence|done].
Qed.

(** Over a transport that answers, [call] returns after one to four transport
    calls, waiting 10, 20 and 40 ms between them; each response before the last
    is a transient SQLite failure, and the last is passed on as it is: either it
    is not transient or it is the fourth. *)
Theorem call_retries request w :
  (∀ w, is_ok (transport_call request w).2) → (∀ ms w, is_ok (sleep ms w).2) →
  ∃ n w' e, n ≤ 3 ∧
    attempts request (take n [10; 20; 40]%Z) w w' e ∧
    (isTransientSqliteResponse e = true → n = 3) ∧
    call request w = (w', parseResponseEnvelope e).
Proof.
  intros Ht Hs.
  destruct (call_loop_attempts 3 request w) as (n & w' & e & Hn & Hat & Hrest); [done..|].
  exists n, w', e. split; [done|]. split; [|done].
  do 4 (destruct n as [|n]; [exact Hat|]). lia.
Qed.
End refinement.

(** * Commands on the wire *)

(** Requests that differ at most in an optional JSON field given as [null] or
    left out. *)
Definition same_option (o1 o2 : option json) : Prop := default JNull o1 = default JNull o2.

Definition same_command {A B} (c1 : StorageRpcCommand A) (c2 : StorageRpcCommand B) : Prop :=
  match c1, c2 with
  | EnqueueJob r1, EnqueueJob r2 => r1 = r2
  | ClaimJob r1, ClaimJob r2 => r1 = r2
  | HeartbeatJob r1, HeartbeatJob r2 => r1 = r2
  | CompleteJob r1, CompleteJob r2 =>
      (co_jobId r1, co_workerId r1, co_leaseToken r1) =
      (co_jobId r2, co_workerId r2, co_leaseToken r2) ∧
      same_option (co_result r1) (co_result r2)
  | FailJob r1, FailJob r2 => r1 = r2
  | CancelJob r1, CancelJob r2 => r1 = r2
  | GetJob r1, GetJob r2 => r1 = r2
  | ListJobs r1, ListJobs r2 => r1 = r2
  | PutGraph r1, PutGraph r2 =>
      (pg_id r1, pg_principalId r1, pg_title r1, pg_idempotencyKey r1) =
      (pg_id r2, pg_principalId r2, pg_title r2, pg_idempotencyKey r2) ∧
      same_option (pg_metadata r1) (pg_metadata r2)
  | GetGraph r1, GetGraph r2 => r1 = r2
  | ListGraphs r1, ListGraphs r2 => r1 = r2
  | PutNode r1, PutNode r2 =>
      (pn_id r1, pn_graphId r1, pn_kind r1, pn_principalId r1, pn_payload r1,
       pn_idempotencyKey r1) =
      (pn_id r2, pn_graphId r2, pn_kind r2, pn_principalId r2, pn_payload r2,
       pn_idempotencyKey r2) ∧
      same_option (pn_metadata r1) (pn_metadata r2)
  | GetNode r1, GetNode r2 => r1 = r2
  | ListNodes r1, ListNodes r2 => r1 = r2
  | PutDependency r1, PutDependency r2 => r1 = r2
  | ListDependencies r1, ListDependencies r2 => r1 = r2
  | UpdateGraphState r1, UpdateGraphState r2 => r1 = r2
  | UpdateNodeState r1, UpdateNodeState r2 =>
      (un_nodeId r1, un_state r1, un_schedulerJobId r1) =
      (un_nodeId r2, un_state r2, un_schedulerJobId r2) ∧
      same_option (un_metadata r1) (un_metadata r2)
  | AttachNodeJob r1, AttachNodeJob r2 => r1 = r2
  | ListReadyNodes r1, ListReadyNodes r2 => r1 = r2
  | MaterializeReadyNode r1, MaterializeReadyNode r2 =>
      (mr_graphId r1, mr_nodeId r1, mr_workerId r1, mr_jobId r1, mr_jobKind r1,
       mr_scheduledAt r1, mr_notBefore r1, mr_priority r1, mr_maxAttempts r1,
       mr_retryPolicy r1, mr_jobIdempotencyKey r1, mr_budgetGrantId r1) =
      (mr_graphId r2, mr_nodeId r2, mr_workerId r2, mr_jobId r2, mr_jobKind r2,
       mr_scheduledAt r2, mr_notBefore r2, mr_priority r2, mr_maxAttempts r2,
       mr_retryPolicy r2, mr_jobIdempotencyKey r2, mr_budgetGrantId r2) ∧
      same_option (mr_jobPayload r1) (mr_jobPayload r2)
  | _, _ => False
  end.

#[export] Instance JStr_inj : Inj (=) (=) JStr.
Proof. by intros ?? [=]. Qed.
#[export] Instance JStr_null_inj : Inj (=) (=) (or_null JStr).
Proof. apply or_null_inj; [done|]. by intros ?? [=]. Qed.
#[export] Instance JNum_null_inj : Inj (=) (=) (or_null JNum).
Proof. apply or_null_inj; [done|]. by intros ?? [=]. Qed.
#[export] Instance enum_null_inj {T} `{StringEnum T} : Inj (=) (=) (or_null (@enum_json T _)).
Proof. apply or_null_inj; [done|apply _]. Qed.
#[export] Instance retry_null_inj : Inj (=) (=) (or_null retry_json).
Proof. apply or_null_inj; [done|apply _]. Qed.
#[export] Instance kinds_null_inj :
  Inj (=) (=) (or_null (fun l : list SchedulerJobKind => JArr (enum_json <$> l))).
Proof. apply or_null_inj; [done|]. intros ?? [= Heq]. by apply (inj (fmap enum_json)). Qed.
#[export] Instance queues_null_inj : Inj (=) (=) (or_null (fun l => JArr (JStr <$> l))).
Proof.
  apply or_null_inj; [done|]. intros l1 l2 [= Heq]. revert Heq.
  apply (inj (fmap (M := list) JStr)).
Qed.

(** Reads a field of a request off its wire value. *)
Ltac invert_wire :=
  repeat match goal with
  | H : or_null _ _ = or_null _ _ |- _ => apply (inj (or_null _)) in H
  | H : match ?x with _ => _ end = match ?y with _ => _ end |- _ =>
      change (enum_name x = enum_name y) in H; apply (inj enum_name) in H
  | H : JStr _ = JStr _ |- _ => injection H as H
  | H : JNum _ = JNum _ |- _ => injection H as H
  | H : context [metadata_json _] |- _ => unfold metadata_json in H
  | H : context [toRpcJsonValue _] |- _ => rewrite !toRpcJsonValue_id in H
  end.

(** One command's request is determined by its wire value, and conversely. *)
Ltac solve_request :=
  lazymatch goal with
  | |- command_json (_ ?r1) = command_json (_ ?r2) ↔ _ => destruct r1, r2
  end; simpl; unfold same_option;
  split;
  [ intros H; injection H; clear H; intros; invert_wire; subst; done
  | intros H; try (injection H; intros; subst; done); destruct_and?; simplify_eq;
    try done; cbv -[metadata_json or_null enum_json toRpcJsonValue default retry_json];
    unfold metadata_json; rewrite ?toRpcJsonValue_id;
    match goal with Hopt : default _ _ = default _ _ |- _ => by rewrite Hopt end ].

(** The service can tell commands apart: two commands have the same wire value
    exactly when they are the same command with the same request, up to an
    optional JSON field being [null] or left out. *)
Theorem command_json_same {A B} (c1 : StorageRpcCommand A) (c2 : StorageRpcCommand B) :
  command_json c1 = command_json c2 ↔ same_command c1 c2.
Proof.
  destruct c1, c2; try (split; [intros H; discriminate H|done]).
  all: solve_request.
Qed.

(** * Examples: a service that fails transiently a number of times, then knows
    one job *)

Definition sample_job : SchedulerJobRecord := {|
  job_id := "job-1"; job_kind := PluginAction; job_queue := "default";
  job_state := JobSucceeded; job_principalId := "p"; job_payload := JNull;
  job_scheduledAt := num_of_Z 5; job_notBefore := None; job_priority := num_of_Z 0;
  job_concurrencyKey := None; job_attempt := num_of_Z 1; job_maxAttempts := num_of_Z 3;
  job_retryPolicy := {| rp_strategy := RetryFixed; rp_initialDelayMs := Some (num_of_Z 10);
                        rp_maxDelayMs := None |};
  job_idempotencyKey := None; job_budgetGrantId := None; job_leaseOwner := None;
  job_leaseToken := None; job_leaseExpiresAt := None;
  job_result := Some (JObj [("ok", JBool true)]); job_lastError := None;
  job_createdAt := num_of_Z 5; job_updatedAt := num_of_Z 9;
  job_finishedAt := Some (num_of_Z 9) |}.

Definition locked : string * jstr := ("sqlite", js "Database is LOCKED (5)").
Definition unknown_command : string * jstr := ("invalid_request", js "unknown").

Definition empty_answer {A} (k : reply A) : result (string * jstr) A :=
  match k with One => Throw unknown_command | Nullable => Ok None | Many _ => Ok [] end.

Definition sample_service : service nat := fun A c n =>
  match n with
  | S n => (n, Throw locked)
  | O =>
      (0, match c in StorageRpcCommand B return reply B → result (string * jstr) B with
          | GetJob r => fun k =>
              if bool_decide (gj_jobId r = "job-1") then Ok (Some sample_job)
              else empty_answer k
          | _ => empty_answer
          end (command_reply c))
  end.

Definition sample_nullable : list string :=
  ["claim-job"; "heartbeat-job"; "complete-job"; "fail-job"; "cancel-job"; "get-job";
   "get-delegation-graph"; "get-delegation-graph-node";
   "materialize-ready-delegation-graph-node"].

Definition sample_many : list string :=
  ["list-jobs"; "list-delegation-graphs"; "list-delegation-graph-nodes";
   "list-delegation-graph-dependencies"; "list-ready-delegation-graph-nodes"].

Definition sample_answer (request : json) : envelope :=
  match isRecord request ≫= jget "command" with
  | Some (JStr name) =>
      if bool_decide (name ∈ sample_many) then SuccessEnvelope (JArr [])
      else if bool_decide (name ∈ sample_nullable) then
        SuccessEnvelope (if bool_decide (request = command_json
          (GetJob {| gj_jobId := "job-1" |})) then job_row sample_job else JNull)
      else ErrorEnvelope unknown_command.1 unknown_command.2
  | _ => ErrorEnvelope unknown_command.1 unknown_command.2
  end.

Definition sample_transport : StorageTransport nat := {|
  transport_call request n :=
    match n with
    | S n => (n, Ok (ErrorEnvelope locked.1 locked.2))
    | O => (0, Ok (sample_answer request))
    end;
  sleep _ n := (n, Ok tt) |}.

Lemma sample_carries : carries (W := nat) (StorageTransport0 := sample_transport) sample_service.
Proof.
  intros A c [|n]; [|done]. split; destruct c; try done; try (by intros a [= <-]; repeat constructor);
    try (simpl; by rewrite bool_decide_false by discriminate).
  - destruct r as [id]. simpl. destruct (decide (id = "job-1")) as [->|Hid]; [done|].
    unfold sample_answer, toRpcGetJobRequest. simpl.
    rewrite (bool_decide_false (id = _)) by done.
    by rewrite (bool_decide_false (JObj _ = _)) by (by intros [= ?]).
  - intros a. simpl. case_bool_decide; intros [= <-]; done.
Qed.

Lemma rpc_refines_service_witness :
  rpc (StorageTransport0 := sample_transport) (GetJob {| gj_jobId := "job-1" |}) 2 =
  (0, Ok (Some sample_job)).
Proof.
  rewrite (rpc_refines_service (StorageTransport0 := sample_transport) sample_service);
    [vm_compute; reflexivity|].
  exact sample_carries.
Defined.

Lemma call_retries_witness :
  ∃ n w' e, n ≤ 3 ∧
    attempts (StorageTransport0 := sample_transport) (JStr "ping") (take n [10; 20; 40]%Z) 5 w' e ∧
    (isTransientSqliteResponse e = true → n = 3) ∧
    call (StorageTransport0 := sample_transport) (JStr "ping") 5 = (w', parseResponseEnvelope e).
Proof. apply (call_retries (StorageTransport0 := sample_transport)); [by intros [|w]|done]. Defined.
