(* ===== verification/DelegationGraph.v ===== *)
(** The status of a delegation graph
    ([packages/team/src/delegation/graph/status.ts], [types.ts]): how many nodes
    are in which state, which of the unstarted ones are ready and which are
    blocked by which dependencies, and the progress of the whole graph. *)
From Stdlib Require Import Floats.SpecFloat.
From S2P Require Import Prelude JsMap Json Protocol.

Record DelegationGraphSnapshot := {
  sn_graph : DelegationGraphRecord;
  sn_nodes : list DelegationGraphNodeRecord;
  sn_dependencies : list DelegationGraphDependencyRecord;
}.

Inductive DelegationGraphProgressState :=
| ProgressEmpty | ProgressNotStarted | ProgressActive | ProgressBlocked
| ProgressSucceeded | ProgressFailed | ProgressCancelled.

#[export] Instance DelegationGraphProgressState_eq_dec :
  EqDecision DelegationGraphProgressState.
Proof. solve_decision. Defined.

Record DelegationGraphNodeStateCounts := {
  n_pending : Z;
  n_ready : Z;
  n_running : Z;
  n_succeeded : Z;
  n_failed : Z;
  n_cancelled : Z;
  n_skipped : Z;
}.

Record DelegationGraphBlockedNode := {
  bl_node : DelegationGraphNodeRecord;
  bl_blockedBy : list DelegationGraphDependencyRecord;
}.

Record DelegationGraphStatus := {
  gs_graph : DelegationGraphRecord;
  gs_progressState : DelegationGraphProgressState;
  gs_nodeCount : Z;
  gs_dependencyCount : Z;
  gs_completedNodeCount : Z;
  gs_activeNodeCount : Z;
  gs_blockedNodeCount : Z;
  gs_progressRatio : jsnum;
  gs_counts : DelegationGraphNodeStateCounts;
  gs_readyNodes : list DelegationGraphNodeRecord;
  gs_runningNodes : list DelegationGraphNodeRecord;
  gs_blockedNodes : list DelegationGraphBlockedNode;
  gs_failedNodes : list DelegationGraphNodeRecord;
  gs_cancelledNodes : list DelegationGraphNodeRecord;
}.

Definition TERMINAL_NODE_STATES : list DelegationNodeState :=
  [NodeSucceeded; NodeFailed; NodeCancelled; NodeSkipped].

Definition is_terminal (state : DelegationNodeState) : bool :=
  bool_decide (state ∈ TERMINAL_NODE_STATES).

Definition isReadyCandidate (node : DelegationGraphNodeRecord) : bool :=
  (bool_decide (nd_state node = NodePending) || bool_decide (nd_state node = NodeReady))
  && bool_decide (nd_schedulerJobId node = None).

Definition dependencySatisfied (dependency : DelegationGraphDependencyRecord)
    (source : DelegationGraphNodeRecord) : bool :=
  match dep_kind dependency with
  | AfterSuccess => bool_decide (nd_state source = NodeSucceeded)
  | AfterTerminal => is_terminal (nd_state source)
  end.

(** [counts[state] += 1] *)
Definition add_state (counts : DelegationGraphNodeStateCounts) (state : DelegationNodeState)
    : DelegationGraphNodeStateCounts :=
  let one s := if decide (state = s) then 1%Z else 0%Z in
  {| n_pending := n_pending counts + one NodePending;
     n_ready := n_ready counts + one NodeReady;
     n_running := n_running counts + one NodeRunning;
     n_succeeded := n_succeeded counts + one NodeSucceeded;
     n_failed := n_failed counts + one NodeFailed;
     n_cancelled := n_cancelled counts + one NodeCancelled;
     n_skipped := n_skipped counts + one NodeSkipped |}.

Definition countNodeStates (nodes : list DelegationGraphNodeRecord)
    : DelegationGraphNodeStateCounts :=
  foldl (fun counts node => add_state counts (nd_state node))
    {| n_pending := 0; n_ready := 0; n_running := 0; n_succeeded := 0; n_failed := 0;
       n_cancelled := 0; n_skipped := 0 |} nodes.

Definition graphProgressState (nodeCount : Z) (counts : DelegationGraphNodeStateCounts)
    (activeNodeCount blockedNodeCount : Z) : DelegationGraphProgressState :=
  if decide (nodeCount = 0)%Z then ProgressEmpty
  else if decide (0 < n_failed counts)%Z then ProgressFailed
  else if decide (0 < n_cancelled counts)%Z then ProgressCancelled
  else if decide (n_succeeded counts + n_skipped counts = nodeCount)%Z then ProgressSucceeded
  else if decide (0 < activeNodeCount)%Z then ProgressActive
  else if decide (0 < blockedNodeCount)%Z then ProgressBlocked
  else ProgressNotStarted.

(** [new Map(nodes.map((node) => [node.id, node]))] *)
Definition nodes_by_id (nodes : list DelegationGraphNodeRecord)
    : list (string * DelegationGraphNodeRecord) :=
  foldl (fun m node => jset (nd_id node) node m) [] nodes.

(** The dependency holds its target back. *)
Definition blocks (nodesById : list (string * DelegationGraphNodeRecord))
    (dependency : DelegationGraphDependencyRecord) : bool :=
  match jget (dep_fromNodeId dependency) nodesById with
  | None => true
  | Some source => negb (dependencySatisfied dependency source)
  end.

Definition blockers (snapshot : DelegationGraphSnapshot)
    (nodesById : list (string * DelegationGraphNodeRecord))
    (node : DelegationGraphNodeRecord) : list DelegationGraphDependencyRecord :=
  filter (fun dependency => dep_toNodeId dependency = nd_id node ∧ blocks nodesById dependency)
    (sn_dependencies snapshot).

Definition blockedPendingNodes (snapshot : DelegationGraphSnapshot)
    : list DelegationGraphBlockedNode :=
  let nodesById := nodes_by_id (sn_nodes snapshot) in
  foldl (fun blocked node =>
    if isReadyCandidate node then
      let by_ := blockers snapshot nodesById node in
      if decide (0 < length by_) then
        blocked ++ [{| bl_node := node; bl_blockedBy := by_ |}]
      else blocked
    else blocked) [] (sn_nodes snapshot).

Definition in_state (state : DelegationNodeState) (nodes : list DelegationGraphNodeRecord)
    : list DelegationGraphNodeRecord :=
  filter (fun node => nd_state node = state) nodes.

Definition buildGraphStatus (snapshot : DelegationGraphSnapshot) : DelegationGraphStatus :=
  let nodes := sn_nodes snapshot in
  let counts := countNodeStates nodes in
  let blockedNodes := blockedPendingNodes snapshot in
  let blockedNodeIds := (fun item => nd_id (bl_node item)) <$> blockedNodes in
  let readyNodes :=
    filter (fun node => isReadyCandidate node ∧ nd_id node ∉ blockedNodeIds) nodes in
  let runningNodes := in_state NodeRunning nodes in
  let failedNodes := in_state NodeFailed nodes in
  let cancelledNodes := in_state NodeCancelled nodes in
  let completedNodeCount :=
    (n_succeeded counts + n_failed counts + n_cancelled counts + n_skipped counts)%Z in
  let activeNodeCount := Z.of_nat (length readyNodes + length runningNodes) in
  let nodeCount := Z.of_nat (length nodes) in
  let blockedNodeCount := Z.of_nat (length blockedNodes) in
  {| gs_graph := sn_graph snapshot;
     gs_progressState := graphProgressState nodeCount counts activeNodeCount blockedNodeCount;
     gs_nodeCount := nodeCount;
     gs_dependencyCount := Z.of_nat (length (sn_dependencies snapshot));
     gs_completedNodeCount := completedNodeCount;
     gs_activeNodeCount := activeNodeCount;
     gs_blockedNodeCount := blockedNodeCount;
     gs_progressRatio :=
       if decide (nodeCount = 0)%Z then num_of_Z 1
       else SFdiv 53 1024 (num_of_Z completedNodeCount) (num_of_Z nodeCount);
     gs_counts := counts;
     gs_readyNodes := readyNodes;
     gs_runningNodes := runningNodes;
     gs_blockedNodes := blockedNodes;
     gs_failedNodes := failedNodes;
     gs_cancelledNodes := cancelledNodes |}.

(** * Specification *)

Section status.
Context (snapshot : DelegationGraphSnapshot).
Local Abbreviation nodes := (sn_nodes snapshot).
Local Abbreviation dependencies := (sn_dependencies snapshot).

(** A dependency is met by a node of the graph. *)
Definition dependency_met (d : DelegationGraphDependencyRecord) : Prop :=
  ∃ source, source ∈ nodes ∧ nd_id source = dep_fromNodeId d ∧ dependencySatisfied d source.

Definition unmet (node : DelegationGraphNodeRecord) (d : DelegationGraphDependencyRecord)
    : Prop :=
  dep_toNodeId d = nd_id node ∧ ¬ dependency_met d.

Context (Hids : NoDup (nd_id <$> nodes)).

Lemma node_of_id n1 n2 : n1 ∈ nodes → n2 ∈ nodes → nd_id n1 = nd_id n2 → n1 = n2.
Proof.
  intros [i Hi]%list_elem_of_lookup [j Hj]%list_elem_of_lookup Heq.
  assert (i = j) as <-; [|congruence].
  eapply NoDup_lookup; [exact Hids|..]; rewrite list_lookup_fmap;
    [by rewrite Hi|by rewrite Hj; simpl; rewrite Heq].
Qed.

Lemma nodes_by_id_eq : nodes_by_id nodes = (fun node => (nd_id node, node)) <$> nodes.
Proof.
  unfold nodes_by_id. revert Hids.
  cut (∀ m, NoDup (m.*1 ++ (nd_id <$> nodes)) →
    foldl (fun m node => jset (nd_id node) node m) m nodes =
    m ++ ((fun node => (nd_id node, node)) <$> nodes)); [intros Hf Hnd; by apply (Hf [])|].
  induction nodes as [|n l IH]; intros m Hnd; simpl in *; [by rewrite app_nil_r|].
  rewrite jset_fresh.
  - rewrite IH, <-app_assoc; [done|]. by rewrite fmap_app, <-app_assoc.
  - apply NoDup_app in Hnd as (_ & Hd & _). intros Hin. by eapply Hd; [|left].
Qed.

Lemma jget_nodes_by_id id node :
  jget id (nodes_by_id nodes) = Some node ↔ node ∈ nodes ∧ nd_id node = id.
Proof.
  rewrite nodes_by_id_eq. split.
  - intros Hin%jget_elem_of. apply list_elem_of_fmap in Hin as (n & [= -> ->] & ?). done.
  - intros [Hn <-]. apply elem_of_jget.
    + by rewrite <-list_fmap_compose.
    + apply list_elem_of_fmap. eauto.
Qed.

Lemma blocks_unmet d : blocks (nodes_by_id nodes) d ↔ ¬ dependency_met d.
Proof.
  unfold blocks, dependency_met.
  destruct (jget _ _) as [source|] eqn:Hget.
  - apply jget_nodes_by_id in Hget as [Hin Hid].
    rewrite negb_True. split; [|by eauto 10].
    intros Hn (s' & Hs' & Hid' & Hsat). apply Hn.
    by rewrite (node_of_id source s') by congruence.
  - split; [|done]. intros _ (s' & Hs' & Hid' & _).
    assert (jget (dep_fromNodeId d) (nodes_by_id nodes) = Some s') as Hs;
      [by apply jget_nodes_by_id|congruence].
Qed.

Lemma elem_of_blockers node d :
  d ∈ blockers snapshot (nodes_by_id nodes) node ↔ d ∈ dependencies ∧ unmet node d.
Proof. unfold blockers, unmet. rewrite list_elem_of_filter, blocks_unmet. tauto. Qed.

Lemma blockers_nil node :
  blockers snapshot (nodes_by_id nodes) node = [] ↔ ∀ d, d ∈ dependencies → ¬ unmet node d.
Proof.
  rewrite eq_nil_not_elem. setoid_rewrite elem_of_blockers. naive_solver.
Qed.

Lemma blockedPendingNodes_eq :
  blockedPendingNodes snapshot =
  (fun node => {| bl_node := node; bl_blockedBy := blockers snapshot (nodes_by_id nodes) node |})
  <$> filter (fun node => isReadyCandidate node ∧
                0 < length (blockers snapshot (nodes_by_id nodes) node)) nodes.
Proof.
  unfold blockedPendingNodes. generalize (nodes_by_id nodes) as byId. intros byId.
  cut (∀ l acc, foldl (fun blocked node =>
    if isReadyCandidate node then
      if decide (0 < length (blockers snapshot byId node)) then
        blocked ++ [{| bl_node := node; bl_blockedBy := blockers snapshot byId node |}]
      else blocked
    else blocked) acc l = acc ++ ((fun node =>
      {| bl_node := node; bl_blockedBy := blockers snapshot byId node |}) <$>
      filter (fun node => isReadyCandidate node ∧ 0 < length (blockers snapshot byId node)) l));
    [intros Hf; apply (Hf nodes [])|].
  induction l as [|n l IH]; intros acc; simpl; [by rewrite app_nil_r|].
  rewrite IH. destruct (isReadyCandidate n) eqn:Hc.
  - case_decide as Hl.
    + rewrite filter_cons_True by (split; [by rewrite Hc|done]). simpl. by rewrite <-app_assoc.
    + by rewrite filter_cons_False by (rewrite Hc; tauto).
  - rewrite filter_cons_False by (rewrite Hc; tauto). done.
Qed.

Lemma elem_of_blocked_nodes n :
  n ∈ bl_node <$> blockedPendingNodes snapshot ↔
  n ∈ nodes ∧ isReadyCandidate n ∧ ∃ d, d ∈ dependencies ∧ unmet n d.
Proof.
  rewrite blockedPendingNodes_eq, <-list_fmap_compose.
  rewrite (list_fmap_ext _ id) by done. rewrite list_fmap_id, list_elem_of_filter.
  assert (0 < length (blockers snapshot (nodes_by_id nodes) n) ↔
    ∃ d, d ∈ dependencies ∧ unmet n d) as ->; [|tauto].
  setoid_rewrite <-elem_of_blockers.
  destruct (blockers snapshot (nodes_by_id nodes) n) as [|d l]; simpl; [set_solver by lia|].
  split; [|lia]. intros _. exists d. set_solver.
Qed.

Lemma elem_of_ready n :
  n ∈ gs_readyNodes (buildGraphStatus snapshot) ↔
  n ∈ nodes ∧ isReadyCandidate n ∧ ∀ d, d ∈ dependencies → ¬ unmet n d.
Proof.
  simpl. rewrite list_elem_of_filter.
  assert (n ∈ nodes → nd_id n ∉ ((fun item => nd_id (bl_node item)) <$>
    blockedPendingNodes snapshot) ↔ n ∉ bl_node <$> blockedPendingNodes snapshot) as Hids'.
  { intros Hn. rewrite (list_fmap_compose bl_node nd_id).
    split; intros Hnot Hin; apply Hnot.
    - apply list_elem_of_fmap. eauto.
    - apply list_elem_of_fmap in Hin as (n' & Heq & Hn').
      pose proof Hn' as [Hin' _]%elem_of_blocked_nodes. by rewrite (node_of_id n n'). }
  split.
  - intros ((Hc & Hnb) & Hn). split; [done|]. split; [done|]. intros d Hd Hu.
    apply (proj1 (Hids' Hn) Hnb), elem_of_blocked_nodes. eauto.
  - intros (Hn & Hc & Hmet). split; [|done]. split; [done|]. apply Hids'; [done|].
    intros (_ & _ & d & Hd & Hu)%elem_of_blocked_nodes. by eapply Hmet.
Qed.
End status.

(** * Counting nodes *)

Definition count (state : DelegationNodeState) (l : list DelegationGraphNodeRecord) : Z :=
  Z.of_nat (length (in_state state l)).

Lemma length_in_state_cons state n l :
  length (in_state state (n :: l)) =
  (if decide (nd_state n = state) then 1 else 0) + length (in_state state l).
Proof.
  unfold in_state. rewrite filter_cons. by case_decide.
Qed.

Lemma countNodeStates_eq l :
  countNodeStates l = {|
    n_pending := count NodePending l;
    n_ready := count NodeReady l;
    n_running := count NodeRunning l;
    n_succeeded := count NodeSucceeded l;
    n_failed := count NodeFailed l;
    n_cancelled := count NodeCancelled l;
    n_skipped := count NodeSkipped l |}.
Proof.
  unfold countNodeStates.
  cut (∀ c, foldl (fun counts node => add_state counts (nd_state node)) c l = {|
    n_pending := n_pending c + count NodePending l;
    n_ready := n_ready c + count NodeReady l;
    n_running := n_running c + count NodeRunning l;
    n_succeeded := n_succeeded c + count NodeSucceeded l;
    n_failed := n_failed c + count NodeFailed l;
    n_cancelled := n_cancelled c + count NodeCancelled l;
    n_skipped := n_skipped c + count NodeSkipped l |}); [intros Hf; apply Hf|].
  induction l as [|n l IH]; intros c; simpl.
  - destruct c; simpl. f_equal; unfold count; simpl; lia.
  - rewrite IH. unfold count. rewrite !length_in_state_cons. simpl. f_equal; case_decide; lia.
Qed.

Lemma in_state_pos state l :
  (0 < count state l)%Z ↔ ∃ n, n ∈ l ∧ nd_state n = state.
Proof.
  unfold count. split.
  - intros Hl. destruct (in_state state l) as [|n l'] eqn:E; simpl in Hl; [lia|].
    apply filter_head in E as [? ?]. eauto.
  - intros (n & Hn & Hs). assert (n ∈ in_state state l) as Hin by (by apply list_elem_of_filter).
    destruct (in_state state l); [set_solver|simpl; lia].
Qed.

Lemma in_state_total l :
  length l = length (in_state NodePending l) + length (in_state NodeReady l) +
    length (in_state NodeRunning l) + length (in_state NodeSucceeded l) +
    length (in_state NodeFailed l) + length (in_state NodeCancelled l) +
    length (in_state NodeSkipped l).
Proof.
  induction l as [|n l IH]; [done|]. rewrite !length_in_state_cons. simpl.
  destruct (nd_state n); simpl; lia.
Qed.

Lemma in_state_two s1 s2 l :
  s1 ≠ s2 →
  (count s1 l + count s2 l = Z.of_nat (length l))%Z ↔
  ∀ n, n ∈ l → nd_state n = s1 ∨ nd_state n = s2.
Proof.
  intros Hne.
  assert (length (in_state s1 l) + length (in_state s2 l) ≤ length l ∧
    (length (in_state s1 l) + length (in_state s2 l) = length l ↔
     ∀ n, n ∈ l → nd_state n = s1 ∨ nd_state n = s2)) as [_ <-]; [|unfold count; lia].
  induction l as [|n l [IHle IH]]; [split; [simpl; lia|set_solver]|].
  rewrite !length_in_state_cons. simpl. setoid_rewrite elem_of_cons.
  assert (nd_state n = s1 ∨ nd_state n = s2 ∨ (nd_state n ≠ s1 ∧ nd_state n ≠ s2))
    as [Hs|[Hs|[Hs1 Hs2]]]
    by (destruct (decide (nd_state n = s1)), (decide (nd_state n = s2)); tauto).
  - rewrite decide_True, decide_False by congruence. split; [lia|].
    split; [|intros Hall; cut (length (in_state s1 l) + length (in_state s2 l) = length l);
      [lia|apply IH; eauto]].
    intros Hl m [->|Hm]; [by left|]. apply IH; [lia|done].
  - rewrite decide_False, decide_True by congruence. split; [lia|].
    split; [|intros Hall; cut (length (in_state s1 l) + length (in_state s2 l) = length l);
      [lia|apply IH; eauto]].
    intros Hl m [->|Hm]; [by right|]. apply IH; [lia|done].
  - rewrite !decide_False by done. split; [lia|]. split; [lia|].
    intros Hall. by destruct (Hall n (or_introl eq_refl)).
Qed.

(** * The properties *)

(** A node that waits for its job to start. *)
Definition attached (node : DelegationGraphNodeRecord) : bool :=
  (bool_decide (nd_state node = NodePending) || bool_decide (nd_state node = NodeReady))
  && bool_decide (nd_schedulerJobId node ≠ None).

Lemma node_cases n :
  (isReadyCandidate n ∧ ¬ attached n ∧ nd_state n ≠ NodeRunning ∧ ¬ is_terminal (nd_state n)) ∨
  (attached n ∧ ¬ isReadyCandidate n ∧ nd_state n ≠ NodeRunning ∧ ¬ is_terminal (nd_state n)) ∨
  (nd_state n = NodeRunning ∧ ¬ isReadyCandidate n ∧ ¬ attached n ∧ ¬ is_terminal (nd_state n)) ∨
  (is_terminal (nd_state n) ∧ ¬ isReadyCandidate n ∧ ¬ attached n ∧ nd_state n ≠ NodeRunning).
Proof.
  unfold isReadyCandidate, attached, is_terminal.
  destruct (nd_state n), (nd_schedulerJobId n); vm_compute; naive_solver.
Qed.

Lemma unmet_cases snapshot n :
  NoDup (nd_id <$> sn_nodes snapshot) →
  (∃ d, d ∈ sn_dependencies snapshot ∧ unmet snapshot n d) ∨
  (∀ d, d ∈ sn_dependencies snapshot → ¬ unmet snapshot n d).
Proof.
  intros Hids. setoid_rewrite <-(elem_of_blockers snapshot Hids) at 1.
  rewrite <-(blockers_nil snapshot Hids).
  destruct (blockers _ _ n) as [|d l]; [by right|]. left. exists d. set_solver.
Qed.

Lemma blocked_nodes_eq snapshot :
  NoDup (nd_id <$> sn_nodes snapshot) →
  bl_node <$> blockedPendingNodes snapshot =
  filter (fun node => isReadyCandidate node ∧
    0 < length (blockers snapshot (nodes_by_id (sn_nodes snapshot)) node)) (sn_nodes snapshot).
Proof.
  intros Hids. rewrite blockedPendingNodes_eq, <-list_fmap_compose by done.
  rewrite (list_fmap_ext _ id) by done. apply list_fmap_id.
Qed.

Lemma status_partition snapshot :
  let st := buildGraphStatus snapshot in
  NoDup (nd_id <$> sn_nodes snapshot) →
  sn_nodes snapshot ≡ₚ
    gs_readyNodes st ++ (bl_node <$> gs_blockedNodes st) ++ gs_runningNodes st ++
    filter (fun n => attached n) (sn_nodes snapshot) ++
    filter (fun n => is_terminal (nd_state n)) (sn_nodes snapshot).
Proof.
  intros st Hids.
  pose proof (elem_of_ready snapshot Hids) as Hready.
  pose proof (elem_of_blocked_nodes snapshot Hids) as Hblocked.
  subst st. simpl in *. rewrite blocked_nodes_eq in Hblocked |- * by done.
  unfold in_state.
  pose proof (fun n (_ : n ∈ sn_nodes snapshot) =>
    conj (node_cases n) (unmet_cases snapshot n Hids)) as Hcases.
  setoid_rewrite list_elem_of_filter in Hready. setoid_rewrite list_elem_of_filter in Hblocked.
  rewrite <-(filter_or (fun n => attached n)), <-(filter_or (fun n => nd_state n = NodeRunning)),
    <-filter_or, <-filter_or.
  - rewrite filter_all; [done|]. intros n Hn. specialize (Hcases n Hn).
    specialize (Hready n). specialize (Hblocked n). naive_solver.
  - intros n Hn. specialize (Hcases n Hn). specialize (Hready n). specialize (Hblocked n).
    naive_solver.
  - intros n Hn. specialize (Hcases n Hn). specialize (Hblocked n). naive_solver.
  - intros n Hn. specialize (Hcases n Hn). naive_solver.
  - intros n Hn. specialize (Hcases n Hn). naive_solver.
Qed.

(** The status classifies every node: the ready ones are the unstarted ones all
    of whose dependencies are met, the blocked ones the unstarted ones with an
    unmet dependency, each with exactly its unmet dependencies, and every node is
    in exactly one of ready, blocked, waiting for its job, running and
    finished (C8). *)
Theorem buildGraphStatus_classifies snapshot :
  let st := buildGraphStatus snapshot in
  NoDup (nd_id <$> sn_nodes snapshot) →
  (∀ n, n ∈ gs_readyNodes st ↔
     n ∈ sn_nodes snapshot ∧ isReadyCandidate n ∧
     ∀ d, d ∈ sn_dependencies snapshot → ¬ unmet snapshot n d) ∧
  (∀ n, n ∈ bl_node <$> gs_blockedNodes st ↔
     n ∈ sn_nodes snapshot ∧ isReadyCandidate n ∧
     ∃ d, d ∈ sn_dependencies snapshot ∧ unmet snapshot n d) ∧
  (∀ b, b ∈ gs_blockedNodes st →
     bl_blockedBy b `sublist_of` sn_dependencies snapshot ∧
     ∀ d, d ∈ bl_blockedBy b ↔ d ∈ sn_dependencies snapshot ∧ unmet snapshot (bl_node b) d) ∧
  sn_nodes snapshot ≡ₚ
    gs_readyNodes st ++ (bl_node <$> gs_blockedNodes st) ++ gs_runningNodes st ++
    filter (fun n => attached n) (sn_nodes snapshot) ++
    filter (fun n => is_terminal (nd_state n)) (sn_nodes snapshot).
Proof.
  intros st Hids. split; [apply elem_of_ready, Hids|].
  split; [apply elem_of_blocked_nodes, Hids|]. split.
  - intros b Hb. subst st. simpl in Hb. rewrite blockedPendingNodes_eq in Hb by done.
    apply list_elem_of_fmap in Hb as (n & -> & _). simpl.
    split; [apply sublist_filter|]. intros d. by apply elem_of_blockers.
  - apply status_partition, Hids.
Qed.

Lemma length_pos {A} (l : list A) : (0 < Z.of_nat (length l))%Z ↔ ∃ x, x ∈ l.
Proof.
  destruct l as [|x l]; simpl; [set_solver by lia|]. split; [|lia]. intros _. exists x.
  set_solver.
Qed.

Lemma completed_count l :
  (count NodeSucceeded l + count NodeFailed l + count NodeCancelled l + count NodeSkipped l =
   Z.of_nat (length (filter (fun n => is_terminal (nd_state n)) l)))%Z.
Proof.
  unfold count. induction l as [|n l IH]; [done|].
  rewrite !length_in_state_cons, filter_cons. unfold is_terminal at 1.
  destruct (nd_state n); simpl; lia.
Qed.

Lemma length_app_pos {A} (l1 l2 : list A) :
  (0 < Z.of_nat (length l1 + length l2))%Z ↔ (∃ x, x ∈ l1) ∨ (∃ x, x ∈ l2).
Proof. rewrite <-!length_pos. lia. Qed.

Lemma terminal_cases state :
  is_terminal state ↔
  state = NodeSucceeded ∨ state = NodeFailed ∨ state = NodeCancelled ∨ state = NodeSkipped.
Proof. destruct state; vm_compute; naive_solver. Qed.

(** [completedNodeCount] counts the finished nodes, and the progress of a graph is
    the first of these that applies: it has no nodes; a node failed; a node was
    cancelled; every node succeeded or was skipped; a node runs or could run; an
    unstarted node has an unmet dependency; and otherwise every unfinished node
    waits for its job. *)
Theorem buildGraphStatus_progress snapshot :
  let st := buildGraphStatus snapshot in
  let some state := ∃ n, n ∈ sn_nodes snapshot ∧ nd_state n = state in
  let unmet n := ∃ d, d ∈ sn_dependencies snapshot ∧ unmet snapshot n d in
  let unstarted n := n ∈ sn_nodes snapshot ∧ isReadyCandidate n in
  let done n := nd_state n = NodeSucceeded ∨ nd_state n = NodeSkipped in
  NoDup (nd_id <$> sn_nodes snapshot) →
  gs_completedNodeCount st =
    Z.of_nat (length (filter (fun n => is_terminal (nd_state n)) (sn_nodes snapshot))) ∧
  match gs_progressState st with
  | ProgressEmpty => sn_nodes snapshot = []
  | ProgressFailed => some NodeFailed
  | ProgressCancelled => some NodeCancelled ∧ ¬ some NodeFailed
  | ProgressSucceeded => sn_nodes snapshot ≠ [] ∧ ∀ n, n ∈ sn_nodes snapshot → done n
  | ProgressActive => ¬ some NodeFailed ∧ ¬ some NodeCancelled ∧
      (some NodeRunning ∨ ∃ n, unstarted n ∧ ¬ unmet n)
  | ProgressBlocked => ¬ some NodeFailed ∧ ¬ some NodeCancelled ∧ ¬ some NodeRunning ∧
      (∃ n, unstarted n) ∧ ∀ n, unstarted n → unmet n
  | ProgressNotStarted => ¬ some NodeFailed ∧ ¬ some NodeCancelled ∧
      (∃ n, n ∈ sn_nodes snapshot ∧ attached n) ∧
      ∀ n, n ∈ sn_nodes snapshot → attached n ∨ done n
  end.
Proof.
  intros st some unmet' unstarted done' Hids.
  pose proof (elem_of_ready snapshot Hids) as Hready.
  pose proof (elem_of_blocked_nodes snapshot Hids) as Hblocked.
  pose proof (fun n => conj (node_cases n) (unmet_cases snapshot n Hids)) as Hcases.
  subst st. simpl in *. rewrite countNodeStates_eq. simpl.
  split; [apply completed_count|]. unfold graphProgressState. simpl.
  case_decide as H0; [by destruct (sn_nodes snapshot)|].
  case_decide as HF; rewrite in_state_pos in HF; [done|].
  case_decide as HC; rewrite in_state_pos in HC; [done|].
  case_decide as HS; rewrite in_state_two in HS by done;
    [split; [by destruct (sn_nodes snapshot)|done]|].
  case_decide as HA; rewrite length_app_pos in HA.
  - split; [done|]. split; [done|]. destruct HA as [(n & Hn)|(n & Hn)].
    + right. apply Hready in Hn as (Hn & Hc & Hmet). exists n. split; [done|].
      intros (d & Hd & Hu). by apply (Hmet d).
    + left. apply list_elem_of_filter in Hn as [??]. by exists n.
  - assert (¬ some NodeRunning) as HR.
    { intros (n & Hn & Hr). apply HA. right. exists n. by apply list_elem_of_filter. }
    assert (∀ n, unstarted n → unmet' n) as HU.
    { intros n [Hn Hc]. destruct (Hcases n) as [_ [?|Hmet]]; [done|].
      destruct HA. left. exists n. by apply Hready. }
    case_decide as HB; rewrite length_pos in HB.
    { split; [done|]. split; [done|]. split; [done|]. split; [|done].
      destruct HB as [b Hb]. exists (bl_node b).
      apply (list_elem_of_fmap_2 bl_node), Hblocked in Hb as (? & ? & _). done. }
    assert (∀ n, n ∈ sn_nodes snapshot → attached n ∨ done' n) as Hall.
    { intros n Hn. destruct (Hcases n) as [[(Hc & _)|[(Ha & _)|[(Hr & _)|(Ht & _)]]] _].
      - exfalso. apply HB. destruct (HU n (conj Hn Hc)) as (d & Hd & Hu).
        assert (n ∈ bl_node <$> blockedPendingNodes snapshot) as (b & _ & Hb)%list_elem_of_fmap
          by (apply Hblocked; eauto). by exists b.
      - by left.
      - by destruct HR; exists n.
      - right. apply terminal_cases in Ht as [?|[?|[?|?]]]; [by left|..|by right].
        + by destruct HF; exists n.
        + by destruct HC; exists n. }
    split; [done|]. split; [done|]. split; [|done].
    destruct (decide (Exists (fun n => attached n) (sn_nodes snapshot))) as [He|He].
    { apply Exists_exists in He as (n & ? & ?). by exists n. }
    destruct HS. intros n Hn. destruct (Hall n Hn) as [Ha|?]; [|done].
    destruct He. apply Exists_exists. by exists n.
Qed.

(** A graph whose dependencies are acyclic and internal makes progress: while no
    node failed, was cancelled or skipped, and unstarted nodes have no job
    attached, its status is never [blocked]. *)
Theorem buildGraphStatus_acyclic snapshot (rank : string → nat) :
  NoDup (nd_id <$> sn_nodes snapshot) →
  (∀ d, d ∈ sn_dependencies snapshot →
     rank (dep_fromNodeId d) < rank (dep_toNodeId d) ∧
     dep_fromNodeId d ∈ (nd_id <$> sn_nodes snapshot)) →
  (∀ n, n ∈ sn_nodes snapshot →
     isReadyCandidate n ∨ nd_state n = NodeRunning ∨ nd_state n = NodeSucceeded) →
  gs_progressState (buildGraphStatus snapshot) ≠ ProgressBlocked.
Proof.
  intros Hids Hacyclic Hstates Hblocked.
  pose proof (elem_of_ready snapshot Hids) as Hready.
  pose proof (elem_of_blocked_nodes snapshot Hids) as Hbl.
  assert (gs_readyNodes (buildGraphStatus snapshot) = [] ∧
    gs_runningNodes (buildGraphStatus snapshot) = [] ∧
    blockedPendingNodes snapshot ≠ []) as (Hnr & Hnrun & Hb).
  { revert Hblocked. simpl. unfold graphProgressState.
    repeat case_decide; try done. intros _.
    destruct (filter _ (sn_nodes snapshot)), (in_state NodeRunning (sn_nodes snapshot));
      simpl in *; try lia.
    split_and!; try done. intros Hnil. rewrite Hnil in *. simpl in *. lia. }
  assert (∀ k n, rank (nd_id n) < k → n ∈ sn_nodes snapshot → isReadyCandidate n → False)
    as Hnone.
  { induction k as [|k IH]; intros n Hk Hn Hc; [lia|].
    destruct (unmet_cases snapshot n Hids) as [(d & Hd & Hto & Hmet)|Hall].
    - destruct (Hacyclic d Hd) as [Hrank (s & Hs & Hsn)%list_elem_of_fmap].
      destruct (Hstates s Hsn) as [Hc'|[Hr|Hsucc]].
      + apply (IH s); [|done..]. rewrite <-Hs, Hto in *. lia.
      + assert (s ∈ gs_runningNodes (buildGraphStatus snapshot)) as Hin
          by (by apply list_elem_of_filter). rewrite Hnrun in Hin. set_solver.
      + apply Hmet. exists s. split; [done|]. split; [done|].
        unfold dependencySatisfied, is_terminal. by destruct (dep_kind d); rewrite Hsucc.
    - assert (n ∈ gs_readyNodes (buildGraphStatus snapshot)) as Hin by (by apply Hready).
      rewrite Hnr in Hin. set_solver. }
  destruct (blockedPendingNodes snapshot) as [|b l] eqn:E; [done|].
  assert (bl_node b ∈ bl_node <$> b :: l) as (Hn & Hc & _)%Hbl by set_solver.
  apply (Hnone (S (rank (nd_id (bl_node b)))) (bl_node b)); [lia|done..].
Qed.

(** * Examples: one node done, one ready, one blocked by it *)

Definition sample_node (id : string) (state : DelegationNodeState)
    : DelegationGraphNodeRecord := {|
  nd_id := id; nd_graphId := "g"; nd_kind := AgentTask; nd_principalId := "p";
  nd_state := state; nd_payload := JNull; nd_schedulerJobId := None; nd_metadata := None;
  nd_createdAt := num_of_Z 1; nd_updatedAt := num_of_Z 1; nd_startedAt := None;
  nd_finishedAt := None |}.

Definition sample_dependency (from to : string) : DelegationGraphDependencyRecord := {|
  dep_id := from +:+ to; dep_graphId := "g"; dep_fromNodeId := from; dep_toNodeId := to;
  dep_kind := AfterSuccess; dep_createdAt := num_of_Z 1 |}.

Definition sample_snapshot : DelegationGraphSnapshot := {|
  sn_graph := {| gr_id := "g"; gr_principalId := "p"; gr_title := None;
    gr_state := GraphRunning; gr_metadata := None; gr_createdAt := num_of_Z 1;
    gr_updatedAt := num_of_Z 1; gr_closedAt := None |};
  sn_nodes := [sample_node "a" NodeSucceeded; sample_node "b" NodePending;
               sample_node "c" NodePending];
  sn_dependencies := [sample_dependency "a" "b"; sample_dependency "b" "c"] |}.

Lemma sample_ids : NoDup (nd_id <$> sn_nodes sample_snapshot).
Proof. by apply (bool_decide_unpack _). Qed.

Lemma buildGraphStatus_classifies_witness :
  gs_readyNodes (buildGraphStatus sample_snapshot) = [sample_node "b" NodePending] ∧
  ∀ n, n ∈ [sample_node "b" NodePending] ↔
    n ∈ sn_nodes sample_snapshot ∧ isReadyCandidate n ∧
    ∀ d, d ∈ sn_dependencies sample_snapshot → ¬ unmet sample_snapshot n d.
Proof.
  split; [vm_compute; reflexivity|].
  exact (proj1 (buildGraphStatus_classifies sample_snapshot sample_ids)).
Defined.

Lemma buildGraphStatus_progress_witness :
  gs_progressState (buildGraphStatus sample_snapshot) = ProgressActive ∧
  gs_completedNodeCount (buildGraphStatus sample_snapshot) =
    Z.of_nat (length (filter (fun n => is_terminal (nd_state n)) (sn_nodes sample_snapshot))).
Proof.
  split; [vm_compute; reflexivity|].
  exact (proj1 (buildGraphStatus_progress sample_snapshot sample_ids)).
Defined.

Definition sample_rank (id : string) : nat :=
  if decide (id = "a") then 0 else if decide (id = "b") then 1 else 2.

Lemma buildGraphStatus_acyclic_witness :
  gs_progressState (buildGraphStatus sample_snapshot) ≠ ProgressBlocked.
Proof.
  apply (buildGraphStatus_acyclic sample_snapshot sample_rank sample_ids).
  - intros d Hd. simpl in Hd. repeat (apply elem_of_cons in Hd as [->|Hd]);
      [split; [vm_compute; lia|set_solver]..|set_solver].
  - intros n Hn. simpl in Hn. repeat (apply elem_of_cons in Hn as [->|Hn]);
      [right; right; reflexivity|left; vm_compute; exact I..|set_solver].
Defined.
