(* ===== verification/DelegationRuntime.v ===== *)
(** The delegation graph runtime ([packages/team/src/delegation/graph/]): its
    operations on the delegation and job stores, the projection of a finished job
    onto its node, and one scheduling step of a graph.  The stores are the
    interfaces of [StorageRpc]; [DelegationLaws] states what the runtime relies
    on, and [DelegationService] shows that the service satisfies it. *)
From S2P Require Import Prelude Json Protocol StorageRpc DelegationGraph.

(** * Requests and results ([types.ts]) *)

Record CreateDelegationGraphRequest := {
  cg_id : option string;
  cg_principalId : option string;
  cg_title : option string;
  cg_metadata : option json;
  cg_idempotencyKey : option string;
}.

Record AddDelegationGraphNodeRequest := {
  ad_id : option string;
  ad_graphId : string;
  ad_kind : DelegationNodeKind;
  ad_principalId : option string;
  ad_payload : json;
  ad_metadata : option json;
  ad_idempotencyKey : option string;
}.

Inductive DelegationGraphJobSyncReason :=
| MissingNode | NoSchedulerJob | MissingJob | NonTerminalJob | AlreadyTerminal.

Record DelegationGraphJobSyncNoop := {
  sy_reason : DelegationGraphJobSyncReason;
  sy_node : option DelegationGraphNodeRecord;
  sy_job : option SchedulerJobRecord;
}.

Record DelegationGraphJobSynced := {
  sd_node : DelegationGraphNodeRecord;
  sd_job : SchedulerJobRecord;
}.

Inductive DelegationGraphJobSyncResult :=
| SyncNoop (noop : DelegationGraphJobSyncNoop)
| Synced (synced : DelegationGraphJobSynced).

Inductive DelegationGraphStepSkippedReadyReason := UnsupportedNodeKind | NotReady.

Record DelegationGraphStepSkippedReadyNode := {
  sk_node : DelegationGraphNodeRecord;
  sk_reason : DelegationGraphStepSkippedReadyReason;
}.

Record RunDelegationGraphStepRequest := {
  rs_graphId : string;
  rs_workerId : string;
  rs_jobKindsByNodeKind : DelegationNodeKind → option SchedulerJobKind;
  rs_materializeLimit : option jsnum;
  rs_readyScanLimit : option jsnum;
}.

Record DelegationGraphStepResult := {
  st_graphId : string;
  st_synced : list DelegationGraphJobSynced;
  st_syncNoops : list DelegationGraphJobSyncNoop;
  st_materialized : list MaterializedDelegationGraphNode;
  st_skippedReadyNodes : list DelegationGraphStepSkippedReadyNode;
}.

Definition DEFAULT_PRINCIPAL_ID : string := "team-delegation-graph".

Definition terminalNodeStateForJob (state : SchedulerJobState) : option DelegationNodeState :=
  match state with
  | JobSucceeded => Some NodeSucceeded
  | JobFailed => Some NodeFailed
  | JobCancelled => Some NodeCancelled
  | JobPending | JobReady | JobRunning | JobWaiting | JobRetryScheduled => None
  end.

(** A property present only when its value is. *)
Definition when_some {A} (key : string) (f : A → json) (o : option A)
    : list (string * json) :=
  match o with Some a => [(key, f a)] | None => [] end.

Definition metadataForJob (job : SchedulerJobRecord) : json :=
  JObj [("schedulerJob", JObj (
    [("id", JStr (job_id job)); ("kind", JStr (enum_name (job_kind job)));
     ("state", JStr (enum_name (job_state job))); ("attempt", JNum (job_attempt job))]
    ++ when_some "result" id (job_result job)
    ++ when_some "lastError" id (job_lastError job)
    ++ when_some "finishedAt" JNum (job_finishedAt job)))].

Section runtime.
Context {W : Type} `{!DelegationStore W, !SchedulerStore W}.
(** The [principalId] of the runtime's options, or the default. *)
Context (principalId : string).
Local Abbreviation M := (stM W rpc_error).

(** * Graphs, nodes and dependencies ([graph.ts], [node.ts], [dependency.ts],
    [materialize.ts], [snapshot.ts]) *)

Definition createGraph (request : CreateDelegationGraphRequest) : M DelegationGraphRecord :=
  putDelegationGraph {|
    pg_id := cg_id request;
    pg_principalId := default principalId (cg_principalId request);
    pg_title := cg_title request;
    pg_metadata := cg_metadata request;
    pg_idempotencyKey := cg_idempotencyKey request |}.

Definition getGraph (graphId : string) : M (option DelegationGraphRecord) :=
  getDelegationGraph {| gg_graphId := graphId |}.

Definition listGraphs (request : ListDelegationGraphsRequest)
    : M (list DelegationGraphRecord) :=
  listDelegationGraphs request.

Definition updateGraphState (graphId : string) (state : DelegationGraphState)
    : M DelegationGraphRecord :=
  updateDelegationGraphState {| ug_graphId := graphId; ug_state := state |}.

Definition addNode (request : AddDelegationGraphNodeRequest) : M DelegationGraphNodeRecord :=
  putDelegationGraphNode {|
    pn_id := ad_id request;
    pn_graphId := ad_graphId request;
    pn_kind := ad_kind request;
    pn_principalId := default principalId (ad_principalId request);
    pn_payload := ad_payload request;
    pn_metadata := ad_metadata request;
    pn_idempotencyKey := ad_idempotencyKey request |}.

Definition listNodes (graphId : string) (state : option DelegationNodeState)
    : M (list DelegationGraphNodeRecord) :=
  listDelegationGraphNodes {| ln_graphId := graphId; ln_state := state |}.

Definition listReadyNodes (graphId : string) (limit : option jsnum)
    : M (list DelegationGraphNodeRecord) :=
  listReadyDelegationGraphNodes {| lr_graphId := graphId; lr_limit := limit |}.

Definition attachNodeJob (nodeId schedulerJobId : string) : M DelegationGraphNodeRecord :=
  attachDelegationGraphNodeJob {| an_nodeId := nodeId; an_schedulerJobId := schedulerJobId |}.

Definition updateNodeState (request : UpdateDelegationGraphNodeStateRequest)
    : M DelegationGraphNodeRecord :=
  updateDelegationGraphNodeState request.

Definition markNodeState (nodeId : string) (state : DelegationNodeState)
    (schedulerJobId : option string) (metadata : option json)
    : M DelegationGraphNodeRecord :=
  updateNodeState {| un_nodeId := nodeId; un_state := state;
    un_schedulerJobId := schedulerJobId; un_metadata := metadata |}.

Definition addDependency (request : PutDelegationGraphDependencyRequest)
    : M DelegationGraphDependencyRecord :=
  putDelegationGraphDependency request.

Definition listDependencies (graphId : string) : M (list DelegationGraphDependencyRecord) :=
  listDelegationGraphDependencies {| ld_graphId := graphId |}.

Definition materializeReadyNode (request : MaterializeReadyDelegationGraphNodeRequest)
    : M (option MaterializedDelegationGraphNode) :=
  materializeReadyDelegationGraphNode request.

(** The two lists are read one after the other; nothing is written between. *)
Definition getGraphSnapshot (graphId : string) : M (option DelegationGraphSnapshot) :=
  graph ← getDelegationGraph {| gg_graphId := graphId |};
  match graph with
  | None => mret None
  | Some graph =>
      nodes ← listDelegationGraphNodes {| ln_graphId := graphId; ln_state := None |};
      dependencies ← listDelegationGraphDependencies {| ld_graphId := graphId |};
      mret (Some {| sn_graph := graph; sn_nodes := nodes; sn_dependencies := dependencies |})
  end.

Definition getGraphStatus (graphId : string) : M (option DelegationGraphStatus) :=
  snapshot ← getGraphSnapshot graphId;
  mret (buildGraphStatus <$> snapshot).

(** * A node and its job ([job-sync.ts]) *)

Definition noop (reason : DelegationGraphJobSyncReason)
    (node : option DelegationGraphNodeRecord) (job : option SchedulerJobRecord)
    : M DelegationGraphJobSyncResult :=
  mret (SyncNoop {| sy_reason := reason; sy_node := node; sy_job := job |}).

Definition syncMaterializedNodeJob (nodeId : string) : M DelegationGraphJobSyncResult :=
  found ← getDelegationGraphNode {| gn_nodeId := nodeId |};
  match found with
  | None => noop MissingNode None None
  | Some node =>
      if is_terminal (nd_state node) then noop AlreadyTerminal (Some node) None
      else match nd_schedulerJobId node with
      | None => noop NoSchedulerJob (Some node) None
      | Some schedulerJobId =>
          found ← getJob {| gj_jobId := schedulerJobId |};
          match found with
          | None => noop MissingJob (Some node) None
          | Some job =>
              match terminalNodeStateForJob (job_state job) with
              | None => noop NonTerminalJob (Some node) (Some job)
              | Some terminalNodeState =>
                  updated ← updateDelegationGraphNodeState {|
                    un_nodeId := nd_id node; un_state := terminalNodeState;
                    un_schedulerJobId := None;
                    un_metadata := Some (metadataForJob job) |};
                  mret (Synced {| sd_node := updated; sd_job := job |})
              end
          end
      end
  end.

(** * One step of a graph ([step.ts]) *)

Fixpoint sync_nodes (runningNodes : list DelegationGraphNodeRecord)
    (synced : list DelegationGraphJobSynced) (syncNoops : list DelegationGraphJobSyncNoop)
    : M (list DelegationGraphJobSynced * list DelegationGraphJobSyncNoop) :=
  match runningNodes with
  | [] => mret (synced, syncNoops)
  | node :: runningNodes =>
      match nd_schedulerJobId node with
      | None => sync_nodes runningNodes synced syncNoops
      | Some _ =>
          result ← syncMaterializedNodeJob (nd_id node);
          match result with
          | Synced s => sync_nodes runningNodes (synced ++ [s]) syncNoops
          | SyncNoop n => sync_nodes runningNodes synced (syncNoops ++ [n])
          end
      end
  end.

Definition syncRunningNodes (graphId : string)
    : M (list DelegationGraphJobSynced * list DelegationGraphJobSyncNoop) :=
  runningNodes ← listDelegationGraphNodes
    {| ln_graphId := graphId; ln_state := Some NodeRunning |};
  sync_nodes runningNodes [] [].

Definition step_materialize (request : RunDelegationGraphStepRequest)
    (node : DelegationGraphNodeRecord) (jobKind : SchedulerJobKind)
    : MaterializeReadyDelegationGraphNodeRequest := {|
  mr_graphId := rs_graphId request; mr_nodeId := Some (nd_id node);
  mr_workerId := rs_workerId request; mr_jobId := None; mr_jobKind := jobKind;
  mr_jobPayload := None; mr_scheduledAt := None; mr_notBefore := None; mr_priority := None;
  mr_maxAttempts := None; mr_retryPolicy := None; mr_jobIdempotencyKey := None;
  mr_budgetGrantId := None |}.

Fixpoint materialize_nodes (request : RunDelegationGraphStepRequest) (materializeLimit : Z)
    (readyNodes : list DelegationGraphNodeRecord)
    (materialized : list MaterializedDelegationGraphNode)
    (skippedReadyNodes : list DelegationGraphStepSkippedReadyNode)
    : M (list MaterializedDelegationGraphNode * list DelegationGraphStepSkippedReadyNode) :=
  match readyNodes with
  | [] => mret (materialized, skippedReadyNodes)
  | node :: readyNodes =>
      if decide (materializeLimit ≤ Z.of_nat (length materialized))%Z then
        mret (materialized, skippedReadyNodes)
      else match rs_jobKindsByNodeKind request (nd_kind node) with
      | None =>
          materialize_nodes request materializeLimit readyNodes materialized
            (skippedReadyNodes ++ [{| sk_node := node; sk_reason := UnsupportedNodeKind |}])
      | Some jobKind =>
          result ← materializeReadyDelegationGraphNode (step_materialize request node jobKind);
          match result with
          | None =>
              materialize_nodes request materializeLimit readyNodes materialized
                (skippedReadyNodes ++ [{| sk_node := node; sk_reason := NotReady |}])
          | Some m =>
              materialize_nodes request materializeLimit readyNodes (materialized ++ [m])
                skippedReadyNodes
          end
      end
  end.

Definition materializeReadyNodes (request : RunDelegationGraphStepRequest)
    (materializeLimit : jsnum) (limit : Z)
    : M (list MaterializedDelegationGraphNode * list DelegationGraphStepSkippedReadyNode) :=
  let max_limit := if decide (1 ≤ limit)%Z then materializeLimit else num_of_Z 1 in
  readyNodes ← listReadyDelegationGraphNodes {|
    lr_graphId := rs_graphId request;
    lr_limit := Some (default max_limit (rs_readyScanLimit request)) |};
  materialize_nodes request limit readyNodes [] [].

(** [!Number.isInteger(limit) || limit < 0] is rejected. *)
Definition non_negative_integer (limit : jsnum) : option Z :=
  z ← num_integer limit; if decide (0 ≤ z)%Z then Some z else None.

Definition step_body (request : RunDelegationGraphStepRequest) (materializeLimit : jsnum)
    (limit : Z) : M DelegationGraphStepResult :=
  sync ← syncRunningNodes (rs_graphId request);
  ready ← (if decide (limit = 0)%Z then mret ([], [])
           else materializeReadyNodes request materializeLimit limit);
  mret {| st_graphId := rs_graphId request; st_synced := sync.1; st_syncNoops := sync.2;
          st_materialized := ready.1; st_skippedReadyNodes := ready.2 |}.

Definition runDelegationGraphStep (request : RunDelegationGraphStepRequest)
    : M DelegationGraphStepResult :=
  let materializeLimit := default (num_of_Z 1) (rs_materializeLimit request) in
  match non_negative_integer materializeLimit with
  | None =>
      throwM (Error "delegation graph materializeLimit must be a non-negative integer")
  | Some limit =>
      _ ← guardM match rs_readyScanLimit request with
          | None => false
          | Some scan => bool_decide (non_negative_integer scan = None)
          end (Error "delegation graph readyScanLimit must be a non-negative integer");
      step_body request materializeLimit limit
  end.
(** * The runtime class ([runtime.ts]) *)

(** The methods of [DelegationGraphRuntime], by their result. *)
Inductive runtime_method : Type → Type :=
| CreateGraph (r : CreateDelegationGraphRequest) : runtime_method DelegationGraphRecord
| GetGraph (graphId : string) : runtime_method (option DelegationGraphRecord)
| ListGraphs (r : ListDelegationGraphsRequest) : runtime_method (list DelegationGraphRecord)
| UpdateGraphState (graphId : string) (state : DelegationGraphState)
    : runtime_method DelegationGraphRecord
| AddNode (r : AddDelegationGraphNodeRequest) : runtime_method DelegationGraphNodeRecord
| ListNodes (graphId : string) (state : option DelegationNodeState)
    : runtime_method (list DelegationGraphNodeRecord)
| AddDependency (r : PutDelegationGraphDependencyRequest)
    : runtime_method DelegationGraphDependencyRecord
| ListDependencies (graphId : string) : runtime_method (list DelegationGraphDependencyRecord)
| ListReadyNodes (graphId : string) (limit : option jsnum)
    : runtime_method (list DelegationGraphNodeRecord)
| AttachNodeJob (nodeId schedulerJobId : string) : runtime_method DelegationGraphNodeRecord
| MaterializeReadyNode (r : MaterializeReadyDelegationGraphNodeRequest)
    : runtime_method (option MaterializedDelegationGraphNode)
| UpdateNodeState (r : UpdateDelegationGraphNodeStateRequest)
    : runtime_method DelegationGraphNodeRecord
| MarkNodeReady (nodeId : string) : runtime_method DelegationGraphNodeRecord
| MarkNodeRunning (nodeId : string) (schedulerJobId : option string)
    : runtime_method DelegationGraphNodeRecord
| MarkNodeSucceeded (nodeId : string) (metadata : option json)
    : runtime_method DelegationGraphNodeRecord
| MarkNodeFailed (nodeId : string) (metadata : option json)
    : runtime_method DelegationGraphNodeRecord
| MarkNodeCancelled (nodeId : string) (metadata : option json)
    : runtime_method DelegationGraphNodeRecord
| MarkNodeSkipped (nodeId : string) (metadata : option json)
    : runtime_method DelegationGraphNodeRecord
| GetGraphSnapshot (graphId : string) : runtime_method (option DelegationGraphSnapshot)
| GetGraphStatus (graphId : string) : runtime_method (option DelegationGraphStatus)
| SyncMaterializedNodeJob (nodeId : string) : runtime_method DelegationGraphJobSyncResult
| RunGraphStep (r : RunDelegationGraphStepRequest) : runtime_method DelegationGraphStepResult.

Definition DelegationGraphRuntime {A} (m : runtime_method A) : M A :=
  match m with
  | CreateGraph r => createGraph r
  | GetGraph graphId => getGraph graphId
  | ListGraphs r => listGraphs r
  | UpdateGraphState graphId state => updateGraphState graphId state
  | AddNode r => addNode r
  | ListNodes graphId state => listNodes graphId state
  | AddDependency r => addDependency r
  | ListDependencies graphId => listDependencies graphId
  | ListReadyNodes graphId limit => listReadyNodes graphId limit
  | AttachNodeJob nodeId schedulerJobId => attachNodeJob nodeId schedulerJobId
  | MaterializeReadyNode r => materializeReadyNode r
  | UpdateNodeState r => updateNodeState r
  | MarkNodeReady nodeId => markNodeState nodeId NodeReady None None
  | MarkNodeRunning nodeId schedulerJobId => markNodeState nodeId NodeRunning schedulerJobId None
  | MarkNodeSucceeded nodeId metadata => markNodeState nodeId NodeSucceeded None metadata
  | MarkNodeFailed nodeId metadata => markNodeState nodeId NodeFailed None metadata
  | MarkNodeCancelled nodeId metadata => markNodeState nodeId NodeCancelled None metadata
  | MarkNodeSkipped nodeId metadata => markNodeState nodeId NodeSkipped None metadata
  | GetGraphSnapshot graphId => getGraphSnapshot graphId
  | GetGraphStatus graphId => getGraphStatus graphId
  | SyncMaterializedNodeJob nodeId => syncMaterializedNodeJob nodeId
  | RunGraphStep r => runDelegationGraphStep r
  end.
End runtime.

(** * What the runtime relies on *)

Definition returns {W A} (r : W * result rpc_error A) (a : A) (w : W) : Prop := r = (w, Ok a).

(** [n'] is [n] in another state. *)
Definition moved (n n' : DelegationGraphNodeRecord) (state : DelegationNodeState)
    (job : option string) : Prop :=
  nd_id n' = nd_id n ∧ nd_graphId n' = nd_graphId n ∧ nd_kind n' = nd_kind n ∧
  nd_payload n' = nd_payload n ∧ nd_state n' = state ∧ nd_schedulerJobId n' = job.

(** The job that a node [n] is handed to has the key under which it is asked for.  It is either
    new, of the kind that is asked for and of the node's principal, or the job that had that key. *)
Definition given (jobs : gmap string SchedulerJobRecord) (key : string) (kind : SchedulerJobKind)
    (n : DelegationGraphNodeRecord) (job : SchedulerJobRecord) : Prop :=
  job_idempotencyKey job = Some key ∧
  (jobs !! job_id job = Some job ∨
   jobs !! job_id job = None ∧ job_kind job = kind ∧ job_principalId job = nd_principalId n).

(** The stores hold nodes and jobs by id.  Reading changes nothing; a node leaves
    a finished state for no other; a node is handed to a job only when it is
    unstarted, and then runs with that job attached.  [node_key] is the key of a node's job
    where none is asked for. *)
Class DelegationLaws (W : Type) `{!DelegationStore W, !SchedulerStore W} := {
  store_wf : W → Prop;
  store_nodes : W → gmap string DelegationGraphNodeRecord;
  store_jobs : W → gmap string SchedulerJobRecord;
  node_key : string → string → string;
  node_key_inj graphId :: Inj (=) (=) (node_key graphId);
  node_id_law w id n :
    store_wf w → store_nodes w !! id = Some n → nd_id n = id ∧ id ≠ "";
  get_node_law w id :
    store_wf w → id ≠ "" →
    getDelegationGraphNode {| gn_nodeId := id |} w = (w, Ok (store_nodes w !! id));
  get_job_law w id :
    store_wf w → getJob {| gj_jobId := id |} w = (w, Ok (store_jobs w !! id));
  list_nodes_law w graphId state :
    store_wf w → graphId ≠ "" →
    ∃ l, listDelegationGraphNodes {| ln_graphId := graphId; ln_state := state |} w = (w, Ok l) ∧
      NoDup (nd_id <$> l) ∧
      ∀ n, n ∈ l ↔ store_nodes w !! nd_id n = Some n ∧ nd_graphId n = graphId ∧
        (∀ s, state = Some s → nd_state n = s);
  update_node_law w n r :
    store_wf w → store_nodes w !! un_nodeId r = Some n →
    (is_terminal (nd_state n) → un_state r = nd_state n) →
    ∃ n' w', updateDelegationGraphNodeState r w = (w', Ok n') ∧ store_wf w' ∧
      moved n n' (un_state r) (union (un_schedulerJobId r) (nd_schedulerJobId n)) ∧
      store_nodes w' = <[un_nodeId r := n']> (store_nodes w) ∧
      store_jobs w' = store_jobs w;
  list_ready_law w r :
    store_wf w → lr_graphId r ≠ "" →
    match listReadyDelegationGraphNodes r w with
    | (w', Ok l) => w' = w ∧ NoDup (nd_id <$> l) ∧
        ∀ n, n ∈ l → store_nodes w !! nd_id n = Some n ∧ nd_graphId n = lr_graphId r ∧
          isReadyCandidate n
    | (w', Throw _) => w' = w
    end;
  materialize_law w r id :
    store_wf w → mr_nodeId r = Some id →
    match materializeReadyDelegationGraphNode r w with
    | (w', Ok (Some m)) => store_wf w' ∧ ∃ n,
        store_nodes w !! id = Some n ∧ isReadyCandidate n ∧ nd_graphId n = mr_graphId r ∧
        moved n (mt_node m) NodeRunning (Some (job_id (mt_job m))) ∧
        store_nodes w' = <[id := mt_node m]> (store_nodes w) ∧
        store_jobs w' = <[job_id (mt_job m) := mt_job m]> (store_jobs w) ∧
        store_jobs w ⊆ store_jobs w' ∧
        given (store_jobs w) (default (node_key (mr_graphId r) id) (mr_jobIdempotencyKey r))
          (mr_jobKind r) n (mt_job m)
    | (w', Ok None) | (w', Throw _) => w' = w
    end;
}.

Section laws.
Context {W : Type} `{L : DelegationLaws W}.
Implicit Types (w : W) (n : DelegationGraphNodeRecord).

(** The state the job of a node finishes it in. *)
Definition finishing w n : option DelegationNodeState :=
  jobId ← nd_schedulerJobId n;
  job ← store_jobs w !! jobId;
  terminalNodeStateForJob (job_state job).

Lemma terminalNodeStateForJob_terminal s s' :
  terminalNodeStateForJob s = Some s' → is_terminal s'.
Proof. by destruct s; intros [= <-]. Qed.

(** How a node that is not finished is synchronised. *)
Lemma sync_unfinished w n :
  store_wf w → store_nodes w !! nd_id n = Some n → ¬ is_terminal (nd_state n) →
  match finishing w n with
  | Some state => ∃ n' job w', syncMaterializedNodeJob (nd_id n) w =
      (w', Ok (Synced {| sd_node := n'; sd_job := job |})) ∧ store_wf w' ∧
      (nd_schedulerJobId n ≫= λ j, store_jobs w !! j) = Some job ∧
      moved n n' state (nd_schedulerJobId n) ∧
      store_nodes w' = <[nd_id n := n']> (store_nodes w) ∧ store_jobs w' = store_jobs w
  | None => ∃ noop, syncMaterializedNodeJob (nd_id n) w = (w, Ok (SyncNoop noop)) ∧
      sy_node noop = Some n
  end.
Proof.
  intros Hwf Hn Hnt. destruct (node_id_law w _ n Hwf Hn) as [_ Hid].
  unfold syncMaterializedNodeJob, finishing, noop, mbind, stM_bind, mret, stM_ret.
  rewrite get_node_law, Hn by done. destruct (is_terminal (nd_state n)) eqn:Ht; [done|].
  destruct (nd_schedulerJobId n) as [jobId|] eqn:Hjob; simpl; [|by eauto].
  rewrite get_job_law by done. destruct (store_jobs w !! jobId) as [job|]; simpl; [|by eauto].
  destruct (terminalNodeStateForJob (job_state job)) as [state|] eqn:Hstate; [|by eauto].
  destruct (update_node_law w n {| un_nodeId := nd_id n; un_state := state;
    un_schedulerJobId := None; un_metadata := Some (metadataForJob job) |})
    as (n' & w' & Hup & Hwf' & Hmoved & Hnodes & Hjobs); [done|done|by rewrite Ht|].
  rewrite Hup. simpl in *. rewrite Hjob, (left_id_L None union) in Hmoved.
  by exists n', job, w'.
Qed.

(** * Synchronising the running nodes *)

(** The nodes of [w'] are those of [w], with [l] synchronised. *)
Definition synced_nodes w w' (l : list DelegationGraphNodeRecord) : Prop :=
  store_jobs w' = store_jobs w ∧
  (∀ id, id ∉ (nd_id <$> l) → store_nodes w' !! id = store_nodes w !! id) ∧
  ∀ n, n ∈ l →
    match finishing w n with
    | Some state => ∃ n', store_nodes w' !! nd_id n = Some n' ∧
        moved n n' state (nd_schedulerJobId n)
    | None => store_nodes w' !! nd_id n = Some n
    end.

Lemma finishing_jobs w w' n : store_jobs w' = store_jobs w → finishing w' n = finishing w n.
Proof. unfold finishing. by intros ->. Qed.

Lemma synced_nodes_refl w n :
  store_nodes w !! nd_id n = Some n → finishing w n = None → synced_nodes w w [n].
Proof.
  intros Hn Hf. split; [done|]. split; [done|]. intros n' ->%list_elem_of_singleton.
  by rewrite Hf.
Qed.

Lemma synced_nodes_cons w w1 w2 n l :
  nd_id n ∉ (nd_id <$> l) → synced_nodes w w1 [n] → synced_nodes w1 w2 l →
  synced_nodes w w2 (n :: l).
Proof.
  intros Hnd (Hj1 & Ho1 & Hn1) (Hj2 & Ho2 & Hn2). split; [congruence|]. split.
  - intros id Hid. rewrite fmap_cons, not_elem_of_cons in Hid. destruct Hid.
    rewrite Ho2, Ho1; [done|set_solver|done].
  - intros n' [->|Hn']%elem_of_cons.
    + rewrite Ho2 by done. apply Hn1. set_solver.
    + rewrite <-(finishing_jobs w w1 n') by done. by apply Hn2.
Qed.

(** One node of the loop. *)
Lemma sync_nodes_cons w n l synced noops :
  store_wf w → store_nodes w !! nd_id n = Some n → ¬ is_terminal (nd_state n) →
  ∃ w1 synced1 noops1,
    sync_nodes (n :: l) synced noops w = sync_nodes l (synced ++ synced1) (noops ++ noops1) w1 ∧
    store_wf w1 ∧ synced_nodes w w1 [n] ∧
    ∀ s, s ∈ synced1 → finishing w n = Some (nd_state (sd_node s)) ∧
      store_nodes w1 !! nd_id n = Some (sd_node s).
Proof.
  intros Hwf Hn Hnt. pose proof (sync_unfinished w n Hwf Hn Hnt) as Hsync. simpl.
  destruct (nd_schedulerJobId n) as [jobId|] eqn:Hjob.
  2: { exists w, [], []. rewrite !app_nil_r. split; [done|]. split; [done|].
       split; [|set_solver]. apply synced_nodes_refl; [done|].
       unfold finishing. by rewrite Hjob. }
  unfold mbind, stM_bind. destruct (finishing w n) as [state|] eqn:Hf.
  - destruct Hsync as (n' & job & w1 & -> & Hwf1 & _ & Hmoved & Hnodes & Hjobs).
    exists w1, [{| sd_node := n'; sd_job := job |}], []. rewrite app_nil_r.
    split; [done|]. split; [done|]. split; [split; [done|split]|].
    + intros id Hid. rewrite Hnodes, lookup_insert_ne; [done|]. set_solver.
    + intros m ->%list_elem_of_singleton. rewrite Hf, Hnodes, lookup_insert_eq, Hjob. eauto.
    + intros s ->%list_elem_of_singleton. rewrite Hnodes, lookup_insert_eq. simpl.
      by destruct Hmoved as (_ & _ & _ & _ & -> & _).
  - destruct Hsync as (noop & -> & _). exists w, [], [noop]. rewrite app_nil_r.
    split; [done|]. split; [done|]. split; [by apply synced_nodes_refl|set_solver].
Qed.

(** The list of running nodes, synchronised one by one. *)
Lemma sync_nodes_spec w l synced noops :
  store_wf w → NoDup (nd_id <$> l) →
  (∀ n, n ∈ l → store_nodes w !! nd_id n = Some n ∧ ¬ is_terminal (nd_state n)) →
  ∃ w' synced' noops',
    sync_nodes l synced noops w = (w', Ok (synced ++ synced', noops ++ noops')) ∧
    store_wf w' ∧ synced_nodes w w' l ∧
    (∀ s, s ∈ synced' → ∃ n, n ∈ l ∧ finishing w n = Some (nd_state (sd_node s)) ∧
       store_nodes w' !! nd_id n = Some (sd_node s)).
Proof.
  revert w synced noops. induction l as [|n l IH]; intros w synced noops Hwf Hnd Hl.
  { exists w, [], []. rewrite !app_nil_r. split; [done|]. split; [done|].
    split; [|set_solver]. split; [done|]. split; [done|set_solver]. }
  apply NoDup_cons in Hnd as [Hnd Hnds].
  destruct (Hl n) as [Hn Hnt]; [set_solver|].
  destruct (sync_nodes_cons w n l synced noops)
    as (w1 & synced1 & noops1 & -> & Hwf1 & Hw1 & Hs1); [done..|].
  destruct (IH w1 (synced ++ synced1) (noops ++ noops1))
    as (w' & synced' & noops' & Heq & Hwf' & Hw' & Hs); [done..| |].
  { intros m Hm. destruct (Hl m); [set_solver|]. split; [|done].
    rewrite (proj1 (proj2 Hw1)); [done|]. simpl. intros Heq%list_elem_of_singleton.
    apply Hnd. rewrite <-Heq. by apply list_elem_of_fmap_2. }
  exists w', (synced1 ++ synced'), (noops1 ++ noops'). rewrite !app_assoc.
  split; [done|]. split; [done|]. split; [by eapply synced_nodes_cons|].
  intros s [Hin|Hin]%elem_of_app.
  - exists n. destruct (Hs1 s Hin) as [Hf Hlook]. split; [set_solver|]. split; [done|].
    by rewrite (proj1 (proj2 Hw')).
  - destruct (Hs s Hin) as (m & Hm & Hf & Hlook). exists m. split; [set_solver|].
    rewrite (finishing_jobs w w1) in Hf by apply Hw1. done.
Qed.

(** * Materialising ready nodes *)

Abbreviation materialized_ids ms := ((fun m => nd_id (mt_node m)) <$> ms).

Section materialize.
Context (request : RunDelegationGraphStepRequest).

(** A node that is handed to a job: it was ready, it runs, and its job is that of its key, or a
    new one of the kind that the request configures for the node's kind. *)
Definition handed_over w w' (m : MaterializedDelegationGraphNode) n : Prop :=
  store_nodes w !! nd_id n = Some n ∧ isReadyCandidate n ∧
  moved n (mt_node m) NodeRunning (Some (job_id (mt_job m))) ∧
  store_nodes w' !! nd_id n = Some (mt_node m) ∧
  store_jobs w' !! job_id (mt_job m) = Some (mt_job m) ∧
  ∃ kind, rs_jobKindsByNodeKind request (nd_kind n) = Some kind ∧
    given (store_jobs w) (node_key (rs_graphId request) (nd_id n)) kind n (mt_job m).

(** The nodes of [w'] are those of [w], with [ms] handed to jobs; what jobs there are more are
    theirs. *)
Definition materialized_nodes w w' (ms : list MaterializedDelegationGraphNode) : Prop :=
  store_jobs w ⊆ store_jobs w' ∧
  (∀ id job, store_jobs w' !! id = Some job → store_jobs w !! id = Some job ∨ job ∈ mt_job <$> ms) ∧
  (∀ id, id ∉ materialized_ids ms → store_nodes w' !! id = store_nodes w !! id) ∧
  ∀ m, m ∈ ms → ∃ n, handed_over w w' m n.

Lemma materialized_nodes_refl w : materialized_nodes w w [].
Proof. split; [done|]. split; [by left|]. split; [done|set_solver]. Qed.

Lemma materialized_nodes_cons w w1 w2 m ms :
  nd_id (mt_node m) ∉ materialized_ids ms →
  materialized_nodes w w1 [m] → materialized_nodes w1 w2 ms →
  materialized_nodes w w2 (m :: ms).
Proof.
  intros Hm (Hj1 & Hn1 & Ho1 & Hm1) (Hj2 & Hn2 & Ho2 & Hm2). split; [by etrans|].
  split; [|split].
  - intros id job [Hjob|Hjob]%Hn2; [apply Hn1 in Hjob as [?|?]; [by left|right; set_solver]|right; set_solver].
  - intros id Hid. rewrite fmap_cons, not_elem_of_cons in Hid. destruct Hid.
    rewrite Ho2, Ho1; [done|set_solver|done].
  - destruct (Hm1 m) as (n1 & Hh1); [set_solver|].
    intros m' [->|Hin]%elem_of_cons.
    + exists n1. destruct Hh1 as (Hn & Hc & Hmoved & Hn' & Hjob & Hkind).
      split_and!; try done; [|by eapply lookup_weaken].
      rewrite Ho2; [done|]. by rewrite <-(proj1 Hmoved).
    + destruct (Hm2 m' Hin) as (n & Hn & Hc & Hmoved & Hn' & Hjob & kind & Hkind & Hkey & Hgiven).
      assert (nd_id n ≠ nd_id (mt_node m)) as Hne.
      { intros E. apply Hm. rewrite <-E, <-(proj1 Hmoved).
        by apply (list_elem_of_fmap_2 (fun m => nd_id (mt_node m))). }
      exists n. split_and!; try done; [rewrite <-Ho1; [done|set_solver]|].
      exists kind. split; [done|]. split; [done|].
      destruct Hgiven as [Hold|(Hnew & ?)]; [left|right; split; [|done]].
      * apply Hn1 in Hold as [Hold|Hold%list_elem_of_singleton]; [done|]. exfalso.
        destruct Hh1 as (_ & _ & (Hid1 & _) & _ & _ & kind1 & _ & Hkey1 & _).
        rewrite Hold, Hkey1 in Hkey. injection Hkey as Hkey. apply (inj (node_key _)) in Hkey. congruence.
      * by eapply lookup_weaken_None.
Qed.

(** What the loop reports about the nodes [l] it was given: it goes through them
    in order until the limit is reached, and every node it passes is either
    materialised or skipped. *)
Definition reported (l : list DelegationGraphNodeRecord)
    (ms : list MaterializedDelegationGraphNode)
    (sk : list DelegationGraphStepSkippedReadyNode) (full : Prop) : Prop :=
  ∃ passed rest, l = passed ++ rest ∧ (rest = [] ∨ full) ∧
    nd_id <$> passed ≡ₚ materialized_ids ms ++ ((fun s => nd_id (sk_node s)) <$> sk).

Lemma reported_nil l full : (l = [] ∨ full) → reported l [] [] full.
Proof. intros Hl. by exists [], l. Qed.

Lemma reported_skip n l ms sk x (full : Prop) :
  nd_id (sk_node x) = nd_id n → reported l ms sk full → reported (n :: l) ms (x :: sk) full.
Proof.
  intros Hx (passed & rest & -> & Hrest & Hp). exists (n :: passed), rest.
  split; [done|]. split; [done|]. simpl. rewrite Hp, Hx. apply Permutation_middle.
Qed.

Lemma reported_materialized n l m ms sk (full : Prop) :
  nd_id (mt_node m) = nd_id n → reported l ms sk full → reported (n :: l) (m :: ms) sk full.
Proof.
  intros Hm (passed & rest & -> & Hrest & Hp). exists (n :: passed), rest.
  split; [done|]. split; [done|]. simpl. by rewrite Hp, Hm.
Qed.

Lemma reported_ids l ms sk full : reported l ms sk full → materialized_ids ms ⊆ nd_id <$> l.
Proof.
  intros (passed & rest & -> & _ & Hp). rewrite fmap_app, Hp. set_solver.
Qed.

(** A node is skipped as unsupported exactly when no job kind is configured for its kind. *)
Definition told_why (x : DelegationGraphStepSkippedReadyNode) : Prop :=
  sk_reason x = UnsupportedNodeKind ↔ rs_jobKindsByNodeKind request (nd_kind (sk_node x)) = None.

Lemma materialize_one w node kind :
  store_wf w → store_nodes w !! nd_id node = Some node →
  rs_jobKindsByNodeKind request (nd_kind node) = Some kind →
  match materializeReadyDelegationGraphNode (step_materialize request node kind) w with
  | (w1, Ok (Some m)) =>
      store_wf w1 ∧ materialized_nodes w w1 [m] ∧ nd_id (mt_node m) = nd_id node
  | (w1, Ok None) | (w1, Throw _) => w1 = w
  end.
Proof.
  intros Hwf Hnode Hkind. pose proof (materialize_law w (step_materialize request node kind) (nd_id node)
    Hwf eq_refl) as Hm.
  destruct (materializeReadyDelegationGraphNode _ _) as [w1 [[m|]|e]]; [|done..].
  destruct Hm as (Hwf1 & n & Hn & Hc & _ & Hmoved & Hnodes & Hjobs & Hsub & Hgiven).
  rewrite Hnode in Hn. injection Hn as <-. pose proof Hmoved as (Hmid & _).
  split; [done|]. split; [|done]. split; [done|]. split; [|split].
  - intros id job. rewrite Hjobs, lookup_insert_Some. intros [[_ <-]|[_ ?]]; [right; set_solver|by left].
  - intros id Hne. rewrite Hnodes, lookup_insert_ne; [done|]. set_solver.
  - intros m' ->%list_elem_of_singleton. exists node.
    split_and!; try done; [by rewrite Hnodes, lookup_insert_eq|by rewrite Hjobs, lookup_insert_eq|].
    by exists kind.
Qed.

Lemma materialize_nodes_spec limit l materialized skipped w :
  store_wf w → NoDup (nd_id <$> l) → (∀ n, n ∈ l → store_nodes w !! nd_id n = Some n) →
  (Z.of_nat (length materialized) ≤ limit)%Z →
  match materialize_nodes request limit l materialized skipped w with
  | (w', Ok (materialized', skipped')) => ∃ ms sk,
      materialized' = materialized ++ ms ∧ skipped' = skipped ++ sk ∧
      store_wf w' ∧ materialized_nodes w w' ms ∧
      (Z.of_nat (length materialized') ≤ limit)%Z ∧
      reported l ms sk (Z.of_nat (length materialized') = limit) ∧ Forall told_why sk
  | (w', Throw _) => store_wf w' ∧ ∃ ms, materialized_nodes w w' ms ∧
      (materialized_ids ms ⊆ nd_id <$> l) ∧ NoDup (materialized_ids ms) ∧
      (Z.of_nat (length materialized + length ms) ≤ limit)%Z
  end.
Proof.
  revert w materialized skipped.
  induction l as [|n l IH]; intros w materialized skipped Hwf Hnd Hl Hlim; simpl.
  { exists [], []. rewrite !app_nil_r. split_and!; try done;
      [apply materialized_nodes_refl|apply reported_nil; by left]. }
  case_decide as Hfull.
  { exists [], []. rewrite !app_nil_r. split_and!; try done;
      [apply materialized_nodes_refl|apply reported_nil; right; lia]. }
  apply NoDup_cons in Hnd as [Hnd Hnds].
  assert (∀ x, nd_id (sk_node x) = nd_id n → told_why x →
    match materialize_nodes request limit l materialized (skipped ++ [x]) w with
    | (w', Ok (materialized', skipped')) => ∃ ms sk,
        materialized' = materialized ++ ms ∧ skipped' = skipped ++ sk ∧
        store_wf w' ∧ materialized_nodes w w' ms ∧
        (Z.of_nat (length materialized') ≤ limit)%Z ∧
        reported (n :: l) ms sk (Z.of_nat (length materialized') = limit) ∧ Forall told_why sk
    | (w', Throw _) => store_wf w' ∧ ∃ ms, materialized_nodes w w' ms ∧
        (materialized_ids ms ⊆ nd_id <$> n :: l) ∧ NoDup (materialized_ids ms) ∧
        (Z.of_nat (length materialized + length ms) ≤ limit)%Z
    end) as Hskip.
  { intros x Hx Hwhy. specialize (IH w materialized (skipped ++ [x]) Hwf Hnds (fun n' Hn' => Hl n' ltac:(by right)) Hlim).
    destruct (materialize_nodes _ _ _ _ _ _) as [w' [[ms' sk']|e]].
    - destruct IH as (ms & sk & -> & -> & ? & ? & ? & ? & ?). exists ms, (x :: sk).
      rewrite <-app_assoc. split_and!; try done; [by apply reported_skip|by constructor].
    - destruct IH as (? & ms & ? & ? & ? & ?). split; [done|]. exists ms. split_and!; [done|set_solver|done..]. }
  destruct (rs_jobKindsByNodeKind request (nd_kind n)) as [kind|] eqn:Hkind;
    [|by apply Hskip; [|split]].
  unfold mbind, stM_bind. pose proof (materialize_one w n kind Hwf (Hl n ltac:(by left)) Hkind) as Hone.
  destruct (materializeReadyDelegationGraphNode _ w) as [w1 [[m|]|e]].
  - destruct Hone as (Hwf1 & Hw1 & Hm).
    assert (∀ n', n' ∈ l → store_nodes w1 !! nd_id n' = Some n') as Hl1.
    { intros n' Hn'. destruct Hw1 as (_ & _ & Hother & _). rewrite Hother; [by apply Hl; right|].
      simpl. rewrite Hm. intros E%list_elem_of_singleton. apply Hnd. rewrite <-E.
      by apply list_elem_of_fmap_2. }
    specialize (IH w1 (materialized ++ [m]) skipped Hwf1 Hnds Hl1). rewrite length_app in IH.
    specialize (IH ltac:(simpl; lia)).
    destruct (materialize_nodes _ _ _ _ _ _) as [w' [[ms' sk']|e]].
    + destruct IH as (ms & sk & -> & -> & ? & ? & ? & Hr & ?). exists (m :: ms), sk.
      rewrite <-!app_assoc in *. split_and!; try done; [|by apply reported_materialized].
      eapply materialized_nodes_cons; [|done..]. rewrite Hm. apply reported_ids in Hr. set_solver.
    + destruct IH as (? & ms & Hms & Hsub & Hms_nd & Hlen). split; [done|]. exists (m :: ms).
      assert (nd_id (mt_node m) ∉ materialized_ids ms) by (rewrite Hm; set_solver).
      split_and!; [by eapply materialized_nodes_cons|rewrite fmap_cons, Hm; set_solver|
        by constructor|simpl in *; lia].
  - subst w1. apply Hskip; [done|]. unfold told_why. simpl. by rewrite Hkind.
  - subst w1. split; [done|]. exists [].
    split_and!; [apply materialized_nodes_refl|set_solver|constructor|simpl; lia].
Qed.
End materialize.

(** * The properties *)

(** What synchronising a node returns and does. *)
Definition sync_outcome w id : Prop :=
  let noop reason node job :=
    (w, Ok (SyncNoop {| sy_reason := reason; sy_node := node; sy_job := job |})) in
  match store_nodes w !! id with
  | None => syncMaterializedNodeJob id w = noop MissingNode None None
  | Some n =>
      if is_terminal (nd_state n) then
        syncMaterializedNodeJob id w = noop AlreadyTerminal (Some n) None
      else match nd_schedulerJobId n with
      | None => syncMaterializedNodeJob id w = noop NoSchedulerJob (Some n) None
      | Some jobId =>
          match store_jobs w !! jobId with
          | None => syncMaterializedNodeJob id w = noop MissingJob (Some n) None
          | Some job =>
              match terminalNodeStateForJob (job_state job) with
              | None => syncMaterializedNodeJob id w = noop NonTerminalJob (Some n) (Some job)
              | Some state => ∃ n' w',
                  syncMaterializedNodeJob id w =
                    (w', Ok (Synced {| sd_node := n'; sd_job := job |})) ∧
                  moved n n' state (Some jobId) ∧
                  store_nodes w' = <[id := n']> (store_nodes w) ∧
                  store_jobs w' = store_jobs w
              end
          end
      end
  end.

(** Synchronising one node, on every branch: the state changes only when the node
    is unfinished and its job is finished; then the node is in the state of its
    job, keeps its job, and is the only node to change. *)
Theorem syncMaterializedNodeJob_spec w id :
  store_wf w → id ≠ "" → sync_outcome w id.
Proof.
  intros Hwf Hid. unfold sync_outcome. destruct (store_nodes w !! id) as [n|] eqn:Hn.
  2: { unfold syncMaterializedNodeJob, mbind, stM_bind. by rewrite get_node_law, Hn. }
  destruct (node_id_law w id n Hwf Hn) as [Hnid _]. subst id.
  destruct (is_terminal (nd_state n)) eqn:Ht.
  { unfold syncMaterializedNodeJob, mbind, stM_bind. by rewrite get_node_law, Hn, Ht by done. }
  pose proof (sync_unfinished w n Hwf Hn) as Hsync. rewrite Ht in Hsync.
  unfold finishing in Hsync. unfold syncMaterializedNodeJob, mbind, stM_bind in *.
  rewrite get_node_law, Hn, Ht in * by done.
  destruct (nd_schedulerJobId n) as [jobId|]; simpl in *; [|done].
  rewrite get_job_law in * by done. destruct (store_jobs w !! jobId) as [job|]; simpl in *; [|done].
  destruct (terminalNodeStateForJob _) as [state|]; [|done].
  destruct Hsync as (n' & job' & w' & Heq & _ & [= <-] & ? & ? & ?); [tauto|]. eauto 10.
Qed.

(** The nodes of a graph that run. *)
Definition running_nodes w graphId (l : list DelegationGraphNodeRecord) : Prop :=
  NoDup (nd_id <$> l) ∧
  ∀ n, n ∈ l ↔ store_nodes w !! nd_id n = Some n ∧ nd_graphId n = graphId ∧
    nd_state n = NodeRunning.

(** The limit a step materialises under, when its limits are valid. *)
Definition step_limit (request : RunDelegationGraphStepRequest) : option Z :=
  limit ← non_negative_integer (default (num_of_Z 1) (rs_materializeLimit request));
  match rs_readyScanLimit request with
  | None => Some limit
  | Some scan => _ ← non_negative_integer scan; Some limit
  end.

Lemma syncRunningNodes_spec w graphId :
  store_wf w → graphId ≠ "" →
  ∃ running w1 synced noops,
    syncRunningNodes graphId w = (w1, Ok (synced, noops)) ∧ store_wf w1 ∧
    running_nodes w graphId running ∧ synced_nodes w w1 running ∧
    ∀ s, s ∈ synced → ∃ n, n ∈ running ∧ finishing w n = Some (nd_state (sd_node s)) ∧
      store_nodes w1 !! nd_id n = Some (sd_node s).
Proof.
  intros Hwf Hg. unfold syncRunningNodes, mbind, stM_bind.
  destruct (list_nodes_law w graphId (Some NodeRunning) Hwf Hg) as (l & -> & Hnd & Hl).
  destruct (sync_nodes_spec w l [] []) as (w1 & synced & noops & -> & Hwf1 & Hw1 & Hs); [done..| |].
  { intros n (Hn & _ & Hr)%Hl. split; [done|]. rewrite (Hr NodeRunning) by done. vm_compute. tauto. }
  exists l, w1, synced, noops. split; [done|]. split; [done|]. split; [|done].
  split; [done|]. intros n. rewrite Hl. naive_solver.
Qed.

(** A step that hands nodes to jobs goes through the ready nodes that the store lists, until the
    limit is reached, and hands over or skips each. *)
Definition considered w (request : RunDelegationGraphStepRequest) (limit : Z)
    (ms : list MaterializedDelegationGraphNode)
    (sk : list DelegationGraphStepSkippedReadyNode) : Prop :=
  ∃ ready,
    listReadyDelegationGraphNodes {| lr_graphId := rs_graphId request;
      lr_limit := Some (default (default (num_of_Z 1) (rs_materializeLimit request))
        (rs_readyScanLimit request)) |} w = (w, Ok ready) ∧
    reported ready ms sk (Z.of_nat (length ms) = limit) ∧ Forall (told_why request) sk.

Lemma materializeReadyNodes_spec w request limit :
  store_wf w → rs_graphId request ≠ "" → (1 ≤ limit)%Z →
  match materializeReadyNodes request (default (num_of_Z 1) (rs_materializeLimit request))
      limit w with
  | (w', Ok (ms, sk)) => store_wf w' ∧ materialized_nodes request w w' ms ∧
      (Z.of_nat (length ms) ≤ limit)%Z ∧ NoDup (materialized_ids ms) ∧
      considered w request limit ms sk
  | (w', Throw _) => store_wf w' ∧ ∃ ms, materialized_nodes request w w' ms ∧
      NoDup (materialized_ids ms) ∧ (Z.of_nat (length ms) ≤ limit)%Z
  end.
Proof.
  intros Hwf Hg Hpos. unfold materializeReadyNodes, mbind, stM_bind. rewrite decide_True by done.
  match goal with |- context [listReadyDelegationGraphNodes ?r w] =>
    pose proof (list_ready_law w r Hwf Hg) as Hready;
    destruct (listReadyDelegationGraphNodes r w) as [w0 [l|e]] eqn:Hlist end.
  2: { subst. split; [done|]. exists [].
    split_and!; [apply materialized_nodes_refl|constructor|simpl; lia]. }
  destruct Hready as (-> & Hnd & Hl).
  pose proof (materialize_nodes_spec request limit l [] [] w Hwf Hnd
    (fun n Hn => proj1 (Hl n Hn)) ltac:(simpl; lia)) as Hm.
  destruct (materialize_nodes _ _ _ _ _ _) as [w' [[ms sk]|e]].
  - destruct Hm as (ms' & sk' & -> & -> & ? & ? & ? & Hr & ?).
    split_and!; try done; [|by exists l].
    destruct Hr as (passed & rest & -> & _ & Hp). rewrite fmap_app in Hnd. apply NoDup_app in Hnd as (Hnd & _).
    rewrite Hp in Hnd. by apply NoDup_app in Hnd as (? & _).
  - naive_solver.
Qed.

Lemma step_body_spec w request limit :
  store_wf w → rs_graphId request ≠ "" → (0 ≤ limit)%Z →
  ∃ running w1, running_nodes w (rs_graphId request) running ∧ synced_nodes w w1 running ∧
  match step_body request (default (num_of_Z 1) (rs_materializeLimit request)) limit w with
  | (w', Ok result) =>
      (∀ s, s ∈ st_synced result → ∃ n, n ∈ running ∧
         finishing w n = Some (nd_state (sd_node s)) ∧
         store_nodes w1 !! nd_id n = Some (sd_node s)) ∧
      materialized_nodes request w1 w' (st_materialized result) ∧
      NoDup (materialized_ids (st_materialized result)) ∧
      (Z.of_nat (length (st_materialized result)) ≤ limit)%Z ∧
      (limit = 0%Z ∨ considered w1 request limit (st_materialized result)
        (st_skippedReadyNodes result))
  | (w', Throw _) => ∃ ms, materialized_nodes request w1 w' ms ∧
      NoDup (materialized_ids ms) ∧ (Z.of_nat (length ms) ≤ limit)%Z
  end.
Proof.
  intros Hwf Hg Hpos.
  destruct (syncRunningNodes_spec w (rs_graphId request) Hwf Hg)
    as (running & w1 & synced & noops & Hsync & Hwf1 & Hrun & Hw1 & Hs).
  exists running, w1. split; [done|]. split; [done|].
  unfold step_body, mbind, stM_bind. rewrite Hsync. case_decide; simpl.
  - split; [done|]. split; [apply materialized_nodes_refl|]. split; [constructor|].
    split; [lia|by left].
  - pose proof (materializeReadyNodes_spec w1 request limit Hwf1 Hg ltac:(lia)) as Hm.
    destruct (materializeReadyNodes _ _ _ w1) as [w' [[ms sk]|e]]; naive_solver.
Qed.

Lemma non_negative_integer_Some x z : non_negative_integer x = Some z → (0 ≤ z)%Z.
Proof.
  unfold non_negative_integer. destruct (num_integer x); simpl; [|done].
  case_decide; naive_solver.
Qed.

(** What a step returns and does. *)
Definition step_outcome w (request : RunDelegationGraphStepRequest) : Prop :=
  match step_limit request, runDelegationGraphStep request w with
  | None, r => ∃ message, r = (w, Throw (Error message))
  | Some limit, (w', r) => ∃ running w1,
      running_nodes w (rs_graphId request) running ∧ synced_nodes w w1 running ∧
      match r with
      | Ok result =>
          (∀ s, s ∈ st_synced result → ∃ n, n ∈ running ∧
             finishing w n = Some (nd_state (sd_node s)) ∧
             store_nodes w1 !! nd_id n = Some (sd_node s)) ∧
          materialized_nodes request w1 w' (st_materialized result) ∧
          NoDup (materialized_ids (st_materialized result)) ∧
          (Z.of_nat (length (st_materialized result)) ≤ limit)%Z ∧
          (limit = 0%Z ∨ considered w1 request limit (st_materialized result)
            (st_skippedReadyNodes result))
      | Throw _ => ∃ ms, materialized_nodes request w1 w' ms ∧
          NoDup (materialized_ids ms) ∧ (Z.of_nat (length ms) ≤ limit)%Z
      end
  end.

Lemma step_run w request :
  store_wf w → rs_graphId request ≠ "" → step_outcome w request.
Proof.
  intros Hwf Hg. unfold step_outcome, step_limit, runDelegationGraphStep.
  destruct (non_negative_integer (default _ _)) as [limit|] eqn:Hlimit; simpl; [|by eauto].
  apply non_negative_integer_Some in Hlimit.
  pose proof (step_body_spec w request limit Hwf Hg Hlimit) as (running & w1 & Hrun & Hw1 & Hbody).
  destruct (rs_readyScanLimit request) as [scan|]; simpl;
    [destruct (non_negative_integer scan); simpl; [|by eauto]|];
    unfold mbind, stM_bind; simpl;
    destruct (step_body _ _ _ w) as [w' [result|e]]; eauto.
Qed.

(** One step of a graph, with valid limits: first every running node of the
    graph is synchronised with its job, then the unstarted nodes that the store lists as ready
    are handed to jobs, each at most once and at most [materializeLimit] of them, until that
    limit is reached, except those it skips; nothing else changes.  A node whose kind has no
    configured job kind is skipped.  A node's job is new and of the kind that the request
    configures for the node's kind, unless there already was a job under the node's key, which
    it then is.  A step that throws has done part of this and nothing else; with an invalid limit
    it throws before it touches the stores (C9). *)
Theorem runDelegationGraphStep_spec w request :
  store_wf w → rs_graphId request ≠ "" → step_outcome w request.
Proof. apply step_run. Qed.

Lemma candidate_not_terminal n : isReadyCandidate n → ¬ is_terminal (nd_state n).
Proof. intros Hc. destruct (node_cases n); naive_solver. Qed.

Lemma materialized_keeps request w w' ms id n :
  materialized_nodes request w w' ms → store_nodes w !! id = Some n → nd_id n = id →
  is_terminal (nd_state n) → store_nodes w' !! id = Some n.
Proof.
  intros (_ & _ & Hother & Hms) Hn Hid Ht. rewrite Hother; [done|].
  intros (m & Hm & Hin)%list_elem_of_fmap.
  destruct (Hms m Hin) as (n0 & Hn0 & Hc & (Hid0 & _) & _).
  rewrite <-Hid0, <-Hm, Hn in Hn0. simplify_eq. by apply candidate_not_terminal in Hc.
Qed.

(** Whatever a step does, and whether it returns or throws, a finished node stays
    as it is. *)
Theorem runDelegationGraphStep_keeps_finished w request id n :
  store_wf w → rs_graphId request ≠ "" →
  store_nodes w !! id = Some n → is_terminal (nd_state n) →
  store_nodes (runDelegationGraphStep request w).1 !! id = Some n.
Proof.
  intros Hwf Hg Hn Ht. pose proof (step_run w request Hwf Hg) as Hstep.
  unfold step_outcome in Hstep.
  destruct (node_id_law w id n Hwf Hn) as [Hid _].
  destruct (step_limit request); [|by destruct Hstep as [? ->]].
  destruct (runDelegationGraphStep request w) as [w' r]. simpl.
  destruct Hstep as (running & w1 & (_ & Hrun) & (_ & Hother & _) & Hr).
  assert (store_nodes w1 !! id = Some n) as Hn1.
  { rewrite Hother; [done|]. intros (n0 & -> & (Hn0 & _ & Hr0)%Hrun)%list_elem_of_fmap.
    rewrite Hn in Hn0. simplify_eq. by rewrite Hr0 in Ht. }
  destruct r as [result|e].
  - destruct Hr as (_ & Hm & _). by eapply materialized_keeps.
  - destruct Hr as (ms & Hm & _). by eapply materialized_keeps.
Qed.
End laws.
