(* ===== verification/DelegationService.v ===== *)
(** The service's delegation store
    ([crates/system-service/src/delegation.rs], and [enqueue_job_tx] of
    [scheduler.rs]), the implementation of the [DelegationStore] interface.  A
    table is the list of its rows, a query is a filter and an order; each
    operation is one transaction, which leaves no trace when it fails.  The
    clock and the UUIDs are inputs of the state.  Enumerations arrive as their
    literals and are checked by the codec, so the service's checks of them cannot
    fail here; JSON objects are kept in insertion order. *)
From Stdlib Require Import OrdersEx.
From S2P Require Import Prelude JsMap Json JsStr Protocol StorageRpc.
From S2P Require Import DelegationGraph DelegationRuntime.

(** * Tables *)

(** A row with its [idempotency_key] column. *)
Record keyed (R : Type) := { kr_record : R; kr_key : option string }.
Arguments kr_record {R}.
Arguments kr_key {R}.

Record event_row := { ev_type : string; ev_payload : json; ev_occurredAt : Z }.

Record service_state := {
  sv_graphs : list (keyed DelegationGraphRecord);
  sv_nodes : list (keyed DelegationGraphNodeRecord);
  sv_dependencies : list DelegationGraphDependencyRecord;
  sv_jobs : list SchedulerJobRecord;
  sv_events : list event_row;
  sv_now : Z;
  sv_uuid : nat;
}.

Definition set_graphs l s := {| sv_graphs := l; sv_nodes := sv_nodes s;
  sv_dependencies := sv_dependencies s; sv_jobs := sv_jobs s; sv_events := sv_events s;
  sv_now := sv_now s; sv_uuid := sv_uuid s |}.
Definition set_nodes l s := {| sv_graphs := sv_graphs s; sv_nodes := l;
  sv_dependencies := sv_dependencies s; sv_jobs := sv_jobs s; sv_events := sv_events s;
  sv_now := sv_now s; sv_uuid := sv_uuid s |}.
Definition set_dependencies l s := {| sv_graphs := sv_graphs s; sv_nodes := sv_nodes s;
  sv_dependencies := l; sv_jobs := sv_jobs s; sv_events := sv_events s;
  sv_now := sv_now s; sv_uuid := sv_uuid s |}.
Definition set_jobs l s := {| sv_graphs := sv_graphs s; sv_nodes := sv_nodes s;
  sv_dependencies := sv_dependencies s; sv_jobs := l; sv_events := sv_events s;
  sv_now := sv_now s; sv_uuid := sv_uuid s |}.
Definition append_event (type : string) (payload : json) s := {| sv_graphs := sv_graphs s;
  sv_nodes := sv_nodes s; sv_dependencies := sv_dependencies s; sv_jobs := sv_jobs s;
  sv_events := sv_events s ++
    [{| ev_type := type; ev_payload := payload; ev_occurredAt := sv_now s |}];
  sv_now := sv_now s; sv_uuid := S (sv_uuid s) |}.
(** [Uuid::now_v7()] *)
Definition take_uuid s := {| sv_graphs := sv_graphs s; sv_nodes := sv_nodes s;
  sv_dependencies := sv_dependencies s; sv_jobs := sv_jobs s; sv_events := sv_events s;
  sv_now := sv_now s; sv_uuid := S (sv_uuid s) |}.

(** A transaction body: it changes the state, or fails and rolls back. *)
Abbreviation txM A := (service_state → result rpc_error (service_state * A)).

Definition transaction {A} (body : txM A) : stM service_state rpc_error A := fun s =>
  match body s with Ok (s', a) => (s', Ok a) | Throw e => (s, Throw e) end.

Definition invariant {A} (message : string) : result rpc_error A :=
  Throw (SystemServiceClientError (js message) "invariant").
Definition sqlite {A} (message : string) : result rpc_error A :=
  Throw (SystemServiceClientError (js message) "sqlite").

(** A wire number the service reads as [i64]; a number that is none is rejected
    where it is used. *)
Definition i64_field (o : option jsnum) : result rpc_error (option Z) :=
  match o with
  | None => Ok None
  | Some x =>
      match num_integer x with
      | Some z => if decide (- 2 ^ 63 ≤ z < 2 ^ 63)%Z then Ok (Some z)
                  else Throw (SystemServiceClientError (js "invalid number") "json")
      | None => Throw (SystemServiceClientError (js "invalid number") "json")
      end
  end.

(** A wire [null] is [None]. *)
Definition wire_option (o : option json) : option json :=
  match o with Some JNull => None | _ => o end.

Definition clamp (lo hi x : Z) : Z := Z.min hi (Z.max lo x).

(** * Queries *)

Definition find_graph (id : string) (s : service_state) : option DelegationGraphRecord :=
  snd <$> list_find (fun g => gr_id g = id) (kr_record <$> sv_graphs s).

Definition find_node (id : string) (s : service_state) : option DelegationGraphNodeRecord :=
  snd <$> list_find (fun n => nd_id n = id) (kr_record <$> sv_nodes s).

Definition find_job (id : string) (s : service_state) : option SchedulerJobRecord :=
  snd <$> list_find (fun j => job_id j = id) (sv_jobs s).

Definition find_key {R} (key : string) (l : list (keyed R)) : option R :=
  (fun p => kr_record p.2) <$> list_find (fun r => kr_key r = Some key) l.

Definition find_job_by_idempotency (key : string) (s : service_state)
    : option SchedulerJobRecord :=
  snd <$> list_find (fun j => job_idempotencyKey j = Some key) (sv_jobs s).

(** [ORDER BY created_at ASC, id ASC] *)
Definition order_by (createdAt : jsnum) (id : string) : Z * string :=
  (default 0%Z (num_integer createdAt), id).

Definition compare_order (a b : Z * string) : Z :=
  match Z.compare a.1 b.1 with
  | Lt => -1
  | Gt => 1
  | Eq => match String.compare a.2 b.2 with Lt => -1 | Gt => 1 | Eq => 0 end
  end.

Definition node_order (n : DelegationGraphNodeRecord) : Z * string :=
  order_by (nd_createdAt n) (nd_id n).

Definition dependency_order (d : DelegationGraphDependencyRecord) : Z * string :=
  order_by (dep_createdAt d) (dep_id d).

Definition sorted_nodes (l : list DelegationGraphNodeRecord)
    : list DelegationGraphNodeRecord :=
  js_sort (fun a b => compare_order (node_order a) (node_order b)) l.

Definition graph_is_open (graphId : string) (s : service_state) : bool :=
  match find_graph graphId s with
  | Some g => bool_decide (gr_state g = GraphOpen) || bool_decide (gr_state g = GraphRunning)
  | None => false
  end.

(** [NOT EXISTS (SELECT 1 FROM dependency JOIN source ...)] *)
Definition no_open_dependency (n : DelegationGraphNodeRecord) (s : service_state) : bool :=
  negb (existsb (fun d =>
    bool_decide (dep_graphId d = nd_graphId n) && bool_decide (dep_toNodeId d = nd_id n) &&
    existsb (fun source =>
      bool_decide (nd_id source = dep_fromNodeId d) && negb (dependencySatisfied d source))
      (kr_record <$> sv_nodes s)) (sv_dependencies s)).

(** The conditions under which a node of the graph is ready. *)
Definition ready_in (s : service_state) (graphId : string) (n : DelegationGraphNodeRecord)
    : bool :=
  bool_decide (nd_graphId n = graphId) && isReadyCandidate n &&
  graph_is_open (nd_graphId n) s && no_open_dependency n s.

Definition all_nodes (s : service_state) : list DelegationGraphNodeRecord :=
  kr_record <$> sv_nodes s.

Definition list_nodes (r : ListDelegationGraphNodesRequest)
    : txM (list DelegationGraphNodeRecord) := fun s =>
  _ ← (if decide (ln_graphId r = "") then
         invariant "delegation node graph_id must not be empty" else Ok tt);
  Ok (s, sorted_nodes (filter (fun n => nd_graphId n = ln_graphId r ∧
    (ln_state r = None ∨ ln_state r = Some (nd_state n))) (all_nodes s))).

Definition get_node (r : GetDelegationGraphNodeRequest)
    : txM (option DelegationGraphNodeRecord) := fun s =>
  if decide (gn_nodeId r = "") then invariant "delegation node id must not be empty"
  else Ok (s, find_node (gn_nodeId r) s).

Definition list_ready (r : ListReadyDelegationGraphNodesRequest)
    : txM (list DelegationGraphNodeRecord) := fun s =>
  limit ← i64_field (lr_limit r);
  if decide (lr_graphId r = "") then invariant "delegation ready graph_id must not be empty"
  else
    let limit := clamp 1 1000 (default 100%Z limit) in
    Ok (s, take (Z.to_nat limit)
      (sorted_nodes (filter (fun n => ready_in s (lr_graphId r) n) (all_nodes s)))).

Definition list_dependencies (r : ListDelegationGraphDependenciesRequest)
    : txM (list DelegationGraphDependencyRecord) := fun s =>
  if decide (ld_graphId r = "") then
    invariant "delegation dependency graph_id must not be empty"
  else Ok (s, js_sort (fun a b => compare_order (dependency_order a) (dependency_order b))
    (filter (fun d => dep_graphId d = ld_graphId r) (sv_dependencies s))).

Definition graph_order (g : DelegationGraphRecord) : Z * string :=
  ((- default 0 (num_integer (gr_updatedAt g)))%Z, gr_id g).

Definition list_graphs (r : ListDelegationGraphsRequest)
    : txM (list DelegationGraphRecord) := fun s =>
  limit ← i64_field (lg_limit r);
  Ok (s, take (Z.to_nat (clamp 1 1000 (default 100%Z limit)))
    (js_sort (fun a b => compare_order (graph_order a) (graph_order b))
      (filter (fun g => (lg_principalId r = None ∨ lg_principalId r = Some (gr_principalId g)) ∧
         (lg_state r = None ∨ lg_state r = Some (gr_state g)))
        (kr_record <$> sv_graphs s)))).

Definition get_graph (r : GetDelegationGraphRequest)
    : txM (option DelegationGraphRecord) := fun s =>
  if decide (gg_graphId r = "") then invariant "delegation graph id must not be empty"
  else Ok (s, find_graph (gg_graphId r) s).

Definition get_job (r : GetJobRequest) : txM (option SchedulerJobRecord) := fun s =>
  Ok (s, find_job (gj_jobId r) s).

(** * Writes *)

Section service.
(** The string a UUID is printed as. *)
Context (uuid : nat → string).

(** [UPDATE ... WHERE id = ?] *)
Definition update_node (id : string)
    (f : DelegationGraphNodeRecord → DelegationGraphNodeRecord)
    (l : list (keyed DelegationGraphNodeRecord)) : list (keyed DelegationGraphNodeRecord) :=
  (fun row => if decide (nd_id (kr_record row) = id)
              then {| kr_record := f (kr_record row); kr_key := kr_key row |} else row) <$> l.

Definition update_graph (id : string) (f : DelegationGraphRecord → DelegationGraphRecord)
    (l : list (keyed DelegationGraphRecord)) : list (keyed DelegationGraphRecord) :=
  (fun row => if decide (gr_id (kr_record row) = id)
              then {| kr_record := f (kr_record row); kr_key := kr_key row |} else row) <$> l.

Definition or_invariant {A} (o : option A) (message : string) : result rpc_error A :=
  match o with Some a => Ok a | None => invariant message end.

Definition validate_existing_graph (record : DelegationGraphRecord)
    (r : PutDelegationGraphRequest) : result rpc_error unit :=
  if decide (gr_principalId record = pg_principalId r ∧ gr_title record = pg_title r ∧
             gr_metadata record = wire_option (pg_metadata r)) then Ok tt
  else invariant ("delegation graph id already exists with different content: " +:+ gr_id record).

Definition put_graph (r : PutDelegationGraphRequest) : txM DelegationGraphRecord := fun s =>
  _ ← (if decide (pg_principalId r = "") then
         invariant "delegation graph principal_id must not be empty" else Ok tt);
  _ ← (if decide (pg_id r = Some "" ∨ pg_idempotencyKey r = Some "") then
         invariant "delegation graph id/idempotency_key must not be empty" else Ok tt);
  let id := default ("dgraph_" +:+ uuid (sv_uuid s)) (pg_id r) in
  let s := take_uuid s in
  match pg_idempotencyKey r ≫= (fun key => find_key key (sv_graphs s)) with
  | Some record => _ ← validate_existing_graph record r; Ok (s, record)
  | None =>
      match find_graph id s with
      | Some record => _ ← validate_existing_graph record r; Ok (s, record)
      | None =>
          let now := num_of_Z (sv_now s) in
          let record := {| gr_id := id; gr_principalId := pg_principalId r;
            gr_title := pg_title r; gr_state := GraphOpen;
            gr_metadata := wire_option (pg_metadata r); gr_createdAt := now;
            gr_updatedAt := now; gr_closedAt := None |} in
          let s := set_graphs
            (sv_graphs s ++ [{| kr_record := record; kr_key := pg_idempotencyKey r |}]) s in
          let s := append_event "delegation.graph.created"
            (JObj [("graphId", JStr id); ("principalId", JStr (pg_principalId r));
                   ("state", JStr "open"); ("updatedAt", JNum now)]) s in
          record ← or_invariant (find_graph id s)
            ("delegation graph insert missing: " +:+ id);
          Ok (s, record)
      end
  end.

Definition validate_existing_node (record : DelegationGraphNodeRecord)
    (r : PutDelegationGraphNodeRequest) : result rpc_error unit :=
  if decide (nd_graphId record = pn_graphId r ∧ nd_kind record = pn_kind r ∧
             nd_principalId record = pn_principalId r ∧ nd_payload record = pn_payload r ∧
             nd_metadata record = wire_option (pn_metadata r)) then Ok tt
  else invariant ("delegation node id already exists with different content: " +:+ nd_id record).

Definition put_node (r : PutDelegationGraphNodeRequest) : txM DelegationGraphNodeRecord := fun s =>
  _ ← (if decide (pn_graphId r = "" ∨ pn_principalId r = "") then
         invariant "delegation node graph_id/principal_id must not be empty" else Ok tt);
  _ ← (if decide (pn_id r = Some "" ∨ pn_idempotencyKey r = Some "") then
         invariant "delegation node id/idempotency_key must not be empty" else Ok tt);
  let id := default ("dnode_" +:+ uuid (sv_uuid s)) (pn_id r) in
  let s := take_uuid s in
  _ ← or_invariant (find_graph (pn_graphId r) s)
    ("delegation graph does not exist: " +:+ pn_graphId r);
  match pn_idempotencyKey r ≫= (fun key => find_key key (sv_nodes s)) with
  | Some record => _ ← validate_existing_node record r; Ok (s, record)
  | None =>
      match find_node id s with
      | Some record => _ ← validate_existing_node record r; Ok (s, record)
      | None =>
          let now := num_of_Z (sv_now s) in
          let record := {| nd_id := id; nd_graphId := pn_graphId r; nd_kind := pn_kind r;
            nd_principalId := pn_principalId r; nd_state := NodePending;
            nd_payload := pn_payload r; nd_schedulerJobId := None;
            nd_metadata := wire_option (pn_metadata r); nd_createdAt := now;
            nd_updatedAt := now; nd_startedAt := None; nd_finishedAt := None |} in
          let s := set_nodes
            (sv_nodes s ++ [{| kr_record := record; kr_key := pn_idempotencyKey r |}]) s in
          let s := append_event "delegation.node.created"
            (JObj [("graphId", JStr (pn_graphId r)); ("nodeId", JStr id);
                   ("kind", JStr (enum_name (pn_kind r))); ("state", JStr "pending");
                   ("updatedAt", JNum now)]) s in
          record ← or_invariant (find_node id s) ("delegation node insert missing: " +:+ id);
          Ok (s, record)
      end
  end.

Definition put_dependency (r : PutDelegationGraphDependencyRequest)
    : txM DelegationGraphDependencyRecord := fun s =>
  _ ← (if decide (pd_graphId r = "" ∨ pd_fromNodeId r = "" ∨ pd_toNodeId r = "") then
         invariant "delegation dependency graph/from/to ids must not be empty" else Ok tt);
  let id := default ("ddep_" +:+ uuid (sv_uuid s)) (pd_id r) in
  let kind := default AfterSuccess (pd_kind r) in
  let s := take_uuid s in
  from_node ← or_invariant (find_node (pd_fromNodeId r) s)
    ("delegation dependency from node does not exist: " +:+ pd_fromNodeId r);
  to_node ← or_invariant (find_node (pd_toNodeId r) s)
    ("delegation dependency to node does not exist: " +:+ pd_toNodeId r);
  _ ← (if decide (nd_graphId from_node ≠ pd_graphId r ∨ nd_graphId to_node ≠ pd_graphId r) then
         invariant "delegation dependency nodes must belong to graph" else Ok tt);
  _ ← (if decide (pd_fromNodeId r = pd_toNodeId r) then
         invariant "delegation dependency cannot target the same node" else Ok tt);
  match list_find (fun d => dep_graphId d = pd_graphId r ∧ dep_fromNodeId d = pd_fromNodeId r ∧
          dep_toNodeId d = pd_toNodeId r ∧ dep_kind d = kind) (sv_dependencies s) with
  | Some (_, record) => Ok (s, record)
  | None =>
      if decide (id ∈ (dep_id <$> sv_dependencies s)) then
        sqlite "UNIQUE constraint failed: delegation_graph_dependency.id"
      else
        let record := {| dep_id := id; dep_graphId := pd_graphId r;
          dep_fromNodeId := pd_fromNodeId r; dep_toNodeId := pd_toNodeId r; dep_kind := kind;
          dep_createdAt := num_of_Z (sv_now s) |} in
        let s := set_dependencies (sv_dependencies s ++ [record]) s in
        let s := append_event "delegation.dependency.created"
          (JObj [("graphId", JStr (pd_graphId r)); ("dependencyId", JStr id);
                 ("fromNodeId", JStr (pd_fromNodeId r)); ("toNodeId", JStr (pd_toNodeId r));
                 ("kind", JStr (enum_name kind))]) s in
        Ok (s, record)
  end.

Definition graph_state_is_terminal (state : DelegationGraphState) : bool :=
  match state with GraphSucceeded | GraphFailed | GraphCancelled => true | _ => false end.

Definition update_graph_state (r : UpdateDelegationGraphStateRequest)
    : txM DelegationGraphRecord := fun s =>
  _ ← (if decide (ug_graphId r = "") then
         invariant "delegation graph id must not be empty" else Ok tt);
  let now := num_of_Z (sv_now s) in
  let closed_at := if graph_state_is_terminal (ug_state r) then Some now else None in
  existing ← or_invariant (find_graph (ug_graphId r) s)
    ("delegation graph does not exist: " +:+ ug_graphId r);
  _ ← (if graph_state_is_terminal (gr_state existing) &&
          negb (bool_decide (gr_state existing = ug_state r)) then
         invariant ("invalid delegation graph transition: " +:+ enum_name (gr_state existing)
           +:+ "/" +:+ enum_name (ug_state r)) else Ok tt);
  let s := set_graphs (update_graph (ug_graphId r) (fun g => {| gr_id := gr_id g;
    gr_principalId := gr_principalId g; gr_title := gr_title g; gr_state := ug_state r;
    gr_metadata := gr_metadata g; gr_createdAt := gr_createdAt g; gr_updatedAt := now;
    gr_closedAt := closed_at |}) (sv_graphs s)) s in
  let s := append_event "delegation.graph.state_updated"
    (JObj [("graphId", JStr (ug_graphId r));
           ("fromState", JStr (enum_name (gr_state existing)));
           ("toState", JStr (enum_name (ug_state r))); ("updatedAt", JNum now)]) s in
  record ← or_invariant (find_graph (ug_graphId r) s)
    ("delegation graph update missing: " +:+ ug_graphId r);
  Ok (s, record).

Definition update_node_state (r : UpdateDelegationGraphNodeStateRequest)
    : txM DelegationGraphNodeRecord := fun s =>
  _ ← (if decide (un_nodeId r = "") then
         invariant "delegation node id must not be empty" else Ok tt);
  let now := num_of_Z (sv_now s) in
  let started_at := if decide (un_state r = NodeRunning) then Some now else None in
  let finished_at := if is_terminal (un_state r) then Some now else None in
  existing ← or_invariant (find_node (un_nodeId r) s)
    ("delegation node does not exist: " +:+ un_nodeId r);
  _ ← (if is_terminal (nd_state existing) &&
          negb (bool_decide (nd_state existing = un_state r)) then
         invariant ("invalid delegation node transition: " +:+ enum_name (nd_state existing)
           +:+ "/" +:+ enum_name (un_state r)) else Ok tt);
  let s := set_nodes (update_node (un_nodeId r) (fun n => {| nd_id := nd_id n;
    nd_graphId := nd_graphId n; nd_kind := nd_kind n; nd_principalId := nd_principalId n;
    nd_state := un_state r; nd_payload := nd_payload n;
    nd_schedulerJobId := union (un_schedulerJobId r) (nd_schedulerJobId n);
    nd_metadata := union (wire_option (un_metadata r)) (nd_metadata n);
    nd_createdAt := nd_createdAt n; nd_updatedAt := now;
    nd_startedAt := union (nd_startedAt n) started_at;
    nd_finishedAt := union finished_at (nd_finishedAt n) |}) (sv_nodes s)) s in
  let s := append_event "delegation.node.state_updated"
    (JObj [("graphId", JStr (nd_graphId existing)); ("nodeId", JStr (un_nodeId r));
           ("fromState", JStr (enum_name (nd_state existing)));
           ("toState", JStr (enum_name (un_state r)));
           ("schedulerJobId", from_option JStr JNull (un_schedulerJobId r));
           ("updatedAt", JNum now)]) s in
  record ← or_invariant (find_node (un_nodeId r) s)
    ("delegation node update missing: " +:+ un_nodeId r);
  Ok (s, record).

Definition attach_node_job (r : AttachDelegationGraphNodeJobRequest)
    : txM DelegationGraphNodeRecord := fun s =>
  _ ← (if decide (an_nodeId r = "" ∨ an_schedulerJobId r = "") then
         invariant "delegation node id and scheduler_job_id must not be empty" else Ok tt);
  let now := num_of_Z (sv_now s) in
  existing ← or_invariant (find_node (an_nodeId r) s)
    ("delegation node does not exist: " +:+ an_nodeId r);
  let s := set_nodes (update_node (an_nodeId r) (fun n => {| nd_id := nd_id n;
    nd_graphId := nd_graphId n; nd_kind := nd_kind n; nd_principalId := nd_principalId n;
    nd_state := nd_state n; nd_payload := nd_payload n;
    nd_schedulerJobId := Some (an_schedulerJobId r); nd_metadata := nd_metadata n;
    nd_createdAt := nd_createdAt n; nd_updatedAt := now; nd_startedAt := nd_startedAt n;
    nd_finishedAt := nd_finishedAt n |}) (sv_nodes s)) s in
  let s := append_event "delegation.node.job_attached"
    (JObj [("graphId", JStr (nd_graphId existing)); ("nodeId", JStr (an_nodeId r));
           ("schedulerJobId", JStr (an_schedulerJobId r)); ("updatedAt", JNum now)]) s in
  record ← or_invariant (find_node (an_nodeId r) s)
    ("delegation node attach missing: " +:+ an_nodeId r);
  Ok (s, record).

(** * Handing a node to a job *)

Definition DEFAULT_SCHEDULER_QUEUE : string := "default".

Definition queue_char (c : Ascii.ascii) : bool :=
  let c := Ascii.N_of_ascii c in
  is_alnum c || bool_decide (c = 46)%N || bool_decide (c = 95)%N || bool_decide (c = 45)%N.

Definition validate_queue (queue : option string) : result rpc_error unit :=
  match queue with
  | None => Ok tt
  | Some q =>
      if decide (q = "" ∨ 128 < String.length q) then
        Throw (SystemServiceClientError (js "job queue must be an opaque identifier")
          "invalid_job_request")
      else if forallb queue_char (String.list_ascii_of_string q) then Ok tt
      else Throw (SystemServiceClientError (js "job queue must be an opaque identifier")
        "invalid_job_request")
  end.

Definition validate_enqueue (r : EnqueueJobRequest) (maxAttempts : option Z)
    : result rpc_error unit :=
  _ ← (if decide (ej_principalId r = "") then
         Throw (SystemServiceClientError (js "principal_id must not be empty")
           "invalid_job_request") else Ok tt);
  _ ← (if decide (default 1 maxAttempts ≤ 0)%Z then
         Throw (SystemServiceClientError (js "max_attempts must be positive")
           "invalid_job_request") else Ok tt);
  validate_queue (ej_queue r).

Definition default_retry : RetryPolicy :=
  {| rp_strategy := RetryNone; rp_initialDelayMs := None; rp_maxDelayMs := None |}.

(** [enqueue_job_tx]: an existing job with the idempotency key, or a new one. *)
Definition enqueue_job (r : EnqueueJobRequest) : txM SchedulerJobRecord := fun s =>
  scheduled ← i64_field (ej_scheduledAt r);
  not_before ← i64_field (ej_notBefore r);
  priority ← i64_field (ej_priority r);
  max_attempts ← i64_field (ej_maxAttempts r);
  _ ← validate_enqueue r max_attempts;
  let id := default ("job_" +:+ uuid (sv_uuid s)) (ej_id r) in
  let s := take_uuid s in
  let scheduled_at := default (sv_now s) scheduled in
  let state := if decide (default scheduled_at not_before ≤ sv_now s)%Z
               then JobReady else JobPending in
  let queue := default DEFAULT_SCHEDULER_QUEUE (ej_queue r) in
  match ej_idempotencyKey r ≫= (fun key => find_job_by_idempotency key s) with
  | Some existing => Ok (s, existing)
  | None =>
      if decide (id ∈ (job_id <$> sv_jobs s)) then
        sqlite "UNIQUE constraint failed: scheduler_job.id"
      else
        let now := num_of_Z (sv_now s) in
        let job := {| job_id := id; job_kind := ej_kind r; job_queue := queue;
          job_state := state; job_principalId := ej_principalId r;
          job_payload := ej_payload r; job_scheduledAt := num_of_Z scheduled_at;
          job_notBefore := num_of_Z <$> not_before;
          job_priority := num_of_Z (default 0%Z priority);
          job_concurrencyKey := ej_concurrencyKey r; job_attempt := num_of_Z 0;
          job_maxAttempts := num_of_Z (default 1%Z max_attempts);
          job_retryPolicy := default default_retry (ej_retryPolicy r);
          job_idempotencyKey := ej_idempotencyKey r;
          job_budgetGrantId := ej_budgetGrantId r; job_leaseOwner := None;
          job_leaseToken := None; job_leaseExpiresAt := None; job_result := None;
          job_lastError := None; job_createdAt := now; job_updatedAt := now;
          job_finishedAt := None |} in
        let s := set_jobs (sv_jobs s ++ [job]) s in
        let s := append_event "scheduler.job.enqueued"
          (JObj [("jobId", JStr id); ("scheduler",
            JObj [("jobId", JStr id); ("kind", JStr (enum_name (ej_kind r)));
                  ("queue", JStr queue); ("state", JStr (enum_name state));
                  ("concurrencyKey", from_option JStr JNull (ej_concurrencyKey r))])]) s in
        record ← or_invariant (find_job id s) ("scheduler job not found: " +:+ id);
        Ok (s, record)
  end.

Definition validate_materialize_ready_node (r : MaterializeReadyDelegationGraphNodeRequest)
    : result rpc_error unit :=
  _ ← (if decide (mr_graphId r = "" ∨ mr_workerId r = "") then
         invariant "delegation materialize graph_id/worker_id must not be empty" else Ok tt);
  _ ← (if decide (mr_nodeId r = Some "" ∨ mr_jobId r = Some "" ∨
                  mr_jobIdempotencyKey r = Some "") then
         invariant "delegation materialize node/job/idempotency ids must not be empty"
       else Ok tt);
  if decide (mr_jobKind r = SessionTurn) then
    invariant "delegation materialization cannot create an orphan session.turn job"
  else Ok tt.

Definition find_materializable_node (r : MaterializeReadyDelegationGraphNodeRequest)
    (s : service_state) : option string :=
  nd_id <$> head (sorted_nodes (filter (fun n => ready_in s (mr_graphId r) n ∧
    (mr_nodeId r = None ∨ mr_nodeId r = Some (nd_id n))) (all_nodes s))).

Definition materialized_node_metadata (existing : option json)
    (worker_id job_kind job_id : string) (materialized_at : jsnum) : json :=
  let metadata := match existing with
    | Some (JObj fields) => fields
    | Some value => [("previous", value)]
    | None => []
    end in
  JObj (jset "materializedAt" (JNum materialized_at)
    (jset "materializedJobId" (JStr job_id)
      (jset "materializedJobKind" (JStr job_kind)
        (jset "materializedBy" (JStr worker_id) metadata)))).

(** The node claims the job slot, is given its job, and records who did it. *)
Definition claim_node (token : string) (now : jsnum) (n : DelegationGraphNodeRecord)
    : DelegationGraphNodeRecord := {|
  nd_id := nd_id n; nd_graphId := nd_graphId n; nd_kind := nd_kind n;
  nd_principalId := nd_principalId n; nd_state := NodeRunning; nd_payload := nd_payload n;
  nd_schedulerJobId := Some token; nd_metadata := nd_metadata n;
  nd_createdAt := nd_createdAt n; nd_updatedAt := now;
  nd_startedAt := union (nd_startedAt n) (Some now); nd_finishedAt := nd_finishedAt n |}.

Definition give_job (token jobId : string) (metadata : json) (now : jsnum)
    (n : DelegationGraphNodeRecord) : DelegationGraphNodeRecord :=
  if decide (nd_schedulerJobId n = Some token) then {|
    nd_id := nd_id n; nd_graphId := nd_graphId n; nd_kind := nd_kind n;
    nd_principalId := nd_principalId n; nd_state := nd_state n; nd_payload := nd_payload n;
    nd_schedulerJobId := Some jobId; nd_metadata := Some metadata;
    nd_createdAt := nd_createdAt n; nd_updatedAt := now; nd_startedAt := nd_startedAt n;
    nd_finishedAt := nd_finishedAt n |}
  else n.

Definition job_key (graphId nodeId : string) : string :=
  "delegation:" +:+ graphId +:+ ":" +:+ nodeId +:+ ":job".

Definition node_job (r : MaterializeReadyDelegationGraphNodeRequest)
    (existing : DelegationGraphNodeRecord) (node_id : string) : EnqueueJobRequest := {|
  ej_id := mr_jobId r; ej_kind := mr_jobKind r; ej_queue := None;
  ej_principalId := nd_principalId existing;
  ej_payload := JObj [("delegationGraphId", JStr (mr_graphId r));
    ("delegationNodeId", JStr node_id); ("nodeKind", JStr (enum_name (nd_kind existing)));
    ("payload", default (nd_payload existing) (wire_option (mr_jobPayload r)))];
  ej_scheduledAt := mr_scheduledAt r; ej_notBefore := mr_notBefore r;
  ej_priority := mr_priority r; ej_concurrencyKey := None;
  ej_maxAttempts := mr_maxAttempts r; ej_retryPolicy := mr_retryPolicy r;
  ej_idempotencyKey := Some (default (job_key (mr_graphId r) node_id)
    (mr_jobIdempotencyKey r));
  ej_budgetGrantId := mr_budgetGrantId r |}.

Definition materialize_ready_node (r : MaterializeReadyDelegationGraphNodeRequest)
    : txM (option MaterializedDelegationGraphNode) := fun s =>
  _ ← validate_materialize_ready_node r;
  let now := num_of_Z (sv_now s) in
  match find_materializable_node r s with
  | None => Ok (s, None)
  | Some node_id =>
      existing ← or_invariant (find_node node_id s) ("delegation node missing: " +:+ node_id);
      let token := "materializing_" +:+ uuid (sv_uuid s) in
      let s := take_uuid s in
      (** The conditions of the [UPDATE] are those of the query, on the same rows. *)
      if negb (ready_in s (mr_graphId r) existing) then Ok (s, None)
      else
        let s := set_nodes (update_node node_id (claim_node token now) (sv_nodes s)) s in
        '(s, job) ← enqueue_job (node_job r existing node_id) s;
        let metadata := materialized_node_metadata (nd_metadata existing) (mr_workerId r)
          (enum_name (mr_jobKind r)) (job_id job) now in
        let s := set_nodes
          (update_node node_id (give_job token (job_id job) metadata now) (sv_nodes s)) s in
        let s := append_event "delegation.node.materialized"
          (JObj [("graphId", JStr (mr_graphId r)); ("nodeId", JStr node_id);
                 ("schedulerJobId", JStr (job_id job));
                 ("schedulerJobKind", JStr (enum_name (mr_jobKind r)));
                 ("workerId", JStr (mr_workerId r)); ("updatedAt", JNum now)]) s in
        node ← or_invariant (find_node node_id s)
          ("delegation node materialize missing: " +:+ node_id);
        Ok (s, Some {| mt_node := node; mt_job := job |})
  end.

(** * The stores *)

Definition service_delegation : DelegationStore service_state := {|
  putDelegationGraph r := transaction (put_graph r);
  getDelegationGraph r := transaction (get_graph r);
  listDelegationGraphs r := transaction (list_graphs r);
  putDelegationGraphNode r := transaction (put_node r);
  getDelegationGraphNode r := transaction (get_node r);
  listDelegationGraphNodes r := transaction (list_nodes r);
  putDelegationGraphDependency r := transaction (put_dependency r);
  listDelegationGraphDependencies r := transaction (list_dependencies r);
  updateDelegationGraphState r := transaction (update_graph_state r);
  updateDelegationGraphNodeState r := transaction (update_node_state r);
  attachDelegationGraphNodeJob r := transaction (attach_node_job r);
  listReadyDelegationGraphNodes r := transaction (list_ready r);
  materializeReadyDelegationGraphNode r := transaction (materialize_ready_node r) |}.

(** The job methods other than [enqueueJob] and [getJob] are a parameter. *)
Definition service_scheduler (rest : SchedulerStore service_state)
    : SchedulerStore service_state := {|
  enqueueJob r := transaction (enqueue_job r);
  claimJob := @claimJob _ rest;
  heartbeatJob := @heartbeatJob _ rest;
  completeJob := @completeJob _ rest;
  failJob := @failJob _ rest;
  cancelJob := @cancelJob _ rest;
  getJob r := transaction (get_job r);
  listJobs := @listJobs _ rest |}.
End service.

(** * Tables as maps *)

Section table.
Context {R : Type} (key : R → string).
Implicit Types (l : list R) (r : R).

Definition table l : gmap string R := list_to_map ((fun r => (key r, r)) <$> l).

Lemma table_keys l : ((fun r => (key r, r)) <$> l).*1 = key <$> l.
Proof. by rewrite <-list_fmap_compose. Qed.

Lemma table_lookup l id r :
  NoDup (key <$> l) → table l !! id = Some r ↔ r ∈ l ∧ key r = id.
Proof.
  intros Hnd. unfold table. rewrite <-elem_of_list_to_map by (by rewrite table_keys).
  rewrite list_elem_of_fmap. naive_solver.
Qed.

Lemma table_find l id `{∀ r, Decision (key r = id)} :
  NoDup (key <$> l) → table l !! id = snd <$> list_find (fun r => key r = id) l.
Proof.
  intros Hnd. apply option_eq. intros r. rewrite table_lookup by done. split.
  - intros [Hr Hid].
    destruct (list_find_elem_of (fun r => key r = id) l r) as [[i r'] Hf]; [done..|].
    rewrite Hf. simpl. f_equal. apply list_find_Some in Hf as (Hi & Hid' & _).
    apply list_elem_of_lookup in Hr as [j Hj].
    assert (i = j) as <-; [|congruence].
    eapply NoDup_lookup; [exact Hnd|..]; rewrite list_lookup_fmap;
      [by rewrite Hi|by rewrite Hj; simpl; rewrite Hid, Hid'].
  - intros ([i r'] & (Hi & Hid & _)%list_find_Some & ->)%fmap_Some. simpl.
    split; [by eapply list_elem_of_lookup_2|done].
Qed.

Lemma table_snoc l r :
  key r ∉ (key <$> l) → table (l ++ [r]) = <[key r := r]> (table l).
Proof.
  intros Hr. unfold table. rewrite fmap_app, list_to_map_app. simpl.
  rewrite insert_empty. rewrite <-insert_union_singleton_r; [done|].
  apply not_elem_of_list_to_map. by rewrite table_keys.
Qed.

Lemma table_update l id (f : R → R) r `{∀ r, Decision (key r = id)} :
  NoDup (key <$> l) → (∀ r, key (f r) = key r) → table l !! id = Some r →
  table ((fun r => if decide (key r = id) then f r else r) <$> l) = <[id := f r]> (table l).
Proof.
  intros Hnd Hf Hr. apply table_lookup in Hr as [Hr Hid]; [|done].
  assert (key <$> ((fun r => if decide (key r = id) then f r else r) <$> l) = key <$> l)
    as Hkeys.
  { rewrite <-list_fmap_compose. apply list_fmap_ext. intros i x _. simpl.
    case_decide; [apply Hf|done]. }
  apply map_eq. intros id'. apply option_eq. intros r'.
  rewrite table_lookup by (by rewrite Hkeys). rewrite list_elem_of_fmap.
  rewrite lookup_insert_Some, table_lookup by done. split.
  - intros [(x & -> & Hx) <-]. case_decide as Hxid.
    + left. rewrite Hf. split; [done|]. f_equal.
      assert (table l !! id = Some x) as Hl1 by (by apply table_lookup).
      assert (table l !! id = Some r) as Hl2 by (by apply table_lookup). congruence.
    + right. done.
  - intros [[<- <-]|(Hne & Hr' & <-)].
    + split; [|by rewrite Hf]. exists r. by rewrite decide_True.
    + split; [|done]. exists r'. by rewrite decide_False.
Qed.
End table.

(** * The service satisfies the laws of the runtime *)

Record service_wf (s : service_state) : Prop := {
  wf_nodes : NoDup (nd_id <$> all_nodes s);
  wf_node_ids : "" ∉ (nd_id <$> all_nodes s);
  wf_jobs : NoDup (job_id <$> sv_jobs s);
}.

Definition service_nodes (s : service_state) : gmap string DelegationGraphNodeRecord :=
  table nd_id (all_nodes s).
Definition service_jobs (s : service_state) : gmap string SchedulerJobRecord :=
  table job_id (sv_jobs s).

Lemma service_find_node s id : service_wf s → service_nodes s !! id = find_node id s.
Proof. intros Hwf. by apply table_find, wf_nodes. Qed.

Lemma service_find_job s id : service_wf s → service_jobs s !! id = find_job id s.
Proof. intros Hwf. by apply table_find, wf_jobs. Qed.

Lemma elem_of_sorted_nodes n l : n ∈ sorted_nodes l ↔ n ∈ l.
Proof. unfold sorted_nodes. by rewrite js_sort_perm. Qed.

Lemma sorted_nodes_filter_NoDup s (P : DelegationGraphNodeRecord → Prop)
    `{∀ n, Decision (P n)} :
  service_wf s → NoDup (nd_id <$> sorted_nodes (filter P (all_nodes s))).
Proof.
  intros Hwf. unfold sorted_nodes. rewrite js_sort_perm.
  eapply sublist_NoDup; [apply Hwf|]. apply sublist_fmap, sublist_filter.
Qed.

(** An update of one node, as the store's maps and invariant see it. *)
Lemma all_nodes_update s id f :
  all_nodes (set_nodes (update_node id f (sv_nodes s)) s) =
  (fun n => if decide (nd_id n = id) then f n else n) <$> all_nodes s.
Proof.
  unfold all_nodes, update_node. simpl. rewrite <-!list_fmap_compose. apply list_fmap_ext.
  intros i row _. simpl. by case_decide.
Qed.

Lemma update_node_keys s id f :
  (∀ n, nd_id (f n) = nd_id n) →
  nd_id <$> all_nodes (set_nodes (update_node id f (sv_nodes s)) s) = nd_id <$> all_nodes s.
Proof.
  intros Hf. rewrite all_nodes_update, <-list_fmap_compose. apply list_fmap_ext.
  intros i n _. simpl. case_decide; [apply Hf|done].
Qed.

Lemma update_node_wf s id f :
  (∀ n, nd_id (f n) = nd_id n) → service_wf s →
  service_wf (set_nodes (update_node id f (sv_nodes s)) s).
Proof. intros Hf [Hn Hi Hj]. split; rewrite ?update_node_keys by done; done. Qed.

Lemma update_node_table s id f n :
  (∀ n, nd_id (f n) = nd_id n) → service_wf s → service_nodes s !! id = Some n →
  service_nodes (set_nodes (update_node id f (sv_nodes s)) s) = <[id := f n]> (service_nodes s).
Proof.
  intros Hf Hwf Hn. unfold service_nodes. rewrite all_nodes_update.
  apply table_update; [apply Hwf|done|done].
Qed.

Lemma append_event_wf s type payload : service_wf s → service_wf (append_event type payload s).
Proof. by intros []. Qed.

Lemma take_uuid_wf s : service_wf s → service_wf (take_uuid s).
Proof. by intros []. Qed.

Lemma append_event_nodes s type payload :
  service_nodes (append_event type payload s) = service_nodes s.
Proof. done. Qed.

Lemma append_event_jobs s type payload :
  service_jobs (append_event type payload s) = service_jobs s.
Proof. done. Qed.

Lemma set_jobs_jobs s l : service_jobs (set_jobs l s) = table job_id l.
Proof. done. Qed.

Lemma find_updated s id f n type payload :
  (∀ n, nd_id (f n) = nd_id n) → service_wf s → service_nodes s !! id = Some n →
  find_node id (append_event type payload (set_nodes (update_node id f (sv_nodes s)) s)) =
  Some (f n).
Proof.
  intros Hf Hwf Hn. rewrite <-service_find_node by (by apply append_event_wf, update_node_wf).
  rewrite append_event_nodes, (update_node_table s id f n) by done. apply lookup_insert_eq.
Qed.

Create HintDb service.
#[export] Hint Resolve update_node_wf append_event_wf take_uuid_wf : service.

Section service_laws.
Context (uuid : nat → string) (rest : SchedulerStore service_state).

Lemma service_node_id s id n :
  service_wf s → service_nodes s !! id = Some n → nd_id n = id ∧ id ≠ "".
Proof.
  intros Hwf [Hn <-]%table_lookup; [|apply Hwf]. split; [done|]. intros Hid.
  apply (wf_node_ids s Hwf). rewrite <-Hid. by apply list_elem_of_fmap_2.
Qed.

Lemma service_update_node s n r :
  service_wf s → service_nodes s !! un_nodeId r = Some n →
  (is_terminal (nd_state n) → un_state r = nd_state n) →
  ∃ n' s', transaction (update_node_state r) s = (s', Ok n') ∧ service_wf s' ∧
    moved n n' (un_state r) (union (un_schedulerJobId r) (nd_schedulerJobId n)) ∧
    service_nodes s' = <[un_nodeId r := n']> (service_nodes s) ∧
    service_jobs s' = service_jobs s.
Proof.
  intros Hwf Hn Hstate. pose proof Hn as Hfind. rewrite service_find_node in Hfind by done.
  unfold transaction, update_node_state.
  destruct (service_node_id s _ n Hwf Hn) as [_ Hid].
  rewrite (decide_False (P := un_nodeId r = "")) by done. simpl. rewrite Hfind. simpl.
  assert (is_terminal (nd_state n) && negb (bool_decide (nd_state n = un_state r)) = false)
    as ->.
  { destruct (is_terminal (nd_state n)); [|done]. by rewrite bool_decide_true by (by rewrite Hstate). }
  simpl.
  rewrite (find_updated s _ _ n) by done. simpl. eexists _, _. split; [done|].
  split; [by apply append_event_wf, update_node_wf|]. split; [done|]. split; [|done].
  rewrite append_event_nodes.
  match goal with |- context [update_node _ ?f _] => by apply (update_node_table s _ f n) end.
Qed.

(** A transaction that only reads. *)
Lemma transaction_Ok {A} (body : txM A) s s' a :
  body s = Ok (s', a) → transaction body s = (s', Ok a).
Proof. unfold transaction. by intros ->. Qed.

Lemma ready_in_candidate s graphId n :
  ready_in s graphId n → nd_graphId n = graphId ∧ isReadyCandidate n.
Proof.
  unfold ready_in. rewrite !andb_True, bool_decide_spec. naive_solver.
Qed.

Lemma service_list_ready s r :
  service_wf s → lr_graphId r ≠ "" →
  match transaction (list_ready r) s with
  | (s', Ok l) => s' = s ∧ NoDup (nd_id <$> l) ∧
      ∀ n, n ∈ l → service_nodes s !! nd_id n = Some n ∧ nd_graphId n = lr_graphId r ∧
        isReadyCandidate n
  | (s', Throw _) => s' = s
  end.
Proof.
  intros Hwf Hg. unfold transaction, list_ready.
  destruct (i64_field (lr_limit r)) as [limit|]; simpl; [|done].
  rewrite decide_False by done. split; [done|]. split.
  - eapply sublist_NoDup; [by eapply sorted_nodes_filter_NoDup|].
    apply sublist_fmap, sublist_take.
  - intros n Hn. eapply elem_of_sublist in Hn; [|apply sublist_take].
    apply elem_of_sorted_nodes, list_elem_of_filter in Hn as [Hr Hn].
    split; [|by apply (ready_in_candidate s)]. apply table_lookup; [apply Hwf|done].
Qed.

Lemma enqueue_job_spec r s s' job :
  service_wf s → enqueue_job uuid r s = Ok (s', job) →
  service_wf s' ∧ all_nodes s' = all_nodes s ∧ sv_dependencies s' = sv_dependencies s ∧
  service_jobs s' = <[job_id job := job]> (service_jobs s) ∧ service_jobs s ⊆ service_jobs s' ∧
  (service_jobs s !! job_id job = Some job ∨
   service_jobs s !! job_id job = None ∧ job_kind job = ej_kind r ∧
   job_principalId job = ej_principalId r) ∧
  (∀ key, ej_idempotencyKey r = Some key → job_idempotencyKey job = Some key).
Proof.
  intros Hwf. unfold enqueue_job. intros H. inv_result.
  destruct (ej_idempotencyKey r ≫= _) as [existing|] eqn:Hkey.
  - injection H as <- <-. split; [by apply take_uuid_wf|]. split; [done|]. split; [done|].
    apply bind_Some in Hkey as (key & Hkey & ([i j] & (Hi & Hk & _)%list_find_Some & ->)%fmap_Some).
    assert (service_jobs s !! job_id j = Some j) as Hjob.
    { apply table_lookup; [apply Hwf|]. split; [by eapply list_elem_of_lookup_2|done]. }
    change (service_jobs (take_uuid s)) with (service_jobs s). simpl.
    rewrite insert_id by done. split_and!; [done|done|by left|]. congruence.
  - case_decide as Hfresh; [done|]. inv_result.
    match goal with H : or_invariant _ _ = Ok _ |- _ => rename H into Hfound end.
    revert Hfound Hfresh. unfold find_job. simpl. set (id := default _ (ej_id r)).
    match goal with |- context [sv_jobs s ++ [?j]] => set (new := j) end. intros Hfound Hfresh.
    assert (NoDup (job_id <$> (sv_jobs s ++ [new]))) as Hnd.
    { rewrite fmap_app. apply NoDup_app. split; [apply Hwf|]. split; [set_solver|].
      apply NoDup_singleton. }
    rewrite <-(table_find job_id) in Hfound by done.
    rewrite (table_snoc job_id (sv_jobs s) new) in Hfound by done.
    change (job_id new) with id in Hfound. rewrite lookup_insert_eq in Hfound.
    injection Hfound as <-. split; [|split; [done|split; [done|]]].
    + destruct Hwf. by split.
    + rewrite append_event_jobs, set_jobs_jobs, (table_snoc job_id) by done.
      assert (table job_id (sv_jobs s) !! id = None) as Hnone
        by (apply not_elem_of_list_to_map; by rewrite table_keys).
      split_and!; [done|by apply insert_subseteq|right; by split_and!|done].
Qed.

Lemma length_append s t : String.length (s +:+ t) = String.length s + String.length t.
Proof. by induction s as [|c s IH]; simpl; [|rewrite IH]. Qed.

Lemma append_inj_r (t s1 s2 : string) : s1 +:+ t = s2 +:+ t → s1 = s2.
Proof.
  revert s2. induction s1 as [|c s1 IH]; intros [|c' s2] Heq; try done.
  - apply (f_equal String.length) in Heq. rewrite !length_append in Heq. simpl in Heq. lia.
  - apply (f_equal String.length) in Heq. rewrite !length_append in Heq. simpl in Heq. lia.
  - injection Heq as -> Heq. f_equal. by apply IH.
Qed.

(** The default keys of the nodes of one graph differ. *)
#[export] Instance job_key_inj graphId : Inj (=) (=) (job_key graphId).
Proof.
  intros n1 n2 Heq. unfold job_key in Heq. do 3 apply (inj (String.append _)) in Heq.
  by eapply append_inj_r.
Qed.

Lemma find_materializable_node_spec s r node_id :
  service_wf s → find_materializable_node r s = Some node_id →
  ∃ n, service_nodes s !! node_id = Some n ∧ find_node node_id s = Some n ∧
    ready_in s (mr_graphId r) n ∧ (∀ id, mr_nodeId r = Some id → id = node_id).
Proof.
  intros Hwf (n & Hhead & ->)%fmap_Some. apply head_Some_elem_of in Hhead.
  apply elem_of_sorted_nodes, list_elem_of_filter in Hhead as [[Hr Hn] Hin].
  exists n. rewrite <-service_find_node by done.
  assert (service_nodes s !! nd_id n = Some n); [by apply table_lookup; [apply Hwf|]|].
  split_and!; try done. intros id Hid. destruct Hn; congruence.
Qed.

Lemma give_job_id token jobId metadata now n :
  nd_id (give_job token jobId metadata now n) = nd_id n.
Proof. unfold give_job. by case_decide. Qed.

Lemma service_materialize s r :
  service_wf s →
  match transaction (materialize_ready_node uuid r) s with
  | (s', Ok (Some m)) => service_wf s' ∧ sv_dependencies s' = sv_dependencies s ∧ ∃ id n,
      (∀ id', mr_nodeId r = Some id' → id' = id) ∧
      service_nodes s !! id = Some n ∧ isReadyCandidate n ∧ nd_graphId n = mr_graphId r ∧
      moved n (mt_node m) NodeRunning (Some (job_id (mt_job m))) ∧
      service_nodes s' = <[id := mt_node m]> (service_nodes s) ∧
      service_jobs s' = <[job_id (mt_job m) := mt_job m]> (service_jobs s) ∧
      service_jobs s ⊆ service_jobs s' ∧
      given (service_jobs s) (default (job_key (mr_graphId r) id) (mr_jobIdempotencyKey r))
        (mr_jobKind r) n (mt_job m)
  | (s', Ok None) | (s', Throw _) => s' = s
  end.
Proof.
  intros Hwf. unfold transaction, materialize_ready_node.
  destruct (validate_materialize_ready_node r) as [[]|]; simpl; [|done].
  destruct (find_materializable_node r s) as [id|] eqn:Hfound; [|done].
  apply find_materializable_node_spec in Hfound as (n & Hn & Hfind & Hready & Hid); [|done].
  rewrite Hfind. simpl. change (ready_in (take_uuid s)) with (ready_in s).
  rewrite (Is_true_true_1 _ Hready). simpl.
  set (token := "materializing_" +:+ _). set (now := num_of_Z _).
  set (s1 := set_nodes _ _).
  assert (service_wf s1) as Hwf1 by exact (update_node_wf (take_uuid s) id
    (claim_node token now) (fun _ => eq_refl) (take_uuid_wf s Hwf)).
  assert (service_nodes s1 = <[id := claim_node token now n]> (service_nodes s)) as Hs1
    by exact (update_node_table (take_uuid s) id (claim_node token now) n
      (fun _ => eq_refl) (take_uuid_wf s Hwf) Hn).
  destruct (enqueue_job uuid (node_job r n id) s1) as [[s2 job]|] eqn:Henq; simpl; [|done].
  apply enqueue_job_spec in Henq as (Hwf2 & Hall & Hdeps & Hjobs & Hsub & Hnew & Hkey); [|done].
  assert (service_nodes s2 = service_nodes s1) as Hs2 by (unfold service_nodes; by rewrite Hall).
  rewrite Hs1 in Hs2.
  set (meta := materialized_node_metadata _ _ _ _ _).
  rewrite (find_updated s2 id _ (claim_node token now n)); simpl;
    [|intros; apply give_job_id|done|by rewrite Hs2, lookup_insert_eq].
  apply ready_in_candidate in Hready as [Hgraph Hc].
  split; [apply append_event_wf, update_node_wf; [intros; apply give_job_id|done]|].
  split; [done|]. exists id, n. split; [done|]. split; [done|]. split; [done|]. split; [done|].
  split; [unfold give_job; rewrite decide_True by done; done|].
  rewrite append_event_nodes, append_event_jobs.
  rewrite (update_node_table s2 id (give_job token (job_id job) meta now)
    (claim_node token now n)); [|intros; apply give_job_id|done|by rewrite Hs2, lookup_insert_eq].
  split; [by rewrite Hs2, insert_insert_eq|]. split; [done|]. split; [done|].
  split; [by apply Hkey|done].
Qed.

Lemma service_list_nodes s graphId state :
  service_wf s → graphId ≠ "" →
  ∃ l, transaction (list_nodes {| ln_graphId := graphId; ln_state := state |}) s = (s, Ok l) ∧
    NoDup (nd_id <$> l) ∧
    ∀ n, n ∈ l ↔ service_nodes s !! nd_id n = Some n ∧ nd_graphId n = graphId ∧
      (∀ st, state = Some st → nd_state n = st).
Proof.
  intros Hwf Hg. unfold transaction, list_nodes. simpl. rewrite decide_False by done. simpl.
  eexists. split; [done|]. split; [by apply sorted_nodes_filter_NoDup|]. intros n.
  rewrite elem_of_sorted_nodes, list_elem_of_filter.
  unfold service_nodes. rewrite table_lookup by apply Hwf. destruct state as [st|]; naive_solver.
Qed.

(** The service is an implementation of the stores the runtime is verified
    against. *)
#[export, refine] Instance service_laws :
  @DelegationLaws service_state (service_delegation uuid) (service_scheduler uuid rest) := {|
  store_wf := service_wf;
  store_nodes := service_nodes;
  store_jobs := service_jobs;
  node_key := job_key;
  node_key_inj := job_key_inj;
  node_id_law := service_node_id |}.
Proof.
  - intros s id Hwf Hid. simpl. unfold transaction, get_node. simpl.
    rewrite decide_False by done. by rewrite service_find_node.
  - intros s id Hwf. simpl. unfold transaction, get_job. simpl. by rewrite service_find_job.
  - intros s graphId state. apply service_list_nodes.
  - intros s n r. apply service_update_node.
  - intros s r. apply service_list_ready.
  - intros s r id Hwf Hid. pose proof (service_materialize s r Hwf) as Hm. simpl.
    destruct (transaction _ s) as [s' [[m|]|e]]; [|done..].
    destruct Hm as (Hwf' & _ & id' & n & Hid' & Hrest). rewrite <-(Hid' id Hid) in Hrest. eauto.
Defined.
End service_laws.

(** * What the operations keep *)

(** What every operation keeps of a node: its graph, that it has a job, and its
    state once that is final. *)
Definition node_le (n n' : DelegationGraphNodeRecord) : Prop :=
  nd_graphId n' = nd_graphId n ∧
  (nd_schedulerJobId n ≠ None → nd_schedulerJobId n' ≠ None) ∧
  (is_terminal (nd_state n) → nd_state n' = nd_state n).

Definition nodes_le (s s' : service_state) : Prop :=
  ∀ id n, service_nodes s !! id = Some n →
    ∃ n', service_nodes s' !! id = Some n' ∧ node_le n n'.

#[export] Instance node_le_preorder : PreOrder node_le.
Proof.
  split; [done|]. intros n1 n2 n3 (Hg & Hj & Ht) (Hg' & Hj' & Ht').
  split; [congruence|]. split; [auto|]. intros Hn1. rewrite Ht', Ht; [done..|]. by rewrite Ht.
Qed.

#[export] Instance nodes_le_preorder : PreOrder nodes_le.
Proof.
  split; [by intros s id n Hn; exists n|].
  intros s1 s2 s3 H12 H23 id n (n2 & Hn2 & Hle)%H12. apply H23 in Hn2 as (n3 & ? & ?).
  exists n3. split; [done|]. by etrans.
Qed.

(** A node of the graph, by id. *)
Definition node_in (s : service_state) (graphId id : string) : Prop :=
  ∃ n, service_nodes s !! id = Some n ∧ nd_graphId n = graphId.

(** Dependencies connect nodes of their graph. *)
Record store_inv (s : service_state) : Prop := {
  inv_wf : service_wf s;
  inv_deps d : d ∈ sv_dependencies s →
    node_in s (dep_graphId d) (dep_fromNodeId d) ∧ node_in s (dep_graphId d) (dep_toNodeId d);
}.

Lemma node_in_le s s' graphId id : nodes_le s s' → node_in s graphId id → node_in s' graphId id.
Proof.
  intros Hle (n & Hn & Hg). destruct (Hle id n Hn) as (n' & Hn' & Hg' & _).
  exists n'. split; [done|]. by rewrite Hg'.
Qed.

(** An operation that adds no dependency keeps the invariant when it keeps the
    tables well-formed and the nodes. *)
Lemma store_inv_le s s' :
  store_inv s → service_wf s' → nodes_le s s' → sv_dependencies s' = sv_dependencies s →
  store_inv s'.
Proof.
  intros Hinv Hwf Hle Hdeps. split; [done|]. intros d Hd. rewrite Hdeps in Hd.
  destruct (inv_deps s Hinv d Hd). split; by eapply node_in_le.
Qed.

Lemma nodes_le_insert s s' id n n' :
  service_nodes s !! id = Some n → node_le n n' →
  service_nodes s' = <[id := n']> (service_nodes s) → nodes_le s s'.
Proof.
  intros Hn Hle Heq id1 n1 Hn1. rewrite Heq. destruct (decide (id1 = id)) as [->|Hne].
  - rewrite lookup_insert_eq. exists n'. by simplify_eq.
  - rewrite lookup_insert_ne by done. by exists n1.
Qed.

Lemma nodes_le_same s s' : service_nodes s' = service_nodes s → nodes_le s s'.
Proof. intros Heq id n Hn. rewrite Heq. by exists n. Qed.

Section preservation.
Context (uuid : nat → string).

(** An operation preserves the invariant and the nodes. *)
Definition keeps {A} (body : txM A) : Prop :=
  ∀ s s' a, store_inv s → body s = Ok (s', a) → store_inv s' ∧ nodes_le s s'.

Lemma keeps_update (s s' : service_state) id f n type payload :
  s' = append_event type payload (set_nodes (update_node id f (sv_nodes s)) s) →
  store_inv s → service_nodes s !! id = Some n →
  (∀ n, nd_id (f n) = nd_id n) → node_le n (f n) →
  store_inv s' ∧ nodes_le s s'.
Proof.
  intros -> Hinv Hn Hf Hle. pose proof (inv_wf s Hinv) as Hwf.
  assert (nodes_le s (append_event type payload
    (set_nodes (update_node id f (sv_nodes s)) s))) as Hnodes.
  { eapply (nodes_le_insert _ _ id n); [done|done|].
    rewrite append_event_nodes. by apply update_node_table. }
  split; [|done]. eapply store_inv_le; [done| |done|done].
  by apply append_event_wf, update_node_wf.
Qed.

(** An operation that touches neither nodes, jobs nor dependencies. *)
Lemma keeps_same s s' :
  store_inv s → sv_nodes s' = sv_nodes s → sv_jobs s' = sv_jobs s →
  sv_dependencies s' = sv_dependencies s → store_inv s' ∧ nodes_le s s'.
Proof.
  intros Hinv Hnodes Hjobs Hdeps. destruct (inv_wf s Hinv) as [Hn Hi Hj].
  assert (nodes_le s s') as Hle
    by (apply nodes_le_same; unfold service_nodes, all_nodes; by rewrite Hnodes).
  split; [|done]. eapply store_inv_le; [done| |done|done].
  split; unfold all_nodes; by rewrite ?Hnodes, ?Hjobs.
Qed.

Lemma put_graph_keeps r : keeps (put_graph uuid r).
Proof.
  intros s s' a Hinv H. unfold put_graph in H. inv_result.
  destruct (pg_idempotencyKey r ≫= _) as [record|];
    [|destruct (find_graph _ _) as [record|]]; inv_result; by apply keeps_same.
Qed.

Lemma update_graph_state_keeps r : keeps (update_graph_state r).
Proof.
  intros s s' a Hinv H. unfold update_graph_state in H. inv_result. by apply keeps_same.
Qed.

Lemma or_invariant_Ok {A} (o : option A) message a :
  or_invariant o message = Ok a → o = Some a.
Proof. destruct o; naive_solver. Qed.

(** An operation that adds a node. *)
Lemma keeps_snoc s s' n :
  store_inv s → all_nodes s' = all_nodes s ++ [n] → nd_id n ≠ "" →
  nd_id n ∉ (nd_id <$> all_nodes s) → sv_jobs s' = sv_jobs s →
  sv_dependencies s' = sv_dependencies s → store_inv s' ∧ nodes_le s s'.
Proof.
  intros Hinv Hall Hid Hfresh Hjobs Hdeps. destruct (inv_wf s Hinv) as [Hn Hi Hj].
  assert (nodes_le s s') as Hle.
  { intros id n' Hn'. exists n'. split; [|done]. unfold service_nodes. rewrite Hall.
    rewrite table_snoc by done. rewrite lookup_insert_ne; [done|].
    intros <-. apply Hfresh. apply table_lookup in Hn' as [? <-]; [|done].
    by apply list_elem_of_fmap_2. }
  split; [|done]. eapply store_inv_le; [done| |done|done].
  split; [| |by rewrite Hjobs]; rewrite Hall, fmap_app; simpl.
  - apply NoDup_app. split; [done|]. split; [set_solver|apply NoDup_singleton].
  - set_solver.
Qed.

Lemma put_node_keeps r : keeps (put_node uuid r).
Proof.
  intros s s' a Hinv H. pose proof (inv_wf s Hinv) as Hwf.
  unfold put_node in H. inv_result.
  destruct (pn_idempotencyKey r ≫= _) as [record|]; [inv_result; by apply keeps_same|].
  set (id := default ("dnode_" +:+ uuid (sv_uuid s)) (pn_id r)) in *.
  destruct (find_node id (take_uuid s)) as [record|] eqn:Hnone; [inv_result; by apply keeps_same|].
  assert (id ≠ "") as Hid.
  { subst id. intros Hempty. case_if H1 Hdec; [done|]. apply Hdec. left.
    by destruct (pn_id r); simpl in Hempty; [congruence|]. }
  assert (id ∉ (nd_id <$> all_nodes s)) as Hfresh.
  { intros Hin. assert (is_Some (service_nodes s !! id)) as [n Hn].
    { apply list_elem_of_fmap in Hin as (n & -> & Hn). exists n.
      apply table_lookup; [apply Hwf|done]. }
    rewrite service_find_node in Hn by done. change (find_node id s = None) in Hnone. congruence. }
  inv_result.
  eapply keeps_snoc; [done|unfold all_nodes; simpl; rewrite fmap_app; reflexivity|done..].
Qed.

Lemma find_node_in s graphId id n :
  service_wf s → find_node id s = Some n → nd_graphId n = graphId → node_in s graphId id.
Proof. intros Hwf Hn Hg. exists n. by rewrite service_find_node. Qed.

Lemma put_dependency_keeps r : keeps (put_dependency uuid r).
Proof.
  intros s s' a Hinv H. pose proof (inv_wf s Hinv) as Hwf.
  unfold put_dependency in H. inv_result.
  match goal with H1 : or_invariant (find_node (pd_fromNodeId r) _) _ = _,
    H2 : or_invariant (find_node (pd_toNodeId r) _) _ = _ |- _ =>
    apply or_invariant_Ok in H1 as Hfrom, H2 as Hto end.
  destruct (list_find _ _) as [[i d]|]; [inv_result; by apply keeps_same|].
  case_if H Hdup; [done|]. inv_result.
  match goal with |- store_inv ?s2 ∧ _ =>
    assert (nodes_le s s2) as Hle by (by apply nodes_le_same);
    assert (service_wf s2) as Hwf2 by (by destruct Hwf) end.
  split; [|done]. split; [done|]. simpl.
  intros d Hd. apply elem_of_app in Hd as [Hd|Hd%list_elem_of_singleton]; [|subst d]; simpl.
  - destruct (inv_deps s Hinv d Hd). split; by eapply node_in_le.
  - case_if H3 Hg; [done|]. apply Decidable.not_or in Hg as [Hg1 Hg2].
    apply dec_stable in Hg1, Hg2.
    split; (eapply node_in_le; [done|]); by eapply find_node_in.
Qed.

Lemma update_node_state_keeps r : keeps (update_node_state r).
Proof.
  intros s s' a Hinv H. unfold update_node_state in H. inv_result.
  match goal with H1 : or_invariant (find_node _ s) _ = _ |- _ =>
    apply or_invariant_Ok in H1 as Hn end.
  rewrite <-service_find_node in Hn by apply Hinv.
  eapply keeps_update; [reflexivity|done|exact Hn|done|]. split; [done|]. simpl. split.
  - by destruct (un_schedulerJobId r), (nd_schedulerJobId x0).
  - intros Ht. rewrite (Is_true_true_1 _ Ht) in H2. simpl in H2.
    case_bool_decide as Heq; [done|]. simpl in H2. done.
Qed.

Lemma attach_node_job_keeps r : keeps (attach_node_job r).
Proof.
  intros s s' a Hinv H. unfold attach_node_job in H. inv_result.
  match goal with H1 : or_invariant (find_node _ s) _ = _ |- _ =>
    apply or_invariant_Ok in H1 as Hn end.
  rewrite <-service_find_node in Hn by apply Hinv.
  by eapply keeps_update; [reflexivity|done|exact Hn|..].
Qed.

Lemma moved_le n n' job :
  isReadyCandidate n → moved n n' NodeRunning (Some job) → node_le n n'.
Proof.
  intros Hc (_ & Hg & _ & _ & Hs & Hj). split; [done|]. split; [by rewrite Hj|].
  intros Ht. by apply candidate_not_terminal in Hc.
Qed.

Lemma materialize_keeps r : keeps (materialize_ready_node uuid r).
Proof.
  intros s s' m Hinv H. pose proof (service_materialize uuid s r (inv_wf s Hinv)) as Hm.
  unfold transaction in Hm. rewrite H in Hm. destruct m as [m|]; [|by subst].
  destruct Hm as (Hwf & Hdeps & id & n & _ & Hn & Hc & _ & Hmoved & Hnodes & _).
  assert (nodes_le s s') by (eapply nodes_le_insert; [done|by eapply moved_le|done]).
  split; [|done]. by eapply store_inv_le.
Qed.

(** * The runtime over the service *)

(** Whatever it answers, a call leaves the store well-formed and its nodes only
    advanced. *)
Definition preserves {A} (m : stM service_state rpc_error A) : Prop :=
  ∀ s, store_inv s → store_inv (m s).1 ∧ nodes_le s (m s).1.

Lemma preserves_transaction {A} (body : txM A) : keeps body → preserves (transaction body).
Proof.
  intros Hk s Hs. unfold transaction. destruct (body s) as [[s' a]|e] eqn:E; [by eapply Hk|].
  by split.
Qed.

Lemma preserves_pure {A} (m : stM service_state rpc_error A) :
  (∀ s, (m s).1 = s) → preserves m.
Proof. intros Hm s Hs. by rewrite Hm. Qed.

Lemma preserves_bind {A B} (m : stM service_state rpc_error A) f :
  preserves m → (∀ a, preserves (f a)) → preserves (A := B) (m ≫= f).
Proof.
  intros Hm Hf s Hs. destruct (Hm s Hs) as [Hs1 Hle]. unfold mbind, stM_bind.
  destruct (m s) as [s1 [a|e]]; [|done]. destruct (Hf a s1 Hs1). split; [done|]. by etrans.
Qed.

Lemma preserves_read {A} (body : txM A) :
  (∀ s s' a, body s = Ok (s', a) → s' = s) → preserves (transaction body).
Proof. intros Hb. apply preserves_transaction. intros s s' a Hs ->%Hb. by split. Qed.
Context (rest : SchedulerStore service_state).
#[local] Instance preserved_delegation : DelegationStore service_state := service_delegation uuid.
#[local] Instance preserved_scheduler : SchedulerStore service_state :=
  service_scheduler uuid rest.

Lemma preserves_ret {A} (a : A) : preserves (mret a).
Proof. by apply preserves_pure. Qed.

Lemma preserves_noop reason node job : preserves (noop (W := service_state) reason node job).
Proof. by apply preserves_pure. Qed.

Local Hint Resolve preserves_ret preserves_noop put_graph_keeps update_graph_state_keeps
  put_node_keeps put_dependency_keeps update_node_state_keeps attach_node_job_keeps
  materialize_keeps : preserves.

(** Each query only reads. *)
Local Hint Unfold get_graph list_graphs list_nodes list_ready list_dependencies get_node
  get_job : queries.

(** A composite call preserves the store because its parts do. *)
Ltac solve_preserves :=
  repeat first
    [ progress eauto with preserves
    | apply preserves_bind; [|intros ?]
    | apply preserves_transaction; solve [eauto with preserves]
    | apply preserves_read; let H := fresh "Hread" in intros ? ? ? H;
      autounfold with queries in H; unfold invariant in H; inv_result;
      repeat case_match; by inv_result
    | by apply preserves_pure
    | case_match ].

Lemma preserves_sync nodeId : preserves (syncMaterializedNodeJob nodeId).
Proof. unfold syncMaterializedNodeJob. simpl. solve_preserves. Qed.
Lemma preserves_sync_nodes running synced noops : preserves (sync_nodes running synced noops).
Proof.
  revert synced noops. induction running as [|n running IH]; intros; simpl; [solve_preserves|].
  destruct (nd_schedulerJobId n); [|apply IH].
  apply preserves_bind; [apply preserves_sync|]. by intros [].
Qed.

Lemma preserves_materialize_nodes request limit ready ms skipped :
  preserves (materialize_nodes request limit ready ms skipped).
Proof.
  revert ms skipped. induction ready as [|n ready IH]; intros; simpl; [solve_preserves|].
  case_match; [solve_preserves|]. destruct (rs_jobKindsByNodeKind _ _); [|apply IH].
  apply preserves_bind; [solve_preserves|]. by intros [].
Qed.

Local Hint Resolve preserves_sync preserves_sync_nodes preserves_materialize_nodes : preserves.

Lemma preserves_step request : preserves (runDelegationGraphStep request).
Proof.
  unfold runDelegationGraphStep, guardM, step_body, syncRunningNodes, materializeReadyNodes.
  simpl. solve_preserves.
Qed.

(** Every method of the runtime class, whether it returns or throws, leaves the
    service's store well-formed, keeps the nodes' graphs and jobs, and moves no node
    out of a final state (C11). *)
Theorem DelegationGraphRuntime_preserves principalId {A} (m : runtime_method A) s :
  store_inv s →
  let s' := (DelegationGraphRuntime principalId m s).1 in store_inv s' ∧ nodes_le s s'.
Proof.
  revert s. change (preserves (DelegationGraphRuntime principalId m)).
  destruct m; simpl; solve [apply preserves_step|apply preserves_sync|
    unfold createGraph, addNode, getGraph, listGraphs, updateGraphState; solve_preserves].
Qed.
End preservation.

(** * The order of rows *)

Definition order_le (a b : Z * string) : Prop := ¬ (compare_order b a < 0)%Z.

Lemma string_compare_eq s t : String.compare s t = String_as_OT.compare s t.
Proof. done. Qed.

Lemma compare_order_neg a b :
  (compare_order a b < 0)%Z ↔ (a.1 < b.1)%Z ∨ (a.1 = b.1 ∧ String_as_OT.lt a.2 b.2).
Proof.
  unfold compare_order, String_as_OT.lt. rewrite string_compare_eq. destruct (Z.compare_spec a.1 b.1) as [He|Hl|Hg].
  - split.
    + intros Hneg. right. split; [done|].
      by destruct (String_as_OT.compare a.2 b.2).
    + intros [?|[_ Hs]]; [lia|]. by rewrite Hs.
  - split; [by left|lia].
  - split; [lia|]. intros [?|[? _]]; lia.
Qed.

Lemma order_le_iff a b :
  order_le a b ↔ (a.1 < b.1)%Z ∨ (a.1 = b.1 ∧ ¬ String_as_OT.lt b.2 a.2).
Proof.
  unfold order_le. rewrite compare_order_neg.
  destruct (Z.lt_trichotomy a.1 b.1) as [?|[?|?]].
  - split; [by left|]. intros _ [?|[? _]]; lia.
  - split; [|intros [?|[_ ?]] [?|[_ ?]]; try lia; done].
    intros Hn. right. split; [done|]. intros Hlt. apply Hn. by right.
  - split; [intros Hn; destruct Hn; by left|]. intros [?|[? _]]; lia.
Qed.

Lemma string_total s t : String_as_OT.lt s t ∨ s = t ∨ String_as_OT.lt t s.
Proof.
  destruct (String_as_OT.compare_spec s t) as [He|Hl|Hg]; [|by left|by right; right].
  right. left. done.
Qed.

#[export] Instance order_le_trans : Transitive order_le.
Proof.
  intros a b c. rewrite !order_le_iff. intros [Hab|[Hab Hsab]] [Hbc|[Hbc Hsbc]];
    [left; lia|left; lia|left; lia|]. right. split; [lia|]. intros Hlt.
  destruct (string_total b.2 c.2) as [?|[Heq|?]]; [|by rewrite <-Heq in Hlt|done].
  apply Hsab. by etrans.
Qed.

Lemma order_le_antisym a b : order_le a b → order_le b a → a = b.
Proof.
  rewrite !order_le_iff. destruct a as [x s], b as [y t]; simpl.
  intros [?|[-> Hs]] [?|[? Ht]]; try lia. f_equal.
  destruct (string_total s t) as [?|[?|?]]; done.
Qed.

#[export] Instance by_order_js {A} (key : A → Z * string) :
  JsCompare (fun a b => compare_order (key a) (key b)).
Proof.
  split.
  - intros x y Hlt. change (order_le (key x) (key y)). rewrite order_le_iff.
    apply compare_order_neg in Hlt as [?|[? Hs]]; [by left|]. right. split; [done|].
    intros Hs'. by apply (irreflexivity String_as_OT.lt (key x).2); etrans.
  - intros x y z Hxy Hyz. change (order_le (key x) (key z)). by trans (key y).
Qed.

(** * The status and the service agree on what is ready *)

Section agreement.
Context (uuid : nat → string) (rest : SchedulerStore service_state).
Local Abbreviation status graphId s :=
  (@getGraphStatus service_state (service_delegation uuid) graphId s).

Definition graph_nodes (graphId : string) (s : service_state)
    : list DelegationGraphNodeRecord :=
  sorted_nodes (filter (fun n => nd_graphId n = graphId ∧
    (@None DelegationNodeState = None ∨ None = Some (nd_state n))) (all_nodes s)).

Lemma elem_of_graph_nodes graphId s n :
  n ∈ graph_nodes graphId s ↔ n ∈ all_nodes s ∧ nd_graphId n = graphId.
Proof. unfold graph_nodes. rewrite elem_of_sorted_nodes, list_elem_of_filter. naive_solver. Qed.

Lemma graph_nodes_ids graphId s : service_wf s → NoDup (nd_id <$> graph_nodes graphId s).
Proof. apply sorted_nodes_filter_NoDup. Qed.

Definition graph_dependencies (graphId : string) (s : service_state)
    : list DelegationGraphDependencyRecord :=
  js_sort (fun a b => compare_order (dependency_order a) (dependency_order b))
    (filter (fun d => dep_graphId d = graphId) (sv_dependencies s)).

Lemma elem_of_graph_dependencies graphId s d :
  d ∈ graph_dependencies graphId s ↔ d ∈ sv_dependencies s ∧ dep_graphId d = graphId.
Proof. unfold graph_dependencies. rewrite js_sort_perm, list_elem_of_filter. naive_solver. Qed.

Definition graph_snapshot (graphId : string) (g : DelegationGraphRecord) (s : service_state)
    : DelegationGraphSnapshot := {|
  sn_graph := g; sn_nodes := graph_nodes graphId s;
  sn_dependencies := graph_dependencies graphId s |}.

Lemma service_status graphId g s :
  graphId ≠ "" → find_graph graphId s = Some g →
  status graphId s = (s, Ok (Some (buildGraphStatus (graph_snapshot graphId g s)))).
Proof.
  intros Hg Hfind. unfold getGraphStatus, getGraphSnapshot, mbind, stM_bind, mret, stM_ret.
  simpl. unfold transaction, get_graph, list_nodes, list_dependencies. simpl.
  destruct (decide (graphId = "")); [done|]. simpl. by rewrite Hfind.
Qed.

(** The service's [NOT EXISTS] subquery, on a node of the graph. *)
Lemma no_open_dependency_spec s graphId g n :
  store_inv s → n ∈ graph_nodes graphId s →
  no_open_dependency n s ↔
  ∀ d, d ∈ graph_dependencies graphId s → ¬ unmet (graph_snapshot graphId g s) n d.
Proof.
  intros Hinv [Hn Hgraph]%elem_of_graph_nodes. unfold no_open_dependency.
  rewrite negb_True, existb_True, Exists_exists. split.
  - intros Hno d [Hd Hdg]%elem_of_graph_dependencies [Hto Hmet]. apply Hno. exists d.
    split; [done|]. rewrite !andb_True, !bool_decide_spec, existb_True, Exists_exists.
    split; [split; congruence|].
    destruct (inv_deps s Hinv d Hd) as [(src & Hsrc & Hsg) _].
    apply table_lookup in Hsrc as [Hsrc Hid]; [|apply Hinv].
    exists src. split; [done|]. rewrite andb_True, bool_decide_spec, negb_True.
    split; [done|]. intros Hsat. apply Hmet. exists src. split; [|done].
    apply elem_of_graph_nodes. split; congruence.
  - intros Hall (d & Hd & Hp).
    rewrite !andb_True, !bool_decide_spec, existb_True, Exists_exists in Hp.
    destruct Hp as [[Hdg Hto] (src & Hsrc & Hp)].
    rewrite andb_True, bool_decide_spec, negb_True in Hp. destruct Hp as [Hid Hsat].
    apply (Hall d); [apply elem_of_graph_dependencies; split; congruence|].
    split; [done|]. intros (src' & Hsrc' & Hid' & Hsat').
    apply elem_of_graph_nodes in Hsrc' as [Hsrc' _].
    assert (service_nodes s !! nd_id src = Some src) as Hl
      by (apply table_lookup; [apply Hinv|done]).
    assert (service_nodes s !! nd_id src' = Some src') as Hl'
      by (apply table_lookup; [apply Hinv|done]).
    congruence.
Qed.

(** While a graph is open, its status lists as ready exactly the nodes the service
    would hand to a job, in the service's order: the client's and the service's
    notions of readiness are the same. *)
Theorem getGraphStatus_ready graphId g s :
  store_inv s → graphId ≠ "" → find_graph graphId s = Some g → graph_is_open graphId s →
  ∃ st, status graphId s = (s, Ok (Some st)) ∧
    gs_readyNodes st = sorted_nodes (filter (fun n => ready_in s graphId n) (all_nodes s)).
Proof.
  intros Hinv Hg Hfind Hopen. eexists. split; [by apply service_status|].
  pose proof (graph_nodes_ids graphId s (inv_wf s Hinv)) as Hids.
  pose proof (elem_of_ready (graph_snapshot graphId g s) Hids) as Hready.
  apply (sorted_perm_eq (fun a b => compare_order (node_order a) (node_order b))).
  - intros x y Hx Hy Hxy Hyx. apply Hready in Hx as [Hx _]. apply Hready in Hy as [Hy _].
    assert (node_order x = node_order y) as [= Heq] by by apply order_le_antisym.
    by eapply (node_of_id (graph_snapshot graphId g s)).
  - simpl. eapply StronglySorted_sublist; [apply sublist_filter|]. apply js_sort_sorted, _.
  - apply js_sort_sorted, _.
  - apply NoDup_Permutation.
    + simpl. eapply sublist_NoDup; [|apply sublist_filter]. by eapply NoDup_fmap_1.
    + eapply NoDup_fmap_1, sorted_nodes_filter_NoDup, Hinv.
    + intros n. rewrite Hready, elem_of_sorted_nodes, list_elem_of_filter. simpl.
      unfold ready_in. rewrite !andb_True, bool_decide_spec.
      rewrite elem_of_graph_nodes. split.
      * intros ([Hn Hgn] & Hc & Hmet). split; [|done]. split; [split; [done|]|].
        { by rewrite Hgn. }
        apply (no_open_dependency_spec s graphId g); [done|by apply elem_of_graph_nodes|done].
      * intros [[[[Hgn Hc] _] Hno] Hn]. split; [done|]. split; [done|].
        apply (no_open_dependency_spec s graphId g); [done|by apply elem_of_graph_nodes|done].
Qed.
End agreement.

(** * Examples *)

Definition empty_service : service_state := {|
  sv_graphs := []; sv_nodes := []; sv_dependencies := []; sv_jobs := []; sv_events := [];
  sv_now := 1000; sv_uuid := 0 |}.

Definition sample_uuid (i : nat) : string :=
  String.string_of_list_ascii (replicate i (Ascii.ascii_of_nat 117)).

Definition unavailable {A} : stM service_state rpc_error A :=
  throwM (StorageTransportError "unavailable" "unavailable").

(** A scheduler whose other job methods are unavailable. *)
Definition idle_scheduler : SchedulerStore service_state := {|
  enqueueJob _ := unavailable; claimJob _ := unavailable; heartbeatJob _ := unavailable;
  completeJob _ := unavailable; failJob _ := unavailable; cancelJob _ := unavailable;
  getJob _ := unavailable; listJobs _ := unavailable |}.

Definition run {A} (body : txM A) (s : service_state) : service_state :=
  match body s with Ok (s', _) => s' | Throw _ => s end.

Definition sample_put_node (graphId id : string) : PutDelegationGraphNodeRequest := {|
  pn_id := Some id; pn_graphId := graphId; pn_kind := ToolTask; pn_principalId := "p";
  pn_payload := JStr id; pn_metadata := None; pn_idempotencyKey := None |}.

Definition sample_put_graph (id : string) : PutDelegationGraphRequest := {|
  pg_id := Some id; pg_principalId := "p"; pg_title := None; pg_metadata := None;
  pg_idempotencyKey := None |}.

Definition sample_materialize (graphId id : string)
    : MaterializeReadyDelegationGraphNodeRequest := {|
  mr_graphId := graphId; mr_nodeId := Some id; mr_workerId := "w"; mr_jobId := None;
  mr_jobKind := PluginAction; mr_jobPayload := None; mr_scheduledAt := None;
  mr_notBefore := None; mr_priority := None; mr_maxAttempts := None; mr_retryPolicy := None;
  mr_jobIdempotencyKey := None; mr_budgetGrantId := None |}.

(** Two nodes, the second after the first. *)
Definition sample_open : service_state :=
  run (put_dependency sample_uuid {| pd_id := None; pd_graphId := "g"; pd_fromNodeId := "a";
         pd_toNodeId := "b"; pd_kind := None |})
    (run (put_node sample_uuid (sample_put_node "g" "b"))
      (run (put_node sample_uuid (sample_put_node "g" "a"))
        (run (put_graph sample_uuid (sample_put_graph "g")) empty_service))).

(** The first node runs, *)
Definition sample_running : service_state :=
  run (materialize_ready_node sample_uuid (sample_materialize "g" "a")) sample_open.

Definition succeed (j : SchedulerJobRecord) : SchedulerJobRecord := {|
  job_id := job_id j; job_kind := job_kind j; job_queue := job_queue j;
  job_state := JobSucceeded; job_principalId := job_principalId j;
  job_payload := job_payload j; job_scheduledAt := job_scheduledAt j;
  job_notBefore := job_notBefore j; job_priority := job_priority j;
  job_concurrencyKey := job_concurrencyKey j; job_attempt := num_of_Z 1;
  job_maxAttempts := job_maxAttempts j; job_retryPolicy := job_retryPolicy j;
  job_idempotencyKey := job_idempotencyKey j; job_budgetGrantId := job_budgetGrantId j;
  job_leaseOwner := None; job_leaseToken := None; job_leaseExpiresAt := None;
  job_result := Some (JBool true); job_lastError := None; job_createdAt := job_createdAt j;
  job_updatedAt := job_updatedAt j; job_finishedAt := Some (num_of_Z 2000) |}.

(** and its job has succeeded. *)
Definition sample_done : service_state :=
  set_jobs (succeed <$> sv_jobs sample_running) sample_running.

Lemma empty_inv : store_inv empty_service.
Proof. split; [split|]; simpl; try constructor; set_solver. Qed.

Lemma run_inv {A} (body : txM A) s : keeps body → store_inv s → store_inv (run body s).
Proof.
  intros Hk Hs. unfold run. destruct (body s) as [[s' a]|] eqn:E; [|done]. by eapply Hk.
Qed.

Lemma sample_open_inv : store_inv sample_open.
Proof.
  apply run_inv; [apply put_dependency_keeps|]. do 2 (apply run_inv; [apply put_node_keeps|]).
  apply run_inv; [apply put_graph_keeps|]. apply empty_inv.
Qed.

Lemma sample_running_inv : store_inv sample_running.
Proof. apply run_inv; [apply materialize_keeps|apply sample_open_inv]. Qed.

Lemma succeed_ids (l : list SchedulerJobRecord) : job_id <$> (succeed <$> l) = job_id <$> l.
Proof. by rewrite <-list_fmap_compose. Qed.

Lemma set_jobs_wf s l : NoDup (job_id <$> l) → service_wf s → service_wf (set_jobs l s).
Proof. by intros ? []. Qed.

Lemma sample_done_wf : service_wf sample_done.
Proof.
  apply set_jobs_wf; [rewrite succeed_ids; apply wf_jobs|];
    apply inv_wf, sample_running_inv.
Qed.

Local Abbreviation sample_laws := (service_laws sample_uuid idle_scheduler).

Definition sample_step : RunDelegationGraphStepRequest := {|
  rs_graphId := "g"; rs_workerId := "w";
  rs_jobKindsByNodeKind := fun k => match k with ToolTask => Some PluginAction | _ => None end;
  rs_materializeLimit := None; rs_readyScanLimit := None |}.

Lemma syncMaterializedNodeJob_spec_witness :
  nd_state <$> (service_nodes sample_done !! "a") = Some NodeRunning ∧
  job_state <$> sv_jobs sample_done = [JobSucceeded] ∧
  sync_outcome (L := sample_laws) sample_done "a".
Proof.
  split; [vm_compute; reflexivity|]. split; [vm_compute; reflexivity|].
  exact (syncMaterializedNodeJob_spec (L := sample_laws) sample_done "a" sample_done_wf
    ltac:(discriminate)).
Defined.

Lemma runDelegationGraphStep_spec_witness :
  step_limit sample_step = Some 1%Z ∧ nd_id <$> all_nodes sample_done = ["a"; "b"] ∧
  step_outcome (L := sample_laws) sample_done sample_step.
Proof.
  split; [vm_compute; reflexivity|]. split; [vm_compute; reflexivity|].
  exact (runDelegationGraphStep_spec (L := sample_laws) sample_done sample_step sample_done_wf
    ltac:(discriminate)).
Defined.

(** The step that finishes the first node and hands out the second. *)
Definition sample_stepped : service_state :=
  (@runDelegationGraphStep _ (service_delegation sample_uuid)
    (service_scheduler sample_uuid idle_scheduler) sample_step sample_done).1.

Lemma sample_stepped_states :
  (fun n => (nd_id n, nd_state n)) <$> all_nodes sample_stepped =
  [("a", NodeSucceeded); ("b", NodeRunning)].
Proof. vm_compute. reflexivity. Qed.

(** The first node is cancelled before it runs. *)
Definition sample_cancelled : service_state :=
  run (update_node_state {| un_nodeId := "a"; un_state := NodeCancelled;
         un_schedulerJobId := None; un_metadata := None |}) sample_open.

Lemma sample_cancelled_inv : store_inv sample_cancelled.
Proof. apply run_inv; [apply update_node_state_keeps|apply sample_open_inv]. Qed.

Local Abbreviation sample_nodes := (store_nodes (DelegationLaws := sample_laws)).

Lemma runDelegationGraphStep_keeps_finished_witness :
  ∃ n, sample_nodes sample_cancelled !! "a" = Some n ∧ nd_state n = NodeCancelled ∧
    sample_nodes (runDelegationGraphStep
      (DelegationStore0 := service_delegation sample_uuid)
      (SchedulerStore0 := service_scheduler sample_uuid idle_scheduler)
      sample_step sample_cancelled).1 !! "a" = Some n.
Proof.
  assert (nd_state <$> (sample_nodes sample_cancelled !! "a") = Some NodeCancelled) as Hs
    by (vm_compute; reflexivity).
  destruct (sample_nodes sample_cancelled !! "a") as [n|] eqn:Hn; [|discriminate Hs].
  injection Hs as Hs. exists n. split; [reflexivity|]. split; [exact Hs|].
  refine (runDelegationGraphStep_keeps_finished (L := sample_laws) sample_cancelled sample_step
    "a" n (inv_wf _ sample_cancelled_inv) ltac:(discriminate) Hn _).
  rewrite Hs. exact I.
Defined.

Lemma getGraphStatus_ready_witness :
  ∃ st, @getGraphStatus _ (service_delegation sample_uuid) "g" sample_open
      = (sample_open, Ok (Some st)) ∧
    gs_readyNodes st =
      sorted_nodes (filter (fun n => ready_in sample_open "g" n) (all_nodes sample_open)).
Proof.
  destruct (find_graph "g" sample_open) as [g|] eqn:Hg;
    [|exfalso; revert Hg; vm_compute; discriminate].
  refine (getGraphStatus_ready sample_uuid "g" g sample_open sample_open_inv
    ltac:(discriminate) Hg _).
  vm_compute. exact I.
Defined.

Lemma DelegationGraphRuntime_preserves_witness :
  let s' := (DelegationGraphRuntime
      (DelegationStore0 := service_delegation sample_uuid)
      (SchedulerStore0 := service_scheduler sample_uuid idle_scheduler)
      DEFAULT_PRINCIPAL_ID (RunGraphStep sample_step) sample_running).1 in
  store_inv s' ∧ nodes_le sample_running s'.
Proof.
  exact (DelegationGraphRuntime_preserves sample_uuid idle_scheduler DEFAULT_PRINCIPAL_ID
    (RunGraphStep sample_step) sample_running sample_running_inv).
Defined.

(** The default job key does not tell two nodes apart when their identifiers contain
    a colon: the second node is given the job of the first. *)
Definition two_graphs : service_state :=
  run (put_node sample_uuid (sample_put_node "x" "y:z"))
    (run (put_graph sample_uuid (sample_put_graph "x"))
      (run (put_node sample_uuid (sample_put_node "x:y" "z"))
        (run (put_graph sample_uuid (sample_put_graph "x:y")) empty_service))).

Lemma job_key_collision :
  job_key "x:y" "z" = job_key "x" "y:z" ∧
  let s := run (materialize_ready_node sample_uuid (sample_materialize "x" "y:z"))
    (run (materialize_ready_node sample_uuid (sample_materialize "x:y" "z")) two_graphs) in
  (fun n => (nd_id n, nd_state n, nd_schedulerJobId n)) <$> all_nodes s =
    [("z", NodeRunning, Some "job_uuuuuuuuu"); ("y:z", NodeRunning, Some "job_uuuuuuuuu")] ∧
  length (sv_jobs s) = 1.
Proof. split; [reflexivity|]. vm_compute. split; reflexivity. Qed.
