(* ===== verification/DelegationHistory.v ===== *)
(** What gives the nodes of a delegation graph their jobs, over the life of the service.  Besides
    the store's own operations ([DelegationService]) the rows of the graphs are written by the
    delegation of a team's tasks ([crates/system-service/src/team/delegation.rs],
    [team/delegation/settlement.rs]), which is modelled here as far as it writes these rows: the
    graph, the nodes and the dependencies of an admitted delegation, the claim of a node by the
    task that is materialised, and the settling of a node with or without its task's turn.  Its
    own tables (operations, tasks, turns) are arguments. *)
From S2P Require Import Prelude JsMap Json JsStr Protocol StorageRpc.
From S2P Require Import DelegationGraph DelegationRuntime DelegationService.

(** * The rows a team's delegation writes *)

(** What the statements use of a [DeferredTeamDelegationTask] and its target's principal, of a
    [TeamDelegationOperationRecord] and of a [TeamDelegationTaskRecord]. *)
Record task_request := {
  tq_id : string;
  tq_graphNodeId : string;
  tq_dependsOnTaskIds : list string;
  tq_principalId : string;
}.

Record team_operation := {
  to_id : string;
  to_principalId : string;
  to_delegationGraphId : string;
  to_state : string;
}.

Record team_task := {
  tt_id : string;
  tt_graphNodeId : string;
  tt_childTurnId : string;
  tt_childJobId : string;
  tt_materialized : bool;
}.

Section team.
Context (uuid : nat → string).

Definition insert_team_graph (op : team_operation) : txM unit := fun s =>
  let graphId := to_delegationGraphId op in
  let key := "team-delegation-graph:" +:+ to_id op in
  let now := num_of_Z (sv_now s) in
  match find_graph graphId s, find_key key (sv_graphs s) with
  | Some _, _ => sqlite "UNIQUE constraint failed: delegation_graph.id"
  | None, Some _ => sqlite "UNIQUE constraint failed: delegation_graph.idempotency_key"
  | None, None =>
      let record := {| gr_id := graphId; gr_principalId := to_principalId op;
        gr_title := Some "Team delegated work"; gr_state := GraphRunning; gr_metadata := None;
        gr_createdAt := now; gr_updatedAt := now; gr_closedAt := None |} in
      let s := set_graphs (sv_graphs s ++ [{| kr_record := record; kr_key := Some key |}]) s in
      Ok (append_event "delegation.graph.created"
        (JObj [("graphId", JStr graphId); ("principalId", JStr (to_principalId op));
               ("kind", JStr "team_delegation")]) s, tt)
  end.

(** Each statement of the loop over the tasks, on the identifiers of the nodes so far. *)
Definition insert_team_node (graphId : string) (acc : service_state * gmap string string)
    (t : task_request) : result rpc_error (service_state * gmap string string) :=
  let '(s, node_ids) := acc in
  let key := "team-delegation-node:" +:+ tq_id t in
  let now := num_of_Z (sv_now s) in
  match find_node (tq_graphNodeId t) s, find_key key (sv_nodes s), find_graph graphId s with
  | Some _, _, _ => sqlite "UNIQUE constraint failed: delegation_graph_node.id"
  | None, Some _, _ => sqlite "UNIQUE constraint failed: delegation_graph_node.idempotency_key"
  | None, None, None => sqlite "FOREIGN KEY constraint failed"
  | None, None, Some _ =>
      let record := {| nd_id := tq_graphNodeId t; nd_graphId := graphId; nd_kind := AgentTask;
        nd_principalId := tq_principalId t; nd_state := NodePending; nd_payload := JObj [];
        nd_schedulerJobId := None; nd_metadata := None; nd_createdAt := now;
        nd_updatedAt := now; nd_startedAt := None; nd_finishedAt := None |} in
      let s := set_nodes (sv_nodes s ++ [{| kr_record := record; kr_key := Some key |}]) s in
      let s := append_event "delegation.node.created"
        (JObj [("graphId", JStr graphId); ("nodeId", JStr (tq_graphNodeId t));
               ("taskId", JStr (tq_id t)); ("state", JStr "pending")]) s in
      Ok (s, <[tq_id t := tq_graphNodeId t]> node_ids)
  end.

Definition insert_team_dependency (graphId : string) (node_ids : gmap string string)
    (t : task_request) (s : service_state) (dependency_id : string)
    : result rpc_error service_state :=
  let id := "ddep_" +:+ uuid (sv_uuid s) in
  let s := take_uuid s in
  source ← or_invariant (node_ids !! dependency_id)
    "team delegation dependency source disappeared";
  let record := {| dep_id := id; dep_graphId := graphId; dep_fromNodeId := source;
    dep_toNodeId := tq_graphNodeId t; dep_kind := AfterSuccess;
    dep_createdAt := num_of_Z (sv_now s) |} in
  if decide (id ∈ (dep_id <$> sv_dependencies s)) then
    sqlite "UNIQUE constraint failed: delegation_graph_dependency.id"
  else match list_find (fun d => dep_graphId d = graphId ∧ dep_fromNodeId d = source ∧
      dep_toNodeId d = tq_graphNodeId t ∧ dep_kind d = AfterSuccess) (sv_dependencies s) with
  | Some _ => sqlite "UNIQUE constraint failed: delegation_graph_dependency"
  | None =>
      match find_graph graphId s, find_node source s, find_node (tq_graphNodeId t) s with
      | Some _, Some _, Some _ =>
          let s := set_dependencies (sv_dependencies s ++ [record]) s in
          Ok (append_event "delegation.dependency.created"
            (JObj [("graphId", JStr graphId); ("dependencyId", JStr id);
                   ("fromNodeId", JStr source); ("toNodeId", JStr (tq_graphNodeId t));
                   ("kind", JStr "after_success")]) s)
      | _, _, _ => sqlite "FOREIGN KEY constraint failed"
      end
  end.

Definition insert_task_dependencies (graphId : string) (node_ids : gmap string string)
    (s : service_state) (t : task_request) : result rpc_error service_state :=
  foldM (insert_team_dependency graphId node_ids t) s (tq_dependsOnTaskIds t).

(** The graph of an admitted delegation, its nodes, and their dependencies. *)
Definition admit_team_graph (op : team_operation) (tasks : list task_request) : txM unit :=
  fun s =>
  '(s, _) ← insert_team_graph op s;
  '(s, node_ids) ← foldM (insert_team_node (to_delegationGraphId op)) (s, ∅) tasks;
  s ← foldM (insert_task_dependencies (to_delegationGraphId op) node_ids) s tasks;
  Ok (s, tt).
End team.

Definition node_state_for_turn (turn_state : string) : result rpc_error DelegationNodeState :=
  if decide (turn_state = "succeeded") then Ok NodeSucceeded
  else if decide (turn_state = "failed" ∨ turn_state = "recovery_required") then Ok NodeFailed
  else if decide (turn_state = "cancelled" ∨ turn_state = "interrupted") then Ok NodeCancelled
  else invariant ("Team delegation child has nonterminal Turn state: " +:+ turn_state).

Definition is_terminal_operation_state (state : string) : bool :=
  bool_decide (state = "succeeded" ∨ state = "failed" ∨ state = "cancelled").

Definition finish_node (state : DelegationNodeState) (now : jsnum)
    (n : DelegationGraphNodeRecord) : DelegationGraphNodeRecord := {|
  nd_id := nd_id n; nd_graphId := nd_graphId n; nd_kind := nd_kind n;
  nd_principalId := nd_principalId n; nd_state := state; nd_payload := nd_payload n;
  nd_schedulerJobId := nd_schedulerJobId n; nd_metadata := nd_metadata n;
  nd_createdAt := nd_createdAt n; nd_updatedAt := now; nd_startedAt := nd_startedAt n;
  nd_finishedAt := Some now |}.

(** The node of a task whose turn has ended in [turn_state]; the [UPDATE] repeats conditions that
    have just been checked on the same row. *)
Definition settle_child_node (op : team_operation) (task : team_task) (turn_state : string)
    (child_job_id : string) : txM unit := fun s =>
  node ← or_invariant (find_node (tt_graphNodeId task) s)
    "Team delegation child task lost its graph node";
  expected ← node_state_for_turn turn_state;
  if is_terminal (nd_state node) && (negb (bool_decide (nd_state node = expected)) ||
       is_terminal_operation_state (to_state op)) then
    if decide (nd_state node = expected) then Ok (s, tt)
    else invariant "Team delegation child replay disagrees with its graph node"
  else if decide (¬ (to_state op = "running" ∨ to_state op = "cancel_requested") ∨
       nd_graphId node ≠ to_delegationGraphId op ∨ nd_state node ≠ NodeRunning ∨
       nd_schedulerJobId node ≠ Some child_job_id) then
    invariant "Team delegation child terminal transition lost its active relation"
  else
    let s := set_nodes (update_node (tt_graphNodeId task)
      (finish_node expected (num_of_Z (sv_now s))) (sv_nodes s)) s in
    Ok (append_event "delegation.node.settled"
      (JObj [("graphId", JStr (to_delegationGraphId op)); ("nodeId", JStr (nd_id node));
             ("taskId", JStr (tt_id task)); ("childTurnId", JStr (tt_childTurnId task));
             ("childJobId", JStr child_job_id); ("state", JStr (enum_name expected));
             ("kind", JStr "team_delegation")]) s, tt).

(** The [WHERE] of the updates of a node that no task runs: its row, if it is the one. *)
Definition pending_node (op : team_operation) (task : team_task) (s : service_state)
    : option DelegationGraphNodeRecord :=
  n ← find_node (tt_graphNodeId task) s;
  guard (nd_graphId n = to_delegationGraphId op ∧ nd_state n = NodePending ∧
    nd_schedulerJobId n = None);;
  Some n.

Definition settle_unmaterialized_node (op : team_operation) (task : team_task)
    (state : DelegationNodeState) : txM unit := fun s =>
  if decide (tt_materialized task ∨ ¬ (state = NodeCancelled ∨ state = NodeSkipped)) then
    invariant "Team delegation attempted an invalid unmaterialized settlement"
  else
    _ ← or_invariant (pending_node op task s)
      "Team delegation pending node lost its settlement claim";
    let s := set_nodes (update_node (tt_graphNodeId task)
      (finish_node state (num_of_Z (sv_now s))) (sv_nodes s)) s in
    Ok (append_event "delegation.node.settled"
      (JObj [("graphId", JStr (to_delegationGraphId op));
             ("nodeId", JStr (tt_graphNodeId task)); ("taskId", JStr (tt_id task));
             ("state", JStr (enum_name state)); ("kind", JStr "team_delegation")]) s, tt).

(** The node of a task that has just been submitted as a turn under its own job. *)
Definition materialize_task_node (op : team_operation) (task : team_task) : txM unit := fun s =>
  if decide (tt_materialized task) then
    invariant "Team delegation attempted to rematerialize a task"
  else
    let now := num_of_Z (sv_now s) in
    _ ← or_invariant (pending_node op task s)
      "Team delegation downstream materialization lost its claim";
    let s := set_nodes (update_node (tt_graphNodeId task) (fun n => {| nd_id := nd_id n;
      nd_graphId := nd_graphId n; nd_kind := nd_kind n; nd_principalId := nd_principalId n;
      nd_state := NodeRunning; nd_payload := nd_payload n;
      nd_schedulerJobId := Some (tt_childJobId task); nd_metadata := nd_metadata n;
      nd_createdAt := nd_createdAt n; nd_updatedAt := now; nd_startedAt := Some now;
      nd_finishedAt := nd_finishedAt n |}) (sv_nodes s)) s in
    Ok (append_event "delegation.node.materialized"
      (JObj [("graphId", JStr (to_delegationGraphId op));
             ("nodeId", JStr (tt_graphNodeId task));
             ("schedulerJobId", JStr (tt_childJobId task));
             ("schedulerJobKind", JStr "session.turn"); ("kind", JStr "team_delegation")]) s, tt).

(** * Histories *)

(** The job of a node, if it has one. *)
Definition job_of (s : service_state) (id : string) : option string :=
  service_nodes s !! id ≫= nd_schedulerJobId.

(** A node is given a job: it is claimed for it by an operation that hands nodes to jobs, or the
    job is attached to it as its caller says. *)
Record grant := { gt_node : string; gt_job : string; gt_claim : bool }.

(** The job a node has after the grants, having had [job] before. *)
Definition last_job (id : string) (gs : list grant) (job : option string) : option string :=
  foldl (fun job g => if decide (gt_node g = id) then Some (gt_job g) else job) job gs.

(** The grant of an operation that attaches what its request names. *)
Definition attached (nodeId : string) (jobId : option string) : list grant :=
  (fun j => {| gt_node := nodeId; gt_job := j; gt_claim := false |}) <$> option_list jobId.

Definition claimed (m : option MaterializedDelegationGraphNode) : list grant :=
  (fun m => {| gt_node := nd_id (mt_node m); gt_job := job_id (mt_job m); gt_claim := true |})
    <$> option_list m.

Section history.
Context (uuid : nat → string).

(** One committed operation on the graphs, with the jobs it gives to nodes; or anything that leaves
    nodes and dependencies alone: time passing, the scheduler's operations on the jobs, the team's
    own tables and the states of graphs. *)
Inductive store_step : service_state → list grant → service_state → Prop :=
| step_put_graph r s s' a : put_graph uuid r s = Ok (s', a) → store_step s [] s'
| step_put_node r s s' a : put_node uuid r s = Ok (s', a) → store_step s [] s'
| step_put_dependency r s s' a : put_dependency uuid r s = Ok (s', a) → store_step s [] s'
| step_update_graph_state r s s' a : update_graph_state r s = Ok (s', a) → store_step s [] s'
| step_update_node_state r s s' a :
    update_node_state r s = Ok (s', a) →
    store_step s (attached (un_nodeId r) (un_schedulerJobId r)) s'
| step_attach_node_job r s s' a :
    attach_node_job r s = Ok (s', a) →
    store_step s (attached (an_nodeId r) (Some (an_schedulerJobId r))) s'
| step_materialize r s s' m :
    materialize_ready_node uuid r s = Ok (s', m) → store_step s (claimed m) s'
(** [validate_tasks_tx] admits no task without a node id. *)
| step_admit_team_graph op tasks s s' a :
    (∀ t, t ∈ tasks → tq_graphNodeId t ≠ "") →
    admit_team_graph uuid op tasks s = Ok (s', a) → store_step s [] s'
| step_settle_child op task state job s s' a :
    settle_child_node op task state job s = Ok (s', a) → store_step s [] s'
| step_settle_unmaterialized op task state s s' a :
    settle_unmaterialized_node op task state s = Ok (s', a) → store_step s [] s'
| step_materialize_task op task s s' a :
    materialize_task_node op task s = Ok (s', a) →
    store_step s [{| gt_node := tt_graphNodeId task; gt_job := tt_childJobId task;
                     gt_claim := true |}] s'
| step_world s s' :
    sv_nodes s' = sv_nodes s → sv_dependencies s' = sv_dependencies s →
    NoDup (job_id <$> sv_jobs s') → store_step s [] s'.

(** A sequence of them, with the jobs given in order. *)
Inductive history : service_state → list grant → service_state → Prop :=
| history_nil s : history s [] s
| history_step s1 gs1 s2 gs2 s3 :
    store_step s1 gs1 s2 → history s2 gs2 s3 → history s1 (gs1 ++ gs2) s3.

(** What a step does to the jobs of the nodes. *)
Definition gives (s : service_state) (gs : list grant) (s' : service_state) : Prop :=
  length gs ≤ 1 ∧ (∀ id, job_of s' id = last_job id gs (job_of s id)) ∧
  ∀ g, g ∈ gs → gt_claim g → job_of s (gt_node g) = None.

Definition step_ok (s : service_state) (gs : list grant) (s' : service_state) : Prop :=
  store_inv s' ∧ nodes_le s s' ∧ gives s gs s'.

Lemma gives_same s s' : service_nodes s' = service_nodes s → gives s [] s'.
Proof. intros Heq. split_and!; [simpl; lia|intros; unfold job_of; by rewrite Heq|set_solver]. Qed.

Lemma gives_insert s s' id n n' :
  service_nodes s !! id = Some n → service_nodes s' = <[id := n']> (service_nodes s) →
  nd_schedulerJobId n' = nd_schedulerJobId n → gives s [] s'.
Proof.
  intros Hn Heq Hj. split_and!; [simpl; lia| |set_solver]. intros id'. unfold job_of. simpl.
  rewrite Heq. destruct (decide (id' = id)) as [->|];
    [by rewrite lookup_insert_eq, Hn; simpl|by rewrite lookup_insert_ne].
Qed.

Lemma gives_grant s s' id n n' job (claim : bool) :
  service_nodes s !! id = Some n → service_nodes s' = <[id := n']> (service_nodes s) →
  nd_schedulerJobId n' = Some job → (claim → nd_schedulerJobId n = None) →
  gives s [{| gt_node := id; gt_job := job; gt_claim := claim |}] s'.
Proof.
  intros Hn Heq Hj Hc. split_and!; [simpl; lia| |].
  - intros id'. unfold job_of. simpl. rewrite Heq. case_decide; subst;
      [by rewrite lookup_insert_eq|by rewrite lookup_insert_ne].
  - intros g ->%list_elem_of_singleton Hg. unfold job_of. simpl. rewrite Hn. by apply Hc.
Qed.

Lemma gives_nil_trans s1 s2 s3 : gives s1 [] s2 → gives s2 [] s3 → gives s1 [] s3.
Proof.
  intros (? & H12 & _) (_ & H23 & _). split_and!; [done| |set_solver]. intros id.
  rewrite H23. apply H12.
Qed.

#[local] Instance step_ok_trans : Transitive (fun s s' => step_ok s [] s').
Proof.
  intros s1 s2 s3 (_ & Hle & Hg) (Hinv & Hle' & Hg'). split; [done|]. split; [by etrans|].
  by eapply gives_nil_trans.
Qed.

Lemma step_ok_refl s : store_inv s → step_ok s [] s.
Proof. intros Hinv. split; [done|]. split; [done|by apply gives_same]. Qed.

(** The three shapes of a write. *)
Lemma ok_same s s' :
  store_inv s → sv_nodes s' = sv_nodes s → sv_jobs s' = sv_jobs s →
  sv_dependencies s' = sv_dependencies s → step_ok s [] s'.
Proof.
  intros Hinv Hn Hj Hd. destruct (keeps_same s s') as [? ?]; [done..|]. split; [done|].
  split; [done|]. apply gives_same. unfold service_nodes, all_nodes. by rewrite Hn.
Qed.

Lemma ok_snoc s s' n :
  store_inv s → all_nodes s' = all_nodes s ++ [n] → nd_id n ≠ "" →
  find_node (nd_id n) s = None → nd_schedulerJobId n = None → sv_jobs s' = sv_jobs s →
  sv_dependencies s' = sv_dependencies s → step_ok s [] s'.
Proof.
  intros Hinv Hall Hid Hnone Hjob Hj Hd.
  rewrite <-service_find_node in Hnone by apply Hinv.
  assert (nd_id n ∉ (nd_id <$> all_nodes s)) as Hfresh.
  { intros (n' & Heq & Hn')%list_elem_of_fmap.
    apply (not_elem_of_list_to_map_2 (M := gmap string)) in Hnone. apply Hnone.
    rewrite table_keys, Heq. by apply list_elem_of_fmap_2. }
  destruct (keeps_snoc s s' n) as [? ?]; [done..|]. split; [done|]. split; [done|].
  split_and!; [simpl; lia| |set_solver]. intros id. simpl. unfold job_of.
  unfold service_nodes at 1. rewrite Hall, table_snoc by done.
  change (table nd_id (all_nodes s)) with (service_nodes s).
  destruct (decide (id = nd_id n)) as [->|];
    [by rewrite lookup_insert_eq, Hnone|by rewrite lookup_insert_ne].
Qed.

Lemma ok_update s s' id f n type payload gs :
  s' = append_event type payload (set_nodes (update_node id f (sv_nodes s)) s) →
  store_inv s → find_node id s = Some n → (∀ n, nd_id (f n) = nd_id n) → node_le n (f n) →
  (∀ s', service_nodes s' = <[id := f n]> (service_nodes s) → gives s gs s') →
  step_ok s gs s'.
Proof.
  intros Hs' Hinv Hn Hid Hle Hg. rewrite <-service_find_node in Hn by apply Hinv.
  destruct (keeps_update s s' id f n type payload) as [? ?]; [done..|]. split; [done|].
  split; [done|]. apply Hg. subst s'. rewrite append_event_nodes.
  apply update_node_table; [done|apply Hinv|done].
Qed.

(** Each operation. *)
Lemma put_graph_ok r s s' a : store_inv s → put_graph uuid r s = Ok (s', a) → step_ok s [] s'.
Proof.
  intros Hinv H. unfold put_graph in H. inv_result.
  destruct (pg_idempotencyKey r ≫= _) as [record|];
    [|destruct (find_graph _ _) as [record|]]; inv_result; by apply ok_same.
Qed.

Lemma update_graph_state_ok r s s' a :
  store_inv s → update_graph_state r s = Ok (s', a) → step_ok s [] s'.
Proof. intros Hinv H. unfold update_graph_state in H. inv_result. by apply ok_same. Qed.

Lemma put_node_ok r s s' a : store_inv s → put_node uuid r s = Ok (s', a) → step_ok s [] s'.
Proof.
  intros Hinv H. unfold put_node in H. inv_result.
  destruct (pn_idempotencyKey r ≫= _) as [record|]; [inv_result; by apply ok_same|].
  set (id := default ("dnode_" +:+ uuid (sv_uuid s)) (pn_id r)) in *.
  destruct (find_node id (take_uuid s)) as [record|] eqn:Hnone; [inv_result; by apply ok_same|].
  assert (id ≠ "") as Hid.
  { subst id. intros Hempty. case_if H1 Hdec; [done|]. apply Hdec. left.
    by destruct (pn_id r); simpl in Hempty; [congruence|]. }
  inv_result.
  eapply ok_snoc; [done|unfold all_nodes; simpl; rewrite fmap_app; reflexivity|done..].
Qed.

Lemma put_dependency_ok r s s' a :
  store_inv s → put_dependency uuid r s = Ok (s', a) → step_ok s [] s'.
Proof.
  intros Hinv H. destruct (put_dependency_keeps uuid r s s' a) as [? ?]; [done..|].
  split; [done|]. split; [done|]. apply gives_same.
  unfold put_dependency in H. inv_result.
  destruct (list_find _ _) as [[i d]|]; [by inv_result|]. case_if H Hdup; [done|]. by inv_result.
Qed.

Lemma update_node_state_ok r s s' a :
  store_inv s → update_node_state r s = Ok (s', a) →
  step_ok s (attached (un_nodeId r) (un_schedulerJobId r)) s'.
Proof.
  intros Hinv H. destruct (update_node_state_keeps r s s' a) as [? ?]; [done..|].
  unfold update_node_state in H. inv_result.
  match goal with H1 : or_invariant (find_node _ s) _ = _ |- _ =>
    apply or_invariant_Ok in H1 as Hn end.
  split; [done|]. split; [done|]. rewrite <-service_find_node in Hn by apply Hinv.
  match goal with |- gives s _ ?s' => assert (service_nodes s' = <[un_nodeId r := _]> (service_nodes s)) as Hs'
    by (apply (update_node_table s); [done|apply Hinv|exact Hn]) end.
  revert Hs'. destruct (un_schedulerJobId r) as [job|]; intros Hs';
    [eapply gives_grant|eapply gives_insert]; try done; simpl;
    [by destruct (nd_schedulerJobId _)|by rewrite (left_id_L None union)].
Qed.

Lemma attach_node_job_ok r s s' a :
  store_inv s → attach_node_job r s = Ok (s', a) →
  step_ok s (attached (an_nodeId r) (Some (an_schedulerJobId r))) s'.
Proof.
  intros Hinv H. unfold attach_node_job in H. inv_result.
  match goal with H1 : or_invariant (find_node _ s) _ = _ |- _ =>
    apply or_invariant_Ok in H1 as Hn end.
  eapply ok_update; [reflexivity|done|exact Hn|done|done|]. intros s' Hs'.
  rewrite <-service_find_node in Hn by apply Hinv. by eapply gives_grant.
Qed.

Lemma materialize_ok r s s' m :
  store_inv s → materialize_ready_node uuid r s = Ok (s', m) → step_ok s (claimed m) s'.
Proof.
  intros Hinv H. destruct (materialize_keeps uuid r s s' m) as [? ?]; [done..|].
  split; [done|]. split; [done|].
  pose proof (service_materialize uuid s r (inv_wf s Hinv)) as Hm.
  unfold transaction in Hm. rewrite H in Hm.
  destruct m as [m|]; [|subst; by apply gives_same].
  destruct Hm as (_ & _ & id & n & _ & Hn & Hc & _ & (Hid & _ & _ & _ & _ & Hjob) & Hnodes & _).
  destruct (service_node_id s id n (inv_wf s Hinv) Hn) as [Heq _]. unfold claimed. simpl.
  rewrite Hid, Heq. eapply gives_grant; [done..|]. intros _.
  unfold isReadyCandidate in Hc. apply andb_True in Hc as [_ Hnone].
  by apply bool_decide_spec in Hnone.
Qed.

Lemma world_ok s s' :
  store_inv s → sv_nodes s' = sv_nodes s → sv_dependencies s' = sv_dependencies s →
  NoDup (job_id <$> sv_jobs s') → step_ok s [] s'.
Proof.
  intros Hinv Hn Hd Hj.
  assert (all_nodes s' = all_nodes s) as Hall by (unfold all_nodes; by rewrite Hn).
  assert (service_nodes s' = service_nodes s) as Hs by (unfold service_nodes; by rewrite Hall).
  split; [|split; [by apply nodes_le_same|by apply gives_same]].
  eapply store_inv_le; [done| |by apply nodes_le_same|done].
  destruct (inv_wf s Hinv). by split; rewrite ?Hall.
Qed.

Lemma node_in_elem s graphId n :
  store_inv s → n ∈ all_nodes s → nd_graphId n = graphId → node_in s graphId (nd_id n).
Proof.
  intros Hinv Hn Hg. exists n. split; [|done]. by apply table_lookup; [apply Hinv|].
Qed.

Lemma node_in_ok s s' graphId id : step_ok s [] s' → node_in s graphId id → node_in s' graphId id.
Proof. intros (_ & Hle & _). by apply node_in_le. Qed.

Lemma insert_team_node_ok graphId s ids t s' ids' :
  store_inv s → tq_graphNodeId t ≠ "" →
  insert_team_node graphId (s, ids) t = Ok (s', ids') →
  step_ok s [] s' ∧ node_in s' graphId (tq_graphNodeId t) ∧
  ids' = <[tq_id t := tq_graphNodeId t]> ids.
Proof.
  intros Hinv Hid H. unfold insert_team_node in H.
  destruct (find_node _ s) eqn:Hnone; [done|]. destruct (find_key _ _); [done|].
  destruct (find_graph graphId s); [|done]. injection H as <- <-.
  match goal with |- step_ok s [] ?s' ∧ node_in _ _ _ ∧ _ =>
    assert (∃ n, all_nodes s' = all_nodes s ++ [n] ∧ nd_id n = tq_graphNodeId t ∧
      nd_graphId n = graphId ∧ nd_schedulerJobId n = None) as (n & Hall & Hn & Hg & Hj) end.
  { eexists. split; [unfold all_nodes; simpl; rewrite fmap_app; reflexivity|done]. }
  match goal with |- step_ok s [] ?s' ∧ _ => assert (step_ok s [] s') as Hok
    by (apply (ok_snoc s _ n); rewrite ?Hn; done) end.
  split; [done|]. split; [|done].
  pose proof (node_in_elem _ graphId n (proj1 Hok)) as Hin. rewrite Hn in Hin.
  apply Hin; [|done]. rewrite Hall. set_solver.
Qed.

Lemma insert_team_nodes_ok graphId tasks s ids s' ids' :
  store_inv s → (∀ t, t ∈ tasks → tq_graphNodeId t ≠ "") →
  (∀ k id, ids !! k = Some id → node_in s graphId id) →
  foldM (insert_team_node graphId) (s, ids) tasks = Ok (s', ids') →
  step_ok s [] s' ∧ (∀ k id, ids' !! k = Some id → node_in s' graphId id) ∧
  (∀ t, t ∈ tasks → node_in s' graphId (tq_graphNodeId t)).
Proof.
  revert s ids. induction tasks as [|t tasks IH]; intros s ids Hinv Ht Hids H; simpl in H.
  { injection H as <- <-. split; [by apply step_ok_refl|]. split; [done|set_solver]. }
  apply result_bind_Ok in H as ([s1 ids1] & Hone & H).
  apply insert_team_node_ok in Hone as (Hok & Hin & ->); [|done|apply Ht; set_solver].
  apply IH in H as (Hok' & Hids' & Hin'); [|apply Hok|set_solver|].
  2: { intros k id. rewrite lookup_insert_Some. intros [[_ <-]|[_ ?%Hids]]; [done|by eapply node_in_ok]. }
  split; [by eapply (step_ok_trans s s1)|]. split; [done|].
  intros t' [->|?]%elem_of_cons; [by eapply node_in_ok|by apply Hin'].
Qed.

Lemma insert_team_dependency_ok graphId ids t s dep s' :
  store_inv s → (∀ k id, ids !! k = Some id → node_in s graphId id) →
  node_in s graphId (tq_graphNodeId t) →
  insert_team_dependency uuid graphId ids t s dep = Ok s' → step_ok s [] s'.
Proof.
  intros Hinv Hids Ht H. unfold insert_team_dependency in H.
  apply result_bind_Ok in H as (source & Hsource%or_invariant_Ok%Hids & H).
  case_if H Hdup; [done|]. destruct (list_find _ _); [done|].
  destruct (find_graph _ _); [|done]. destruct (find_node source _); [|done].
  destruct (find_node _ _); [|done]. injection H as <-.
  split; [|split; [by apply nodes_le_same|by apply gives_same]]. split; [by destruct (inv_wf s Hinv)|].
  simpl. intros x [Hx|Hx%list_elem_of_singleton]%elem_of_app; [by apply (inv_deps s Hinv)|].
  by subst x.
Qed.

(** A loop of such steps, each allowed by what is in the tables. *)
Lemma foldM_ok {A} (f : service_state → A → result rpc_error service_state) graphId (ids : list string) l s s' :
  store_inv s → (∀ id, id ∈ ids → node_in s graphId id) →
  (∀ s s' x, x ∈ l → store_inv s → (∀ id, id ∈ ids → node_in s graphId id) →
    f s x = Ok s' → step_ok s [] s') →
  foldM f s l = Ok s' → step_ok s [] s'.
Proof.
  intros Hinv Hids Hf H.
  apply (foldM_invariant f (fun s' => step_ok s [] s')) in H; [done|by apply step_ok_refl|].
  intros s1 x s2 Hx Hok Heq. eapply (step_ok_trans s s1); [done|]. eapply Hf; [done|..|done].
  - apply Hok.
  - intros id Hid. eapply node_in_ok; [done|by apply Hids].
Qed.

Lemma admit_team_graph_ok op tasks s s' a :
  store_inv s → (∀ t, t ∈ tasks → tq_graphNodeId t ≠ "") →
  admit_team_graph uuid op tasks s = Ok (s', a) → step_ok s [] s'.
Proof.
  intros Hinv Ht H. unfold admit_team_graph in H.
  apply result_bind_Ok in H as ([s1 []] & Hgraph & H).
  assert (step_ok s [] s1) as Hok1.
  { unfold insert_team_graph in Hgraph. destruct (find_graph _ _); [done|].
    destruct (find_key _ _); [done|]. injection Hgraph as <-. by apply ok_same. }
  apply result_bind_Ok in H as ([s2 ids] & Hnodes & H).
  apply insert_team_nodes_ok in Hnodes as (Hok2 & Hids & Hin); [|apply Hok1|done|done].
  apply result_bind_Ok in H as (s3 & Hdeps & H). injection H as <- _.
  eapply (step_ok_trans s s1); [done|]. eapply (step_ok_trans s1 s2); [done|].
  set (known := ((fun p => p.2) <$> map_to_list ids) ++ (tq_graphNodeId <$> tasks)).
  assert (∀ s, (∀ id, id ∈ known → node_in s (to_delegationGraphId op) id) →
    ∀ k id, ids !! k = Some id → node_in s (to_delegationGraphId op) id) as Hknown.
  { intros s0 Hs0 k id Hk. apply Hs0, elem_of_app. left. apply list_elem_of_fmap.
    exists (k, id). by rewrite elem_of_map_to_list. }
  eapply (foldM_ok _ _ known); [apply Hok2| | |done].
  - intros id [(p & -> & Hp)%list_elem_of_fmap|(t & -> & Ht')%list_elem_of_fmap]%elem_of_app;
      [|by apply Hin]. destruct p as [k id]. apply elem_of_map_to_list in Hp. by eapply Hids.
  - intros s4 s5 t Ht' Hinv4 Hs4 H. unfold insert_task_dependencies in H.
    eapply (foldM_ok _ _ known); [done|done| |done]. intros s6 s7 dep _ Hinv6 Hs6 Hdep.
    eapply insert_team_dependency_ok; [done|by apply Hknown| |done].
    apply Hs6, elem_of_app. right. by apply list_elem_of_fmap_2.
Qed.

Lemma settle_child_ok op task state job s s' a :
  store_inv s → settle_child_node op task state job s = Ok (s', a) → step_ok s [] s'.
Proof.
  intros Hinv H. unfold settle_child_node in H.
  apply result_bind_Ok in H as (n & Hn%or_invariant_Ok & H).
  apply result_bind_Ok in H as (expected & _ & H). case_match.
  { case_if H Heq; [|done]. injection H as <-. by apply step_ok_refl. }
  case_if H Hbad; [done|]. injection H as <- _.
  assert (nd_state n = NodeRunning) as Hr by (apply dec_stable; tauto).
  eapply ok_update; [reflexivity|done|exact Hn|done| |].
  - split; [done|]. split; [done|]. by rewrite Hr.
  - intros s' Hs'. rewrite <-service_find_node in Hn by apply Hinv. by eapply gives_insert.
Qed.

Lemma pending_node_Some op task s n :
  pending_node op task s = Some n →
  find_node (tt_graphNodeId task) s = Some n ∧ nd_state n = NodePending ∧
  nd_schedulerJobId n = None.
Proof.
  unfold pending_node. destruct (find_node _ s) as [n'|]; simpl; [|done].
  case_guard; naive_solver.
Qed.

Lemma settle_unmaterialized_ok op task state s s' a :
  store_inv s → settle_unmaterialized_node op task state s = Ok (s', a) → step_ok s [] s'.
Proof.
  intros Hinv H. unfold settle_unmaterialized_node in H. case_if H Hbad; [done|].
  apply result_bind_Ok in H as (n & (Hn & Hp & _)%or_invariant_Ok%pending_node_Some & H).
  injection H as <- _. eapply ok_update; [reflexivity|done|exact Hn|done| |].
  - split; [done|]. split; [done|]. by rewrite Hp.
  - intros s' Hs'. rewrite <-service_find_node in Hn by apply Hinv. by eapply gives_insert.
Qed.

Lemma materialize_task_ok op task s s' a :
  store_inv s → materialize_task_node op task s = Ok (s', a) →
  step_ok s [{| gt_node := tt_graphNodeId task; gt_job := tt_childJobId task;
                gt_claim := true |}] s'.
Proof.
  intros Hinv H. unfold materialize_task_node in H. case_if H Hbad; [done|].
  apply result_bind_Ok in H as (n & (Hn & Hp & Hnone)%or_invariant_Ok%pending_node_Some & H).
  injection H as <- _. eapply ok_update; [reflexivity|done|exact Hn|done| |].
  - split; [done|]. split; [done|]. by rewrite Hp.
  - intros s' Hs'. rewrite <-service_find_node in Hn by apply Hinv. by eapply gives_grant.
Qed.

Lemma store_step_ok s gs s' : store_inv s → store_step s gs s' → step_ok s gs s'.
Proof.
  intros Hinv Hstep. destruct Hstep; eauto using put_graph_ok, put_node_ok, put_dependency_ok,
    update_graph_state_ok, update_node_state_ok, attach_node_job_ok, materialize_ok,
    admit_team_graph_ok, settle_child_ok, settle_unmaterialized_ok, materialize_task_ok, world_ok.
Qed.

Lemma last_job_app id gs1 gs2 job :
  last_job id (gs1 ++ gs2) job = last_job id gs2 (last_job id gs1 job).
Proof. apply foldl_app. Qed.

(** A node that has no job in the end has never been given one. *)
Lemma last_job_None id gs job :
  last_job id gs job = None → job = None ∧ id ∉ gt_node <$> gs.
Proof.
  induction gs as [|g gs IH] using rev_ind; [by split; [|set_solver]|].
  rewrite last_job_app. simpl. case_decide as Hid; [done|]. intros [-> Hin]%IH.
  split; [done|]. rewrite fmap_app. set_solver.
Qed.

(** Each claim is of a node that had no job, and had been given none. *)
Definition claims_fresh (s : service_state) (gs : list grant) : Prop :=
  ∀ gs1 g gs2, gs = gs1 ++ g :: gs2 → gt_claim g →
    job_of s (gt_node g) = None ∧ gt_node g ∉ gt_node <$> gs1.

Lemma claims_fresh_NoDup s gs :
  claims_fresh s gs → NoDup (gt_node <$> filter (fun g => gt_claim g) gs).
Proof.
  induction gs as [|g gs IH] using rev_ind; [constructor|]. intros Hf.
  rewrite filter_app, fmap_app. apply NoDup_app. split_and!.
  - apply IH. intros gs1 g' gs2 -> Hc. apply (Hf gs1 g' (gs2 ++ [g])); [|done].
    by rewrite <-app_assoc.
  - intros id (g' & -> & [_ Hg']%list_elem_of_filter)%list_elem_of_fmap.
    rewrite filter_cons, filter_nil. case_decide as Hc; [|set_solver].
    destruct (Hf gs g [] eq_refl Hc) as [_ Hno]. simpl. intros Heq%list_elem_of_singleton.
    apply Hno. rewrite <-Heq. by apply list_elem_of_fmap_2.
  - rewrite filter_cons, filter_nil. case_decide; [apply NoDup_singleton|constructor].
Qed.

Lemma history_ok s gs s' :
  store_inv s → history s gs s' →
  store_inv s' ∧ nodes_le s s' ∧ (∀ id, job_of s' id = last_job id gs (job_of s id)) ∧
  claims_fresh s gs.
Proof.
  intros Hinv Hh. induction Hh as [s|s1 gs1 s2 gs2 s3 Hstep _ IH].
  { split_and!; try done. by intros []. }
  apply store_step_ok in Hstep as (Hinv2 & Hle & Hlen & Hjob & Hclaim); [|done].
  destruct (IH Hinv2) as (Hinv3 & Hle' & Hjob' & Hfresh). split; [done|].
  split; [by etrans|]. split.
  { intros id. by rewrite last_job_app, Hjob', Hjob. }
  intros l1 g l2 Heq Hc. apply app_eq_app in Heq as (k & [[-> Hk]|[-> Hk]]).
  - destruct k as [|g' k]; simpl in Hk.
    + rewrite app_nil_r in *. destruct (Hfresh [] g l2 (eq_sym Hk) Hc) as [Hnone _].
      rewrite Hjob in Hnone. by apply last_job_None in Hnone.
    + injection Hk as <- Hk. destruct l1; [|rewrite length_app in Hlen; simpl in Hlen; lia].
      split; [apply Hclaim; set_solver|set_solver].
  - destruct (Hfresh k g l2 Hk Hc) as [Hnone Hno]. rewrite Hjob in Hnone.
    apply last_job_None in Hnone as [? ?]. split; [done|]. rewrite fmap_app. set_solver.
Qed.

(** Over any history of what the service writes to the graphs, the job of a node is the one last
    given to it, or the one it had; a node is claimed for a job only while it has none and was
    given none, so at most once, whatever else attaches jobs.  The tables stay well-formed,
    dependencies connect nodes of their graph, a node that has a job keeps having one, and a node
    in a final state stays in it (C10). *)
Theorem materialized_once s gs s' :
  store_inv s → history s gs s' →
  store_inv s' ∧ nodes_le s s' ∧ (∀ id, job_of s' id = last_job id gs (job_of s id)) ∧
  claims_fresh s gs ∧ NoDup (gt_node <$> filter (fun g => gt_claim g) gs).
Proof.
  intros Hinv Hh. apply history_ok in Hh as (? & ? & ? & Hf); [|done].
  split_and!; try done. by eapply claims_fresh_NoDup.
Qed.
End history.

(** * Examples *)

(** The node that runs is given another job. *)
Definition sample_attached : service_state :=
  run (attach_node_job {| an_nodeId := "a"; an_schedulerJobId := "other" |}) sample_running.

Definition sample_grants : list grant :=
  [{| gt_node := "a"; gt_job := "job_uuuuuuuuu"; gt_claim := true |};
   {| gt_node := "a"; gt_job := "other"; gt_claim := false |}].

Lemma run_Ok {A} (body : txM A) s : (∃ p, body s = Ok p) → ∃ a, body s = Ok (run body s, a).
Proof. intros ([s' a] & H). exists a. unfold run. by rewrite H. Qed.

Lemma sample_history : history sample_uuid sample_open sample_grants sample_attached.
Proof.
  apply (history_step _ _ [{| gt_node := "a"; gt_job := "job_uuuuuuuuu"; gt_claim := true |}]
    sample_running [{| gt_node := "a"; gt_job := "other"; gt_claim := false |}]).
  - destruct (materialize_ready_node sample_uuid (sample_materialize "g" "a") sample_open)
      as [[s' m]|e] eqn:E; [|exfalso; revert E; vm_compute; discriminate].
    assert (sample_running = s') as -> by (unfold sample_running, run; by rewrite E).
    assert (Ok [{| gt_node := "a"; gt_job := "job_uuuuuuuuu"; gt_claim := true |}] =
      match materialize_ready_node sample_uuid (sample_materialize "g" "a") sample_open with
      | Ok (_, m) => Ok (claimed m) | Throw e => Throw e end) as H by (vm_compute; reflexivity).
    rewrite E in H. injection H as ->. by eapply step_materialize.
  - apply (history_step _ _ [{| gt_node := "a"; gt_job := "other"; gt_claim := false |}]
      sample_attached []); [|apply history_nil].
    destruct (run_Ok (attach_node_job {| an_nodeId := "a"; an_schedulerJobId := "other" |})
      sample_running) as [a Ha]; [eexists; vm_compute; reflexivity|].
    exact (step_attach_node_job sample_uuid _ _ _ a Ha).
Qed.

Lemma materialized_once_witness :
  history sample_uuid sample_open sample_grants sample_attached ∧
  store_inv sample_attached ∧ nodes_le sample_open sample_attached ∧
  (∀ id, job_of sample_attached id = last_job id sample_grants (job_of sample_open id)) ∧
  claims_fresh sample_open sample_grants ∧
  NoDup (gt_node <$> filter (fun g => gt_claim g) sample_grants).
Proof.
  split; [exact sample_history|].
  exact (materialized_once sample_uuid sample_open sample_grants sample_attached
    sample_open_inv sample_history).
Defined.

(** A team's delegation of two tasks, the second after the first, whose first task is
    materialised and succeeds. *)
Definition sample_operation : team_operation := {|
  to_id := "op"; to_principalId := "p"; to_delegationGraphId := "tg"; to_state := "running" |}.

Definition sample_task (id : string) : team_task := {|
  tt_id := id; tt_graphNodeId := "node-" +:+ id; tt_childTurnId := "turn-" +:+ id;
  tt_childJobId := "job-" +:+ id; tt_materialized := false |}.

Definition sample_team : service_state :=
  run (settle_child_node sample_operation (sample_task "t1") "succeeded" "job-t1")
    (run (materialize_task_node sample_operation (sample_task "t1"))
      (run (admit_team_graph sample_uuid sample_operation
        [{| tq_id := "t1"; tq_graphNodeId := "node-t1"; tq_dependsOnTaskIds := [];
            tq_principalId := "p1" |};
         {| tq_id := "t2"; tq_graphNodeId := "node-t2"; tq_dependsOnTaskIds := ["t1"];
            tq_principalId := "p2" |}]) empty_service)).

Lemma sample_team_nodes :
  (fun n => (nd_id n, nd_state n, nd_schedulerJobId n)) <$> all_nodes sample_team =
    [("node-t1", NodeSucceeded, Some "job-t1"); ("node-t2", NodePending, None)] ∧
  (fun d => (dep_fromNodeId d, dep_toNodeId d)) <$> sv_dependencies sample_team =
    [("node-t1", "node-t2")] ∧ length (sv_events sample_team) = 6.
Proof. vm_compute. split_and!; reflexivity. Qed.
