(* ===== verification/ProviderTurn.v ===== *)
(** The provider turn
    ([packages/runtime/src/provider/{consume,image-output,errors,types}.ts]): the
    events a model's adapter streams, the assembler that collects them into the
    parts of a response, and the consumer that checkpoints, observes and collects a
    stream.  [JSON.parse] is a parameter. *)
From S2P Require Import Prelude JsMap Json JsStr.

(** * Data ([types.ts]) *)

Inductive ModelOutputModality := ModText | ModImage | ModAudio | ModVideo.

#[export] Instance ModelOutputModality_eq_dec : EqDecision ModelOutputModality.
Proof. solve_decision. Defined.

Inductive ProviderErrorCategory :=
| Authentication | Authorization | RateLimit | InvalidRequest | NotFound | Conflict
| Server | Network | Timeout_ | Aborted | ProtocolError | UnknownError.

Inductive ProviderPhase := PhaseRequest | PhaseStream.

Record ProviderError := {
  pe_category : ProviderErrorCategory;
  pe_message : jstr;
  pe_retryable : bool;
  pe_providerId : jstr;
  pe_modelId : jstr;
  pe_phase : ProviderPhase;
  pe_statusCode : option jsnum;
  pe_providerCode : option jstr;
  pe_retryAfterMs : option jsnum;
  pe_metadata : option json;
}.

Inductive Visibility := VisAssistant | VisInternal | VisProviderReplayOnly.

(** A replay state, which is only passed on. *)
Record ProviderState := {
  ps_providerId : jstr;
  ps_modelId : jstr;
  ps_stateKind : jstr;
  ps_replayPolicy : jstr;
  ps_payload : json;
}.

(** The properties of a usage object in their order: counters, metadata and
    properties set to [undefined]. *)
Inductive usage_value := UsageNumber (x : jsnum) | UsageOther (v : json) | UsageUndefined.

Definition ProviderUsage : Type := list (string * usage_value).

Inductive FinishReason :=
| FinishStop | FinishLength | FinishToolCalls | FinishContentFilter | FinishOther.

#[export] Instance FinishReason_eq_dec : EqDecision FinishReason.
Proof. solve_decision. Defined.

Record ProviderFinishEvent := { fi_reason : FinishReason; fi_rawReason : option jstr }.

Record ProviderImageOutputEvent := {
  im_partId : jstr;
  im_mimeType : jstr;
  im_bytes : list N;
}.

(** The index of a tool call is an integer. *)
Inductive ProviderEvent :=
| TextDelta (partId delta : jstr)
| ImageOutput (image : ProviderImageOutputEvent)
| ReasoningDelta (partId delta : jstr) (visibility : option Visibility)
| ToolCallStart (index : Z) (toolCallId : jstr)
| ToolCallDelta (toolCallId : jstr) (toolNameDelta inputJsonDelta : option jstr)
| ToolCallEnd (toolCallId : jstr)
| StateEvent (state : ProviderState) (partId : option jstr)
| UsageEvent (usage : ProviderUsage)
| FinishEvent (finish : ProviderFinishEvent)
| ErrorEvent (error : ProviderError).

Inductive ProviderObservedEvent :=
| ObservedImage (partId mimeType : jstr) (sizeBytes : Z)
| ObservedEvent (event : ProviderEvent).

Inductive ResponsePart :=
| ImageCandidate (id mimeType : jstr) (bytes : list N)
| TextPart (id text : jstr)
| ReasoningPart (id text : jstr) (visibility : Visibility)
    (providerState : option ProviderState)
| ToolCallPart (id toolCallId toolName : jstr) (input : list (string * json)).

Record ProviderResponseCandidate := {
  rc_parts : list ResponsePart;
  rc_providerState : list ProviderState;
  rc_usage : option ProviderUsage;
  rc_finish : ProviderFinishEvent;
}.

(** * Errors ([errors.ts]) *)

(** What a turn throws: a [ProviderStreamError], or another error by its message. *)
Inductive thrown :=
| ProviderStreamError (error : ProviderError) (outputObserved : bool)
| OtherError (message : jstr).

Definition protocolProviderError (providerId modelId message : jstr) : ProviderError := {|
  pe_category := ProtocolError; pe_message := message; pe_retryable := false;
  pe_providerId := providerId; pe_modelId := modelId; pe_phase := PhaseStream;
  pe_statusCode := None; pe_providerCode := None; pe_retryAfterMs := None;
  pe_metadata := None |}.

Definition errorMessage (error : thrown) : jstr :=
  match error with
  | ProviderStreamError e _ => pe_message e
  | OtherError message => message
  end.

(** * Images ([image-output.ts]) *)

Definition IMAGE_COUNT : Z := 16.
Definition IMAGE_BYTES : Z := 25 * 1024 * 1024.
Definition TOTAL_BYTES : Z := 50 * 1024 * 1024.

Definition byteLength (bytes : list N) : Z := Z.of_nat (length bytes).

(** [signature.every((value, index) => b[index + offset] === value)] *)
Definition signature_at (offset : nat) (signature b : list N) : bool :=
  bool_decide (take (length signature) (drop offset b) = signature).

Definition image_matches (mimeType : jstr) (b : list N) : bool :=
  if decide (mimeType = js "image/png") then
    signature_at 0 [137; 80; 78; 71; 13; 10; 26; 10]%N b
  else if decide (mimeType = js "image/jpeg") then signature_at 0 [255; 216; 255]%N b
  else bool_decide (mimeType = js "image/webp") && bool_decide (12 ≤ byteLength b)%Z
    && signature_at 0 [82; 73; 70; 70]%N b && signature_at 8 [87; 69; 66; 80]%N b.

Definition validateImageOutput (image : ProviderImageOutputEvent) : result jstr unit :=
  let n := length (im_partId image) in
  let size := byteLength (im_bytes image) in
  _ ← guard_throw (bool_decide (n = 0) || bool_decide (128 < n))
    (js "image output part identity must contain 1 to 128 characters");
  _ ← guard_throw (bool_decide (size = 0)%Z || bool_decide (IMAGE_BYTES < size)%Z)
    (js "image output exceeds the allowed byte size");
  guard_throw (negb (image_matches (im_mimeType image) (im_bytes image)))
    (js "image output MIME does not match an allowed image signature").

(** * The assembler ([consume.ts]) *)

Record ToolAssembly := {
  ta_index : Z;
  ta_id : jstr;
  ta_name : jstr;
  ta_inputJson : jstr;
  ta_ended : bool;
}.

Inductive part_kind := KindImage | KindText | KindReasoning | KindTool.

#[export] Instance part_kind_eq_dec : EqDecision part_kind.
Proof. solve_decision. Defined.

Record ProviderTurnAssembler := {
  as_partOrder : list jstr;
  as_text : list (jstr * jstr);
  as_reasoning : list (jstr * (jstr * Visibility));
  as_tools : list (jstr * ToolAssembly);
  as_toolIndexes : list Z;
  as_images : list (jstr * ResponsePart);
  as_partKinds : list (jstr * part_kind);
  as_imageBytes : Z;
  as_states : list ProviderState;
  as_stateByPart : list (jstr * ProviderState);
  as_usage : option ProviderUsage;
  as_finish : option ProviderFinishEvent;
  as_error : option ProviderError;
  as_outputObserved : bool;
}.

Definition new_assembler : ProviderTurnAssembler := {|
  as_partOrder := []; as_text := []; as_reasoning := []; as_tools := [];
  as_toolIndexes := []; as_images := []; as_partKinds := []; as_imageBytes := 0;
  as_states := []; as_stateByPart := []; as_usage := None; as_finish := None;
  as_error := None; as_outputObserved := false |}.

Section fields.
Context (a : ProviderTurnAssembler).

Definition with_parts order kinds := {|
  as_partOrder := order; as_text := as_text a; as_reasoning := as_reasoning a;
  as_tools := as_tools a; as_toolIndexes := as_toolIndexes a; as_images := as_images a;
  as_partKinds := kinds; as_imageBytes := as_imageBytes a; as_states := as_states a;
  as_stateByPart := as_stateByPart a; as_usage := as_usage a; as_finish := as_finish a;
  as_error := as_error a; as_outputObserved := as_outputObserved a |}.

Definition with_text text := {|
  as_partOrder := as_partOrder a; as_text := text; as_reasoning := as_reasoning a;
  as_tools := as_tools a; as_toolIndexes := as_toolIndexes a; as_images := as_images a;
  as_partKinds := as_partKinds a; as_imageBytes := as_imageBytes a; as_states := as_states a;
  as_stateByPart := as_stateByPart a; as_usage := as_usage a; as_finish := as_finish a;
  as_error := as_error a; as_outputObserved := as_outputObserved a |}.

Definition with_reasoning reasoning := {|
  as_partOrder := as_partOrder a; as_text := as_text a; as_reasoning := reasoning;
  as_tools := as_tools a; as_toolIndexes := as_toolIndexes a; as_images := as_images a;
  as_partKinds := as_partKinds a; as_imageBytes := as_imageBytes a; as_states := as_states a;
  as_stateByPart := as_stateByPart a; as_usage := as_usage a; as_finish := as_finish a;
  as_error := as_error a; as_outputObserved := as_outputObserved a |}.

Definition with_tools tools indexes := {|
  as_partOrder := as_partOrder a; as_text := as_text a; as_reasoning := as_reasoning a;
  as_tools := tools; as_toolIndexes := indexes; as_images := as_images a;
  as_partKinds := as_partKinds a; as_imageBytes := as_imageBytes a; as_states := as_states a;
  as_stateByPart := as_stateByPart a; as_usage := as_usage a; as_finish := as_finish a;
  as_error := as_error a; as_outputObserved := as_outputObserved a |}.

Definition with_images images := {|
  as_partOrder := as_partOrder a; as_text := as_text a; as_reasoning := as_reasoning a;
  as_tools := as_tools a; as_toolIndexes := as_toolIndexes a; as_images := images;
  as_partKinds := as_partKinds a; as_imageBytes := as_imageBytes a; as_states := as_states a;
  as_stateByPart := as_stateByPart a; as_usage := as_usage a; as_finish := as_finish a;
  as_error := as_error a; as_outputObserved := as_outputObserved a |}.

Definition with_imageBytes bytes := {|
  as_partOrder := as_partOrder a; as_text := as_text a; as_reasoning := as_reasoning a;
  as_tools := as_tools a; as_toolIndexes := as_toolIndexes a; as_images := as_images a;
  as_partKinds := as_partKinds a; as_imageBytes := bytes; as_states := as_states a;
  as_stateByPart := as_stateByPart a; as_usage := as_usage a; as_finish := as_finish a;
  as_error := as_error a; as_outputObserved := as_outputObserved a |}.

Definition with_states states byPart := {|
  as_partOrder := as_partOrder a; as_text := as_text a; as_reasoning := as_reasoning a;
  as_tools := as_tools a; as_toolIndexes := as_toolIndexes a; as_images := as_images a;
  as_partKinds := as_partKinds a; as_imageBytes := as_imageBytes a; as_states := states;
  as_stateByPart := byPart; as_usage := as_usage a; as_finish := as_finish a;
  as_error := as_error a; as_outputObserved := as_outputObserved a |}.

Definition with_end usage finish error := {|
  as_partOrder := as_partOrder a; as_text := as_text a; as_reasoning := as_reasoning a;
  as_tools := as_tools a; as_toolIndexes := as_toolIndexes a; as_images := as_images a;
  as_partKinds := as_partKinds a; as_imageBytes := as_imageBytes a; as_states := as_states a;
  as_stateByPart := as_stateByPart a; as_usage := usage; as_finish := finish;
  as_error := error; as_outputObserved := as_outputObserved a |}.

Definition with_outputObserved observed := {|
  as_partOrder := as_partOrder a; as_text := as_text a; as_reasoning := as_reasoning a;
  as_tools := as_tools a; as_toolIndexes := as_toolIndexes a; as_images := as_images a;
  as_partKinds := as_partKinds a; as_imageBytes := as_imageBytes a; as_states := as_states a;
  as_stateByPart := as_stateByPart a; as_usage := as_usage a; as_finish := as_finish a;
  as_error := as_error a; as_outputObserved := observed |}.
End fields.

(** [`tool_call_${index}`] *)
Definition int_string (z : Z) : jstr :=
  match z with
  | Z0 => js "0"
  | Zpos p => dec_string (Npos p)
  | Zneg p => js "-" ++ dec_string (Npos p)
  end.

Definition tool_part (index : Z) : jstr := js "tool_call_" ++ int_string index.

Definition is_output (event : ProviderEvent) : bool :=
  match event with
  | TextDelta _ _ | ReasoningDelta _ _ _ | ToolCallStart _ _ | ImageOutput _ => true
  | _ => false
  end.

Section assembler.
Context (providerId modelId : jstr) (allowImages allowText : bool).
(** [JSON.parse], which throws on the strings that have no value. *)
Context (parse_json : jstr → option json).

Local Abbreviation M := (stM ProviderTurnAssembler thrown).

Definition fail {A} (message : jstr) : M A := fun a =>
  throwM (ProviderStreamError (protocolProviderError providerId modelId message)
    (as_outputObserved a)) a.

Definition fail_if (c : bool) (message : jstr) : M unit :=
  if c then fail message else mret tt.

Definition observeOutput (event : ProviderEvent) : M unit :=
  if is_output event then modifyM (fun a => with_outputObserved a true) else mret tt.

Definition addPart (partId : jstr) (kind : part_kind) : M unit :=
  _ ← fail_if (bool_decide (partId = [])) (js "provider emitted an empty part identity");
  a ← getM;
  let prior := jget partId (as_partKinds a) in
  _ ← fail_if match prior with Some k => bool_decide (k ≠ kind) | None => false end
    (js "provider reused a part identity across output kinds");
  _ ← fail_if (bool_decide (prior ≠ None) && negb (bool_decide (as_images a = []))
      && bool_decide (last (as_partOrder a) ≠ Some partId))
    (js "provider resumed a closed part across image output");
  match prior with
  | None => modifyM (fun a => with_parts a (as_partOrder a ++ [partId])
      (jset partId kind (as_partKinds a)))
  | Some _ => mret tt
  end.

Definition requireOpenTool (toolCallId : jstr) : M ToolAssembly :=
  a ← getM;
  match jget toolCallId (as_tools a) with
  | None => fail (js "provider emitted tool-call data before start: " ++ toolCallId)
  | Some tool =>
      _ ← fail_if (ta_ended tool)
        (js "provider emitted tool-call data after end: " ++ toolCallId);
      mret tool
  end.

Definition requireNonEmpty (value label : jstr) : M unit :=
  fail_if (bool_decide (value = [])) (js "provider emitted an empty " ++ label).

(** One property of the usage object; [prior] is the previous usage. *)
Definition usage_entry (prior : option ProviderUsage) (entry : string * usage_value)
    : M unit :=
  let '(name, value) := entry in
  if decide (name = "metadata") then mret tt
  else match value with
  | UsageUndefined => mret tt
  | UsageNumber x =>
      match safe_integer x with
      | Some n =>
          _ ← fail_if (bool_decide (n < 0)%Z) (js "provider usage " ++ js name
            ++ js " must be a non-negative integer");
          fail_if match prior ≫= jget name with
            | Some (UsageNumber p) =>
                match num_integer p with Some p => bool_decide (n < p)%Z | None => false end
            | _ => false
            end (js "provider cumulative usage " ++ js name ++ js " must not decrease")
      | None => fail (js "provider usage " ++ js name ++ js " must be a non-negative integer")
      end
  | UsageOther _ =>
      fail (js "provider usage " ++ js name ++ js " must be a non-negative integer")
  end.

Definition validateUsage (usage : ProviderUsage) : M unit :=
  a ← getM; iterM (usage_entry (as_usage a)) usage.

Definition image_candidate (image : ProviderImageOutputEvent) : ResponsePart :=
  ImageCandidate (im_partId image) (im_mimeType image) (im_bytes image).

Definition accept_image (image : ProviderImageOutputEvent) : M unit :=
  _ ← fail_if (negb allowImages) (js "this provider request does not accept image output");
  _ ← match validateImageOutput image with
      | Ok _ => mret tt
      | Throw message => fail message
      end;
  a ← getM;
  _ ← fail_if (jhas (im_partId image) (as_images a))
    (js "provider emitted a duplicate image part");
  _ ← modifyM (fun a => with_imageBytes a (as_imageBytes a + byteLength (im_bytes image))%Z);
  a ← getM;
  _ ← fail_if (bool_decide (IMAGE_COUNT ≤ Z.of_nat (length (as_images a)))%Z
      || bool_decide (TOTAL_BYTES < as_imageBytes a)%Z)
    (js "provider image output exceeds the response limit");
  _ ← addPart (im_partId image) KindImage;
  modifyM (fun a => with_images a
    (jset (im_partId image) (image_candidate image) (as_images a))).

Definition accept_text (partId delta : jstr) : M unit :=
  _ ← fail_if (negb allowText) (js "this provider request does not accept text output");
  _ ← requireNonEmpty delta (js "text delta");
  _ ← addPart partId KindText;
  _ ← modifyM (fun a => with_text a
    (jset partId (default [] (jget partId (as_text a)) ++ delta) (as_text a)));
  modifyM (fun a => with_outputObserved a true).

Definition accept_reasoning (partId delta : jstr) (visibility : option Visibility)
    : M unit :=
  _ ← requireNonEmpty delta (js "reasoning delta");
  _ ← addPart partId KindReasoning;
  _ ← modifyM (fun a =>
    let prior := jget partId (as_reasoning a) in
    with_reasoning a (jset partId (default [] (fst <$> prior) ++ delta,
      default VisInternal (union visibility (snd <$> prior))) (as_reasoning a)));
  modifyM (fun a => with_outputObserved a true).

Definition accept_start (index : Z) (toolCallId : jstr) : M unit :=
  a ← getM;
  _ ← fail_if (jhas toolCallId (as_tools a) || bool_decide (index ∈ as_toolIndexes a))
    (js "provider emitted a duplicate tool-call start");
  _ ← modifyM (fun a => with_tools a
    (jset toolCallId {| ta_index := index; ta_id := toolCallId; ta_name := [];
       ta_inputJson := []; ta_ended := false |} (as_tools a))
    (as_toolIndexes a ++ [index]));
  _ ← addPart (tool_part index) KindTool;
  modifyM (fun a => with_outputObserved a true).

(** The assembly is an object shared with the map: writing to it writes the map's
    entry. *)
Definition set_tool (tool : ToolAssembly) : M unit :=
  modifyM (fun a => with_tools a (jset (ta_id tool) tool (as_tools a)) (as_toolIndexes a)).

Definition accept_delta (toolCallId : jstr) (toolNameDelta inputJsonDelta : option jstr)
    : M unit :=
  tool ← requireOpenTool toolCallId;
  _ ← set_tool {| ta_index := ta_index tool; ta_id := ta_id tool;
        ta_name := ta_name tool ++ default [] toolNameDelta;
        ta_inputJson := ta_inputJson tool ++ default [] inputJsonDelta;
        ta_ended := ta_ended tool |};
  fail_if (bool_decide (toolNameDelta = None) && bool_decide (inputJsonDelta = None))
    (js "tool-call delta contains no data").

Definition accept_end (toolCallId : jstr) : M unit :=
  tool ← requireOpenTool toolCallId;
  set_tool {| ta_index := ta_index tool; ta_id := ta_id tool; ta_name := ta_name tool;
    ta_inputJson := ta_inputJson tool; ta_ended := true |}.

Definition accept_state (state : ProviderState) (partId : option jstr) : M unit :=
  _ ← modifyM (fun a => with_states a (as_states a ++ [state]) (as_stateByPart a));
  match partId with
  | None => mret tt
  | Some partId =>
      a ← getM;
      _ ← fail_if (jhas partId (as_stateByPart a))
        (js "provider emitted duplicate state for part " ++ partId);
      modifyM (fun a => with_states a (as_states a)
        (jset partId state (as_stateByPart a)))
  end.

Definition accept (event : ProviderEvent) : M unit :=
  match event with
  | ImageOutput image => accept_image image
  | TextDelta partId delta => accept_text partId delta
  | ReasoningDelta partId delta visibility => accept_reasoning partId delta visibility
  | ToolCallStart index toolCallId => accept_start index toolCallId
  | ToolCallDelta toolCallId toolNameDelta inputJsonDelta =>
      accept_delta toolCallId toolNameDelta inputJsonDelta
  | ToolCallEnd toolCallId => accept_end toolCallId
  | StateEvent state partId => accept_state state partId
  | UsageEvent usage =>
      _ ← validateUsage usage;
      modifyM (fun a => with_end a (Some usage) (as_finish a) (as_error a))
  | FinishEvent finish =>
      modifyM (fun a => with_end a (as_usage a) (Some finish) (as_error a))
  | ErrorEvent error =>
      modifyM (fun a => with_end a (as_usage a) (as_finish a) (Some error))
  end.

Definition parseToolInput (tool : ToolAssembly) : M (list (string * json)) :=
  if decide (ta_inputJson tool = []) then mret []
  else match parse_json (ta_inputJson tool) with
  | None => fail (js "provider tool call " ++ ta_id tool ++ js " contains invalid JSON input")
  | Some (JObj fields) => mret fields
  | Some _ =>
      fail (js "provider tool call " ++ ta_id tool ++ js " input must be a JSON object")
  end.

Definition complete_tool (tools : list (jstr * ToolAssembly)) (partId : jstr)
    : M ResponsePart :=
  match find (fun tool => bool_decide (tool_part (ta_index tool) = partId)) tools.*2 with
  | Some tool =>
      _ ← fail_if (negb (ta_ended tool))
        (js "provider stream finished with an incomplete tool call");
      _ ← fail_if (bool_decide (ta_name tool = [])) (js "provider tool call has no name");
      input ← parseToolInput tool;
      mret (ToolCallPart (tool_part (ta_index tool)) (ta_id tool) (ta_name tool) input)
  | None => fail (js "provider stream finished with an incomplete tool call")
  end.

Definition complete_part (partId : jstr) : M ResponsePart :=
  a ← getM;
  match jget partId (as_images a) with
  | Some image => mret image
  | None =>
      if decide (jget partId (as_partKinds a) = Some KindTool)
      then complete_tool (as_tools a) partId
      else match jget partId (as_text a) with
      | Some text => mret (TextPart partId text)
      | None =>
          match jget partId (as_reasoning a) with
          | Some (text, visibility) =>
              mret (ReasoningPart partId text visibility (jget partId (as_stateByPart a)))
          | None =>
              fail (js "provider part " ++ partId ++ js " has no assembled content")
          end
      end
  end.

Fixpoint complete_parts (partOrder : list jstr) : M (list ResponsePart) :=
  match partOrder with
  | [] => mret []
  | partId :: partOrder =>
      part ← complete_part partId;
      parts ← complete_parts partOrder;
      mret (part :: parts)
  end.

Definition is_tool_call (part : ResponsePart) : bool :=
  match part with ToolCallPart _ _ _ _ => true | _ => false end.

Definition reason_string (reason : FinishReason) : jstr :=
  js match reason with
  | FinishStop => "stop"
  | FinishLength => "length"
  | FinishToolCalls => "tool_calls"
  | FinishContentFilter => "content_filter"
  | FinishOther => "other"
  end.

Definition complete : M ProviderResponseCandidate :=
  a ← getM;
  match as_error a with
  | Some error => throwM (ProviderStreamError error (as_outputObserved a))
  | None =>
      match as_finish a with
      | None => fail (js "provider stream ended without a terminal event")
      | Some finish =>
          let reason := fi_reason finish in
          _ ← fail_if (negb (bool_decide (as_images a = []))
              && bool_decide (reason ≠ FinishStop) && bool_decide (reason ≠ FinishToolCalls))
            (js "incomplete image response cannot be published");
          parts ← complete_parts (as_partOrder a);
          let hasToolCalls := existsb is_tool_call parts in
          _ ← fail_if (negb (Bool.eqb (bool_decide (reason = FinishToolCalls)) hasToolCalls))
            (if decide (reason = FinishToolCalls)
             then js "provider finished with tool_calls but emitted no tool call"
             else js "provider emitted a tool call but finished with "
               ++ reason_string reason);
          mret {| rc_parts := parts; rc_providerState := as_states a;
                  rc_usage := as_usage a; rc_finish := finish |}
      end
  end.
End assembler.

(** * The consumer ([consume.ts]) *)

(** What the consumer does to the outside, in order: it takes an event from the
    stream, its checkpoint for an event resolves, it reports an observation. *)
Inductive turn_effect :=
| Pulled (event : ProviderEvent)
| Checkpointed (event : ProviderEvent)
| Observed (event : ProviderObservedEvent).

Record consumer := { cn_assembler : ProviderTurnAssembler; cn_effects : list turn_effect }.

(** A request with its fields other than [outputModalities], which the consumer
    passes on unread. *)
Record ProviderRequest (R : Type) := {
  rq_outputModalities : option (list ModelOutputModality);
  rq_rest : R;
}.
Arguments rq_outputModalities {R}.
Arguments rq_rest {R}.
Arguments Build_ProviderRequest {R}.

(** A stream is the events it yields and what it throws after them, if it throws. *)
Record ProviderAdapter (R : Type) := {
  pa_providerId : jstr;
  pa_outputModalities : list ModelOutputModality;
  pa_modelId : jstr;
  pa_modelModalities : list ModelOutputModality;
  pa_stream : ProviderRequest R → list ProviderEvent * option thrown;
}.
Arguments pa_providerId {R}.
Arguments pa_outputModalities {R}.
Arguments pa_modelId {R}.
Arguments pa_modelModalities {R}.
Arguments pa_stream {R}.

(** [checkpoint] answers from the effects so far and the event whether it rejects;
    what [observe] throws is caught. *)
Record ConsumeOptions (R : Type) := {
  op_provider : ProviderAdapter R;
  op_request : ProviderRequest R;
  op_observe : bool;
  op_checkpoint : option (list turn_effect → ProviderEvent → option thrown);
}.
Arguments op_provider {R}.
Arguments op_request {R}.
Arguments op_observe {R}.
Arguments op_checkpoint {R}.

Definition observation (event : ProviderEvent) : option ProviderObservedEvent :=
  match event with
  | ImageOutput image =>
      Some (ObservedImage (im_partId image) (im_mimeType image) (byteLength (im_bytes image)))
  | StateEvent _ _ => None
  | event => Some (ObservedEvent event)
  end.

Definition is_terminal_event (event : ProviderEvent) : bool :=
  match event with FinishEvent _ | ErrorEvent _ => true | _ => false end.

Section consumer.
Context (parse_json : jstr → option json) {R : Type} (options : ConsumeOptions R).

Local Abbreviation provider := (op_provider options).
Local Abbreviation CM := (stM consumer thrown).

Definition assembling {A} (m : stM ProviderTurnAssembler thrown A) : CM A := fun c =>
  let '(a, r) := m (cn_assembler c) in
  ({| cn_assembler := a; cn_effects := cn_effects c |}, r).

Definition effect (e : turn_effect) : CM unit :=
  modifyM (fun c => {| cn_assembler := cn_assembler c; cn_effects := cn_effects c ++ [e] |}).

Definition output : list ModelOutputModality :=
  default [ModText] (rq_outputModalities (op_request options)).

Definition allow_images : bool := bool_decide (ModImage ∈ output).
Definition allow_text : bool := bool_decide (ModText ∈ output).

Definition turn_fail {A} (message : jstr) : CM A :=
  assembling (fail (pa_providerId provider) (pa_modelId provider) message).

Definition unsupported_output : bool :=
  bool_decide (output = []) || bool_decide (¬ NoDup output)
  || existsb (fun m => bool_decide (m ∉ pa_modelModalities provider)) output
  || existsb (fun m => bool_decide (m ∉ pa_outputModalities provider)) output
  || existsb (fun m => bool_decide (m ≠ ModText ∧ m ≠ ModImage)) output.

Definition checkpoint_event (event : ProviderEvent) : CM unit :=
  match op_checkpoint options with
  | None => mret tt
  | Some checkpoint =>
      c ← getM;
      match checkpoint (cn_effects c) event with
      | Some error => throwM error
      | None => effect (Checkpointed event)
      end
  end.

Definition observe_event (event : ProviderEvent) : CM unit :=
  match observation event with
  | Some observed => if op_observe options then effect (Observed observed) else mret tt
  | None => mret tt
  end.

(** One turn of the [for await] loop, with the [terminal] it leaves. *)
Definition consume_event (terminal : bool) (event : ProviderEvent) : CM bool :=
  _ ← effect (Pulled event);
  _ ← assembling (observeOutput event);
  _ ← (if terminal
       then turn_fail (js "provider emitted an event after its terminal event")
       else mret tt);
  _ ← checkpoint_event event;
  _ ← assembling (accept (pa_providerId provider) (pa_modelId provider)
        allow_images allow_text event);
  _ ← observe_event event;
  mret (is_terminal_event event || terminal).

Fixpoint consume_events (terminal : bool) (events : list ProviderEvent) : CM unit :=
  match events with
  | [] => mret tt
  | event :: events => terminal ← consume_event terminal event; consume_events terminal events
  end.

(** The [catch] clause. *)
Definition stream_error (outputObserved : bool) (error : thrown) : thrown :=
  match error with
  | ProviderStreamError detail observed =>
      if negb outputObserved || observed then error else ProviderStreamError detail true
  | OtherError message =>
      ProviderStreamError (protocolProviderError (pa_providerId provider)
        (pa_modelId provider)
        (if allow_images
         then js "provider image stream failed before a complete response"
         else js "provider stream threw instead of emitting an error event: " ++ message))
        outputObserved
  end.

Definition consume_stream : CM unit := fun c =>
  let '(events, end_) := pa_stream provider (op_request options) in
  match (_ ← consume_events false events;
         match end_ with Some error => throwM error | None => mret tt end) c with
  | (c, Throw error) =>
      (c, Throw (stream_error (as_outputObserved (cn_assembler c)) error))
  | returned => returned
  end.

Definition consume_turn : CM ProviderResponseCandidate :=
  _ ← (if unsupported_output
       then turn_fail
         (js "requested output modalities are not supported by the selected model and adapter")
       else mret tt);
  _ ← consume_stream;
  assembling (complete (pa_providerId provider) (pa_modelId provider) parse_json).

Definition consumeProviderStream : consumer * result thrown ProviderResponseCandidate :=
  consume_turn {| cn_assembler := new_assembler; cn_effects := [] |}.
End consumer.

Definition text_request {R} (options : ConsumeOptions R) : ConsumeOptions R := {|
  op_provider := op_provider options;
  op_request := {| rq_outputModalities := Some [ModText];
                   rq_rest := rq_rest (op_request options) |};
  op_observe := op_observe options;
  op_checkpoint := op_checkpoint options |}.

Definition is_image (part : ResponsePart) : bool :=
  match part with ImageCandidate _ _ _ => true | _ => false end.

(** The effects of a run that never starts are none. *)
Definition consumeTextProviderStream (parse_json : jstr → option json) {R}
    (options : ConsumeOptions R) : list turn_effect * result thrown ProviderResponseCandidate :=
  let provider := op_provider options in
  if existsb (fun m => bool_decide (m ≠ ModText))
      (default [] (rq_outputModalities (op_request options)))
  then ([], Throw (ProviderStreamError (protocolProviderError (pa_providerId provider)
    (pa_modelId provider) (js "text-only consumer cannot request image output")) false))
  else
    let '(c, r) := consumeProviderStream parse_json (text_request options) in
    (cn_effects c, response ← r;
      if existsb is_image (rc_parts response)
      then Throw (OtherError (js "text-only provider response contains an image candidate"))
      else Ok response).

(** * What the events say *)

Definition part_key (event : ProviderEvent) : option (jstr * part_kind) :=
  match event with
  | TextDelta partId _ => Some (partId, KindText)
  | ReasoningDelta partId _ _ => Some (partId, KindReasoning)
  | ToolCallStart index _ => Some (tool_part index, KindTool)
  | ImageOutput image => Some (im_partId image, KindImage)
  | _ => None
  end.

Definition kind_event (id : jstr) (event : ProviderEvent) : option part_kind :=
  '(partId, kind) ← part_key event; if decide (partId = id) then Some kind else None.

Definition text_event (id : jstr) (event : ProviderEvent) : option jstr :=
  match event with
  | TextDelta partId delta => if decide (partId = id) then Some delta else None
  | _ => None
  end.

Definition reasoning_event (id : jstr) (event : ProviderEvent)
    : option (jstr * option Visibility) :=
  match event with
  | ReasoningDelta partId delta visibility =>
      if decide (partId = id) then Some (delta, visibility) else None
  | _ => None
  end.

Inductive tool_event := ToolStart (index : Z) | ToolDelta (name input : jstr) | ToolEnd.

Definition tool_event_of (id : jstr) (event : ProviderEvent) : option tool_event :=
  match event with
  | ToolCallStart index toolCallId =>
      if decide (toolCallId = id) then Some (ToolStart index) else None
  | ToolCallDelta toolCallId name input =>
      if decide (toolCallId = id) then Some (ToolDelta (default [] name) (default [] input))
      else None
  | ToolCallEnd toolCallId => if decide (toolCallId = id) then Some ToolEnd else None
  | _ => None
  end.

Definition state_event (id : jstr) (event : ProviderEvent) : option ProviderState :=
  match event with
  | StateEvent state (Some partId) => if decide (partId = id) then Some state else None
  | _ => None
  end.

Definition image_of (event : ProviderEvent) : option ProviderImageOutputEvent :=
  match event with ImageOutput image => Some image | _ => None end.
Definition state_of (event : ProviderEvent) : option ProviderState :=
  match event with StateEvent state _ => Some state | _ => None end.
Definition usage_of (event : ProviderEvent) : option ProviderUsage :=
  match event with UsageEvent usage => Some usage | _ => None end.
Definition finish_of (event : ProviderEvent) : option ProviderFinishEvent :=
  match event with FinishEvent finish => Some finish | _ => None end.
Definition error_of (event : ProviderEvent) : option ProviderError :=
  match event with ErrorEvent error => Some error | _ => None end.
Definition start_of (event : ProviderEvent) : option Z :=
  match event with ToolCallStart index _ => Some index | _ => None end.

(** The distinct elements in the order of their first occurrences. *)
Definition first_seen (l : list jstr) : list jstr := reverse (remove_dups (reverse l)).

Definition part_ids (events : list ProviderEvent) : list jstr :=
  first_seen (omap part_key events).*1.

Definition reasoning_text (l : list (jstr * option Visibility)) : jstr := concat l.*1.
Definition reasoning_visibility (l : list (jstr * option Visibility)) : Visibility :=
  default VisInternal (last (omap snd l)).

Definition tool_index (l : list tool_event) : Z :=
  default 0%Z (head (omap (fun e => match e with ToolStart i => Some i | _ => None end) l)).
Definition tool_name (l : list tool_event) : jstr :=
  l ≫= fun e => match e with ToolDelta name _ => name | _ => [] end.
Definition tool_input (l : list tool_event) : jstr :=
  l ≫= fun e => match e with ToolDelta _ input => input | _ => [] end.
Definition tool_ended (l : list tool_event) : bool :=
  existsb (fun e => match e with ToolEnd => true | _ => false end) l.

Definition tool_assembly (id : jstr) (l : list tool_event) : ToolAssembly := {|
  ta_index := tool_index l; ta_id := id; ta_name := tool_name l;
  ta_inputJson := tool_input l; ta_ended := tool_ended l |}.

(** The part the events describe under an identifier. *)
Definition describes (parse_json : jstr → option json) (events : list ProviderEvent)
    (id : jstr) (part : ResponsePart) : Prop :=
  match part with
  | ImageCandidate id' mimeType bytes =>
      id' = id ∧ ImageOutput {| im_partId := id; im_mimeType := mimeType; im_bytes := bytes |}
        ∈ events
  | TextPart id' text =>
      id' = id ∧ omap (text_event id) events ≠ [] ∧ text = concat (omap (text_event id) events)
  | ReasoningPart id' text visibility state =>
      let deltas := omap (reasoning_event id) events in
      id' = id ∧ deltas ≠ [] ∧ text = reasoning_text deltas ∧
      visibility = reasoning_visibility deltas ∧ state = head (omap (state_event id) events)
  | ToolCallPart id' toolCallId name input =>
      let l := omap (tool_event_of toolCallId) events in
      id' = id ∧ id = tool_part (tool_index l) ∧ ToolCallStart (tool_index l) toolCallId ∈ events ∧
      tool_ended l = true ∧ name = tool_name l ∧ name ≠ [] ∧
      ((tool_input l = [] ∧ input = []) ∨ parse_json (tool_input l) = Some (JObj input))
  end.

(** * The assembler's invariant *)

(** A map holds, for each key, what the events say of it. *)
Definition collected {X Y} (f : jstr → ProviderEvent → option X) (g : jstr → list X → Y)
    (events : list ProviderEvent) (id : jstr) : option Y :=
  match omap (f id) events with [] => None | l => Some (g id l) end.

Definition collects {X Y} (f : jstr → ProviderEvent → option X) (g : jstr → list X → Y)
    (events : list ProviderEvent) (m : list (jstr * Y)) : Prop :=
  ∀ id, jget id m = collected f g events id.

Lemma omap_snoc {A B} (f : A → option B) l x :
  omap f (l ++ [x]) = omap f l ++ option_list (f x).
Proof. rewrite omap_app. simpl. by destruct (f x). Qed.

Section collects.
Context {X Y : Type} (f : jstr → ProviderEvent → option X) (g : jstr → list X → Y).
Context (events : list ProviderEvent) (m : list (jstr * Y)) (event : ProviderEvent).

Lemma collects_skip :
  (∀ id, f id event = None) → collects f g events m → collects f g (events ++ [event]) m.
Proof.
  intros Hf Hm id. unfold collected. rewrite omap_snoc, Hf, app_nil_r. apply Hm.
Qed.

Lemma collects_set id x y :
  f id event = Some x → (∀ id', id' ≠ id → f id' event = None) →
  y = g id (omap (f id) events ++ [x]) →
  collects f g events m → collects f g (events ++ [event]) (jset id y m).
Proof.
  intros Hx Hf -> Hm id'. unfold collected. rewrite omap_snoc, jget_jset.
  destruct (decide (id = id')) as [<-|Hne].
  - rewrite Hx. simpl. by destruct (omap (f id) events).
  - rewrite Hf by congruence. rewrite app_nil_r. apply Hm.
Qed.
End collects.

Lemma collects_None {X Y} f (g : jstr → list X → Y) events m id :
  collects f g events m → jget id m = None → omap (f id) events = [].
Proof. intros Hm. rewrite Hm. unfold collected. by destruct (omap (f id) events). Qed.

Lemma collects_Some {X Y} f (g : jstr → list X → Y) events m id y :
  collects f g events m → jget id m = Some y →
  omap (f id) events ≠ [] ∧ y = g id (omap (f id) events).
Proof.
  intros Hm. rewrite Hm. unfold collected. destruct (omap (f id) events); [done|].
  intros [= <-]. done.
Qed.

(** A map holds, for each key, the first thing the events say of it. *)
Definition collects_first {X} (f : jstr → ProviderEvent → option X)
    (events : list ProviderEvent) (m : list (jstr * X)) : Prop :=
  ∀ id, jget id m = head (omap (f id) events).

Section collects_first.
Context {X : Type} (f : jstr → ProviderEvent → option X).
Context (events : list ProviderEvent) (m : list (jstr * X)) (event : ProviderEvent).

Lemma first_skip :
  (∀ id, f id event = None) → collects_first f events m →
  collects_first f (events ++ [event]) m.
Proof. intros Hf Hm id. rewrite omap_snoc, Hf, app_nil_r. apply Hm. Qed.

Lemma first_set id x :
  f id event = Some x → (∀ id', id' ≠ id → f id' event = None) → jget id m = None →
  collects_first f events m → collects_first f (events ++ [event]) (jset id x m).
Proof.
  intros Hx Hf Hid Hm id'. rewrite omap_snoc, jget_jset.
  destruct (decide (id = id')) as [<-|Hne].
  - rewrite Hx. rewrite Hm in Hid. by destruct (omap (f id) events).
  - rewrite Hf by congruence. rewrite app_nil_r. apply Hm.
Qed.

Lemma first_keep id x :
  f id event = Some x → (∀ id', id' ≠ id → f id' event = None) → jget id m ≠ None →
  collects_first f events m → collects_first f (events ++ [event]) m.
Proof.
  intros Hx Hf Hid Hm id'. rewrite omap_snoc. destruct (decide (id' = id)) as [->|Hne].
  - rewrite Hm in Hid |- *. by destruct (omap (f id) events).
  - rewrite Hf by congruence. rewrite app_nil_r. apply Hm.
Qed.
End collects_first.

Lemma first_seen_snoc l x :
  first_seen (l ++ [x]) = if decide (x ∈ l) then first_seen l else first_seen l ++ [x].
Proof.
  unfold first_seen. rewrite reverse_snoc. simpl.
  destruct (decide (x ∈ l)) as [Hx|Hx]; rewrite <-elem_of_reverse in Hx.
  - by case_decide.
  - case_decide; [done|]. by rewrite reverse_cons.
Qed.

Lemma elem_of_first_seen l x : x ∈ first_seen l ↔ x ∈ l.
Proof. unfold first_seen. by rewrite elem_of_reverse, elem_of_remove_dups, elem_of_reverse. Qed.

Lemma NoDup_first_seen l : NoDup (first_seen l).
Proof. unfold first_seen. rewrite reverse_Permutation. apply NoDup_remove_dups. Qed.

Lemma elem_of_part_ids id events : id ∈ part_ids events ↔ id ∈ (omap part_key events).*1.
Proof. apply elem_of_first_seen. Qed.

(** Each part has one kind, and the parts are listed as they first appeared. *)
Record parts_ok (events : list ProviderEvent) (order : list jstr)
    (kinds : list (jstr * part_kind)) : Prop := {
  parts_order : order = part_ids events;
  parts_kinds : collects_first kind_event events kinds;
  parts_same : ∀ id k1 k2,
    (id, k1) ∈ omap part_key events → (id, k2) ∈ omap part_key events → k1 = k2;
}.

Record assembled (events : list ProviderEvent) (a : ProviderTurnAssembler) : Prop := {
  asm_parts : parts_ok events (as_partOrder a) (as_partKinds a);
  asm_text : collects text_event (fun _ l => concat l) events (as_text a);
  asm_reasoning : collects reasoning_event
    (fun _ l => (reasoning_text l, reasoning_visibility l)) events (as_reasoning a);
  asm_tools : collects tool_event_of tool_assembly events (as_tools a);
  asm_tool_keys : NoDup (as_tools a).*1;
  asm_started : ∀ id, omap (tool_event_of id) events = [] ∨
    ∃ index l, omap (tool_event_of id) events = ToolStart index :: l;
  asm_indexes : as_toolIndexes a = omap start_of events;
  asm_images : as_images a =
    (fun image => (im_partId image, image_candidate image)) <$> omap image_of events;
  asm_image_order : filter (fun id => id ∈ (as_images a).*1) (as_partOrder a) =
    (as_images a).*1;
  asm_valid : Forall (fun image => validateImageOutput image = Ok tt) (omap image_of events);
  asm_count : (Z.of_nat (length (as_images a)) <= IMAGE_COUNT)%Z;
  asm_bytes : as_imageBytes a =
    zsum ((fun image => byteLength (im_bytes image)) <$> omap image_of events);
  asm_total : (as_imageBytes a <= TOTAL_BYTES)%Z;
  asm_states : as_states a = omap state_of events;
  asm_state_parts : collects_first state_event events (as_stateByPart a);
  asm_usage : as_usage a = last (omap usage_of events);
  asm_finish : as_finish a = last (omap finish_of events);
  asm_error : as_error a = last (omap error_of events);
}.

Lemma new_assembled : assembled [] new_assembler.
Proof. constructor; try done; try constructor; try done. simpl. set_solver. Qed.

Lemma started_skip events event :
  (∀ id, tool_event_of id event = None) →
  (∀ id, omap (tool_event_of id) events = [] ∨
     ∃ index l, omap (tool_event_of id) events = ToolStart index :: l) →
  ∀ id, omap (tool_event_of id) (events ++ [event]) = [] ∨
    ∃ index l, omap (tool_event_of id) (events ++ [event]) = ToolStart index :: l.
Proof. intros He Hs id. rewrite omap_snoc, He, app_nil_r. apply Hs. Qed.

Lemma started_more events event id e :
  tool_event_of id event = Some e → (∀ id', id' ≠ id → tool_event_of id' event = None) →
  omap (tool_event_of id) events ≠ [] ∨ (∃ index, e = ToolStart index) →
  (∀ id, omap (tool_event_of id) events = [] ∨
     ∃ index l, omap (tool_event_of id) events = ToolStart index :: l) →
  ∀ id, omap (tool_event_of id) (events ++ [event]) = [] ∨
    ∃ index l, omap (tool_event_of id) (events ++ [event]) = ToolStart index :: l.
Proof.
  intros He Hother Hne Hs id'. rewrite omap_snoc.
  destruct (decide (id' = id)) as [->|Hid]; [|rewrite Hother, app_nil_r by done; apply Hs].
  right. rewrite He. destruct (Hs id) as [Hnil|(i & l & Hl)].
  - rewrite Hnil in *. destruct Hne as [|[i ->]]; [done|]. by exists i, [].
  - rewrite Hl. by exists i, (l ++ [e]).
Qed.

Lemma kind_event_None id events :
  head (omap (kind_event id) events) = None ↔ id ∉ (omap part_key events).*1.
Proof.
  induction events as [|event events IH]; simpl; [set_solver|].
  unfold kind_event at 1. destruct (part_key event) as [[id' k]|]; simpl; [|done].
  case_decide as Hid; simpl; [set_solver|]. rewrite IH. set_solver.
Qed.

Lemma kind_event_Some id k events :
  head (omap (kind_event id) events) = Some k → (id, k) ∈ omap part_key events.
Proof.
  induction events as [|event events IH]; simpl; [done|].
  unfold kind_event at 1. destruct (part_key event) as [[id' k']|]; simpl; [|done].
  case_decide as Hid; simpl; [|set_solver]. intros [= ->]. subst. set_solver.
Qed.

Section accepting.
Context (providerId modelId : jstr) (allowImages allowText : bool).

Lemma fail_if_Ok c message a a' u :
  fail_if providerId modelId c message a = (a', Ok u) ↔ a' = a ∧ c = false.
Proof. unfold fail_if, fail, throwM, mret, stM_ret. destruct c, u; naive_solver. Qed.

Lemma get_Ok (a a' b : ProviderTurnAssembler) :
  getM (E := thrown) a = (a', Ok b) ↔ a' = a ∧ b = a.
Proof. unfold getM. naive_solver. Qed.

Lemma modify_Ok f (a a' : ProviderTurnAssembler) u :
  modifyM (E := thrown) f a = (a', Ok u) ↔ a' = f a.
Proof. unfold modifyM. destruct u. naive_solver. Qed.

Lemma ret_Ok {A} (x y : A) (a a' : ProviderTurnAssembler) :
  mret (M := stM _ thrown) x a = (a', Ok y) ↔ a' = a ∧ y = x.
Proof. unfold mret, stM_ret. naive_solver. Qed.
End accepting.

(** Invert the steps of a returning run of the assembler. *)
Ltac inv_run :=
  repeat match goal with
  | H : (_ ≫= _) _ = (_, Ok _) |- _ => apply stM_bind_Ok in H as (? & ? & ? & H)
  | H : fail_if _ _ _ _ _ = _ |- _ => apply fail_if_Ok in H as [-> H]
  | H : getM _ = _ |- _ => apply get_Ok in H as [-> ->]
  | H : modifyM _ _ = _ |- _ => apply modify_Ok in H as ->
  | H : mret _ _ = (_, Ok tt) |- _ => apply ret_Ok in H as [-> _]
  | H : mret _ _ = (_, Ok _) |- _ => apply ret_Ok in H as [-> ->]
  | H : fail _ _ _ _ = (_, Ok _) |- _ => discriminate H
  | x : unit |- _ => destruct x
  end.

(** A list of parts after an event that belongs to [id]. *)
Definition ordered_after (a a' : ProviderTurnAssembler) (id : jstr) : Prop :=
  as_partOrder a' = as_partOrder a ∨
  (as_partOrder a' = as_partOrder a ++ [id] ∧ jget id (as_partKinds a) = None).

Lemma parts_skip events order kinds event :
  part_key event = None → parts_ok events order kinds → parts_ok (events ++ [event]) order kinds.
Proof.
  intros He [Ho Hk Hs]. split.
  - unfold part_ids. by rewrite omap_snoc, He, app_nil_r.
  - apply first_skip; [|done]. intros id. unfold kind_event. by rewrite He.
  - rewrite omap_snoc, He. simpl. by rewrite app_nil_r.
Qed.

Lemma parts_known events order kinds id : parts_ok events order kinds →
  jget id kinds = None ↔ id ∉ (omap part_key events).*1.
Proof. intros [_ Hk _]. by rewrite Hk, kind_event_None. Qed.

Lemma parts_new events order kinds event id kind :
  part_key event = Some (id, kind) → jget id kinds = None → parts_ok events order kinds →
  parts_ok (events ++ [event]) (order ++ [id]) (jset id kind kinds).
Proof.
  intros He Hid Hp. pose proof (proj1 (parts_known _ _ _ id Hp) Hid) as Hnew.
  destruct Hp as [Ho Hk Hs]. split.
  - unfold part_ids. rewrite omap_snoc, He, fmap_app. simpl.
    rewrite first_seen_snoc, decide_False by done. by rewrite Ho.
  - apply first_set; [..|done]; unfold kind_event; rewrite ?He; simpl;
      [by rewrite decide_True| |done]. intros id' Hne. by rewrite decide_False.
  - rewrite omap_snoc, He. simpl. intros id' k1 k2.
    rewrite !elem_of_app, !list_elem_of_singleton.
    assert (∀ k, (id, k) ∉ omap part_key events) as Hn.
    { intros k Hin. apply Hnew, list_elem_of_fmap. by exists (id, k). }
    intros [H1|H1] [H2|H2]; simplify_eq; [by eapply Hs|by apply Hn in H1|by apply Hn in H2|done].
Qed.

Lemma parts_again events order kinds event id kind :
  part_key event = Some (id, kind) → jget id kinds = Some kind → parts_ok events order kinds →
  parts_ok (events ++ [event]) order kinds.
Proof.
  intros He Hid [Ho Hk Hs]. rewrite Hk in Hid. apply kind_event_Some in Hid as Hin. split.
  - unfold part_ids. rewrite omap_snoc, He, fmap_app. simpl.
    rewrite first_seen_snoc, decide_True; [done|]. apply list_elem_of_fmap. by exists (id, kind).
  - apply (first_keep _ _ _ _ id kind); [..|done]; unfold kind_event; rewrite ?He; simpl;
      [by rewrite decide_True| |by rewrite Hk, Hid]. intros id' Hne. by rewrite decide_False.
  - rewrite omap_snoc, He. simpl. intros id' k1 k2.
    rewrite !elem_of_app, !list_elem_of_singleton.
    intros [H1|H1] [H2|H2]; simplify_eq; eauto.
Qed.

Section accepting.
Context (providerId modelId : jstr) (allowImages allowText : bool).

Lemma addPart_parts events a a' event id kind :
  part_key event = Some (id, kind) → parts_ok events (as_partOrder a) (as_partKinds a) →
  addPart providerId modelId id kind a = (a', Ok tt) →
  ∃ order kinds, a' = with_parts a order kinds ∧
    parts_ok (events ++ [event]) order kinds ∧ ordered_after a a' id.
Proof.
  intros He Hp H. unfold addPart in H. inv_run.
  destruct (jget id (as_partKinds a)) as [k|] eqn:Hk;
    repeat match goal with H : context [jget id _] |- _ =>
      lazymatch H with Hk => fail | _ => rewrite Hk in H end end; inv_run.
  - exists (as_partOrder a), (as_partKinds a). split; [by destruct a|]. split; [|by left].
    eapply parts_again; [done| |done]. rewrite Hk. f_equal.
    by match goal with H : bool_decide (k ≠ kind) = false |- _ =>
      apply bool_decide_eq_false, dec_stable in H end.
  - eexists _, _. split; [done|]. split; [by apply parts_new|]. by right.
Qed.

(** Only an image event makes an image part. *)
Lemma image_kind (id : jstr) (events : list ProviderEvent) :
  (id, KindImage) ∈ omap part_key events ↔
  id ∈ (fun image => im_partId image) <$> omap image_of events.
Proof.
  rewrite list_elem_of_omap, list_elem_of_fmap. split.
  - intros (event & Hin & He). destruct event; try discriminate. injection He as He.
    exists image. split; [done|]. apply list_elem_of_omap. by exists (ImageOutput image).
  - intros (image & -> & (event & Hin & He)%list_elem_of_omap).
    exists event. split; [done|]. destruct event; try discriminate. by injection He as ->.
Qed.

Lemma image_keys events a :
  assembled events a →
  (as_images a).*1 = (fun image => im_partId image) <$> omap image_of events.
Proof. intros Ha. by rewrite (asm_images _ _ Ha), <-list_fmap_compose. Qed.

(** A part that is not an image leaves the images' order alone. *)
Lemma image_order_other events a a' id :
  assembled events a → ordered_after a a' id → as_images a' = as_images a →
  filter (fun id => id ∈ (as_images a').*1) (as_partOrder a') = (as_images a').*1.
Proof.
  intros Ha [Ho|[Ho Hid]] Hi; rewrite Ho, Hi; [apply (asm_image_order _ _ Ha)|].
  rewrite filter_app, (asm_image_order _ _ Ha).
  rewrite filter_cons_False, filter_nil, app_nil_r; [done|].
  rewrite (image_keys _ _ Ha), <-image_kind. intros Hin.
  apply (parts_known _ _ _ id (asm_parts _ _ Ha)) in Hid. apply Hid, list_elem_of_fmap.
  by exists (id, KindImage).
Qed.

(** An image part is new: no earlier part has its identifier. *)
Lemma image_new events a image kinds :
  assembled events a → im_partId image ∉ (as_images a).*1 →
  parts_ok (events ++ [ImageOutput image]) (as_partOrder a) kinds → False.
Proof.
  intros Ha Hnew Hp. rewrite (image_keys _ _ Ha), <-image_kind in Hnew. apply Hnew.
  assert (im_partId image ∈ part_ids events) as Hin.
  { rewrite <-(parts_order _ _ _ (asm_parts _ _ Ha)), (parts_order _ _ _ Hp), elem_of_part_ids.
    rewrite omap_snoc, fmap_app. set_solver. }
  apply elem_of_part_ids, list_elem_of_fmap in Hin as ([id k] & Hid & Hin). simpl in Hid. subst.
  assert (k = KindImage) as ->; [|done].
  apply (parts_same _ _ _ Hp (im_partId image)); rewrite omap_snoc; set_solver.
Qed.

(** The fields an event says nothing of. *)
Ltac keep_fields :=
  constructor; simpl;
  try solve
    [ assumption
    | by apply NoDup_jset
    | apply parts_skip; [done|assumption]
    | apply collects_skip; [done|assumption]
    | apply started_skip; [done|assumption]
    | apply first_skip; [done|assumption]
    | rewrite omap_snoc; simpl; rewrite app_nil_r; assumption
    | rewrite omap_snoc; simpl; f_equal; assumption
    | rewrite omap_snoc; simpl; rewrite last_snoc; done ].

Lemma accept_image_assembled events image a a' :
  accept_image providerId modelId allowImages image a = (a', Ok tt) → assembled events a →
  assembled (events ++ [ImageOutput image]) a'.
Proof.
  intros H Ha. unfold accept_image in H. inv_run.
  destruct (validateImageOutput image) as [[]|] eqn:Hvalid; inv_run.
  match goal with H : addPart _ _ _ _ _ = _ |- _ =>
    apply (addPart_parts events _ _ (ImageOutput image)) in H
      as (order & kinds & -> & Hp & Ho); [|done|apply Ha] end.
  match goal with H : jhas _ _ = false |- _ => apply jhas_false in H as Hnew end.
  match goal with H : _ || _ = false |- _ =>
    apply orb_false_elim in H as [Hc%bool_decide_eq_false Hb%bool_decide_eq_false] end.
  simpl in *. pose proof Ha as []. keep_fields; try done.
  - rewrite jset_fresh by done. rewrite omap_snoc, fmap_app. simpl. by f_equal.
  - rewrite jset_fresh by done. rewrite fmap_app. simpl.
    destruct Ho as [Ho|[Ho Hid]]; simpl in Ho; subst order.
    + exfalso. by apply (image_new events a image kinds).
    + rewrite filter_app, filter_cons_True, filter_nil by set_solver. f_equal.
      etrans; [|exact asm_image_order0]. apply filter_ext_elem. intros id Hin.
      rewrite elem_of_app, list_elem_of_singleton. split; [|by left]. intros [?| ->]; [done|].
      rewrite (parts_order _ _ _ asm_parts0), elem_of_part_ids in Hin.
      by apply (parts_known _ _ _ _ asm_parts0) in Hid.
  - rewrite omap_snoc. apply Forall_app. split; [done|]. by repeat constructor.
  - rewrite jset_fresh by done. rewrite length_app. simpl. unfold IMAGE_COUNT in *. lia.
  - rewrite omap_snoc, fmap_app, zsum_app. simpl. lia.
  - lia.
Qed.

Lemma accept_text_assembled events partId delta a a' :
  accept_text providerId modelId allowText partId delta a = (a', Ok tt) → assembled events a →
  assembled (events ++ [TextDelta partId delta]) a'.
Proof.
  intros H Ha. unfold accept_text, requireNonEmpty in H. inv_run.
  match goal with H : addPart _ _ _ _ _ = _ |- _ =>
    apply (addPart_parts events _ _ (TextDelta partId delta)) in H
      as (order & kinds & -> & Hp & Ho); [|done|apply Ha] end.
  pose proof (image_order_other events a (with_parts a order kinds) partId Ha Ho eq_refl).
  destruct Ha. keep_fields.
  apply (collects_set _ _ _ _ _ partId delta); simpl; [by rewrite decide_True|..|done].
  - intros id Hne. by rewrite decide_False.
  - rewrite asm_text0. unfold collected.
    destruct (omap (text_event partId) events); simpl; [by rewrite app_nil_r|].
    rewrite <-app_assoc. f_equal. rewrite concat_app. simpl. by rewrite app_nil_r.
Qed.

Lemma reasoning_text_snoc l delta visibility :
  reasoning_text (l ++ [(delta, visibility)]) = reasoning_text l ++ delta.
Proof.
  unfold reasoning_text. rewrite fmap_app, concat_app. simpl. by rewrite app_nil_r.
Qed.

Lemma reasoning_visibility_snoc l delta visibility :
  reasoning_visibility (l ++ [(delta, visibility)]) =
  default (reasoning_visibility l) visibility.
Proof.
  unfold reasoning_visibility. rewrite omap_snoc.
  destruct visibility; simpl; [by rewrite last_snoc|by rewrite app_nil_r].
Qed.

Lemma accept_reasoning_assembled events partId delta visibility a a' :
  accept_reasoning providerId modelId partId delta visibility a = (a', Ok tt) →
  assembled events a → assembled (events ++ [ReasoningDelta partId delta visibility]) a'.
Proof.
  intros H Ha. unfold accept_reasoning, requireNonEmpty in H. inv_run.
  match goal with H : addPart _ _ _ _ _ = _ |- _ =>
    apply (addPart_parts events _ _ (ReasoningDelta partId delta visibility)) in H
      as (order & kinds & -> & Hp & Ho); [|done|apply Ha] end.
  pose proof (image_order_other events a (with_parts a order kinds) partId Ha Ho eq_refl).
  destruct Ha. keep_fields.
  apply (collects_set _ _ _ _ _ partId (delta, visibility)); simpl;
    [by rewrite decide_True|..|done].
  - intros id Hne. by rewrite decide_False.
  - rewrite reasoning_text_snoc, reasoning_visibility_snoc, asm_reasoning0. unfold collected.
    destruct (omap (reasoning_event partId) events); by destruct visibility.
Qed.

Lemma tool_assembly_snoc id l name input :
  l ≠ [] →
  tool_assembly id (l ++ [ToolDelta name input]) =
  {| ta_index := tool_index l; ta_id := id; ta_name := tool_name l ++ name;
     ta_inputJson := tool_input l ++ input; ta_ended := tool_ended l |}.
Proof.
  intros Hl. unfold tool_assembly, tool_index, tool_name, tool_input, tool_ended.
  rewrite omap_snoc, !bind_app, existsb_app. simpl. by rewrite !app_nil_r, orb_false_r.
Qed.

Lemma tool_assembly_end id l :
  tool_assembly id (l ++ [ToolEnd]) =
  {| ta_index := tool_index l; ta_id := id; ta_name := tool_name l;
     ta_inputJson := tool_input l; ta_ended := true |}.
Proof.
  unfold tool_assembly, tool_index, tool_name, tool_input, tool_ended.
  rewrite omap_snoc, !bind_app, existsb_app. simpl. by rewrite !app_nil_r, orb_true_r.
Qed.

Lemma accept_start_assembled events index toolCallId a a' :
  accept_start providerId modelId index toolCallId a = (a', Ok tt) → assembled events a →
  assembled (events ++ [ToolCallStart index toolCallId]) a'.
Proof.
  intros H Ha. unfold accept_start in H. inv_run.
  match goal with H : _ || _ = false |- _ =>
    apply orb_false_elim in H as [Hnew%jhas_false _] end.
  match goal with H : addPart _ _ _ _ _ = _ |- _ =>
    apply (addPart_parts events _ _ (ToolCallStart index toolCallId)) in H
      as (order & kinds & -> & Hp & Ho); [|done|apply Ha] end.
  pose proof (image_order_other events a (with_parts a order kinds) _ Ha Ho eq_refl).
  apply jget_None in Hnew. pose proof (collects_None _ _ _ _ _ (asm_tools _ _ Ha) Hnew) as Hnil.
  destruct Ha. keep_fields.
  - apply (collects_set _ _ _ _ _ toolCallId (ToolStart index)); simpl;
      [by rewrite decide_True|intros id Hne; by rewrite decide_False|by rewrite Hnil|done].
  - eapply (started_more _ _ toolCallId); simpl;
      [by rewrite decide_True|intros id Hne; by rewrite decide_False|by eauto|done].
Qed.

Lemma requireOpenTool_Ok events toolCallId a a' tool :
  requireOpenTool providerId modelId toolCallId a = (a', Ok tool) → assembled events a →
  a' = a ∧ omap (tool_event_of toolCallId) events ≠ [] ∧
  tool = tool_assembly toolCallId (omap (tool_event_of toolCallId) events).
Proof.
  intros H Ha. unfold requireOpenTool in H. inv_run.
  destruct (jget toolCallId (as_tools a)) as [tool'|] eqn:Htool; inv_run.
  split; [done|]. exact (collects_Some _ _ _ _ _ _ (asm_tools _ _ Ha) Htool).
Qed.

(** An event of a tool call that has started. *)
Lemma set_tool_assembled events event toolCallId e a tool :
  tool_event_of toolCallId event = Some e →
  (∀ id, id ≠ toolCallId → tool_event_of id event = None) →
  part_key event = None → is_output event = false →
  omap (tool_event_of toolCallId) events ≠ [] →
  tool = tool_assembly toolCallId (omap (tool_event_of toolCallId) events ++ [e]) →
  assembled events a →
  assembled (events ++ [event])
    (with_tools a (jset (ta_id tool) tool (as_tools a)) (as_toolIndexes a)).
Proof.
  intros He Hother Hkey Hout Hne Htool [].
  destruct event; try discriminate; keep_fields;
    try (by eapply started_more; eauto); rewrite Htool; eapply collects_set; eauto.
Qed.

Lemma accept_delta_assembled events toolCallId name input a a' :
  accept_delta providerId modelId toolCallId name input a = (a', Ok tt) →
  assembled events a → assembled (events ++ [ToolCallDelta toolCallId name input]) a'.
Proof.
  intros H Ha. unfold accept_delta, set_tool in H. inv_run.
  match goal with H : requireOpenTool _ _ _ _ = _ |- _ =>
    apply (requireOpenTool_Ok events) in H as (-> & Hne & ->); [|done] end.
  eapply set_tool_assembled; [simpl; by rewrite decide_True| |done..|by rewrite tool_assembly_snoc|done].
  intros id Hid. simpl. by rewrite decide_False.
Qed.

Lemma accept_end_assembled events toolCallId a a' :
  accept_end providerId modelId toolCallId a = (a', Ok tt) →
  assembled events a → assembled (events ++ [ToolCallEnd toolCallId]) a'.
Proof.
  intros H Ha. unfold accept_end, set_tool in H. inv_run.
  match goal with H : requireOpenTool _ _ _ _ = _ |- _ =>
    apply (requireOpenTool_Ok events) in H as (-> & Hne & ->); [|done] end.
  eapply set_tool_assembled; [simpl; by rewrite decide_True| |done..|by rewrite tool_assembly_end|done].
  intros id Hid. simpl. by rewrite decide_False.
Qed.

Lemma accept_state_assembled events state partId a a' :
  accept_state providerId modelId state partId a = (a', Ok tt) →
  assembled events a → assembled (events ++ [StateEvent state partId]) a'.
Proof.
  intros H Ha. unfold accept_state in H. inv_run.
  destruct partId as [partId|]; inv_run; destruct Ha; keep_fields;
    try (rewrite omap_snoc; simpl; by f_equal).
  apply (first_set _ _ _ _ partId state); simpl in *; [by rewrite decide_True| | |done].
  - intros id Hne. by rewrite decide_False.
  - by apply jget_None, jhas_false.
Qed.

Lemma usage_entry_state prior entry a a' :
  usage_entry providerId modelId prior entry a = (a', Ok tt) → a' = a.
Proof.
  intros H. unfold usage_entry in H. destruct entry as [name value].
  case_decide; [by inv_run|]. destruct value as [x|v|]; [|by inv_run..].
  destruct (safe_integer x); by inv_run.
Qed.

Lemma validateUsage_state usage a a' :
  validateUsage providerId modelId usage a = (a', Ok tt) → a' = a.
Proof.
  unfold validateUsage. intros H. inv_run. revert a' H. generalize (as_usage a) as prior.
  intros prior. revert a. induction usage as [|entry usage IH]; simpl; intros a a' H; inv_run;
    [done|]. match goal with H : usage_entry _ _ _ _ _ = _ |- _ =>
      apply usage_entry_state in H as -> end. by apply IH.
Qed.

Lemma accept_assembled events event a a' :
  accept providerId modelId allowImages allowText event a = (a', Ok tt) → assembled events a →
  assembled (events ++ [event]) a'.
Proof.
  destruct event; simpl; intros H Ha;
    [by eapply accept_text_assembled|by eapply accept_image_assembled
    |by eapply accept_reasoning_assembled|by eapply accept_start_assembled
    |by eapply accept_delta_assembled|by eapply accept_end_assembled
    |by eapply accept_state_assembled|..]; inv_run;
    try match goal with H : validateUsage _ _ _ _ = _ |- _ =>
      apply validateUsage_state in H as -> end; destruct Ha; keep_fields.
Qed.
End accepting.

(** * The response *)

(** A response says what the events said, and nothing else. *)
Record responds (parse_json : jstr → option json) (events : list ProviderEvent)
    (r : ProviderResponseCandidate) : Prop := {
  resp_parts : Forall2 (describes parse_json events) (part_ids events) (rc_parts r);
  resp_images : filter (fun part => is_image part) (rc_parts r) =
    image_candidate <$> omap image_of events;
  resp_state : rc_providerState r = omap state_of events;
  resp_usage : rc_usage r = last (omap usage_of events);
  resp_finish : Some (rc_finish r) = last (omap finish_of events);
  resp_error : omap error_of events = [];
  resp_tools : fi_reason (rc_finish r) = FinishToolCalls ↔ omap start_of events ≠ [];
  resp_valid : Forall (fun image => validateImageOutput image = Ok tt) (omap image_of events);
  resp_count : (Z.of_nat (length (omap image_of events)) <= IMAGE_COUNT)%Z;
  resp_total :
    (zsum ((fun image => byteLength (im_bytes image)) <$> omap image_of events)
      <= TOTAL_BYTES)%Z;
  resp_complete_images : omap image_of events ≠ [] →
    fi_reason (rc_finish r) = FinishStop ∨ fi_reason (rc_finish r) = FinishToolCalls;
}.

Section completing.
Context (providerId modelId : jstr) (parse_json : jstr → option json).

(** The part is of the kind its identifier has. *)
Definition kind_of_part (part : ResponsePart) : part_kind :=
  match part with
  | ImageCandidate _ _ _ => KindImage
  | TextPart _ _ => KindText
  | ReasoningPart _ _ _ _ => KindReasoning
  | ToolCallPart _ _ _ _ => KindTool
  end.

Lemma parseToolInput_Ok tool a a' input :
  parseToolInput providerId modelId parse_json tool a = (a', Ok input) →
  a' = a ∧ ((ta_inputJson tool = [] ∧ input = []) ∨
            parse_json (ta_inputJson tool) = Some (JObj input)).
Proof.
  unfold parseToolInput. intros H. case_decide; [by inv_run; eauto|].
  destruct (parse_json (ta_inputJson tool)) as [[]|]; inv_run; eauto.
Qed.

Lemma complete_tool_Ok events id a a' part :
  complete_tool providerId modelId parse_json (as_tools a) id a = (a', Ok part) →
  assembled events a →
  a' = a ∧ describes parse_json events id part ∧ kind_of_part part = KindTool.
Proof.
  intros H Ha. pose proof (asm_tool_keys _ _ Ha) as Hnd. unfold complete_tool in H.
  destruct (find _ _) as [tool|] eqn:Hfind; [|discriminate H]. inv_run.
  apply find_some in Hfind as [Hin Hid]. apply bool_decide_eq_true in Hid.
  apply list_elem_of_In, list_elem_of_fmap in Hin as ([toolId tool'] & -> & Hin).
  apply elem_of_jget in Hin; [|done]. simpl in *.
  apply (collects_Some _ _ _ _ _ _ (asm_tools _ _ Ha)) in Hin as [Hne Ht].
  match goal with H : parseToolInput _ _ _ _ _ = _ |- _ =>
    apply parseToolInput_Ok in H as [-> Hinput] end.
  split; [done|]. split; [|done].
  destruct (asm_started _ _ Ha toolId) as [|(index & l & Hl)]; [done|].
  assert (tool_index (omap (tool_event_of toolId) events) = index) as Hindex by by rewrite Hl.
  rewrite Ht in *. simpl in *. rewrite Hindex in *.
  repeat match goal with
  | H : negb _ = false |- _ => apply negb_false_iff in H
  | H : bool_decide _ = false |- _ => apply bool_decide_eq_false in H
  end.
  repeat split; try done.
  assert (ToolStart index ∈ omap (tool_event_of toolId) events) as Hs by (rewrite Hl; left).
  apply list_elem_of_omap in Hs as (event & Hevent & He).
  destruct event; try discriminate; simpl in He; case_decide; simplify_eq. done.
Qed.

Lemma complete_part_Ok events id a a' part :
  complete_part providerId modelId parse_json id a = (a', Ok part) →
  assembled events a →
  a' = a ∧ describes parse_json events id part ∧
  (id, kind_of_part part) ∈ omap part_key events ∧
  if is_image part then jget id (as_images a) = Some part else jget id (as_images a) = None.
Proof.
  intros H Ha. unfold complete_part in H. inv_run.
  destruct (jget id (as_images a)) as [image|] eqn:Himage; inv_run.
  { apply jget_elem_of in Himage as Hin. rewrite (asm_images _ _ Ha) in Hin.
    apply list_elem_of_fmap in Hin as (im & [= -> ->] & Hin). split; [done|].
    split; [|by split; [apply image_kind, list_elem_of_fmap; eauto|]].
    split; [done|]. simpl. apply list_elem_of_omap in Hin as ([] & Hin & [= ->]).
    by destruct im. }
  case_decide as Hkind.
  { destruct (complete_tool_Ok events id a a' part) as (-> & Hd & Hk); [done..|].
    split; [done|]. split; [done|]. rewrite Hk. rewrite (parts_kinds _ _ _ (asm_parts _ _ Ha)) in Hkind.
    split; [by apply kind_event_Some|]. by destruct part. }
  destruct (jget id (as_text a)) as [text|] eqn:Htext; inv_run.
  { apply (collects_Some _ _ _ _ _ _ (asm_text _ _ Ha)) in Htext as [Hne ->].
    split; [done|]. split; [done|]. split; [|done]. simpl.
    destruct (omap (text_event id) events) as [|d l] eqn:Hl; [done|].
    assert (d ∈ omap (text_event id) events) as Hd by (rewrite Hl; left).
    apply list_elem_of_omap in Hd as ([] & Hin & He); try discriminate.
    simpl in He. case_decide; simplify_eq. apply list_elem_of_omap. by eexists; split; [exact Hin|]. }
  destruct (jget id (as_reasoning a)) as [[text visibility]|] eqn:Hr; inv_run.
  apply (collects_Some _ _ _ _ _ _ (asm_reasoning _ _ Ha)) in Hr as [Hne [= -> ->]].
  split; [done|]. split; [by rewrite (asm_state_parts _ _ Ha)|]. split; [|done]. simpl.
  destruct (omap (reasoning_event id) events) as [|d l] eqn:Hl; [done|].
  assert (d ∈ omap (reasoning_event id) events) as Hd by (rewrite Hl; left).
  apply list_elem_of_omap in Hd as ([] & Hin & He); try discriminate.
  simpl in He. case_decide; simplify_eq. apply list_elem_of_omap. by eexists; split; [exact Hin|].
Qed.

Lemma complete_parts_Ok events ids a a' parts :
  complete_parts providerId modelId parse_json ids a = (a', Ok parts) →
  assembled events a →
  a' = a ∧ Forall2 (describes parse_json events) ids parts ∧
  Forall2 (fun id part => (id, kind_of_part part) ∈ omap part_key events) ids parts ∧
  filter (fun part => is_image part) parts =
    omap (fun id => jget id (as_images a)) ids.
Proof.
  revert a a' parts. induction ids as [|id ids IH]; simpl; intros a a' parts H Ha; inv_run;
    [by repeat constructor|].
  match goal with H : complete_part _ _ _ _ _ = _ |- _ =>
    apply (complete_part_Ok events) in H as (-> & Hd & Hk & Hi); [|done..] end.
  match goal with H : complete_parts _ _ _ _ _ = _ |- _ =>
    apply IH in H as (-> & Hds & Hks & His); [|done..] end.
  split; [done|]. split; [by constructor|]. split; [by constructor|].
  destruct (is_image _) eqn:Him; rewrite Hi.
  - rewrite filter_cons_True, His; [done|by rewrite Him].
  - rewrite filter_cons_False, His; [done|rewrite Him; by intros []].
Qed.
End completing.

Section completing.
Context (providerId modelId : jstr) (parse_json : jstr → option json).

(** Read in order, the image entries of the parts are the images. *)
Lemma omap_images events a :
  assembled events a →
  omap (fun id => jget id (as_images a)) (part_ids events) =
  image_candidate <$> omap image_of events.
Proof.
  intros Ha. rewrite <-(parts_order _ _ _ (asm_parts _ _ Ha)).
  assert ((as_images a).*2 = image_candidate <$> omap image_of events) as <-
    by by rewrite (asm_images _ _ Ha), <-list_fmap_compose.
  assert (NoDup (as_images a).*1) as Hnd.
  { rewrite <-(asm_image_order _ _ Ha). apply NoDup_filter.
    rewrite (parts_order _ _ _ (asm_parts _ _ Ha)). apply NoDup_first_seen. }
  etrans; [apply omap_jget_filter|]. rewrite (asm_image_order _ _ Ha).
  by apply omap_jget_keys.
Qed.

Lemma start_part index id (events : list ProviderEvent) :
  ToolCallStart index id ∈ events → (tool_part index, KindTool) ∈ omap part_key events.
Proof. intros Hin. apply list_elem_of_omap. by eexists; split; [exact Hin|]. Qed.

(** A tool part is there exactly when a tool call started. *)
Lemma tool_parts events parts :
  Forall2 (describes parse_json events) (part_ids events) parts →
  Forall2 (fun id part => (id, kind_of_part part) ∈ omap part_key events)
    (part_ids events) parts →
  (∀ id k1 k2, (id, k1) ∈ omap part_key events → (id, k2) ∈ omap part_key events → k1 = k2) →
  existsb is_tool_call parts = true ↔ omap start_of events ≠ [].
Proof.
  intros Hd Hk Hsame. rewrite existsb_exists. split.
  - intros (part & Hin & Ht). apply list_elem_of_In, list_elem_of_lookup in Hin as [i Hi].
    destruct (Forall2_lookup_r _ _ _ _ _ Hd Hi) as (id & _ & Hpart).
    destruct part; try discriminate. destruct Hpart as (_ & _ & Hs & _).
    assert (tool_index (omap (tool_event_of toolCallId) events) ∈ omap start_of events) as H
      by (apply list_elem_of_omap; by eexists; split; [exact Hs|]).
    intros Hnil. rewrite Hnil in H. by apply elem_of_nil in H.
  - intros Hne. destruct (omap start_of events) as [|index l] eqn:Hl; [done|].
    assert (index ∈ omap start_of events) as Hin by (rewrite Hl; left).
    apply list_elem_of_omap in Hin as ([] & Hin & [= ->]). apply start_part in Hin.
    assert (tool_part index ∈ part_ids events) as Hid
      by (apply elem_of_part_ids, list_elem_of_fmap; by exists (tool_part index, KindTool)).
    apply list_elem_of_lookup in Hid as [i Hi].
    destruct (Forall2_lookup_l _ _ _ _ _ Hk Hi) as (part & Hpart & Hkind).
    exists part. split; [by eapply list_elem_of_In, list_elem_of_lookup_2|].
    pose proof (Hsame _ _ _ Hin Hkind) as Heq. by destruct part.
Qed.

Lemma complete_Ok events a a' r :
  complete providerId modelId parse_json a = (a', Ok r) → assembled events a →
  a' = a ∧ responds parse_json events r.
Proof.
  intros H Ha. unfold complete in H. inv_run.
  destruct (as_error a) as [|] eqn:Herr; [discriminate H|].
  destruct (as_finish a) as [finish|] eqn:Hfinish; [|discriminate H]. inv_run.
  match goal with H : complete_parts _ _ _ _ _ = _ |- _ =>
    apply (complete_parts_Ok _ _ _ events) in H as (-> & Hd & Hk & Hi); [|done] end.
  rewrite (parts_order _ _ _ (asm_parts _ _ Ha)) in *.
  pose proof (tool_parts events _ Hd Hk (parts_same _ _ _ (asm_parts _ _ Ha))) as Htools.
  split; [done|]. split; simpl.
  - done.
  - by rewrite Hi, omap_images.
  - apply Ha.
  - apply Ha.
  - by rewrite <-Hfinish, (asm_finish _ _ Ha).
  - rewrite (asm_error _ _ Ha) in Herr. by apply last_None in Herr.
  - rewrite <-Htools. match goal with H : negb (Bool.eqb _ _) = false |- _ =>
      apply negb_false_iff, Bool.eqb_prop in H; rewrite <-H end.
    by rewrite bool_decide_eq_true.
  - apply Ha.
  - pose proof (asm_count _ _ Ha) as Hc. by rewrite (asm_images _ _ Ha), length_fmap in Hc.
  - rewrite <-(asm_bytes _ _ Ha). apply Ha.
  - intros Himages. assert (as_images a ≠ []) as Hne.
    { rewrite (asm_images _ _ Ha). by destruct (omap image_of events). }
    destruct (fi_reason finish); eauto; exfalso;
      match goal with H : _ && _ && _ = false |- _ =>
        rewrite bool_decide_eq_false_2 in H by done; discriminate H end.
Qed.
End completing.

(** * What is thrown *)

Section flagged.
Context (providerId modelId : jstr) (allowImages allowText : bool).
Context (parse_json : jstr → option json).

(** A run that leaves [outputObserved] at [b] and throws only stream errors that
    carry it. *)
Definition flagged {A} (b : bool) (m : stM ProviderTurnAssembler thrown A) : Prop :=
  ∀ a, as_outputObserved a = b →
    as_outputObserved (m a).1 = b ∧
    ∀ e, (m a).2 = Throw e → ∃ d, e = ProviderStreamError d b.

Lemma flagged_ret {A} b (x : A) : flagged b (mret x).
Proof. by intros a. Qed.

Lemma flagged_get b : flagged b getM.
Proof. by intros a. Qed.

Lemma flagged_modify b f :
  (∀ a, as_outputObserved a = b → as_outputObserved (f a) = b) → flagged b (modifyM f).
Proof. intros Hf a Ha. split; [by apply Hf|done]. Qed.

Lemma flagged_fail {A} b message :
  flagged b (fail providerId modelId message : stM _ _ A).
Proof. intros a <-. split; [done|]. intros e [= <-]. eauto. Qed.

Lemma flagged_fail_if b c message : flagged b (fail_if providerId modelId c message).
Proof. destruct c; [apply flagged_fail|apply flagged_ret]. Qed.

Lemma flagged_bind {A B} b (m : stM ProviderTurnAssembler thrown A) f :
  flagged b m → (∀ x, flagged b (f x)) → flagged (A := B) b (m ≫= f).
Proof.
  intros Hm Hf a Ha. destruct (Hm a Ha) as [Ha1 Ht]. unfold mbind, stM_bind.
  destruct (m a) as [a1 [x|e]]; [by apply Hf|]. split; [done|]. intros e' [= <-]. by apply Ht.
Qed.

Lemma flagged_iter {A} b (body : A → stM ProviderTurnAssembler thrown unit) l :
  (∀ x, flagged b (body x)) → flagged b (iterM body l).
Proof.
  intros Hb. induction l as [|x l IH]; simpl; [apply flagged_ret|].
  by apply flagged_bind.
Qed.

Local Hint Resolve flagged_ret flagged_get flagged_fail flagged_fail_if : flagged.

Ltac solve_flagged :=
  repeat first
    [ progress eauto with flagged
    | apply flagged_bind; [|intros ?]
    | apply flagged_iter; intros ?
    | apply flagged_modify; by intros ? <-
    | case_match ].

Lemma addPart_flagged b partId kind : flagged b (addPart providerId modelId partId kind).
Proof. unfold addPart. solve_flagged. Qed.

Lemma requireOpenTool_flagged b toolCallId :
  flagged b (requireOpenTool providerId modelId toolCallId).
Proof. unfold requireOpenTool. solve_flagged. Qed.

Local Hint Resolve addPart_flagged requireOpenTool_flagged : flagged.

Lemma accept_flagged b event :
  (is_output event = true → b = true) →
  flagged b (accept providerId modelId allowImages allowText event).
Proof.
  intros Hb. destruct event; simpl in *; try rewrite Hb by done;
    unfold accept_text, accept_image, accept_reasoning, accept_start, accept_delta,
      accept_end, accept_state, validateUsage, usage_entry, requireNonEmpty, set_tool;
    solve_flagged.
Qed.

Lemma complete_part_flagged b id : flagged b (complete_part providerId modelId parse_json id).
Proof. unfold complete_part, complete_tool, parseToolInput. solve_flagged. Qed.

Lemma complete_parts_flagged b ids :
  flagged b (complete_parts providerId modelId parse_json ids).
Proof.
  induction ids as [|id ids IH]; simpl; [apply flagged_ret|].
  apply flagged_bind; [apply complete_part_flagged|]. intros part.
  apply flagged_bind; [done|]. solve_flagged.
Qed.

Local Hint Resolve complete_parts_flagged : flagged.

Lemma flagged_get_bind {A} b (f : ProviderTurnAssembler → stM ProviderTurnAssembler thrown A) :
  (∀ a, as_outputObserved a = b → flagged b (f a)) → flagged b (getM ≫= f).
Proof. intros Hf a Ha. exact (Hf a Ha a Ha). Qed.

Lemma complete_flagged b : flagged b (complete providerId modelId parse_json).
Proof.
  apply flagged_get_bind. intros a <-. destruct (as_error a) as [error|]; [|solve_flagged].
  intros a' Ha'. split; [done|]. intros e [= <-]. eauto.
Qed.
End flagged.

(** * Runs of the consumer *)

Section runs.
Context (parse_json : jstr → option json) {R : Type} (options : ConsumeOptions R).
Local Abbreviation provider := (op_provider options).

Definition checkpoint_effects (event : ProviderEvent) : list turn_effect :=
  match op_checkpoint options with Some _ => [Checkpointed event] | None => [] end.

Definition observe_effects (event : ProviderEvent) : list turn_effect :=
  if op_observe options then Observed <$> option_list (observation event) else [].

(** What an event that is consumed does. *)
Definition event_effects (event : ProviderEvent) : list turn_effect :=
  Pulled event :: checkpoint_effects event ++ observe_effects event.

(** What an event that fails does. *)
Definition failed_effects (event : ProviderEvent) (effects : list turn_effect) : Prop :=
  effects = [Pulled event] ∨ effects = Pulled event :: checkpoint_effects event.

Lemma observeOutput_run event a :
  observeOutput event a =
  (with_outputObserved a (as_outputObserved a || is_output event), Ok tt).
Proof.
  unfold observeOutput. destruct (is_output event); simpl.
  - by rewrite orb_true_r.
  - rewrite orb_false_r. by destruct a.
Qed.

Lemma observed_assembled events a b : assembled events a → assembled events (with_outputObserved a b).
Proof. by intros []. Qed.

Lemma assembling_run {A} (m : stM ProviderTurnAssembler thrown A) c :
  assembling m c =
  ({| cn_assembler := (m (cn_assembler c)).1; cn_effects := cn_effects c |},
   (m (cn_assembler c)).2).
Proof. unfold assembling. by destruct (m (cn_assembler c)). Qed.

(** How far an event gets. *)
Definition event_run (terminal : bool) (event : ProviderEvent) (c c' : consumer)
    (r : result thrown bool) : Prop :=
  as_outputObserved (cn_assembler c') =
    (as_outputObserved (cn_assembler c) || is_output event)%bool ∧
  match r with
  | Ok t => terminal = false ∧ t = is_terminal_event event ∧
      cn_effects c' = cn_effects c ++ event_effects event ∧
      ∀ events, assembled events (cn_assembler c) →
        assembled (events ++ [event]) (cn_assembler c')
  | Throw e =>
      (∃ partial, cn_effects c' = cn_effects c ++ partial ∧ failed_effects event partial) ∧
      ((∃ d, e = ProviderStreamError d (as_outputObserved (cn_assembler c'))) ∨
       ∃ checkpoint effects, op_checkpoint options = Some checkpoint ∧
         checkpoint effects event = Some e)
  end.

Lemma bind_run {S E A B} (m : stM S E A) (f : A → stM S E B) s :
  (m ≫= f) s =
  match m s with (s', Ok a) => f a s' | (s', Throw e) => (s', Throw e) end.
Proof. done. Qed.

Lemma checkpoint_event_run event c :
  (checkpoint_event options event c =
     ({| cn_assembler := cn_assembler c;
         cn_effects := cn_effects c ++ checkpoint_effects event |}, Ok tt)) ∨
  ∃ checkpoint e, op_checkpoint options = Some checkpoint ∧
    checkpoint (cn_effects c) event = Some e ∧
    checkpoint_event options event c = (c, Throw e).
Proof.
  unfold checkpoint_event, checkpoint_effects.
  destruct (op_checkpoint options) as [checkpoint|] eqn:Hc.
  - rewrite bind_run. simpl. destruct (checkpoint (cn_effects c) event) as [e|] eqn:He;
      [|by left]. right. eauto.
  - left. rewrite app_nil_r. by destruct c.
Qed.

Lemma observe_event_run event c :
  observe_event options event c =
  ({| cn_assembler := cn_assembler c;
      cn_effects := cn_effects c ++ observe_effects event |}, Ok tt).
Proof.
  unfold observe_event, observe_effects. destruct (observation event), (op_observe options);
    simpl; rewrite ?app_nil_r; by destruct c.
Qed.

Lemma consume_event_run terminal event c :
  let '(c', r) := consume_event options terminal event c in event_run terminal event c c' r.
Proof.
  unfold consume_event. rewrite bind_run. simpl.
  rewrite bind_run, assembling_run, observeOutput_run. simpl.
  set (a1 := with_outputObserved _ _). rewrite bind_run. destruct terminal; simpl.
  { split; [done|]. split; [eexists; split; [done|by left]|]. left. by eexists. }
  rewrite bind_run. set (effects1 := cn_effects c ++ [Pulled event]).
  destruct (checkpoint_event_run event {| cn_assembler := a1; cn_effects := effects1 |})
    as [->|(checkpoint & e & Hc & He & ->)]; simpl in *.
  2: { split; [done|]. split; [eexists; split; [done|by left]|]. right. eauto. }
  rewrite bind_run, assembling_run. simpl.
  pose proof (accept_flagged (pa_providerId provider) (pa_modelId provider)
    (allow_images options) (allow_text options) (as_outputObserved a1) event) as Hflag.
  destruct (Hflag ltac:(intros Ho; simpl; by rewrite Ho, orb_true_r) a1 eq_refl) as [Ha2 He2].
  pose proof (λ events, accept_assembled (pa_providerId provider) (pa_modelId provider)
    (allow_images options) (allow_text options) events event a1) as Hasm.
  assert (effects1 ++ checkpoint_effects event =
    cn_effects c ++ Pulled event :: checkpoint_effects event) as Heff
    by (unfold effects1; by rewrite <-app_assoc).
  destruct (accept _ _ _ _ event a1) as [a2 [[]|e]]; simpl in *.
  - rewrite bind_run, observe_event_run. simpl. split; [done|]. split; [done|].
    split; [by rewrite orb_false_r|]. split; [by rewrite Heff, <-app_assoc|].
    intros events Ha. apply Hasm; [done|]. by apply observed_assembled.
  - split; [done|]. split; [by eexists; split; [exact Heff|right]|]. left.
    destruct (He2 e eq_refl) as [d ->]. exists d. simpl. congruence.
Qed.

(** A stream has at most one terminal event, the last. *)
Fixpoint ends_well (terminal : bool) (events : list ProviderEvent) : Prop :=
  match events with
  | [] => True
  | event :: events => terminal = false ∧ ends_well (is_terminal_event event) events
  end.

(** How far a list of events gets: the events consumed, and the one that failed. *)
Definition events_run (terminal : bool) (events : list ProviderEvent) (c c' : consumer)
    (r : result thrown unit) : Prop :=
  match r with
  | Ok _ => ends_well terminal events ∧
      cn_effects c' = cn_effects c ++ (events ≫= event_effects) ∧
      as_outputObserved (cn_assembler c') =
        (as_outputObserved (cn_assembler c) || existsb is_output events)%bool ∧
      ∀ earlier, assembled earlier (cn_assembler c) →
        assembled (earlier ++ events) (cn_assembler c')
  | Throw e => ∃ done event rest partial,
      events = done ++ event :: rest ∧
      cn_effects c' = cn_effects c ++ (done ≫= event_effects) ++ partial ∧
      failed_effects event partial ∧
      as_outputObserved (cn_assembler c') =
        (as_outputObserved (cn_assembler c) || existsb is_output (done ++ [event]))%bool ∧
      ((∃ d, e = ProviderStreamError d (as_outputObserved (cn_assembler c'))) ∨
       ∃ checkpoint effects, op_checkpoint options = Some checkpoint ∧
         checkpoint effects event = Some e)
  end.

Lemma consume_events_run terminal events c :
  let '(c', r) := consume_events options terminal events c in
  events_run terminal events c c' r.
Proof.
  revert terminal c. induction events as [|event events IH]; intros terminal c.
  { simpl. rewrite !app_nil_r, orb_false_r. split; [done|]. split; [done|]. split; [done|].
    intros earlier Ha. by rewrite app_nil_r. }
  simpl. rewrite bind_run. pose proof (consume_event_run terminal event c) as Hev.
  destruct (consume_event options terminal event c) as [c1 [t|e]].
  - destruct Hev as (Ho1 & -> & -> & He1 & Ha1). specialize (IH (is_terminal_event event) c1).
    destruct (consume_events options (is_terminal_event event) events c1) as [c2 [[]|e]]; simpl in *.
    + destruct IH as (Hw & He2 & Ho2 & Ha2). split; [done|].
      split; [by rewrite He2, He1, <-app_assoc|]. split; [by rewrite Ho2, Ho1, orb_assoc|].
      intros earlier Ha. apply Ha1, Ha2 in Ha. by rewrite <-app_assoc in Ha.
    + destruct IH as (done_ & ev & rest & partial & -> & He2 & Hp & Ho2 & Ht).
      exists (event :: done_), ev, rest, partial. split; [done|].
      split; [by rewrite bind_cons, He2, He1, <-!app_assoc|]. split; [done|].
      split; [simpl; by rewrite Ho2, Ho1, orb_assoc|done].
  - destruct Hev as (Ho & (partial & He & Hp) & Ht).
    exists [], event, events, partial. simpl. rewrite orb_false_r. done.
Qed.

(** * The stream as a whole *)

Definition own_flag (e : thrown) : bool :=
  match e with ProviderStreamError _ b => b | OtherError _ => false end.

Lemma stream_error_shape o e :
  ∃ d, stream_error options o e = ProviderStreamError d (o || own_flag e).
Proof.
  destruct e as [d [] |m], o; simpl; eauto.
Qed.

Definition pulled (effects : list turn_effect) : list ProviderEvent :=
  omap (fun e => match e with Pulled event => Some event | _ => None end) effects.

Lemma pulled_checkpoint event : pulled (checkpoint_effects event) = [].
Proof. unfold checkpoint_effects. by destruct (op_checkpoint options). Qed.

Lemma pulled_observe event : pulled (observe_effects event) = [].
Proof. unfold observe_effects. by destruct (op_observe options), (observation event). Qed.

Lemma pulled_app l1 l2 : pulled (l1 ++ l2) = pulled l1 ++ pulled l2.
Proof. apply omap_app. Qed.

Lemma pulled_events events : pulled (events ≫= event_effects) = events.
Proof.
  induction events as [|event events IH]; [done|].
  rewrite bind_cons, pulled_app, IH. unfold event_effects.
  change (Pulled event :: checkpoint_effects event ++ observe_effects event) with
    ([Pulled event] ++ checkpoint_effects event ++ observe_effects event).
  by rewrite !pulled_app, pulled_checkpoint, pulled_observe.
Qed.

Lemma pulled_failed event partial : failed_effects event partial → pulled partial = [event].
Proof.
  intros [-> | ->]; [done|]. change (Pulled event :: checkpoint_effects event) with
    ([Pulled event] ++ checkpoint_effects event).
  by rewrite pulled_app, pulled_checkpoint.
Qed.

(** The effects of consuming the events [done], and then of failing at [last]. *)
Definition effects_of (done : list ProviderEvent) (last : option ProviderEvent)
    (effects : list turn_effect) : Prop :=
  ∃ partial, effects = (done ≫= event_effects) ++ partial ∧
    match last with None => partial = [] | Some event => failed_effects event partial end.

(** An error the adapter or the checkpoint threw with its own [outputObserved]. *)
Definition thrown_from_outside (e : thrown) : Prop :=
  (pa_stream provider (op_request options)).2 = Some e ∨
  ∃ checkpoint effects event, op_checkpoint options = Some checkpoint ∧
    checkpoint effects event = Some e.

Definition initial_consumer : consumer :=
  {| cn_assembler := new_assembler; cn_effects := [] |}.

(** The outcome of the [try] block. *)
Definition stream_outcome (c : consumer) (r : result thrown unit) : Prop :=
  let '(events, end_) := pa_stream provider (op_request options) in
  ∃ done last, done ++ option_list last `prefix_of` events ∧
    effects_of done last (cn_effects c) ∧
    as_outputObserved (cn_assembler c) = existsb is_output (pulled (cn_effects c)) ∧
    match r with
    | Ok _ => end_ = None ∧ last = None ∧ done = events ∧ ends_well false events ∧
        assembled events (cn_assembler c)
    | Throw e => ∃ d o, e = ProviderStreamError d o ∧
        (existsb is_output (pulled (cn_effects c)) = true → o = true) ∧
        (o = true → existsb is_output (pulled (cn_effects c)) = true ∨
           ∃ e', thrown_from_outside e' ∧ own_flag e' = true)
    end.

Lemma thrown_flag (observed : bool) e :
  (own_flag e = true → observed = true ∨ ∃ e', thrown_from_outside e' ∧ own_flag e' = true) →
  ∃ d o, stream_error options observed e = ProviderStreamError d o ∧
    (observed = true → o = true) ∧
    (o = true → observed = true ∨ ∃ e', thrown_from_outside e' ∧ own_flag e' = true).
Proof.
  intros He. destruct (stream_error_shape observed e) as [d ->].
  eexists _, _. split; [done|]. split; [by intros ->|]. intros [?|?]%orb_prop; eauto.
Qed.

Lemma consume_stream_run :
  let '(c, r) := consume_stream options initial_consumer in stream_outcome c r.
Proof.
  unfold consume_stream, stream_outcome.
  destruct (pa_stream provider (op_request options)) as [events end_] eqn:Hstream.
  rewrite bind_run. pose proof (consume_events_run false events initial_consumer) as Hrun.
  destruct (consume_events options false events initial_consumer) as [c [[]|e]].
  - destruct Hrun as (Hw & He & Ho & Ha). simpl in He, Ho.
    assert (effects_of events None (cn_effects c)) as Heff
      by (exists []; by rewrite app_nil_r).
    assert (events ++ option_list None `prefix_of` events) as Hpre by (simpl; by rewrite app_nil_r).
    rewrite <-(pulled_events events), <-He in Ho.
    destruct end_ as [e|]; simpl.
    + exists events, None. split; [done|]. split; [done|]. split; [done|].
      rewrite <-Ho. apply thrown_flag. intros Hown. right. exists e. split; [|done].
      left. by rewrite Hstream.
    + exists events, None. split_and!; try done. exact (Ha [] new_assembled).
  - destruct Hrun as (done_ & event & rest & partial & -> & He & Hp & Ho & Ht).
    simpl in He, Ho |- *.
    assert (pulled (cn_effects c) = done_ ++ [event]) as Hpulled
      by by rewrite He, pulled_app, pulled_events, (pulled_failed event).
    rewrite <-Hpulled in Ho. exists done_, (Some event).
    split; [exists rest; simpl; by rewrite <-app_assoc|]. split; [by exists partial|].
    split; [done|]. rewrite <-Ho. apply thrown_flag. intros Hown.
    destruct Ht as [[d ->]|(checkpoint & effects & Hc & Hce)]; [by left|].
    right. exists e. split; [|done]. right. eauto.
Qed.

Lemma complete_run c :
  let '(c', r) := assembling (complete (pa_providerId provider) (pa_modelId provider)
    parse_json) c in
  cn_effects c' = cn_effects c ∧
  match r with
  | Ok response => ∀ events, assembled events (cn_assembler c) →
      responds parse_json events response
  | Throw e => ∃ d, e = ProviderStreamError d (as_outputObserved (cn_assembler c))
  end.
Proof.
  rewrite assembling_run. destruct (complete_flagged (pa_providerId provider)
    (pa_modelId provider) parse_json _ (cn_assembler c) eq_refl) as [_ He].
  destruct (complete _ _ _ (cn_assembler c)) as [a [response|e]] eqn:E; simpl in *; [|eauto].
  split; [done|]. intros events Ha. by eapply complete_Ok in E as [_ ?].
Qed.

(** The outcome of a turn. *)
Definition turn_outcome (c : consumer) (r : result thrown ProviderResponseCandidate) : Prop :=
  let '(events, end_) := pa_stream provider (op_request options) in
  ∃ done last, done ++ option_list last `prefix_of` events ∧
    effects_of done last (cn_effects c) ∧
    match r with
    | Ok response => end_ = None ∧ last = None ∧ done = events ∧
        ends_well false events ∧ responds parse_json events response
    | Throw e => ∃ d o, e = ProviderStreamError d o ∧
        (existsb is_output (pulled (cn_effects c)) = true → o = true) ∧
        (o = true → existsb is_output (pulled (cn_effects c)) = true ∨
           ∃ e', thrown_from_outside e' ∧ own_flag e' = true)
    end.

Lemma consume_turn_run :
  let '(c, r) := consumeProviderStream parse_json options in turn_outcome c r.
Proof.
  unfold consumeProviderStream, consume_turn. rewrite bind_run.
  destruct (unsupported_output options) eqn:Hu.
  { simpl. unfold turn_outcome. destruct (pa_stream provider (op_request options)) as [events end_].
    exists [], None. split; [apply prefix_nil|]. split; [by exists []|]. by eexists _, _. }
  simpl. rewrite bind_run. pose proof consume_stream_run as Hrun. unfold initial_consumer in Hrun.
  destruct (consume_stream options _) as [c [[]|e]]; unfold stream_outcome, turn_outcome in *;
    destruct (pa_stream provider (op_request options)) as [events end_].
  - destruct Hrun as (done_ & last_ & Hpre & Heff & Ho & -> & -> & -> & Hw & Ha).
    pose proof (complete_run c) as Hc. destruct (assembling _ c) as [c' [response|e]];
      destruct Hc as [Heq Hr]; exists events, None; rewrite Heq; split_and!; try done.
    + by apply Hr.
    + destruct Hr as [d ->]. rewrite Ho. eexists _, _. split; [done|]. eauto.
  - destruct Hrun as (done_ & last_ & Hpre & Heff & _ & Ht). by exists done_, last_.
Qed.
End runs.

(** * Properties *)

Lemma ends_well_finish events f :
  ends_well false events → omap error_of events = [] → Some f = last (omap finish_of events) →
  ∃ body, events = body ++ [FinishEvent f] ∧
    Forall (fun event => is_terminal_event event = false) body.
Proof.
  induction events as [|event events IH]; simpl; [done|]. intros [_ Hw] He Hf.
  destruct (is_terminal_event event) eqn:Ht.
  - destruct events; [|by destruct Hw]. destruct event; try discriminate.
    injection Hf as ->. by exists [].
  - destruct IH as (body & -> & Hb); [done|by destruct event|by destruct event|].
    exists (event :: body). split; [done|]. by constructor.
Qed.

Lemma consume_responds parse_json {R} (options : ConsumeOptions R) c r :
  consumeProviderStream parse_json options = (c, Ok r) →
  ∃ events, ends_well false events ∧
    pa_stream (op_provider options) (op_request options) = (events, None) ∧
    responds parse_json events r.
Proof.
  intros H. pose proof (consume_turn_run parse_json options) as Hrun. rewrite H in Hrun.
  unfold turn_outcome in Hrun. destruct (pa_stream _ _) as [events end_].
  destruct Hrun as (done_ & last_ & _ & _ & -> & _ & _ & Hw & Hr). by exists events.
Qed.

Lemma valid_image image :
  validateImageOutput image = Ok tt →
  (0 < byteLength (im_bytes image) <= IMAGE_BYTES)%Z ∧ 0 < length (im_partId image) ≤ 128 ∧
  image_matches (im_mimeType image) (im_bytes image) = true.
Proof.
  unfold validateImageOutput. intros H. inv_result.
  repeat match goal with
  | H : _ || _ = false |- _ => apply orb_false_elim in H as [? ?]
  | H : bool_decide _ = false |- _ => apply bool_decide_eq_false in H
  | H : negb _ = false |- _ => apply negb_false_iff in H
  end.
  unfold byteLength in *. split; [lia|]. split; [lia|done].
Qed.

(** A turn that returns has read its whole stream: events none of which ends the
    turn, then one finish event, after which the stream ended.  The response says
    what these events said and nothing else: a part for each identifier, in the order
    of first appearance, whose text is the concatenation of the identifier's deltas,
    whose visibility is the last one given, whose tool call has the name and the
    parsed input its deltas spell; all states, the last usage, and the finish reason
    tool_calls exactly when a tool call started (C17). *)
Theorem consumeProviderStream_responds parse_json {R} (options : ConsumeOptions R) c r :
  consumeProviderStream parse_json options = (c, Ok r) →
  ∃ body, pa_stream (op_provider options) (op_request options) =
      (body ++ [FinishEvent (rc_finish r)], None) ∧
    Forall (fun event => is_terminal_event event = false) body ∧
    responds parse_json (body ++ [FinishEvent (rc_finish r)]) r.
Proof.
  intros (events & Hw & Hs & Hr)%consume_responds.
  destruct (ends_well_finish events (rc_finish r) Hw (resp_error _ _ _ Hr)
    (resp_finish _ _ _ Hr)) as (body & -> & Hb).
  by exists body.
Qed.

(** The images of a response are valid images, at most 16, of at most 50 MiB
    together. *)
Theorem consumeProviderStream_images parse_json {R} (options : ConsumeOptions R) c r :
  consumeProviderStream parse_json options = (c, Ok r) →
  ∃ images, filter (fun part => is_image part) (rc_parts r) = image_candidate <$> images ∧
    (Z.of_nat (length images) <= 16)%Z ∧
    (zsum ((fun image => byteLength (im_bytes image)) <$> images) <= 50 * 1024 * 1024)%Z ∧
    Forall (fun image => (0 < byteLength (im_bytes image) <= 25 * 1024 * 1024)%Z ∧
      0 < length (im_partId image) ≤ 128 ∧
      image_matches (im_mimeType image) (im_bytes image) = true) images.
Proof.
  intros H. apply consume_responds in H as (events & _ & _ & Hr).
  exists (omap image_of events). split; [apply (resp_images _ _ _ Hr)|].
  split; [apply (resp_count _ _ _ Hr)|]. split; [apply (resp_total _ _ _ Hr)|].
  eapply Forall_impl; [apply (resp_valid _ _ _ Hr)|]. intros image. apply valid_image.
Qed.

Lemma app_nil_inv_l {A} (l k : list A) : l = l ++ k → k = [].
Proof. intros H. apply (app_inv_head l). by rewrite app_nil_r. Qed.

(** Without images allowed, no image event is accepted. *)
Lemma accept_no_image providerId modelId allowText event a a' u :
  accept providerId modelId false allowText event a = (a', Ok u) → image_of event = None.
Proof. by destruct event. Qed.

Lemma consume_events_no_image {R} (options : ConsumeOptions R) terminal events c c' u :
  allow_images options = false →
  consume_events options terminal events c = (c', Ok u) → omap image_of events = [].
Proof.
  intros Hno. revert terminal c. induction events as [|event events IH]; intros terminal c; [done|].
  simpl. intros (c1 & t & Hev & Hrest)%stM_bind_Ok.
  apply IH in Hrest. cut (image_of event = None); [intros Hi; by rewrite Hi|].
  unfold consume_event in Hev.
  apply stM_bind_Ok in Hev as (? & ? & _ & Hev). apply stM_bind_Ok in Hev as (? & ? & _ & Hev).
  apply stM_bind_Ok in Hev as (? & ? & _ & Hev). apply stM_bind_Ok in Hev as (? & ? & _ & Hev).
  apply stM_bind_Ok in Hev as (c2 & ? & Hacc & _). rewrite assembling_run, Hno in Hacc.
  destruct (accept _ _ _ _ event _) as [a [v|e]] eqn:E; [|discriminate Hacc].
  by apply accept_no_image in E.
Qed.

(** Whatever happens, what a turn does to the outside is: for each event it consumes,
    take it from the stream, then checkpoint it, then report it; and if it fails, take
    and possibly checkpoint one more event, without reporting it.  An event is never
    reported that was not checkpointed before, and nothing is taken after a failure
    (C18). *)
Theorem consumeProviderStream_effects parse_json {R} (options : ConsumeOptions R) :
  let '(c, r) := consumeProviderStream parse_json options in
  ∃ done last rest, (pa_stream (op_provider options) (op_request options)).1 =
      done ++ option_list last ++ rest ∧
    effects_of options done last (cn_effects c) ∧
    (∀ response, r = Ok response → last = None ∧ rest = []).
Proof.
  pose proof (consume_turn_run parse_json options) as Hrun.
  destruct (consumeProviderStream parse_json options) as [c r]. unfold turn_outcome in Hrun.
  destruct (pa_stream _ _) as [events end_].
  destruct Hrun as (done_ & last_ & [rest Hpre] & Heff & Hr).
  exists done_, last_, rest. split; [by rewrite app_assoc|]. split; [done|].
  intros response ->. destruct Hr as (_ & -> & -> & _).
  split; [done|]. simpl in Hpre. rewrite app_nil_r in Hpre. by eapply app_nil_inv_l.
Qed.

(** A turn only throws stream errors, and their [outputObserved] flag is set exactly
    when output was received: when an output event was taken from the stream, even one
    that was then rejected; or when the adapter or the checkpoint itself threw an
    error flagged so. *)
Theorem consumeProviderStream_outputObserved parse_json {R} (options : ConsumeOptions R) c e :
  consumeProviderStream parse_json options = (c, Throw e) →
  ∃ detail outputObserved, e = ProviderStreamError detail outputObserved ∧
    (existsb is_output (pulled (cn_effects c)) = true → outputObserved = true) ∧
    (outputObserved = true → existsb is_output (pulled (cn_effects c)) = true ∨
      ∃ e', thrown_from_outside options e' ∧ own_flag e' = true).
Proof.
  intros H. pose proof (consume_turn_run parse_json options) as Hrun. rewrite H in Hrun.
  unfold turn_outcome in Hrun. destruct (pa_stream _ _) as [events end_].
  by destruct Hrun as (done_ & last_ & _ & _ & Hr).
Qed.

Lemma text_no_image parse_json {R} (options : ConsumeOptions R) c r part :
  consumeProviderStream parse_json (text_request options) = (c, Ok r) →
  part ∈ rc_parts r → is_image part = false.
Proof.
  intros H Hin. apply consume_responds in H as Hr. destruct Hr as (events & _ & Hs & Hr).
  assert (omap image_of events = []) as Hnil.
  { unfold consumeProviderStream, consume_turn in H. apply stM_bind_Ok in H as (c1 & ? & _ & H).
    apply stM_bind_Ok in H as (c2 & ? & H & _). unfold consume_stream in H.
    rewrite Hs in H. rewrite bind_run in H.
    destruct (consume_events _ false events c1) as [c3 [v|e]] eqn:E; [|discriminate H].
    by eapply consume_events_no_image in E. }
  pose proof (resp_images _ _ _ Hr) as Himg. rewrite Hnil in Himg.
  destruct (is_image part) eqn:E; [|done].
  assert (part ∈ filter (fun part => is_image part) (rc_parts r)) as Hf
    by (apply list_elem_of_filter; split; [by rewrite E|done]).
  rewrite Himg in Hf. by apply elem_of_nil in Hf.
Qed.

(** The text-only consumer's last check never fires: it throws only stream errors, and
    what it returns has no image. *)
Theorem consumeTextProviderStream_no_image parse_json {R} (options : ConsumeOptions R) :
  match (consumeTextProviderStream parse_json options).2 with
  | Ok r => Forall (fun part => is_image part = false) (rc_parts r)
  | Throw e => ∃ detail outputObserved, e = ProviderStreamError detail outputObserved
  end.
Proof.
  unfold consumeTextProviderStream. destruct (existsb _ _); [by eexists _, _|].
  pose proof (consume_turn_run parse_json (text_request options)) as Hrun.
  destruct (consumeProviderStream parse_json (text_request options)) as [c [r|e]] eqn:E; simpl.
  - assert (∀ part, part ∈ rc_parts r → is_image part = false) as Hno by (intros part Hin; by eapply text_no_image).
    destruct (existsb is_image (rc_parts r)) eqn:Hex; [|by apply Forall_forall].
    apply existsb_exists in Hex as (part & Hin%list_elem_of_In & Him).
    rewrite Hno in Him; done.
  - unfold turn_outcome in Hrun. destruct (pa_stream _ _) as [events end_].
    destruct Hrun as (_ & _ & _ & _ & d & o & -> & _). eauto.
Qed.

(** * Text streams *)

Definition text_stream (body : list (jstr * jstr)) : list ProviderEvent :=
  (fun p => TextDelta p.1 p.2) <$> body.

Definition text_of_part (body : list (jstr * jstr)) (id : jstr) : jstr :=
  concat (omap (text_event id) (text_stream body)).

Lemma text_stream_keys body : omap part_key (text_stream body) = (fun p => (p.1, KindText)) <$> body.
Proof. induction body as [|p body IH]; [done|]. simpl. by f_equal. Qed.

Lemma text_stream_none {X} (f : ProviderEvent → option X) body :
  (∀ id delta, f (TextDelta id delta) = None) → omap f (text_stream body) = [].
Proof. intros Hf. induction body as [|p body IH]; [done|]. simpl. by rewrite Hf. Qed.

Lemma runs_bind {S E A B} (m : stM S E A) (f : A → stM S E B) s s1 x y :
  m s = (s1, Ok x) → (∃ s', f x s1 = (s', Ok y)) → ∃ s', (m ≫= f) s = (s', Ok y).
Proof. intros Hm [s' Hf]. exists s'. apply stM_bind_Ok. eauto. Qed.

Lemma runs_bind_ex {S E A B} (m : stM S E A) (f : A → stM S E B) s x y :
  (∃ s1, m s = (s1, Ok x)) → (∀ s1, ∃ s', f x s1 = (s', Ok y)) → ∃ s', (m ≫= f) s = (s', Ok y).
Proof. intros [s1 Hm] Hf. by eapply runs_bind. Qed.

Section text.
Context (parse_json : jstr → option json) {R : Type} (options : ConsumeOptions R).
Local Abbreviation provider := (op_provider options).
Context (Hallow : allow_text options = true).
Context (Hcheckpoint : ∀ checkpoint effects event,
  op_checkpoint options = Some checkpoint → checkpoint effects event = None).

Lemma text_kinds body a id k :
  assembled (text_stream body) a → jget id (as_partKinds a) = Some k → k = KindText.
Proof.
  intros Ha Hk. rewrite (parts_kinds _ _ _ (asm_parts _ _ Ha)) in Hk.
  apply kind_event_Some in Hk. rewrite text_stream_keys in Hk.
  by apply list_elem_of_fmap in Hk as (p & [= -> ->] & _).
Qed.

Lemma text_images body a : assembled (text_stream body) a → as_images a = [].
Proof. intros Ha. by rewrite (asm_images _ _ Ha), text_stream_none. Qed.

Lemma accept_text_runs body a id delta :
  assembled (text_stream body) a → id ≠ [] → delta ≠ [] →
  ∃ a', accept_text (pa_providerId provider) (pa_modelId provider) true id delta a = (a', Ok tt).
Proof.
  intros Ha Hid Hdelta. unfold accept_text, requireNonEmpty, addPart.
  pose proof (text_kinds body a id) as Hk. pose proof (text_images body a Ha) as Hi.
  assert (∀ c message, c = false → fail_if (pa_providerId provider) (pa_modelId provider)
    c message a = (a, Ok tt)) as Hpass by (by intros c message ->).
  eapply runs_bind; [by apply Hpass|].
  eapply runs_bind; [by apply Hpass, bool_decide_eq_false_2|].
  eapply runs_bind_ex.
  - eapply runs_bind; [by apply Hpass, bool_decide_eq_false_2|].
    eapply runs_bind; [done|]. eapply runs_bind; [apply Hpass|].
    { destruct (jget id (as_partKinds a)) as [k|] eqn:E; [|done]. rewrite (Hk k); [|done..].
      apply bool_decide_eq_false_2. by intros Hne; apply Hne. }
    eapply runs_bind; [apply Hpass; by rewrite Hi, andb_false_r|].
    by destruct (jget id (as_partKinds a)); eexists.
  - intros a1. by eexists.
Qed.

Lemma consume_event_runs terminal event c c1 a' :
  terminal = false →
  checkpoint_event options event {| cn_assembler :=
      with_outputObserved (cn_assembler c) (as_outputObserved (cn_assembler c) || is_output event);
    cn_effects := cn_effects c ++ [Pulled event] |} = (c1, Ok tt) →
  accept (pa_providerId provider) (pa_modelId provider) (allow_images options)
    (allow_text options) event (cn_assembler c1) = (a', Ok tt) →
  ∃ c', consume_event options terminal event c = (c', Ok (is_terminal_event event || terminal)).
Proof.
  intros -> Hc Hacc. unfold consume_event. rewrite bind_run. simpl.
  rewrite bind_run, assembling_run, observeOutput_run. simpl. rewrite bind_run. simpl.
  rewrite bind_run, Hc, bind_run, assembling_run, Hacc. simpl.
  rewrite bind_run, observe_event_run. simpl. by eexists.
Qed.

Lemma checkpoint_runs event c :
  ∃ c', checkpoint_event options event c = (c', Ok tt) ∧ cn_assembler c' = cn_assembler c.
Proof.
  destruct (checkpoint_event_run options event c) as [->|(checkpoint & e & Hc & He & _)];
    [by eexists|]. by rewrite (Hcheckpoint _ _ _ Hc) in He.
Qed.

Lemma consume_text_runs earlier body c :
  assembled (text_stream earlier) (cn_assembler c) →
  Forall (fun p => p.1 ≠ [] ∧ p.2 ≠ []) body →
  ∀ rest, ∃ c', consume_events options false (text_stream body ++ rest) c =
    consume_events options false rest c' ∧
    assembled (text_stream (earlier ++ body)) (cn_assembler c').
Proof.
  intros Ha Hbody rest. revert earlier c Ha.
  induction Hbody as [|[id delta] body [Hid Hdelta] _ IH]; intros earlier c Ha.
  { exists c. by rewrite app_nil_r. }
  destruct (checkpoint_runs (TextDelta id delta) {| cn_assembler :=
      with_outputObserved (cn_assembler c) (as_outputObserved (cn_assembler c) || true);
    cn_effects := cn_effects c ++ [Pulled (TextDelta id delta)] |}) as (c1 & Hc1 & Hca).
  destruct (accept_text_runs earlier (cn_assembler c1) id delta) as [a' Hacc]; [|done..|].
  { rewrite Hca. by apply observed_assembled. }
  destruct (consume_event_runs false (TextDelta id delta) c c1 a') as [c2 Hc2];
    [done|exact Hc1|simpl; by rewrite Hallow|].
  pose proof (consume_event_run options false (TextDelta id delta) c) as Hrun.
  rewrite Hc2 in Hrun. destruct Hrun as (_ & _ & _ & _ & Ha2). apply Ha2 in Ha.
  destruct (IH (earlier ++ [(id, delta)]) c2) as (c' & Hc' & Ha').
  { unfold text_stream. by rewrite fmap_app. }
  exists c'. simpl. rewrite bind_run, Hc2. simpl. split; [exact Hc'|].
  by rewrite <-app_assoc in Ha'.
Qed.

(** The response to a text stream. *)
Definition text_response (body : list (jstr * jstr)) (f : ProviderFinishEvent)
    : ProviderResponseCandidate := {|
  rc_parts := (fun id => TextPart id (text_of_part body id)) <$> first_seen body.*1;
  rc_providerState := []; rc_usage := None; rc_finish := f |}.

Lemma omap_text_finish {X} (g : ProviderEvent → option X) body f :
  g (FinishEvent f) = None →
  omap g (text_stream body ++ [FinishEvent f]) = omap g (text_stream body).
Proof. intros Hg. by rewrite omap_snoc, Hg, app_nil_r. Qed.

Lemma text_part_ids body f :
  part_ids (text_stream body ++ [FinishEvent f]) = first_seen body.*1.
Proof.
  unfold part_ids. rewrite omap_text_finish, text_stream_keys by done.
  by rewrite <-list_fmap_compose.
Qed.

Lemma text_event_some body id : id ∈ body.*1 → omap (text_event id) (text_stream body) ≠ [].
Proof.
  intros ([id' delta] & -> & Hin)%list_elem_of_fmap Hnil. simpl in Hnil.
  assert (delta ∈ omap (text_event id') (text_stream body)) as Hd.
  { apply list_elem_of_omap. exists (TextDelta id' delta). simpl. rewrite decide_True by done.
    split; [|done]. apply list_elem_of_fmap. by exists (id', delta). }
  rewrite Hnil in Hd. by apply elem_of_nil in Hd.
Qed.

Lemma complete_text_part body f a id :
  assembled (text_stream body ++ [FinishEvent f]) a → id ∈ body.*1 →
  complete_part (pa_providerId provider) (pa_modelId provider) parse_json id a =
  (a, Ok (TextPart id (text_of_part body id))).
Proof.
  intros Ha Hin. unfold complete_part. rewrite bind_run. simpl.
  rewrite (asm_images _ _ Ha), omap_text_finish, text_stream_none by done. simpl.
  rewrite decide_False.
  - rewrite (asm_text _ _ Ha). unfold collected, text_of_part.
    rewrite omap_text_finish by done. pose proof (text_event_some body id Hin).
    by destruct (omap (text_event id) (text_stream body)).
  - rewrite (parts_kinds _ _ _ (asm_parts _ _ Ha)). intros Hk%kind_event_Some.
    rewrite omap_text_finish, text_stream_keys in Hk by done.
    by apply list_elem_of_fmap in Hk as (p & [= ?] & _).
Qed.

Lemma complete_text_parts body f a ids :
  assembled (text_stream body ++ [FinishEvent f]) a → ids ⊆ body.*1 →
  complete_parts (pa_providerId provider) (pa_modelId provider) parse_json ids a =
  (a, Ok ((fun id => TextPart id (text_of_part body id)) <$> ids)).
Proof.
  intros Ha. induction ids as [|id ids IH]; intros Hids; [done|]. simpl.
  rewrite bind_run, (complete_text_part body f) by (done || set_solver).
  rewrite bind_run, IH by set_solver. done.
Qed.

Lemma complete_text body f a :
  assembled (text_stream body ++ [FinishEvent f]) a → fi_reason f ≠ FinishToolCalls →
  complete (pa_providerId provider) (pa_modelId provider) parse_json a =
  (a, Ok (text_response body f)).
Proof.
  intros Ha Hf. unfold complete. rewrite bind_run. simpl.
  rewrite (asm_error _ _ Ha), (omap_text_finish error_of), (text_stream_none error_of) by done.
  rewrite (asm_finish _ _ Ha), omap_snoc, (text_stream_none finish_of) by done. simpl.
  rewrite (asm_images _ _ Ha), (omap_text_finish image_of), (text_stream_none image_of) by done.
  rewrite bind_run. simpl.
  rewrite bind_run, (parts_order _ _ _ (asm_parts _ _ Ha)), text_part_ids.
  rewrite (complete_text_parts body f); [|done|intros id; by rewrite elem_of_first_seen].
  rewrite bool_decide_eq_false_2 by done.
  assert (existsb is_tool_call
    ((fun id => TextPart id (text_of_part body id)) <$> first_seen body.*1) = false) as ->
    by (generalize (first_seen body.*1) as l; induction l as [|id l IH]; [done|exact IH]).
  rewrite bind_run. simpl. unfold text_response.
  rewrite (asm_states _ _ Ha), (asm_usage _ _ Ha), !omap_text_finish, !text_stream_none by done.
  done.
Qed.

(** A stream of non-empty text deltas that finishes for another reason than tool calls
    is never rejected, if the checkpoints resolve: the response is the text of each part
    in the order the parts first appeared. *)
Theorem consumeProviderStream_text body f :
  unsupported_output options = false →
  pa_stream provider (op_request options) = (text_stream body ++ [FinishEvent f], None) →
  Forall (fun p => p.1 ≠ [] ∧ p.2 ≠ []) body → fi_reason f ≠ FinishToolCalls →
  (consumeProviderStream parse_json options).2 = Ok (text_response body f).
Proof.
  intros Hu Hs Hbody Hf. unfold consumeProviderStream, consume_turn. rewrite bind_run, Hu.
  simpl. rewrite bind_run. unfold consume_stream. rewrite Hs, bind_run.
  set (c := {| cn_assembler := new_assembler; cn_effects := [] |}).
  destruct (consume_text_runs [] body c new_assembled Hbody [FinishEvent f])
    as (c1 & -> & Ha1). simpl in Ha1.
  destruct (checkpoint_runs (FinishEvent f) {| cn_assembler :=
      with_outputObserved (cn_assembler c1) (as_outputObserved (cn_assembler c1) || false);
    cn_effects := cn_effects c1 ++ [Pulled (FinishEvent f)] |}) as (c2 & Hc2 & _).
  destruct (consume_event_runs false (FinishEvent f) c1 c2 _ eq_refl Hc2 eq_refl) as [c3 Hc3].
  pose proof (consume_event_run options false (FinishEvent f) c1) as Hrun.
  simpl. rewrite bind_run. rewrite Hc3 in *. simpl.
  destruct Hrun as (_ & _ & _ & _ & Ha3). apply Ha3 in Ha1.
  by rewrite assembling_run, (complete_text body f).
Qed.
End text.

(** * Examples *)

Definition sample_parse (s : jstr) : option json :=
  if decide (s = js "{}") then Some (JObj []) else None.

Definition sample_jpeg : ProviderImageOutputEvent :=
  {| im_partId := js "i"; im_mimeType := js "image/jpeg"; im_bytes := [255; 216; 255; 0]%N |}.

Definition finish_with (reason : FinishReason) : ProviderFinishEvent :=
  {| fi_reason := reason; fi_rawReason := None |}.

(** Text, a tool call and an image. *)
Definition sample_events : list ProviderEvent :=
  [TextDelta (js "t") (js "he"); TextDelta (js "t") (js "llo");
   ToolCallStart 7 (js "c"); ToolCallDelta (js "c") (Some (js "look")) (Some (js "{"));
   ToolCallDelta (js "c") (Some (js "up")) (Some (js "}")); ToolCallEnd (js "c");
   ImageOutput sample_jpeg;
   UsageEvent [("inputTokens", UsageNumber (num_of_Z 3))];
   FinishEvent (finish_with FinishToolCalls)].

Definition sample_provider (stream : list ProviderEvent * option thrown)
    : ProviderAdapter unit := {|
  pa_providerId := js "p"; pa_outputModalities := [ModText; ModImage]; pa_modelId := js "m";
  pa_modelModalities := [ModText; ModImage]; pa_stream := fun _ => stream |}.

Definition sample_options (modalities : list ModelOutputModality)
    (stream : list ProviderEvent * option thrown) : ConsumeOptions unit := {|
  op_provider := sample_provider stream;
  op_request := {| rq_outputModalities := Some modalities; rq_rest := tt |};
  op_observe := true; op_checkpoint := Some (fun _ _ => None) |}.

Definition sample_turn : ConsumeOptions unit :=
  sample_options [ModText; ModImage] (sample_events, None).

Definition sample_consumer : consumer := (consumeProviderStream sample_parse sample_turn).1.

Definition sample_response : ProviderResponseCandidate := {|
  rc_parts := [TextPart (js "t") (js "hello");
    ToolCallPart (js "tool_call_7") (js "c") (js "lookup") [];
    ImageCandidate (js "i") (js "image/jpeg") [255; 216; 255; 0]%N];
  rc_providerState := [];
  rc_usage := Some [("inputTokens", UsageNumber (num_of_Z 3))];
  rc_finish := finish_with FinishToolCalls |}.

Lemma sample_run :
  consumeProviderStream sample_parse sample_turn = (sample_consumer, Ok sample_response).
Proof. vm_compute. reflexivity. Qed.

Lemma consumeProviderStream_responds_witness :
  ∃ body, pa_stream (op_provider sample_turn) (op_request sample_turn) =
      (body ++ [FinishEvent (rc_finish sample_response)], None) ∧
    Forall (fun event => is_terminal_event event = false) body ∧
    responds sample_parse (body ++ [FinishEvent (rc_finish sample_response)]) sample_response.
Proof. exact (consumeProviderStream_responds _ _ _ _ sample_run). Defined.

Lemma consumeProviderStream_images_witness :
  ∃ images, filter (fun part => is_image part) (rc_parts sample_response) =
      image_candidate <$> images ∧
    (Z.of_nat (length images) <= 16)%Z ∧
    (zsum ((fun image => byteLength (im_bytes image)) <$> images) <= 50 * 1024 * 1024)%Z ∧
    Forall (fun image => (0 < byteLength (im_bytes image) <= 25 * 1024 * 1024)%Z ∧
      0 < length (im_partId image) ≤ 128 ∧
      image_matches (im_mimeType image) (im_bytes image) = true) images.
Proof. exact (consumeProviderStream_images _ _ _ _ sample_run). Defined.

(** An image that is not what it says, received and then rejected. *)
Definition forged_turn : ConsumeOptions unit :=
  sample_options [ModText; ModImage]
    ([ImageOutput {| im_partId := js "i"; im_mimeType := js "image/png";
                     im_bytes := [1; 2; 3]%N |}], None).

Definition forged_consumer : consumer := (consumeProviderStream sample_parse forged_turn).1.
Definition forged_error : thrown :=
  match (consumeProviderStream sample_parse forged_turn).2 with
  | Throw e => e | Ok _ => OtherError [] end.

Lemma forged_run :
  consumeProviderStream sample_parse forged_turn = (forged_consumer, Throw forged_error).
Proof. vm_compute. reflexivity. Qed.

Lemma consumeProviderStream_outputObserved_witness :
  existsb is_output (pulled (cn_effects forged_consumer)) = true ∧
  ∃ detail outputObserved, forged_error = ProviderStreamError detail outputObserved ∧
    (existsb is_output (pulled (cn_effects forged_consumer)) = true → outputObserved = true) ∧
    (outputObserved = true → existsb is_output (pulled (cn_effects forged_consumer)) = true ∨
      ∃ e', thrown_from_outside forged_turn e' ∧ own_flag e' = true).
Proof.
  split; [vm_compute; reflexivity|].
  exact (consumeProviderStream_outputObserved _ _ _ _ forged_run).
Defined.

Definition sample_text : list (jstr * jstr) :=
  [(js "a", js "he"); (js "b", js "wor"); (js "a", js "llo"); (js "b", js "ld")].

Definition text_turn : ConsumeOptions unit :=
  sample_options [ModText] (text_stream sample_text ++ [FinishEvent (finish_with FinishStop)], None).

Lemma consumeProviderStream_text_witness :
  rc_parts (text_response sample_text (finish_with FinishStop)) =
    [TextPart (js "a") (js "hello"); TextPart (js "b") (js "world")] ∧
  (consumeProviderStream sample_parse text_turn).2 =
    Ok (text_response sample_text (finish_with FinishStop)).
Proof.
  split; [vm_compute; reflexivity|].
  refine (consumeProviderStream_text sample_parse text_turn eq_refl _ sample_text
    (finish_with FinishStop) eq_refl eq_refl _ _).
  - intros checkpoint effects event [= <-]. reflexivity.
  - repeat constructor; discriminate.
  - discriminate.
Defined.

(** The check that usage does not decrease only looks at the event before: a counter
    left out of one event may come back smaller. *)
Lemma usage_decrease_accepted :
  let usage name n := UsageEvent [(name, UsageNumber (num_of_Z n))] in
  match (consumeProviderStream sample_parse (sample_options [ModText]
    ([TextDelta (js "t") (js "x"); usage "inputTokens"%string 5%Z;
      usage "outputTokens"%string 1%Z; usage "inputTokens"%string 3%Z;
      FinishEvent (finish_with FinishStop)], None))).2 with
  | Ok r => rc_usage r = Some [("inputTokens"%string, UsageNumber (num_of_Z 3))]
  | Throw _ => False
  end.
Proof. vm_compute. reflexivity. Qed.
