(* ===== verification/ActiveAbort.v ===== *)
(** The registry of active executions
    ([packages/runtime/src/jobs/active-abort.ts]): which job runs under which abort
    controller, and the ways to abort it.  Controllers, entries and registrations are
    shared objects: the registry holds references to them, and a controller may be
    aborted by its owner at any time. *)
From S2P Require Import Prelude JsMap Json Protocol.

(** * Reasons *)

Inductive ActiveAbortKind :=
| AbortCancel | AbortInterrupt | AbortLeaseLost | AbortTimeout | AbortHostShutdown.

#[export] Instance ActiveAbortKind_eq_dec : EqDecision ActiveAbortKind.
Proof. solve_decision. Defined.

#[export, refine] Instance ActiveAbortKind_enum : StringEnum ActiveAbortKind := {|
  enum_values := [AbortCancel; AbortInterrupt; AbortLeaseLost; AbortTimeout;
    AbortHostShutdown];
  enum_name k := match k with
    | AbortCancel => "cancel"
    | AbortInterrupt => "interrupt"
    | AbortLeaseLost => "lease_lost"
    | AbortTimeout => "timeout"
    | AbortHostShutdown => "host_shutdown"
    end%string |}.
Proof. all: solve_enum. Defined.

Record ActiveAbortReason := { ar_kind : ActiveAbortKind; ar_message : string }.

#[export] Instance ActiveAbortReason_eq_dec : EqDecision ActiveAbortReason.
Proof. solve_decision. Defined.

(** [signal] with its [aborted] flag and its [reason], when one is given. *)
Definition readActiveAbortReason (signal : option (bool * json)) : option ActiveAbortReason :=
  match signal with
  | Some (true, JObj fields) =>
      match jget "message"%string fields, jget "kind"%string fields with
      | Some (JStr message), Some (JStr kind) =>
          (fun kind => {| ar_kind := kind; ar_message := message |}) <$> parse_enum kind
      | _, _ => None
      end
  | _ => None
  end.

(** * Shared objects *)

Record ActiveExecutionIdentity := { id_jobId : string; id_attemptId : option string }.

(** An entry, with the [registered] flag its registration closes over.  A controller
    is a reference. *)
Record execution := {
  ex_jobId : string;
  ex_controller : nat;
  ex_attemptId : option string;
  ex_registered : bool;
}.

(** The controllers that are aborted, with their reasons; the entries; the registry's
    two maps of references to entries. *)
Record registry := {
  rg_aborted : gmap nat ActiveAbortReason;
  rg_executions : gmap nat execution;
  rg_entries : list (string * nat);
  rg_attempts : list (string * nat);
  rg_next : nat;
}.

Definition new_registry (aborted : gmap nat ActiveAbortReason) : registry :=
  {| rg_aborted := aborted; rg_executions := ∅; rg_entries := []; rg_attempts := [];
     rg_next := 0 |}.

Definition set_aborted m g := {|
  rg_aborted := m; rg_executions := rg_executions g; rg_entries := rg_entries g;
  rg_attempts := rg_attempts g; rg_next := rg_next g |}.

Definition set_execution h e g := {|
  rg_aborted := rg_aborted g; rg_executions := <[h := e]> (rg_executions g);
  rg_entries := rg_entries g; rg_attempts := rg_attempts g; rg_next := rg_next g |}.

Definition set_entries l g := {|
  rg_aborted := rg_aborted g; rg_executions := rg_executions g; rg_entries := l;
  rg_attempts := rg_attempts g; rg_next := rg_next g |}.

Definition set_attempts l g := {|
  rg_aborted := rg_aborted g; rg_executions := rg_executions g;
  rg_entries := rg_entries g; rg_attempts := l; rg_next := rg_next g |}.

Definition take_reference g := {|
  rg_aborted := rg_aborted g; rg_executions := rg_executions g;
  rg_entries := rg_entries g; rg_attempts := rg_attempts g; rg_next := S (rg_next g) |}.

Definition with_attemptId (attemptId : option string) (e : execution) : execution := {|
  ex_jobId := ex_jobId e; ex_controller := ex_controller e; ex_attemptId := attemptId;
  ex_registered := ex_registered e |}.

Definition closed (e : execution) : execution := {|
  ex_jobId := ex_jobId e; ex_controller := ex_controller e;
  ex_attemptId := ex_attemptId e; ex_registered := false |}.

(** [AbortController.abort]: only the first reason counts. *)
Definition abort_controller (controller : nat) (reason : ActiveAbortReason) (g : registry)
    : registry :=
  match rg_aborted g !! controller with
  | Some _ => g
  | None => set_aborted (<[controller := reason]> (rg_aborted g)) g
  end.

(** [signal.aborted] *)
Definition aborted (controller : nat) (g : registry) : bool :=
  bool_decide (is_Some (rg_aborted g !! controller)).

(** * Operations *)

Local Abbreviation M := (stM registry string).

(** The entry a reference stands for; a reference always stands for one. *)
Definition deref (h : nat) : M execution :=
  g ← getM;
  match rg_executions g !! h with
  | Some e => mret e
  | None => throwM "dangling reference"%string
  end.

(** Returns the registration, which closes over the new entry. *)
Definition register (identity : ActiveExecutionIdentity) (controller : nat) : M nat :=
  g ← getM;
  _ ← guardM (jhas (id_jobId identity) (rg_entries g))
    ("active execution already registered: " +:+ id_jobId identity);
  let h := rg_next g in
  _ ← modifyM take_reference;
  _ ← modifyM (set_execution h {| ex_jobId := id_jobId identity; ex_controller := controller;
        ex_attemptId := id_attemptId identity; ex_registered := true |});
  _ ← modifyM (fun g => set_entries (jset (id_jobId identity) h (rg_entries g)) g);
  _ ← match id_attemptId identity with
      | None => mret tt
      | Some attemptId => modifyM (fun g => set_attempts (jset attemptId h (rg_attempts g)) g)
      end;
  mret h.

Definition bindAttempt (h : nat) (attemptId : string) : M unit :=
  entry ← deref h;
  _ ← guardM (negb (ex_registered entry))
    ("active execution registration is closed: " +:+ ex_jobId entry);
  _ ← guardM match ex_attemptId entry with
        | Some bound => bool_decide (bound ≠ attemptId) | None => false end
    ("active execution attempt is already bound: " +:+ ex_jobId entry);
  _ ← modifyM (set_execution h (with_attemptId (Some attemptId) entry));
  modifyM (fun g => set_attempts (jset attemptId h (rg_attempts g)) g).

(** The registration's [abort]. *)
Definition registration_abort (h : nat) (reason : ActiveAbortReason) : M bool :=
  entry ← deref h;
  g ← getM;
  if negb (ex_registered entry) || aborted (ex_controller entry) g then mret false
  else _ ← modifyM (abort_controller (ex_controller entry) reason); mret true.

Definition unregister (h : nat) : M unit :=
  entry ← deref h;
  if negb (ex_registered entry) then mret tt
  else
    _ ← modifyM (set_execution h (closed entry));
    g ← getM;
    _ ← match ex_attemptId entry with
        | None => mret tt
        | Some attemptId =>
            if decide (jget attemptId (rg_attempts g) = Some h)
            then modifyM (set_attempts (jdelete attemptId (rg_attempts g)))
            else mret tt
        end;
    g ← getM;
    if decide (jget (ex_jobId entry) (rg_entries g) = Some h)
    then modifyM (set_entries (jdelete (ex_jobId entry) (rg_entries g)))
    else mret tt.

(** The registry's [abort]. *)
Definition registry_abort (identity : ActiveExecutionIdentity) (reason : ActiveAbortReason)
    : M bool :=
  g ← getM;
  match jget (id_jobId identity) (rg_entries g) with
  | None => mret false
  | Some h =>
      entry ← deref h;
      if bool_decide (id_attemptId identity ≠ None)
          && bool_decide (ex_attemptId entry ≠ id_attemptId identity)
      then mret false
      else if aborted (ex_controller entry) g then mret false
      else _ ← modifyM (abort_controller (ex_controller entry) reason); mret true
  end.

Definition abortAttempt (attemptId : string) (reason : ActiveAbortReason) : M bool :=
  g ← getM;
  match jget attemptId (rg_attempts g) with
  | None => mret false
  | Some h =>
      entry ← deref h;
      if aborted (ex_controller entry) g then mret false
      else _ ← modifyM (abort_controller (ex_controller entry) reason); mret true
  end.

Fixpoint abort_entries (references : list nat) (reason : ActiveAbortReason) (count : Z)
    : M Z :=
  match references with
  | [] => mret count
  | h :: references =>
      entry ← deref h;
      g ← getM;
      if aborted (ex_controller entry) g then abort_entries references reason count
      else
        _ ← modifyM (abort_controller (ex_controller entry) reason);
        abort_entries references reason (count + 1)%Z
  end.

Definition abortAll (reason : ActiveAbortReason) : M Z :=
  g ← getM; abort_entries (rg_entries g).*2 reason 0.

Definition registry_size : M Z := g ← getM; mret (Z.of_nat (length (rg_entries g))).

(** * The invariant *)

(** A job has at most one open registration, which the entry map refers to and
    nothing else; the attempt map refers to open registrations of the attempt. *)
Record registry_ok (g : registry) : Prop := {
  ok_keys : NoDup (rg_entries g).*1;
  ok_attempt_keys : NoDup (rg_attempts g).*1;
  ok_entries job h : jget job (rg_entries g) = Some h ↔
    ∃ e, rg_executions g !! h = Some e ∧ ex_registered e = true ∧ ex_jobId e = job;
  ok_attempts attempt h : jget attempt (rg_attempts g) = Some h →
    ∃ e, rg_executions g !! h = Some e ∧ ex_registered e = true ∧
      ex_attemptId e = Some attempt;
  ok_fresh h : is_Some (rg_executions g !! h) → h < rg_next g;
}.

(** What an operation, or the owner of a controller, does to the registry. *)
Inductive registry_step : registry → registry → Prop :=
| step_register identity controller g :
    registry_step g (register identity controller g).1
| step_bind h attemptId g : registry_step g (bindAttempt h attemptId g).1
| step_registration_abort h reason g : registry_step g (registration_abort h reason g).1
| step_unregister h g : registry_step g (unregister h g).1
| step_abort identity reason g : registry_step g (registry_abort identity reason g).1
| step_abort_attempt attemptId reason g : registry_step g (abortAttempt attemptId reason g).1
| step_abort_all reason g : registry_step g (abortAll reason g).1
| step_controller controller reason g :
    registry_step g (abort_controller controller reason g).

(** The registry stays well-formed, and what is aborted stays aborted for its reason. *)
Definition advances (g g' : registry) : Prop :=
  registry_ok g' ∧ rg_aborted g ⊆ rg_aborted g'.

Lemma advances_refl g : registry_ok g → advances g g.
Proof. by split. Qed.

Lemma set_aborted_ok m g : registry_ok g → registry_ok (set_aborted m g).
Proof. by intros []. Qed.

Lemma abort_controller_advances controller reason g :
  registry_ok g → advances g (abort_controller controller reason g).
Proof.
  intros Hg. unfold abort_controller.
  destruct (rg_aborted g !! controller) eqn:E; [by apply advances_refl|].
  split; [by apply set_aborted_ok|]. by apply insert_subseteq.
Qed.

Lemma abort_controller_executions controller reason g :
  rg_executions (abort_controller controller reason g) = rg_executions g.
Proof. unfold abort_controller. by destruct (rg_aborted g !! controller). Qed.

Lemma deref_run h g :
  deref h g = match rg_executions g !! h with
    | Some e => (g, Ok e) | None => (g, Throw "dangling reference"%string) end.
Proof. unfold deref, mbind, stM_bind. simpl. by destruct (rg_executions g !! h). Qed.

(** Unfold a run one bind at a time. *)
Ltac run_step := unfold mbind, stM_bind, getM, guardM, modifyM, mret, stM_ret, throwM; simpl.

Lemma register_advances identity controller g :
  registry_ok g → advances g (register identity controller g).1.
Proof.
  intros Hg. pose proof Hg as [Hk Ha He Hat Hf]. unfold register. run_step.
  destruct (jhas (id_jobId identity) (rg_entries g)) eqn:Hjob; simpl; [by apply advances_refl|].
  apply jhas_false, jget_None in Hjob.
  assert (rg_executions g !! rg_next g = None) as Hfresh.
  { destruct (rg_executions g !! rg_next g) eqn:E; [|done]. specialize (Hf (rg_next g)).
    rewrite E in Hf. assert (rg_next g < rg_next g) by eauto. lia. }
  assert (∀ job h, jget job (jset (id_jobId identity) (rg_next g) (rg_entries g)) = Some h ↔
    ∃ e, <[rg_next g := {| ex_jobId := id_jobId identity; ex_controller := controller;
        ex_attemptId := id_attemptId identity; ex_registered := true |}]> (rg_executions g) !! h
        = Some e ∧ ex_registered e = true ∧ ex_jobId e = job) as He'.
  { intros job h. rewrite jget_jset. destruct (decide (h = rg_next g)) as [->|Hh].
    - rewrite lookup_insert_eq. case_decide as Hj; [naive_solver|]. split; [|naive_solver].
      intros (e & Hexec & _)%He. congruence.
    - rewrite lookup_insert_ne by done. case_decide as Hj; [subst job|by apply He].
      split; [congruence|]. intros Hex%He. congruence. }
  assert (∀ l, (∀ attempt h, jget attempt l = Some h → h ≠ rg_next g →
      jget attempt (rg_attempts g) = Some h) →
    (∀ attempt, jget attempt l = Some (rg_next g) → id_attemptId identity = Some attempt) →
    ∀ attempt h, jget attempt l = Some h →
    ∃ e, <[rg_next g := {| ex_jobId := id_jobId identity; ex_controller := controller;
        ex_attemptId := id_attemptId identity; ex_registered := true |}]> (rg_executions g) !! h
        = Some e ∧ ex_registered e = true ∧ ex_attemptId e = Some attempt) as Hat'.
  { intros l Hold Hnew attempt h Hl. destruct (decide (h = rg_next g)) as [->|Hh].
    - rewrite lookup_insert_eq. eexists. split; [done|]. split; [done|]. by apply Hnew.
    - rewrite lookup_insert_ne by done. by apply Hat, Hold. }
  assert (∀ attempt, jget attempt (rg_attempts g) ≠ Some (rg_next g)) as Hno.
  { intros attempt (e & Hexec & _)%Hat. congruence. }
  destruct (id_attemptId identity) as [attemptId|]; simpl; (split; [|done]); split; simpl;
    auto using NoDup_jset.
  - apply Hat'; intros attempt; [intros h|]; rewrite jget_jset; case_decide; naive_solver.
  - intros h [e Hh]. destruct (decide (h = rg_next g)) as [->|]; [lia|].
    rewrite lookup_insert_ne in Hh by done. assert (h < rg_next g) by eauto. lia.
  - apply Hat'; naive_solver.
  - intros h [e Hh]. destruct (decide (h = rg_next g)) as [->|]; [lia|].
    rewrite lookup_insert_ne in Hh by done. assert (h < rg_next g) by eauto. lia.
Qed.

(** Changing an entry's attempt keeps what the entry map says. *)
Lemma entries_same (executions : gmap nat execution) entries h e e' :
  (∀ job h, jget job entries = Some h ↔
    ∃ e, executions !! h = Some e ∧ ex_registered e = true ∧ ex_jobId e = job) →
  executions !! h = Some e → ex_registered e' = ex_registered e → ex_jobId e' = ex_jobId e →
  ∀ job h', jget job entries = Some h' ↔
    ∃ e0, <[h := e']> executions !! h' = Some e0 ∧ ex_registered e0 = true ∧
      ex_jobId e0 = job.
Proof.
  intros He Hh Hr Hj job h'. rewrite He. destruct (decide (h' = h)) as [->|Hne].
  - rewrite lookup_insert_eq, Hh. naive_solver congruence.
  - by rewrite lookup_insert_ne.
Qed.

Lemma bindAttempt_advances h attemptId g :
  registry_ok g → advances g (bindAttempt h attemptId g).1.
Proof.
  intros Hg. pose proof Hg as [Hk Ha He Hat Hf]. unfold bindAttempt. run_step.
  rewrite deref_run. destruct (rg_executions g !! h) as [e|] eqn:Hh; simpl; [|by apply advances_refl].
  destruct (ex_registered e) eqn:Hr; simpl; [|by apply advances_refl].
  set (bound := match ex_attemptId e with Some _ => _ | None => false end).
  destruct bound eqn:Hbound; simpl; [by apply advances_refl|]. subst bound.
  split; [|done]. split; simpl; auto using NoDup_jset.
  - by eapply entries_same.
  - intros attempt h'. rewrite jget_jset. case_decide as Hatt.
    + intros [= <-]. rewrite lookup_insert_eq. subst. eauto.
    + intros Hl. destruct (decide (h' = h)) as [->|Hne]; [|rewrite lookup_insert_ne by done; auto].
      apply Hat in Hl as (e0 & He0 & _ & Hatt0). rewrite He0 in Hh. simplify_eq.
      rewrite Hatt0 in Hbound. apply bool_decide_eq_false, dec_stable in Hbound. congruence.
  - intros h' [e' Hh']. destruct (decide (h' = h)) as [->|]; [apply Hf; by eexists|].
    rewrite lookup_insert_ne in Hh' by done. apply Hf. by eexists.
Qed.

Lemma unregister_advances h g : registry_ok g → advances g (unregister h g).1.
Proof.
  intros Hg. pose proof Hg as [Hk Ha He Hat Hf]. unfold unregister. run_step.
  rewrite deref_run. destruct (rg_executions g !! h) as [e|] eqn:Hh; simpl; [|by apply advances_refl].
  destruct (ex_registered e) eqn:Hr; simpl; [|by apply advances_refl].
  assert (jget (ex_jobId e) (rg_entries g) = Some h) as Hentry by (apply He; eauto).
  assert (∀ l, NoDup l.*1 → (∀ attempt h', jget attempt l = Some h' →
      jget attempt (rg_attempts g) = Some h' ∧ h' ≠ h) →
    registry_ok (set_entries (jdelete (ex_jobId e) (rg_entries g))
      (set_attempts l (set_execution h (closed e) g)))) as Hok.
  { intros l Hl Hsub. split; simpl; auto using NoDup_jdelete.
    - intros job h'. destruct (decide (job = ex_jobId e)) as [->|Hj].
      + rewrite jget_jdelete_eq by done. split; [done|]. intros (e' & Hh' & Hr' & Hj').
        destruct (decide (h' = h)) as [->|Hne];
          [rewrite lookup_insert_eq in Hh'; naive_solver|].
        rewrite lookup_insert_ne in Hh' by done.
        assert (jget (ex_jobId e) (rg_entries g) = Some h') by (apply He; eauto). congruence.
      + rewrite jget_jdelete_ne, He by done. destruct (decide (h' = h)) as [->|Hne];
          [rewrite lookup_insert_eq|by rewrite lookup_insert_ne]. naive_solver congruence.
    - intros attempt h' [Hl' Hne]%Hsub. rewrite lookup_insert_ne by done. by apply Hat.
    - intros h' [e' Hh']. destruct (decide (h' = h)) as [->|]; [apply Hf; by eexists|].
      rewrite lookup_insert_ne in Hh' by done. apply Hf. by eexists. }
  assert (∀ attempt, jget attempt (rg_attempts g) = Some h → ex_attemptId e = Some attempt)
    as Hown by (intros attempt (e' & Hh' & _ & ?)%Hat; congruence).
  destruct (ex_attemptId e) as [attemptId|]; simpl; [case_decide as Hd; simpl|];
    rewrite decide_True by done; simpl; (split; [|done]); apply Hok;
    auto using NoDup_jdelete.
  - intros attempt h'. destruct (decide (attempt = attemptId)) as [->|Hne];
      [by rewrite jget_jdelete_eq|]. rewrite jget_jdelete_ne by done. intros Hl. split; [done|].
    intros ->. apply Hown in Hl. congruence.
  - intros attempt h' Hl. split; [done|]. intros ->. pose proof (Hown _ Hl). congruence.
  - intros attempt h' Hl. split; [done|]. intros ->. by pose proof (Hown _ Hl).
Qed.

Lemma registration_abort_advances h reason g :
  registry_ok g → advances g (registration_abort h reason g).1.
Proof.
  intros Hg. unfold registration_abort. run_step. rewrite deref_run.
  destruct (rg_executions g !! h) as [e|]; simpl; [|by apply advances_refl].
  destruct (negb _ || _); simpl; [by apply advances_refl|by apply abort_controller_advances].
Qed.

Lemma registry_abort_advances identity reason g :
  registry_ok g → advances g (registry_abort identity reason g).1.
Proof.
  intros Hg. unfold registry_abort. run_step.
  destruct (jget _ _) as [h|]; simpl; [|by apply advances_refl]. rewrite deref_run.
  destruct (rg_executions g !! h) as [e|]; simpl; [|by apply advances_refl].
  destruct (_ && _); simpl; [by apply advances_refl|].
  destruct (aborted _ _); simpl; [by apply advances_refl|by apply abort_controller_advances].
Qed.

Lemma abortAttempt_advances attemptId reason g :
  registry_ok g → advances g (abortAttempt attemptId reason g).1.
Proof.
  intros Hg. unfold abortAttempt. run_step.
  destruct (jget _ _) as [h|]; simpl; [|by apply advances_refl]. rewrite deref_run.
  destruct (rg_executions g !! h) as [e|]; simpl; [|by apply advances_refl].
  destruct (aborted _ _); simpl; [by apply advances_refl|by apply abort_controller_advances].
Qed.

#[export] Instance advances_trans : Transitive advances.
Proof. intros g1 g2 g3 [_ H1] [H2 H3]. split; [done|]. by etrans. Qed.

Lemma abort_entries_cons h references reason count g e :
  rg_executions g !! h = Some e →
  abort_entries (h :: references) reason count g =
  if aborted (ex_controller e) g then abort_entries references reason count g
  else abort_entries references reason (count + 1)%Z
    (abort_controller (ex_controller e) reason g).
Proof.
  intros Hh. simpl. run_step. rewrite deref_run, Hh. by destruct (aborted (ex_controller e) g).
Qed.

Lemma abort_entries_advances references reason count g :
  registry_ok g → advances g (abort_entries references reason count g).1.
Proof.
  revert count g. induction references as [|h references IH]; intros count g Hg;
    [by apply advances_refl|].
  destruct (rg_executions g !! h) as [e|] eqn:Hh.
  - rewrite (abort_entries_cons h references reason count g e) by done.
    destruct (aborted (ex_controller e) g); [by apply IH|].
    pose proof (abort_controller_advances (ex_controller e) reason g Hg) as Hadv.
    etrans; [exact Hadv|]. apply IH, Hadv.
  - simpl. run_step. rewrite deref_run, Hh. by apply advances_refl.
Qed.

Lemma registry_step_advances g g' : registry_ok g → registry_step g g' → advances g g'.
Proof.
  intros Hg Hs. destruct Hs; auto using register_advances, bindAttempt_advances,
    registration_abort_advances, unregister_advances, registry_abort_advances,
    abortAttempt_advances, abort_controller_advances.
  by apply abort_entries_advances.
Qed.

Lemma new_registry_ok aborted : registry_ok (new_registry aborted).
Proof.
  split; simpl; try constructor; try done.
  - intros (e & He & _). by rewrite lookup_empty in He.
  - intros h [e He]. by rewrite lookup_empty in He.
Qed.

Lemma registry_steps_advance g g' :
  registry_ok g → rtc registry_step g g' → advances g g'.
Proof.
  intros Hg Hs. induction Hs as [g|g1 g2 g3 Hs _ IH]; [by apply advances_refl|].
  pose proof (registry_step_advances g1 g2 Hg Hs) as Hadv. etrans; [exact Hadv|]. apply IH, Hadv.
Qed.

(** In every reachable registry a job has at most one open registration, the two maps
    refer exactly to open registrations, and an aborted controller stays aborted with
    its first reason (C19). *)
Theorem registry_invariant aborted g g' :
  rtc registry_step (new_registry aborted) g → rtc registry_step g g' →
  registry_ok g ∧ registry_ok g' ∧ rg_aborted g ⊆ rg_aborted g'.
Proof.
  intros H1 H2. apply registry_steps_advance in H1 as [Hg _]; [|apply new_registry_ok].
  by apply registry_steps_advance in H2 as [Hg' Hle].
Qed.

(** An open registration of the job, of that attempt if one is named. *)
Definition addressed (g : registry) (identity : ActiveExecutionIdentity) (e : execution)
    : Prop :=
  (∃ h, rg_executions g !! h = Some e) ∧ ex_registered e = true ∧
  ex_jobId e = id_jobId identity ∧
  (id_attemptId identity = None ∨ ex_attemptId e = id_attemptId identity).

(** Aborting an execution reaches the open registration addressed, and only its
    controller, and only when it is not aborted yet; and it says whether it did. *)
Theorem registry_abort_spec g identity reason :
  registry_ok g →
  ∃ g' b, registry_abort identity reason g = (g', Ok b) ∧
    if (b : bool) then ∃ e, addressed g identity e ∧ rg_aborted g !! ex_controller e = None ∧
      g' = set_aborted (<[ex_controller e := reason]> (rg_aborted g)) g
    else g' = g ∧ ∀ e, addressed g identity e → is_Some (rg_aborted g !! ex_controller e).
Proof.
  intros Hg. pose proof (ok_entries g Hg (id_jobId identity)) as He.
  unfold registry_abort. run_step.
  destruct (jget (id_jobId identity) (rg_entries g)) as [h|] eqn:Hj; simpl.
  2: { eexists _, false. split; [done|]. split; [done|].
       intros e ([h Hh] & Hr & Hjob & _). by assert (None = Some h) by (apply He; eauto). }
  destruct (proj1 (He h) eq_refl) as (e & Hh & Hr & Hjob). rewrite deref_run, Hh.
  assert (∀ e', addressed g identity e' → e' = e) as Hunique.
  { intros e' ([h' Hh'] & Hr' & Hjob' & _).
    assert (Some h = Some h') as [= <-] by (apply He; eauto). congruence. }
  destruct (bool_decide (id_attemptId identity ≠ None) && _) eqn:Hatt; simpl.
  { apply andb_true_iff in Hatt as [Hnone%bool_decide_eq_true Hne%bool_decide_eq_true].
    eexists _, false. split; [done|]. split; [done|]. intros e' Ha.
    pose proof (Hunique e' Ha) as ->. destruct Ha as (_ & _ & _ & [?|?]); done. }
  assert (addressed g identity e) as Ha.
  { split; [eauto|]. split; [done|]. split; [done|]. apply andb_false_iff in Hatt as [Hn|Hn];
      apply bool_decide_eq_false, dec_stable in Hn; eauto. }
  clear Hatt. unfold aborted, abort_controller. case_bool_decide as Hab; simpl.
  - eexists _, false. split; [done|]. split; [done|]. by intros e' ->%Hunique.
  - apply eq_None_not_Some in Hab. rewrite Hab. eexists _, true. split; [done|]. eauto.
Qed.

(** The open registrations. *)
Definition open_execution (g : registry) (e : execution) : Prop :=
  ∃ h, rg_executions g !! h = Some e ∧ ex_registered e = true.

(** The outcome of aborting the entries [references] of [g]. *)
Definition aborts_all (g : registry) (references : list nat) (reason : ActiveAbortReason)
    (g' : registry) : Prop :=
  g' = set_aborted (rg_aborted g') g ∧ rg_aborted g ⊆ rg_aborted g' ∧
  (∀ h e, h ∈ references → rg_executions g !! h = Some e →
    is_Some (rg_aborted g' !! ex_controller e)) ∧
  (∀ c r, rg_aborted g' !! c = Some r → rg_aborted g !! c = Some r ∨
    (r = reason ∧ rg_aborted g !! c = None ∧
     ∃ h e, h ∈ references ∧ rg_executions g !! h = Some e ∧ ex_controller e = c)).

Lemma abort_entries_spec references reason count g :
  (∀ h, h ∈ references → is_Some (rg_executions g !! h)) →
  ∃ g', abort_entries references reason count g =
      (g', Ok (count + Z.of_nat (size (rg_aborted g')) - Z.of_nat (size (rg_aborted g)))%Z) ∧
    aborts_all g references reason g'.
Proof.
  revert count g. induction references as [|h references IH]; intros count g Hrefs.
  { exists g. split; [simpl; unfold mret, stM_ret; do 2 f_equal; lia|].
    split; [by destruct g|]. split; [done|]. split; [set_solver|eauto]. }
  destruct (Hrefs h) as [e Hh]; [left|].
  rewrite (abort_entries_cons h references reason count g e) by done.
  unfold aborted, abort_controller. case_bool_decide as Hab.
  - destruct (IH count g) as (g' & Hrun & Hg' & Hle & Hall & Honly); [set_solver|].
    exists g'. split; [done|]. split; [done|]. split; [done|]. split.
    + intros h' e' [->|Hin]%elem_of_cons Hh'; [|by eapply Hall].
      destruct Hab as [r Hr]. simplify_eq. exists r. by eapply lookup_weaken.
    + intros c r [?|(-> & Hn & h' & e' & Hin & ?)]%Honly; [by left|].
      right. split; [done|]. split; [done|]. exists h', e'. split; [by right|done].
  - apply eq_None_not_Some in Hab. rewrite Hab.
    set (g1 := set_aborted (<[ex_controller e := reason]> (rg_aborted g)) g).
    destruct (IH (count + 1)%Z g1) as (g' & Hrun & Hg' & Hle & Hall & Honly); [set_solver|].
    exists g'. rewrite Hrun. split.
    { do 2 f_equal. simpl. rewrite map_size_insert_None by done. lia. }
    assert (rg_aborted g ⊆ rg_aborted g') as Hle'
      by (etrans; [|exact Hle]; by apply insert_subseteq).
    split; [by rewrite Hg'|]. split; [done|]. split.
    + intros h' e' [->|Hin]%elem_of_cons Hh'; [|by eapply Hall]. simplify_eq.
      exists reason. eapply lookup_weaken; [|exact Hle]. simpl; by rewrite lookup_insert_eq.
    + intros c r [Hc|(-> & Hn & h' & e' & Hin & ?)]%Honly.
      * simpl in Hc. destruct (decide (c = ex_controller e)) as [->|Hne].
        -- rewrite lookup_insert_eq in Hc. right. split; [congruence|]. split; [done|].
           exists h, e. split; [left|done].
        -- rewrite lookup_insert_ne in Hc by done. by left.
      * right. split; [done|]. simpl in Hn. split.
        -- destruct (decide (c = ex_controller e)) as [->|Hne];
             [by rewrite lookup_insert_eq in Hn|by rewrite lookup_insert_ne in Hn].
        -- exists h', e'. split; [by right|done].
Qed.

(** Aborting everything aborts the controller of every open registration, aborts no
    other controller, keeps earlier reasons, and counts the controllers it aborted. *)
Theorem abortAll_spec g reason :
  registry_ok g →
  ∃ g' n, abortAll reason g = (g', Ok n) ∧
    g' = set_aborted (rg_aborted g') g ∧ rg_aborted g ⊆ rg_aborted g' ∧
    n = (Z.of_nat (size (rg_aborted g')) - Z.of_nat (size (rg_aborted g)))%Z ∧
    (∀ e, open_execution g e → is_Some (rg_aborted g' !! ex_controller e)) ∧
    (∀ c r, rg_aborted g' !! c = Some r → rg_aborted g !! c = Some r ∨
      (r = reason ∧ rg_aborted g !! c = None ∧
       ∃ e, open_execution g e ∧ ex_controller e = c)).
Proof.
  intros Hg. assert (∀ h, h ∈ (rg_entries g).*2 ↔
    ∃ e, rg_executions g !! h = Some e ∧ ex_registered e = true) as Hopen.
  { intros h. split.
    - intros ([job h'] & -> & Hin)%list_elem_of_fmap. apply elem_of_jget in Hin; [|apply Hg].
      apply (ok_entries g Hg) in Hin as (e & ? & ? & _). eauto.
    - intros (e & Hh & Hr). assert (jget (ex_jobId e) (rg_entries g) = Some h) as Hj
        by (apply (ok_entries g Hg); eauto).
      apply list_elem_of_fmap. exists (ex_jobId e, h). split; [done|]. by apply jget_elem_of. }
  destruct (abort_entries_spec (rg_entries g).*2 reason 0 g) as (g' & Hrun & Hg' & Hle & Hall & Honly).
  { intros h (e & Hh & _)%Hopen. by eexists. }
  exists g'. eexists. split; [exact Hrun|]. split; [done|]. split; [done|]. split; [lia|]. split.
  - intros e (h & Hh & Hr). eapply Hall; [apply Hopen; eauto|done].
  - intros c r [?|(-> & Hn & h & e & Hin & Hh & Hc)]%Honly; [by left|]. right.
    split; [done|]. split; [done|]. exists e. split; [|done]. exists h. split; [done|].
    apply Hopen in Hin as (e' & ? & ?). congruence.
Qed.

(** * Examples *)

Definition sample_identity (job : string) : ActiveExecutionIdentity :=
  {| id_jobId := job; id_attemptId := None |}.

Definition cancelled : ActiveAbortReason :=
  {| ar_kind := AbortCancel; ar_message := "cancelled" |}.

(** Two jobs run; the first has bound an attempt. *)
Definition sample_registry : registry :=
  (bindAttempt 0 "attempt" (register (sample_identity "b") 8
    (register (sample_identity "a") 7 (new_registry ∅)).1).1).1.

Lemma sample_reached : rtc registry_step (new_registry ∅) sample_registry.
Proof.
  eapply rtc_l; [apply step_register|]. eapply rtc_l; [apply step_register|].
  apply rtc_once, step_bind.
Qed.

Lemma sample_registry_ok : registry_ok sample_registry.
Proof. exact (proj1 (registry_steps_advance _ _ (new_registry_ok ∅) sample_reached)). Qed.

Lemma registry_invariant_witness :
  let g := sample_registry in
  let g' := (abortAll cancelled g).1 in
  size (rg_aborted g') = 2 ∧ registry_ok g ∧ registry_ok g' ∧ rg_aborted g ⊆ rg_aborted g'.
Proof.
  split; [vm_compute; reflexivity|].
  exact (registry_invariant ∅ _ _ sample_reached (rtc_once _ _ (step_abort_all _ _))).
Defined.

Lemma registry_abort_spec_witness :
  let identity := {| id_jobId := "a"; id_attemptId := Some "attempt"%string |} in
  (registry_abort identity cancelled sample_registry).2 = Ok true ∧
  ∃ g' b, registry_abort identity cancelled sample_registry = (g', Ok b) ∧
    if (b : bool) then ∃ e, addressed sample_registry identity e ∧
      rg_aborted sample_registry !! ex_controller e = None ∧
      g' = set_aborted (<[ex_controller e := cancelled]> (rg_aborted sample_registry))
        sample_registry
    else g' = sample_registry ∧ ∀ e, addressed sample_registry identity e →
      is_Some (rg_aborted sample_registry !! ex_controller e).
Proof.
  split; [vm_compute; reflexivity|].
  exact (registry_abort_spec sample_registry _ cancelled sample_registry_ok).
Defined.

Lemma abortAll_spec_witness :
  (abortAll cancelled sample_registry).2 = Ok 2%Z ∧
  let g := sample_registry in
  ∃ g' n, abortAll cancelled g = (g', Ok n) ∧
    g' = set_aborted (rg_aborted g') g ∧ rg_aborted g ⊆ rg_aborted g' ∧
    n = (Z.of_nat (size (rg_aborted g')) - Z.of_nat (size (rg_aborted g)))%Z ∧
    (∀ e, open_execution g e → is_Some (rg_aborted g' !! ex_controller e)) ∧
    (∀ c r, rg_aborted g' !! c = Some r → rg_aborted g !! c = Some r ∨
      (r = cancelled ∧ rg_aborted g !! c = None ∧
       ∃ e, open_execution g e ∧ ex_controller e = c)).
Proof.
  split; [vm_compute; reflexivity|].
  exact (abortAll_spec sample_registry cancelled sample_registry_ok).
Defined.

(** The reason a controller carries is read back. *)
Lemma readActiveAbortReason_written r :
  readActiveAbortReason (Some (true, JObj [("kind"%string, JStr (enum_name (ar_kind r)));
    ("message"%string, JStr (ar_message r))])) = Some r.
Proof. by destruct r as [[] message]. Qed.
