(* ===== verification/WorkerLoop.v ===== *)
(** The loops of a worker
    ([packages/runtime/src/jobs/{worker-loop,heartbeat}.ts]): the loop that runs the
    worker again and again, and the heartbeat of a job.  Both run on the event loop:
    a timer's callback, the callbacks of a settled promise and the two ends of a call of
    [runOnce] are separate steps, and [wake] and [stop] may be called between any two of
    them, also by [runOnce] itself before it returns its promise. *)
From S2P Require Import Prelude Json.

(** * The worker loop ([worker-loop.ts]) *)

(** [WorkerLoopController]: its fields.  The promises of runs are numbered. *)
Record WorkerLoopController := {
  lp_timer : option jsnum;
  lp_active : option nat;
  lp_tick : bool;
  lp_wakeRequested : bool;
  lp_stopped : bool;
}.

Definition new_controller : WorkerLoopController := {|
  lp_timer := None; lp_active := None; lp_tick := false; lp_wakeRequested := false;
  lp_stopped := false |}.

Definition set_timer timer (c : WorkerLoopController) : WorkerLoopController := {|
  lp_timer := timer; lp_active := lp_active c; lp_tick := lp_tick c;
  lp_wakeRequested := lp_wakeRequested c; lp_stopped := lp_stopped c |}.

Definition set_active active (c : WorkerLoopController) : WorkerLoopController := {|
  lp_timer := lp_timer c; lp_active := active; lp_tick := lp_tick c;
  lp_wakeRequested := lp_wakeRequested c; lp_stopped := lp_stopped c |}.

Definition set_wakeRequested requested (c : WorkerLoopController) : WorkerLoopController := {|
  lp_timer := lp_timer c; lp_active := lp_active c; lp_tick := lp_tick c;
  lp_wakeRequested := requested; lp_stopped := lp_stopped c |}.

Definition attach (c : WorkerLoopController) : WorkerLoopController := {|
  lp_timer := lp_timer c; lp_active := lp_active c; lp_tick := true;
  lp_wakeRequested := lp_wakeRequested c; lp_stopped := lp_stopped c |}.

(** A new timer replaces the pending one. *)
Definition schedule (delayMs : jsnum) (c : WorkerLoopController) : WorkerLoopController :=
  if lp_stopped c then c else set_timer (Some delayMs) c.

Definition wake (c : WorkerLoopController) : WorkerLoopController :=
  if lp_stopped c || negb (lp_tick c) then c
  else match lp_active c with
  | Some _ => set_wakeRequested true c
  | None => schedule (num_of_Z 0) (set_wakeRequested false c)
  end.

Definition consumeWakeRequest (c : WorkerLoopController) : WorkerLoopController * bool :=
  (set_wakeRequested false c, lp_wakeRequested c).

Definition stop (c : WorkerLoopController) : WorkerLoopController :=
  if lp_stopped c then c
  else {| lp_timer := None; lp_active := lp_active c; lp_tick := lp_tick c;
          lp_wakeRequested := lp_wakeRequested c; lp_stopped := true |}.

Definition run (work : nat) (c : WorkerLoopController) : WorkerLoopController :=
  if lp_stopped c then c else set_active (Some work) c.

(** The timer's callback, up to the call of [runOnce], if it comes to that. *)
Definition tick (c : WorkerLoopController) : WorkerLoopController * bool :=
  let c := set_timer None c in (c, negb (lp_stopped c)).

(** How a run settles: with a result, or by an error, of [runOnce] or of [onResult]. *)
Inductive run_result := RunIdle | RunBusy | RunError.

Record intervals := { iv_idle : jsnum; iv_error : jsnum }.

(** The callbacks of [then] and [catch]. *)
Definition settle (i : intervals) (r : run_result) (c : WorkerLoopController)
    : WorkerLoopController :=
  let '(c, requested) := consumeWakeRequest c in
  schedule (if requested then num_of_Z 0
            else match r with
            | RunIdle => iv_idle i
            | RunBusy => num_of_Z 0
            | RunError => iv_error i
            end) c.

(** The [finally] callback. *)
Definition finalize (work : nat) (c : WorkerLoopController) : WorkerLoopController :=
  if decide (lp_active c = Some work) then set_active None c else c.

(** [value ?? fallback], which must be a non-negative finite number. *)
Definition normalizeInterval (value : option jsnum) (fallback : Z) : option jsnum :=
  let resolved := default (num_of_Z fallback) value in
  if negb (is_finite resolved) then None
  else match resolved with
  | SpecFloat.S754_finite true _ _ => None
  | _ => Some resolved
  end.

Record WorkerLoopOptions := {
  wo_idleIntervalMs : option jsnum;
  wo_errorIntervalMs : option jsnum;
  wo_aborted : bool;
}.

(** The loop that starts, with its intervals; or the error of a bad interval. *)
Definition startWorkerLoop (options : WorkerLoopOptions)
    : result string (WorkerLoopController * option intervals) :=
  if wo_aborted options then Ok (stop new_controller, None)
  else match normalizeInterval (wo_idleIntervalMs options) 250 with
  | None => Throw "worker idle interval must be a non-negative finite number"%string
  | Some idle =>
      match normalizeInterval (wo_errorIntervalMs options) 1000 with
      | None => Throw "worker error interval must be a non-negative finite number"%string
      | Some error =>
          Ok (schedule (num_of_Z 0) (attach new_controller),
              Some {| iv_idle := idle; iv_error := error |})
      end
  end.

(** ** The event loop

    What there is beside the controller: the runs in flight, each with how far it is, and how
    many have begun.  A run is [Calling] while [runOnce] has not returned its promise,
    [Working] until the promise settles, and [Settled] until its last callback has run. *)
Inductive work_phase := Calling | Working | Settled.

#[export] Instance work_phase_eq_dec : EqDecision work_phase.
Proof. solve_decision. Defined.

Record loop := {
  ll_controller : WorkerLoopController;
  ll_runs : gmap nat work_phase;
  ll_begun : nat;
}.

Definition started_loop (c : WorkerLoopController) : loop :=
  {| ll_controller := c; ll_runs := ∅; ll_begun := 0 |}.

Definition on_controller (f : WorkerLoopController → WorkerLoopController) (l : loop) : loop := {|
  ll_controller := f (ll_controller l); ll_runs := ll_runs l; ll_begun := ll_begun l |}.

Definition to_phase (work : nat) (phase : work_phase) (l : loop) : loop := {|
  ll_controller := ll_controller l; ll_runs := <[work := phase]> (ll_runs l);
  ll_begun := ll_begun l |}.

Definition end_run (work : nat) (l : loop) : loop := {|
  ll_controller := ll_controller l; ll_runs := delete work (ll_runs l);
  ll_begun := ll_begun l |}.

Definition fire (l : loop) : loop :=
  let '(c, calls) := tick (ll_controller l) in
  if calls then {| ll_controller := c; ll_runs := <[ll_begun l := Calling]> (ll_runs l);
                   ll_begun := S (ll_begun l) |}
  else {| ll_controller := c; ll_runs := ll_runs l; ll_begun := ll_begun l |}.

(** Code of [runOnce] is on the stack. *)
Definition calling (l : loop) : Prop := ∃ work, ll_runs l !! work = Some Calling.

(** What happens to a loop.  A timer fires only when no promise callback is pending; while
    [runOnce] is being called only its own calls of [wake] and [stop] can happen.  When
    [onError] throws, the [catch] callback ends before it schedules. *)
Inductive loop_event :=
| Fires | Returns | Settles (r : run_result) | SettlesThrowing | Finalizes
| Wakes | CallWakes | Stops.

Inductive loop_step (i : intervals) : loop_event → loop → loop → Prop :=
| step_fire l delay :
    lp_timer (ll_controller l) = Some delay →
    (∀ work phase, ll_runs l !! work = Some phase → phase = Working) →
    loop_step i Fires l (fire l)
| step_return work l :
    ll_runs l !! work = Some Calling →
    loop_step i Returns l (on_controller (run work) (to_phase work Working l))
| step_settle work r l :
    ll_runs l !! work = Some Working → ¬ calling l →
    loop_step i (Settles r) l (on_controller (settle i r) (to_phase work Settled l))
| step_settle_throwing work l :
    ll_runs l !! work = Some Working → ¬ calling l →
    loop_step i SettlesThrowing l (to_phase work Settled l)
| step_finalize work l :
    ll_runs l !! work = Some Settled → ¬ calling l →
    loop_step i Finalizes l (on_controller (finalize work) (end_run work l))
| step_wake l : ¬ calling l → loop_step i Wakes l (on_controller wake l)
| step_call_wake l : calling l → loop_step i CallWakes l (on_controller wake l)
| step_stop l : loop_step i Stops l (on_controller stop l).

Inductive loop_steps (i : intervals) : list loop_event → loop → loop → Prop :=
| loop_steps_nil l : loop_steps i [] l l
| loop_steps_cons e es l1 l2 l3 :
    loop_step i e l1 l2 → loop_steps i es l2 l3 → loop_steps i (e :: es) l1 l3.

(** ** What holds *)

Lemma started_eq options c i :
  startWorkerLoop options = Ok (c, Some i) → c = schedule (num_of_Z 0) (attach new_controller).
Proof.
  unfold startWorkerLoop. destruct (wo_aborted options); [discriminate|].
  destruct (normalizeInterval _ 250); [|discriminate].
  destruct (normalizeInterval _ 1000); [|discriminate]. by intros [= <- <-].
Qed.

(** A stopped loop has no timer. *)
Definition stopped_ok (c : WorkerLoopController) : Prop :=
  lp_stopped c = true → lp_timer c = None.

(** At most one run is in flight, and while the loop goes on the controller knows: there is no
    timer until it settles. *)
Definition runs_ok (l : loop) : Prop :=
  let c := ll_controller l in
  ll_runs l = ∅ ∧ (lp_stopped c = false → lp_active c = None) ∨
  ∃ work phase, ll_runs l = {[work := phase]} ∧
    (lp_stopped c = false →
     match phase with
     | Calling => lp_timer c = None ∧ lp_active c = None
     | Working => lp_timer c = None ∧ lp_active c = Some work
     | Settled => lp_active c = Some work
     end).

Record loop_ok (l : loop) : Prop := {
  lo_stopped : stopped_ok (ll_controller l);
  lo_runs : runs_ok l;
}.

(** Case analysis of a controller's flags. *)
Ltac loop_cases :=
  unfold settle, finalize, wake, stop, tick, run, schedule, fire, on_controller, to_phase, end_run,
    consumeWakeRequest, set_timer, set_active, set_wakeRequested, stopped_ok in *;
  simpl in *; repeat case_match; simplify_eq/=.

Lemma started_ok options c i :
  startWorkerLoop options = Ok (c, Some i) → loop_ok (started_loop c).
Proof. intros ->%started_eq. split; [done|]. by left. Qed.

Lemma stopped_ok_step i e l l' :
  stopped_ok (ll_controller l) → loop_step i e l l' → stopped_ok (ll_controller l').
Proof.
  intros Hs Hstep. destruct l as [[timer active attached requested stopped] runs begun].
  inversion Hstep; subst; simpl in *; loop_cases; naive_solver.
Qed.

(** The run in flight is the one a step is about. *)
Lemma runs_lookup l work phase :
  runs_ok l → ll_runs l !! work = Some phase →
  ll_runs l = {[work := phase]} ∧
  (lp_stopped (ll_controller l) = false →
   match phase with
   | Calling => lp_timer (ll_controller l) = None ∧ lp_active (ll_controller l) = None
   | Working => lp_timer (ll_controller l) = None ∧ lp_active (ll_controller l) = Some work
   | Settled => lp_active (ll_controller l) = Some work
   end).
Proof.
  intros [[-> _]|(work' & phase' & -> & H)] Hl; [done|].
  apply lookup_singleton_Some in Hl as [-> ->]. done.
Qed.

Lemma not_calling_phase l work phase :
  ¬ calling l → ll_runs l = {[work := phase]} → phase ≠ Calling.
Proof. intros Hc Hl ->. apply Hc. exists work. by rewrite Hl, lookup_singleton_eq. Qed.

Lemma runs_ok_step i e l l' : e ≠ CallWakes → loop_ok l → loop_step i e l l' → runs_ok l'.
Proof.
  intros He [Hs Hok] Hstep.
  inversion Hstep as [? delay Ht Hw|work ? Hl|work r ? Hl Hc|work ? Hl Hc|work ? Hl Hc|? Hc|?|];
    subst; try done.
  - assert (lp_stopped (ll_controller l) = false) as Hgo.
    { destruct (lp_stopped _) eqn:E; [|done]. by rewrite (Hs E) in Ht. }
    destruct Hok as [[Hr Ha]|(work & phase & Hr & Ha)].
    + right. exists (ll_begun l), Calling. specialize (Ha Hgo). unfold fire, tick. simpl.
      rewrite Hgo. simpl. rewrite Hr. split; [done|]. by intros _.
    + rewrite (Hw work phase) in Ha by (by rewrite Hr, lookup_singleton_eq).
      destruct (Ha Hgo) as [Hnone _]. congruence.
  - apply runs_lookup in Hl as [Hr Ha]; [|done]. right. exists work, Working. simpl.
    rewrite Hr, insert_singleton_eq. split; [done|].
    destruct (ll_controller l). loop_cases; naive_solver.
  - apply runs_lookup in Hl as [Hr Ha]; [|done]. right. exists work, Settled. simpl.
    rewrite Hr, insert_singleton_eq. split; [done|].
    destruct (ll_controller l). loop_cases; naive_solver.
  - apply runs_lookup in Hl as [Hr Ha]; [|done]. right. exists work, Settled. simpl.
    rewrite Hr, insert_singleton_eq. split; [done|]. naive_solver.
  - apply runs_lookup in Hl as [Hr Ha]; [|done]. left. simpl.
    rewrite Hr, delete_singleton_eq. split; [done|].
    destruct (ll_controller l). loop_cases; naive_solver.
  - destruct Hok as [[Hr Ha]|(work & phase & Hr & Ha)].
    + left. split; [done|]. simpl. destruct (ll_controller l). loop_cases; naive_solver.
    + right. exists work, phase. split; [done|].
      pose proof (not_calling_phase l work phase Hc Hr). simpl.
      destruct (ll_controller l), phase; loop_cases; naive_solver.
  - destruct Hok as [[Hr Ha]|(work & phase & Hr & Ha)];
      [left; split; [done|]|right; exists work, phase; split; [done|]]; simpl;
      destruct (ll_controller l); loop_cases; naive_solver.
Qed.

Lemma loop_steps_ok i es l l' :
  CallWakes ∉ es → loop_ok l → loop_steps i es l l' → loop_ok l'.
Proof.
  intros Hes Hc Hs. induction Hs as [|e es l1 l2 l3 Hstep _ IH]; [done|].
  apply not_elem_of_cons in Hes as [He Hes]. apply IH; [done|].
  split; [by eapply stopped_ok_step, Hstep; destruct Hc|by eapply runs_ok_step].
Qed.

Lemma stopped_ok_steps i es l l' :
  stopped_ok (ll_controller l) → loop_steps i es l l' → stopped_ok (ll_controller l').
Proof. intros Hc Hs. induction Hs; eauto using stopped_ok_step. Qed.

Lemma stopped_step i e l l' :
  stopped_ok (ll_controller l) → lp_stopped (ll_controller l) = true → loop_step i e l l' →
  lp_stopped (ll_controller l') = true ∧ ll_begun l' = ll_begun l.
Proof.
  intros Hs Hc Hstep. specialize (Hs Hc).
  destruct l as [[timer active attached requested stopped] runs begun].
  inversion Hstep; subst; simpl in *; loop_cases; done.
Qed.

Lemma stopped_steps i es l l' :
  stopped_ok (ll_controller l) → lp_stopped (ll_controller l) = true → loop_steps i es l l' →
  ll_begun l' = ll_begun l.
Proof.
  intros Hok Hc Hs. induction Hs as [l|e es l1 l2 l3 Hstep _ IH]; [done|].
  destruct (stopped_step i e l1 l2 Hok Hc Hstep) as [Hc2 <-].
  apply IH; [by eapply stopped_ok_step|done].
Qed.

(** Whatever is woken, stopped and settled in between, as long as [runOnce] does not itself call
    [wake] before it returns its promise: the worker's runs never overlap, from the call of
    [runOnce] to the last callback of its promise; and in any case, once the loop has been
    stopped no further run begins (C21). *)
Theorem worker_loop_safe options i c0 es l es' l' :
  startWorkerLoop options = Ok (c0, Some i) →
  loop_steps i es (started_loop c0) l → loop_steps i es' l l' →
  (CallWakes ∉ es → size (ll_runs l) ≤ 1) ∧
  (lp_stopped (ll_controller l) = true → ll_begun l' = ll_begun l).
Proof.
  intros H0%started_ok H1 H2. split.
  - intros Hes. destruct (loop_steps_ok _ _ _ _ Hes H0 H1) as [_ [[-> _]|(work & phase & -> & _)]];
      [by rewrite map_size_empty; lia|by rewrite map_size_singleton].
  - intros Hs. eapply stopped_steps; [|done..]. eapply stopped_ok_steps, H1. apply H0.
Qed.

(** The loop is alive: it waits for a timer or for a run, which it calls or which the controller
    has as its active one. *)
Definition alive (l : loop) : Prop :=
  lp_stopped (ll_controller l) = true ∨ is_Some (lp_timer (ll_controller l)) ∨ calling l ∨
  ∃ work, lp_active (ll_controller l) = Some work ∧ ll_runs l !! work = Some Working.

Lemma alive_step i e l l' :
  e ≠ SettlesThrowing → lp_tick (ll_controller l) = true → stopped_ok (ll_controller l) →
  alive l → loop_step i e l l' → alive l' ∧ lp_tick (ll_controller l') = true.
Proof.
  intros He Hat Hso Hal Hstep. unfold alive, calling in *.
  destruct l as [[timer active attached requested stopped] runs begun]. simpl in *.
  inversion Hstep as [? delay Ht Hw|work ? Hl|work r ? Hl Hc|work ? Hl Hc|work ? Hl Hc|? Hc|? Hc|];
    subst; simpl in *; try done.
  - destruct stopped; loop_cases; (split; [|done]); [by left|]. right. right. left.
    exists begun. by rewrite lookup_insert_eq.
  - destruct stopped; loop_cases; (split; [|done]); [by left|]. right. right. right.
    exists work. by rewrite lookup_insert_eq.
  - destruct stopped, requested, r; loop_cases; (split; [|done]); eauto.
  - split; [|by destruct stopped; loop_cases].
    destruct Hal as [->|[Htm|[?|(w & -> & Hw)]]]; [left; loop_cases; done| |done|].
    + right. left. loop_cases; done.
    + right. right. right. exists w. destruct (decide (w = work)) as [->|]; [congruence|].
      loop_cases; [congruence|]. by rewrite lookup_delete_ne.
  - destruct stopped; loop_cases; naive_solver.
  - destruct stopped; loop_cases; naive_solver.
  - destruct stopped; loop_cases; naive_solver.
Qed.

(** As long as no error handler throws, a loop that has not been stopped goes on: some
    timer is pending or some run is under way, which the controller knows once it is called (C22). *)
Theorem worker_loop_alive options i c0 es l :
  startWorkerLoop options = Ok (c0, Some i) → loop_steps i es (started_loop c0) l →
  SettlesThrowing ∉ es → alive l.
Proof.
  intros Hstart Hs. assert (alive (started_loop c0) ∧ lp_tick c0 = true) as [Hal Ht].
  { apply started_eq in Hstart as ->. split; [|done]. right. left. by eexists. }
  apply started_ok in Hstart as [Hso _]. simpl in Hso.
  change (lp_tick (ll_controller (started_loop c0)) = true) in Ht.
  change (stopped_ok (ll_controller (started_loop c0))) in Hso.
  induction Hs as [l|e es l1 l2 l3 Hstep _ IH]; intros Hes; [done|].
  apply not_elem_of_cons in Hes as [He Hes].
  destruct (alive_step i e l1 l2) as [Hal2 Ht2]; [done..|].
  apply IH; [by eapply stopped_ok_step|done..].
Qed.

(** The next run begins without delay. *)
Definition prompt (l : loop) : Prop :=
  let c := ll_controller l in
  lp_stopped c = true ∨ lp_timer c = Some (num_of_Z 0) ∨
  (∃ work, ll_runs l = {[work := Working]} ∧ lp_wakeRequested c = true).

Lemma prompt_step i e l l' :
  e ≠ SettlesThrowing → e ≠ CallWakes → lp_tick (ll_controller l) = true → loop_ok l →
  prompt l → loop_step i e l l' → ll_begun l' = ll_begun l → prompt l'.
Proof.
  intros He Hce Hat Hok [Hstop|Hp] Hstep Hb.
  { left. by apply (stopped_step i e l l' (lo_stopped l Hok) Hstop). }
  destruct (lp_stopped (ll_controller l)) eqn:Hgo.
  { left. by apply (stopped_step i e l l' (lo_stopped l Hok) Hgo). }
  destruct Hok as [_ Hruns]. unfold prompt.
  inversion Hstep as [? delay Ht Hw|work ? Hl|work r ? Hl Hc|work ? Hl Hc|work ? Hl Hc|? Hc|? Hc|];
    subst; try done.
  - unfold fire, tick in Hb. simpl in Hb. rewrite Hgo in Hb. simpl in Hb. lia.
  - apply runs_lookup in Hl as [Hr Ha]; [|done]. specialize (Ha Hgo) as [Ht _].
    destruct Hp as [Hp|(w & Hp & _)]; [congruence|]. rewrite Hr in Hp.
    apply (f_equal (lookup work)) in Hp. rewrite lookup_singleton_eq in Hp.
    symmetry in Hp. by apply lookup_singleton_Some in Hp as [_ ?].
  - apply runs_lookup in Hl as [Hr Ha]; [|done]. specialize (Ha Hgo) as [Ht _].
    destruct Hp as [Hp|(w & _ & Hp)]; [congruence|]. right. left.
    destruct l as [[timer active attached requested stopped] runs begun]. simpl in *.
    subst. loop_cases; congruence.
  - apply runs_lookup in Hl as [Hr Ha]; [|done].
    destruct Hp as [Hp|(w & Hp & _)].
    + right. left. destruct l as [[timer active attached requested stopped] runs begun]. simpl in *.
      loop_cases; done.
    + rewrite Hr in Hp. apply (f_equal (lookup work)) in Hp. rewrite lookup_singleton_eq in Hp.
      symmetry in Hp. by apply lookup_singleton_Some in Hp as [_ ?].
  - right. destruct l as [[timer active attached requested stopped] runs begun]. simpl in *.
    loop_cases; naive_solver.
  - left. destruct l as [[timer active attached requested stopped] runs begun]. simpl in *.
    by loop_cases.
Qed.

Lemma attached_step i e l l' :
  lp_tick (ll_controller l) = true → loop_step i e l l' → lp_tick (ll_controller l') = true.
Proof.
  intros Ht Hstep. destruct l as [[timer active attached requested stopped] runs begun].
  inversion Hstep; subst; simpl in *; loop_cases; done.
Qed.

Lemma attached_steps i es l l' :
  lp_tick (ll_controller l) = true → loop_steps i es l l' → lp_tick (ll_controller l') = true.
Proof. intros Ht Hs. induction Hs; eauto using attached_step. Qed.

Lemma begun_step i e l l' : loop_step i e l l' → ll_begun l ≤ ll_begun l'.
Proof.
  intros Hstep. destruct l as [[timer active attached requested stopped] runs begun].
  inversion Hstep; subst; simpl in *; loop_cases; lia.
Qed.

Lemma begun_steps i es l l' : loop_steps i es l l' → ll_begun l ≤ ll_begun l'.
Proof. intros Hs. induction Hs; [done|]. etrans; [by eapply begun_step|done]. Qed.

(** A wake-up is not lost: unless it falls into the call of [runOnce], or between a run's callback
    and its [finally] callback, the loop stays ready to run at once until the next run begins. *)
Theorem worker_loop_wake options i c0 es l es' l' :
  startWorkerLoop options = Ok (c0, Some i) →
  loop_steps i es (started_loop c0) l → CallWakes ∉ es ++ es' →
  (∀ work phase, ll_runs l !! work = Some phase → phase = Working) →
  loop_steps i es' (on_controller wake l) l' → SettlesThrowing ∉ es' →
  ll_begun l' = ll_begun l → prompt l'.
Proof.
  intros Hstart H1 [Hce Hce']%not_elem_of_app Hw H2.
  assert (lp_tick (ll_controller l) = true) as Hat.
  { eapply attached_steps, H1. by apply started_eq in Hstart as ->. }
  apply started_ok in Hstart as H0. pose proof (loop_steps_ok i es _ l Hce H0 H1) as Hok.
  assert (¬ calling l) as Hnc by (intros [work Hl]; by apply Hw in Hl).
  assert (prompt (on_controller wake l)) as Hp.
  { unfold prompt. destruct Hok as [_ [[_ Ha]|(work & phase & Hr & Ha)]].
    - destruct l as [[? ? ? ? []] ? ?]; loop_cases; naive_solver.
    - assert (phase = Working) as -> by (apply (Hw work); by rewrite Hr, lookup_singleton_eq).
      destruct l as [[? ? ? ? []] ? ?]; loop_cases; naive_solver. }
  change (ll_begun l) with (ll_begun (on_controller wake l)).
  assert (loop_ok (on_controller wake l)) as Hok'.
  { apply (loop_steps_ok i [Wakes] l); [set_solver|done|].
    eapply loop_steps_cons; [by apply step_wake|constructor]. }
  assert (lp_tick (ll_controller (on_controller wake l)) = true) as Hat'
    by (eapply attached_step, (step_wake i); done).
  clear Hok Hw Hnc H1 Hat. induction H2 as [l1|e es1 l1 l2 l3 Hstep Hrest IH]; intros Hes Hb; [done|].
  apply not_elem_of_cons in Hes as [He Hes], Hce' as [Hce1 Hce'].
  pose proof (begun_steps i es1 l2 l3 Hrest). pose proof (begun_step i e l1 l2 Hstep).
  assert (ll_begun l2 = ll_begun l1) as Heq by lia.
  apply IH; [done|by eapply prompt_step| |by eapply attached_step|done|congruence].
  apply (loop_steps_ok i [e] l1); [set_solver|done|]. eapply loop_steps_cons; [done|constructor].
Qed.

(** * The heartbeat ([heartbeat.ts]) *)

(** [HeartbeatLoop]: the timers pending on the event loop and the one the loop holds,
    the beats in flight and the one the loop awaits; timers and beats are numbered. *)
Record HeartbeatLoop := {
  hb_timers : list nat;
  hb_timer : option nat;
  hb_beats : list nat;
  hb_active : option nat;
  hb_running : bool;
  hb_next : nat;
  hb_begun : nat;
}.

Definition new_heartbeat : HeartbeatLoop := {|
  hb_timers := []; hb_timer := None; hb_beats := []; hb_active := None;
  hb_running := false; hb_next := 0; hb_begun := 0 |}.

(** [schedule]: [setTimeout] whatever timer is held. *)
Definition hb_schedule (h : HeartbeatLoop) : HeartbeatLoop :=
  if negb (hb_running h) then h
  else {| hb_timers := hb_timers h ++ [hb_next h]; hb_timer := Some (hb_next h);
          hb_beats := hb_beats h; hb_active := hb_active h; hb_running := hb_running h;
          hb_next := S (hb_next h); hb_begun := hb_begun h |}.

Definition hb_start (h : HeartbeatLoop) : HeartbeatLoop :=
  if hb_running h then h
  else hb_schedule {| hb_timers := hb_timers h; hb_timer := hb_timer h;
         hb_beats := hb_beats h; hb_active := hb_active h; hb_running := true;
         hb_next := hb_next h; hb_begun := hb_begun h |}.

(** Up to the [await]. *)
Definition hb_stop (h : HeartbeatLoop) : HeartbeatLoop := {|
  hb_timers := match hb_timer h with
    | Some t => filter (fun t' => t' ≠ t) (hb_timers h) | None => hb_timers h end;
  hb_timer := None; hb_beats := hb_beats h; hb_active := hb_active h;
  hb_running := false; hb_next := hb_next h; hb_begun := hb_begun h |}.

(** The callback of the timer [t]. *)
Definition hb_fire (t : nat) (h : HeartbeatLoop) : HeartbeatLoop :=
  let timers := filter (fun t' => t' ≠ t) (hb_timers h) in
  if negb (hb_running h) then {|
    hb_timers := timers; hb_timer := None; hb_beats := hb_beats h;
    hb_active := hb_active h; hb_running := hb_running h; hb_next := hb_next h;
    hb_begun := hb_begun h |}
  else {|
    hb_timers := timers; hb_timer := None; hb_beats := hb_beats h ++ [hb_next h];
    hb_active := Some (hb_next h); hb_running := hb_running h; hb_next := S (hb_next h);
    hb_begun := S (hb_begun h) |}.

(** The beat [b] has settled, its error has been handled, and [finally] runs. *)
Definition hb_settle (b : nat) (h : HeartbeatLoop) : HeartbeatLoop :=
  hb_schedule {|
    hb_timers := hb_timers h; hb_timer := hb_timer h;
    hb_beats := filter (fun b' => b' ≠ b) (hb_beats h);
    hb_active := if decide (hb_active h = Some b) then None else hb_active h;
    hb_running := hb_running h; hb_next := hb_next h; hb_begun := hb_begun h |}.

(** After its start a heartbeat fires, settles, and is stopped. *)
Inductive heartbeat_step : HeartbeatLoop → HeartbeatLoop → Prop :=
| beat_fires t h : t ∈ hb_timers h → heartbeat_step h (hb_fire t h)
| beat_settles b h : b ∈ hb_beats h → heartbeat_step h (hb_settle b h)
| beat_stops h : heartbeat_step h (hb_stop h).

(** While it runs, the heartbeat has one timer or one beat, and holds it; stopped, it
    has no timer and at most the last beat. *)
Definition heartbeat_ok (h : HeartbeatLoop) : Prop :=
  if hb_running h then
    (∃ t, hb_timers h = [t] ∧ hb_timer h = Some t ∧ hb_beats h = [] ∧ hb_active h = None) ∨
    (∃ b, hb_timers h = [] ∧ hb_timer h = None ∧ hb_beats h = [b] ∧ hb_active h = Some b)
  else
    hb_timers h = [] ∧ hb_timer h = None ∧
    ((hb_beats h = [] ∧ hb_active h = None) ∨ ∃ b, hb_beats h = [b] ∧ hb_active h = Some b).

Lemma filter_self (n : nat) : filter (fun m => m ≠ n) [n] = [].
Proof. rewrite filter_cons_False; [done|]. by intros Hn; apply Hn. Qed.

Lemma heartbeat_step_ok h h' : heartbeat_ok h → heartbeat_step h h' → heartbeat_ok h'.
Proof.
  intros Hh Hs. unfold heartbeat_ok in *.
  destruct Hs as [t h Ht|b h Hb|h]; destruct h as [timers timer beats active running next begun];
    simpl in *.
  - destruct running; simpl.
    + destruct Hh as [(t' & -> & -> & -> & ->)|(b & -> & _)]; [|set_solver].
      apply list_elem_of_singleton in Ht as ->. rewrite filter_self. right. eauto.
    + destruct Hh as (-> & _). set_solver.
  - unfold hb_settle, hb_schedule; simpl. destruct running; simpl.
    + destruct Hh as [(t' & _ & _ & -> & _)|(b' & -> & -> & -> & ->)]; [set_solver|].
      apply list_elem_of_singleton in Hb as ->. rewrite filter_self, decide_True by done.
      left. eauto.
    + destruct Hh as (-> & -> & [[-> ->]|(b' & -> & ->)]); [set_solver|].
      apply list_elem_of_singleton in Hb as ->. rewrite filter_self, decide_True by done. auto.
  - destruct running; [|destruct Hh as (-> & -> & ?); done].
    destruct Hh as [(t & -> & -> & -> & ->)|(b & -> & -> & -> & ->)]; simpl;
      [rewrite filter_self|]; naive_solver.
Qed.

Lemma heartbeat_stopped_step h h' :
  heartbeat_ok h → hb_running h = false → heartbeat_step h h' →
  hb_running h' = false ∧ hb_begun h' = hb_begun h.
Proof.
  intros Hh Hr Hs. unfold heartbeat_ok in Hh. rewrite Hr in Hh. destruct Hh as (Ht & _ & _).
  destruct Hs as [t h Hin|b h _|h]; [rewrite Ht in Hin; set_solver| |done].
  unfold hb_settle, hb_schedule. simpl. by rewrite Hr.
Qed.

Lemma heartbeat_steps_ok h h' : heartbeat_ok h → rtc heartbeat_step h h' → heartbeat_ok h'.
Proof. intros Hh Hs. induction Hs; eauto using heartbeat_step_ok. Qed.

Lemma started_heartbeat : heartbeat_ok (hb_start new_heartbeat).
Proof. left. by eexists. Qed.

(** Beats of a heartbeat that was started once never overlap, while it runs another is
    always coming, and after a stop none begins. *)
Theorem heartbeat_safe h h' :
  rtc heartbeat_step (hb_start new_heartbeat) h → rtc heartbeat_step h h' →
  length (hb_beats h) ≤ 1 ∧
  (hb_running h = true → length (hb_timers h) + length (hb_beats h) = 1) ∧
  (hb_running h = false → hb_begun h' = hb_begun h).
Proof.
  intros H1 H2. pose proof (heartbeat_steps_ok _ _ started_heartbeat H1) as Hh.
  split; [|split].
  - unfold heartbeat_ok in Hh. destruct (hb_running h);
      [destruct Hh as [(t & _ & _ & -> & _)|(b & _ & _ & -> & _)]
      |destruct Hh as (_ & _ & [[-> _]|(b & -> & _)])]; simpl; lia.
  - intros Hr. unfold heartbeat_ok in Hh. rewrite Hr in Hh.
    by destruct Hh as [(t & -> & _ & -> & _)|(b & -> & _ & -> & _)].
  - clear H1. intros Hr. revert Hh Hr.
    induction H2 as [h|h1 h2 h3 Hs _ IH]; intros Hh Hr; [done|].
    destruct (heartbeat_stopped_step h1 h2 Hh Hr Hs) as [Hr2 <-].
    apply IH; [by eapply heartbeat_step_ok|done].
Qed.

(** * Examples *)

Definition default_options : WorkerLoopOptions :=
  {| wo_idleIntervalMs := None; wo_errorIntervalMs := None; wo_aborted := false |}.

Definition default_intervals : intervals :=
  {| iv_idle := num_of_Z 250; iv_error := num_of_Z 1000 |}.

Definition started : WorkerLoopController := schedule (num_of_Z 0) (attach new_controller).

Lemma started_run : startWorkerLoop default_options = Ok (started, Some default_intervals).
Proof. vm_compute. reflexivity. Qed.

Ltac loop_run :=
  repeat match goal with
  | |- loop_steps _ (?e :: _) _ _ => eapply loop_steps_cons
  | |- loop_steps _ [] _ _ => apply loop_steps_nil
  end.

Definition called : loop := fire (started_loop started).
Definition working : loop := on_controller (run 0) (to_phase 0 Working called).

Lemma fired : loop_step default_intervals Fires (started_loop started) called.
Proof. eapply step_fire; [reflexivity|]. intros work phase H. discriminate H. Qed.

Lemma called_reached : loop_steps default_intervals [Fires] (started_loop started) called.
Proof. loop_run. apply fired. Qed.

Lemma working_reached :
  loop_steps default_intervals [Fires; Returns] (started_loop started) working.
Proof. loop_run; [apply fired|]. by apply (step_return _ 0). Qed.

(** A run that finds nothing to do, up to its callback, *)
Definition idle_settled : loop :=
  on_controller (settle default_intervals RunIdle) (to_phase 0 Settled working).

(** and to its end. *)
Definition idle : loop := on_controller (finalize 0) (end_run 0 idle_settled).

Lemma not_calling_single (l : loop) work phase :
  ll_runs l = {[work := phase]} → phase ≠ Calling → ¬ calling l.
Proof. intros Hl Hp [w Hw]. rewrite Hl in Hw. by apply lookup_singleton_Some in Hw as [_ ->]. Qed.

Lemma idle_reached :
  loop_steps default_intervals [Fires; Returns; Settles RunIdle; Finalizes]
    (started_loop started) idle.
Proof.
  loop_run; [apply fired|by apply (step_return _ 0)|apply (step_settle _ 0)|
    apply (step_finalize _ 0)]; [reflexivity|by apply (not_calling_single _ 0 Working)|
    reflexivity|by apply (not_calling_single _ 0 Settled)].
Qed.

Lemma idle_empty : ll_runs idle = ∅.
Proof. reflexivity. Qed.

Lemma idle_not_calling : ¬ calling idle.
Proof. intros [work Hw]. by rewrite idle_empty in Hw. Qed.

(** A wake-up between the callback and the [finally] callback is lost: the loop waits
    for the idle interval. *)
Lemma wake_lost :
  let l := on_controller (finalize 0) (end_run 0 (on_controller wake idle_settled)) in
  lp_timer (ll_controller l) = Some (num_of_Z 250) ∧ lp_active (ll_controller l) = None ∧
  lp_timer (wake (ll_controller idle)) = Some (num_of_Z 0).
Proof. vm_compute. repeat split. Qed.

(** A wake-up by [runOnce] itself, before its promise is the active one, schedules a second run
    that begins while the first is under way. *)
Definition overlapping : loop :=
  fire (on_controller (run 0) (to_phase 0 Working (on_controller wake called))).

Lemma wake_in_call_overlaps :
  loop_steps default_intervals [Fires; CallWakes; Returns; Fires] (started_loop started)
    overlapping ∧ size (ll_runs overlapping) = 2.
Proof.
  split; [|reflexivity]. loop_run;
    [apply fired|apply step_call_wake; by exists 0|by apply (step_return _ 0)|].
  eapply step_fire; [reflexivity|]. intros work phase Hw.
  change (({[0 := Working]} : gmap nat work_phase) !! work = Some phase) in Hw.
  by apply lookup_singleton_Some in Hw as [_ <-].
Qed.

Lemma worker_loop_safe_witness :
  (CallWakes ∉ [Fires; Returns; Settles RunIdle; Finalizes] → size (ll_runs idle) ≤ 1) ∧
  (lp_stopped (ll_controller idle) = true → ll_begun (on_controller wake idle) = ll_begun idle).
Proof.
  refine (worker_loop_safe default_options default_intervals started _ idle [Wakes]
    (on_controller wake idle) started_run idle_reached _).
  eapply loop_steps_cons; [apply step_wake, idle_not_calling|constructor].
Defined.

Lemma worker_loop_alive_witness : alive idle.
Proof.
  refine (worker_loop_alive default_options default_intervals started _ idle started_run
    idle_reached _).
  rewrite !not_elem_of_cons. repeat split; try discriminate. apply not_elem_of_nil.
Defined.

Lemma worker_loop_wake_witness :
  lp_timer (ll_controller idle) = Some (num_of_Z 250) ∧ prompt (on_controller wake idle).
Proof.
  split; [vm_compute; reflexivity|].
  refine (worker_loop_wake default_options default_intervals started _ idle []
    (on_controller wake idle) started_run idle_reached _ _ _ _ _).
  - simpl. rewrite !not_elem_of_cons. repeat split; try discriminate. apply not_elem_of_nil.
  - intros work phase Hw. by rewrite idle_empty in Hw.
  - constructor.
  - intros H. inversion H.
  - vm_compute. reflexivity.
Defined.

Lemma heartbeat_safe_witness :
  let h := hb_settle 1 (hb_fire 0 (hb_start new_heartbeat)) in
  hb_begun h = 1 ∧ length (hb_beats h) ≤ 1 ∧
  (hb_running h = true → length (hb_timers h) + length (hb_beats h) = 1) ∧
  (hb_running h = false → hb_begun (hb_stop h) = hb_begun h).
Proof.
  split; [vm_compute; reflexivity|].
  refine (heartbeat_safe _ (hb_stop _) _ (rtc_once _ _ (beat_stops _))).
  eapply rtc_l; [apply (beat_fires 0); left|].
  apply rtc_once, (beat_settles 1). left.
Defined.
