(* ===== verification/Program.v ===== *)
(** Programs that call an environment they do not control: an [async] function is the
    finite tree of its calls, each of which may return anything or throw.  What such a
    program does is a trace of calls with their outcomes; a monitor judges traces, and
    [wp] says that every trace of a program passes. *)
From S2P Require Import Prelude.

Section program.
Context {E : Type} {call : Type → Type}.

Inductive prog (A : Type) : Type :=
| Return (a : A)
| Raise (e : E)
| Call (R : Type) (c : call R) (k : result E R → prog A).
Arguments Return {A}.
Arguments Raise {A}.
Arguments Call {A R}.

(** Go on with the value of a program, or with what it throws. *)
Fixpoint handle {A B} (f : result E A → prog B) (p : prog A) : prog B :=
  match p with
  | Return a => f (Ok a)
  | Raise e => f (Throw e)
  | Call c k => Call c (fun r => handle f (k r))
  end.

#[export] Instance prog_ret : MRet prog := fun A a => Return a.
#[export] Instance prog_bind : MBind prog := fun A B f =>
  handle (fun r => match r with Ok a => f a | Throw e => Raise e end).

Definition await {R} (c : call R) : prog R :=
  Call c (fun r => match r with Ok a => Return a | Throw e => Raise e end).

(** [try { p } catch (e) { h(e) }] *)
Definition try_catch {A} (p : prog A) (h : E → prog A) : prog A :=
  handle (fun r => match r with Ok a => Return a | Throw e => h e end) p.

(** [try { p } finally { q }] *)
Definition try_finally {A} (p : prog A) (q : prog unit) : prog A :=
  handle (fun r => _ ← q; match r with Ok a => Return a | Throw e => Raise e end) p.

(** How a program ends, as a value. *)
Definition attempt {A} (p : prog A) : prog (result E A) := handle (fun r => Return r) p.

Definition of_result {A} (r : result E A) : prog A :=
  match r with Ok a => Return a | Throw e => Raise e end.

Definition raise_if (c : bool) (e : E) : prog unit := if c then Raise e else mret tt.

(** [for (const x of l) await body(x)] *)
Fixpoint for_each {A} (body : A → prog unit) (l : list A) : prog unit :=
  match l with
  | [] => mret tt
  | x :: l => _ ← body x; for_each body l
  end.

(** * Traces *)

Inductive event : Type := Event (R : Type) (c : call R) (r : result E R).
Arguments Event {R}.

Inductive trace {A} : prog A → list event → result E A → Prop :=
| trace_return a : trace (Return a) [] (Ok a)
| trace_raise e : trace (Raise e) [] (Throw e)
| trace_call R (c : call R) k r t o :
    trace (k r) t o → trace (Call c k) (Event c r :: t) o.

(** * Monitors *)

Section monitor.
Context {S : Type} (step : S → event → option S).
(** The outcomes the environment may give. *)
Context (possible : event → Prop).

Fixpoint judge (s : S) (t : list event) : option S :=
  match t with
  | [] => Some s
  | e :: t => s' ← step s e; judge s' t
  end.

(** From the monitor state [s], whatever the environment answers, every call of the
    program is allowed, and its end satisfies [Q]. *)
Fixpoint wp {A} (p : prog A) (Q : result E A → S → Prop) (s : S) : Prop :=
  match p with
  | Return a => Q (Ok a) s
  | Raise e => Q (Throw e) s
  | Call c k => ∀ r, possible (Event c r) →
      ∃ s', step s (Event c r) = Some s' ∧ wp (k r) Q s'
  end.

Lemma wp_trace {A} (p : prog A) Q s t o :
  wp p Q s → trace p t o → Forall possible t → ∃ s', judge s t = Some s' ∧ Q o s'.
Proof.
  intros Hwp Ht. revert s Hwp. induction Ht as [a|e|R c k r t o _ IH]; intros s Hwp Hp; simpl.
  - eauto.
  - eauto.
  - apply Forall_cons in Hp as [Hr Hp]. destruct (Hwp r Hr) as (s1 & -> & Hk). by apply IH.
Qed.

Lemma wp_mono {A} (p : prog A) (Q Q' : result E A → S → Prop) s :
  (∀ r s, Q r s → Q' r s) → wp p Q s → wp p Q' s.
Proof.
  intros HQ. revert s. induction p as [a|e|R c k IH]; intros s; simpl; [auto|auto|].
  intros Hwp r Hr. destruct (Hwp r Hr) as (s1 & ? & Hk). exists s1. auto.
Qed.

Lemma wp_handle {A B} (f : result E A → prog B) p Q s :
  wp p (fun r => wp (f r) Q) s → wp (handle f p) Q s.
Proof.
  revert s. induction p as [a|e|R c k IH]; intros s; simpl; [done|done|].
  intros Hwp r Hr. destruct (Hwp r Hr) as (s1 & ? & Hk). exists s1. auto.
Qed.

(** The rules of the constructs, all from [wp_handle]. *)
Lemma wp_bind {A B} (p : prog A) (f : A → prog B) Q s :
  wp p (fun r s => match r with Ok a => wp (f a) Q s | Throw e => Q (Throw e) s end) s →
  wp (p ≫= f) Q s.
Proof. intros Hwp. apply wp_handle. eapply wp_mono, Hwp. by intros []. Qed.

Lemma wp_try_catch {A} (p : prog A) h Q s :
  wp p (fun r s => match r with Ok a => Q (Ok a) s | Throw e => wp (h e) Q s end) s →
  wp (try_catch p h) Q s.
Proof. intros Hwp. apply wp_handle. eapply wp_mono, Hwp. by intros []. Qed.

Lemma wp_try_finally {A} (p : prog A) q Q s :
  wp p (fun r => wp q (fun u s => match u with Ok _ => Q r s | Throw e => Q (Throw e) s end)) s →
  wp (try_finally p q) Q s.
Proof.
  intros Hwp. apply wp_handle. eapply wp_mono, Hwp. intros r s1 Hq. apply wp_bind.
  eapply wp_mono, Hq. intros [[]|e]; [by destruct r|done].
Qed.

Lemma wp_attempt {A} (p : prog A) (Q : result E (result E A) → S → Prop) s :
  wp p (fun r s => Q (Ok r) s) s → wp (attempt p) Q s.
Proof. intros Hwp. apply wp_handle. eapply wp_mono, Hwp. done. Qed.

Lemma wp_of_result {A} (r : result E A) (Q : result E A → S → Prop) s :
  Q r s → wp (of_result r) Q s.
Proof. by destruct r. Qed.

Lemma wp_call {R} (c : call R) Q s :
  (∀ r, possible (Event c r) → ∃ s', step s (Event c r) = Some s' ∧ Q r s') →
  wp (await c) Q s.
Proof.
  intros HQ r Hr. destruct (HQ r Hr) as (s' & Hs & Hq). exists s'. split; [done|]. by destruct r.
Qed.

Lemma wp_raise_if c e (Q : result E unit → S → Prop) s :
  (c = false → Q (Ok tt) s) → Q (Throw e) s → wp (raise_if c e) Q s.
Proof. intros Hf Ht. destruct c; simpl; auto. Qed.

(** A loop keeps an invariant, whether it ends or throws. *)
Lemma wp_for_each {A} (I : S → Prop) (R : E → S → Prop) (body : A → prog unit) l s :
  (∀ x s, x ∈ l → I s → wp (body x) (fun r s => match r with Ok _ => I s | Throw e => R e s end) s) →
  I s → wp (for_each body l) (fun r s => match r with Ok _ => I s | Throw e => R e s end) s.
Proof.
  intros Hb. revert s. induction l as [|x l IH]; intros s Hs; simpl; [done|].
  apply wp_bind. eapply wp_mono; [|apply Hb; [left|done]]. intros [[]|e] s1 H1; [|done].
  apply IH; [|done]. intros y s2 Hy. apply Hb. by right.
Qed.
End monitor.

(** The monitor that lets everything pass and keeps the trace. *)
Section collect.
Context (possible : event → Prop).

Definition collect (t : list event) (e : event) : option (list event) := Some (t ++ [e]).

Lemma collect_await {R} (c : call R) (Q : result E R → list event → Prop) t :
  (∀ r, possible (Event c r) → Q r (t ++ [Event c r])) → wp collect possible (await c) Q t.
Proof. intros HQ. apply wp_call. intros r Hr. eexists. split; [done|auto]. Qed.

Lemma judge_collect t t' : judge collect t t' = Some (t ++ t').
Proof.
  revert t. induction t' as [|e t' IH]; intros t; simpl; [by rewrite app_nil_r|].
  rewrite IH. by rewrite <-app_assoc.
Qed.

Lemma collect_trace {A} (p : prog A) (Q : result E A → list event → Prop) t o :
  wp collect possible p Q [] → trace p t o → Forall possible t → Q o t.
Proof.
  intros Hwp Ht Hp. destruct (wp_trace _ _ _ _ _ _ _ Hwp Ht Hp) as (t' & Hj & Hq).
  rewrite judge_collect in Hj. by injection Hj as <-.
Qed.
End collect.

(** A program that follows a monitor adds to a trace a part that the monitor accepts. *)
Lemma wp_collect {A S} (step : S → event → option S) possible (p : prog A)
    (Q : result E A → S → Prop) s t :
  wp step possible p Q s →
  wp collect possible p (fun r t' => ∃ t1 s', t' = t ++ t1 ∧ judge step s t1 = Some s' ∧ Q r s') t.
Proof.
  revert s t. induction p as [a|e|R c k IH]; intros s t; simpl.
  - intros HQ. exists [], s. by rewrite app_nil_r.
  - intros HQ. exists [], s. by rewrite app_nil_r.
  - intros Hwp r Hr. destruct (Hwp r Hr) as (s1 & Hs & Hk). eexists. split; [done|].
    eapply wp_mono; [|by eapply IH]. simpl. intros o t' (t1 & s' & -> & Hj & HQ).
    exists (Event c r :: t1), s'. split; [by rewrite <-app_assoc|]. split; [|done].
    simpl. by rewrite Hs.
Qed.

Lemma elem_of_snoc (e : event) t : e ∈ t ++ [e].
Proof. set_solver. Qed.

(** * Running *)

(** An environment answers every call from its state. *)
Section interp.
Context {W : Type} (env : ∀ R, call R → stM W E R).

Fixpoint interp {A} (p : prog A) : stM W E A := fun w =>
  match p with
  | Return a => (w, Ok a)
  | Raise e => (w, Throw e)
  | Call c k => let '(w', r) := env _ c w in interp (k r) w'
  end.

(** The calls of a trace, as the environment answers them. *)
Inductive answers : W → list event → W → Prop :=
| answers_nil w : answers w [] w
| answers_cons w R (c : call R) r w1 t w2 :
    env R c w = (w1, r) → answers w1 t w2 → answers w (Event c r :: t) w2.

Lemma interp_trace {A} (p : prog A) w w' o :
  interp p w = (w', o) → ∃ t, trace p t o ∧ answers w t w'.
Proof.
  revert w. induction p as [a|e|R c k IH]; intros w; simpl.
  - intros [= <- <-]. exists []. by split; constructor.
  - intros [= <- <-]. exists []. by split; constructor.
  - destruct (env R c w) as [w1 r] eqn:E1. intros (t & Ht & Ha)%IH.
    exists (Event c r :: t). by split; econstructor.
Qed.

Lemma interp_handle {A B} (f : result E A → prog B) (p : prog A) w :
  interp (handle f p) w = let '(w', r) := interp p w in interp (f r) w'.
Proof.
  revert w. induction p as [a|e|R c k IH]; intros w; simpl; [done|done|].
  by destruct (env R c w) as [w1 r].
Qed.

Lemma interp_bind {A B} (p : prog A) (f : A → prog B) w :
  interp (p ≫= f) w =
  let '(w', r) := interp p w in
  match r with Ok a => interp (f a) w' | Throw e => (w', Throw e) end.
Proof.
  unfold mbind, prog_bind. rewrite interp_handle. by destruct (interp p w) as [w' [a|e]].
Qed.

Section invariant.
Context {S : Type} (step : S → event → option S) (I : S → W → Prop).

(** What the monitor and the environment keep between them. *)
Lemma judge_answers t w w' s s' :
  (∀ R (c : call R) s w s1, I s w → step s (Event c (env R c w).2) = Some s1 →
    I s1 (env R c w).1) →
  I s w → answers w t w' → judge step s t = Some s' → I s' w'.
Proof.
  intros Hstep Hi Ha. revert s Hi. induction Ha as [w|w R c r w1 t w2 He _ IH]; intros s Hi; simpl.
  - by intros [= <-].
  - destruct (step s (Event c r)) as [s1|] eqn:Hs; [simpl|done].
    apply IH. specialize (Hstep R c s w s1 Hi). rewrite He in Hstep. by apply Hstep.
Qed.

Lemma answers_forall (possible : event → Prop) w t w' :
  (∀ R (c : call R) w, possible (Event c (env R c w).2)) → answers w t w' → Forall possible t.
Proof.
  intros Henv Ha. induction Ha as [w|w R c r w1 t w2 He _ IH]; constructor; [|done].
  specialize (Henv R c w). by rewrite He in Henv.
Qed.
End invariant.

(** The calls of a run, by evaluation. *)
Fixpoint run {A} (p : prog A) (w : W) : list event * result E A :=
  match p with
  | Return a => ([], Ok a)
  | Raise e => ([], Throw e)
  | Call c k =>
      let '(w', r) := env _ c w in
      let '(t, o) := run (k r) w' in (Event c r :: t, o)
  end.

Lemma run_trace {A} (p : prog A) w : trace p (run p w).1 (run p w).2.
Proof.
  revert w. induction p as [a|e|R c k IH]; intros w; simpl; [constructor..|].
  destruct (env R c w) as [w1 r]. specialize (IH r w1).
  destruct (run (k r) w1) as [t o]. by constructor.
Qed.

Lemma run_forall {A} (possible : event → Prop) (p : prog A) w :
  (∀ R (c : call R) w, possible (Event c (env R c w).2)) → Forall possible (run p w).1.
Proof.
  intros Henv. revert w. induction p as [a|e|R c k IH]; intros w; simpl; [constructor..|].
  specialize (Henv R c w). destruct (env R c w) as [w1 r]. specialize (IH r w1).
  destruct (run (k r) w1) as [t o]. by constructor.
Qed.
End interp.

(** * Local variables *)

(** A [try] body that assigns the variables of its function: an exception leaves them as
    they are. *)
Section locals.
Context {L : Type}.

Definition lprog (A : Type) : Type := L → prog (L * result E A).

#[export] Instance lprog_ret : MRet lprog := fun A a l => Return (l, Ok a).
#[export] Instance lprog_bind : MBind lprog := fun A B f m l =>
  handle (fun r => match r with
    | Ok (l', Ok a) => f a l'
    | Ok (l', Throw e) => Return (l', Throw e)
    | Throw e => Raise e
    end) (m l).

Definition lift {A} (p : prog A) : lprog A := fun l => handle (fun r => Return (l, r)) p.
Definition assign (f : L → L) : lprog unit := fun l => Return (f l, Ok tt).
Definition locals : lprog L := fun l => Return (l, Ok l).
Definition lraise {A} (e : E) : lprog A := fun l => Return (l, Throw e).

(** [try { m } catch (e) { h(e) }], where both assign. *)
Definition ltry {A} (m : lprog A) (h : E → lprog A) : lprog A := fun l =>
  handle (fun r => match r with
    | Ok (l', Ok a) => Return (l', Ok a)
    | Ok (l', Throw e) => h e l'
    | Throw e => Raise e
    end) (m l).

(** The program of a function whose variables start as [l]. *)
Definition with_locals {A} (l : L) (m : lprog A) : prog A :=
  handle (fun r => match r with
    | Ok (_, Ok a) => Return a
    | Ok (_, Throw e) => Raise e
    | Throw e => Raise e
    end) (m l).

Section lwp.
Context {S : Type} (step : S → event → option S) (possible : event → Prop).

Definition lwp {A} (m : lprog A) (Q : result E A → L → S → Prop) (l : L) (s : S) : Prop :=
  wp step possible (m l)
    (fun r s => match r with Ok (l', o) => Q o l' s | Throw _ => False end) s.

Lemma lwp_bind {A B} (m : lprog A) (f : A → lprog B) Q l s :
  lwp m (fun r l s => match r with Ok a => lwp (f a) Q l s | Throw e => Q (Throw e) l s end) l s →
  lwp (m ≫= f) Q l s.
Proof.
  intros Hm. apply wp_handle. eapply wp_mono, Hm. by intros [[l' [a|e]]|e] s'.
Qed.

Lemma lwp_lift {A} (p : prog A) Q l s :
  wp step possible p (fun r s => Q r l s) s → lwp (lift p) Q l s.
Proof. intros Hp. apply wp_handle. eapply wp_mono, Hp. done. Qed.

Lemma lwp_ltry {A} (m : lprog A) h Q l s :
  lwp m (fun r l s => match r with Ok a => Q (Ok a) l s | Throw e => lwp (h e) Q l s end) l s →
  lwp (ltry m h) Q l s.
Proof. intros Hm. apply wp_handle. eapply wp_mono, Hm. by intros [[l' [a|e]]|e] s'. Qed.

Lemma wp_with_locals {A} (m : lprog A) (Q : result E A → S → Prop) l s :
  lwp m (fun r _ s => Q r s) l s → wp step possible (with_locals l m) Q s.
Proof. intros Hm. apply wp_handle. eapply wp_mono, Hm. by intros [[l' [a|e]]|e] s'. Qed.

Lemma lwp_locals (Q : result E L → L → S → Prop) l s : Q (Ok l) l s → lwp locals Q l s.
Proof. done. Qed.

Lemma lwp_mono {A} (m : lprog A) (Q Q' : result E A → L → S → Prop) l s :
  (∀ r l s, Q r l s → Q' r l s) → lwp m Q l s → lwp m Q' l s.
Proof. intros HQ. apply wp_mono. intros [[l' o]|e] s'; [apply HQ|done]. Qed.

Lemma lwp_assign f (Q : result E unit → L → S → Prop) l s : Q (Ok tt) (f l) s → lwp (assign f) Q l s.
Proof. done. Qed.
End lwp.
End locals.
End program.
Arguments prog : clear implicits.
Arguments event : clear implicits.
Arguments lprog : clear implicits.
Arguments Return {E call A}.
Arguments Raise {E call A}.
Arguments Call {E call A R}.
Arguments Event {E call R}.

(** Symbolic execution: one construct at a time, but for the calls. *)
Ltac wp_rule :=
  lazymatch goal with
  | |- wp _ _ (_ ≫= _) _ _ => apply wp_bind
  | |- lwp _ _ (_ ≫= _) _ _ _ => apply lwp_bind
  | |- lwp _ _ (lift _) _ _ _ => apply lwp_lift
  | |- lwp _ _ (ltry _ _) _ _ _ => apply lwp_ltry
  | |- lwp _ _ locals ?Q ?l ?m => change (Q (Ok l) l m); cbn beta iota
  | |- wp _ _ (try_catch _ _) _ _ => apply wp_try_catch
  | |- wp _ _ (try_finally _ _) _ _ => apply wp_try_finally
  | |- wp _ _ (attempt _) _ _ => apply wp_attempt
  | |- wp _ _ (of_result _) _ _ => apply wp_of_result
  | |- wp _ _ (with_locals _ _) _ _ => apply wp_with_locals
  | |- wp _ _ (raise_if _ _) _ _ => apply wp_raise_if; [intros ?|]
  | |- wp _ _ (mret ?a) ?Q ?m => change (Q (Ok a) m); cbn beta iota
  | |- wp _ _ (Raise ?e) ?Q ?m => change (Q (Throw e) m); cbn beta iota
  | |- lwp _ _ (mret ?a) ?Q ?l ?m => change (Q (Ok a) l m); cbn beta iota
  | |- lwp _ _ (lraise ?e) ?Q ?l ?m => change (Q (Throw e) l m); cbn beta iota
  | |- lwp _ _ (assign ?f) ?Q ?l ?m => change (Q (Ok tt) (f l) m); cbn beta iota
  end.
