(* ===== verification/Worker.v ===== *)
(** A worker ([packages/runtime/src/jobs/{worker,timeout,worker-error,acknowledged}.ts]):
    one run claims a job, runs its handler under a heartbeat and a timeout, and settles it.
    The session (the client of the scheduler), the registry of active executions, the
    heartbeat and the handler are an environment; the heartbeat's beats run besides. *)
From Stdlib Require Import Floats.SpecFloat.
From S2P Require Import Prelude JsMap Json Protocol ActiveAbort Program.

(** * Errors ([worker-error.ts]) *)

(** [er_result]: the error's [result], when it is a JSON value. *)
Record js_error := {
  er_name : string;
  er_message : string;
  er_result : option json;
}.

(** What may be thrown: an error, or another value, by its text. *)
Inductive worker_thrown :=
| ErrorThrown (error : js_error)
| ValueThrown (text : string).

Definition Error (message : string) : js_error :=
  {| er_name := "Error"; er_message := message; er_result := None |}.

Definition normalizeError (error : worker_thrown) : js_error :=
  match error with ErrorThrown error => error | ValueThrown text => Error text end.

Definition WORKER_TIMEOUT_ERROR_NAME : string := "WanexWorkerTimeoutError".

Definition workerFailurePayload (error : js_error) : json :=
  let type := if bool_decide (er_name error = WORKER_TIMEOUT_ERROR_NAME)
              then "timeout"%string else "worker.error"%string in
  JObj (([("type", JStr type); ("message", JStr (er_message error));
      ("name", JStr (er_name error))]%string : list (string * json)) ++
    match er_result error with Some result => [("result"%string, result)] | None => [] end).

(** * Results ([types.ts], [acknowledged.ts]) *)

(** What a handler returns: the acknowledgement that it has settled the job itself, which
    [isWorkerAcknowledgedResult] recognises, or the job's result. *)
Inductive WorkerHandlerReturn :=
| WorkerAcknowledged (job : SchedulerJobRecord) (error : option js_error)
| HandlerResult (result : option json).

Inductive WorkerRunOnceResult :=
| RunIdle
| RunCompleted (job : SchedulerJobRecord)
| RunFailed (job : option SchedulerJobRecord) (error : js_error).

(** * The worker's calls *)

(** [RunHandler] starts the handler and awaits it, or the timer, whichever is first;
    [AwaitHandler] awaits it to its end and ignores how it ends. *)
Inductive worker_call : Type → Type :=
| ClaimJob (request : ClaimJobRequest) : worker_call (option SchedulerJobRecord)
| HeartbeatJob (request : HeartbeatJobRequest) : worker_call (option SchedulerJobRecord)
| CompleteJob (request : CompleteJobRequest) : worker_call (option SchedulerJobRecord)
| FailJob (request : FailJobRequest) : worker_call (option SchedulerJobRecord)
| RegisterExecution (identity : ActiveExecutionIdentity) : worker_call unit
| UnregisterExecution : worker_call unit
| StartHeartbeat : worker_call unit
| StopHeartbeat : worker_call unit
| RunHandler (job : SchedulerJobRecord) (timeoutMs : option jsnum) :
    worker_call (option WorkerHandlerReturn)
| AwaitHandler : worker_call unit
| SignalAborted : worker_call bool
| AbortController (reason : ActiveAbortReason) : worker_call unit.

Abbreviation wprog := (prog worker_thrown worker_call).
Abbreviation wevent := (event worker_thrown worker_call).

(** * [WanexWorker] *)

Record WanexWorkerOptions := {
  wo_workerId : string;
  wo_queue : option string;
  wo_leaseMs : jsnum;
  wo_heartbeatIntervalMs : option jsnum;
  wo_timeoutMs : option jsnum;
  wo_kinds : option (list SchedulerJobKind);
}.

(** [wk_handlers]: the kinds that have a handler.  The interval of the heartbeat is left
    out; it is the heartbeat's own. *)
Record WanexWorker := {
  wk_workerId : string;
  wk_queue : string;
  wk_leaseMs : jsnum;
  wk_timeoutMs : option jsnum;
  wk_kinds : option (list SchedulerJobKind);
  wk_handlers : list SchedulerJobKind;
}.

Definition not_positive (value : option jsnum) : bool :=
  match value with Some value => num_le value (num_of_Z 0) | None => false end.

Definition new_WanexWorker (options : WanexWorkerOptions) : result js_error WanexWorker :=
  _ ← guard_throw (not_positive (Some (wo_leaseMs options)))
        (Error "worker leaseMs must be positive");
  _ ← guard_throw (not_positive (wo_heartbeatIntervalMs options))
        (Error "worker heartbeatIntervalMs must be positive");
  _ ← guard_throw (not_positive (wo_timeoutMs options))
        (Error "worker timeoutMs must be positive");
  Ok {| wk_workerId := wo_workerId options; wk_queue := default "default"%string (wo_queue options);
        wk_leaseMs := wo_leaseMs options; wk_timeoutMs := wo_timeoutMs options;
        wk_kinds := wo_kinds options; wk_handlers := [] |}.

Definition register_handler (kind : SchedulerJobKind) (this : WanexWorker)
    : result js_error WanexWorker :=
  _ ← guard_throw (bool_decide (kind ∈ wk_handlers this))
        (Error ("worker handler already registered: " +:+ enum_name kind));
  Ok {| wk_workerId := wk_workerId this; wk_queue := wk_queue this;
        wk_leaseMs := wk_leaseMs this; wk_timeoutMs := wk_timeoutMs this;
        wk_kinds := wk_kinds this; wk_handlers := wk_handlers this ++ [kind] |}.

Section worker.
(** The text of a number in a template literal. *)
Context (number_text : jsnum → string).
Context (this : WanexWorker).

Definition throw {A} (error : js_error) : wprog A := Raise (ErrorThrown error).

Definition requireLeaseToken (job : SchedulerJobRecord) : wprog string :=
  match job_leaseToken job with
  | None => throw (Error ("claimed job is missing lease token: " +:+ job_id job))
  | Some leaseToken => mret leaseToken
  end.

(** ** The heartbeat's callbacks *)

Definition beat (job : SchedulerJobRecord) : wprog unit :=
  leaseToken ← requireLeaseToken job;
  updated ← await (HeartbeatJob {|
    hj_jobId := job_id job; hj_workerId := wk_workerId this; hj_leaseToken := leaseToken;
    hj_leaseMs := wk_leaseMs this |});
  match updated with
  | None =>
      _ ← await (AbortController {| ar_kind := AbortLeaseLost;
            ar_message := "worker lost lease for job: " +:+ job_id job |});
      throw (Error ("worker lost lease for job: " +:+ job_id job))
  | Some _ => mret tt
  end.

Definition beat_failed (job : SchedulerJobRecord) (error : worker_thrown) : wprog unit :=
  aborted ← await SignalAborted;
  if (aborted : bool) then mret tt
  else await (AbortController {| ar_kind := AbortLeaseLost;
    ar_message := "worker heartbeat failed for job " +:+ job_id job +:+ ": " +:+
      er_message (normalizeError error) |}).

(** One beat of the loop, which hides its errors, *)
Definition loop_beat (job : SchedulerJobRecord) : wprog unit :=
  try_catch (beat job) (beat_failed job).

(** and the [heartbeat] of a handler's context, which rethrows them. *)
Definition context_heartbeat (job : SchedulerJobRecord) : wprog unit :=
  try_catch (beat job) (fun error => _ ← beat_failed job error; Raise error).

(** ** One run *)

(** [withTimeout] ([timeout.ts]) around the handler. *)
Definition withTimeout (job : SchedulerJobRecord) : wprog WorkerHandlerReturn :=
  raced ← await (RunHandler job (wk_timeoutMs this));
  match raced with
  | Some result => mret result
  | None =>
      _ ← await (AbortController {| ar_kind := AbortTimeout;
            ar_message := "worker timed out for job: " +:+ job_id job |});
      _ ← await AwaitHandler;
      throw {|
        er_name := WORKER_TIMEOUT_ERROR_NAME;
        er_message := "worker job " +:+ job_id job +:+ " timed out after " +:+
          default "undefined"%string (number_text <$> wk_timeoutMs this) +:+ "ms";
        er_result := None |}
  end.

Definition fail_job (job : SchedulerJobRecord) (error : js_error)
    : wprog (option SchedulerJobRecord) :=
  leaseToken ← requireLeaseToken job;
  await (FailJob {|
    fj_jobId := job_id job; fj_workerId := wk_workerId this; fj_leaseToken := leaseToken;
    fj_error := workerFailurePayload error |}).

(** The end of the [try] body, once the handler has returned. *)
Definition settle_job (job : SchedulerJobRecord) (result : WorkerHandlerReturn)
    : wprog WorkerRunOnceResult :=
  match result with
  | WorkerAcknowledged job (Some error) => mret (RunFailed (Some job) error)
  | WorkerAcknowledged job None => mret (RunCompleted job)
  | HandlerResult result =>
      leaseToken ← requireLeaseToken job;
      completed ← await (CompleteJob {|
        co_jobId := job_id job; co_workerId := wk_workerId this; co_leaseToken := leaseToken;
        co_result := result |});
      match completed with
      | None => mret (RunFailed None (Error ("worker could not complete job: " +:+ job_id job)))
      | Some completed => mret (RunCompleted completed)
      end
  end.

(** The [try] statement. *)
Definition run_registered (job : SchedulerJobRecord) : wprog WorkerRunOnceResult :=
  try_finally
    (try_catch
      (_ ← await StartHeartbeat;
       result ← withTimeout job;
       _ ← await StopHeartbeat;
       settle_job job result)
      (fun error =>
        _ ← await StopHeartbeat;
        let normalized := normalizeError error in
        failed ← fail_job job normalized;
        mret (RunFailed failed normalized)))
    (_ ← await StopHeartbeat;
     await UnregisterExecution).

Definition runOnce : wprog WorkerRunOnceResult :=
  job ← await (ClaimJob {|
    cj_workerId := wk_workerId this; cj_leaseMs := wk_leaseMs this; cj_kinds := wk_kinds this;
    cj_queues := Some [wk_queue this] |});
  match job with
  | None => mret RunIdle
  | Some job =>
      if bool_decide (job_kind job ∉ wk_handlers this) then
        let error := Error ("no worker handler registered for job kind: " +:+
          enum_name (job_kind job)) in
        failed ← fail_job job error;
        mret (RunFailed failed error)
      else
        _ ← await (RegisterExecution {| id_jobId := job_id job; id_attemptId := None |});
        run_registered job
  end.
End worker.

(** * What a run may do

    A monitor follows the calls of one run. *)

(** What the store has been told of the job: [Unsettled] nothing; otherwise which call was
    made and, when it did not throw, its answer. *)
Inductive settlement :=
| Unsettled
| Completion (answer : option (option SchedulerJobRecord))
| Failure (answer : option (option SchedulerJobRecord)).

(** [rm_claim]: the answer of the claim; [rm_returned]: what the handler returned, or
    nothing if it threw or was timed out; [rm_refused]: the registration threw. *)
Record run_monitor := {
  rm_claim : option (option SchedulerJobRecord);
  rm_registered : bool;
  rm_refused : bool;
  rm_beating : bool;
  rm_ran : bool;
  rm_returned : option WorkerHandlerReturn;
  rm_settlement : settlement;
}.

Definition run_start : run_monitor := {|
  rm_claim := None; rm_registered := false; rm_refused := false; rm_beating := false; rm_ran := false;
  rm_returned := None; rm_settlement := Unsettled |}.

#[export] Instance RetryPolicy_eq_dec : EqDecision RetryPolicy.
Proof. solve_decision. Defined.

#[export] Instance SchedulerJobRecord_eq_dec : EqDecision SchedulerJobRecord.
Proof. solve_decision. Defined.

Definition on_job (m : run_monitor) (p : SchedulerJobRecord → bool) : bool :=
  match rm_claim m with Some (Some job) => p job | _ => false end.

(** The call is about the claimed job, under its lease. *)
Definition owned (m : run_monitor) (jobId leaseToken : string) : bool :=
  on_job m (fun job => bool_decide (jobId = job_id job) &&
    bool_decide (job_leaseToken job = Some leaseToken)).

Definition acknowledged (m : run_monitor) : bool :=
  match rm_returned m with Some (WorkerAcknowledged _ _) => true | _ => false end.

Definition allowed (m : run_monitor) {R} (c : worker_call R) : bool :=
  match c with
  | ClaimJob _ => match rm_claim m with None => true | _ => false end
  | HeartbeatJob _ | SignalAborted => false
  | RegisterExecution identity => negb (rm_registered m) && negb (rm_ran m) &&
      on_job m (fun job => bool_decide (id_jobId identity = job_id job))
  | UnregisterExecution => rm_registered m && negb (rm_beating m)
  | StartHeartbeat => rm_registered m && negb (rm_ran m)
  | StopHeartbeat => rm_registered m
  | RunHandler job _ => rm_registered m && rm_beating m && negb (rm_ran m) &&
      on_job m (fun claimed => bool_decide (job = claimed))
  | AwaitHandler | AbortController _ => rm_ran m && rm_beating m
  | CompleteJob request =>
      rm_registered m && negb (rm_beating m) &&
      owned m (co_jobId request) (co_leaseToken request) &&
      match rm_settlement m, rm_returned m with
      | Unsettled, Some (HandlerResult result) => bool_decide (co_result request = result)
      | _, _ => false
      end
  | FailJob request =>
      negb (rm_beating m) && negb (rm_refused m) && negb (acknowledged m) &&
      owned m (fj_jobId request) (fj_leaseToken request) &&
      match rm_settlement m with Unsettled | Completion None => true | _ => false end
  end.

Definition set_registered b m := {|
  rm_claim := rm_claim m; rm_registered := b; rm_refused := rm_refused m; rm_beating := rm_beating m; rm_ran := rm_ran m;
  rm_returned := rm_returned m; rm_settlement := rm_settlement m |}.
Definition set_beating b m := {|
  rm_claim := rm_claim m; rm_registered := rm_registered m; rm_refused := rm_refused m; rm_beating := b;
  rm_ran := rm_ran m; rm_returned := rm_returned m; rm_settlement := rm_settlement m |}.
Definition set_returned r m := {|
  rm_claim := rm_claim m; rm_registered := rm_registered m; rm_refused := rm_refused m; rm_beating := rm_beating m;
  rm_ran := true; rm_returned := r; rm_settlement := rm_settlement m |}.
Definition set_settlement st m := {|
  rm_claim := rm_claim m; rm_registered := rm_registered m; rm_refused := rm_refused m; rm_beating := rm_beating m;
  rm_ran := rm_ran m; rm_returned := rm_returned m; rm_settlement := st |}.

Definition set_refused m := {|
  rm_claim := rm_claim m; rm_registered := rm_registered m; rm_refused := true;
  rm_beating := rm_beating m; rm_ran := rm_ran m; rm_returned := rm_returned m;
  rm_settlement := rm_settlement m |}.

Definition answer_of {A} (r : result worker_thrown A) : option A :=
  match r with Ok a => Some a | Throw _ => None end.

Definition advance (m : run_monitor) {R} (c : worker_call R) : result worker_thrown R → run_monitor :=
  match c in worker_call R return result worker_thrown R → run_monitor with
  | ClaimJob _ => fun r => {|
      rm_claim := Some (default None (answer_of r)); rm_registered := rm_registered m;
      rm_refused := rm_refused m;
      rm_beating := rm_beating m; rm_ran := rm_ran m; rm_returned := rm_returned m;
      rm_settlement := rm_settlement m |}
  | RegisterExecution _ => fun r => match r with Ok _ => set_registered true m | Throw _ => set_refused m end
  | UnregisterExecution => fun _ => set_registered false m
  | StartHeartbeat => fun _ => set_beating true m
  | StopHeartbeat => fun _ => set_beating false m
  | RunHandler _ _ => fun r => set_returned (default None (answer_of r)) m
  | CompleteJob _ => fun r => set_settlement (Completion (answer_of r)) m
  | FailJob _ => fun r => set_settlement (Failure (answer_of r)) m
  | HeartbeatJob _ | AwaitHandler | SignalAborted | AbortController _ => fun _ => m
  end.

Definition run_step (m : run_monitor) (e : wevent) : option run_monitor :=
  match e with Event c r => if allowed m c then Some (advance m c r) else None end.

(** What cannot throw: the heartbeat's start and stop, the registration's end, the
    controller and the signal, and the wait that ignores the handler's error.  Without a
    timeout no timer is first. *)
Definition possible (e : wevent) : Prop :=
  match e with
  | Event c r => match c in worker_call R return result worker_thrown R → Prop with
      | StartHeartbeat => fun r => r = Ok tt
      | StopHeartbeat => fun r => r = Ok tt
      | UnregisterExecution => fun r => r = Ok tt
      | AwaitHandler => fun r => r = Ok tt
      | AbortController _ => fun r => r = Ok tt
      | SignalAborted => fun r => ∃ b, r = Ok b
      | RunHandler _ None => fun r => r ≠ Ok None
      | _ => fun _ => True
      end r
  end.

(** How a run ends. *)
Definition run_post (r : result worker_thrown WorkerRunOnceResult) (m : run_monitor) : Prop :=
  rm_registered m = false ∧ rm_beating m = false ∧
  match r with
  | Ok RunIdle => rm_claim m = Some None
  | Ok (RunCompleted job) =>
      rm_settlement m = Completion (Some (Some job)) ∨
      rm_returned m = Some (WorkerAcknowledged job None) ∧ rm_settlement m = Unsettled
  | Ok (RunFailed job error) =>
      rm_settlement m = Failure (Some job) ∨
      rm_settlement m = Completion (Some None) ∧ job = None ∨
      rm_settlement m = Unsettled ∧
        ∃ settled, job = Some settled ∧ rm_returned m = Some (WorkerAcknowledged settled (Some error))
  | Throw e =>
      match rm_claim m with
      | Some (Some job) =>
          rm_settlement m = Failure None ∨ job_leaseToken job = None ∨
          rm_refused m = true ∧ rm_ran m = false ∧ rm_settlement m = Unsettled
      | _ => True
      end
  end.

Abbreviation twp := (wp run_step possible).

Lemma worker_call_wp {R} (c : worker_call R) Q m :
  allowed m c = true → (∀ r, possible (Event c r) → Q r (advance m c r)) → twp (await c) Q m.
Proof.
  intros Ha HQ. apply wp_call. intros r Hr. exists (advance m c r).
  unfold run_step. rewrite Ha. auto.
Qed.

(** A monitor in the middle of the run of a claimed job. *)
Definition at_run job registered beating ran returned settlement : run_monitor := {|
  rm_claim := Some (Some job); rm_registered := registered; rm_refused := false; rm_beating := beating;
  rm_ran := ran; rm_returned := returned; rm_settlement := settlement |}.

(** Symbolic execution of a run. *)
#[local] Arguments wp : simpl never.
#[local] Arguments mbind : simpl never.
#[local] Arguments mret : simpl never.
#[local] Arguments handle : simpl never.
#[local] Arguments await : simpl never.

Ltac solve_allowed :=
  simpl; unfold owned, on_job, at_run; simpl; repeat first [rewrite bool_decide_true by done | progress simpl];
  try done.

Ltac wp_call :=
  apply worker_call_wp; [solve_allowed|intros [?|?] ?; simpl in *; simplify_eq; try done].

Ltac wp_step := first [wp_rule|lazymatch goal with |- wp _ _ (await _) _ _ => wp_call end].

Section run.
Context (number_text : jsnum → string) (this : WanexWorker).

(** Sending a failure settles the job, unless there is no lease to settle it under. *)
Lemma fail_wp job error registered ran returned st :
  match returned with Some (WorkerAcknowledged _ _) => False | _ => True end →
  st = Unsettled ∨ st = Completion None →
  twp (fail_job this job error)
    (fun r m => match r with
      | Ok failed => m = at_run job registered false ran returned (Failure (Some failed))
      | Throw _ => m = at_run job registered false ran returned (Failure None) ∨
          m = at_run job registered false ran returned st ∧ job_leaseToken job = None
      end) (at_run job registered false ran returned st).
Proof.
  intros Hr Hst. unfold fail_job, requireLeaseToken, throw.
  destruct (job_leaseToken job) as [leaseToken|] eqn:Htoken.
  - repeat wp_step; [|by left]. by destruct returned as [[]|], Hst as [-> | ->]; solve_allowed.
  - repeat wp_step. by right.
Qed.

(** How the [try] body ends: a result says how the job was settled; an exception leaves
    the job to the [catch] clause. *)
Definition body_post job (r : result worker_thrown WorkerRunOnceResult) (m : run_monitor) : Prop :=
  ∃ beating returned st, m = at_run job true beating true returned st ∧
  match r with
  | Ok (RunCompleted completed) => beating = false ∧
      (st = Completion (Some (Some completed)) ∨
       returned = Some (WorkerAcknowledged completed None) ∧ st = Unsettled)
  | Ok (RunFailed failed error) => beating = false ∧
      (st = Completion (Some None) ∧ failed = None ∨
       st = Unsettled ∧ ∃ settled, failed = Some settled ∧
         returned = Some (WorkerAcknowledged settled (Some error)))
  | Ok RunIdle => False
  | Throw _ =>
      match returned with Some (WorkerAcknowledged _ _) => False | _ => True end ∧
      (st = Unsettled ∨ st = Completion None)
  end.

Lemma settle_job_wp job returned :
  twp (settle_job this job returned) (body_post job)
    (at_run job true false true (Some returned) Unsettled).
Proof.
  unfold settle_job, requireLeaseToken, throw.
  destruct returned as [settled [error|]|result];
    [repeat wp_step; eexists _, _, _; split; [done|]; eauto 10..|].
  destruct (job_leaseToken job) as [leaseToken|] eqn:Htoken; repeat wp_step.
  - case_match; repeat wp_step; eexists _, _, _; (split; [done|]); eauto.
  - eexists _, _, _; (split; [done|]); auto.
  - eexists _, _, _; (split; [done|]); auto.
Qed.

Lemma withTimeout_wp job :
  twp (withTimeout number_text this job)
    (fun r m => match r with
      | Ok returned => m = at_run job true true true (Some returned) Unsettled
      | Throw _ => m = at_run job true true true None Unsettled
      end) (at_run job true true false None Unsettled).
Proof.
  unfold withTimeout, throw. repeat wp_step.
  all: match goal with raced : option WorkerHandlerReturn |- _ => destruct raced end;
    by repeat wp_step.
Qed.

Lemma run_registered_wp job :
  twp (run_registered number_text this job) run_post
    (at_run job true false false None Unsettled).
Proof.
  unfold run_registered. wp_step. wp_step.
  eapply (wp_mono _ _ _ (body_post job)).
  2: { repeat wp_step. eapply wp_mono; [|apply withTimeout_wp].
       intros [returned|e] m ->; [|by eexists _, _, _; split; [done|auto]].
       repeat wp_step. apply settle_job_wp. }
  intros r m (beating & returned & st & -> & Hr). destruct r as [result|error].
  - destruct result; [done|..]; destruct Hr as [-> Hr]; repeat wp_step; split_and!; naive_solver.
  - destruct Hr as [Hr Hst]. repeat wp_step. eapply wp_mono; [|by apply fail_wp].
    intros [failed|e] m; [intros ->|intros [->|[-> Htoken]]]; repeat wp_step; split_and!; simpl; auto.
Qed.

Lemma runOnce_wp : twp (runOnce number_text this) run_post run_start.
Proof.
  unfold runOnce. repeat wp_step.
  match goal with claimed : option SchedulerJobRecord |- _ => destruct claimed as [job|] end.
  2: { by wp_step. }
  case_bool_decide.
  - wp_step. eapply wp_mono; [|apply (fail_wp job _ false false None Unsettled); auto].
    intros [failed|e] m; [intros ->|intros [->|[-> Htoken]]]; repeat wp_step; split_and!; simpl; auto.
  - repeat wp_step.
    + apply run_registered_wp.
    + split_and!; simpl; auto.
Qed.
End run.

(** A beat that the store does not confirm aborts the execution, unless it is aborted
    already. *)
Section beats.
Context (this : WanexWorker) (job : SchedulerJobRecord).

Definition confirmed (t : list wevent) : Prop :=
  ∃ request updated, Event (HeartbeatJob request) (Ok (Some updated)) ∈ t.

Definition aborts (t : list wevent) : Prop :=
  Event SignalAborted (Ok true) ∈ t ∨
  ∃ message, Event (AbortController {| ar_kind := AbortLeaseLost; ar_message := message |}) (Ok tt) ∈ t.

Lemma beat_wp t :
  wp collect possible (beat this job)
    (fun r t' => match r with Ok _ => confirmed t' | Throw _ => True end) t.
Proof.
  unfold beat, requireLeaseToken, throw. wp_rule.
  destruct (job_leaseToken job); repeat wp_rule; [|done].
  apply collect_await. intros [[updated|]|e] _; [| |done]; repeat wp_rule.
  - eexists _, _. apply elem_of_snoc.
  - apply collect_await. by intros [u|e] _; repeat wp_rule.
Qed.

Lemma beat_failed_wp error t :
  wp collect possible (beat_failed job error)
    (fun r t' => aborts t' ∧ r = Ok tt) t.
Proof.
  unfold beat_failed. wp_rule. apply collect_await. intros r [aborted ->]. destruct aborted.
  - wp_rule. split; [left; apply elem_of_snoc|done].
  - apply collect_await. intros r ->. split; [right; eexists; apply elem_of_snoc|done].
Qed.

Lemma context_heartbeat_wp t :
  wp collect possible (context_heartbeat this job)
    (fun r t' => match r with Ok _ => confirmed t' | Throw _ => aborts t' end) t.
Proof.
  unfold context_heartbeat. wp_rule. eapply wp_mono; [|apply beat_wp].
  intros [[]|e] t' Ht; [done|]. wp_rule. eapply wp_mono; [|apply beat_failed_wp].
  intros r t1 [H ->]. by wp_rule.
Qed.

Lemma loop_beat_wp t :
  wp collect possible (loop_beat this job)
    (fun r t' => r = Ok tt ∧ (confirmed t' ∨ aborts t')) t.
Proof.
  unfold loop_beat. wp_rule. eapply wp_mono; [|apply beat_wp].
  intros [[]|e] t' Ht; [auto|]. eapply wp_mono; [|apply beat_failed_wp].
  intros r t1 [H ->]. auto.
Qed.
End beats.

(** ** What the store is told *)

Definition completes (e : wevent) : bool :=
  match e with Event (CompleteJob _) _ => true | _ => false end.

Definition fails (e : wevent) : bool :=
  match e with Event (FailJob _) _ => true | _ => false end.

(** A completion that the store has answered. *)
Definition completes_answered (e : wevent) : bool :=
  match e with
  | Event c r => match c in worker_call R return result worker_thrown R → bool with
      | CompleteJob _ => fun r => bool_decide (is_Some (answer_of r))
      | _ => fun _ => false
      end r
  end.

Definition count (p : wevent → bool) (t : list wevent) : nat := length (filter p t).

(** At most one completion and at most one failure, and a failure only where no completion was
    answered. *)
Definition told_once (t : list wevent) : Prop :=
  count completes t ≤ 1 ∧ count fails t ≤ 1 ∧ (0 < count fails t → count completes_answered t = 0).

Definition tells (st : settlement) (t : list wevent) : Prop :=
  match st with
  | Unsettled => count completes t = 0 ∧ count fails t = 0 ∧ count completes_answered t = 0
  | Completion answer => count completes t = 1 ∧ count fails t = 0 ∧
      (answer = None → count completes_answered t = 0)
  | Failure _ => count completes t ≤ 1 ∧ count fails t = 1 ∧ count completes_answered t = 0
  end.

Lemma count_snoc p t e : count p (t ++ [e]) = count p t + (if p e then 1 else 0).
Proof.
  unfold count. rewrite filter_app, length_app. f_equal. rewrite filter_cons, filter_nil.
  by destruct (p e).
Qed.

Lemma tells_other st t e :
  completes e = false → fails e = false → completes_answered e = false →
  tells st t → tells st (t ++ [e]).
Proof.
  intros Hc Hf Ha. destruct st; simpl; rewrite !count_snoc, Hc, Hf, Ha, !Nat.add_0_r; done.
Qed.

Lemma tells_step m m' t e :
  tells (rm_settlement m) t → run_step m e = Some m' → tells (rm_settlement m') (t ++ [e]).
Proof.
  intros Ht Hstep. destruct e as [R c r]. unfold run_step in Hstep.
  destruct (allowed m c) eqn:Ha; [|done]. injection Hstep as <-.
  destruct c; try (by apply tells_other; destruct r); simpl in Ha; simpl; rewrite !count_snoc; simpl.
  - destruct (rm_settlement m); rewrite ?andb_false_r in Ha; [|done..].
    destruct Ht as (-> & -> & ->). split_and!; [done..|]. by destruct r.
  - destruct (rm_settlement m) as [|[]|]; rewrite ?andb_false_r in Ha; try done; simpl in Ht;
      naive_solver lia.
Qed.

Lemma judge_tells m t m' : judge run_step m t = Some m' →
  ∀ t0, tells (rm_settlement m) t0 → tells (rm_settlement m') (t0 ++ t).
Proof.
  revert m. induction t as [|e t IH]; intros m Hj t0 Ht0; simpl in Hj.
  { injection Hj as <-. by rewrite app_nil_r. }
  apply bind_Some in Hj as (m1 & Hstep & Hj). rewrite cons_middle, app_assoc.
  eapply IH; [done|]. by eapply tells_step.
Qed.

Lemma judge_told_once t m : judge run_step run_start t = Some m → told_once t.
Proof.
  intros Hj. pose proof (judge_tells _ _ _ Hj [] ltac:(done)) as Ht. simpl in Ht.
  unfold told_once. unfold tells in Ht. destruct (rm_settlement m); naive_solver lia.
Qed.

(** (C20) One run of a worker, whatever the store, the registry and the handler do.  The job
    that is claimed is registered before its handler runs, and the handler runs once, under
    the heartbeat.  The store is told how the job ended only after the heartbeat has
    stopped and under the lease of the claim: by at most one completion, with the handler's
    result, and at most one failure, which follows a completion only if that threw; by neither if
    the handler says it has settled the job itself, or the registration throws.  At the end the
    heartbeat is stopped and the registration gone.  [completed] and [failed] are what the store,
    or the handler, confirmed; and a run that throws has no job, could not send the failure, or
    was refused the registration. *)
Theorem runOnce_safe number_text this t r :
  trace (runOnce number_text this) t r → Forall possible t →
  told_once t ∧ ∃ m, judge run_step run_start t = Some m ∧ run_post r m.
Proof.
  intros Ht Hp. eapply wp_trace in Ht as (m & Hm & Hr); [|apply runOnce_wp|done].
  split; [by eapply judge_told_once|by exists m].
Qed.

(** * Examples *)

Definition sample_worker : WanexWorker := {|
  wk_workerId := "worker"; wk_queue := "default"; wk_leaseMs := num_of_Z 60000;
  wk_timeoutMs := Some (num_of_Z 1000); wk_kinds := None; wk_handlers := [SessionTurn] |}.

Definition sample_job : SchedulerJobRecord := {|
  job_id := "job-1"; job_kind := SessionTurn; job_queue := "default";
  job_state := JobRunning; job_principalId := "p"; job_payload := JNull;
  job_scheduledAt := num_of_Z 5; job_notBefore := None; job_priority := num_of_Z 0;
  job_concurrencyKey := None; job_attempt := num_of_Z 1; job_maxAttempts := num_of_Z 3;
  job_retryPolicy := {| rp_strategy := RetryNone; rp_initialDelayMs := None;
                        rp_maxDelayMs := None |};
  job_idempotencyKey := None; job_budgetGrantId := None; job_leaseOwner := Some "worker";
  job_leaseToken := Some "lease"; job_leaseExpiresAt := Some (num_of_Z 65);
  job_result := None; job_lastError := None; job_createdAt := num_of_Z 5;
  job_updatedAt := num_of_Z 5; job_finishedAt := None |}%string.

(** A store with one job; [finishes]: the handler returns before the timer. *)
Definition sample_env (finishes : bool) R (c : worker_call R) : stM unit worker_thrown R := fun u =>
  match c in worker_call R return unit * result worker_thrown R with
  | ClaimJob _ => (u, Ok (Some sample_job))
  | HeartbeatJob _ => (u, Ok (Some sample_job))
  | CompleteJob _ => (u, Ok (Some sample_job))
  | FailJob _ => (u, Ok (Some sample_job))
  | RegisterExecution _ => (u, Ok tt)
  | UnregisterExecution => (u, Ok tt)
  | StartHeartbeat => (u, Ok tt)
  | StopHeartbeat => (u, Ok tt)
  | RunHandler _ None => (u, Ok (Some (HandlerResult None)))
  | RunHandler _ (Some _) => (u, Ok (if finishes then Some (HandlerResult None) else None))
  | AwaitHandler => (u, Ok tt)
  | SignalAborted => (u, Ok false)
  | AbortController _ => (u, Ok tt)
  end.

Definition sample_run (finishes : bool) :=
  run (sample_env finishes) (runOnce (fun _ => "1000"%string) sample_worker) tt.

Lemma sample_worker_possible finishes R (c : worker_call R) u :
  possible (Event c (sample_env finishes R c u).2).
Proof. destruct c as [| | | | | | | |job [timeoutMs|]| | |]; simpl; eauto. Qed.

(** A job whose handler takes too long fails as a timeout. *)
Example sample_timeout :
  ∃ error, (sample_run false).2 = Ok (RunFailed (Some sample_job) error) ∧
    er_name error = WORKER_TIMEOUT_ERROR_NAME.
Proof. eexists. split; vm_compute; reflexivity. Qed.

Lemma runOnce_safe_witness :
  told_once (sample_run true).1 ∧ ∃ m, judge run_step run_start (sample_run true).1 = Some m ∧
    run_post (Ok (RunCompleted sample_job)) m.
Proof.
  apply (runOnce_safe (fun _ => "1000"%string) sample_worker).
  - exact (run_trace (sample_env true) (runOnce (fun _ => "1000"%string) sample_worker) tt).
  - apply run_forall, sample_worker_possible.
Defined.
