(* ===== verification/WorkspacePath.v ===== *)
(** The path policy of a workspace ([packages/workspace/src/path-policy.ts]): which relative
    paths are admitted, and how they are resolved under the root.  Paths are those of a
    POSIX host. *)
From Stdlib Require Import Ascii.
From S2P Require Import Prelude Program.

(** * Strings *)

(** [s.split(c)] for one character. *)
Fixpoint split_on (c : ascii) (s : string) : list string :=
  match s with
  | EmptyString => [EmptyString]
  | String a s =>
      if bool_decide (a = c) then EmptyString :: split_on c s
      else match split_on c s with
        | segment :: segments => String a segment :: segments
        | [] => [String a EmptyString]
        end
  end.

(** [segments.join(c)] *)
Fixpoint join_with (c : ascii) (segments : list string) : string :=
  match segments with
  | [] => EmptyString
  | [segment] => segment
  | segment :: segments => segment +:+ String c (join_with c segments)
  end.

(** [s.replaceAll(a, b)] for characters. *)
Fixpoint replace_all (a b : ascii) (s : string) : string :=
  match s with
  | EmptyString => EmptyString
  | String x s => String (if bool_decide (x = a) then b else x) (replace_all a b s)
  end.

Fixpoint includes_char (c : ascii) (s : string) : bool :=
  match s with EmptyString => false | String x s => bool_decide (x = c) || includes_char c s end.

Definition slash : ascii := "/"%char.
Definition backslash : ascii := "\"%char.
Definition NUL : ascii := "000"%char.

Definition starts_with_slash (s : string) : bool :=
  match s with String a _ => bool_decide (a = slash) | EmptyString => false end.

Definition letter (a : ascii) : bool :=
  let n := nat_of_ascii a in
  (65 <=? n)%nat && (n <=? 90)%nat || (97 <=? n)%nat && (n <=? 122)%nat.

(** [/^[A-Za-z]:\//] *)
Definition drive_path (s : string) : bool :=
  match s with
  | String a (String b (String c _)) =>
      letter a && bool_decide (b = ":"%char) && bool_decide (c = slash)
  | _ => false
  end.

(** * [node:path], for POSIX *)

(** [normalizeString] of an absolute path, as segments: the last one first. *)
Definition push_segment (stack : list string) (segment : string) : list string :=
  if bool_decide (segment = "" ∨ segment = ".")%string then stack
  else if bool_decide (segment = "..")%string then List.tl stack
  else segment :: stack.

Definition absolute_segments (path : string) : list string :=
  reverse (foldl push_segment [] (split_on slash path)).

(** The loop of [resolve], the last argument first; [cwd] is what it falls back to. *)
Fixpoint resolve_loop (cwd : string) (parts : list string) (resolved : string) : string :=
  match parts with
  | [] => cwd +:+ String slash resolved
  | part :: parts =>
      if bool_decide (part = "")%string then resolve_loop cwd parts resolved
      else
        let resolved := part +:+ String slash resolved in
        if starts_with_slash part then resolved else resolve_loop cwd parts resolved
  end.

Definition absolute_path (segments : list string) : string :=
  String slash (join_with slash segments).

Definition resolve (cwd : string) (parts : list string) : string :=
  absolute_path (absolute_segments (resolve_loop cwd (reverse parts) "")).

(** * Errors *)

(** What the file system throws: an error with its message and code, or another value, by
    its text. *)
Inductive path_error :=
| PathError (message : string) (code : option string)
| PathValue (text : string).

Definition workspacePathEscape (path : string) : path_error :=
  PathError ("workspace path escapes root: " +:+ path) None.

Definition isMissingPathError (error : path_error) : bool :=
  match error with
  | PathError _ code => bool_decide (code = Some "ENOENT" ∨ code = Some "ENOTDIR")%string
  | PathValue _ => false
  end.

Definition mapPathError (error : path_error) (path : string) : path_error :=
  match error with
  | PathError message _ =>
      if String.prefix "execution filesystem access is outside admitted roots" message
      then workspacePathEscape path else error
  | PathValue text => PathError text None
  end.

(** * [normalizeWorkspaceRelativePath] *)

Definition bad_segment (segment : string) : bool :=
  bool_decide (segment = "" ∨ segment = "." ∨ segment = "..")%string.

Definition normalizeWorkspaceRelativePath (path : string) : result path_error string :=
  _ ← guard_throw (bool_decide (path = "")%string || includes_char NUL path)
        (PathError ("invalid workspace path: " +:+ path) None);
  let portable := replace_all backslash slash path in
  _ ← guard_throw (starts_with_slash portable || drive_path portable || starts_with_slash path)
        (workspacePathEscape path);
  let segments := split_on slash portable in
  _ ← guard_throw (existsb bad_segment segments) (workspacePathEscape path);
  Ok (join_with slash segments).

(** * [WorkspacePathResolver] *)

Inductive file_kind := KindFile | KindDirectory | KindSymlink | KindOther.

#[export] Instance file_kind_eq_dec : EqDecision file_kind.
Proof. solve_decision. Defined.

(** The execution's file system; [F] is the rest of the metadata. *)
Inductive path_call (F : Type) : Type → Type :=
| CanonicalPath (path : string) : path_call F string
| Metadata (path : string) : path_call F (option (file_kind * F)).
Arguments CanonicalPath {F}.
Arguments Metadata {F}.

Section resolver.
Context {F : Type}.
Local Abbreviation pprog := (prog path_error (path_call F)).
(** The resolver's [rootDir], which its constructor resolves. *)
Context (rootDir : string).

Definition new_rootDir (cwd dir : string) : string := resolve cwd [dir].

Definition of_result {A} (r : result path_error A) : pprog A :=
  match r with Ok a => mret a | Throw e => Raise e end.

(** [resolve(this.rootDir, ...normalized.split("/"))]; the root is absolute. *)
Definition candidate (path : string) : result path_error string :=
  normalized ← normalizeWorkspaceRelativePath path;
  Ok (resolve "" (rootDir :: split_on slash normalized)).

Definition mapped {A} (path : string) (p : pprog A) : pprog A :=
  try_catch p (fun error => Raise (mapPathError error path)).

Definition resolveRead (path : string) : pprog string :=
  candidate ← of_result (candidate path);
  mapped path (await (CanonicalPath candidate)).

Definition resolveOptionalRead (path : string) : pprog (option string) :=
  candidate ← of_result (candidate path);
  mapped path
    (metadata ← await (Metadata candidate);
     match metadata with
     | None => mret None
     | Some _ => canonical ← await (CanonicalPath candidate); mret (Some canonical)
     end).

Definition resolveReadEntry (path : string) : pprog (string * (file_kind * F)) :=
  candidate ← of_result (candidate path);
  mapped path
    (metadata ← await (Metadata candidate);
     match metadata with
     | None => Raise (PathError ("workspace path does not exist: " +:+ path) None)
     | Some metadata => canonical ← await (CanonicalPath candidate); mret (canonical, metadata)
     end).

Definition resolveMutation (path : string) : pprog string :=
  candidate ← of_result (candidate path);
  try_catch
    (metadata ← await (Metadata candidate);
     _ ← raise_if (bool_decide (fst <$> metadata = Some KindSymlink)) (workspacePathEscape path);
     await (CanonicalPath candidate))
    (fun error =>
      if isMissingPathError error then mret candidate else Raise (mapPathError error path)).

(** The canonical root is asked for once; the variable is the memo of the answer. *)
Local Abbreviation dprog := (lprog path_error (path_call F) (option (result path_error string))).

Definition getCanonicalRoot : dprog string :=
  memo ← locals;
  match memo with
  | Some answer => lift (of_result answer)
  | None => fun _ => handle (fun answer => Return (Some answer, answer)) (await (CanonicalPath rootDir))
  end.

Definition resolveDirectory (path : option string) : dprog string :=
  match path with
  | None => getCanonicalRoot
  | Some path =>
      if bool_decide (path = ".")%string then getCanonicalRoot
      else
        candidate ← (lift (resolveRead path) : dprog string);
        metadata ← (lift (await (Metadata candidate)) : dprog (option (file_kind * F)));
        if bool_decide (fst <$> metadata = Some KindDirectory) then mret candidate
        else lraise (PathError ("workspace path is not a directory: " +:+ path) None)
  end.
End resolver.

(** * Splitting and joining *)

Lemma split_on_cons c s : ∃ segment segments, split_on c s = segment :: segments.
Proof.
  destruct s as [|a s]; simpl; [eauto|]. case_bool_decide; [eauto|].
  destruct (split_on c s); eauto.
Qed.

Lemma join_split c s : join_with c (split_on c s) = s.
Proof.
  induction s as [|a s IH]; simpl; [done|].
  destruct (split_on_cons c s) as (segment & segments & E). rewrite E in *.
  rewrite <-IH. case_bool_decide as Ha; [by rewrite Ha|by destruct segments].
Qed.

Lemma split_app c s1 s2 : split_on c (s1 +:+ String c s2) = split_on c s1 ++ split_on c s2.
Proof.
  induction s1 as [|a s1 IH]; simpl; [by rewrite bool_decide_true|].
  case_bool_decide; [by rewrite IH|]. rewrite IH.
  destruct (split_on_cons c s1) as (segment & segments & ->). done.
Qed.

Lemma split_free c s : includes_char c s = false → split_on c s = [s].
Proof.
  induction s as [|a s IH]; simpl; [done|]. intros [Ha Hs]%orb_false_iff.
  apply bool_decide_eq_false in Ha. rewrite bool_decide_false by done. by rewrite IH.
Qed.

Lemma split_segments_free c s : Forall (fun segment => includes_char c segment = false) (split_on c s).
Proof.
  induction s as [|a s IH]; simpl; [by repeat constructor|].
  case_bool_decide as Ha; [by constructor|].
  destruct (split_on_cons c s) as (segment & segments & E). rewrite E in *.
  apply Forall_cons in IH as [Hs IH]. constructor; [|done]. simpl.
  by rewrite bool_decide_false.
Qed.

Lemma split_join c segments :
  segments ≠ [] → Forall (fun segment => includes_char c segment = false) segments →
  split_on c (join_with c segments) = segments.
Proof.
  intros Hne Hfree. induction segments as [|segment segments IH]; [done|].
  apply Forall_cons in Hfree as [Hs Hfree]. destruct segments as [|next segments].
  - by apply split_free.
  - change (join_with c (segment :: next :: segments)) with
      (segment +:+ String c (join_with c (next :: segments))).
    rewrite split_app, split_free, IH by done. done.
Qed.

(** * Absolute paths *)

(** What may stand between two slashes. *)
Record good_segment (segment : string) : Prop := {
  gs_dots : bad_segment segment = false;
  gs_slash : includes_char slash segment = false;
}.

Lemma good_push stack segment :
  good_segment segment → push_segment stack segment = segment :: stack.
Proof.
  intros [Hd _]. unfold push_segment, bad_segment in *. apply bool_decide_eq_false in Hd.
  rewrite !bool_decide_false; naive_solver.
Qed.

Lemma push_good stack segments :
  Forall good_segment segments → foldl push_segment stack segments = reverse segments ++ stack.
Proof.
  intros Hs. revert stack. induction Hs as [|segment segments Hg _ IH]; intros stack; simpl; [done|].
  rewrite good_push, IH by done. by rewrite reverse_cons, <-app_assoc.
Qed.

Lemma push_keeps_good stack segment :
  includes_char slash segment = false → Forall good_segment stack →
  Forall good_segment (push_segment stack segment).
Proof.
  intros Hs Hst. unfold push_segment. case_bool_decide as H1; [done|].
  case_bool_decide as H2; [by destruct Hst|]. constructor; [|done]. split; [|done].
  unfold bad_segment. apply bool_decide_eq_false. naive_solver.
Qed.

Lemma absolute_segments_good path : Forall good_segment (absolute_segments path).
Proof.
  unfold absolute_segments. apply Forall_reverse.
  pose proof (split_segments_free slash path) as Hs. revert Hs.
  generalize (split_on slash path). intros l Hs.
  assert (Forall good_segment []) as Hst by constructor. revert Hst.
  generalize (@nil string) as st. induction Hs as [|segment l Hseg _ IH]; intros st Hst; simpl; [done|].
  by apply IH, push_keeps_good.
Qed.

Lemma absolute_segments_path segments :
  Forall good_segment segments → absolute_segments (absolute_path segments) = segments.
Proof.
  intros Hg. unfold absolute_segments, absolute_path. cbn [split_on].
  rewrite bool_decide_true by done. cbn [foldl]. change (push_segment [] "") with (@nil string).
  destruct segments as [|segment segments]; [done|].
  rewrite split_join; [|done|eapply Forall_impl; [done|apply gs_slash]].
  rewrite push_good by done. by rewrite app_nil_r, reverse_involutive.
Qed.

(** * What is admitted *)

Lemma existsb_good segments :
  existsb bad_segment segments = false ↔ Forall (fun segment => bad_segment segment = false) segments.
Proof.
  induction segments as [|segment segments IH]; simpl; [by split; [constructor|]|].
  rewrite orb_false_iff, Forall_cons. tauto.
Qed.

Lemma normalize_ok path p :
  normalizeWorkspaceRelativePath path = Ok p →
  p = replace_all backslash slash path ∧ Forall good_segment (split_on slash p).
Proof.
  unfold normalizeWorkspaceRelativePath. intros H. inv_result. rewrite join_split.
  split; [done|].
  match goal with H : existsb _ _ = false |- _ => apply existsb_good in H; rename H into Hdots end.
  pose proof (split_segments_free slash (replace_all backslash slash path)) as Hfree.
  rewrite Forall_forall in *. intros segment Hin. split; auto.
Qed.

(** The root of a resolver. *)
Lemma resolve_rooted cwd parts : ∃ segments,
  resolve cwd parts = absolute_path segments ∧ Forall good_segment segments.
Proof. eexists. split; [done|]. apply absolute_segments_good. Qed.

Lemma good_not_rooted segment :
  good_segment segment → segment ≠ "" ∧ starts_with_slash segment = false.
Proof.
  intros [Hd Hs]. unfold bad_segment in Hd. apply bool_decide_eq_false in Hd.
  split; [naive_solver|]. destruct segment as [|a s]; [done|]. simpl in *.
  by apply orb_false_iff in Hs as [? _].
Qed.

(** The loop of [resolve] puts good segments behind a rooted path. *)
Lemma resolve_loop_good root segments resolved :
  starts_with_slash root = true → Forall good_segment segments →
  resolve_loop "" (segments ++ [root]) resolved =
  root +:+ String slash (foldl (fun rest segment => segment +:+ String slash rest) resolved segments).
Proof.
  intros Hroot Hg. revert resolved. induction Hg as [|segment segments Hs _ IH]; intros resolved; simpl.
  - rewrite bool_decide_false, Hroot; [done|]. by intros ->.
  - destruct (good_not_rooted segment Hs) as [Hne Hns].
    by rewrite bool_decide_false, Hns, IH.
Qed.

Lemma split_joined segments resolved :
  Forall good_segment segments →
  split_on slash (foldl (fun rest segment => segment +:+ String slash rest) resolved segments) =
  reverse segments ++ split_on slash resolved.
Proof.
  intros Hg. revert resolved. induction Hg as [|segment segments Hs _ IH]; intros resolved; simpl; [done|].
  rewrite IH, split_app, (split_free slash segment) by apply Hs.
  by rewrite reverse_cons, <-app_assoc.
Qed.

(** Good segments are resolved right below the root. *)
Lemma resolve_below root segments :
  starts_with_slash root = true → Forall good_segment segments →
  resolve "" (root :: segments) = absolute_path (absolute_segments root ++ segments).
Proof.
  intros Hroot Hg. unfold resolve. f_equal. rewrite reverse_cons.
  rewrite resolve_loop_good by (by try apply Forall_reverse). unfold absolute_segments.
  rewrite split_app, split_joined by (by apply Forall_reverse).
  rewrite reverse_involutive, !foldl_app, (push_good _ segments) by done. simpl.
  change (push_segment ?st "") with st.
  by rewrite reverse_app, reverse_involutive.
Qed.

Lemma candidate_ok root path abs :
  starts_with_slash root = true → candidate root path = Ok abs →
  ∃ segments, segments ≠ [] ∧ Forall good_segment segments ∧
    segments = split_on slash (replace_all backslash slash path) ∧
    abs = absolute_path (absolute_segments root ++ segments).
Proof.
  intros Hroot H. unfold candidate in H. inv_result.
  match goal with H : normalizeWorkspaceRelativePath _ = Ok ?p |- _ =>
    apply normalize_ok in H as [-> Hg] end.
  eexists. split; [|split; [exact Hg|split; [done|by apply resolve_below]]].
  destruct (split_on_cons slash (replace_all backslash slash path)) as (? & ? & ->). done.
Qed.

(** What is below the root: the root's segments, then at least one that is no dots. *)
Definition below (root path : string) : Prop :=
  ∃ segments, segments ≠ [] ∧ Forall good_segment segments ∧
    path = absolute_path (absolute_segments root ++ segments).

Lemma candidate_below root path abs :
  starts_with_slash root = true → candidate root path = Ok abs → below root abs.
Proof.
  intros Hroot H. destruct (candidate_ok root path abs Hroot H) as (segments & ? & ? & _ & ->).
  by exists segments.
Qed.

Section confined.
Context {F : Type} (root : string) (Hroot : starts_with_slash root = true).
Local Abbreviation pevent := (event path_error (path_call F)).
Local Abbreviation cwp := (wp (S := list pevent) collect (fun _ => True)).

Definition asked {R} (c : path_call F R) : string :=
  match c with CanonicalPath path | Metadata path => path end.

(** Every call is about a path below the root. *)
Definition confined (t : list pevent) : Prop :=
  Forall (fun e => match e with Event c _ => below root (asked c) end) t.

Lemma confined_snoc t {R} (c : path_call F R) r :
  confined t → below root (asked c) → confined (t ++ [Event c r]).
Proof. intros. apply Forall_app. split; [done|]. by constructor. Qed.

(** What may be read: the canonical form of a path below the root, as the file system says. *)
Definition readable (path : string) (t : list pevent) : Prop :=
  ∃ candidate, below root candidate ∧ Event (CanonicalPath candidate) (Ok path) ∈ t.

(** A directory is asked for by a path below the root, by the root itself, or by the canonical form
    that the file system has given for such a path. *)
Definition asks_admitted (seen : list pevent) (e : pevent) : Prop :=
  match e with
  | Event c _ => below root (asked c) ∨
      match c with CanonicalPath path => path = root | Metadata path => readable path seen end
  end.

Fixpoint asks_from (seen t : list pevent) : Prop :=
  match t with
  | [] => True
  | e :: t => asks_admitted seen e ∧ asks_from (seen ++ [e]) t
  end.

(** What is given out as a directory: the canonical root, or what may be read and is a
    directory. *)
Definition directory (memo : option (result path_error string)) (path : string)
    (t : list pevent) : Prop :=
  memo = Some (Ok path) ∨ Event (CanonicalPath root) (Ok path) ∈ t ∨
  readable path t ∧ ∃ data, Event (Metadata path) (Ok (Some (KindDirectory, data))) ∈ t.

(** What a mutation may write to: the canonical form of a path below the root that is no
    symbolic link, or such a path itself, where something is missing. *)
Definition mutable (path : string) (t : list pevent) : Prop :=
  (∃ candidate (metadata : option (file_kind * F)), below root candidate ∧
    Event (Metadata candidate) (Ok metadata) ∈ t ∧ fst <$> metadata ≠ Some KindSymlink ∧
    Event (CanonicalPath candidate) (Ok path) ∈ t) ∨
  below root path ∧ ∃ e, isMissingPathError e = true ∧
    (Event (Metadata path) (Throw e) ∈ t ∨ Event (CanonicalPath path) (Throw e) ∈ t).

(** The candidate, or an escape before anything is asked. *)
Lemma candidate_wp {A} path (f : string → prog path_error (path_call F) A)
    (Q : result path_error A → list pevent → Prop) :
  (∀ e, Q (Throw e) []) → (∀ abs, below root abs → cwp (f abs) Q []) →
  cwp (abs ← of_result (candidate root path); f abs) Q [].
Proof.
  intros He Hf. wp_rule. unfold of_result.
  destruct (candidate root path) as [abs|e] eqn:Hc; wp_rule; [|done].
  apply Hf. by eapply candidate_below.
Qed.

Ltac asks :=
  repeat first
    [ done
    | apply confined_snoc
    | wp_rule
    | case_match
    | apply collect_await; intros [?|?] _ ].

(** A read, with what it gives out. *)
Ltac asks_read :=
  apply candidate_wp; [intros e; split; [constructor|done]|];
  let abs := fresh "abs" in let Ha := fresh "Ha" in intros abs Ha; unfold mapped;
  repeat first
    [ done
    | wp_rule
    | case_match
    | apply collect_await; intros [?|?] _ ];
  (split; [repeat apply (confined_snoc (_ ++ [_])) || apply (confined_snoc []);
     first [constructor|done]|intros; simplify_eq; try (exists abs; set_solver)]).

Lemma resolveRead_wp path :
  cwp (resolveRead root path) (fun r t => confined t ∧ ∀ q, r = Ok q → readable q t) [].
Proof. asks_read. Qed.

Lemma resolveOptionalRead_wp path :
  cwp (resolveOptionalRead root path)
    (fun r t => confined t ∧ ∀ q, r = Ok (Some q) → readable q t) [].
Proof. asks_read. Qed.

Lemma resolveReadEntry_wp path :
  cwp (resolveReadEntry root path)
    (fun r t => confined t ∧ ∀ q data, r = Ok (q, data) → readable q t) [].
Proof. asks_read. Qed.

Lemma canonicalRoot_wp memo :
  cwp (with_locals memo (getCanonicalRoot root))
    (fun r t => asks_from [] t ∧ ∀ q, r = Ok q → directory memo q t) [].
Proof.
  apply wp_with_locals. unfold getCanonicalRoot, lwp. destruct memo as [[q|e]|]; simpl.
  - split; [done|]. intros q' [= <-]. by left.
  - by split.
  - intros r _. eexists. split; [done|]. destruct r as [q|e]; simpl.
    + split; [split; [by right|done]|]. intros q' [= <-]. right. left. set_solver.
    + by split; [split; [right|]|].
Qed.

Lemma resolveDirectory_wp memo path :
  cwp (with_locals memo (resolveDirectory root path))
    (fun r t => asks_from [] t ∧ ∀ q, r = Ok q → directory memo q t) [].
Proof.
  destruct path as [path|]; [|apply canonicalRoot_wp]. unfold resolveDirectory.
  destruct (bool_decide _); [apply canonicalRoot_wp|]. repeat wp_rule.
  unfold resolveRead. apply candidate_wp; [by split|]. intros abs Ha. unfold mapped.
  wp_rule. apply collect_await. intros [q|e] _; repeat wp_rule.
  2: { split; [|done]. split; [by left|done]. }
  apply collect_await. intros r _.
  set (t := _ ++ _).
  assert (asks_from [] t) as Ht.
  { split; [by left|]. split; [|done]. right. exists abs. set_solver. }
  destruct r as [a|e]; [|done].
  destruct (bool_decide _) eqn:Hdir; wp_rule; [|done]. split; [done|]. intros q' [= <-].
  right. right. apply bool_decide_eq_true in Hdir. destruct a as [[kind data]|]; simplify_eq/=.
  split; [exists abs; set_solver|]. exists data. set_solver.
Qed.

Lemma resolveMutation_wp path :
  cwp (resolveMutation root path)
    (fun r t => confined t ∧ ∀ q, r = Ok q → mutable q t) [].
Proof.
  apply candidate_wp; [intros e; split; [constructor|done]|]. intros abs Ha.
  assert (∀ e t, confined t → Event (Metadata abs) (Throw e) ∈ t ∨
      Event (CanonicalPath abs) (Throw e) ∈ t →
    cwp (if isMissingPathError e then mret abs else Raise (mapPathError e path))
      (fun r t => confined t ∧ ∀ q, r = Ok q → mutable q t) t) as Hmissing.
  { intros e t Ht He. destruct (isMissingPathError e) eqn:Hm; wp_rule; [|done].
    split; [done|]. intros q [= <-]. right. eauto. }
  assert (confined []) as Hnil by constructor.
  wp_rule. wp_rule. apply collect_await. intros [metadata|e] _; simpl.
  2: { apply Hmissing; [by apply (confined_snoc [])|left; set_solver]. }
  wp_rule. apply wp_raise_if.
  2: { change (isMissingPathError (workspacePathEscape path)) with false. cbn iota. wp_rule.
       by split; [apply (confined_snoc [])|]. }
  intros Hlink%bool_decide_eq_false. apply collect_await. intros [q|e] _.
  - split; [apply (confined_snoc [_]); [by apply (confined_snoc [])|done]|]. intros q' [= <-].
    left. exists abs, metadata. split_and!; [done|set_solver|done|set_solver].
  - apply Hmissing; [apply (confined_snoc [_]); [by apply (confined_snoc [])|done]|right; set_solver].
Qed.
End confined.

Lemma bad_segment_false segment :
  bad_segment segment = false ↔ segment ∉ [""; "."; ".."]%string.
Proof.
  unfold bad_segment. rewrite bool_decide_eq_false, !not_elem_of_cons.
  pose proof (not_elem_of_nil segment). tauto.
Qed.

Lemma replace_all_idem a b s : a ≠ b → replace_all a b (replace_all a b s) = replace_all a b s.
Proof.
  intros Hab. induction s as [|x s IH]; simpl; [done|]. rewrite IH.
  destruct (decide (x = a)) as [->|].
  - rewrite (bool_decide_true (a = a)), (bool_decide_false (b = a)) by congruence. done.
  - by rewrite !(bool_decide_false (x = a)) by done.
Qed.

Lemma includes_replace c a b s :
  c ≠ a → c ≠ b → includes_char c (replace_all a b s) = includes_char c s.
Proof.
  intros Ha Hb. induction s as [|x s IH]; simpl; [done|]. rewrite IH.
  destruct (decide (x = a)) as [->|].
  - by rewrite (bool_decide_true (a = a)), !bool_decide_false by congruence.
  - by rewrite (bool_decide_false (x = a)) by done.
Qed.

Lemma split_rooted s : starts_with_slash s = true → ∃ segments, split_on slash s = ""%string :: segments.
Proof. destruct s as [|a s]; simpl; [done|]. intros ->. eauto. Qed.

(** The guards on the portable form alone. *)
Lemma normalize_iff path p :
  normalizeWorkspaceRelativePath path = Ok p ↔
  p = replace_all backslash slash path ∧ includes_char NUL path = false ∧ drive_path p = false ∧
  Forall (fun segment => bad_segment segment = false) (split_on slash p).
Proof.
  unfold normalizeWorkspaceRelativePath. split.
  - intros H. inv_result. rewrite join_split.
    repeat match goal with H : _ || _ = false |- _ => apply orb_false_iff in H as [? ?] end.
    by rewrite <-existsb_good.
  - intros (-> & Hnul & Hdrive & Hs). rewrite Hnul, Hdrive.
    pose proof Hs as Hs'. apply existsb_good in Hs' as ->. rewrite join_split.
    destruct path as [|a path]; [by apply Forall_cons in Hs as [? _]|].
    destruct (starts_with_slash (replace_all backslash slash (String a path))) eqn:Hstart.
    { apply split_rooted in Hstart as [segments E]. rewrite E in Hs.
      by apply Forall_cons in Hs as [? _]. }
    destruct (starts_with_slash (String a path)) eqn:Hraw; [|done].
    simpl in Hraw. apply bool_decide_eq_true in Hraw as ->. done.
Qed.

(** A path is admitted exactly when it has no NUL, does not begin with a drive, and no
    segment of it, backslashes read as slashes, is empty or dots; what is returned is the
    path with slashes, which is admitted as it is. *)
Lemma normalizeWorkspaceRelativePath_spec path p :
  normalizeWorkspaceRelativePath path = Ok p ↔
  p = replace_all backslash slash path ∧ includes_char NUL path = false ∧ drive_path p = false ∧
  (∀ segment, segment ∈ split_on slash p → segment ∉ [""; "."; ".."]%string) ∧
  normalizeWorkspaceRelativePath p = Ok p.
Proof.
  rewrite (normalize_iff path p), (normalize_iff p p). split.
  - intros (-> & Hnul & Hdrive & Hs). split_and!; try done.
    + intros segment Hin. rewrite Forall_forall in Hs. by apply bad_segment_false, Hs.
    + by rewrite replace_all_idem.
    + by rewrite includes_replace.
  - intros (-> & Hnul & Hdrive & _ & _ & _ & _ & Hs). done.
Qed.

(** (C23) No path leads out of the workspace.  A resolver of the root that its constructor
    resolves asks the file system only about paths below the root: the root's segments, followed
    by at least one, none of them empty, dots, or with a slash in it; a directory is besides asked
    for by the root itself, and by what the file system has just answered as the canonical form of
    such a path.  What it gives out to read is the canonical form of a path below the root; what
    it gives out as a directory is such a form that is a directory, or the canonical root; and what
    it gives out to write to is the canonical form of such a path that is no symbolic link, or such
    a path itself where the file system says that something is missing. *)
Theorem resolver_confined {F} cwd dir path :
  let root := new_rootDir cwd dir in
  (∀ t r, trace (resolveRead (F := F) root path) t r →
    confined root t ∧ ∀ q, r = Ok q → readable root q t) ∧
  (∀ t r, trace (resolveOptionalRead (F := F) root path) t r →
    confined root t ∧ ∀ q, r = Ok (Some q) → readable root q t) ∧
  (∀ t r, trace (resolveReadEntry (F := F) root path) t r →
    confined root t ∧ ∀ q data, r = Ok (q, data) → readable root q t) ∧
  (∀ t r, trace (resolveMutation (F := F) root path) t r →
    confined root t ∧ ∀ q, r = Ok q → mutable root q t) ∧
  (∀ memo directory_path t r,
    trace (with_locals memo (resolveDirectory (F := F) root directory_path)) t r →
    asks_from root [] t ∧ ∀ q, r = Ok q → directory root memo q t).
Proof.
  assert (starts_with_slash (new_rootDir cwd dir) = true) as Hroot by done.
  assert (∀ A (p : prog path_error (path_call F) A) Q t r,
    wp collect (fun _ => True) p Q [] → trace p t r → Q r t) as Hcollect.
  { intros A p Q t r Hp Ht. eapply (collect_trace (fun _ => True)); [done..|]. by apply Forall_forall. }
  split_and!; [intros t r..|intros memo directory_path t r].
  - exact (Hcollect _ _ _ t r (resolveRead_wp _ Hroot path)).
  - exact (Hcollect _ _ _ t r (resolveOptionalRead_wp _ Hroot path)).
  - exact (Hcollect _ _ _ t r (resolveReadEntry_wp _ Hroot path)).
  - exact (Hcollect _ _ _ t r (resolveMutation_wp _ Hroot path)).
  - exact (Hcollect _ _ _ t r (resolveDirectory_wp _ Hroot memo directory_path)).
Qed.

(** * Examples *)

Example sample_admitted :
  normalizeWorkspaceRelativePath "src\a/b.ts" = Ok "src/a/b.ts"%string ∧
  candidate (new_rootDir "/home" "../work/./ws/") "src\a/b.ts" = Ok "/work/ws/src/a/b.ts"%string.
Proof. vm_compute. done. Qed.

Example sample_refused :
  Forall (fun path => is_ok (normalizeWorkspaceRelativePath path) = false)
    [""; "/etc/passwd"; "..\x"; "a/../../x"; "a//b"; "C:\x"; "\host\x"; "./a"]%string.
Proof. repeat constructor. Qed.

(** A file system of plain files. *)
Definition sample_fs R (c : path_call unit R) : stM unit path_error R := fun u =>
  match c in path_call _ R return unit * result path_error R with
  | CanonicalPath path => (u, Ok path)
  | Metadata _ => (u, Ok (Some (KindFile, tt)))
  end.

Definition sample_mutation :=
  run sample_fs (resolveMutation (new_rootDir "/home" "../work/ws") "src\a.ts") tt.

Lemma resolver_confined_witness :
  sample_mutation.2 = Ok "/work/ws/src/a.ts"%string ∧ length sample_mutation.1 = 2 ∧
  confined (new_rootDir "/home" "../work/ws") sample_mutation.1 ∧
  mutable (new_rootDir "/home" "../work/ws") "/work/ws/src/a.ts" sample_mutation.1.
Proof.
  split; [vm_compute; reflexivity|]. split; [vm_compute; reflexivity|].
  destruct (resolver_confined (F := unit) "/home" "../work/ws" "src\a.ts") as (_ & _ & _ & H & _).
  destruct (H sample_mutation.1 sample_mutation.2) as [Hc Hm].
  - exact (run_trace sample_fs
      (resolveMutation (new_rootDir "/home" "../work/ws") "src\a.ts") tt).
  - split; [exact Hc|]. apply Hm. vm_compute. reflexivity.
Defined.
