(* ===== verification/WorkspaceProtocol.v ===== *)
(** The workspace records of [@wanex/protocol] ([packages/protocol/src/workspace.ts]):
    change sets, their receipts and operations, proposals and their apply attempts, and
    the transactions that apply a change set.  [packages/workspace/src/changesets/types.ts]
    declares the first four again under shorter names. *)
From S2P Require Import Prelude Json Protocol.

(** * String-literal unions *)

Inductive WorkspaceFileChangeKind := ChangeCreate | ChangeUpdate | ChangeDelete.

#[export] Instance WorkspaceFileChangeKind_eq_dec : EqDecision WorkspaceFileChangeKind.
Proof. solve_decision. Defined.

#[export, refine] Instance WorkspaceFileChangeKind_enum : StringEnum WorkspaceFileChangeKind := {|
  enum_values := [ChangeCreate; ChangeUpdate; ChangeDelete];
  enum_name k := match k with
    | ChangeCreate => "create" | ChangeUpdate => "update" | ChangeDelete => "delete"
    end%string |}.
Proof. all: solve_enum. Defined.

Inductive WorkspaceChangeApplyStatus := ApplyApplied | ApplyAlreadyApplied | ApplyConflicted.

#[export] Instance WorkspaceChangeApplyStatus_eq_dec : EqDecision WorkspaceChangeApplyStatus.
Proof. solve_decision. Defined.

#[export, refine] Instance WorkspaceChangeApplyStatus_enum :
    StringEnum WorkspaceChangeApplyStatus := {|
  enum_values := [ApplyApplied; ApplyAlreadyApplied; ApplyConflicted];
  enum_name k := match k with
    | ApplyApplied => "applied" | ApplyAlreadyApplied => "already_applied"
    | ApplyConflicted => "conflicted"
    end%string |}.
Proof. all: solve_enum. Defined.

Inductive WorkspaceChangeOperationKind := OperationApply | OperationUndo.

#[export] Instance WorkspaceChangeOperationKind_eq_dec :
  EqDecision WorkspaceChangeOperationKind.
Proof. solve_decision. Defined.

Inductive WorkspaceChangeProposalState :=
| ProposalOpen | ProposalApproved | ProposalRejected | ProposalWithdrawn
| ProposalApplyRequested | ProposalApplying | ProposalApplied | ProposalApplyFailed
| ProposalRecoveryRequired.

#[export] Instance WorkspaceChangeProposalState_eq_dec :
  EqDecision WorkspaceChangeProposalState.
Proof. solve_decision. Defined.

#[export, refine] Instance WorkspaceChangeProposalState_enum :
    StringEnum WorkspaceChangeProposalState := {|
  enum_values := [ProposalOpen; ProposalApproved; ProposalRejected; ProposalWithdrawn;
    ProposalApplyRequested; ProposalApplying; ProposalApplied; ProposalApplyFailed;
    ProposalRecoveryRequired];
  enum_name k := match k with
    | ProposalOpen => "open" | ProposalApproved => "approved"
    | ProposalRejected => "rejected" | ProposalWithdrawn => "withdrawn"
    | ProposalApplyRequested => "apply_requested" | ProposalApplying => "applying"
    | ProposalApplied => "applied" | ProposalApplyFailed => "apply_failed"
    | ProposalRecoveryRequired => "recovery_required"
    end%string |}.
Proof. all: solve_enum. Defined.

Inductive WorkspaceChangeProposalApplyAttemptState :=
| AttemptActive | AttemptApplied | AttemptFailed | AttemptRecoveryRequired.

Inductive WorkspaceChangeProposalApplyClaimStatus :=
| ClaimClaimed | ClaimBusy | ClaimRecoveryRequired | ClaimNotReady | ClaimAlreadyTerminal.

#[export] Instance WorkspaceChangeProposalApplyClaimStatus_eq_dec :
  EqDecision WorkspaceChangeProposalApplyClaimStatus.
Proof. solve_decision. Defined.

Inductive WorkspaceChangeSetState :=
| SetSubmitted | SetApplied | SetAlreadyApplied | SetConflicted | SetUndone
| SetUndoConflicted.

Inductive WorkspaceChangeTransactionOperation := TransactionApply | TransactionUndo.

Inductive WorkspaceChangeTransactionSourceKind := SourceProposal | SourceTool | SourceHost.

Inductive WorkspaceChangeTransactionState :=
| TransactionPlanning | TransactionPrepared | TransactionCommitting | TransactionApplied
| TransactionRolledBack | TransactionRecoveryRequired.

Inductive WorkspaceChangeTransactionFileState := FilePending | FilePrepared | FileCommitted.

Inductive WorkspaceChangeTransactionAttemptKind := AttemptExecution | AttemptRecovery.

Inductive WorkspaceChangeTransactionAttemptState :=
| TransactionAttemptActive | TransactionAttemptCompleted | TransactionAttemptFailed.

Inductive WorkspaceChangeTransactionRecoveryDecision :=
| RecoverRollbackNoop | RecoverFinishForward | RecoverFinalize | RecoverAttention.

(** * Change sets and receipts *)

Record WorkspaceFileChange := {
  fc_path : string;
  fc_kind : WorkspaceFileChangeKind;
  fc_baseText : option string;
  fc_baseSha256 : option string;
  fc_targetText : option string;
}.

Record WorkspaceChangeSet := {
  cs_id : string;
  cs_title : option string;
  cs_baseRevision : option string;
  cs_changes : list WorkspaceFileChange;
}.

Inductive conflict_reason :=
| MissingBase | BaseHashMismatch | AlreadyExists | MissingFile | UndoTargetChanged.

#[export] Instance conflict_reason_eq_dec : EqDecision conflict_reason.
Proof. solve_decision. Defined.

#[export, refine] Instance conflict_reason_enum : StringEnum conflict_reason := {|
  enum_values := [MissingBase; BaseHashMismatch; AlreadyExists; MissingFile;
    UndoTargetChanged];
  enum_name k := match k with
    | MissingBase => "missing_base" | BaseHashMismatch => "base_hash_mismatch"
    | AlreadyExists => "already_exists" | MissingFile => "missing_file"
    | UndoTargetChanged => "undo_target_changed"
    end%string |}.
Proof. all: solve_enum. Defined.

Record WorkspaceFileConflict := {
  cf_path : string;
  cf_reason : conflict_reason;
  cf_currentSha256 : option string;
  cf_expectedSha256 : option string;
}.

#[export] Instance WorkspaceFileConflict_eq_dec : EqDecision WorkspaceFileConflict.
Proof. solve_decision. Defined.

Record WorkspaceAppliedFileChange := {
  af_path : string;
  af_kind : WorkspaceFileChangeKind;
  af_beforeText : option string;
  af_afterText : option string;
  af_beforeSha256 : option string;
  af_afterSha256 : option string;
}.

#[export] Instance WorkspaceAppliedFileChange_eq_dec : EqDecision WorkspaceAppliedFileChange.
Proof. solve_decision. Defined.

Record WorkspaceChangeSetReceipt := {
  rc_changeSetId : string;
  rc_status : WorkspaceChangeApplyStatus;
  rc_files : list WorkspaceAppliedFileChange;
  rc_conflicts : list WorkspaceFileConflict;
}.

#[export] Instance WorkspaceChangeSetReceipt_eq_dec : EqDecision WorkspaceChangeSetReceipt.
Proof. solve_decision. Defined.

Record WorkspaceChangeSetRecord := {
  sr_id : string;
  sr_workspaceId : string;
  sr_principalId : string;
  sr_title : option string;
  sr_baseRevision : option string;
  sr_changeSet : WorkspaceChangeSet;
  sr_currentState : WorkspaceChangeSetState;
  sr_createdAt : jsnum;
  sr_updatedAt : jsnum;
}.

Record WorkspaceChangeOperationRecord := {
  op_id : string;
  op_changeSetId : string;
  op_operation : WorkspaceChangeOperationKind;
  op_status : WorkspaceChangeApplyStatus;
  op_receipt : WorkspaceChangeSetReceipt;
  op_createdAt : jsnum;
}.

(** * Proposals *)

Record WorkspaceChangeProposalRecord := {
  pr_id : string;
  pr_workspaceId : string;
  pr_changeSetId : string;
  pr_principalId : string;
  pr_title : option string;
  pr_summary : option string;
  pr_state : WorkspaceChangeProposalState;
  pr_metadata : option json;
  pr_createdAt : jsnum;
  pr_updatedAt : jsnum;
  pr_closedAt : option jsnum;
}.

Record WorkspaceChangeProposalApplyAttemptRecord := {
  aa_id : string;
  aa_proposalId : string;
  aa_ownerId : string;
  aa_state : WorkspaceChangeProposalApplyAttemptState;
  aa_leaseExpiresAt : jsnum;
  aa_workspaceOperationId : option string;
  aa_metadata : option json;
  aa_failure : option json;
  aa_claimedAt : jsnum;
  aa_updatedAt : jsnum;
  aa_finishedAt : option jsnum;
}.

Record WorkspaceChangeProposalApplyClaimResult := {
  cl_status : WorkspaceChangeProposalApplyClaimStatus;
  cl_proposal : WorkspaceChangeProposalRecord;
  cl_attempt : option WorkspaceChangeProposalApplyAttemptRecord;
}.

(** * Transactions *)

Record WorkspaceChangeTransactionRecord := {
  tx_id : string;
  tx_workspaceId : string;
  tx_changeSetId : string;
  tx_operation : WorkspaceChangeTransactionOperation;
  tx_undoSourceOperationId : option string;
  tx_sourceKind : WorkspaceChangeTransactionSourceKind;
  tx_sourceId : string;
  tx_idempotencyKey : string;
  tx_rootIdentitySha256 : string;
  tx_proposalApplyAttemptId : option string;
  tx_state : WorkspaceChangeTransactionState;
  tx_planDigest : option string;
  tx_recoveryDecision : option WorkspaceChangeTransactionRecoveryDecision;
  tx_workspaceOperationId : option string;
  tx_failure : option json;
  tx_createdAt : jsnum;
  tx_updatedAt : jsnum;
  tx_finishedAt : option jsnum;
}.

Record WorkspaceChangeTransactionFileRecord := {
  tf_transactionId : string;
  tf_ordinal : jsnum;
  tf_path : string;
  tf_beforeText : option string;
  tf_beforeSha256 : option string;
  tf_afterText : option string;
  tf_afterSha256 : option string;
  tf_state : WorkspaceChangeTransactionFileState;
  tf_updatedAt : jsnum;
}.

Record WorkspaceChangeTransactionAttemptRecord := {
  ta_id : string;
  ta_transactionId : string;
  ta_ownerId : string;
  ta_kind : WorkspaceChangeTransactionAttemptKind;
  ta_state : WorkspaceChangeTransactionAttemptState;
  ta_leaseExpiresAt : jsnum;
  ta_failure : option json;
  ta_startedAt : jsnum;
  ta_updatedAt : jsnum;
  ta_finishedAt : option jsnum;
}.

Record WorkspaceChangeTransactionSnapshot := {
  sn_transaction : WorkspaceChangeTransactionRecord;
  sn_files : list WorkspaceChangeTransactionFileRecord;
  sn_activeAttempt : option WorkspaceChangeTransactionAttemptRecord;
}.

Record WorkspaceChangeTransactionFinalization := {
  fz_snapshot : WorkspaceChangeTransactionSnapshot;
  fz_operation : option WorkspaceChangeOperationRecord;
  fz_proposal : option WorkspaceChangeProposalRecord;
  fz_proposalAttempt : option WorkspaceChangeProposalApplyAttemptRecord;
}.
