(* ===== verification/Changeset.v ===== *)
(** Planning a change set ([packages/workspace/src/changesets/*.ts], [history.ts], and
    [transactionFiles] of [transaction/receipt.ts]): the receipt a change set would have
    in the workspace as it is, the receipt that undoes an earlier one, and the operation
    an undo starts from. *)
From S2P Require Import Prelude JsMap Json Protocol WorkspaceProtocol.

(** * Validation ([validate.ts]) *)

(** The body of the loop over the changes; [paths] are the ones seen so far. *)
Definition validate_change (paths : list string) (change : WorkspaceFileChange)
    : result string (list string) :=
  _ ← guard_throw (bool_decide (fc_path change = "")) "file change path must not be empty"%string;
  _ ← guard_throw (bool_decide (fc_path change ∈ paths))
        ("changeset contains duplicate path: " +:+ fc_path change);
  _ ← guard_throw (bool_decide (fc_kind change ≠ ChangeDelete) &&
                   bool_decide (fc_targetText change = None))
        ("file change targetText is required: " +:+ fc_path change);
  Ok (paths ++ [fc_path change]).

Definition validateChangeSet (changeSet : WorkspaceChangeSet) : result string unit :=
  _ ← guard_throw (bool_decide (cs_id changeSet = "")) "changeset id must not be empty"%string;
  _ ← guard_throw (bool_decide (cs_changes changeSet = []))
        "changeset must include at least one file change"%string;
  _ ← foldM validate_change [] (cs_changes changeSet);
  Ok tt.

(** * Planning ([planner.ts], [plan.ts]) *)

Inductive PlannedFileChange :=
| PlannedFile (file : WorkspaceAppliedFileChange)
| PlannedConflict (conflict : WorkspaceFileConflict).

(** How the workspace is read; a read may throw. *)
Class WorkspaceReader (W : Type) := {
  readText : string → stM W string (option string);
}.

Section planning.
(** [createHash("sha256")] of the text in UTF-8, in hexadecimal. *)
Context (sha256Text : string → string).

Definition sha256Optional (text : option string) : option string := sha256Text <$> text.

(** The plan of a change to a path that holds [current]. *)
Definition plan_change (current : option string) (change : WorkspaceFileChange)
    : PlannedFileChange :=
  let currentSha256 := sha256Optional current in
  let baseSha256 := match fc_baseSha256 change with
    | Some sha => Some sha | None => sha256Optional (fc_baseText change) end in
  let targetSha256 := sha256Optional (fc_targetText change) in
  let file beforeText afterText beforeSha256 afterSha256 := PlannedFile {|
    af_path := fc_path change; af_kind := fc_kind change; af_beforeText := beforeText;
    af_afterText := afterText; af_beforeSha256 := beforeSha256;
    af_afterSha256 := afterSha256 |} in
  let conflict reason currentSha256 expectedSha256 := PlannedConflict {|
    cf_path := fc_path change; cf_reason := reason; cf_currentSha256 := currentSha256;
    cf_expectedSha256 := expectedSha256 |} in
  if bool_decide (fc_kind change = ChangeCreate) then
    if bool_decide (current ≠ None) && bool_decide (currentSha256 ≠ targetSha256)
    then conflict AlreadyExists currentSha256 None
    else file current (fc_targetText change) currentSha256 targetSha256
  else match fc_baseText change, baseSha256 with
  | Some baseText, Some baseSha256 =>
      let targetText := if bool_decide (fc_kind change = ChangeDelete) then None
        else Some (default "" (fc_targetText change))%string in
      if bool_decide (current = targetText)
      then file current current currentSha256 currentSha256
      else match current with
      | None => conflict MissingFile None (Some baseSha256)
      | Some text =>
          if bool_decide (text = baseText)
          then file current
            (if bool_decide (fc_kind change = ChangeDelete) then None
             else fc_targetText change)
            currentSha256
            (if bool_decide (fc_kind change = ChangeDelete) then None else targetSha256)
          else conflict BaseHashMismatch currentSha256 (Some baseSha256)
      end
  | _, _ => conflict MissingBase currentSha256 None
  end.

Section reader.
Context {W : Type} `{!WorkspaceReader W}.
Local Abbreviation M := (stM W string).

Definition planFileChange (change : WorkspaceFileChange) : M PlannedFileChange :=
  current ← readText (fc_path change);
  mret (plan_change current change).

(** The loop over the changes, with the [files] and the [conflicts] so far. *)
Fixpoint plan_changes (changes : list WorkspaceFileChange)
    (files : list WorkspaceAppliedFileChange) (conflicts : list WorkspaceFileConflict)
    : M (list WorkspaceAppliedFileChange * list WorkspaceFileConflict) :=
  match changes with
  | [] => mret (files, conflicts)
  | change :: changes =>
      plan ← planFileChange change;
      match plan with
      | PlannedConflict conflict => plan_changes changes files (conflicts ++ [conflict])
      | PlannedFile file => plan_changes changes (files ++ [file]) conflicts
      end
  end.

Definition unchanged (file : WorkspaceAppliedFileChange) : bool :=
  bool_decide (af_beforeText file = af_afterText file).

Definition planChangeSetApply (changeSet : WorkspaceChangeSet) : M WorkspaceChangeSetReceipt :=
  _ ← liftM (validateChangeSet changeSet);
  '(files, conflicts) ← plan_changes (cs_changes changeSet) [] [];
  mret match conflicts with
  | _ :: _ => {|
      rc_changeSetId := cs_id changeSet; rc_status := ApplyConflicted; rc_files := [];
      rc_conflicts := conflicts |}
  | [] => {|
      rc_changeSetId := cs_id changeSet;
      rc_status := if forallb unchanged files then ApplyAlreadyApplied else ApplyApplied;
      rc_files := files; rc_conflicts := [] |}
  end.

(** The loop that compares each file with the receipt. *)
Fixpoint undo_conflicts (files : list WorkspaceAppliedFileChange)
    (conflicts : list WorkspaceFileConflict) : M (list WorkspaceFileConflict) :=
  match files with
  | [] => mret conflicts
  | file :: files =>
      current ← readText (af_path file);
      undo_conflicts files
        (if bool_decide (sha256Optional current = af_afterSha256 file) then conflicts
         else conflicts ++ [{|
           cf_path := af_path file; cf_reason := UndoTargetChanged;
           cf_currentSha256 := sha256Optional current;
           cf_expectedSha256 := af_afterSha256 file |}])
  end.

Definition reversed (file : WorkspaceAppliedFileChange) : WorkspaceAppliedFileChange := {|
  af_path := af_path file; af_kind := af_kind file;
  af_beforeText := af_afterText file; af_afterText := af_beforeText file;
  af_beforeSha256 := af_afterSha256 file; af_afterSha256 := af_beforeSha256 file |}.

Definition planChangeSetUndo (source : WorkspaceChangeSetReceipt)
    : M WorkspaceChangeSetReceipt :=
  _ ← guardM (bool_decide (rc_status source = ApplyConflicted))
        "conflicted workspace receipt cannot be undone"%string;
  conflicts ← undo_conflicts (rc_files source) [];
  mret match conflicts with
  | _ :: _ => {|
      rc_changeSetId := rc_changeSetId source; rc_status := ApplyConflicted;
      rc_files := []; rc_conflicts := conflicts |}
  | [] => {|
      rc_changeSetId := rc_changeSetId source; rc_status := ApplyApplied;
      rc_files := reversed <$> rc_files source; rc_conflicts := [] |}
  end.
End reader.
End planning.

(** * The files a transaction writes ([transaction/receipt.ts]) *)

Record WorkspaceChangeTransactionFilePlan := {
  fp_ordinal : jsnum;
  fp_path : string;
  fp_beforeText : option string;
  fp_beforeSha256 : option string;
  fp_afterText : option string;
  fp_afterSha256 : option string;
}.

#[export] Instance WorkspaceChangeTransactionFilePlan_eq_dec :
  EqDecision WorkspaceChangeTransactionFilePlan.
Proof. solve_decision. Defined.

Definition file_plan (ordinal : nat) (file : WorkspaceAppliedFileChange)
    : WorkspaceChangeTransactionFilePlan := {|
  fp_ordinal := num_of_Z (Z.of_nat ordinal); fp_path := af_path file; fp_beforeText := af_beforeText file;
  fp_beforeSha256 := af_beforeSha256 file; fp_afterText := af_afterText file;
  fp_afterSha256 := af_afterSha256 file |}.

Definition transactionFiles (receipt : WorkspaceChangeSetReceipt)
    : list WorkspaceChangeTransactionFilePlan :=
  imap file_plan
    (filter (fun file => af_beforeText file ≠ af_afterText file) (rc_files receipt)).

(** * History ([history.ts]) *)

(** The loop over the operations, the last one first. *)
Fixpoint latest_applicable (operations : list WorkspaceChangeOperationRecord)
    : option WorkspaceChangeOperationRecord :=
  match operations with
  | [] => None
  | operation :: operations =>
      if bool_decide (op_operation operation = OperationUndo) &&
         bool_decide (op_status operation = ApplyApplied) then None
      else if bool_decide (op_operation operation = OperationApply) &&
         (bool_decide (op_status operation = ApplyApplied) ||
          bool_decide (op_status operation = ApplyAlreadyApplied)) then Some operation
      else latest_applicable operations
  end.

Definition latestApplicableApplyOperation (operations : list WorkspaceChangeOperationRecord)
    : option WorkspaceChangeOperationRecord :=
  latest_applicable (reverse operations).

Definition isTerminalWorkspaceChangeSetState (state : WorkspaceChangeSetState) : bool :=
  match state with
  | SetApplied | SetAlreadyApplied | SetConflicted | SetUndone | SetUndoConflicted => true
  | SetSubmitted => false
  end.

(** * The files of a workspace *)

Abbreviation contents := (gmap string string).

(** The path holds the text, or nothing. *)
Definition put_file (path : string) (text : option string) (ws : contents) : contents :=
  partial_alter (fun _ => text) path ws.

Lemma put_file_eq path text ws : put_file path text ws !! path = text.
Proof. apply lookup_partial_alter_eq. Qed.

Lemma put_file_ne path path' text ws : path ≠ path' → put_file path text ws !! path' = ws !! path'.
Proof. intros. by apply lookup_partial_alter_ne. Qed.

(** Every element of a list puts its text at its path. *)
Section put_all.
Context {A : Type} (path : A → string) (text : A → option string).

Definition put_all (l : list A) (ws : contents) : contents :=
  foldl (fun ws x => put_file (path x) (text x) ws) ws l.

Lemma put_all_other l ws p : p ∉ path <$> l → put_all l ws !! p = ws !! p.
Proof.
  revert ws. induction l as [|x l IH]; intros ws Hp; [done|]. simpl.
  fold (put_all l (put_file (path x) (text x) ws)).
  rewrite IH by set_solver. rewrite put_file_ne; set_solver.
Qed.

Lemma put_all_elem l ws x : NoDup (path <$> l) → x ∈ l → put_all l ws !! path x = text x.
Proof.
  revert ws. induction l as [|y l IH]; intros ws Hnd Hx; [set_solver|]. simpl.
  fold (put_all l (put_file (path y) (text y) ws)). apply NoDup_cons in Hnd as [Hy Hnd].
  apply elem_of_cons in Hx as [->|Hx]; [|by apply IH].
  by rewrite put_all_other, put_file_eq.
Qed.
End put_all.

(** What a committed transaction leaves. *)
Definition commit : list WorkspaceChangeTransactionFilePlan → contents → contents :=
  put_all fp_path fp_afterText.

(** What a path holds once the change has been made. *)
Definition target (change : WorkspaceFileChange) : option string :=
  match fc_kind change with ChangeDelete => None | _ => fc_targetText change end.

Definition put_targets : list WorkspaceFileChange → contents → contents :=
  put_all fc_path target.

Lemma transactionFiles_elem receipt file :
  file ∈ rc_files receipt → af_beforeText file ≠ af_afterText file →
  ∃ i, file_plan i file ∈ transactionFiles receipt.
Proof.
  intros Hf Hne.
  assert (file ∈ filter (fun file => af_beforeText file ≠ af_afterText file) (rc_files receipt))
    as [i Hi]%list_elem_of_lookup by (by apply list_elem_of_filter).
  exists i. apply list_elem_of_lookup. exists i. unfold transactionFiles.
  by rewrite list_lookup_imap, Hi.
Qed.

Lemma transactionFiles_paths receipt :
  fp_path <$> transactionFiles receipt =
  af_path <$> filter (fun file => af_beforeText file ≠ af_afterText file) (rc_files receipt).
Proof.
  unfold transactionFiles. rewrite fmap_imap. unfold compose. simpl.
  generalize (filter (fun file => af_beforeText file ≠ af_afterText file) (rc_files receipt)) as l.
  intros l. exact (imap_const af_path l).
Qed.

(** Committing a receipt's files leaves each of its paths with its new text. *)
Lemma commit_elem receipt ws file :
  NoDup (af_path <$> rc_files receipt) → file ∈ rc_files receipt →
  (af_beforeText file = af_afterText file → ws !! af_path file = af_afterText file) →
  commit (transactionFiles receipt) ws !! af_path file = af_afterText file.
Proof.
  intros Hnd Hf Hsame. unfold commit.
  destruct (decide (af_beforeText file = af_afterText file)) as [He|Hne].
  - rewrite put_all_other; [by apply Hsame|]. rewrite transactionFiles_paths.
    intros (file' & Hp & [Hne' Hf']%list_elem_of_filter)%list_elem_of_fmap.
    assert (file = file') as <-; [|done].
    by apply (NoDup_fmap_eq af_path (rc_files receipt)).
  - destruct (transactionFiles_elem receipt file Hf Hne) as [i Hi].
    apply (put_all_elem fp_path fp_afterText _ ws (file_plan i file)); [|done].
    rewrite transactionFiles_paths. by apply NoDup_fmap_filter.
Qed.

Lemma commit_other receipt ws p :
  p ∉ af_path <$> rc_files receipt → commit (transactionFiles receipt) ws !! p = ws !! p.
Proof.
  intros Hp. unfold commit.
  apply put_all_other. rewrite transactionFiles_paths. intros Hin. apply Hp.
  eapply elem_of_sublist; [done|]. apply sublist_fmap, sublist_filter.
Qed.

(** * Planning against a snapshot *)

(** Reading observes the files the workspace holds, and does not change it. *)
Class SnapshotReader (W : Type) `{!WorkspaceReader W} (files : W → contents) : Prop :=
  readText_snapshot path w : readText path w = (w, Ok (files w !! path)).

(** A change set that [validateChangeSet] lets pass. *)
Record valid_changes (changeSet : WorkspaceChangeSet) : Prop := {
  vc_paths : NoDup (fc_path <$> cs_changes changeSet);
  vc_target change :
    change ∈ cs_changes changeSet → fc_kind change = ChangeDelete ∨ is_Some (fc_targetText change);
}.

Lemma validate_changes_ok changes paths paths' :
  foldM validate_change paths changes = Ok paths' →
  NoDup (fc_path <$> changes) ∧ (∀ p, p ∈ paths → p ∉ fc_path <$> changes) ∧
  (∀ change, change ∈ changes → fc_kind change = ChangeDelete ∨ is_Some (fc_targetText change)).
Proof.
  revert paths. induction changes as [|change changes IH]; intros paths; simpl.
  { intros _. split; [constructor|]. split; [set_solver|]. set_solver. }
  intros H. inv_result. unfold validate_change in *. inv_result.
  match goal with H : foldM _ _ _ = _ |- _ => apply IH in H as (Hnd & Hseen & Ht) end.
  repeat match goal with H : bool_decide _ = false |- _ => apply bool_decide_eq_false in H end.
  split; [|split].
  - apply NoDup_cons. split; [|done]. apply Hseen. set_solver.
  - intros p Hp [->|Hin]%elem_of_cons; [done|]. apply (Hseen p); [set_solver|done].
  - intros c [->|Hc]%elem_of_cons; [|by apply Ht].
    match goal with H : _ && _ = false |- _ => apply andb_false_iff in H as [H|H];
      apply bool_decide_eq_false in H end.
    + left. by destruct (decide (fc_kind change = ChangeDelete)).
    + right. by destruct (fc_targetText change).
Qed.

Lemma validateChangeSet_ok changeSet u : validateChangeSet changeSet = Ok u → valid_changes changeSet.
Proof.
  unfold validateChangeSet. intros H. inv_result.
  match goal with H : foldM _ _ _ = _ |- _ => apply validate_changes_ok in H as (? & _ & ?) end.
  by split.
Qed.

Section planned.
Context (sha256Text : string → string).
Local Abbreviation sha := (sha256Optional sha256Text).

(** When a path that holds [current] admits a change: a creation finds nothing or a text
    of the same hash, and any other change the text it starts from or the one it makes. *)
Definition admits (current : option string) (change : WorkspaceFileChange) : Prop :=
  match fc_kind change with
  | ChangeCreate => current = None ∨ sha current = sha (fc_targetText change)
  | ChangeUpdate | ChangeDelete =>
      is_Some (fc_baseText change) ∧ (current = target change ∨ current = fc_baseText change)
  end.

#[export] Instance admits_dec current change : Decision (admits current change).
Proof. unfold admits. destruct (fc_kind change); solve_decision. Defined.

(** The record of a change to a path that held [current]. *)
Record file_of (change : WorkspaceFileChange) (current : option string)
    (file : WorkspaceAppliedFileChange) : Prop := {
  fo_path : af_path file = fc_path change;
  fo_kind : af_kind file = fc_kind change;
  fo_before : af_beforeText file = current;
  fo_after : af_afterText file = target change;
  fo_beforeSha : af_beforeSha256 file = sha (af_beforeText file);
  fo_afterSha : af_afterSha256 file = sha (af_afterText file);
}.

Lemma plan_change_spec current change :
  fc_kind change = ChangeDelete ∨ is_Some (fc_targetText change) →
  match plan_change sha256Text current change with
  | PlannedFile file => admits current change ∧ file_of change current file
  | PlannedConflict conflict => ¬ admits current change ∧ cf_path conflict = fc_path change
  end.
Proof.
  intros Hv. unfold plan_change, admits.
  destruct change as [path kind base baseSha text]; simpl in *.
  destruct kind; simpl.
  - destruct current as [t|]; simpl; [|by split; [left|]].
    case_bool_decide as Hsha; simpl; [split; [naive_solver|done]|].
    split; [by right|by constructor].
  - destruct base as [b|]; simpl; [|split; [by intros [[] _]|done]].
    assert (is_Some text) as [t ->] by naive_solver. unfold target. simpl.
    destruct baseSha; simpl; (case_bool_decide as Hc; simpl; [subst; split; [naive_solver|by constructor]|]);
      (destruct current as [c|]; simpl; [|split; [naive_solver|done]]);
      (case_bool_decide as Hb; simpl; [subst; split; [naive_solver|by constructor]|]);
      (split; [naive_solver|done]).
  - destruct base as [b|]; simpl; [|split; [by intros [[] _]|done]]. unfold target. simpl.
    destruct baseSha; simpl; (case_bool_decide as Hc; simpl; [subst; split; [naive_solver|by constructor]|]);
      (destruct current as [c|]; simpl; [|done]);
      (case_bool_decide as Hb; simpl; [subst; split; [naive_solver|by constructor]|]);
      (split; [naive_solver|done]).
Qed.

Definition planned_file (plan : PlannedFileChange) : option WorkspaceAppliedFileChange :=
  match plan with PlannedFile file => Some file | PlannedConflict _ => None end.

Definition planned_conflict (plan : PlannedFileChange) : option WorkspaceFileConflict :=
  match plan with PlannedConflict conflict => Some conflict | PlannedFile _ => None end.

Context {W : Type} (files : W → contents) `{!WorkspaceReader W, !SnapshotReader W files}.

Lemma plan_changes_run changes fs cs w :
  let plans := (fun c => plan_change sha256Text (files w !! fc_path c) c) <$> changes in
  plan_changes sha256Text changes fs cs w =
    (w, Ok (fs ++ omap planned_file plans, cs ++ omap planned_conflict plans)).
Proof.
  revert fs cs. induction changes as [|c changes IH]; intros fs cs; simpl.
  { by rewrite !app_nil_r. }
  unfold mbind, stM_bind, planFileChange, mbind, stM_bind, mret, stM_ret.
  rewrite readText_snapshot.
  destruct (plan_change sha256Text (files w !! fc_path c) c); simpl; rewrite IH; simpl;
    by rewrite <-app_assoc.
Qed.

(** The plans of the changes a workspace admits, and of those it does not. *)
Lemma plans_split changes w :
  (∀ c, c ∈ changes → fc_kind c = ChangeDelete ∨ is_Some (fc_targetText c)) →
  let plans := (fun c => plan_change sha256Text (files w !! fc_path c) c) <$> changes in
  cf_path <$> omap planned_conflict plans =
    fc_path <$> filter (fun c => ¬ admits (files w !! fc_path c) c) changes ∧
  Forall2 (fun c f => file_of c (files w !! fc_path c) f)
    (filter (fun c => admits (files w !! fc_path c) c) changes) (omap planned_file plans).
Proof.
  induction changes as [|c changes IH]; intros Hv; simpl; [by split; [|constructor]|].
  destruct IH as [Hcs Hfs]; [set_solver|].
  pose proof (plan_change_spec (files w !! fc_path c) c (Hv c (list_elem_of_here _ _))) as Hc.
  destruct (plan_change sha256Text (files w !! fc_path c) c); simpl; destruct Hc as [Ha Hc].
  - rewrite filter_cons_False by tauto. rewrite filter_cons_True by done.
    split; [done|]. by constructor.
  - rewrite filter_cons_True by done. rewrite filter_cons_False by done. simpl.
    rewrite Hc. by split; [f_equal|].
Qed.

(** The two shapes of a receipt: nothing is planned because some change conflicts, or
    every change is. *)
Inductive apply_receipt (changeSet : WorkspaceChangeSet) (w : W) :
    WorkspaceChangeSetReceipt → Prop :=
| receipt_conflicted conflicts :
    conflicts ≠ [] →
    cf_path <$> conflicts =
      fc_path <$> filter (fun c => ¬ admits (files w !! fc_path c) c) (cs_changes changeSet) →
    apply_receipt changeSet w {|
      rc_changeSetId := cs_id changeSet; rc_status := ApplyConflicted; rc_files := [];
      rc_conflicts := conflicts |}
| receipt_planned fs :
    (∀ c, c ∈ cs_changes changeSet → admits (files w !! fc_path c) c) →
    Forall2 (fun c f => file_of c (files w !! fc_path c) f) (cs_changes changeSet) fs →
    apply_receipt changeSet w {|
      rc_changeSetId := cs_id changeSet;
      rc_status := if forallb unchanged fs then ApplyAlreadyApplied else ApplyApplied;
      rc_files := fs; rc_conflicts := [] |}.

Lemma planChangeSetApply_run changeSet w u :
  validateChangeSet changeSet = Ok u →
  ∃ r, planChangeSetApply sha256Text changeSet w = (w, Ok r) ∧ apply_receipt changeSet w r.
Proof.
  intros Hv. pose proof (validateChangeSet_ok changeSet u Hv) as [_ Ht].
  unfold planChangeSetApply, mbind, stM_bind, liftM, mret, stM_ret.
  rewrite Hv, plan_changes_run. simpl.
  destruct (plans_split (cs_changes changeSet) w Ht) as [Hcs Hfs]. revert Hcs Hfs.
  generalize ((fun c => plan_change sha256Text (files w !! fc_path c) c) <$>
    cs_changes changeSet) as plans. intros plans Hcs Hfs.
  destruct (omap planned_conflict plans) as [|conflict conflicts] eqn:E;
    (eexists; split; [done|]).
  - symmetry in Hcs. apply fmap_nil_inv in Hcs. rewrite eq_nil_not_elem in Hcs.
    assert (∀ c, c ∈ cs_changes changeSet → admits (files w !! fc_path c) c) as Ha.
    { intros c Hc. apply dec_stable. intros Hn. apply (Hcs c). by apply list_elem_of_filter. }
    rewrite (filter_all _ (cs_changes changeSet)) in Hfs by done. by constructor.
  - by constructor.
Qed.

(** A receipt that is not conflicted keeps the paths of the changes. *)
Lemma file_of_paths changes w fs :
  Forall2 (fun c f => file_of c (files w !! fc_path c) f) changes fs →
  af_path <$> fs = fc_path <$> changes.
Proof.
  induction 1 as [|c f changes fs Hf _ IH]; simpl; [done|].
  f_equal; [by apply (fo_path c _ f Hf)|done].
Qed.

Lemma commit_planned changes w fs r :
  NoDup (fc_path <$> changes) →
  Forall2 (fun c f => file_of c (files w !! fc_path c) f) changes fs → rc_files r = fs →
  commit (transactionFiles r) (files w) = put_targets changes (files w).
Proof.
  intros Hnd Hfs Hr. pose proof (file_of_paths changes w fs Hfs) as Hp.
  apply map_eq. intros p. destruct (decide (p ∈ fc_path <$> changes)) as [Hin|Hout].
  - apply list_elem_of_fmap in Hin as (c & -> & Hc).
    unfold put_targets. rewrite put_all_elem by done.
    apply list_elem_of_lookup in Hc as [i Hi].
    destruct (Forall2_lookup_l _ _ _ _ _ Hfs Hi) as (f & Hf & Hof).
    rewrite <-(fo_path c _ f Hof), <-(fo_after c _ f Hof).
    apply commit_elem; [by rewrite Hr, Hp|rewrite Hr; by eapply list_elem_of_lookup_2|].
    intros <-. by rewrite (fo_before c _ f Hof), (fo_path c _ f Hof).
  - unfold put_targets. rewrite put_all_other by done. apply commit_other. by rewrite Hr, Hp.
Qed.

Lemma unchanged_targets changes w fs :
  NoDup (fc_path <$> changes) →
  Forall2 (fun c f => file_of c (files w !! fc_path c) f) changes fs →
  forallb unchanged fs = true ↔ put_targets changes (files w) = files w.
Proof.
  intros Hnd Hfs. rewrite <-Is_true_true, forallb_True. split.
  - intros Hall. apply map_eq. intros p. unfold put_targets.
    destruct (decide (p ∈ fc_path <$> changes)) as [Hin|Hout]; [|by rewrite put_all_other].
    apply list_elem_of_fmap in Hin as (c & -> & Hc). rewrite put_all_elem by done.
    apply list_elem_of_lookup in Hc as [i Hi].
    destruct (Forall2_lookup_l _ _ _ _ _ Hfs Hi) as (f & Hf & Hof).
    eapply Forall_lookup_1 in Hall; [|done]. unfold unchanged in Hall.
    apply bool_decide_unpack in Hall.
    by rewrite <-(fo_after c _ f Hof), <-Hall, (fo_before c _ f Hof).
  - intros Heq. apply Forall_lookup. intros i f Hf.
    destruct (Forall2_lookup_r _ _ _ _ _ Hfs Hf) as (c & Hi & Hof).
    apply bool_decide_pack. rewrite (fo_before c _ f Hof), (fo_after c _ f Hof), <-Heq.
    unfold put_targets. rewrite put_all_elem; [done|done|by eapply list_elem_of_lookup_2].
Qed.

(** What a receipt says of the workspace it was planned in. *)
Lemma apply_receipt_spec changeSet w r :
  valid_changes changeSet → apply_receipt changeSet w r →
  rc_changeSetId r = cs_id changeSet ∧
  (rc_status r = ApplyConflicted ↔
    ∃ c, c ∈ cs_changes changeSet ∧ ¬ admits (files w !! fc_path c) c) ∧
  cf_path <$> rc_conflicts r = fc_path <$>
    filter (fun c => ¬ admits (files w !! fc_path c) c) (cs_changes changeSet) ∧
  commit (transactionFiles r) (files w) =
    (if decide (rc_status r = ApplyConflicted) then files w
     else put_targets (cs_changes changeSet) (files w)) ∧
  (rc_status r = ApplyAlreadyApplied ↔
    rc_status r ≠ ApplyConflicted ∧
    put_targets (cs_changes changeSet) (files w) = files w).
Proof.
  intros [Hnd _]. destruct 1 as [cs Hne Hcs|fs Ha Hfs]; simpl.
  - split; [done|]. split; [|split; [done|split; [done|naive_solver]]].
    split; [|done]. intros _.
    destruct (filter (fun c => ¬ admits (files w !! fc_path c) c)
      (cs_changes changeSet)) as [|c l] eqn:E; [by apply fmap_nil_inv in Hcs|].
    apply filter_head in E as [? ?]. eauto.
  - split; [done|]. split; [|split; [|split]].
    + split; [by destruct (forallb unchanged fs)|]. intros (c & Hc & Hn). by destruct Hn; apply Ha.
    + rewrite filter_none; [done|]. intros c Hc Hn. by apply Hn, Ha.
    + rewrite decide_False by (by destruct (forallb unchanged fs)).
      by apply (commit_planned (cs_changes changeSet) w fs).
    + rewrite <-(unchanged_targets (cs_changes changeSet) w fs) by done.
      destruct (forallb unchanged fs); naive_solver.
Qed.

Lemma planChangeSetApply_ok changeSet w w' r :
  planChangeSetApply sha256Text changeSet w = (w', Ok r) →
  w' = w ∧ valid_changes changeSet ∧ apply_receipt changeSet w r.
Proof.
  intros Hrun. destruct (validateChangeSet changeSet) as [u|e] eqn:Hv.
  2: { unfold planChangeSetApply, mbind, stM_bind, liftM in Hrun. by rewrite Hv in Hrun. }
  destruct (planChangeSetApply_run changeSet w u Hv) as (r' & Hr & Hshape).
  rewrite Hr in Hrun. simplify_eq. split; [done|]. split; [by eapply validateChangeSet_ok|done].
Qed.
End planned.

(** Planning a change set changes nothing and throws exactly when the change set is not
    valid.  The receipt is conflicted exactly when some path does not admit its change,
    and names just those paths; otherwise committing its files makes every change and
    touches nothing else.  It says [already_applied] exactly when there is nothing to
    change. *)
Theorem planChangeSetApply_spec sha256Text {W} (files : W → contents)
    `{!WorkspaceReader W, !SnapshotReader W files} changeSet w :
  match validateChangeSet changeSet with
  | Throw e => planChangeSetApply sha256Text changeSet w = (w, Throw e)
  | Ok _ => ∃ r,
      planChangeSetApply sha256Text changeSet w = (w, Ok r) ∧
      rc_changeSetId r = cs_id changeSet ∧
      (rc_status r = ApplyConflicted ↔
        ∃ c, c ∈ cs_changes changeSet ∧ ¬ admits sha256Text (files w !! fc_path c) c) ∧
      cf_path <$> rc_conflicts r = fc_path <$>
        filter (fun c => ¬ admits sha256Text (files w !! fc_path c) c) (cs_changes changeSet) ∧
      commit (transactionFiles r) (files w) =
        (if decide (rc_status r = ApplyConflicted) then files w
         else put_targets (cs_changes changeSet) (files w)) ∧
      (rc_status r = ApplyAlreadyApplied ↔
        rc_status r ≠ ApplyConflicted ∧
        put_targets (cs_changes changeSet) (files w) = files w)
  end.
Proof.
  destruct (validateChangeSet changeSet) as [u|e] eqn:Hv.
  2: { unfold planChangeSetApply, mbind, stM_bind, liftM. by rewrite Hv. }
  destruct (planChangeSetApply_run sha256Text files changeSet w u Hv) as (r & Hrun & Hr).
  exists r. split; [done|]. eapply apply_receipt_spec; [by eapply validateChangeSet_ok|done].
Qed.

(** * Undoing *)

(** What every receipt keeps: a path appears once, the hashes are those of the texts,
    and a receipt has conflicts exactly when its status says so, and then no files. *)
Record receipt_ok (sha256Text : string → string) (r : WorkspaceChangeSetReceipt) : Prop := {
  ro_paths : NoDup (af_path <$> rc_files r);
  ro_hashes f : f ∈ rc_files r →
    af_beforeSha256 f = sha256Optional sha256Text (af_beforeText f) ∧
    af_afterSha256 f = sha256Optional sha256Text (af_afterText f);
  ro_status : rc_status r = ApplyConflicted ↔ rc_conflicts r ≠ [];
  ro_conflicted : rc_status r = ApplyConflicted → rc_files r = [];
}.

Section undo.
Context (sha256Text : string → string).
Context {W : Type} (files : W → contents) `{!WorkspaceReader W, !SnapshotReader W files}.
Local Abbreviation sha := (sha256Optional sha256Text).

(** The file no longer has the text, up to its hash, that the receipt left. *)
Definition moved (w : W) (f : WorkspaceAppliedFileChange) : Prop :=
  sha (files w !! af_path f) ≠ af_afterSha256 f.

#[export] Instance moved_dec w f : Decision (moved w f).
Proof. unfold moved. solve_decision. Defined.

Lemma undo_conflicts_run fs cs w :
  ∃ cs', undo_conflicts sha256Text fs cs w = (w, Ok (cs ++ cs')) ∧
    cf_path <$> cs' = af_path <$> filter (moved w) fs.
Proof.
  revert cs. induction fs as [|f fs IH]; intros cs; simpl.
  { exists []. split; [by rewrite app_nil_r|done]. }
  unfold mbind, stM_bind. rewrite readText_snapshot.
  case_bool_decide as Hf.
  - destruct (IH cs) as (cs' & -> & Hcs). exists cs'. split; [done|].
    rewrite filter_cons_False; [done|]. unfold moved. naive_solver.
  - match goal with |- context [undo_conflicts _ fs (cs ++ [?c])] =>
      destruct (IH (cs ++ [c])) as (cs' & -> & Hcs); exists (c :: cs') end.
    rewrite <-app_assoc. split; [done|]. rewrite filter_cons_True by done. simpl. f_equal. exact Hcs.
Qed.

(** The receipt of an undo. *)
Lemma planChangeSetUndo_run source w :
  rc_status source ≠ ApplyConflicted →
  ∃ cs, cf_path <$> cs = af_path <$> filter (moved w) (rc_files source) ∧
  planChangeSetUndo sha256Text source w = (w, Ok
    (if decide (cs = []) then {|
       rc_changeSetId := rc_changeSetId source; rc_status := ApplyApplied;
       rc_files := reversed <$> rc_files source; rc_conflicts := [] |}
     else {|
       rc_changeSetId := rc_changeSetId source; rc_status := ApplyConflicted;
       rc_files := []; rc_conflicts := cs |})).
Proof.
  intros Hs. destruct (undo_conflicts_run (rc_files source) [] w) as (cs & Hrun & Hcs).
  exists cs. split; [done|]. unfold planChangeSetUndo, mbind, stM_bind, guardM.
  rewrite bool_decide_false by done. unfold mret, stM_ret. rewrite Hrun. simpl.
  by destruct cs.
Qed.

Lemma reversed_paths (fs : list WorkspaceAppliedFileChange) :
  af_path <$> (reversed <$> fs) = af_path <$> fs.
Proof. by rewrite <-list_fmap_compose. Qed.

Section applied.
Context (changes : list WorkspaceFileChange) (w : W) (fs : list WorkspaceAppliedFileChange).
Context (Hnd : NoDup (fc_path <$> changes)).
Context (Hfs : Forall2 (fun c f => file_of sha256Text c (files w !! fc_path c) f) changes fs).

Lemma file_of_elem f :
  f ∈ fs → ∃ c, c ∈ changes ∧ file_of sha256Text c (files w !! fc_path c) f.
Proof.
  intros [i Hi]%list_elem_of_lookup.
  destruct (Forall2_lookup_r _ _ _ _ _ Hfs Hi) as (c & Hc & Hof).
  apply list_elem_of_lookup_2 in Hc. eauto.
Qed.

Lemma committed_holds r f :
  rc_files r = fs → f ∈ fs →
  commit (transactionFiles r) (files w) !! af_path f = af_afterText f.
Proof.
  intros Hr Hf. destruct (file_of_elem f Hf) as (c & _ & Hof).
  apply commit_elem; [|by rewrite Hr|].
  - by rewrite Hr, (file_of_paths sha256Text files changes w fs Hfs).
  - intros <-. by rewrite (fo_before _ c _ f Hof), (fo_path _ c _ f Hof).
Qed.

(** Where the files hold what the receipt left, the undo puts everything back. *)
Lemma undo_puts_back undo later p :
  rc_files undo = reversed <$> fs →
  (∀ f, f ∈ fs → files later !! af_path f = af_afterText f) →
  commit (transactionFiles undo) (files later) !! p =
    if decide (p ∈ fc_path <$> changes) then files w !! p else files later !! p.
Proof.
  intros Hu Hsame. pose proof (file_of_paths sha256Text files changes w fs Hfs) as Hp.
  case_decide as Hin; [|apply commit_other; by rewrite Hu, reversed_paths, Hp].
  rewrite <-Hp in Hin. apply list_elem_of_fmap in Hin as (f & -> & Hf).
  destruct (file_of_elem f Hf) as (c & _ & Hof).
  rewrite (fo_path _ c _ f Hof), <-(fo_before _ c _ f Hof), <-(fo_path _ c _ f Hof).
  apply (commit_elem undo (files later) (reversed f)).
  - by rewrite Hu, reversed_paths, Hp.
  - rewrite Hu. by apply list_elem_of_fmap_2.
  - simpl. intros <-. by apply Hsame.
Qed.

Lemma not_moved_committed r f later :
  rc_files r = fs → f ∈ fs → files later = commit (transactionFiles r) (files w) →
  ¬ moved later f.
Proof.
  intros Hr Hf Hl Hm. apply Hm. destruct (file_of_elem f Hf) as (c & _ & Hof).
  by rewrite Hl, committed_holds, (fo_afterSha _ c _ f Hof).
Qed.
End applied.

(** Right after the commit, the undo is accepted and restores the workspace. *)
Lemma undo_right_after changeSet w r later :
  planChangeSetApply sha256Text changeSet w = (w, Ok r) → rc_status r ≠ ApplyConflicted →
  files later = commit (transactionFiles r) (files w) →
  ∃ undo, planChangeSetUndo sha256Text r later = (later, Ok undo) ∧
    rc_status undo = ApplyApplied ∧ commit (transactionFiles undo) (files later) = files w.
Proof.
  intros Hrun Hst Hlater.
  apply (planChangeSetApply_ok sha256Text files) in Hrun as (_ & [Hnd _] & Hshape).
  destruct Hshape as [cs Hne _|fs _ Hfs]; [done|].
  set (r := {| rc_changeSetId := _; rc_status := _; rc_files := fs; rc_conflicts := _ |}) in *.
  destruct (planChangeSetUndo_run r later Hst) as (cs & Hcs & Hundo).
  rewrite filter_none in Hcs.
  2: { intros f Hf. by apply (not_moved_committed (cs_changes changeSet) w fs Hnd Hfs r). }
  apply fmap_nil_inv in Hcs as ->. eexists. split; [exact Hundo|]. clear Hundo. simpl. split; [done|].
  apply map_eq. intros p. rewrite (undo_puts_back (cs_changes changeSet) w fs Hnd Hfs); [|done|].
  2: { intros f Hf. rewrite Hlater. by apply (committed_holds (cs_changes changeSet) w fs). }
  case_decide as Hin; [done|]. rewrite Hlater. apply commit_other.
  change (p ∉ af_path <$> fs).
  by rewrite (file_of_paths sha256Text files (cs_changes changeSet) w fs Hfs).
Qed.
End undo.

(** Every receipt is well-formed: the one planned for a change set, and the one planned
    to undo a well-formed receipt (C24). *)
Theorem receipts_typed sha256Text {W} (files : W → contents)
    `{!WorkspaceReader W, !SnapshotReader W files} w w' r :
  (∀ changeSet, planChangeSetApply sha256Text changeSet w = (w', Ok r) → receipt_ok sha256Text r) ∧
  (∀ source, receipt_ok sha256Text source → planChangeSetUndo sha256Text source w = (w', Ok r) →
    receipt_ok sha256Text r).
Proof.
  split.
  - intros changeSet Hrun.
    apply (planChangeSetApply_ok sha256Text files) in Hrun as (-> & [Hnd _] & Hshape).
    destruct Hshape as [cs Hne _|fs _ Hfs]; split; simpl; try done; try by constructor.
    + by intros f ?%not_elem_of_nil.
    + by rewrite (file_of_paths sha256Text files (cs_changes changeSet) _ fs Hfs).
    + intros f [i Hi]%list_elem_of_lookup.
      destruct (Forall2_lookup_r _ _ _ _ _ Hfs Hi) as (c & _ & Hof). by destruct Hof.
    + by destruct (forallb unchanged fs).
    + by destruct (forallb unchanged fs).
  - intros source [Hnd Hsha Hst Hc] Hrun.
    destruct (decide (rc_status source = ApplyConflicted)) as [Hs|Hs].
    { unfold planChangeSetUndo, mbind, stM_bind, guardM in Hrun.
      by rewrite bool_decide_true in Hrun by done. }
    destruct (planChangeSetUndo_run sha256Text files source w Hs) as (cs & _ & Hr).
    rewrite Hr in Hrun. simplify_eq. case_decide as Hcs; split; simpl; try done; try by constructor.
    + by rewrite reversed_paths.
    + intros f (g & -> & Hg)%list_elem_of_fmap. simpl. by destruct (Hsha g Hg).
    + by intros f ?%not_elem_of_nil.
Qed.

(** Undoing what a change set did.  In any later workspace, the undo is refused exactly
    when some path no longer has the hash the receipt left it with; when it is accepted,
    and no two texts in question share a hash, committing it puts back what every path of
    the change set held before, and touches nothing else.  Right after the commit it is
    accepted and restores the workspace. *)
Theorem planChangeSetUndo_restores sha256Text {W} (files : W → contents)
    `{!WorkspaceReader W, !SnapshotReader W files} changeSet w r later :
  planChangeSetApply sha256Text changeSet w = (w, Ok r) → rc_status r ≠ ApplyConflicted →
  ∃ undo, planChangeSetUndo sha256Text r later = (later, Ok undo) ∧
    (rc_status undo = ApplyConflicted ↔ ∃ f, f ∈ rc_files r ∧ moved sha256Text files later f) ∧
    (rc_status undo ≠ ApplyConflicted →
      (∀ f, f ∈ rc_files r →
        sha256Optional sha256Text (files later !! af_path f) = af_afterSha256 f →
        files later !! af_path f = af_afterText f) →
      ∀ p, commit (transactionFiles undo) (files later) !! p =
        if decide (p ∈ fc_path <$> cs_changes changeSet) then files w !! p else files later !! p) ∧
    (files later = commit (transactionFiles r) (files w) →
      rc_status undo = ApplyApplied ∧
      commit (transactionFiles undo) (files later) = files w).
Proof.
  intros Hrun Hst. pose proof (undo_right_after sha256Text files changeSet w r later Hrun Hst) as Hafter.
  apply (planChangeSetApply_ok sha256Text files) in Hrun as (_ & [Hnd _] & Hshape).
  destruct Hshape as [cs Hne _|fs _ Hfs]; [done|].
  set (r := {| rc_changeSetId := _; rc_status := _; rc_files := fs; rc_conflicts := _ |}) in *.
  destruct (planChangeSetUndo_run sha256Text files r later Hst) as (cs & Hcs & Hundo).
  rewrite Hundo in Hafter.
  change (rc_files r) with fs in *.
  assert (cs = [] ↔ ∀ f, f ∈ fs → ¬ moved sha256Text files later f) as Hnil.
  { split.
    - intros ->. symmetry in Hcs. apply fmap_nil_inv in Hcs. rewrite eq_nil_not_elem in Hcs.
      intros f Hf Hm. by apply (Hcs f), list_elem_of_filter.
    - intros Hn. rewrite filter_none in Hcs by done. by apply fmap_nil_inv in Hcs. }
  eexists. split; [exact Hundo|]. clear Hundo Hcs. split; [|split].
  - case_decide as Hd; simpl.
    + split; [done|]. intros (f & Hf & Hm). by apply Hnil in Hm.
    + split; [|done]. intros _. apply Exists_exists.
      apply dec_stable. intros He. apply Hd, Hnil. intros f Hf Hm.
      apply He, Exists_exists. eauto.
  - case_decide as Hd; simpl; [|done]. intros _ Hsha p.
    apply (undo_puts_back sha256Text files (cs_changes changeSet) w fs Hnd Hfs); [done|].
    intros f Hf. apply Hsha; [done|]. apply Hnil in Hf; [|done].
    unfold moved in Hf. by apply dec_stable.
  - intros Hlater. destruct (Hafter Hlater) as (undo & [= <-] & ? & ?). done.
Qed.

(** * Which operation an undo starts from *)

Definition applies (operation : WorkspaceChangeOperationRecord) : bool :=
  bool_decide (op_operation operation = OperationApply) &&
  bool_decide (op_status operation ≠ ApplyConflicted).

Definition undoes (operation : WorkspaceChangeOperationRecord) : bool :=
  bool_decide (op_operation operation = OperationUndo) &&
  bool_decide (op_status operation = ApplyApplied).

(** The last successful application that no successful undo follows. *)
Lemma latestApplicableApplyOperation_spec operations operation :
  latestApplicableApplyOperation operations = Some operation ↔
  applies operation = true ∧ ∃ before after, operations = before ++ operation :: after ∧
    ∀ o, o ∈ after → applies o = false ∧ undoes o = false.
Proof.
  unfold latestApplicableApplyOperation.
  remember (reverse operations) as l eqn:Hl.
  assert (operations = reverse l) as -> by (by rewrite Hl, reverse_involutive).
  clear Hl. induction l as [|o l IH]; simpl.
  { split; [done|]. intros (_ & before & after & H & _).
    apply (f_equal length) in H. rewrite length_app in H. simpl in H. lia. }
  assert (∀ P, (∃ before after, reverse (o :: l) = before ++ operation :: after ∧
      ∀ o, o ∈ after → P o) ↔
    o = operation ∨ P o ∧ ∃ before after, reverse l = before ++ operation :: after ∧
      ∀ o, o ∈ after → P o) as Hsplit.
  { intros P. rewrite reverse_cons. split.
    - intros (before & after & H & HP). destruct after as [|x after] using rev_ind.
      + apply app_inj_tail in H as [_ ->]. by left.
      + rewrite app_comm_cons, app_assoc in H. apply app_inj_tail in H as [H ->].
        right. split; [apply HP; set_solver|]. exists before, after. set_solver.
    - intros [->|(Ho & before & after & -> & HP)]; [exists (reverse l), []; set_solver|].
      exists before, (after ++ [o]). rewrite <-app_assoc. set_solver. }
  rewrite Hsplit. clear Hsplit. fold (undoes o).
  assert (bool_decide (op_operation o = OperationApply) &&
    (bool_decide (op_status o = ApplyApplied) || bool_decide (op_status o = ApplyAlreadyApplied))
    = applies o) as ->
    by (unfold applies; destruct (op_operation o), (op_status o); reflexivity).
  assert (undoes o = true → applies o = false)
    by (unfold undoes, applies; destruct (op_operation o), (op_status o); done).
  destruct (undoes o) eqn:Eu; [|destruct (applies o) eqn:Ea].
  - specialize (H eq_refl). split; [done|]. intros [Ha [<-|[[_ ?] _]]]; congruence.
  - split; [intros [= <-]; auto|]. intros [Ha [->|[[? _] _]]]; congruence.
  - rewrite IH. split; [intros [Ha Hx]; auto|].
    intros [Ha [<-|[_ Hx]]]; [congruence|auto].
Qed.

(** * Examples *)

(** A reader of a workspace that is its files. *)
#[export] Instance contents_reader : WorkspaceReader contents := {|
  readText path ws := (ws, Ok (ws !! path)) |}.

#[export] Instance contents_snapshot : SnapshotReader contents id.
Proof. by intros path ws. Qed.

(** A stand-in for the hash. *)
Definition tagged (text : string) : string := "sha256:" +:+ text.

Definition sample_change path kind base target : WorkspaceFileChange := {|
  fc_path := path; fc_kind := kind; fc_baseText := base; fc_baseSha256 := None;
  fc_targetText := target |}.

Definition sample_set : WorkspaceChangeSet := {|
  cs_id := "cs"; cs_title := None; cs_baseRevision := None; cs_changes := [
    sample_change "a" ChangeUpdate (Some "1") (Some "2");
    sample_change "b" ChangeCreate None (Some "new");
    sample_change "c" ChangeDelete (Some "old") None]%string |}.

Definition sample_files : contents := <["a" := "1"]> (<["c" := "old"]> (<["d" := "x"]> ∅))%string.

Definition sample_receipt : WorkspaceChangeSetReceipt :=
  match (planChangeSetApply tagged sample_set sample_files).2 with
  | Ok r => r
  | Throw _ => {| rc_changeSetId := ""; rc_status := ApplyConflicted; rc_files := [];
      rc_conflicts := [] |}
  end.

Lemma sample_receipt_planned :
  planChangeSetApply tagged sample_set sample_files = (sample_files, Ok sample_receipt) ∧
  rc_status sample_receipt = ApplyApplied ∧ length (transactionFiles sample_receipt) = 3.
Proof. vm_compute. repeat split. Qed.

Lemma planChangeSetApply_spec_witness :
  validateChangeSet sample_set = Ok tt ∧
  match validateChangeSet sample_set with
  | Throw e => planChangeSetApply tagged sample_set sample_files = (sample_files, Throw e)
  | Ok _ => ∃ r,
      planChangeSetApply tagged sample_set sample_files = (sample_files, Ok r) ∧
      rc_changeSetId r = cs_id sample_set ∧
      (rc_status r = ApplyConflicted ↔
        ∃ c, c ∈ cs_changes sample_set ∧ ¬ admits tagged (id sample_files !! fc_path c) c) ∧
      cf_path <$> rc_conflicts r = fc_path <$>
        filter (fun c => ¬ admits tagged (id sample_files !! fc_path c) c) (cs_changes sample_set) ∧
      commit (transactionFiles r) (id sample_files) =
        (if decide (rc_status r = ApplyConflicted) then id sample_files
         else put_targets (cs_changes sample_set) (id sample_files)) ∧
      (rc_status r = ApplyAlreadyApplied ↔
        rc_status r ≠ ApplyConflicted ∧
        put_targets (cs_changes sample_set) (id sample_files) = id sample_files)
  end.
Proof.
  split; [vm_compute; reflexivity|].
  exact (@planChangeSetApply_spec tagged contents id contents_reader contents_snapshot
    sample_set sample_files).
Defined.

Lemma receipts_typed_witness : receipt_ok tagged sample_receipt.
Proof.
  refine (proj1 (@receipts_typed tagged contents id contents_reader contents_snapshot
    sample_files sample_files sample_receipt) sample_set _).
  vm_compute. reflexivity.
Defined.

Lemma planChangeSetUndo_restores_witness :
  ∃ undo, planChangeSetUndo tagged sample_receipt
      (commit (transactionFiles sample_receipt) sample_files) =
      (commit (transactionFiles sample_receipt) sample_files, Ok undo) ∧
    rc_status undo = ApplyApplied ∧
    commit (transactionFiles undo) (commit (transactionFiles sample_receipt) sample_files) =
      sample_files.
Proof.
  assert (rc_status sample_receipt ≠ ApplyConflicted) as Hs by (vm_compute; discriminate).
  destruct (@planChangeSetUndo_restores tagged contents id contents_reader contents_snapshot
    sample_set sample_files sample_receipt
    (commit (transactionFiles sample_receipt) sample_files) (proj1 sample_receipt_planned) Hs)
    as (undo & Hrun & _ & _ & Hback).
  exists undo. split; [exact Hrun|]. apply Hback. reflexivity.
Defined.
