(* ===== verification/WorkspaceTransaction.v ===== *)
(** Change transactions ([packages/workspace/src/transaction/*.ts]): a change set is
    planned, handed to a native helper that prepares and commits its files, and settled in
    the store, under a lease; a transaction that was interrupted is recovered.  The store,
    the helper and the lease are an environment whose calls may fail at any point. *)
From Stdlib Require Import Floats.SpecFloat.
From S2P Require Import Prelude JsMap Json Protocol Program WorkspaceProtocol Changeset.

(** * Errors ([errors.ts]) *)

(** What a call may throw: an [Error] by its name and message, the error of a transaction
    that must be recovered, or a value that is no error, by its text. *)
Inductive workspace_error :=
| ErrorThrown (name message : string)
| RecoveryRequired (transactionId : string)
    (finalization : option WorkspaceChangeTransactionFinalization)
| ValueThrown (text : string).

Definition Error (message : string) : workspace_error := ErrorThrown "Error" message.

Definition CleanupRequired : workspace_error :=
  ErrorThrown "WorkspaceTransactionCleanupRequiredError"
    "workspace transaction artifact cleanup requires retry".

Definition AggregateError (message : string) : workspace_error :=
  ErrorThrown "AggregateError" message.

(** * Requests of the store ([packages/protocol/src/workspace.ts]) *)

Record WorkspaceChangeTransactionProposalBinding := {
  pb_proposalId : string;
  pb_proposalAttemptId : string;
  pb_proposalClaimToken : string;
}.

Record BeginWorkspaceChangeTransactionRequest := {
  bt_id : string;
  bt_workspaceId : string;
  bt_changeSetId : string;
  bt_operation : WorkspaceChangeTransactionOperation;
  bt_undoSourceOperationId : option string;
  bt_sourceKind : WorkspaceChangeTransactionSourceKind;
  bt_sourceId : string;
  bt_idempotencyKey : string;
  bt_rootIdentitySha256 : string;
  bt_proposal : option WorkspaceChangeTransactionProposalBinding;
  bt_attemptId : string;
  bt_ownerId : string;
  bt_claimToken : string;
  bt_leaseMs : jsnum;
}.

Record ClaimWorkspaceChangeTransactionRecoveryRequest := {
  ct_transactionId : string;
  ct_attemptId : string;
  ct_ownerId : string;
  ct_claimToken : string;
  ct_leaseMs : jsnum;
}.

Record WorkspaceChangeTransactionIdentityRequest := {
  ti_transactionId : string;
  ti_attemptId : string;
  ti_claimToken : string;
}.

Inductive WorkspaceChangeTransactionClaimStatus :=
| TransactionClaimed | TransactionBusy | TransactionClaimRecoveryRequired
| TransactionAlreadyTerminal.

#[export] Instance WorkspaceChangeTransactionClaimStatus_eq_dec :
  EqDecision WorkspaceChangeTransactionClaimStatus.
Proof. solve_decision. Defined.

#[export, refine] Instance WorkspaceChangeTransactionClaimStatus_enum :
    StringEnum WorkspaceChangeTransactionClaimStatus := {|
  enum_values := [TransactionClaimed; TransactionBusy; TransactionClaimRecoveryRequired;
    TransactionAlreadyTerminal];
  enum_name k := match k with
    | TransactionClaimed => "claimed" | TransactionBusy => "busy"
    | TransactionClaimRecoveryRequired => "recovery_required"
    | TransactionAlreadyTerminal => "already_terminal"
    end%string |}.
Proof. all: solve_enum. Defined.

Record WorkspaceChangeTransactionClaimResult := {
  tc_status : WorkspaceChangeTransactionClaimStatus;
  tc_snapshot : WorkspaceChangeTransactionSnapshot;
}.

Inductive observed := ObservedBefore | ObservedAfter | ObservedOther.

Record WorkspaceChangeTransactionFileObservation := {
  ob_ordinal : jsnum;
  ob_current : observed;
}.

Record WorkspaceChangeTransactionReconciliation := {
  re_decision : WorkspaceChangeTransactionRecoveryDecision;
  re_snapshot : WorkspaceChangeTransactionSnapshot;
}.

(** The [outcome] of [FinalizeWorkspaceChangeTransactionRequest], with what goes with it. *)
Inductive finalize_outcome :=
| OutcomeApplied (operationId : string) (receipt : WorkspaceChangeSetReceipt)
| OutcomeConflicted (operationId : string) (receipt : WorkspaceChangeSetReceipt)
| OutcomeRolledBack
| OutcomeRecoveryRequired (failure : json).

(** * The calls of a transaction *)

(** The store; the canonical root and the random identifiers; the lease, which renews
    itself in the background; the helper process, with the progress it reports while it
    commits; the plan of the caller; and the caller's signal. *)
Inductive transaction_call : Type → Type :=
| Canonicalize : transaction_call string
| RandomIdentity : transaction_call (string * string)
| BeginTransaction (request : BeginWorkspaceChangeTransactionRequest) :
    transaction_call WorkspaceChangeTransactionClaimResult
| ClaimRecovery (request : ClaimWorkspaceChangeTransactionRecoveryRequest) :
    transaction_call WorkspaceChangeTransactionClaimResult
| RecordPlan (identity : WorkspaceChangeTransactionIdentityRequest)
    (files : list WorkspaceChangeTransactionFilePlan) : transaction_call unit
| MarkPrepared (identity : WorkspaceChangeTransactionIdentityRequest) : transaction_call unit
| BeginCommit (identity : WorkspaceChangeTransactionIdentityRequest) : transaction_call unit
| RecordFileCommitted (identity : WorkspaceChangeTransactionIdentityRequest)
    (ordinal : jsnum) : transaction_call unit
| Reconcile (identity : WorkspaceChangeTransactionIdentityRequest)
    (observations : list WorkspaceChangeTransactionFileObservation) :
    transaction_call WorkspaceChangeTransactionReconciliation
| Finalize (identity : WorkspaceChangeTransactionIdentityRequest)
    (outcome : finalize_outcome) : transaction_call WorkspaceChangeTransactionFinalization
| ListTransactions (workspaceId : string) (state : WorkspaceChangeTransactionState)
    (limit : Z) : transaction_call (list WorkspaceChangeTransactionSnapshot)
| ListOperations (changeSetId : string) :
    transaction_call (list WorkspaceChangeOperationRecord)
| GetChangeSet (changeSetId : string) : transaction_call (option WorkspaceChangeSetRecord)
| StartLease (identity : WorkspaceChangeTransactionIdentityRequest) : transaction_call unit
| StopLease : transaction_call unit
| LeaseHealthy : transaction_call bool
| SpawnHelper (transactionId : string) : transaction_call unit
| HelperPrepare (files : list WorkspaceChangeTransactionFilePlan) : transaction_call unit
| HelperInspect (files : list WorkspaceChangeTransactionFilePlan) :
    transaction_call (list WorkspaceChangeTransactionFileObservation)
| HelperCommit (files : list WorkspaceChangeTransactionFilePlan) (ordinals : list jsnum) :
    transaction_call (list jsnum * result workspace_error unit)
| HelperCleanup (files : list WorkspaceChangeTransactionFilePlan) : transaction_call unit
| HelperTerminate : transaction_call unit
| ReadText (path : string) : transaction_call (option string)
| Plan : transaction_call WorkspaceChangeSetReceipt
| Aborted : transaction_call bool.

Abbreviation tprog := (prog workspace_error transaction_call).
Abbreviation tevent := (event workspace_error transaction_call).

(** * Identifiers, the lease and the helper *)

Section transaction.
Context (sha256Text : string → string).
(** [String.prototype.localeCompare], by its sign. *)
Context (localeCompare : string → string → Z).
Context (leaseMs : jsnum).

(** [common.ts] *)
Definition durableId (prefix value : string) : string :=
  prefix +:+ "_" +:+ String.substring 0 40 (sha256Text value).

(** [assertHealthy] of [lease.ts] *)
Definition assertHealthy : tprog unit :=
  healthy ← await LeaseHealthy;
  raise_if (negb healthy) (Error "workspace transaction lease was lost").

(** [commit] of [process-executor.ts], whose [onProgress] records each committed file: the
    first record that fails is thrown once the helper is done, and the later ones are not
    made. *)
Fixpoint record_progress (identity : WorkspaceChangeTransactionIdentityRequest)
    (progress : list jsnum) : tprog unit :=
  match progress with
  | [] => mret tt
  | ordinal :: progress =>
      _ ← await (RecordFileCommitted identity ordinal);
      record_progress identity progress
  end.

Definition commit_files (identity : WorkspaceChangeTransactionIdentityRequest)
    (files : list WorkspaceChangeTransactionFilePlan) : tprog unit :=
  '(progress, outcome) ← await (HelperCommit files (fp_ordinal <$> files));
  handle (fun recorded => match outcome with
    | Throw e => Raise e
    | Ok _ => match recorded with Ok _ => mret tt | Throw e => Raise e end
    end) (record_progress identity progress).

(** * Artifacts ([artifacts.ts]) *)

Definition cleanupCommittedArtifacts (transactionId : string)
    (files : list WorkspaceChangeTransactionFilePlan) : tprog unit :=
  try_catch (await (HelperCleanup files)) (fun _ =>
    _ ← await HelperTerminate;
    try_catch
      (_ ← await (SpawnHelper transactionId);
       try_finally (await (HelperCleanup files)) (await HelperTerminate))
      (fun _ => Raise (AggregateError
        "workspace transaction artifact cleanup failed after retry"))).

Definition file_plan_of (file : WorkspaceChangeTransactionFileRecord)
    : WorkspaceChangeTransactionFilePlan := {|
  fp_ordinal := tf_ordinal file; fp_path := tf_path file;
  fp_beforeText := tf_beforeText file; fp_beforeSha256 := tf_beforeSha256 file;
  fp_afterText := tf_afterText file; fp_afterSha256 := tf_afterSha256 file |}.

Definition transactionFilePlans (files : list WorkspaceChangeTransactionFileRecord)
    : list WorkspaceChangeTransactionFilePlan := file_plan_of <$> files.

Definition cleanupTerminalArtifacts (transactionId : string)
    (files : list WorkspaceChangeTransactionFileRecord) : tprog unit :=
  if bool_decide (files = []) then mret tt
  else
    _ ← await (SpawnHelper transactionId);
    try_finally
      (try_catch (cleanupCommittedArtifacts transactionId (transactionFilePlans files))
        (fun _ => Raise CleanupRequired))
      (await HelperTerminate).

(** * Receipts ([receipt.ts]) *)

Record ExecuteWorkspaceTransactionResult := {
  er_operation : WorkspaceChangeOperationRecord;
  er_receipt : WorkspaceChangeSetReceipt;
  er_finalization : WorkspaceChangeTransactionFinalization;
}.

Definition finalizationResult (finalization : WorkspaceChangeTransactionFinalization)
    (receipt : WorkspaceChangeSetReceipt) : tprog ExecuteWorkspaceTransactionResult :=
  match fz_operation finalization with
  | None => Raise (Error "workspace transaction finalization has no operation")
  | Some operation => mret {|
      er_operation := operation; er_receipt := receipt; er_finalization := finalization |}
  end.

Definition find_operation (id : option string)
    (operations : list WorkspaceChangeOperationRecord) : option WorkspaceChangeOperationRecord :=
  List.find (fun operation => bool_decide (Some (op_id operation) = id)) operations.

Definition replayTerminalTransaction (changeSetId : string)
    (snapshot : WorkspaceChangeTransactionSnapshot) (workspaceOperationId : option string)
    : tprog ExecuteWorkspaceTransactionResult :=
  match workspaceOperationId with
  | None => Raise (Error "terminal workspace transaction has no operation")
  | Some id =>
      operations ← await (ListOperations changeSetId);
      match find_operation (Some id) operations with
      | None => Raise (Error
          ("terminal workspace transaction operation does not exist: " +:+ id))
      | Some operation => mret {|
          er_operation := operation; er_receipt := op_receipt operation;
          er_finalization := {| fz_snapshot := snapshot; fz_operation := Some operation;
            fz_proposal := None; fz_proposalAttempt := None |} |}
      end
  end.

(** The loop over the changes; [fileByPath] is the [Map] of the durable files. *)
Fixpoint rebuild_files (fileByPath : list (string * WorkspaceChangeTransactionFileRecord))
    (changes : list WorkspaceFileChange) (files : list WorkspaceAppliedFileChange)
    : tprog (list WorkspaceAppliedFileChange) :=
  match changes with
  | [] => mret files
  | change :: changes =>
      match jget (fc_path change) fileByPath with
      | Some durable => rebuild_files fileByPath changes (files ++ [{|
          af_path := fc_path change; af_kind := fc_kind change;
          af_beforeText := tf_beforeText durable; af_afterText := tf_afterText durable;
          af_beforeSha256 := tf_beforeSha256 durable;
          af_afterSha256 := tf_afterSha256 durable |}])
      | None =>
          current ← await (ReadText (fc_path change));
          rebuild_files fileByPath changes (files ++ [{|
            af_path := fc_path change; af_kind := fc_kind change;
            af_beforeText := current; af_afterText := current;
            af_beforeSha256 := sha256Text <$> current;
            af_afterSha256 := sha256Text <$> current |}])
      end
  end.

Definition rebuildTransactionReceipt (snapshot : WorkspaceChangeTransactionSnapshot)
    : tprog WorkspaceChangeSetReceipt :=
  let transaction := sn_transaction snapshot in
  match tx_operation transaction with
  | TransactionUndo =>
      operations ← await (ListOperations (tx_changeSetId transaction));
      match find_operation (tx_undoSourceOperationId transaction) operations with
      | None => Raise (Error "workspace recovery lost its undo source operation")
      | Some source => mret {|
          rc_changeSetId := tx_changeSetId transaction; rc_status := ApplyApplied;
          rc_files := reversed <$> rc_files (op_receipt source); rc_conflicts := [] |}
      end
  | TransactionApply =>
      changeSet ← await (GetChangeSet (tx_changeSetId transaction));
      match changeSet with
      | None => Raise (Error "workspace recovery lost its changeset")
      | Some changeSet =>
          files ← rebuild_files
            (foldl (fun m file => jset (tf_path file) file m) [] (sn_files snapshot))
            (cs_changes (sr_changeSet changeSet)) [];
          mret {| rc_changeSetId := tx_changeSetId transaction; rc_status := ApplyApplied;
                  rc_files := files; rc_conflicts := [] |}
      end
  end.

(** * Recovery ([recovery.ts]) *)

Definition compare_snapshots (left right : WorkspaceChangeTransactionSnapshot) : Z :=
  let created := num_order (tx_createdAt (sn_transaction left))
    (tx_createdAt (sn_transaction right)) in
  if decide (created = 0)%Z
  then localeCompare (tx_id (sn_transaction left)) (tx_id (sn_transaction right))
  else created.

Definition recoverable_states : list WorkspaceChangeTransactionState :=
  [TransactionPlanning; TransactionPrepared; TransactionCommitting;
   TransactionRecoveryRequired].

(** The loop over the states; [byId] is the [Map] of the snapshots. *)
Fixpoint list_states (workspaceId : string) (states : list WorkspaceChangeTransactionState)
    (byId : list (string * WorkspaceChangeTransactionSnapshot))
    : tprog (list (string * WorkspaceChangeTransactionSnapshot)) :=
  match states with
  | [] => mret byId
  | state :: states =>
      snapshots ← await (ListTransactions workspaceId state 101);
      list_states workspaceId states
        (foldl (fun m snapshot => jset (tx_id (sn_transaction snapshot)) snapshot m)
           byId snapshots)
  end.

Definition listRecoverable (workspaceId : string)
    : tprog (list WorkspaceChangeTransactionSnapshot) :=
  byId ← list_states workspaceId recoverable_states [];
  mret (js_sort compare_snapshots byId.*2).

Definition external_change : json :=
  JObj [("type", JStr "workspace.transaction_external_change");
    ("message", JStr "workspace content matches neither durable before nor after evidence")]%string.

(** The end of a recovery that goes forward. *)
Definition finish_recovery (identity : WorkspaceChangeTransactionIdentityRequest)
    (files : list WorkspaceChangeTransactionFilePlan)
    (snapshot : WorkspaceChangeTransactionSnapshot) : lprog workspace_error transaction_call bool unit :=
  let transactionId := ti_transactionId identity in
  _ ← lift assertHealthy;
  receipt ← lift (rebuildTransactionReceipt snapshot);
  _ ← lift (await (Finalize identity (OutcomeApplied (durableId "wop" transactionId) receipt)));
  _ ← lift (try_catch (cleanupCommittedArtifacts transactionId files)
        (fun _ => Raise CleanupRequired));
  assign (fun _ => false).

(** The [try] body of [recoverOne]; its variable is whether [helper] is set. *)
Definition recover_claimed (identity : WorkspaceChangeTransactionIdentityRequest)
    (snapshot : WorkspaceChangeTransactionSnapshot) : lprog workspace_error transaction_call bool unit :=
  let transactionId := ti_transactionId identity in
  if bool_decide (sn_files snapshot = []) then
    _ ← lift (await (Finalize identity OutcomeRolledBack)); mret tt
  else
    let files := transactionFilePlans (sn_files snapshot) in
    _ ← lift (await (SpawnHelper transactionId));
    _ ← assign (fun _ => true);
    observations ← lift (await (HelperInspect files));
    reconciliation ← lift (await (Reconcile identity observations));
    match re_decision reconciliation with
    | RecoverAttention =>
        _ ← lift (await HelperTerminate);
        _ ← assign (fun _ => false);
        _ ← lift (await (Finalize identity (OutcomeRecoveryRequired external_change)));
        lraise (RecoveryRequired transactionId None)
    | RecoverRollbackNoop =>
        _ ← lift (await (HelperCleanup files));
        _ ← assign (fun _ => false);
        _ ← lift (await (Finalize identity OutcomeRolledBack));
        mret tt
    | RecoverFinishForward =>
        _ ← lift (await (HelperPrepare files));
        _ ← lift (commit_files identity files);
        finish_recovery identity files (re_snapshot reconciliation)
    | RecoverFinalize => finish_recovery identity files (re_snapshot reconciliation)
    end.

Definition recoverOne (snapshot : WorkspaceChangeTransactionSnapshot) : tprog unit :=
  let transactionId := tx_id (sn_transaction snapshot) in
  '(attemptId, claimToken) ← await RandomIdentity;
  claim ← await (ClaimRecovery {|
    ct_transactionId := transactionId; ct_attemptId := attemptId;
    ct_ownerId := "workspace-recovery"; ct_claimToken := claimToken;
    ct_leaseMs := leaseMs |});
  match tc_status claim with
  | TransactionAlreadyTerminal | TransactionBusy => mret tt
  | TransactionClaimed =>
      let identity := {| ti_transactionId := transactionId; ti_attemptId := attemptId;
        ti_claimToken := claimToken |} in
      _ ← await (StartLease identity);
      '(helper, outcome) ← recover_claimed identity (tc_snapshot claim) false;
      _ ← (if (helper : bool) then await HelperTerminate else mret tt);
      _ ← await StopLease;
      match outcome with Ok _ => mret tt | Throw e => Raise e end
  | status => Raise (Error ("workspace transaction recovery is " +:+ enum_name status
      +:+ ": " +:+ transactionId))
  end.

Definition recoverPendingTransactions (workspaceId canonicalRoot : string) : tprog unit :=
  snapshots ← listRecoverable workspaceId;
  _ ← raise_if (bool_decide (100 < length snapshots))
        (Error "workspace recovery exceeds the bounded transaction limit");
  for_each (fun snapshot =>
    _ ← raise_if (bool_decide
          (tx_rootIdentitySha256 (sn_transaction snapshot) ≠ sha256Text canonicalRoot))
          (Error ("workspace transaction belongs to another root: " +:+
            tx_id (sn_transaction snapshot)));
    recoverOne snapshot) snapshots.

(** * Execution ([runtime.ts]) *)

Inductive WorkspaceMutationIdentity :=
| DirectMutation (sourceKind : WorkspaceChangeTransactionSourceKind)
    (sourceId idempotencyKey ownerId : string)
| ProposalMutation (sourceId idempotencyKey ownerId : string)
    (proposal : WorkspaceChangeTransactionProposalBinding).

Definition mu_sourceKind (m : WorkspaceMutationIdentity) :=
  match m with DirectMutation kind _ _ _ => kind | ProposalMutation _ _ _ _ => SourceProposal end.
Definition mu_sourceId (m : WorkspaceMutationIdentity) :=
  match m with DirectMutation _ id _ _ | ProposalMutation id _ _ _ => id end.
Definition mu_idempotencyKey (m : WorkspaceMutationIdentity) :=
  match m with DirectMutation _ _ key _ | ProposalMutation _ key _ _ => key end.
Definition mu_ownerId (m : WorkspaceMutationIdentity) :=
  match m with DirectMutation _ _ _ owner | ProposalMutation _ _ owner _ => owner end.
Definition mu_proposal (m : WorkspaceMutationIdentity) :=
  match m with DirectMutation _ _ _ _ => None | ProposalMutation _ _ _ p => Some p end.

Record ExecuteWorkspaceTransactionRequest := {
  ex_workspaceId : string;
  ex_changeSetId : string;
  ex_operation : WorkspaceChangeTransactionOperation;
  ex_undoSourceOperationId : option string;
  ex_mutation : WorkspaceMutationIdentity;
}.

Definition validateRequest (request : ExecuteWorkspaceTransactionRequest) : tprog unit :=
  let mutation := ex_mutation request in
  _ ← raise_if (bool_decide (ex_workspaceId request = "" ∨ ex_changeSetId request = "" ∨
          mu_sourceId mutation = "" ∨ mu_idempotencyKey mutation = "" ∨
          mu_ownerId mutation = ""))
        (Error "workspace transaction identity must not be empty");
  raise_if (match ex_operation request, ex_undoSourceOperationId request with
            | TransactionUndo, Some _ | TransactionApply, None => false
            | _, _ => true
            end) (Error "workspace undo transaction requires a source operation").

Definition normalizeFailure (error : workspace_error) : json :=
  let error_json name message := JObj [("type", JStr "workspace.transaction_error");
    ("name", JStr name); ("message", JStr message)]%string in
  match error with
  | ErrorThrown name message => error_json name message
  | RecoveryRequired _ _ =>
      error_json "WorkspaceTransactionRecoveryRequiredError"%string
        "workspace transaction requires recovery"%string
  | ValueThrown text =>
      JObj [("type", JStr "workspace.transaction_error"); ("message", JStr text)]%string
  end.

Definition abortError : workspace_error :=
  ErrorThrown "AbortError" "workspace transaction was aborted before commit".

Definition isAbortError (error : workspace_error) : bool :=
  match error with ErrorThrown name _ => bool_decide (name = "AbortError") | _ => false end.

(** The variables that the [catch] clause reads. *)
Record execution_locals := {
  el_helper : bool;
  el_files : list WorkspaceChangeTransactionFilePlan;
  el_commitStarted : bool;
  el_finalized : bool;
}.

Abbreviation eprog := (lprog workspace_error transaction_call execution_locals).

Definition set_helper helper : eprog unit := assign (fun l => {|
  el_helper := helper; el_files := el_files l; el_commitStarted := el_commitStarted l;
  el_finalized := el_finalized l |}).
Definition set_files files : eprog unit := assign (fun l => {|
  el_helper := el_helper l; el_files := files; el_commitStarted := el_commitStarted l;
  el_finalized := el_finalized l |}).
Definition set_commitStarted : eprog unit := assign (fun l => {|
  el_helper := el_helper l; el_files := el_files l; el_commitStarted := true;
  el_finalized := el_finalized l |}).
Definition set_finalized : eprog unit := assign (fun l => {|
  el_helper := el_helper l; el_files := el_files l;
  el_commitStarted := el_commitStarted l; el_finalized := true |}).

(** A plan that writes nothing is settled at once. *)
Definition settle_plan (identity : WorkspaceChangeTransactionIdentityRequest)
    (outcome : finalize_outcome) (receipt : WorkspaceChangeSetReceipt)
    : eprog ExecuteWorkspaceTransactionResult :=
  _ ← lift (await HelperTerminate);
  _ ← set_helper false;
  _ ← lift assertHealthy;
  finalization ← lift (await (Finalize identity outcome));
  _ ← set_finalized;
  lift (finalizationResult finalization receipt).

Definition abort_prepared (identity : WorkspaceChangeTransactionIdentityRequest)
    (files : list WorkspaceChangeTransactionFilePlan) : eprog ExecuteWorkspaceTransactionResult :=
  _ ← lift (await (HelperCleanup files));
  _ ← set_helper false;
  _ ← lift (await (Finalize identity OutcomeRolledBack));
  lraise abortError.

Definition commit_prepared (identity : WorkspaceChangeTransactionIdentityRequest)
    (operationId : string) (files : list WorkspaceChangeTransactionFilePlan)
    (receipt : WorkspaceChangeSetReceipt) : eprog ExecuteWorkspaceTransactionResult :=
  _ ← lift (await (BeginCommit identity));
  _ ← set_commitStarted;
  _ ← lift (commit_files identity files);
  _ ← lift assertHealthy;
  finalization ← lift (await (Finalize identity (OutcomeApplied operationId receipt)));
  _ ← set_finalized;
  _ ← lift (cleanupCommittedArtifacts (ti_transactionId identity) files);
  _ ← set_helper false;
  lift (finalizationResult finalization receipt).

(** The [try] body of [execute]. *)
Definition execute_claimed (request : ExecuteWorkspaceTransactionRequest)
    (identity : WorkspaceChangeTransactionIdentityRequest) (operationId : string)
    : eprog ExecuteWorkspaceTransactionResult :=
  _ ← lift (await (SpawnHelper (ti_transactionId identity)));
  _ ← set_helper true;
  receipt ← lift (await Plan);
  _ ← lift (raise_if (bool_decide (rc_changeSetId receipt ≠ ex_changeSetId request))
        (Error "workspace transaction plan belongs to another changeset"));
  if bool_decide (rc_status receipt = ApplyConflicted) then
    settle_plan identity (OutcomeConflicted operationId receipt) receipt
  else
    let files := transactionFiles receipt in
    _ ← set_files files;
    if bool_decide (files = []) then
      settle_plan identity (OutcomeApplied operationId receipt) receipt
    else
      _ ← lift (await (RecordPlan identity files));
      _ ← lift (await (HelperPrepare files));
      _ ← lift (await (MarkPrepared identity));
      aborted ← lift (await Aborted);
      if (aborted : bool) then abort_prepared identity files
      else commit_prepared identity operationId files receipt.

(** The [catch] clause of [execute]; [cleanupFailure] is what the cleanup threw. *)
Definition execute_failed {A} (identity : WorkspaceChangeTransactionIdentityRequest)
    (l : execution_locals) (error : workspace_error) : tprog A :=
  if el_finalized l then Raise CleanupRequired
  else
    cleanupFailure ← (if el_helper l then
        if negb (el_commitStarted l) && bool_decide (el_files l ≠ []) then
          try_catch (_ ← await (HelperCleanup (el_files l)); mret None)
            (fun e => _ ← await HelperTerminate; mret (Some e))
        else _ ← await HelperTerminate; mret None
      else mret None);
    if negb (el_commitStarted l) && bool_decide (cleanupFailure = None) then
      if isAbortError error then Raise error
      else
        _ ← try_catch (_ ← await (Finalize identity OutcomeRolledBack); mret tt)
              (fun _ => Raise (AggregateError
                "workspace transaction failed and rollback settlement also failed"));
        Raise error
    else
      let failure := match cleanupFailure with
        | None => error
        | Some _ => AggregateError
            "workspace transaction failed and artifact cleanup also failed"
        end in
      finalization ← try_catch
        (finalization ← await (Finalize identity
            (OutcomeRecoveryRequired (normalizeFailure failure)));
         mret (Some finalization))
        (fun _ => mret None);
      Raise (RecoveryRequired (ti_transactionId identity) finalization).

Definition begin_request (request : ExecuteWorkspaceTransactionRequest)
    (transactionId canonicalRoot attemptId claimToken : string)
    : BeginWorkspaceChangeTransactionRequest :=
  let mutation := ex_mutation request in {|
  bt_id := transactionId; bt_workspaceId := ex_workspaceId request;
  bt_changeSetId := ex_changeSetId request; bt_operation := ex_operation request;
  bt_undoSourceOperationId := ex_undoSourceOperationId request;
  bt_sourceKind := mu_sourceKind mutation; bt_sourceId := mu_sourceId mutation;
  bt_idempotencyKey := mu_idempotencyKey mutation;
  bt_rootIdentitySha256 := sha256Text canonicalRoot; bt_proposal := mu_proposal mutation;
  bt_attemptId := attemptId; bt_ownerId := mu_ownerId mutation;
  bt_claimToken := claimToken; bt_leaseMs := leaseMs |}.

(** [execute] up to the claim. *)
Definition claim_transaction (request : ExecuteWorkspaceTransactionRequest)
    : tprog (WorkspaceChangeTransactionIdentityRequest * WorkspaceChangeTransactionClaimResult) :=
  _ ← validateRequest request;
  canonicalRoot ← await Canonicalize;
  _ ← recoverPendingTransactions (ex_workspaceId request) canonicalRoot;
  let transactionId := durableId "wtx" (mu_idempotencyKey (ex_mutation request)) in
  '(attemptId, claimToken) ← await RandomIdentity;
  claim ← await (BeginTransaction
    (begin_request request transactionId canonicalRoot attemptId claimToken));
  mret ({| ti_transactionId := transactionId; ti_attemptId := attemptId;
           ti_claimToken := claimToken |}, claim).

(** [execute] with the claim. *)
Definition execute_claim (request : ExecuteWorkspaceTransactionRequest)
    (identity : WorkspaceChangeTransactionIdentityRequest)
    (claim : WorkspaceChangeTransactionClaimResult) : tprog ExecuteWorkspaceTransactionResult :=
  let transactionId := ti_transactionId identity in
  match tc_status claim with
  | TransactionAlreadyTerminal =>
      _ ← cleanupTerminalArtifacts transactionId (sn_files (tc_snapshot claim));
      replayTerminalTransaction (ex_changeSetId request) (tc_snapshot claim)
        (tx_workspaceOperationId (sn_transaction (tc_snapshot claim)))
  | TransactionClaimed =>
      _ ← await (StartLease identity);
      try_finally
        ('(l, outcome) ← execute_claimed request identity (durableId "wop" transactionId) {|
           el_helper := false; el_files := []; el_commitStarted := false;
           el_finalized := false |};
         match outcome with
         | Ok result => mret result
         | Throw error => execute_failed identity l error
         end)
        (await StopLease)
  | status => Raise (Error ("workspace transaction cannot execute: " +:+ transactionId
      +:+ " (" +:+ enum_name status +:+ ")"))
  end.

Definition execute (request : ExecuteWorkspaceTransactionRequest)
    : tprog ExecuteWorkspaceTransactionResult :=
  '(identity, claim) ← claim_transaction request;
  execute_claim request identity claim.
End transaction.

(** The constructor's check of [leaseMs]. *)
Definition valid_leaseMs (leaseMs : jsnum) : bool :=
  match safe_integer leaseMs with
  | Some ms => bool_decide (10 ≤ ms ≤ 300000)%Z
  | None => false
  end.

(** * The protocol of a transaction

    A monitor follows the calls and says which are allowed. *)

#[export] Instance identity_eq_dec : EqDecision WorkspaceChangeTransactionIdentityRequest.
Proof. solve_decision. Defined.

#[export] Instance recovery_decision_eq_dec :
  EqDecision WorkspaceChangeTransactionRecoveryDecision.
Proof. solve_decision. Defined.

#[export] Instance observed_eq_dec : EqDecision observed.
Proof. solve_decision. Defined.

#[export] Instance file_observation_eq_dec : EqDecision WorkspaceChangeTransactionFileObservation.
Proof. solve_decision. Defined.

(** How far the claimed transaction is: what the caller planned, and what of it the store
    and the helper have acknowledged. *)
Inductive stage :=
| Unclaimed
| Claimed
| Drafted (receipt : WorkspaceChangeSetReceipt)
| Planned (receipt : WorkspaceChangeSetReceipt)
| Prepared (receipt : WorkspaceChangeSetReceipt)
| Marked (receipt : WorkspaceChangeSetReceipt)
| Committing (receipt : WorkspaceChangeSetReceipt)
| Committed (receipt : WorkspaceChangeSetReceipt)
| Recovering (files : list WorkspaceChangeTransactionFilePlan)
| Inspected (files : list WorkspaceChangeTransactionFilePlan)
    (observations : list WorkspaceChangeTransactionFileObservation)
| Reconciled (decision : WorkspaceChangeTransactionRecoveryDecision)
    (files : list WorkspaceChangeTransactionFilePlan)
| Reprepared (files : list WorkspaceChangeTransactionFilePlan)
| Recommitted (files : list WorkspaceChangeTransactionFilePlan)
| Settled (outcome : finalize_outcome).

(** [mo_checked]: the lease was healthy after the last commit; [mo_touched]: the helper
    was told to commit; [mo_attempted]: a settlement was sent; [mo_execution]: the
    transaction was claimed to execute it, not to recover it. *)
Record monitor := {
  mo_identity : option WorkspaceChangeTransactionIdentityRequest;
  mo_stage : stage;
  mo_lease : bool;
  mo_helper : bool;
  mo_checked : bool;
  mo_touched : bool;
  mo_attempted : bool;
  mo_execution : bool;
}.

Definition idle : monitor := {|
  mo_identity := None; mo_stage := Unclaimed; mo_lease := false; mo_helper := false;
  mo_checked := false; mo_touched := false; mo_attempted := false;
  mo_execution := false |}.

Definition claimed_stage (st : stage) : bool :=
  match st with Unclaimed | Settled _ => false | _ => true end.

(** The files are in the workspace, or may be, and nothing says so durably yet. *)
Definition unsettled_commit (st : stage) : bool :=
  match st with Committing _ | Committed _ | Reprepared _ | Recommitted _ => true | _ => false end.

(** When artifacts may be cleaned up: not while a commit is unsettled, and in a recovery only
    once it is settled, or the store has decided that there is nothing to do. *)
Definition may_clean (st : stage) : bool :=
  match st with
  | Recovering _ | Inspected _ _ => false
  | Reconciled decision _ => bool_decide (decision = RecoverRollbackNoop)
  | st => negb (unsettled_commit st)
  end.

(** A plan that succeeds without writing anything. *)
Definition plans_nothing (receipt : WorkspaceChangeSetReceipt) : bool :=
  bool_decide (rc_status receipt ≠ ApplyConflicted) && bool_decide (transactionFiles receipt = []).

Definition may_finalize (m : monitor) (outcome : finalize_outcome) : bool :=
  match outcome, mo_stage m with
  | OutcomeApplied _ receipt, Committed planned =>
      mo_checked m && bool_decide (receipt = planned)
  | OutcomeApplied _ receipt, Drafted planned =>
      mo_checked m && bool_decide (receipt = planned) && plans_nothing receipt
  | OutcomeApplied _ _, (Recommitted _ | Reconciled RecoverFinalize _) => mo_checked m
  | OutcomeConflicted _ receipt, Drafted planned =>
      mo_checked m && bool_decide (receipt = planned) &&
      bool_decide (rc_status receipt = ApplyConflicted)
  | OutcomeRolledBack, (Claimed | Drafted _ | Planned _ | Prepared _ | Marked _ | Recovering [] |
      Reconciled RecoverRollbackNoop _) => negb (mo_helper m)
  | OutcomeRecoveryRequired _, (Claimed | Drafted _ | Planned _ | Prepared _ | Marked _ | Committing _ |
      Committed _ | Reconciled RecoverAttention _) => negb (mo_helper m)
  | _, _ => false
  end.

Definition allowed (m : monitor) {R} (c : transaction_call R) : bool :=
  let holds identity := mo_lease m && bool_decide (mo_identity m = Some identity) in
  match c with
  | Canonicalize | RandomIdentity | ListTransactions _ _ _ | ListOperations _
  | GetChangeSet _ | ReadText _ | Aborted => true
  | Plan => match mo_stage m with Claimed => true | _ => false end
  | BeginTransaction _ | ClaimRecovery _ =>
      negb (mo_lease m) && negb (mo_helper m) && negb (mo_execution m)
  | StartLease identity =>
      negb (mo_lease m) && claimed_stage (mo_stage m) &&
      bool_decide (mo_identity m = Some identity)
  | StopLease | LeaseHealthy => mo_lease m
  | RecordPlan identity files =>
      holds identity && match mo_stage m with
        | Drafted receipt => bool_decide (rc_status receipt ≠ ApplyConflicted) &&
            bool_decide (files = transactionFiles receipt) && bool_decide (files ≠ [])
        | _ => false
        end
  | MarkPrepared identity =>
      holds identity && match mo_stage m with Prepared _ => true | _ => false end
  | BeginCommit identity =>
      holds identity && match mo_stage m with Marked _ => true | _ => false end
  | RecordFileCommitted identity _ => holds identity && unsettled_commit (mo_stage m)
  | Reconcile identity observations =>
      holds identity && match mo_stage m with
        | Inspected _ observed => bool_decide (observations = observed) | _ => false end
  | Finalize identity outcome => holds identity && may_finalize m outcome
  | SpawnHelper _ => negb (mo_helper m)
  | HelperPrepare files => mo_helper m &&
      match mo_stage m with
      | Planned receipt => bool_decide (files = transactionFiles receipt)
      | Reconciled RecoverFinishForward files' => bool_decide (files = files')
      | _ => false
      end
  | HelperInspect files => mo_helper m &&
      match mo_stage m with Recovering files' => bool_decide (files = files') | _ => false end
  | HelperCommit files ordinals =>
      mo_helper m && negb (mo_touched m) && bool_decide (ordinals = fp_ordinal <$> files) &&
      match mo_stage m with
      | Committing receipt => bool_decide (files = transactionFiles receipt)
      | Reprepared files' => bool_decide (files = files')
      | _ => false
      end
  | HelperCleanup _ => mo_helper m && may_clean (mo_stage m)
  | HelperTerminate => true
  end.

Definition with_stage st m := {|
  mo_identity := mo_identity m; mo_stage := st; mo_lease := mo_lease m;
  mo_helper := mo_helper m; mo_checked := mo_checked m; mo_touched := mo_touched m;
  mo_attempted := mo_attempted m; mo_execution := mo_execution m |}.
Definition with_lease lease m := {|
  mo_identity := mo_identity m; mo_stage := mo_stage m; mo_lease := lease;
  mo_helper := mo_helper m; mo_checked := mo_checked m; mo_touched := mo_touched m;
  mo_attempted := mo_attempted m; mo_execution := mo_execution m |}.
Definition with_helper helper m := {|
  mo_identity := mo_identity m; mo_stage := mo_stage m; mo_lease := mo_lease m;
  mo_helper := helper; mo_checked := mo_checked m; mo_touched := mo_touched m;
  mo_attempted := mo_attempted m; mo_execution := mo_execution m |}.
Definition with_checked checked m := {|
  mo_identity := mo_identity m; mo_stage := mo_stage m; mo_lease := mo_lease m;
  mo_helper := mo_helper m; mo_checked := checked; mo_touched := mo_touched m;
  mo_attempted := mo_attempted m; mo_execution := mo_execution m |}.
Definition with_touched m := {|
  mo_identity := mo_identity m; mo_stage := mo_stage m; mo_lease := mo_lease m;
  mo_helper := mo_helper m; mo_checked := false; mo_touched := true;
  mo_attempted := mo_attempted m; mo_execution := mo_execution m |}.
Definition with_attempted m := {|
  mo_identity := mo_identity m; mo_stage := mo_stage m; mo_lease := mo_lease m;
  mo_helper := mo_helper m; mo_checked := mo_checked m; mo_touched := mo_touched m;
  mo_attempted := true; mo_execution := mo_execution m |}.

Definition claimed identity st execution : monitor := {|
  mo_identity := Some identity; mo_stage := st; mo_lease := false; mo_helper := false;
  mo_checked := false; mo_touched := false; mo_attempted := false;
  mo_execution := execution |}.

(** The stages in which a commit starts and which it reaches. *)
Definition after_commit (st : stage) (ok : bool) : stage :=
  match st with
  | Committing receipt | Committed receipt =>
      if ok then Committed receipt else Committing receipt
  | Reprepared files | Recommitted files => if ok then Recommitted files else Reprepared files
  | st => st
  end.

Definition advance (m : monitor) {R} (c : transaction_call R) :
    result workspace_error R → monitor :=
  match c in transaction_call R return result workspace_error R → monitor with
  | BeginTransaction request => fun r => match r with
      | Ok claim => match tc_status claim with
          | TransactionClaimed => claimed {| ti_transactionId := bt_id request;
              ti_attemptId := bt_attemptId request;
              ti_claimToken := bt_claimToken request |} Claimed true
          | _ => idle
          end
      | Throw _ => idle
      end
  | ClaimRecovery request => fun r => match r with
      | Ok claim => match tc_status claim with
          | TransactionClaimed => claimed {| ti_transactionId := ct_transactionId request;
              ti_attemptId := ct_attemptId request;
              ti_claimToken := ct_claimToken request |}
              (Recovering (transactionFilePlans (sn_files (tc_snapshot claim)))) false
          | _ => idle
          end
      | Throw _ => idle
      end
  | StartLease _ => fun r => with_lease (is_ok r) m
  | StopLease => fun r => with_lease (negb (is_ok r)) m
  | LeaseHealthy => fun r => match r with
      | Ok healthy => with_checked healthy m | Throw _ => with_checked false m end
  | Plan => fun r => match r with
      | Ok receipt => with_stage (Drafted receipt) m | Throw _ => m end
  | RecordPlan _ files => fun r => match mo_stage m with
      | Drafted receipt => if is_ok r then with_stage (Planned receipt) m else m
      | _ => m end
  | MarkPrepared _ => fun r => match mo_stage m with
      | Prepared receipt => if is_ok r then with_stage (Marked receipt) m else m
      | _ => m end
  | BeginCommit _ => fun r => match mo_stage m with
      | Marked receipt => if is_ok r then with_stage (Committing receipt) m else m
      | _ => m end
  | RecordFileCommitted _ _ => fun r =>
      if is_ok r then m else with_stage (after_commit (mo_stage m) false) m
  | Reconcile _ _ => fun r => match r, mo_stage m with
      | Ok reconciliation, Inspected files _ =>
          with_stage (Reconciled (re_decision reconciliation) files) m
      | _, _ => m end
  | Finalize _ outcome => fun r =>
      with_attempted (if is_ok r then with_stage (Settled outcome) m else m)
  | SpawnHelper _ => fun r => with_helper (is_ok r) m
  | HelperPrepare files => fun r => if is_ok r then
      match mo_stage m with
      | Planned receipt => with_stage (Prepared receipt) m
      | Reconciled _ files => with_stage (Reprepared files) m
      | _ => m end else m
  | HelperCommit _ _ => fun r => with_touched (match r with
      | Ok (_, Ok _) => with_stage (after_commit (mo_stage m) true) m
      | _ => m end)
  | HelperInspect _ => fun r => match r, mo_stage m with
      | Ok observations, Recovering files => with_stage (Inspected files observations) m
      | _, _ => m end
  | HelperCleanup _ => fun r => if is_ok r then with_helper false m else m
  | HelperTerminate => fun r => with_helper false m
  | Canonicalize | RandomIdentity | ListTransactions _ _ _ | ListOperations _
  | GetChangeSet _ | ReadText _ | Aborted => fun _ => m
  end.

Definition monitor_step (m : monitor) (e : tevent) : option monitor :=
  match e with
  | Event c r => if allowed m c then Some (advance m c r) else None
  end.

(** What never throws: starting and stopping a lease and asking for its state only touch
    a timer and fields; ending the helper hides its errors; and random numbers and the
    caller's signal are only read. *)
Definition possible (e : tevent) : Prop :=
  match e with
  | Event c r => match c with
      | StartLease _ | StopLease | LeaseHealthy | HelperTerminate | RandomIdentity | Aborted =>
          is_ok r = true
      | _ => True
      end
  end.

Abbreviation twp := (wp monitor_step possible).
Abbreviation elwp := (lwp monitor_step possible).

Lemma wp_await {R} (c : transaction_call R) Q m :
  allowed m c = true → (∀ r, possible (Event c r) → Q r (advance m c r)) → twp (await c) Q m.
Proof.
  intros Ha HQ. apply wp_call. intros r Hr. exists (advance m c r).
  unfold monitor_step. rewrite Ha. auto.
Qed.

(** Symbolic execution: one construct at a time. *)
#[local] Arguments wp : simpl never.
#[local] Arguments lwp : simpl never.
#[local] Arguments mbind : simpl never.
#[local] Arguments mret : simpl never.
#[local] Arguments handle : simpl never.
#[local] Arguments await : simpl never.
#[local] Arguments lift : simpl never.

Ltac solve_allowed :=
  simpl; repeat first [rewrite bool_decide_true by done | rewrite andb_true_r | progress simpl];
  try done.

Ltac wp_call :=
  apply wp_await; [solve_allowed|intros [?|?] ?; simpl in *; try done].

Ltac wp_step := first [wp_rule|lazymatch goal with |- wp _ _ (await _) _ _ => wp_call end].

(** A monitor in the middle of the transaction [identity]. *)
Definition at_stage identity st lease helper checked touched attempted execution : monitor := {|
  mo_identity := Some identity; mo_stage := st; mo_lease := lease; mo_helper := helper;
  mo_checked := checked; mo_touched := touched; mo_attempted := attempted;
  mo_execution := execution |}.

Section protocol.
Context (sha256Text : string → string) (localeCompare : string → string → Z) (leaseMs : jsnum).

Lemma record_progress_wp identity progress st helper checked touched attempted execution :
  unsettled_commit st = true →
  twp (record_progress identity progress)
    (fun r m => ∃ st', m = at_stage identity st' true helper checked touched attempted execution ∧
      unsettled_commit st' = true ∧
      match r with Ok _ => st' = st | Throw _ => st' = after_commit st false end)
    (at_stage identity st true helper checked touched attempted execution).
Proof.
  intros Hst. induction progress as [|ordinal progress IH]; cbn [record_progress].
  { wp_step. by exists st. }
  repeat wp_step. exists (after_commit st false). by destruct st.
Qed.

(** The helper commits the files the store knows, and whatever happens the stage tells
    whether every one was committed and recorded. *)
Lemma commit_files_wp identity st files checked attempted execution :
  (∃ receipt, st = Committing receipt ∧ files = transactionFiles receipt) ∨
    st = Reprepared files →
  twp (commit_files identity files)
    (fun r m => ∃ ok, m = at_stage identity (after_commit st ok) true true false true attempted
        execution ∧ (r = Ok tt → ok = true))
    (at_stage identity st true true checked false attempted execution).
Proof.
  intros Hst. unfold commit_files. wp_step. apply wp_await.
  { destruct Hst as [(receipt & -> & ->)| ->]; solve_allowed. }
  intros [[progress outcome]|e] _; cbn [advance at_stage].
  2: { exists false. split; [by destruct Hst as [(receipt & -> & _)| ->]|done]. }
  apply wp_handle. set (st1 := match outcome with Ok _ => after_commit st true | _ => st end).
  assert (unsettled_commit st1 = true ∧
    (∀ b, after_commit st1 b = after_commit st b) ∧
    (is_ok outcome = true → st1 = after_commit st true) ∧
    (is_ok outcome = false → st1 = after_commit st false)) as (Hun & Hafter & Hok & Hno)
    by (destruct outcome, Hst as [(receipt & -> & _)| ->]; repeat split; by intros []).
  match goal with |- wp _ _ _ _ ?m =>
    replace m with (at_stage identity st1 true true false true attempted execution)
      by (unfold st1; by destruct outcome) end.
  eapply wp_mono; [|by apply record_progress_wp].
  intros [[]|e] m (st' & -> & _ & ->).
  - destruct outcome as [[]|e]; wp_step.
    + exists true. by rewrite Hok.
    + exists false. split; [by rewrite Hno|done].
  - destruct outcome as [[]|e']; wp_step; exists false;
      (split; [by rewrite Hafter|done]).
Qed.

(** Cleaning up ends the helper, or a second one. *)
Lemma cleanupCommittedArtifacts_wp transactionId files m :
  mo_helper m = true → may_clean (mo_stage m) = true →
  twp (cleanupCommittedArtifacts transactionId files)
    (fun r m' => m' = with_helper false m) m.
Proof.
  intros Hh Hst. unfold cleanupCommittedArtifacts. repeat wp_step.
  all: try (by rewrite Hh, Hst). all: try (by rewrite Hst). all: done.
Qed.

(** ** Recovery *)

Lemma rebuild_files_wp fileByPath changes files m :
  twp (rebuild_files sha256Text fileByPath changes files) (fun _ m' => m' = m) m.
Proof.
  revert files. induction changes as [|change changes IH]; intros files; cbn [rebuild_files].
  { by wp_step. }
  destruct (jget (fc_path change) fileByPath); [apply IH|]. by repeat wp_step.
Qed.

Lemma rebuildTransactionReceipt_wp snapshot m :
  twp (rebuildTransactionReceipt sha256Text snapshot) (fun _ m' => m' = m) m.
Proof.
  unfold rebuildTransactionReceipt. destruct (tx_operation (sn_transaction snapshot)).
  - repeat wp_step. case_match; [|done]. wp_step. eapply wp_mono; [|apply rebuild_files_wp].
    by intros [files|e] m' ->.
  - repeat wp_step. by case_match.
Qed.

(** The lease is held, and the helper is only open when the variable says so. *)
Definition recovery_post identity (_ : result workspace_error unit) (helper : bool)
    (m : monitor) : Prop :=
  ∃ st hlp checked touched attempted,
    m = at_stage identity st true hlp checked touched attempted false ∧
    (hlp = true → helper = true).

Lemma recovery_post_intro identity r (helper : bool) st hlp checked touched attempted :
  (hlp = true → helper = true) →
  recovery_post identity r helper (at_stage identity st true hlp checked touched attempted false).
Proof. intros Hh. unfold recovery_post. eauto 10. Qed.

Ltac close_recovery := by apply recovery_post_intro.

Lemma finish_recovery_wp identity files snapshot st touched :
  (∃ fs, st = Recommitted fs ∨ st = Reconciled RecoverFinalize fs) →
  elwp (finish_recovery sha256Text identity files snapshot) (recovery_post identity) true
    (at_stage identity st true true false touched false false).
Proof.
  intros Hst. unfold finish_recovery, assertHealthy. repeat wp_step; [|close_recovery].
  match goal with H : negb _ = false |- _ => apply negb_false_iff in H as -> end.
  repeat wp_step. eapply wp_mono; [|apply rebuildTransactionReceipt_wp].
  intros [receipt|e] m ->; [|close_recovery]. repeat wp_step.
  - by destruct Hst as [fs [-> | ->]].
  - eapply wp_mono; [|by apply cleanupCommittedArtifacts_wp].
    intros [[]|e] m ->; repeat wp_step; close_recovery.
  - close_recovery.
Qed.

Lemma recover_claimed_wp identity snapshot :
  elwp (recover_claimed sha256Text identity snapshot) (recovery_post identity) false
    (at_stage identity (Recovering (transactionFilePlans (sn_files snapshot)))
       true false false false false false).
Proof.
  unfold recover_claimed. case_bool_decide as Hfiles.
  { rewrite Hfiles. repeat wp_step; close_recovery. }
  repeat wp_step; try close_recovery.
  destruct (re_decision _) eqn:Hd; cbn [mo_stage].
  - repeat wp_step; try close_recovery.
  - repeat wp_step; try close_recovery. eapply wp_mono; [|by apply commit_files_wp; right].
    intros [[]|e] m (ok & -> & Hok); [|close_recovery]. rewrite Hok by done.
    apply finish_recovery_wp. eauto.
  - apply finish_recovery_wp. eauto.
  - repeat wp_step; try close_recovery.
Qed.

(** No lease is held and no helper is left running. *)
Definition released (m : monitor) : Prop := mo_lease m = false ∧ mo_helper m = false.

Definition recovering (m : monitor) : Prop := released m ∧ mo_execution m = false.

Lemma wp_of_lwp {L A} (p : lprog workspace_error transaction_call L A) Q l m :
  elwp p (fun o l m => Q (Ok (l, o)) m) l m → twp (p l) Q m.
Proof. intros Hp. eapply wp_mono; [|exact Hp]. by intros [[l' o]|e]. Qed.

Lemma recoverOne_wp snapshot m :
  recovering m → twp (recoverOne sha256Text leaseMs snapshot) (fun _ => recovering) m.
Proof.
  intros [[Hl Hh] He]. unfold recoverOne. repeat wp_step.
  match goal with p : string * string |- _ => destruct p as [attemptId claimToken] end.
  wp_step. apply wp_await; [by simpl; rewrite Hl, Hh, He|].
  intros [claim|e] _; cbn [advance]; [|by repeat split].
  destruct (tc_status claim); try by repeat split.
  repeat wp_step. apply wp_of_lwp. eapply lwp_mono; [|apply recover_claimed_wp].
  intros o helper m1 (st & hlp & checked & touched & attempted & -> & Hhelper).
  wp_step. destruct helper.
  - repeat wp_step. destruct o; by repeat wp_step.
  - destruct hlp; [by specialize (Hhelper eq_refl)|].
    repeat wp_step. destruct o; by repeat wp_step.
Qed.

Lemma list_states_wp workspaceId states byId m :
  twp (list_states workspaceId states byId) (fun _ m' => m' = m) m.
Proof.
  revert byId. induction states as [|st states IH]; intros byId; cbn [list_states];
    by repeat wp_step.
Qed.

Lemma recoverPendingTransactions_wp workspaceId canonicalRoot m :
  recovering m →
  twp (recoverPendingTransactions sha256Text localeCompare leaseMs workspaceId canonicalRoot)
    (fun _ => recovering) m.
Proof.
  intros Hm. unfold recoverPendingTransactions, listRecoverable. repeat wp_step.
  eapply wp_mono; [|apply list_states_wp]. intros [byId|e] m' ->; [|done].
  repeat wp_step; [|done].
  eapply wp_mono; [|apply (wp_for_each _ _ recovering (fun _ => recovering)); [|done]].
  { by intros [] m'. }
  intros snapshot m1 _ H1. repeat wp_step; [|done].
  eapply wp_mono; [|by apply recoverOne_wp]. by intros [].
Qed.

(** ** Execution *)

Definition early (st : stage) : bool :=
  match st with Claimed | Drafted _ | Planned _ | Prepared _ | Marked _ => true | _ => false end.

(** The settlement of a receipt. *)
Definition settled_with (receipt : WorkspaceChangeSetReceipt) (st : stage) : Prop :=
  ∃ operationId, st = Settled (OutcomeApplied operationId receipt) ∨
    st = Settled (OutcomeConflicted operationId receipt) ∧ rc_status receipt = ApplyConflicted.

(** How the [try] body of [execute] ends. *)
Definition execution_post identity (o : result workspace_error ExecuteWorkspaceTransactionResult)
    (l : execution_locals) (m : monitor) : Prop :=
  ∃ st hlp checked touched attempted,
    m = at_stage identity st true hlp checked touched attempted true ∧
    match o with
    | Ok result => hlp = false ∧ settled_with (er_receipt result) st
    | Throw e =>
        if el_finalized l then hlp = false ∧ ∃ receipt, settled_with receipt st
        else hlp = el_helper l ∧
          if el_commitStarted l then ∃ r, st = Committing r ∨ st = Committed r
          else touched = false ∧
            (early st = true ∨ st = Settled OutcomeRolledBack ∧ hlp = false ∧ isAbortError e = true)
    end.

(** How [execute] ends, its lease apart. *)
Definition executed (o : result workspace_error ExecuteWorkspaceTransactionResult)
    (m : monitor) : Prop :=
  match o with
  | Ok result => settled_with (er_receipt result) (mo_stage m)
  | Throw e =>
      match mo_stage m with
      | Settled (OutcomeApplied _ _ | OutcomeConflicted _ _) => e = CleanupRequired
      | Settled OutcomeRolledBack => mo_touched m = false
      | Settled (OutcomeRecoveryRequired _) => ∃ id f, e = RecoveryRequired id (Some f)
      | _ => (mo_touched m = true → ∃ id, e = RecoveryRequired id None) ∧
          (mo_attempted m = true ∨ isAbortError e = true)
      end
  end.

Lemma finalizationResult_wp finalization receipt m :
  twp (finalizationResult finalization receipt)
    (fun o m' => m' = m ∧ ∀ result, o = Ok result → er_receipt result = receipt) m.
Proof. unfold finalizationResult. case_match; wp_step; naive_solver. Qed.

(** The intermediate states are [at_stage]s, by computation. *)
Ltac end_try := eexists _, _, _, _, _; split; [reflexivity|]; simpl.

Ltac lease_healthy :=
  match goal with H : negb _ = false |- _ => apply negb_false_iff in H; subst end.

Lemma settle_plan_wp identity outcome receipt files :
  (∃ operationId, outcome = OutcomeApplied operationId receipt ∧ plans_nothing receipt = true ∨
    outcome = OutcomeConflicted operationId receipt ∧ rc_status receipt = ApplyConflicted) →
  elwp (settle_plan identity outcome receipt) (execution_post identity)
    {| el_helper := true; el_files := files; el_commitStarted := false; el_finalized := false |}
    (at_stage identity (Drafted receipt) true true false false false true).
Proof.
  intros (operationId & Houtcome).
  assert (settled_with receipt (Settled outcome)) as Hsettled.
  { exists operationId. destruct Houtcome as [[-> _]|[-> Hs]]; auto. }
  unfold settle_plan, assertHealthy, set_helper, set_finalized.
  repeat wp_step; try lease_healthy.
  - by destruct Houtcome as [[-> He]|[-> He]]; solve_allowed.
  - eapply wp_mono; [|apply finalizationResult_wp]. intros [result|e] m [-> Hr]; end_try.
    + by rewrite (Hr result).
    + eauto.
  - end_try. auto 10.
  - end_try. auto 10.
Qed.

Lemma abort_prepared_wp identity receipt files checked :
  elwp (abort_prepared identity files) (execution_post identity)
    {| el_helper := true; el_files := files; el_commitStarted := false; el_finalized := false |}
    (at_stage identity (Marked receipt) true true checked false false true).
Proof. unfold abort_prepared, set_helper. repeat wp_step; end_try; auto 10. Qed.

Lemma commit_prepared_wp identity operationId receipt checked :
  elwp (commit_prepared identity operationId (transactionFiles receipt) receipt)
    (execution_post identity)
    {| el_helper := true; el_files := transactionFiles receipt; el_commitStarted := false;
       el_finalized := false |}
    (at_stage identity (Marked receipt) true true checked false false true).
Proof.
  assert (∀ id, settled_with receipt (Settled (OutcomeApplied id receipt))) as Hsettled
    by (intros id; exists id; auto).
  unfold commit_prepared, assertHealthy, set_commitStarted, set_finalized, set_helper.
  repeat wp_step; [|by end_try; auto 10].
  eapply wp_mono; [|by apply commit_files_wp; left; exists receipt].
  intros [[]|e] m (ok & -> & Hok).
  2: { end_try. destruct ok; eauto. }
  rewrite Hok by done. repeat wp_step; try lease_healthy.
  3, 4: by end_try; eauto.
  { solve_allowed. }
  eapply wp_mono; [|by apply cleanupCommittedArtifacts_wp].
  intros [[]|e] m ->; [|by end_try; eauto]. repeat wp_step.
  eapply wp_mono; [|apply finalizationResult_wp]. intros [result|e] m [-> Hr]; end_try.
  - by rewrite (Hr result).
  - eauto.
Qed.

Lemma execute_claimed_wp request identity operationId :
  elwp (execute_claimed request identity operationId) (execution_post identity)
    {| el_helper := false; el_files := []; el_commitStarted := false; el_finalized := false |}
    (at_stage identity Claimed true false false false false true).
Proof.
  unfold execute_claimed, set_helper, set_files. repeat wp_step; try by end_try; auto 10.
  match goal with H : bool_decide _ = false |- _ => clear H end.
  case_bool_decide as Hconflicted.
  { apply settle_plan_wp. eauto. }
  repeat wp_step. case_bool_decide as Hfiles.
  { apply settle_plan_wp. exists operationId. left. split; [done|].
    unfold plans_nothing. by rewrite !bool_decide_true. }
  repeat wp_step; try by end_try; auto 10.
  case_match; [apply abort_prepared_wp|apply commit_prepared_wp].
Qed.

(** How a failed execution leaves the lease and the helper. *)
Definition failed {A} (o : result workspace_error A) (m : monitor) : Prop :=
  (∃ e, o = Throw e ∧ executed (Throw e) m) ∧
  mo_lease m = true ∧ mo_helper m = false ∧ mo_execution m = true.

Ltac end_failed := split; [eexists; split; [done|]; simpl|done].

Lemma execute_failed_wp {A} identity l error m :
  execution_post identity (Throw error) l m →
  twp (execute_failed (A := A) identity l error) failed m.
Proof.
  intros (st & hlp & checked & touched & attempted & -> & Hpost). unfold execute_failed.
  destruct (el_finalized l).
  { destruct Hpost as [-> (receipt & operationId & Hst)]. wp_step.
    end_failed. by destruct Hst as [-> |[-> _]]. }
  destruct Hpost as [-> Hpost]. destruct (el_commitStarted l); simpl.
  - destruct Hpost as [fs Hst].
    wp_step. eapply (wp_mono _ _ _ (fun r m => r = Ok None ∧
      m = at_stage identity st true false checked touched attempted true)).
    2: { destruct (el_helper l); repeat wp_step; done. }
    intros _ m [-> ->]. repeat wp_step.
    + destruct Hst as [-> | ->]; solve_allowed.
    + end_failed; eauto.
    + end_failed. destruct Hst as [-> | ->]; eauto.
  - destruct Hpost as [-> Hst].
    wp_step. eapply (wp_mono _ _ _ (fun r m => ∃ st' cleanup, r = Ok cleanup ∧
      m = at_stage identity st' true false checked false attempted true ∧
      (early st' = true ∨ st' = Settled OutcomeRolledBack ∧ isAbortError error = true ∧
        cleanup = None))).
    2: { destruct (el_helper l).
         - destruct Hst as [Hst|(_ & [=] & _)].
           assert (may_clean st = true) as Hun by (by destruct st).
           case_bool_decide; repeat wp_step; try by rewrite ?Hun.
           all: eexists st, _; split_and!; [done|done|by left].
         - wp_step. exists st, None. split_and!; [done..|]. destruct Hst as [|(-> & _ & ?)]; auto. }
    clear Hst. intros _ m (st' & cleanup & -> & -> & Hst). destruct cleanup as [failure|]; simpl.
    + destruct Hst as [Hst|(_ & _ & [=])]. repeat wp_step.
      * by destruct st'.
      * end_failed; eauto.
      * end_failed. destruct st'; naive_solver.
    + destruct (isAbortError error) eqn:Habort.
      { wp_step. end_failed. destruct Hst as [Hst|(-> & _)]; [destruct st'; naive_solver|done]. }
      destruct Hst as [Hst|(_ & [=] & _)]. repeat wp_step.
      * by destruct st'.
      * by end_failed.
      * end_failed. destruct st'; naive_solver.
Qed.

Lemma cleanupTerminalArtifacts_wp transactionId files :
  twp (cleanupTerminalArtifacts transactionId files) (fun _ m => m = idle) idle.
Proof.
  unfold cleanupTerminalArtifacts. case_bool_decide; [by wp_step|].
  repeat wp_step.
  eapply wp_mono; [|by apply cleanupCommittedArtifacts_wp].
  by intros [[]|e] m ->; repeat wp_step.
Qed.

Lemma replayTerminalTransaction_wp changeSetId snapshot operationId m :
  twp (replayTerminalTransaction changeSetId snapshot operationId) (fun _ m' => m' = m) m.
Proof. unfold replayTerminalTransaction. case_match; repeat wp_step; try done; by case_match. Qed.

(** How a call of [execute] ends. *)
Definition execute_post (o : result workspace_error ExecuteWorkspaceTransactionResult)
    (m : monitor) : Prop :=
  released m ∧ (mo_execution m = true → executed o m).

Lemma recovering_post o m : recovering m → execute_post o m.
Proof. intros [Hr He]. split; [done|]. by rewrite He. Qed.

Lemma validateRequest_wp request m :
  twp (validateRequest request) (fun _ m' => m' = m) m.
Proof. unfold validateRequest. by repeat wp_step. Qed.

(** The monitor of a transaction that was just claimed to execute it. *)
Definition begun identity (claim : WorkspaceChangeTransactionClaimResult) : monitor :=
  match tc_status claim with
  | TransactionClaimed => claimed identity Claimed true
  | _ => idle
  end.

Lemma claim_transaction_wp request :
  twp (claim_transaction sha256Text localeCompare leaseMs request)
    (fun r m => match r with
      | Ok (identity, claim) => m = begun identity claim
      | Throw _ => recovering m
      end) idle.
Proof.
  assert (recovering idle) as Hidle by done. unfold claim_transaction.
  wp_step. eapply wp_mono; [|apply validateRequest_wp].
  intros [_|e] m ->; [|done]. repeat wp_step.
  eapply wp_mono; [|by apply recoverPendingTransactions_wp].
  intros [_|e] m Hm; [|done]. repeat wp_step.
  match goal with p : string * string |- _ => destruct p as [attemptId claimToken] end.
  wp_step. destruct Hm as [[Hlease Hhelper] Hexecution].
  apply wp_await; [by simpl; rewrite Hlease, Hhelper, Hexecution|].
  intros [claim|e] _; cbn [advance]; [|done]. wp_step. done.
Qed.

Lemma execute_claim_wp request identity claim :
  twp (execute_claim sha256Text request identity claim) execute_post (begun identity claim).
Proof.
  unfold execute_claim, begun. destruct (tc_status claim).
  - repeat wp_step. apply wp_of_lwp. eapply lwp_mono; [|apply execute_claimed_wp].
    intros [result|error] l m1 Hpost.
    + destruct Hpost as (st & hlp & checked & touched & attempted & -> & -> & Hsettled).
      by repeat wp_step.
    + eapply wp_mono; [|by apply execute_failed_wp].
      intros o m2 ((e & -> & He) & Hl & Hh & Hx). by repeat wp_step.
  - wp_step. by apply recovering_post.
  - wp_step. by apply recovering_post.
  - repeat wp_step. eapply wp_mono; [|apply cleanupTerminalArtifacts_wp].
    intros [[]|e] m1 ->; [|by apply recovering_post].
    eapply wp_mono; [|apply replayTerminalTransaction_wp]. intros o m1 ->.
    by apply recovering_post.
Qed.

Lemma execute_wp request :
  twp (execute sha256Text localeCompare leaseMs request) execute_post idle.
Proof.
  unfold execute. wp_step. eapply wp_mono; [|apply claim_transaction_wp].
  intros [[identity claim]|e] m Hm; [subst; apply execute_claim_wp|by apply recovering_post].
Qed.

(** (C25) Whatever the store, the helper, the plan and the signal do, and wherever they
    fail, every call of [execute] is one the monitor allows.  Transactions left over are
    recovered first, and one transaction at most is executed.  A store record is only made
    by the claimed attempt under a held lease, in the order plan, prepared, commit.  The
    helper only prepares and commits the files of the receipt that was planned, and commits
    them once, after the store has acknowledged the beginning of the commit.  A settlement
    as applied or as conflicted carries that receipt, with the lease checked after the
    commit; a rollback is never settled once a commit has begun or while the helper runs;
    and the artifacts of a commit are never cleaned up before its settlement.  At the end no
    lease is held and no helper runs.  If the transaction was claimed, a result carries the
    settled receipt, and an exception is one that asks for cleanup after a settled success;
    it comes after a settled rollback of a transaction that committed nothing; and otherwise
    it asks for recovery if the helper was told to commit, and a settlement was at least
    attempted unless the exception is an abort. *)
Theorem execute_safe request t o :
  trace (execute sha256Text localeCompare leaseMs request) t o → Forall possible t →
  ∃ m, judge monitor_step idle t = Some m ∧ execute_post o m.
Proof. intros Ht Hp. eapply wp_trace; [apply execute_wp|done|done]. Qed.

End protocol.

(** * Examples *)

Definition sample_transaction (id : string) : WorkspaceChangeTransactionRecord := {|
  tx_id := id; tx_workspaceId := "ws"; tx_changeSetId := "cs";
  tx_operation := TransactionApply; tx_undoSourceOperationId := None;
  tx_sourceKind := SourceHost; tx_sourceId := "src"; tx_idempotencyKey := "k";
  tx_rootIdentitySha256 := "/root"; tx_proposalApplyAttemptId := None;
  tx_state := TransactionPlanning; tx_planDigest := None; tx_recoveryDecision := None;
  tx_workspaceOperationId := None; tx_failure := None; tx_createdAt := num_of_Z 1;
  tx_updatedAt := num_of_Z 1; tx_finishedAt := None |}.

Definition sample_file : WorkspaceChangeTransactionFileRecord := {|
  tf_transactionId := "wtx_old"; tf_ordinal := num_of_Z 0; tf_path := "a.txt";
  tf_beforeText := Some "old"; tf_beforeSha256 := Some "old"; tf_afterText := Some "new";
  tf_afterSha256 := Some "new"; tf_state := FilePrepared; tf_updatedAt := num_of_Z 1 |}.

Definition sample_snapshot id files : WorkspaceChangeTransactionSnapshot := {|
  sn_transaction := sample_transaction id; sn_files := files; sn_activeAttempt := None |}.

Definition sample_receipt : WorkspaceChangeSetReceipt := {|
  rc_changeSetId := "cs"; rc_status := ApplyApplied;
  rc_files := [{| af_path := "a.txt"; af_kind := ChangeUpdate; af_beforeText := Some "old";
    af_afterText := Some "new"; af_beforeSha256 := Some "old"; af_afterSha256 := Some "new" |}];
  rc_conflicts := [] |}%string.

Definition sample_operation (receipt : WorkspaceChangeSetReceipt)
    : WorkspaceChangeOperationRecord := {|
  op_id := "op"; op_changeSetId := "cs"; op_operation := OperationApply;
  op_status := ApplyApplied; op_receipt := receipt; op_createdAt := num_of_Z 2 |}.

(** An environment with one interrupted transaction, whose helper commits as told: its
    state counts the commits that still succeed. *)
Definition sample_env R (c : transaction_call R) : stM nat workspace_error R := fun fuel =>
  match c in transaction_call R return nat * result workspace_error R with
  | Canonicalize => (fuel, Ok "/root")
  | RandomIdentity => (fuel, Ok ("attempt", "token"))
  | BeginTransaction request => (fuel, Ok {| tc_status := TransactionClaimed;
      tc_snapshot := sample_snapshot (bt_id request) [] |})
  | ClaimRecovery request => (fuel, Ok {| tc_status := TransactionClaimed;
      tc_snapshot := sample_snapshot (ct_transactionId request) [sample_file] |})
  | RecordPlan _ _ => (fuel, Ok tt)
  | MarkPrepared _ => (fuel, Ok tt)
  | BeginCommit _ => (fuel, Ok tt)
  | RecordFileCommitted _ _ => (fuel, Ok tt)
  | Reconcile identity _ => (fuel, Ok {| re_decision := RecoverFinishForward;
      re_snapshot := sample_snapshot (ti_transactionId identity) [sample_file] |})
  | Finalize identity outcome => (fuel, Ok {|
      fz_snapshot := sample_snapshot (ti_transactionId identity) [];
      fz_operation := match outcome with
        | OutcomeApplied _ receipt => Some (sample_operation receipt) | _ => None end;
      fz_proposal := None; fz_proposalAttempt := None |})
  | ListTransactions _ TransactionPrepared _ => (fuel, Ok [sample_snapshot "wtx_old" [sample_file]])
  | ListTransactions _ _ _ => (fuel, Ok [])
  | ListOperations _ => (fuel, Ok [])
  | GetChangeSet _ => (fuel, Ok (Some {|
      sr_id := "cs"; sr_workspaceId := "ws"; sr_principalId := "p"; sr_title := None;
      sr_baseRevision := None; sr_changeSet := {| cs_id := "cs"; cs_title := None;
        cs_baseRevision := None; cs_changes := [{| fc_path := "a.txt"; fc_kind := ChangeUpdate;
          fc_baseText := Some "old"; fc_baseSha256 := None; fc_targetText := Some "new" |}] |};
      sr_currentState := SetSubmitted; sr_createdAt := num_of_Z 1; sr_updatedAt := num_of_Z 1 |}))
  | StartLease _ => (fuel, Ok tt)
  | StopLease => (fuel, Ok tt)
  | LeaseHealthy => (fuel, Ok true)
  | SpawnHelper _ => (fuel, Ok tt)
  | HelperPrepare _ => (fuel, Ok tt)
  | HelperInspect _ => (fuel, Ok [])
  | HelperCommit files ordinals => match fuel with
      | S fuel => (fuel, Ok (ordinals, Ok tt))
      | O => (O, Throw (Error "disk full"))
      end
  | HelperCleanup _ => (fuel, Ok tt)
  | HelperTerminate => (fuel, Ok tt)
  | ReadText _ => (fuel, Ok None)
  | Plan => (fuel, Ok sample_receipt)
  | Aborted => (fuel, Ok false)
  end%string.

Definition sample_request : ExecuteWorkspaceTransactionRequest := {|
  ex_workspaceId := "ws"; ex_changeSetId := "cs"; ex_operation := TransactionApply;
  ex_undoSourceOperationId := None;
  ex_mutation := DirectMutation SourceHost "src" "k" "host" |}.

Definition sample_order (_ _ : string) : Z := 0.

Definition sample_execute (commits : nat) :=
  run sample_env
    (execute (fun s => s) sample_order (num_of_Z 30000) sample_request) commits.

Lemma sample_possible R (c : transaction_call R) commits :
  possible (Event c (sample_env R c commits).2).
Proof. by destruct c as [| | | | | | | | | |? []| | | | | | | | | | | | | |]. Qed.

(** The interrupted transaction is recovered, then the change is committed and settled. *)
Example sample_executed :
  ∃ result, (sample_execute 2).2 = Ok result ∧ er_receipt result = sample_receipt.
Proof. vm_compute. eauto. Qed.

(** A commit that fails leaves a transaction that must be recovered. *)
Example sample_interrupted : ∃ f, (sample_execute 1).2 = Throw (RecoveryRequired "wtx_k" (Some f)).
Proof. vm_compute. eauto. Qed.


Lemma execute_safe_witness :
  ∃ result, (sample_execute 2).2 = Ok result ∧
    ∃ m, judge monitor_step idle (sample_execute 2).1 = Some m ∧ execute_post (Ok result) m.
Proof.
  eexists. split; [vm_compute; reflexivity|].
  apply (execute_safe (fun s => s) sample_order (num_of_Z 30000) sample_request).
  - exact (run_trace sample_env (execute (fun s => s) sample_order (num_of_Z 30000) sample_request) 2).
  - apply run_forall, sample_possible.
Defined.

