(* ===== verification/WorkspaceRuntime.v ===== *)
(** The workspace runtime ([packages/workspace/src/runtime.ts]): applying, undoing and
    reapplying a change set, each as one transaction whose plan is made in the workspace as
    it is when the transaction has been claimed. *)
From S2P Require Import Prelude JsMap Json Protocol Program WorkspaceProtocol Changeset WorkspaceTransaction.

(** * Requests and results ([types.ts]) *)

(** [wq_signal]: whether the request carries a signal. *)
Record ApplyWorkspaceChangeSetRequest := {
  wq_changeSet : WorkspaceChangeSet;
  wq_workspaceId : option string;
  wq_principalId : option string;
  wq_mutation : WorkspaceMutationIdentity;
  wq_signal : bool;
}.

Record ApplyWorkspaceChangeSetResult := {
  ap_changeSet : WorkspaceChangeSetRecord;
  ap_operation : WorkspaceChangeOperationRecord;
  ap_receipt : WorkspaceChangeSetReceipt;
  ap_transaction : WorkspaceChangeTransactionFinalization;
}.

(** [UndoWorkspaceChangeSetRequest] and [ReapplyWorkspaceChangeSetRequest] *)
Record WorkspaceChangeSetIdRequest := {
  uq_changeSetId : string;
  uq_mutation : WorkspaceMutationIdentity;
  uq_signal : bool;
}.

Record WorkspaceChangeSetHistory := {
  hi_changeSet : WorkspaceChangeSetRecord;
  hi_operations : list WorkspaceChangeOperationRecord;
}.

Record PutWorkspaceChangeSetRequest := {
  pc_workspaceId : string;
  pc_principalId : string;
  pc_changeSet : WorkspaceChangeSet;
}.

Record ListWorkspaceChangeSetsRequest := {
  lc_workspaceId : option string;
  lc_state : option WorkspaceChangeSetState;
  lc_limit : option jsnum;
}.

(** * The environment *)

(** The store's remaining calls, and the calls of a transaction. *)
Class WorkspaceEnvironment (W : Type) := {
  putWorkspaceChangeSet :
    PutWorkspaceChangeSetRequest → stM W workspace_error WorkspaceChangeSetRecord;
  listWorkspaceChangeSets :
    ListWorkspaceChangeSetsRequest → stM W workspace_error (list WorkspaceChangeSetRecord);
  answer R : transaction_call R → stM W workspace_error R;
}.

(** An exception of the planner or of the reader, which carry a message. *)
Definition thrown_message {W A} (m : stM W string A) : stM W workspace_error A := fun w =>
  let '(w', r) := m w in
  (w', match r with Ok a => Ok a | Throw message => Throw (Error message) end).

Section runtime.
Context (sha256Text : string → string) (localeCompare : string → string → Z).
Context {W : Type} `{!WorkspaceReader W, !WorkspaceEnvironment W}.
Local Abbreviation M := (stM W workspace_error).

(** The calls of one transaction: the plan is the caller's, a signal that was not given is
    never aborted, and the workspace is read by the reader. *)
Definition transaction_env (plan : M WorkspaceChangeSetReceipt) (signal : bool)
    R (c : transaction_call R) : M R :=
  match c in transaction_call R return M R with
  | Plan => plan
  | Aborted => if signal then answer bool Aborted else mret false
  | ReadText path => thrown_message (readText path)
  | c => answer _ c
  end.

(** A transaction that reads, plans nothing and has no signal. *)
Definition plain_env : ∀ R, transaction_call R → M R :=
  transaction_env (throwM (Error "no plan")) false.

(** * [WorkspaceRuntime] *)

Record WorkspaceRuntime := {
  ws_workspaceId : string;
  ws_transactionLeaseMs : jsnum;
  ws_principalId : string;
}.

Definition new_WorkspaceRuntime (workspaceId principalId : option string)
    (transactionLeaseMs : option jsnum) : result workspace_error WorkspaceRuntime :=
  let leaseMs := default (num_of_Z 30000) transactionLeaseMs in
  _ ← guard_throw (negb (valid_leaseMs leaseMs))
        (Error "workspace transaction leaseMs must be between 10 and 300000");
  Ok {| ws_workspaceId := default "local"%string workspaceId;
        ws_transactionLeaseMs := leaseMs;
        ws_principalId := default "workspace"%string principalId |}.

Context (this : WorkspaceRuntime).

Definition runtime_recoverPendingTransactions (workspaceId : option string) : M unit :=
  interp plain_env
    (canonicalRoot ← await Canonicalize;
     recoverPendingTransactions sha256Text localeCompare (ws_transactionLeaseMs this)
       (default (ws_workspaceId this) workspaceId) canonicalRoot).

Definition apply_request (request : ApplyWorkspaceChangeSetRequest)
    (changeSet : WorkspaceChangeSetRecord) : ExecuteWorkspaceTransactionRequest := {|
  ex_workspaceId := sr_workspaceId changeSet; ex_changeSetId := sr_id changeSet;
  ex_operation := TransactionApply; ex_undoSourceOperationId := None;
  ex_mutation := wq_mutation request |}.

Definition put_request (request : ApplyWorkspaceChangeSetRequest)
    : PutWorkspaceChangeSetRequest := {|
  pc_workspaceId := default (ws_workspaceId this) (wq_workspaceId request);
  pc_principalId := default (ws_principalId this) (wq_principalId request);
  pc_changeSet := wq_changeSet request |}.

(** What is read after the transaction, and returned. *)
Definition latest_result (changeSet : WorkspaceChangeSetRecord)
    (executed : ExecuteWorkspaceTransactionResult) (changeSetId : string)
    : M ApplyWorkspaceChangeSetResult :=
  latest ← answer _ (GetChangeSet changeSetId);
  mret {| ap_changeSet := default changeSet latest; ap_operation := er_operation executed;
          ap_receipt := er_receipt executed; ap_transaction := er_finalization executed |}.

Definition run_transaction (request : ExecuteWorkspaceTransactionRequest)
    (plan : M WorkspaceChangeSetReceipt) (signal : bool) : M ExecuteWorkspaceTransactionResult :=
  interp (transaction_env plan signal)
    (execute sha256Text localeCompare (ws_transactionLeaseMs this) request).

Definition applyChangeSet (request : ApplyWorkspaceChangeSetRequest)
    : M ApplyWorkspaceChangeSetResult :=
  changeSet ← putWorkspaceChangeSet (put_request request);
  executed ← run_transaction (apply_request request changeSet)
    (thrown_message (planChangeSetApply sha256Text (sr_changeSet changeSet))) (wq_signal request);
  latest_result changeSet executed (sr_id changeSet).

Definition require_change_set (changeSetId : string) : M WorkspaceChangeSetRecord :=
  changeSet ← answer _ (GetChangeSet changeSetId);
  match changeSet with
  | None => throwM (Error ("workspace changeset does not exist: " +:+ changeSetId))
  | Some changeSet => mret changeSet
  end.

Definition undo_request (request : WorkspaceChangeSetIdRequest)
    (changeSet : WorkspaceChangeSetRecord) (applyOperation : WorkspaceChangeOperationRecord)
    : ExecuteWorkspaceTransactionRequest := {|
  ex_workspaceId := sr_workspaceId changeSet; ex_changeSetId := uq_changeSetId request;
  ex_operation := TransactionUndo; ex_undoSourceOperationId := Some (op_id applyOperation);
  ex_mutation := uq_mutation request |}.

Definition undo_source (changeSetId : string) : M WorkspaceChangeOperationRecord :=
  operations ← answer _ (ListOperations changeSetId);
  match latestApplicableApplyOperation operations with
  | None => throwM (Error
      ("workspace changeset has no applied receipt to undo: " +:+ changeSetId))
  | Some applyOperation => mret applyOperation
  end.

Definition undoChangeSet (request : WorkspaceChangeSetIdRequest)
    : M ApplyWorkspaceChangeSetResult :=
  changeSet ← require_change_set (uq_changeSetId request);
  applyOperation ← undo_source (uq_changeSetId request);
  executed ← run_transaction (undo_request request changeSet applyOperation)
    (thrown_message (planChangeSetUndo sha256Text (op_receipt applyOperation))) (uq_signal request);
  latest_result changeSet executed (uq_changeSetId request).

Definition reapplyChangeSet (request : WorkspaceChangeSetIdRequest)
    : M ApplyWorkspaceChangeSetResult :=
  changeSet ← require_change_set (uq_changeSetId request);
  applyChangeSet {|
    wq_changeSet := sr_changeSet changeSet; wq_workspaceId := Some (sr_workspaceId changeSet);
    wq_principalId := Some (sr_principalId changeSet); wq_mutation := uq_mutation request;
    wq_signal := uq_signal request |}.

Definition getHistory (changeSetId : string) : M (option WorkspaceChangeSetHistory) :=
  changeSet ← answer _ (GetChangeSet changeSetId);
  match changeSet with
  | None => mret None
  | Some changeSet =>
      operations ← answer _ (ListOperations changeSetId);
      mret (Some {| hi_changeSet := changeSet; hi_operations := operations |})
  end.

Definition listChangeSets (request : ListWorkspaceChangeSetsRequest)
    : M (list WorkspaceChangeSetRecord) :=
  listWorkspaceChangeSets {|
    lc_workspaceId := Some (default (ws_workspaceId this) (lc_workspaceId request));
    lc_state := lc_state request; lc_limit := lc_limit request |}.
End runtime.

(** * Atomicity

    What the runtime relies on: only a commit of the helper changes the files, a commit
    that succeeds writes the files it was given, and the lease, the end of the helper, the
    random identifiers and the signal do not fail. *)

Definition writes {R} (c : transaction_call R) : bool :=
  match c with HelperCommit _ _ => true | _ => false end.

Class WorkspaceFiles (W : Type) `{!WorkspaceReader W, !WorkspaceEnvironment W}
    (files : W → contents) : Prop := {
  files_reader :: SnapshotReader W files;
  files_put request w : files (putWorkspaceChangeSet request w).1 = files w;
  files_answer R (c : transaction_call R) w :
    writes c = false → files (answer R c w).1 = files w;
  files_commit fs w w' progress :
    answer _ (HelperCommit fs (fp_ordinal <$> fs)) w = (w', Ok (progress, Ok tt)) →
    files w' = commit fs (files w);
  answer_possible R (c : transaction_call R) w : possible (Event c (answer R c w).2);
}.

(** What a settled receipt leaves. *)
Definition leaves (receipt : WorkspaceChangeSetReceipt) (c0 : contents) : contents :=
  if decide (rc_status receipt = ApplyConflicted) then c0
  else commit (transactionFiles receipt) c0.

Section atomic.
Context (sha256Text : string → string) (localeCompare : string → string → Z).
Context {W : Type} (files : W → contents)
  `{!WorkspaceReader W, !WorkspaceEnvironment W, !WorkspaceFiles W files}.
Context (plan : stM W workspace_error WorkspaceChangeSetReceipt) (signal : bool).
Context (plan_keeps : ∀ w, files (plan w).1 = files w).
Local Abbreviation env := (transaction_env plan signal).

Definition planned (c0 : contents) (receipt : WorkspaceChangeSetReceipt) : Prop :=
  ∃ w, files w = c0 ∧ (plan w).2 = Ok receipt.

Lemma env_possible R (c : transaction_call R) w : possible (Event c (env R c w).2).
Proof.
  destruct c; try apply answer_possible; try done.
  unfold transaction_env. destruct signal; [apply answer_possible|done].
Qed.

Lemma env_files R (c : transaction_call R) w :
  writes c = false → files (env R c w).1 = files w.
Proof.
  intros Hc. destruct c; try done; try (by apply files_answer); simpl.
  - unfold thrown_message. by rewrite (readText_snapshot path w).
  - destruct signal; [by apply files_answer|done].
Qed.

(** The files of a transaction that was claimed over [c0]. *)
Definition holds (c0 : contents) (m : monitor) (w : W) : Prop :=
  mo_execution m = true ∧ (mo_touched m = false → files w = c0) ∧
  match mo_stage m with
  | Claimed => mo_touched m = false
  | Drafted r => mo_touched m = false ∧ planned c0 r
  | Planned r | Prepared r | Marked r =>
      mo_touched m = false ∧ planned c0 r ∧ rc_status r ≠ ApplyConflicted
  | Committing r => planned c0 r ∧ rc_status r ≠ ApplyConflicted
  | Committed r => planned c0 r ∧ rc_status r ≠ ApplyConflicted ∧ files w = leaves r c0
  | Settled (OutcomeApplied _ r | OutcomeConflicted _ r) => planned c0 r ∧ files w = leaves r c0
  | Settled _ => True
  | _ => False
  end.

Lemma holds_files c0 m w w' : files w' = files w → holds c0 m w → holds c0 m w'.
Proof. unfold holds. by intros ->. Qed.

Lemma leaves_nothing r c0 : plans_nothing r = true → leaves r c0 = c0.
Proof.
  unfold plans_nothing, leaves. intros [_ Hr%bool_decide_eq_true]%andb_true_iff.
  case_decide; [done|]. by rewrite Hr.
Qed.

Lemma leaves_conflicted r c0 : rc_status r = ApplyConflicted → leaves r c0 = c0.
Proof. intros Hr. unfold leaves. by rewrite decide_True. Qed.

Ltac split_bool :=
  repeat match goal with
  | H : _ && _ = true |- _ => apply andb_true_iff in H as [? ?]
  | H : bool_decide _ = true |- _ => apply bool_decide_eq_true in H
  | H : negb _ = true |- _ => apply negb_true_iff in H
  end.

(** A settlement. *)
Lemma finalize_holds c0 identity outcome m w :
  holds c0 m w → allowed m (Finalize identity outcome) = true →
  holds c0 (with_attempted (with_stage (Settled outcome) m)) w.
Proof.
  intros (He & Ht & Hst) Ha. simpl in Ha. split_bool. split; [done|]. split; [done|].
  simpl. unfold may_finalize in *.
  destruct outcome, (mo_stage m); try done; split_bool; subst; destruct_and?; split; try done.
  - rewrite leaves_nothing by done. auto.
  - rewrite leaves_conflicted by done. auto.
Qed.

(** What a plan answers is planned for the files as they are. *)
Definition plans {R} (c : transaction_call R) : result workspace_error R → contents → Prop :=
  match c in transaction_call R return result workspace_error R → contents → Prop with
  | Plan => fun r c0 => ∀ receipt, r = Ok receipt → planned c0 receipt
  | _ => fun _ _ => True
  end.

Lemma env_plans R (c : transaction_call R) w : plans c (env R c w).2 (files w).
Proof. destruct c; try done. intros receipt Hr. by exists w. Qed.

Ltac advance_stage m r :=
  match goal with
  | Hm : holds _ _ _, Ha : allowed _ _ = true |- _ =>
      let E := fresh "E" in
      destruct Hm as (? & ? & ?); simpl in *;
      destruct (mo_stage m) eqn:E; try done; split_bool; destruct r as [?|?];
      unfold holds; simpl; rewrite ?E; naive_solver
  end.

Lemma advance_holds c0 R (c : transaction_call R) r m w :
  holds c0 m w → allowed m c = true → writes c = false → plans c r (files w) →
  holds c0 (advance m c r) w.
Proof.
  intros Hm Ha Hw Hplan. destruct c; try done; try exact Hm.
  1, 2: destruct Hm as (He & _); simpl in Ha; rewrite He in Ha; by split_bool.
  6: { destruct r; [by eapply finalize_holds|exact Hm]. }
  all: advance_stage m r.
Qed.

Lemma commit_holds c0 fs ordinals r m w w' :
  holds c0 m w → allowed m (HelperCommit fs ordinals) = true →
  env _ (HelperCommit fs ordinals) w = (w', r) →
  holds c0 (advance m (HelperCommit fs ordinals) r) w'.
Proof.
  intros (He & Ht & Hst) Ha Hr. simpl in Ha. split_bool. subst ordinals.
  destruct (mo_stage m) eqn:E; try done. split_bool. subst fs. destruct Hst as [Hp Hs].
  assert (holds c0 (with_touched m) w') as Hm.
  { split; [done|]. split; [done|]. simpl. by rewrite E. }
  destruct r as [[progress [[]|e]]|e]; try exact Hm.
  split; [done|]. split; [done|]. simpl. rewrite E. split; [done|]. split; [done|].
  apply files_commit in Hr. rewrite Hr, Ht by done. unfold leaves. by rewrite decide_False.
Qed.

Lemma holds_step c0 R (c : transaction_call R) m w m' :
  holds c0 m w → monitor_step m (Event c (env R c w).2) = Some m' →
  holds c0 m' (env R c w).1.
Proof.
  intros Hm Hstep. unfold monitor_step in Hstep.
  destruct (allowed m c) eqn:Ha; [|done]. injection Hstep as <-.
  destruct (writes c) eqn:Hw.
  - destruct c; try done. eapply commit_holds; [done..|]. apply surjective_pairing.
  - apply (holds_files _ _ w); [by apply env_files|].
    apply advance_holds; [done..|apply env_plans].
Qed.

(** How a claimed transaction leaves the files. *)
Inductive settled_files (c0 : contents) (o : result workspace_error ExecuteWorkspaceTransactionResult)
    (c : contents) : Prop :=
| settled_done receipt :
    planned c0 receipt → c = leaves receipt c0 →
    match o with Ok result => er_receipt result = receipt | Throw e => e = CleanupRequired end →
    settled_files c0 o c
| settled_unchanged e : o = Throw e → c = c0 → settled_files c0 o c
| settled_recovery id f : o = Throw (RecoveryRequired id f) → settled_files c0 o c.

Lemma execute_claim_atomic request identity claim w w' o :
  tc_status claim = TransactionClaimed →
  interp env (execute_claim sha256Text request identity claim) w = (w', o) →
  settled_files (files w) o (files w').
Proof.
  intros Hclaim Hrun. apply interp_trace in Hrun as (t & Ht & Ha).
  pose proof (execute_claim_wp sha256Text request identity claim) as Hwp.
  eapply wp_trace in Hwp as (m & Hm & _ & Hpost);
    [|exact Ht|by eapply answers_forall; [apply env_possible|]].
  assert (holds (files w) m w') as (He & Hsame & Hst).
  { eapply (judge_answers env monitor_step (holds (files w))); [|..|exact Ha|exact Hm].
    - intros R c s v s1. apply holds_step.
    - unfold begun. rewrite Hclaim. done. }
  specialize (Hpost He). destruct o as [result|e]; simpl in Hpost.
  - destruct Hpost as (operationId & [Hs|[Hs _]]); rewrite Hs in Hst; destruct Hst as [Hp Hc];
      by econstructor 1.
  - destruct (mo_touched m) eqn:Htouched.
    2: { econstructor 2; [done|]. by apply Hsame. }
    assert ((∃ id f, e = RecoveryRequired id f) ∨
      e = CleanupRequired ∧ ∃ r, planned (files w) r ∧ files w' = leaves r (files w))
      as [(id & f & ->)|(-> & r & Hp & Hc)].
    { destruct (mo_stage m) as [| | | | | | | | | | | | |outcome]; try by destruct_and?.
      1, 2: by left; destruct Hpost as [Hr _]; destruct (Hr eq_refl) as [id ->]; eexists _, _.
      destruct outcome; [right; eauto..|done|].
      destruct Hpost as (id & f & ->). eauto. }
    + by apply (settled_recovery _ _ _ id f).
    + by apply (settled_done _ _ _ r).
Qed.

(** A transaction that was not claimed commits nothing. *)
Definition quiet_step (_ : unit) (e : tevent) : option unit :=
  match e with Event c _ => if writes c then None else Some tt end.

Lemma quiet_await {R} (c : transaction_call R) (Q : result workspace_error R → unit → Prop) :
  writes c = false → (∀ r, Q r tt) → wp quiet_step possible (await c) Q tt.
Proof.
  intros Hc HQ r _. exists tt. simpl. rewrite Hc. split; [done|]. specialize (HQ r). by destruct r.
Qed.

Ltac quiet :=
  repeat first
    [ done
    | apply wp_bind | apply wp_try_catch | apply wp_try_finally
    | apply quiet_await; [done|intros [?|?]] | case_match ].

Lemma execute_claim_quiet request identity claim :
  tc_status claim ≠ TransactionClaimed →
  wp quiet_step possible (execute_claim sha256Text request identity claim) (fun _ _ => True) tt.
Proof.
  intros Hclaim. unfold execute_claim, cleanupTerminalArtifacts, cleanupCommittedArtifacts,
    replayTerminalTransaction.
  destruct (tc_status claim); [done| | |]; quiet.
Qed.

Lemma quiet_files w t w' :
  answers env w t w' → judge quiet_step tt t = Some tt → files w' = files w.
Proof.
  intros Ha Hq. refine (judge_answers env quiet_step (fun _ v => files v = files w) t w w' tt tt
    _ eq_refl Ha Hq).
  intros R c [] v [] Hv Hs. simpl in Hs. destruct (writes c) eqn:Hw; [done|].
  by rewrite env_files.
Qed.

Lemma execute_claim_unclaimed request identity claim w w' o :
  tc_status claim ≠ TransactionClaimed →
  interp env (execute_claim sha256Text request identity claim) w = (w', o) →
  files w' = files w.
Proof.
  intros Hclaim Hrun. apply interp_trace in Hrun as (t & Ht & Ha).
  pose proof (execute_claim_quiet request identity claim Hclaim) as Hwp.
  eapply wp_trace in Hwp as ([] & Hq & _);
    [by eapply quiet_files|exact Ht|by eapply answers_forall; [apply env_possible|]].
Qed.

(** Whatever the claim says; [w0] is the state in which the store answered it. *)
Lemma run_transaction_atomic this request w w' identity claim w0 o :
  interp env (claim_transaction sha256Text localeCompare (ws_transactionLeaseMs this) request) w =
    (w0, Ok (identity, claim)) →
  run_transaction sha256Text localeCompare this request plan signal w = (w', o) →
  if decide (tc_status claim = TransactionClaimed) then settled_files (files w0) o (files w')
  else files w' = files w0.
Proof.
  intros Hclaimed. unfold run_transaction, execute. rewrite interp_bind, Hclaimed. simpl.
  case_decide; [by apply execute_claim_atomic|by apply execute_claim_unclaimed].
Qed.
End atomic.

Section theorems.
Context (sha256Text : string → string) (localeCompare : string → string → Z).
Context {W : Type} (files : W → contents)
  `{!WorkspaceReader W, !WorkspaceEnvironment W, !WorkspaceFiles W files}.
Context (this : WorkspaceRuntime).

(** The store answers the claim of an application in [w0]. *)
Definition apply_begins (request : ApplyWorkspaceChangeSetRequest)
    (changeSet : WorkspaceChangeSetRecord) (status : WorkspaceChangeTransactionClaimStatus)
    (w w0 : W) : Prop :=
  ∃ w1 identity claim,
    putWorkspaceChangeSet (put_request this request) w = (w1, Ok changeSet) ∧
    interp (transaction_env (thrown_message (planChangeSetApply sha256Text (sr_changeSet changeSet)))
        (wq_signal request))
      (claim_transaction sha256Text localeCompare (ws_transactionLeaseMs this)
        (apply_request request changeSet)) w1 = (w0, Ok (identity, claim)) ∧
    tc_status claim = status.

(** The store answers the claim of the undo of [operation] in [w0]. *)
Definition undo_begins (request : WorkspaceChangeSetIdRequest)
    (operation : WorkspaceChangeOperationRecord) (status : WorkspaceChangeTransactionClaimStatus)
    (w w0 : W) : Prop :=
  ∃ w1 changeSet w2 identity claim,
    require_change_set (uq_changeSetId request) w = (w1, Ok changeSet) ∧
    undo_source (uq_changeSetId request) w1 = (w2, Ok operation) ∧
    interp (transaction_env (thrown_message (planChangeSetUndo sha256Text (op_receipt operation)))
        (uq_signal request))
      (claim_transaction sha256Text localeCompare (ws_transactionLeaseMs this)
        (undo_request request changeSet operation)) w2 = (w0, Ok (identity, claim)) ∧
    tc_status claim = status.

Lemma apply_plan_keeps changeSet w :
  files (thrown_message (planChangeSetApply sha256Text changeSet) w).1 = files w.
Proof.
  unfold thrown_message. destruct (validateChangeSet changeSet) as [u|e] eqn:Hv.
  - by destruct (planChangeSetApply_run sha256Text files changeSet w u Hv) as (r & -> & _).
  - unfold planChangeSetApply, mbind, stM_bind, liftM. by rewrite Hv.
Qed.

Lemma thrown_ok {A} (m : stM W string A) w a :
  (thrown_message m w).2 = Ok a → m w = ((m w).1, Ok a).
Proof. unfold thrown_message. destruct (m w) as [w' [b|e]]; simpl; congruence. Qed.

Lemma planned_apply changeSet c0 r :
  planned files (thrown_message (planChangeSetApply sha256Text changeSet)) c0 r →
  valid_changes changeSet ∧ ∃ w, files w = c0 ∧
  planChangeSetApply sha256Text changeSet w = (w, Ok r) ∧ apply_receipt sha256Text files changeSet w r.
Proof.
  intros (w & Hw & Hr%thrown_ok).
  pose proof (planChangeSetApply_ok sha256Text files _ _ _ _ Hr) as (Hsame & Hv & Hshape).
  rewrite Hsame in Hr. eauto 10.
Qed.

(** What a change set makes of the files. *)
Definition made (changes : list WorkspaceFileChange) (c0 : contents) : contents :=
  if forallb (fun c => bool_decide (admits sha256Text (c0 !! fc_path c) c)) changes
  then put_targets changes c0 else c0.

Lemma applied_leaves changeSet c0 r :
  planned files (thrown_message (planChangeSetApply sha256Text changeSet)) c0 r →
  leaves r c0 = made (cs_changes changeSet) c0.
Proof.
  intros (Hv & w & <- & _ & Hr)%planned_apply.
  destruct (apply_receipt_spec sha256Text files changeSet w r Hv Hr) as (_ & Hconflict & _ & Hc & _).
  unfold leaves, made. rewrite Hc.
  destruct (forallb _ _) eqn:Hall.
  - rewrite <-Is_true_true, forallb_True, Forall_forall in Hall.
    rewrite !decide_False; [done|..]; intros (c & Hin & Hn)%Hconflict;
      by specialize (Hall c Hin); apply bool_decide_unpack in Hall.
  - case_decide as Hs; [done|]. exfalso. apply not_true_iff_false in Hall. apply Hall.
    rewrite <-Is_true_true, forallb_True, Forall_forall. intros c Hin. apply bool_decide_pack.
    apply dec_stable. intros Hn. apply Hs, Hconflict. eauto.
Qed.

Lemma latest_result_files changeSet executed id w w' o :
  latest_result changeSet executed id w = (w', o) →
  files w' = files w ∧ ∀ result, o = Ok result → ap_receipt result = er_receipt executed.
Proof.
  unfold latest_result, mbind, stM_bind, mret, stM_ret. intros Hrun.
  pose proof (files_answer (files := files) _ (GetChangeSet id) w eq_refl) as Hf.
  destruct (answer _ (GetChangeSet id) w) as [w1 [latest|e]]; simplify_eq; simpl in Hf;
    (split; [done|]); intros result [=]; by subst.
Qed.

(** What an application leaves: the outcome of its transaction. *)
Lemma apply_outcome request changeSet status w w0 w' o :
  apply_begins request changeSet status w w0 →
  applyChangeSet sha256Text localeCompare this request w = (w', o) →
  if decide (status = TransactionClaimed) then
    (∃ receipt,
      planned files (thrown_message (planChangeSetApply sha256Text (sr_changeSet changeSet)))
        (files w0) receipt ∧
      files w' = leaves receipt (files w0) ∧
      ∀ result, o = Ok result → ap_receipt result = receipt) ∨
    ∃ e, o = Throw e ∧ (files w' = files w0 ∨ ∃ id f, e = RecoveryRequired id f)
  else files w' = files w0.
Proof.
  intros (w1 & identity & claim & Hput & Hclaim & <-) Hrun.
  unfold applyChangeSet, mbind, stM_bind in Hrun. rewrite Hput in Hrun.
  destruct (run_transaction _ _ _ _ _ _ w1) as [w2 o2] eqn:Hexec.
  pose proof (run_transaction_atomic sha256Text localeCompare files _ _
    (apply_plan_keeps (sr_changeSet changeSet)) _ _ _ _ _ _ _ _ Hclaim Hexec) as Hatomic.
  destruct o2 as [executed|e].
  - apply latest_result_files in Hrun as [Hf Hreceipt]. rewrite Hf. case_decide; [|done].
    inversion Hatomic as [receipt Hp Hc Hr|e [=]|id f [=]]. simpl in Hr. subst receipt.
    left. eauto.
  - injection Hrun as <- <-. case_decide; [|done].
    inversion Hatomic as [receipt Hp Hc Hr|e' He Hc|id f [= ->]]; [left|right|right]; eauto 10.
    exists receipt. by repeat split.
Qed.

Lemma apply_leaves request changeSet w w0 w' applied :
  apply_begins request changeSet TransactionClaimed w w0 →
  applyChangeSet sha256Text localeCompare this request w = (w', Ok applied) →
  planned files (thrown_message (planChangeSetApply sha256Text (sr_changeSet changeSet)))
    (files w0) (ap_receipt applied) ∧
  files w' = leaves (ap_receipt applied) (files w0).
Proof.
  intros Hbegins Hrun. pose proof (apply_outcome _ _ _ _ _ _ _ Hbegins Hrun) as Ho.
  rewrite decide_True in Ho by done.
  destruct Ho as [(r & Hp & Hc & Hr)|(e & [=] & _)]. by rewrite (Hr applied).
Qed.

(** Applying a change set is atomic.  Let [c0] be the files when the store answers the
    claim.  If the transaction was claimed, a result means that every change was made and
    nothing else, or that the files are as they were because the receipt is conflicted,
    which is so exactly when some path does not admit its change; an exception leaves the
    files as they were, or all changed, unless it asks for recovery.  If the transaction
    was not claimed, because it was executed before, say, nothing is written (C27). *)
Theorem applyChangeSet_atomic request changeSet status w w0 w' o :
  apply_begins request changeSet status w w0 →
  applyChangeSet sha256Text localeCompare this request w = (w', o) →
  let c0 := files w0 in
  let changes := cs_changes (sr_changeSet changeSet) in
  if decide (status = TransactionClaimed) then
    match o with
    | Ok result =>
        files w' = made changes c0 ∧
        (rc_status (ap_receipt result) = ApplyConflicted ↔
          ∃ c, c ∈ changes ∧ ¬ admits sha256Text (c0 !! fc_path c) c)
    | Throw e => files w' = c0 ∨ files w' = made changes c0 ∨ ∃ id f, e = RecoveryRequired id f
    end
  else files w' = c0.
Proof.
  intros Hbegins Hrun c0 changes. pose proof (apply_outcome _ _ _ _ _ _ _ Hbegins Hrun) as Ho.
  case_decide; [|done]. destruct Ho as [(r & Hp & Hc & Hr)|(e & -> & He)]; [|tauto].
  rewrite (applied_leaves (sr_changeSet changeSet)) in Hc by done.
  destruct o as [result|e]; [|auto]. split; [done|]. rewrite (Hr result) by done.
  destruct (planned_apply _ _ _ Hp) as (Hv & w3 & Hw3 & _ & Hshape).
  unfold c0. rewrite <-Hw3.
  by apply (apply_receipt_spec sha256Text files (sr_changeSet changeSet) w3 r Hv Hshape).
Qed.

Lemma undo_plan_keeps source w : files (thrown_message (planChangeSetUndo sha256Text source) w).1 = files w.
Proof.
  unfold thrown_message. destruct (decide (rc_status source = ApplyConflicted)) as [Hs|Hs].
  - unfold planChangeSetUndo, mbind, stM_bind, guardM. by rewrite bool_decide_true.
  - by destruct (planChangeSetUndo_run sha256Text files source w Hs) as (cs & _ & ->).
Qed.

(** The files after an undo that returned. *)
Lemma undo_leaves request operation w w0 w' undone :
  undo_begins request operation TransactionClaimed w w0 →
  undoChangeSet sha256Text localeCompare this request w = (w', Ok undone) →
  planned files (thrown_message (planChangeSetUndo sha256Text (op_receipt operation))) (files w0)
    (ap_receipt undone) ∧
  files w' = leaves (ap_receipt undone) (files w0).
Proof.
  intros (w1 & changeSet & w2 & identity & claim & Hset & Hsource & Hclaim & Hs) Hrun.
  unfold undoChangeSet, mbind, stM_bind in Hrun. rewrite Hset, Hsource in Hrun.
  destruct (run_transaction _ _ _ _ _ _ w2) as [w3 o3] eqn:Hexec.
  pose proof (run_transaction_atomic sha256Text localeCompare files _ _
    (undo_plan_keeps (op_receipt operation)) _ _ _ _ _ _ _ _ Hclaim Hexec) as Hatomic.
  destruct o3 as [executed|e]; [|done]. rewrite decide_True in Hatomic by done.
  apply latest_result_files in Hrun as [Hf Hreceipt]. rewrite Hf, (Hreceipt undone) by done.
  inversion Hatomic as [receipt Hp Hc Hr|e [=]|id f [=]]. simpl in Hr. by subst.
Qed.

(** Undoing an application puts everything back: when a change set was applied, and the
    undo starts from the operation of that application, over the files it left, then an
    undo that returns is applied, not conflicted, and the files are those the application
    found (C28). *)
Theorem undoChangeSet_restores request changeSet w w0 w1 applied undo operation w2 w3 w4 undone :
  apply_begins request changeSet TransactionClaimed w w0 →
  applyChangeSet sha256Text localeCompare this request w = (w1, Ok applied) →
  rc_status (ap_receipt applied) ≠ ApplyConflicted →
  op_receipt operation = ap_receipt applied →
  undo_begins undo operation TransactionClaimed w2 w3 → files w3 = files w1 →
  undoChangeSet sha256Text localeCompare this undo w2 = (w4, Ok undone) →
  rc_status (ap_receipt undone) = ApplyApplied ∧ files w4 = files w0.
Proof.
  intros Hbegins Hrun Hstatus Hop Hundo Hsame Hundone.
  destruct (apply_leaves _ _ _ _ _ _ Hbegins Hrun) as [Hp Hleft].
  destruct (undo_leaves _ _ _ _ _ _ Hundo Hundone) as [(w5 & Hw5 & Hundid%thrown_ok) Hleft'].
  destruct (planned_apply _ _ _ Hp) as (_ & w6 & Hw6 & Hplan & _).
  unfold leaves in Hleft. rewrite decide_False in Hleft by done.
  destruct (undo_right_after sha256Text files _ w6 _ w5 Hplan Hstatus) as (r & Hr & Hrs & Hrc).
  { by rewrite Hw5, Hsame, Hleft, Hw6. }
  rewrite Hop, Hr in Hundid. injection Hundid as Hr'. subst r. split; [done|].
  rewrite Hleft'. unfold leaves. rewrite decide_False by (by rewrite Hrs).
  by rewrite <-Hw5, Hrc.
Qed.
End theorems.

(** * Examples *)

(** A workspace with a store in memory and a helper that does as it is told. *)
Record sample_state := {
  ss_files : contents;
  ss_set : option WorkspaceChangeSetRecord;
  ss_kind : WorkspaceChangeOperationKind;
  ss_operations : list WorkspaceChangeOperationRecord;
}.

#[export] Instance sample_reader : WorkspaceReader sample_state := {|
  readText path s := (s, Ok (ss_files s !! path)) |}.

Definition sample_record (request : PutWorkspaceChangeSetRequest) : WorkspaceChangeSetRecord := {|
  sr_id := cs_id (pc_changeSet request); sr_workspaceId := pc_workspaceId request;
  sr_principalId := pc_principalId request; sr_title := None; sr_baseRevision := None;
  sr_changeSet := pc_changeSet request; sr_currentState := SetSubmitted;
  sr_createdAt := num_of_Z 1; sr_updatedAt := num_of_Z 1 |}.

Definition settled_operation kind id (receipt : WorkspaceChangeSetReceipt)
    : WorkspaceChangeOperationRecord := {|
  op_id := id; op_changeSetId := rc_changeSetId receipt; op_operation := kind;
  op_status := rc_status receipt; op_receipt := receipt; op_createdAt := num_of_Z 2 |}.

Definition sample_finalize (s : sample_state) identity (outcome : finalize_outcome)
    : sample_state * result workspace_error WorkspaceChangeTransactionFinalization :=
  let finalization operation := {|
    fz_snapshot := sample_snapshot (ti_transactionId identity) []; fz_operation := operation;
    fz_proposal := None; fz_proposalAttempt := None |} in
  match outcome with
  | OutcomeApplied id receipt | OutcomeConflicted id receipt =>
      let operation := settled_operation (ss_kind s) id receipt in
      ({| ss_files := ss_files s; ss_set := ss_set s; ss_kind := ss_kind s;
          ss_operations := ss_operations s ++ [operation] |}, Ok (finalization (Some operation)))
  | _ => (s, Ok (finalization None))
  end.

Definition sample_answer R (c : transaction_call R) : stM sample_state workspace_error R := fun s =>
  match c in transaction_call R return sample_state * result workspace_error R with
  | BeginTransaction request => ({|
      ss_files := ss_files s; ss_set := ss_set s;
      ss_kind := match bt_operation request with
        | TransactionApply => OperationApply | TransactionUndo => OperationUndo end;
      ss_operations := ss_operations s |}, Ok {|
      tc_status := TransactionClaimed; tc_snapshot := sample_snapshot (bt_id request) [] |})
  | ListTransactions _ _ _ => (s, Ok [])
  | ListOperations _ => (s, Ok (ss_operations s))
  | GetChangeSet _ => (s, Ok (ss_set s))
  | Finalize identity outcome => sample_finalize s identity outcome
  | HelperCommit files ordinals => ({|
      ss_files := commit files (ss_files s); ss_set := ss_set s; ss_kind := ss_kind s;
      ss_operations := ss_operations s |}, Ok (ordinals, Ok tt))
  | c => (s, (sample_env _ c 0).2)
  end.

#[export] Instance sample_environment : WorkspaceEnvironment sample_state := {|
  putWorkspaceChangeSet request s := ({|
    ss_files := ss_files s; ss_set := Some (sample_record request); ss_kind := ss_kind s;
    ss_operations := ss_operations s |}, Ok (sample_record request));
  listWorkspaceChangeSets _ s := (s, Ok (option_list (ss_set s)));
  answer := sample_answer |}.

#[export] Instance sample_workspace : WorkspaceFiles sample_state ss_files.
Proof.
  split.
  - by intros path s.
  - done.
  - intros R c s Hc. destruct c as [| | | | | | | |identity outcome| | | | | | | | | | | | | | | |];
      try done. by destruct outcome.
  - intros fs s s' progress. by intros [= <- _].
  - intros R c s. by destruct c.
Qed.

Definition sample_runtime : WorkspaceRuntime := {|
  ws_workspaceId := "local"; ws_transactionLeaseMs := num_of_Z 30000;
  ws_principalId := "workspace" |}.

Definition sample_apply : ApplyWorkspaceChangeSetRequest := {|
  wq_changeSet := sample_set; wq_workspaceId := None; wq_principalId := None;
  wq_mutation := DirectMutation SourceHost "src" "k1" "host"; wq_signal := false |}.

Definition sample_undo : WorkspaceChangeSetIdRequest := {|
  uq_changeSetId := "cs"; uq_mutation := DirectMutation SourceHost "src" "k2" "host";
  uq_signal := false |}.

Definition sample_start : sample_state := {|
  ss_files := sample_files; ss_set := None; ss_kind := OperationApply; ss_operations := [] |}.

Definition sample_applied : sample_state * result workspace_error ApplyWorkspaceChangeSetResult :=
  applyChangeSet tagged sample_order sample_runtime sample_apply sample_start.

Definition sample_undone : sample_state * result workspace_error ApplyWorkspaceChangeSetResult :=
  undoChangeSet tagged sample_order sample_runtime sample_undo sample_applied.1.

(** The files of the change set change, and come back. *)
Example sample_changed :
  map_to_list (ss_files sample_applied.1) = map_to_list (put_targets (cs_changes sample_set) sample_files) ∧
  ss_files sample_undone.1 = sample_files ∧ is_ok sample_undone.2 = true.
Proof. vm_compute. done. Qed.

Definition sample_record_set : WorkspaceChangeSetRecord :=
  sample_record (put_request sample_runtime sample_apply).

Definition sample_put : sample_state := (putWorkspaceChangeSet (put_request sample_runtime sample_apply) sample_start).1.

(** The claims of the two transactions. *)
Definition sample_apply_claim :=
  interp (transaction_env (thrown_message (planChangeSetApply tagged sample_set)) false)
    (claim_transaction tagged sample_order (num_of_Z 30000)
      (apply_request sample_apply sample_record_set)) sample_put.

Definition sample_undo_operation : WorkspaceChangeOperationRecord :=
  default (settled_operation OperationUndo "" sample_receipt) (last (ss_operations sample_applied.1)).

Definition sample_undo_claim :=
  interp (transaction_env (thrown_message (planChangeSetUndo tagged (op_receipt sample_undo_operation))) false)
    (claim_transaction tagged sample_order (num_of_Z 30000)
      (undo_request sample_undo sample_record_set sample_undo_operation)) sample_applied.1.

Lemma sample_apply_begins :
  apply_begins tagged sample_order sample_runtime sample_apply sample_record_set
    TransactionClaimed sample_start sample_apply_claim.1.
Proof.
  exists sample_put. eexists _, _. split; [reflexivity|]. split; [vm_compute; reflexivity|reflexivity].
Qed.

Lemma sample_undo_begins :
  undo_begins tagged sample_order sample_runtime sample_undo sample_undo_operation
    TransactionClaimed sample_applied.1 sample_undo_claim.1.
Proof.
  exists sample_applied.1, sample_record_set, sample_applied.1. eexists _, _.
  split; [vm_compute; reflexivity|]. split; [vm_compute; reflexivity|].
  split; [vm_compute; reflexivity|reflexivity].
Qed.

Definition sample_result (r : result workspace_error ApplyWorkspaceChangeSetResult)
    : ApplyWorkspaceChangeSetResult :=
  match r with
  | Ok result => result
  | Throw _ => {|
      ap_changeSet := sample_record_set; ap_operation := sample_undo_operation;
      ap_receipt := sample_receipt; ap_transaction := {|
        fz_snapshot := sample_snapshot "" []; fz_operation := None; fz_proposal := None;
        fz_proposalAttempt := None |} |}
  end.

Lemma applyChangeSet_atomic_witness :
  ss_files sample_applied.1 = made tagged (cs_changes sample_set) sample_files ∧
  ¬ (∃ c, c ∈ cs_changes sample_set ∧ ¬ admits tagged (sample_files !! fc_path c) c).
Proof.
  pose proof (applyChangeSet_atomic tagged sample_order ss_files sample_runtime sample_apply
    sample_record_set TransactionClaimed sample_start sample_apply_claim.1 sample_applied.1
    (Ok (sample_result sample_applied.2)) sample_apply_begins) as H.
  destruct H as [Hfiles Hstatus]; [vm_compute; reflexivity|].
  split; [exact Hfiles|]. intros Hc. apply Hstatus in Hc. vm_compute in Hc. discriminate.
Defined.

Lemma undoChangeSet_restores_witness :
  rc_status (ap_receipt (sample_result sample_undone.2)) = ApplyApplied ∧
  ss_files sample_undone.1 = sample_files.
Proof.
  apply (undoChangeSet_restores tagged sample_order ss_files sample_runtime sample_apply
    sample_record_set sample_start sample_apply_claim.1 sample_applied.1
    (sample_result sample_applied.2) sample_undo sample_undo_operation sample_applied.1
    sample_undo_claim.1 sample_undone.1 (sample_result sample_undone.2) sample_apply_begins).
  - vm_compute. reflexivity.
  - vm_compute. discriminate.
  - vm_compute. reflexivity.
  - exact sample_undo_begins.
  - vm_compute. reflexivity.
  - vm_compute. reflexivity.
Defined.
