(* ===== verification/ProposalApply.v ===== *)
(** Applying reviewed proposals ([packages/workspace/src/review/apply/*.ts]): the plan of
    a batch with the conflicts between its proposals, the application of one proposal,
    and the application of a batch in its planned order. *)
From S2P Require Import Prelude JsMap Json Protocol BatchOrder Program WorkspaceProtocol Changeset WorkspaceTransaction WorkspaceRuntime.

(** * Types ([types.ts]) *)

Record ApplyProposalRequest := {
  aq_proposalId : string;
  aq_actorId : option string;
  aq_metadata : option json;
}.

Inductive ApplyProposalStatus :=
| StatusApplied | StatusApplyFailed | StatusBusy | StatusRecoveryRequired
| StatusNotReady | StatusAlreadyTerminal.

#[export] Instance ApplyProposalStatus_eq_dec : EqDecision ApplyProposalStatus.
Proof. solve_decision. Defined.

Record ApplyProposalResult := {
  ar_status : ApplyProposalStatus;
  ar_proposal : WorkspaceChangeProposalRecord;
  ar_changeSet : WorkspaceChangeSetRecord;
  ar_workspaceOperation : option WorkspaceChangeOperationRecord;
  ar_applyAttempt : option WorkspaceChangeProposalApplyAttemptRecord;
  ar_applyResult : option ApplyWorkspaceChangeSetResult;
  ar_error : option json;
}.

Record ApplyProposalBatchRequest := {
  br_items : list ApplyProposalBatchItem;
  br_actorId : option string;
  br_stopOnFailure : option bool;
  br_metadata : option json;
}.

Inductive ApplyProposalBatchStatus := BatchApplied | BatchPartial | BatchFailed.

#[export] Instance ApplyProposalBatchStatus_eq_dec : EqDecision ApplyProposalBatchStatus.
Proof. solve_decision. Defined.

(** The status of a proposal, or one only a batch gives. *)
Inductive ApplyProposalBatchItemStatus :=
| ItemStatus (status : ApplyProposalStatus) | ItemBlocked | ItemNeedsReview | ItemSkipped.

#[export] Instance ApplyProposalBatchItemStatus_eq_dec :
  EqDecision ApplyProposalBatchItemStatus.
Proof. solve_decision. Defined.

Record ApplyProposalBatchItemResult := {
  ir_proposalId : string;
  ir_status : ApplyProposalBatchItemStatus;
  ir_dependsOn : list string;
  ir_result : option ApplyProposalResult;
  ir_error : option json;
}.

Record ApplyProposalBatchResult := {
  bs_status : ApplyProposalBatchStatus;
  bs_orderedProposalIds : list string;
  bs_results : list ApplyProposalBatchItemResult;
}.

Inductive ApplyProposalPlanItemStatus := PlanReady | PlanQueued | PlanNeedsReview.

#[export] Instance ApplyProposalPlanItemStatus_eq_dec : EqDecision ApplyProposalPlanItemStatus.
Proof. solve_decision. Defined.

Inductive ApplyProposalPlanConflictReason :=
| SamePathWithoutDependency | CreateCreateSamePath | DeleteUpdateSamePath.

#[export] Instance ApplyProposalPlanConflictReason_eq_dec :
  EqDecision ApplyProposalPlanConflictReason.
Proof. solve_decision. Defined.

#[export, refine] Instance ApplyProposalPlanConflictReason_enum :
    StringEnum ApplyProposalPlanConflictReason := {|
  enum_values := [SamePathWithoutDependency; CreateCreateSamePath; DeleteUpdateSamePath];
  enum_name r := match r with
    | SamePathWithoutDependency => "same_path_without_dependency"
    | CreateCreateSamePath => "create_create_same_path"
    | DeleteUpdateSamePath => "delete_update_same_path"
    end%string |}.
Proof. all: solve_enum. Defined.

Record ApplyProposalPlanConflict := {
  pc_path : string;
  pc_reason : ApplyProposalPlanConflictReason;
  pc_conflictingProposalId : string;
  pc_conflictingChangeSetId : string;
}.

Record ApplyProposalPlanItem := {
  pl_proposalId : string;
  pl_changeSetId : string;
  pl_status : ApplyProposalPlanItemStatus;
  pl_dependsOn : list string;
  pl_paths : list string;
  pl_conflicts : list ApplyProposalPlanConflict;
  pl_actorId : option string;
  pl_metadata : option json;
}.

Inductive plan_status := PlanExecutable | PlanReviewNeeded.

#[export] Instance plan_status_eq_dec : EqDecision plan_status.
Proof. solve_decision. Defined.

Record ApplyProposalBatchPlanResult := {
  bp_status : plan_status;
  bp_orderedProposalIds : list string;
  bp_items : list ApplyProposalPlanItem;
}.

(** * Conflicts between the proposals of a batch ([batch-conflicts.ts]) *)

Record LoadedProposalPlanItem := {
  li_item : PlannedBatchItem;
  li_proposal : WorkspaceChangeProposalRecord;
  li_changeSet : WorkspaceChangeSetRecord;
  li_paths : list string;
}.

Definition li_changes (loaded : LoadedProposalPlanItem) : list WorkspaceFileChange :=
  cs_changes (sr_changeSet (li_changeSet loaded)).

Record PathOwner := {
  po_proposalId : string;
  po_changeSetId : string;
  po_kind : WorkspaceFileChangeKind;
}.

Definition classifyPlanConflictReason (previousKind nextKind : WorkspaceFileChangeKind)
    : ApplyProposalPlanConflictReason :=
  match previousKind, nextKind with
  | ChangeCreate, ChangeCreate => CreateCreateSamePath
  | ChangeDelete, ChangeUpdate | ChangeUpdate, ChangeDelete => DeleteUpdateSamePath
  | _, _ => SamePathWithoutDependency
  end.

Definition plan_conflict (change : WorkspaceFileChange) (owner : PathOwner)
    : ApplyProposalPlanConflict := {|
  pc_path := fc_path change;
  pc_reason := classifyPlanConflictReason (po_kind owner) (fc_kind change);
  pc_conflictingProposalId := po_proposalId owner;
  pc_conflictingChangeSetId := po_changeSetId owner |}.

Abbreviation path_owners := (list (string * list PathOwner)).

Definition owners_of (pathOwners : path_owners) (path : string) : list PathOwner :=
  default [] (jget path pathOwners).

(** The conflicts of an item with the owners of its paths. *)
Definition item_conflicts (owners : string → list PathOwner) (loaded : LoadedProposalPlanItem)
    : list ApplyProposalPlanConflict :=
  li_changes loaded ≫= fun change =>
    plan_conflict change <$>
      filter (fun owner => po_proposalId owner ∉ pi_dependsOn (li_item loaded))
        (owners (fc_path change)).

Definition change_owner (loaded : LoadedProposalPlanItem) (change : WorkspaceFileChange)
    : PathOwner := {|
  po_proposalId := pi_proposalId (li_item loaded);
  po_changeSetId := pr_changeSetId (li_proposal loaded);
  po_kind := fc_kind change |}.

Definition add_owner (loaded : LoadedProposalPlanItem) (pathOwners : path_owners)
    (change : WorkspaceFileChange) : path_owners :=
  jset (fc_path change)
    (owners_of pathOwners (fc_path change) ++ [change_owner loaded change]) pathOwners.

Definition planned_item (loaded : LoadedProposalPlanItem)
    (conflicts : list ApplyProposalPlanConflict) : ApplyProposalPlanItem := {|
  pl_proposalId := pi_proposalId (li_item loaded);
  pl_changeSetId := pr_changeSetId (li_proposal loaded);
  pl_status := match conflicts, pi_dependsOn (li_item loaded) with
    | _ :: _, _ => PlanNeedsReview
    | [], _ :: _ => PlanQueued
    | [], [] => PlanReady
    end;
  pl_dependsOn := pi_dependsOn (li_item loaded);
  pl_paths := li_paths loaded;
  pl_conflicts := conflicts;
  pl_actorId := pi_actorId (li_item loaded);
  pl_metadata := pi_metadata (li_item loaded) |}.

(** The body of the loop over the items. *)
Definition classify_item (st : path_owners * list ApplyProposalPlanItem)
    (loaded : LoadedProposalPlanItem) : path_owners * list ApplyProposalPlanItem :=
  let '(pathOwners, planned) := st in
  (foldl (add_owner loaded) pathOwners (li_changes loaded),
   planned ++ [planned_item loaded (item_conflicts (owners_of pathOwners) loaded)]).

Definition needs_review (item : ApplyProposalPlanItem) : bool :=
  bool_decide (pl_status item = PlanNeedsReview).

Definition classifyProposalPlan (items : list LoadedProposalPlanItem)
    : ApplyProposalBatchPlanResult :=
  let planned := (foldl classify_item ([], []) items).2 in {|
    bp_status := if existsb needs_review planned then PlanReviewNeeded else PlanExecutable;
    bp_orderedProposalIds := pl_proposalId <$> planned;
    bp_items := planned |}.

(** * Helpers ([batch-paths.ts], [batch-result.ts], [result-helpers.ts]) *)

(** The default order of [sort]: by code units. *)
Definition compare_units (left right : string) : Z :=
  match String.compare left right with Lt => -1 | Eq => 0 | Gt => 1 end.

Definition uniqueSortedPaths (paths : list string) : list string :=
  js_sort compare_units (js_set paths).

Definition planConflictToJson (conflict : ApplyProposalPlanConflict) : json :=
  JObj [("path", JStr (pc_path conflict)); ("reason", JStr (enum_name (pc_reason conflict)));
    ("conflictingProposalId", JStr (pc_conflictingProposalId conflict));
    ("conflictingChangeSetId", JStr (pc_conflictingChangeSetId conflict))]%string.

Definition review_error (item : ApplyProposalPlanItem) : json :=
  JObj [("type", JStr "proposal_batch.needs_review");
    ("conflicts", JArr (planConflictToJson <$> pl_conflicts item))]%string.

Definition blocked_result (item : ApplyProposalPlanItem) : ApplyProposalBatchItemResult := {|
  ir_proposalId := pl_proposalId item;
  ir_status := if needs_review item then ItemNeedsReview else ItemBlocked;
  ir_dependsOn := pl_dependsOn item;
  ir_result := None;
  ir_error := Some (if needs_review item then review_error item
    else JObj [("type", JStr "proposal_batch.blocked_by_plan_review")]%string) |}.

Definition blockedByPlanResult (plan : ApplyProposalBatchPlanResult)
    : ApplyProposalBatchResult := {|
  bs_status := BatchFailed;
  bs_orderedProposalIds := bp_orderedProposalIds plan;
  bs_results := blocked_result <$> bp_items plan |}.

Definition is_applied (result : ApplyProposalBatchItemResult) : bool :=
  bool_decide (ir_status result = ItemStatus StatusApplied).

Definition summarizeBatchStatus (results : list ApplyProposalBatchItemResult)
    : ApplyProposalBatchStatus :=
  let appliedCount := length (filter (fun r => is_applied r = true) results) in
  if decide (appliedCount = length results) then BatchApplied
  else if decide (0 < appliedCount) then BatchPartial else BatchFailed.

Definition validateApplyProposalRequest (request : ApplyProposalRequest) : result workspace_error unit :=
  _ ← guard_throw (bool_decide (aq_proposalId request = ""))
        (Error "proposal apply proposalId must not be empty");
  guard_throw (bool_decide (aq_actorId request = Some ""))
    (Error "proposal apply actorId must not be empty").

Definition mergeMetadata (left : option json) (right : list (string * option json)) : json :=
  let base := match left with
    | Some (JObj fields) => fields
    | None => []
    | Some value => [("request"%string, value)]
    end in
  JObj (foldl (fun base '(key, value) =>
    match value with Some value => jset key value base | None => base end) base right).

Definition normalizeApplyError (error : workspace_error) : json :=
  let error_json name message := JObj [("type", JStr "workspace.apply_error");
    ("name", JStr name); ("message", JStr message)]%string in
  match error with
  | ErrorThrown name message => error_json name message
  | RecoveryRequired _ _ =>
      error_json "WorkspaceTransactionRecoveryRequiredError"%string
        "workspace transaction requires recovery"%string
  | ValueThrown text => JObj [("type", JStr "workspace.apply_error"); ("message", JStr text)]%string
  end.

Definition opt_field (key : string) (value : option string) : list (string * json) :=
  match value with Some value => [(key, JStr value)] | None => [] end.

Definition toReceiptMetadata (receipt : WorkspaceChangeSetReceipt) : json :=
  JObj [("changeSetId", JStr (rc_changeSetId receipt));
    ("status", JStr (enum_name (rc_status receipt)));
    ("files", JArr ((fun file => JObj (
      [("path", JStr (af_path file)); ("kind", JStr (enum_name (af_kind file)))]
      ++ opt_field "beforeText" (af_beforeText file)
      ++ opt_field "afterText" (af_afterText file)
      ++ opt_field "beforeSha256" (af_beforeSha256 file)
      ++ opt_field "afterSha256" (af_afterSha256 file))) <$> rc_files receipt));
    ("conflicts", JArr ((fun conflict => JObj (
      [("path", JStr (cf_path conflict)); ("reason", JStr (enum_name (cf_reason conflict)))]
      ++ opt_field "currentSha256" (cf_currentSha256 conflict)
      ++ opt_field "expectedSha256" (cf_expectedSha256 conflict)))
      <$> rc_conflicts receipt))]%string.

Definition extractErrorReason (error : json) : string :=
  match error with
  | JObj fields =>
      match jget "message" fields, jget "type" fields with
      | Some (JStr (String c s)), _ => String c s
      | _, Some (JStr (String c s)) => String c s
      | _, _ => "workspace apply failed"
      end
  | _ => "workspace apply failed"
  end%string.

(** * Applying *)

(** [ClaimWorkspaceChangeProposalApplyRequest] *)
Record ClaimApplyRequest := {
  cq_proposalId : string;
  cq_attemptId : string;
  cq_ownerId : string;
  cq_claimToken : string;
  cq_leaseMs : jsnum;
  cq_metadata : option json;
}.

(** The part of [WorkspaceStore] that applying proposals uses. *)
Class ProposalStore (W : Type) := {
  getWorkspaceChangeProposal : string → stM W workspace_error (option WorkspaceChangeProposalRecord);
  getWorkspaceChangeSet : string → stM W workspace_error (option WorkspaceChangeSetRecord);
  claimWorkspaceChangeProposalApply :
    ClaimApplyRequest → stM W workspace_error WorkspaceChangeProposalApplyClaimResult;
}.

(** The part of [WorkspaceRuntime] that applying proposals uses. *)
Class ChangeSetApplier (W : Type) := {
  transactionLeaseMs : jsnum;
  recoverPendingTransactions : string → stM W workspace_error unit;
  applyChangeSet : ApplyWorkspaceChangeSetRequest → stM W workspace_error ApplyWorkspaceChangeSetResult;
}.

(** [createAttemptId] and [createClaimToken] of the runtime's options. *)
Class ApplyIdentifiers (W : Type) := {
  createAttemptId : stM W workspace_error string;
  createClaimToken : stM W workspace_error string;
}.

(** The message of the error that [planProposalBatch] throws. *)
Definition batch_message (e : batch_error) : string :=
  match e with
  | EmptyBatch => "proposal batch items must not be empty"
  | EmptyProposalId => "proposal batch proposalId must not be empty"
  | EmptyActorId => "proposal batch actorId must not be empty"
  | DuplicateItem id => "duplicate proposal batch item: " +:+ id
  | EmptyDependency id => "proposal batch dependency id must not be empty: " +:+ id
  | SelfDependency id => "proposal batch item depends on itself: " +:+ id
  | DuplicateDependency id dep =>
      "duplicate proposal batch dependency: " +:+ id +:+ " -> " +:+ dep
  | DependencyNotFound id dep =>
      "proposal batch dependency not found: " +:+ id +:+ " -> " +:+ dep
  | ItemDisappeared id => "proposal batch item disappeared: " +:+ id
  | DependencyCycle => "proposal batch dependency cycle detected"
  | DrainFuel => ""
  end%string.

Definition with_message {A} (r : result batch_error A) : result workspace_error A :=
  match r with Ok a => Ok a | Throw e => Throw (Error (batch_message e)) end.

Definition claim_status (status : WorkspaceChangeProposalApplyClaimStatus)
    : option ApplyProposalStatus :=
  match status with
  | ClaimClaimed => None
  | ClaimBusy => Some StatusBusy
  | ClaimRecoveryRequired => Some StatusRecoveryRequired
  | ClaimNotReady => Some StatusNotReady
  | ClaimAlreadyTerminal => Some StatusAlreadyTerminal
  end.

Section applying.
Context {W : Type} `{!ProposalStore W, !ChangeSetApplier W, !ApplyIdentifiers W}.
Local Abbreviation M := (stM W workspace_error).

(** ** The repository ([repository.ts]) *)

Definition requireProposal (proposalId : string) : M WorkspaceChangeProposalRecord :=
  proposal ← getWorkspaceChangeProposal proposalId;
  match proposal with
  | None => throwM (Error ("workspace proposal does not exist: " +:+ proposalId))
  | Some proposal => mret proposal
  end.

Definition requireApplyRequestedProposal (proposalId : string)
    : M WorkspaceChangeProposalRecord :=
  proposal ← requireProposal proposalId;
  _ ← guardM (bool_decide (pr_state proposal ≠ ProposalApplyRequested))
        (Error ("workspace proposal is not apply_requested: " +:+ proposalId +:+
          " (" +:+ enum_name (pr_state proposal) +:+ ")"));
  mret proposal.

Definition requireChangeSet (changeSetId : string) : M WorkspaceChangeSetRecord :=
  changeSet ← getWorkspaceChangeSet changeSetId;
  match changeSet with
  | None => throwM (Error ("workspace changeset does not exist: " +:+ changeSetId))
  | Some changeSet => mret changeSet
  end.

(** ** One proposal ([apply-one.ts]) *)

Definition proposal_mutation (claimToken actorId : string)
    (proposal : WorkspaceChangeProposalRecord)
    (attempt : WorkspaceChangeProposalApplyAttemptRecord) : WorkspaceMutationIdentity :=
  ProposalMutation (pr_id proposal) ("proposal-apply:" +:+ aa_id attempt) actorId {|
    pb_proposalId := pr_id proposal;
    pb_proposalAttemptId := aa_id attempt;
    pb_proposalClaimToken := claimToken |}.

(** The application, once it has returned. *)
Definition applied_result (proposal : WorkspaceChangeProposalRecord)
    (applyResult : ApplyWorkspaceChangeSetResult) : ApplyProposalResult :=
  let conflicted := bool_decide (rc_status (ap_receipt applyResult) = ApplyConflicted) in {|
  ar_status := if conflicted then StatusApplyFailed else StatusApplied;
  ar_proposal := default proposal (fz_proposal (ap_transaction applyResult));
  ar_changeSet := ap_changeSet applyResult;
  ar_workspaceOperation := Some (ap_operation applyResult);
  ar_applyAttempt := fz_proposalAttempt (ap_transaction applyResult);
  ar_applyResult := Some applyResult;
  ar_error := if conflicted then Some (JObj [
      ("type", JStr "workspace.apply_conflicted");
      ("receipt", toReceiptMetadata (ap_receipt applyResult))]%string)
    else None |}.

(** From the claim on. *)
Definition apply_claimed (claimToken actorId : string) (changeSet : WorkspaceChangeSetRecord)
    (claim : WorkspaceChangeProposalApplyClaimResult) : M ApplyProposalResult :=
  _ ← guardM (bool_decide (pr_changeSetId (cl_proposal claim) ≠ sr_id changeSet))
        (Error "workspace proposal changeset changed during apply claim");
  match claim_status (cl_status claim) with
  | Some status => mret {|
      ar_status := status; ar_proposal := cl_proposal claim; ar_changeSet := changeSet;
      ar_workspaceOperation := None; ar_applyAttempt := cl_attempt claim;
      ar_applyResult := None; ar_error := None |}
  | None =>
      match cl_attempt claim with
      | None => throwM (Error "claimed workspace proposal apply has no durable attempt")
      | Some attempt =>
          outcome ← attemptM (applyChangeSet {|
            wq_changeSet := sr_changeSet changeSet;
            wq_workspaceId := Some (sr_workspaceId changeSet);
            wq_principalId := Some (sr_principalId changeSet);
            wq_mutation := proposal_mutation claimToken actorId (cl_proposal claim) attempt;
            wq_signal := false |});
          match outcome with
          | Ok applyResult => mret (applied_result (cl_proposal claim) applyResult)
          | Throw (RecoveryRequired transactionId finalization) =>
              proposal ← requireProposal (pr_id (cl_proposal claim));
              mret {|
                ar_status := StatusRecoveryRequired; ar_proposal := proposal;
                ar_changeSet := changeSet; ar_workspaceOperation := None;
                ar_applyAttempt := finalization ≫= fz_proposalAttempt;
                ar_applyResult := None;
                ar_error :=
                  Some (normalizeApplyError (RecoveryRequired transactionId finalization)) |}
          | Throw error => throwM error
          end
      end
  end.

Definition applyProposal (defaultActorId : string) (request : ApplyProposalRequest)
    : M ApplyProposalResult :=
  _ ← liftM (validateApplyProposalRequest request);
  let actorId := default defaultActorId (aq_actorId request) in
  attemptId ← createAttemptId;
  claimToken ← createClaimToken;
  proposal ← requireProposal (aq_proposalId request);
  changeSet ← requireChangeSet (pr_changeSetId proposal);
  _ ← recoverPendingTransactions (sr_workspaceId changeSet);
  claim ← claimWorkspaceChangeProposalApply {|
    cq_proposalId := aq_proposalId request; cq_attemptId := attemptId;
    cq_ownerId := actorId; cq_claimToken := claimToken; cq_leaseMs := transactionLeaseMs;
    cq_metadata := aq_metadata request |};
  apply_claimed claimToken actorId changeSet claim.

(** ** A batch ([apply-batch.ts]) *)

(** The loop that loads the ordered items. *)
Fixpoint load_items (items : list PlannedBatchItem) (loaded : list LoadedProposalPlanItem)
    : M (list LoadedProposalPlanItem) :=
  match items with
  | [] => mret loaded
  | item :: items =>
      proposal ← requireApplyRequestedProposal (pi_proposalId item);
      changeSet ← requireChangeSet (pr_changeSetId proposal);
      load_items items (loaded ++ [{|
        li_item := item; li_proposal := proposal; li_changeSet := changeSet;
        li_paths := uniqueSortedPaths (fc_path <$> cs_changes (sr_changeSet changeSet)) |}])
  end.

Definition planApplyProposalBatch (request : ApplyProposalBatchRequest)
    : M ApplyProposalBatchPlanResult :=
  orderedItems ← liftM (with_message (planProposalBatch (br_items request)));
  items ← load_items orderedItems [];
  mret (classifyProposalPlan items).
End applying.

(** The statuses after which a dependent is not applied. *)
Definition dependency_failed (status : option ApplyProposalBatchItemStatus) : bool :=
  match status with
  | Some (ItemStatus StatusApplied) | None => false
  | Some _ => true
  end.

Section batch.
Context {W : Type}.
Context (planApplyProposalBatch :
  ApplyProposalBatchRequest → stM W workspace_error ApplyProposalBatchPlanResult).
Context (applyProposal : ApplyProposalRequest → stM W workspace_error ApplyProposalResult).
Context (request : ApplyProposalBatchRequest).
Local Abbreviation M := (stM W workspace_error).

Definition stopOnFailure : bool := default true (br_stopOnFailure request).

Definition review_result (planItem : ApplyProposalPlanItem) : ApplyProposalBatchItemResult := {|
  ir_proposalId := pl_proposalId planItem; ir_status := ItemNeedsReview;
  ir_dependsOn := pl_dependsOn planItem; ir_result := None;
  ir_error := Some (review_error planItem) |}.

Definition dependency_result (planItem : ApplyProposalPlanItem) (failedDependency : string)
    : ApplyProposalBatchItemResult := {|
  ir_proposalId := pl_proposalId planItem; ir_status := ItemBlocked;
  ir_dependsOn := pl_dependsOn planItem; ir_result := None;
  ir_error := Some (JObj [("type", JStr "proposal_batch.dependency_failed");
    ("dependencyProposalId", JStr failedDependency)]%string) |}.

Definition item_request (batchIndex : nat) (planItem : ApplyProposalPlanItem)
    : ApplyProposalRequest := {|
  aq_proposalId := pl_proposalId planItem;
  aq_actorId := match pl_actorId planItem with
    | Some actorId => Some actorId | None => br_actorId request end;
  aq_metadata := Some (mergeMetadata (br_metadata request) [
    ("itemMetadata", pl_metadata planItem);
    ("batchIndex", Some (JNum (num_of_Z (Z.of_nat batchIndex))));
    ("dependsOn", Some (JArr (JStr <$> pl_dependsOn planItem)))]%string) |}.

Definition item_result (planItem : ApplyProposalPlanItem) (result : ApplyProposalResult)
    : ApplyProposalBatchItemResult := {|
  ir_proposalId := pl_proposalId planItem; ir_status := ItemStatus (ar_status result);
  ir_dependsOn := pl_dependsOn planItem; ir_result := Some result;
  ir_error := ar_error result |}.

Definition skipped_result (planItem : ApplyProposalPlanItem) : ApplyProposalBatchItemResult := {|
  ir_proposalId := pl_proposalId planItem; ir_status := ItemSkipped;
  ir_dependsOn := pl_dependsOn planItem; ir_result := None;
  ir_error := Some (JObj [("type", JStr "proposal_batch.stopped_after_failure")]%string) |}.

Abbreviation status_map := (list (string * ApplyProposalBatchItemStatus)).

(** [planItem.dependsOn.find(...)] *)
Definition failed_dependency (terminalByProposalId : status_map)
    (planItem : ApplyProposalPlanItem) : option string :=
  List.find (fun dep => dependency_failed (jget dep terminalByProposalId))
    (pl_dependsOn planItem).

(** The loop over the planned items: the results, and whether it was stopped. *)
Fixpoint apply_items (batchIndex : nat) (items : list ApplyProposalPlanItem)
    (results : list ApplyProposalBatchItemResult) (terminalByProposalId : status_map)
    : M (list ApplyProposalBatchItemResult * bool) :=
  match items with
  | [] => mret (results, false)
  | planItem :: items =>
      let continue itemResult := apply_items (S batchIndex) items (results ++ [itemResult])
        (jset (pl_proposalId planItem) (ir_status itemResult) terminalByProposalId) in
      let finish itemResult failed :=
        if failed && stopOnFailure then mret (results ++ [itemResult], true)
        else continue itemResult in
      if needs_review planItem then continue (review_result planItem)
      else match failed_dependency terminalByProposalId planItem with
      | Some failedDependency => finish (dependency_result planItem failedDependency) true
      | None =>
          result ← applyProposal (item_request batchIndex planItem);
          finish (item_result planItem result) (bool_decide (ar_status result ≠ StatusApplied))
      end
  end.

(** The items that were not attempted when the loop was stopped. *)
Definition skipped (items : list ApplyProposalPlanItem)
    (results : list ApplyProposalBatchItemResult) : list ApplyProposalBatchItemResult :=
  skipped_result <$> filter (fun item => pl_proposalId item ∉ ir_proposalId <$> results) items.

Definition applyProposalBatch : M ApplyProposalBatchResult :=
  plan ← planApplyProposalBatch request;
  if bool_decide (bp_status plan = PlanReviewNeeded) && stopOnFailure
  then mret (blockedByPlanResult plan)
  else
    '(results, stopped) ← apply_items 0 (bp_items plan) [] [];
    let results := if (stopped : bool) then results ++ skipped (bp_items plan) results
                   else results in
    mret {| bs_status := summarizeBatchStatus results;
            bs_orderedProposalIds := pl_proposalId <$> bp_items plan;
            bs_results := results |}.
End batch.

(** * [WorkspaceProposalApplyRuntime] ([runtime.ts]) *)

Definition DEFAULT_ACTOR_ID : string := "workspace-review-apply".

Record WorkspaceProposalApplyRuntime (W : Type) := {
  rt_applyProposal : ApplyProposalRequest → stM W workspace_error ApplyProposalResult;
  rt_applyProposalBatch : ApplyProposalBatchRequest → stM W workspace_error ApplyProposalBatchResult;
  rt_planApplyProposalBatch :
    ApplyProposalBatchRequest → stM W workspace_error ApplyProposalBatchPlanResult;
}.
Arguments rt_applyProposal {W}.
Arguments rt_applyProposalBatch {W}.
Arguments rt_planApplyProposalBatch {W}.

Definition new_apply_runtime {W} `{!ProposalStore W, !ChangeSetApplier W, !ApplyIdentifiers W}
    (actorId : option string) : WorkspaceProposalApplyRuntime W :=
  let apply := applyProposal (default DEFAULT_ACTOR_ID actorId) in {|
  rt_applyProposal := apply;
  rt_applyProposalBatch := applyProposalBatch planApplyProposalBatch apply;
  rt_planApplyProposalBatch := planApplyProposalBatch |}.

(** The workspace runtime is what proposals are applied by ([apply-one.ts], line 20). *)
Definition workspace_applier (sha256Text : string → string)
    (localeCompare : string → string → Z) {W} `{!WorkspaceReader W, !WorkspaceEnvironment W}
    (workspace : WorkspaceRuntime) : ChangeSetApplier W := {|
  transactionLeaseMs := ws_transactionLeaseMs workspace;
  recoverPendingTransactions workspaceId :=
    runtime_recoverPendingTransactions sha256Text localeCompare workspace (Some workspaceId);
  applyChangeSet := WorkspaceRuntime.applyChangeSet sha256Text localeCompare workspace |}.

(** * The plan of a batch *)

(** The owners of a path, by definition: the changes of the earlier items to it. *)
Definition earlier_owners (earlier : list LoadedProposalPlanItem) (path : string)
    : list PathOwner :=
  earlier ≫= fun loaded =>
    change_owner loaded <$> filter (fun change => fc_path change = path) (li_changes loaded).

Lemma add_owners_spec loaded changes pathOwners path :
  owners_of (foldl (add_owner loaded) pathOwners changes) path =
  owners_of pathOwners path ++
    (change_owner loaded <$> filter (fun change => fc_path change = path) changes).
Proof.
  revert pathOwners. induction changes as [|change changes IH]; intros pathOwners; simpl.
  { by rewrite app_nil_r. }
  rewrite IH. unfold add_owner, owners_of at 1. rewrite jget_jset.
  destruct (decide (fc_path change = path)) as [<-|Hne].
  - rewrite filter_cons_True by done. simpl. by rewrite <-app_assoc.
  - by rewrite filter_cons_False.
Qed.

Lemma item_conflicts_ext owners owners' loaded :
  (∀ path, owners path = owners' path) → item_conflicts owners loaded = item_conflicts owners' loaded.
Proof.
  intros Ho. unfold item_conflicts. induction (li_changes loaded) as [|change l IH]; [done|].
  simpl. rewrite Ho. f_equal. exact IH.
Qed.

Lemma earlier_owners_snoc earlier loaded path :
  earlier_owners (earlier ++ [loaded]) path = earlier_owners earlier path ++
    (change_owner loaded <$> filter (fun change => fc_path change = path) (li_changes loaded)).
Proof. unfold earlier_owners. by rewrite bind_app, bind_singleton. Qed.

(** The loop keeps the owners of what it has passed, and plans each item against them. *)
Lemma classify_items_spec items :
  let st := foldl classify_item ([], []) items in
  (∀ path, owners_of st.1 path = earlier_owners items path) ∧
  st.2 = imap (fun i loaded =>
    planned_item loaded (item_conflicts (earlier_owners (take i items)) loaded)) items.
Proof.
  induction items as [|loaded items IH] using rev_ind; [done|].
  rewrite foldl_app. simpl in *. destruct (foldl classify_item ([], []) items) as [owners planned].
  simpl in *. destruct IH as [Ho Hp]. split.
  - intros path. by rewrite add_owners_spec, Ho, earlier_owners_snoc.
  - rewrite imap_app, Hp. simpl. f_equal.
    + apply imap_ext. intros i x Hi. simpl. rewrite take_app_le; [done|].
      apply lookup_lt_Some in Hi. lia.
    + rewrite Nat.add_0_r, take_app_length. f_equal. f_equal. by apply item_conflicts_ext.
Qed.

Lemma elem_of_item_conflicts earlier loaded conflict :
  conflict ∈ item_conflicts (earlier_owners earlier) loaded ↔
  ∃ change other change', change ∈ li_changes loaded ∧ other ∈ earlier ∧
    change' ∈ li_changes other ∧ fc_path change' = fc_path change ∧
    pi_proposalId (li_item other) ∉ pi_dependsOn (li_item loaded) ∧
    conflict = plan_conflict change (change_owner other change').
Proof.
  unfold item_conflicts, earlier_owners. rewrite list_elem_of_bind.
  setoid_rewrite list_elem_of_fmap. setoid_rewrite list_elem_of_filter.
  setoid_rewrite list_elem_of_bind. setoid_rewrite list_elem_of_fmap.
  setoid_rewrite list_elem_of_filter. split.
  - intros (change & (owner & -> & Hd & other & (change' & -> & Hp & Hc') & Ho) & Hc).
    exists change, other, change'. done.
  - intros (change & other & change' & Hc & Ho & Hc' & Hp & Hd & ->).
    exists change. split; [|done]. exists (change_owner other change').
    split; [done|]. split; [done|]. exists other. split; [|done]. by exists change'.
Qed.

(** The plan keeps the items in their order.  An item's conflicts are exactly the changes
    of earlier items to one of its paths, unless it depends on the item that makes them;
    an item with a conflict needs review, another waits if it depends on something and is
    ready if not; and the batch can be executed exactly when no item has a conflict
    (C39). *)
Theorem classifyProposalPlan_spec items :
  let plan := classifyProposalPlan items in
  bp_orderedProposalIds plan = (pi_proposalId ∘ li_item) <$> items ∧
  length (bp_items plan) = length items ∧
  (∀ i loaded, items !! i = Some loaded → ∃ item, bp_items plan !! i = Some item ∧
    pl_proposalId item = pi_proposalId (li_item loaded) ∧
    pl_dependsOn item = pi_dependsOn (li_item loaded) ∧
    (∀ conflict, conflict ∈ pl_conflicts item ↔
      ∃ change other change', change ∈ li_changes loaded ∧ other ∈ take i items ∧
        change' ∈ li_changes other ∧ fc_path change' = fc_path change ∧
        pi_proposalId (li_item other) ∉ pi_dependsOn (li_item loaded) ∧
        conflict = plan_conflict change (change_owner other change')) ∧
    (pl_status item = PlanNeedsReview ↔ pl_conflicts item ≠ []) ∧
    (pl_status item = PlanReady ↔ pl_conflicts item = [] ∧ pl_dependsOn item = [])) ∧
  (bp_status plan = PlanExecutable ↔ ∀ item, item ∈ bp_items plan → pl_conflicts item = []).
Proof.
  destruct (classify_items_spec items) as [_ Hp]. simpl in Hp.
  unfold classifyProposalPlan. cbn zeta. cbn [bp_orderedProposalIds bp_items bp_status].
  rewrite Hp. clear Hp. set (planned := imap _ items).
  assert (∀ item, item ∈ planned → pl_status item = PlanNeedsReview ↔ pl_conflicts item ≠ [])
    as Hst.
  { intros item [i Hi]%list_elem_of_lookup. unfold planned in Hi.
    rewrite list_lookup_imap in Hi. destruct (items !! i) as [loaded|]; simplify_eq/=.
    destruct (item_conflicts _ loaded); [|done]. by destruct (pi_dependsOn (li_item loaded)). }
  split; [|split; [|split]].
  - unfold planned. rewrite fmap_imap. exact (imap_const (pi_proposalId ∘ li_item) items).
  - apply length_imap.
  - intros i loaded Hi. unfold planned. rewrite list_lookup_imap, Hi. simpl.
    eexists. split; [done|]. simpl. split; [done|]. split; [done|]. split; [|split].
    + intros conflict. apply elem_of_item_conflicts.
    + destruct (item_conflicts _ loaded); [|done]. by destruct (pi_dependsOn (li_item loaded)).
    + destruct (item_conflicts _ loaded); [|naive_solver].
      destruct (pi_dependsOn (li_item loaded)); naive_solver.
  - split.
    + intros Hex item Hin. destruct (pl_conflicts item) eqn:E; [done|].
      destruct (existsb needs_review planned) eqn:Hr; [done|].
      rewrite <-not_true_iff_false, existsb_exists in Hr. destruct Hr. exists item.
      split; [by apply list_elem_of_In|]. unfold needs_review. apply bool_decide_eq_true.
      apply Hst; [done|]. by rewrite E.
    + intros Hno. destruct (existsb needs_review planned) eqn:Hr; [|done].
      apply existsb_exists in Hr as (item & Hin%list_elem_of_In & Hn).
      unfold needs_review in Hn. apply bool_decide_eq_true in Hn.
      apply Hst in Hn; [|done]. by rewrite Hno in Hn.
Qed.

(** * Applying a batch *)

(** What the plan keeps of the planned items: each once, after those it depends on. *)
Record ordered_plan (request : ApplyProposalBatchRequest) (items : list ApplyProposalPlanItem)
    : Prop := {
  op_nonempty : items ≠ [];
  op_perm : pl_proposalId <$> items ≡ₚ bi_proposalId <$> br_items request;
  op_NoDup : NoDup (pl_proposalId <$> items);
  op_order pre item post dep :
    items = pre ++ item :: post → dep ∈ pl_dependsOn item → dep ∈ pl_proposalId <$> pre;
  op_item item : item ∈ items → ∃ it, it ∈ br_items request ∧
    bi_proposalId it = pl_proposalId item ∧ default [] (bi_dependsOn it) = pl_dependsOn item;
}.

Section plan.
Context {W : Type} `{!ProposalStore W}.

Lemma load_items_items items loaded w w' loaded' :
  load_items items loaded w = (w', Ok loaded') → li_item <$> loaded' = (li_item <$> loaded) ++ items.
Proof.
  revert loaded w. induction items as [|item items IH]; intros loaded w; simpl.
  { unfold mret, stM_ret. intros [= _ <-]. by rewrite app_nil_r. }
  intros (w1 & proposal & _ & H)%stM_bind_Ok. apply stM_bind_Ok in H as (w2 & changeSet & _ & H).
  apply IH in H. by rewrite H, fmap_app, <-app_assoc.
Qed.

Lemma plan_items_keys loaded :
  (fun item => (pl_proposalId item, pl_dependsOn item)) <$> bp_items (classifyProposalPlan loaded) =
  (fun item => (pi_proposalId item, pi_dependsOn item)) <$> (li_item <$> loaded).
Proof.
  destruct (classify_items_spec loaded) as [_ Hp]. unfold classifyProposalPlan. simpl in *.
  rewrite Hp, fmap_imap, <-list_fmap_compose.
  exact (imap_const (fun l => (pi_proposalId (li_item l), pi_dependsOn (li_item l))) loaded).
Qed.

Lemma plan_ordered request w w' plan :
  planApplyProposalBatch request w = (w', Ok plan) →
  ordered_plan request (bp_items plan) ∧
  bp_orderedProposalIds plan = pl_proposalId <$> bp_items plan ∧
  (bp_status plan = PlanReviewNeeded ↔ existsb needs_review (bp_items plan) = true).
Proof.
  unfold planApplyProposalBatch. intros (w1 & out & Hout & H)%stM_bind_Ok.
  apply stM_bind_Ok in H as (w2 & loaded & Hl & H). unfold mret, stM_ret in H. simplify_eq.
  split; [|split; [done|unfold classifyProposalPlan; simpl; by destruct existsb]].
  apply load_items_items in Hl. simpl in Hl. unfold liftM in Hout.
  destruct (planProposalBatch (br_items request)) as [o|e] eqn:Hplan; [|done].
  assert (o = out) as -> by (simpl in Hout; congruence). clear Hout.
  apply planProposalBatch_Ok_inv in Hplan as (Hv & Hg & Hlen).
  pose proof (plan_items_keys loaded) as Hk. rewrite Hl in Hk.
  set (items := bp_items (classifyProposalPlan loaded)) in *.
  assert (pl_proposalId <$> items = ids out) as Hids.
  { apply (f_equal (fmap fst)) in Hk. by rewrite <-!list_fmap_compose in Hk. }
  assert (out ≡ₚ BatchOrder.planned (br_items request)) as Hperm
    by (rewrite Hg; apply greedy_perm; [done|by rewrite <-Hg]).
  assert (ids out ≡ₚ bi_proposalId <$> br_items request) as Hidp
    by (rewrite <-planned_ids; unfold ids; by rewrite Hperm).
  split.
  - intros Hnil. rewrite Hnil in Hids. symmetry in Hids. apply fmap_nil_inv in Hids.
    rewrite Hids in Hlen. apply (vb_nonempty _ Hv). by destruct (br_items request).
  - by rewrite Hids.
  - rewrite Hids, Hidp. by apply valid_NoDup.
  - intros pre item post dep Heq Hdep. rewrite Heq, fmap_app in Hk. simpl in Hk.
    symmetry in Hk. apply fmap_app_inv in Hk as (pre' & rest & Hpre & Hrest & Ho).
    symmetry in Hrest. apply fmap_cons_inv in Hrest as (item' & post' & Hitem & _ & Hrest).
    subst rest. rewrite Ho in Hg. symmetry in Hg.
    apply greedy_order in Hg as [_ [_ Hdeps]]. simpl in Hdeps.
    injection Hitem as Hid' Hd'. rewrite Hd' in Hdep.
    rewrite Forall_forall in Hdeps. apply Hdeps in Hdep.
    apply (f_equal (fmap fst)) in Hpre. rewrite <-!list_fmap_compose in Hpre.
    assert (pl_proposalId <$> pre = ids pre') as -> by exact Hpre. done.
  - intros item Hin.
    assert ((pl_proposalId item, pl_dependsOn item) ∈
      (fun item => (pi_proposalId item, pi_dependsOn item)) <$> out) as Hout.
    { rewrite <-Hk. by apply (list_elem_of_fmap_2 (fun i => (pl_proposalId i, pl_dependsOn i))). }
    apply list_elem_of_fmap in Hout as (it & Hit & Hout). rewrite Hperm in Hout.
    apply list_elem_of_fmap in Hout as (it' & -> & Hout). exists it'.
    by injection Hit as -> ->.
Qed.
End plan.

(** [terminalByProposalId], which the results determine. *)
Definition terminal_of (results : list ApplyProposalBatchItemResult)
    : list (string * ApplyProposalBatchItemStatus) :=
  foldl (fun m r => jset (ir_proposalId r) (ir_status r) m) [] results.

Lemma terminal_of_snoc results r :
  terminal_of (results ++ [r]) = jset (ir_proposalId r) (ir_status r) (terminal_of results).
Proof. unfold terminal_of. by rewrite foldl_app. Qed.

(** The map holds the status of every proposal that has a result. *)
Lemma terminal_of_lookup results dep :
  dep ∈ ir_proposalId <$> results →
  ∃ r, r ∈ results ∧ ir_proposalId r = dep ∧ jget dep (terminal_of results) = Some (ir_status r).
Proof.
  induction results as [|r results IH] using rev_ind; [set_solver|].
  rewrite fmap_app, terminal_of_snoc, jget_jset. simpl. intros Hin.
  destruct (decide (ir_proposalId r = dep)) as [Hr|Hr]; [exists r; set_solver|].
  destruct IH as (r' & ? & ? & ?); [set_solver|]. exists r'. set_solver.
Qed.

(** It holds nothing else. *)
Lemma terminal_of_inv results dep status :
  jget dep (terminal_of results) = Some status →
  ∃ r, r ∈ results ∧ ir_proposalId r = dep ∧ ir_status r = status.
Proof.
  induction results as [|r results IH] using rev_ind; [done|].
  rewrite terminal_of_snoc, jget_jset. case_decide; [intros [= <-]; exists r; set_solver|].
  intros (r' & ? & ? & ?)%IH. exists r'. set_solver.
Qed.

Lemma find_None {A} (P : A → bool) (l : list A) : List.find P l = None ↔ ∀ x, x ∈ l → P x = false.
Proof.
  induction l as [|x l IH]; simpl; [set_solver|].
  destruct (P x) eqn:E; [|rewrite IH; set_solver].
  split; [done|]. intros H. rewrite H in E; [done|set_solver].
Qed.

Section loop.
Context {W : Type} (apply : ApplyProposalRequest → stM W workspace_error ApplyProposalResult).
Context (request : ApplyProposalBatchRequest).

(** The calls of [applyProposal] that lead from one state to another. *)
Inductive apply_calls : W → list (ApplyProposalRequest * ApplyProposalResult) → W → Prop :=
| apply_calls_nil w : apply_calls w [] w
| apply_calls_cons w w1 w2 req res calls :
    apply req w = (w1, Ok res) → apply_calls w1 calls w2 →
    apply_calls w ((req, res) :: calls) w2.

Definition attempt_of (r : ApplyProposalBatchItemResult)
    : option (string * ApplyProposalResult) := (fun res => (ir_proposalId r, res)) <$> ir_result r.

(** What a batch reports of a proposal is what [applyProposal] returned, and a proposal that was
    not attempted gets a status of the batch's own. *)
Definition faithful (r : ApplyProposalBatchItemResult) : Prop :=
  match ir_result r with
  | Some res => ir_status r = ItemStatus (ar_status res) ∧ ir_error r = ar_error res
  | None => ∀ status, ir_status r ≠ ItemStatus status
  end.

(** [applyProposal] was called for the proposal, and returned that it is applied. *)
Definition was_applied (r : ApplyProposalBatchItemResult) : bool :=
  bool_decide (ar_status <$> ir_result r = Some StatusApplied).

Lemma faithful_applied r : faithful r → is_applied r = was_applied r.
Proof.
  unfold faithful, is_applied, was_applied. intros H. apply bool_decide_ext.
  destruct (ir_result r) as [res|]; [|by split; [intros Ha; by destruct (H StatusApplied)|]].
  destruct H as [-> _]. simpl. split; congruence.
Qed.

(** The result of an item, given the earlier results. *)
Record item_outcome (earlier : list ApplyProposalBatchItemResult)
    (item : ApplyProposalPlanItem) (r : ApplyProposalBatchItemResult) : Prop := {
  io_id : ir_proposalId r = pl_proposalId item;
  io_deps : ir_dependsOn r = pl_dependsOn item;
  io_attempted : is_Some (ir_result r) → ∀ dep, dep ∈ pl_dependsOn item →
    dependency_failed (jget dep (terminal_of earlier)) = false;
  io_left : ir_result r = None → needs_review item = true ∨
    ∃ dep, dep ∈ pl_dependsOn item ∧ dependency_failed (jget dep (terminal_of earlier)) = true;
  io_faithful : faithful r;
}.

(** What the loop adds to the results. *)
Record loop_outcome (items : list ApplyProposalPlanItem)
    (results : list ApplyProposalBatchItemResult) (w : W)
    (new : list ApplyProposalBatchItemResult) (stopped : bool) (w' : W) : Prop := {
  lo_calls : ∃ calls, apply_calls w calls w' ∧
    (fun call => (aq_proposalId call.1, call.2)) <$> calls = omap attempt_of new;
  lo_items : ∃ rest, pl_proposalId <$> items = (ir_proposalId <$> new) ++ rest ∧
    (stopped = false → rest = []);
  lo_each pre r post : new = pre ++ r :: post →
    ∃ item, item ∈ items ∧ item_outcome (results ++ pre) item r;
  lo_stops pre r post : stopOnFailure request = true → existsb needs_review items = false →
    new = pre ++ r :: post → is_applied r = false → post = [] ∧ stopped = true;
  lo_stopped : stopped = true → stopOnFailure request = true ∧ ∃ r, r ∈ new ∧ is_applied r = false;
}.

Lemma apply_calls_app w w1 w2 calls1 calls2 :
  apply_calls w calls1 w1 → apply_calls w1 calls2 w2 → apply_calls w (calls1 ++ calls2) w2.
Proof. induction 1; [done|]. intros. econstructor; eauto. Qed.

(** One result, and then those of the rest. *)
Lemma loop_outcome_cons item items results w w1 w' r new stopped calls :
  item_outcome results item r → apply_calls w calls w1 →
  (fun call => (aq_proposalId call.1, call.2)) <$> calls = omap attempt_of [r] →
  (stopOnFailure request = true → needs_review item = false → is_applied r = true) →
  loop_outcome items (results ++ [r]) w1 new stopped w' →
  loop_outcome (item :: items) results w (r :: new) stopped w'.
Proof.
  intros Hr Hc Ha Happ [(cs & Hcs & Hcsn) (rest & Hrest & Hend) Heach Hstops Hstopped]. split.
  - exists (calls ++ cs). split; [by eapply apply_calls_app|].
    rewrite fmap_app, Ha, Hcsn. change (r :: new) with ([r] ++ new). by rewrite omap_app.
  - exists rest. split; [|done]. simpl. rewrite (io_id _ _ _ Hr). f_equal. exact Hrest.
  - intros [|x pre] r' post Heq; simplify_eq/=.
    + exists item. rewrite app_nil_r. split; [left|done].
    + destruct (Heach pre r' post eq_refl) as (item' & Hin & Ho).
      exists item'. rewrite <-app_assoc in Ho. split; [by right|done].
  - intros [|x pre] r' post Hstop Hno Heq Hna; simpl in Hno; apply orb_false_iff in Hno as [Hi Hno];
      simplify_eq/=; [|by apply (Hstops pre r' post)].
    by rewrite Happ in Hna.
  - intros (Hs & r' & Hr' & Hna)%Hstopped. split; [done|]. exists r'. by split; [right|].
Qed.

(** The last result of a loop that stops. *)
Lemma loop_outcome_stop item items results w w1 r calls :
  item_outcome results item r → apply_calls w calls w1 →
  (fun call => (aq_proposalId call.1, call.2)) <$> calls = omap attempt_of [r] →
  stopOnFailure request = true → is_applied r = false →
  loop_outcome (item :: items) results w [r] true w1.
Proof.
  intros Hr Hc Ha Hs Hna. split.
  - eauto.
  - exists (pl_proposalId <$> items). split; [|done]. simpl. by rewrite (io_id _ _ _ Hr).
  - intros pre r' post Heq. destruct pre as [|x pre]; [|by destruct pre]. simplify_eq/=.
    exists item. rewrite app_nil_r. split; [left|done].
  - intros pre r' post _ _ Heq _. destruct pre as [|x pre]; [|by destruct pre]. by simplify_eq/=.
  - intros _. split; [done|]. exists r. by split; [left|].
Qed.

Lemma apply_items_outcome i items results w results' stopped w' :
  apply_items apply request i items results (terminal_of results) w =
    (w', Ok (results', stopped)) →
  ∃ new, results' = results ++ new ∧ loop_outcome items results w new stopped w'.
Proof.
  revert i results w. induction items as [|item items IH]; intros i results w; simpl.
  { unfold mret, stM_ret. intros [= -> <- <-]. exists []. rewrite app_nil_r. split; [done|].
    split; [by exists []; split; [constructor|]|by exists []|by intros []|by intros []|done]. }
  assert (∀ r w1 calls, apply_items apply request (S i) items (results ++ [r])
      (jset (pl_proposalId item) (ir_status r) (terminal_of results)) w1 =
      (w', Ok (results', stopped)) →
    item_outcome results item r → apply_calls w calls w1 →
    (fun call => (aq_proposalId call.1, call.2)) <$> calls = omap attempt_of [r] →
    (stopOnFailure request = true → needs_review item = false → is_applied r = true) →
    ∃ new, results' = results ++ new ∧ loop_outcome (item :: items) results w new stopped w')
    as Hnext.
  { intros r w1 calls Hrun Ho Hc Ha Happ.
    rewrite <-(io_id _ _ _ Ho), <-terminal_of_snoc in Hrun.
    apply IH in Hrun as (new & -> & Hnew). exists (r :: new).
    split; [by rewrite <-app_assoc|by eapply loop_outcome_cons]. }
  destruct (needs_review item) eqn:Hrev.
  { intros Hrun. eapply Hnext; [exact Hrun| |constructor|done|done].
    split; simpl; [done|done|by intros []|by left|done]. }
  destruct (failed_dependency (terminal_of results) item) as [dep|] eqn:Hdep.
  - apply find_some in Hdep as [Hin%list_elem_of_In Hdep].
    assert (item_outcome results item (dependency_result item dep)) as Ho
      by (split; simpl; [done|done|by intros []|by right; exists dep|done]).
    simpl. destruct (stopOnFailure request) eqn:Hstop.
    + unfold mret, stM_ret. intros [= -> <- <-]. eexists. split; [done|].
      by eapply loop_outcome_stop; [|constructor|..].
    + intros Hrun. eapply Hnext; [exact Hrun|done|constructor|done|done].
  - unfold failed_dependency in Hdep. rewrite find_None in Hdep.
    intros (w1 & result & Hcall & Hrun)%stM_bind_Ok.
    assert (item_outcome results item (item_result item result)) as Ho.
    { by split; simpl; [| |intros _| |split]. }
    assert (apply_calls w [(item_request request i item, result)] w1) as Hc
      by (econstructor; [exact Hcall|constructor]).
    revert Hrun. case_bool_decide as Hst; [destruct (stopOnFailure request) eqn:Hstop|];
      simpl; intros Hrun.
    + unfold mret, stM_ret in Hrun. simplify_eq. eexists. split; [done|].
      eapply loop_outcome_stop; [exact Ho|exact Hc|done|done|].
      unfold is_applied. apply bool_decide_eq_false. by intros [= ?].
    + eapply Hnext; [exact Hrun|done|exact Hc|done|done].
    + eapply Hnext; [exact Hrun|done|exact Hc|done|]. intros _ _. unfold is_applied. simpl.
      apply bool_decide_eq_true. by f_equal.
Qed.
End loop.

(** * The whole batch *)

Lemma NoDup_split_eq {A} (l1 l2 k1 k2 : list A) x :
  NoDup (l1 ++ x :: l2) → l1 ++ x :: l2 = k1 ++ x :: k2 → l1 = k1.
Proof.
  revert k1. induction l1 as [|y l1 IH]; intros [|z k1] Hnd Heq; simplify_eq/=; [done|..].
  - apply NoDup_cons in Hnd as [Hx _]. set_solver.
  - apply NoDup_cons in Hnd as [Hy _]. set_solver.
  - f_equal. apply NoDup_cons in Hnd as [_ Hnd]. by apply IH.
Qed.

Lemma skipped_ids items results rest :
  NoDup (pl_proposalId <$> items) →
  pl_proposalId <$> items = (ir_proposalId <$> results) ++ rest →
  ir_proposalId <$> skipped items results = rest.
Proof.
  unfold skipped. rewrite <-list_fmap_compose. unfold compose. simpl.
  generalize (ir_proposalId <$> results) as done_ids. clear results.
  induction items as [|item items IH]; intros [|id done_ids] Hnd Heq; simplify_eq/=; try done.
  - rewrite filter_all by set_solver. done.
  - apply NoDup_cons in Hnd as [Hi Hnd]. rewrite filter_cons_False by set_solver.
    rewrite <-(IH done_ids) by done. f_equal. apply filter_ext_elem. intros x Hx.
    assert (pl_proposalId x ≠ pl_proposalId item); [|set_solver].
    intros He. apply Hi. rewrite <-He. by apply list_elem_of_fmap_2.
Qed.

Lemma summarizeBatchStatus_spec results :
  results ≠ [] →
  (summarizeBatchStatus results = BatchApplied ↔ ∀ r, r ∈ results → is_applied r = true) ∧
  (summarizeBatchStatus results = BatchFailed ↔ ∀ r, r ∈ results → is_applied r = false).
Proof.
  intros Hne. unfold summarizeBatchStatus.
  assert (length (filter (fun r => is_applied r = true) results) = length results ↔
    ∀ r, r ∈ results → is_applied r = true) as Hall.
  { split; [|intros H; by rewrite filter_all].
    intros Hlen r Hr. destruct (is_applied r) eqn:E; [done|].
    assert (length (filter (fun r => is_applied r = true) results) < length results); [|lia].
    apply (length_filter_lt _ _ r); [done|]. by rewrite E. }
  assert (length (filter (fun r => is_applied r = true) results) = 0 ↔
    ∀ r, r ∈ results → is_applied r = false) as Hnone.
  { rewrite length_zero_iff_nil. split.
    - intros H r Hr. destruct (is_applied r) eqn:E; [|done].
      assert (r ∈ filter (fun r => is_applied r = true) results) as Hin
        by (by apply list_elem_of_filter). rewrite H in Hin. set_solver.
    - intros H. apply filter_none. intros r Hr. by rewrite H. }
  destruct results as [|r0 results]; [done|]. clear Hne.
  case_decide as Ha; [|case_decide as Hp].
  - rewrite <-Hall. split; [by split|]. split; [done|]. intros Hn%Hnone. simpl in *. lia.
  - rewrite <-Hall, <-Hnone. split; split; try done. lia.
  - rewrite <-Hall, <-Hnone. split; split; try done. lia.
Qed.

Section whole_batch.
Context {W : Type} `{!ProposalStore W}.
Context (apply : ApplyProposalRequest → stM W workspace_error ApplyProposalResult).
Context (request : ApplyProposalBatchRequest).

(** How a batch ends, after its plan: refused by the review of the plan, or by its loop. *)
Inductive batch_outcome (items : list ApplyProposalPlanItem) (w : W) :
    list ApplyProposalBatchItemResult → ApplyProposalBatchStatus → W → Prop :=
| outcome_review :
    stopOnFailure request = true → existsb needs_review items = true →
    batch_outcome items w (blocked_result <$> items) BatchFailed w
| outcome_loop new (stopped : bool) w' results :
    loop_outcome apply request items [] w new stopped w' →
    (stopOnFailure request = true → existsb needs_review items = false) →
    results = new ++ (if stopped then skipped items new else []) →
    batch_outcome items w results (summarizeBatchStatus results) w'.

Lemma applyProposalBatch_outcome w w' res :
  applyProposalBatch planApplyProposalBatch apply request w = (w', Ok res) →
  ∃ w1 plan, planApplyProposalBatch request w = (w1, Ok plan) ∧
    ordered_plan request (bp_items plan) ∧
    bs_orderedProposalIds res = pl_proposalId <$> bp_items plan ∧
    batch_outcome (bp_items plan) w1 (bs_results res) (bs_status res) w'.
Proof.
  intros (w1 & plan & Hplan & Hrun)%stM_bind_Ok. exists w1, plan. split; [done|].
  destruct (plan_ordered request w w1 plan Hplan) as (Hord & Hids & Hrev). split; [done|].
  assert (bp_status plan ≠ PlanReviewNeeded → existsb needs_review (bp_items plan) = false) as Hno.
  { intros Hn. destruct existsb; [|done]. by destruct Hn; apply Hrev. }
  revert Hrun. case_bool_decide as Hst; simpl; [destruct (stopOnFailure request) eqn:Hstop|].
  { unfold mret, stM_ret. intros [= <- <-]. split; [exact Hids|]. constructor; [done|by apply Hrev]. }
  all: intros (w2 & [results stopped] & Hloop & Hrun)%stM_bind_Ok.
  all: apply (apply_items_outcome apply request 0 (bp_items plan) []) in Hloop as (new & -> & Hnew).
  all: simpl in Hrun; unfold mret, stM_ret in Hrun; injection Hrun as <- <-; simpl.
  all: split; [done|]; eapply outcome_loop; [exact Hnew| |by destruct stopped; rewrite ?app_nil_r].
  - by rewrite Hstop.
  - intros _. by apply Hno.
Qed.

Section outcome.
Context (items : list ApplyProposalPlanItem) (w : W) (w' : W).
Context (results : list ApplyProposalBatchItemResult) (status : ApplyProposalBatchStatus).
Context (Hord : ordered_plan request items).
Context (Hout : batch_outcome items w results status w').

(** Skipped items were not attempted. *)
Lemma skipped_none new r : r ∈ skipped items new → ir_result r = None ∧ is_applied r = false.
Proof. by intros (item & -> & _)%list_elem_of_fmap. Qed.

Lemma outcome_ids : ir_proposalId <$> results = pl_proposalId <$> items.
Proof.
  destruct Hout as [_ _|new stopped w' results' [_ (rest & Hids & Hend) _ _ _] _ ->].
  { by rewrite <-list_fmap_compose. }
  rewrite fmap_app, Hids. f_equal. destruct stopped; [|by rewrite Hend].
  apply skipped_ids; [apply Hord|done].
Qed.

Lemma outcome_calls : ∃ calls, apply_calls apply w calls w' ∧
  (fun call => (aq_proposalId call.1, call.2)) <$> calls = omap attempt_of results.
Proof.
  destruct Hout as [_ _|new stopped w' results' [(calls & Hc & Ha) _ _ _ _] _ ->].
  - exists []. split; [constructor|]. clear Hord Hout. by induction items.
  - exists calls. split; [done|]. rewrite Ha, omap_app.
    assert (omap attempt_of (if stopped then skipped items new else []) = []) as ->;
      [|by rewrite app_nil_r].
    destruct stopped; [|done]. unfold skipped. clear.
    by induction (filter (fun item => pl_proposalId item ∉ ir_proposalId <$> new) items).
Qed.

Lemma outcome_dependencies pre r post dep :
  results = pre ++ r :: post → is_Some (ir_result r) → dep ∈ ir_dependsOn r →
  ∃ d, d ∈ pre ∧ ir_proposalId d = dep ∧ is_applied d = true.
Proof.
  pose proof outcome_ids as Hids.
  destruct Hout as [_ _|new stopped w' results' [_ _ Heach _ _] _ Hnew]; intros Heq Hr Hdep.
  { assert (r ∈ blocked_result <$> items) as (i & -> & _)%list_elem_of_fmap
      by (rewrite Heq; set_solver). by destruct Hr. }
  rewrite Hnew in Heq.
  apply app_eq_inv in Heq as [(l & Hl & Hpost)|(l & -> & Hl)].
  2: { destruct stopped; [|by destruct l]. assert (r ∈ skipped items new) as [H _]%skipped_none
         by (rewrite Hl; set_solver). rewrite H in Hr. by destruct Hr. }
  destruct l as [|r' l].
  { simpl in Hpost. destruct stopped; [|done]. assert (r ∈ skipped items new) as [H _]%skipped_none
      by (rewrite <-Hpost; set_solver). rewrite H in Hr. by destruct Hr. }
  injection Hpost as <- Hpost.
  destruct (Heach pre r l Hl) as (item & Hin & [Hi Hd Ha _ _]).
  rewrite Hd in Hdep. specialize (Ha Hr dep Hdep). simpl in Ha.
  pose proof Hin as (ipre & ipost & Hitems)%list_elem_of_split.
  pose proof (op_order _ _ Hord ipre item ipost dep Hitems Hdep) as Hbefore.
  assert (pl_proposalId <$> items =
    (pl_proposalId <$> ipre) ++ pl_proposalId item :: (pl_proposalId <$> ipost)) as Hsplit
    by (by rewrite Hitems, fmap_app).
  assert (pl_proposalId <$> ipre = ir_proposalId <$> pre) as Hpre.
  { apply (NoDup_split_eq _ (pl_proposalId <$> ipost) _
      (ir_proposalId <$> (l ++ if stopped then skipped items new else [])) (pl_proposalId item)).
    - rewrite <-Hsplit. apply Hord.
    - rewrite <-Hsplit, <-Hids, Hnew, Hl, <-app_assoc, fmap_app. simpl. by rewrite Hi. }
  rewrite Hpre in Hbefore. apply terminal_of_lookup in Hbefore as (d & Hdin & Hdid & Hget).
  exists d. split; [done|]. split; [done|]. rewrite Hget in Ha. unfold is_applied.
  by destruct (ir_status d) as [[]| | |].
Qed.

Lemma outcome_stops pre r post :
  stopOnFailure request = true → results = pre ++ r :: post → is_applied r = false →
  Forall (fun r' => ir_result r' = None) post.
Proof.
  destruct Hout as [_ _|new stopped w' results' [_ _ _ Hstops _] Hno Hnew]; intros Hstop Heq Hr.
  { apply Forall_forall. intros r' Hr'.
    assert (r' ∈ blocked_result <$> items) as (i & -> & _)%list_elem_of_fmap
      by (rewrite Heq; set_solver). done. }
  rewrite Hnew in Heq.
  assert (∀ r', r' ∈ (if stopped then skipped items new else []) → ir_result r' = None) as Hskip.
  { intros r' Hr'. destruct stopped; [|set_solver]. by apply skipped_none in Hr' as [? _]. }
  apply Forall_forall. intros r' Hr'. apply Hskip.
  apply app_eq_inv in Heq as [(l & Hl & Hpost)|(l & -> & ->)]; [|set_solver].
  destruct l as [|x l]; [simpl in Hpost; rewrite <-Hpost; set_solver|]. injection Hpost as <- ->.
  destruct (Hstops pre r l Hstop (Hno Hstop) Hl Hr) as [-> _]. exact Hr'.
Qed.

Lemma outcome_faithful r : r ∈ results → faithful r.
Proof.
  destruct Hout as [_ _|new stopped w' results' [_ _ Heach _ _] _ ->]; intros Hr.
  { apply list_elem_of_fmap in Hr as (item & -> & _). unfold faithful, blocked_result. simpl.
    intros status'. by destruct (needs_review item). }
  apply elem_of_app in Hr as [(pre & post & Hnew)%list_elem_of_split|Hr].
  - destruct (Heach pre r post Hnew) as (item & _ & Ho). by eapply io_faithful.
  - destruct stopped; [|set_solver]. by apply list_elem_of_fmap in Hr as (item & -> & _).
Qed.

(** Why a proposal was left: it needs review, something it depends on was not applied, or the
    batch had stopped. *)
Lemma outcome_left pre r post :
  results = pre ++ r :: post → ir_result r = None →
  (∃ item, item ∈ items ∧ pl_proposalId item = ir_proposalId r ∧ needs_review item = true) ∨
  (∃ d, d ∈ pre ∧ ir_proposalId d ∈ ir_dependsOn r ∧ is_applied d = false) ∨
  (stopOnFailure request = true ∧
    (existsb needs_review items = true ∨ ∃ d, d ∈ pre ∧ is_applied d = false)).
Proof.
  destruct Hout as [? ?|new stopped w' results' [_ _ Heach _ Hstopped] _ Hnew]; intros Heq Hr; [by eauto|].
  rewrite Hnew in Heq.
  assert (stopped = true → new ⊆ pre → stopOnFailure request = true ∧
    (existsb needs_review items = true ∨ ∃ d, d ∈ pre ∧ is_applied d = false)) as Hlate.
  { intros (Hs & d & Hd & Hna)%Hstopped Hsub. split; [done|]. right. exists d.
    split; [by apply Hsub|done]. }
  apply app_eq_inv in Heq as [(l & Hl & Hpost)|(l & -> & Hl)].
  2: { right; right. destruct stopped; [|by destruct l]. apply Hlate; [done|set_solver]. }
  destruct l as [|r' l].
  { right; right. destruct stopped; [|done]. apply Hlate; [done|]. by rewrite Hl, app_nil_r. }
  injection Hpost as <- _. destruct (Heach pre r l Hl) as (item & Hin & [Hi Hd _ Hleft _]).
  destruct (Hleft Hr) as [Hrev|(dep & Hdep & Hf)]; [left; eauto|]. right; left. simpl in Hf.
  destruct (jget dep (terminal_of pre)) as [st|] eqn:Hget; [|done].
  apply terminal_of_inv in Hget as (d & Hdin & <- & Hst). exists d. rewrite Hd.
  split; [done|]. split; [done|]. unfold is_applied. rewrite Hst. by destruct st as [[]| | |].
Qed.

Lemma outcome_status :
  (status = BatchApplied ↔ ∀ r, r ∈ results → is_applied r = true) ∧
  (status = BatchFailed ↔ ∀ r, r ∈ results → is_applied r = false).
Proof.
  assert (results ≠ []) as Hne.
  { intros Hnil. pose proof outcome_ids as Hids. rewrite Hnil in Hids.
    apply (op_nonempty _ _ Hord). symmetry in Hids. by apply fmap_nil_inv in Hids. }
  destruct Hout as [_ _|new stopped w' results' _ _ Hnew]; [|by apply summarizeBatchStatus_spec].
  assert (∀ r, r ∈ blocked_result <$> items → is_applied r = false) as Hno.
  { intros r (i & -> & _)%list_elem_of_fmap. unfold is_applied, blocked_result. simpl.
    by destruct (needs_review i). }
  split; [|by split]. split; [done|]. intros Hall.
  destruct (blocked_result <$> items) as [|r l]; [done|].
  pose proof (Hall r (list_elem_of_here _ _)) as Hr.
  by rewrite (Hno r (list_elem_of_here _ _)) in Hr.
Qed.

(** A result repeats what its item depends on. *)
Lemma outcome_item r :
  r ∈ results → ∃ item, item ∈ items ∧ ir_proposalId r = pl_proposalId item ∧
    ir_dependsOn r = pl_dependsOn item.
Proof.
  destruct Hout as [_ _|new stopped w' results' [_ _ Heach _ _] _ ->]; intros Hr.
  { apply list_elem_of_fmap in Hr as (item & -> & Hi). by exists item. }
  apply elem_of_app in Hr as [(pre & post & Hnew)%list_elem_of_split|Hr].
  - destruct (Heach pre r post Hnew) as (item & Hi & [Hid Hd _ _ _]). eauto.
  - destruct stopped; [|set_solver].
    apply list_elem_of_fmap in Hr as (item & -> & [_ Hi]%list_elem_of_filter). by exists item.
Qed.

Lemma outcome_dependsOn r item :
  r ∈ results → item ∈ br_items request → ir_proposalId r = bi_proposalId item →
  ir_dependsOn r = default [] (bi_dependsOn item).
Proof.
  intros (pi & Hpi & Hid & ->)%outcome_item Hitem Heq.
  destruct (op_item _ _ Hord pi Hpi) as (item' & Hitem' & Hid' & <-).
  assert (item = item') as <-; [|done].
  apply (NoDup_fmap_eq bi_proposalId (br_items request)); [|done|done|congruence].
  rewrite <-(op_perm _ _ Hord). apply Hord.
Qed.
End outcome.
End whole_batch.

(** (C40) When a batch is applied: every proposal of the batch has one result, in an order in
    which dependencies come first.  [applyProposal] was called, in that order, for exactly
    the results that carry its result, and each of them reports the status and the error that
    it returned.  With [was_applied], that [applyProposal] was called and returned that the
    proposal is applied: a proposal was only attempted after all that it depends on had been
    applied; unless failures are to be passed over, nothing is attempted after the first
    proposal that is not applied; a proposal that was not attempted needs review, or depends on
    one that was not applied, or comes after the batch stopped; and the summary says whether
    all, some or none were applied. *)
Theorem applyProposalBatch_spec {W} `{!ProposalStore W}
    (apply : ApplyProposalRequest → stM W workspace_error ApplyProposalResult) request w w' res :
  applyProposalBatch planApplyProposalBatch apply request w = (w', Ok res) →
  bs_orderedProposalIds res ≡ₚ bi_proposalId <$> br_items request ∧
  ir_proposalId <$> bs_results res = bs_orderedProposalIds res ∧
  (∃ w1 plan calls, planApplyProposalBatch request w = (w1, Ok plan) ∧
    apply_calls apply w1 calls w' ∧
    (fun call => (aq_proposalId call.1, call.2)) <$> calls = omap attempt_of (bs_results res) ∧
    (∀ pre r post, bs_results res = pre ++ r :: post → ir_result r = None →
      (∃ item, item ∈ bp_items plan ∧ pl_proposalId item = ir_proposalId r ∧
        pl_status item = PlanNeedsReview) ∨
      (∃ d, d ∈ pre ∧ ir_proposalId d ∈ ir_dependsOn r ∧ was_applied d = false) ∨
      (stopOnFailure request = true ∧
        (bp_status plan = PlanReviewNeeded ∨ ∃ d, d ∈ pre ∧ was_applied d = false)))) ∧
  (∀ r, r ∈ bs_results res → faithful r) ∧
  (∀ item, item ∈ br_items request → ∀ pre r post dep,
    bs_results res = pre ++ r :: post → ir_proposalId r = bi_proposalId item →
    is_Some (ir_result r) → dep ∈ default [] (bi_dependsOn item) →
    ∃ d, d ∈ pre ∧ ir_proposalId d = dep ∧ was_applied d = true) ∧
  (stopOnFailure request = true → ∀ pre r post,
    bs_results res = pre ++ r :: post → was_applied r = false →
    Forall (fun r' => ir_result r' = None) post) ∧
  (bs_status res = BatchApplied ↔ ∀ r, r ∈ bs_results res → was_applied r = true) ∧
  (bs_status res = BatchFailed ↔ ∀ r, r ∈ bs_results res → was_applied r = false).
Proof.
  intros (w1 & plan & Hplan & Hord & Hids & Hout)%applyProposalBatch_outcome.
  pose proof (outcome_faithful apply request _ w1 w' _ _ Hord Hout) as Hfaith.
  assert (∀ r, r ∈ bs_results res → is_applied r = was_applied r) as Happ
    by (intros r Hr; by apply faithful_applied, Hfaith).
  split; [rewrite Hids; apply Hord|]. split; [rewrite Hids; by eapply outcome_ids|].
  split; [|split; [done|split; [|split]]].
  - destruct (outcome_calls apply request _ w1 w' _ _ Hout) as (calls & Hc & Ha).
    destruct (plan_ordered request w w1 plan Hplan) as (_ & _ & Hrev).
    exists w1, plan, calls. split_and!; [done..|]. intros pre r post Heq Hr.
    assert (∀ d, d ∈ pre → is_applied d = was_applied d) as Hpre
      by (intros d Hd; apply Happ; rewrite Heq; set_solver).
    destruct (outcome_left apply request _ w1 w' _ _ Hord Hout pre r post Heq Hr)
      as [(item & Hin & Hi & Hn)|[(d & Hd & Hdep & Hna)|(Hs & [Hn|(d & Hd & Hna)])]].
    + left. exists item. split_and!; [done..|by apply bool_decide_eq_true in Hn].
    + right; left. exists d. by rewrite <-Hpre.
    + right; right. split; [done|left; by apply Hrev].
    + right; right. split; [done|right; exists d; by rewrite <-Hpre].
  - intros item Hitem pre r post dep Heq Hid Hr Hdep.
    destruct (outcome_dependencies apply request _ w1 w' _ _ Hord Hout pre r post dep)
      as (d & Hd & ? & Hd'); [done..| |].
    { rewrite (outcome_dependsOn apply request (bp_items plan) w1 w' (bs_results res)
        (bs_status res) Hord Hout r item); [done| |done|done]. rewrite Heq. set_solver. }
    exists d. split_and!; [done..|]. rewrite <-Happ; [done|]. rewrite Heq. set_solver.
  - intros Hstop pre r post Heq Hr. eapply outcome_stops; [done..|]. rewrite Happ; [done|].
    rewrite Heq. set_solver.
  - destruct (outcome_status apply request _ w1 w' _ _ Hord Hout) as [-> ->].
    split; (split; intros H r Hr; [rewrite <-Happ by done|rewrite Happ by done]; by apply H).
Qed.

(** * Examples *)

(** A service that knows every proposal, by its identifier, and whose workspace has moved
    under the proposal [b]; its state is the list of the proposals that were applied. *)
Section sample.
Local Open Scope string_scope.

Definition sample_proposal (id : string) : WorkspaceChangeProposalRecord := {|
  pr_id := id; pr_workspaceId := "ws"; pr_changeSetId := "set-" +:+ id; pr_principalId := "me";
  pr_title := None; pr_summary := None; pr_state := ProposalApplyRequested;
  pr_metadata := None; pr_createdAt := num_of_Z 0; pr_updatedAt := num_of_Z 0;
  pr_closedAt := None |}.

Definition sample_change_set (id : string) : WorkspaceChangeSetRecord := {|
  sr_id := id; sr_workspaceId := "ws"; sr_principalId := "me"; sr_title := None;
  sr_baseRevision := None;
  sr_changeSet := {| cs_id := id; cs_title := None; cs_baseRevision := None; cs_changes := [
    {| fc_path := "file-" +:+ id; fc_kind := ChangeCreate; fc_baseText := None;
       fc_baseSha256 := None; fc_targetText := Some "text" |}] |};
  sr_currentState := SetSubmitted; sr_createdAt := num_of_Z 0; sr_updatedAt := num_of_Z 0 |}.

Definition sample_attempt (id proposalId : string) : WorkspaceChangeProposalApplyAttemptRecord :=
{| aa_id := id; aa_proposalId := proposalId; aa_ownerId := "me"; aa_state := AttemptActive;
   aa_leaseExpiresAt := num_of_Z 0; aa_workspaceOperationId := None; aa_metadata := None;
   aa_failure := None; aa_claimedAt := num_of_Z 0; aa_updatedAt := num_of_Z 0;
   aa_finishedAt := None |}.

Definition sample_transaction (id : string) : WorkspaceChangeTransactionRecord := {|
  tx_id := id; tx_workspaceId := "ws"; tx_changeSetId := id; tx_operation := TransactionApply;
  tx_undoSourceOperationId := None; tx_sourceKind := SourceProposal; tx_sourceId := id;
  tx_idempotencyKey := id; tx_rootIdentitySha256 := ""; tx_proposalApplyAttemptId := None;
  tx_state := TransactionApplied; tx_planDigest := None; tx_recoveryDecision := None;
  tx_workspaceOperationId := None; tx_failure := None; tx_createdAt := num_of_Z 0;
  tx_updatedAt := num_of_Z 0; tx_finishedAt := None |}.

Definition sample_applied (request : ApplyWorkspaceChangeSetRequest)
    : ApplyWorkspaceChangeSetResult :=
  let id := mu_sourceId (wq_mutation request) in
  let receipt := {|
    rc_changeSetId := cs_id (wq_changeSet request);
    rc_status := if decide (id = "b") then ApplyConflicted else ApplyApplied;
    rc_files := []; rc_conflicts := [] |} in {|
  ap_changeSet := sample_change_set (cs_id (wq_changeSet request));
  ap_operation := {| op_id := id; op_changeSetId := cs_id (wq_changeSet request);
    op_operation := OperationApply; op_status := rc_status receipt; op_receipt := receipt;
    op_createdAt := num_of_Z 0 |};
  ap_receipt := receipt;
  ap_transaction := {| fz_snapshot := {| sn_transaction := sample_transaction id;
      sn_files := []; sn_activeAttempt := None |};
    fz_operation := None; fz_proposal := None; fz_proposalAttempt := None |} |}.

#[local] Instance sample_store : ProposalStore (list string) := {|
  getWorkspaceChangeProposal id := mret (Some (sample_proposal id));
  getWorkspaceChangeSet id := mret (Some (sample_change_set id));
  claimWorkspaceChangeProposalApply request := mret {|
    cl_status := ClaimClaimed; cl_proposal := sample_proposal (cq_proposalId request);
    cl_attempt := Some (sample_attempt (cq_attemptId request) (cq_proposalId request)) |} |}.

#[local] Instance sample_applier : ChangeSetApplier (list string) := {|
  transactionLeaseMs := num_of_Z 30000;
  recoverPendingTransactions _ := mret tt;
  applyChangeSet request :=
    _ ← modifyM (fun log => (log ++ [mu_sourceId (wq_mutation request)])%list);
    mret (sample_applied request) |}.

#[local] Instance sample_identifiers : ApplyIdentifiers (list string) := {|
  createAttemptId := mret "attempt"; createClaimToken := mret "token" |}.

Definition sample_runtime : WorkspaceProposalApplyRuntime (list string) :=
  new_apply_runtime None.

Definition batch_request (stop : option bool) : ApplyProposalBatchRequest := {|
  br_items := [sample_item "c" ["b"]; sample_item "b" []; sample_item "a" []];
  br_actorId := None; br_stopOnFailure := stop; br_metadata := None |}.

Definition batch_result (stop : option bool) : list string * ApplyProposalBatchResult :=
  let '(w, r) := rt_applyProposalBatch sample_runtime (batch_request stop) [] in
  (w, default {| bs_status := BatchFailed; bs_orderedProposalIds := []; bs_results := [] |}
        match r with Ok r => Some r | Throw _ => None end).

Lemma batch_result_stop :
  rt_applyProposalBatch sample_runtime (batch_request None) [] =
    ((batch_result None).1, Ok (batch_result None).2) ∧
  (batch_result None).1 = ["b"] ∧
  ir_status <$> bs_results (batch_result None).2 =
    [ItemStatus StatusApplyFailed; ItemSkipped; ItemSkipped].
Proof. vm_compute. repeat split. Qed.

Lemma batch_result_continue :
  (batch_result (Some false)).1 = ["b"; "a"] ∧
  bs_status (batch_result (Some false)).2 = BatchPartial ∧
  (fun r => (ir_proposalId r, ir_status r)) <$> bs_results (batch_result (Some false)).2 =
    [("b", ItemStatus StatusApplyFailed); ("c", ItemBlocked); ("a", ItemStatus StatusApplied)].
Proof. vm_compute. repeat split. Qed.

Lemma applyProposalBatch_spec_witness :
  bs_orderedProposalIds (batch_result None).2 ≡ₚ ["c"; "b"; "a"] ∧
  Forall (fun r => ir_result r = None) (drop 1 (bs_results (batch_result None).2)).
Proof.
  destruct (applyProposalBatch_spec (applyProposal DEFAULT_ACTOR_ID) (batch_request None) []
    (batch_result None).1 (batch_result None).2 (proj1 batch_result_stop))
    as (Hperm & _ & _ & _ & _ & Hstop & _).
  split; [exact Hperm|].
  destruct (bs_results (batch_result None).2) as [|r post] eqn:E; [constructor|].
  apply (Hstop eq_refl [] r post); [reflexivity|].
  revert E. clear. vm_compute. by intros [= <- _].
Defined.

Definition loaded (id path : string) (dependsOn : list string) : LoadedProposalPlanItem := {|
  li_item := {| pi_proposalId := id; pi_dependsOn := dependsOn; pi_actorId := None;
    pi_metadata := None |};
  li_proposal := sample_proposal id; li_changeSet := sample_change_set path;
  li_paths := ["file-" +:+ path] |}.

Lemma classifyProposalPlan_spec_witness :
  (∃ item, bp_items (classifyProposalPlan [loaded "a" "x" []; loaded "b" "x" []]) !! 1 =
    Some item ∧ pl_status item = PlanNeedsReview) ∧
  bp_status (classifyProposalPlan [loaded "a" "x" []; loaded "b" "x" ["a"]]) = PlanExecutable.
Proof.
  split.
  - destruct (classifyProposalPlan_spec [loaded "a" "x" []; loaded "b" "x" []])
      as (_ & _ & Hitems & _).
    destruct (Hitems 1 (loaded "b" "x" []) eq_refl) as (item & Hitem & _ & _ & Hc & Hst & _).
    exists item. split; [exact Hitem|]. apply Hst. intros Hnil.
    assert (plan_conflict (hd (Build_WorkspaceFileChange "" ChangeCreate None None None)
      (li_changes (loaded "b" "x" []))) (change_owner (loaded "a" "x" [])
      (hd (Build_WorkspaceFileChange "" ChangeCreate None None None)
        (li_changes (loaded "a" "x" [])))) ∈ pl_conflicts item) as Hin.
    { apply Hc. do 3 eexists. split; [left|]. split; [left|]. split; [left|].
      split; [reflexivity|]. split; [apply not_elem_of_nil|reflexivity]. }
    rewrite Hnil in Hin. by apply not_elem_of_nil in Hin.
  - apply (proj2 (proj2 (proj2
      (classifyProposalPlan_spec [loaded "a" "x" []; loaded "b" "x" ["a"]])))).
    intros item Hin. apply list_elem_of_In in Hin. vm_compute in Hin.
    destruct Hin as [<-|[<-|[]]]; reflexivity.
Defined.
End sample.
