(* ===== verification/WorkspaceTask.v ===== *)
(** Workspace tasks: their records, errors, receipts, identities and payloads
    ([packages/protocol/src/workspace-task.ts], [resource.ts],
    [packages/workspace/src/tasks/{types,receipt,identity,isolation,codec}.ts]).  [TaskRuntime]
    runs them. *)
From Stdlib Require Import Floats.SpecFloat.
From S2P Require Import Prelude JsMap Json JsStr JsonText StableJson Protocol WorkspaceProtocol ExecutionBinding ExecutionBindingSpec.

(** * Records of the protocol ([workspace-task.ts]) *)

Inductive WorkspaceTaskAccess := AccessReadOnly | AccessWritable.

#[export] Instance WorkspaceTaskAccess_eq_dec : EqDecision WorkspaceTaskAccess.
Proof. solve_decision. Defined.

#[export, refine] Instance WorkspaceTaskAccess_enum : StringEnum WorkspaceTaskAccess := {|
  enum_values := [AccessReadOnly; AccessWritable];
  enum_name k := match k with
    | AccessReadOnly => "read_only" | AccessWritable => "writable"
    end%string |}.
Proof. all: solve_enum. Defined.

Inductive WorkspaceTaskStrategy := StrategyDirect | StrategyGitWorktree.

#[export] Instance WorkspaceTaskStrategy_eq_dec : EqDecision WorkspaceTaskStrategy.
Proof. solve_decision. Defined.

#[export, refine] Instance WorkspaceTaskStrategy_enum : StringEnum WorkspaceTaskStrategy := {|
  enum_values := [StrategyDirect; StrategyGitWorktree];
  enum_name k := match k with
    | StrategyDirect => "direct" | StrategyGitWorktree => "git_worktree"
    end%string |}.
Proof. all: solve_enum. Defined.

Inductive WorkspaceTaskIsolationKind := IsolationFixed | IsolationGitWorktree.

#[export] Instance WorkspaceTaskIsolationKind_eq_dec : EqDecision WorkspaceTaskIsolationKind.
Proof. solve_decision. Defined.

#[export, refine] Instance WorkspaceTaskIsolationKind_enum : StringEnum WorkspaceTaskIsolationKind := {|
  enum_values := [IsolationFixed; IsolationGitWorktree];
  enum_name k := match k with
    | IsolationFixed => "fixed" | IsolationGitWorktree => "git_worktree"
    end%string |}.
Proof. all: solve_enum. Defined.

Inductive WorkspaceTaskRunState :=
| TaskPreparing | TaskActive | TaskCollecting | TaskProposed | TaskReleasing | TaskReleased
| TaskAttention.

#[export] Instance WorkspaceTaskRunState_eq_dec : EqDecision WorkspaceTaskRunState.
Proof. solve_decision. Defined.

#[export, refine] Instance WorkspaceTaskRunState_enum : StringEnum WorkspaceTaskRunState := {|
  enum_values := [TaskPreparing; TaskActive; TaskCollecting; TaskProposed; TaskReleasing;
    TaskReleased; TaskAttention];
  enum_name k := match k with
    | TaskPreparing => "preparing" | TaskActive => "active" | TaskCollecting => "collecting"
    | TaskProposed => "proposed" | TaskReleasing => "releasing" | TaskReleased => "released"
    | TaskAttention => "attention"
    end%string |}.
Proof. all: solve_enum. Defined.

Inductive WorkspaceTaskRunOutcome :=
| OutcomeReadOnlyCompleted | OutcomeNoChanges | OutcomeProposed | OutcomeExecutionFailed
| OutcomeCancelled.

#[export] Instance WorkspaceTaskRunOutcome_eq_dec : EqDecision WorkspaceTaskRunOutcome.
Proof. solve_decision. Defined.

Inductive WorkspaceTaskExecutionOutcome := ExecutionCompleted | ExecutionFailed | ExecutionCancelled.

#[export] Instance WorkspaceTaskExecutionOutcome_eq_dec : EqDecision WorkspaceTaskExecutionOutcome.
Proof. solve_decision. Defined.

#[export, refine] Instance WorkspaceTaskExecutionOutcome_enum :
  StringEnum WorkspaceTaskExecutionOutcome := {|
  enum_values := [ExecutionCompleted; ExecutionFailed; ExecutionCancelled];
  enum_name k := match k with
    | ExecutionCompleted => "completed" | ExecutionFailed => "failed"
    | ExecutionCancelled => "cancelled"
    end%string |}.
Proof. all: solve_enum. Defined.

Inductive WorkspaceTaskAttemptKind := TaskExecution | TaskRecovery | TaskContinuation.

Inductive WorkspaceTaskAttemptState :=
| TaskAttemptActive | TaskAttemptCompleted | TaskAttemptFailed | TaskAttemptExpired.

Inductive WorkspaceTaskClaimStatus := TaskClaimed | TaskBusy | TaskAlreadyTerminal.

#[export] Instance WorkspaceTaskClaimStatus_eq_dec : EqDecision WorkspaceTaskClaimStatus.
Proof. solve_decision. Defined.

Record WorkspaceTaskRootIdentity := {
  root_hostId : jstr;
  root_generationKey : jstr;
  root_rootId : jstr;
  root_device : jstr;
  root_inode : jstr;
}.

#[export] Instance WorkspaceTaskRootIdentity_eq_dec : EqDecision WorkspaceTaskRootIdentity.
Proof. solve_decision. Defined.

Record WorkspaceTaskPreparedIsolationIdentity := {
  pi_baseRevision : jstr;
  pi_runtimeRef : jstr;
}.

#[export] Instance WorkspaceTaskPreparedIsolationIdentity_eq_dec :
  EqDecision WorkspaceTaskPreparedIsolationIdentity.
Proof. solve_decision. Defined.

Record WorkspaceTaskIsolationIdentity := {
  ii_id : jstr;
  ii_kind : WorkspaceTaskIsolationKind;
  ii_repositoryId : option jstr;
  ii_baseRevision : option jstr;
  ii_runtimeRef : option jstr;
}.

#[export] Instance WorkspaceTaskIsolationIdentity_eq_dec : EqDecision WorkspaceTaskIsolationIdentity.
Proof. solve_decision. Defined.

(** [wr_executionEnvironment]: the binding, as its document. *)
Record WorkspaceTaskRunRecord := {
  wr_id : jstr;
  wr_workspaceId : jstr;
  wr_principalId : jstr;
  wr_access : WorkspaceTaskAccess;
  wr_strategy : WorkspaceTaskStrategy;
  wr_rootIdentity : WorkspaceTaskRootIdentity;
  wr_isolationIdentity : WorkspaceTaskIsolationIdentity;
  wr_executionEnvironment : app_json;
  wr_jobId : option jstr;
  wr_agentId : option jstr;
  wr_state : WorkspaceTaskRunState;
  wr_executionOutcome : option WorkspaceTaskExecutionOutcome;
  wr_outcome : option WorkspaceTaskRunOutcome;
  wr_summary : option jstr;
  wr_resourceIds : list jstr;
  wr_changeSetId : option jstr;
  wr_proposalId : option jstr;
  wr_failure : option app_json;
  wr_createdAt : jsnum;
  wr_updatedAt : jsnum;
  wr_finishedAt : option jsnum;
}.

Record WorkspaceTaskAttemptRecord := {
  wa_id : jstr;
  wa_runId : jstr;
  wa_ownerId : jstr;
  wa_kind : WorkspaceTaskAttemptKind;
  wa_state : WorkspaceTaskAttemptState;
  wa_leaseExpiresAt : jsnum;
  wa_failure : option app_json;
  wa_startedAt : jsnum;
  wa_updatedAt : jsnum;
  wa_finishedAt : option jsnum;
}.

Record WorkspaceTaskRunSnapshot := {
  ws_run : WorkspaceTaskRunRecord;
  ws_activeAttempt : option WorkspaceTaskAttemptRecord;
}.

Record WorkspaceTaskClaimResult := {
  wc_status : WorkspaceTaskClaimStatus;
  wc_snapshot : WorkspaceTaskRunSnapshot;
}.

(** ** Requests *)

Record WorkspaceTaskRunIdentityRequest := {
  ri_runId : jstr;
  ri_attemptId : jstr;
  ri_claimToken : jstr;
}.

#[export] Instance WorkspaceTaskRunIdentityRequest_eq_dec : EqDecision WorkspaceTaskRunIdentityRequest.
Proof. solve_decision. Defined.

Record BeginWorkspaceTaskRunRequest := {
  br_id : jstr;
  br_workspaceId : jstr;
  br_principalId : jstr;
  br_access : WorkspaceTaskAccess;
  br_strategy : WorkspaceTaskStrategy;
  br_rootIdentity : WorkspaceTaskRootIdentity;
  br_isolationIdentity : WorkspaceTaskIsolationIdentity;
  br_executionEnvironment : app_json;
  br_jobId : option jstr;
  br_agentId : option jstr;
  br_attemptId : jstr;
  br_ownerId : jstr;
  br_claimToken : jstr;
  br_leaseMs : jsnum;
}.

Record ClaimWorkspaceTaskRecoveryRequest := {
  cr_identity : WorkspaceTaskRunIdentityRequest;
  cr_ownerId : jstr;
  cr_leaseMs : jsnum;
}.

Record ClaimWorkspaceTaskContinuationRequest := {
  cc_identity : WorkspaceTaskRunIdentityRequest;
  cc_ownerId : jstr;
  cc_leaseMs : jsnum;
  cc_executionEnvironment : app_json;
}.

Record BeginWorkspaceTaskCollectionRequest := {
  bc_executionOutcome : WorkspaceTaskExecutionOutcome;
  bc_summary : option jstr;
  bc_resourceIds : list jstr;
  bc_failure : option app_json;
}.

(** The two forms of a finalization. *)
Inductive FinalizeWorkspaceTaskCollectionRequest :=
| FinalizeProposed (changeSet : WorkspaceChangeSet) (proposalId : jstr) (title : option jstr)
    (proposalMetadata : option app_json)
| FinalizeUnchanged (outcome : WorkspaceTaskRunOutcome).

Record ListWorkspaceTaskRunsRequest := {
  lr_workspaceId : option jstr;
  lr_rootIdentity : option WorkspaceTaskRootIdentity;
  lr_state : option WorkspaceTaskRunState;
  lr_leaseExpiresBefore : option jsnum;
  lr_limit : option jsnum;
}.

(** * Resources ([resource.ts]) *)

Inductive ResourceKind :=
| ResourceFile | ResourceImage | ResourceVideo | ResourceAudio | ResourceDocument
| ResourceArtifact | ResourceLog | ResourcePatch | ResourceUrl.

Inductive ResourceOrigin :=
| UserUpload | ModelOutput | ToolOutput | ProviderFileOrigin | RemoteUrlOrigin | SystemOrigin.

Inductive ResourceState :=
| ResourcePending | ResourceFetching | ResourceAvailable | ResourceFailed | ResourceExpired
| ResourceDeleted.

Record ResourceSource := {
  rsrc_provider : option jstr;
  rsrc_providerFileId : option jstr;
  rsrc_providerOperationId : option jstr;
  rsrc_sourceUrl : option jstr;
  rsrc_sourceExpiresAt : option jsnum;
}.

Record ResourceRecord := {
  rs_id : jstr;
  rs_logicalPath : jstr;
  rs_kind : ResourceKind;
  rs_origin : ResourceOrigin;
  rs_state : ResourceState;
  rs_mediaType : option jstr;
  rs_label : option jstr;
  rs_sizeBytes : jsnum;
  rs_sha256 : jstr;
  rs_source : option ResourceSource;
  rs_metadata : option app_json;
  rs_width : option jsnum;
  rs_height : option jsnum;
  rs_durationMs : option jsnum;
  rs_createdAt : jsnum;
  rs_updatedAt : jsnum;
}.

(** What a provider or a handler hands over ([runtime/src/resources/types.ts]). *)
Inductive artifact_content :=
| Base64Output (data : jstr)
| InlineBytesOutput (bytes : list N)
| ProviderFileOutput (fileId : jstr) (placeholderText : option jstr)
| RemoteUrlOutput (url : jstr) (expiresAt : option jsnum) (placeholderText : option jstr)
| AsyncOperationOutput (operationId : jstr) (placeholderText : option jstr).

Record ProviderArtifactOutput := {
  po_content : artifact_content;
  po_mediaType : option jstr;
  po_kind : option ResourceKind;
  po_origin : option ResourceOrigin;
  po_label : option jstr;
  po_provider : option jstr;
  po_metadata : option app_json;
  po_width : option jsnum;
  po_height : option jsnum;
  po_durationMs : option jsnum;
}.

(** * Errors ([types.ts], [receipt.ts], [git/projection.ts]) *)

Inductive GitProjectionAttentionCode :=
| CodeBinary | CodeLinkOrReparse | CodeGitlink | CodeModeOnly | CodeRename | CodeCopy
| CodeUnsupportedStatus | CodePathInvalid | CodeIdentityDrift | CodeLimitExceeded | CodeReadFailed.

#[export] Instance GitProjectionAttentionCode_eq_dec : EqDecision GitProjectionAttentionCode.
Proof. solve_decision. Defined.

#[export, refine] Instance GitProjectionAttentionCode_enum : StringEnum GitProjectionAttentionCode := {|
  enum_values := [CodeBinary; CodeLinkOrReparse; CodeGitlink; CodeModeOnly; CodeRename; CodeCopy;
    CodeUnsupportedStatus; CodePathInvalid; CodeIdentityDrift; CodeLimitExceeded; CodeReadFailed];
  enum_name k := match k with
    | CodeBinary => "binary" | CodeLinkOrReparse => "link_or_reparse" | CodeGitlink => "gitlink"
    | CodeModeOnly => "mode_only" | CodeRename => "rename" | CodeCopy => "copy"
    | CodeUnsupportedStatus => "unsupported_status" | CodePathInvalid => "path_invalid"
    | CodeIdentityDrift => "identity_drift" | CodeLimitExceeded => "limit_exceeded"
    | CodeReadFailed => "read_failed"
    end%string |}.
Proof. all: solve_enum. Defined.

Record GitProjectionAttention := {
  ga_code : GitProjectionAttentionCode;
  ga_path : option jstr;
  ga_previousPath : option jstr;
  ga_status : option jstr;
  ga_detail : option jstr;
}.

(** [...(x === undefined ? {} : { key: x })] *)
Definition optional (key : string) (value : option app_json) : list (jstr * app_json) :=
  match value with Some value => [(js key, value)] | None => [] end.

Definition projectionAttentionToJson (attention : GitProjectionAttention) : app_json :=
  AppObj ((js "code", json_name (ga_code attention)) ::
    optional "path" (AppStr <$> ga_path attention) ++
    optional "previousPath" (AppStr <$> ga_previousPath attention) ++
    optional "status" (AppStr <$> ga_status attention) ++
    optional "detail" (AppStr <$> ga_detail attention)).

Record WorkspaceTaskError := {
  te_message : jstr;
  te_name : option jstr;
  te_details : option app_json;
}.

Inductive WorkspaceTaskStatus := TaskSucceeded | TaskFailed.

#[export] Instance WorkspaceTaskStatus_eq_dec : EqDecision WorkspaceTaskStatus.
Proof. solve_decision. Defined.

#[export, refine] Instance WorkspaceTaskStatus_enum : StringEnum WorkspaceTaskStatus := {|
  enum_values := [TaskSucceeded; TaskFailed];
  enum_name k := match k with
    | TaskSucceeded => "succeeded" | TaskFailed => "failed"
    end%string |}.
Proof. all: solve_enum. Defined.

(** The result of a task's job. *)
Record WorkspaceTaskJobResult := {
  tj_taskId : jstr;
  tj_status : WorkspaceTaskStatus;
  tj_access : WorkspaceTaskAccess;
  tj_workspaceId : jstr;
  tj_principalId : jstr;
  tj_resourceIds : list jstr;
  tj_changeSetId : option jstr;
  tj_proposalId : option jstr;
  tj_summary : option jstr;
  tj_error : option WorkspaceTaskError;
}.

(** What may be thrown: an [Error], the classes that the code tells apart, or another
    value, by its text. *)
Inductive task_thrown :=
| ErrorThrown (name message : jstr)
| GitProjectionThrown (attention : GitProjectionAttention)
| AttentionThrown (failure : WorkspaceTaskError)
| CleanupRequiredThrown
| JobFailedThrown (failed : WorkspaceTaskJobResult)
| ValueThrown (text : jstr)
| UndefinedThrown.

Definition task_error (message : jstr) : task_thrown := ErrorThrown (js "Error") message.

(** The name and the message of an [Error]. *)
Definition error_parts (error : task_thrown) : option (jstr * jstr) :=
  match error with
  | ErrorThrown name message => Some (name, message)
  | GitProjectionThrown _ =>
      Some (js "GitProjectionError", js "workspace Git projection requires attention")
  | AttentionThrown failure =>
      Some (default (js "WorkspaceTaskAttentionError") (te_name failure), te_message failure)
  | CleanupRequiredThrown =>
      Some (js "ExecutionCleanupRequiredError",
        js "execution process tree cleanup could not be proven")
  | JobFailedThrown failed => Some (js "WorkspaceTaskJobFailedError",
      default (js "workspace task failed: " ++ tj_taskId failed) (te_message <$> tj_error failed))
  | ValueThrown _ | UndefinedThrown => None
  end.

(** [String(error)] of a value that is no [Error]. *)
Definition value_text (error : task_thrown) : jstr :=
  match error with ValueThrown text => text | _ => js "undefined" end.

(** ** Redaction *)

(** [text.replaceAll(pattern, replacement)] for a pattern that is not empty, where the
    first [skip] units belong to a match that was replaced. *)
Fixpoint replace_from (pattern replacement : jstr) (skip : nat) (text : jstr) : jstr :=
  match text with
  | [] => []
  | c :: rest =>
      match skip with
      | S skip => replace_from pattern replacement skip rest
      | 0 =>
          if starts_with pattern text
          then replacement ++ replace_from pattern replacement (length pattern - 1) rest
          else c :: replace_from pattern replacement 0 rest
      end
  end.

Definition replace_text (pattern replacement text : jstr) : jstr :=
  replace_from pattern replacement 0 text.

Definition SLASH : N := 47.
Definition BACKSLASH : N := 92.

Definition swap_char (from to : N) (text : jstr) : jstr :=
  (fun c => if decide (c = from) then to else c) <$> text.

Definition alternate_path (path : jstr) : jstr :=
  if decide (BACKSLASH ∈ path) then swap_char BACKSLASH SLASH path
  else swap_char SLASH BACKSLASH path.

Definition WORKSPACE_MARK : jstr := js "<workspace>".

Definition redact_path (message path : jstr) : jstr :=
  if decide (path = []) then message
  else replace_text (alternate_path path) WORKSPACE_MARK (replace_text path WORKSPACE_MARK message).

Definition redactSensitivePaths (message : jstr) (sensitivePaths : list jstr) : jstr :=
  foldl redact_path message sensitivePaths.

Definition serializeWorkspaceTaskError (error : task_thrown) (sensitivePaths : list jstr)
    : WorkspaceTaskError :=
  match error_parts error with
  | Some (name, message) => {|
      te_message := redactSensitivePaths message sensitivePaths;
      te_name := if decide (name = []) then None else Some name;
      te_details := match error with
        | GitProjectionThrown attention =>
            Some (AppObj [(js "attention", projectionAttentionToJson attention)])
        | _ => None
        end |}
  | None => {|
      te_message := redactSensitivePaths (value_text error) sensitivePaths;
      te_name := None; te_details := None |}
  end.

Definition option_or {A} (x y : option A) : option A := match x with Some _ => x | None => y end.

Definition combineWorkspaceTaskErrors (taskError releaseError : WorkspaceTaskError)
    : WorkspaceTaskError :=
  if bool_decide (te_message taskError = te_message releaseError) &&
     bool_decide (te_name taskError = te_name releaseError)
  then taskError
  else {| te_message := te_message taskError ++ js "; release failed: " ++ te_message releaseError;
          te_name := option_or (te_name taskError) (te_name releaseError);
          te_details := None |}.

Definition workspaceTaskFailureJson (error : WorkspaceTaskError) (type : jstr) : app_json :=
  AppObj ([(js "type", AppStr type); (js "message", AppStr (te_message error))] ++
    optional "name" (AppStr <$> te_name error) ++ optional "details" (te_details error)).

Definition EXECUTION_FAILED : jstr := js "workspace_task.execution_failed".
Definition RECOVERY_REQUIRED : jstr := js "workspace_task.recovery_required".
Definition ENVIRONMENT_CHANGED : jstr := js "workspace_task.execution_environment_changed".

Definition workspaceTaskErrorFromJson (value : option app_json) : option WorkspaceTaskError :=
  match value with
  | Some (AppObj record) =>
      match prop "message" record with
      | Some (AppStr message) => Some {|
          te_message := message;
          te_name := match prop "name" record with Some (AppStr name) => Some name | _ => None end;
          te_details := prop "details" record |}
      | _ => None
      end
  | _ => None
  end.

(** * Receipts *)

Record WorkspaceTaskReceipt := {
  rt_taskId : jstr;
  rt_status : WorkspaceTaskStatus;
  rt_access : WorkspaceTaskAccess;
  rt_workspaceId : jstr;
  rt_principalId : jstr;
  rt_resources : list ResourceRecord;
  rt_changeSet : option WorkspaceChangeSetRecord;
  rt_proposal : option WorkspaceChangeProposalRecord;
  rt_summary : option jstr;
  rt_error : option WorkspaceTaskError;
}.

(** The status of a run that is over, as a receipt reports it. *)
Definition snapshot_status (run : WorkspaceTaskRunRecord) : WorkspaceTaskStatus :=
  if bool_decide (wr_state run = TaskReleased) &&
     negb (bool_decide (wr_outcome run = Some OutcomeExecutionFailed) ||
           bool_decide (wr_outcome run = Some OutcomeCancelled))
  then TaskSucceeded else TaskFailed.

(** * Identities ([identity.ts], [isolation.ts]) *)

(** [/^[0-9]{1,128}$/u] *)
Definition is_decimal (s : jstr) : bool :=
  bool_decide (1 ≤ length s ∧ length s ≤ 128) && forallb is_digit s.

Definition opaque_root (value : jstr) (key : string) : result task_thrown unit :=
  guard_throw (negb (is_opaque value))
    (task_error (js "workspace task root " ++ js key ++ js " must be an opaque identifier")).

Definition decimal_root (value : jstr) (key : string) : result task_thrown unit :=
  guard_throw (negb (is_decimal value))
    (task_error (js "workspace task root " ++ js key ++ js " must be a decimal identity")).

Definition freezeTaskRootIdentity (root : WorkspaceTaskRootIdentity)
    : result task_thrown WorkspaceTaskRootIdentity :=
  _ ← opaque_root (root_hostId root) "hostId";
  _ ← opaque_root (root_generationKey root) "generationKey";
  _ ← opaque_root (root_rootId root) "rootId";
  _ ← decimal_root (root_device root) "device";
  _ ← decimal_root (root_inode root) "inode";
  Ok root.

Definition sameTaskRoot (left right : WorkspaceTaskRootIdentity) : bool :=
  bool_decide (root_hostId left = root_hostId right) &&
  bool_decide (root_generationKey left = root_generationKey right) &&
  bool_decide (root_rootId left = root_rootId right) &&
  bool_decide (root_device left = root_device right) &&
  bool_decide (root_inode left = root_inode right).

Section identity.
(** [sha256]: the hexadecimal SHA-256 digest of a text. *)
Context (number_text : jsnum → jstr) (sha256 : jstr → jstr).

(** What the identifier of an isolation is taken of. *)
Definition isolation_text (root : WorkspaceTaskRootIdentity) (taskId : jstr)
    (strategy : WorkspaceTaskStrategy) : jstr :=
  stringify number_text (AppArr (AppStr <$> [root_hostId root; root_generationKey root;
    root_rootId root; root_device root; root_inode root; taskId; name_of strategy])).

(** [git]: the repository of the git capability, if there is one. *)
Definition taskIsolationIdentity (root : WorkspaceTaskRootIdentity) (taskId : jstr)
    (strategy : WorkspaceTaskStrategy) (access : WorkspaceTaskAccess) (git : option jstr)
    : result task_thrown WorkspaceTaskIsolationIdentity :=
  let id := js "wiso_" ++ take 32 (sha256 (isolation_text root taskId strategy)) in
  match strategy with
  | StrategyDirect =>
      _ ← guard_throw (bool_decide (access ≠ AccessReadOnly))
            (task_error (js "direct writable tasks must use Workspace ChangeSet transactions"));
      Ok {| ii_id := id; ii_kind := IsolationFixed; ii_repositoryId := None;
            ii_baseRevision := None; ii_runtimeRef := None |}
  | StrategyGitWorktree =>
      match access, git with
      | AccessWritable, Some repositoryId =>
          _ ← guard_throw (negb (is_opaque repositoryId))
                (task_error (js "workspace task repositoryId must be an opaque identifier"));
          Ok {| ii_id := id; ii_kind := IsolationGitWorktree; ii_repositoryId := Some repositoryId;
                ii_baseRevision := None; ii_runtimeRef := None |}
      | _, _ => Throw (task_error
          (js "git_worktree tasks require writable access and a configured Git capability"))
      end
  end.

Definition assertTaskRuntimeIdentity (run : WorkspaceTaskRunRecord)
    (root : WorkspaceTaskRootIdentity) (git : option jstr) : result task_thrown unit :=
  _ ← guard_throw (negb (sameTaskRoot (wr_rootIdentity run) root))
        (task_error (js "workspace task belongs to a different root identity"));
  expected ← taskIsolationIdentity root (wr_id run) (wr_strategy run) (wr_access run) git;
  guard_throw
    (bool_decide (ii_kind (wr_isolationIdentity run) ≠ ii_kind expected) ||
     bool_decide (ii_repositoryId (wr_isolationIdentity run) ≠ ii_repositoryId expected))
    (task_error (js "workspace task belongs to a different isolation capability")).
End identity.

Record WorkspaceIsolationRequest := {
  ir_rootIdentity : WorkspaceTaskRootIdentity;
  ir_expectedBaseRevision : option jstr;
  ir_isolationId : jstr;
  ir_workspaceId : jstr;
  ir_jobId : jstr;
  ir_agentId : option jstr;
}.

Record WorkspaceIsolationLease := {
  il_id : jstr;
  il_kind : WorkspaceTaskIsolationKind;
  il_repositoryId : option jstr;
  il_rootDir : jstr;
  il_workspaceId : option jstr;
  il_jobId : option jstr;
  il_agentId : option jstr;
  il_baseRevision : option jstr;
  il_branchName : option jstr;
  il_createdAt : jsnum;
}.

Record WorkspaceIsolationDurableIdentity := {
  di_id : jstr;
  di_kind : WorkspaceTaskIsolationKind;
  di_repositoryId : option jstr;
  di_baseRevision : option jstr;
  di_branchName : option jstr;
}.

(** * Payloads and results of jobs ([codec.ts]) *)

Record WorkspaceTaskJobPayload := {
  tp_handlerId : jstr;
  tp_access : WorkspaceTaskAccess;
  tp_strategy : WorkspaceTaskStrategy;
  tp_input : app_json;
  tp_taskId : option jstr;
  tp_workspaceId : option jstr;
  tp_principalId : option jstr;
  tp_jobId : option jstr;
  tp_agentId : option jstr;
}.

Definition taskErrorToJson (error : WorkspaceTaskError) : app_json :=
  AppObj ((js "message", AppStr (te_message error)) ::
    optional "name" (AppStr <$> te_name error) ++ optional "details" (te_details error)).

Definition workspaceTaskJobResultToJson (result : WorkspaceTaskJobResult) : app_json :=
  AppObj ([(js "taskId", AppStr (tj_taskId result));
      (js "status", json_name (tj_status result));
      (js "access", json_name (tj_access result));
      (js "workspaceId", AppStr (tj_workspaceId result));
      (js "principalId", AppStr (tj_principalId result));
      (js "resourceIds", AppArr (AppStr <$> tj_resourceIds result))] ++
    optional "changeSetId" (AppStr <$> tj_changeSetId result) ++
    optional "proposalId" (AppStr <$> tj_proposalId result) ++
    optional "summary" (AppStr <$> tj_summary result) ++
    optional "error" (taskErrorToJson <$> tj_error result)).

Definition workspaceTaskJobResultFromReceipt (receipt : WorkspaceTaskReceipt)
    : WorkspaceTaskJobResult := {|
  tj_taskId := rt_taskId receipt; tj_status := rt_status receipt; tj_access := rt_access receipt;
  tj_workspaceId := rt_workspaceId receipt; tj_principalId := rt_principalId receipt;
  tj_resourceIds := rs_id <$> rt_resources receipt;
  tj_changeSetId := (fun changeSet => js (sr_id changeSet)) <$> rt_changeSet receipt;
  tj_proposalId := (fun proposal => js (pr_id proposal)) <$> rt_proposal receipt;
  tj_summary := rt_summary receipt; tj_error := rt_error receipt |}.

Definition payload_fields (payload : WorkspaceTaskJobPayload) : list (jstr * app_json) :=
  [(js "handlerId", AppStr (tp_handlerId payload));
   (js "access", json_name (tp_access payload));
   (js "strategy", json_name (tp_strategy payload));
   (js "input", tp_input payload)] ++
  optional "taskId" (AppStr <$> tp_taskId payload) ++
  optional "workspaceId" (AppStr <$> tp_workspaceId payload) ++
  optional "principalId" (AppStr <$> tp_principalId payload) ++
  optional "jobId" (AppStr <$> tp_jobId payload) ++
  optional "agentId" (AppStr <$> tp_agentId payload).

Definition workspaceTaskJobPayloadToJson (payload : WorkspaceTaskJobPayload) : app_json :=
  AppObj (payload_fields payload).

Definition PAYLOAD_FIELDS : list jstr :=
  js <$> ["handlerId"; "access"; "strategy"; "input"; "taskId"; "workspaceId"; "principalId";
    "jobId"; "agentId"]%string.

Definition codec_error {A} (message : jstr) : result task_thrown A := Throw (task_error message).

Definition assertOnlyPayloadFields (payload : list (jstr * app_json)) : result task_thrown unit :=
  match list_find (fun field => field ∉ PAYLOAD_FIELDS) payload.*1 with
  | Some (_, field) => codec_error (js "workspace.task payload contains unsupported field: " ++ field)
  | None => Ok tt
  end.

Definition expect_string (value : option app_json) (name : jstr) : result task_thrown jstr :=
  match value with
  | Some (AppStr s) => Ok s
  | _ => codec_error (name ++ js " must be a string")
  end.

Definition expectAccess (value : option app_json) : result task_thrown WorkspaceTaskAccess :=
  match member value with
  | Some access => Ok access
  | None => codec_error (js "workspace.task.access must be read_only or writable")
  end.

Definition expectStrategy (value : option app_json) : result task_thrown WorkspaceTaskStrategy :=
  match member value with
  | Some strategy => Ok strategy
  | None => codec_error (js "workspace.task.strategy is invalid")
  end.

(** A field of the payload that may be missing. *)
Definition expect_optional (payload : list (jstr * app_json)) (key : string)
    : result task_thrown (option jstr) :=
  match prop key payload with
  | None => Ok None
  | value => s ← expect_string value (js "workspace.task." ++ js key); Ok (Some s)
  end.

Definition workspaceTaskJobPayloadFromJson (payload : app_json)
    : result task_thrown WorkspaceTaskJobPayload :=
  match payload with
  | AppObj payload =>
      _ ← assertOnlyPayloadFields payload;
      handlerId ← expect_string (prop "handlerId" payload) (js "workspace.task.handlerId");
      _ ← guard_throw (bool_decide (handlerId = []))
            (task_error (js "workspace.task.handlerId must not be empty"));
      match prop "input" payload with
      | None => codec_error (js "workspace.task.input is required")
      | Some input =>
          access ← expectAccess (prop "access" payload);
          strategy ← expectStrategy (prop "strategy" payload);
          taskId ← expect_optional payload "taskId";
          workspaceId ← expect_optional payload "workspaceId";
          principalId ← expect_optional payload "principalId";
          jobId ← expect_optional payload "jobId";
          agentId ← expect_optional payload "agentId";
          Ok {| tp_handlerId := handlerId; tp_access := access; tp_strategy := strategy;
                tp_input := input; tp_taskId := taskId; tp_workspaceId := workspaceId;
                tp_principalId := principalId; tp_jobId := jobId; tp_agentId := agentId |}
      end
  | _ => codec_error (js "workspace.task payload must be an object")
  end.

(** * Redaction *)

(** [text] contains [part]. *)
Definition occurs (part text : jstr) : Prop := ∃ before after, text = before ++ part ++ after.

Lemma occurs_split part c a b : c ∉ part → occurs part (a ++ c :: b) → occurs part a ∨ occurs part b.
Proof.
  intros Hc (before & after & Heq).
  apply app_eq_inv in Heq as [(k & -> & Hk)|(k & -> & Hk)].
  - symmetry in Hk. apply app_eq_inv in Hk as [(l & -> & Hl)|(l & -> & Hl)].
    + left. by exists before, l.
    + destruct l as [|d l]; simplify_list_eq; [left; exists before, []; by rewrite !app_nil_r|].
      set_solver.
  - destruct k as [|d k]; simplify_list_eq.
    + destruct part as [|d part]; simplify_list_eq; [|set_solver].
      left. exists a, []. by rewrite !app_nil_r.
    + right. by exists k, after.
Qed.

Lemma starts_with_app p s : starts_with p (p ++ s) = true.
Proof. apply bool_decide_eq_true. by rewrite take_app_length. Qed.

Lemma starts_with_inv p s : starts_with p s = true → s = p ++ drop (length p) s.
Proof.
  intros Hp%bool_decide_eq_true. rewrite <-(take_drop (length p) s) at 1. by rewrite Hp.
Qed.

Lemma replace_from_skip p r k t : replace_from p r k t = replace_from p r 0 (drop k t).
Proof. revert t. induction k as [|k IH]; intros [|c t]; simpl; auto. Qed.

(** What [replaceAll] does: it cuts the text at the pattern into parts without it. *)
Lemma replace_text_parts p r t :
  p ≠ [] → ∃ part parts, t = join p (part :: parts) ∧ replace_text p r t = join r (part :: parts) ∧
    Forall (fun part => ¬ occurs p part) (part :: parts).
Proof.
  intros Hp. unfold replace_text. remember (length t) as n eqn:Hn.
  revert t Hn. induction (lt_wf n) as [n _ IH]. intros t ->. destruct t as [|c t].
  { exists [], []. split; [done|]. split; [done|]. constructor; [|done].
    intros ([|] & [|] & Heq); destruct p; simplify_list_eq. }
  simpl replace_from. destruct (starts_with p (c :: t)) eqn:Hs.
  - apply starts_with_inv in Hs. destruct p as [|d p]; [done|]. simpl in Hs.
    injection Hs as -> Ht. rewrite replace_from_skip. simpl. rewrite Nat.sub_0_r.
    destruct (IH (length (drop (length p) t))) with (t := drop (length p) t)
      as (part & parts & Hd & Hr & Hall); [simpl; rewrite length_drop; lia|done|].
    exists [], (part :: parts). rewrite Hr. split; [|split; [done|constructor; [|done]]].
    + rewrite Ht, Hd at 1. by rewrite <-Hd.
    + intros ([|] & [|] & Heq); simplify_list_eq.
  - destruct (IH (length t)) with (t := t) as (part & parts & Hd & Hr & Hall); [simpl; lia|done|].
    rewrite Hr. exists (c :: part), parts.
    assert (∀ s, join s ((c :: part) :: parts) = c :: join s (part :: parts)) as Hjoin
      by (intros s; by destruct parts).
    rewrite !Hjoin, <-Hd. split; [done|]. split; [done|]. apply Forall_cons in Hall as [H1 H2].
    constructor; [|done]. intros ([|d before] & after & Heq); [|injection Heq as -> Heq].
    + rewrite Hd in Hs. apply not_true_iff_false in Hs. apply Hs.
      simpl in Heq. rewrite <-Hjoin, Heq. destruct parts as [|part' parts]; simpl; [by apply starts_with_app|].
      rewrite <-!app_assoc. apply starts_with_app.
    + apply H1. by exists before, after.
Qed.

(** A text without the marks' brackets and with a unit that the mark has not: it occurs in
    a text with marks only between them. *)
Definition apart (pattern : jstr) : Prop :=
  60%N ∉ pattern ∧ 62%N ∉ pattern ∧ ∃ c, c ∈ pattern ∧ c ∉ WORKSPACE_MARK.

Lemma not_occurs_join p parts :
  apart p → Forall (fun part => ¬ occurs p part) parts → ¬ occurs p (join WORKSPACE_MARK parts).
Proof.
  intros (Hlt & Hgt & c & Hc & Hmark). induction 1 as [|part parts Hpart Hparts IH].
  { intros (before & after & Heq). destruct before, p; simplify_list_eq. set_solver. }
  destruct parts as [|part' parts]; [done|].
  change (join WORKSPACE_MARK (part :: part' :: parts))
    with (part ++ 60%N :: js "workspace" ++ 62%N :: join WORKSPACE_MARK (part' :: parts)).
  intros [?|[Hw|?]%occurs_split]%occurs_split; [done| |done|done|done].
  destruct Hw as (before & after & Heq). apply Hmark.
  assert (c ∈ js "workspace") as Hin by (rewrite Heq; set_solver).
  change WORKSPACE_MARK with (60%N :: js "workspace" ++ [62%N]). set_solver.
Qed.

Lemma occurs_within p a t b : occurs p t → occurs p (a ++ t ++ b).
Proof. intros (before & after & ->). exists (a ++ before), (after ++ b). by rewrite <-!app_assoc. Qed.

Lemma occurs_join sep p parts part : part ∈ parts → occurs p part → occurs p (join sep parts).
Proof.
  intros Hin Hp. induction parts as [|part' parts IH]; [by apply not_elem_of_nil in Hin|].
  destruct parts as [|part'' parts].
  - by apply list_elem_of_singleton in Hin as ->.
  - change (join sep (part' :: part'' :: parts)) with (part' ++ sep ++ join sep (part'' :: parts)).
    apply elem_of_cons in Hin as [->|Hin].
    + by apply (occurs_within _ []).
    + rewrite app_assoc, <-(app_nil_r (join _ _)). by apply occurs_within, IH.
Qed.

Lemma replace_text_not_occurs p t : apart p → ¬ occurs p (replace_text p WORKSPACE_MARK t).
Proof.
  intros Hp. destruct (replace_text_parts p WORKSPACE_MARK t) as (part & parts & _ & -> & Hall).
  { destruct Hp as (_ & _ & c & Hc & _). by intros ->; apply not_elem_of_nil in Hc. }
  by apply not_occurs_join.
Qed.

Lemma replace_text_keeps p q t :
  q ≠ [] → apart p → ¬ occurs p t → ¬ occurs p (replace_text q WORKSPACE_MARK t).
Proof.
  intros Hq Hp Ht. destruct (replace_text_parts q WORKSPACE_MARK t) as (part & parts & Hd & -> & _);
    [done|].
  apply not_occurs_join; [done|]. apply Forall_forall. intros part' Hin Hocc. apply Ht.
  rewrite Hd. by eapply occurs_join.
Qed.

(** The path of a directory: it has a separator, and no brackets. *)
Definition path_like (path : jstr) : Prop :=
  60%N ∉ path ∧ 62%N ∉ path ∧ (SLASH ∈ path ∨ BACKSLASH ∈ path).

Lemma path_like_apart path : path_like path → apart path.
Proof.
  intros (Hlt & Hgt & Hs). split; [done|]. split; [done|].
  destruct Hs as [Hs|Hs]; eexists; (split; [exact Hs|]); apply (bool_decide_unpack _); vm_compute; exact I.
Qed.

Lemma alternate_path_like path : path_like path → path_like (alternate_path path).
Proof.
  assert (∀ from to c, c ∈ swap_char from to path → c = to ∨ c ∈ path) as Hswap.
  { intros from to c (d & -> & Hd)%list_elem_of_fmap. case_decide; auto. }
  assert (∀ from to, from ∈ path → to ∈ swap_char from to path) as Hto.
  { intros from to Hin. apply list_elem_of_fmap. exists from. by rewrite decide_True. }
  intros (Hlt & Hgt & Hs). unfold alternate_path. case_decide as Hb.
  - split; [by intros [?|?]%Hswap|]. split; [by intros [?|?]%Hswap|]. left. by apply Hto.
  - split; [by intros [?|?]%Hswap|]. split; [by intros [?|?]%Hswap|].
    right. apply Hto. by destruct Hs.
Qed.

Lemma path_like_ne path : path_like path → path ≠ [].
Proof. intros (_ & _ & Hs) ->. by destruct Hs as [?%not_elem_of_nil|?%not_elem_of_nil]. Qed.

Lemma replace_text_absent p r t : p ≠ [] → ¬ occurs p t → replace_text p r t = t.
Proof.
  intros Hp Ht. destruct (replace_text_parts p r t) as (part & parts & Hd & -> & _); [done|].
  destruct parts as [|part' parts]; [done|]. exfalso. apply Ht. rewrite Hd. by eexists _, _.
Qed.

(** Neither the path nor its form with the other separator occurs. *)
Definition hidden (path message : jstr) : Prop :=
  ¬ occurs path message ∧ ¬ occurs (alternate_path path) message.

Lemma redact_path_hides message path : path_like path → hidden path (redact_path message path).
Proof.
  intros Hpath. pose proof (alternate_path_like path Hpath) as Halt. unfold redact_path.
  rewrite decide_False by by apply path_like_ne. split.
  - apply replace_text_keeps; auto using path_like_ne, path_like_apart, replace_text_not_occurs.
  - by apply replace_text_not_occurs, path_like_apart.
Qed.

(** Redacting another path does not bring a path back. *)
Lemma redact_path_keeps message path q :
  path_like path → hidden path message → hidden path (redact_path message q).
Proof.
  intros Hpath Hh. pose proof (alternate_path_like path Hpath) as Halt. unfold redact_path.
  case_decide as Hq; [done|].
  assert (alternate_path q ≠ []) as Hq'.
  { unfold alternate_path. case_decide; by destruct q. }
  destruct Hh. split; auto 6 using replace_text_keeps, path_like_apart.
Qed.

Lemma redactSensitivePaths_hides paths message path :
  Forall path_like paths → path ∈ paths ∨ path_like path ∧ hidden path message →
  hidden path (redactSensitivePaths message paths).
Proof.
  intros Hp. revert message. induction Hp as [|q paths Hq Hp IH]; intros message Hin; simpl.
  { by destruct Hin as [?%not_elem_of_nil|[_ ?]]. }
  apply IH. destruct Hin as [[->|?]%elem_of_cons|[? ?]]; [|by left|]; right;
    auto using redact_path_hides, redact_path_keeps.
Qed.

Lemma redactSensitivePaths_absent paths message :
  Forall path_like paths → (∀ path, path ∈ paths → hidden path message) →
  redactSensitivePaths message paths = message.
Proof.
  intros Hp. induction Hp as [|q paths Hq Hp IH]; intros Hh; simpl; [done|].
  destruct (Hh q) as [H1 H2]; [set_solver|].
  assert (redact_path message q = message) as ->; [|apply IH; set_solver].
  unfold redact_path. rewrite decide_False by by apply path_like_ne.
  rewrite (replace_text_absent q) by (done || by apply path_like_ne).
  by apply replace_text_absent; [apply path_like_ne, alternate_path_like|].
Qed.

Lemma serializeWorkspaceTaskError_message error paths :
  te_message (serializeWorkspaceTaskError error paths) =
  redactSensitivePaths (default (value_text error) (snd <$> error_parts error)) paths.
Proof. by destruct error. Qed.

(** (C32) The message that [serializeWorkspaceTaskError] makes of an error contains none of the
    sensitive paths it is given, neither as they are written nor with the other separator, where
    these are paths without angle brackets; and it is the error's own message where that contains
    none of them. *)
Theorem serializeWorkspaceTaskError_redacts error paths :
  Forall path_like paths →
  let message := te_message (serializeWorkspaceTaskError error paths) in
  let own := default (value_text error) (snd <$> error_parts error) in
  (∀ path, path ∈ paths → hidden path message) ∧
  ((∀ path, path ∈ paths → hidden path own) → message = own).
Proof.
  intros Hp message own. subst message. rewrite serializeWorkspaceTaskError_message. split.
  - intros path Hin. apply redactSensitivePaths_hides; auto.
  - by apply redactSensitivePaths_absent.
Qed.

Lemma serializeWorkspaceTaskError_redacts_witness :
  let error := ErrorThrown (js "Error") (js "ENOENT: /srv/task/a.txt and \srv\task") in
  let paths := [js "/srv/task"] in
  te_message (serializeWorkspaceTaskError error paths) =
    js "ENOENT: <workspace>/a.txt and <workspace>" ∧
  (∀ path, path ∈ paths → hidden path (te_message (serializeWorkspaceTaskError error paths))).
Proof.
  split; [vm_compute; reflexivity|]. apply serializeWorkspaceTaskError_redacts.
  apply (bool_decide_unpack _). vm_compute. exact I.
Defined.

(** * The payload of a job *)

Lemma assertOnlyPayloadFields_Ok fields u :
  assertOnlyPayloadFields fields = Ok u ↔ Forall (.∈ PAYLOAD_FIELDS) fields.*1.
Proof.
  unfold assertOnlyPayloadFields. destruct (list_find _ _) as [[i key]|] eqn:Hf.
  - apply list_find_Some in Hf as (Hi & Hkey & _). split; [done|]. intros Hall.
    eapply Forall_lookup_1 in Hall; [|exact Hi]. done.
  - destruct u. apply list_find_None in Hf. split; [intros _|done].
    eapply Forall_impl; [exact Hf|]. intros key Hkey. by apply dec_stable in Hkey.
Qed.

Lemma payload_fields_keys p : NoDup (payload_fields p).*1 ∧ Forall (.∈ PAYLOAD_FIELDS) (payload_fields p).*1.
Proof.
  split; destruct p as [id access strategy input [] [] [] [] []];
    apply (bool_decide_unpack _); vm_compute; exact I.
Qed.

(** The fields that the decoder reads are those of the payload. *)
Definition payload_read (fields : list (jstr * app_json)) (p : WorkspaceTaskJobPayload) : Prop :=
  Forall (fun key => jget key fields = jget key (payload_fields p)) PAYLOAD_FIELDS.

Lemma payload_read_perm fields p :
  NoDup fields.*1 → Forall (.∈ PAYLOAD_FIELDS) fields.*1 →
  payload_read fields p ↔ fields ≡ₚ payload_fields p.
Proof.
  intros Hnd Hall. destruct (payload_fields_keys p) as [Hnd' Hall'].
  assert (∀ (m : list (jstr * app_json)) k v, NoDup m.*1 → (k, v) ∈ m ↔ jget k m = Some v) as Hget
    by (intros; split; [by apply elem_of_jget|apply jget_elem_of]).
  split.
  - intros Hread. apply NoDup_Permutation; [by eapply NoDup_fmap_1|by eapply NoDup_fmap_1|].
    unfold payload_read in Hread. rewrite Forall_forall in Hread, Hall, Hall'.
    intros [k v]. split; intros Hin.
    + apply Hget; [done|]. rewrite <-Hread; [by apply Hget|]. apply Hall. by apply (list_elem_of_fmap_2 fst) in Hin.
    + apply Hget; [done|]. rewrite Hread; [by apply Hget|]. apply Hall'. by apply (list_elem_of_fmap_2 fst) in Hin.
  - intros Hp. apply Forall_forall. intros key _. apply option_eq. intros v.
    rewrite <-!Hget by done. by rewrite Hp.
Qed.

Lemma expect_string_Ok value name s : expect_string value name = Ok s ↔ value = Some (AppStr s).
Proof. unfold expect_string. split; [by destruct value as [[]|]; intros; simplify_eq|by intros ->]. Qed.

Lemma expect_optional_Ok fields key s :
  expect_optional fields key = Ok s ↔ prop key fields = AppStr <$> s.
Proof.
  unfold expect_optional. destruct (prop key fields) as [[]|], s; simpl; split; intros; simplify_eq; done.
Qed.

Lemma expectAccess_Ok value access : expectAccess value = Ok access ↔ value = Some (json_name access).
Proof.
  unfold expectAccess. rewrite <-member_Some. destruct (member value); split; intros; by simplify_eq.
Qed.

Lemma expectStrategy_Ok value strategy :
  expectStrategy value = Ok strategy ↔ value = Some (json_name strategy).
Proof.
  unfold expectStrategy. rewrite <-member_Some. destruct (member value); split; intros; by simplify_eq.
Qed.

(** Decoding, step by step. *)
Lemma payload_decoded fields p :
  workspaceTaskJobPayloadFromJson (AppObj fields) = Ok p ↔
  Forall (.∈ PAYLOAD_FIELDS) fields.*1 ∧ tp_handlerId p ≠ [] ∧
  prop "handlerId" fields = Some (AppStr (tp_handlerId p)) ∧
  prop "input" fields = Some (tp_input p) ∧
  prop "access" fields = Some (json_name (tp_access p)) ∧
  prop "strategy" fields = Some (json_name (tp_strategy p)) ∧
  prop "taskId" fields = AppStr <$> tp_taskId p ∧
  prop "workspaceId" fields = AppStr <$> tp_workspaceId p ∧
  prop "principalId" fields = AppStr <$> tp_principalId p ∧
  prop "jobId" fields = AppStr <$> tp_jobId p ∧
  prop "agentId" fields = AppStr <$> tp_agentId p.
Proof.
  simpl. split.
  - intros H. apply result_bind_Ok in H as (u & Hf%assertOnlyPayloadFields_Ok & H).
    apply result_bind_Ok in H as (handlerId & Hid%expect_string_Ok & H).
    apply result_bind_Ok in H as (u' & Hne%guard_throw_Ok%bool_decide_eq_false & H).
    destruct (prop "input" fields) as [input|]; [|done].
    apply result_bind_Ok in H as (access & Ha%expectAccess_Ok & H).
    apply result_bind_Ok in H as (strategy & Hs%expectStrategy_Ok & H).
    apply result_bind_Ok in H as (taskId & H1%expect_optional_Ok & H).
    apply result_bind_Ok in H as (workspaceId & H2%expect_optional_Ok & H).
    apply result_bind_Ok in H as (principalId & H3%expect_optional_Ok & H).
    apply result_bind_Ok in H as (jobId & H4%expect_optional_Ok & H).
    apply result_bind_Ok in H as (agentId & H5%expect_optional_Ok & H).
    injection H as <-. simpl. by split_and!.
  - intros (Hf & Hne & Hid & Hin & Ha & Hs & H1 & H2 & H3 & H4 & H5).
    apply result_bind_Ok. exists tt. split; [by apply assertOnlyPayloadFields_Ok|].
    apply result_bind_Ok. eexists. split; [by apply expect_string_Ok|].
    apply result_bind_Ok. exists tt. split; [by apply guard_throw_Ok, bool_decide_eq_false|].
    rewrite Hin.
    apply result_bind_Ok. eexists. split; [by apply expectAccess_Ok|].
    apply result_bind_Ok. eexists. split; [by apply expectStrategy_Ok|].
    do 5 (apply result_bind_Ok; eexists; split; [by apply expect_optional_Ok|]).
    by destruct p.
Qed.

(** (C33) The payload of a task's job is decoded from exactly the objects that have its fields, in
    some order and no others, where the handler has a name; so what is enqueued is what the
    worker reads. *)
Theorem workspaceTaskJobPayloadFromJson_iff fields p :
  NoDup fields.*1 →
  workspaceTaskJobPayloadFromJson (AppObj fields) = Ok p ↔
  tp_handlerId p ≠ [] ∧ fields ≡ₚ payload_fields p.
Proof.
  intros Hnd. rewrite payload_decoded.
  assert (payload_read fields p ↔
    prop "handlerId" fields = Some (AppStr (tp_handlerId p)) ∧
    prop "access" fields = Some (json_name (tp_access p)) ∧
    prop "strategy" fields = Some (json_name (tp_strategy p)) ∧
    prop "input" fields = Some (tp_input p) ∧
    prop "taskId" fields = AppStr <$> tp_taskId p ∧
    prop "workspaceId" fields = AppStr <$> tp_workspaceId p ∧
    prop "principalId" fields = AppStr <$> tp_principalId p ∧
    prop "jobId" fields = AppStr <$> tp_jobId p ∧
    prop "agentId" fields = AppStr <$> tp_agentId p) as Hread.
  { unfold payload_read, PAYLOAD_FIELDS, prop. cbn [fmap list_fmap]. rewrite !Forall_cons, Forall_nil.
    destruct p as [id access strategy input [] [] [] [] []]; naive_solver. }
  split.
  - intros (Hf & Hne & H). split; [done|]. apply payload_read_perm; [done..|]. apply Hread. naive_solver.
  - intros [Hne Hp]. assert (Forall (.∈ PAYLOAD_FIELDS) fields.*1) as Hf.
    { rewrite Hp. apply payload_fields_keys. }
    apply payload_read_perm in Hp; [|done..]. apply Hread in Hp. naive_solver.
Qed.

Definition sample_payload : WorkspaceTaskJobPayload := {|
  tp_handlerId := js "index"; tp_access := AccessWritable; tp_strategy := StrategyGitWorktree;
  tp_input := AppObj [(js "depth", one)]; tp_taskId := Some (js "wtsk_1");
  tp_workspaceId := None; tp_principalId := Some (js "p"); tp_jobId := None; tp_agentId := None |}.

Lemma workspaceTaskJobPayloadFromJson_iff_witness :
  workspaceTaskJobPayloadFromJson (AppObj (rev (payload_fields sample_payload))) = Ok sample_payload ∧
  (workspaceTaskJobPayloadFromJson (AppObj (rev (payload_fields sample_payload))) = Ok sample_payload ↔
   tp_handlerId sample_payload ≠ [] ∧
   rev (payload_fields sample_payload) ≡ₚ payload_fields sample_payload).
Proof.
  split; [vm_compute; reflexivity|]. apply workspaceTaskJobPayloadFromJson_iff.
  apply (bool_decide_unpack _). vm_compute. exact I.
Defined.

(** A failure that a run records is read back. *)
Lemma workspaceTaskErrorFromJson_written error type :
  workspaceTaskErrorFromJson (Some (workspaceTaskFailureJson error type)) = Some error.
Proof. by destruct error as [message [name|] [details|]]. Qed.

(** * The identity of an isolation *)

Lemma sameTaskRoot_iff left right : sameTaskRoot left right = true ↔ left = right.
Proof.
  unfold sameTaskRoot. rewrite !andb_true_iff, !bool_decide_eq_true.
  destruct left, right. simpl. split; [naive_solver|by intros [= -> -> -> -> ->]].
Qed.

(** A strategy that is admitted for an access, with the repository it works on. *)
Definition admitted_strategy (strategy : WorkspaceTaskStrategy) (access : WorkspaceTaskAccess)
    (git : option jstr) (kind : WorkspaceTaskIsolationKind) (repositoryId : option jstr) : Prop :=
  match strategy with
  | StrategyDirect => access = AccessReadOnly ∧ kind = IsolationFixed ∧ repositoryId = None
  | StrategyGitWorktree => access = AccessWritable ∧ kind = IsolationGitWorktree ∧
      repositoryId = git ∧ ∃ repository, git = Some repository ∧ is_opaque repository = true
  end.

Section identity_laws.
Context (number_text : jsnum → jstr) `{!NumberText number_text} (sha256 : jstr → jstr).

Lemma isolation_text_inj root root' taskId taskId' strategy strategy' :
  isolation_text number_text root taskId strategy = isolation_text number_text root' taskId' strategy' ↔
  root = root' ∧ taskId = taskId' ∧ strategy = strategy'.
Proof.
  split; [|by intros (-> & -> & ->)]. unfold isolation_text. intros Heq.
  apply stringify_inj in Heq; [|done|by simpl; tauto|by simpl; tauto]. simpl in Heq.
  destruct Heq as (E1 & E2 & E3 & E4 & E5 & E6 & E7 & _). destruct root, root'. simpl in *.
  by apply name_of_inj in E7 as ->; subst.
Qed.

Lemma taskIsolationIdentity_Ok root taskId strategy access git identity :
  taskIsolationIdentity number_text sha256 root taskId strategy access git = Ok identity ↔
  admitted_strategy strategy access git (ii_kind identity) (ii_repositoryId identity) ∧
  ii_id identity = js "wiso_" ++ take 32 (sha256 (isolation_text number_text root taskId strategy)) ∧
  ii_baseRevision identity = None ∧ ii_runtimeRef identity = None.
Proof.
  destruct identity as [id kind repositoryId baseRevision runtimeRef].
  unfold taskIsolationIdentity, admitted_strategy. simpl.
  destruct strategy, access, git as [repository|]; simpl; try (split; [done|naive_solver]).
  1,2: split; [intros [= <- <- <- <- <-]; by split_and!|naive_solver].
  destruct (is_opaque repository) eqn:Ho; simpl.
  - split; [intros [= <- <- <- <- <-]; split_and!; eauto|naive_solver].
  - split; [done|naive_solver congruence].
Qed.

(** Two runs of one isolation have one root, one task and one strategy, or exhibit a
    collision of the digest. *)
Lemma taskIsolationIdentity_distinct root root' taskId taskId' strategy strategy' access access' git git' i i' :
  taskIsolationIdentity number_text sha256 root taskId strategy access git = Ok i →
  taskIsolationIdentity number_text sha256 root' taskId' strategy' access' git' = Ok i' →
  ii_id i = ii_id i' →
  root = root' ∧ taskId = taskId' ∧ strategy = strategy' ∨
  ∃ text text', text ≠ text' ∧ take 32 (sha256 text) = take 32 (sha256 text').
Proof.
  intros (_ & -> & _)%taskIsolationIdentity_Ok (_ & -> & _)%taskIsolationIdentity_Ok Heq.
  apply app_inv_head in Heq.
  destruct (decide (isolation_text number_text root taskId strategy =
    isolation_text number_text root' taskId' strategy')) as [E|Hne]; [|by right; eauto].
  left. by apply isolation_text_inj.
Qed.

(** A run belongs to a runtime whose root is the run's and whose capability is the one that
    the run's isolation was made with. *)
Lemma assertTaskRuntimeIdentity_Ok run root git u :
  assertTaskRuntimeIdentity number_text sha256 run root git = Ok u ↔
  wr_rootIdentity run = root ∧
  admitted_strategy (wr_strategy run) (wr_access run) git
    (ii_kind (wr_isolationIdentity run)) (ii_repositoryId (wr_isolationIdentity run)).
Proof.
  destruct u. unfold assertTaskRuntimeIdentity. split.
  - intros H. apply result_bind_Ok in H as (u & Hr%guard_throw_Ok%negb_false_iff%sameTaskRoot_iff & H).
    apply result_bind_Ok in H as (expected & (Ha & _)%taskIsolationIdentity_Ok & H).
    apply guard_throw_Ok, orb_false_iff in H as [Hk%bool_decide_eq_false Hi%bool_decide_eq_false].
    apply dec_stable in Hk, Hi. rewrite Hk, Hi. by split.
  - intros [Hr Ha]. apply result_bind_Ok. exists tt.
    split; [by apply guard_throw_Ok, negb_false_iff, sameTaskRoot_iff|].
    apply result_bind_Ok. exists {| ii_id := js "wiso_" ++ take 32 (sha256 (isolation_text number_text root (wr_id run) (wr_strategy run)));
      ii_kind := ii_kind (wr_isolationIdentity run);
      ii_repositoryId := ii_repositoryId (wr_isolationIdentity run);
      ii_baseRevision := None; ii_runtimeRef := None |}.
    split; [by apply taskIsolationIdentity_Ok|].
    apply guard_throw_Ok, orb_false_iff. split; by apply bool_decide_eq_false; intros [].
Qed.
End identity_laws.
