(* ===== verification/TaskRuntime.v ===== *)
(** The runtime of workspace tasks
    ([packages/workspace/src/tasks/{runtime,recovery,job,artifacts}.ts]): a task claims its
    run, prepares an isolation, binds an execution scope, runs its handler, collects what it
    did and releases the isolation; a task whose owner was lost is recovered.  The store, the
    isolation, the environment, the lease's renewal and the handler are an environment of
    calls, each of which may fail. *)
From Stdlib Require Import Floats.SpecFloat.
From S2P Require Import Prelude JsMap Json JsStr JsHeap JsonText StableJson Protocol WorkspaceProtocol ExecutionBinding WorkspaceTask Program.

(** * Requests and handlers ([types.ts], [job.ts]) *)

(** What is called as a handler: one that was registered, by its index, a member that every
    object inherits, or what a handler returned. *)
Inductive task_handler :=
| RegisteredHandler (index : nat)
| InheritedMember (name : jstr)
| ReturnedValue.

#[export] Instance task_handler_eq_dec : EqDecision task_handler.
Proof. solve_decision. Defined.

(** The signal of a request is asked for by the call [RequestAborted]. *)
Record WorkspaceTaskRequest := {
  tq_access : WorkspaceTaskAccess;
  tq_strategy : WorkspaceTaskStrategy;
  tq_input : app_json;
  tq_id : option jstr;
  tq_workspaceId : option jstr;
  tq_principalId : option jstr;
  tq_jobId : option jstr;
  tq_agentId : option jstr;
  tq_handler : task_handler;
}.

Record ResumeWorkspaceTaskRequest := {
  rq_runId : jstr;
  rq_input : app_json;
  rq_handler : task_handler;
}.

(** [cx_binding]: the binding of the scope that is lent to the handler. *)
Record WorkspaceTaskContext := {
  cx_taskId : jstr;
  cx_workspaceId : jstr;
  cx_principalId : jstr;
  cx_access : WorkspaceTaskAccess;
  cx_strategy : WorkspaceTaskStrategy;
  cx_input : app_json;
  cx_rootDir : jstr;
  cx_binding : app_json;
}.

Record WorkspaceTaskHandlerResult := {
  hr_artifacts : option (list ProviderArtifactOutput);
  hr_summary : option jstr;
}.

Record SubmitWorkspaceTaskJobRequest := {
  sj_id : option jstr;
  sj_handlerId : jstr;
  sj_principalId : jstr;
  sj_access : WorkspaceTaskAccess;
  sj_strategy : WorkspaceTaskStrategy;
  sj_input : app_json;
  sj_taskId : option jstr;
  sj_workspaceId : option jstr;
  sj_jobId : option jstr;
  sj_agentId : option jstr;
  sj_scheduledAt : option jsnum;
  sj_notBefore : option jsnum;
  sj_priority : option jsnum;
  sj_maxAttempts : option jsnum;
  sj_idempotencyKey : option jstr;
}.

(** The job of the kind [workspace.task] that is enqueued. *)
Record enqueue_task := {
  et_id : option jstr;
  et_principalId : jstr;
  et_payload : app_json;
  et_scheduledAt : option jsnum;
  et_notBefore : option jsnum;
  et_priority : option jsnum;
  et_maxAttempts : option jsnum;
  et_idempotencyKey : option jstr;
}.

(** [bs_supervisorClaim]: the identity of the claim, for a durable supervisor. *)
Record BindExecutionScopeRequest := {
  bs_scopeId : jstr;
  bs_policy : ExecutionPolicySnapshot;
  bs_fileSystemRoots : list (jstr * jstr);
  bs_supervisorClaim : option WorkspaceTaskRunIdentityRequest;
}.

(** [git/types.ts], without the list of differences. *)
Inductive WorktreeCollection :=
| CollectedChanges (changeSet : WorkspaceChangeSet)
| CollectedAttention (attention : list GitProjectionAttention)
| CollectedNothing.

(** * Calls

    [AssertHealthy] is [renewal.assertHealthy()], [CallGetHandler] a call of the handler with
    the name [get] as if it were the method of a map, [SignalAborted] the combined signal of the
    request and of the renewal, [RequestAborted] the signal of the request; [Now] is
    [Date.now()], an integer. *)
Inductive task_call : Type → Type :=
| GetWorkspaceTaskRun (runId : jstr) : task_call (option WorkspaceTaskRunSnapshot)
| BeginWorkspaceTaskRun (request : BeginWorkspaceTaskRunRequest) : task_call WorkspaceTaskClaimResult
| ClaimWorkspaceTaskContinuation (request : ClaimWorkspaceTaskContinuationRequest) :
    task_call WorkspaceTaskClaimResult
| ClaimWorkspaceTaskRecovery (request : ClaimWorkspaceTaskRecoveryRequest) :
    task_call WorkspaceTaskClaimResult
| MarkWorkspaceTaskActive (identity : WorkspaceTaskRunIdentityRequest)
    (preparedIsolation : option WorkspaceTaskPreparedIsolationIdentity) : task_call unit
| BeginWorkspaceTaskCollection (identity : WorkspaceTaskRunIdentityRequest)
    (request : BeginWorkspaceTaskCollectionRequest) : task_call unit
| FinalizeWorkspaceTaskCollection (identity : WorkspaceTaskRunIdentityRequest)
    (request : FinalizeWorkspaceTaskCollectionRequest) : task_call unit
| BeginWorkspaceTaskRelease (identity : WorkspaceTaskRunIdentityRequest) :
    task_call WorkspaceTaskRunSnapshot
| FinalizeWorkspaceTaskRelease (identity : WorkspaceTaskRunIdentityRequest) :
    task_call WorkspaceTaskRunSnapshot
| MarkWorkspaceTaskAttention (identity : WorkspaceTaskRunIdentityRequest) (failure : app_json) :
    task_call WorkspaceTaskRunSnapshot
| ListWorkspaceTaskRuns (request : ListWorkspaceTaskRunsRequest) :
    task_call (list WorkspaceTaskRunSnapshot)
| GetResource (resourceId : jstr) : task_call (option ResourceRecord)
| GetWorkspaceChangeSet (changeSetId : jstr) : task_call (option WorkspaceChangeSetRecord)
| GetWorkspaceChangeProposal (proposalId : jstr) : task_call (option WorkspaceChangeProposalRecord)
| StartRenewal : task_call unit
| AssertHealthy : task_call unit
| StopRenewal : task_call unit
| PrepareIsolation (strategy : WorkspaceTaskStrategy) (request : WorkspaceIsolationRequest) :
    task_call WorkspaceIsolationLease
| ReleaseIsolation (strategy : WorkspaceTaskStrategy) (lease : WorkspaceIsolationLease) :
    task_call unit
| ReleaseDurableIsolation (strategy : WorkspaceTaskStrategy)
    (identity : WorkspaceIsolationDurableIdentity) : task_call unit
| ResolveBinding (policy : option app_json) : task_call app_json
| BindScope (request : BindExecutionScopeRequest) : task_call app_json
| CloseScope : task_call unit
| CombineSignals : task_call unit
| DisposeSignals : task_call unit
| SignalAborted : task_call bool
| RequestAborted : task_call bool
| RunHandler (handler : task_handler) (context : WorkspaceTaskContext) :
    task_call WorkspaceTaskHandlerResult
| EnqueueTaskJob (request : enqueue_task) : task_call SchedulerJobRecord
| CallGetHandler (handlerId : jstr) : task_call (option task_handler)
| AssertCleanupProven : task_call unit
| IngestProviderOutput (artifact : ProviderArtifactOutput) : task_call ResourceRecord
| CollectWorktree (lease : WorkspaceIsolationLease) (changeSetId : jstr) :
    task_call WorktreeCollection
| RandomUUID : task_call jstr
| RandomToken : task_call jstr
| Now : task_call Z.

Abbreviation tprog := (prog task_thrown task_call).
Abbreviation tevent := (event task_thrown task_call).

Definition throw {A} (message : jstr) : tprog A := Raise (task_error message).
Definition throw_if (condition : bool) (message : jstr) : tprog unit :=
  raise_if condition (task_error message).

(** * Texts and policies *)

Definition MAX_SUMMARY_LENGTH : nat := 4000.

Definition normalizeSummary (summary : option jstr) : result task_thrown (option jstr) :=
  match summary with
  | None => Ok None
  | Some summary =>
      let normalized := trim summary in
      if decide (normalized = []) then Ok None
      else
        _ ← guard_throw (bool_decide (MAX_SUMMARY_LENGTH < length normalized))
              (task_error (js "workspace task summary exceeds 4000 characters"));
        Ok (Some normalized)
  end.

Definition DASH : N := 45.

(** [randomUUID().replaceAll("-", "")] under a prefix. *)
Definition fresh_id (prefix : jstr) : tprog jstr :=
  uuid ← await RandomUUID; mret (prefix ++ filter (.≠ DASH) uuid).

Definition fresh_identity (runId : jstr) : tprog WorkspaceTaskRunIdentityRequest :=
  attemptId ← fresh_id (js "wtat_");
  claimToken ← await RandomToken;
  mret {| ri_runId := runId; ri_attemptId := attemptId; ri_claimToken := claimToken |}.

Definition createWorkspaceTaskExecutionPolicy (access : WorkspaceTaskAccess)
    (cleanup : cleanup_kind) (isolation : enforcement) : ExecutionPolicySnapshot := {|
  ep_filesystem := {|
    fs_roots := [{|
      er_id := js "workspace";
      er_effects := match access with
        | AccessWritable => [EffectRead; EffectWrite; EffectCreate; EffectRemove]
        | AccessReadOnly => [EffectRead]
        end |}];
    fs_maxReadBytes := num_of_Z (50 * 1024 * 1024);
    fs_maxDirectoryEntries := num_of_Z 100000 |};
  ep_process := {|
    pp_oneShot := true;
    pp_managed := bool_decide (cleanup = DurableSupervisor);
    pp_cleanup := cleanup;
    pp_environmentVariables := [] |};
  ep_network := Unrestricted;
  ep_isolation := isolation;
  ep_pty := false |}.

Definition policy_document (policy : ExecutionPolicySnapshot) : app_json :=
  policy_json (roots_json (fs_roots (ep_filesystem policy))) policy.

(** The [policy] of a binding. *)
Definition binding_policy (binding : app_json) : option app_json :=
  match binding with AppObj fields => prop "policy" fields | _ => None end.

Definition isolationRequestForTask (request : WorkspaceTaskRequest)
    (taskId isolationId workspaceId : jstr) (rootIdentity : WorkspaceTaskRootIdentity)
    (expectedBaseRevision : option jstr) : WorkspaceIsolationRequest := {|
  ir_rootIdentity := rootIdentity; ir_expectedBaseRevision := expectedBaseRevision;
  ir_isolationId := isolationId; ir_workspaceId := workspaceId;
  ir_jobId := default taskId (tq_jobId request); ir_agentId := tq_agentId request |}.

(** * Receipts ([receipt.ts]) *)

Definition failedReceipt (taskId : jstr) (access : WorkspaceTaskAccess)
    (workspaceId principalId : jstr) (error : WorkspaceTaskError) : WorkspaceTaskReceipt := {|
  rt_taskId := taskId; rt_status := TaskFailed; rt_access := access;
  rt_workspaceId := workspaceId; rt_principalId := principalId; rt_resources := [];
  rt_changeSet := None; rt_proposal := None; rt_summary := None; rt_error := Some error |}.

Definition plain_error (message : jstr) : WorkspaceTaskError :=
  {| te_message := message; te_name := None; te_details := None |}.

Definition get_resource (resourceId : jstr) : tprog ResourceRecord :=
  resource ← await (GetResource resourceId);
  match resource with
  | None => throw (js "workspace task resource is missing: " ++ resourceId)
  | Some resource => mret resource
  end.

(** [Promise.all]: every resource is asked for, whether or not another is missing. *)
Fixpoint attempt_resources (ids : list jstr) : tprog (list (result task_thrown ResourceRecord)) :=
  match ids with
  | [] => mret []
  | id :: ids =>
      first ← attempt (get_resource id);
      rest ← attempt_resources ids;
      mret (first :: rest)
  end.

Definition get_resources (ids : list jstr) : tprog (list ResourceRecord) :=
  settled ← attempt_resources ids;
  of_result (mapM id settled).

Definition linkedRecords (run : WorkspaceTaskRunRecord)
    : tprog (option WorkspaceChangeSetRecord * option WorkspaceChangeProposalRecord) :=
  changeSet ← (match wr_changeSetId run with
    | None => mret None
    | Some changeSetId => await (GetWorkspaceChangeSet changeSetId)
    end);
  proposal ← (match wr_proposalId run with
    | None => mret None
    | Some proposalId => await (GetWorkspaceChangeProposal proposalId)
    end);
  mret (changeSet, proposal).

Definition workspaceTaskReceiptFromSnapshot (snapshot : WorkspaceTaskRunSnapshot)
    : tprog WorkspaceTaskReceipt :=
  let run := ws_run snapshot in
  resources ← get_resources (wr_resourceIds run);
  records ← linkedRecords run;
  mret {| rt_taskId := wr_id run; rt_status := snapshot_status run; rt_access := wr_access run;
          rt_workspaceId := wr_workspaceId run; rt_principalId := wr_principalId run;
          rt_resources := resources; rt_changeSet := records.1; rt_proposal := records.2;
          rt_summary := wr_summary run; rt_error := workspaceTaskErrorFromJson (wr_failure run) |}.

(** The error of the release, if there was one. *)
Definition releaseWorkspaceTaskLease (strategy : WorkspaceTaskStrategy)
    (lease : WorkspaceIsolationLease) : tprog (option WorkspaceTaskError) :=
  released ← attempt (await (ReleaseIsolation strategy lease));
  mret (match released with
    | Ok _ => None
    | Throw error => Some (serializeWorkspaceTaskError error [il_rootDir lease])
    end).

Definition markAttentionBestEffort (identity : WorkspaceTaskRunIdentityRequest)
    (error : WorkspaceTaskError) : tprog unit :=
  _ ← attempt (await (MarkWorkspaceTaskAttention identity
        (workspaceTaskFailureJson error RECOVERY_REQUIRED)));
  mret tt.

Fixpoint ingestWorkspaceTaskArtifacts (artifacts : list ProviderArtifactOutput)
    : tprog (list ResourceRecord) :=
  match artifacts with
  | [] => mret []
  | artifact :: artifacts =>
      resource ← await (IngestProviderOutput artifact);
      resources ← ingestWorkspaceTaskArtifacts artifacts;
      mret (resource :: resources)
  end.

Definition abort_error : task_thrown := ErrorThrown (js "AbortError") (js "workspace task cancelled").

(** [assertNotCancelled]: of the request's signal, or of the combined one. *)
Definition assertNotCancelled (signal : task_call bool) : tprog unit :=
  aborted ← await signal; raise_if aborted abort_error.

(** * The runtime ([runtime.ts]) *)

(** [tt_gitWorktree]: the repository of the git capability; [tt_capabilities]: those of the
    execution environment. *)
Record WorkspaceTaskRuntime := {
  tt_rootIdentity : WorkspaceTaskRootIdentity;
  tt_gitWorktree : option jstr;
  tt_ownerId : jstr;
  tt_leaseMs : jsnum;
  tt_defaultWorkspaceId : jstr;
  tt_defaultPrincipalId : jstr;
  tt_capabilities : ExecutionCapabilitySnapshot;
}.

Record WorkspaceTaskRuntimeOptions := {
  to_rootIdentity : WorkspaceTaskRootIdentity;
  to_gitWorktree : option jstr;
  to_ownerId : option jstr;
  to_leaseMs : option jsnum;
  to_workspaceId : option jstr;
  to_principalId : option jstr;
  to_capabilities : ExecutionCapabilitySnapshot;
}.

Definition DEFAULT_WORKSPACE_ID : jstr := js "local".
Definition DEFAULT_PRINCIPAL_ID : jstr := js "workspace-tasks".
Definition DEFAULT_LEASE_MS : jsnum := num_of_Z 60000.

Definition new_WorkspaceTaskRuntime (options : WorkspaceTaskRuntimeOptions)
    : result task_thrown WorkspaceTaskRuntime :=
  rootIdentity ← freezeTaskRootIdentity (to_rootIdentity options);
  let leaseMs := default DEFAULT_LEASE_MS (to_leaseMs options) in
  _ ← guard_throw (num_lt leaseMs (num_of_Z 30) || num_lt (num_of_Z 300000) leaseMs)
        (task_error (js "workspace task leaseMs must be between 30 and 300000"));
  Ok {| tt_rootIdentity := rootIdentity; tt_gitWorktree := to_gitWorktree options;
        tt_ownerId := default DEFAULT_PRINCIPAL_ID (to_ownerId options); tt_leaseMs := leaseMs;
        tt_defaultWorkspaceId := default DEFAULT_WORKSPACE_ID (to_workspaceId options);
        tt_defaultPrincipalId := default DEFAULT_PRINCIPAL_ID (to_principalId options);
        tt_capabilities := to_capabilities options |}.

(** What [executeClaimedTask] is given beside the request; [ct_expectedLease]: the base
    revision and the branch of a run that is continued. *)
Record claimed_options := {
  ct_taskId : jstr;
  ct_workspaceId : jstr;
  ct_principalId : jstr;
  ct_isolationId : jstr;
  ct_identity : WorkspaceTaskRunIdentityRequest;
  ct_policy : ExecutionPolicySnapshot;
  ct_executionBinding : app_json;
  ct_expectedLease : option (option jstr * option jstr);
}.

(** The variables of [executeClaimedTask] that change. *)
Record task_locals := {
  tl_handlerResult : WorkspaceTaskHandlerResult;
  tl_handlerError : option WorkspaceTaskError;
  tl_resources : list ResourceRecord;
  tl_summary : option jstr;
  tl_scopeClosed : bool;
}.

Definition task_start : task_locals := {|
  tl_handlerResult := {| hr_artifacts := None; hr_summary := None |};
  tl_handlerError := None; tl_resources := []; tl_summary := None; tl_scopeClosed := false |}.

Abbreviation lprog := (lprog task_thrown task_call task_locals).

Definition set_handlerResult result : lprog unit := assign (fun l => {|
  tl_handlerResult := result; tl_handlerError := tl_handlerError l;
  tl_resources := tl_resources l; tl_summary := tl_summary l; tl_scopeClosed := tl_scopeClosed l |}).
Definition set_handlerError error : lprog unit := assign (fun l => {|
  tl_handlerResult := tl_handlerResult l; tl_handlerError := Some error;
  tl_resources := tl_resources l; tl_summary := tl_summary l; tl_scopeClosed := tl_scopeClosed l |}).
Definition set_resources resources : lprog unit := assign (fun l => {|
  tl_handlerResult := tl_handlerResult l; tl_handlerError := tl_handlerError l;
  tl_resources := resources; tl_summary := tl_summary l; tl_scopeClosed := tl_scopeClosed l |}).
Definition set_summary summary : lprog unit := assign (fun l => {|
  tl_handlerResult := tl_handlerResult l; tl_handlerError := tl_handlerError l;
  tl_resources := tl_resources l; tl_summary := summary; tl_scopeClosed := tl_scopeClosed l |}).
Definition set_scopeClosed : lprog unit := assign (fun l => {|
  tl_handlerResult := tl_handlerResult l; tl_handlerError := tl_handlerError l;
  tl_resources := tl_resources l; tl_summary := tl_summary l; tl_scopeClosed := true |}).

Section runtime.
Context (number_text : jsnum → jstr) (localeCompare : jstr → jstr → Z) (sha256 : jstr → jstr).
(** The message of the engine's error when a value is not iterable. *)
Context (not_iterable : jstr).
Context (this : WorkspaceTaskRuntime).

Definition binding_thrown (error : binding_error) : task_thrown :=
  match error with
  | BindingError message => task_error message
  | UnsupportedExecutionCapabilityError capability =>
      ErrorThrown (js "UnsupportedExecutionCapabilityError")
        (js "execution capability is unavailable: " ++ capability)
  | NotIterable => ErrorThrown (js "TypeError") not_iterable
  end.

(** [assertExecutionEnvironmentBindingEqual] *)
Definition same_binding (actual expected : app_json) (label : string) : result task_thrown unit :=
  match assertExecutionEnvironmentBindingEqual number_text localeCompare sha256 actual expected
      (js label) with
  | Ok _ => Ok tt
  | Throw error => Throw (binding_thrown error)
  end.

Definition task_policy (access : WorkspaceTaskAccess) : ExecutionPolicySnapshot :=
  createWorkspaceTaskExecutionPolicy access (ec_cleanup (tt_capabilities this))
    (ec_isolation (tt_capabilities this)).

(** ** [executeClaimedTask] *)

Section claimed.
Context (request : WorkspaceTaskRequest) (options : claimed_options).

Abbreviation identity := (ct_identity options).
Abbreviation strategy := (tq_strategy request).

Definition claimed_failed (error : WorkspaceTaskError) : WorkspaceTaskReceipt :=
  failedReceipt (ct_taskId options) (tq_access request) (ct_workspaceId options)
    (ct_principalId options) error.

Definition expected_kind : WorkspaceTaskIsolationKind :=
  match strategy with StrategyGitWorktree => IsolationGitWorktree | StrategyDirect => IsolationFixed end.

Definition expected_repository : option jstr :=
  match strategy with StrategyGitWorktree => tt_gitWorktree this | StrategyDirect => None end.

(** A revision or a branch that is expected is the lease's. *)
Definition changed (expected found : option jstr) : bool :=
  bool_decide (expected ≠ None) && bool_decide (found ≠ expected).

Definition lease_changed (lease : WorkspaceIsolationLease) : bool :=
  match ct_expectedLease options with
  | Some (baseRevision, branchName) =>
      changed baseRevision (il_baseRevision lease) || changed branchName (il_branchName lease)
  | None => false
  end.

(** [!text], of a text that may be missing. *)
Definition falsy (text : option jstr) : bool := bool_decide (default [] text = []).

(** What is recorded of the isolation of a run that becomes active. *)
Definition prepared_isolation (lease : WorkspaceIsolationLease)
    : option WorkspaceTaskPreparedIsolationIdentity :=
  match strategy with
  | StrategyDirect => None
  | StrategyGitWorktree => Some {|
      pi_baseRevision := default [] (il_baseRevision lease);
      pi_runtimeRef := default [] (il_branchName lease) |}
  end.

(** The [try] block that prepares the isolation. *)
Definition prepare_lease : tprog WorkspaceIsolationLease :=
  lease ← await (PrepareIsolation strategy (isolationRequestForTask request (ct_taskId options)
    (ct_isolationId options) (ct_workspaceId options) (tt_rootIdentity this)
    (ct_expectedLease options ≫= fst)));
  _ ← throw_if (bool_decide (il_id lease ≠ ct_isolationId options))
        (js "workspace isolation adapter changed the durable isolation identity");
  _ ← throw_if (bool_decide (il_kind lease ≠ expected_kind) ||
                bool_decide (il_repositoryId lease ≠ expected_repository))
        (js "workspace task isolation does not match its explicit strategy: " ++
          name_of (il_kind lease));
  _ ← throw_if (lease_changed lease)
        (js "workspace continuation changed the durable isolation identity");
  _ ← await AssertHealthy;
  _ ← throw_if (bool_decide (strategy = StrategyGitWorktree) &&
                (falsy (il_baseRevision lease) || falsy (il_branchName lease)))
        (js "prepared worktree must provide its base revision and runtime ref");
  _ ← await (MarkWorkspaceTaskActive identity (prepared_isolation lease));
  mret lease.

Definition bind_request (lease : WorkspaceIsolationLease) : BindExecutionScopeRequest := {|
  bs_scopeId := ri_attemptId identity;
  bs_policy := ct_policy options;
  bs_fileSystemRoots := [(js "workspace", il_rootDir lease)];
  bs_supervisorClaim := if decide (ec_cleanup (tt_capabilities this) = DurableSupervisor)
    then Some identity else None |}.

(** The [try] block that binds the scope, and the closing of a scope that is not the one
    expected. *)
Definition bind_scope (lease : WorkspaceIsolationLease) : tprog (result task_thrown app_json) :=
  bound ← attempt (await (BindScope (bind_request lease)));
  match bound with
  | Throw error => mret (Throw error)
  | Ok binding =>
      match same_binding binding (ct_executionBinding options)
          "workspace task bound execution environment" with
      | Ok _ => mret (Ok binding)
      | Throw error => _ ← attempt (await CloseScope); mret (Throw error)
      end
  end.

Section bound.
Context (lease : WorkspaceIsolationLease) (binding : app_json).

Abbreviation serialize error := (serializeWorkspaceTaskError error [il_rootDir lease]).

Definition closeExecutionScope : lprog unit :=
  l ← locals;
  if tl_scopeClosed l then mret tt
  else
    _ ← set_scopeClosed;
    lift (try_finally (await CloseScope) (await DisposeSignals)).

Definition handler_context : WorkspaceTaskContext := {|
  cx_taskId := ct_taskId options; cx_workspaceId := ct_workspaceId options;
  cx_principalId := ct_principalId options; cx_access := tq_access request;
  cx_strategy := strategy; cx_input := tq_input request; cx_rootDir := il_rootDir lease;
  cx_binding := binding |}.

(** The [try] block that runs the handler. *)
Definition run_handler : lprog unit :=
  _ ← lift (assertNotCancelled SignalAborted);
  handlerResult ← lift (await (RunHandler (tq_handler request) handler_context));
  _ ← set_handlerResult handlerResult;
  _ ← lift (assertNotCancelled SignalAborted);
  _ ← lift (await AssertCleanupProven);
  resources ← lift (ingestWorkspaceTaskArtifacts (default [] (hr_artifacts handlerResult)));
  _ ← set_resources resources;
  lift (await AssertHealthy).

(** A handler that asks for attention. *)
Definition handler_attention (failure : WorkspaceTaskError) : lprog WorkspaceTaskReceipt :=
  attentionError ← ltry
    (_ ← closeExecutionScope; _ ← lift (await AssertCleanupProven); mret failure)
    (fun closeError => mret (combineWorkspaceTaskErrors failure (serialize closeError)));
  _ ← lift (markAttentionBestEffort identity attentionError);
  _ ← lift (await StopRenewal);
  mret (claimed_failed attentionError).

(** The handler's part of the function: a receipt, if the task ends there. *)
Definition handler_stage : lprog (option WorkspaceTaskReceipt) :=
  ltry (_ ← run_handler; mret None) (fun error =>
    match error with
    | AttentionThrown failure => receipt ← handler_attention failure; mret (Some receipt)
    | _ => _ ← set_handlerError (serialize error); mret None
    end).

Definition execution_outcome (handlerError : option WorkspaceTaskError) (cancelled : bool)
    : WorkspaceTaskExecutionOutcome :=
  match handlerError with
  | None => ExecutionCompleted
  | Some _ => if cancelled then ExecutionCancelled else ExecutionFailed
  end.

(** The outcome of a run without changes; [completed]: of a handler that did not fail. *)
Definition run_outcome (handlerError : option WorkspaceTaskError) (cancelled : bool)
    (completed : WorkspaceTaskRunOutcome) : WorkspaceTaskRunOutcome :=
  match handlerError with
  | None => completed
  | Some _ => if cancelled then OutcomeCancelled else OutcomeExecutionFailed
  end.

(** The receipt of a task that ends after its handler. *)
Definition handled_receipt (l : task_locals) (error : WorkspaceTaskError) : WorkspaceTaskReceipt := {|
  rt_taskId := ct_taskId options; rt_status := TaskFailed; rt_access := tq_access request;
  rt_workspaceId := ct_workspaceId options; rt_principalId := ct_principalId options;
  rt_resources := tl_resources l; rt_changeSet := None; rt_proposal := None;
  rt_summary := tl_summary l; rt_error := Some error |}.

Definition projection_digest : jstr :=
  take 32 (sha256 (ct_workspaceId options ++ [0%N] ++ ct_taskId options)).
Definition projection_changeSetId : jstr := js "wcs_task_" ++ projection_digest.
Definition projection_proposalId : jstr := js "wcp_task_" ++ projection_digest.

Definition projection_error (attention : list GitProjectionAttention) : WorkspaceTaskError := {|
  te_message := js "workspace Git projection requires attention";
  te_name := Some (js "WorkspaceProjectionAttention");
  te_details := Some (AppObj [(js "attention", AppArr (projectionAttentionToJson <$> attention))]) |}.

Definition proposal_metadata (handlerError : option WorkspaceTaskError) (cancelled : bool)
    : option app_json :=
  match handlerError with
  | None => None
  | Some _ => Some (AppObj [
      (js "executionOutcome", json_name (execution_outcome handlerError cancelled));
      (js "incomplete", AppBool true)])
  end.

(** The collection of what a worktree holds. *)
Definition collect_worktree (cancelled : bool) : lprog (option WorkspaceTaskReceipt) :=
  _ ← closeExecutionScope;
  _ ← lift (await AssertCleanupProven);
  collection ← lift (await (CollectWorktree lease projection_changeSetId));
  l ← locals;
  match collection with
  | CollectedAttention attention =>
      let projectionError := projection_error attention in
      _ ← lift (markAttentionBestEffort identity projectionError);
      _ ← lift (await StopRenewal);
      mret (Some (handled_receipt l projectionError))
  | CollectedChanges changeSet =>
      _ ← lift (await (FinalizeWorkspaceTaskCollection identity
        (FinalizeProposed changeSet projection_proposalId (tl_summary l)
          (proposal_metadata (tl_handlerError l) cancelled))));
      _ ← lift (await (BeginWorkspaceTaskRelease identity));
      mret None
  | CollectedNothing =>
      _ ← lift (await (FinalizeWorkspaceTaskCollection identity (FinalizeUnchanged
        (run_outcome (tl_handlerError l) cancelled OutcomeNoChanges))));
      mret None
  end.

Definition collect_direct (cancelled : bool) : lprog (option WorkspaceTaskReceipt) :=
  _ ← closeExecutionScope;
  _ ← lift (await AssertCleanupProven);
  l ← locals;
  _ ← lift (await (FinalizeWorkspaceTaskCollection identity (FinalizeUnchanged
    (run_outcome (tl_handlerError l) cancelled OutcomeReadOnlyCompleted))));
  mret None.

(** The [try] block that collects. *)
Definition collect_task (cancelled : bool) : lprog (option WorkspaceTaskReceipt) :=
  l ← locals;
  summary ← lift (of_result (normalizeSummary (hr_summary (tl_handlerResult l))));
  _ ← set_summary summary;
  _ ← lift (await (BeginWorkspaceTaskCollection identity {|
    bc_executionOutcome := execution_outcome (tl_handlerError l) cancelled;
    bc_summary := summary;
    bc_resourceIds := rs_id <$> tl_resources l;
    bc_failure := (fun error => workspaceTaskFailureJson error EXECUTION_FAILED) <$>
      tl_handlerError l |}));
  early ← (match strategy with
    | StrategyGitWorktree => collect_worktree cancelled
    | StrategyDirect => collect_direct cancelled
    end);
  match early with
  | Some receipt => mret (Some receipt)
  | None => _ ← lift (await AssertHealthy); mret None
  end.

Definition collect_failed (error : task_thrown) : lprog WorkspaceTaskReceipt :=
  let collectionError := serialize error in
  finalError ← ltry (_ ← closeExecutionScope; mret collectionError)
    (fun closeError => mret (combineWorkspaceTaskErrors collectionError (serialize closeError)));
  _ ← lift (markAttentionBestEffort identity finalError);
  _ ← lift (await StopRenewal);
  l ← locals;
  mret (handled_receipt l (match tl_handlerError l with
    | None => finalError
    | Some handlerError => combineWorkspaceTaskErrors handlerError finalError
    end)).

Definition collect_stage (cancelled : bool) : lprog (option WorkspaceTaskReceipt) :=
  ltry (collect_task cancelled)
    (fun error => receipt ← collect_failed error; mret (Some receipt)).

(** The release, and the receipt of a task that came so far. *)
Definition finalize_release : tprog (option WorkspaceTaskError) :=
  released ← releaseWorkspaceTaskLease strategy lease;
  match released with
  | Some error => mret (Some error)
  | None =>
      finalized ← attempt (_ ← await AssertHealthy; await (FinalizeWorkspaceTaskRelease identity));
      mret (match finalized with Ok _ => None | Throw error => Some (serialize error) end)
  end.

Definition combined_error (handlerError releaseError : option WorkspaceTaskError)
    : option WorkspaceTaskError :=
  match handlerError, releaseError with
  | None, _ => releaseError
  | Some handlerError, None => Some handlerError
  | Some handlerError, Some releaseError =>
      Some (combineWorkspaceTaskErrors handlerError releaseError)
  end.

Definition release_stage : lprog WorkspaceTaskReceipt :=
  releaseError ← lift finalize_release;
  _ ← lift (await StopRenewal);
  snapshot ← lift (await (GetWorkspaceTaskRun (ct_taskId options)));
  match snapshot with
  | None => lift (throw (js "workspace task run disappeared: " ++ ct_taskId options))
  | Some snapshot =>
      records ← lift (linkedRecords (ws_run snapshot));
      l ← locals;
      let error := combined_error (tl_handlerError l) releaseError in
      mret {| rt_taskId := ct_taskId options;
              rt_status := match error with None => TaskSucceeded | Some _ => TaskFailed end;
              rt_access := tq_access request; rt_workspaceId := ct_workspaceId options;
              rt_principalId := ct_principalId options; rt_resources := tl_resources l;
              rt_changeSet := records.1; rt_proposal := records.2;
              rt_summary := tl_summary l; rt_error := error |}
  end.

Definition run_bound : lprog WorkspaceTaskReceipt :=
  early ← handler_stage;
  match early with
  | Some receipt => mret receipt
  | None =>
      cancelled ← lift (await RequestAborted);
      early ← collect_stage cancelled;
      match early with
      | Some receipt => mret receipt
      | None => release_stage
      end
  end.
End bound.

(** [this.gitWorktree!.isolation] of a runtime without the capability. *)
Definition require_isolation : tprog unit :=
  raise_if (bool_decide (strategy = StrategyGitWorktree ∧ tt_gitWorktree this = None))
    (ErrorThrown (js "TypeError") (js "Cannot read properties of undefined (reading 'isolation')")).

Definition bind_failed (lease : WorkspaceIsolationLease) (error : task_thrown)
    : tprog WorkspaceTaskReceipt :=
  let taskError := serializeWorkspaceTaskError error [il_rootDir lease] in
  _ ← markAttentionBestEffort identity taskError;
  _ ← (match strategy with
    | StrategyDirect => _ ← releaseWorkspaceTaskLease strategy lease; mret tt
    | StrategyGitWorktree => mret tt
    end);
  _ ← await StopRenewal;
  mret (claimed_failed taskError).

Definition executeClaimedTask : tprog WorkspaceTaskReceipt :=
  _ ← await StartRenewal;
  _ ← require_isolation;
  prepared ← attempt prepare_lease;
  match prepared with
  | Throw error =>
      let taskError := serializeWorkspaceTaskError error [] in
      _ ← markAttentionBestEffort identity taskError;
      _ ← await StopRenewal;
      mret (claimed_failed taskError)
  | Ok lease =>
      bound ← bind_scope lease;
      match bound with
      | Throw error => bind_failed lease error
      | Ok binding =>
          _ ← await CombineSignals;
          with_locals task_start (run_bound lease binding)
      end
  end.
End claimed.

(** ** [runTask] and [resumeTask] *)

Definition is_over (run : WorkspaceTaskRunRecord) : bool :=
  bool_decide (wr_state run = TaskReleased) || bool_decide (wr_state run = TaskAttention).

(** [assertWorkspaceTaskRunIdentity]: what a run was begun with is what the request has. *)
Definition assertWorkspaceTaskRunIdentity (run : WorkspaceTaskRunRecord)
    (workspaceId principalId : jstr) (request : WorkspaceTaskRequest)
    (isolationIdentity : WorkspaceTaskIsolationIdentity) : result task_thrown unit :=
  guard_throw
    (bool_decide (wr_workspaceId run ≠ workspaceId) ||
     bool_decide (wr_principalId run ≠ principalId) ||
     bool_decide (wr_access run ≠ tq_access request) ||
     bool_decide (wr_strategy run ≠ tq_strategy request) ||
     negb (sameTaskRoot (wr_rootIdentity run) (tt_rootIdentity this)) ||
     bool_decide (ii_id (wr_isolationIdentity run) ≠ ii_id isolationIdentity) ||
     bool_decide (ii_kind (wr_isolationIdentity run) ≠ ii_kind isolationIdentity) ||
     bool_decide (ii_repositoryId (wr_isolationIdentity run) ≠ ii_repositoryId isolationIdentity) ||
     bool_decide (wr_jobId run ≠ tq_jobId request) ||
     bool_decide (wr_agentId run ≠ tq_agentId request))
    (task_error (js "workspace task run id already exists with different identity: " ++ wr_id run)).

(** The run that the store has under the identifier of the request, after it was compared
    with the request; a request without an identifier begins a run of its own. *)
Definition current_run (request : WorkspaceTaskRequest) (workspaceId principalId : jstr)
    (isolationIdentity : WorkspaceTaskIsolationIdentity) (executionEnvironment : app_json)
    : tprog (option WorkspaceTaskRunSnapshot) :=
  match tq_id request with
  | None => mret None
  | Some taskId =>
      current ← await (GetWorkspaceTaskRun taskId);
      match current with
      | None => mret None
      | Some current =>
          _ ← of_result (assertWorkspaceTaskRunIdentity (ws_run current) workspaceId principalId
                request isolationIdentity);
          _ ← of_result (same_binding (wr_executionEnvironment (ws_run current))
                executionEnvironment "workspace task execution environment");
          mret (Some current)
      end
  end.

Definition begin_request (request : WorkspaceTaskRequest) (taskId workspaceId principalId : jstr)
    (isolationIdentity : WorkspaceTaskIsolationIdentity) (executionEnvironment : app_json)
    (identity : WorkspaceTaskRunIdentityRequest) : BeginWorkspaceTaskRunRequest := {|
  br_id := taskId; br_workspaceId := workspaceId; br_principalId := principalId;
  br_access := tq_access request; br_strategy := tq_strategy request;
  br_rootIdentity := tt_rootIdentity this; br_isolationIdentity := isolationIdentity;
  br_executionEnvironment := executionEnvironment; br_jobId := tq_jobId request;
  br_agentId := tq_agentId request; br_attemptId := ri_attemptId identity;
  br_ownerId := tt_ownerId this; br_claimToken := ri_claimToken identity;
  br_leaseMs := tt_leaseMs this |}.

(** The claim of a run, and what follows. *)
Definition run_claimed (request : WorkspaceTaskRequest) (taskId workspaceId principalId : jstr)
    (isolationIdentity : WorkspaceTaskIsolationIdentity) (executionEnvironment : app_json)
    : tprog WorkspaceTaskReceipt :=
  identity ← fresh_identity taskId;
  claim ← await (BeginWorkspaceTaskRun (begin_request request taskId workspaceId principalId
    isolationIdentity executionEnvironment identity));
  _ ← of_result (same_binding (wr_executionEnvironment (ws_run (wc_snapshot claim)))
        executionEnvironment "workspace task execution environment");
  if bool_decide (wc_status claim = TaskAlreadyTerminal) || is_over (ws_run (wc_snapshot claim))
  then workspaceTaskReceiptFromSnapshot (wc_snapshot claim)
  else if bool_decide (wc_status claim ≠ TaskClaimed)
  then mret (failedReceipt taskId (tq_access request) workspaceId principalId
    (plain_error (js "workspace task is already active")))
  else executeClaimedTask request {|
    ct_taskId := taskId; ct_workspaceId := workspaceId; ct_principalId := principalId;
    ct_isolationId := ii_id isolationIdentity; ct_identity := identity;
    ct_policy := task_policy (tq_access request); ct_executionBinding := executionEnvironment;
    ct_expectedLease := None |}.

Definition runTask (request : WorkspaceTaskRequest) : tprog WorkspaceTaskReceipt :=
  _ ← assertNotCancelled RequestAborted;
  taskId ← (match tq_id request with Some id => mret id | None => fresh_id (js "wtsk_") end);
  let workspaceId := default (tt_defaultWorkspaceId this) (tq_workspaceId request) in
  let principalId := default (tt_defaultPrincipalId this) (tq_principalId request) in
  isolationIdentity ← of_result (taskIsolationIdentity number_text sha256 (tt_rootIdentity this)
    taskId (tq_strategy request) (tq_access request) (tt_gitWorktree this));
  executionEnvironment ← await (ResolveBinding
    (Some (policy_document (task_policy (tq_access request)))));
  current ← current_run request workspaceId principalId isolationIdentity executionEnvironment;
  match current with
  | Some current =>
      if is_over (ws_run current) then workspaceTaskReceiptFromSnapshot current
      else run_claimed request taskId workspaceId principalId isolationIdentity executionEnvironment
  | None => run_claimed request taskId workspaceId principalId isolationIdentity executionEnvironment
  end.

(** The request of a run that is continued. *)
Definition resumed_request (request : ResumeWorkspaceTaskRequest) (access : WorkspaceTaskAccess)
    (stored : WorkspaceTaskRunRecord) : WorkspaceTaskRequest := {|
  tq_access := access; tq_strategy := wr_strategy stored; tq_input := rq_input request;
  tq_id := Some (wr_id stored); tq_workspaceId := Some (wr_workspaceId stored);
  tq_principalId := Some (wr_principalId stored); tq_jobId := wr_jobId stored;
  tq_agentId := wr_agentId stored; tq_handler := rq_handler request |}.

(** The claim of a continuation, and what follows. *)
Definition continue_claimed (request : ResumeWorkspaceTaskRequest)
    (run : WorkspaceTaskRunRecord) : tprog WorkspaceTaskReceipt :=
  let taskId := rq_runId request in
  let policy := task_policy (wr_access run) in
  executionEnvironment ← await (ResolveBinding (Some (policy_document policy)));
  identity ← fresh_identity taskId;
  claim ← await (ClaimWorkspaceTaskContinuation {|
    cc_identity := identity; cc_ownerId := tt_ownerId this; cc_leaseMs := tt_leaseMs this;
    cc_executionEnvironment := executionEnvironment |});
  _ ← of_result (same_binding (wr_executionEnvironment (ws_run (wc_snapshot claim)))
        executionEnvironment "workspace task continuation execution environment");
  if bool_decide (wc_status claim = TaskAlreadyTerminal)
  then workspaceTaskReceiptFromSnapshot (wc_snapshot claim)
  else if bool_decide (wc_status claim ≠ TaskClaimed)
  then mret (failedReceipt taskId (wr_access run) (wr_workspaceId run) (wr_principalId run)
    (plain_error (js "workspace task continuation is already active")))
  else
    let stored := ws_run (wc_snapshot claim) in
    executeClaimedTask (resumed_request request (wr_access run) stored) {|
      ct_taskId := taskId; ct_workspaceId := wr_workspaceId stored;
      ct_principalId := wr_principalId stored;
      ct_isolationId := ii_id (wr_isolationIdentity stored); ct_identity := identity;
      ct_policy := policy; ct_executionBinding := executionEnvironment;
      ct_expectedLease := Some (ii_baseRevision (wr_isolationIdentity stored),
        ii_runtimeRef (wr_isolationIdentity stored)) |}.

Definition resumeTask (request : ResumeWorkspaceTaskRequest) : tprog WorkspaceTaskReceipt :=
  _ ← assertNotCancelled RequestAborted;
  let taskId := rq_runId request in
  _ ← throw_if (negb (is_opaque taskId)) (js "runId must be an opaque identifier");
  current ← await (GetWorkspaceTaskRun taskId);
  match current with
  | None => throw (js "workspace task run does not exist: " ++ taskId)
  | Some current =>
      let run := ws_run current in
      _ ← of_result (assertTaskRuntimeIdentity number_text sha256 run (tt_rootIdentity this)
            (tt_gitWorktree this));
      if bool_decide (wr_state run = TaskReleased) then workspaceTaskReceiptFromSnapshot current
      else if bool_decide (wr_state run ≠ TaskAttention)
      then mret (failedReceipt taskId (wr_access run) (wr_workspaceId run) (wr_principalId run)
        (plain_error (js "workspace task is not waiting for continuation")))
      else continue_claimed request run
  end.

(** ** Recovery ([recovery.ts]) *)

Definition RECOVERY_REQUIRED_MESSAGE : jstr :=
  js "workspace task owner was lost before execution settlement could be proven".

(** Why the environment is not the one that the run was admitted with. *)
Definition executionBindingError (run : WorkspaceTaskRunRecord) : tprog (option WorkspaceTaskError) :=
  checked ← attempt (
    resolved ← await (ResolveBinding (binding_policy (wr_executionEnvironment run)));
    of_result (same_binding resolved (wr_executionEnvironment run)
      "workspace task recovery execution environment"));
  mret (match checked with Ok _ => None | Throw error => Some (serializeWorkspaceTaskError error []) end).

Definition failedRecoveryReceipt (run : WorkspaceTaskRunRecord) (message : jstr)
    : WorkspaceTaskReceipt :=
  failedReceipt (wr_id run) (wr_access run) (wr_workspaceId run) (wr_principalId run)
    (plain_error message).

Definition durable_identity (run : WorkspaceTaskRunRecord) : WorkspaceIsolationDurableIdentity :=
  let identity := wr_isolationIdentity run in
  {| di_id := ii_id identity; di_kind := ii_kind identity;
     di_repositoryId := ii_repositoryId identity; di_baseRevision := ii_baseRevision identity;
     di_branchName := ii_runtimeRef identity |}.

Definition mark_attention (identity : WorkspaceTaskRunIdentityRequest) (error : WorkspaceTaskError)
    (type : jstr) : tprog WorkspaceTaskReceipt :=
  attention ← await (MarkWorkspaceTaskAttention identity (workspaceTaskFailureJson error type));
  workspaceTaskReceiptFromSnapshot attention.

(** The release of the isolation of a run that was proposed or is being released. *)
Definition recover_release (identity : WorkspaceTaskRunIdentityRequest)
    (snapshot : WorkspaceTaskRunSnapshot) : tprog WorkspaceTaskReceipt :=
  snapshot ← (if bool_decide (wr_state (ws_run snapshot) = TaskProposed)
              then await (BeginWorkspaceTaskRelease identity) else mret snapshot);
  let run := ws_run snapshot in
  _ ← throw_if (bool_decide (wr_state run ≠ TaskReleasing))
        (js "workspace task recovery cannot continue from state " ++ name_of (wr_state run));
  _ ← raise_if (bool_decide (wr_strategy run = StrategyGitWorktree ∧ tt_gitWorktree this = None))
        (ErrorThrown (js "TypeError") (js "Cannot read properties of undefined (reading 'isolation')"));
  _ ← await (ReleaseDurableIsolation (wr_strategy run) (durable_identity run));
  _ ← await AssertHealthy;
  released ← await (FinalizeWorkspaceTaskRelease identity);
  workspaceTaskReceiptFromSnapshot released.

(** The [try] block: what a claimed run needs. *)
Definition recover_claimed (identity : WorkspaceTaskRunIdentityRequest)
    (initialBindingError : option WorkspaceTaskError) (snapshot : WorkspaceTaskRunSnapshot)
    : tprog WorkspaceTaskReceipt :=
  let run := ws_run snapshot in
  bindingError ← (match initialBindingError with
    | Some error => mret (Some error)
    | None => executionBindingError run
    end);
  match bindingError with
  | Some error => mark_attention identity error ENVIRONMENT_CHANGED
  | None =>
      if bool_decide (wr_state run ∈ [TaskPreparing; TaskActive; TaskCollecting])
      then mark_attention identity (plain_error RECOVERY_REQUIRED_MESSAGE) RECOVERY_REQUIRED
      else recover_release identity snapshot
  end.

Definition recover_failed (identity : WorkspaceTaskRunIdentityRequest)
    (snapshot : WorkspaceTaskRunSnapshot) (error : task_thrown) : tprog WorkspaceTaskReceipt :=
  let taskError := serializeWorkspaceTaskError error [] in
  try_catch (mark_attention identity taskError RECOVERY_REQUIRED)
    (fun _ => mret (failedRecoveryReceipt (ws_run snapshot) (te_message taskError))).

Definition recoverWorkspaceTask (runId : jstr) : tprog WorkspaceTaskReceipt :=
  _ ← throw_if (negb (is_opaque runId)) (js "workspace task runId must be an opaque identifier");
  current ← await (GetWorkspaceTaskRun runId);
  match current with
  | None => throw (js "workspace task run does not exist: " ++ runId)
  | Some current =>
      _ ← of_result (assertTaskRuntimeIdentity number_text sha256 (ws_run current)
            (tt_rootIdentity this) (tt_gitWorktree this));
      if is_over (ws_run current) then workspaceTaskReceiptFromSnapshot current
      else
        initialBindingError ← executionBindingError (ws_run current);
        identity ← fresh_identity runId;
        claim ← await (ClaimWorkspaceTaskRecovery {|
          cr_identity := identity; cr_ownerId := tt_ownerId this; cr_leaseMs := tt_leaseMs this |});
        let snapshot := wc_snapshot claim in
        if bool_decide (wc_status claim = TaskAlreadyTerminal)
        then workspaceTaskReceiptFromSnapshot snapshot
        else if bool_decide (wc_status claim ≠ TaskClaimed)
        then mret (failedRecoveryReceipt (ws_run snapshot) (js "workspace task is already active"))
        else
          _ ← of_result (assertTaskRuntimeIdentity number_text sha256 (ws_run snapshot)
                (tt_rootIdentity this) (tt_gitWorktree this));
          _ ← await StartRenewal;
          try_finally
            (try_catch (recover_claimed identity initialBindingError snapshot)
              (recover_failed identity snapshot))
            (await StopRenewal)
  end.

(** ** Jobs ([job.ts]) *)

Inductive task_handlers :=
| HandlerMap (handlers : list jstr)
| HandlerRecord (handlers : list jstr).

Definition registered (handlers : list jstr) (handlerId : jstr) : option task_handler :=
  RegisteredHandler ∘ fst <$> list_find (eq handlerId) handlers.

(** [handlers.get(handlerId)] of a map, or of an object with a function [get], which is
    taken for one; and [handlers[handlerId]] of another object, which also finds what every
    object inherits. *)
Definition getRegisteredTaskHandler (handlers : task_handlers) (handlerId : jstr)
    : tprog (option task_handler) :=
  match handlers with
  | HandlerMap handlers => mret (registered handlers handlerId)
  | HandlerRecord handlers =>
      if decide (js "get" ∈ handlers) then await (CallGetHandler handlerId)
      else mret (option_or (registered handlers handlerId)
        (if decide (handlerId ∈ inherited_names) then Some (InheritedMember handlerId) else None))
  end.

Definition submitWorkspaceTaskJob (request : SubmitWorkspaceTaskJobRequest)
    : tprog SchedulerJobRecord :=
  _ ← throw_if (bool_decide (sj_handlerId request = []))
        (js "workspace.task handlerId must not be empty");
  await (EnqueueTaskJob {|
    et_id := sj_id request; et_principalId := sj_principalId request;
    et_payload := workspaceTaskJobPayloadToJson {|
      tp_handlerId := sj_handlerId request; tp_access := sj_access request;
      tp_strategy := sj_strategy request; tp_input := sj_input request;
      tp_taskId := sj_taskId request; tp_workspaceId := sj_workspaceId request;
      tp_principalId := Some (sj_principalId request); tp_jobId := sj_jobId request;
      tp_agentId := sj_agentId request |};
    et_scheduledAt := sj_scheduledAt request; et_notBefore := sj_notBefore request;
    et_priority := sj_priority request; et_maxAttempts := sj_maxAttempts request;
    et_idempotencyKey := sj_idempotencyKey request |}).

(** The handler of a task's job; [jobId] and [principalId] are the job's. *)
Definition taskJobHandler (handlers : task_handlers) (jobId principalId : jstr) (payload : app_json)
    : tprog app_json :=
  aborted ← await RequestAborted;
  _ ← throw_if aborted (js "workspace.task job aborted before start: " ++ jobId);
  payload ← of_result (workspaceTaskJobPayloadFromJson payload);
  handler ← getRegisteredTaskHandler handlers (tp_handlerId payload);
  match handler with
  | None => throw (js "workspace.task handler not registered: " ++ tp_handlerId payload)
  | Some handler =>
      receipt ← runTask {|
        tq_access := tp_access payload; tq_strategy := tp_strategy payload;
        tq_input := tp_input payload; tq_id := tp_taskId payload;
        tq_workspaceId := tp_workspaceId payload;
        tq_principalId := Some (default principalId (tp_principalId payload));
        tq_jobId := Some (default jobId (tp_jobId payload));
        tq_agentId := tp_agentId payload; tq_handler := handler |};
      let result := workspaceTaskJobResultFromReceipt receipt in
      match tj_status result with
      | TaskFailed => Raise (JobFailedThrown result)
      | TaskSucceeded => mret (workspaceTaskJobResultToJson result)
      end
  end.
End runtime.

(** * Reading

    Where a monitor lets the reads pass and keeps its state over them, the receipt of a
    snapshot is the record of the store. *)

#[local] Arguments wp : simpl never.
#[local] Arguments mbind : simpl never.
#[local] Arguments mret : simpl never.
#[local] Arguments handle : simpl never.
#[local] Arguments await : simpl never.

Definition of_snapshot (run : WorkspaceTaskRunRecord) (receipt : WorkspaceTaskReceipt) : Prop :=
  rt_status receipt = snapshot_status run ∧ rt_taskId receipt = wr_id run.

Section reading.
Context {S : Type} (step : S → tevent → option S) (may : tevent → Prop).

Definition reads (m : S) : Prop :=
  (∀ id r, step m (Event (GetResource id) r) = Some m) ∧
  (∀ id r, step m (Event (GetWorkspaceChangeSet id) r) = Some m) ∧
  (∀ id r, step m (Event (GetWorkspaceChangeProposal id) r) = Some m) ∧
  (∀ r, step m (Event RandomUUID r) = Some m) ∧
  (∀ r, step m (Event RandomToken r) = Some m).

(** A call that the monitor does not remember. *)
Lemma read_wp {R} (c : task_call R) (Q : result task_thrown R → S → Prop) m :
  (∀ r, step m (Event c r) = Some m) → (∀ r, may (Event c r) → Q r m) → wp step may (await c) Q m.
Proof. intros Hs HQ. apply wp_call. eauto. Qed.

Context (m : S) (Hreads : reads m).

Lemma attempt_resources_wp ids :
  wp step may (attempt_resources ids) (fun r m' => m' = m ∧ is_ok r = true) m.
Proof.
  destruct Hreads as (Hget & _).
  induction ids as [|id ids IH]; simpl; [by repeat wp_rule|].
  repeat wp_rule. unfold get_resource. wp_rule. apply read_wp; [apply Hget|].
  assert (∀ first, wp step may (rest ← attempt_resources ids; mret (first :: rest))
    (fun r m' => m' = m ∧ is_ok r = true) m) as Hrest.
  { intros first. wp_rule. eapply wp_mono; [|exact IH]. intros [rest|e] m' [-> ?]; [by wp_rule|done]. }
  intros [[resource|]|e] _; simpl; unfold throw; [wp_rule|wp_rule|]; apply Hrest.
Qed.

Lemma get_resources_wp ids : wp step may (get_resources ids) (fun _ m' => m' = m) m.
Proof.
  unfold get_resources. wp_rule. eapply wp_mono; [|apply attempt_resources_wp].
  intros [settled|e] m' [-> ?]; [by wp_rule|done].
Qed.

Lemma linkedRecords_wp run : wp step may (linkedRecords run) (fun _ m' => m' = m) m.
Proof.
  destruct Hreads as (_ & Hset & Hproposal & _). unfold linkedRecords. wp_rule.
  assert (∀ changeSet : option WorkspaceChangeSetRecord, wp step may (proposal ← match wr_proposalId run with
      | None => mret None
      | Some proposalId => await (GetWorkspaceChangeProposal proposalId)
      end; mret (changeSet, proposal)) (fun _ m' => m' = m) m) as Hp.
  { intros changeSet. wp_rule. destruct (wr_proposalId run); [|by repeat wp_rule].
    apply read_wp; [apply Hproposal|]. intros [proposal|e] _; simpl; [by wp_rule|done]. }
  destruct (wr_changeSetId run); [|wp_rule; apply Hp].
  apply read_wp; [apply Hset|]. intros [changeSet|e] _; simpl; [apply Hp|done].
Qed.

Lemma receipt_wp snapshot :
  wp step may (workspaceTaskReceiptFromSnapshot snapshot)
    (fun r m' => m' = m ∧ match r with
      | Ok receipt => of_snapshot (ws_run snapshot) receipt | Throw _ => True end) m.
Proof.
  unfold workspaceTaskReceiptFromSnapshot. wp_rule. eapply wp_mono; [|apply get_resources_wp].
  intros [resources|e] m' ->; [|done]. wp_rule. eapply wp_mono; [|apply linkedRecords_wp].
  intros [records|e] m' ->; [|done]. wp_rule. done.
Qed.

Context (Huuid : ∀ r, may (Event RandomUUID r) → ∃ text, r = Ok text).

Lemma fresh_id_wp prefix (Q : result task_thrown jstr → S → Prop) :
  (∀ id, Q (Ok id) m) → wp step may (fresh_id prefix) Q m.
Proof.
  intros HQ. unfold fresh_id. wp_rule. apply read_wp; [apply Hreads|].
  intros r [uuid ->]%Huuid. wp_rule. apply HQ.
Qed.

Context (Htoken : ∀ r, may (Event RandomToken r) → ∃ text, r = Ok text).

Lemma fresh_identity_wp runId (Q : result task_thrown WorkspaceTaskRunIdentityRequest → S → Prop) :
  (∀ identity, ri_runId identity = runId → Q (Ok identity) m) →
  wp step may (fresh_identity runId) Q m.
Proof.
  intros HQ. unfold fresh_identity. wp_rule. apply fresh_id_wp. intros attemptId. wp_rule.
  apply read_wp; [apply Hreads|]. intros r [token ->]%Htoken. wp_rule. by apply HQ.
Qed.
End reading.
