(* ===== verification/TaskSafety.v ===== *)
(** What a task may do, whatever its environment answers: a monitor of the calls of
    [runTask] and [resumeTask], and the proofs that they follow it. *)
From S2P Require Import Prelude JsMap Json JsStr JsonText Protocol WorkspaceProtocol ExecutionBinding ExecutionBindingLaws WorkspaceTask Program TaskRuntime.

#[export] Instance WorkspaceFileChange_eq_dec : EqDecision WorkspaceFileChange.
Proof. solve_decision. Defined.

#[export] Instance WorkspaceChangeSet_eq_dec : EqDecision WorkspaceChangeSet.
Proof. solve_decision. Defined.

#[export] Instance WorkspaceIsolationLease_eq_dec : EqDecision WorkspaceIsolationLease.
Proof. solve_decision. Defined.

(** How far the store has confirmed the run. *)
Inductive task_stage :=
| StageUnclaimed | StageClaimed | StageActive | StageCollecting | StageProposed | StageReleasing
| StageReleased.

#[export] Instance task_stage_eq_dec : EqDecision task_stage.
Proof. solve_decision. Defined.

Inductive scope_state := ScopeNone | ScopeOpen (binding : app_json) | ScopeClosed.

(** What the environment has told: the claim that was granted, the last snapshot of the run,
    and the last binding that was resolved. *)
Record task_facts := {
  fa_claim : option (WorkspaceTaskRunIdentityRequest * WorkspaceTaskRunSnapshot);
  fa_seen : option WorkspaceTaskRunSnapshot;
  fa_resolved : option app_json;
}.

(** [tm_lost]: a call that changes the run has thrown; [tm_renewing]: nothing before the
    renewal is started; [tm_lease]: the lease that was prepared; [tm_release]: whether its
    release succeeded, once it was tried; [tm_handler]: the handler was called, with its
    result if it returned; [tm_proven]: since the scope was closed, no process is left;
    [tm_outcome]: what the store was told of the execution; [tm_changes]: what the worktree
    held; [tm_attention]: attention was asked for. *)
Record task_monitor := {
  tm_facts : task_facts;
  tm_stage : task_stage;
  tm_lost : bool;
  tm_renewing : option bool;
  tm_lease : option WorkspaceIsolationLease;
  tm_release : option bool;
  tm_scope : scope_state;
  tm_listening : bool;
  tm_handler : option (option WorkspaceTaskHandlerResult);
  tm_proven : bool;
  tm_outcome : option WorkspaceTaskExecutionOutcome;
  tm_changes : option WorkspaceChangeSet;
  tm_attention : bool;
}.

Definition task_facts_start : task_facts :=
  {| fa_claim := None; fa_seen := None; fa_resolved := None |}.

Definition task_monitor_start : task_monitor := {|
  tm_facts := task_facts_start; tm_stage := StageUnclaimed; tm_lost := false; tm_renewing := None;
  tm_lease := None; tm_release := None; tm_scope := ScopeNone; tm_listening := false;
  tm_handler := None; tm_proven := false; tm_outcome := None; tm_changes := None;
  tm_attention := false |}.

Section monitor.
Context (number_text : jsnum → jstr) (localeCompare : jstr → jstr → Z) (sha256 : jstr → jstr).

(** The binding passes for the one that was resolved. *)
Definition resolved_binding (m : task_monitor) (binding : app_json) : bool :=
  match fa_resolved (tm_facts m) with
  | Some resolved => is_ok (assertExecutionEnvironmentBindingEqual number_text localeCompare sha256
      binding resolved [])
  | None => false
  end.

Definition claim_binding (m : task_monitor) : bool :=
  match fa_claim (tm_facts m) with
  | Some (_, snapshot) => resolved_binding m (wr_executionEnvironment (ws_run snapshot))
  | None => false
  end.

(** The call is made under the claim. *)
Definition owned (m : task_monitor) (identity : WorkspaceTaskRunIdentityRequest) : bool :=
  match fa_claim (tm_facts m) with
  | Some (claimed, _) => bool_decide (identity = claimed)
  | None => false
  end.

Definition running (m : task_monitor) : bool := bool_decide (tm_renewing m = Some true).

(** A call that moves the run on from [stage]. *)
Definition moves (m : task_monitor) (identity : WorkspaceTaskRunIdentityRequest)
    (stage : task_stage) : bool :=
  owned m identity && bool_decide (tm_stage m = stage) && negb (tm_lost m) && running m.

Definition no_scope (m : task_monitor) : bool :=
  match tm_scope m with ScopeOpen _ => false | _ => true end.

Definition scope_closed (m : task_monitor) : bool :=
  match tm_scope m with ScopeClosed => true | _ => false end.

Definition leased (m : task_monitor) (p : WorkspaceIsolationLease → bool) : bool :=
  match tm_lease m with Some lease => p lease | None => false end.

(** The outcome of the run agrees with that of the execution. *)
Definition outcome_fits (execution : WorkspaceTaskExecutionOutcome) (outcome : WorkspaceTaskRunOutcome)
    : bool :=
  match execution, outcome with
  | ExecutionCompleted, (OutcomeReadOnlyCompleted | OutcomeNoChanges)
  | ExecutionFailed, OutcomeExecutionFailed | ExecutionCancelled, OutcomeCancelled => true
  | _, _ => false
  end.

Definition collection_fits (m : task_monitor) (request : FinalizeWorkspaceTaskCollectionRequest) : bool :=
  match request, tm_outcome m with
  | FinalizeProposed changeSet _ _ metadata, Some execution =>
      bool_decide (tm_changes m = Some changeSet) &&
      eqb (bool_decide (metadata = None)) (bool_decide (execution = ExecutionCompleted))
  | FinalizeUnchanged outcome, Some execution =>
      bool_decide (tm_changes m = None) && outcome_fits execution outcome
  | _, None => false
  end.

Definition handler_returned (m : task_monitor) : bool :=
  match tm_handler m with Some (Some _) => true | _ => false end.

Definition allowed (m : task_monitor) {R} (c : task_call R) : bool :=
  match c with
  | GetWorkspaceTaskRun _ | GetResource _ | GetWorkspaceChangeSet _ | GetWorkspaceChangeProposal _
  | ResolveBinding _ | RandomUUID | RandomToken | RequestAborted => true
  | BeginWorkspaceTaskRun _ | ClaimWorkspaceTaskContinuation _ =>
      bool_decide (tm_stage m = StageUnclaimed) && negb (tm_lost m)
  | StartRenewal =>
      bool_decide (tm_stage m = StageClaimed) && bool_decide (tm_renewing m = None) && claim_binding m
  | AssertHealthy => running m
  | StopRenewal => running m && no_scope m && negb (tm_listening m)
  | PrepareIsolation _ _ =>
      bool_decide (tm_stage m = StageClaimed) && running m && bool_decide (tm_lease m = None)
  | MarkWorkspaceTaskActive identity prepared =>
      moves m identity StageClaimed && leased m (fun lease =>
        match prepared with
        | None => true
        | Some prepared => bool_decide (Some (pi_baseRevision prepared) = il_baseRevision lease) &&
            bool_decide (Some (pi_runtimeRef prepared) = il_branchName lease)
        end)
  | BindScope request =>
      bool_decide (tm_stage m = StageActive) && negb (tm_lost m) && running m &&
      match tm_scope m with ScopeNone => true | _ => false end &&
      leased m (fun lease =>
        bool_decide (bs_fileSystemRoots request = [(js "workspace", il_rootDir lease)]))
  | CloseScope => negb (no_scope m)
  | CombineSignals => negb (no_scope m) && negb (tm_listening m)
  | DisposeSignals => no_scope m && tm_listening m
  | SignalAborted => tm_listening m
  | RunHandler _ context =>
      bool_decide (tm_stage m = StageActive) && negb (tm_lost m) && running m && tm_listening m &&
      bool_decide (tm_handler m = None) && claim_binding m &&
      match tm_scope m with
      | ScopeOpen binding => bool_decide (cx_binding context = binding) && resolved_binding m binding
      | _ => false
      end &&
      leased m (fun lease => bool_decide (cx_rootDir context = il_rootDir lease))
  | AssertCleanupProven => match tm_scope m with ScopeNone => false | _ => true end
  | IngestProviderOutput _ => handler_returned m && running m
  | BeginWorkspaceTaskCollection identity request =>
      moves m identity StageActive &&
      implb (bool_decide (bc_executionOutcome request = ExecutionCompleted)) (handler_returned m)
  | CollectWorktree lease _ =>
      bool_decide (tm_stage m = StageCollecting) && negb (tm_lost m) && running m &&
      scope_closed m && tm_proven m && bool_decide (tm_lease m = Some lease)
  | FinalizeWorkspaceTaskCollection identity request =>
      moves m identity StageCollecting && scope_closed m && tm_proven m && collection_fits m request
  | BeginWorkspaceTaskRelease identity => moves m identity StageProposed
  | ReleaseIsolation _ lease =>
      bool_decide (tm_lease m = Some lease) && bool_decide (tm_release m = None) && running m &&
      (bool_decide (tm_stage m = StageReleasing) && negb (tm_lost m) && negb (tm_attention m) ||
       bool_decide (tm_stage m = StageActive) && bool_decide (tm_handler m = None) &&
       no_scope m && tm_attention m)
  | FinalizeWorkspaceTaskRelease identity =>
      moves m identity StageReleasing && bool_decide (tm_release m = Some true)
  | MarkWorkspaceTaskAttention identity _ =>
      owned m identity && running m && negb (tm_attention m) &&
      bool_decide (tm_release m = None) && no_scope m
  | ClaimWorkspaceTaskRecovery _ | ListWorkspaceTaskRuns _ | ReleaseDurableIsolation _ _
  | EnqueueTaskJob _ | CallGetHandler _ | Now => false
  end.

(** ** What a call changes *)

Definition set_facts facts m : task_monitor := {|
  tm_facts := facts; tm_stage := tm_stage m; tm_lost := tm_lost m; tm_renewing := tm_renewing m;
  tm_lease := tm_lease m; tm_release := tm_release m; tm_scope := tm_scope m;
  tm_listening := tm_listening m; tm_handler := tm_handler m; tm_proven := tm_proven m;
  tm_outcome := tm_outcome m; tm_changes := tm_changes m; tm_attention := tm_attention m |}.
Definition set_stage stage m : task_monitor := {|
  tm_facts := tm_facts m; tm_stage := stage; tm_lost := tm_lost m; tm_renewing := tm_renewing m;
  tm_lease := tm_lease m; tm_release := tm_release m; tm_scope := tm_scope m;
  tm_listening := tm_listening m; tm_handler := tm_handler m; tm_proven := tm_proven m;
  tm_outcome := tm_outcome m; tm_changes := tm_changes m; tm_attention := tm_attention m |}.
Definition set_lost m : task_monitor := {|
  tm_facts := tm_facts m; tm_stage := tm_stage m; tm_lost := true; tm_renewing := tm_renewing m;
  tm_lease := tm_lease m; tm_release := tm_release m; tm_scope := tm_scope m;
  tm_listening := tm_listening m; tm_handler := tm_handler m; tm_proven := tm_proven m;
  tm_outcome := tm_outcome m; tm_changes := tm_changes m; tm_attention := tm_attention m |}.
Definition set_renewing b m : task_monitor := {|
  tm_facts := tm_facts m; tm_stage := tm_stage m; tm_lost := tm_lost m; tm_renewing := Some b;
  tm_lease := tm_lease m; tm_release := tm_release m; tm_scope := tm_scope m;
  tm_listening := tm_listening m; tm_handler := tm_handler m; tm_proven := tm_proven m;
  tm_outcome := tm_outcome m; tm_changes := tm_changes m; tm_attention := tm_attention m |}.
Definition set_lease lease m : task_monitor := {|
  tm_facts := tm_facts m; tm_stage := tm_stage m; tm_lost := tm_lost m;
  tm_renewing := tm_renewing m; tm_lease := Some lease; tm_release := tm_release m;
  tm_scope := tm_scope m; tm_listening := tm_listening m; tm_handler := tm_handler m;
  tm_proven := tm_proven m; tm_outcome := tm_outcome m; tm_changes := tm_changes m;
  tm_attention := tm_attention m |}.
Definition set_release ok m : task_monitor := {|
  tm_facts := tm_facts m; tm_stage := tm_stage m; tm_lost := tm_lost m;
  tm_renewing := tm_renewing m; tm_lease := tm_lease m; tm_release := Some ok;
  tm_scope := tm_scope m; tm_listening := tm_listening m; tm_handler := tm_handler m;
  tm_proven := tm_proven m; tm_outcome := tm_outcome m; tm_changes := tm_changes m;
  tm_attention := tm_attention m |}.
Definition set_open binding m : task_monitor := {|
  tm_facts := tm_facts m; tm_stage := tm_stage m; tm_lost := tm_lost m;
  tm_renewing := tm_renewing m; tm_lease := tm_lease m; tm_release := tm_release m;
  tm_scope := ScopeOpen binding; tm_listening := tm_listening m; tm_handler := tm_handler m;
  tm_proven := tm_proven m; tm_outcome := tm_outcome m; tm_changes := tm_changes m;
  tm_attention := tm_attention m |}.
Definition set_closed m : task_monitor := {|
  tm_facts := tm_facts m; tm_stage := tm_stage m; tm_lost := tm_lost m;
  tm_renewing := tm_renewing m; tm_lease := tm_lease m; tm_release := tm_release m;
  tm_scope := ScopeClosed; tm_listening := tm_listening m; tm_handler := tm_handler m;
  tm_proven := false; tm_outcome := tm_outcome m; tm_changes := tm_changes m;
  tm_attention := tm_attention m |}.
Definition set_listening b m : task_monitor := {|
  tm_facts := tm_facts m; tm_stage := tm_stage m; tm_lost := tm_lost m;
  tm_renewing := tm_renewing m; tm_lease := tm_lease m; tm_release := tm_release m;
  tm_scope := tm_scope m; tm_listening := b; tm_handler := tm_handler m;
  tm_proven := tm_proven m; tm_outcome := tm_outcome m; tm_changes := tm_changes m;
  tm_attention := tm_attention m |}.
Definition set_handler returned m : task_monitor := {|
  tm_facts := tm_facts m; tm_stage := tm_stage m; tm_lost := tm_lost m;
  tm_renewing := tm_renewing m; tm_lease := tm_lease m; tm_release := tm_release m;
  tm_scope := tm_scope m; tm_listening := tm_listening m; tm_handler := Some returned;
  tm_proven := tm_proven m; tm_outcome := tm_outcome m; tm_changes := tm_changes m;
  tm_attention := tm_attention m |}.
Definition set_proven m : task_monitor := {|
  tm_facts := tm_facts m; tm_stage := tm_stage m; tm_lost := tm_lost m;
  tm_renewing := tm_renewing m; tm_lease := tm_lease m; tm_release := tm_release m;
  tm_scope := tm_scope m; tm_listening := tm_listening m; tm_handler := tm_handler m;
  tm_proven := tm_proven m || scope_closed m; tm_outcome := tm_outcome m;
  tm_changes := tm_changes m; tm_attention := tm_attention m |}.
Definition set_collecting outcome m : task_monitor := {|
  tm_facts := tm_facts m; tm_stage := StageCollecting; tm_lost := tm_lost m;
  tm_renewing := tm_renewing m; tm_lease := tm_lease m; tm_release := tm_release m;
  tm_scope := tm_scope m; tm_listening := tm_listening m; tm_handler := tm_handler m;
  tm_proven := tm_proven m; tm_outcome := Some outcome; tm_changes := tm_changes m;
  tm_attention := tm_attention m |}.
Definition set_changes changeSet m : task_monitor := {|
  tm_facts := tm_facts m; tm_stage := tm_stage m; tm_lost := tm_lost m;
  tm_renewing := tm_renewing m; tm_lease := tm_lease m; tm_release := tm_release m;
  tm_scope := tm_scope m; tm_listening := tm_listening m; tm_handler := tm_handler m;
  tm_proven := tm_proven m; tm_outcome := tm_outcome m; tm_changes := Some changeSet;
  tm_attention := tm_attention m |}.
Definition set_attention m : task_monitor := {|
  tm_facts := tm_facts m; tm_stage := tm_stage m; tm_lost := tm_lost m;
  tm_renewing := tm_renewing m; tm_lease := tm_lease m; tm_release := tm_release m;
  tm_scope := tm_scope m; tm_listening := tm_listening m; tm_handler := tm_handler m;
  tm_proven := tm_proven m; tm_outcome := tm_outcome m; tm_changes := tm_changes m;
  tm_attention := true |}.

Definition see (snapshot : WorkspaceTaskRunSnapshot) (m : task_monitor) : task_monitor :=
  set_facts {| fa_claim := fa_claim (tm_facts m); fa_seen := Some snapshot;
    fa_resolved := fa_resolved (tm_facts m) |} m.

Definition resolve (binding : app_json) (m : task_monitor) : task_monitor :=
  set_facts {| fa_claim := fa_claim (tm_facts m); fa_seen := fa_seen (tm_facts m);
    fa_resolved := Some binding |} m.

Definition granted (identity : WorkspaceTaskRunIdentityRequest) (claim : WorkspaceTaskClaimResult)
    (m : task_monitor) : task_monitor :=
  if decide (wc_status claim = TaskClaimed)
  then set_stage StageClaimed (set_facts {|
    fa_claim := Some (identity, wc_snapshot claim); fa_seen := Some (wc_snapshot claim);
    fa_resolved := fa_resolved (tm_facts m) |} m)
  else see (wc_snapshot claim) m.

Definition begin_identity (request : BeginWorkspaceTaskRunRequest) : WorkspaceTaskRunIdentityRequest :=
  {| ri_runId := br_id request; ri_attemptId := br_attemptId request;
     ri_claimToken := br_claimToken request |}.

(** A call that moves the run on, or is lost. *)
Definition moved {A} (f : task_monitor → task_monitor) (r : result task_thrown A) (m : task_monitor)
    : task_monitor :=
  match r with Ok _ => f m | Throw _ => set_lost m end.

Definition finalized_stage (request : FinalizeWorkspaceTaskCollectionRequest) : task_stage :=
  match request with FinalizeProposed _ _ _ _ => StageProposed | FinalizeUnchanged _ => StageReleasing end.

Definition advance (m : task_monitor) {R} (c : task_call R) : result task_thrown R → task_monitor :=
  match c in task_call R return result task_thrown R → task_monitor with
  | GetWorkspaceTaskRun _ => fun r => match r with Ok (Some snapshot) => see snapshot m | _ => m end
  | BeginWorkspaceTaskRun request => fun r =>
      match r with Ok claim => granted (begin_identity request) claim m | Throw _ => set_lost m end
  | ClaimWorkspaceTaskContinuation request => fun r =>
      match r with Ok claim => granted (cc_identity request) claim m | Throw _ => set_lost m end
  | ResolveBinding _ => fun r => match r with Ok binding => resolve binding m | Throw _ => m end
  | StartRenewal => fun _ => set_renewing true m
  | StopRenewal => fun _ => set_renewing false m
  | PrepareIsolation _ _ => fun r => match r with Ok lease => set_lease lease m | Throw _ => m end
  | MarkWorkspaceTaskActive _ _ => fun r => moved (set_stage StageActive) r m
  | BindScope _ => fun r => match r with Ok binding => set_open binding m | Throw _ => m end
  | CloseScope => fun _ => set_closed m
  | CombineSignals => fun _ => set_listening true m
  | DisposeSignals => fun _ => set_listening false m
  | RunHandler _ _ => fun r =>
      set_handler (match r with Ok result => Some result | Throw _ => None end) m
  | AssertCleanupProven => fun r => match r with Ok _ => set_proven m | Throw _ => m end
  | BeginWorkspaceTaskCollection _ request => fun r =>
      moved (set_collecting (bc_executionOutcome request)) r m
  | CollectWorktree _ _ => fun r =>
      match r with Ok (CollectedChanges changeSet) => set_changes changeSet m | _ => m end
  | FinalizeWorkspaceTaskCollection _ request => fun r =>
      moved (set_stage (finalized_stage request)) r m
  | BeginWorkspaceTaskRelease _ => fun r => moved (set_stage StageReleasing) r m
  | ReleaseIsolation _ _ => fun r => set_release (is_ok r) m
  | FinalizeWorkspaceTaskRelease _ => fun r => moved (set_stage StageReleased) r m
  | MarkWorkspaceTaskAttention _ _ => fun _ => set_attention m
  | _ => fun _ => m
  end.

Definition task_step (m : task_monitor) (e : tevent) : option task_monitor :=
  match e with Event c r => if allowed m c then Some (advance m c r) else None end.

(** What does not throw: the renewal's start and stop, the signals and the random texts; and
    a run keeps the strategy that it was begun with. *)
Context (strategy_of : jstr → WorkspaceTaskStrategy).

Definition keeps_strategy (runId : jstr) (snapshot : WorkspaceTaskRunSnapshot) : Prop :=
  wr_strategy (ws_run snapshot) = strategy_of runId.

Definition possible (e : tevent) : Prop :=
  match e with
  | Event c r => match c in task_call R return result task_thrown R → Prop with
      | StartRenewal => fun r => r = Ok tt
      | StopRenewal => fun r => r = Ok tt
      | CombineSignals => fun r => r = Ok tt
      | DisposeSignals => fun r => r = Ok tt
      | SignalAborted => fun r => ∃ b, r = Ok b
      | RequestAborted => fun r => ∃ b, r = Ok b
      | RandomUUID => fun r => ∃ text, r = Ok text
      | RandomToken => fun r => ∃ text, r = Ok text
      | GetWorkspaceTaskRun runId => fun r =>
          ∀ snapshot, r = Ok (Some snapshot) → keeps_strategy runId snapshot
      | ClaimWorkspaceTaskContinuation request => fun r =>
          ∀ claim, r = Ok claim → keeps_strategy (ri_runId (cc_identity request)) (wc_snapshot claim)
      | _ => fun _ => True
      end r
  end.

(** ** How a task ends *)

Definition given_up (m : task_monitor) : Prop :=
  tm_renewing m ≠ Some true ∧ no_scope m = true ∧ tm_listening m = false.

(** Nothing was begun but, at most, the claim. *)
Definition untouched (m : task_monitor) : Prop :=
  tm_renewing m = None ∧ tm_lease m = None ∧ tm_handler m = None ∧ tm_attention m = false.

Definition failed_end (m : task_monitor) : Prop :=
  tm_attention m = true ∨
  is_Some (tm_release m) ∧ (tm_stage m = StageReleasing ∨ tm_outcome m ≠ Some ExecutionCompleted).

Definition task_post (r : result task_thrown WorkspaceTaskReceipt) (m : task_monitor) : Prop :=
  given_up m ∧
  match r with
  | Ok receipt =>
      untouched m ∧
        (rt_status receipt = TaskSucceeded → ∃ snapshot, fa_seen (tm_facts m) = Some snapshot ∧
          snapshot_status (ws_run snapshot) = TaskSucceeded ∧
          rt_taskId receipt = wr_id (ws_run snapshot)) ∨
      match rt_status receipt with
      | TaskSucceeded => tm_stage m = StageReleased ∧ tm_outcome m = Some ExecutionCompleted ∧
          rt_error receipt = None ∧ tm_attention m = false
      | TaskFailed => failed_end m ∧ is_Some (rt_error receipt)
      end
  | Throw _ => untouched m ∨ is_Some (tm_release m) ∧ tm_attention m = false
  end.
End monitor.

(** * Proofs *)

#[local] Arguments wp : simpl never.
#[local] Arguments lwp : simpl never.
#[local] Arguments mbind : simpl never.
#[local] Arguments mret : simpl never.
#[local] Arguments handle : simpl never.
#[local] Arguments await : simpl never.
#[local] Arguments assertExecutionEnvironmentBindingEqual : simpl never.

Section proofs.
Context (number_text : jsnum → jstr) (localeCompare : jstr → jstr → Z) (sha256 : jstr → jstr).
Context (not_iterable : jstr) (this : WorkspaceTaskRuntime).
Context (strategy_of : jstr → WorkspaceTaskStrategy).

Abbreviation step := (task_step number_text localeCompare sha256).
Abbreviation may := (possible strategy_of).
Abbreviation twp := (wp step may).
Abbreviation tlwp := (lwp step may).
Abbreviation permitted := (allowed number_text localeCompare sha256).

Lemma task_call_wp {R} (c : task_call R) (Q : result task_thrown R → task_monitor → Prop) m :
  permitted m c = true → (∀ r, may (Event c r) → Q r (advance m c r)) → twp (await c) Q m.
Proof.
  intros Ha HQ. apply wp_call. intros r Hr. exists (advance m c r).
  unfold task_step. rewrite Ha. auto.
Qed.

(** Whether two bindings are the same does not depend on the label of the error. *)
Lemma same_binding_Ok actual expected label u :
  same_binding number_text localeCompare sha256 not_iterable actual expected label = Ok u ↔
  is_ok (assertExecutionEnvironmentBindingEqual number_text localeCompare sha256 actual expected []) = true.
Proof.
  unfold same_binding, assertExecutionEnvironmentBindingEqual. destruct u.
  destruct (assertExecutionEnvironmentBindingValid number_text localeCompare sha256 actual); [|done].
  destruct (assertExecutionEnvironmentBindingValid number_text localeCompare sha256 expected); [|done].
  simpl. unfold reject_if, guard_throw, mbind, result_bind. by destruct (bool_decide _).
Qed.

Lemma permitted_reads m : reads step m.
Proof. by repeat split. Qed.

Lemma ingest_wp artifacts m :
  handler_returned m = true → running m = true →
  twp (ingestWorkspaceTaskArtifacts artifacts) (fun _ m' => m' = m) m.
Proof.
  intros Hh Hr. induction artifacts as [|artifact artifacts IH]; simpl; [by wp_rule|].
  wp_rule. apply task_call_wp; [by simpl; rewrite Hh, Hr|]. intros [resource|e] _; [|done].
  simpl. wp_rule. eapply wp_mono; [|exact IH]. intros [resources|e] m' ->; [by wp_rule|done].
Qed.

(** ** A claimed task *)

Section claimed.
Context (request : WorkspaceTaskRequest) (options : claimed_options).
Context (snapshot : WorkspaceTaskRunSnapshot).
Hypothesis (admitted : is_ok (assertExecutionEnvironmentBindingEqual number_text localeCompare sha256
  (wr_executionEnvironment (ws_run snapshot)) (ct_executionBinding options) []) = true).
Hypothesis (capable : tq_strategy request = StrategyGitWorktree → tt_gitWorktree this ≠ None).

Definition claimed_facts : task_facts := {|
  fa_claim := Some (ct_identity options, snapshot); fa_seen := Some snapshot;
  fa_resolved := Some (ct_executionBinding options) |}.

(** A monitor while the renewal runs. *)
Definition executing stage lost lease release scope listening handler proven outcome changes attention
    : task_monitor := {|
  tm_facts := claimed_facts; tm_stage := stage; tm_lost := lost; tm_renewing := Some true;
  tm_lease := lease; tm_release := release; tm_scope := scope; tm_listening := listening;
  tm_handler := handler; tm_proven := proven; tm_outcome := outcome; tm_changes := changes;
  tm_attention := attention |}.

Ltac solve_permitted :=
  unfold executing; simpl; unfold moves, owned, leased, running, claim_binding, resolved_binding; simpl;
  rewrite ?admitted; simpl; repeat rewrite bool_decide_true by done; simpl; try done.

Ltac task_call :=
  apply task_call_wp; [solve_permitted|intros [?|?] ?; simpl in *; simplify_eq; try done].

Ltac wp_step := first [wp_rule|lazymatch goal with |- wp _ _ (await _) _ _ => task_call end].

(** Attention is asked for under the claim, once nothing is open; the answer is ignored. *)
Lemma attention_wp error stage lost lease scope listening handler proven outcome changes Q :
  (match scope with ScopeOpen _ => False | _ => True end) →
  Q (Ok tt) (executing stage lost lease None scope listening handler proven outcome changes true) →
  twp (markAttentionBestEffort (ct_identity options) error) Q
    (executing stage lost lease None scope listening handler proven outcome changes false).
Proof.
  intros Hs HQ. unfold markAttentionBestEffort. wp_rule. wp_rule.
  apply task_call_wp; [destruct scope; [|done|]; solve_permitted|]. intros r _. by wp_rule.
Qed.

Lemma prepared_fits lease :
  bool_decide (tq_strategy request = StrategyGitWorktree) &&
    (falsy (il_baseRevision lease) || falsy (il_branchName lease)) = false →
  match prepared_isolation request lease with
  | None => true
  | Some prepared => bool_decide (Some (pi_baseRevision prepared) = il_baseRevision lease) &&
      bool_decide (Some (pi_runtimeRef prepared) = il_branchName lease)
  end = true.
Proof.
  unfold prepared_isolation. destruct (tq_strategy request); [done|].
  rewrite bool_decide_true by done. simpl.
  destruct (il_baseRevision lease) as [base|], (il_branchName lease) as [branch|]; simpl;
    unfold falsy; simpl; intros H; try done; [|by apply orb_false_iff in H as []].
  by rewrite !bool_decide_true by done.
Qed.

(** How the preparation ends. *)
Lemma prepare_wp :
  twp (prepare_lease this request options)
    (fun r m => match r with
      | Ok lease => m = executing StageActive false (Some lease) None ScopeNone false None false
          None None false
      | Throw _ => ∃ lost lease, m = executing StageClaimed lost lease None ScopeNone false None false
          None None false
      end) (executing StageClaimed false None None ScopeNone false None false None None false).
Proof.
  unfold prepare_lease, throw_if. wp_rule. task_call; [|eauto].
  repeat wp_step; eauto. by apply prepared_fits.
Qed.

(** The scope that is bound passes for the one admitted; a scope that does not is closed. *)
Lemma bind_wp lease :
  twp (bind_scope number_text localeCompare sha256 not_iterable this options lease)
    (fun r m => ∃ scope, m = executing StageActive false (Some lease) None scope false None false
        None None false ∧
      match r with
      | Ok (Ok binding) => scope = ScopeOpen binding ∧
          is_ok (assertExecutionEnvironmentBindingEqual number_text localeCompare sha256
            binding (ct_executionBinding options) []) = true
      | Ok (Throw _) => match scope with ScopeOpen _ => False | _ => True end
      | Throw _ => False
      end) (executing StageActive false (Some lease) None ScopeNone false None false None None false).
Proof.
  unfold bind_scope. wp_rule. wp_rule. task_call; [|wp_rule; eauto].
  match goal with |- context [same_binding _ _ _ _ ?b ?e ?l] =>
    destruct (same_binding number_text localeCompare sha256 not_iterable b e l) as [u|error] eqn:Hs end.
  - apply same_binding_Ok in Hs. wp_rule. eauto.
  - wp_rule. wp_rule. apply task_call_wp; [done|]. intros r _. wp_rule. eauto.
Qed.

Section bound.
Context (lease : WorkspaceIsolationLease) (binding : app_json).
Hypothesis (bound : is_ok (assertExecutionEnvironmentBindingEqual number_text localeCompare sha256
  binding (ct_executionBinding options) []) = true).

Ltac solve_permitted ::=
  unfold executing; simpl; unfold moves, owned, leased, running, claim_binding, resolved_binding; simpl;
  rewrite ?admitted, ?bound; simpl; repeat rewrite bool_decide_true by done; simpl; try done.

(** A monitor after the scope was bound: while it is open, the signals are listened to. *)
Definition working stage lost (is_open : bool) handler proven outcome changes : task_monitor :=
  executing stage lost (Some lease) None (if is_open then ScopeOpen binding else ScopeClosed) is_open
    handler proven outcome changes false.

Definition closing (l : task_locals) : task_locals := {|
  tl_handlerResult := tl_handlerResult l; tl_handlerError := tl_handlerError l;
  tl_resources := tl_resources l; tl_summary := tl_summary l; tl_scopeClosed := true |}.

(** The scope is closed once, and then nothing listens. *)
Lemma close_wp stage lost is_open handler proven outcome changes (l : task_locals) Q :
  tl_scopeClosed l = negb is_open →
  (∀ r proven', Q r (closing l) (working stage lost false handler proven' outcome changes)) →
  tlwp closeExecutionScope Q l (working stage lost is_open handler proven outcome changes).
Proof.
  intros Hl HQ. unfold closeExecutionScope. wp_rule. wp_rule.
  destruct l as [result error resources summary closed], is_open; simpl in Hl; subst closed; simpl.
  - wp_rule. unfold set_scopeClosed. wp_rule. wp_rule. wp_rule. apply task_call_wp; [done|].
    intros r _. apply task_call_wp; [done|]. intros r' ->. simpl. destruct r as [[]|]; apply HQ.
  - wp_rule. apply HQ.
Qed.

Lemma not_cancelled_wp stage lost handler proven outcome changes Q :
  (∀ r, Q r (working stage lost true handler proven outcome changes)) →
  twp (assertNotCancelled SignalAborted) Q (working stage lost true handler proven outcome changes).
Proof.
  intros HQ. unfold assertNotCancelled. wp_rule. apply task_call_wp; [done|].
  intros r [b ->]. simpl. wp_rule; apply HQ.
Qed.

Lemma proven_wp stage lost is_open handler proven outcome changes
    (Q : result task_thrown unit → task_monitor → Prop) :
  Q (Ok tt) (working stage lost is_open handler (proven || negb is_open) outcome changes) →
  (∀ e, Q (Throw e) (working stage lost is_open handler proven outcome changes)) →
  twp (await AssertCleanupProven) Q (working stage lost is_open handler proven outcome changes).
Proof.
  intros Hok Hthrow. apply task_call_wp; [by destruct is_open|]. intros [[]|e] _; [|apply Hthrow].
  by destruct is_open.
Qed.

(** How the [try] block of the handler ends: the scope is still open. *)
Definition handler_ends (r : result task_thrown unit) (l : task_locals) (m : task_monitor) : Prop :=
  tl_handlerError l = None ∧ tl_scopeClosed l = false ∧
  ∃ handler, m = working StageActive false true handler false None None ∧
    (is_ok r = true → ∃ result, handler = Some (Some result)).

Lemma run_handler_wp :
  tlwp (run_handler request options lease binding) handler_ends task_start
    (working StageActive false true None false None None).
Proof.
  unfold run_handler. wp_rule. wp_rule. apply not_cancelled_wp. intros [[]|e]; [|repeat split; by eexists].
  wp_rule. wp_rule. apply task_call_wp; [unfold working; solve_permitted|].
  intros [result|e] _; [|by repeat split; eexists].
  unfold set_handlerResult, set_resources. wp_rule. wp_rule. wp_rule. wp_rule.
  change (advance _ _ _) with (working StageActive false true (Some (Some result)) false None None).
  apply not_cancelled_wp. intros [[]|e]; [|repeat split; by eexists].
  wp_rule. wp_rule. apply proven_wp; [|intros; repeat split; by eexists].
  wp_rule. wp_rule. eapply wp_mono; [|by apply ingest_wp].
  intros [resources|e] m ->; [|repeat split; by eexists].
  wp_rule. wp_rule. wp_rule. apply task_call_wp; [done|]. intros [[]|e] _.
  - repeat split; eauto.
  - repeat split; by eexists.
Qed.

(** A receipt of failure, after attention was asked for. *)
Lemma attention_post stage lost scope handler proven outcome changes release receipt :
  match scope with ScopeOpen _ => False | _ => True end →
  rt_status receipt = TaskFailed → is_Some (rt_error receipt) →
  task_post (Ok receipt) (set_renewing false (executing stage lost (Some lease) release scope false
    handler proven outcome changes true)).
Proof.
  intros Hs Hf He. split; [by destruct scope|]. right. rewrite Hf. split; [by left|done].
Qed.

Lemma attention_ends {A} error stage lost handler proven outcome changes (k : lprog A) Q l :
  tlwp k Q l (set_renewing false (executing stage lost (Some lease) None ScopeClosed false handler
    proven outcome changes true)) →
  tlwp (_ ← lift (markAttentionBestEffort (ct_identity options) error); _ ← lift (await StopRenewal); k)
    Q l (working stage lost false handler proven outcome changes).
Proof.
  intros Hk. wp_rule. wp_rule. apply attention_wp; [done|]. wp_rule. wp_rule.
  apply task_call_wp; [done|]. by intros r ->.
Qed.

Lemma handler_attention_wp failure l handler :
  tl_scopeClosed l = false →
  tlwp (handler_attention request options lease failure)
    (fun r _ m => is_ok r = true ∧ task_post r m) l
    (working StageActive false true handler false None None).
Proof.
  intros Hl. unfold handler_attention.
  assert (∀ attentionError proven, tlwp
    (_ ← lift (markAttentionBestEffort (ct_identity options) attentionError);
     _ ← lift (await StopRenewal); mret (claimed_failed request options attentionError))
    (fun r _ m => is_ok r = true ∧ task_post r m) (closing l)
    (working StageActive false false handler proven None None)) as Hend.
  { intros attentionError proven. apply attention_ends. wp_rule. split; [done|]. by apply attention_post. }
  wp_rule. wp_rule. wp_rule. apply close_wp; [done|]. intros [[]|e] proven; [|wp_rule; apply Hend].
  wp_rule. wp_rule. apply proven_wp; [wp_rule; apply Hend|]. intros e. wp_rule. apply Hend.
Qed.

(** How the handler's part ends: with the receipt of a task that is over, or with a handler
    that returned or an error. *)
Definition handled (l : task_locals) (m : task_monitor) : Prop :=
  tl_scopeClosed l = false ∧
  ∃ handler, m = working StageActive false true handler false None None ∧
    (tl_handlerError l = None → ∃ result, handler = Some (Some result)).

Lemma handler_stage_wp :
  tlwp (handler_stage request options lease binding)
    (fun r l m => match r with
      | Ok None => handled l m
      | Ok (Some receipt) => task_post (Ok receipt) m
      | Throw _ => False
      end) task_start (working StageActive false true None false None None).
Proof.
  unfold handler_stage. wp_rule. wp_rule. eapply lwp_mono; [|apply run_handler_wp].
  intros [[]|e] l m (He & Hl & handler & -> & Hok).
  - wp_rule. split; [done|]. eexists. split; [done|]. intros _. by apply Hok.
  - destruct e; try (unfold set_handlerError; wp_rule; wp_rule; wp_rule; split; [done|];
      eexists; split; [done|]; by intros [=]).
    wp_rule. eapply lwp_mono; [|by apply handler_attention_wp].
    intros [receipt|e] l' m' [Hr Hm]; [|done]. by wp_rule.
Qed.

(** ** The collection *)

(** A monitor when the collection fails. *)
Definition interrupted (l : task_locals) (m : task_monitor) : Prop :=
  ∃ stage lost is_open handler proven outcome changes,
    m = working stage lost is_open handler proven outcome changes ∧ tl_scopeClosed l = negb is_open.

(** A monitor when the isolation may be released. *)
Definition releasable (l : task_locals) (m : task_monitor) : Prop :=
  tl_scopeClosed l = true ∧
  ∃ handler proven outcome changes,
    m = working StageReleasing false false handler proven (Some outcome) changes ∧
    (outcome = ExecutionCompleted ↔ tl_handlerError l = None).

Definition collect_ends (r : result task_thrown (option WorkspaceTaskReceipt)) (l : task_locals)
    (m : task_monitor) : Prop :=
  match r with
  | Ok None => releasable l m
  | Ok (Some receipt) => task_post (Ok receipt) m
  | Throw _ => interrupted l m
  end.

Lemma execution_outcome_completed handlerError cancelled :
  execution_outcome handlerError cancelled = ExecutionCompleted ↔ handlerError = None.
Proof. destruct handlerError, cancelled; simpl; split; done. Qed.

Lemma outcome_fits_run handlerError cancelled completed :
  completed = OutcomeNoChanges ∨ completed = OutcomeReadOnlyCompleted →
  outcome_fits (execution_outcome handlerError cancelled) (run_outcome handlerError cancelled completed)
    = true.
Proof. destruct handlerError, cancelled; simpl; by intros [-> | ->]. Qed.

Lemma metadata_fits handlerError cancelled :
  eqb (bool_decide (proposal_metadata handlerError cancelled = None))
    (bool_decide (execution_outcome handlerError cancelled = ExecutionCompleted)) = true.
Proof. by destruct handlerError, cancelled. Qed.

(** The scope is closed, and no process is left. *)
Lemma closed_wp {A} stage handler outcome (k : unit → lprog A) Q l :
  tl_scopeClosed l = false →
  tlwp (k tt) Q (closing l) (working stage false false handler true outcome None) →
  (∀ e proven, Q (Throw e) (closing l) (working stage false false handler proven outcome None)) →
  tlwp (_ ← closeExecutionScope; u ← lift (await AssertCleanupProven); k u) Q l
    (working stage false true handler false outcome None).
Proof.
  intros Hl Hk Hthrow. wp_rule. apply close_wp; [done|]. intros [[]|e] proven; [|apply Hthrow].
  wp_rule. wp_rule. apply proven_wp; [|intros e; apply Hthrow]. by rewrite orb_true_r.
Qed.

Lemma interrupted_closed stage lost handler proven outcome changes l :
  interrupted (closing l) (working stage lost false handler proven outcome changes).
Proof. eexists stage, lost, false, handler, proven, outcome, changes. done. Qed.

Lemma collected proven handler changes cancelled l :
  releasable (closing l) (working StageReleasing false false handler proven
    (Some (execution_outcome (tl_handlerError l) cancelled)) changes).
Proof.
  split; [done|]. do 4 eexists. split; [done|]. apply execution_outcome_completed.
Qed.

Lemma collect_direct_wp cancelled l handler :
  tl_scopeClosed l = false →
  tlwp (collect_direct options cancelled) collect_ends l
    (working StageCollecting false true handler false
      (Some (execution_outcome (tl_handlerError l) cancelled)) None).
Proof.
  intros Hl. unfold collect_direct.
  apply closed_wp; [done| |intros; apply interrupted_closed].
  wp_rule. wp_rule. wp_rule. wp_rule.
  apply task_call_wp; [solve_permitted; by apply outcome_fits_run; right|].
  intros [[]|e] _; [wp_rule; apply collected|apply interrupted_closed].
Qed.

Lemma collect_worktree_wp cancelled l handler :
  tl_scopeClosed l = false →
  tlwp (collect_worktree sha256 request options lease cancelled) collect_ends l
    (working StageCollecting false true handler false
      (Some (execution_outcome (tl_handlerError l) cancelled)) None).
Proof.
  intros Hl. unfold collect_worktree.
  apply closed_wp; [done| |intros; apply interrupted_closed].
  wp_rule. wp_rule. apply task_call_wp; [by solve_permitted|].
  intros [collection|e] _; [|apply interrupted_closed]. wp_rule. wp_rule.
  destruct collection as [changeSet|attention|].
  - wp_rule. wp_rule. apply task_call_wp; [solve_permitted; apply metadata_fits|].
    intros [[]|e] _; [|apply interrupted_closed]. wp_rule. wp_rule.
    apply task_call_wp; [by solve_permitted|].
    intros [released|e] _; [wp_rule; apply collected|apply interrupted_closed].
  - apply attention_ends. wp_rule. by apply attention_post.
  - wp_rule. wp_rule. apply task_call_wp; [solve_permitted; by apply outcome_fits_run; left|].
    intros [[]|e] _; [wp_rule; apply collected|apply interrupted_closed].
Qed.

(** The [try] block that collects. *)
Lemma collect_task_wp cancelled l m :
  handled l m → tlwp (collect_task sha256 request options lease cancelled) collect_ends l m.
Proof.
  intros (Hl & handler & -> & Hok). unfold collect_task. wp_rule. wp_rule. wp_rule. wp_rule. wp_rule.
  assert (∀ lost, interrupted l (working StageActive lost true handler false None None)) as Hint
    by (intros lost; eexists StageActive, lost, true, handler, false, None, None; by rewrite Hl).
  destruct (normalizeSummary _) as [summary|e]; [|apply Hint].
  unfold set_summary. wp_rule. wp_rule. wp_rule. wp_rule. apply task_call_wp.
  { solve_permitted. rewrite (bool_decide_ext _ _ (execution_outcome_completed _ _)).
    case_bool_decide as He; [|done]. by destruct (Hok He) as [result ->]. }
  intros [[]|e] _.
  2: { eexists StageActive, true, true, handler, false, None, None. simpl. by rewrite Hl. }
  wp_rule. eapply (lwp_mono _ _ _ collect_ends).
  2: { destruct (tq_strategy request); [apply collect_direct_wp|apply collect_worktree_wp]; done. }
  intros [[receipt|]|e] l' m; [by intros; wp_rule| |done].
  intros [Hl' (handler' & proven & outcome & changes & -> & Ho)]. wp_rule. wp_rule.
  apply task_call_wp; [done|]. intros [[]|e] _.
  - wp_rule. split; [done|]. by do 4 eexists.
  - eexists _, _, false, _, _, _, _. by rewrite Hl'.
Qed.

Lemma collect_failed_wp error l m :
  interrupted l m →
  tlwp (collect_failed request options lease error)
    (fun r _ m => ∃ receipt, r = Ok receipt ∧ task_post (Ok receipt) m) l m.
Proof.
  intros (stage & lost & is_open & handler & proven & outcome & changes & -> & Hl).
  unfold collect_failed. wp_rule. wp_rule. wp_rule. apply close_wp; [done|].
  intros [[]|e] proven'; wp_rule; apply attention_ends; wp_rule; wp_rule; wp_rule;
    (eexists; split; [done|]; by apply attention_post).
Qed.

Lemma collect_stage_wp cancelled l m :
  handled l m →
  tlwp (collect_stage sha256 request options lease cancelled)
    (fun r l m => match r with
      | Ok None => releasable l m
      | Ok (Some receipt) => task_post (Ok receipt) m
      | Throw _ => False
      end) l m.
Proof.
  intros Hm. unfold collect_stage. wp_rule. eapply lwp_mono; [|by apply collect_task_wp].
  intros [[receipt|]|e] l' m' H; [done|done|]. wp_rule.
  eapply lwp_mono; [|by apply collect_failed_wp]. intros r l2 m2 (receipt & -> & Hp). by wp_rule.
Qed.

(** ** The release *)

Definition releasing stage lost ok handler proven outcome changes : task_monitor :=
  executing stage lost (Some lease) (Some ok) ScopeClosed false handler proven (Some outcome) changes
    false.

Lemma finalize_release_wp handler proven outcome changes :
  twp (finalize_release request options lease)
    (fun r m => ∃ stage lost ok error, r = Ok error ∧
      m = releasing stage lost ok handler proven outcome changes ∧
      stage = (if error is Some _ then StageReleasing else StageReleased))
    (working StageReleasing false false handler proven (Some outcome) changes).
Proof.
  unfold finalize_release, releaseWorkspaceTaskLease. wp_rule. wp_rule. wp_rule.
  apply task_call_wp; [by solve_permitted|]. intros [[]|e] _; wp_rule.
  2: { wp_rule. by eexists _, _, _, _. }
  wp_rule. wp_rule. wp_rule. apply task_call_wp; [done|]. intros [[]|e] _.
  2: { wp_rule. by eexists _, _, _, _. }
  apply task_call_wp; [by solve_permitted|]. intros [released|e] _; wp_rule; by eexists _, _, _, _.
Qed.

(** What a run leaves that came to its release. *)
Lemma released_post stage lost ok handler proven outcome changes facts l error receipt :
  (outcome = ExecutionCompleted ↔ tl_handlerError l = None) →
  stage = (if error is Some _ then StageReleasing else StageReleased) →
  rt_status receipt = match combined_error (tl_handlerError l) error with
    | None => TaskSucceeded | Some _ => TaskFailed end →
  rt_error receipt = combined_error (tl_handlerError l) error →
  task_post (Ok receipt)
    (set_facts facts (set_renewing false (releasing stage lost ok handler proven outcome changes))).
Proof.
  intros Ho Hs Hr He. split; [by split|]. right. rewrite Hr, He. subst stage.
  destruct (tl_handlerError l) as [handlerError|] eqn:Hl, error as [releaseError|]; simpl.
  - split; [|done]. right. split; [by eexists|by left].
  - split; [|done]. right. split; [by eexists|]. right. intros [= Hc]. by apply Ho in Hc.
  - split; [|done]. right. split; [by eexists|by left].
  - by rewrite (proj2 Ho eq_refl).
Qed.

Lemma release_stage_wp l m :
  releasable l m →
  tlwp (release_stage request options lease) (fun r _ m => task_post r m) l m.
Proof.
  intros [_ (handler & proven & outcome & changes & -> & Ho)]. unfold release_stage.
  wp_rule. wp_rule. eapply wp_mono; [|apply finalize_release_wp].
  intros r m (stage & lost & ok & error & -> & -> & Hs). wp_rule. wp_rule.
  apply task_call_wp; [done|]. intros r ->. wp_rule. wp_rule.
  assert (∀ e facts, task_post (Throw e)
    (set_facts facts (set_renewing false (releasing stage lost ok handler proven outcome changes))))
    as Hthrow by (intros e facts; split; [by split|]; right; split; [by eexists|done]).
  change (advance (releasing stage lost ok handler proven outcome changes) StopRenewal (Ok tt))
    with (set_facts claimed_facts
      (set_renewing false (releasing stage lost ok handler proven outcome changes))).
  apply task_call_wp; [done|]. intros [[last|]|e] _; [|unfold throw; wp_rule; wp_rule|]; try apply Hthrow.
  wp_rule. wp_rule. eapply wp_mono; [|apply linkedRecords_wp, permitted_reads].
  intros [records|e] m ->; [|apply Hthrow]. wp_rule. wp_rule. wp_rule.
  by eapply released_post.
Qed.

Lemma run_bound_wp :
  tlwp (run_bound sha256 request options lease binding) (fun r _ m => task_post r m) task_start
    (working StageActive false true None false None None).
Proof.
  unfold run_bound. wp_rule. eapply lwp_mono; [|apply handler_stage_wp].
  intros [[receipt|]|e] l m Hm; [by wp_rule| |done]. wp_rule. wp_rule.
  assert (m = advance m RequestAborted (Ok true)) as Hread by done.
  apply task_call_wp; [done|]. intros r [cancelled ->]. change (advance m RequestAborted _) with m.
  wp_rule. eapply lwp_mono; [|by apply collect_stage_wp].
  intros [[receipt|]|e] l' m' Hm'; [by wp_rule| |done]. by apply release_stage_wp.
Qed.
End bound.

Lemma bind_failed_wp lease error scope :
  match scope with ScopeOpen _ => False | _ => True end →
  twp (bind_failed request options lease error) (fun r m => task_post r m)
    (executing StageActive false (Some lease) None scope false None false None None false).
Proof.
  intros Hs. unfold bind_failed. wp_rule. apply attention_wp; [done|]. wp_rule.
  assert (∀ release, twp (_ ← await StopRenewal;
      mret (claimed_failed request options (serializeWorkspaceTaskError error [il_rootDir lease])))
    (fun r m => task_post r m)
    (executing StageActive false (Some lease) release scope false None false None None true)) as Hend.
  { intros release. wp_rule. apply task_call_wp; [by destruct scope|]. intros r ->. wp_rule.
    by apply attention_post. }
  destruct (tq_strategy request); [|wp_rule; apply Hend].
  unfold releaseWorkspaceTaskLease. wp_rule. wp_rule. wp_rule.
  apply task_call_wp; [destruct scope; [|done|]; by solve_permitted|]. intros r _. wp_rule. wp_rule.
  apply Hend.
Qed.

(** A claimed task follows the monitor, and ends as it should. *)
Lemma executeClaimedTask_wp :
  twp (executeClaimedTask number_text localeCompare sha256 not_iterable this request options)
    (fun r m => task_post r m) {|
    tm_facts := claimed_facts; tm_stage := StageClaimed; tm_lost := false; tm_renewing := None;
    tm_lease := None; tm_release := None; tm_scope := ScopeNone; tm_listening := false;
    tm_handler := None; tm_proven := false; tm_outcome := None; tm_changes := None;
    tm_attention := false |}.
Proof.
  unfold executeClaimedTask. wp_rule. apply task_call_wp; [by solve_permitted|]. intros r ->. wp_rule.
  unfold require_isolation, raise_if. rewrite bool_decide_false by naive_solver. wp_rule. wp_rule. wp_rule.
  eapply wp_mono; [|apply prepare_wp]. intros [lease|error] m.
  - intros ->. wp_rule. eapply wp_mono; [|apply bind_wp].
    intros [[binding|error]|error] m (scope & -> & Hs); [|by apply bind_failed_wp|done].
    destruct Hs as [-> Hbound]. wp_rule. apply task_call_wp; [done|]. intros r ->. wp_rule.
    by apply (run_bound_wp lease binding Hbound).
  - intros (lost & lease & ->). wp_rule. apply attention_wp; [done|]. wp_rule.
    apply task_call_wp; [done|]. intros r ->. wp_rule.
    split; [by split|]. right. split; [by left|by eexists].
Qed.
End claimed.

(** ** Claiming *)

(** A monitor before the renewal starts. *)
Definition before facts stage lost : task_monitor := {|
  tm_facts := facts; tm_stage := stage; tm_lost := lost; tm_renewing := None;
  tm_lease := None; tm_release := None; tm_scope := ScopeNone; tm_listening := false;
  tm_handler := None; tm_proven := false; tm_outcome := None; tm_changes := None;
  tm_attention := false |}.

Lemma untouched_throw e facts stage lost : task_post (Throw e) (before facts stage lost).
Proof. split; [by split|]. by left. Qed.

Lemma untouched_failed receipt facts stage lost :
  rt_status receipt = TaskFailed → task_post (Ok receipt) (before facts stage lost).
Proof. intros Hf. split; [by split|]. left. by rewrite Hf. Qed.

(** A run that is over is reported as the store has it. *)
Lemma replay_wp last facts stage lost :
  fa_seen facts = Some last →
  twp (workspaceTaskReceiptFromSnapshot last) (fun r m => task_post r m) (before facts stage lost).
Proof.
  intros Hseen. eapply wp_mono; [|apply receipt_wp, permitted_reads].
  intros [receipt|e] m [-> Hr]; [|apply untouched_throw]. destruct Hr as [Hs Hid].
  split; [by split|]. left. split; [done|]. intros Ht. exists last. rewrite <-Hs. done.
Qed.

(** What follows the answer to a claim under [identity]. *)
Lemma granted_wp env facts claim identity label (replayed : bool) busy execution :
  fa_resolved facts = Some env → rt_status busy = TaskFailed →
  (is_ok (assertExecutionEnvironmentBindingEqual number_text localeCompare sha256
     (wr_executionEnvironment (ws_run (wc_snapshot claim))) env []) = true →
   twp execution (fun r m => task_post r m) (before {|
     fa_claim := Some (identity, wc_snapshot claim); fa_seen := Some (wc_snapshot claim);
     fa_resolved := Some env |} StageClaimed false)) →
  twp (_ ← of_result (same_binding number_text localeCompare sha256 not_iterable
         (wr_executionEnvironment (ws_run (wc_snapshot claim))) env label);
       if replayed then workspaceTaskReceiptFromSnapshot (wc_snapshot claim)
       else if bool_decide (wc_status claim ≠ TaskClaimed) then mret busy else execution)
    (fun r m => task_post r m) (granted identity claim (before facts StageUnclaimed false)).
Proof.
  intros Henv Hbusy Hexecution. unfold granted.
  assert (∀ e, task_post (Throw e) (if decide (wc_status claim = TaskClaimed)
    then set_stage StageClaimed (set_facts {| fa_claim := Some (identity, wc_snapshot claim);
      fa_seen := Some (wc_snapshot claim); fa_resolved := fa_resolved facts |}
      (before facts StageUnclaimed false))
    else see (wc_snapshot claim) (before facts StageUnclaimed false))) as Hthrow.
  { intros e. case_decide; apply untouched_throw. }
  wp_rule. wp_rule. destruct (same_binding _ _ _ _ _ _ _) as [u|e] eqn:Hs; [|apply Hthrow].
  apply same_binding_Ok in Hs. destruct replayed; [|].
  { case_decide; by apply replay_wp. }
  cbn [tm_facts before]. rewrite Henv. case_decide as Hst.
  - rewrite bool_decide_false by naive_solver. by apply Hexecution.
  - rewrite bool_decide_true by done. wp_rule. by apply untouched_failed.
Qed.

Lemma run_claimed_wp request taskId workspaceId principalId isolationIdentity env facts :
  fa_resolved facts = Some env →
  (tq_strategy request = StrategyGitWorktree → tt_gitWorktree this ≠ None) →
  twp (run_claimed number_text localeCompare sha256 not_iterable this request taskId workspaceId
      principalId isolationIdentity env) (fun r m => task_post r m) (before facts StageUnclaimed false).
Proof.
  intros Henv Hgit. unfold run_claimed. wp_rule. apply fresh_identity_wp; [apply permitted_reads|done|done|]. intros identity Hid.
  wp_rule. apply task_call_wp; [done|]. intros [claim|e] _; [|apply untouched_throw].
  unfold advance. apply granted_wp; [done|done|]. intros Hs.
  replace (begin_identity _) with identity by (by destruct identity; simpl in *; subst).
  by apply executeClaimedTask_wp.
Qed.

(** The strategy that an identity is given for is one the runtime is capable of. *)
Lemma admitted_capable strategy access git kind repositoryId :
  admitted_strategy strategy access git kind repositoryId → strategy = StrategyGitWorktree → git ≠ None.
Proof. intros H ->. destruct H as (_ & _ & _ & repository & -> & _). done. Qed.

Lemma current_run_wp request workspaceId principalId isolationIdentity env facts :
  twp (current_run number_text localeCompare sha256 not_iterable this request workspaceId principalId
      isolationIdentity env)
    (fun r m => ∃ facts', m = before facts' StageUnclaimed false ∧
      fa_resolved facts' = fa_resolved facts ∧
      match r with Ok (Some current) => fa_seen facts' = Some current | _ => True end)
    (before facts StageUnclaimed false).
Proof.
  unfold current_run. destruct (tq_id request) as [taskId|]; [|wp_rule; by eexists].
  wp_rule. apply task_call_wp; [done|]. intros [[current|]|e] _; [|wp_rule; by eexists|by eexists].
  assert (∀ r : result task_thrown (option WorkspaceTaskRunSnapshot),
    match r with Ok current' => current' = Some current | _ => True end →
    ∃ facts', see current (before facts StageUnclaimed false) = before facts' StageUnclaimed false ∧
      fa_resolved facts' = fa_resolved facts ∧
      match r with Ok (Some current) => fa_seen facts' = Some current | _ => True end) as Hend.
  { intros r Hr. eexists {| fa_claim := fa_claim facts; fa_seen := Some current;
      fa_resolved := fa_resolved facts |}. split; [done|]. split; [done|].
    destruct r as [[]|]; simplify_eq; done. }
  wp_rule. wp_rule. destruct (assertWorkspaceTaskRunIdentity _ _ _ _ _ _) as [u|e]; [|by apply (Hend (Throw e))].
  wp_rule. wp_rule. destruct (same_binding _ _ _ _ _ _ _) as [u'|e]; [|by apply (Hend (Throw e))].
  wp_rule. by apply (Hend (Ok (Some current))).
Qed.

Lemma runTask_wp request :
  twp (runTask number_text localeCompare sha256 not_iterable this request)
    (fun r m => task_post r m) task_monitor_start.
Proof.
  change task_monitor_start with (before task_facts_start StageUnclaimed false).
  unfold runTask, assertNotCancelled. wp_rule. wp_rule. apply task_call_wp; [done|].
  intros r [aborted ->]. wp_rule; [|apply untouched_throw]. wp_rule.
  change (advance _ _ _) with (before task_facts_start StageUnclaimed false).
  match goal with |- twp _ ?Q _ => assert (∀ taskId, Q (Ok taskId)
    (before task_facts_start StageUnclaimed false)) as Htask end.
  2: { destruct (tq_id request); [wp_rule; apply Htask|]. apply fresh_id_wp; [apply permitted_reads|done|apply Htask]. }
  intros taskId. cbn beta iota. wp_rule. wp_rule.
  destruct (taskIsolationIdentity _ _ _ _ _ _ _) as [isolationIdentity|e] eqn:Hi; [|apply untouched_throw].
  apply taskIsolationIdentity_Ok in Hi as [Hi _].
  wp_rule. apply task_call_wp; [done|]. intros [env|e] _; [|apply untouched_throw].
  change (advance _ _ _) with (before {| fa_claim := None; fa_seen := None; fa_resolved := Some env |}
    StageUnclaimed false).
  wp_rule. eapply wp_mono; [|apply current_run_wp].
  intros [[current|]|e] m (facts & -> & Henv & Hseen); [| |apply untouched_throw].
  - destruct (is_over (ws_run current)); [by apply replay_wp|].
    apply run_claimed_wp; [done|]. by eapply admitted_capable.
  - apply run_claimed_wp; [done|]. by eapply admitted_capable.
Qed.

Lemma continue_claimed_wp request run facts :
  wr_strategy run = strategy_of (rq_runId request) →
  (wr_strategy run = StrategyGitWorktree → tt_gitWorktree this ≠ None) →
  twp (continue_claimed number_text localeCompare sha256 not_iterable this request run)
    (fun r m => task_post r m) (before facts StageUnclaimed false).
Proof.
  intros Hrun Hgit. unfold continue_claimed. wp_rule. apply task_call_wp; [done|].
  intros [env|e] _; [|apply untouched_throw].
  change (advance _ _ _) with (before {| fa_claim := fa_claim facts; fa_seen := fa_seen facts;
    fa_resolved := Some env |} StageUnclaimed false).
  wp_rule. apply fresh_identity_wp; [apply permitted_reads|done|done|]. intros identity Hid. wp_rule. apply task_call_wp; [done|].
  intros [claim|e] Hclaim; [|apply untouched_throw]. simpl in Hclaim. specialize (Hclaim claim eq_refl).
  unfold advance. apply granted_wp; [done|done|]. intros Hs.
  apply executeClaimedTask_wp; [done|]. simpl. unfold keeps_strategy in Hclaim. simpl in Hclaim.
  rewrite Hclaim, Hid, <-Hrun. exact Hgit.
Qed.

Lemma resumeTask_wp request :
  twp (resumeTask number_text localeCompare sha256 not_iterable this request)
    (fun r m => task_post r m) task_monitor_start.
Proof.
  change task_monitor_start with (before task_facts_start StageUnclaimed false).
  unfold resumeTask, assertNotCancelled, throw_if, throw. wp_rule. wp_rule. apply task_call_wp; [done|].
  intros r [aborted ->]. wp_rule; [|apply untouched_throw]. wp_rule. wp_rule; [|apply untouched_throw].
  change (advance _ _ _) with (before task_facts_start StageUnclaimed false).
  wp_rule. apply task_call_wp; [done|].
  intros [[current|]|e] Hrun; [|wp_rule; apply untouched_throw|apply untouched_throw].
  specialize (Hrun current eq_refl). unfold keeps_strategy in Hrun.
  change (advance _ _ _) with (before {| fa_claim := None; fa_seen := Some current;
    fa_resolved := None |} StageUnclaimed false).
  wp_rule. wp_rule. destruct (assertTaskRuntimeIdentity _ _ _ _ _) as [u|e] eqn:Hi;
    [|apply untouched_throw].
  apply assertTaskRuntimeIdentity_Ok in Hi as [_ Hi].
  destruct (bool_decide _); [by apply replay_wp|]. destruct (bool_decide _).
  - wp_rule. by apply untouched_failed.
  - apply continue_claimed_wp; [done|]. by eapply admitted_capable.
Qed.
End proofs.

(** (C29) Whatever the store, the isolation, the environment and the handler do, a task follows the
    monitor.  The handler runs once at most, only when the store has confirmed the run
    active, in the directory of the lease, and under a binding that passes for the admitted
    one, as does the binding that the store recorded.  The store is told that the execution
    completed only if the handler returned, and how the run ended only after the scope was
    closed with no process left, with the changes that the worktree held.  The isolation is
    released only when the store has recorded them, or when no handler could run.  A release
    is recorded only after it succeeded, and nothing more is recorded after a call was lost.
    At the end the renewal is stopped, the scope closed and no listener left; a receipt
    says that the task succeeded only if the store confirmed all of it, or if the store's own
    record of the run says so; and where it says failed, either nothing was begun, or
    attention was asked for, or the release was tried. *)
Theorem runTask_safe number_text localeCompare sha256 not_iterable this strategy_of request t r :
  trace (runTask number_text localeCompare sha256 not_iterable this request) t r →
  Forall (possible strategy_of) t →
  ∃ m, judge (task_step number_text localeCompare sha256) task_monitor_start t = Some m ∧ task_post r m.
Proof. intros Ht Hp. eapply wp_trace; [apply runTask_wp|done|done]. Qed.

(** (C30) The continuation of a run that waits for attention follows the same monitor. *)
Theorem resumeTask_safe number_text localeCompare sha256 not_iterable this strategy_of request t r :
  trace (resumeTask number_text localeCompare sha256 not_iterable this request) t r →
  Forall (possible strategy_of) t →
  ∃ m, judge (task_step number_text localeCompare sha256) task_monitor_start t = Some m ∧ task_post r m.
Proof. intros Ht Hp. eapply wp_trace; [apply resumeTask_wp|done|done]. Qed.

(** * Examples *)

Definition sample_root : WorkspaceTaskRootIdentity := {|
  root_hostId := js "host"; root_generationKey := js "g1"; root_rootId := js "root";
  root_device := js "7"; root_inode := js "42" |}.

Definition sample_task_runtime : WorkspaceTaskRuntime := {|
  tt_rootIdentity := sample_root; tt_gitWorktree := Some (js "repository");
  tt_ownerId := DEFAULT_PRINCIPAL_ID; tt_leaseMs := DEFAULT_LEASE_MS;
  tt_defaultWorkspaceId := DEFAULT_WORKSPACE_ID; tt_defaultPrincipalId := DEFAULT_PRINCIPAL_ID;
  tt_capabilities := sample_capabilities |}.

Definition sample_isolation : WorkspaceTaskIsolationIdentity := {|
  ii_id := js "wiso_" ++ repeat 97%N 32; ii_kind := IsolationGitWorktree;
  ii_repositoryId := Some (js "repository"); ii_baseRevision := Some (js "base");
  ii_runtimeRef := Some (js "task") |}.

Definition sample_document : app_json := binding_json (own_roots sample_binding) sample_binding.

Definition sample_snapshot (state : WorkspaceTaskRunState) : WorkspaceTaskRunSnapshot := {|
  ws_run := {|
    wr_id := js "wtsk_1"; wr_workspaceId := DEFAULT_WORKSPACE_ID;
    wr_principalId := DEFAULT_PRINCIPAL_ID; wr_access := AccessWritable;
    wr_strategy := StrategyGitWorktree; wr_rootIdentity := sample_root;
    wr_isolationIdentity := sample_isolation; wr_executionEnvironment := sample_document;
    wr_jobId := None; wr_agentId := None; wr_state := state; wr_executionOutcome := None;
    wr_outcome := None; wr_summary := None; wr_resourceIds := []; wr_changeSetId := None;
    wr_proposalId := None; wr_failure := None; wr_createdAt := num_of_Z 1;
    wr_updatedAt := num_of_Z 2; wr_finishedAt := None |};
  ws_activeAttempt := None |}.

Definition sample_lease : WorkspaceIsolationLease := {|
  il_id := js "wiso_" ++ repeat 97%N 32; il_kind := IsolationGitWorktree;
  il_repositoryId := Some (js "repository"); il_rootDir := js "/srv/task";
  il_workspaceId := None; il_jobId := None; il_agentId := None;
  il_baseRevision := Some (js "base"); il_branchName := Some (js "task");
  il_createdAt := num_of_Z 1 |}.

Definition sample_changes : WorkspaceChangeSet := {|
  cs_id := "wcs_task_1"; cs_title := None; cs_baseRevision := None; cs_changes := [] |}.

(** A store with a run in [state], and a handler that returns, or whose lease is lost. *)
Definition sample_task_env (state : WorkspaceTaskRunState) (healthy : bool) R (c : task_call R)
    : stM unit task_thrown R := fun u =>
  match c in task_call R return unit * result task_thrown R with
  | GetWorkspaceTaskRun _ => (u, Ok (Some (sample_snapshot state)))
  | BeginWorkspaceTaskRun _ => (u, Ok {| wc_status := TaskClaimed; wc_snapshot := sample_snapshot TaskPreparing |})
  | ClaimWorkspaceTaskContinuation _ =>
      (u, Ok {| wc_status := TaskClaimed; wc_snapshot := sample_snapshot TaskPreparing |})
  | ResolveBinding _ => (u, Ok sample_document)
  | PrepareIsolation _ _ => (u, Ok sample_lease)
  | BindScope _ => (u, Ok sample_document)
  | SignalAborted => (u, Ok (negb healthy))
  | RequestAborted => (u, Ok false)
  | RunHandler _ _ => (u, Ok {| hr_artifacts := None; hr_summary := Some (js " done ") |})
  | CollectWorktree _ _ => (u, Ok (CollectedChanges sample_changes))
  | RandomUUID => (u, Ok (js "1"))
  | RandomToken => (u, Ok (js "token"))
  | MarkWorkspaceTaskActive _ _ | BeginWorkspaceTaskCollection _ _ | FinalizeWorkspaceTaskCollection _ _
  | StartRenewal | StopRenewal | ReleaseIsolation _ _ | CloseScope | CombineSignals | DisposeSignals
  | AssertCleanupProven => (u, Ok tt)
  | AssertHealthy => (u, Ok tt)
  | BeginWorkspaceTaskRelease _ => (u, Ok (sample_snapshot TaskReleasing))
  | FinalizeWorkspaceTaskRelease _ => (u, Ok (sample_snapshot TaskReleased))
  | MarkWorkspaceTaskAttention _ _ => (u, Ok (sample_snapshot TaskAttention))
  | c => (u, Throw (task_error (js "unavailable")))
  end.

Definition sample_task_request : WorkspaceTaskRequest := {|
  tq_access := AccessWritable; tq_strategy := StrategyGitWorktree; tq_input := AppNull;
  tq_id := None; tq_workspaceId := None; tq_principalId := None; tq_jobId := None;
  tq_agentId := None; tq_handler := RegisteredHandler 0 |}.

Definition sample_task : tprog WorkspaceTaskReceipt :=
  runTask parts_text js_order sample_sha [] sample_task_runtime sample_task_request.

Definition sample_task_run (healthy : bool) :=
  run (sample_task_env TaskReleased healthy) sample_task tt.

Definition sample_resumed : tprog WorkspaceTaskReceipt :=
  resumeTask parts_text js_order sample_sha [] sample_task_runtime
    {| rq_runId := js "wtsk_1"; rq_input := AppNull; rq_handler := RegisteredHandler 0 |}.

Definition sample_resume_run := run (sample_task_env TaskAttention true) sample_resumed tt.

Lemma sample_task_possible state healthy R (c : task_call R) u :
  possible (fun _ => StrategyGitWorktree) (Event c (sample_task_env state healthy R c u).2).
Proof. destruct c; simpl; eauto; by intros; simplify_eq. Qed.

Definition status_of (r : result task_thrown WorkspaceTaskReceipt) : option WorkspaceTaskStatus :=
  match r with Ok receipt => Some (rt_status receipt) | Throw _ => None end.

(** A task that was cancelled while its isolation was prepared. *)
Example sample_cancelled_task : status_of (sample_task_run false).2 = Some TaskFailed.
Proof. vm_compute. reflexivity. Qed.

Lemma runTask_safe_witness :
  status_of (sample_task_run true).2 = Some TaskSucceeded ∧
  ∃ m, judge (task_step parts_text js_order sample_sha) task_monitor_start (sample_task_run true).1 =
      Some m ∧ task_post (sample_task_run true).2 m.
Proof.
  split; [vm_compute; reflexivity|].
  apply (runTask_safe parts_text js_order sample_sha [] sample_task_runtime
    (fun _ => StrategyGitWorktree) sample_task_request).
  - exact (run_trace (sample_task_env TaskReleased true) sample_task tt).
  - apply run_forall. apply sample_task_possible.
Defined.

Lemma resumeTask_safe_witness :
  status_of sample_resume_run.2 = Some TaskSucceeded ∧
  ∃ m, judge (task_step parts_text js_order sample_sha) task_monitor_start sample_resume_run.1 =
      Some m ∧ task_post sample_resume_run.2 m.
Proof.
  split; [vm_compute; reflexivity|].
  apply (resumeTask_safe parts_text js_order sample_sha [] sample_task_runtime
    (fun _ => StrategyGitWorktree) {| rq_runId := js "wtsk_1"; rq_input := AppNull;
      rq_handler := RegisteredHandler 0 |}).
  - exact (run_trace (sample_task_env TaskAttention true) sample_resumed tt).
  - apply run_forall. apply sample_task_possible.
Defined.

(** * Handlers that were not registered *)

(** Applied to an object, [Object] returns it: a result without artifacts or summary. *)
Definition inherited_env R (c : task_call R) : stM unit task_thrown R := fun u =>
  match c in task_call R return unit * result task_thrown R with
  | RunHandler (InheritedMember _) _ => (u, Ok {| hr_artifacts := None; hr_summary := None |})
  | c => sample_task_env TaskReleased true _ c u
  end.

Definition inherited_job : tprog app_json :=
  taskJobHandler parts_text js_order sample_sha [] sample_task_runtime (HandlerRecord [])
    (js "job") (js "p") (workspaceTaskJobPayloadToJson {|
      tp_handlerId := js "constructor"; tp_access := AccessWritable;
      tp_strategy := StrategyGitWorktree; tp_input := AppNull; tp_taskId := None;
      tp_workspaceId := None; tp_principalId := None; tp_jobId := None; tp_agentId := None |}).

(** A job for a handler that was never registered succeeds, if its name is that of a member
    which every object inherits. *)
Example inherited_handler_runs :
  ∃ fields, (interp inherited_env inherited_job tt).2 = Ok (AppObj fields) ∧
    jget (js "status") fields = Some (AppStr (js "succeeded")).
Proof. eexists. split; vm_compute; reflexivity. Qed.

(** A registered handler with the name [get] is called with the name of every handler that is
    looked up, in its place. *)
Lemma get_handler_called handlers handlerId :
  js "get" ∈ handlers →
  getRegisteredTaskHandler (HandlerRecord handlers) handlerId = await (CallGetHandler handlerId).
Proof. intros Hin. unfold getRegisteredTaskHandler. by rewrite decide_True. Qed.
