(* ===== verification/TaskRecovery.v ===== *)
(** The recovery of tasks whose owner was lost ([packages/workspace/src/tasks/recovery.ts],
    [recovery-admission.ts]): what one recovery may do, and how many runs an admission
    recovers and reports. *)
From Stdlib Require Import Floats.SpecFloat.
From S2P Require Import Prelude JsMap Json JsStr JsonText Protocol WorkspaceProtocol ExecutionBinding ExecutionBindingLaws WorkspaceTask Program TaskRuntime TaskSafety.

(** * One recovery *)

(** [rv_seen]: the last snapshot of the run; [rv_claimed]: the run as it was claimed;
    [rv_held]: the run under the claim, as the store last gave it; [rv_resolved]: the binding
    that was resolved since the claim; [rv_released]: its isolation was released; [rv_lost]: a call that changes
    the run has thrown; [rv_ended]: the release was recorded; [rv_attention]: attention was
    asked for. *)
Record recovery_monitor := {
  rv_identity : option WorkspaceTaskRunIdentityRequest;
  rv_seen : option WorkspaceTaskRunSnapshot;
  rv_claimed : option WorkspaceTaskRunRecord;
  rv_held : option WorkspaceTaskRunRecord;
  rv_resolved : option app_json;
  rv_renewing : option bool;
  rv_released : bool;
  rv_lost : bool;
  rv_ended : bool;
  rv_attention : bool;
}.

Definition recovery_start : recovery_monitor := {|
  rv_identity := None; rv_seen := None; rv_claimed := None; rv_held := None; rv_resolved := None; rv_renewing := None;
  rv_released := false; rv_lost := false; rv_ended := false; rv_attention := false |}.

#[export] Instance WorkspaceIsolationDurableIdentity_eq_dec :
  EqDecision WorkspaceIsolationDurableIdentity.
Proof. solve_decision. Defined.

Section recovery.
Context (number_text : jsnum → jstr) (localeCompare : jstr → jstr → Z) (sha256 : jstr → jstr).
Context (not_iterable : jstr) (this : WorkspaceTaskRuntime).

Definition rv_running (m : recovery_monitor) : bool := bool_decide (rv_renewing m = Some true).

Definition rv_owned (m : recovery_monitor) (identity : WorkspaceTaskRunIdentityRequest) : bool :=
  bool_decide (rv_identity m = Some identity) && rv_running m.

Definition held (m : recovery_monitor) (p : WorkspaceTaskRunRecord → bool) : bool :=
  match rv_held m with Some run => p run | None => false end.

(** The run was admitted with the environment that there is now. *)
Definition same_environment (m : recovery_monitor) : bool :=
  match rv_claimed m, rv_resolved m with
  | Some run, Some resolved => is_ok (same_binding number_text localeCompare sha256 not_iterable
      resolved (wr_executionEnvironment run) "workspace task recovery execution environment")
  | _, _ => false
  end.

Definition rv_allowed (m : recovery_monitor) {R} (c : task_call R) : bool :=
  match c with
  | GetWorkspaceTaskRun _ | GetResource _ | GetWorkspaceChangeSet _ | GetWorkspaceChangeProposal _
  | ResolveBinding _ | RandomUUID | RandomToken => true
  | ClaimWorkspaceTaskRecovery _ => bool_decide (rv_identity m = None)
  | StartRenewal => bool_decide (rv_renewing m = None) &&
      held m (fun run => is_ok (assertTaskRuntimeIdentity number_text sha256 run
        (tt_rootIdentity this) (tt_gitWorktree this)))
  | StopRenewal | AssertHealthy => rv_running m
  | MarkWorkspaceTaskAttention identity _ => rv_owned m identity
  | BeginWorkspaceTaskRelease identity =>
      rv_owned m identity && negb (rv_lost m) && negb (rv_attention m) &&
      same_environment m && held m (fun run => bool_decide (wr_state run = TaskProposed))
  | ReleaseDurableIsolation strategy identity =>
      rv_running m && negb (rv_lost m) && negb (rv_attention m) && same_environment m &&
      held m (fun run => bool_decide (wr_state run = TaskReleasing) &&
        bool_decide (strategy = wr_strategy run) && bool_decide (identity = durable_identity run))
  | FinalizeWorkspaceTaskRelease identity =>
      rv_owned m identity && negb (rv_lost m) && negb (rv_attention m) && rv_released m
  | _ => false
  end.

Definition rv_see (snapshot : WorkspaceTaskRunSnapshot) (m : recovery_monitor) : recovery_monitor := {|
  rv_identity := rv_identity m; rv_seen := Some snapshot; rv_claimed := rv_claimed m;
  rv_held := rv_held m; rv_resolved := rv_resolved m; rv_renewing := rv_renewing m;
  rv_released := rv_released m; rv_lost := rv_lost m; rv_ended := rv_ended m;
  rv_attention := rv_attention m |}.

Definition rv_resolve (binding : app_json) (m : recovery_monitor) : recovery_monitor := {|
  rv_identity := rv_identity m; rv_seen := rv_seen m; rv_claimed := rv_claimed m;
  rv_held := rv_held m; rv_resolved := Some binding; rv_renewing := rv_renewing m;
  rv_released := rv_released m; rv_lost := rv_lost m; rv_ended := rv_ended m;
  rv_attention := rv_attention m |}.

Definition rv_claim (identity : WorkspaceTaskRunIdentityRequest) (snapshot : WorkspaceTaskRunSnapshot)
    (m : recovery_monitor) : recovery_monitor := {|
  rv_identity := Some identity; rv_seen := Some snapshot; rv_claimed := Some (ws_run snapshot);
  rv_held := Some (ws_run snapshot); rv_resolved := None; rv_renewing := rv_renewing m;
  rv_released := rv_released m; rv_lost := rv_lost m; rv_ended := rv_ended m;
  rv_attention := rv_attention m |}.

Definition rv_hold (snapshot : WorkspaceTaskRunSnapshot) (m : recovery_monitor) : recovery_monitor := {|
  rv_identity := rv_identity m; rv_seen := Some snapshot; rv_claimed := rv_claimed m;
  rv_held := Some (ws_run snapshot); rv_resolved := rv_resolved m; rv_renewing := rv_renewing m;
  rv_released := rv_released m; rv_lost := rv_lost m; rv_ended := rv_ended m;
  rv_attention := rv_attention m |}.

Definition rv_renew (b : bool) (m : recovery_monitor) : recovery_monitor := {|
  rv_identity := rv_identity m; rv_seen := rv_seen m; rv_claimed := rv_claimed m;
  rv_held := rv_held m; rv_resolved := rv_resolved m; rv_renewing := Some b;
  rv_released := rv_released m; rv_lost := rv_lost m; rv_ended := rv_ended m;
  rv_attention := rv_attention m |}.

Definition rv_lose (m : recovery_monitor) : recovery_monitor := {|
  rv_identity := rv_identity m; rv_seen := rv_seen m; rv_claimed := rv_claimed m;
  rv_held := rv_held m; rv_resolved := rv_resolved m; rv_renewing := rv_renewing m;
  rv_released := rv_released m; rv_lost := true; rv_ended := rv_ended m;
  rv_attention := rv_attention m |}.

Definition rv_release (m : recovery_monitor) : recovery_monitor := {|
  rv_identity := rv_identity m; rv_seen := rv_seen m; rv_claimed := rv_claimed m;
  rv_held := rv_held m; rv_resolved := rv_resolved m; rv_renewing := rv_renewing m;
  rv_released := true; rv_lost := rv_lost m; rv_ended := rv_ended m;
  rv_attention := rv_attention m |}.

Definition rv_end (snapshot : WorkspaceTaskRunSnapshot) (m : recovery_monitor) : recovery_monitor := {|
  rv_identity := rv_identity m; rv_seen := Some snapshot; rv_claimed := rv_claimed m;
  rv_held := rv_held m; rv_resolved := rv_resolved m; rv_renewing := rv_renewing m;
  rv_released := rv_released m; rv_lost := rv_lost m; rv_ended := true;
  rv_attention := rv_attention m |}.

Definition rv_attend (seen : option WorkspaceTaskRunSnapshot) (m : recovery_monitor)
    : recovery_monitor := {|
  rv_identity := rv_identity m; rv_seen := option_or seen (rv_seen m); rv_claimed := rv_claimed m;
  rv_held := rv_held m; rv_resolved := rv_resolved m; rv_renewing := rv_renewing m;
  rv_released := rv_released m; rv_lost := rv_lost m; rv_ended := rv_ended m;
  rv_attention := true |}.

Definition answer_of {A} (r : result task_thrown A) : option A :=
  match r with Ok a => Some a | Throw _ => None end.

Definition rv_advance (m : recovery_monitor) {R} (c : task_call R)
    : result task_thrown R → recovery_monitor :=
  match c in task_call R return result task_thrown R → recovery_monitor with
  | GetWorkspaceTaskRun _ => fun r => match r with Ok (Some snapshot) => rv_see snapshot m | _ => m end
  | ResolveBinding _ => fun r => match r with Ok binding => rv_resolve binding m | Throw _ => m end
  | ClaimWorkspaceTaskRecovery request => fun r =>
      match r with
      | Ok claim => if decide (wc_status claim = TaskClaimed)
          then rv_claim (cr_identity request) (wc_snapshot claim) m
          else rv_see (wc_snapshot claim) m
      | Throw _ => m
      end
  | StartRenewal => fun _ => rv_renew true m
  | StopRenewal => fun _ => rv_renew false m
  | MarkWorkspaceTaskAttention _ _ => fun r => rv_attend (answer_of r) m
  | BeginWorkspaceTaskRelease _ => fun r =>
      match r with Ok snapshot => rv_hold snapshot m | Throw _ => rv_lose m end
  | ReleaseDurableIsolation _ _ => fun r => match r with Ok _ => rv_release m | Throw _ => m end
  | FinalizeWorkspaceTaskRelease _ => fun r =>
      match r with Ok snapshot => rv_end snapshot m | Throw _ => rv_lose m end
  | _ => fun _ => m
  end.

Definition recovery_step (m : recovery_monitor) (e : tevent) : option recovery_monitor :=
  match e with Event c r => if rv_allowed m c then Some (rv_advance m c r) else None end.

(** How a recovery ends. *)
Definition recovery_post (r : result task_thrown WorkspaceTaskReceipt) (m : recovery_monitor) : Prop :=
  rv_renewing m ≠ Some true ∧
  (rv_renewing m = Some false → rv_ended m = true ∨ rv_attention m = true) ∧
  match r with
  | Ok receipt => rt_status receipt = TaskFailed ∨
      ∃ snapshot, rv_seen m = Some snapshot ∧ of_snapshot (ws_run snapshot) receipt
  | Throw _ => rv_renewing m = None
  end.
End recovery.

(** ** The proof *)

#[local] Arguments wp : simpl never.
#[local] Arguments mbind : simpl never.
#[local] Arguments mret : simpl never.
#[local] Arguments handle : simpl never.
#[local] Arguments await : simpl never.
#[local] Arguments same_binding : simpl never.
#[local] Arguments assertTaskRuntimeIdentity : simpl never.

Section recovery_proofs.
Context (number_text : jsnum → jstr) (localeCompare : jstr → jstr → Z) (sha256 : jstr → jstr).
Context (not_iterable : jstr) (this : WorkspaceTaskRuntime).
Context (strategy_of : jstr → WorkspaceTaskStrategy).

Abbreviation step := (recovery_step number_text localeCompare sha256 not_iterable this).
Abbreviation may := (possible strategy_of).
Abbreviation twp := (wp step may).
Abbreviation permitted := (rv_allowed number_text localeCompare sha256 not_iterable this).

Lemma recovery_call_wp {R} (c : task_call R) (Q : result task_thrown R → recovery_monitor → Prop) m :
  permitted m c = true → (∀ r, may (Event c r) → Q r (rv_advance m c r)) → twp (await c) Q m.
Proof.
  intros Ha HQ. apply wp_call. intros r Hr. exists (rv_advance m c r).
  unfold recovery_step. rewrite Ha. auto.
Qed.

Lemma recovery_reads m : reads step m.
Proof. by repeat split. Qed.

(** A monitor before the claim, *)
Definition looking seen resolved : recovery_monitor := {|
  rv_identity := None; rv_seen := seen; rv_claimed := None; rv_held := None; rv_resolved := resolved;
  rv_renewing := None; rv_released := false; rv_lost := false; rv_ended := false;
  rv_attention := false |}.

(** and while a claimed run is recovered. *)
Definition recovering identity seen claimed held resolved released lost ended attention
    : recovery_monitor := {|
  rv_identity := Some identity; rv_seen := seen; rv_claimed := Some claimed; rv_held := Some held;
  rv_resolved := resolved; rv_renewing := Some true; rv_released := released; rv_lost := lost;
  rv_ended := ended; rv_attention := attention |}.

Definition not_claimed (m : recovery_monitor) : Prop := rv_renewing m = None.

Lemma not_claimed_post r m :
  not_claimed m →
  match r with
  | Ok receipt => rt_status receipt = TaskFailed ∨
      ∃ snapshot, rv_seen m = Some snapshot ∧ of_snapshot (ws_run snapshot) receipt
  | Throw _ => True
  end → recovery_post r m.
Proof.
  intros Hm Hr. unfold not_claimed in Hm. split; [by rewrite Hm|]. split; [by rewrite Hm|]. by destruct r.
Qed.

Lemma recovered_replay last m :
  not_claimed m → rv_seen m = Some last →
  twp (workspaceTaskReceiptFromSnapshot last) (fun r m => recovery_post r m) m.
Proof.
  intros Hm Hs. eapply wp_mono; [|apply receipt_wp, recovery_reads].
  intros r m' [-> Hr]. apply not_claimed_post; [done|]. destruct r; [right; by eexists|done].
Qed.

Ltac solve_permitted := simpl; unfold rv_owned, held, rv_running; simpl;
  repeat rewrite bool_decide_true by done; simpl; try done.

Section claimed.
Context (identity : WorkspaceTaskRunIdentityRequest).

(** How the [try] block ends: an answer of the store, or anything. *)
Definition recovered (r : result task_thrown WorkspaceTaskReceipt) (m : recovery_monitor) : Prop :=
  rv_identity m = Some identity ∧ rv_renewing m = Some true ∧
  match r with
  | Ok receipt => (rv_ended m = true ∨ rv_attention m = true) ∧
      (rt_status receipt = TaskFailed ∨
       ∃ snapshot, rv_seen m = Some snapshot ∧ of_snapshot (ws_run snapshot) receipt)
  | Throw _ => True
  end.

Lemma answered_wp snapshot m :
  rv_identity m = Some identity → rv_renewing m = Some true → rv_seen m = Some snapshot →
  rv_ended m = true ∨ rv_attention m = true →
  twp (workspaceTaskReceiptFromSnapshot snapshot) recovered m.
Proof.
  intros Hi Hr Hs He. eapply wp_mono; [|apply receipt_wp, recovery_reads].
  intros [receipt|e] m' [-> Hreceipt]; (split; [done|]); (split; [done|]); [|done].
  split; [done|]. right. by eexists.
Qed.

Lemma mark_attention_wp error type m :
  rv_identity m = Some identity → rv_renewing m = Some true →
  twp (mark_attention identity error type) (fun r m' => recovered r m' ∧ rv_attention m' = true) m.
Proof.
  intros Hi Hr. unfold mark_attention. wp_rule.
  apply recovery_call_wp; [by simpl; unfold rv_owned, rv_running; rewrite Hi, Hr, !bool_decide_true|].
  intros [snapshot|e] _; [|by split].
  eapply wp_mono; [|apply receipt_wp, recovery_reads].
  intros [receipt|e] m' [-> Hreceipt]; (split; [|done]); (split; [done|]); (split; [done|]); [|done].
  split; [by right|]. right. by eexists.
Qed.

Lemma recover_release_wp snapshot seen resolved :
  same_binding number_text localeCompare sha256 not_iterable resolved
    (wr_executionEnvironment (ws_run snapshot)) "workspace task recovery execution environment" = Ok tt →
  twp (recover_release this identity snapshot) recovered
    (recovering identity seen (ws_run snapshot) (ws_run snapshot) (Some resolved) false false false false).
Proof.
  intros Hsame. unfold recover_release, throw_if. wp_rule.
  assert (∀ last seen, twp (
      let run := ws_run last in
      _ ← raise_if (bool_decide (wr_state run ≠ TaskReleasing))
            (task_error (js "workspace task recovery cannot continue from state " ++ name_of (wr_state run)));
      _ ← raise_if (bool_decide (wr_strategy run = StrategyGitWorktree ∧ tt_gitWorktree this = None))
            (ErrorThrown (js "TypeError") (js "Cannot read properties of undefined (reading 'isolation')"));
      _ ← await (ReleaseDurableIsolation (wr_strategy run) (durable_identity run));
      _ ← await AssertHealthy;
      released ← await (FinalizeWorkspaceTaskRelease identity);
      workspaceTaskReceiptFromSnapshot released) recovered
    (recovering identity seen (ws_run snapshot) (ws_run last) (Some resolved) false false false false))
    as Hrelease.
  { clear seen. intros last seen. cbv zeta.
    wp_rule. wp_rule; [|done]. wp_rule. wp_rule; [|done]. wp_rule.
    match goal with H : bool_decide (_ ≠ _) = false |- _ => apply bool_decide_eq_false, dec_stable in H end.
    apply recovery_call_wp.
    { solve_permitted. unfold same_environment. simpl. by rewrite Hsame. }
    intros [[]|e] _; [|done]. wp_rule. apply recovery_call_wp; [done|]. intros [[]|e] _; [|done].
    wp_rule. apply recovery_call_wp; [solve_permitted|]. intros [released|e] _; [|done].
    apply answered_wp; [done|done|done|by left]. }
  case_bool_decide as Hs; [|wp_rule; apply Hrelease].
  apply recovery_call_wp; [solve_permitted; unfold same_environment; simpl; by rewrite Hsame|].
  intros [last|e] _; [apply Hrelease|done].
Qed.

(** The comparison with the environment: where it finds no difference, the binding that was
    resolved passes for the run's. *)
Lemma executionBindingError_wp run m :
  twp (executionBindingError number_text localeCompare sha256 not_iterable run)
    (fun r m' => ∃ error, r = Ok error ∧
      match error with
      | None => ∃ resolved, m' = rv_resolve resolved m ∧
          same_binding number_text localeCompare sha256 not_iterable resolved
            (wr_executionEnvironment run) "workspace task recovery execution environment" = Ok tt
      | Some _ => m' = m ∨ ∃ resolved, m' = rv_resolve resolved m
      end) m.
Proof.
  unfold executionBindingError. wp_rule. wp_rule. wp_rule. apply recovery_call_wp; [done|].
  intros [resolved|e] _; [|wp_rule; eexists; split; [done|]; by left]. wp_rule.
  destruct (same_binding _ _ _ _ _ _ _) as [[]|e] eqn:Hs; wp_rule; (eexists; split; [done|]); simpl; eauto.
Qed.

Lemma recover_claimed_run_wp initialBindingError snapshot :
  let run := ws_run snapshot in
  twp (recover_claimed number_text localeCompare sha256 not_iterable this identity initialBindingError
      snapshot) recovered
    (recovering identity (Some snapshot) run run None false false false false).
Proof.
  intros run. unfold recover_claimed. fold run. wp_rule.
  assert (∀ error type resolved, twp (mark_attention identity error type) recovered
    (recovering identity (Some snapshot) run run resolved false false false false)) as Hmark.
  { intros error type resolved. eapply wp_mono; [|by apply mark_attention_wp]. by intros r m []. }
  destruct initialBindingError as [error|]; [wp_rule; apply Hmark|].
  eapply wp_mono; [|apply executionBindingError_wp].
  intros r m (error & -> & Hm). destruct error as [error|].
  - destruct Hm as [->|[resolved ->]]; apply Hmark.
  - destruct Hm as (resolved & -> & Hs). case_bool_decide; [apply Hmark|].
    by apply recover_release_wp.
Qed.

Lemma recover_failed_wp snapshot error m :
  rv_identity m = Some identity → rv_renewing m = Some true →
  twp (recover_failed identity snapshot error)
    (fun r m' => ∃ receipt, r = Ok receipt ∧ recovered r m') m.
Proof.
  intros Hi Hr. unfold recover_failed. wp_rule. eapply wp_mono; [|by apply mark_attention_wp].
  intros [receipt|e] m' [Hm Ha]; [by eexists|]. wp_rule. eexists. split; [done|].
  destruct Hm as (Hi' & Hr' & _). split; [done|]. split; [done|]. split; [by right|]. by left.
Qed.
End claimed.

Lemma recoverWorkspaceTask_wp runId :
  twp (recoverWorkspaceTask number_text localeCompare sha256 not_iterable this runId) recovery_post
    recovery_start.
Proof.
  change recovery_start with (looking None None). unfold recoverWorkspaceTask, throw_if, throw.
  assert (∀ e seen resolved, recovery_post (Throw e) (looking seen resolved)) as Hthrow
    by (intros; by apply not_claimed_post).
  wp_rule. wp_rule; [|apply Hthrow]. wp_rule. apply recovery_call_wp; [done|].
  intros [[current|]|e] _; [|wp_rule; apply Hthrow|apply Hthrow].
  wp_rule. wp_rule. destruct (assertTaskRuntimeIdentity _ _ _ _ _); [|apply Hthrow].
  change (rv_advance _ _ _) with (looking (Some current) None).
  destruct (is_over (ws_run current)); [by apply recovered_replay|]. wp_rule.
  eapply wp_mono; [|apply executionBindingError_wp]. intros r m (initial & -> & Hm).
  assert (∃ resolved, m = looking (Some current) resolved) as [resolved ->].
  { destruct initial; [destruct Hm as [->|[? ->]]|destruct Hm as (? & -> & _)]; by eexists. }
  clear Hm. wp_rule. apply fresh_identity_wp; [apply recovery_reads|done|done|].
  intros identity _. wp_rule. apply recovery_call_wp; [done|]. intros [claim|e] _; [|apply Hthrow].
  unfold rv_advance. cbn [cr_identity].
  destruct (bool_decide (wc_status claim = TaskAlreadyTerminal)) eqn:Hterminal.
  { apply bool_decide_eq_true in Hterminal. rewrite decide_False by congruence.
    by apply recovered_replay. }
  clear Hterminal. destruct (decide (wc_status claim = TaskClaimed)) as [Hst|Hst];
    [rewrite bool_decide_false by naive_solver|rewrite bool_decide_true by done].
  2: { wp_rule. apply not_claimed_post; [done|]. by left. }
  wp_rule. wp_rule. destruct (assertTaskRuntimeIdentity _ _ _ _ _) as [u|e] eqn:Hi.
  2: { by apply not_claimed_post. }
  wp_rule. apply recovery_call_wp; [by solve_permitted; rewrite Hi|]. intros r ->. wp_rule. wp_rule.
  assert (∀ r m, recovered identity r m → is_ok r = true →
    twp (await StopRenewal) (fun u m => match u with
      | Ok _ => recovery_post r m | Throw e => recovery_post (Throw e) m end) m) as Hstop.
  { intros r m (Hid & Hr & Hm) Hok. apply recovery_call_wp; [by simpl; unfold rv_running; rewrite Hr|].
    intros u' ->. split; [done|]. destruct r as [receipt|e]; [|done]. destruct Hm as [He Hm].
    by split. }
  eapply wp_mono; [|apply (recover_claimed_run_wp identity initial (wc_snapshot claim))].
  intros [receipt|e] m Hm; [by apply Hstop|]. destruct Hm as (Hid & Hr & _).
  eapply wp_mono; [|by apply recover_failed_wp]. intros r m' (receipt & -> & Hm). by apply Hstop.
Qed.
End recovery_proofs.

(** (C31) Whatever the store and the isolation do, a recovery touches a run only under a claim of
    its own and only if the run belongs to this runtime's root and capability.  It releases an
    isolation only of a run that was proposed or being released, and only if the environment
    resolves to the binding that the run was admitted with; it records the release only after
    it succeeded; and of any other run it asks for attention.  It throws only before the renewal
    of its claim's lease has started, the check of the claimed run's identity included; a
    recovery whose renewal has started returns a receipt, with the renewal stopped and the run
    released or attention asked for.  A receipt that does not say failed is the record of the
    store. *)
Theorem recoverTask_safe number_text localeCompare sha256 not_iterable this strategy_of runId t r :
  trace (recoverWorkspaceTask number_text localeCompare sha256 not_iterable this runId) t r →
  Forall (possible strategy_of) t →
  ∃ m, judge (recovery_step number_text localeCompare sha256 not_iterable this) recovery_start t =
      Some m ∧ recovery_post r m.
Proof. intros Ht Hp. eapply wp_trace; [apply recoverWorkspaceTask_wp|done|done]. Qed.

(** * Examples *)

(** A store with one run, whose state it keeps. *)
Definition sample_recovery_env R (c : task_call R) : stM WorkspaceTaskRunState task_thrown R := fun s =>
  match c in task_call R return WorkspaceTaskRunState * result task_thrown R with
  | GetWorkspaceTaskRun _ => (s, Ok (Some (sample_snapshot s)))
  | ClaimWorkspaceTaskRecovery _ => (s, Ok {| wc_status := TaskClaimed; wc_snapshot := sample_snapshot s |})
  | ListWorkspaceTaskRuns request => (s, Ok (if decide (lr_state request = Some s)
      then [sample_snapshot s] else []))
  | ResolveBinding _ => (s, Ok sample_document)
  | RandomUUID => (s, Ok (js "1"))
  | RandomToken => (s, Ok (js "token"))
  | SignalAborted | RequestAborted => (s, Ok false)
  | StartRenewal | StopRenewal | AssertHealthy | ReleaseDurableIsolation _ _ | CombineSignals
  | DisposeSignals => (s, Ok tt)
  | BeginWorkspaceTaskRelease _ => (TaskReleasing, Ok (sample_snapshot TaskReleasing))
  | FinalizeWorkspaceTaskRelease _ => (TaskReleased, Ok (sample_snapshot TaskReleased))
  | MarkWorkspaceTaskAttention _ _ => (TaskAttention, Ok (sample_snapshot TaskAttention))
  | Now => (s, Ok 5%Z)
  | _ => (s, Throw (task_error (js "unavailable")))
  end.

Lemma sample_recovery_possible R (c : task_call R) s :
  possible (fun _ => StrategyGitWorktree) (Event c (sample_recovery_env R c s).2).
Proof. destruct c; simpl; eauto; by intros; simplify_eq. Qed.

Definition sample_recovery : tprog WorkspaceTaskReceipt :=
  recoverWorkspaceTask parts_text js_order sample_sha [] sample_task_runtime (js "wtsk_1").

(** A run that was left active needs attention. *)
Example sample_recovery_active :
  (interp sample_recovery_env sample_recovery TaskActive).1 = TaskAttention.
Proof. vm_compute. reflexivity. Qed.

Lemma recoverTask_safe_witness :
  (interp sample_recovery_env sample_recovery TaskProposed).1 = TaskReleased ∧
  ∃ m, judge (recovery_step parts_text js_order sample_sha [] sample_task_runtime) recovery_start
      (run sample_recovery_env sample_recovery TaskProposed).1 = Some m ∧
    recovery_post (run sample_recovery_env sample_recovery TaskProposed).2 m.
Proof.
  split; [vm_compute; reflexivity|].
  apply (recoverTask_safe parts_text js_order sample_sha [] sample_task_runtime
    (fun _ => StrategyGitWorktree) (js "wtsk_1")).
  - exact (run_trace sample_recovery_env sample_recovery TaskProposed).
  - apply run_forall. apply sample_recovery_possible.
Defined.
