(* ===== verification/TaskAdmission.v ===== *)
(** The admission of recoveries ([packages/workspace/src/tasks/recovery-admission.ts]): which
    runs are recovered within a limit and a budget, and what is reported of them. *)
From Stdlib Require Import Floats.SpecFloat.
From S2P Require Import Prelude JsMap Json JsStr JsonText Protocol WorkspaceProtocol ExecutionBinding ExecutionBindingLaws WorkspaceTask Program TaskRuntime TaskSafety TaskRecovery.

Inductive WorkspaceTaskRecoveryAdmissionOutcome :=
| AdmissionReleased | AdmissionAttention | AdmissionSkipped | AdmissionFailed.

#[export] Instance WorkspaceTaskRecoveryAdmissionOutcome_eq_dec :
  EqDecision WorkspaceTaskRecoveryAdmissionOutcome.
Proof. solve_decision. Defined.

Inductive WorkspaceTaskRecoveryAdmissionDiagnosticCode :=
| BudgetExceeded | LimitReached | RecoveryFailed.

#[export] Instance WorkspaceTaskRecoveryAdmissionDiagnosticCode_eq_dec :
  EqDecision WorkspaceTaskRecoveryAdmissionDiagnosticCode.
Proof. solve_decision. Defined.

Record WorkspaceTaskRecoveryAdmissionEntry := {
  ae_runId : jstr;
  ae_previousState : WorkspaceTaskRunState;
  ae_outcome : WorkspaceTaskRecoveryAdmissionOutcome;
}.

(** A diagnostic is its code. *)
Record WorkspaceTaskRecoveryAdmissionResult := {
  ad_attempted : Z;
  ad_released : Z;
  ad_attention : Z;
  ad_skipped : Z;
  ad_failed : Z;
  ad_remaining : bool;
  ad_entries : list WorkspaceTaskRecoveryAdmissionEntry;
  ad_diagnostics : list WorkspaceTaskRecoveryAdmissionDiagnosticCode;
}.

Record WorkspaceTaskRecoveryAdmissionRequest := {
  ar_workspaceId : option jstr;
  ar_maxRuns : option jsnum;
  ar_budgetMs : option jsnum;
}.

Definition RECOVERY_STATES : list WorkspaceTaskRunState :=
  [TaskPreparing; TaskActive; TaskCollecting; TaskProposed; TaskReleasing].
Definition DEFAULT_MAX_RUNS : Z := 16.
Definition DEFAULT_BUDGET_MS : Z := 1000.
Definition MAX_RUNS : Z := 100.
Definition MAX_BUDGET_MS : Z := 10000.

(** [boundedInteger]; the bounds of the message are those of the arguments. *)
Definition boundedInteger (value : jsnum) (minimum maximum : Z) (label bounds : string)
    : result task_thrown Z :=
  match num_integer value with
  | Some z => if decide (minimum ≤ z ∧ z ≤ maximum)%Z then Ok z
      else Throw (task_error (js "workspace task recovery " ++ js label ++
        js " must be an integer between " ++ js bounds))
  | None => Throw (task_error (js "workspace task recovery " ++ js label ++
        js " must be an integer between " ++ js bounds))
  end.

Definition diagnostics := list WorkspaceTaskRecoveryAdmissionDiagnosticCode.

Definition addDiagnostic (codes : diagnostics) (code : WorkspaceTaskRecoveryAdmissionDiagnosticCode)
    : diagnostics :=
  if decide (code ∈ codes) then codes else codes ++ [code].

(** ** Candidates *)

(** [byId]: the runs by their identifier; [fd_remaining]: some were left out. *)
Record found := {
  fd_byId : list (jstr * WorkspaceTaskRunSnapshot);
  fd_remaining : bool;
  fd_diagnostics : diagnostics;
}.

Definition over_budget (startedAt budgetMs : Z) : tprog bool :=
  now ← await Now; mret (bool_decide (budgetMs ≤ now - startedAt)%Z).

Definition by_id (byId : list (jstr * WorkspaceTaskRunSnapshot)) (rows : list WorkspaceTaskRunSnapshot)
    : list (jstr * WorkspaceTaskRunSnapshot) :=
  foldl (fun byId row => jset (wr_id (ws_run row)) row byId) byId rows.

Definition compare_updated (left right : WorkspaceTaskRunSnapshot) : Z :=
  num_order (wr_updatedAt (ws_run left)) (wr_updatedAt (ws_run right)).

Definition left_out (code : WorkspaceTaskRecoveryAdmissionDiagnosticCode) (condition : bool)
    (f : found) : found :=
  if condition
  then {| fd_byId := fd_byId f; fd_remaining := true;
          fd_diagnostics := addDiagnostic (fd_diagnostics f) code |}
  else f.

Section admission.
Context (number_text : jsnum → jstr) (localeCompare : jstr → jstr → Z) (sha256 : jstr → jstr).
Context (not_iterable : jstr) (this : WorkspaceTaskRuntime).
Context (workspaceId : jstr) (maxRuns startedAt budgetMs : Z).

(** The loop over the states. *)
Fixpoint list_states (states : list WorkspaceTaskRunState) (f : found) : tprog found :=
  match states with
  | [] => mret f
  | state :: states =>
      exceeded ← over_budget startedAt budgetMs;
      if (exceeded : bool) then mret (left_out BudgetExceeded true f)
      else
        now ← await Now;
        rows ← await (ListWorkspaceTaskRuns {|
          lr_workspaceId := Some workspaceId; lr_rootIdentity := Some (tt_rootIdentity this);
          lr_state := Some state; lr_leaseExpiresBefore := Some (num_of_Z now);
          lr_limit := Some (num_of_Z (maxRuns + 1)) |});
        let f := left_out LimitReached (bool_decide (maxRuns < Z.of_nat (length rows))%Z) f in
        list_states states {| fd_byId := by_id (fd_byId f) rows; fd_remaining := fd_remaining f;
          fd_diagnostics := fd_diagnostics f |}
  end.

Definition findCandidates : tprog (list WorkspaceTaskRunSnapshot * found) :=
  f ← list_states RECOVERY_STATES {| fd_byId := []; fd_remaining := false; fd_diagnostics := [] |};
  let runs := js_sort compare_updated (fd_byId f).*2 in
  mret (take (Z.to_nat maxRuns) runs,
    left_out LimitReached (bool_decide (maxRuns < Z.of_nat (length runs))%Z) f).

(** ** The loop over the candidates *)

Definition classifyOutcome (snapshot : option WorkspaceTaskRunSnapshot)
    : tprog WorkspaceTaskRecoveryAdmissionOutcome :=
  match snapshot with
  | None => mret AdmissionFailed
  | Some snapshot =>
      match wr_state (ws_run snapshot) with
      | TaskReleased => mret AdmissionReleased
      | TaskAttention => mret AdmissionAttention
      | _ =>
          match ws_activeAttempt snapshot with
          | None => mret AdmissionFailed
          | Some attempt =>
              now ← await Now;
              mret (if num_lt (num_of_Z now) (wa_leaseExpiresAt attempt)
                    then AdmissionSkipped else AdmissionFailed)
          end
      end
  end.

(** One recovery: its outcome, or nothing if it threw. *)
Definition recover_candidate (runId : jstr)
    : tprog (result task_thrown WorkspaceTaskRecoveryAdmissionOutcome) :=
  attempt (
    _ ← recoverWorkspaceTask number_text localeCompare sha256 not_iterable this runId;
    snapshot ← await (GetWorkspaceTaskRun runId);
    classifyOutcome snapshot).

Record recovered_so_far := {
  sf_entries : list WorkspaceTaskRecoveryAdmissionEntry;
  sf_remaining : bool;
  sf_diagnostics : diagnostics;
}.

(** The entry of a run, and what its failure is noted as. *)
Definition add_entry (run : WorkspaceTaskRunRecord) (outcome : WorkspaceTaskRecoveryAdmissionOutcome)
    (f : recovered_so_far) : recovered_so_far := {|
  sf_entries := sf_entries f ++ [{| ae_runId := wr_id run; ae_previousState := wr_state run;
    ae_outcome := outcome |}];
  sf_remaining := sf_remaining f || bool_decide (outcome = AdmissionFailed);
  sf_diagnostics := if decide (outcome = AdmissionFailed)
    then addDiagnostic (sf_diagnostics f) RecoveryFailed else sf_diagnostics f |}.

Fixpoint recover_candidates (candidates : list WorkspaceTaskRunSnapshot) (f : recovered_so_far)
    : tprog recovered_so_far :=
  match candidates with
  | [] => mret f
  | candidate :: candidates =>
      exceeded ← over_budget startedAt budgetMs;
      if (exceeded : bool) then mret {|
        sf_entries := sf_entries f; sf_remaining := true;
        sf_diagnostics := addDiagnostic (sf_diagnostics f) BudgetExceeded |}
      else
        recovered ← recover_candidate (wr_id (ws_run candidate));
        let outcome := match recovered with Ok outcome => outcome | Throw _ => AdmissionFailed end in
        recover_candidates candidates (add_entry (ws_run candidate) outcome f)
  end.

Definition count (outcome : WorkspaceTaskRecoveryAdmissionOutcome)
    (entries : list WorkspaceTaskRecoveryAdmissionEntry) : Z :=
  Z.of_nat (length (filter (fun entry => ae_outcome entry = outcome) entries)).

Definition admission_result (f : recovered_so_far) : WorkspaceTaskRecoveryAdmissionResult := {|
  ad_attempted := Z.of_nat (length (sf_entries f));
  ad_released := count AdmissionReleased (sf_entries f);
  ad_attention := count AdmissionAttention (sf_entries f);
  ad_skipped := count AdmissionSkipped (sf_entries f);
  ad_failed := count AdmissionFailed (sf_entries f);
  ad_remaining := sf_remaining f;
  ad_entries := sf_entries f;
  ad_diagnostics := sf_diagnostics f |}.

Definition recover_found : tprog WorkspaceTaskRecoveryAdmissionResult :=
  candidates ← findCandidates;
  f ← recover_candidates candidates.1 {| sf_entries := [];
        sf_remaining := fd_remaining candidates.2;
        sf_diagnostics := fd_diagnostics candidates.2 |};
  mret (admission_result f).
End admission.

Definition recoverExpiredWorkspaceTasks (number_text : jsnum → jstr)
    (localeCompare : jstr → jstr → Z) (sha256 : jstr → jstr) (not_iterable : jstr)
    (this : WorkspaceTaskRuntime) (request : WorkspaceTaskRecoveryAdmissionRequest)
    : tprog WorkspaceTaskRecoveryAdmissionResult :=
  maxRuns ← of_result (boundedInteger (default (num_of_Z DEFAULT_MAX_RUNS) (ar_maxRuns request))
    1 MAX_RUNS "maxRuns" "1 and 100");
  budgetMs ← of_result (boundedInteger (default (num_of_Z DEFAULT_BUDGET_MS) (ar_budgetMs request))
    1 MAX_BUDGET_MS "budgetMs" "1 and 10000");
  startedAt ← await Now;
  recover_found number_text localeCompare sha256 not_iterable this
    (default (tt_defaultWorkspaceId this) (ar_workspaceId request)) maxRuns startedAt budgetMs.

(** * What an admission reports *)

(** The store has listed the run, as one whose lease is over. *)
Definition listed (t : list tevent) (row : WorkspaceTaskRunSnapshot) : Prop :=
  ∃ request rows, Event (ListWorkspaceTaskRuns request) (Ok rows) ∈ t ∧ row ∈ rows.

(** The store was asked for every run of the state, and gave no more than the limit. *)
Definition asked (workspaceId : jstr) (maxRuns : Z) (t : list tevent) (state : WorkspaceTaskRunState)
    : Prop :=
  ∃ request rows, Event (ListWorkspaceTaskRuns request) (Ok rows) ∈ t ∧
    lr_workspaceId request = Some workspaceId ∧ lr_state request = Some state ∧
    (Z.of_nat (length rows) ≤ maxRuns)%Z.

(** The run was recovered under the protocol of [TaskRecovery], and the store said how it
    then was. *)
Definition entry_ok number_text localeCompare sha256 not_iterable this (t : list tevent)
    (entry : WorkspaceTaskRecoveryAdmissionEntry) : Prop :=
  (∃ row, listed t row ∧ wr_id (ws_run row) = ae_runId entry ∧
    wr_state (ws_run row) = ae_previousState entry) ∧
  (∃ before recovery after r m, t = before ++ recovery ++ after ∧
    judge (recovery_step number_text localeCompare sha256 not_iterable this) recovery_start recovery =
      Some m ∧ recovery_post r m) ∧
  (ae_outcome entry ≠ AdmissionFailed → ∃ snapshot,
    Event (GetWorkspaceTaskRun (ae_runId entry)) (Ok (Some snapshot)) ∈ t ∧
    (ae_outcome entry = AdmissionReleased ↔ wr_state (ws_run snapshot) = TaskReleased) ∧
    (ae_outcome entry = AdmissionAttention ↔ wr_state (ws_run snapshot) = TaskAttention)).

(** What is left for later is told, and told why. *)
Definition told (remaining : bool) (codes : diagnostics) : Prop :=
  NoDup codes ∧ (remaining = true ↔ codes ≠ []).

Record admission_ok number_text localeCompare sha256 not_iterable this (workspaceId : jstr)
    (maxRuns : Z) (t : list tevent) (result : WorkspaceTaskRecoveryAdmissionResult) : Prop := {
  aok_count : ad_attempted result = Z.of_nat (length (ad_entries result)) ∧
    (ad_attempted result ≤ maxRuns)%Z ∧
    (ad_released result + ad_attention result + ad_skipped result + ad_failed result =
      ad_attempted result)%Z;
  aok_once : NoDup (ae_runId <$> ad_entries result);
  aok_entries : Forall (entry_ok number_text localeCompare sha256 not_iterable this t)
    (ad_entries result);
  aok_told : told (ad_remaining result) (ad_diagnostics result);
  aok_all : ad_remaining result = false →
    Forall (asked workspaceId maxRuns t) RECOVERY_STATES ∧
    (∀ row, listed t row → wr_id (ws_run row) ∈ ae_runId <$> ad_entries result) ∧
    ad_failed result = 0%Z;
}.

Lemma told_add remaining codes code : told remaining codes → told true (addDiagnostic codes code).
Proof.
  intros [Hnd _]. unfold addDiagnostic. case_decide as Hc.
  - split; [done|]. split; [|done]. intros _ ->. by apply not_elem_of_nil in Hc.
  - split; [|by destruct codes].
    apply NoDup_app. split; [done|]. split; [|by apply NoDup_singleton].
    by intros c Hin ->%list_elem_of_singleton.
Qed.

Section admission_proofs.
Context (number_text : jsnum → jstr) (localeCompare : jstr → jstr → Z) (sha256 : jstr → jstr).
Context (not_iterable : jstr) (this : WorkspaceTaskRuntime).
Context (strategy_of : jstr → WorkspaceTaskStrategy).
Context (workspaceId : jstr) (maxRuns startedAt budgetMs : Z).

Abbreviation may := (possible strategy_of).
Abbreviation cwp := (wp collect may).

#[local] Arguments wp : simpl never.
#[local] Arguments mbind : simpl never.
#[local] Arguments mret : simpl never.
#[local] Arguments handle : simpl never.
#[local] Arguments await : simpl never.

Lemma listed_snoc t row {R} (c : task_call R) r :
  listed (t ++ [Event c r]) row ↔
  listed t row ∨ ∃ request rows, Event (ListWorkspaceTaskRuns request) (Ok rows) = Event c r ∧ row ∈ rows.
Proof.
  unfold listed. split.
  - intros (request & rows & [?|?%list_elem_of_singleton]%elem_of_app & Hin); [left|right]; eauto.
  - intros [(request & rows & ? & ?)|(request & rows & Heq & ?)]; exists request, rows; (split; [|done]);
      apply elem_of_app; [by left|]. right. rewrite Heq. by left.
Qed.

Lemma asked_app t t' state : asked workspaceId maxRuns t state → asked workspaceId maxRuns (t ++ t') state.
Proof. intros (request & rows & Hin & H). eexists _, _. split; [by apply elem_of_app; left|done]. Qed.

(** ** Candidates *)

(** What the runs found so far are; [states]: those that were asked for. *)
Record found_ok (states : list WorkspaceTaskRunState) (f : found) (t : list tevent) : Prop := {
  fok_keys : NoDup (fd_byId f).*1;
  fok_rows : Forall (fun '(id, row) => id = wr_id (ws_run row) ∧ listed t row) (fd_byId f);
  fok_all : ∀ row, listed t row → wr_id (ws_run row) ∈ (fd_byId f).*1;
  fok_told : told (fd_remaining f) (fd_diagnostics f);
  fok_asked : fd_remaining f = false → Forall (asked workspaceId maxRuns t) states;
}.

Lemma found_left_out states code condition f t :
  found_ok states f t → found_ok states (left_out code condition f) t.
Proof.
  intros [Hk Hr Ha Ht Hs]. destruct condition; [|by split]. split; [done|done|done| |done].
  by eapply told_add.
Qed.

Lemma by_id_keys byId rows id :
  id ∈ (by_id byId rows).*1 ↔ id ∈ byId.*1 ∨ ∃ row, row ∈ rows ∧ wr_id (ws_run row) = id.
Proof.
  revert byId. induction rows as [|row rows IH]; intros byId; simpl.
  - split; [by left|]. intros [?|(row & Hin & _)]; [done|by apply not_elem_of_nil in Hin].
  - rewrite IH, elem_of_jset_keys. setoid_rewrite elem_of_cons. split.
    + intros [[->|?]|(row' & ? & ?)]; eauto.
    + intros [?|(row' & [->|?] & ?)]; eauto.
Qed.

Lemma by_id_NoDup byId rows : NoDup byId.*1 → NoDup (by_id byId rows).*1.
Proof. revert byId. induction rows as [|row rows IH]; intros byId Hnd; simpl; [done|]. by apply IH, NoDup_jset. Qed.

Lemma elem_of_jset {K V} `{EqDecision K} (k : K) (v : V) m p : p ∈ jset k v m → p = (k, v) ∨ p ∈ m.
Proof.
  induction m as [|[k' v'] m IH]; simpl.
  - intros ->%list_elem_of_singleton. by left.
  - case_decide; rewrite !elem_of_cons; naive_solver.
Qed.

Lemma by_id_rows (P : WorkspaceTaskRunSnapshot → Prop) byId rows :
  Forall (fun '(id, row) => id = wr_id (ws_run row) ∧ P row) byId → (∀ row, row ∈ rows → P row) →
  Forall (fun '(id, row) => id = wr_id (ws_run row) ∧ P row) (by_id byId rows).
Proof.
  revert byId. induction rows as [|row rows IH]; intros byId Hall Hrows; simpl; [done|].
  apply IH; [|intros row' Hin; apply Hrows; by right].
  apply Forall_forall. intros p [->|Hin]%elem_of_jset.
  - split; [done|]. apply Hrows. by left.
  - rewrite Forall_forall in Hall. by apply Hall.
Qed.

Lemma quiet_listed {R} (c : task_call R) r t row :
  (∀ request (rows : list WorkspaceTaskRunSnapshot),
    Event (ListWorkspaceTaskRuns request) (Ok rows) ≠ (Event c r : tevent)) →
  listed (t ++ [Event c r]) row ↔ listed t row.
Proof.
  intros Hq. rewrite listed_snoc. split; [|by left]. intros [?|(request & rows & Heq & _)]; [done|].
  by destruct (Hq _ _ Heq).
Qed.

Lemma found_quiet states f t {R} (c : task_call R) r :
  (∀ request (rows : list WorkspaceTaskRunSnapshot),
    Event (ListWorkspaceTaskRuns request) (Ok rows) ≠ (Event c r : tevent)) →
  found_ok states f t → found_ok states f (t ++ [Event c r]).
Proof.
  intros Hq [Hk Hr Ha Ht Hs]. split; [done| |by intros row Hl; apply Ha, (quiet_listed c r t)|done|].
  - eapply Forall_impl; [exact Hr|]. intros [id row] [? ?]. split; [done|]. by apply quiet_listed.
  - intros Hrem. eapply Forall_impl; [by apply Hs|]. intros state. apply asked_app.
Qed.

Lemma over_budget_wp (Q : result task_thrown bool → list tevent → Prop) t :
  (∀ e r, Q (Throw e) (t ++ [Event Now r])) →
  (∀ b r, Q (Ok b) (t ++ [Event Now r])) → cwp (over_budget startedAt budgetMs) Q t.
Proof.
  intros He Hb. unfold over_budget. wp_rule. apply collect_await. intros [now|e] _; [wp_rule|]; auto.
Qed.

Lemma list_candidates_wp states : ∀ done_states f t,
  found_ok done_states f t →
  cwp (list_states this workspaceId maxRuns startedAt budgetMs states f)
    (fun r t' => match r with
      | Ok f' => found_ok (done_states ++ states) f' t'
      | Throw _ => True
      end) t.
Proof.
  induction states as [|state states IH]; intros done_states f t Hf; simpl.
  { wp_rule. by rewrite app_nil_r. }
  wp_rule. apply over_budget_wp; [done|]. intros b r.
  assert (found_ok done_states f (t ++ [Event Now r])) as Hf1 by (apply found_quiet; [by intros|done]).
  destruct b.
  { wp_rule. destruct Hf1 as [Hk Hr Ha Ht _]. split; [done|done|done| |done]. by eapply told_add. }
  wp_rule. apply collect_await. intros [now|e] _; [|done]. wp_rule. apply collect_await.
  intros [rows|e] _; [|done].
  set (t1 := (t ++ [Event Now r]) ++ [Event Now (Ok now)]).
  assert (found_ok done_states f t1) as Hf2 by (apply found_quiet; [by intros|done]).
  clearbody t1. clear Hf1 Hf t.
  replace (done_states ++ state :: states) with ((done_states ++ [state]) ++ states) by (by rewrite <-app_assoc).
  set (request := {| lr_workspaceId := _; lr_rootIdentity := _ |}).
  apply IH. apply (found_left_out _ LimitReached (bool_decide (maxRuns < Z.of_nat (length rows))%Z)) in Hf2.
  assert (fd_remaining (left_out LimitReached (bool_decide (maxRuns < Z.of_nat (length rows))%Z) f) = false →
    (Z.of_nat (length rows) ≤ maxRuns)%Z) as Hlimit.
  { case_bool_decide; [done|]. intros _. lia. }
  revert Hf2 Hlimit. generalize (left_out LimitReached (bool_decide (maxRuns < Z.of_nat (length rows))%Z) f).
  clear f. intros f [Hk Hr Ha Ht Hs] Hlimit.
  assert (∀ row, listed (t1 ++ [Event (ListWorkspaceTaskRuns request) (Ok rows)]) row ↔
    listed t1 row ∨ row ∈ rows) as Hlisted.
  { intros row. rewrite listed_snoc. split; intros [?|H]; [by left| |by left|right; eauto].
    destruct H as (request' & rows' & Heq & Hin). right.
    assert (Some rows' = Some rows) as [= ->]; [|done].
    pose (rows_of e := match e : tevent with
      | Event c r => match c in task_call R return result task_thrown R → option (list WorkspaceTaskRunSnapshot) with
        | ListWorkspaceTaskRuns _ => fun r => match r with Ok rows => Some rows | Throw _ => None end
        | _ => fun _ => None end r end).
    exact (f_equal rows_of Heq). }
  split; simpl; [by apply by_id_NoDup| | |done|].
  - apply by_id_rows.
    + eapply Forall_impl; [exact Hr|]. intros [id row] [? ?]. split; [done|]. apply Hlisted. by left.
    + intros row Hin. apply Hlisted. by right.
  - intros row [?|?]%Hlisted; apply by_id_keys; [left; by apply Ha|right; by eexists].
  - intros Hrem. apply Forall_app. split; [|constructor; [|done]].
    + eapply Forall_impl; [by apply Hs|]. intros ?. apply asked_app.
    + eexists request, rows. split; [by apply elem_of_snoc|]. split; [done|]. split; [done|]. auto.
Qed.

(** ** The candidates *)

Abbreviation run_id := (fun row => wr_id (ws_run row)).

Record candidates_ok (runs : list WorkspaceTaskRunSnapshot) (f : found) (t : list tevent) : Prop := {
  cok_once : NoDup (run_id <$> runs);
  cok_limit : (Z.of_nat (length runs) ≤ maxRuns)%Z;
  cok_listed : Forall (listed t) runs;
  cok_told : told (fd_remaining f) (fd_diagnostics f);
  cok_all : fd_remaining f = false →
    Forall (asked workspaceId maxRuns t) RECOVERY_STATES ∧
    ∀ row, listed t row → run_id row ∈ run_id <$> runs;
}.

Lemma found_ids states f t : found_ok states f t → run_id <$> (fd_byId f).*2 = (fd_byId f).*1.
Proof.
  intros [_ Hr _ _ _]. revert Hr. induction (fd_byId f) as [|[id row] byId IH]; simpl; [done|].
  intros [[-> _] Hr]%Forall_cons. f_equal. by apply IH.
Qed.

Lemma found_candidates f t :
  (0 ≤ maxRuns)%Z → found_ok RECOVERY_STATES f t →
  let runs := js_sort compare_updated (fd_byId f).*2 in
  candidates_ok (take (Z.to_nat maxRuns) runs)
    (left_out LimitReached (bool_decide (maxRuns < Z.of_nat (length runs))%Z) f) t.
Proof.
  intros Hmax Hf runs. pose proof (found_ids _ _ _ Hf) as Hids.
  assert (run_id <$> runs ≡ₚ (fd_byId f).*1) as Hperm.
  { rewrite <-Hids. apply fmap_Permutation, js_sort_perm. }
  assert (NoDup (run_id <$> runs)) as Hnd by (rewrite Hperm; apply Hf).
  assert (Forall (listed t) runs) as Hlisted.
  { unfold runs. rewrite js_sort_perm. apply Forall_fmap. eapply Forall_impl; [apply Hf|].
    by intros [id row] []. }
  apply (found_left_out _ LimitReached (bool_decide (maxRuns < Z.of_nat (length runs))%Z)) in Hf as Hf'.
  split.
  - rewrite fmap_take. eapply sublist_NoDup; [exact Hnd|apply sublist_take].
  - rewrite length_take. lia.
  - by apply Forall_take.
  - apply Hf'.
  - intros Hrem. split; [by apply Hf'|]. intros row Hrow.
    case_bool_decide as Hlen; [done|]. rewrite take_ge by lia. rewrite Hperm. by apply Hf.
Qed.

Lemma findCandidates_wp t :
  (0 ≤ maxRuns)%Z → (∀ row, ¬ listed t row) →
  cwp (findCandidates this workspaceId maxRuns startedAt budgetMs)
    (fun r t' => match r with
      | Ok candidates => candidates_ok candidates.1 candidates.2 t'
      | Throw _ => True
      end) t.
Proof.
  intros Hmax Ht. unfold findCandidates. wp_rule. eapply wp_mono; [|apply (list_candidates_wp _ [])].
  - intros [f|e] t' Hf; [|done]. wp_rule. by apply found_candidates.
  - split; simpl; [by constructor|by constructor|by intros row ?%Ht|by split; [constructor|]|by constructor].
Qed.

(** ** The recoveries *)

(** The store is asked for no list in the part [t]. *)
Definition quiet (t : list tevent) : Prop :=
  ∀ request (rows : list WorkspaceTaskRunSnapshot),
    Event (ListWorkspaceTaskRuns request) (Ok rows) ∉ t.

Lemma quiet_app t t' row : quiet t' → listed (t ++ t') row ↔ listed t row.
Proof.
  intros Hq. unfold listed. setoid_rewrite elem_of_app. split.
  - intros (request & rows & [?|H] & ?); [by eauto|]. by apply Hq in H.
  - intros (request & rows & ? & ?). eauto.
Qed.

Abbreviation rstep := (recovery_step number_text localeCompare sha256 not_iterable this).

Lemma recovery_quiet m t m' : judge rstep m t = Some m' → quiet t.
Proof.
  revert m. induction t as [|e t IH]; intros m; simpl; [intros _ ? ? H; by apply not_elem_of_nil in H|].
  destruct (rstep m e) as [m1|] eqn:Hs; [simpl|done]. intros Hj request rows [<-|Hin]%elem_of_cons; [done|].
  by apply (IH m1 Hj) in Hin.
Qed.

(** The part of a recovery in a trace. *)
Definition recovers (t1 : list tevent) : Prop :=
  quiet t1 ∧ ∃ recovery after r m, t1 = recovery ++ after ∧
    judge rstep recovery_start recovery = Some m ∧ recovery_post r m.

Lemma recovers_snoc t1 {R} (c : task_call R) r :
  (∀ request (rows : list WorkspaceTaskRunSnapshot),
    Event (ListWorkspaceTaskRuns request) (Ok rows) ≠ (Event c r : tevent)) →
  recovers t1 → recovers (t1 ++ [Event c r]).
Proof.
  intros Hne [Hq (recovery & after & o & m & -> & Hj & Hp)]. split.
  - intros request rows [Hin|Hin%list_elem_of_singleton]%elem_of_app; [by apply Hq in Hin|].
    by apply Hne in Hin.
  - exists recovery, (after ++ [Event c r]), o, m. by rewrite <-app_assoc.
Qed.

(** What an outcome says of the snapshot that it was read from. *)
Definition classified (runId : jstr) (t1 : list tevent) (outcome : WorkspaceTaskRecoveryAdmissionOutcome)
    : Prop :=
  outcome ≠ AdmissionFailed → ∃ snapshot,
    Event (GetWorkspaceTaskRun runId) (Ok (Some snapshot)) ∈ t1 ∧
    (outcome = AdmissionReleased ↔ wr_state (ws_run snapshot) = TaskReleased) ∧
    (outcome = AdmissionAttention ↔ wr_state (ws_run snapshot) = TaskAttention).

Lemma classified_failed runId t1 : classified runId t1 AdmissionFailed.
Proof. by intros []. Qed.

(** How the recovery of a run ends, and its part in the trace. *)
Definition recovery_told runId (t : list tevent)
    (recovered : result task_thrown WorkspaceTaskRecoveryAdmissionOutcome) (t' : list tevent) : Prop :=
  ∃ t1, t' = t ++ t1 ∧ recovers t1 ∧
    match recovered with Ok outcome => classified runId t1 outcome | Throw _ => True end.

Lemma classify_wp runId snapshot t t2 :
  recovers t2 → Event (GetWorkspaceTaskRun runId) (Ok snapshot) ∈ t2 →
  cwp (classifyOutcome snapshot) (recovery_told runId t) (t ++ t2).
Proof.
  intros Hr Hin. unfold classifyOutcome.
  destruct snapshot as [snapshot|]; [|wp_rule; exists t2; auto using classified_failed].
  assert (∀ outcome t3, t2 `prefix_of` t3 →
    (outcome = AdmissionReleased ↔ wr_state (ws_run snapshot) = TaskReleased) →
    (outcome = AdmissionAttention ↔ wr_state (ws_run snapshot) = TaskAttention) →
    classified runId t3 outcome) as Hclass.
  { intros outcome t3 [after ->] H1 H2 _. exists snapshot. split; [|done]. apply elem_of_app. by left. }
  assert (wr_state (ws_run snapshot) ≠ TaskReleased → wr_state (ws_run snapshot) ≠ TaskAttention →
    cwp (match ws_activeAttempt snapshot with
      | None => mret AdmissionFailed
      | Some attempt => now ← await Now;
          mret (if num_lt (num_of_Z now) (wa_leaseExpiresAt attempt)
                then AdmissionSkipped else AdmissionFailed)
      end) (recovery_told runId t) (t ++ t2)) as Hother.
  { intros Hnr Hna. destruct (ws_activeAttempt snapshot) as [attempt|].
    2: { wp_rule. exists t2. auto using classified_failed. }
    wp_rule. apply collect_await. intros [now|e] _; rewrite <-app_assoc;
      pose proof (recovers_snoc t2 Now) as Hsnoc; [wp_rule|].
    - eexists. split; [done|]. split; [by apply Hsnoc|]. apply Hclass; [by apply prefix_app_r|by case_match..].
    - eexists. split; [done|]. split; [by apply Hsnoc|done]. }
  destruct (wr_state (ws_run snapshot)) eqn:Hs; try (by apply Hother);
    (wp_rule; exists t2; split; [done|]; split; [done|]; by apply Hclass; rewrite ?Hs).
Qed.

Lemma recover_candidate_wp runId t :
  cwp (recover_candidate number_text localeCompare sha256 not_iterable this runId)
    (fun r t' => match r with
      | Ok recovered => recovery_told runId t recovered t'
      | Throw _ => False
      end) t.
Proof.
  unfold recover_candidate. wp_rule. wp_rule.
  eapply wp_mono; [|apply (wp_collect rstep may), recoverWorkspaceTask_wp].
  intros r t' (t1 & m & -> & Hj & Hp).
  assert (recovers t1) as Hr.
  { split; [by eapply recovery_quiet|]. exists t1, [], r, m. by rewrite app_nil_r. }
  destruct r as [receipt|e]; [|by exists t1]. clear Hj Hp m.
  wp_rule. apply collect_await. intros [snapshot|e] _; rewrite <-app_assoc.
  - apply classify_wp; [by apply recovers_snoc|apply elem_of_snoc].
  - eexists. split; [done|]. split; [by apply recovers_snoc|done].
Qed.

Abbreviation entry_ok := (entry_ok number_text localeCompare sha256 not_iterable this).

(** What was recovered of the candidates [done_runs]. *)
Record loop_ok (found_remaining : bool) (t0 : list tevent) (done_runs : list WorkspaceTaskRunSnapshot)
    (f : recovered_so_far) (t : list tevent) : Prop := {
  lok_ids : ae_runId <$> sf_entries f = run_id <$> done_runs;
  lok_entries : Forall (entry_ok t) (sf_entries f);
  lok_told : told (sf_remaining f) (sf_diagnostics f);
  lok_all : sf_remaining f = false → found_remaining = false ∧
    Forall (fun entry => ae_outcome entry ≠ AdmissionFailed) (sf_entries f);
  lok_trace : ∃ t1, t = t0 ++ t1 ∧ quiet t1;
}.

Lemma entry_ok_app t t' entry : entry_ok t entry → entry_ok (t ++ t') entry.
Proof.
  intros ((row & (request & rows & Hin & Hrow) & Hids) & (before & recovery & after & r & m & -> & Hj) & Hs).
  split; [|split].
  - exists row. split; [|done]. exists request, rows. split; [|done]. apply elem_of_app. by left.
  - exists before, recovery, (after ++ t'), r, m. by rewrite <-!app_assoc.
  - intros Hne. destruct (Hs Hne) as (snapshot & Hget & H). exists snapshot.
    split; [|done]. apply elem_of_app. by left.
Qed.

Lemma listed_app t t' row : listed t row → listed (t ++ t') row.
Proof.
  intros (request & rows & Hin & Hrow). exists request, rows. split; [|done]. apply elem_of_app. by left.
Qed.

Lemma quiet_trace t0 t1 t2 : quiet t1 → quiet t2 → ∃ t3, (t0 ++ t1) ++ t2 = t0 ++ t3 ∧ quiet t3.
Proof.
  intros H1 H2. exists (t1 ++ t2). split; [by rewrite <-app_assoc|].
  intros request rows [?%H1|?%H2]%elem_of_app; done.
Qed.

Lemma loop_quiet found_remaining t0 done_runs f t {R} (c : task_call R) r :
  (∀ request (rows : list WorkspaceTaskRunSnapshot),
    Event (ListWorkspaceTaskRuns request) (Ok rows) ≠ (Event c r : tevent)) →
  loop_ok found_remaining t0 done_runs f t → loop_ok found_remaining t0 done_runs f (t ++ [Event c r]).
Proof.
  intros Hne [Hi He Ht Ha (t1 & -> & Hq)]. split; [done| |done|done|].
  - eapply Forall_impl; [exact He|]. intros entry. apply entry_ok_app.
  - apply quiet_trace; [done|]. by intros request rows ?%list_elem_of_singleton%Hne.
Qed.

(** One more entry. *)
Lemma loop_entry found_remaining t0 done_runs f t candidate recovered t' :
  loop_ok found_remaining t0 done_runs f t → listed t candidate →
  recovery_told (run_id candidate) t recovered t' →
  let outcome := match recovered with Ok outcome => outcome | Throw _ => AdmissionFailed end in
  loop_ok found_remaining t0 (done_runs ++ [candidate]) (add_entry (ws_run candidate) outcome f) t'.
Proof.
  intros [Hi He Ht Ha (t1 & Heq & Hq)] Hl (t2 & -> & [Hq2 Hsegment] & Hclass) outcome.
  assert (classified (run_id candidate) t2 outcome) as Hc
    by (destruct recovered; [done|apply classified_failed]).
  split; simpl.
  - by rewrite !fmap_app, Hi.
  - apply Forall_app. split; [eapply Forall_impl; [exact He|]; intros entry; apply entry_ok_app|].
    constructor; [|done]. split; [|split].
    + exists candidate. by split; [apply listed_app|].
    + destruct Hsegment as (recovery & after & r & m & -> & H). by exists t, recovery, after, r, m.
    + intros Hne. destruct (Hc Hne) as (snapshot & Hget & H). exists snapshot.
      split; [|done]. apply elem_of_app. by right.
  - destruct (decide (outcome = AdmissionFailed)) as [->|Hne].
    + rewrite bool_decide_true by done. rewrite orb_true_r. by eapply told_add.
    + rewrite bool_decide_false by done. by rewrite orb_false_r.
  - intros [Hrem Hout%bool_decide_eq_false]%orb_false_iff. destruct (Ha Hrem) as [? Hall].
    split; [done|]. apply Forall_app. by split; [|constructor].
  - rewrite Heq. by apply quiet_trace.
Qed.

Lemma recover_candidates_wp found_remaining t0 candidates : ∀ done_runs f t,
  loop_ok found_remaining t0 done_runs f t → Forall (listed t0) candidates →
  cwp (recover_candidates number_text localeCompare sha256 not_iterable this startedAt budgetMs
      candidates f)
    (fun r t' => match r with
      | Ok f' => ∃ rest, rest `prefix_of` candidates ∧ loop_ok found_remaining t0 (done_runs ++ rest) f' t' ∧
          (sf_remaining f' = false → rest = candidates)
      | Throw _ => True
      end) t.
Proof.
  induction candidates as [|candidate candidates IH]; intros done_runs f t Hf Hl; simpl.
  { wp_rule. exists []. by rewrite app_nil_r. }
  wp_rule. apply over_budget_wp; [done|]. intros b r.
  apply (loop_quiet _ _ _ _ _ Now r) in Hf; [|by intros]. destruct b.
  { wp_rule. exists []. rewrite app_nil_r. split; [apply prefix_nil|]. split; [|done].
    destruct Hf as [Hi He Ht Ha Htrace]. split; [done|done| |done|done]. by eapply told_add. }
  set (t1 := t ++ [Event Now r]) in *. clearbody t1. apply Forall_cons in Hl as [Hc Hl].
  wp_rule. eapply wp_mono; [|apply recover_candidate_wp]. intros [recovered|e] t' Hr; [|done].
  assert (listed t1 candidate) as Hc'.
  { destruct Hf as [_ _ _ _ (t2 & -> & _)]. by apply listed_app. }
  pose proof (loop_entry _ _ _ _ _ _ _ _ Hf Hc' Hr) as Hf'.
  eapply wp_mono; [|by apply IH]. intros [f'|e] t2; [|done].
  intros (rest & Hprefix & Hloop & Hall). exists (candidate :: rest).
  split; [by apply prefix_cons|]. split; [by rewrite <-app_assoc in Hloop|]. intros Hrem. by rewrite Hall.
Qed.

Lemma length_filter_outcomes entries :
  (count AdmissionReleased entries + count AdmissionAttention entries +
   count AdmissionSkipped entries + count AdmissionFailed entries = Z.of_nat (length entries))%Z.
Proof.
  unfold count. induction entries as [|entry entries IH]; [done|].
  rewrite !filter_cons. destruct (ae_outcome entry) eqn:Ho; repeat (case_decide; [|]);
    simplify_eq; simpl; lia.
Qed.

Lemma count_none outcome entries :
  Forall (fun entry => ae_outcome entry ≠ outcome) entries → count outcome entries = 0%Z.
Proof.
  intros Hall. unfold count. rewrite filter_none; [done|]. rewrite Forall_forall in Hall. exact Hall.
Qed.

Lemma recover_found_wp t :
  (0 ≤ maxRuns)%Z → (∀ row, ¬ listed t row) →
  cwp (recover_found number_text localeCompare sha256 not_iterable this workspaceId maxRuns startedAt
      budgetMs)
    (fun r t' => match r with
      | Ok result => admission_ok number_text localeCompare sha256 not_iterable this workspaceId maxRuns
          t' result
      | Throw _ => True
      end) t.
Proof.
  intros Hmax Ht. unfold recover_found. wp_rule. eapply wp_mono; [|by apply findCandidates_wp].
  intros [[runs f0]|e] t0 H; [|done]. destruct H as [Honce Hlimit Hlisted Htold Hall].
  simpl in *. wp_rule.
  eapply wp_mono; [|apply (recover_candidates_wp (fd_remaining f0) t0 runs [])]; [|split|done]; simpl.
  - intros [f|e] t' Hf; [|done]. wp_rule.
    destruct Hf as (rest & [others ->] & [Hi He Hf Hr (t1 & -> & Hq)] & Hrest). simpl in Hi.
    assert (length (sf_entries f) = length rest) as Hlen
      by (by rewrite <-(length_fmap ae_runId), Hi, length_fmap).
    rewrite length_app in Hlimit. rewrite fmap_app in Honce.
    apply NoDup_app in Honce as [Honce _]. split; simpl; [|by rewrite Hi|done|done|].
    + split; [done|]. split; [lia|]. apply length_filter_outcomes.
    + intros Hrem. destruct (Hr Hrem) as [Hfound Hnone]. destruct (Hall Hfound) as [Hasked Hids].
      split; [eapply Forall_impl; [exact Hasked|]; intros state; apply asked_app|]. split.
      * intros row Hrow%quiet_app; [|done]. rewrite Hi. specialize (Hids row Hrow).
        by rewrite <-(Hrest Hrem) in Hids.
      * by apply count_none.
  - done.
  - constructor.
  - done.
  - by intros Hf.
  - exists []. rewrite app_nil_r. split; [done|]. intros request rows H. by apply not_elem_of_nil in H.
Qed.
End admission_proofs.

(** An admission recovers every run at most once and no more runs than its limit, each under
    the protocol of a recovery; its counts add up; an entry that does not say failed says how
    the store then had the run.  What is left for later is told, with the reason: when
    nothing is, the store gave every run of every unfinished state whose lease was over, and
    each of them was recovered without failure. *)
Theorem recoverExpiredTasks_ok number_text localeCompare sha256 not_iterable this strategy_of request
    t result :
  trace (recoverExpiredWorkspaceTasks number_text localeCompare sha256 not_iterable this request) t
    (Ok result) →
  Forall (possible strategy_of) t →
  ∃ maxRuns, (1 ≤ maxRuns ≤ 100)%Z ∧
    num_integer (default (num_of_Z 16) (ar_maxRuns request)) = Some maxRuns ∧
    admission_ok number_text localeCompare sha256 not_iterable this
      (default (tt_defaultWorkspaceId this) (ar_workspaceId request)) maxRuns t result.
Proof.
  intros Htrace Hp.
  refine (collect_trace (possible strategy_of) _ (fun r t => match r with Ok result => _ | Throw _ => True end)
    t (Ok result) _ Htrace Hp).
  unfold recoverExpiredWorkspaceTasks. wp_rule. wp_rule.
  destruct (boundedInteger _ 1 MAX_RUNS _ _) as [maxRuns|e] eqn:Hmax; [|done].
  wp_rule. wp_rule. destruct (boundedInteger _ 1 MAX_BUDGET_MS _ _) as [budgetMs|e]; [|done].
  wp_rule. apply collect_await. intros [startedAt|e] _; [|done].
  unfold boundedInteger in Hmax. destruct (num_integer _) as [z|] eqn:Hz; [|done].
  case_decide as Hbounds; [|done]. injection Hmax as <-.
  eapply wp_mono; [|apply recover_found_wp; [lia|]].
  - intros [result'|e] t' Hok; [|done]. by exists z.
  - intros row (listing & rows & Hin%list_elem_of_singleton & _). done.
Qed.

(** * Examples *)

Definition sample_admission : tprog WorkspaceTaskRecoveryAdmissionResult :=
  recoverExpiredWorkspaceTasks parts_text js_order sample_sha [] sample_task_runtime
    {| ar_workspaceId := None; ar_maxRuns := None; ar_budgetMs := None |}.

Definition sample_result : WorkspaceTaskRecoveryAdmissionResult := {|
  ad_attempted := 1; ad_released := 1; ad_attention := 0; ad_skipped := 0; ad_failed := 0;
  ad_remaining := false;
  ad_entries := [{| ae_runId := js "wtsk_1"; ae_previousState := TaskProposed;
    ae_outcome := AdmissionReleased |}];
  ad_diagnostics := [] |}.

Lemma sample_admission_run :
  (run sample_recovery_env sample_admission TaskProposed).2 = Ok sample_result.
Proof. vm_compute. reflexivity. Qed.

Lemma recoverExpiredTasks_ok_witness :
  (run sample_recovery_env sample_admission TaskProposed).2 = Ok sample_result ∧
  ∃ maxRuns, (1 ≤ maxRuns ≤ 100)%Z ∧ num_integer (num_of_Z 16) = Some maxRuns ∧
    admission_ok parts_text js_order sample_sha [] sample_task_runtime DEFAULT_WORKSPACE_ID maxRuns
      (run sample_recovery_env sample_admission TaskProposed).1 sample_result.
Proof.
  split; [exact sample_admission_run|].
  apply (recoverExpiredTasks_ok parts_text js_order sample_sha [] sample_task_runtime
    (fun _ => StrategyGitWorktree) {| ar_workspaceId := None; ar_maxRuns := None; ar_budgetMs := None |}).
  - rewrite <-sample_admission_run. exact (run_trace sample_recovery_env sample_admission TaskProposed).
  - apply run_forall. apply sample_recovery_possible.
Defined.
