(* ===== verification/TaskLease.v ===== *)
(** The parts of a task that run beside it ([packages/workspace/src/tasks/renewal.ts],
    [execution.ts]): the renewal of its lease, which lives on the event loop, the guard of the
    processes that its handler starts, and the signals that are combined into one. *)
From S2P Require Import Prelude WorkspaceTask.

(** * The renewal of the lease ([WorkspaceTaskLeaseRenewal]) *)

(** [rn_timer]: a timeout is pending; [rn_renewing]: a call of the store is awaited;
    [rn_failure]: the error that was stored, unless it is undefined. *)
Record renewal := {
  rn_timer : bool;
  rn_renewing : bool;
  rn_failure : option task_thrown;
  rn_stopped : bool;
  rn_aborted : bool;
}.

Definition new_renewal : renewal := {|
  rn_timer := false; rn_renewing := false; rn_failure := None; rn_stopped := false;
  rn_aborted := false |}.

(** The delay of the timeout, for a lease of whole milliseconds. *)
Definition renewal_delay (leaseMs : Z) : Z := Z.max 10 (leaseMs / 3).

Definition schedule (r : renewal) : renewal :=
  if rn_stopped r || bool_decide (rn_failure r ≠ None) then r
  else {| rn_timer := true; rn_renewing := rn_renewing r; rn_failure := rn_failure r;
          rn_stopped := rn_stopped r; rn_aborted := rn_aborted r |}.

(** The callback of the timeout starts a renewal, *)
Definition fire (r : renewal) : renewal := {|
  rn_timer := false; rn_renewing := true; rn_failure := rn_failure r;
  rn_stopped := rn_stopped r; rn_aborted := rn_aborted r |}.

(** which the store confirms *)
Definition renewed (r : renewal) : renewal := schedule {|
  rn_timer := rn_timer r; rn_renewing := false; rn_failure := rn_failure r;
  rn_stopped := rn_stopped r; rn_aborted := rn_aborted r |}.

(** or refuses. *)
Definition refused (error : task_thrown) (r : renewal) : renewal := {|
  rn_timer := false; rn_renewing := false;
  rn_failure := match error with UndefinedThrown => None | _ => Some error end;
  rn_stopped := rn_stopped r; rn_aborted := true |}.

(** [stop], up to its wait for the renewal under way. *)
Definition stop (r : renewal) : renewal := {|
  rn_timer := false; rn_renewing := rn_renewing r; rn_failure := rn_failure r;
  rn_stopped := true; rn_aborted := rn_aborted r |}.

Definition assertHealthy (r : renewal) : result task_thrown unit :=
  match rn_failure r with Some error => Throw error | None => Ok tt end.

(** What may happen to a renewal that was started. *)
Inductive renewal_step : renewal → renewal → Prop :=
| step_fire r : rn_timer r = true → renewal_step r (fire r)
| step_renewed r : rn_renewing r = true → renewal_step r (renewed r)
| step_refused error r : rn_renewing r = true → renewal_step r (refused error r)
| step_stop r : renewal_step r (stop r).

Record renewal_ok (r : renewal) : Prop := {
  rok_once : rn_timer r && rn_renewing r = false;
  rok_stopped : rn_stopped r = true → rn_timer r = false;
  rok_aborted : rn_aborted r = true → rn_timer r = false ∧ rn_renewing r = false;
  rok_failure : rn_failure r ≠ None → rn_aborted r = true;
  rok_alive : rn_stopped r = true ∨ rn_aborted r = true ∨ rn_timer r = true ∨ rn_renewing r = true;
}.

Lemma schedule_ok r :
  rn_timer r = false → rn_renewing r = false → (rn_failure r ≠ None → rn_aborted r = true) →
  rn_aborted r = false → renewal_ok (schedule r).
Proof.
  destruct r as [timer renewing failure stopped aborted]. unfold schedule. simpl. intros -> -> Hf ->.
  destruct failure as [e|]; [by discriminate Hf|]. destruct stopped; split; simpl; auto; by intros [].
Qed.

Lemma renewal_step_ok r r' : renewal_ok r → renewal_step r r' → renewal_ok r'.
Proof.
  intros [Ho Hs Ha Hf Hl] Hstep.
  destruct Hstep as [r H|r H|error r H|r]; destruct r as [timer renewing failure stopped aborted];
    simpl in *; subst.
  - destruct stopped; [by discriminate Hs|]. destruct aborted; [by destruct Ha|].
    split; simpl; auto.
  - rewrite andb_true_r in Ho. apply schedule_ok; simpl; [done|done|done|].
    destruct aborted; [by destruct Ha|done].
  - split; simpl; auto.
  - destruct aborted; split; simpl; intuition.
Qed.

(** While it is neither stopped nor refused, the lease has one timeout pending or one renewal
    under way, and never both; after a stop no renewal begins; and the task's signal is
    aborted when the store has refused one. *)
Theorem renewal_invariant r :
  rtc renewal_step (schedule new_renewal) r →
  renewal_ok r ∧ (rn_stopped r = true → ∀ r', rtc renewal_step r r' →
    rn_timer r' = false ∧ rn_stopped r' = true).
Proof.
  assert (renewal_ok (schedule new_renewal)) as Hstart by (split; simpl; auto; by intros []).
  assert (∀ r r', renewal_ok r → rtc renewal_step r r' → renewal_ok r') as Hok.
  { intros r1 r2 H. induction 1 as [|r1 r2 r3 Hs _ IH]; [done|]. eapply IH, renewal_step_ok; done. }
  intros Hr. split; [by eapply Hok|]. intros Hstopped r' Hr'.
  assert (renewal_ok r') as Hr'ok by (eapply Hok; [|exact Hr']; by eapply Hok).
  assert (rn_stopped r' = true) as Hstopped'.
  { clear -Hstopped Hr'. induction Hr' as [|r1 r2 r3 Hs _ IH]; [done|]. apply IH.
    destruct Hs; try done. unfold renewed, schedule. simpl. by case_match. }
  split; [by apply Hr'ok|done].
Qed.

(** A renewal is due at the latest after a third of the lease, for the leases that a runtime
    accepts. *)
Lemma renewal_delay_bounds leaseMs :
  (30 ≤ leaseMs ≤ 300000)%Z → (10 ≤ renewal_delay leaseMs ∧ 3 * renewal_delay leaseMs ≤ leaseMs)%Z.
Proof.
  intros H. unfold renewal_delay.
  pose proof (Z.mul_div_le leaseMs 3 ltac:(lia)). pose proof (Z.div_le_mono 30 leaseMs 3 ltac:(lia) ltac:(lia)).
  change (30 / 3)%Z with 10%Z in *. lia.
Qed.

(** * The guard of processes ([WorkspaceTaskExecutionGuard]) *)

(** How a process ends, of which the guard distinguishes a failed cleanup. *)
Inductive process_end := ProcessDone | ProcessCleanupFailed | ProcessThrew (error : task_thrown).

(** [gd_failed]: [cleanupFailure] is set; [gd_started]: the processes under way. *)
Record guard := { gd_failed : bool; gd_started : nat }.

Definition new_guard : guard := {| gd_failed := false; gd_started := 0 |}.

Definition assertCleanupProven (g : guard) : result task_thrown unit :=
  guard_throw (gd_failed g) CleanupRequiredThrown.

(** [execute] and [start], up to the call of the delegate. *)
Definition begin_process : stM guard task_thrown unit := fun g =>
  match assertCleanupProven g with
  | Ok _ => ({| gd_failed := gd_failed g; gd_started := S (gd_started g) |}, Ok tt)
  | Throw error => (g, Throw error)
  end.

(** The end of a process, and what [execute] then does. *)
Definition end_process (how : process_end) : stM guard task_thrown unit := fun g =>
  let failed := match how with
    | ProcessCleanupFailed | ProcessThrew CleanupRequiredThrown => true
    | _ => gd_failed g
    end in
  ({| gd_failed := failed; gd_started := pred (gd_started g) |},
   match how with
   | ProcessDone => Ok tt
   | ProcessCleanupFailed => Throw CleanupRequiredThrown
   | ProcessThrew error => Throw error
   end).

Inductive guard_step : guard → guard → Prop :=
| step_begin g g' : begin_process g = (g', Ok tt) → guard_step g g'
| step_end how g : 0 < gd_started g → guard_step g (end_process how g).1.

(** Once the cleanup of a process has failed, no other is started, and the guard says so for
    ever. *)
Theorem guard_latched g g' :
  gd_failed g = true → rtc guard_step g g' →
  assertCleanupProven g' = Throw CleanupRequiredThrown ∧ gd_started g' ≤ gd_started g ∧
  (begin_process g').2 = Throw CleanupRequiredThrown.
Proof.
  intros Hg Hsteps.
  assert (gd_failed g' = true ∧ gd_started g' ≤ gd_started g) as [Hf Hle].
  { induction Hsteps as [g|g1 g2 g3 Hs _ IH]; [done|]. destruct Hs as [g1 g2 Hb|how g1 Hlt].
    - unfold begin_process, assertCleanupProven, guard_throw in Hb. by rewrite Hg in Hb.
    - destruct IH as [? ?]; [by destruct how as [| |[]]|]. split; [done|]. simpl in *. lia. }
  unfold begin_process, assertCleanupProven. by rewrite Hf.
Qed.

(** * Combined signals ([combineTaskSignals])

    [sg_aborted]: each of the signals; [sg_combined]: the controller's; [sg_listening]: the
    listeners that were not removed. *)
Record signals := { sg_aborted : list bool; sg_combined : bool; sg_listening : bool }.

Definition combineTaskSignals (aborted : list bool) : signals :=
  {| sg_aborted := aborted; sg_combined := existsb id aborted; sg_listening := true |}.

(** One of the signals is aborted. *)
Definition abort_signal (i : nat) (s : signals) : signals :=
  if decide (sg_aborted s !! i = Some false)
  then {| sg_aborted := <[i := true]> (sg_aborted s);
          sg_combined := sg_combined s || sg_listening s; sg_listening := sg_listening s |}
  else s.

Definition dispose (s : signals) : signals :=
  {| sg_aborted := sg_aborted s; sg_combined := sg_combined s; sg_listening := false |}.

Definition signals_ok (s : signals) : Prop :=
  (sg_listening s = true → sg_combined s = existsb id (sg_aborted s)) ∧
  (sg_combined s = true → existsb id (sg_aborted s) = true).

Lemma existsb_insert (l : list bool) i : i < length l → existsb id (<[i := true]> l) = true.
Proof.
  intros Hi. apply existsb_exists. exists true. split; [|done].
  apply list_elem_of_In, list_elem_of_lookup. exists i. by rewrite list_lookup_insert_eq.
Qed.

Lemma abort_signal_ok i s : signals_ok s → signals_ok (abort_signal i s).
Proof.
  intros [H1 H2]. unfold abort_signal. case_decide as Hi; [|done].
  apply lookup_lt_Some in Hi. split; simpl; rewrite existsb_insert by done; [|done].
  intros Hl. rewrite Hl. by rewrite orb_true_r.
Qed.

(** While it listens, the combined signal is aborted exactly when one of the signals is. *)
Theorem combined_signal aborted (steps : list nat) :
  let s := foldl (flip abort_signal) (combineTaskSignals aborted) steps in
  sg_combined s = existsb id (sg_aborted s).
Proof.
  intros s. assert (signals_ok s ∧ sg_listening s = true) as [[H _] Hl]; [|by apply H].
  subst s. assert (signals_ok (combineTaskSignals aborted) ∧
    sg_listening (combineTaskSignals aborted) = true) as Hstart by (by split; [split|]).
  revert Hstart. generalize (combineTaskSignals aborted). induction steps as [|i steps IH]; intros s Hs; [done|].
  simpl. apply IH. destruct Hs as [Hs Hl]. split; [by apply abort_signal_ok|].
  unfold flip, abort_signal. by case_decide.
Qed.
