(* ===== verification/AgentHost.v ===== *)
(** The messages between an agent host and its clients, the guards by which each side checks
    what the other sends, and the client that runs over any transport
    ([packages/protocol/src/agent-host.ts]).

    A value that is checked is an [option app_json], [None] for [undefined]. *)
From Stdlib Require Import Floats.SpecFloat.
From S2P Require Import Prelude JsMap Json JsStr JsonText StableJson Protocol ExecutionBinding ExecutionBindingSpec.

(** * The messages *)

Definition WANEX_AGENT_HOST_PROTOCOL_VERSION : Z := 1.
Definition AGENT_HOST_CAPABILITY_SNAPSHOT_REVISION : Z := 1.
Definition AGENT_HOST_MAX_ID_LENGTH : nat := 200.
Definition AGENT_HOST_MAX_ACCESS_TOKEN_LENGTH : nat := 512.
Definition AGENT_HOST_MAX_OPERATION_LENGTH : nat := 160.
Definition AGENT_HOST_MAX_ERROR_MESSAGE_LENGTH : nat := 512.
Definition AGENT_HOST_MAX_EVENT_PAGE_SIZE : Z := 100.
Definition AGENT_HOST_MAX_FRAME_BYTES : Z := 16777216.

Inductive AgentHostDomain := DomainAssistant.

#[export] Instance AgentHostDomain_eq_dec : EqDecision AgentHostDomain.
Proof. solve_decision. Defined.

#[export, refine] Instance AgentHostDomain_enum : StringEnum AgentHostDomain := {|
  enum_values := [DomainAssistant];
  enum_name _ := "assistant"%string |}.
Proof. all: solve_enum. Defined.

Inductive AgentHostFeature :=
| CanonicalReads | OrderedEvents | EventReplay | IdempotentCommands | Cancellation | Approval
| Recovery | ResourceDelivery.

#[export] Instance AgentHostFeature_eq_dec : EqDecision AgentHostFeature.
Proof. solve_decision. Defined.

#[export, refine] Instance AgentHostFeature_enum : StringEnum AgentHostFeature := {|
  enum_values := [CanonicalReads; OrderedEvents; EventReplay; IdempotentCommands; Cancellation;
    Approval; Recovery; ResourceDelivery];
  enum_name k := match k with
    | CanonicalReads => "canonical_reads" | OrderedEvents => "ordered_events"
    | EventReplay => "event_replay" | IdempotentCommands => "idempotent_commands"
    | Cancellation => "cancellation" | Approval => "approval" | Recovery => "recovery"
    | ResourceDelivery => "resource_delivery"
    end%string |}.
Proof. all: solve_enum. Defined.

Inductive AgentHostConnectionKind := InProcess | LocalIpc | RemoteTls.

#[export] Instance AgentHostConnectionKind_eq_dec : EqDecision AgentHostConnectionKind.
Proof. solve_decision. Defined.

#[export, refine] Instance AgentHostConnectionKind_enum : StringEnum AgentHostConnectionKind := {|
  enum_values := [InProcess; LocalIpc; RemoteTls];
  enum_name k := match k with
    | InProcess => "in_process" | LocalIpc => "local_ipc" | RemoteTls => "remote_tls"
    end%string |}.
Proof. all: solve_enum. Defined.

Inductive execution_location := LocationLocal | LocationRemote | LocationManaged.

#[export] Instance execution_location_eq_dec : EqDecision execution_location.
Proof. solve_decision. Defined.

#[export, refine] Instance execution_location_enum : StringEnum execution_location := {|
  enum_values := [LocationLocal; LocationRemote; LocationManaged];
  enum_name k := match k with
    | LocationLocal => "local" | LocationRemote => "remote" | LocationManaged => "managed"
    end%string |}.
Proof. all: solve_enum. Defined.

Inductive AgentHostErrorCode :=
| MalformedRequest | UnsupportedProtocol | Unauthenticated | Unauthorized | NotFound
| IdempotencyConflict | DeadlineExceeded | ReplayGapError | HostReplaced | ResourceLimit
| ApplicationFailure | TransportFailure.

#[export] Instance AgentHostErrorCode_eq_dec : EqDecision AgentHostErrorCode.
Proof. solve_decision. Defined.

#[export, refine] Instance AgentHostErrorCode_enum : StringEnum AgentHostErrorCode := {|
  enum_values := [MalformedRequest; UnsupportedProtocol; Unauthenticated; Unauthorized; NotFound;
    IdempotencyConflict; DeadlineExceeded; ReplayGapError; HostReplaced; ResourceLimit;
    ApplicationFailure; TransportFailure];
  enum_name k := match k with
    | MalformedRequest => "malformed_request" | UnsupportedProtocol => "unsupported_protocol"
    | Unauthenticated => "unauthenticated" | Unauthorized => "unauthorized"
    | NotFound => "not_found" | IdempotencyConflict => "idempotency_conflict"
    | DeadlineExceeded => "deadline_exceeded" | ReplayGapError => "replay_gap"
    | HostReplaced => "host_replaced" | ResourceLimit => "resource_limit"
    | ApplicationFailure => "application_failure" | TransportFailure => "transport_failure"
    end%string |}.
Proof. all: solve_enum. Defined.

Inductive operation_kind := OperationCommand | OperationRead.

#[export] Instance operation_kind_eq_dec : EqDecision operation_kind.
Proof. solve_decision. Defined.

#[export, refine] Instance operation_kind_enum : StringEnum operation_kind := {|
  enum_values := [OperationCommand; OperationRead];
  enum_name k := match k with OperationCommand => "command" | OperationRead => "read" end%string |}.
Proof. all: solve_enum. Defined.

Inductive operation_outcome := OutcomeAccepted | OutcomeCompleted | OutcomeFailed | OutcomeSuspended.

#[export] Instance operation_outcome_eq_dec : EqDecision operation_outcome.
Proof. solve_decision. Defined.

#[export, refine] Instance operation_outcome_enum : StringEnum operation_outcome := {|
  enum_values := [OutcomeAccepted; OutcomeCompleted; OutcomeFailed; OutcomeSuspended];
  enum_name k := match k with
    | OutcomeAccepted => "accepted" | OutcomeCompleted => "completed" | OutcomeFailed => "failed"
    | OutcomeSuspended => "suspended"
    end%string |}.
Proof. all: solve_enum. Defined.

Inductive replay_outcome := OutcomeReplayed | OutcomeGap.

#[export] Instance replay_outcome_eq_dec : EqDecision replay_outcome.
Proof. solve_decision. Defined.

#[export, refine] Instance replay_outcome_enum : StringEnum replay_outcome := {|
  enum_values := [OutcomeReplayed; OutcomeGap];
  enum_name k := match k with OutcomeReplayed => "replayed" | OutcomeGap => "gap" end%string |}.
Proof. all: solve_enum. Defined.

Inductive gap_reason := CursorBeforeWindow | GapStreamReplaced.

#[export] Instance gap_reason_eq_dec : EqDecision gap_reason.
Proof. solve_decision. Defined.

#[export, refine] Instance gap_reason_enum : StringEnum gap_reason := {|
  enum_values := [CursorBeforeWindow; GapStreamReplaced];
  enum_name k := match k with
    | CursorBeforeWindow => "cursor_before_window" | GapStreamReplaced => "stream_replaced"
    end%string |}.
Proof. all: solve_enum. Defined.

Record AgentHostDescriptor := {
  hd_hostId : jstr;
  hd_instanceId : jstr;
  hd_connectionKind : AgentHostConnectionKind;
  hd_executionLocation : execution_location;
}.

(** The revision is 1 and [eventReplay] is [bounded]. *)
Record AgentHostCapabilitySnapshot := {
  ac_domains : list AgentHostDomain;
  ac_features : list AgentHostFeature;
  ac_maxFrameBytes : Z;
  ac_maxEventPageSize : Z;
}.

(** The protocol version is 1, here and in the response. *)
Record AgentHostHandshakeRequest := {
  hq_clientId : jstr;
  hq_accessToken : jstr;
  hq_requestedDomains : list AgentHostDomain;
}.

Record AgentHostHandshakeResponse := {
  hp_connectionId : jstr;
  hp_host : AgentHostDescriptor;
  hp_capabilities : AgentHostCapabilitySnapshot;
}.

(** A command has an idempotency key, a read has none. *)
Inductive operation_mode := CommandMode (idempotencyKey : jstr) | ReadMode.

Record AgentHostOperationRequest := {
  oq_mode : operation_mode;
  oq_requestId : jstr;
  oq_domain : AgentHostDomain;
  oq_operation : jstr;
  oq_payload : app_json;
  oq_deadlineAt : option Z;
}.

Record AgentHostError := {
  he_code : AgentHostErrorCode;
  he_message : jstr;
  he_retryable : bool;
}.

Record AgentHostOperationResponse := {
  op_requestId : jstr;
  op_operationKind : operation_kind;
  op_outcome : operation_outcome;
  op_operationId : option jstr;
  op_result : option app_json;
  op_error : option AgentHostError;
}.

Inductive AgentHostOperationResult :=
| ResultAccepted (operationId : jstr)
| ResultSuspended (operationId : jstr)
| ResultCompleted (operationId : option jstr) (result : option app_json)
| ResultFailed (error : AgentHostError).

Record AgentHostEventReplayRequest := {
  rq_requestId : jstr;
  rq_streamId : jstr;
  rq_afterSequence : Z;
  rq_limit : Z;
}.

Record AgentHostEvent := {
  ev_streamId : jstr;
  ev_sequence : Z;
  ev_eventId : jstr;
  ev_domain : AgentHostDomain;
  ev_type : jstr;
  ev_payload : app_json;
  ev_occurredAt : Z;
}.

Record AgentHostEventPage := {
  pg_streamId : jstr;
  pg_events : list AgentHostEvent;
  pg_earliestSequence : Z;
  pg_latestSequence : Z;
  pg_hasMore : bool;
}.

Record AgentHostEventReplayResponse := {
  rr_requestId : jstr;
  rr_outcome : replay_outcome;
  rr_page : option AgentHostEventPage;
  rr_gap : option gap_reason;
}.

Record AgentHostErrorResponse := {
  er_requestId : option jstr;
  er_error : AgentHostError;
}.

Inductive AgentHostClientMessage :=
| HandshakeRequestMessage (request : AgentHostHandshakeRequest)
| OperationRequestMessage (request : AgentHostOperationRequest)
| ReplayRequestMessage (request : AgentHostEventReplayRequest).

Inductive AgentHostServerMessage :=
| HandshakeResponseMessage (response : AgentHostHandshakeResponse)
| OperationResponseMessage (response : AgentHostOperationResponse)
| EventMessage (event : AgentHostEvent)
| ReplayResponseMessage (response : AgentHostEventReplayResponse)
| ErrorMessage (response : AgentHostErrorResponse).

(** * The guards *)

Definition isRecord (value : option app_json) : option (list (jstr * app_json)) :=
  match value with Some (AppObj fields) => Some fields | _ => None end.

(** [isRecord(value) && check(value)] *)
Definition on_record (value : option app_json) (check : list (jstr * app_json) → bool) : bool :=
  match isRecord value with Some fields => check fields | None => false end.

Definition hasOnlyKeys (fields : list (jstr * app_json)) (allowedKeys : list string) : bool :=
  forallb (fun key => bool_decide (key ∈ js <$> allowedKeys)) fields.*1.

(** [value === text], of a number, of [true]. *)
Definition is_text (text : string) (value : option app_json) : bool :=
  bool_decide (value = Some (AppStr (js text))).

Definition is_number (z : Z) (value : option app_json) : bool :=
  match value with
  | Some (AppNum x) => bool_decide (num_compare x (num_of_Z z) = Some Eq)
  | _ => false
  end.

Definition is_true (value : option app_json) : bool := bool_decide (value = Some (AppBool true)).

Definition is_boolean (value : option app_json) : bool :=
  match value with Some (AppBool _) => true | _ => false end.

Definition is_undefined (value : option app_json) : bool := bool_decide (value = None).

(** One of the literals of a union. *)
Definition is_member (T : Type) `{StringEnum T} (value : option app_json) : bool :=
  existsb (fun x : T => bool_decide (value = Some (json_name x))) enum_values.

Definition token_char (c : N) : bool := is_alnum c || bool_decide (c ∈ js "._:-").

(** A text of at most [maxLength] units for which [check] holds, and not empty. *)
Definition is_checked (maxLength : nat) (check : N → bool) (s : jstr) : bool :=
  bool_decide (0 < length s) && bool_decide (length s ≤ maxLength) && forallb check s.

Definition is_string (check : jstr → bool) (value : option app_json) : bool :=
  match value with Some (AppStr s) => check s | _ => false end.

Definition token_ok : jstr → bool := is_checked AGENT_HOST_MAX_ID_LENGTH token_char.
Definition operation_ok : jstr → bool := is_checked AGENT_HOST_MAX_OPERATION_LENGTH token_char.

(** No control character. *)
Definition printable (c : N) : bool := negb (in_range 0 31 c || bool_decide (c = 127%N)).

Definition access_token_ok : jstr → bool := is_checked AGENT_HOST_MAX_ACCESS_TOKEN_LENGTH printable.

Definition isToken : option app_json → bool := is_string token_ok.
Definition isAccessToken : option app_json → bool := is_string access_token_ok.
Definition isOperation : option app_json → bool := is_string operation_ok.
Definition isBoundedText (maxLength : nat) : option app_json → bool :=
  is_string (is_checked maxLength printable).
Definition isOptionalToken (value : option app_json) : bool := is_undefined value || isToken value.

(** A safe integer for which [check] holds. *)
Definition is_safe_number (check : Z → bool) (value : option app_json) : bool :=
  match value with
  | Some (AppNum x) => match safe_integer x with Some z => check z | None => false end
  | _ => false
  end.

Definition isTimestamp : option app_json → bool := is_safe_number (fun z => bool_decide (0 ≤ z)%Z).
Definition isOptionalTimestamp (value : option app_json) : bool :=
  is_undefined value || isTimestamp value.
Definition isSequence : option app_json → bool := isTimestamp.
Definition isPositiveInteger : option app_json → bool :=
  is_safe_number (fun z => bool_decide (0 < z)%Z).

(** [isPositiveInteger(value) && value <= maximum] *)
Definition is_positive_within (maximum : Z) (value : option app_json) : bool :=
  isPositiveInteger value && is_safe_number (fun z => bool_decide (z ≤ maximum)%Z) value.

Definition isPageLimit : option app_json → bool := is_positive_within AGENT_HOST_MAX_EVENT_PAGE_SIZE.

Fixpoint is_json (value : app_json) : bool :=
  match value with
  | AppNull | AppStr _ | AppBool _ => true
  | AppNum x => is_finite x
  | AppArr values => forallb is_json values
  | AppObj fields => forallb (fun '(_, v) => is_json v) fields
  end.

Definition isJsonValue (value : option app_json) : bool :=
  match value with Some v => is_json v | None => false end.
Definition isOptionalJsonValue (value : option app_json) : bool :=
  is_undefined value || isJsonValue value.

Definition isDomain : option app_json → bool := is_member AgentHostDomain.

(** [isDomain] for each and no two the same: of one domain, one of them. *)
Definition isDomainList (value : option app_json) : bool :=
  match value with
  | Some (AppArr values) => bool_decide (length values = 1) && forallb (fun v => isDomain (Some v)) values &&
      bool_decide (NoDup values)
  | _ => false
  end.

Definition isFeature : option app_json → bool := is_member AgentHostFeature.

Definition isError (value : option app_json) : bool :=
  on_record value (fun f =>
    hasOnlyKeys f ["code"; "message"; "retryable"]%string &&
    is_member AgentHostErrorCode (prop "code" f) &&
    isBoundedText AGENT_HOST_MAX_ERROR_MESSAGE_LENGTH (prop "message" f) &&
    is_boolean (prop "retryable" f)).

Definition isOptionalError (value : option app_json) : bool := is_undefined value || isError value.

Definition isHostDescriptor (value : option app_json) : bool :=
  on_record value (fun f =>
    hasOnlyKeys f ["hostId"; "instanceId"; "connectionKind"; "executionLocation"]%string &&
    isToken (prop "hostId" f) && isToken (prop "instanceId" f) &&
    is_member AgentHostConnectionKind (prop "connectionKind" f) &&
    is_member execution_location (prop "executionLocation" f)).

(** Known features, at most 32 of them and no two the same. *)
Definition is_feature_list (value : option app_json) : bool :=
  match value with
  | Some (AppArr values) => bool_decide (length values ≤ 32) &&
      forallb (fun v => isFeature (Some v)) values && bool_decide (NoDup values)
  | _ => false
  end.

Definition isCapabilitySnapshot (value : option app_json) : bool :=
  on_record value (fun f =>
    hasOnlyKeys f ["revision"; "domains"; "features"; "maxFrameBytes"; "maxEventPageSize";
      "eventReplay"]%string &&
    is_number AGENT_HOST_CAPABILITY_SNAPSHOT_REVISION (prop "revision" f) &&
    isDomainList (prop "domains" f) && is_feature_list (prop "features" f) &&
    is_positive_within AGENT_HOST_MAX_FRAME_BYTES (prop "maxFrameBytes" f) &&
    isPageLimit (prop "maxEventPageSize" f) && is_text "bounded" (prop "eventReplay" f)).

Definition isHandshakeRequest (value : option app_json) : bool :=
  on_record value (fun f =>
    hasOnlyKeys f ["kind"; "protocolVersion"; "clientId"; "accessToken"; "requestedDomains"]%string &&
    is_text "wanex.agent-host.handshake.request" (prop "kind" f) &&
    is_number WANEX_AGENT_HOST_PROTOCOL_VERSION (prop "protocolVersion" f) &&
    isToken (prop "clientId" f) && isAccessToken (prop "accessToken" f) &&
    isDomainList (prop "requestedDomains" f)).

Definition isHandshakeResponse (value : option app_json) : bool :=
  on_record value (fun f =>
    hasOnlyKeys f ["kind"; "protocolVersion"; "connectionId"; "host"; "capabilities"]%string &&
    is_text "wanex.agent-host.handshake.response" (prop "kind" f) &&
    is_number WANEX_AGENT_HOST_PROTOCOL_VERSION (prop "protocolVersion" f) &&
    isToken (prop "connectionId" f) && isHostDescriptor (prop "host" f) &&
    isCapabilitySnapshot (prop "capabilities" f)).

Definition isOperationRequest (value : option app_json) : bool :=
  on_record value (fun f =>
    hasOnlyKeys f ["kind"; "operationKind"; "requestId"; "idempotencyKey"; "domain"; "operation";
      "payload"; "deadlineAt"]%string &&
    is_text "wanex.agent-host.operation.request" (prop "kind" f) &&
    isToken (prop "requestId" f) && isDomain (prop "domain" f) &&
    isOperation (prop "operation" f) && isJsonValue (prop "payload" f) &&
    isOptionalTimestamp (prop "deadlineAt" f) &&
    (if is_text "command" (prop "operationKind" f) then isToken (prop "idempotencyKey" f)
     else is_text "read" (prop "operationKind" f) && is_undefined (prop "idempotencyKey" f))).

Definition isOperationResponse (value : option app_json) : bool :=
  on_record value (fun f =>
    hasOnlyKeys f ["kind"; "requestId"; "operationKind"; "outcome"; "operationId"; "result";
      "error"]%string &&
    is_text "wanex.agent-host.operation.response" (prop "kind" f) &&
    isToken (prop "requestId" f) && is_member operation_kind (prop "operationKind" f) &&
    is_member operation_outcome (prop "outcome" f) && isOptionalToken (prop "operationId" f) &&
    isOptionalJsonValue (prop "result" f) && isOptionalError (prop "error" f) &&
    (if is_text "failed" (prop "outcome" f)
     then negb (is_undefined (prop "error" f)) && is_undefined (prop "result" f)
     else if is_text "accepted" (prop "outcome" f) || is_text "suspended" (prop "outcome" f)
     then is_undefined (prop "error" f) && negb (is_undefined (prop "operationId" f)) &&
       is_undefined (prop "result" f)
     else is_undefined (prop "error" f))).

Definition isEventReplayRequest (value : option app_json) : bool :=
  on_record value (fun f =>
    hasOnlyKeys f ["kind"; "requestId"; "streamId"; "afterSequence"; "limit"]%string &&
    is_text "wanex.agent-host.events.replay.request" (prop "kind" f) &&
    isToken (prop "requestId" f) && isToken (prop "streamId" f) &&
    isSequence (prop "afterSequence" f) && isPageLimit (prop "limit" f)).

Definition isAgentHostEvent (value : option app_json) : bool :=
  on_record value (fun f =>
    hasOnlyKeys f ["kind"; "streamId"; "sequence"; "eventId"; "domain"; "type"; "payload";
      "occurredAt"]%string &&
    is_text "wanex.agent-host.event" (prop "kind" f) &&
    isToken (prop "streamId" f) && isSequence (prop "sequence" f) && isToken (prop "eventId" f) &&
    isDomain (prop "domain" f) && isOperation (prop "type" f) && isJsonValue (prop "payload" f) &&
    isTimestamp (prop "occurredAt" f)).

Definition isReplayGap (value : option app_json) : bool :=
  on_record value (fun f =>
    hasOnlyKeys f ["reason"; "canonicalReadRequired"]%string &&
    is_member gap_reason (prop "reason" f) && is_true (prop "canonicalReadRequired" f)).

(** The safe integer that a field holds. *)
Definition number_field (key : string) (value : app_json) : option Z :=
  match value with
  | AppObj f => match prop key f with Some (AppNum x) => safe_integer x | _ => None end
  | _ => None
  end.

Definition text_prop (key : string) (value : app_json) : option app_json :=
  match value with AppObj f => prop key f | _ => None end.

(** The loop over the events of a page. *)
Fixpoint check_events (streamId : option app_json) (previousSequence : option Z)
    (events : list app_json) : bool :=
  match events with
  | [] => true
  | event :: events =>
      isAgentHostEvent (Some event) && bool_decide (text_prop "streamId" event = streamId) &&
      (match previousSequence with
       | None => true
       | Some previous => bool_decide (number_field "sequence" event = Some (previous + 1)%Z)
       end) &&
      check_events streamId (number_field "sequence" event) events
  end.

(** Whether the safe integers that are compared are there and satisfy [R]. *)
Definition compares (R : Z → Z → bool) (left right : option Z) : bool :=
  match left, right with Some x, Some y => R x y | _, _ => false end.

Definition isEventPage (value : option app_json) : bool :=
  on_record value (fun f =>
    hasOnlyKeys f ["streamId"; "events"; "earliestSequence"; "latestSequence"; "hasMore"]%string &&
    isToken (prop "streamId" f) &&
    match prop "events" f with
    | Some (AppArr events) =>
        let earliest := number_field "earliestSequence" (AppObj f) in
        let latest := number_field "latestSequence" (AppObj f) in
        bool_decide (Z.of_nat (length events) ≤ AGENT_HOST_MAX_EVENT_PAGE_SIZE)%Z &&
        isSequence (prop "earliestSequence" f) && isSequence (prop "latestSequence" f) &&
        is_boolean (prop "hasMore" f) && check_events (prop "streamId" f) None events &&
        match head events, last events with
        | Some first, Some final =>
            compares Z.leb earliest (number_field "sequence" first) &&
            compares Z.leb (number_field "sequence" final) latest
        | _, _ => compares (fun x y => Z.leb x (y + 1)) earliest latest
        end
    | _ => false
    end).

Definition isEventReplayResponse (value : option app_json) : bool :=
  on_record value (fun f =>
    hasOnlyKeys f ["kind"; "requestId"; "outcome"; "page"; "gap"]%string &&
    is_text "wanex.agent-host.events.replay.response" (prop "kind" f) &&
    isToken (prop "requestId" f) &&
    (if is_text "replayed" (prop "outcome" f)
     then isEventPage (prop "page" f) && is_undefined (prop "gap" f)
     else is_text "gap" (prop "outcome" f) && isReplayGap (prop "gap" f) &&
       is_undefined (prop "page" f))).

Definition isErrorResponse (value : option app_json) : bool :=
  on_record value (fun f =>
    hasOnlyKeys f ["kind"; "requestId"; "error"]%string &&
    is_text "wanex.agent-host.error" (prop "kind" f) && isOptionalToken (prop "requestId" f) &&
    isError (prop "error" f)).

Definition isAgentHostClientMessage (value : option app_json) : bool :=
  on_record value (fun f =>
    let kind := prop "kind" f in
    if is_text "wanex.agent-host.handshake.request" kind then isHandshakeRequest value
    else if is_text "wanex.agent-host.operation.request" kind then isOperationRequest value
    else if is_text "wanex.agent-host.events.replay.request" kind then isEventReplayRequest value
    else false).

Definition isAgentHostServerMessage (value : option app_json) : bool :=
  on_record value (fun f =>
    let kind := prop "kind" f in
    if is_text "wanex.agent-host.handshake.response" kind then isHandshakeResponse value
    else if is_text "wanex.agent-host.operation.response" kind then isOperationResponse value
    else if is_text "wanex.agent-host.event" kind then isAgentHostEvent value
    else if is_text "wanex.agent-host.events.replay.response" kind then isEventReplayResponse value
    else if is_text "wanex.agent-host.error" kind then isErrorResponse value
    else false).

Definition isAgentHostMessage (value : option app_json) : bool :=
  isAgentHostClientMessage value || isAgentHostServerMessage value.

(** * The messages as values *)

(** An object with the fields that are there. *)
Definition object (fields : list (string * option app_json)) : app_json :=
  AppObj (omap (fun '(key, value) => pair (js key) <$> value) fields).

Definition text (s : jstr) : option app_json := Some (AppStr s).
Definition number (z : Z) : option app_json := Some (AppNum (num_of_Z z)).
Definition literal (s : string) : option app_json := text (js s).
Definition member_value {T} `{StringEnum T} (x : T) : option app_json := Some (json_name x).

Definition names_value {T} `{StringEnum T} (l : list T) : option app_json :=
  Some (AppArr (json_name <$> l)).

Definition error_value (error : AgentHostError) : app_json := object [
  ("code", member_value (he_code error)); ("message", text (he_message error));
  ("retryable", Some (AppBool (he_retryable error)))]%string.

Definition descriptor_value (host : AgentHostDescriptor) : app_json := object [
  ("hostId", text (hd_hostId host)); ("instanceId", text (hd_instanceId host));
  ("connectionKind", member_value (hd_connectionKind host));
  ("executionLocation", member_value (hd_executionLocation host))]%string.

Definition capabilities_value (c : AgentHostCapabilitySnapshot) : app_json := object [
  ("revision", number AGENT_HOST_CAPABILITY_SNAPSHOT_REVISION);
  ("domains", names_value (ac_domains c)); ("features", names_value (ac_features c));
  ("maxFrameBytes", number (ac_maxFrameBytes c));
  ("maxEventPageSize", number (ac_maxEventPageSize c)); ("eventReplay", literal "bounded")]%string.

Definition handshake_request_value (request : AgentHostHandshakeRequest) : app_json := object [
  ("kind", literal "wanex.agent-host.handshake.request");
  ("protocolVersion", number WANEX_AGENT_HOST_PROTOCOL_VERSION);
  ("clientId", text (hq_clientId request)); ("accessToken", text (hq_accessToken request));
  ("requestedDomains", names_value (hq_requestedDomains request))]%string.

Definition handshake_response_value (response : AgentHostHandshakeResponse) : app_json := object [
  ("kind", literal "wanex.agent-host.handshake.response");
  ("protocolVersion", number WANEX_AGENT_HOST_PROTOCOL_VERSION);
  ("connectionId", text (hp_connectionId response));
  ("host", Some (descriptor_value (hp_host response)));
  ("capabilities", Some (capabilities_value (hp_capabilities response)))]%string.

Definition mode_kind (mode : operation_mode) : operation_kind :=
  match mode with CommandMode _ => OperationCommand | ReadMode => OperationRead end.
Definition mode_key (mode : operation_mode) : option jstr :=
  match mode with CommandMode key => Some key | ReadMode => None end.

Definition operation_request_value (request : AgentHostOperationRequest) : app_json := object [
  ("kind", literal "wanex.agent-host.operation.request");
  ("operationKind", member_value (mode_kind (oq_mode request)));
  ("requestId", text (oq_requestId request));
  ("idempotencyKey", mode_key (oq_mode request) ≫= text);
  ("domain", member_value (oq_domain request)); ("operation", text (oq_operation request));
  ("payload", Some (oq_payload request)); ("deadlineAt", oq_deadlineAt request ≫= number)]%string.

Definition operation_response_value (response : AgentHostOperationResponse) : app_json := object [
  ("kind", literal "wanex.agent-host.operation.response");
  ("requestId", text (op_requestId response));
  ("operationKind", member_value (op_operationKind response));
  ("outcome", member_value (op_outcome response));
  ("operationId", op_operationId response ≫= text);
  ("result", op_result response); ("error", error_value <$> op_error response)]%string.

Definition replay_request_value (request : AgentHostEventReplayRequest) : app_json := object [
  ("kind", literal "wanex.agent-host.events.replay.request");
  ("requestId", text (rq_requestId request)); ("streamId", text (rq_streamId request));
  ("afterSequence", number (rq_afterSequence request)); ("limit", number (rq_limit request))]%string.

Definition event_value (event : AgentHostEvent) : app_json := object [
  ("kind", literal "wanex.agent-host.event"); ("streamId", text (ev_streamId event));
  ("sequence", number (ev_sequence event)); ("eventId", text (ev_eventId event));
  ("domain", member_value (ev_domain event)); ("type", text (ev_type event));
  ("payload", Some (ev_payload event)); ("occurredAt", number (ev_occurredAt event))]%string.

Definition page_value (page : AgentHostEventPage) : app_json := object [
  ("streamId", text (pg_streamId page)); ("events", Some (AppArr (event_value <$> pg_events page)));
  ("earliestSequence", number (pg_earliestSequence page));
  ("latestSequence", number (pg_latestSequence page));
  ("hasMore", Some (AppBool (pg_hasMore page)))]%string.

Definition gap_value (reason : gap_reason) : app_json := object [
  ("reason", member_value reason); ("canonicalReadRequired", Some (AppBool true))]%string.

Definition replay_response_value (response : AgentHostEventReplayResponse) : app_json := object [
  ("kind", literal "wanex.agent-host.events.replay.response");
  ("requestId", text (rr_requestId response)); ("outcome", member_value (rr_outcome response));
  ("page", page_value <$> rr_page response); ("gap", gap_value <$> rr_gap response)]%string.

Definition error_response_value (response : AgentHostErrorResponse) : app_json := object [
  ("kind", literal "wanex.agent-host.error"); ("requestId", er_requestId response ≫= text);
  ("error", Some (error_value (er_error response)))]%string.

Definition client_message_value (message : AgentHostClientMessage) : app_json :=
  match message with
  | HandshakeRequestMessage request => handshake_request_value request
  | OperationRequestMessage request => operation_request_value request
  | ReplayRequestMessage request => replay_request_value request
  end.

Definition server_message_value (message : AgentHostServerMessage) : app_json :=
  match message with
  | HandshakeResponseMessage response => handshake_response_value response
  | OperationResponseMessage response => operation_response_value response
  | EventMessage event => event_value event
  | ReplayResponseMessage response => replay_response_value response
  | ErrorMessage response => error_response_value response
  end.

(** * What is well-formed *)

Definition safe (z : Z) : Prop := (Z.abs z ≤ MAX_SAFE_INTEGER)%Z.
Definition sequence_ok (z : Z) : Prop := (0 ≤ z)%Z ∧ safe z.
Definition page_limit_ok (z : Z) : Prop := (0 < z ≤ AGENT_HOST_MAX_EVENT_PAGE_SIZE)%Z.

Definition error_message_ok (s : jstr) : Prop :=
  is_checked AGENT_HOST_MAX_ERROR_MESSAGE_LENGTH printable s = true.

Definition error_ok (error : AgentHostError) : Prop := error_message_ok (he_message error).

Definition descriptor_ok (host : AgentHostDescriptor) : Prop :=
  token_ok (hd_hostId host) = true ∧ token_ok (hd_instanceId host) = true.

Record capabilities_ok (c : AgentHostCapabilitySnapshot) : Prop := {
  cok_domains : length (ac_domains c) = 1;
  cok_features : NoDup (ac_features c);
  cok_frame : (0 < ac_maxFrameBytes c ≤ AGENT_HOST_MAX_FRAME_BYTES)%Z;
  cok_page : page_limit_ok (ac_maxEventPageSize c);
}.

Definition handshake_request_ok (request : AgentHostHandshakeRequest) : Prop :=
  token_ok (hq_clientId request) = true ∧ access_token_ok (hq_accessToken request) = true ∧
  length (hq_requestedDomains request) = 1.

Definition handshake_response_ok (response : AgentHostHandshakeResponse) : Prop :=
  token_ok (hp_connectionId response) = true ∧ descriptor_ok (hp_host response) ∧
  capabilities_ok (hp_capabilities response).

Record operation_request_ok (request : AgentHostOperationRequest) : Prop := {
  oqk_id : token_ok (oq_requestId request) = true;
  oqk_operation : operation_ok (oq_operation request) = true;
  oqk_payload : json_ok (oq_payload request);
  oqk_deadline : ∀ z, oq_deadlineAt request = Some z → sequence_ok z;
  oqk_key : ∀ key, mode_key (oq_mode request) = Some key → token_ok key = true;
}.

(** A failed operation has an error and no result, one that goes on has an identifier, and a
    completed one has no error. *)
Definition response_fits (response : AgentHostOperationResponse) : Prop :=
  match op_outcome response with
  | OutcomeFailed => op_error response ≠ None ∧ op_result response = None
  | OutcomeAccepted | OutcomeSuspended =>
      op_error response = None ∧ op_operationId response ≠ None ∧ op_result response = None
  | OutcomeCompleted => op_error response = None
  end.

Record operation_response_ok (response : AgentHostOperationResponse) : Prop := {
  opk_id : token_ok (op_requestId response) = true;
  opk_operationId : ∀ id, op_operationId response = Some id → token_ok id = true;
  opk_result : ∀ v, op_result response = Some v → json_ok v;
  opk_error : ∀ error, op_error response = Some error → error_ok error;
  opk_fits : response_fits response;
}.

Definition replay_request_ok (request : AgentHostEventReplayRequest) : Prop :=
  token_ok (rq_requestId request) = true ∧ token_ok (rq_streamId request) = true ∧
  sequence_ok (rq_afterSequence request) ∧ page_limit_ok (rq_limit request).

Record event_ok (event : AgentHostEvent) : Prop := {
  evk_stream : token_ok (ev_streamId event) = true;
  evk_sequence : sequence_ok (ev_sequence event);
  evk_id : token_ok (ev_eventId event) = true;
  evk_type : operation_ok (ev_type event) = true;
  evk_payload : json_ok (ev_payload event);
  evk_occurred : sequence_ok (ev_occurredAt event);
}.

(** Every event has the number after that of the one before, the first the number after
    [previous] where there is one. *)
Fixpoint consecutive (previous : option Z) (events : list AgentHostEvent) : Prop :=
  match events with
  | [] => True
  | event :: events =>
      (∀ z, previous = Some z → ev_sequence event = (z + 1)%Z) ∧
      consecutive (Some (ev_sequence event)) events
  end.

(** The events of a page are of its stream, follow each other without a gap, and lie in its
    window. *)
Record page_ok (page : AgentHostEventPage) : Prop := {
  pok_stream : token_ok (pg_streamId page) = true;
  pok_size : (Z.of_nat (length (pg_events page)) ≤ AGENT_HOST_MAX_EVENT_PAGE_SIZE)%Z;
  pok_events : Forall event_ok (pg_events page);
  pok_streams : Forall (fun event => ev_streamId event = pg_streamId page) (pg_events page);
  pok_earliest : sequence_ok (pg_earliestSequence page);
  pok_latest : sequence_ok (pg_latestSequence page);
  pok_consecutive : consecutive None (pg_events page);
  pok_first : ∀ event, head (pg_events page) = Some event →
    (pg_earliestSequence page ≤ ev_sequence event)%Z;
  pok_last : ∀ event, last (pg_events page) = Some event →
    (ev_sequence event ≤ pg_latestSequence page)%Z;
  pok_empty : pg_events page = [] → (pg_earliestSequence page ≤ pg_latestSequence page + 1)%Z;
}.

Definition replay_response_ok (response : AgentHostEventReplayResponse) : Prop :=
  token_ok (rr_requestId response) = true ∧
  match rr_outcome response with
  | OutcomeReplayed => (∃ page, rr_page response = Some page ∧ page_ok page) ∧ rr_gap response = None
  | OutcomeGap => rr_gap response ≠ None ∧ rr_page response = None
  end.

Definition error_response_ok (response : AgentHostErrorResponse) : Prop :=
  (∀ id, er_requestId response = Some id → token_ok id = true) ∧ error_ok (er_error response).

Definition client_message_ok (message : AgentHostClientMessage) : Prop :=
  match message with
  | HandshakeRequestMessage request => handshake_request_ok request
  | OperationRequestMessage request => operation_request_ok request
  | ReplayRequestMessage request => replay_request_ok request
  end.

Definition server_message_ok (message : AgentHostServerMessage) : Prop :=
  match message with
  | HandshakeResponseMessage response => handshake_response_ok response
  | OperationResponseMessage response => operation_response_ok response
  | EventMessage event => event_ok event
  | ReplayResponseMessage response => replay_response_ok response
  | ErrorMessage response => error_response_ok response
  end.

(** * What the guards accept *)

(** Both undefined, or the same value up to the order of fields. *)
Definition opt_same : option app_json → option app_json → Prop := option_Forall2 same_json.

(** A guard accepts exactly the values that encode what is well-formed. *)
Class Guards {T : Type} (guard : option app_json → bool) (ok : T → Prop) (value : T → option app_json) :=
  guards : ∀ o, ok_document o → guard o = true ↔ ∃ x, ok x ∧ opt_same o (value x).

Lemma opt_same_Some o w : opt_same o (Some w) ↔ ∃ v, o = Some v ∧ same_json v w.
Proof. split; [inversion 1; subst; eauto|]. intros (v & -> & H). by constructor. Qed.

Lemma opt_same_None o : opt_same o None ↔ o = None.
Proof. split; [by inversion 1|]. intros ->. constructor. Qed.

Lemma opt_same_text o s : opt_same o (text s) ↔ o = text s.
Proof.
  unfold text. rewrite opt_same_Some. setoid_rewrite same_str. split; [by intros (v & -> & ->)|eauto].
Qed.

(** The fields of an object that are there. *)
Definition present (fields : list (string * option app_json)) : list (jstr * app_json) :=
  omap (fun '(key, value) => pair (js key) <$> value) fields.

Lemma present_elem k w fields :
  (k, w) ∈ present fields ↔ ∃ key, k = js key ∧ (key, Some w) ∈ fields.
Proof.
  unfold present. rewrite list_elem_of_omap. split.
  - intros ([key [v|]] & Hin & E); simplify_eq/=. eauto.
  - intros (key & -> & Hin). by exists (key, Some w).
Qed.

Lemma present_NoDup fields : NoDup fields.*1 → NoDup (present fields).*1.
Proof.
  induction fields as [|[key [v|]] fields IH]; simpl; [constructor|..]; rewrite NoDup_cons; intros [Hn Hnd];
    [|by apply IH].
  apply NoDup_cons. split; [|by apply IH]. intros ([k w] & E & Hin)%list_elem_of_fmap.
  simpl in E. apply present_elem in Hin as (key' & -> & Hin). apply js_inj in E; subst key'. apply Hn.
  apply list_elem_of_fmap. by exists (key, Some w).
Qed.

(** A value is an object with the given fields exactly when it has no other field and each of
    them is the same. *)
Lemma same_object fs fields : json_ok (AppObj fs) → NoDup fields.*1 →
  same_json (AppObj fs) (object fields) ↔
  hasOnlyKeys fs fields.*1 = true ∧ Forall (fun '(key, value) => opt_same (prop key fs) value) fields.
Proof.
  intros Hok%json_ok_NoDup Hnd. unfold object. fold (present fields).
  rewrite same_obj_fields by auto using present_NoDup.
  unfold hasOnlyKeys. rewrite forallb_forall, Forall_forall. split.
  - intros [Hp Hf]. split.
    + intros k Hk. apply bool_decide_eq_true. apply list_elem_of_In in Hk. rewrite Hp in Hk.
      apply list_elem_of_fmap in Hk as ([k' w] & -> & Hin). apply present_elem in Hin as (key & -> & Hin).
      apply list_elem_of_fmap. exists key. split; [done|]. apply list_elem_of_fmap. by exists (key, Some w).
    + intros [key [w|]] Hin; unfold prop.
      * apply opt_same_Some. apply Hf, present_elem. eauto.
      * apply opt_same_None, jget_None. rewrite Hp. intros ([k w] & E & Hw)%list_elem_of_fmap.
        simpl in E. apply present_elem in Hw as (key' & -> & Hw). apply js_inj in E; subst key'.
        apply elem_of_jget in Hin, Hw; [congruence|done..].
  - intros [Hk Hf]. split.
    + apply NoDup_Permutation; [done|by apply present_NoDup|]. intros k. split.
      * intros Hin. pose proof Hin as Hk'. apply list_elem_of_In, Hk, bool_decide_eq_true in Hk'.
        apply list_elem_of_fmap in Hk' as (key & -> & ([key' o] & -> & Ho)%list_elem_of_fmap).
        apply jget_is_Some in Hin as [v Hv]. pose proof (Hf _ Ho) as Hs. simpl in *. unfold prop in Hs.
        rewrite Hv in Hs. destruct o as [w|]; [|by inversion Hs]. apply list_elem_of_fmap.
        exists (js key', w). split; [done|]. apply present_elem. eauto.
      * intros ([k' w] & -> & Hin)%list_elem_of_fmap. apply present_elem in Hin as (key & -> & Hin).
        pose proof (Hf _ Hin) as Hs. simpl in *. apply opt_same_Some in Hs as (v & Hv & _).
        apply jget_is_Some. by exists v.
    + intros k w Hin. apply present_elem in Hin as (key & -> & Hin).
      pose proof (Hf _ Hin) as Hs. by apply opt_same_Some in Hs.
Qed.

(** ** Values that are no objects *)

#[export] Instance text_guard (check : jstr → bool) :
  Guards (is_string check) (fun s => check s = true) text.
Proof.
  intros o _. setoid_rewrite opt_same_text. split.
  - destruct o as [[| | |s| |]|]; try done. simpl. eauto.
  - by intros (s & Hs & ->).
Qed.

#[export] Instance literal_guard s : Guards (is_text s) (fun _ : () => True) (fun _ => literal s).
Proof.
  intros o _. unfold literal. setoid_rewrite opt_same_text. unfold is_text. rewrite bool_decide_eq_true.
  split; [by exists ()|by intros (_ & _ & ->)].
Qed.

Lemma opt_same_number o z : opt_same o (number z) ↔ ∃ x, o = Some (AppNum x) ∧ num_integer x = Some z.
Proof.
  unfold number. rewrite opt_same_Some. setoid_rewrite same_num. setoid_rewrite num_integer_iff.
  split; [intros (v & -> & x & -> & H)|intros (x & -> & H)]; eauto.
Qed.

#[export] Instance number_guard z : Guards (is_number z) (fun _ : () => True) (fun _ => number z).
Proof.
  intros o _. setoid_rewrite opt_same_number. setoid_rewrite num_integer_iff. split.
  - destruct o as [[| |x| | |]|]; try done. simpl. rewrite bool_decide_eq_true. exists (). eauto.
  - intros (_ & _ & x & -> & H). simpl. by apply bool_decide_eq_true.
Qed.

Lemma safe_integer_iff x z : safe_integer x = Some z ↔ num_integer x = Some z ∧ safe z.
Proof.
  unfold safe_integer, is_safe, safe. destruct (num_integer x) as [z'|]; simpl; [|naive_solver].
  case_bool_decide; naive_solver.
Qed.

#[export] Instance safe_number_guard (check : Z → bool) :
  Guards (is_safe_number check) (fun z => safe z ∧ check z = true) number.
Proof.
  intros o _. setoid_rewrite opt_same_number. split.
  - destruct o as [[| |x| | |]|]; try done. simpl. destruct (safe_integer x) as [z|] eqn:Hz; [|done].
    apply safe_integer_iff in Hz as [Hz Hs]. intros Hc. exists z. eauto.
  - intros (z & [Hs Hc] & x & -> & Hx). simpl. by rewrite (proj2 (safe_integer_iff x z)).
Qed.

#[export] Instance boolean_guard : Guards is_boolean (fun _ : bool => True) (fun b => Some (AppBool b)).
Proof.
  intros o _. setoid_rewrite opt_same_Some. setoid_rewrite same_bool. split.
  - destruct o as [[| b| | | |]|]; try done. eauto.
  - by intros (b & _ & v & -> & ->).
Qed.

#[export] Instance true_guard : Guards is_true (fun _ : () => True) (fun _ => Some (AppBool true)).
Proof.
  intros o _. setoid_rewrite opt_same_Some. setoid_rewrite same_bool. unfold is_true.
  rewrite bool_decide_eq_true. split; [intros ->; exists (); eauto|by intros (_ & _ & v & -> & ->)].
Qed.

#[export] Instance undefined_guard : Guards is_undefined (fun _ : () => True) (fun _ => None).
Proof.
  intros o _. setoid_rewrite opt_same_None. unfold is_undefined. rewrite bool_decide_eq_true.
  split; [by exists ()|by intros (_ & _ & ->)].
Qed.

#[export] Instance member_guard T `{StringEnum T} :
  Guards (is_member T) (fun _ : T => True) member_value.
Proof.
  intros o _. unfold member_value, json_name. setoid_rewrite opt_same_text.
  unfold is_member. rewrite existsb_exists. split.
  - intros (x & _ & Hx%bool_decide_eq_true). eauto.
  - intros (x & _ & ->). exists x. split; [apply list_elem_of_In, enum_complete|by apply bool_decide_eq_true].
Qed.

Lemma is_json_ok v : json_ok v → is_json v = true.
Proof.
  induction v as [|b|x|s|vs IH|fs IH] using app_json_nested_ind; simpl; try done.
  - intros Hok. fold (json_ok (AppArr vs)) in Hok. apply (json_ok_arr vs) in Hok.
    apply forallb_forall. intros v Hv%list_elem_of_In. rewrite Forall_forall in IH, Hok. by apply IH, Hok.
  - intros [_ Hok]%(json_ok_obj fs). apply forallb_forall. intros [k v] Hv%list_elem_of_In.
    rewrite Forall_forall in IH, Hok. by apply (IH _ Hv), (Hok _ Hv).
Qed.

#[export] Instance json_guard : Guards isJsonValue json_ok (fun v => Some v).
Proof.
  intros o Ho. setoid_rewrite opt_same_Some. split.
  - destruct o as [v|]; [|done]. intros _. exists v. split; [by apply Ho|]. exists v. split; [done|].
    by apply (same_json_refl parts_text), Ho.
  - intros (_ & _ & v & -> & _). by apply is_json_ok, Ho.
Qed.

(** A field that may be missing. *)
#[export] Instance optional_guard {T} guard (ok : T → Prop) (value : T → option app_json)
    `{!Guards guard ok value} : (∀ x, value x ≠ None) →
  Guards (fun o => is_undefined o || guard o) (fun x : option T => ∀ y, x = Some y → ok y) (fun x => x ≫= value).
Proof.
  intros Hv o Ho. rewrite orb_true_iff. rewrite (guards (guard := guard) o Ho). unfold is_undefined.
  rewrite bool_decide_eq_true. split.
  - intros [->|(x & Hx & Hs)]; [exists None; split; [done|constructor]|].
    exists (Some x). split; [by intros y [= <-]|done].
  - intros ([x|] & Hx & Hs); [right; eauto|left]. by apply opt_same_None.
Qed.

(** ** Objects *)

Lemma on_record_iff o check : on_record o check = true ↔ ∃ fs, o = Some (AppObj fs) ∧ check fs = true.
Proof. destruct o as [[| | | | |fs]|]; simpl; naive_solver. Qed.

Lemma opt_same_object o fields : ok_document o → bool_decide (NoDup fields.*1) →
  opt_same o (Some (object fields)) ↔ ∃ fs, o = Some (AppObj fs) ∧
    hasOnlyKeys fs fields.*1 = true ∧ Forall (fun '(key, value) => opt_same (prop key fs) value) fields.
Proof.
  intros Ho Hnd%bool_decide_unpack. rewrite opt_same_Some. split.
  - intros ([| | | | |fs] & -> & Hs); try done. exists fs. split; [done|].
    apply same_object in Hs; [done|by apply Ho|done].
  - intros (fs & -> & Hs). exists (AppObj fs). split; [done|].
    apply same_object; [by apply Ho|done|done].
Qed.

#[local] Hint Resolve ok_field ok_some : core.

Lemma ok_prop o fs key : o = Some (AppObj fs) → ok_document o → ok_document (prop key fs).
Proof. intros -> Ho. apply ok_field. by apply Ho. Qed.

(** Reads off what the guards of an object's fields say. *)
Ltac read_guards :=
  repeat match goal with
  | H : (_ && _) = true |- _ => apply andb_true_iff in H as [? ?]
  end;
  repeat match goal with
  | H : ?g (prop ?k ?fs) = true |- _ =>
      apply (guards (guard := g)) in H as (? & ? & ?); [|eapply ok_prop; eassumption]
  end.

(** The fields of an object that is encoded. *)
Ltac read_object H :=
  apply opt_same_object in H as (? & ? & ? & H); [|done|done];
  repeat (let Hr := fresh "Hrest" in apply Forall_cons in H as [? Hr]; rename Hr into H); clear H;
  cbn beta iota in *.

Ltac pass_guard :=
  match goal with
  | |- ?g (prop _ _) = true => apply (guards (guard := g)); [eapply ok_prop; eassumption|];
      eexists; split; [|eassumption]; first [done | by eauto]
  end.

(** Runs the guards on an object of which the fields are known. *)
Ltac run_guards :=
  apply on_record_iff; eexists; split; [eassumption|];
  repeat match goal with |- (_ && _) = true => apply andb_true_iff; split end;
  try eassumption; try pass_guard.

(** Builds an object of the fields that were read. *)
Ltac build_object :=
  apply opt_same_object; [done|done|]; eexists; split; [eassumption|]; split; [eassumption|];
  repeat (apply Forall_cons; split; [cbn beta iota; try eassumption|]); try apply Forall_nil_2.

#[export] Instance error_guard : Guards isError error_ok (fun error => Some (error_value error)).
Proof.
  intros o Ho. split.
  - intros (fs & E & H)%on_record_iff. read_guards.
    eexists (Build_AgentHostError _ _ _). split; cycle 1; [by build_object|done].
  - intros (error & Hok & Hs). read_object Hs. by run_guards.
Qed.

#[export] Instance descriptor_guard :
  Guards isHostDescriptor descriptor_ok (fun host => Some (descriptor_value host)).
Proof.
  intros o Ho. split.
  - intros (fs & E & H)%on_record_iff. read_guards.
    eexists (Build_AgentHostDescriptor _ _ _ _). split; cycle 1; [by build_object|done].
  - intros (host & [Hi Hj] & Hs). read_object Hs. by run_guards.
Qed.

(** The names of a list of literals. *)
Section names.
Context {T} `{StringEnum T}.

Lemma member_names values :
  forallb (fun v => is_member T (Some v)) values = true ↔ ∃ l : list T, values = json_name <$> l.
Proof.
  split.
  - induction values as [|v values IH]; [by exists []|]. simpl. intros [Hv Hl]%andb_true_iff.
    destruct (IH Hl) as [l ->]. unfold is_member in Hv. apply existsb_exists in Hv as (x & _ & Hx).
    apply bool_decide_eq_true in Hx as [= ->]. by exists (x :: l).
  - intros [l ->]. apply forallb_forall. intros v (x & -> & _)%list_elem_of_In%list_elem_of_fmap.
    unfold is_member. apply existsb_exists. exists x. split; [apply list_elem_of_In, enum_complete|].
    by apply bool_decide_eq_true.
Qed.

#[local] Instance json_name_inj : Inj (=) (=) (@json_name T _).
Proof. intros x y [= E]. by apply name_of_inj. Qed.

Lemma opt_same_names o (l : list T) : opt_same o (names_value l) ↔ o = names_value l.
Proof.
  unfold names_value. rewrite opt_same_Some. split.
  - intros (v & -> & Hs). apply same_arr in Hs as (vs & -> & Hs). by apply same_names in Hs as ->.
  - intros ->. eexists. split; [done|]. apply same_arr. eexists. split; [done|]. by apply same_names.
Qed.

Lemma names_guard (check : nat → bool) o :
  match o with
  | Some (AppArr values) => check (length values) &&
      forallb (fun v => is_member T (Some v)) values && bool_decide (NoDup values)
  | _ => false
  end = true ↔ ∃ l : list T, (check (length l) = true ∧ NoDup l) ∧ opt_same o (names_value l).
Proof.
  setoid_rewrite opt_same_names. split.
  - destruct o as [[| | | |values|]|]; try done.
    intros [[Hn [l ->]%member_names]%andb_true_iff Hd%bool_decide_eq_true]%andb_true_iff.
    rewrite length_fmap in Hn. exists l. split; [split; [done|]|done]. by eapply NoDup_fmap_1.
  - intros (l & [Hn Hd] & ->). simpl. rewrite length_fmap, Hn. simpl. apply andb_true_iff. split.
    + apply member_names. by exists l.
    + apply bool_decide_eq_true. by apply NoDup_fmap_2; [apply _|].
Qed.
End names.

#[export] Instance domains_guard :
  Guards isDomainList (fun l : list AgentHostDomain => length l = 1) names_value.
Proof.
  intros o _. pose proof (names_guard (T := AgentHostDomain) (fun n => bool_decide (n = 1)) o) as Hg.
  unfold isDomainList. rewrite Hg. split; intros (l & Hl & Hs); exists l; (split; [|done]).
  - by destruct Hl as [Hl%bool_decide_eq_true _].
  - split; [by apply bool_decide_eq_true|]. destruct l as [|x [|y l]]; try done. apply NoDup_singleton.
Qed.

Lemma feature_lists (l : list AgentHostFeature) : NoDup l → length l ≤ 8.
Proof.
  intros Hl. change 8 with (length (enum_values (T := AgentHostFeature))).
  apply submseteq_length, NoDup_submseteq; [done|]. intros x _. apply enum_complete.
Qed.

#[export] Instance features_guard :
  Guards is_feature_list (fun l : list AgentHostFeature => NoDup l) names_value.
Proof.
  intros o _. pose proof (names_guard (T := AgentHostFeature) (fun n => bool_decide (n ≤ 32)) o) as Hg.
  unfold is_feature_list. rewrite Hg. split; intros (l & Hl & Hs); exists l; (split; [|done]).
  - apply Hl.
  - split; [|done]. apply bool_decide_eq_true. apply feature_lists in Hl. lia.
Qed.

#[export] Instance sequence_guard : Guards isTimestamp sequence_ok number.
Proof.
  intros o Ho. unfold isTimestamp. rewrite (guards o Ho). split; intros (z & Hz & Hs); exists z;
    (split; [|done]); [|destruct Hz as [Hp Hz]; split; [done|by apply bool_decide_eq_true]].
  by destruct Hz as [Hz Hp%bool_decide_eq_true].
Qed.

#[export] Instance positive_guard maximum :
  Guards (is_positive_within maximum) (fun z => (0 < z ≤ maximum)%Z ∧ safe z) number.
Proof.
  intros o _. setoid_rewrite opt_same_number. unfold is_positive_within, isPositiveInteger, is_safe_number.
  destruct o as [[| |x| | |]|]; try (split; [done|naive_solver]).
  destruct (safe_integer x) as [z|] eqn:Hz.
  - rewrite andb_true_iff, !bool_decide_eq_true. pose proof Hz as [Hi Hs]%safe_integer_iff. split.
    + intros [Hl Hu]. exists z. naive_solver.
    + intros (z' & [Hr _] & x' & [= <-] & Hx'). assert (z' = z) as -> by congruence. lia.
  - split; [done|]. intros (z & [_ Hs] & x' & [= <-] & Hx). pose proof (safe_integer_iff x z). naive_solver.
Qed.

#[export] Instance page_limit_guard : Guards isPageLimit page_limit_ok number.
Proof.
  intros o Ho. unfold isPageLimit. rewrite (guards o Ho). split; intros (z & Hz & Hs); exists z;
    (split; [|done]); [by destruct Hz|]. split; [done|]. unfold safe, page_limit_ok in *.
  unfold AGENT_HOST_MAX_EVENT_PAGE_SIZE, MAX_SAFE_INTEGER in *. lia.
Qed.

#[export] Instance capabilities_guard :
  Guards isCapabilitySnapshot capabilities_ok (fun c => Some (capabilities_value c)).
Proof.
  intros o Ho. split.
  - intros (fs & E & H)%on_record_iff. read_guards.
    eexists (Build_AgentHostCapabilitySnapshot _ _ _ _). split; cycle 1; [by build_object|].
    split; by destruct_and?.
  - intros (c & [] & Hs). read_object Hs. run_guards.
    apply guards; [eapply ok_prop; eassumption|]. eexists; split; [|eassumption]. split; [done|].
    unfold safe, AGENT_HOST_MAX_FRAME_BYTES, MAX_SAFE_INTEGER in *. lia.
Qed.

#[export] Instance handshake_request_guard :
  Guards isHandshakeRequest handshake_request_ok (fun request => Some (handshake_request_value request)).
Proof.
  intros o Ho. split.
  - intros (fs & E & H)%on_record_iff. read_guards.
    eexists (Build_AgentHostHandshakeRequest _ _ _). split; cycle 1; [by build_object|done].
  - intros (c & (? & ? & ?) & Hs). read_object Hs. by run_guards.
Qed.

#[export] Instance handshake_response_guard :
  Guards isHandshakeResponse handshake_response_ok (fun response => Some (handshake_response_value response)).
Proof.
  intros o Ho. split.
  - intros (fs & E & H)%on_record_iff. read_guards.
    eexists (Build_AgentHostHandshakeResponse _ _ _). split; cycle 1; [by build_object|done].
  - intros (c & (? & ? & ?) & Hs). read_object Hs. by run_guards.
Qed.

#[export] Instance replay_request_guard :
  Guards isEventReplayRequest replay_request_ok (fun request => Some (replay_request_value request)).
Proof.
  intros o Ho. split.
  - intros (fs & E & H)%on_record_iff. read_guards.
    eexists (Build_AgentHostEventReplayRequest _ _ _ _). split; cycle 1; [by build_object|done].
  - intros (c & (? & ? & ? & ?) & Hs). read_object Hs. by run_guards.
Qed.

#[export] Instance event_guard : Guards isAgentHostEvent event_ok (fun event => Some (event_value event)).
Proof.
  intros o Ho. split.
  - intros (fs & E & H)%on_record_iff. read_guards.
    eexists (Build_AgentHostEvent _ _ _ _ _ _ _). split; cycle 1; [by build_object|by split].
  - intros (c & [] & Hs). read_object Hs. by run_guards.
Qed.

#[export] Instance gap_guard : Guards isReplayGap (fun _ : gap_reason => True) (fun reason => Some (gap_value reason)).
Proof.
  intros o Ho. split.
  - intros (fs & E & H)%on_record_iff. read_guards. eexists. split; [done|]. by build_object.
  - intros (c & _ & Hs). read_object Hs. by run_guards.
Qed.

#[export] Instance optional_token_guard : Guards isOptionalToken
  (fun x => ∀ id, x = Some id → token_ok id = true) (fun x => x ≫= text).
Proof. refine (optional_guard isToken _ _ _). by intros x [=]. Qed.

#[export] Instance optional_timestamp_guard : Guards isOptionalTimestamp
  (fun x => ∀ z, x = Some z → sequence_ok z) (fun x => x ≫= number).
Proof. refine (optional_guard isTimestamp _ _ _). by intros x [=]. Qed.

#[export] Instance optional_json_guard : Guards isOptionalJsonValue
  (fun x => ∀ v, x = Some v → json_ok v) (fun x => x ≫= fun v => Some v).
Proof. refine (optional_guard isJsonValue _ _ _). by intros x [=]. Qed.

#[export] Instance optional_error_guard : Guards isOptionalError
  (fun x => ∀ error, x = Some error → error_ok error) (fun x => x ≫= fun error => Some (error_value error)).
Proof. refine (optional_guard isError _ _ _). by intros x [=]. Qed.

Lemma opt_same_literal {T} `{StringEnum T} o (x : T) : opt_same o (member_value x) ↔ o = member_value x.
Proof. apply opt_same_text. Qed.

(** The kind of an operation and its key. *)
Lemma mode_iff kind key : ok_document key →
  (if is_text "command" kind then isToken key else is_text "read" kind && is_undefined key) = true ↔
  ∃ mode, (∀ k, mode_key mode = Some k → token_ok k = true) ∧
    opt_same kind (member_value (mode_kind mode)) ∧ opt_same key (mode_key mode ≫= text).
Proof.
  intros Hkey. unfold is_text, is_undefined. setoid_rewrite opt_same_literal. split.
  - case_bool_decide as Hk.
    + intros (k & Hk' & Hs)%guards; [|done]. exists (CommandMode k). split_and!; [|done..].
      by intros ? [= <-].
    + intros [->%bool_decide_eq_true ->%bool_decide_eq_true]%andb_true_iff. exists ReadMode.
      split_and!; [done|done|constructor].
  - intros ([k|] & Hok & -> & Hs); simpl in *.
    + apply guards; [done|]. exists k. eauto.
    + apply opt_same_None in Hs. by apply bool_decide_eq_true.
Qed.

#[export] Instance operation_request_guard :
  Guards isOperationRequest operation_request_ok (fun request => Some (operation_request_value request)).
Proof.
  intros o Ho. split.
  - intros (fs & E & H)%on_record_iff.
    apply andb_true_iff in H as [H (mode & Hm & ? & ?)%mode_iff]; [|eapply ok_prop; eassumption]. read_guards.
    eexists (Build_AgentHostOperationRequest mode _ _ _ _ _). split; cycle 1; [by build_object|by split].
  - intros (c & [] & Hs). read_object Hs. run_guards.
    apply mode_iff; [eapply ok_prop; eassumption|]. by exists (oq_mode c).
Qed.

Lemma undefined_map {A} (f : A → app_json) (x : option A) o :
  opt_same o (f <$> x) → is_undefined o = true ↔ x = None.
Proof.
  unfold is_undefined. rewrite bool_decide_eq_true. destruct x as [a|]; simpl; intros Hs.
  - apply opt_same_Some in Hs as (v & -> & _). by split.
  - by apply opt_same_None in Hs.
Qed.

(** The fields that an outcome asks for. *)
Lemma fits_iff response outcome operationId result error :
  outcome = member_value (op_outcome response) →
  opt_same operationId (op_operationId response ≫= text) →
  opt_same result (op_result response) → opt_same error (error_value <$> op_error response) →
  (if is_text "failed" outcome then negb (is_undefined error) && is_undefined result
   else if is_text "accepted" outcome || is_text "suspended" outcome
   then is_undefined error && negb (is_undefined operationId) && is_undefined result
   else is_undefined error) = true ↔ response_fits response.
Proof.
  intros -> Hid Hr He.
  pose proof (undefined_map _ _ _ He) as Hue.
  assert (is_undefined result = true ↔ op_result response = None) as Hur.
  { apply (undefined_map (fun v => v)). by rewrite option_fmap_id. }
  assert (is_undefined operationId = true ↔ op_operationId response = None) as Hui.
  { apply (undefined_map AppStr). by destruct (op_operationId response). }
  unfold response_fits.
  destruct (op_outcome response); simpl; rewrite ?andb_true_iff, ?negb_true_iff, <-?not_true_iff_false,
    ?Hue, ?Hur, ?Hui; tauto.
Qed.

Lemma opt_same_bind {A} (f : A → app_json) o (x : option A) :
  opt_same o (x ≫= fun a => Some (f a)) ↔ opt_same o (f <$> x).
Proof. by destruct x. Qed.

Lemma opt_same_ret o (x : option app_json) : opt_same o (x ≫= fun v => Some v) ↔ opt_same o x.
Proof. by destruct x. Qed.

#[export] Instance operation_response_guard :
  Guards isOperationResponse operation_response_ok (fun response => Some (operation_response_value response)).
Proof.
  intros o Ho. split.
  - intros (fs & E & H)%on_record_iff. apply andb_true_iff in H as [H Hfits]. read_guards.
    repeat match goal with
    | H : opt_same _ (_ ≫= fun v => Some v) |- _ => apply (proj1 (opt_same_ret _ _)) in H
    | H : opt_same _ (_ ≫= fun v => Some (error_value v)) |- _ => apply (proj1 (opt_same_bind _ _ _)) in H
    end.
    eexists (Build_AgentHostOperationResponse _ _ _ _ _ _). split; cycle 1; [by build_object|].
    split; try done. eapply (fits_iff _ _ _ _ _); [by apply opt_same_literal|eassumption..].
  - intros (c & [] & Hs). read_object Hs. run_guards.
    + apply guards; [eapply ok_prop; eassumption|]. exists (op_result c). by rewrite opt_same_ret.
    + by apply (fits_iff c); [apply opt_same_literal|..].
Qed.

(** ** Pages *)

(** The number and the stream of an event's value. *)
Lemma event_fields v event : json_ok v → event_ok event → same_json v (event_value event) →
  number_field "sequence" v = Some (ev_sequence event) ∧
  text_prop "streamId" v = text (ev_streamId event).
Proof.
  intros Hv Hev Hs. assert (opt_same (Some v) (Some (event_value event))) as Hsame by by constructor.
  pose proof (ok_some v Hv) as Hok. read_object Hsame.
 match goal with H : Some v = _ |- _ => injection H as -> end.
  simpl. match goal with H : opt_same (prop "sequence" _) _ |- _ =>
    apply opt_same_number in H as (y & -> & Hy) end.
  match goal with H : opt_same (prop "streamId" _) _ |- _ => apply opt_same_text in H as -> end.
  split; [|done]. apply safe_integer_iff. split; [done|]. apply Hev.
Qed.

Lemma check_events_iff s vs : ∀ previous, Forall json_ok vs →
  check_events (text s) previous vs = true ↔
  ∃ events, Forall2 same_json vs (event_value <$> events) ∧ Forall event_ok events ∧
    Forall (fun event => ev_streamId event = s) events ∧ consecutive previous events.
Proof.
  induction vs as [|v vs IH]; intros previous Hok.
  { split; [by exists []|done]. }
  apply Forall_cons in Hok as [Hv Hok]. simpl. rewrite !andb_true_iff. split.
  - intros [[[Hev Hs%bool_decide_eq_true] Hp] Hl]. apply guards in Hev as (event & Hev & Hsame);
      [|by apply ok_some]. apply opt_same_Some in Hsame as (v' & [= <-] & Hsame).
    destruct (event_fields v event Hv Hev Hsame) as [Hseq Hst]. rewrite Hst in Hs. injection Hs as Hs.
    rewrite Hseq in *. apply IH in Hl as (events & Hf & Hoks & Hss & Hc); [|done].
    exists (event :: events). split_and!; [by constructor..|]. split; [|done].
    intros z ->. apply bool_decide_eq_true in Hp. by injection Hp.
  - intros ([|event events] & Hf & Hoks & Hss & Hc); [by inversion Hf|].
    apply Forall2_cons in Hf as [Hsame Hf]. apply Forall_cons in Hoks as [Hev Hoks], Hss as [Hs Hss].
    destruct Hc as [Hp Hc]. destruct (event_fields v event Hv Hev Hsame) as [Hseq Hst].
    rewrite Hseq, Hst, Hs. split_and!.
    + apply guards; [by apply ok_some|]. exists event. split; [done|]. by constructor.
    + by apply bool_decide_eq_true.
    + destruct previous; [|done]. apply bool_decide_eq_true. f_equal. by apply Hp.
    + apply IH; [done|]. by exists events.
Qed.

(** The numbers of the first and of the last event lie in the window. *)
Lemma window_iff vs events earliest latest : Forall json_ok vs →
  Forall2 same_json vs (event_value <$> events) → Forall event_ok events →
  match head vs, last vs with
  | Some first, Some final =>
      compares Z.leb (Some earliest) (number_field "sequence" first) &&
      compares Z.leb (number_field "sequence" final) (Some latest)
  | _, _ => compares (fun x y => Z.leb x (y + 1)) (Some earliest) (Some latest)
  end = true ↔
  (∀ event, head events = Some event → (earliest ≤ ev_sequence event)%Z) ∧
  (∀ event, last events = Some event → (ev_sequence event ≤ latest)%Z) ∧
  (events = [] → (earliest ≤ latest + 1)%Z).
Proof.
  intros Hvs Hf Hok. destruct events as [|event events].
  { inversion Hf. subst. simpl. rewrite Z.leb_le. naive_solver. }
  destruct vs as [|v vs]; [by inversion Hf|]. 
  assert (∃ final, last (event :: events) = Some final) as [final Hfinal].
  { destruct (last (event :: events)) eqn:E; [eauto|]. by apply last_None in E. }
  assert (∃ w, last (v :: vs) = Some w ∧ json_ok w ∧ event_ok final ∧ same_json w (event_value final))
    as (w & Hw & Hokw & Hokf & Hsame).
  { rewrite last_lookup in Hfinal. pose proof (Forall2_length _ _ _ Hf) as Hlen. rewrite length_fmap in Hlen.
    pose proof Hfinal as Hin. rewrite Forall_lookup in Hok. rewrite (Forall_lookup json_ok) in Hvs. apply Hok in Hin.
    assert ((event_value <$> event :: events) !! pred (length (event :: events)) =
      Some (event_value final)) as Hl by by rewrite list_lookup_fmap, Hfinal.
    destruct (Forall2_lookup_r _ _ _ _ _ Hf Hl) as (w & Hw & Hs). exists w.
    rewrite last_lookup, Hlen. split_and!; [done|by eapply Hvs|done|done]. }
  rewrite Hw. cbn [head]. apply Forall_cons in Hvs as [Hv _], Hok as [Hev _].
  apply Forall2_cons in Hf as [Hs _].
  destruct (event_fields _ _ Hv Hev Hs) as [-> _]. destruct (event_fields _ _ Hokw Hokf Hsame) as [-> _].
  unfold compares. rewrite andb_true_iff, !Z.leb_le, Hfinal. naive_solver.
Qed.

Lemma number_field_iff fs key z : sequence_ok z →
  opt_same (prop key fs) (number z) → number_field key (AppObj fs) = Some z.
Proof.
  intros Hz (x & E & Hx)%opt_same_number. simpl. rewrite E. apply safe_integer_iff. split; [done|apply Hz].
Qed.

#[export] Instance page_guard : Guards isEventPage page_ok (fun page => Some (page_value page)).
Proof.
  intros o Ho. split.
  - intros (fs & E & H)%on_record_iff.
    apply andb_true_iff in H as [H Hevents].
    destruct (prop "events" fs) as [[| | | |vs|]|] eqn:Evs; try done.
    apply andb_true_iff in Hevents as [[Hevents Hc]%andb_true_iff Hw].
    assert (Forall json_ok vs) as Hvs.
    { assert (json_ok (AppArr vs)) as Hvs by by eapply (ok_prop o fs "events" E Ho). by apply json_ok_arr in Hvs. }
    rewrite !andb_true_iff in Hevents. destruct Hevents as [[[Hn%bool_decide_eq_true He] Hl] Hmore].
    read_guards.
    repeat match goal with
    | Hz : sequence_ok ?z, Hs : opt_same (prop ?k fs) (number ?z), Hw : context [number_field ?k _] |- _ =>
        rewrite (number_field_iff fs k z Hz Hs) in Hw
    end.
    match goal with Hs : opt_same (prop "streamId" fs) _ |- _ => pose proof Hs as Hst end.
    apply opt_same_text in Hst. rewrite Hst in Hc.
    apply check_events_iff in Hc as (events & Hf & Hoks & Hss & Hc); [|done].
    apply (window_iff vs events) in Hw as (Hfirst & Hlast & Hempty); [|done..].
    eexists (Build_AgentHostEventPage _ events _ _ _). split; cycle 1.
    + build_object. rewrite Evs. apply opt_same_Some. eexists. split; [done|]. by apply same_json_arr.
    + pose proof (Forall2_length _ _ _ Hf) as Hlen. rewrite length_fmap in Hlen. rewrite Hlen in Hn. by split.
  - intros (page & [] & Hs). read_object Hs. run_guards.
    match goal with Hv : opt_same (prop "events" _) _ |- _ =>
      apply opt_same_Some in Hv as (vs & Hv & Hsame); rewrite Hv;
      apply same_arr in Hsame as (ws & -> & Hf);
      assert (json_ok (AppArr ws)) as Hws%json_ok_arr by (eapply (ok_prop o); [| |exact Hv]; eassumption) end.
    repeat match goal with
    | Hz : sequence_ok ?z, Hs : opt_same (prop ?k ?fs) (number ?z) |- context [number_field ?k (AppObj ?fs)] =>
        rewrite (number_field_iff fs k z Hz Hs)
    end.
    pose proof (Forall2_length _ _ _ Hf) as Hlen. rewrite length_fmap in Hlen. cbn zeta.
    repeat match goal with |- (_ && _) = true => apply andb_true_iff; split end; try pass_guard.
    + apply bool_decide_eq_true. by rewrite Hlen.
    + match goal with Hs : opt_same (prop "streamId" _) _ |- _ => apply opt_same_text in Hs as -> end.
      apply check_events_iff; [done|]. by eexists.
    + by eapply window_iff.
Qed.

Lemma is_text_iff s o : is_text s o = true ↔ o = literal s.
Proof. apply bool_decide_eq_true. Qed.

#[export] Instance replay_response_guard :
  Guards isEventReplayResponse replay_response_ok (fun response => Some (replay_response_value response)).
Proof.
  intros o Ho. split.
  - intros (fs & E & H)%on_record_iff. apply andb_true_iff in H as [H Hoc].
    destruct (is_text "replayed" (prop "outcome" fs)) eqn:Hout.
    + apply is_text_iff in Hout. read_guards.
      eexists (Build_AgentHostEventReplayResponse _ OutcomeReplayed (Some _) None). split; cycle 1.
      * build_object; simpl; try eassumption. by apply opt_same_literal.
      * split; [done|]. simpl. eauto.
    + apply andb_true_iff in Hoc as [[Hgap%is_text_iff Hg]%andb_true_iff Hp]. read_guards.
      eexists (Build_AgentHostEventReplayResponse _ OutcomeGap None (Some _)). split; cycle 1.
      * build_object; simpl; try eassumption. by apply opt_same_literal.
      * done.
  - intros ([id outcome page gap] & [Hid Hok] & Hs). simpl in *. read_object Hs. simpl in *.
    match goal with Hs : opt_same (prop "outcome" _) _ |- _ => apply opt_same_literal in Hs; rename Hs into Hout end.
    run_guards. rewrite Hout. destruct outcome; simpl in *.
    + destruct Hok as [(p & -> & Hp) ->]. simpl in *. apply andb_true_iff. split; [pass_guard|].
      match goal with Hs : opt_same (prop "gap" _) _ |- _ => by apply opt_same_None in Hs as -> end.
    + destruct gap as [reason|]; [|by destruct Hok]. destruct Hok as [_ ->]. simpl in *.
      apply andb_true_iff. split; [pass_guard|].
      match goal with Hs : opt_same (prop "page" _) _ |- _ => by apply opt_same_None in Hs as -> end.
Qed.

#[export] Instance error_response_guard :
  Guards isErrorResponse error_response_ok (fun response => Some (error_response_value response)).
Proof.
  intros o Ho. split.
  - intros (fs & E & H)%on_record_iff. read_guards.
    eexists (Build_AgentHostErrorResponse _ _). split; cycle 1; [by build_object|done].
  - intros (c & [] & Hs). read_object Hs. by run_guards.
Qed.

(** ** Messages *)

(** The kind of a value that has the fields of a message. *)
Lemma kind_of o fields s : ok_document o → bool_decide (NoDup fields.*1) →
  ("kind"%string, literal s) ∈ fields → opt_same o (Some (object fields)) →
  ∃ fs, o = Some (AppObj fs) ∧ prop "kind" fs = literal s.
Proof.
  intros Ho Hnd Hin (fs & -> & _ & Hf)%opt_same_object; [|done..]. exists fs. split; [done|].
  rewrite Forall_forall in Hf. by apply (Hf _), opt_same_text in Hin.
Qed.

#[export] Instance client_message_guard :
  Guards isAgentHostClientMessage client_message_ok (fun message => Some (client_message_value message)).
Proof.
  intros o Ho. split.
  - intros (fs & E & H)%on_record_iff.
    cbn zeta in H.
    repeat match type of H with context [is_text ?s ?k] => destruct (is_text s k) end; try done;
      apply guards in H as (request & Hok & Hs); try done;
      [by exists (HandshakeRequestMessage request)|by exists (OperationRequestMessage request)|
       by exists (ReplayRequestMessage request)].
  - intros (message & Hok & Hs). apply on_record_iff.
    destruct message as [request|request|request]; simpl in *;
      pose proof Hs as Hk; eapply kind_of in Hk as (fs & E & Hk); try done; try (by left);
      exists fs; (split; [done|]); cbn zeta; rewrite Hk; simpl; apply guards; eauto.
Qed.

#[export] Instance server_message_guard :
  Guards isAgentHostServerMessage server_message_ok (fun message => Some (server_message_value message)).
Proof.
  intros o Ho. split.
  - intros (fs & E & H)%on_record_iff.
    cbn zeta in H.
    repeat match type of H with context [is_text ?s ?k] => destruct (is_text s k) end; try done;
      apply guards in H as (response & Hok & Hs); try done;
      [by exists (HandshakeResponseMessage response)|by exists (OperationResponseMessage response)|
       by exists (EventMessage response)|by exists (ReplayResponseMessage response)|
       by exists (ErrorMessage response)].
  - intros (message & Hok & Hs). apply on_record_iff.
    destruct message as [response|response|response|response|response]; simpl in *;
      pose proof Hs as Hk; eapply kind_of in Hk as (fs & E & Hk); try done; try (by left);
      exists fs; (split; [done|]); cbn zeta; rewrite Hk; simpl; apply guards; eauto.
Qed.

(** (C37) A value that came over the wire is taken for a message of a client, or of the server,
    exactly when it is the document of a well-formed message but for the order of its fields:
    of a known kind with exactly its fields, with bounded identifiers and numbers, consecutive
    events in a page, and the fields that its outcome asks for. *)
Theorem agent_host_messages_iff v : json_ok v →
  (isAgentHostClientMessage (Some v) = true ↔
    ∃ message, client_message_ok message ∧ same_json v (client_message_value message)) ∧
  (isAgentHostServerMessage (Some v) = true ↔
    ∃ message, server_message_ok message ∧ same_json v (server_message_value message)).
Proof.
  intros Hv. apply ok_some in Hv.
  split; rewrite (guards (Some v) Hv); apply exist_proper; intros message;
    by rewrite opt_same_Some; split; [intros [Hm (v' & [= <-] & Hs)]|intros [Hm Hs]; split; [|exists v]].
Qed.

Definition sample_event (sequence : Z) : AgentHostEvent := {|
  ev_streamId := js "s1"; ev_sequence := sequence; ev_eventId := js "e1"; ev_domain := DomainAssistant;
  ev_type := js "turn.started"; ev_payload := AppObj [(js "turn", AppNull)]; ev_occurredAt := 1700 |}.

Definition sample_page_response : AgentHostServerMessage := ReplayResponseMessage {|
  rr_requestId := js "r1"; rr_outcome := OutcomeReplayed; rr_gap := None;
  rr_page := Some {| pg_streamId := js "s1"; pg_events := [sample_event 4; sample_event 5];
    pg_earliestSequence := 2; pg_latestSequence := 9; pg_hasMore := true |} |}.

Lemma agent_host_messages_iff_witness :
  let v := server_message_value sample_page_response in
  json_ok v ∧ isAgentHostServerMessage (Some v) = true ∧
  ∃ message, server_message_ok message ∧ same_json v (server_message_value message).
Proof.
  assert (json_ok (server_message_value sample_page_response)) as Hv.
  { vm_compute. split_and!; try done; repeat constructor; try (apply (bool_decide_unpack _); vm_compute; exact I). }
  split_and!; [done|by vm_compute|].
  by apply (proj2 (agent_host_messages_iff (server_message_value sample_page_response) Hv)).
Defined.

(** * The client ([createAgentHostClient])

    An operation sends one message and looks at the answer of the transport.  [requestId] is what
    [createRequestId] returned. *)

Inductive AgentHostClientErrorCode := HostCode (code : AgentHostErrorCode) | InvalidResponse.

Record AgentHostClientError := {
  ce_code : AgentHostClientErrorCode;
  ce_message : jstr;
  ce_detail : option AgentHostError;
}.

Definition client_error (code : AgentHostClientErrorCode) (message : string) : AgentHostClientError := {|
  ce_code := code; ce_message := js message; ce_detail := None |}.

(** What a transport's promise gives: a rejection, or a value that is a JSON document or
    [undefined], or that is no record, like a function, a symbol or a bigint. *)
Inductive sent_value := Document (value : option app_json) | NoObject.

Definition transport_answer := result () sent_value.

(** [isAgentHostServerMessage] of any of them: no object is no record. *)
Definition isServerMessage (value : sent_value) : bool :=
  match value with Document value => isAgentHostServerMessage value | NoObject => false end.

Definition record_of (value : sent_value) : list (jstr * app_json) :=
  match value with Document value => default [] (isRecord value) | NoObject => [] end.

(** [send]: the value of a server message. *)
Definition client_send (answer : transport_answer) : result AgentHostClientError (list (jstr * app_json)) :=
  match answer with
  | Throw _ => Throw (client_error (HostCode TransportFailure) "Agent Host transport failed")
  | Ok response =>
      if isServerMessage response then Ok (record_of response)
      else Throw (client_error InvalidResponse "Agent Host response is invalid")
  end.

Definition read_code (value : option app_json) : AgentHostErrorCode :=
  default ApplicationFailure
    (snd <$> list_find (fun code => value = Some (json_name code)) (enum_values (T := AgentHostErrorCode))).

Definition read_text (value : option app_json) : jstr :=
  match value with Some (AppStr s) => s | _ => [] end.

(** [clientError], of a response whose [error] passed the guard. *)
Definition clientError (response : list (jstr * app_json)) : AgentHostClientError :=
  let f := default [] (isRecord (prop "error" response)) in
  let error := {| he_code := read_code (prop "code" f); he_message := read_text (prop "message" f);
    he_retryable := is_true (prop "retryable" f) |} in
  {| ce_code := HostCode (he_code error); ce_message := he_message error; ce_detail := Some error |}.

(** The response, if it is of the kind that is asked for and [check] holds of it. *)
Definition client_receive (kind : string) (check : list (jstr * app_json) → bool) (message : string)
    (answer : transport_answer) : result AgentHostClientError app_json :=
  response ← client_send answer;
  if is_text "wanex.agent-host.error" (prop "kind" response) then Throw (clientError response)
  else if is_text kind (prop "kind" response) && check response then Ok (AppObj response)
  else Throw (client_error InvalidResponse message).

Definition answers (requestId : jstr) (response : list (jstr * app_json)) : bool :=
  bool_decide (prop "requestId" response = text requestId).

Definition client_handshake (request : AgentHostHandshakeRequest) (answer : transport_answer)
    : AgentHostClientMessage * result AgentHostClientError app_json :=
  (HandshakeRequestMessage request,
   client_receive "wanex.agent-host.handshake.response" (fun _ => true)
     "Agent Host handshake response is invalid" answer).

(** [command] and [read] *)
Definition client_operation (requestId : jstr) (mode : operation_mode) (operation : jstr)
    (payload : app_json) (deadlineAt : option Z) (answer : transport_answer)
    : AgentHostClientMessage * result AgentHostClientError app_json :=
  (OperationRequestMessage {| oq_mode := mode; oq_requestId := requestId; oq_domain := DomainAssistant;
     oq_operation := operation; oq_payload := payload; oq_deadlineAt := deadlineAt |},
   client_receive "wanex.agent-host.operation.response" (answers requestId)
     "Agent Host operation response is invalid" answer).

Definition client_replay (requestId streamId : jstr) (afterSequence limit : Z) (answer : transport_answer)
    : AgentHostClientMessage * result AgentHostClientError app_json :=
  (ReplayRequestMessage {| rq_requestId := requestId; rq_streamId := streamId;
     rq_afterSequence := afterSequence; rq_limit := limit |},
   client_receive "wanex.agent-host.events.replay.response" (answers requestId)
     "Agent Host replay response is invalid" answer).

(** What is handed to a listener: events only. *)
Definition client_event (value : option app_json) : bool :=
  isAgentHostServerMessage value &&
  on_record value (fun f => is_text "wanex.agent-host.event" (prop "kind" f)).

(** A document is one that [JSON.parse] can give: its numbers are finite and its names distinct. *)
Definition ok_answer (answer : transport_answer) : Prop := ∀ o, answer = Ok (Document o) → ok_document o.

Lemma client_receive_Ok kind check message answer w : kind ≠ "wanex.agent-host.error"%string →
  client_receive kind check message answer = Ok w ↔
  answer = Ok (Document (Some w)) ∧ isAgentHostServerMessage (Some w) = true ∧
  ∃ fs, w = AppObj fs ∧ prop "kind" fs = literal kind ∧ check fs = true.
Proof.
  intros Hkind. unfold client_receive, client_send.
  destruct answer as [[o|]|e]; [|split; [done|by intros [[=] _]]..]. cbn [isServerMessage record_of].
  destruct (isAgentHostServerMessage o) eqn:Ho; simpl.
  - apply on_record_iff in Ho as Hr. destruct Hr as (fs & -> & _). simpl.
    destruct (is_text "wanex.agent-host.error" _) eqn:He.
    + apply is_text_iff in He. split; [done|]. intros ([= <-] & _ & fs' & [= <-] & Hk & _).
      rewrite He in Hk. unfold literal, text in Hk. injection Hk as Hk. by apply js_inj in Hk.
    + destruct (is_text kind _) eqn:Hk; simpl.
      * apply is_text_iff in Hk. destruct (check fs) eqn:Hc.
        -- split; [intros [= <-]; eauto 10|by intros ([= <-] & _)].
        -- split; [done|]. intros ([= <-] & _ & fs' & [= <-] & _ & Hc'). congruence.
      * split; [done|]. intros ([= <-] & _ & fs' & [= <-] & Hk' & _). apply is_text_iff in Hk'. congruence.
  - split; [done|]. intros ([= ->] & Ho' & _). congruence.
Qed.

(** A message of a kind passed the guard of the kind. *)
Lemma server_kind fs : let v := Some (AppObj fs) in
  isAgentHostServerMessage v = true →
  (prop "kind" fs = literal "wanex.agent-host.handshake.response" → isHandshakeResponse v = true) ∧
  (prop "kind" fs = literal "wanex.agent-host.operation.response" → isOperationResponse v = true) ∧
  (prop "kind" fs = literal "wanex.agent-host.event" → isAgentHostEvent v = true) ∧
  (prop "kind" fs = literal "wanex.agent-host.events.replay.response" → isEventReplayResponse v = true) ∧
  (prop "kind" fs = literal "wanex.agent-host.error" → isErrorResponse v = true).
Proof. intros v H. split_and!; intros Hk; revert H;
  unfold isAgentHostServerMessage, on_record, v; cbn [isRecord]; cbn zeta; by rewrite Hk. Qed.

Lemma answers_iff o fs requestId id : o = Some (AppObj fs) → opt_same (prop "requestId" fs) (text id) →
  answers requestId fs = true ↔ id = requestId.
Proof.
  intros _ Hs%opt_same_text. unfold answers. rewrite bool_decide_eq_true, Hs. split; [by intros [=]|by intros ->].
Qed.

Lemma read_code_value code : read_code (member_value code) = code.
Proof. by destruct code. Qed.

(** The error that a response reports is the error that the client throws. *)
Lemma client_receive_error kind check message v response : json_ok v →
  error_response_ok response → same_json v (error_response_value response) →
  client_receive kind check message (Ok (Document (Some v))) = Throw {|
    ce_code := HostCode (he_code (er_error response)); ce_message := he_message (er_error response);
    ce_detail := Some (er_error response) |}.
Proof.
  intros Hv Hr Hs. apply ok_some in Hv as Hok.
  assert (opt_same (Some v) (Some (error_response_value response))) as Ho by by constructor.
  unfold client_receive, client_send. cbn [isServerMessage record_of].
  rewrite (proj2 (guards (guard := isAgentHostServerMessage) (Some v) Hok))
    by (by exists (ErrorMessage response)).
  pose proof Ho as Hf. read_object Hf. simplify_eq. cbn [isRecord from_option mbind result_bind].
  rewrite (proj2 (is_text_iff _ _)) by (by apply opt_same_text). unfold clientError.
  match goal with He : opt_same (prop "error" _) _ |- _ => rename He into Herr end.
  assert (ok_document (prop "error" x)) as Hoke by by apply ok_field.
  read_object Herr.
  change (id x) with x. match goal with He : prop "error" _ = _ |- _ => rewrite He end.
  cbn [isRecord from_option id].
  repeat match goal with
  | H : opt_same (prop _ _) (member_value _) |- _ => apply opt_same_literal in H; rewrite H
  | H : opt_same (prop "message" _) (text _) |- _ => apply opt_same_text in H; rewrite H
  | H : opt_same (prop "retryable" _) _ |- _ => apply opt_same_Some in H as (? & -> & ->%same_bool)
  end.
  rewrite read_code_value. unfold is_true. simpl. by destruct (er_error response) as [? ? []].
Qed.

Lemma same_some (v w : app_json) : same_json v w → opt_same (Some v) (Some w).
Proof. by constructor. Qed.

(** A document that passed a guard is one of the responses that the guard describes. *)
Lemma received {A} guard {ok : A → Prop} {value} `{!Guards guard ok (fun x => Some (value x))} w :
  ok_document (Some w) → guard (Some w) = true → ∃ response, ok response ∧ same_json w (value response).
Proof.
  intros Hw (response & Hr & Hs)%guards; [|done]. apply opt_same_Some in Hs as (v & [= <-] & Hs). eauto.
Qed.

(** The client's answer to a call: the document that the transport gave, exactly when it is a
    well-formed response; the error of a well-formed error response; [transport_failure] when the
    transport fails; [invalid_response] otherwise. *)
Definition returns_only {A} (ok : A → Prop) (value : A → app_json) (answer : transport_answer)
    (r : result AgentHostClientError app_json) : Prop :=
  (∀ w, r = Ok w ↔ answer = Ok (Document (Some w)) ∧ ∃ response, ok response ∧ same_json w (value response)) ∧
  (∀ v response, answer = Ok (Document (Some v)) → error_response_ok response →
    same_json v (error_response_value response) → r = Throw {|
      ce_code := HostCode (he_code (er_error response)); ce_message := he_message (er_error response);
      ce_detail := Some (er_error response) |}) ∧
  (answer = Throw () → r = Throw (client_error (HostCode TransportFailure) "Agent Host transport failed")) ∧
  (∀ e, r = Throw e → answer = Throw () ∨ ce_code e = InvalidResponse ∨
    ∃ v response, answer = Ok (Document (Some v)) ∧ error_response_ok response ∧
      same_json v (error_response_value response)).

Lemma returns_only_intro {A} (ok : A → Prop) (value : A → app_json) kind check message answer :
  ok_answer answer →
  (∀ w, client_receive kind check message answer = Ok w ↔
    answer = Ok (Document (Some w)) ∧ ∃ response, ok response ∧ same_json w (value response)) →
  returns_only ok value answer (client_receive kind check message answer).
Proof.
  intros Hok Hiff. split_and!; [done| |by intros ->|].
  - intros v response -> Hr Hs. apply client_receive_error; [|done..]. by apply (Hok _ eq_refl).
  - intros e He. destruct answer as [o|[]]; [|by left]. right.
    unfold client_receive, client_send in He. destruct o as [o|]; [|left; by simplify_eq/=].
    cbn [isServerMessage record_of] in He. specialize (Hok _ eq_refl).
    destruct (isAgentHostServerMessage o) eqn:Ho; [|left; by simplify_eq/=].
    apply on_record_iff in Ho as Hr. destruct Hr as (fs & -> & _). simpl in He.
    destruct (is_text "wanex.agent-host.error" _) eqn:Hk; [|left; by case_match; simplify_eq/=].
    right. apply is_text_iff in Hk. destruct (server_kind _ Ho) as (_ & _ & _ & _ & Hg).
    destruct (received isErrorResponse _ Hok (Hg Hk)) as (response & Hr & Hs). eauto 10.
Qed.

(** (C38) The client's messages and answers.  A handshake sends the request it was given, an
    operation (a command or a read) and a replay send theirs with the fresh identifier.  Then, of
    anything that the transport gives, the client returns exactly a well-formed response of the
    kind it asked for, which carries the identifier it sent; it throws the error that a
    well-formed error response reports, [transport_failure] when the transport fails, and
    [invalid_response] for everything else. *)
Theorem client_responses_iff request requestId mode operation payload deadlineAt streamId afterSequence
    limit answer :
  ok_answer answer →
  (let '(sent, r) := client_handshake request answer in
   sent = HandshakeRequestMessage request ∧
   returns_only handshake_response_ok handshake_response_value answer r) ∧
  (let '(sent, r) := client_operation requestId mode operation payload deadlineAt answer in
   sent = OperationRequestMessage {| oq_mode := mode; oq_requestId := requestId;
     oq_domain := DomainAssistant; oq_operation := operation; oq_payload := payload;
     oq_deadlineAt := deadlineAt |} ∧
   returns_only (fun response => operation_response_ok response ∧ op_requestId response = requestId)
     operation_response_value answer r) ∧
  (let '(sent, r) := client_replay requestId streamId afterSequence limit answer in
   sent = ReplayRequestMessage {| rq_requestId := requestId; rq_streamId := streamId;
     rq_afterSequence := afterSequence; rq_limit := limit |} ∧
   returns_only (fun response => replay_response_ok response ∧ rr_requestId response = requestId)
     replay_response_value answer r).
Proof.
  intros Hok. split_and!; (split; [done|]); apply returns_only_intro; [done| |done| |done|];
    intros w; rewrite client_receive_Ok by done; split.
  - intros (-> & Hm & fs & -> & Hk & _). split; [done|]. specialize (Hok _ eq_refl). destruct (server_kind _ Hm) as (Hg & _).
    by apply (received isHandshakeResponse _ Hok), Hg.
  - intros (-> & response & Hr & Hs). apply (same_some w) in Hs as Hs'. specialize (Hok _ eq_refl).
    split_and!; [done|apply guards; [done|]; by exists (HandshakeResponseMessage response)|].
    read_object Hs'. simplify_eq. eexists. split_and!; [done|by apply opt_same_text|done].
  - intros (-> & Hm & fs & -> & Hk & Hid). split; [done|]. specialize (Hok _ eq_refl). destruct (server_kind _ Hm) as (_ & Hg & _).
    destruct (received isOperationResponse _ Hok (Hg Hk)) as (response & Hr & Hs).
    exists response. split; [split; [done|]|done]. apply same_some in Hs. read_object Hs. simplify_eq.
    by eapply answers_iff.
  - intros (-> & response & [Hr <-] & Hs). apply (same_some w) in Hs as Hs'. specialize (Hok _ eq_refl).
    split_and!; [done|apply guards; [done|]; by exists (OperationResponseMessage response)|].
    read_object Hs'. simplify_eq. eexists. split_and!; [done|by apply opt_same_text|by eapply answers_iff].
  - intros (-> & Hm & fs & -> & Hk & Hid). split; [done|]. specialize (Hok _ eq_refl). destruct (server_kind _ Hm) as (_ & _ & _ & Hg & _).
    destruct (received isEventReplayResponse _ Hok (Hg Hk)) as (response & Hr & Hs).
    exists response. split; [split; [done|]|done]. apply same_some in Hs. read_object Hs. simplify_eq.
    by eapply answers_iff.
  - intros (-> & response & [Hr <-] & Hs). apply (same_some w) in Hs as Hs'. specialize (Hok _ eq_refl).
    split_and!; [done|apply guards; [done|]; by exists (ReplayResponseMessage response)|].
    read_object Hs'. simplify_eq. eexists. split_and!; [done|by apply opt_same_text|by eapply answers_iff].
Qed.

Lemma client_responses_iff_witness :
  let v := server_message_value sample_page_response in
  let call id := client_replay (js id) (js "s1") 3 2 (Ok (Document (Some v))) in
  (call "r1").2 = Ok v ∧ (∀ w, (call "r2").2 ≠ Ok w) ∧
  ∃ response, (replay_response_ok response ∧ rr_requestId response = js "r1") ∧
    same_json v (replay_response_value response).
Proof.
  intros v call.
  assert (ok_answer (Ok (Document (Some v)))) as Hok.
  { intros o [= <-]. apply ok_some. vm_compute.
    split_and!; try done; repeat constructor; try (apply (bool_decide_unpack _); vm_compute; exact I). }
  assert ((call "r1").2 = Ok v) as Hr by by vm_compute.
  split_and!; [done|intros w Hw; vm_compute in Hw; discriminate Hw|].
  pose proof (client_responses_iff
    {| hq_clientId := js "c1"; hq_accessToken := []; hq_requestedDomains := [] |}
    (js "r1") ReadMode [] AppNull None (js "s1") 3 2 _ Hok) as (_ & _ & _ & Hiff & _).
  by apply Hiff in Hr as [_ Hr].
Defined.
