(* ===== verification/HostStream.v ===== *)
(** The stream of events that a remote client of an agent host receives: what happened after
    its cursor is replayed page by page while live events wait, then live events follow, through
    a bounded queue ([packages/runtime/src/host/remote-event-stream.ts]). *)
From Stdlib Require Import Floats.SpecFloat.
From S2P Require Import Prelude JsMap Json JsStr JsonText Protocol ExecutionBinding AgentHost.

(** * Cursors *)

Record RemoteAgentHostEventStreamCursor := { cu_streamId : jstr; cu_afterSequence : Z }.

(** The decimal text of an integer. *)
Definition integer_text (z : Z) : jstr :=
  if decide (z < 0)%Z then 45%N :: dec_string (Z.abs_N z) else dec_string (Z.to_N z).

Definition formatRemoteAgentHostEventStreamCursor (cursor : RemoteAgentHostEventStreamCursor) : jstr :=
  cu_streamId cursor ++ js ":" ++ integer_text (cu_afterSequence cursor).

(** Decimal digits, without a leading zero. *)
Definition is_sequence_text (s : jstr) : bool :=
  bool_decide (s = js "0") ||
  match s with c :: s => in_range 49 57 c && forallb is_digit s | [] => false end.

(** [Number(text)] of a decimal text, where it is a safe integer.  A longer text is rounded, to
    no safe integer. *)
Definition safe_numeral (s : jstr) : option Z :=
  n ← parse_numeral s; if is_safe (Z.of_N n) then Some (Z.of_N n) else None.

Definition CURSOR_INVALID : jstr := js "Last-Event-ID is not a valid Agent Host event cursor".
Definition CURSOR_RANGE : jstr := js "Last-Event-ID sequence is out of range".

(** [Throw] is the result that is not [ok].  Without a colon [value.slice(0, -1)] is taken for
    the stream's name, but the position of the colon is refused. *)
Definition parseRemoteAgentHostEventStreamCursor (value : option jstr)
    : result jstr (option RemoteAgentHostEventStreamCursor) :=
  match value with
  | None => Ok None
  | Some value =>
      match last_index_of COLON value with
      | None | Some 0 => Throw CURSOR_INVALID
      | Some separator =>
          let streamId := take separator value in
          let sequenceText := drop (S separator) value in
          if negb (token_ok streamId) || negb (is_sequence_text sequenceText) then Throw CURSOR_INVALID
          else match safe_numeral sequenceText with
          | None => Throw CURSOR_RANGE
          | Some afterSequence =>
              Ok (Some {| cu_streamId := streamId; cu_afterSequence := afterSequence |})
          end
      end
  end.

(** * Frames *)

Inductive RemoteAgentHostEventStreamResetReason :=
| ResetGap | ResetOverflow | ResetStreamReplaced | ResetUnavailable.

#[export] Instance RemoteAgentHostEventStreamResetReason_eq_dec :
  EqDecision RemoteAgentHostEventStreamResetReason.
Proof. solve_decision. Defined.

#[export, refine] Instance RemoteAgentHostEventStreamResetReason_enum :
    StringEnum RemoteAgentHostEventStreamResetReason := {|
  enum_values := [ResetGap; ResetOverflow; ResetStreamReplaced; ResetUnavailable];
  enum_name k := match k with
    | ResetGap => "gap" | ResetOverflow => "overflow" | ResetStreamReplaced => "stream_replaced"
    | ResetUnavailable => "unavailable"
    end%string |}.
Proof. all: solve_enum. Defined.

Record RemoteAgentHostEventStreamReset := {
  rt_reason : RemoteAgentHostEventStreamResetReason;
  rt_streamId : option jstr;
  rt_latestSequence : Z;
}.

Definition REMOTE_AGENT_HOST_SSE_EVENT_NAME : string := "agent_host_event".
Definition REMOTE_AGENT_HOST_SSE_RESET_NAME : string := "agent_host_reset".

Record RemoteAgentHostSseFrame := {
  sf_event : string;
  sf_id : option jstr;
  sf_data : app_json;
}.

#[export] Instance RemoteAgentHostSseFrame_eq_dec : EqDecision RemoteAgentHostSseFrame.
Proof. solve_decision. Defined.

Definition eventData (event : AgentHostEvent) : app_json := event_value event.

Definition event_frame (event : AgentHostEvent) : RemoteAgentHostSseFrame := {|
  sf_event := REMOTE_AGENT_HOST_SSE_EVENT_NAME;
  sf_id := Some (formatRemoteAgentHostEventStreamCursor
    {| cu_streamId := ev_streamId event; cu_afterSequence := ev_sequence event |});
  sf_data := eventData event |}.

Definition reset_value (reset : RemoteAgentHostEventStreamReset) : app_json := object [
  ("reason", member_value (rt_reason reset)); ("canonicalReadRequired", Some (AppBool true));
  ("streamId", rt_streamId reset ≫= text); ("latestSequence", number (rt_latestSequence reset))]%string.

Definition reset_frame (reset : RemoteAgentHostEventStreamReset) : RemoteAgentHostSseFrame := {|
  sf_event := REMOTE_AGENT_HOST_SSE_RESET_NAME; sf_id := None; sf_data := reset_value reset |}.

(** A frame as the object whose size is taken. *)
Definition frame_value (frame : RemoteAgentHostSseFrame) : app_json := object [
  ("event", literal (sf_event frame)); ("id", sf_id frame ≫= text); ("data", Some (sf_data frame))]%string.

(** * The queue ([BoundedFrameQueue])

    The calls of [next] are numbered; [bq_waiters] are those that wait, and [bq_answers] the
    answers in the order in which they were given, [None] for [done]. *)
Record BoundedFrameQueue := {
  bq_maxQueueBytes : Z;
  bq_maxFrameBytes : Z;
  bq_queue : list RemoteAgentHostSseFrame;
  bq_queueBytes : Z;
  bq_waiters : list nat;
  bq_closed : bool;
  bq_finishRequested : bool;
  bq_finished : bool;
  bq_calls : nat;
  bq_answers : list (nat * option RemoteAgentHostSseFrame);
}.

Definition new_queue (maxQueueBytes maxFrameBytes : Z) : BoundedFrameQueue := {|
  bq_maxQueueBytes := maxQueueBytes; bq_maxFrameBytes := maxFrameBytes; bq_queue := [];
  bq_queueBytes := 0; bq_waiters := []; bq_closed := false; bq_finishRequested := false;
  bq_finished := false; bq_calls := 0; bq_answers := [] |}.

Definition set_queue (frames : list RemoteAgentHostSseFrame) (bytes : Z) (q : BoundedFrameQueue)
    : BoundedFrameQueue := {|
  bq_maxQueueBytes := bq_maxQueueBytes q; bq_maxFrameBytes := bq_maxFrameBytes q;
  bq_queue := frames; bq_queueBytes := bytes; bq_waiters := bq_waiters q; bq_closed := bq_closed q;
  bq_finishRequested := bq_finishRequested q; bq_finished := bq_finished q; bq_calls := bq_calls q;
  bq_answers := bq_answers q |}.

Definition set_waiters (waiters : list nat) (answers : list (nat * option RemoteAgentHostSseFrame))
    (q : BoundedFrameQueue) : BoundedFrameQueue := {|
  bq_maxQueueBytes := bq_maxQueueBytes q; bq_maxFrameBytes := bq_maxFrameBytes q;
  bq_queue := bq_queue q; bq_queueBytes := bq_queueBytes q; bq_waiters := waiters;
  bq_closed := bq_closed q; bq_finishRequested := bq_finishRequested q; bq_finished := bq_finished q;
  bq_calls := bq_calls q; bq_answers := bq_answers q ++ answers |}.

Definition set_finish (closed finishRequested finished : bool) (q : BoundedFrameQueue)
    : BoundedFrameQueue := {|
  bq_maxQueueBytes := bq_maxQueueBytes q; bq_maxFrameBytes := bq_maxFrameBytes q;
  bq_queue := bq_queue q; bq_queueBytes := bq_queueBytes q; bq_waiters := bq_waiters q;
  bq_closed := closed; bq_finishRequested := finishRequested; bq_finished := finished;
  bq_calls := bq_calls q; bq_answers := bq_answers q |}.

Definition set_calls (calls : nat) (q : BoundedFrameQueue) : BoundedFrameQueue := {|
  bq_maxQueueBytes := bq_maxQueueBytes q; bq_maxFrameBytes := bq_maxFrameBytes q;
  bq_queue := bq_queue q; bq_queueBytes := bq_queueBytes q; bq_waiters := bq_waiters q;
  bq_closed := bq_closed q; bq_finishRequested := bq_finishRequested q; bq_finished := bq_finished q;
  bq_calls := calls; bq_answers := bq_answers q |}.

Definition resolveFinishedIfDrained (q : BoundedFrameQueue) : BoundedFrameQueue :=
  if (bq_closed q || bq_finishRequested q) && bool_decide (bq_queue q = []) &&
     bool_decide (bq_waiters q = [])
  then set_finish (bq_closed q) (bq_finishRequested q) true q else q.

Definition queue_close (q : BoundedFrameQueue) : BoundedFrameQueue :=
  if bq_closed q then q
  else set_finish true (bq_finishRequested q) true
    (set_waiters [] ((fun call => (call, None)) <$> bq_waiters q) (set_queue [] 0 q)).

Section queue.
Context (number_text : jsnum → jstr).

Definition jsonSize (value : app_json) : Z := utf8ByteLength (stringify number_text value).
Definition frame_size (frame : RemoteAgentHostSseFrame) : Z := jsonSize (frame_value frame).

(** [next]: a frame, the end, or the call waits. *)
Definition queue_next (q : BoundedFrameQueue) : BoundedFrameQueue :=
  let call := bq_calls q in
  let q := set_calls (S call) q in
  match bq_queue q with
  | frame :: frames =>
      resolveFinishedIfDrained (set_waiters (bq_waiters q) [(call, Some frame)]
        (set_queue frames (bq_queueBytes q - frame_size frame) q))
  | [] =>
      if bq_closed q || bq_finishRequested q
      then resolveFinishedIfDrained (set_waiters (bq_waiters q) [(call, None)] q)
      else set_waiters (bq_waiters q ++ [call]) [] q
  end.

Definition enqueue_frame (frame : RemoteAgentHostSseFrame) (q : BoundedFrameQueue)
    : bool * BoundedFrameQueue :=
  if bq_closed q || bq_finishRequested q then (false, q)
  else
    let bytes := frame_size frame in
    if decide (bq_maxFrameBytes q < bytes ∨ bq_maxQueueBytes q < bq_queueBytes q + bytes)%Z
    then (false, q)
    else match bq_waiters q with
    | call :: waiters => (true, set_waiters waiters [(call, Some frame)] q)
    | [] => (true, set_queue (bq_queue q ++ [frame]) (bq_queueBytes q + bytes) q)
    end.

Definition enqueueFinal (frame : RemoteAgentHostSseFrame) (q : BoundedFrameQueue)
    : bool * BoundedFrameQueue :=
  let bytes := frame_size frame in
  if decide (bq_maxFrameBytes q < bytes ∨ bq_maxQueueBytes q < bytes)%Z then (false, q)
  else match bq_waiters q with
  | call :: waiters => (true, resolveFinishedIfDrained (set_waiters waiters [(call, Some frame)] q))
  | [] => (true, set_queue (bq_queue q ++ [frame]) bytes q)
  end.

Definition replaceWithFinal (frame : RemoteAgentHostSseFrame) (q : BoundedFrameQueue)
    : BoundedFrameQueue :=
  if bq_closed q then q
  else
    let '(enqueued, q) := enqueueFinal frame (set_finish (bq_closed q) true (bq_finished q) (set_queue [] 0 q)) in
    if enqueued then q else resolveFinishedIfDrained q.

(** * The stream *)

Definition DEFAULT_REPLAY_PAGE_LIMIT : Z := 64.
Definition DEFAULT_MAX_REPLAY_PAGES : Z := 128.
Definition DEFAULT_MAX_PENDING_EVENTS : Z := 64.
Definition DEFAULT_MAX_PENDING_EVENT_BYTES : Z := 262144.
Definition DEFAULT_MAX_EVENT_FRAME_BYTES : Z := 65536.

Definition boundedPositive (value : option jsnum) (fallback maximum : Z) : result jstr Z :=
  match value with
  | None => Ok fallback
  | Some value =>
      match safe_integer value with
      | Some z =>
          if decide (1 ≤ z ≤ maximum)%Z then Ok z
          else Throw (js "remote Agent Host event stream limit must be between 1 and " ++ integer_text maximum)
      | None => Throw (js "remote Agent Host event stream limit must be between 1 and " ++ integer_text maximum)
      end
  end.

Record RemoteAgentHostEventStreamOptions := {
  so_cursor : option RemoteAgentHostEventStreamCursor;
  so_replayPageLimit : option jsnum;
  so_maxReplayPages : option jsnum;
  so_maxPendingEvents : option jsnum;
  so_maxPendingEventBytes : option jsnum;
  so_maxEventFrameBytes : option jsnum;
}.

(** The limits that are checked. *)
Record stream_limits := {
  sl_cursor : option RemoteAgentHostEventStreamCursor;
  sl_replayPageLimit : Z;
  sl_maxReplayPages : Z;
  sl_maxPendingEvents : Z;
  sl_maxPendingEventBytes : Z;
  sl_maxEventFrameBytes : Z;
}.

(** Where the replay is: it awaits a page after a number, the [n]-th page. *)
Inductive replay_state := ReplayAwaits (afterSequence : Z) (pageCount : Z) | ReplayOver.

(** [st_subscribed]: the stream holds what unsubscribes it; [st_attached]: the source has its
    listener.  [st_registered]: the end of the queue finalizes the stream. *)
Record event_stream := {
  st_queue : BoundedFrameQueue;
  st_pendingLive : list AgentHostEvent;
  st_pendingLiveBytes : Z;
  st_currentStreamId : option jstr;
  st_cursor : Z;
  st_replaying : bool;
  st_replay : replay_state;
  st_closing : bool;
  st_closed : bool;
  st_subscribed : bool;
  st_attached : bool;
  st_registered : bool;
  st_onClose : nat;
}.

Definition set_frames (queue : BoundedFrameQueue) (s : event_stream) : event_stream := {|
  st_queue := queue; st_pendingLive := st_pendingLive s; st_pendingLiveBytes := st_pendingLiveBytes s;
  st_currentStreamId := st_currentStreamId s; st_cursor := st_cursor s; st_replaying := st_replaying s;
  st_replay := st_replay s; st_closing := st_closing s; st_closed := st_closed s;
  st_subscribed := st_subscribed s; st_attached := st_attached s; st_registered := st_registered s;
  st_onClose := st_onClose s |}.

Definition set_pending (pending : list AgentHostEvent) (bytes : Z) (s : event_stream) : event_stream := {|
  st_queue := st_queue s; st_pendingLive := pending; st_pendingLiveBytes := bytes;
  st_currentStreamId := st_currentStreamId s; st_cursor := st_cursor s; st_replaying := st_replaying s;
  st_replay := st_replay s; st_closing := st_closing s; st_closed := st_closed s;
  st_subscribed := st_subscribed s; st_attached := st_attached s; st_registered := st_registered s;
  st_onClose := st_onClose s |}.

Definition set_position (currentStreamId : option jstr) (cursor : Z) (s : event_stream) : event_stream := {|
  st_queue := st_queue s; st_pendingLive := st_pendingLive s; st_pendingLiveBytes := st_pendingLiveBytes s;
  st_currentStreamId := currentStreamId; st_cursor := cursor; st_replaying := st_replaying s;
  st_replay := st_replay s; st_closing := st_closing s; st_closed := st_closed s;
  st_subscribed := st_subscribed s; st_attached := st_attached s; st_registered := st_registered s;
  st_onClose := st_onClose s |}.

Definition set_replay (replaying : bool) (replay : replay_state) (s : event_stream) : event_stream := {|
  st_queue := st_queue s; st_pendingLive := st_pendingLive s; st_pendingLiveBytes := st_pendingLiveBytes s;
  st_currentStreamId := st_currentStreamId s; st_cursor := st_cursor s; st_replaying := replaying;
  st_replay := replay; st_closing := st_closing s; st_closed := st_closed s;
  st_subscribed := st_subscribed s; st_attached := st_attached s; st_registered := st_registered s;
  st_onClose := st_onClose s |}.

(** [closing = true; unsubscribe?.(); unsubscribe = undefined] *)
Definition begin_close (s : event_stream) : event_stream := {|
  st_queue := st_queue s; st_pendingLive := st_pendingLive s; st_pendingLiveBytes := st_pendingLiveBytes s;
  st_currentStreamId := st_currentStreamId s; st_cursor := st_cursor s; st_replaying := st_replaying s;
  st_replay := st_replay s; st_closing := true; st_closed := st_closed s; st_subscribed := false;
  st_attached := st_attached s && negb (st_subscribed s); st_registered := st_registered s;
  st_onClose := st_onClose s |}.

Definition register_end (s : event_stream) : event_stream := {|
  st_queue := st_queue s; st_pendingLive := st_pendingLive s; st_pendingLiveBytes := st_pendingLiveBytes s;
  st_currentStreamId := st_currentStreamId s; st_cursor := st_cursor s; st_replaying := st_replaying s;
  st_replay := st_replay s; st_closing := st_closing s; st_closed := st_closed s;
  st_subscribed := st_subscribed s; st_attached := st_attached s; st_registered := true;
  st_onClose := st_onClose s |}.

Definition subscribed (s : event_stream) : event_stream := {|
  st_queue := st_queue s; st_pendingLive := st_pendingLive s; st_pendingLiveBytes := st_pendingLiveBytes s;
  st_currentStreamId := st_currentStreamId s; st_cursor := st_cursor s; st_replaying := st_replaying s;
  st_replay := st_replay s; st_closing := st_closing s; st_closed := st_closed s;
  st_subscribed := true; st_attached := true; st_registered := st_registered s;
  st_onClose := st_onClose s |}.

(** [finalize]; [finalized] and [closed] are set together. *)
Definition finalize_stream (s : event_stream) : event_stream :=
  if st_closed s then s else {|
  st_queue := st_queue s; st_pendingLive := st_pendingLive s; st_pendingLiveBytes := st_pendingLiveBytes s;
  st_currentStreamId := st_currentStreamId s; st_cursor := st_cursor s; st_replaying := st_replaying s;
  st_replay := st_replay s; st_closing := st_closing s; st_closed := true;
  st_subscribed := st_subscribed s; st_attached := st_attached s; st_registered := st_registered s;
  st_onClose := S (st_onClose s) |}.

Definition is_closing (s : event_stream) : bool := st_closed s || st_closing s.

(** What a replay may answer: an error, a value that is no replay response, or a response. *)
Inductive replay_answer :=
| ReplayFailed
| ReplayOther
| ReplayAnswered (page : AgentHostEventReplayResponse).

Section stream.
Context (limits : stream_limits).

Definition resetAndClose (reason : RemoteAgentHostEventStreamResetReason) (s : event_stream) : event_stream :=
  if is_closing s then s
  else
    let s := set_pending [] 0 (begin_close s) in
    let reset := {| rt_reason := reason; rt_streamId := st_currentStreamId s;
      rt_latestSequence := Z.max 0 (st_cursor s) |} in
    register_end (set_frames (replaceWithFinal (reset_frame reset) (st_queue s)) s).

Definition emitEvent (event : AgentHostEvent) (s : event_stream) : event_stream :=
  let '(enqueued, queue) := enqueue_frame (event_frame event) (st_queue s) in
  let s := set_frames queue s in
  if enqueued then set_position (Some (ev_streamId event)) (ev_sequence event) s
  else resetAndClose ResetOverflow s.

Definition addPendingLive (event : AgentHostEvent) (s : event_stream) : event_stream :=
  let bytes := jsonSize (event_value event) in
  if decide (sl_maxPendingEvents limits ≤ Z.of_nat (length (st_pendingLive s)) ∨
             sl_maxPendingEventBytes limits < st_pendingLiveBytes s + bytes)%Z
  then resetAndClose ResetOverflow s
  else set_pending (st_pendingLive s ++ [event]) (st_pendingLiveBytes s + bytes) s.

(** An event of the stream that is read, in the position of its number. *)
Definition place_event (event : AgentHostEvent) (s : event_stream) : event_stream :=
  if decide (ev_sequence event ≤ st_cursor s)%Z then s
  else if decide (ev_sequence event = st_cursor s + 1)%Z then emitEvent event s
  else resetAndClose ResetGap s.

(** A stream that is not known yet starts with the event. *)
Definition adopt (event : AgentHostEvent) (s : event_stream) : event_stream :=
  match st_currentStreamId s with
  | None => set_position (Some (ev_streamId event)) (ev_sequence event - 1) s
  | Some _ => s
  end.

Definition acceptLive (event : AgentHostEvent) (s : event_stream) : event_stream :=
  if is_closing s then s
  else if bool_decide (st_currentStreamId s = None) && st_replaying s then addPendingLive event s
  else
    let s := adopt event s in
    if decide (Some (ev_streamId event) ≠ st_currentStreamId s) then
      if st_replaying s then addPendingLive event s else resetAndClose ResetStreamReplaced s
    else if decide (ev_sequence event ≤ st_cursor s)%Z then s
    else if st_replaying s then addPendingLive event s
    else place_event event s.

Fixpoint flush_events (buffered : list AgentHostEvent) (s : event_stream) : event_stream :=
  match buffered with
  | [] => s
  | event :: buffered =>
      if is_closing s then s
      else
        let s := adopt event s in
        if decide (Some (ev_streamId event) ≠ st_currentStreamId s) then resetAndClose ResetStreamReplaced s
        else flush_events buffered (place_event event s)
  end.

Definition compare_sequence (left right : AgentHostEvent) : Z := (ev_sequence left - ev_sequence right)%Z.

Definition flushPendingLive (s : event_stream) : event_stream :=
  flush_events (js_sort compare_sequence (st_pendingLive s)) (set_pending [] 0 s).

(** The events of a page. *)
Fixpoint replay_events (events : list AgentHostEvent) (s : event_stream) : event_stream :=
  match events with
  | [] => s
  | event :: events =>
      if is_closing s then s
      else if decide (Some (ev_streamId event) ≠ st_currentStreamId s) then resetAndClose ResetStreamReplaced s
      else replay_events events (place_event event s)
  end.

Definition end_replay (s : event_stream) : event_stream := flushPendingLive (set_replay false ReplayOver s).

(** Asks for the next page. *)
Definition ask_page (afterSequence pageCount : Z) (s : event_stream) : event_stream :=
  if is_closing s then set_replay (st_replaying s) ReplayOver s
  else if decide (sl_maxReplayPages limits < pageCount + 1)%Z
  then resetAndClose ResetOverflow (set_replay (st_replaying s) ReplayOver s)
  else set_replay (st_replaying s) (ReplayAwaits afterSequence (pageCount + 1)) s.

(** A page that was read without a reset: whether it fits, and what comes after it. *)
Definition after_page (nextAfterSequence pageCount : Z) (page : AgentHostEventPage) (s : event_stream)
    : event_stream :=
  if is_closing s then s
  else if decide (pg_latestSequence page < st_cursor s)%Z then resetAndClose ResetUnavailable s
  else if pg_hasMore page && bool_decide (st_cursor s = nextAfterSequence)
  then resetAndClose ResetUnavailable s
  else if negb (pg_hasMore page) && bool_decide (st_cursor s < pg_latestSequence page)%Z
  then resetAndClose ResetUnavailable s
  else if pg_hasMore page then ask_page (st_cursor s) pageCount s
  else end_replay s.

Definition read_page (nextAfterSequence pageCount : Z) (page : AgentHostEventPage) (s : event_stream)
    : event_stream :=
  if bool_decide (st_currentStreamId s ≠ None) &&
     bool_decide (Some (pg_streamId page) ≠ st_currentStreamId s)
  then resetAndClose ResetStreamReplaced s
  else after_page nextAfterSequence pageCount page
    (replay_events (pg_events page) (set_position (Some (pg_streamId page)) (st_cursor s) s)).

(** The replay goes on with an answer. *)
Definition replay_page (answer : replay_answer) (s : event_stream) : event_stream :=
  match st_replay s with
  | ReplayOver => s
  | ReplayAwaits nextAfterSequence pageCount =>
      let s := set_replay (st_replaying s) ReplayOver s in
      match answer with
      | ReplayFailed => resetAndClose ResetUnavailable s
      | ReplayOther => if is_closing s then s else resetAndClose ResetUnavailable s
      | ReplayAnswered response =>
          if is_closing s then s
          else if negb (isAgentHostServerMessage (Some (replay_response_value response)))
          then resetAndClose ResetUnavailable s
          else if bool_decide (rr_outcome response = OutcomeGap) || bool_decide (rr_gap response ≠ None)
          then resetAndClose ResetGap s
          else match rr_page response with
          | None => resetAndClose ResetUnavailable s
          | Some page => read_page nextAfterSequence pageCount page s
          end
      end
  end.

Definition start_replay (s : event_stream) : event_stream :=
  match sl_cursor limits with
  | None => end_replay s
  | Some cursor => ask_page (cu_afterSequence cursor) 0 s
  end.

Definition close_stream (s : event_stream) : event_stream :=
  if st_closed s then s
  else
    let s := begin_close s in
    finalize_stream (set_frames (queue_close (st_queue s)) s).

(** The callback of [queue.finished]. *)
Definition queue_finished (s : event_stream) : event_stream :=
  if st_registered s && bq_finished (st_queue s) then finalize_stream s else s.

Definition new_stream : event_stream := {|
  st_queue := new_queue (sl_maxPendingEventBytes limits) (sl_maxEventFrameBytes limits);
  st_pendingLive := []; st_pendingLiveBytes := 0;
  st_currentStreamId := cu_streamId <$> sl_cursor limits;
  st_cursor := default (-1)%Z (cu_afterSequence <$> sl_cursor limits);
  st_replaying := true; st_replay := ReplayOver; st_closing := false; st_closed := false;
  st_subscribed := false; st_attached := true; st_registered := false; st_onClose := 0 |}.

(** The stream is made; [early] are events that arrive while it subscribes. *)
Definition open_stream (early : list AgentHostEvent) : event_stream :=
  start_replay (subscribed (foldl (fun s event => acceptLive event s) new_stream early)).

(** What happens to a stream. *)
Inductive stream_input :=
| Live (event : AgentHostEvent)
| Page (answer : replay_answer)
| NextCall
| CloseCall
| Finished.

Definition stream_step (s : event_stream) (input : stream_input) : event_stream :=
  match input with
  | Live event => if st_attached s then acceptLive event s else s
  | Page answer => replay_page answer s
  | NextCall => set_frames (queue_next (st_queue s)) s
  | CloseCall => close_stream s
  | Finished => queue_finished s
  end.

Definition run_stream (early : list AgentHostEvent) (inputs : list stream_input) : event_stream :=
  foldl stream_step (open_stream early) inputs.
End stream.
End queue.

(** [createRemoteAgentHostEventStream]: the checks of the limits. *)
Definition stream_options (options : RemoteAgentHostEventStreamOptions) : result jstr stream_limits :=
  replayPageLimit ← boundedPositive (so_replayPageLimit options) DEFAULT_REPLAY_PAGE_LIMIT
    AGENT_HOST_MAX_EVENT_PAGE_SIZE;
  maxReplayPages ← boundedPositive (so_maxReplayPages options) DEFAULT_MAX_REPLAY_PAGES
    DEFAULT_MAX_REPLAY_PAGES;
  maxPendingEvents ← boundedPositive (so_maxPendingEvents options) DEFAULT_MAX_PENDING_EVENTS
    DEFAULT_MAX_PENDING_EVENTS;
  maxPendingEventBytes ← boundedPositive (so_maxPendingEventBytes options)
    DEFAULT_MAX_PENDING_EVENT_BYTES DEFAULT_MAX_PENDING_EVENT_BYTES;
  maxEventFrameBytes ← boundedPositive (so_maxEventFrameBytes options)
    DEFAULT_MAX_EVENT_FRAME_BYTES DEFAULT_MAX_EVENT_FRAME_BYTES;
  Ok {| sl_cursor := so_cursor options; sl_replayPageLimit := replayPageLimit;
        sl_maxReplayPages := maxReplayPages; sl_maxPendingEvents := maxPendingEvents;
        sl_maxPendingEventBytes := maxPendingEventBytes; sl_maxEventFrameBytes := maxEventFrameBytes |}.

(** The request for the page that the replay awaits. *)
Definition page_request (limits : stream_limits) (requestId : jstr) (s : event_stream)
    : option AgentHostEventReplayRequest :=
  match st_replay s, sl_cursor limits with
  | ReplayAwaits afterSequence _, Some cursor => Some {| rq_requestId := requestId;
      rq_streamId := cu_streamId cursor; rq_afterSequence := afterSequence;
      rq_limit := sl_replayPageLimit limits |}
  | _, _ => None
  end.

(** * The queue hands out every frame once, in order *)

Definition delivered (q : BoundedFrameQueue) : list RemoteAgentHostSseFrame := omap snd (bq_answers q).
Definition frames (q : BoundedFrameQueue) : list RemoteAgentHostSseFrame := delivered q ++ bq_queue q.
Definition ending (q : BoundedFrameQueue) : bool := bq_closed q || bq_finishRequested q.

Section queue_facts.
Context (number_text : jsnum → jstr).

Definition total_size (l : list RemoteAgentHostSseFrame) : Z :=
  foldr (fun frame n => frame_size number_text frame + n)%Z 0%Z l.

(** Every call is answered once at most; a call waits only when nothing is queued; the queue
    keeps its limits; and once the end was told, it is told to all. *)
Record queue_ok (q : BoundedFrameQueue) : Prop := {
  qk_calls : NoDup ((bq_answers q).*1 ++ bq_waiters q);
  qk_below : Forall (fun call => call < bq_calls q) ((bq_answers q).*1 ++ bq_waiters q);
  qk_waiters : bq_queue q ≠ [] → bq_waiters q = [];
  qk_bytes : bq_queueBytes q = total_size (bq_queue q);
  qk_limit : (bq_queueBytes q ≤ bq_maxQueueBytes q)%Z;
  qk_frames : Forall (fun frame => frame_size number_text frame ≤ bq_maxFrameBytes q)%Z (bq_queue q);
  qk_end : ∃ n, (bq_answers q).*2 = (Some <$> delivered q) ++ replicate n None ∧
    (0 < n → bq_queue q = [] ∧ ending q = true);
}.

Lemma frame_size_nonneg frame : (0 ≤ frame_size number_text frame)%Z.
Proof. apply utf8ByteLength_nonneg. Qed.

Lemma drained_same q :
  let q' := resolveFinishedIfDrained q in
  bq_answers q' = bq_answers q ∧ bq_queue q' = bq_queue q ∧ bq_waiters q' = bq_waiters q ∧
  ending q' = ending q ∧ bq_closed q' = bq_closed q ∧ bq_maxQueueBytes q' = bq_maxQueueBytes q ∧
  bq_maxFrameBytes q' = bq_maxFrameBytes q.
Proof. unfold resolveFinishedIfDrained. by case_match. Qed.

Lemma drained_delivered q : delivered (resolveFinishedIfDrained q) = delivered q.
Proof. unfold delivered. by destruct (drained_same q) as [-> _]. Qed.

Lemma drained_ok q : queue_ok q → queue_ok (resolveFinishedIfDrained q).
Proof. intros [] . unfold resolveFinishedIfDrained. case_match; by split. Qed.

Lemma delivered_set_waiters waiters answers q :
  delivered (set_waiters waiters answers q) = delivered q ++ omap snd answers.
Proof. unfold delivered. simpl. apply omap_app. Qed.

Lemma NoDup_middle (l k : list nat) x : x ∉ l ++ k → NoDup (l ++ k) → NoDup ((l ++ [x]) ++ k).
Proof.
  intros Hx Hnd. assert ((l ++ [x]) ++ k ≡ₚ x :: l ++ k) as -> by solve_Permutation.
  by apply NoDup_cons.
Qed.

Lemma Forall_middle (P : nat → Prop) l k x : P x → Forall P (l ++ k) → Forall P ((l ++ [x]) ++ k).
Proof.
  intros Hx Hnd. assert ((l ++ [x]) ++ k ≡ₚ x :: l ++ k) as -> by solve_Permutation. by constructor.
Qed.

Lemma NoDup_end (l : list nat) x : x ∉ l → NoDup l → NoDup (l ++ [x]).
Proof. intros Hx Hl. rewrite <-(app_nil_r (l ++ [x])). by apply NoDup_middle; rewrite app_nil_r. Qed.

(** The ends that were told so far: none where a frame may still come. *)
Lemma end_none q : queue_ok q → bq_queue q ≠ [] ∨ ending q = false →
  (bq_answers q).*2 = Some <$> delivered q.
Proof.
  intros [] Hq. destruct qk_end0 as ([|n] & E & Hn); [by rewrite app_nil_r in E|].
  destruct Hn as [Hn1 Hn2]; [lia|]. destruct Hq; congruence.
Qed.

Lemma queue_next_ok q : queue_ok q →
  queue_ok (queue_next number_text q) ∧ frames (queue_next number_text q) = frames q ∧
  ending (queue_next number_text q) = ending q ∧ bq_closed (queue_next number_text q) = bq_closed q ∧
  delivered q `prefix_of` delivered (queue_next number_text q).
Proof.
  intros Hq. pose proof Hq as []. unfold queue_next. cbn [bq_queue set_calls].
  assert (bq_calls q ∉ (bq_answers q).*1 ++ bq_waiters q) as Hfresh.
  { intros Hin. rewrite Forall_forall in qk_below0. apply qk_below0 in Hin. lia. }
  assert (Forall (fun call => call < S (bq_calls q)) ((bq_answers q).*1 ++ bq_waiters q)) as Hbelow
    by (eapply Forall_impl; [done|simpl; lia]).
  destruct (bq_queue q) as [|frame l] eqn:Eq.
  - cbn [bq_closed bq_finishRequested set_calls]. fold (ending q). destruct (ending q) eqn:He.
    + set (q' := set_waiters _ _ _).
      assert (queue_ok q') as Hq'.
      { destruct qk_end0 as (n & E & Hn). split; simpl; try done; rewrite ?Eq; try done.
        - rewrite fmap_app. by apply NoDup_middle.
        - rewrite fmap_app. apply Forall_middle; [simpl; lia|done].
        - exists (S n). rewrite fmap_app, E. unfold q'. rewrite delivered_set_waiters. simpl.
          rewrite app_nil_r, <-app_assoc, <-replicate_cons_app. split; [done|]. intros _. split; [done|].
          by unfold ending in *. }
      destruct (drained_same q') as (Ha & Hqq & _ & Hend & Hc & _).
      assert (delivered q' = delivered q) as Hd by (unfold q'; rewrite delivered_set_waiters; apply app_nil_r).
      unfold frames. rewrite drained_delivered, Hqq, Hend, Hc, Hd.
      split_and!; [by apply drained_ok|done..].
    + unfold frames. rewrite delivered_set_waiters. simpl. rewrite Eq, !app_nil_r.
      split_and!; try done. destruct qk_end0 as (n & E & Hn).
      split; simpl; rewrite ?app_nil_r; try done; rewrite ?Eq; try done.
      * rewrite app_assoc. by apply NoDup_end.
      * rewrite app_assoc. apply Forall_app; split; [done|]. constructor; [lia|done].
      * rewrite delivered_set_waiters. simpl. rewrite !app_nil_r.
        exists n. split; [done|]. intros Hpos. by destruct (Hn Hpos).
  - rewrite (qk_waiters0 ltac:(done)) in *. rewrite app_nil_r in *.
    set (q' := set_waiters _ _ _).
    assert (delivered q' = delivered q ++ [frame]) as Hd by (unfold q'; by rewrite delivered_set_waiters).
    assert (queue_ok q') as Hq'.
    { split; simpl; try done; rewrite ?qk_waiters0 by done.
      - rewrite fmap_app, app_nil_r. by apply NoDup_end.
      - rewrite fmap_app, app_nil_r. apply Forall_app; split; [done|]. constructor; [simpl; lia|done].
      - done.
      - rewrite qk_bytes0. simpl. lia.
      - pose proof (frame_size_nonneg frame). lia.
      - by apply Forall_cons in qk_frames0 as [_ ?].
      - exists 0. rewrite fmap_app, Hd, (end_none q Hq) by (left; by rewrite Eq).
        rewrite fmap_app. simpl. rewrite app_nil_r. split; [done|lia]. }
    destruct (drained_same q') as (Ha & Hqq & _ & Hend & Hc & _).
    unfold frames. rewrite drained_delivered, Hqq, Hend, Hc, Hd.
    split_and!; [by apply drained_ok|by rewrite <-app_assoc, Eq|done|done|by eexists].
Qed.

Lemma total_size_app l k : total_size (l ++ k) = (total_size l + total_size k)%Z.
Proof. unfold total_size. induction l as [|frame l IH]; simpl; lia. Qed.

(** A waiting call is answered with a frame. *)
Lemma answer_waiter call waiters frame q : queue_ok q → ending q = false →
  bq_waiters q = call :: waiters → queue_ok (set_waiters waiters [(call, Some frame)] q).
Proof.
  intros Hq He Hw. pose proof Hq as []. rewrite Hw in *.
  assert (bq_queue q = []) as Hempty.
  { destruct (bq_queue q); [done|]. by specialize (qk_waiters0 ltac:(done)). }
  split; simpl; try done.
  - by rewrite fmap_app, <-app_assoc.
  - by rewrite fmap_app, <-app_assoc.
  - exists 0. rewrite fmap_app, delivered_set_waiters, (end_none q Hq) by by right.
    rewrite fmap_app. simpl. rewrite app_nil_r. split; [done|lia].
Qed.

Lemma enqueue_frame_ok frame q : queue_ok q →
  let '(enqueued, q') := enqueue_frame number_text frame q in
  queue_ok q' ∧ ending q' = ending q ∧ bq_closed q' = bq_closed q ∧
  frames q' = (if enqueued then frames q ++ [frame] else frames q) ∧ (enqueued = true → ending q = false).
Proof.
  intros Hq. pose proof Hq as []. unfold enqueue_frame. fold (ending q).
  destruct (ending q) eqn:He; [done|]. case_decide as Hfit; [done|].
  destruct (bq_waiters q) as [|call waiters] eqn:Hw.
  - split_and!; try done; [|unfold frames; simpl; by rewrite app_assoc].
    split; simpl; rewrite ?Hw; try done.
    + rewrite total_size_app. simpl. lia.
    + lia.
    + apply Forall_app. split; [done|]. constructor; [lia|done].
    + exists 0. rewrite app_nil_r. split; [|lia]. exact (end_none q Hq (or_intror He)).
  - assert (bq_queue q = []) as Hempty.
    { destruct (bq_queue q); [done|]. by specialize (qk_waiters0 ltac:(done)). }
    split_and!; try done; [by apply answer_waiter|].
    unfold frames. rewrite delivered_set_waiters. simpl. by rewrite Hempty, !app_nil_r.
Qed.

Lemma replaceWithFinal_ok frame q : (0 ≤ bq_maxQueueBytes q)%Z → queue_ok q → ending q = false →
  let q' := replaceWithFinal number_text frame q in
  queue_ok q' ∧ ending q' = true ∧
  ∃ last, length last ≤ 1 ∧ Forall (eq frame) last ∧ frames q' = delivered q ++ last.
Proof.
  intros Hmax Hq He. pose proof Hq as []. unfold replaceWithFinal.
  assert (bq_closed q = false) as -> by (unfold ending in He; by destruct (bq_closed q)).
  set (q1 := set_queue [] 0 q).
  assert (queue_ok q1) as Hq1.
  { split; simpl; try done. exists 0. rewrite app_nil_r. split; [exact (end_none q Hq (or_intror He))|lia]. }
  set (q2 := set_finish _ _ _ q1). unfold enqueueFinal.
  assert (queue_ok q2) as Hq2.
  { pose proof Hq1 as []. split; try done. destruct qk_end1 as (n & E & Hn). by exists n. }
  assert (ending q2 = true) as He2 by apply orb_true_r.
  assert (∀ q3, queue_ok q3 → ending q3 = true → frames q3 = frames (resolveFinishedIfDrained q3) ∧
    queue_ok (resolveFinishedIfDrained q3) ∧ ending (resolveFinishedIfDrained q3) = true) as Hdrained.
  { intros q3 Hq3 He3. destruct (drained_same q3) as (_ & Hqq & _ & Hend & _).
    unfold frames. rewrite drained_delivered, Hqq, Hend. split_and!; [done|by apply drained_ok|done]. }
  case_decide as Hfit.
  - destruct (Hdrained q2 Hq2 He2) as (Hf & Hok & Hend). split_and!; [done|done|]. exists [].
    rewrite <-Hf. split_and!; [simpl; lia|done|done].
  - destruct (bq_waiters q2) as [|call waiters] eqn:Hw.
    + split_and!; [|done|exists [frame]; split_and!; [done|by repeat constructor|done]].
      simpl in *. rewrite Hw in qk_calls0, qk_below0. split; simpl; rewrite ?Hw; try done.
      * unfold total_size. simpl. lia.
      * lia.
      * constructor; [lia|done].
      * exists 0. rewrite app_nil_r. split; [exact (end_none q1 Hq1 (or_intror He))|lia].
    + pose proof (answer_waiter call waiters frame q1 Hq1 He Hw) as Ha.
      set (q3 := set_waiters waiters [(call, Some frame)] q2).
      assert (queue_ok q3) as Hq3.
      { pose proof Ha as []. split; try done. destruct qk_end1 as (n & E & Hn). exists n. split; [done|].
        intros Hpos. split; [by apply Hn|done]. }
      destruct (Hdrained q3 Hq3 He2) as (Hf & Hok & Hend). split_and!; [done|done|]. exists [frame].
      rewrite <-Hf. split_and!; [done|by repeat constructor|].
      unfold frames, q3. rewrite delivered_set_waiters. simpl. by rewrite app_nil_r.
Qed.

Lemma replaceWithFinal_same frame q :
  let q' := replaceWithFinal number_text frame q in
  bq_closed q' = bq_closed q ∧ bq_maxQueueBytes q' = bq_maxQueueBytes q ∧
  bq_maxFrameBytes q' = bq_maxFrameBytes q.
Proof.
  unfold replaceWithFinal, enqueueFinal, resolveFinishedIfDrained.
  repeat (case_match || case_decide); by simplify_eq.
Qed.

Lemma replaceWithFinal_drains frame q : bq_closed q = false →
  let q' := replaceWithFinal number_text frame q in
  bq_finishRequested q' = true ∧ length (bq_queue q') ≤ 1.
Proof.
  intros Hc. unfold replaceWithFinal, enqueueFinal, resolveFinishedIfDrained. rewrite Hc.
  repeat (case_match || case_decide); simplify_eq; simpl; split; (done || lia).
Qed.

Lemma enqueue_frame_same frame q :
  let q' := (enqueue_frame number_text frame q).2 in
  bq_maxQueueBytes q' = bq_maxQueueBytes q ∧ bq_maxFrameBytes q' = bq_maxFrameBytes q.
Proof. unfold enqueue_frame. by repeat (case_match || case_decide). Qed.

Lemma queue_close_ok q : (0 ≤ bq_maxQueueBytes q)%Z → queue_ok q →
  queue_ok (queue_close q) ∧ ending (queue_close q) = true ∧
  delivered (queue_close q) = delivered q ∧
  (bq_closed q = false → frames (queue_close q) = delivered q).
Proof.
  intros Hmax Hq. pose proof Hq as []. unfold queue_close. destruct (bq_closed q) eqn:Hc.
  { split_and!; try done. unfold ending. by rewrite Hc. }
  assert (delivered (set_waiters [] ((fun call => (call, None)) <$> bq_waiters q) (set_queue [] 0 q)) =
    delivered q) as Hd.
  { rewrite delivered_set_waiters. assert (∀ l : list nat, omap snd ((fun call =>
      (call, None : option RemoteAgentHostSseFrame)) <$> l) = []) as ->; [|apply app_nil_r].
    intros l. by induction l. }
  split_and!; try done; [|unfold frames; simpl; by rewrite app_nil_r].
  assert ((fst <$> ((fun call => (call, None : option RemoteAgentHostSseFrame)) <$> bq_waiters q)) =
    bq_waiters q) as Hids by (rewrite <-list_fmap_compose; apply list_fmap_id).
  split; simpl; try done.
  - by rewrite app_nil_r, fmap_app, Hids.
  - by rewrite app_nil_r, fmap_app, Hids.
  - destruct qk_end0 as (n & E & _). exists (n + length (bq_waiters q)).
    assert (snd <$> ((fun call => (call, None : option RemoteAgentHostSseFrame)) <$> bq_waiters q) =
      replicate (length (bq_waiters q)) None) as Hnone.
    { rewrite <-list_fmap_compose. generalize (bq_waiters q). intros l. induction l; simpl; [done|by f_equal]. }
    rewrite fmap_app, E, Hnone, replicate_add, <-app_assoc. split; [|done]. f_equal.
    unfold delivered at 2. simpl. fold (delivered q). f_equal. symmetry. exact Hd.
Qed.
End queue_facts.

(** * What a stream tells *)

Lemma prefix_is_take {A} (l k : list A) : l `prefix_of` k → l = take (length l) k.
Proof. intros [m ->]. by rewrite take_app_length. Qed.

Section told.
Context (limits : stream_limits) (received : AgentHostEvent → Prop).

(** Events that were received, numbered one after the other from [start], all of one stream. *)
Record in_order (start : Z) (streamId : option jstr) (events : list AgentHostEvent) : Prop := {
  io_received : Forall received events;
  io_events i event : events !! i = Some event →
    ev_sequence event = (start + 1 + Z.of_nat i)%Z ∧ streamId = Some (ev_streamId event);
  io_start cursor : sl_cursor limits = Some cursor →
    start = cu_afterSequence cursor ∧ streamId = Some (cu_streamId cursor);
}.

(** A reset frame that tells a number no lower than that of the events before it. *)
Definition reset_after (sequence : Z) (streamId : option jstr) (frame : RemoteAgentHostSseFrame) : Prop :=
  ∃ reason latest, frame = reset_frame {| rt_reason := reason; rt_streamId := streamId;
    rt_latestSequence := latest |} ∧ (sequence ≤ latest)%Z ∧ (0 ≤ latest)%Z.

(** Frames of events in order, and at most one reset after them. *)
Definition told (frames : list RemoteAgentHostSseFrame) : Prop :=
  ∃ start streamId events reset, frames = (event_frame <$> events) ++ reset ∧
    in_order start streamId events ∧ length reset ≤ 1 ∧
    Forall (reset_after (start + Z.of_nat (length events)) streamId) reset.

Lemma in_order_take start streamId events n :
  in_order start streamId events → in_order start streamId (take n events).
Proof.
  intros []. split; [by apply Forall_take| |done]. intros i event Hi.
  by apply lookup_take_Some in Hi as [Hi _]; apply io_events0.
Qed.

Lemma reset_after_le low high streamId frame :
  (low ≤ high)%Z → reset_after high streamId frame → reset_after low streamId frame.
Proof. intros Hle (reason & latest & -> & ? & ?). exists reason, latest. split_and!; [done|lia..]. Qed.

Lemma told_prefix frames frames' : told frames → frames' `prefix_of` frames → told frames'.
Proof.
  intros (start & streamId & events & reset & -> & Ho & Hl & Hr) Hp.
  apply prefix_is_take in Hp. rewrite take_app in Hp.
  exists start, streamId, (take (length frames') events), (take (length frames' - length events) reset).
  rewrite length_fmap, <-fmap_take in Hp. split_and!; [done|by apply in_order_take| |].
  - rewrite length_take. lia.
  - eapply Forall_impl; [by apply Forall_take|]. intros frame. apply reset_after_le.
    rewrite length_take. lia.
Qed.

(** The events of an open stream that reached its cursor. *)
Definition history (queue : BoundedFrameQueue) (streamId : option jstr) (cursor : Z) : Prop :=
  ∃ start events, frames queue = event_frame <$> events ∧ in_order start streamId events ∧
    cursor = (start + Z.of_nat (length events))%Z.

Lemma history_told queue streamId cursor : history queue streamId cursor → told (frames queue).
Proof.
  intros (start & events & -> & Ho & _). exists start, streamId, events, []. rewrite app_nil_r.
  split_and!; [done|done|simpl; lia|done].
Qed.

(** A reset replaces what is queued. *)
Lemma reset_told queue streamId cursor reason : history queue streamId cursor →
  ∀ delivered last, delivered `prefix_of` frames queue → length last ≤ 1 →
    Forall (eq (reset_frame {| rt_reason := reason; rt_streamId := streamId;
      rt_latestSequence := Z.max 0 cursor |})) last → told (delivered ++ last).
Proof.
  intros (start & events & Hf & Ho & ->) delivered last Hp Hl Hlast. rewrite Hf in Hp.
  apply prefix_is_take in Hp. rewrite <-fmap_take in Hp. rewrite Hp.
  exists start, streamId, (take (length delivered) events), last.
  split_and!; [done|by apply in_order_take|done|].
  eapply Forall_impl; [done|]. intros frame <-. exists reason, (Z.max 0 (start + Z.of_nat (length events)))%Z.
  rewrite length_take. split_and!; [done|lia..].
Qed.

(** The next event. *)
Lemma in_order_snoc start streamId events event : in_order start streamId events → received event →
  ev_sequence event = (start + Z.of_nat (length events) + 1)%Z → streamId = Some (ev_streamId event) →
  in_order start streamId (events ++ [event]).
Proof.
  intros [] Hr Hs Hid. split; [apply Forall_app; by repeat constructor| |done].
  intros i event' Hi. apply lookup_app_Some in Hi as [Hi|[Hlen Hi]]; [by apply io_events0|].
  apply list_lookup_singleton_Some in Hi as [Hi <-].
  split; [|done]. lia.
Qed.
End told.

(** * The invariant of a stream *)

Section stream_facts.
Context (number_text : jsnum → jstr) (limits : stream_limits) (received : AgentHostEvent → Prop).
Hypothesis (limits_ok : (0 ≤ sl_maxPendingEventBytes limits)%Z).

Record bounds_ok (q : BoundedFrameQueue) : Prop := {
  bk_queue : queue_ok number_text q;
  bk_bytes : bq_maxQueueBytes q = sl_maxPendingEventBytes limits;
  bk_frame : bq_maxFrameBytes q = sl_maxEventFrameBytes limits;
}.

(** What an open stream keeps of its queue and its position. *)
Definition core (s : event_stream) : Prop :=
  st_onClose s = 0 ∧ bounds_ok (st_queue s) ∧ ending (st_queue s) = false ∧
  history limits received (st_queue s) (st_currentStreamId s) (st_cursor s).

(** A stream that is closing but not closed waits for its queue to drain, which holds a last
    frame at most. *)
Definition draining (s : event_stream) : Prop :=
  bq_closed (st_queue s) = false ∧ bq_finishRequested (st_queue s) = true ∧
  length (bq_queue (st_queue s)) ≤ 1 ∧ st_registered s = true.

(** A closing stream ends its queue, with events in order and one reset at most. *)
Definition closing_ok (s : event_stream) : Prop :=
  is_closing s = true ∧ bounds_ok (st_queue s) ∧ ending (st_queue s) = true ∧
  told limits received (frames (st_queue s)) ∧ st_onClose s = (if st_closed s then 1 else 0) ∧
  (st_closed s = false → draining s).

Definition accounted (s : event_stream) (event : AgentHostEvent) : Prop :=
  st_currentStreamId s = Some (ev_streamId event) ∧ (ev_sequence event ≤ st_cursor s)%Z.

(** Events of a replay or of the live source move the stream on, or close it. *)
Definition moved (s s' : event_stream) : Prop :=
  is_closing s' = false ∧ core s' ∧ (∀ event, accounted s event → accounted s' event) ∧
  (st_currentStreamId s ≠ None → st_currentStreamId s' = st_currentStreamId s) ∧
  ∃ queue streamId cursor, s' = set_frames queue (set_position streamId cursor s).

Definition outcome (s s' : event_stream) (P : Prop) : Prop := closing_ok s' ∨ moved s s' ∧ P.

Lemma moved_refl s : is_closing s = false → core s → moved s s.
Proof.
  intros Ho Hc. split_and!; try done. exists (st_queue s), (st_currentStreamId s), (st_cursor s).
  by destruct s.
Qed.

Lemma moved_trans s1 s2 s3 : moved s1 s2 → moved s2 s3 → moved s1 s3.
Proof.
  intros (_ & _ & Ha1 & Hs1 & q1 & id1 & c1 & E1) (Ho & Hc & Ha2 & Hs2 & q2 & id2 & c2 & E2).
  split_and!; try done; [auto|intros Hid; rewrite Hs2 by (by rewrite Hs1); auto|].
  exists q2, id2, c2. by subst.
Qed.

Lemma outcome_bind s s' s'' P Q : outcome s s' P → (closing_ok s' → s'' = s') →
  (moved s s' → P → outcome s' s'' Q) → outcome s s'' Q.
Proof.
  intros [Hc|[Hm HP]] Hsame Hnext; [left; by rewrite Hsame|].
  destruct (Hnext Hm HP) as [?|[? ?]]; [by left|right; split; [by eapply moved_trans|done]].
Qed.

Lemma outcome_impl s s' P (Q : Prop) : outcome s s' P → (moved s s' → P → Q) → outcome s s' Q.
Proof. intros [?|[? ?]] Himp; [by left|right; auto]. Qed.

Lemma replaceWithFinal_bounds frame q : ending q = false → bounds_ok q →
  bounds_ok (replaceWithFinal number_text frame q).
Proof.
  intros He [Hq Hb Hf]. destruct (replaceWithFinal_ok number_text frame q) as (Hq' & _ & _); [lia|done..|].
  destruct (replaceWithFinal_same number_text frame q) as (_ & Hqb & Hqf). split; congruence.
Qed.

Lemma resetAndClose_ok reason s : is_closing s = false → core s →
  closing_ok (resetAndClose number_text reason s).
Proof.
  intros Ho (Hn & Hb & He & Hh). unfold resetAndClose. rewrite Ho.
  set (frame := reset_frame _).
  destruct (replaceWithFinal_ok number_text frame (st_queue s)) as (Hq & He' & last & Hl & Hlast & Hf);
    [by rewrite (bk_bytes _ Hb)|apply Hb|done|].
  split_and!; simpl.
  - apply orb_true_r.
  - by apply replaceWithFinal_bounds.
  - done.
  - rewrite Hf. eapply reset_told; [done| |done|done]. by eexists.
  - unfold is_closing in Ho. apply orb_false_iff in Ho as [-> _]. exact Hn.
  - intros _. unfold ending in He. apply orb_false_iff in He as [He _].
    destruct (replaceWithFinal_same number_text frame (st_queue s)) as (Hcl & _ & _).
    destruct (replaceWithFinal_drains number_text frame (st_queue s) He) as [Hfr Hlen].
    unfold draining. simpl. split_and!; [congruence|done|done|done].
Qed.

(** The next event of the stream is emitted, or it overflows the queue. *)
Lemma emitEvent_ok event s : is_closing s = false → core s → received event →
  ev_sequence event = (st_cursor s + 1)%Z → st_currentStreamId s = Some (ev_streamId event) →
  outcome s (emitEvent number_text event s) (accounted (emitEvent number_text event s) event).
Proof.
  intros Ho (Hn & Hb & He & start & events & Hf & Hio & Hcur) Hr Hseq Hid. unfold emitEvent.
  pose proof (enqueue_frame_ok number_text (event_frame event) (st_queue s) (bk_queue _ Hb)) as Hq.
  pose proof (enqueue_frame_same number_text (event_frame event) (st_queue s)) as [Hqb Hqf].
  destruct (enqueue_frame _ _ _) as [enqueued q]. destruct Hq as (Hq & He' & _ & Hf' & _).
  assert (bounds_ok q) as Hb' by (destruct Hb; split; simpl in *; congruence).
  rewrite He in He'. destruct enqueued.
  - right. split; [|by split; simpl; [|lia]]. split_and!; simpl.
    + done.
    + split_and!; [done|done|done|]. exists start, (events ++ [event]). simpl.
      rewrite Hf', Hf, fmap_app, length_app, <-Hid. split_and!; [done|apply in_order_snoc; try done; lia|].
      simpl. lia.
    + intros event' [Hid' Hle]. split; simpl; [congruence|lia].
    + done.
    + by exists q, (Some (ev_streamId event)), (ev_sequence event).
  - left. apply resetAndClose_ok; [done|]. split_and!; [done..|]. exists start, events. simpl.
    by rewrite Hf'.
Qed.

Lemma place_event_ok event s : is_closing s = false → core s → received event →
  st_currentStreamId s = Some (ev_streamId event) →
  outcome s (place_event number_text event s) (accounted (place_event number_text event s) event).
Proof.
  intros Ho Hc Hr Hid. unfold place_event. case_decide as Hle.
  { right. split; [by apply moved_refl|done]. }
  case_decide; [by apply emitEvent_ok|left; by apply resetAndClose_ok].
Qed.

Lemma adopt_ok event s : is_closing s = false → core s → sl_cursor limits = None ∨ st_currentStreamId s ≠ None →
  moved s (adopt event s) ∧ st_currentStreamId (adopt event s) ≠ None.
Proof.
  intros Ho Hc Hnone. unfold adopt. destruct (st_currentStreamId s) as [streamId|] eqn:Hid.
  { split; [by apply moved_refl|by rewrite Hid]. }
  destruct Hnone as [Hnone|]; [|done]. split; [|done]. destruct Hc as (Hn & Hb & He & start & events & Hf & Hio & Hcur).
  assert (events = []) as ->.
  { destruct events as [|event' events]; [done|].
    destruct (io_events _ _ _ _ _ Hio 0 event' eq_refl) as [_ Hid']. congruence. }
  split_and!; simpl; [done| | |done|].
  - split_and!; [done|done|done|]. exists (ev_sequence event - 1)%Z, []. simpl.
    split_and!; [done| |lia]. split; [done|done|congruence].
  - intros event' [Hid' _]. congruence.
  - by exists (st_queue s), (Some (ev_streamId event)), (ev_sequence event - 1)%Z; destruct s.
Qed.

Lemma is_closing_resets events s : is_closing s = true →
  replay_events number_text events s = s ∧ flush_events number_text events s = s.
Proof. intros Hc. destruct events; simpl; by rewrite ?Hc. Qed.

Lemma replay_events_ok events s : is_closing s = false → core s → Forall received events →
  st_currentStreamId s ≠ None → outcome s (replay_events number_text events s) True.
Proof.
  intros Ho Hc Hr Hid. revert s Ho Hc Hid.
  induction Hr as [|event events Hevent _ IH]; intros s Ho Hc Hid; simpl.
  { right. by split; [apply moved_refl|]. }
  rewrite Ho. case_decide as Hstream; [left; by apply resetAndClose_ok|].
  eapply outcome_bind; [by apply place_event_ok| |].
  - intros (Hclosing & _). by apply is_closing_resets.
  - intros (Ho' & Hc' & _ & Hid' & _) _. apply IH; [done|done|by rewrite Hid'].
Qed.

Lemma flush_events_ok events s : is_closing s = false → core s → Forall received events →
  sl_cursor limits = None ∨ st_currentStreamId s ≠ None →
  outcome s (flush_events number_text events s)
    (Forall (accounted (flush_events number_text events s)) events).
Proof.
  intros Ho Hc Hr. revert s Ho Hc.
  induction Hr as [|event events Hevent _ IH]; intros s Ho Hc Hid; simpl.
  { right. by split; [apply moved_refl|]. }
  rewrite Ho. destruct (adopt_ok event s Ho Hc Hid) as [Hadopt Hsome].
  pose proof Hadopt as (Ho1 & Hc1 & _).
  case_decide as Hstream; [left; by apply resetAndClose_ok|].
  eapply (outcome_bind _ (place_event number_text event (adopt event s))).
  - destruct (place_event_ok event (adopt event s) Ho1 Hc1 Hevent (eq_sym Hstream)) as [?|[Hm Ha]];
      [by left|right]. split; [by eapply moved_trans|exact Ha].
  - intros (Hclosing & _). by apply is_closing_resets.
  - intros _ Ha. destruct (place_event_ok event (adopt event s) Ho1 Hc1 Hevent (eq_sym Hstream))
      as [Hcl|[Hm _]].
    { left. by rewrite (proj2 (is_closing_resets events _ (proj1 Hcl))). }
    pose proof Hm as (Ho2 & Hc2 & _ & Hid2 & _).
    eapply outcome_impl; [apply IH; [done|done|right; by rewrite Hid2]|].
    intros (_ & _ & Hacc & _) Hall. constructor; [by apply Hacc|done].
Qed.

Definition pending_size (events : list AgentHostEvent) : Z :=
  foldr (fun event n => jsonSize number_text (event_value event) + n)%Z 0%Z events.

(** An open stream: what waits keeps its limits, and of the live events that were [seen] none is
    lost, each waits or is accounted for. *)
Record open_inv (seen : list AgentHostEvent) (s : event_stream) : Prop := {
  oi_open : is_closing s = false;
  oi_core : core s;
  oi_attached : st_attached s = true;
  oi_registered : st_registered s = false;
  oi_received : Forall received (st_pendingLive s);
  oi_count : st_pendingLive s ≠ [] → (Z.of_nat (length (st_pendingLive s)) ≤ sl_maxPendingEvents limits)%Z;
  oi_size : st_pendingLiveBytes s = pending_size (st_pendingLive s);
  oi_bytes : (st_pendingLiveBytes s ≤ sl_maxPendingEventBytes limits)%Z;
  oi_seen : Forall (fun event => event ∈ st_pendingLive s ∨ accounted s event) seen;
  oi_pending : st_pendingLive s ≠ [] → st_replaying s = true;
  oi_awaits : st_replay s ≠ ReplayOver → sl_cursor limits ≠ None;
}.

Definition stream_inv (seen : list AgentHostEvent) (s : event_stream) : Prop :=
  open_inv seen s ∨ closing_ok s.

Lemma known_stream s : core s → sl_cursor limits = None ∨ st_currentStreamId s ≠ None.
Proof.
  intros (_ & _ & _ & start & events & _ & Hio & _). destruct (sl_cursor limits) as [cursor|] eqn:Hc; [right|by left].
  by destruct (io_start _ _ _ _ _ Hio cursor Hc) as [_ ->].
Qed.

Lemma moved_inv seen s s' : open_inv seen s → moved s s' → open_inv seen s'.
Proof.
  intros [] (Ho & Hc & Hacc & _ & q & streamId & cursor & ->). split; simpl; try done.
  eapply Forall_impl; [done|]. intros event [?|?]; [by left|right; by apply Hacc].
Qed.

Lemma outcome_inv seen s s' P : open_inv seen s → outcome s s' P → stream_inv seen s'.
Proof. intros Hs [?|[? _]]; [by right|left; by eapply moved_inv]. Qed.

Lemma seen_more seen s event : open_inv seen s → event ∈ st_pendingLive s ∨ accounted s event →
  open_inv (event :: seen) s.
Proof. intros [] ?. split; try done. by constructor. Qed.

Lemma reset_inv seen reason s : open_inv seen s → stream_inv seen (resetAndClose number_text reason s).
Proof. intros []. right. by apply resetAndClose_ok. Qed.

Lemma pending_size_app l k : pending_size (l ++ k) = (pending_size l + pending_size k)%Z.
Proof. unfold pending_size. induction l; simpl; lia. Qed.

Lemma addPendingLive_inv seen event s : open_inv seen s → received event → st_replaying s = true →
  stream_inv (event :: seen) (addPendingLive number_text limits event s).
Proof.
  intros Hs Hr Hreplay. pose proof Hs as []. unfold addPendingLive. case_decide as Hfull.
  { right. by apply resetAndClose_ok. }
  left. split; simpl; try done.
  - apply Forall_app. split; [done|by constructor].
  - intros _. rewrite length_app. simpl. lia.
  - rewrite pending_size_app. simpl. lia.
  - lia.
  - constructor; [left; set_solver|].
    eapply Forall_impl; [done|]. intros e [?|?]; [left; set_solver|by right].
Qed.

Lemma acceptLive_inv seen event s : stream_inv seen s → received event →
  stream_inv (event :: seen) (acceptLive number_text limits event s).
Proof.
  intros [Hs|Hc] Hr; [|right; unfold acceptLive; by rewrite (proj1 Hc)].
  pose proof Hs as []. unfold acceptLive. rewrite oi_open0.
  destruct (bool_decide _ && st_replaying s) eqn:Hwait.
  { apply andb_true_iff in Hwait as [_ Hreplay]. by apply addPendingLive_inv. }
  destruct (adopt_ok event s oi_open0 oi_core0 (known_stream s oi_core0)) as [Hm Hsome].
  set (s' := adopt event s) in *. pose proof (moved_inv seen s s' Hs Hm) as Hs'.
  pose proof Hm as (Ho' & Hc' & _).
  case_decide as Hstream.
  { destruct (st_replaying s') eqn:Hreplay; [by apply addPendingLive_inv|right; by apply resetAndClose_ok]. }
  case_decide as Hle; [left; apply seen_more; [done|right; by split]|].
  destruct (st_replaying s') eqn:Hreplay; [by apply addPendingLive_inv|].
  destruct (place_event_ok event s' Ho' Hc' Hr (eq_sym Hstream)) as [?|[Hm' Ha]]; [by right|left].
  apply seen_more; [by eapply moved_inv|by right].
Qed.

Lemma set_replay_inv seen replaying replay s : open_inv seen s →
  (st_pendingLive s ≠ [] → replaying = true) → (replay ≠ ReplayOver → sl_cursor limits ≠ None) →
  open_inv seen (set_replay replaying replay s).
Proof. intros [] ??. by split. Qed.

Lemma end_replay_inv seen s : open_inv seen s → stream_inv seen (end_replay number_text s).
Proof.
  intros Hs. pose proof Hs as []. unfold end_replay, flushPendingLive. cbn [st_pendingLive set_replay].
  set (s0 := set_pending [] 0 (set_replay false ReplayOver s)).
  pose proof (js_sort_perm compare_sequence (st_pendingLive s)) as Hperm.
  assert (Forall received (js_sort compare_sequence (st_pendingLive s))) as Hr by by rewrite Hperm.
  destruct (flush_events_ok _ s0 oi_open0 oi_core0 Hr (known_stream s oi_core0)) as [?|[Hm Ha]];
    [by right|left].
  set (s' := flush_events _ _ s0) in *. rewrite Hperm, Forall_forall in Ha. destruct Hm as (Ho & Hc & Hacc & _ & q & streamId & cursor & E).
  clearbody s'. subst s'. split; simpl; try done.
  eapply Forall_impl; [done|]. intros event [?|?]; right; [by apply Ha|by apply Hacc].
Qed.

Lemma ask_page_inv seen afterSequence pageCount s : open_inv seen s → sl_cursor limits ≠ None →
  stream_inv seen (ask_page number_text limits afterSequence pageCount s).
Proof.
  intros Hs Hcursor. unfold ask_page. rewrite (oi_open _ _ Hs). case_decide.
  - apply reset_inv, set_replay_inv; [done|apply Hs|done].
  - left. apply set_replay_inv; [done|apply Hs|done].
Qed.

Lemma after_page_inv seen afterSequence pageCount page s : stream_inv seen s → sl_cursor limits ≠ None →
  stream_inv seen (after_page number_text limits afterSequence pageCount page s).
Proof.
  intros [Hs|Hc] Hcursor; [|right; unfold after_page; by rewrite (proj1 Hc)].
  unfold after_page. rewrite (oi_open _ _ Hs). repeat case_match; try by apply reset_inv.
  - by apply ask_page_inv.
  - by apply end_replay_inv.
Qed.

Lemma replay_page_inv seen answer s : stream_inv seen s →
  (∀ response page, answer = ReplayAnswered response → rr_page response = Some page →
    Forall received (pg_events page)) →
  stream_inv seen (replay_page number_text limits answer s).
Proof.
  intros Hs Hr. unfold replay_page. destruct (st_replay s) as [afterSequence pageCount|] eqn:Hreplay; [|done].
  destruct Hs as [Hs|Hc].
  2: { right. set (s' := set_replay _ _ s). assert (closing_ok s') as Hc' by exact Hc.
    unfold resetAndClose. by repeat case_match; rewrite ?(proj1 Hc'); try discriminate;
      try (exact Hc'); rewrite (proj1 Hc') in *. }
  assert (sl_cursor limits ≠ None) as Hcursor by (apply (oi_awaits _ _ Hs); by rewrite Hreplay).
  assert (open_inv seen (set_replay (st_replaying s) ReplayOver s)) as Hs'
    by (apply set_replay_inv; [done|apply Hs|done]).
  set (s' := set_replay _ _ s) in *. rewrite (oi_open _ _ Hs').
  destruct answer as [| |response]; try by apply reset_inv.
  case_match; [by apply reset_inv|]. case_match; [by apply reset_inv|].
  destruct (rr_page response) as [page|] eqn:Hpage; [|by apply reset_inv].
  specialize (Hr _ _ eq_refl Hpage). unfold read_page.
  case_match eqn:Hid; [by apply reset_inv|]. apply after_page_inv; [|done].
  assert (st_currentStreamId s' = Some (pg_streamId page)) as Hsame.
  { destruct (known_stream s' (oi_core _ _ Hs')) as [|Hsome]; [done|].
    rewrite (bool_decide_true _ Hsome) in Hid. by apply bool_decide_eq_false, dec_stable in Hid. }
  rewrite <-Hsame. assert (set_position (st_currentStreamId s') (st_cursor s') s' = s') as -> by by destruct s.
  eapply outcome_inv; [done|]. apply replay_events_ok; [apply Hs'|apply Hs'|done|by rewrite Hsame].
Qed.

Lemma queue_close_same q : bounds_ok q → bounds_ok (queue_close q).
Proof.
  intros [Hq Hb Hf]. destruct (queue_close_ok number_text q) as [Hq' _]; [lia|done|].
  split; [done|..]; unfold queue_close; by case_match.
Qed.

Lemma queue_next_same q : bounds_ok q → bounds_ok (queue_next number_text q).
Proof.
  intros [Hq Hb Hf]. destruct (queue_next_ok number_text q Hq) as [Hq' _].
  split; [done|..]; unfold queue_next, resolveFinishedIfDrained; by repeat case_match.
Qed.

Lemma close_stream_ok s : told limits received (frames (st_queue s)) → bounds_ok (st_queue s) →
  st_onClose s = 0 → st_closed s = false → bq_closed (st_queue s) = false → closing_ok (close_stream s).
Proof.
  intros Ht Hb Hn Hc Hq. unfold close_stream, finalize_stream. rewrite Hc. simpl. rewrite Hc.
  destruct (queue_close_ok number_text (st_queue s)) as (_ & He & _ & Hf);
    [by rewrite (bk_bytes _ Hb)|apply Hb|].
  split_and!; simpl; [done|by apply queue_close_same|done| |by rewrite Hn|done].
  rewrite (Hf Hq). eapply told_prefix; [done|]. by eexists.
Qed.

Lemma next_drains s : draining s → draining (set_frames (queue_next number_text (st_queue s)) s).
Proof.
  intros (Hc & Hf & Hl & Hr). unfold draining. simpl. unfold queue_next, resolveFinishedIfDrained. simpl.
  destruct (bq_queue (st_queue s)) eqn:Hq; simpl in *; repeat (case_match; simpl);
    split_and!; try done; rewrite ?Hq; simpl; lia.
Qed.

Lemma closing_next s : closing_ok s → closing_ok (set_frames (queue_next number_text (st_queue s)) s).
Proof.
  intros (Hc & Hb & He & Ht & Hn & Hd).
  destruct (queue_next_ok number_text (st_queue s) (bk_queue _ Hb)) as (_ & Hf' & He' & _).
  split_and!; simpl; [done|by apply queue_next_same|congruence|by rewrite Hf'|done|].
  intros Hcl. by apply next_drains, Hd.
Qed.

Lemma open_next seen s : open_inv seen s → open_inv seen (set_frames (queue_next number_text (st_queue s)) s).
Proof.
  intros []. destruct oi_core0 as (Hn & Hb & He & start & events & Hf & Hio & Hcur).
  destruct (queue_next_ok number_text (st_queue s) (bk_queue _ Hb)) as (_ & Hf' & He' & _).
  split; try done. split_and!; [done|by apply queue_next_same|simpl; congruence|].
  exists start, events. simpl. by rewrite Hf'.
Qed.

Lemma close_inv seen s : stream_inv seen s → closing_ok (close_stream s).
Proof.
  intros Hs. destruct (st_closed s) eqn:Hc.
  - unfold close_stream. rewrite Hc. destruct Hs as [Hs|Hs]; [|done].
    pose proof (oi_open _ _ Hs) as Ho. unfold is_closing in Ho. by rewrite Hc in Ho.
  - destruct Hs as [[]|(_ & Hb & _ & Ht & Hn & Hd)].
    + destruct oi_core0 as (Hn & Hb & He & Hh). apply close_stream_ok; try done.
      * by eapply history_told.
      * unfold ending in He. by destruct (bq_closed _).
    + rewrite Hc in Hn. apply close_stream_ok; try done. by destruct (Hd Hc).
Qed.

Lemma step_inv seen s input : stream_inv seen s →
  (∀ event, input = Live event → received event) →
  (∀ response page, input = Page (ReplayAnswered response) → rr_page response = Some page →
    Forall received (pg_events page)) →
  stream_inv (match input with Live event => event :: seen | _ => seen end)
    (stream_step number_text limits s input).
Proof.
  intros Hs Hlive Hpage. destruct input as [event|answer| | |]; simpl.
  - pose proof (acceptLive_inv seen event s Hs (Hlive _ eq_refl)) as Ha.
    destruct (st_attached s) eqn:Hattached; [done|]. destruct Hs as [Hs|Hs]; [|by right].
    by rewrite (oi_attached _ _ Hs) in Hattached.
  - apply replay_page_inv; [done|]. intros response page ->. by apply Hpage.
  - destruct Hs as [Hs|Hs]; [left; by apply open_next|right; by apply closing_next].
  - right. by eapply close_inv.
  - unfold queue_finished. destruct (st_registered s && bq_finished (st_queue s)) eqn:Hr; [|done].
    destruct Hs as [Hs|Hs]; [by rewrite (oi_registered _ _ Hs) in Hr|]. right.
    unfold finalize_stream. case_match eqn:Hcl; [done|]. destruct Hs as (_ & Hb & He & Ht & Hn & _).
    rewrite Hcl in Hn. by split_and!; simpl; rewrite ?Hn.
Qed.

Lemma new_stream_inv : (0 < sl_maxPendingEvents limits)%Z → open_inv [] (new_stream limits).
Proof.
  intros Hpos. split; simpl; try done.
  split; [done|]. split; [split; try done; split; simpl; try done; [constructor|]|split; [done|]].
  { exists 0. split; [done|lia]. }
  exists (default (-1)%Z (cu_afterSequence <$> sl_cursor limits)), []. split; [done|split; [|simpl; lia]].
  split; [done|done|]. intros cursor Hcursor. simpl. by rewrite Hcursor.
Qed.

Lemma subscribed_inv seen s : stream_inv seen s → stream_inv seen (subscribed s).
Proof. intros [[]|Hs]; [left; by split|by right]. Qed.

Lemma start_replay_inv seen s : stream_inv seen s → stream_inv seen (start_replay number_text limits s).
Proof.
  intros [Hs|Hc]; unfold start_replay; destruct (sl_cursor limits) as [cursor|] eqn:Hcursor.
  - apply ask_page_inv; [done|by rewrite Hcursor].
  - by apply end_replay_inv.
  - right. unfold ask_page. by rewrite (proj1 Hc).
  - right. unfold end_replay, flushPendingLive. set (s' := set_pending [] 0 (set_replay false ReplayOver s)).
    rewrite (proj2 (is_closing_resets _ s' (proj1 Hc))). exact Hc.
Qed.

Lemma open_stream_inv early : (0 < sl_maxPendingEvents limits)%Z → Forall received early →
  stream_inv (reverse early) (open_stream number_text limits early).
Proof.
  intros Hpos Hr. unfold open_stream. apply start_replay_inv, subscribed_inv.
  induction early as [|event early IH] using rev_ind; simpl; [left; by apply new_stream_inv|].
  apply Forall_app in Hr as [Hr Hevent]. apply Forall_cons in Hevent as [Hevent _].
  rewrite foldl_snoc, reverse_snoc. apply acceptLive_inv; auto.
Qed.
End stream_facts.

(** The events that come in: live ones, and those of pages. *)
Definition live_events (inputs : list stream_input) : list AgentHostEvent :=
  omap (fun input => match input with Live event => Some event | _ => None end) inputs.

Definition page_events (inputs : list stream_input) : list AgentHostEvent :=
  mjoin ((fun input => match input with
    | Page (ReplayAnswered response) => from_option pg_events [] (rr_page response)
    | _ => []
    end) <$> inputs).

Lemma run_stream_inv number_text limits early inputs :
  (0 < sl_maxPendingEvents limits)%Z → (0 ≤ sl_maxPendingEventBytes limits)%Z →
  stream_inv number_text limits (fun event => event ∈ early ++ live_events inputs ++ page_events inputs)
    (reverse (early ++ live_events inputs)) (run_stream number_text limits early inputs).
Proof.
  intros Hpos Hbytes. unfold run_stream.
  set (received := fun event => event ∈ early ++ live_events inputs ++ page_events inputs).
  assert (∀ s seen rest, stream_inv number_text limits received seen s →
    (∀ event, event ∈ live_events rest ++ page_events rest → received event) →
    stream_inv number_text limits received (reverse (live_events rest) ++ seen)
      (foldl (stream_step number_text limits) s rest)) as Hrun.
  { intros s seen rest. revert s seen. induction rest as [|input rest IH]; intros s seen Hs Hr; [done|].
    simpl. assert (∀ event, event ∈ live_events rest ++ page_events rest → received event) as Hrest.
    { intros event Hin. apply Hr. unfold live_events, page_events in *. simpl.
      destruct input as [|[| |response]| | |]; simpl; set_solver. }
    pose proof (step_inv number_text limits received Hbytes seen s input Hs) as Hstep.
    destruct input as [event|answer| | |]; try (apply IH; [apply Hstep; by intros|done]).
    - change (live_events (Live event :: rest)) with (event :: live_events rest).
      rewrite reverse_cons, <-app_assoc. apply IH; [|done]. apply Hstep; [|done]. intros ? [= <-]. apply Hr.
      change (live_events (Live event :: rest)) with (event :: live_events rest). set_solver.
    - apply IH; [|done]. apply Hstep; [done|]. intros response page [= ->] Hpage.
      apply Forall_forall. intros event Hin. apply Hr. unfold page_events. simpl. rewrite Hpage. simpl.
      set_solver. }
  rewrite reverse_app. apply Hrun.
  - apply open_stream_inv; [done|done|]. apply Forall_forall. unfold received. set_solver.
  - unfold received. set_solver.
Qed.

(** * The limits of a stream *)

Lemma boundedPositive_Ok value fallback maximum z : (1 ≤ fallback ≤ maximum)%Z →
  boundedPositive value fallback maximum = Ok z → (1 ≤ z ≤ maximum)%Z.
Proof. intros Hf. unfold boundedPositive. repeat case_match; intros [= <-]; done. Qed.

Lemma stream_options_Ok options limits : stream_options options = Ok limits →
  sl_cursor limits = so_cursor options ∧
  (1 ≤ sl_replayPageLimit limits ≤ AGENT_HOST_MAX_EVENT_PAGE_SIZE)%Z ∧
  (1 ≤ sl_maxReplayPages limits ≤ DEFAULT_MAX_REPLAY_PAGES)%Z ∧
  (1 ≤ sl_maxPendingEvents limits ≤ DEFAULT_MAX_PENDING_EVENTS)%Z ∧
  (1 ≤ sl_maxPendingEventBytes limits ≤ DEFAULT_MAX_PENDING_EVENT_BYTES)%Z ∧
  (1 ≤ sl_maxEventFrameBytes limits ≤ DEFAULT_MAX_EVENT_FRAME_BYTES)%Z.
Proof.
  unfold stream_options. cbn. intros H.
  inv_result. simpl.
  repeat match goal with
  | H : boundedPositive _ _ _ = Ok _ |- _ =>
      apply boundedPositive_Ok in H; [|by vm_compute; split; discriminate]
  end.
  split_and!; try done.
  all: lia.
Qed.

Lemma run_options_inv options limits number_text early inputs : stream_options options = Ok limits →
  stream_inv number_text limits (fun event => event ∈ early ++ live_events inputs ++ page_events inputs)
    (reverse (early ++ live_events inputs)) (run_stream number_text limits early inputs).
Proof.
  intros Ho. apply stream_options_Ok in Ho as (_ & _ & _ & ? & ? & _). apply run_stream_inv; lia.
Qed.

(** * What a reader of the stream can rely on *)

(** (C34) Whatever arrives, in whatever order pages, live events, reads and closes interleave, the
    frames that the calls of [next] are answered with are events that were received, all of one
    stream, numbered one after the other without a gap from the cursor, followed by at most one
    reset, which tells a number no lower than theirs, and then by the end; and no call is answered
    twice. *)
Theorem stream_in_order options limits number_text early inputs :
  stream_options options = Ok limits →
  let q := st_queue (run_stream number_text limits early inputs) in
  NoDup (bq_answers q).*1 ∧
  ∃ start streamId events reset n,
    (bq_answers q).*2 = (Some <$> (event_frame <$> events) ++ reset) ++ replicate n None ∧
    (∀ event, event ∈ events → event ∈ early ++ live_events inputs ++ page_events inputs) ∧
    (∀ i event, events !! i = Some event →
      ev_sequence event = (start + 1 + Z.of_nat i)%Z ∧ streamId = Some (ev_streamId event)) ∧
    (∀ cursor, so_cursor options = Some cursor →
      start = cu_afterSequence cursor ∧ streamId = Some (cu_streamId cursor)) ∧
    length reset ≤ 1 ∧
    Forall (reset_after (start + Z.of_nat (length events)) streamId) reset.
Proof.
  intros Ho q. pose proof (run_options_inv options limits number_text early inputs Ho) as Hinv.
  apply stream_options_Ok in Ho as (Hcursor & _).
  assert (queue_ok number_text q ∧ told limits (fun event => event ∈ early ++ live_events inputs ++
    page_events inputs) (frames q)) as [Hq Ht].
  { destruct Hinv as [[_ (_ & [Hq _ _] & _ & Hh) _ _ _ _ _ _ _ _ _]|(_ & [Hq _ _] & _ & Ht & _)];
      [|done]. split; [done|by eapply history_told]. }
  destruct (told_prefix _ _ _ (delivered q) Ht ltac:(by eexists))
    as (start & streamId & events & reset & Hd & [Hr Hs Hc] & Hl & Hreset).
  destruct Hq as [Hnd _ _ _ _ _ (n & Hans & _)]. apply NoDup_app in Hnd as (Hnd & _ & _).
  split; [done|]. exists start, streamId, events, reset, n. rewrite Hans, Hd, <-Hcursor.
  split_and!; try done. by apply Forall_forall.
Qed.

(** (C35) While a stream is open and its replay is over, no live event that came in is lost: it is of
    the stream that is read, and if it lies after the cursor, the frames that were handed out or are
    still queued hold the event of its number. *)
Theorem stream_loses_nothing options limits number_text early inputs event cursor :
  stream_options options = Ok limits → so_cursor options = Some cursor →
  let s := run_stream number_text limits early inputs in
  is_closing s = false → st_replaying s = false → event ∈ early ++ live_events inputs →
  ev_streamId event = cu_streamId cursor ∧
  ((cu_afterSequence cursor < ev_sequence event)%Z →
    ∃ event', ev_sequence event' = ev_sequence event ∧ ev_streamId event' = ev_streamId event ∧
      event_frame event' ∈ frames (st_queue s)).
Proof.
  intros Ho Hcursor s Hopen Hreplay Hin.
  pose proof (run_options_inv options limits number_text early inputs Ho) as Hinv. fold s in Hinv.
  apply stream_options_Ok in Ho as (Hsame & _). rewrite <-Hsame in Hcursor.
  destruct Hinv as [[_ (_ & _ & _ & start & events & Hf & [Hr Hs Hc] & Hcur) _ _ _ _ _ _ Hseen Hpend _]|Hcl];
    [|by rewrite (proj1 Hcl) in Hopen].
  rewrite Forall_forall in Hseen. destruct (Hseen event ltac:(by apply elem_of_reverse)) as [Hp|[Hid Hle]].
  { rewrite Hpend in Hreplay; [done|]. by intros E; rewrite E in Hp; apply not_elem_of_nil in Hp. }
  destruct (Hc _ Hcursor) as [-> Hid']. rewrite Hid in Hid'. simplify_eq. split; [done|]. intros Hlt.
  destruct (lookup_lt_is_Some_2 events (Z.to_nat (ev_sequence event - cu_afterSequence cursor - 1)))
    as [event' He]; [lia|].
  destruct (Hs _ _ He) as [Hseq Hid2]. exists event'. split_and!; [lia|congruence|].
  rewrite Hf. apply list_elem_of_fmap. exists event'. split; [done|]. by eapply list_elem_of_lookup_2.
Qed.

(** (C36) A stream that was reset ends as soon as it is read: when no call waits, one more call of
    [next] is answered, and the stream is then closed, its observer called exactly once. *)
Theorem reset_stream_ends options limits number_text early inputs :
  stream_options options = Ok limits →
  let s := run_stream number_text limits early inputs in
  is_closing s = true → bq_waiters (st_queue s) = [] →
  let s' := run_stream number_text limits early (inputs ++ [NextCall; Finished]) in
  st_closed s' = true ∧ st_onClose s' = 1 ∧
  (bq_answers (st_queue s')).*1 = (bq_answers (st_queue s)).*1 ++ [bq_calls (st_queue s)].
Proof.
  intros Ho s Hcl Hw s'.
  pose proof (run_options_inv options limits number_text early inputs Ho) as Hinv. fold s in Hinv.
  assert (s' = queue_finished (set_frames (queue_next number_text (st_queue s)) s)) as ->
    by (unfold s', run_stream; by rewrite foldl_app).
  destruct Hinv as [Hs|(_ & _ & He & _ & Hn & Hd)]; [by rewrite (oi_open _ _ _ _ _ Hs) in Hcl|].
  set (q := queue_next number_text (st_queue s)).
  assert ((bq_answers q).*1 = (bq_answers (st_queue s)).*1 ++ [bq_calls (st_queue s)] ∧
    (st_closed s = false → bq_finished q = true)) as [Ha Hfin].
  { unfold ending in He. unfold q, queue_next. simpl. destruct (bq_queue (st_queue s)) as [|frame l] eqn:Eq.
    - rewrite He. unfold resolveFinishedIfDrained. simpl. rewrite He, Eq, Hw. simpl.
      by rewrite fmap_app.
    - destruct (st_closed s) eqn:Hcd.
      + split; [|done]. destruct (drained_same (set_waiters (bq_waiters (st_queue s))
          [(bq_calls (st_queue s), Some frame)] (set_queue l (bq_queueBytes (st_queue s) -
          frame_size number_text frame) (set_calls (S (bq_calls (st_queue s))) (st_queue s))))) as [E _].
        cbn [bq_queueBytes set_calls bq_waiters set_queue] in *. rewrite E. simpl. by rewrite fmap_app.
      + destruct (Hd eq_refl) as (_ & Hfr & Hl & _). rewrite Eq in Hl. simpl in Hl.
        assert (l = []) as -> by (destruct l; [done|simpl in Hl; lia]).
        unfold resolveFinishedIfDrained. simpl. rewrite Hfr, orb_true_r, Hw. simpl. by rewrite fmap_app. }
  unfold queue_finished, finalize_stream. simpl. destruct (st_closed s) eqn:Hcd.
  - by case_match; simpl; rewrite ?Hcd.
  - destruct (Hd eq_refl) as (_ & _ & _ & ->). rewrite (Hfin eq_refl). simpl. by rewrite Hn.
Qed.

(** ** Samples *)

Definition sample_options : RemoteAgentHostEventStreamOptions := {|
  so_cursor := Some {| cu_streamId := js "s1"; cu_afterSequence := 3 |};
  so_replayPageLimit := None; so_maxReplayPages := None; so_maxPendingEvents := None;
  so_maxPendingEventBytes := None; so_maxEventFrameBytes := None |}.

Definition sample_limits : stream_limits := {|
  sl_cursor := Some {| cu_streamId := js "s1"; cu_afterSequence := 3 |};
  sl_replayPageLimit := 64; sl_maxReplayPages := 128; sl_maxPendingEvents := 64;
  sl_maxPendingEventBytes := 262144; sl_maxEventFrameBytes := 65536 |}.

Definition sample_page : AgentHostEventReplayResponse := {|
  rr_requestId := js "r1"; rr_outcome := OutcomeReplayed;
  rr_page := Some {| pg_streamId := js "s1"; pg_events := [sample_event 4; sample_event 5];
    pg_earliestSequence := 1; pg_latestSequence := 5; pg_hasMore := false |};
  rr_gap := None |}.

Definition sample_inputs : list stream_input :=
  [NextCall; Live (sample_event 6); Page (ReplayAnswered sample_page); NextCall; Live (sample_event 7)].

(** Events 4 and 5 come from a page, 6 waited for it, 7 is still queued when 9 leaves a gap. *)
Lemma stream_in_order_witness :
  let q := st_queue (run_stream (fun _ => []) sample_limits []
    (sample_inputs ++ [NextCall; Live (sample_event 9); NextCall; NextCall])) in
  stream_options sample_options = Ok sample_limits ∧ NoDup (bq_answers q).*1 ∧
  (bq_answers q).*2 = (Some ∘ event_frame <$> [sample_event 4; sample_event 5; sample_event 6]) ++
    [Some (reset_frame {| rt_reason := ResetGap; rt_streamId := Some (js "s1"); rt_latestSequence := 7 |}); None].
Proof.
  split; [by vm_compute|].
  split; [|by vm_compute].
  exact (proj1 (stream_in_order sample_options sample_limits (fun _ => []) []
    (sample_inputs ++ [NextCall; Live (sample_event 9); NextCall; NextCall]) eq_refl)).
Defined.

Lemma stream_loses_nothing_witness :
  let s := run_stream (fun _ => []) sample_limits [] sample_inputs in
  is_closing s = false ∧ st_replaying s = false ∧
  ∃ event', ev_sequence event' = 6%Z ∧ ev_streamId event' = js "s1" ∧ event_frame event' ∈ frames (st_queue s).
Proof.
  split; [by vm_compute|]. split; [by vm_compute|].
  refine (proj2 (stream_loses_nothing sample_options sample_limits (fun _ => []) [] sample_inputs
    (sample_event 6) {| cu_streamId := js "s1"; cu_afterSequence := 3 |} eq_refl eq_refl _ _ _) _);
    [by vm_compute|by vm_compute| |done].
  simpl. constructor.
Defined.

Lemma reset_stream_ends_witness :
  let inputs := sample_inputs ++ [Live (sample_event 9)] in
  let s := run_stream (fun _ => []) sample_limits [] inputs in
  let s' := run_stream (fun _ => []) sample_limits [] (inputs ++ [NextCall; Finished]) in
  (is_closing s = true ∧ st_closed s = false ∧ bq_waiters (st_queue s) = []) ∧
  st_closed s' = true ∧ st_onClose s' = 1 ∧
  (bq_answers (st_queue s')).*1 = (bq_answers (st_queue s)).*1 ++ [bq_calls (st_queue s)].
Proof.
  intros inputs s s'. assert (is_closing s = true) as Hc by by vm_compute.
  assert (bq_waiters (st_queue s) = []) as Hw by by vm_compute.
  split; [split; [exact Hc|split; [by vm_compute|exact Hw]]|].
  exact (reset_stream_ends sample_options sample_limits (fun _ => []) [] inputs eq_refl Hc Hw).
Defined.

(** ** Streams that never end *)

(** A stream that waits to drain while a call of [next] waits is stuck: nothing but [close] ends
    it, and the call is not answered. *)
Definition stuck (s : event_stream) : Prop :=
  is_closing s = true ∧ st_closed s = false ∧ st_attached s = false ∧
  bq_queue (st_queue s) = [] ∧ bq_waiters (st_queue s) ≠ [] ∧ bq_finished (st_queue s) = false ∧
  bq_closed (st_queue s) = false ∧ bq_finishRequested (st_queue s) = true.

Lemma stuck_step number_text limits s input : stuck s → input ≠ CloseCall →
  stuck (stream_step number_text limits s input) ∧
  bq_waiters (st_queue (stream_step number_text limits s input)) = bq_waiters (st_queue s).
Proof.
  intros (Hc & Hcl & Ha & Hq & Hw & Hf & Hqc & Hfr) Hi. destruct input as [event|answer| | |]; simpl.
  - by rewrite Ha.
  - unfold replay_page, resetAndClose. destruct (st_replay s); [|done].
    assert (is_closing (set_replay (st_replaying s) ReplayOver s) = true) as Hc' by exact Hc.
    rewrite !Hc'. by destruct answer.
  - unfold queue_next, resolveFinishedIfDrained. simpl. rewrite Hq, Hfr, orb_true_r. simpl.
    rewrite ?Hq, ?(bool_decide_false _ Hw). simpl.
    by split_and!.
  - done.
  - unfold queue_finished. rewrite Hf, andb_false_r. by split_and!.
Qed.

Lemma stuck_forever number_text limits s inputs : stuck s → CloseCall ∉ inputs →
  let s' := foldl (stream_step number_text limits) s inputs in
  st_closed s' = false ∧ bq_waiters (st_queue s') = bq_waiters (st_queue s).
Proof.
  revert s. induction inputs as [|input inputs IH]; intros s Hs Hn; simpl; [by split; [apply Hs|]|].
  apply not_elem_of_cons in Hn as [Hi Hn].
  destruct (stuck_step number_text limits s input Hs) as [Hs' Hw]; [done|].
  destruct (IH _ Hs' Hn) as [Hc Hw']. split; [done|congruence].
Qed.

(** A reset whose frame is larger than [maxEventFrameBytes], here 1, answers no call that waits
    for it: the reader hangs, and the observer is never called. *)
Lemma small_frames_strand_reader : ∃ limits number_text inputs,
  stream_options {| so_cursor := None; so_replayPageLimit := None; so_maxReplayPages := None;
    so_maxPendingEvents := None; so_maxPendingEventBytes := None;
    so_maxEventFrameBytes := Some (num_of_Z 1) |} = Ok limits ∧
  ∀ more, CloseCall ∉ more →
    let s := run_stream number_text limits [] (inputs ++ more) in
    is_closing s = true ∧ st_closed s = false ∧ bq_waiters (st_queue s) = [0].
Proof.
  exists {| sl_cursor := None; sl_replayPageLimit := 64; sl_maxReplayPages := 128; sl_maxPendingEvents := 64;
    sl_maxPendingEventBytes := 262144; sl_maxEventFrameBytes := 1 |}, (fun _ => []),
    [NextCall; Live (sample_event 1)].
  split; [by vm_compute|]. intros more Hm. unfold run_stream. rewrite foldl_app.
  set (limits := Build_stream_limits _ _ _ _ _ _). set (s := foldl _ _ [NextCall; Live (sample_event 1)]).
  assert (stuck s) as Hs by (vm_compute; split_and!; done).
  destruct (stuck_forever (fun _ => []) limits s more Hs Hm) as [Hc Hw].
  split_and!; [|done|by rewrite Hw].
  clear -Hs Hm. revert Hs. generalize s. clear s. induction more as [|input more IH]; intros s Hs; [by apply Hs|].
  apply not_elem_of_cons in Hm as [Hi Hm]. simpl. apply IH; [done|]. by apply stuck_step.
Qed.

(** When events overflow while the stream subscribes, the source keeps the listener, also after
    the stream has ended. *)
Lemma early_overflow_keeps_listener : ∃ limits number_text early inputs,
  stream_options {| so_cursor := None; so_replayPageLimit := None; so_maxReplayPages := None;
    so_maxPendingEvents := Some (num_of_Z 1); so_maxPendingEventBytes := None;
    so_maxEventFrameBytes := None |} = Ok limits ∧
  let s := run_stream number_text limits early inputs in
  st_closed s = true ∧ st_onClose s = 1 ∧ st_attached s = true.
Proof.
  exists {| sl_cursor := None; sl_replayPageLimit := 64; sl_maxReplayPages := 128; sl_maxPendingEvents := 1;
    sl_maxPendingEventBytes := 262144; sl_maxEventFrameBytes := 65536 |}, (fun _ => []),
    [sample_event 1; sample_event 2], [NextCall; Finished].
  by vm_compute.
Qed.

(** * Cursors are read back *)

Lemma forallb_Forall {A} (f : A → bool) l : forallb f l = true ↔ Forall (fun x => f x = true) l.
Proof. rewrite forallb_forall, Forall_forall. split; intros H x Hx; apply H; by apply elem_of_list_In || apply list_elem_of_In. Qed.

Lemma parse_numeral_digits s n : parse_numeral s = Some n → COLON ∉ s ∧ is_sequence_text s = true.
Proof.
  intros Hn. pose proof (parse_numeral_inv s n Hn) as ->. pose proof (dec_string_digits n) as Hd.
  split.
  - intros Hin. rewrite Forall_forall in Hd. by apply Hd in Hin.
  - unfold is_sequence_text. destruct (dec_string n) as [|c s] eqn:E; [by apply dec_string_nonempty in E|].
    apply Forall_cons in Hd as [Hc Hd]. destruct (decide (c = 48%N)) as [->|Hz].
    + by rewrite (dec_string_leading n 48 s E eq_refl).
    + apply orb_true_iff. right. apply andb_true_iff. split; [|by apply forallb_Forall].
      unfold is_digit in Hc. apply bool_decide_eq_true in Hc. unfold in_range.
      apply bool_decide_eq_true. lia.
Qed.

Lemma last_index_of_split c s i : last_index_of c s = Some i → take i s ++ c :: drop (S i) s = s.
Proof.
  revert i. induction s as [|x s IH]; intros i Hi; [done|]. simpl in Hi.
  destruct (last_index_of c s) as [j|] eqn:Hj; simplify_eq; simpl.
  - by rewrite (IH j eq_refl).
  - case_decide; simplify_eq. simpl. by rewrite drop_0.
Qed.

(** A text is read as a cursor exactly when it is what the cursor is written as, its stream a
    token and its number a safe integer that is not negative. *)
Lemma cursor_round_trip value cursor :
  parseRemoteAgentHostEventStreamCursor (Some value) = Ok (Some cursor) ↔
  value = formatRemoteAgentHostEventStreamCursor cursor ∧ token_ok (cu_streamId cursor) = true ∧
  (0 ≤ cu_afterSequence cursor ≤ MAX_SAFE_INTEGER)%Z.
Proof.
  unfold formatRemoteAgentHostEventStreamCursor. destruct cursor as [streamId z]. cbn [cu_streamId cu_afterSequence].
  assert (∀ s, js ":" ++ s = COLON :: s) as Hcolon by done. rewrite Hcolon. split; unfold parseRemoteAgentHostEventStreamCursor.
  - intros H. destruct (last_index_of COLON value) as [[|i]|] eqn:Hi; try discriminate.
    destruct (negb (token_ok _) || _) eqn:Hok; [discriminate|].
    apply orb_false_iff in Hok as [Hok _]. apply negb_false_iff in Hok.
    destruct (safe_numeral _) as [z'|] eqn:Hz; [|discriminate]. simplify_eq.
    unfold safe_numeral in Hz. apply bind_Some in Hz as (n & Hn & Hz). case_match eqn:Hsafe; [|done].
    simplify_eq. apply parse_numeral_inv in Hn. unfold is_safe in Hsafe.
    apply bool_decide_eq_true in Hsafe. split_and!; [|done|lia..].
    unfold integer_text. rewrite decide_False by lia. rewrite N2Z.id, <-Hn.
    symmetry. exact (last_index_of_split _ _ _ Hi).
  - intros (-> & Hok & Hz). unfold integer_text. rewrite decide_False by lia.
    pose proof (parse_dec_string (Z.to_N z)) as Hn. destruct (parse_numeral_digits _ _ Hn) as [Hc Hs].
    rewrite (last_index_of_app COLON streamId _ Hc).
    assert (∃ i, length streamId = S i) as [i Hi].
    { unfold token_ok, is_checked in Hok. destruct streamId; [by vm_compute in Hok|by eexists]. }
    rewrite Hi, <-Hi, take_app_length.
    assert (drop (S (length streamId)) (streamId ++ COLON :: dec_string (Z.to_N z)) = dec_string (Z.to_N z)) as ->
      by (rewrite drop_app_ge by lia; replace (S (length streamId) - length streamId) with 1 by lia; done).
    rewrite Hok, Hs. simpl. unfold safe_numeral. rewrite Hn. simpl. unfold is_safe.
    rewrite bool_decide_true by lia. by rewrite Z2N.id by lia.
Qed.
